(* ===== verification/_CoqProject ===== *)
-Q . S2P
Prelude.v
PyState.v
PyDict.v
PyString.v
PyFloat.v
DoubleOrder.v
Mapping.v
CacheFields.v
CacheSpec.v
CachePlan.v
CachePack.v
VirtualBlocks.v
PPStage.v
LayerOwnership.v
TransferLayout.v
OwnerTranslation.v
SlotPlacement.v
RWLock.v
EmbeddingCache.v
ExpertPlacement.v
Cxx.v
BlockPool.v
BlockPoolFacts.v
BlockPoolSafety.v
BlockRefs.v
PrefixHash.v
TailTable.v
ReqPool.v
PrefixIndex.v
PrefixIndexFacts.v
PrefixIndexSafety.v
PrefixEviction.v
PrefixMatcher.v
SchedulerConfig.v
GroupGeometry.v
GroupAllocator.v
TableSafety.v
TableExact.v
CapacityModel.v
SchedulerSetup.v
PrefillChunk.v
Request.v
RequestSafety.v
