(* ===== verification/Prelude.v ===== *)
(** * TokenSpeed: cache geometry, placement and scheduling

    TokenSpeed serves language models over many devices.  This development models two
    parts of it.  In the Python runtime ([src/python/tokenspeed/runtime/]) it is the code
    that decides where cached data lives: which rank does what, how the cache of every
    layer is laid out in one arena, which rank and stage holds which block, layer and
    field, and how blocks are named when they move.  In the scheduler extension, a C++
    library ([src/tokenspeed-scheduler/csrc/]), it is the code that hands cache memory to
    requests: pools, counted blocks, prefix caching, block tables, capacity, chunking and
    the life of a request.

    ** The parts and how they interact

    Runtime.  A model's recipe declares cache groups and the fields their layers hold;
    [pack] fits them into one LCM block (a parent) and [bind] multiplies the parent out
    into a memory plan.  Pipeline stages own windows of layers and narrow the plan to
    theirs.  The runtime contract sizes the scheduler's block identifiers from the plan;
    blocks of a sharded group are dealt cyclically to ranks, which translate them to local
    pages and slots.  Transfer layouts and the owner translation restate the plan for
    copies to host memory.  Beside them stand the lock that guards the weights, the cache
    of vision embeddings and the placement of experts.

    Scheduler.  A validated configuration builds three pools of parents, one cache group
    per attention kind, and a coordinator over them.  A pool binds parents to groups and
    hands out their slots; a slot in use is a counted reference, dropped when its last
    holder goes.  Holders are the block tables of requests, the prefix indices and the
    images of suspended requests.  A request takes events from the scheduler and moves
    between states that own its tables, its row of the request pool and its image.

    ** Files

    - [Prelude]: exceptions, the error monad [result], its tactics and hints, and lemmas
      on lists and integers.  [PyState]: the state-and-error monad of code that may throw
      half way.  [PyDict], [PyString], [PyFloat]: what the sources use of [dict],
      [sorted], [str] and [float].  [DoubleOrder]: the order of doubles, and that rounding
      is monotone.  [Cxx]: checks, vectors and ordered containers of C++.
    - [Mapping]: [distributed/mapping.py], every class with its constructor, rank setter
      and properties.  [CacheFields], [CachePlan], [CachePack]:
      [layers/attention/kv_cache/recipes/plan.py], split into field declarations, layout
      and memory plan, and packer.  [CacheSpec]: [recipes/spec.py].  [VirtualBlocks]:
      [recipes/cache_runtime.py] and [kv_cache/virtual_blocks.py].  [PPStage]:
      [distributed/pp_stage.py].  [LayerOwnership]: [recipes/ownership.py].
      [TransferLayout], [OwnerTranslation]: [cache/transfer/layout.py] and [ownership.py].
      [SlotPlacement]: [layers/attention/dcp/placement.py] and the slot translation of
      [src/tokenspeed-kernel/python/tokenspeed_kernel/ops/kvcache/triton_cache_placement.py].
    - [RWLock]: [engine/aio_rwlock.py].  [EmbeddingCache]: [cache/embedding_cache.py].
      [ExpertPlacement]: [moe/eplb_algorithms] and [moe/placement_maps.py].
    - [BlockPool], with its invariant in [BlockPoolFacts] and its theorems in
      [BlockPoolSafety]: [cache/core/block_pool.h].  [BlockRefs]:
      [cache/core/cache_block_ref.h] and [.cpp], and the invariant [owned] that the later
      files share.  [ReqPool]: [resource/allocator/req_pool_allocator.h] and [.cpp].
    - [PrefixHash], [TailTable], [PrefixIndex] with [PrefixIndexFacts],
      [PrefixIndexSafety] and [PrefixEviction], [PrefixMatcher]: [cache/prefix/].
    - [SchedulerConfig]: [cache/core/cache_config.h], [scheduler/types.h] and their
      sources.  [GroupGeometry]: [cache/coordinator/group_geometry.h].  [GroupAllocator],
      with [TableSafety] and [TableExact]: [cache/allocator/group_allocator.h] and
      [cache/core/block_table.h].  [CapacityModel]: [scheduler/capacity_model.cpp].
    - [SchedulerSetup]: the constructors of [cache/cache_group.h],
      [cache/coordinator/cache_coordinator.cpp] and [scheduler/scheduler.cpp].
      [PrefillChunk]: [scheduler/operations/prefill_chunk.cpp], [group_demands.cpp] and
      the chunk sizes of [forward.cpp].  [Request], with [RequestSafety]: [core/], [fsm/]
      and [scheduler/request.h] and [.cpp].

    ** Conventions

    A function that can raise returns [result]; one that changes state before it raises
    is a computation of [PyState], which keeps the state it left.  A dataclass with a
    [__post_init__] is a record with a [post_init] or [init] that validates it.  A class
    is a module with its record [t] or a record of its members; definitions keep the
    source's names.  A Python [int] is [Z]; a C++ integer is [Z] with its width where it
    can overflow, and signed overflow is [Undefined]; a failed fatal check is [Abort].  A
    dictionary is an association list in insertion order; a set is a list read through
    membership; an array or a tensor is the list of its elements.  A pointer is the
    position of an object in its store, and a deleted object leaves a hole there.  An
    [isinstance] test that an annotation implies holds by typing.  A loop body or a
    comprehension that a theorem speaks of is a definition of its own.

    ** What the theorems show

    - Memory of the scheduler: the pool refines a set of free slots and its acquisitions
      are exact; counts of references are exact and blocks live as long as somebody holds
      them; table operations, also those that throw half way, neither lose nor duplicate
      a reference; a planned admission leaves the planned table, or, without room or with
      a suffix behind the table, everything as it was; retention frees exactly what a
      window can no longer read; page ids identify blocks.
    - Prefix caching: hashes are equal exactly for equal prefixes, as long as SHA-256 does
      not collide;
      publishing and eviction do what a map from keys to blocks would; eviction goes
      through the evictable entries in order and ends; a match is a longest one and holds
      what it returns; tails are kept least recently used.
    - Capacity and chunks: a validated configuration builds a well-formed scheduler unless
      a count of pages or a page length leaves the 32-bit range, and then how it fails;
      the longest admissible request is found; batch sizes cover single requests; the
      answer to a demand for a sparse suffix, errors and overflow included; chunks fill
      the budget, keep the final window whole and, with refused admissions only delaying
      it, complete the prompt.
    - Requests: an event is applied exactly when the state machine allows it, and in
      every case all blocks, rows and blob slots are accounted for; suspending a request
      and restoring it returns it to the state it left; the model inputs of a chunk are
      the tokens of its window with those it replays.
    - Packing and planning: [pack] returns only well-formed layouts and fails only by its
      own checks; the packing solver decides its constraints; in a bound plan two pages
      share bytes only where groups share a parent, and narrowing keeps the geometry.
    - Transfers, slots and stages: transfer rows address the plan's pages; each row of a
      host copy is performed by one rank; blocks and (rank, page) pairs are in bijection;
      the device slot kernel, whatever the order of its programs, computes the host
      translation where the dtype of the slots represents their number; windows and
      ownership partition the layers, and the groups of each parallel dimension partition
      the ranks.
    - Runtime services: the lock excludes writers and everybody finishes; where a
      cancelled wait loses its wake-up, only readers can be left, and any later client
      frees them; the embedding cache refines a map; expert placement is a correct
      assignment and replication minimises the largest load, computed in doubles.

    ** Bounds and fuel

    Recursion is structural except where a loop has fuel, which is always enough: the
    root search of the packing solver has the number of groups (a path visits a group
    once, and [CachePack] proves that the search ends); the scan for the next hole of a
    parent the number of slots; the walks of the prefix matchers the number of pages
    between their bounds; a round of eviction the number of entries; the capacity search
    32 rounds, one per bit of the interval it halves.  The 31-bit and 63-bit limits the
    sources check are kept.  Floats are binary64, rounded as the language does.  The slots
    of [SlotPlacement] have a dtype, and arithmetic on them its width; elsewhere element
    arithmetic of arrays is on integers: conversions into [int64] raise where the
    source's do, and the identifiers and counts that occur are far inside the range.

    ** Not modelled

    Messages keep only their constant part.  Reading the environment, [__repr__], device
    memory, streams and logging are left out.  Of the scheduler, admission and
    publication by the coordinator, the transfer and storage managers and the plan
    builder that drives the requests are not modelled, nor are event sinks.  Of the
    runtime, the recipes' declarations, the transfer lanes, the tiers, the executor, the
    serving front end and the prefill-decode protocol are not modelled; nor is the
    engine's control plane in Rust ([src/tokenspeed-engine]), which drives the scheduler
    over sockets and channels.  Models, layers and kernels are device arithmetic.  SHA-256,
    the copies between devices and the tensor library's conversion of a Python integer
    are parameters. *)

From stdpp Require Export base tactics decidable option list numbers strings sets sorting.
From Stdlib Require Export ZArith Lia.

Local Open Scope Z_scope.

(** ** Python exceptions and the error monad

    A function that can raise returns a [result].  An exception carries its
    class and the constant part of its message; values interpolated into the
    message by an f-string are left out. *)

Inductive exn :=
  | AssertionError (msg : string)
  | ValueError (msg : string)
  | TypeError (msg : string)
  | AttributeError (msg : string)
  | IndexError (msg : string)
  | KeyError (msg : string)
  | RuntimeError (msg : string)
  | OverflowError (msg : string)
  | ZeroDivisionError (msg : string)
  (* the scheduler extension: std::logic_error, an aborted process, and what C++ leaves undefined *)
  | LogicError (msg : string)
  | Abort (msg : string)
  | Undefined (msg : string).

#[export] Instance exn_eq_dec : EqDecision exn.
Proof. solve_decision. Defined.

Inductive result (A : Type) :=
  | Ok (a : A)
  | Raise (e : exn).
Arguments Ok {A} a.
Arguments Raise {A} e.

#[export] Instance result_ret : MRet result := λ A a, Ok a.
#[export] Instance result_bind : MBind result := λ A B f m,
  match m with Ok a => f a | Raise e => Raise e end.

(** [if b: raise e] *)
Definition raise_when (b : bool) (e : exn) : result () :=
  if b then Raise e else Ok ().

(** [assert b] *)
Definition py_assert (b : bool) (msg : string) : result () :=
  raise_when (negb b) (AssertionError msg).

(** A dictionary or index access that raises when absent. *)
Definition lookup_or {A} (e : exn) (o : option A) : result A :=
  match o with Some a => Ok a | None => Raise e end.

(** A [for] loop over a list whose body updates [S] and may raise. *)
Fixpoint foldM {A S} (f : S → A → result S) (s : S) (l : list A) : result S :=
  match l with
  | [] => Ok s
  | x :: l => s' ← f s x; foldM f s' l
  end.

Definition is_Ok {A} (r : result A) : bool :=
  match r with Ok _ => true | Raise _ => false end.

Section result_lemmas.
Context {A B : Type}.
Implicit Types (m : result A) (f : A → result B).

Lemma bind_Ok m f b : m ≫= f = Ok b ↔ ∃ a, m = Ok a ∧ f a = Ok b.
Proof. destruct m; cbn; naive_solver. Qed.

Lemma bind_Raise m f e :
  m ≫= f = Raise e ↔ m = Raise e ∨ ∃ a, m = Ok a ∧ f a = Raise e.
Proof. destruct m; cbn; naive_solver. Qed.

Lemma raise_when_Ok b e u : raise_when b e = Ok u ↔ b = false.
Proof. destruct b, u; cbn; naive_solver. Qed.

Lemma py_assert_Ok b s u : py_assert b s = Ok u ↔ b = true.
Proof. destruct b, u; cbn; naive_solver. Qed.

Lemma lookup_or_Ok e (o : option A) a : lookup_or e o = Ok a ↔ o = Some a.
Proof. destruct o; cbn; naive_solver. Qed.

Lemma is_Ok_true m : is_Ok m = true ↔ ∃ a, m = Ok a.
Proof. destruct m; cbn; naive_solver. Qed.
End result_lemmas.

Lemma mapM_Ok {A B} (f : A → result B) l k :
  mapM f l = Ok k ↔ Forall2 (λ x y, f x = Ok y) l k.
Proof.
  revert k. induction l as [|x l IH]; intros k; cbn.
  - split; [intros [= <-]; constructor|by inversion 1].
  - split.
    + intros (y & Hx & Hl)%bind_Ok.
      apply bind_Ok in Hl as (k' & Hk' & [= <-]).
      constructor; [done|by apply IH].
    + inversion 1 as [|?? y k' Hx Hl]; subst. apply IH in Hl.
      by rewrite Hx; cbn; rewrite Hl.
Qed.

Lemma mapM_Ok_ext {A B} (f g : A → result B) l k :
  mapM f l = Ok k → (∀ x y, x ∈ l → f x = Ok y → g x = Ok y) → mapM g l = Ok k.
Proof.
  rewrite !mapM_Ok. intros Hf Hg. apply Forall2_same_length_lookup.
  split; [by eapply Forall2_length|]. intros i x y Hx Hy.
  apply Hg; [by eapply list_elem_of_lookup_2|].
  exact (Forall2_lookup_lr (λ x y, f x = Ok y) _ _ _ _ _ Hf Hx Hy).
Qed.

Lemma foldM_app {A S} (f : S → A → result S) s l1 l2 :
  foldM f s (l1 ++ l2) = foldM f s l1 ≫= λ s', foldM f s' l2.
Proof.
  revert s. induction l1 as [|x l1 IH]; intros s; cbn; [done|].
  destruct (f s x); cbn; [apply IH|done].
Qed.

(** Loop invariant rule: [P done s] relates the elements already visited to
    the loop state. *)
Lemma foldM_ind {A S} (P : list A → S → Prop) (f : S → A → result S) l s s' :
  P [] s →
  (∀ visited x rest s1 s2, l = visited ++ x :: rest →
    P visited s1 → f s1 x = Ok s2 → P (visited ++ [x]) s2) →
  foldM f s l = Ok s' → P l s'.
Proof.
  intros H0 Hstep Hrun.
  cut (∀ rest visited s1, l = visited ++ rest → P visited s1 →
         foldM f s1 rest = Ok s' → P l s').
  { intros H. apply (H l [] s); auto. }
  clear H0 Hrun s. induction rest as [|x rest IH]; intros visited s1 Hl HP Hrun.
  - cbn in Hrun. inversion Hrun; subst. by rewrite app_nil_r.
  - cbn in Hrun. apply bind_Ok in Hrun as (s2 & Hx & Hrun).
    apply (IH (visited ++ [x]) s2); [by rewrite <-app_assoc|eauto|done].
Qed.

(** The rule that also shows that the loop does not raise. *)
Lemma foldM_total {A S} (P : list A → S → Prop) (f : S → A → result S) l s :
  P [] s →
  (∀ l1 x l2 s, l = l1 ++ x :: l2 → P l1 s → ∃ s', f s x = Ok s' ∧ P (l1 ++ [x]) s') →
  ∃ s', foldM f s l = Ok s' ∧ P l s'.
Proof.
  intros H0 Hstep.
  assert (∀ l2 l1 s, l = l1 ++ l2 → P l1 s → ∃ s', foldM f s l2 = Ok s' ∧ P l s') as Hgen.
  { induction l2 as [|x l2 IH]; intros l1 s1 Heq HP; cbn.
    - exists s1. split; [done|]. by rewrite Heq, app_nil_r.
    - destruct (Hstep l1 x l2 s1 Heq HP) as (s2 & -> & HP2). cbn.
      apply (IH (l1 ++ [x])); [|done]. by rewrite <- app_assoc. }
  by apply (Hgen l []).
Qed.

(** The rule for a loop that cannot raise. *)
Lemma foldl_inv {A S} (P : list A → S → Prop) (f : S → A → S) l s :
  P [] s →
  (∀ visited x rest s1, l = visited ++ x :: rest →
    P visited s1 → P (visited ++ [x]) (f s1 x)) →
  P l (foldl f s l).
Proof.
  intros H0 Hstep.
  cut (∀ rest visited s1, l = visited ++ rest → P visited s1 →
         P l (foldl f s1 rest)).
  { intros H. apply (H l [] s); auto. }
  clear H0 s. induction rest as [|x rest IH]; intros visited s1 Hl HP.
  - cbn. by rewrite Hl, app_nil_r.
  - cbn. apply (IH (visited ++ [x]) (f s1 x)); [by rewrite <-app_assoc|eauto].
Qed.

(** ** Proof automation *)

Lemma Ok_inj {A} (a b : A) : Ok a = Ok b → a = b.
Proof. by intros [= ->]. Qed.

(** Substitute the variable an equation defines, and only that one. *)
Ltac subst_var_eq H :=
  lazymatch type of H with
  | ?a = ?b =>
      first [ is_var b; destruct H | is_var a; symmetry in H; destruct H
            | lazymatch type of a with prod _ _ => injection H; clear H; intros | _ => idtac end ]
  end.

(** Decompose every hypothesis saying that a monadic computation succeeded. *)
Ltac inv_ok_step :=
  match goal with
  | H : Ok _ = Ok _ |- _ => apply Ok_inj in H; subst_var_eq H
  | H : Raise _ = Ok _ |- _ => discriminate H
  | H : Ok _ = Raise _ |- _ => discriminate H
  | H : mret _ = Ok _ |- _ => unfold mret, result_ret in H
  | H : (_ ≫= _) = Ok _ |- _ =>
      let x := fresh "r" in let Hx := fresh "Hr" in
      apply bind_Ok in H; destruct H as (x & Hx & H);
      lazymatch type of x with unit => destruct x | _ => idtac end
  | H : match ?p with pair _ _ => _ end = Ok _ |- _ => destruct p
  | H : raise_when _ _ = Ok _ |- _ => apply raise_when_Ok in H
  | H : py_assert _ _ = Ok _ |- _ => apply py_assert_Ok in H
  | H : lookup_or _ _ = Ok _ |- _ => apply lookup_or_Ok in H
  end.
Ltac inv_ok := repeat inv_ok_step.

(** Rewrite the success lemmas of the monad left to right. *)
Create Rewrite HintDb pyresult.
#[export] Hint Rewrite @bind_Ok @raise_when_Ok @py_assert_Ok @lookup_or_Ok : pyresult.

(** Split conjunctions and existentials in the context. *)
Ltac destruct_conj :=
  repeat match goal with
  | H : _ ∧ _ |- _ => destruct H
  | H : ∃ _, _ |- _ => destruct H
  end.

(** ** Integer lemmas *)

(** [((value + alignment - 1) // alignment) * alignment], the rounding idiom
    every planner shares. *)
Definition align_up (value alignment : Z) : Z :=
  ((value + alignment - 1) / alignment) * alignment.

Definition ceil_div (dividend divisor : Z) : Z :=
  (dividend + divisor - 1) / divisor.

Section integer_lemmas.
Implicit Types a b n : Z.

Lemma align_up_ge n a : 0 < a → n ≤ align_up n a.
Proof.
  intros Ha. unfold align_up.
  pose proof (Z.div_mod (n + a - 1) a). pose proof (Z.mod_pos_bound (n + a - 1) a). nia.
Qed.

Lemma align_up_lt n a : 0 < a → align_up n a < n + a.
Proof.
  intros Ha. unfold align_up.
  pose proof (Z.div_mod (n + a - 1) a). pose proof (Z.mod_pos_bound (n + a - 1) a). nia.
Qed.

Lemma align_up_divide n a : (a | align_up n a).
Proof. apply Z.divide_factor_r. Qed.

Lemma align_up_id n a : 0 < a → (a | n) → align_up n a = n.
Proof.
  intros Ha [k ->]. unfold align_up.
  replace (k * a + a - 1) with (k * a + (a - 1)) by lia.
  rewrite Z.div_add_l, Z.div_small by lia. lia.
Qed.

Lemma align_up_pos n a : 0 < a → 0 < n → 0 < align_up n a.
Proof. intros. pose proof (align_up_ge n a). lia. Qed.

Lemma ceil_div_spec n a : 0 < a → n ≤ ceil_div n a * a < n + a.
Proof.
  intros Ha. unfold ceil_div.
  pose proof (Z.div_mod (n + a - 1) a). pose proof (Z.mod_pos_bound (n + a - 1) a). nia.
Qed.

Lemma div_of_divide n a : 0 < a → (a | n) → n / a * a = n.
Proof. intros Ha [k ->]. by rewrite Z.div_mul by lia. Qed.

Lemma radix_inj m a b r s : 0 ≤ r < m → 0 ≤ s < m → a * m + r = b * m + s → a = b ∧ r = s.
Proof. intros Hr Hs Heq. apply (Z.div_mod_unique m); lia. Qed.

(** [a // gcd(a, b) * b], the planners' least common multiple. *)
Definition lcm_step a b : Z := a / Z.gcd a b * b.

Lemma lcm_step_divide_l a b : 0 < a → 0 < b → (a | lcm_step a b).
Proof.
  intros Ha Hb. unfold lcm_step.
  assert (Hg : 0 < Z.gcd a b)
    by (pose proof (Z.gcd_nonneg a b); pose proof (Z.gcd_eq_0_l a b); lia).
  destruct (Z.gcd_divide_l a b) as [x Hx], (Z.gcd_divide_r a b) as [y Hy].
  rewrite Hx at 2. rewrite Z.div_mul by lia.
  exists y. rewrite Hy at 1. rewrite Hx at 2. lia.
Qed.

Lemma lcm_step_divide_r a b : (b | lcm_step a b).
Proof. apply Z.divide_factor_r. Qed.

Lemma lcm_step_pos a b : 0 < a → 0 < b → 0 < lcm_step a b.
Proof.
  intros Ha Hb. unfold lcm_step.
  assert (Hg : 0 < Z.gcd a b)
    by (pose proof (Z.gcd_nonneg a b); pose proof (Z.gcd_eq_0_l a b); lia).
  destruct (Z.gcd_divide_l a b) as [x Hx].
  rewrite Hx at 1. rewrite Z.div_mul by lia. nia.
Qed.
End integer_lemmas.

Create HintDb pyint.
#[export] Hint Resolve align_up_ge align_up_divide align_up_pos
  lcm_step_divide_l lcm_step_divide_r lcm_step_pos : pyint.

(** ** List lemmas *)

(** [sum(xs)] *)
Definition sumZ (l : list Z) : Z := foldr Z.add 0 l.

(** [math.prod(xs)] *)
Definition prodZ (l : list Z) : Z := foldr Z.mul 1 l.

(** [len({*xs})], the size of the set of the elements of a list. *)
Definition len_set {A} `{EqDecision A} (l : list A) : nat := length (remove_dups l).

Section list_lemmas.
Context {A : Type}.

Lemma sumZ_app l1 l2 : sumZ (l1 ++ l2) = sumZ l1 + sumZ l2.
Proof. induction l1 as [|x l1 IH]; cbn; [done|]. unfold sumZ in *. lia. Qed.

Lemma sumZ_cons x l : sumZ (x :: l) = x + sumZ l.
Proof. done. Qed.

Lemma sumZ_nonneg l : Forall (Z.le 0) l → 0 ≤ sumZ l.
Proof. induction 1; rewrite ?sumZ_cons; [done|lia]. Qed.

Lemma sumZ_perm l1 l2 : l1 ≡ₚ l2 → sumZ l1 = sumZ l2.
Proof. induction 1; rewrite ?sumZ_cons in *; cbn; unfold sumZ in *; lia. Qed.

Lemma prodZ_pos l : Forall (Z.lt 0) l → 0 < prodZ l.
Proof. induction 1; cbn; [done|]. unfold prodZ in *. nia. Qed.

Lemma prodZ_app l1 l2 : prodZ (l1 ++ l2) = prodZ l1 * prodZ l2.
Proof. induction l1 as [|x l1 IH]; cbn; [unfold prodZ; lia|]. unfold prodZ in *. lia. Qed.

Lemma length_remove_dups_le `{EqDecision A} (l : list A) :
  (length (remove_dups l) ≤ length l)%nat.
Proof. induction l; cbn; [done|]. case_decide; cbn; lia. Qed.

(** The idiom [len(ids) != len(set(ids))] tests for duplicates. *)
Lemma len_set_NoDup `{EqDecision A} (l : list A) : length l = len_set l ↔ NoDup l.
Proof.
  unfold len_set. split.
  - induction l as [|x l IH]; cbn; [constructor|].
    pose proof (length_remove_dups_le l). case_decide; cbn; [lia|].
    intros [=]. constructor; auto.
  - induction 1 as [|x l Hx Hl IH]; cbn; [done|]. case_decide; [done|]. cbn. lia.
Qed.

Lemma Forall2_same_length_lookup_r {B} (P : A → B → Prop) l k i y :
  Forall2 P l k → k !! i = Some y → ∃ x, l !! i = Some x ∧ P x y.
Proof. intros HP Hk. by eapply Forall2_lookup_r in HP. Qed.
End list_lemmas.

Lemma elem_of_concat {A} (x : A) (ls : list (list A)) :
  x ∈ concat ls ↔ ∃ l, l ∈ ls ∧ x ∈ l.
Proof.
  induction ls as [|l ls IH]; cbn; [set_solver|].
  rewrite elem_of_app, IH. setoid_rewrite elem_of_cons. naive_solver.
Qed.

Lemma filter_ext_in {A} (P Q : A → Prop) `{∀ x, Decision (P x), ∀ x, Decision (Q x)} (l : list A) :
  (∀ x, x ∈ l → P x ↔ Q x) → filter P l = filter Q l.
Proof.
  induction l as [|x l IH]; intros Hl; [done|]. rewrite !filter_cons.
  rewrite IH by (intros; apply Hl; by constructor).
  specialize (Hl x ltac:(constructor)). repeat case_decide; tauto.
Qed.

Lemma elem_of_drop_in {A} (x : A) n (l : list A) : x ∈ drop n l → x ∈ l.
Proof. intros Hx. rewrite <- (take_drop n l). apply elem_of_app. by right. Qed.

Lemma elem_of_take_in {A} (x : A) n (l : list A) : x ∈ take n l → x ∈ l.
Proof. intros Hx. rewrite <- (take_drop n l). apply elem_of_app. by left. Qed.

Lemma elem_of_ne_nil {A} (x : A) (l : list A) : x ∈ l → l ≠ [].
Proof. intros Hx ->. by apply not_elem_of_nil in Hx. Qed.

Lemma filter_all {A} (P : A → Prop) `{∀ x, Decision (P x)} (l : list A) :
  (∀ x, x ∈ l → P x) → filter P l = l.
Proof.
  induction l as [|x l IH]; intros Hl; [done|].
  rewrite filter_cons_True by (apply Hl; constructor). f_equal.
  apply IH. intros y Hy. apply Hl. by constructor.
Qed.

Lemma existsb_false_Forall {A} (p : A → bool) l : existsb p l = false ↔ Forall (λ x, p x = false) l.
Proof.
  induction l as [|x l IH]; cbn; [done|]. rewrite orb_false_iff, Forall_cons, IH. done.
Qed.

(** Membership in a Python [in] test. *)
Definition py_in {A} `{EqDecision A} (x : A) (l : list A) : bool :=
  bool_decide (x ∈ l).

Lemma py_in_true {A} `{EqDecision A} (x : A) l : py_in x l = true ↔ x ∈ l.
Proof. apply bool_decide_eq_true. Qed.

Lemma py_in_false {A} `{EqDecision A} (x : A) l : py_in x l = false ↔ x ∉ l.
Proof. apply bool_decide_eq_false. Qed.

(** Splitting a list into the classes of a function loses nothing. *)
Definition classes {A K} `{EqDecision K} (c : A → K) (ranks : list K) (l : list A) : list A :=
  concat ((λ r, filter (λ x, c x = r) l) <$> ranks).

Lemma classes_cons_other {A K} `{EqDecision K} (c : A → K) ranks x (l : list A) :
  c x ∉ ranks → classes c ranks (x :: l) = classes c ranks l.
Proof.
  unfold classes. induction ranks as [|r ranks IH]; [done|]. intros [Hr Hx]%not_elem_of_cons.
  rewrite !fmap_cons. cbn [concat]. rewrite filter_cons_False by done. f_equal. auto.
Qed.

Lemma classes_cons {A K} `{EqDecision K} (c : A → K) ranks x (l : list A) :
  NoDup ranks → c x ∈ ranks → classes c ranks (x :: l) ≡ₚ x :: classes c ranks l.
Proof.
  intros Hnd. induction Hnd as [|r ranks Hr Hnd IH]; [set_solver|]. intros Hx.
  unfold classes. rewrite !fmap_cons. cbn [concat]. destruct (decide (c x = r)) as [<-|Hne].
  - rewrite filter_cons_True by done. fold (classes c ranks (x :: l)) (classes c ranks l).
    by rewrite classes_cons_other.
  - rewrite filter_cons_False by done. fold (classes c ranks (x :: l)) (classes c ranks l).
    rewrite IH by set_solver. by rewrite Permutation_middle.
Qed.

Lemma classes_perm {A} (c : A → Z) n (l : list A) :
  Forall (λ x, 0 ≤ c x < n) l → classes c (seqZ 0 n) l ≡ₚ l.
Proof.
  induction 1 as [|x l Hx Hl IH].
  - unfold classes. induction (seqZ 0 n); cbn; done.
  - rewrite classes_cons, IH; [done|apply NoDup_seqZ|]. apply elem_of_seqZ. lia.
Qed.

Lemma classes_filter {A K} `{EqDecision K} (c : A → K) ranks (l : list A) :
  NoDup ranks → classes c ranks l ≡ₚ filter (λ x, c x ∈ ranks) l.
Proof.
  intros Hnd. induction l as [|x l IH].
  - unfold classes. clear Hnd. induction ranks; cbn; done.
  - rewrite filter_cons. destruct (decide (c x ∈ ranks)) as [Hx|Hx].
    + by rewrite classes_cons, IH.
    + by rewrite classes_cons_other, IH.
Qed.

Lemma concat_fmap_concat {A B} (g : A → list B) (ls : list (list A)) :
  concat ((λ l : list A, concat (g <$> l)) <$> ls) = concat (g <$> concat ls).
Proof.
  induction ls as [|l ls IH]; [done|]. rewrite fmap_cons. cbn [concat].
  by rewrite IH, fmap_app, concat_app.
Qed.

Lemma length_concat_uniform {A} (ls : list (list A)) m :
  Forall (λ l, length l = m) ls → length (concat ls) = (length ls * m)%nat.
Proof. induction 1 as [|l ls Hl Hls IH]; [done|]. cbn. rewrite length_app, IH, Hl. done. Qed.

(** Indexing the concatenation of rows of one length. *)
Lemma lookup_concat_uniform {A} (ls : list (list A)) m i :
  (0 < m)%nat → Forall (λ l, length l = m) ls →
  concat ls !! i = (ls !! (i / m)%nat) ≫= (.!! (i mod m)%nat).
Proof.
  intros Hm Hls. revert i. induction Hls as [|l ls Hl Hls IH]; intros i; [done|].
  cbn [concat]. destruct (decide (i < m)%nat) as [Hi|Hi].
  - rewrite lookup_app_l by lia. by rewrite Nat.div_small, Nat.mod_small.
  - rewrite lookup_app_r by lia. rewrite IH, Hl.
    replace i with (i - m + 1 * m)%nat at 3 4 by lia.
    rewrite Nat.div_add, Nat.Div0.mod_add by lia. by rewrite Nat.add_1_r.
Qed.

(** [set(a) == set(b)] *)
Definition same_ids (keys ids : list string) : bool :=
  forallb (λ k, py_in k ids) keys && forallb (λ i, py_in i keys) ids.

Lemma same_ids_true keys ids : same_ids keys ids = true ↔ ∀ x, x ∈ keys ↔ x ∈ ids.
Proof.
  unfold same_ids. rewrite andb_true_iff, !forallb_forall. setoid_rewrite py_in_true.
  setoid_rewrite <-list_elem_of_In. naive_solver.
Qed.

Lemma NoDup_concat_elem {A} (ls : list (list A)) l : NoDup (concat ls) → l ∈ ls → NoDup l.
Proof.
  induction ls as [|k ls IH]; [by intros _ ?%not_elem_of_nil|]. cbn [concat].
  rewrite NoDup_app. intros (Hk & _ & Hls) [->|Hl]%elem_of_cons; auto.
Qed.

(** Keys outside the support of [h] add nothing. *)
Lemma concat_support {A B} `{EqDecision A} (h : A → list B) (order keys : list A) :
  NoDup order → NoDup keys → (∀ x, x ∈ keys → x ∈ order) →
  (∀ x, x ∈ order → x ∉ keys → h x = []) →
  concat (h <$> order) ≡ₚ concat (h <$> keys).
Proof.
  intros Ho Hk Hsub Hnil.
  assert (order ≡ₚ keys ++ filter (λ x, x ∉ keys) order) as Hp.
  { apply NoDup_Permutation; [done| |].
    - apply NoDup_app. split; [done|]. split; [|by apply NoDup_filter].
      intros x Hx [Hn _]%list_elem_of_filter. done.
    - intros x. rewrite elem_of_app, list_elem_of_filter.
      destruct (decide (x ∈ keys)) as [Hx|Hx]; split; [by left|by auto|by right|by intros [?|[_ ?]]]. }
  assert (concat (h <$> filter (λ x, x ∉ keys) order) = []) as Hz.
  { assert (Forall (λ x, h x = []) (filter (λ x, x ∉ keys) order)) as HF.
    { apply Forall_forall. intros x [Hx Hin]%list_elem_of_filter. auto. }
    clear Hp. induction HF as [|x l Hx HF IH]; [done|]. rewrite fmap_cons. cbn [concat]. by rewrite Hx, IH. }
  transitivity (concat (h <$> (keys ++ filter (λ x, x ∉ keys) order))).
  - clear -Hp. induction Hp as [|x l l' _ IH|x y l|l l' l'' _ IH1 _ IH2]; [done|..].
    + rewrite !fmap_cons. cbn [concat]. by rewrite IH.
    + rewrite !fmap_cons. cbn [concat]. by rewrite !app_assoc, (Permutation_app_comm (h y)).
    + by rewrite IH1.
  - by rewrite fmap_app, concat_app, Hz, app_nil_r.
Qed.

(** Updating one entry of a list indexed from [a]. *)
Lemma alter_fmap_seqZ {A} (u : A → A) (h : Z → A) k a n :
  a ≤ k < a + n →
  alter u (Z.to_nat (k - a)) (h <$> seqZ a n) =
  (λ j, if decide (j = k) then u (h j) else h j) <$> seqZ a n.
Proof.
  intros Hk. apply list_eq. intros i. rewrite list_lookup_fmap.
  destruct (decide (i = Z.to_nat (k - a))) as [->|Hi].
  - rewrite list_lookup_alter_eq, list_lookup_fmap.
    rewrite lookup_seqZ_lt by lia. cbn. by rewrite decide_True by lia.
  - rewrite list_lookup_alter_ne, list_lookup_fmap by done.
    destruct (seqZ a n !! i) as [j|] eqn:E; [|done]. cbn. apply lookup_seqZ in E as [-> ?].
    by rewrite decide_False by lia.
Qed.

Lemma replicate_seqZ {A} (x : A) a n : replicate (Z.to_nat n) x = (λ _, x) <$> seqZ a n.
Proof.
  apply list_eq. intros i. rewrite list_lookup_fmap. destruct (seqZ a n !! i) as [j|] eqn:E.
  - apply lookup_seqZ in E as [_ ?]. cbn. apply lookup_replicate_2. lia.
  - apply lookup_ge_None in E. rewrite length_seqZ in E. cbn. apply lookup_replicate_None. lia.
Qed.

(** [enumerate(l)] *)
Definition enumerate {A} (l : list A) : list (Z * A) := zip (seqZ 0 (Z.of_nat (length l))) l.

Lemma enumerate_lookup {A} (l : list A) i : enumerate l !! i = (λ x, (Z.of_nat i, x)) <$> l !! i.
Proof.
  unfold enumerate. rewrite lookup_zip_with. destruct (l !! i) as [x|] eqn:E; cbn.
  - apply lookup_lt_Some in E as Hi. rewrite lookup_seqZ_lt by lia. done.
  - destruct (seqZ _ _ !! i); done.
Qed.

Lemma elem_of_enumerate {A} (l : list A) i x :
  (i, x) ∈ enumerate l ↔ 0 ≤ i ∧ l !! Z.to_nat i = Some x.
Proof.
  rewrite list_elem_of_lookup. setoid_rewrite enumerate_lookup. split.
  - intros [j Hj]. destruct (l !! j) eqn:E; [|done]. injection Hj as <- <-.
    split; [lia|]. by rewrite Nat2Z.id.
  - intros [Hi Hx]. exists (Z.to_nat i). rewrite Hx. cbn. do 2 f_equal. lia.
Qed.

Lemma NoDup_enumerate {A} (l : list A) : NoDup (enumerate l).*1.
Proof.
  unfold enumerate. rewrite fst_zip; [apply NoDup_seqZ|]. rewrite length_seqZ. lia.
Qed.

Lemma mapM_iff {A B} (f : A → result B) (good : A → Prop) (g : A → B) l out :
  (∀ x o, x ∈ l → f x = Ok o ↔ good x ∧ o = g x) →
  mapM f l = Ok out ↔ Forall good l ∧ out = g <$> l.
Proof.
  intros Hf. rewrite mapM_Ok. split.
  - intros H. induction H as [|x o l out Ho _ IH]; [by split; [constructor|]|].
    apply Hf in Ho as [Hx ->]; [|by left]. destruct IH as [IH ->]; [intros; apply Hf; by right|].
    split; [by constructor|done].
  - intros [Hall ->]. apply Forall2_fmap_r, Forall_Forall2_diag, Forall_forall. intros x Hx.
    apply Hf; [done|]. rewrite Forall_forall in Hall. auto.
Qed.

Lemma sumZ_zero l : Forall (Z.le 0) l → sumZ l = 0 ↔ Forall (λ x, x = 0) l.
Proof.
  induction 1 as [|x l Hx Hl IH]; [by split; [constructor|]|]. rewrite sumZ_cons, Forall_cons, <-IH.
  pose proof (sumZ_nonneg l Hl). lia.
Qed.

Lemma sumZ_fmap_add {A} (f g : A → Z) l :
  sumZ ((λ x, f x + g x) <$> l) = sumZ (f <$> l) + sumZ (g <$> l).
Proof. induction l as [|x l IH]; [done|]. rewrite !fmap_cons, !sumZ_cons, IH. lia. Qed.

Lemma sumZ_fmap_zero {A} (l : list A) : sumZ ((λ _, 0) <$> l) = 0.
Proof. induction l as [|x l IH]; [done|]. by rewrite fmap_cons, sumZ_cons, IH. Qed.

Lemma sumZ_ge l c : Forall (λ x, c ≤ x) l → c * Z.of_nat (length l) ≤ sumZ l.
Proof.
  induction 1 as [|x l Hx Hl IH]; [by rewrite Z.mul_0_r|]. rewrite sumZ_cons. cbn [length]. lia.
Qed.

Lemma sumZ_insert {A} (f : A → Z) l i x y :
  l !! i = Some x → sumZ (f <$> <[i := y]> l) = sumZ (f <$> l) - f x + f y.
Proof.
  revert i. induction l as [|z l IH]; intros [|i] Hi; simplify_eq/=.
  - lia.
  - specialize (IH _ Hi). unfold sumZ in *. cbn. lia.
Qed.

Lemma sumZ_swap {A B} (f : A → B → Z) (l : list A) (k : list B) :
  sumZ ((λ x, sumZ (f x <$> k)) <$> l) = sumZ ((λ y, sumZ ((λ x, f x y) <$> l)) <$> k).
Proof.
  induction l as [|x l IH]; [cbn; by rewrite sumZ_fmap_zero|].
  rewrite fmap_cons, sumZ_cons, IH, <-sumZ_fmap_add. f_equal.
Qed.

(** One term of a range is one. *)
Lemma sumZ_eqb o n : 0 ≤ o < n → sumZ ((λ k, if o =? k then 1 else 0) <$> seqZ 0 n) = 1.
Proof.
  intros Ho. replace n with (o + (1 + (n - o - 1))) by lia. rewrite !seqZ_app, !fmap_app, !sumZ_app by lia.
  assert (∀ a m, ¬ a ≤ o < a + m → sumZ ((λ k, if o =? k then 1 else 0) <$> seqZ a m) = 0) as Hz.
  { intros a m Hm. transitivity (sumZ ((λ _, 0) <$> seqZ a m)); [|apply sumZ_fmap_zero]. f_equal. apply list_fmap_ext.
    intros i k [-> ?]%lookup_seqZ. destruct (Z.eqb_spec o (a + Z.of_nat i)); lia. }
  rewrite (Hz 0 o), (Hz (0 + o + 1) (n - o - 1)) by lia. assert (seqZ (0 + o) 1 = [0 + o]) as -> by (by rewrite seqZ_cons by lia).
  cbn [fmap list_fmap]. rewrite sumZ_cons, (proj2 (Z.eqb_eq o (0 + o))) by lia. cbn. lia.
Qed.
