(* ===== verification/PyState.v ===== *)
(** * Methods that mutate an object and may raise

    [M S A] is a computation on an object of type [S] that returns an [A] or
    raises: a Python method body, whose mutations stay when it raises. *)

From S2P Require Import Prelude.

Definition M (S A : Type) : Type := S → result A * S.

#[export] Instance M_ret S : MRet (M S) := λ A a s, (Ok a, s).
#[export] Instance M_bind S : MBind (M S) := λ A B k m s,
  match m s with
  | (Ok a, s') => k a s'
  | (Raise e, s') => (Raise e, s')
  end.

Definition raise {S A} (e : exn) : M S A := λ s, (Raise e, s).
Definition read {S A} (f : S → A) : M S A := λ s, (Ok (f s), s).
Definition modify {S} (f : S → S) : M S () := λ s, (Ok (), f s).

(** Call a method of the object in a field. *)
Definition within {S T A} (field : S → T) (set : T → S → S) (m : M T A) : M S A :=
  λ s, let '(r, t) := m (field s) in (r, set t s).

Section laws.
Context {S : Type}.

Lemma run_ret {A} (a : A) (s : S) : (mret a : M S A) s = (Ok a, s).
Proof. done. Qed.

Lemma run_bind_Ok {A B} (m : M S A) (k : A → M S B) s a s' :
  m s = (Ok a, s') → (m ≫= k) s = k a s'.
Proof. unfold mbind, M_bind. by intros ->. Qed.

Lemma run_bind_Raise {A B} (m : M S A) (k : A → M S B) s e s' :
  m s = (Raise e, s') → (m ≫= k) s = (Raise e, s').
Proof. unfold mbind, M_bind. by intros ->. Qed.

End laws.
