(* ===== verification/PyDict.v ===== *)
(** * Python dictionaries and sorting

    A [dict] keeps its keys in insertion order: [d[k] = v] replaces the value
    of a present key where it stands and appends a new key at the end.  The
    model is the association list in that order.  [sorted] is the stable
    insertion sort by a boolean order. *)

From S2P Require Import Prelude.

Local Open Scope Z_scope.

(** [list(d)] and [d.values()] *)
Abbreviation dict_keys d := (d.*1).
Abbreviation dict_values d := (d.*2).

Section dict.
Context {K : Type} `{EqDecision K} {V : Type}.
Implicit Types (d : list (K * V)) (k : K) (v : V).

(** [d.get(k)] *)
Fixpoint dict_get d k : option V :=
  match d with
  | [] => None
  | (k', v) :: d => if decide (k = k') then Some v else dict_get d k
  end.

(** [d[k] = v] *)
Fixpoint dict_set d k v : list (K * V) :=
  match d with
  | [] => [(k, v)]
  | (k', v') :: d => if decide (k = k') then (k, v) :: d else (k', v') :: dict_set d k v
  end.

(** [d.pop(k, None)], the dictionary half. *)
Fixpoint dict_del d k : list (K * V) :=
  match d with
  | [] => []
  | (k', v') :: d => if decide (k = k') then d else (k', v') :: dict_del d k
  end.

(** [d.update(d2)] *)
Definition dict_update d (d2 : list (K * V)) : list (K * V) :=
  foldl (λ d kv, dict_set d kv.1 kv.2) d d2.

(** [{k: v for ...}] over the pairs in order. *)
Definition dict_of (l : list (K * V)) : list (K * V) := dict_update [] l.

Lemma dict_get_set d k k' v :
  dict_get (dict_set d k v) k' = if decide (k' = k) then Some v else dict_get d k'.
Proof.
  induction d as [|[k0 v0] d IH]; cbn.
  - done.
  - destruct (decide (k = k0)) as [->|Hk]; cbn.
    + repeat case_decide; congruence.
    + rewrite IH. repeat case_decide; congruence.
Qed.

Lemma dict_get_set_eq d k v : dict_get (dict_set d k v) k = Some v.
Proof. rewrite dict_get_set. by case_decide. Qed.

Lemma dict_get_set_ne d k k' v : k' ≠ k → dict_get (dict_set d k v) k' = dict_get d k'.
Proof. intros. rewrite dict_get_set. by case_decide. Qed.

Lemma dict_get_None d k : dict_get d k = None ↔ k ∉ dict_keys d.
Proof.
  induction d as [|[k0 v0] d IH]; cbn; [set_solver|].
  rewrite not_elem_of_cons. case_decide; [subst; naive_solver|]. tauto.
Qed.

Lemma dict_get_is_Some d k : is_Some (dict_get d k) ↔ k ∈ dict_keys d.
Proof.
  rewrite <-not_eq_None_Some, dict_get_None.
  split; [apply dec_stable|auto].
Qed.

Lemma dict_get_elem_of d k v : dict_get d k = Some v → (k, v) ∈ d.
Proof.
  induction d as [|[k0 v0] d IH]; cbn; [done|].
  case_decide; [intros [= ->]; subst; constructor|]. intros. constructor. auto.
Qed.

Lemma elem_of_dict_get d k v : NoDup (dict_keys d) → (k, v) ∈ d → dict_get d k = Some v.
Proof.
  induction d as [|[k0 v0] d IH]; cbn; [by intros _ ?%elem_of_nil|].
  intros [Hk0 Hd]%NoDup_cons [[= -> ->]|Hin]%elem_of_cons; case_decide; try done.
  - subst. destruct Hk0. apply list_elem_of_fmap. by exists (k0, v).
  - auto.
Qed.

Lemma dict_keys_set d k v :
  dict_keys (dict_set d k v) =
    if decide (k ∈ dict_keys d) then dict_keys d else dict_keys d ++ [k].
Proof.
  induction d as [|[k0 v0] d IH]; cbn; [done|].
  destruct (decide (k = k0)) as [->|Hk]; cbn.
  - rewrite decide_True; [done|constructor].
  - rewrite IH. destruct (decide (k ∈ dict_keys d)).
    + rewrite decide_True; [done|by constructor].
    + rewrite decide_False; [done|]. rewrite not_elem_of_cons. done.
Qed.

Lemma dict_set_NoDup d k v : NoDup (dict_keys d) → NoDup (dict_keys (dict_set d k v)).
Proof.
  intros Hd. rewrite dict_keys_set. case_decide; [done|].
  apply NoDup_app. split_and!; [done|set_solver|apply NoDup_singleton].
Qed.

Lemma elem_of_dict_keys_set d k v k' :
  k' ∈ dict_keys (dict_set d k v) ↔ k' = k ∨ k' ∈ dict_keys d.
Proof. rewrite dict_keys_set. case_decide; set_solver. Qed.

Lemma dict_update_NoDup d d2 : NoDup (dict_keys d) → NoDup (dict_keys (dict_update d d2)).
Proof.
  unfold dict_update. revert d. induction d2 as [|[k v] d2 IH]; intros d Hd; cbn; [done|].
  by apply IH, dict_set_NoDup.
Qed.

Lemma elem_of_dict_keys_update d d2 k :
  k ∈ dict_keys (dict_update d d2) ↔ k ∈ dict_keys d ∨ k ∈ dict_keys d2.
Proof.
  unfold dict_update. revert d. induction d2 as [|[k0 v0] d2 IH]; intros d; cbn.
  - set_solver.
  - rewrite IH, elem_of_dict_keys_set. set_solver.
Qed.

Lemma dict_get_update d d2 k :
  NoDup (dict_keys d2) →
  dict_get (dict_update d d2) k =
    match dict_get d2 k with Some v => Some v | None => dict_get d k end.
Proof.
  unfold dict_update. revert d. induction d2 as [|[k0 v0] d2 IH]; intros d; cbn; [done|].
  intros [Hk0 Hd2]%NoDup_cons. rewrite IH by done.
  destruct (dict_get d2 k) as [v|] eqn:Hv.
  - case_decide; [subst|done]. exfalso. apply Hk0, dict_get_is_Some. eauto.
  - rewrite dict_get_set. by case_decide.
Qed.

Lemma dict_of_NoDup l : NoDup (dict_keys (dict_of l)).
Proof. apply dict_update_NoDup. constructor. Qed.

Lemma elem_of_dict_keys_of l k : k ∈ dict_keys (dict_of l) ↔ k ∈ l.*1.
Proof. unfold dict_of. rewrite elem_of_dict_keys_update. set_solver. Qed.

(** A comprehension over distinct keys is the list of its pairs. *)
Lemma dict_of_id l : NoDup (l.*1) → dict_of l = l.
Proof.
  unfold dict_of, dict_update. cut (∀ d, NoDup (d ++ l).*1 →
    foldl (λ d kv, dict_set d kv.1 kv.2) d l = d ++ l).
  { intros H. apply (H []). }
  induction l as [|[k v] l IH]; intros d; cbn; [by rewrite app_nil_r|].
  intros Hd. assert (Hset : dict_set d k v = d ++ [(k, v)]).
  { rewrite fmap_app in Hd. apply NoDup_app in Hd as (_ & Hdisj & _).
    assert (Hk : k ∉ d.*1) by (intros Hk; apply (Hdisj k Hk); cbn; constructor).
    clear -Hk. induction d as [|[k0 v0] d IH]; cbn in *; [done|].
    apply not_elem_of_cons in Hk as [Hne Hk].
    rewrite decide_False by done. f_equal. auto. }
  rewrite Hset, IH; rewrite <-app_assoc; done.
Qed.

Lemma dict_get_of l k : NoDup (l.*1) → dict_get (dict_of l) k = dict_get l k.
Proof. intros Hl. by rewrite dict_of_id. Qed.

(** An index of a list by a key that tells its elements apart. *)
Lemma dict_of_index (key : V → K) (l : list V) x :
  NoDup (key <$> l) → x ∈ l → dict_get (dict_of ((λ y, (key y, y)) <$> l)) (key x) = Some x.
Proof.
  intros Hnd Hx. assert (((λ y, (key y, y)) <$> l).*1 = key <$> l) as Hk
    by (by rewrite <-list_fmap_compose).
  rewrite dict_get_of by (by rewrite Hk). apply elem_of_dict_get; [by rewrite Hk|].
  apply list_elem_of_fmap. by exists x.
Qed.

Lemma dict_of_index_Some (key : V → K) (l : list V) k x :
  NoDup (key <$> l) → dict_get (dict_of ((λ y, (key y, y)) <$> l)) k = Some x →
  x ∈ l ∧ key x = k.
Proof.
  intros Hnd Hx. assert (((λ y, (key y, y)) <$> l).*1 = key <$> l) as Hk
    by (by rewrite <-list_fmap_compose).
  rewrite dict_get_of in Hx by (by rewrite Hk).
  apply dict_get_elem_of, list_elem_of_fmap in Hx as (y & [= -> ->] & Hy). done.
Qed.

Lemma filter_ne_not_elem (l : list K) k : k ∉ l → filter (λ k', k' ≠ k) l = l.
Proof.
  induction l as [|k0 l IH]; [done|]. intros [Hne Hl]%not_elem_of_cons.
  rewrite filter_cons_True by congruence. f_equal. auto.
Qed.

Lemma dict_keys_del d k : NoDup (dict_keys d) →
  dict_keys (dict_del d k) = filter (λ k', k' ≠ k) (dict_keys d).
Proof.
  induction d as [|[k0 v0] d IH]; csimpl; [done|]. intros [Hk0 Hd]%NoDup_cons.
  rewrite filter_cons. destruct (decide (k = k0)) as [->|Hne].
  - rewrite decide_False by naive_solver. symmetry. by apply filter_ne_not_elem.
  - rewrite decide_True by congruence. csimpl. f_equal. auto.
Qed.
End dict.

(** ** Dictionaries of dictionaries

    [d.setdefault(k1, {})[k2] = v] and the matching lookup. *)

Section dict2.
Context {K1 K2 : Type} `{EqDecision K1, EqDecision K2} {V : Type}.
Implicit Types (d : list (K1 * list (K2 * V))).

Definition dict_get2 d (k1 : K1) (k2 : K2) : option V :=
  dict_get (default [] (dict_get d k1)) k2.

Definition dict_set2 d (k1 : K1) (k2 : K2) (v : V) : list (K1 * list (K2 * V)) :=
  dict_set d k1 (dict_set (default [] (dict_get d k1)) k2 v).

(** Distinct keys at both levels, and no empty inner dictionary. *)
Definition dict2_ok d : Prop :=
  NoDup (dict_keys d) ∧ ∀ k1 m, (k1, m) ∈ d → NoDup (dict_keys m) ∧ m ≠ [].

Lemma dict_get2_set2 d k1 k2 v k1' k2' :
  dict_get2 (dict_set2 d k1 k2 v) k1' k2' =
    if decide (k1' = k1 ∧ k2' = k2) then Some v else dict_get2 d k1' k2'.
Proof.
  unfold dict_get2, dict_set2. rewrite dict_get_set.
  destruct (decide (k1' = k1)) as [->|Hk1]; cbn.
  - rewrite dict_get_set. repeat case_decide; naive_solver.
  - rewrite decide_False by naive_solver. done.
Qed.

Lemma dict2_ok_nil : dict2_ok [].
Proof. split; [constructor|set_solver]. Qed.

Lemma dict_set_ne_nil {K W : Type} `{EqDecision K} (m : list (K * W)) k v : dict_set m k v ≠ [].
Proof. destruct m as [|[k0 v0] m]; cbn; [done|]. by case_decide. Qed.

Lemma dict2_ok_set2 d k1 k2 v : dict2_ok d → dict2_ok (dict_set2 d k1 k2 v).
Proof.
  intros [Hnd Hin]. assert (Hnd' : NoDup (dict_keys (dict_set2 d k1 k2 v)))
    by (by apply dict_set_NoDup). split; [done|].
  intros k m Hm. apply elem_of_dict_get in Hm; [|done]. unfold dict_set2 in Hm.
  rewrite dict_get_set in Hm. case_decide.
  - injection Hm as <-. split; [|apply dict_set_ne_nil]. apply dict_set_NoDup.
    destruct (dict_get d k1) as [m|] eqn:E; [|constructor].
    by apply (Hin k1 m), dict_get_elem_of.
  - by apply (Hin k m), dict_get_elem_of.
Qed.

Lemma dict_get2_elem d k1 k2 m v :
  dict2_ok d → (k1, m) ∈ d → (k2, v) ∈ m → dict_get2 d k1 k2 = Some v.
Proof.
  intros [Hnd Hin] Hm Hv. unfold dict_get2. rewrite (elem_of_dict_get _ _ _ Hnd Hm). cbn.
  apply elem_of_dict_get; [by apply (Hin k1)|done].
Qed.

Lemma elem_dict_get2 d k1 k2 v :
  dict_get2 d k1 k2 = Some v → ∃ m, (k1, m) ∈ d ∧ (k2, v) ∈ m.
Proof.
  unfold dict_get2. destruct (dict_get d k1) as [m|] eqn:E; cbn; [|done].
  intros Hv. exists m. split; by apply dict_get_elem_of.
Qed.
End dict2.

(** ** [sorted] *)

(** A total preorder given by its boolean test, the contract [sorted]
    expects of the keys it compares. *)
Class TotalLeb {A} (leb : A → A → bool) := {
  leb_total x y : leb x y = true ∨ leb y x = true;
  leb_trans x y z : leb x y = true → leb y z = true → leb x z = true;
}.

Class AntisymLeb {A} (leb : A → A → bool) :=
  leb_antisym x y : leb x y = true → leb y x = true → x = y.

Section sorting.
Context {A : Type} (leb : A → A → bool).

Fixpoint insert_sorted (x : A) (l : list A) : list A :=
  match l with
  | [] => [x]
  | y :: l' => if leb x y then x :: l else y :: insert_sorted x l'
  end.

(** [sorted(l)]: the earliest of equal elements stays first. *)
Definition py_sorted (l : list A) : list A := foldr insert_sorted [] l.

Lemma insert_sorted_perm x l : insert_sorted x l ≡ₚ x :: l.
Proof.
  induction l as [|y l IH]; cbn; [done|]. case_match; [done|].
  rewrite IH. constructor.
Qed.

Lemma py_sorted_perm l : py_sorted l ≡ₚ l.
Proof. induction l as [|x l IH]; cbn; [done|]. by rewrite insert_sorted_perm, IH. Qed.

Lemma length_py_sorted l : length (py_sorted l) = length l.
Proof. apply Permutation_length, py_sorted_perm. Qed.

Lemma elem_of_py_sorted x l : x ∈ py_sorted l ↔ x ∈ l.
Proof. by rewrite py_sorted_perm. Qed.

Lemma NoDup_py_sorted l : NoDup (py_sorted l) ↔ NoDup l.
Proof. by rewrite py_sorted_perm. Qed.

Context `{!TotalLeb leb}.

Lemma insert_sorted_sorted x l :
  StronglySorted leb l → StronglySorted leb (insert_sorted x l).
Proof.
  induction 1 as [|y l Hl IH Hy]; cbn; [repeat constructor|].
  destruct (leb x y) eqn:Hxy.
  - constructor; [by constructor|]. constructor; [by rewrite Hxy|].
    eapply Forall_impl; [exact Hy|]. intros z Hz%Is_true_true.
    apply Is_true_true. by eapply leb_trans.
  - constructor; [done|]. rewrite insert_sorted_perm. constructor; [|done].
    apply Is_true_true. destruct (leb_total x y); [congruence|done].
Qed.

Lemma py_sorted_sorted l : StronglySorted leb (py_sorted l).
Proof. induction l; cbn; [constructor|]. by apply insert_sorted_sorted. Qed.
End sorting.

(** [str] comparison is by code point, which the byte order of UTF-8 agrees
    with. *)
Definition str_leb (s t : string) : bool := String.leb s t.

(** Tuple comparison: the first differing component decides. *)
Definition pair_leb {A B} `{EqDecision A} (la : A → A → bool) (lb : B → B → bool)
    (p q : A * B) : bool :=
  if decide (p.1 = q.1) then lb p.2 q.2 else la p.1 q.1.

Lemma ascii_compare_trans_lt (a b c : Ascii.ascii) :
  Ascii.compare a b = Lt → Ascii.compare b c = Lt → Ascii.compare a c = Lt.
Proof. unfold Ascii.compare. rewrite !N.compare_lt_iff. lia. Qed.

Lemma ascii_compare_eq (a b : Ascii.ascii) : Ascii.compare a b = Eq ↔ a = b.
Proof.
  unfold Ascii.compare. rewrite N.compare_eq_iff. split; [|by intros ->].
  intros H. rewrite <-(Ascii.ascii_N_embedding a), <-(Ascii.ascii_N_embedding b). congruence.
Qed.

Lemma string_compare_refl s : String.compare s s = Eq.
Proof.
  induction s as [|a s IH]; cbn; [done|].
  by rewrite (proj2 (ascii_compare_eq a a) eq_refl).
Qed.

Lemma string_compare_trans s t u :
  String.compare s t ≠ Gt → String.compare t u ≠ Gt → String.compare s u ≠ Gt.
Proof.
  revert t u. induction s as [|a s IH]; intros [|b t] [|c u]; cbn; try done.
  destruct (Ascii.compare a b) eqn:Hab, (Ascii.compare b c) eqn:Hbc; try done.
  - apply ascii_compare_eq in Hab as ->. apply ascii_compare_eq in Hbc as ->.
    rewrite (proj2 (ascii_compare_eq c c) eq_refl). apply IH.
  - apply ascii_compare_eq in Hab as ->. by rewrite Hbc.
  - apply ascii_compare_eq in Hbc as ->. by rewrite Hab.
  - by rewrite (ascii_compare_trans_lt a b c).
Qed.

Lemma str_leb_compare s t : str_leb s t = true ↔ String.compare s t ≠ Gt.
Proof. unfold str_leb, String.leb. by destruct (String.compare s t). Qed.

#[export] Instance str_leb_total : TotalLeb str_leb.
Proof.
  split.
  - intros s t. apply String.leb_total.
  - intros s t u. rewrite !str_leb_compare. apply string_compare_trans.
Qed.

#[export] Instance str_leb_antisym : AntisymLeb str_leb.
Proof. intros s t. apply String.leb_antisym. Qed.

#[export] Instance pair_leb_total {A B} `{EqDecision A} (la : A → A → bool) (lb : B → B → bool) :
  TotalLeb la → AntisymLeb la → TotalLeb lb → TotalLeb (pair_leb la lb).
Proof.
  intros Ha Has Hb. split.
  - intros [a b] [a' b']; unfold pair_leb; cbn.
    repeat case_decide; subst; try congruence; apply leb_total.
  - intros [a b] [a' b'] [a'' b'']; unfold pair_leb; cbn.
    repeat case_decide; subst; try congruence; try apply leb_trans; auto.
Qed.

#[export] Instance pair_leb_antisym {A B} `{EqDecision A} (la : A → A → bool) (lb : B → B → bool) :
  AntisymLeb la → AntisymLeb lb → AntisymLeb (pair_leb la lb).
Proof.
  intros Ha Hb [a b] [a' b']; unfold pair_leb; cbn.
  repeat case_decide; subst; try congruence.
  - intros. f_equal. by apply leb_antisym.
  - intros H1 H2. pose proof (leb_antisym _ _ H1 H2). congruence.
Qed.
