(* ===== verification/PyString.v ===== *)
(** * Python strings

    What the cache planners use of [str]: [split] with a bound, [int] on a
    decimal string, formatting an [int], prefix tests and [isdigit].  A
    string is its sequence of bytes; [int] and [isdigit] accept the ASCII
    digits only, and the interpreter's limit on the number of digits is not
    modelled. *)

From S2P Require Import Prelude.
From stdpp Require Import pretty.
From Stdlib Require Import Ascii.

Local Open Scope Z_scope.
#[local] Arguments String.append !_ _ : simpl nomatch.

(** [s.partition(c)] when [c] occurs. *)
Fixpoint break_at (c : ascii) (s : string) : option (string * string) :=
  match s with
  | EmptyString => None
  | String a s =>
      if decide (a = c) then Some ("", s)
      else '(l, r) ← break_at c s; Some (String a l, r)
  end.

(** [s.split(c, n)] *)
Fixpoint split_max (c : ascii) (n : nat) (s : string) : list string :=
  match n with
  | O => [s]
  | S n => match break_at c s with
           | None => [s]
           | Some (l, r) => l :: split_max c n r
           end
  end.

Definition digit_value (a : ascii) : option Z :=
  let n := Z.of_N (N_of_ascii a) in
  if (48 <=? n) && (n <=? 57) then Some (n - 48) else None.

Definition is_space (a : ascii) : bool :=
  let n := Z.of_N (N_of_ascii a) in
  ((9 <=? n) && (n <=? 13)) || ((28 <=? n) && (n <=? 32)).

Fixpoint lstrip (s : string) : string :=
  match s with
  | String a s' => if is_space a then lstrip s' else s
  | EmptyString => s
  end.

Fixpoint rstrip (s : string) : string :=
  match s with
  | String a s' =>
      match rstrip s' with
      | EmptyString => if is_space a then EmptyString else String a EmptyString
      | s'' => String a s''
      end
  | EmptyString => s
  end.

(** Digits, with single underscores between them. *)
Fixpoint parse_digits (s : string) (acc : Z) (after_digit : bool) : option Z :=
  match s with
  | EmptyString => if after_digit then Some acc else None
  | String a s =>
      match digit_value a with
      | Some d => parse_digits s (acc * 10 + d) true
      | None => if bool_decide (a = "_"%char) && after_digit
                then parse_digits s acc false else None
      end
  end.

(** [int(s)]; [None] is the [ValueError]. *)
Definition int_of_string (s : string) : option Z :=
  match lstrip (rstrip s) with
  | String a s' =>
      if bool_decide (a = "-"%char) then Z.opp <$> parse_digits s' 0 false
      else if bool_decide (a = "+"%char) then parse_digits s' 0 false
      else parse_digits (String a s') 0 false
  | EmptyString => None
  end.

(** [f"{n}"] *)
Definition str_of_int (n : Z) : string := pretty n.

(** [s.isdigit()] *)
Fixpoint all_digits (s : string) : bool :=
  match s with
  | EmptyString => true
  | String a s => bool_decide (is_Some (digit_value a)) && all_digits s
  end.

Definition isdigit (s : string) : bool := negb (String.eqb s "") && all_digits s.

(** [s[len(p):]] when [s] starts with [p]. *)
Fixpoint strip_prefix (p s : string) : option string :=
  match p, s with
  | EmptyString, _ => Some s
  | String a p, String b s => if decide (a = b) then strip_prefix p s else None
  | _, _ => None
  end.

(** ** Lemmas *)

Lemma strip_prefix_Some p s r : strip_prefix p s = Some r ↔ s = (p +:+ r)%string.
Proof.
  revert s. induction p as [|a p IH]; intros s; cbn; [split; congruence|].
  destruct s as [|b s]; cbn; [split; discriminate|].
  case_decide as Hab; [|split; congruence].
  subst. rewrite IH. split; [by intros ->|by intros [= ->]].
Qed.

Fixpoint occurs (c : ascii) (s : string) : bool :=
  match s with
  | EmptyString => false
  | String a s => bool_decide (a = c) || occurs c s
  end.

Lemma break_at_app c l r : occurs c l = false → break_at c (l +:+ String c r) = Some (l, r).
Proof.
  induction l as [|a l IH]; cbn; [by rewrite decide_True|].
  intros [Ha Hl]%orb_false_iff. apply bool_decide_eq_false in Ha.
  rewrite decide_False by done. by rewrite IH.
Qed.

Lemma digit_value_pretty n :
  (n < 10)%N → digit_value (pretty_N_char n) = Some (Z.of_N n).
Proof.
  intros Hn. assert (n = 0 ∨ n = 1 ∨ n = 2 ∨ n = 3 ∨ n = 4 ∨ n = 5 ∨ n = 6 ∨ n = 7 ∨
    n = 8 ∨ n = 9)%N as Hc by lia.
  repeat destruct Hc as [->|Hc]; try reflexivity. by subst.
Qed.

Lemma pretty_N_char_not c n :
  digit_value c = None → pretty_N_char n ≠ c.
Proof.
  intros Hc <-. destruct (decide (n < 10)%N) as [Hn|Hn].
  - by rewrite digit_value_pretty in Hc.
  - destruct n as [|p]; [lia|]. unfold pretty_N_char in Hc.
    repeat (destruct p as [p|p|]; try lia; try discriminate Hc).
Qed.

Lemma parse_pretty_N_go x s acc b :
  (0 < x)%N →
  ∃ k, parse_digits (pretty_N_go x s) acc b =
       parse_digits s (acc * 10 ^ Z.of_nat k + Z.of_N x) true.
Proof.
  revert s acc b. induction (N.lt_wf_0 x) as [x _ IH]. intros s acc b Hx.
  rewrite pretty_N_go_step by done.
  assert (Hm : (x `mod` 10 < 10)%N) by (apply N.mod_lt; lia).
  pose proof (N.div_mod x 10 ltac:(lia)) as Hdm.
  destruct (decide (x `div` 10 = 0)%N) as [H0|H0].
  - rewrite H0, pretty_N_go_0. exists 1%nat. cbn [parse_digits].
    rewrite digit_value_pretty by done. f_equal. lia.
  - destruct (IH (x `div` 10)%N ltac:(apply N.div_lt; lia)
      (String (pretty_N_char (x `mod` 10)) s) acc b ltac:(lia)) as [k Hk].
    exists (S k). rewrite Hk. cbn [parse_digits].
    rewrite digit_value_pretty by done. f_equal.
    rewrite Nat2Z.inj_succ, Z.pow_succ_r by lia.
    assert (Z.of_N x = 10 * Z.of_N (x `div` 10) + Z.of_N (x `mod` 10)) by lia. nia.
Qed.

Lemma occurs_pretty_N_go c x s :
  digit_value c = None → occurs c (pretty_N_go x s) = occurs c s.
Proof.
  intros Hc. revert s. induction (N.lt_wf_0 x) as [x _ IH]. intros s.
  destruct (decide (x = 0)%N) as [->|]; [by rewrite pretty_N_go_0|].
  rewrite pretty_N_go_step by lia. rewrite IH by (apply N.div_lt; lia). cbn.
  rewrite bool_decide_false; [done|]. by apply pretty_N_char_not.
Qed.

(** A printed natural number is a non-empty string of digits. *)
Lemma str_of_int_nonneg n :
  0 ≤ n → parse_digits (str_of_int n) 0 false = Some n ∧
          ∀ c, digit_value c = None → occurs c (str_of_int n) = false.
Proof.
  intros Hn. unfold str_of_int, pretty, pretty_Z. destruct n as [|p|p]; [|..|lia].
  - split; [done|]. intros c Hc. cbn. rewrite bool_decide_false; [done|].
    intros <-. done.
  - unfold pretty, pretty_positive, pretty, pretty_N. rewrite decide_False by lia. split.
    + destruct (parse_pretty_N_go (N.pos p) "" 0 false) as [k ->]; [lia|done].
    + intros c Hc. by rewrite occurs_pretty_N_go.
Qed.

(** Stripping leaves a string without spaces alone. *)
Definition no_spaces (s : string) : Prop := ∀ c, is_space c = true → occurs c s = false.

Lemma no_spaces_cons a s : no_spaces (String a s) → is_space a = false ∧ no_spaces s.
Proof.
  intros H. split.
  - destruct (is_space a) eqn:Ha; [|done]. specialize (H a Ha). cbn in H.
    rewrite bool_decide_true in H by done. discriminate.
  - intros c Hc. specialize (H c Hc). cbn in H. by apply orb_false_iff in H as [_ H].
Qed.

Lemma rstrip_id s : no_spaces s → rstrip s = s.
Proof.
  induction s as [|a s IH]; cbn; [done|]. intros [Ha Hs]%no_spaces_cons.
  rewrite IH by done. destruct s; [by rewrite Ha|done].
Qed.

Lemma lstrip_id s : no_spaces s → lstrip s = s.
Proof. destruct s as [|a s]; cbn; [done|]. intros [Ha _]%no_spaces_cons. by rewrite Ha. Qed.

Lemma space_not_digit c : is_space c = true → digit_value c = None.
Proof.
  unfold is_space, digit_value. intros H. case_match; [lia|done].
Qed.

Lemma int_of_str_of_int n : 0 ≤ n → int_of_string (str_of_int n) = Some n.
Proof.
  intros Hn. destruct (str_of_int_nonneg n Hn) as [Hp Ho]. unfold int_of_string.
  assert (Hs : no_spaces (str_of_int n)) by (intros c Hc; by apply Ho, space_not_digit).
  rewrite rstrip_id, lstrip_id by done.
  destruct (str_of_int n) as [|a s] eqn:Hstr; [discriminate|].
  assert (Hsign : ∀ c, digit_value c = None → a ≠ c).
  { intros c Hc ->. specialize (Ho c Hc). cbn in Ho. by rewrite bool_decide_true in Ho. }
  rewrite !bool_decide_false by (by apply Hsign). done.
Qed.
