(* ===== verification/PyFloat.v ===== *)
(** * Python floats

    A [float] is an IEEE 754 binary64 number, here [spec_float] of the Standard
    Library at precision 53 and exponent range 1024, whose operations are the
    correctly rounded ones (to nearest, ties to even) on integers.  An [int]
    operand of a mixed operation is first rounded to binary64, and [int / int]
    rounds the exact quotient once, whatever the size of the operands; both
    raise [OverflowError] past the range. *)

From S2P Require Import Prelude.
From Stdlib Require Import SpecFloat.

Local Open Scope Z_scope.

Definition float_prec : Z := 53.
Definition float_emax : Z := 1024.

Definition finite_or_overflow (f : spec_float) : result spec_float :=
  match f with
  | S754_infinity _ => Raise (OverflowError "int too large to convert to float")
  | f => Ok f
  end.

(** [float(z)] *)
Definition float_of_int (z : Z) : result spec_float :=
  finite_or_overflow (binary_normalize float_prec float_emax z 0 false).

(** [a / b] on integers.  The quotient of the unrounded operands is computed
    with its remainder and rounded once. *)
Definition int_truediv (a b : Z) : result spec_float :=
  match b with
  | Z0 => Raise (ZeroDivisionError "division by zero")
  | _ =>
      let as_float z :=
        match z with
        | Z0 => S754_zero false
        | Zpos m => S754_finite false m 0
        | Zneg m => S754_finite true m 0
        end in
      finite_or_overflow (SFdiv float_prec float_emax (as_float a) (as_float b))
  end.

Definition float_sub : spec_float → spec_float → spec_float := SFsub float_prec float_emax.

Definition float_is_zero (f : spec_float) : bool :=
  match f with S754_zero _ => true | _ => false end.

(** [x / y] on floats. *)
Definition float_div (x y : spec_float) : result spec_float :=
  raise_when (float_is_zero y) (ZeroDivisionError "float division by zero");;
  Ok (SFdiv float_prec float_emax x y).

(** [x > y] and [x < y]; a NaN compares false. *)
Definition float_gt (x y : spec_float) : bool := SFltb y x.
Definition float_lt (x y : spec_float) : bool := SFltb x y.

Example third : int_truediv 1 3 = Ok (S754_finite false 6004799503160661 (-54)).
Proof. reflexivity. Qed.

Example quarter : int_truediv 1 4 = Ok (S754_finite false 4503599627370496 (-54)).
Proof. reflexivity. Qed.

(** Two to the 53 plus one has no binary64 form: it rounds to even. *)
Example rounding : float_of_int (2 ^ 53 + 1) = float_of_int (2 ^ 53).
Proof. reflexivity. Qed.
