(* ===== verification/DoubleOrder.v ===== *)
(** * The order of doubles, and division by a count

    Facts about binary64 the load balancer rests on: on numbers other than NaN, [<] is a
    strict weak order; rounding to nearest is monotone; so a finite load divided by a
    larger count is never larger.  The arithmetic is that of [PyFloat]; rationals serve
    as the exact values that are rounded. *)

From S2P Require Import Prelude PyFloat.
From Stdlib Require Import QArith Qpower Lqa SpecFloat.

Local Open Scope Z_scope.

(** ** The order *)

Definition is_nan (f : spec_float) : bool := match f with S754_nan => true | _ => false end.

(** The place of a number: sign and kind, then exponent, then mantissa. *)
Definition key (f : spec_float) : Z * Z * Z :=
  match f with
  | S754_nan | S754_zero _ => (0, 0, 0)
  | S754_infinity true => (-2, 0, 0)
  | S754_infinity false => (2, 0, 0)
  | S754_finite true m e => (-1, - e, Z.neg m)
  | S754_finite false m e => (1, e, Z.pos m)
  end.

Definition key_lt (a b : Z * Z * Z) : Prop :=
  a.1.1 < b.1.1 ∨ a.1.1 = b.1.1 ∧ (a.1.2 < b.1.2 ∨ a.1.2 = b.1.2 ∧ a.2 < b.2).

Lemma float_lt_key a b : is_nan a = false → is_nan b = false → float_lt a b = true ↔ key_lt (key a) (key b).
Proof.
  unfold float_lt, SFltb, key_lt. destruct a as [[]|[]| |[] m e], b as [[]|[]| |[] n f]; try done; intros _ _; cbn;
    try (split; [done|lia]); try (split; [lia|done]).
  all: destruct (Z.compare_spec e f); cbn; try (split; [done|lia]); try (split; [lia|done]).
  all: change (Pos.compare_cont Eq m n) with (m ?= n)%positive; destruct (Pos.compare_spec m n); cbn;
    try (split; [done|lia]); try (split; [lia|done]).
Qed.

Lemma float_lt_total a b :
  is_nan a = false → is_nan b = false → float_lt a b = false ∨ float_lt b a = false.
Proof.
  intros Ha Hb. pose proof (float_lt_key a b Ha Hb) as H1. pose proof (float_lt_key b a Hb Ha) as H2.
  destruct (float_lt a b), (float_lt b a); auto. unfold key_lt in *. lia.
Qed.

Lemma float_not_lt_trans a b c :
  is_nan a = false → is_nan b = false → is_nan c = false →
  float_lt b a = false → float_lt c b = false → float_lt c a = false.
Proof.
  intros Ha Hb Hc Hab Hbc. pose proof (float_lt_key b a Hb Ha) as H1. pose proof (float_lt_key c b Hc Hb) as H2.
  pose proof (float_lt_key c a Hc Ha) as H3. rewrite Hab in H1. rewrite Hbc in H2.
  destruct (float_lt c a); [|done]. unfold key_lt in *. lia.
Qed.

(** ** Powers of two *)

Definition bpow (e : Z) : Q := Qpower 2 e.

Lemma bpow_pos e : (0 < bpow e)%Q.
Proof. by apply Qpower_0_lt. Qed.

Lemma bpow_add e f : (bpow (e + f) == bpow e * bpow f)%Q.
Proof. by apply Qpower_plus. Qed.

Lemma bpow_Z n : 0 ≤ n → (bpow n == inject_Z (2 ^ n))%Q.
Proof. intros Hn. by rewrite Zpower_Qpower. Qed.

Lemma bpow_succ e : (bpow (e + 1) == 2 * bpow e)%Q.
Proof. rewrite bpow_add. change (bpow 1) with (2 # 1)%Q. lra. Qed.

Lemma bpow_le e f : e ≤ f → (bpow e <= bpow f)%Q.
Proof.
  intros Hef. replace f with (e + (f - e)) by lia. rewrite bpow_add, (bpow_Z (f - e)) by lia.
  pose proof (bpow_pos e). assert (1 <= inject_Z (2 ^ (f - e)))%Q; [|nra].
  change 1%Q with (inject_Z 1). rewrite <- Zle_Qle. pose proof (Z.pow_pos_nonneg 2 (f - e)). lia.
Qed.

Lemma bpow_lt_inv e f : (bpow e < bpow f)%Q → e < f.
Proof. intros H. apply Z.nle_gt. intros Hle%bpow_le. lra. Qed.

(** ** Shifting with a round and a sticky bit *)

(** What the two bits say about the fraction that was shifted out. *)
Definition bits_say (r s : bool) (f : Q) : Prop :=
  match r, s with
  | false, false => f == 0
  | false, true => 0 < f < 1 # 2
  | true, false => f == 1 # 2
  | true, true => 1 # 2 < f < 1
  end%Q.

(** The record at exponent [e] stands for [x]. *)
Definition stands (x : Q) (mrs : shr_record) (e : Z) : Prop :=
  0 ≤ shr_m mrs ∧ ∃ f, (x == (inject_Z (shr_m mrs) + f) * bpow e)%Q ∧ bits_say (shr_r mrs) (shr_s mrs) f.

Lemma bits_range r s f : bits_say r s f → (0 <= f < 1)%Q.
Proof. destruct r, s; cbn; lra. Qed.

Lemma shr_1_stands x mrs e : stands x mrs e → stands x (shr_1 mrs) (e + 1).
Proof.
  destruct mrs as [m r s]. intros (Hm & f & Hx & Hf). cbn [shr_m shr_r shr_s] in *.
  assert (∃ h (o : bool), m = 2 * h + Z.b2z o ∧ 0 ≤ h ∧ shr_1 (Build_shr_record m r s) = Build_shr_record h o (r || s))
    as (h & o & -> & Hh & ->).
  { destruct m as [|[p|p|]|p]; [exists 0, false|exists (Z.pos p), true|exists (Z.pos p), false|exists 0, true|lia]; cbn; split_and!; lia || done. }
  split; [done|]. exists ((inject_Z (Z.b2z o) + f) * (1 # 2))%Q. cbn [shr_m shr_r shr_s]. split.
  - rewrite Hx, bpow_succ, inject_Z_plus, inject_Z_mult. field.
  - change (inject_Z (Z.b2z o)) with (Z.b2z o # 1)%Q. destruct o, r, s; cbn [bits_say orb Z.b2z] in *; lra.
Qed.

Lemma iter_stands x p : ∀ mrs e, stands x mrs e → stands x (iter_pos shr_1 p mrs) (e + Z.pos p).
Proof.
  induction p as [p IH|p IH|]; intros mrs e H; cbn [iter_pos].
  - replace (e + Z.pos p~1) with (e + 1 + Z.pos p + Z.pos p) by lia. by apply IH, IH, shr_1_stands.
  - replace (e + Z.pos p~0) with (e + Z.pos p + Z.pos p) by lia. by apply IH, IH.
  - by apply shr_1_stands.
Qed.

Lemma shr_stands x mrs e n :
  stands x mrs e → stands x (shr mrs e n).1 (shr mrs e n).2 ∧ (shr mrs e n).2 = Z.max e (e + n).
Proof. intros H. destruct n; cbn [shr fst snd]; [split; [done|lia]|split; [by apply iter_stands|lia]|split; [done|lia]]. Qed.

(** ** Rounding *)

Local Abbreviation emin := (SpecFloat.emin float_prec float_emax).
Local Abbreviation fexp := (SpecFloat.fexp float_prec float_emax).

Lemma digits_spec m : 0 ≤ m → m < 2 ^ Zdigits2 m ∧ 0 ≤ Zdigits2 m ∧ (0 < m → 1 ≤ Zdigits2 m ∧ 2 ^ (Zdigits2 m - 1) ≤ m).
Proof.
  destruct m as [|p|p]; [done| |lia]. intros _. cbn [Zdigits2].
  enough (1 ≤ Z.pos (digits2_pos p) ∧ 2 ^ (Z.pos (digits2_pos p) - 1) ≤ Z.pos p < 2 ^ Z.pos (digits2_pos p)) by lia.
  induction p as [p IH|p IH|]; cbn [digits2_pos]; [| |done]; rewrite Pos2Z.inj_succ, Z.pow_succ_r by lia;
    replace (Z.succ (Z.pos (digits2_pos p)) - 1) with (Z.succ (Z.pos (digits2_pos p) - 1)) by lia;
    rewrite Z.pow_succ_r by lia; lia.
Qed.

(** The exponent at which [x] is rounded. *)
Definition scaled (x : Q) (E : Z) : Prop :=
  emin ≤ E ∧ (x < bpow (E + 53))%Q ∧ (E = emin ∨ (bpow (E + 52) <= x)%Q).

Lemma stands_bounds x mrs e :
  stands x mrs e → (inject_Z (shr_m mrs) * bpow e <= x < inject_Z (shr_m mrs + 1) * bpow e)%Q.
Proof.
  intros (Hm & f & Hx & Hf%bits_range). rewrite Hx, inject_Z_plus. pose proof (bpow_pos e). change (inject_Z 1) with 1%Q. nra.
Qed.

Lemma scaled_fexp x mrs e :
  stands x mrs e → e ≤ fexp (Zdigits2 (shr_m mrs) + e) → scaled x (fexp (Zdigits2 (shr_m mrs) + e)).
Proof.
  intros Hst He. pose proof (stands_bounds _ _ _ Hst) as [Hlo Hhi]. destruct Hst as [Hm _].
  destruct (digits_spec _ Hm) as (Hlt & Hd & Hpos). set (k := Zdigits2 (shr_m mrs)) in *.
  assert (x < bpow (k + e))%Q as Hxk.
  { eapply Qlt_le_trans; [exact Hhi|]. rewrite bpow_add, (bpow_Z k) by done. pose proof (bpow_pos e).
    apply Qmult_le_compat_r; [|lra]. rewrite <- Zle_Qle. lia. }
  unfold SpecFloat.fexp, SpecFloat.emin, float_prec, float_emax in *. unfold scaled, SpecFloat.emin, float_prec, float_emax.
  split; [lia|]. split.
  - eapply Qlt_le_trans; [exact Hxk|]. apply bpow_le. lia.
  - destruct (Z.le_gt_cases (k + e - 53) (3 - 1024 - 53)) as [Hs|Hs]; [left; lia|]. right. rewrite Z.max_l by lia.
    assert (0 < shr_m mrs) as Hmp.
    { destruct (decide (shr_m mrs = 0)) as [Hz|]; [|lia]. unfold k in *. rewrite Hz in *. cbn in *. lia. }
    destruct (Hpos Hmp) as [Hk Hk2]. eapply Qle_trans; [|exact Hlo].
    replace (k + e - 53 + 52) with ((k - 1) + e) by lia. rewrite bpow_add, (bpow_Z (k - 1)) by lia. pose proof (bpow_pos e).
    apply Qmult_le_compat_r; [|lra]. by rewrite <- Zle_Qle.
Qed.

(** The mantissa after rounding to nearest. *)
Definition nearest (mrs : shr_record) : Z := round_nearest_even (shr_m mrs) (loc_of_shr_record mrs).

(** The end of [binary_round_aux]. *)
Definition packed (M E : Z) : spec_float :=
  let '(mrs, e) := shr_fexp float_prec float_emax M E loc_Exact in
  match shr_m mrs with
  | Z0 => S754_zero false
  | Zpos m => if e <=? float_emax - float_prec then S754_finite false m e else S754_infinity false
  | _ => S754_nan
  end.

(** [x], rounded at exponent [E], has mantissa [M]. *)
Definition rounds (x : Q) (E M : Z) : Prop := scaled x E ∧ ∃ mrs, stands x mrs E ∧ M = nearest mrs.

Lemma record_of_loc_m m l : shr_m (shr_record_of_loc m l) = m.
Proof. by destruct l as [|[]]. Qed.

Lemma round_aux_spec x m e l :
  stands x (shr_record_of_loc m l) e → e ≤ fexp (Zdigits2 m + e) →
  ∃ E M, rounds x E M ∧ binary_round_aux float_prec float_emax false m e l = packed M E.
Proof.
  intros Hst He. pose proof (scaled_fexp _ _ _ Hst) as Hsc. rewrite record_of_loc_m in Hsc. specialize (Hsc He).
  unfold binary_round_aux. unfold shr_fexp at 1.
  destruct (shr_stands x _ e (fexp (Zdigits2 m + e) - e) Hst) as [Hst' HE].
  destruct (shr _ e _) as [mrs E]. cbn [fst snd] in *. exists E, (nearest mrs).
  replace (fexp (Zdigits2 m + e)) with E in Hsc by lia. split; [split; [done|by exists mrs]|done].
Qed.

Lemma nearest_range mrs : shr_m mrs ≤ nearest mrs ≤ shr_m mrs + 1.
Proof. destruct mrs as [m [] []]; unfold nearest; cbn; try case_match; lia. Qed.

(** Rounding at one exponent is monotone. *)
Lemma nearest_mono x y E a b : (x <= y)%Q → stands x a E → stands y b E → nearest a ≤ nearest b.
Proof.
  intros Hxy Ha Hb. pose proof (stands_bounds _ _ _ Ha) as [Hal _]. pose proof (stands_bounds _ _ _ Hb) as [_ Hbh].
  pose proof (bpow_pos E) as HE. assert (shr_m a < shr_m b + 1) as Hlt.
  { rewrite Zlt_Qlt. apply (Qmult_lt_r _ _ (bpow E)); [done|]. lra. }
  pose proof (nearest_range a). pose proof (nearest_range b).
  destruct (decide (shr_m a = shr_m b)) as [Heq|]; [|lia].
  destruct Ha as (_ & f & Hx & Hf), Hb as (_ & g & Hy & Hg). assert (f <= g)%Q as Hfg.
  { rewrite Hx, Hy, Heq in Hxy. apply Qmult_le_r in Hxy; [lra|done]. }
  destruct a as [m [] []], b as [n [] []]; unfold nearest; cbn in *; subst n; try case_match; try lia; exfalso; lra.
Qed.

(** A rounded mantissa has at most 53 bits, or is the next power of two; above the
    smallest exponent it has 53. *)
Lemma rounds_range x E M : (0 <= x)%Q → rounds x E M → 0 ≤ M ≤ 2 ^ 53 ∧ (E = emin ∨ 2 ^ 52 ≤ M).
Proof.
  intros Hx [(HE & Hhi & Hlo) (mrs & Hst & ->)]. pose proof (stands_bounds _ _ _ Hst) as [Hl Hh].
  pose proof (nearest_range mrs). pose proof (bpow_pos E) as Hp. destruct Hst as [Hm _].
  assert (shr_m mrs < 2 ^ 53) as Hlt.
  { rewrite Zlt_Qlt. apply (Qmult_lt_r _ _ (bpow E)); [done|]. rewrite <- (bpow_Z 53), <- bpow_add by done.
    rewrite (Z.add_comm 53). lra. }
  split; [lia|]. destruct Hlo as [|Hlo]; [by left|right]. enough (2 ^ 52 < shr_m mrs + 1) by lia.
  rewrite Zlt_Qlt. apply (Qmult_lt_r _ _ (bpow E)); [done|]. rewrite <- (bpow_Z 52), <- bpow_add by done.
  rewrite (Z.add_comm 52). lra.
Qed.

(** ** Monotone rounding *)

Definition normal_pair (M E : Z) : Prop := emin ≤ E ∧ 0 ≤ M ≤ 2 ^ 53 ∧ (E = emin ∨ 2 ^ 52 ≤ M).
Definition pair_le (M E N F : Z) : Prop := E < F ∨ E = F ∧ M ≤ N.

Definition number (m e : Z) : spec_float :=
  if e <=? float_emax - float_prec then S754_finite false (Z.to_pos m) e else S754_infinity false.

Lemma packed_eq M E :
  normal_pair M E →
  packed M E = if M =? 0 then S754_zero false else if M =? 2 ^ 53 then number (2 ^ 52) (E + 1) else number M E.
Proof.
  unfold normal_pair. intros (HE & HM & Hn). destruct (Z.eqb_spec M (2 ^ 53)) as [->|Hne].
  - unfold packed, shr_fexp. replace (fexp (Zdigits2 (2 ^ 53) + E) - E) with 1; [reflexivity|].
    change (Zdigits2 (2 ^ 53)) with 54. unfold SpecFloat.fexp, SpecFloat.emin, float_prec, float_emax in *. lia.
  - destruct (digits_spec M ltac:(lia)) as (_ & Hd & Hpos).
    assert (Zdigits2 M ≤ 53) as Hd53.
    { destruct (decide (0 < M)) as [Hp|]; [|replace M with 0 by lia; cbn; lia]. destruct (Hpos Hp) as [_ Hlo].
      apply Z.nlt_ge. intros Hlt. assert (2 ^ 53 ≤ 2 ^ (Zdigits2 M - 1)) by (apply Z.pow_le_mono_r; lia). lia. }
    unfold packed, shr_fexp. assert (fexp (Zdigits2 M + E) - E ≤ 0) as Hs.
    { unfold SpecFloat.fexp, SpecFloat.emin, float_prec, float_emax in *. lia. }
    destruct (fexp (Zdigits2 M + E) - E) as [|p|p]; [|lia|]; cbn [shr shr_record_of_loc shr_m];
      (destruct M as [|m|m]; [done|done|lia]).
Qed.

Lemma packed_not_nan M E : normal_pair M E → is_nan (packed M E) = false.
Proof. intros H. rewrite packed_eq by done. unfold number. repeat case_match; done. Qed.

Lemma packed_mono M E N F :
  normal_pair M E → normal_pair N F → pair_le M E N F → float_lt (packed N F) (packed M E) = false.
Proof.
  intros HM HN Hle. apply not_true_iff_false. rewrite float_lt_key by (by apply packed_not_nan).
  rewrite !packed_eq by done. unfold normal_pair, pair_le, SpecFloat.emin, float_prec, float_emax in *.
  unfold number, float_prec, float_emax.
  destruct (Z.eqb_spec M 0), (Z.eqb_spec N 0), (Z.eqb_spec M (2 ^ 53)), (Z.eqb_spec N (2 ^ 53)); try lia;
    repeat case_match; unfold key_lt; cbn; lia.
Qed.

Lemma scaled_mono x y E F : (x <= y)%Q → scaled x E → scaled y F → E ≤ F.
Proof.
  intros Hxy (HE & _ & [->|Hlo]) (HF & Hhi & _); [done|].
  assert (bpow (E + 52) < bpow (F + 53))%Q as ?%bpow_lt_inv by lra. lia.
Qed.

Lemma rounds_mono x y E F M N : (x <= y)%Q → rounds x E M → rounds y F N → pair_le M E N F.
Proof.
  intros Hxy [Hsx (a & Ha & ->)] [Hsy (b & Hb & ->)]. pose proof (scaled_mono _ _ _ _ Hxy Hsx Hsy).
  destruct (decide (E = F)) as [->|]; [|left; lia]. right. split; [done|]. by apply (nearest_mono x y F).
Qed.

Lemma rounds_normal x E M : (0 <= x)%Q → rounds x E M → normal_pair M E.
Proof. intros Hx Hr. destruct (rounds_range _ _ _ Hx Hr). split; [apply Hr|done]. Qed.

(** ** Counts as doubles *)

Definition count_as_double (c : Z) : spec_float := binary_normalize float_prec float_emax c 0 false.

Lemma exact_stands m e : 0 ≤ m → stands (inject_Z m * bpow e) (shr_record_of_loc m loc_Exact) e.
Proof. intros Hm. split; [done|]. exists 0%Q. cbn [shr_record_of_loc shr_m shr_r shr_s bits_say]. split; [ring|done]. Qed.

Lemma iter_xO p d : Z.pos (Pos.iter xO p d) = Z.pos p * 2 ^ Z.pos d.
Proof.
  induction d as [|d IH] using Pos.peano_ind; [cbn; lia|]. rewrite Pos.iter_succ, Pos2Z.inj_succ, Z.pow_succ_r by lia. lia.
Qed.

Lemma digits_iter p d : Z.pos (digits2_pos (Pos.iter xO p d)) = Z.pos (digits2_pos p) + Z.pos d.
Proof. induction d as [|d IH] using Pos.peano_ind; [cbn; lia|]. rewrite Pos.iter_succ. cbn [digits2_pos]. lia. Qed.

Lemma align_spec p e :
  let '(mz, ez) := shl_align p e (fexp (Z.pos (digits2_pos p) + e)) in
  (inject_Z (Z.pos mz) * bpow ez == inject_Z (Z.pos p) * bpow e)%Q ∧ ez ≤ fexp (Zdigits2 (Z.pos mz) + ez).
Proof.
  unfold shl_align. destruct (fexp (Z.pos (digits2_pos p) + e) - e) as [|d|d] eqn:Hs; [split; [done|cbn [Zdigits2]; lia]..|].
  set (f := fexp (Z.pos (digits2_pos p) + e)) in *. cbn [Zdigits2]. split.
  - rewrite iter_xO, inject_Z_mult, <- (bpow_Z (Z.pos d)) by lia. replace e with (Z.pos d + f) by lia. rewrite bpow_add. ring.
  - rewrite digits_iter. replace (Z.pos (digits2_pos p) + Z.pos d + f) with (Z.pos (digits2_pos p) + e) by lia. done.
Qed.

Lemma rounds_eq x y E M : (x == y)%Q → rounds x E M → rounds y E M.
Proof.
  intros Hxy [(HE & Hhi & Hlo) (mrs & (Hm & f & Hx & Hf) & ->)]. split; [split; [done|split; [by rewrite <- Hxy|]]|].
  - destruct Hlo; [by left|right]. by rewrite <- Hxy.
  - exists mrs. split; [|done]. split; [done|]. exists f. split; [by rewrite <- Hxy|done].
Qed.

(** A positive count is a normal number. *)
Lemma count_rounds c :
  1 ≤ c → ∃ E M, rounds (inject_Z c) E M ∧ 2 ^ 52 ≤ M ∧ count_as_double c = packed M E.
Proof.
  intros Hc. destruct c as [|p|p]; [lia| |lia]. unfold count_as_double. cbn [binary_normalize]. unfold binary_round.
  pose proof (align_spec p 0) as Hal. destruct (shl_align p 0 _) as [mz ez]. destruct Hal as [Hv He].
  destruct (round_aux_spec _ _ _ _ (exact_stands (Z.pos mz) ez ltac:(lia)) He) as (E & M & Hr & Heq).
  exists E, M. assert (rounds (inject_Z (Z.pos p)) E M) as Hr'.
  { eapply rounds_eq; [|exact Hr]. rewrite Hv. change (bpow 0) with 1%Q. ring. }
  split; [done|]. split; [|done]. assert (1 <= inject_Z (Z.pos p))%Q as H1 by (change 1%Q with (inject_Z 1); by rewrite <- Zle_Qle).
  destruct (rounds_range (inject_Z (Z.pos p)) E M ltac:(lra) Hr') as [_ [->|]]; [|done]. exfalso.
  destruct Hr' as [(_ & Hhi & _) _]. pose proof (bpow_le (emin + 53) 0 ltac:(done)) as Hb. change (bpow 0) with 1%Q in Hb. lra.
Qed.

(** The value of a rounded number, unless it overflows. *)
Lemma packed_value M E :
  normal_pair M E → 0 < M →
  packed M E = S754_infinity false ∨
  ∃ m e, packed M E = S754_finite false m e ∧ (inject_Z (Z.pos m) * bpow e == inject_Z M * bpow E)%Q.
Proof.
  intros Hn HM. rewrite packed_eq, (proj2 (Z.eqb_neq M 0)) by (done || lia). unfold number.
  destruct (Z.eqb_spec M (2 ^ 53)) as [->|].
  - case_match; [right|by left]. eexists _, _. split; [done|]. change (Z.pos (Z.to_pos (2 ^ 52))) with (2 ^ 52).
    rewrite bpow_succ. change (inject_Z (2 ^ 53)) with (inject_Z (2 ^ 52 * 2)). rewrite inject_Z_mult. change (inject_Z 2) with 2%Q. ring.
  - case_match; [right|by left]. eexists _, _. split; [done|]. by rewrite Z2Pos.id by lia.
Qed.

Lemma pair_value_le M E N F :
  normal_pair M E → normal_pair N F → pair_le M E N F → (inject_Z M * bpow E <= inject_Z N * bpow F)%Q.
Proof.
  intros (HE & HM & _) (HF & HN & Hn) [Hlt|[-> Hle]].
  - destruct Hn as [|Hn]; [lia|]. pose proof (bpow_pos E). pose proof (bpow_pos F).
    apply (Qle_trans _ (bpow (53 + E))).
    + rewrite bpow_add, (bpow_Z 53) by done. apply Qmult_le_compat_r; [|lra]. rewrite <- Zle_Qle. lia.
    + apply (Qle_trans _ (bpow (52 + F))); [apply bpow_le; lia|]. rewrite bpow_add, (bpow_Z 52) by done.
      apply Qmult_le_compat_r; [|lra]. by rewrite <- Zle_Qle.
  - pose proof (bpow_pos F). apply Qmult_le_compat_r; [|lra]. by rewrite <- Zle_Qle.
Qed.

(** ** Division *)

Lemma location_cases n r :
  0 ≤ r < n →
  shr_record_of_loc 0 (new_location n r) =
  Build_shr_record 0 (n <=? 2 * r) (negb ((r =? 0) || (2 * r =? n))).
Proof.
  intros Hr. unfold new_location, new_location_even, new_location_odd.
  destruct (Z.eqb_spec r 0) as [->|Hne]; [rewrite (proj2 (Z.leb_gt n _)) by lia; by destruct (Z.even n)|].
  destruct (Z.even n) eqn:Hev.
  - rewrite (proj2 (Z.eqb_neq r 0) Hne). destruct (Z.compare_spec (2 * r) n), (Z.leb_spec n (2 * r)), (Z.eqb_spec (2 * r) n); done || lia.
  - rewrite (proj2 (Z.eqb_neq r 0) Hne). assert (2 * r ≠ n) by (intros <-; rewrite Z.even_mul in Hev; done).
    destruct (Z.compare_spec (2 * r + 1) n), (Z.leb_spec n (2 * r)), (Z.eqb_spec (2 * r) n); done || lia.
Qed.

Lemma location_stands q r n e :
  0 ≤ q → 0 ≤ r < n → stands ((inject_Z q + inject_Z r / inject_Z n) * bpow e) (shr_record_of_loc q (new_location n r)) e.
Proof.
  intros Hq Hr. split; [by rewrite record_of_loc_m|]. rewrite record_of_loc_m. exists (inject_Z r / inject_Z n)%Q. split; [done|].
  assert (∀ a b : Z, a < b → (inject_Z a < inject_Z b)%Q) as Hlt by (intros; by rewrite <- Zlt_Qlt).
  pose proof (Hlt 0 n ltac:(lia)) as Hn. change (inject_Z 0) with 0%Q in Hn.
  assert (inject_Z r / inject_Z n * inject_Z n == inject_Z r)%Q as Hf by (field; lra).
  set (f := (inject_Z r / inject_Z n)%Q) in *. clearbody f. pose proof (location_cases n r Hr) as Hl.
  assert (shr_r (shr_record_of_loc q (new_location n r)) = (n <=? 2 * r) ∧
    shr_s (shr_record_of_loc q (new_location n r)) = negb ((r =? 0) || (2 * r =? n))) as [-> ->].
  { destruct (new_location n r) as [|[]]; by injection Hl as <- <-. }
  pose proof (Hlt r n ltac:(lia)) as Hrn.
  assert (2 * inject_Z r == inject_Z (2 * r))%Q as H2 by (by rewrite inject_Z_mult).
  destruct (Z.eqb_spec r 0) as [->|Hne]; [rewrite (proj2 (Z.leb_gt n _)) by lia|].
  { cbn. apply (Qmult_inj_r _ _ (inject_Z n)); [lra|]. rewrite Hf. change (inject_Z 0) with 0%Q. lra. }
  pose proof (Hlt 0 r ltac:(lia)) as Hr0. change (inject_Z 0) with 0%Q in Hr0.
  destruct (Z.eqb_spec (2 * r) n) as [Heq|Hneq]; [rewrite (proj2 (Z.leb_le n _)) by lia; cbn|].
  { apply (Qmult_inj_r _ _ (inject_Z n)); [lra|]. rewrite Hf, <- Heq, inject_Z_mult. change (inject_Z 2) with 2%Q. lra. }
  destruct (Z.leb_spec n (2 * r)); cbn.
  - pose proof (Hlt n (2 * r) ltac:(lia)). split; apply (Qmult_lt_r _ _ (inject_Z n)); lra.
  - pose proof (Hlt (2 * r) n ltac:(lia)). split; apply (Qmult_lt_r _ _ (inject_Z n)); lra.
Qed.

(** The digits of a quotient. *)
Lemma quotient_digits d1 d2 dq s m n q r :
  1 ≤ d1 → 0 ≤ d2 → 0 ≤ dq → 0 ≤ s → 2 ^ (d1 - 1) ≤ m → n < 2 ^ d2 → q < 2 ^ dq → m * 2 ^ s = n * q + r → 0 ≤ r < n →
  d1 + s - d2 ≤ dq.
Proof.
  intros Hd1 Hd2 Hdq Hs Hm Hn Hq Heq Hr. apply Z.nlt_ge. intros Hlt.
  assert (m * 2 ^ s < 2 ^ (d2 + dq)) as Hhi by (rewrite Z.pow_add_r by done; nia).
  assert (2 ^ (d1 - 1 + s) ≤ m * 2 ^ s) as Hlo.
  { rewrite Z.pow_add_r by lia. pose proof (Z.pow_pos_nonneg 2 s). nia. }
  assert (2 ^ (d2 + dq) ≤ 2 ^ (d1 - 1 + s)) by (apply Z.pow_le_mono_r; lia). lia.
Qed.

Lemma quotient_value m n q r e f e' :
  0 < n → e' ≤ e - f → m * 2 ^ (e - f - e') = n * q + r →
  ((inject_Z q + inject_Z r / inject_Z n) * bpow e' == inject_Z m * bpow e / (inject_Z n * bpow f))%Q.
Proof.
  intros Hn He Heq. assert (0 < inject_Z n)%Q as Hn' by (change 0%Q with (inject_Z 0); by rewrite <- Zlt_Qlt).
  assert (inject_Z m * bpow (e - f - e') == inject_Z n * inject_Z q + inject_Z r)%Q as Hq.
  { rewrite bpow_Z, <- !inject_Z_mult, <- inject_Z_plus by lia. by rewrite Heq. }
  pose proof (bpow_pos f) as Hf. replace e with ((e - f - e') + (e' + f)) at 1 by lia. rewrite !bpow_add.
  assert (inject_Z r == inject_Z m * bpow (e - f - e') - inject_Z n * inject_Z q)%Q as -> by lra.
  field. split; lra.
Qed.

(** The quotient of two positive numbers is rounded once. *)
Lemma div_rounds m e n f :
  ∃ E M, rounds (inject_Z (Z.pos m) * bpow e / (inject_Z (Z.pos n) * bpow f)) E M ∧
    SFdiv float_prec float_emax (S754_finite false m e) (S754_finite false n f) = packed M E.
Proof.
  cbn [SFdiv xorb]. unfold SFdiv_core_binary.
  set (d1 := Zdigits2 (Z.pos m)). set (d2 := Zdigits2 (Z.pos n)).
  set (e' := Z.min (fexp (d1 + e - (d2 + f))) (e - f)). assert (0 ≤ e - f - e') as Hs by lia.
  assert ((match e - f - e' with Z0 => Z.pos m | Z.pos _ => Z.shiftl (Z.pos m) (e - f - e') | Z.neg _ => 0 end) =
    Z.pos m * 2 ^ (e - f - e')) as ->.
  { rewrite <- Z.shiftl_mul_pow2 by done. destruct (e - f - e'); [done|done|lia]. }
  pose proof (Z_div_mod (Z.pos m * 2 ^ (e - f - e')) (Z.pos n) ltac:(lia)) as Hdm.
  destruct (Z.div_eucl _ _) as [q r]. destruct Hdm as [Hdm Hr].
  assert (0 ≤ q) as Hq by (pose proof (Z.pow_pos_nonneg 2 (e - f - e')); nia).
  destruct (round_aux_spec _ _ _ _ (location_stands q r (Z.pos n) e' Hq ltac:(lia))) as (E & M & Hrd & Heq).
  { transitivity (fexp (d1 + e - (d2 + f))); [lia|].
    assert (d1 + e - (d2 + f) ≤ Zdigits2 q + e'); [|unfold SpecFloat.fexp; lia].
    destruct (digits_spec (Z.pos m) ltac:(lia)) as (_ & _ & Hm). destruct (Hm ltac:(lia)) as [Hd1 Hm1].
    destruct (digits_spec (Z.pos n) ltac:(lia)) as (Hn1 & Hd2 & _). destruct (digits_spec q Hq) as (Hq1 & Hdq & _).
    fold d1 in Hd1, Hm1. fold d2 in Hn1, Hd2. 
    pose proof (quotient_digits d1 d2 (Zdigits2 q) (e - f - e') (Z.pos m) (Z.pos n) q r Hd1 Hd2 Hdq Hs Hm1 Hn1 Hq1 Hdm Hr). lia. }
  exists E, M. split; [|exact Heq]. eapply rounds_eq; [|exact Hrd]. apply quotient_value; [lia|lia|exact Hdm].
Qed.

Lemma value_pos m e : (0 < inject_Z (Z.pos m) * bpow e)%Q.
Proof.
  pose proof (bpow_pos e). assert (0 < inject_Z (Z.pos m))%Q; [|nra]. change 0%Q with (inject_Z 0). rewrite <- Zlt_Qlt. lia.
Qed.

Lemma quotient_nonneg m e n f : (0 <= inject_Z (Z.pos m) * bpow e / (inject_Z (Z.pos n) * bpow f))%Q.
Proof.
  pose proof (value_pos m e). pose proof (value_pos n f). apply Qle_shift_div_l; [done|]. lra.
Qed.

Lemma quotient_antitone m e n f n' f' :
  (inject_Z (Z.pos n) * bpow f <= inject_Z (Z.pos n') * bpow f')%Q →
  (inject_Z (Z.pos m) * bpow e / (inject_Z (Z.pos n') * bpow f') <= inject_Z (Z.pos m) * bpow e / (inject_Z (Z.pos n) * bpow f))%Q.
Proof.
  pose proof (value_pos m e) as Hx. pose proof (value_pos n f) as Hy. pose proof (value_pos n' f') as Hz.
  generalize dependent (inject_Z (Z.pos m) * bpow e)%Q. generalize dependent (inject_Z (Z.pos n) * bpow f)%Q.
  generalize dependent (inject_Z (Z.pos n') * bpow f')%Q. intros z Hz y Hy x Hx Hyz.
  apply Qle_shift_div_l; [done|]. assert (x / z * y == x * (y / z))%Q as -> by (field; lra).
  assert (y / z <= 1)%Q; [|nra]. apply Qle_shift_div_r; [done|]. lra.
Qed.

(** The loads of the balancer: finite, and not negative. *)
Definition is_load (w : spec_float) : bool :=
  match w with S754_zero _ | S754_finite false _ _ => true | _ => false end.

Definition div_count (w : spec_float) (c : Z) : spec_float := SFdiv float_prec float_emax w (count_as_double c).

(** A count is a positive number or, past the range, infinity. *)
Lemma count_cases c :
  1 ≤ c →
  count_as_double c = S754_infinity false ∨
  ∃ m e E M, count_as_double c = S754_finite false m e ∧ rounds (inject_Z c) E M ∧
    (inject_Z (Z.pos m) * bpow e == inject_Z M * bpow E)%Q.
Proof.
  intros Hc. destruct (count_rounds c Hc) as (E & M & Hr & HM & ->).
  assert (0 <= inject_Z c)%Q as Hc0 by (change 0%Q with (inject_Z 0); rewrite <- Zle_Qle; lia).
  destruct (packed_value M E (rounds_normal _ _ _ Hc0 Hr) ltac:(lia)) as [->|(m & e & -> & Hv)]; [by left|right].
  by exists m, e, E, M.
Qed.

Lemma count_infinite c d :
  1 ≤ c ≤ d → count_as_double c = S754_infinity false → count_as_double d = S754_infinity false.
Proof.
  intros Hcd. destruct (count_rounds c ltac:(lia)) as (E & M & Hr & _ & ->).
  destruct (count_rounds d ltac:(lia)) as (F & N & Hs & HN & ->). intros Hinf.
  assert (inject_Z c <= inject_Z d ∧ 0 <= inject_Z c)%Q as [Hle Hc0].
  { change 0%Q with (inject_Z 0). rewrite <- !Zle_Qle. lia. }
  pose proof (rounds_normal _ _ _ Hc0 Hr) as HnM. assert (normal_pair N F) as HnN by (eapply rounds_normal, Hs; lra).
  pose proof (packed_mono M E N F HnM HnN (rounds_mono _ _ _ _ _ _ Hle Hr Hs)) as Hlt.
  destruct (packed_value N F HnN ltac:(lia)) as [|(m & e & Hp & _)]; [done|]. rewrite Hp, Hinf in Hlt. done.
Qed.

Lemma div_count_not_nan w c : is_load w = true → 1 ≤ c → is_nan (div_count w c) = false.
Proof.
  intros Hw Hc. unfold div_count. destruct (count_cases c Hc) as [->|(n & f & E & M & -> & _)]; [by destruct w as [| | |[]]|].
  destruct w as [| | |[] m e]; try done. destruct (div_rounds m e n f) as (F & N & Hr & ->).
  apply packed_not_nan. eapply rounds_normal; [|exact Hr]. apply quotient_nonneg.
Qed.

(** Division by a larger count never gives a larger number. *)
Lemma div_count_mono w c d :
  is_load w = true → 1 ≤ c ≤ d → float_lt (div_count w c) (div_count w d) = false.
Proof.
  intros Hw Hcd. unfold div_count. pose proof (count_infinite c d Hcd) as Hinf.
  destruct (count_cases c ltac:(lia)) as [Hc|(n & f & E & M & Hc & Hr & Hv)]; rewrite Hc in *.
  { rewrite Hinf by done. by destruct w as [| | |[]]. }
  destruct (count_cases d ltac:(lia)) as [Hd|(n' & f' & F & N & Hd & Hs & Hv')]; rewrite Hd in *.
  { destruct w as [[]| | |[] m e]; try done. destruct (div_rounds m e n f) as (G & K & Hk & ->).
    assert (normal_pair K G) as Hn by (eapply rounds_normal, Hk; apply quotient_nonneg).
    rewrite packed_eq by done. unfold number. repeat case_match; done. }
  destruct w as [| | |[] m e]; try done.
  destruct (div_rounds m e n f) as (G & K & Hk & ->). destruct (div_rounds m e n' f') as (G' & K' & Hk' & ->).
  apply packed_mono; [eapply rounds_normal, Hk'; apply quotient_nonneg|eapply rounds_normal, Hk; apply quotient_nonneg|].
  eapply rounds_mono; [|exact Hk'|exact Hk]. apply quotient_antitone. rewrite Hv, Hv'.
  assert (inject_Z c <= inject_Z d ∧ 0 <= inject_Z c)%Q as [Hle Hc0].
  { change 0%Q with (inject_Z 0). rewrite <- !Zle_Qle. lia. }
  apply pair_value_le; [exact (rounds_normal _ _ _ Hc0 Hr)|eapply rounds_normal, Hs; lra|exact (rounds_mono _ _ _ _ _ _ Hle Hr Hs)].
Qed.
