(* ===== verification/Mapping.v ===== *)
(** * Parallel layouts: [distributed/mapping.py]

    A deployment's ranks are laid out over several independent grids: the
    pipeline stages, and inside a stage the attention, dense, MoE,
    linear-attention, LM-head and vision grids.  Each class of the source is a
    module here, with its [__init__] as [init] and its properties as functions
    of the object.  A [cached_property] is a function of the object: the sizes
    never change and the rank is assigned once, so the cached value is the
    recomputed one.  The [isinstance] tests on arguments annotated [int] hold
    by typing. *)

From S2P Require Import Prelude.

Local Open Scope Z_scope.

(** ** Rank arithmetic *)

(** The loop that gives the first missing size the quotient and the others 1. *)
Fixpoint fill_sizes (resolved_size : Z) (sizes : list (option Z)) : list Z :=
  match sizes with
  | [] => []
  | Some size :: sizes => size :: fill_sizes resolved_size sizes
  | None :: sizes => resolved_size :: fill_sizes 1 sizes
  end.

Definition provided_sizes (sizes : list (option Z)) : list Z := omap id sizes.

Definition _resolve_parallelism_sizes (world_size : Z) (sizes : list (option Z)) :
    result (list Z) :=
  py_assert (forallb (λ x, match x with None => true | Some x => 0 <? x end) sizes) "";;
  resolved ←
    (if (0 <? length (filter (λ x, x = None) sizes))%nat then
       let provided_size := prodZ (provided_sizes sizes) in
       py_assert (provided_size <=? world_size) "";;
       py_assert (world_size mod provided_size =? 0) "";;
       Ok (fill_sizes (world_size / provided_size) sizes)
     else Ok (provided_sizes sizes));
  py_assert (prodZ resolved =? world_size) "";;
  Ok resolved.

(** [a, b = _resolve_parallelism_sizes(...)] *)
Definition unpack2 {A} (l : list A) : result (A * A) :=
  match l with [a; b] => Ok (a, b) | _ => Raise (ValueError "unpack") end.

Definition unpack3 {A} (l : list A) : result (A * A * A) :=
  match l with [a; b; c] => Ok (a, b, c) | _ => Raise (ValueError "unpack") end.

Definition _resolve_kvp_size (tp_size kvp_size : Z) : result Z :=
  raise_when (kvp_size <? 1) (ValueError "kvp_size must be a positive integer");;
  raise_when (negb (tp_size mod kvp_size =? 0))
    (ValueError "attention TP size must be divisible by KVP size");;
  Ok kvp_size.

Definition _resolve_qcp_size (tp_size qcp_size : Z) : result Z :=
  raise_when (qcp_size <? 1) (ValueError "qcp_size must be a positive integer");;
  raise_when (negb (tp_size mod qcp_size =? 0))
    (ValueError "attention TP size must be divisible by QCP size");;
  raise_when (negb (py_in qcp_size [1; tp_size]))
    (ValueError "a query shard spans the whole attention TP group");;
  Ok qcp_size.

Definition _make_parallelism_rank (rank size stride : Z) : Z :=
  (rank / stride) mod size.

Definition _make_parallelism_group (rank size stride : Z) : list Z :=
  let base := rank - ((rank / stride) mod size) * stride in
  (λ j, base + j * stride) <$> seqZ 0 size.

(** ** [MappingBase] *)

Record MappingBase := { _rank : option Z; _world_size : Z }.

Module Base.

Definition init (rank : option Z) (world_size : Z) : result MappingBase :=
  py_assert (match rank with None => true | Some rank => 0 <=? rank end) "";;
  py_assert (0 <? world_size) "";;
  Ok {| _rank := rank; _world_size := world_size |}.

Definition rank (self : MappingBase) : result Z :=
  lookup_or (AssertionError "rank is not initialized") (_rank self).

(** The [rank] setter, with the hook of the base class, which does nothing. *)
Definition set_rank (self : MappingBase) (rank : Z) : result MappingBase :=
  py_assert (bool_decide (_rank self = None)) "rank is already initialized";;
  py_assert (0 <=? rank) "";;
  Ok {| _rank := Some rank; _world_size := _world_size self |}.

Definition world_size (self : MappingBase) : Z := _world_size self.

Definition world_group (self : MappingBase) : result (list Z) :=
  rank ← rank self;
  Ok (_make_parallelism_group rank (world_size self) 1).

End Base.

(** [_make_parallelism_rank(self.rank, size, stride=stride)] and its group
    form, as the properties of every class call them. *)
Definition rank_of (self : MappingBase) (size stride : Z) : result Z :=
  rank ← Base.rank self; Ok (_make_parallelism_rank rank size stride).

Definition group_of (self : MappingBase) (size stride : Z) : result (list Z) :=
  rank ← Base.rank self; Ok (_make_parallelism_group rank size stride).

(** ** [DenseLayerMapping] *)

Module DenseLayerMapping.

Record t := { base : MappingBase; tp_size : Z; dp_size : Z }.

Definition init (rank : option Z) (world_size : Z) (tp_size dp_size : option Z) : result t :=
  base ← Base.init rank world_size;
  sizes ← _resolve_parallelism_sizes (Base.world_size base) [tp_size; dp_size];
  '(tp_size, dp_size) ← unpack2 sizes;
  Ok {| base := base; tp_size := tp_size; dp_size := dp_size |}.

Definition set_rank (self : t) (rank : Z) : result t :=
  base ← Base.set_rank (base self) rank;
  Ok {| base := base; tp_size := tp_size self; dp_size := dp_size self |}.

Definition has_tp (self : t) : bool := 1 <? tp_size self.
Definition tp_rank (self : t) : result Z := rank_of (base self) (tp_size self) 1.
Definition tp_group (self : t) : result (list Z) := group_of (base self) (tp_size self) 1.
Definition has_dp (self : t) : bool := 1 <? dp_size self.
Definition dp_rank (self : t) : result Z := rank_of (base self) (dp_size self) (tp_size self).
Definition dp_group (self : t) : result (list Z) :=
  group_of (base self) (dp_size self) (tp_size self).

End DenseLayerMapping.

(** ** [AttentionLayerMapping] *)

Definition _attention_row_group_size (tp_size qcp_size : Z) : Z := tp_size / qcp_size.

Definition _resolve_head_tp_size (tp_size qcp_size world_size : Z)
    (head_tp_size : option Z) : result Z :=
  let row_group_size := _attention_row_group_size tp_size qcp_size in
  match head_tp_size with
  | None => Ok row_group_size
  | Some head_tp_size =>
      raise_when (head_tp_size <? 1)
        (ValueError "attention head TP size must be a positive integer");;
      if head_tp_size =? row_group_size then Ok head_tp_size else
      raise_when (negb (row_group_size =? 1))
        (ValueError "attention head TP shards heads over ranks that hold different rows");;
      raise_when (negb (qcp_size =? 1) && negb (head_tp_size =? qcp_size))
        (ValueError "the attention head TP group is the query-shard group");;
      raise_when (negb (world_size mod head_tp_size =? 0))
        (ValueError "attention head TP size must divide the stage world size");;
      Ok head_tp_size
  end.

Module AttentionLayerMapping.

Record t := {
  base : MappingBase;
  tp_size : Z; dp_size : Z;
  kvp_size : Z; qcp_size : Z; head_tp_size : Z;
}.

Definition init (rank : option Z) (world_size : Z) (tp_size dp_size : option Z)
    (kvp_size : Z) (head_tp_size : option Z) (qcp_size : Z) : result t :=
  base ← Base.init rank world_size;
  sizes ← _resolve_parallelism_sizes (Base.world_size base) [tp_size; dp_size];
  '(tp_size, dp_size) ← unpack2 sizes;
  kvp_size ← _resolve_kvp_size tp_size kvp_size;
  qcp_size ← _resolve_qcp_size tp_size qcp_size;
  head_tp_size ← _resolve_head_tp_size tp_size qcp_size (Base.world_size base) head_tp_size;
  Ok {| base := base; tp_size := tp_size; dp_size := dp_size; kvp_size := kvp_size;
        qcp_size := qcp_size; head_tp_size := head_tp_size |}.

Definition set_rank (self : t) (rank : Z) : result t :=
  base ← Base.set_rank (base self) rank;
  Ok {| base := base; tp_size := tp_size self; dp_size := dp_size self;
        kvp_size := kvp_size self; qcp_size := qcp_size self;
        head_tp_size := head_tp_size self |}.

Definition has_head_tp (self : t) : bool :=
  negb (head_tp_size self =? _attention_row_group_size (tp_size self) (qcp_size self)).
Definition has_kvp (self : t) : bool := 1 <? kvp_size self.
Definition has_qcp (self : t) : bool := 1 <? qcp_size self.
Definition head_tp_serves_decode_only (self : t) : bool :=
  has_head_tp self && negb (has_qcp self).
Definition head_tp_rank (self : t) : result Z := rank_of (base self) (head_tp_size self) 1.
Definition head_tp_group (self : t) : result (list Z) :=
  group_of (base self) (head_tp_size self) 1.
Definition qcp_rank (self : t) : result Z := rank_of (base self) (qcp_size self) 1.
Definition qcp_group (self : t) : result (list Z) := group_of (base self) (qcp_size self) 1.
Definition kvp_rank (self : t) : result Z := rank_of (base self) (kvp_size self) 1.
Definition kvp_replica_rank (self : t) : result Z :=
  rank_of (base self) (tp_size self / kvp_size self) (kvp_size self).
Definition kvp_group (self : t) : result (list Z) := group_of (base self) (kvp_size self) 1.
Definition has_tp (self : t) : bool := 1 <? tp_size self.
Definition tp_rank (self : t) : result Z := rank_of (base self) (tp_size self) 1.
Definition tp_group (self : t) : result (list Z) := group_of (base self) (tp_size self) 1.
Definition has_dp (self : t) : bool := 1 <? dp_size self.
Definition dp_rank (self : t) : result Z := rank_of (base self) (dp_size self) (tp_size self).
Definition dp_group (self : t) : result (list Z) :=
  group_of (base self) (dp_size self) (tp_size self).

Definition scatter_index (self : t) (rank : Z) : Z :=
  let tp_rank := _make_parallelism_rank rank (tp_size self) 1 in
  let dp_rank := _make_parallelism_rank rank (dp_size self) (tp_size self) in
  dp_rank * tp_size self + tp_rank.

End AttentionLayerMapping.

(** ** [MoeLayerMapping] *)

Module MoeLayerMapping.

Record t := { base : MappingBase; tp_size : Z; ep_size : Z; dp_size : Z }.

Definition init (rank : option Z) (world_size : Z) (tp_size ep_size dp_size : option Z) :
    result t :=
  base ← Base.init rank world_size;
  sizes ← _resolve_parallelism_sizes (Base.world_size base) [tp_size; ep_size; dp_size];
  '(tp_size, ep_size, dp_size) ← unpack3 sizes;
  Ok {| base := base; tp_size := tp_size; ep_size := ep_size; dp_size := dp_size |}.

Definition set_rank (self : t) (rank : Z) : result t :=
  base ← Base.set_rank (base self) rank;
  Ok {| base := base; tp_size := tp_size self; ep_size := ep_size self;
        dp_size := dp_size self |}.

Definition has_tp (self : t) : bool := 1 <? tp_size self.
Definition tp_rank (self : t) : result Z := rank_of (base self) (tp_size self) 1.
Definition tp_group (self : t) : result (list Z) := group_of (base self) (tp_size self) 1.
Definition has_ep (self : t) : bool := 1 <? ep_size self.
Definition ep_rank (self : t) : result Z := rank_of (base self) (ep_size self) (tp_size self).
Definition ep_group (self : t) : result (list Z) :=
  group_of (base self) (ep_size self) (tp_size self).
Definition tp_ep_size (self : t) : Z := tp_size self * ep_size self.
Definition has_tp_ep (self : t) : bool := 1 <? tp_ep_size self.
Definition tp_ep_rank (self : t) : result Z := rank_of (base self) (tp_ep_size self) 1.
Definition tp_ep_group (self : t) : result (list Z) := group_of (base self) (tp_ep_size self) 1.
Definition has_dp (self : t) : bool := 1 <? dp_size self.
Definition dp_rank (self : t) : result Z :=
  rank_of (base self) (dp_size self) (tp_size self * ep_size self).
Definition dp_group (self : t) : result (list Z) :=
  group_of (base self) (dp_size self) (tp_size self * ep_size self).

End MoeLayerMapping.

(** ** [VisionTowerMapping] *)

Module VisionTowerMapping.

Record t := { base : MappingBase; tp_size : Z; dp_size : Z }.

Definition init (rank : option Z) (world_size : Z) (tp_size dp_size : option Z) : result t :=
  base ← Base.init rank world_size;
  sizes ← _resolve_parallelism_sizes (Base.world_size base) [tp_size; dp_size];
  '(tp_size, dp_size) ← unpack2 sizes;
  Ok {| base := base; tp_size := tp_size; dp_size := dp_size |}.

Definition set_rank (self : t) (rank : Z) : result t :=
  base ← Base.set_rank (base self) rank;
  Ok {| base := base; tp_size := tp_size self; dp_size := dp_size self |}.

Definition has_tp (self : t) : bool := 1 <? tp_size self.
Definition tp_rank (self : t) : result Z := rank_of (base self) (tp_size self) 1.
Definition tp_group (self : t) : result (list Z) := group_of (base self) (tp_size self) 1.
Definition has_dp (self : t) : bool := 1 <? dp_size self.
Definition dp_rank (self : t) : result Z := rank_of (base self) (dp_size self) (tp_size self).
Definition dp_group (self : t) : result (list Z) :=
  group_of (base self) (dp_size self) (tp_size self).

End VisionTowerMapping.

(** ** [LinearAttnLayerMapping] *)

Module LinearAttnLayerMapping.

Record t := { base : MappingBase; tp_size : Z; dp_size : Z }.

Definition init (rank : option Z) (world_size : Z) (tp_size : option Z) : result t :=
  base ← Base.init rank world_size;
  sizes ← _resolve_parallelism_sizes (Base.world_size base) [tp_size; None];
  '(tp_size, dp_size) ← unpack2 sizes;
  Ok {| base := base; tp_size := tp_size; dp_size := dp_size |}.

Definition set_rank (self : t) (rank : Z) : result t :=
  base ← Base.set_rank (base self) rank;
  Ok {| base := base; tp_size := tp_size self; dp_size := dp_size self |}.

Definition has_tp (self : t) : bool := 1 <? tp_size self.
Definition tp_rank (self : t) : result Z := rank_of (base self) (tp_size self) 1.
Definition tp_group (self : t) : result (list Z) := group_of (base self) (tp_size self) 1.
Definition dp_rank (self : t) : result Z := rank_of (base self) (dp_size self) (tp_size self).
Definition dp_group (self : t) : result (list Z) :=
  group_of (base self) (dp_size self) (tp_size self).

End LinearAttnLayerMapping.

(** ** [LmHeadMapping] *)

Module LmHeadMapping.

Record t := { base : MappingBase; tp_size : Z; dp_size : Z }.

Definition init (rank : option Z) (world_size : Z) (tp_size : option Z) : result t :=
  base ← Base.init rank world_size;
  sizes ← _resolve_parallelism_sizes (Base.world_size base) [tp_size; None];
  '(tp_size, dp_size) ← unpack2 sizes;
  Ok {| base := base; tp_size := tp_size; dp_size := dp_size |}.

Definition set_rank (self : t) (rank : Z) : result t :=
  base ← Base.set_rank (base self) rank;
  Ok {| base := base; tp_size := tp_size self; dp_size := dp_size self |}.

Definition has_tp (self : t) : bool := 1 <? tp_size self.
Definition tp_rank (self : t) : result Z := rank_of (base self) (tp_size self) 1.
Definition tp_group (self : t) : result (list Z) := group_of (base self) (tp_size self) 1.
Definition dp_rank (self : t) : result Z := rank_of (base self) (dp_size self) (tp_size self).
Definition dp_group (self : t) : result (list Z) :=
  group_of (base self) (dp_size self) (tp_size self).

End LmHeadMapping.

Definition _resolve_lm_head_tp_size (attn : AttentionLayerMapping.t)
    (lm_head_tp_size : option Z) : result Z :=
  match lm_head_tp_size with
  | None =>
      Ok (if AttentionLayerMapping.has_dp attn then 1 else AttentionLayerMapping.tp_size attn)
  | Some lm_head_tp_size =>
      raise_when (lm_head_tp_size <? 1)
        (ValueError "LM head TP size must be a positive integer");;
      if negb (AttentionLayerMapping.has_dp attn) then
        raise_when (negb (lm_head_tp_size =? AttentionLayerMapping.tp_size attn))
          (ValueError "without attention DP the LM head follows the attention TP group");;
        Ok lm_head_tp_size
      else
        raise_when ((1 <? lm_head_tp_size) && negb (AttentionLayerMapping.tp_size attn =? 1))
          (ValueError "LM head TP under attention DP needs attention TP 1");;
        raise_when
          (negb (Base.world_size (AttentionLayerMapping.base attn) mod lm_head_tp_size =? 0))
          (ValueError "LM head TP size must divide the stage world size");;
        Ok lm_head_tp_size
  end.

(** ** [Mapping] *)

Module Mapping.

Record t := {
  base : MappingBase;
  pp_size : Z;
  pp_layer_partition : option (list Z);
  attn : AttentionLayerMapping.t;
  lm_head : LmHeadMapping.t;
  dense : DenseLayerMapping.t;
  moe : MoeLayerMapping.t;
  vision : VisionTowerMapping.t;
  linear_attn : LinearAttnLayerMapping.t;
  nprocs_per_node : Z;
  nnodes : Z;
  base_gpu_id : Z;
  gpu_id_step : Z;
}.

(** The keyword arguments of [Mapping.__init__]. *)
Record args := {
  a_attn_tp_size : option Z; a_attn_dp_size : option Z; a_attn_kvp_size : Z;
  a_attn_head_tp_size : option Z; a_lm_head_tp_size : option Z; a_attn_qcp_size : Z;
  a_dense_tp_size : option Z; a_dense_dp_size : option Z;
  a_moe_tp_size : option Z; a_moe_ep_size : option Z; a_moe_dp_size : option Z;
  a_vision_tp_size : option Z; a_vision_dp_size : option Z;
  a_linear_attn_tp_size : option Z;
  a_pp_size : Z; a_pp_layer_partition : option (list Z);
  a_nprocs_per_node : option Z; a_nnodes : option Z;
  a_base_gpu_id : Z; a_gpu_id_step : Z;
}.

Definition init (rank : option Z) (world_size : Z) (a : args) : result t :=
  base ← Base.init rank world_size;
  let pp_size := a_pp_size a in
  py_assert (0 <? pp_size) "";;
  py_assert (world_size mod pp_size =? 0) "world_size must be divisible by pp_size";;
  let pp_layer_partition :=
    match a_pp_layer_partition a with Some (c :: cs) => Some (c :: cs) | _ => None end in
  let stage_world_size := world_size / pp_size in
  attn ← AttentionLayerMapping.init rank stage_world_size (a_attn_tp_size a)
    (a_attn_dp_size a) (a_attn_kvp_size a) (a_attn_head_tp_size a) (a_attn_qcp_size a);
  lm_head_tp_size ← _resolve_lm_head_tp_size attn (a_lm_head_tp_size a);
  lm_head ← LmHeadMapping.init rank stage_world_size (Some lm_head_tp_size);
  dense ← DenseLayerMapping.init rank stage_world_size (a_dense_tp_size a) (a_dense_dp_size a);
  moe ← MoeLayerMapping.init rank stage_world_size (a_moe_tp_size a) (a_moe_ep_size a)
    (a_moe_dp_size a);
  vision ← VisionTowerMapping.init rank (AttentionLayerMapping.tp_size attn)
    (a_vision_tp_size a) (a_vision_dp_size a);
  linear_attn ← LinearAttnLayerMapping.init rank stage_world_size
    (Some (default (AttentionLayerMapping.tp_size attn) (a_linear_attn_tp_size a)));
  sizes ← _resolve_parallelism_sizes (Base.world_size base)
    [a_nprocs_per_node a; a_nnodes a];
  '(nprocs_per_node, nnodes) ← unpack2 sizes;
  py_assert (0 <=? a_base_gpu_id a) "";;
  py_assert (0 <? a_gpu_id_step a) "";;
  Ok {| base := base; pp_size := pp_size; pp_layer_partition := pp_layer_partition;
        attn := attn; lm_head := lm_head; dense := dense; moe := moe; vision := vision;
        linear_attn := linear_attn; nprocs_per_node := nprocs_per_node; nnodes := nnodes;
        base_gpu_id := a_base_gpu_id a; gpu_id_step := a_gpu_id_step a |}.

Definition _on_rank_initialized (self : t) (rank : Z) : result t :=
  attn ← AttentionLayerMapping.set_rank (attn self) rank;
  lm_head ← LmHeadMapping.set_rank (lm_head self) rank;
  dense ← DenseLayerMapping.set_rank (dense self) rank;
  moe ← MoeLayerMapping.set_rank (moe self) rank;
  vision ← VisionTowerMapping.set_rank (vision self) rank;
  linear_attn ← LinearAttnLayerMapping.set_rank (linear_attn self) rank;
  Ok {| base := base self; pp_size := pp_size self;
        pp_layer_partition := pp_layer_partition self;
        attn := attn; lm_head := lm_head; dense := dense; moe := moe; vision := vision;
        linear_attn := linear_attn; nprocs_per_node := nprocs_per_node self;
        nnodes := nnodes self; base_gpu_id := base_gpu_id self;
        gpu_id_step := gpu_id_step self |}.

(** The inherited [rank] setter with this class's hook. *)
Definition set_rank (self : t) (rank : Z) : result t :=
  base ← Base.set_rank (base self) rank;
  _on_rank_initialized
    {| base := base; pp_size := pp_size self; pp_layer_partition := pp_layer_partition self;
       attn := attn self; lm_head := lm_head self; dense := dense self; moe := moe self;
       vision := vision self; linear_attn := linear_attn self;
       nprocs_per_node := nprocs_per_node self; nnodes := nnodes self;
       base_gpu_id := base_gpu_id self; gpu_id_step := gpu_id_step self |} rank.

Definition has_pp (self : t) : bool := 1 <? pp_size self.
Definition stage_world_size (self : t) : Z := Base.world_size (base self) / pp_size self.
Definition pp_rank (self : t) : result Z :=
  rank_of (base self) (pp_size self) (stage_world_size self).
Definition pp_group (self : t) : result (list Z) :=
  group_of (base self) (pp_size self) (stage_world_size self).
Definition is_first_pp_rank (self : t) : result bool :=
  pp_rank ← pp_rank self; Ok (pp_rank =? 0).
Definition is_last_pp_rank (self : t) : result bool :=
  pp_rank ← pp_rank self; Ok (pp_rank =? pp_size self - 1).

Definition pp_prev_rank (self : t) : result Z :=
  is_first ← is_first_pp_rank self;
  py_assert (negb is_first) "";;
  rank ← Base.rank (base self);
  Ok (rank - stage_world_size self).

Definition pp_next_rank (self : t) : result Z :=
  is_last ← is_last_pp_rank self;
  py_assert (negb is_last) "";;
  rank ← Base.rank (base self);
  Ok (rank + stage_world_size self).

Definition has_attn_tp (self : t) : bool := AttentionLayerMapping.has_tp (attn self).
Definition has_attn_dp (self : t) : bool := AttentionLayerMapping.has_dp (attn self).
Definition node_rank (self : t) : result Z :=
  rank ← Base.rank (base self); Ok (rank / nprocs_per_node self).
Definition local_rank (self : t) : result Z :=
  rank ← Base.rank (base self); Ok (rank mod nprocs_per_node self).
Definition gpu_id (self : t) : result Z :=
  local_rank ← local_rank self;
  Ok (base_gpu_id self + local_rank * gpu_id_step self).

End Mapping.

(** ** Rank arithmetic: lemmas *)

Section rank_arithmetic.
Implicit Types rank size stride : Z.

Lemma elem_of_group rank size stride r :
  r ∈ _make_parallelism_group rank size stride ↔
  ∃ j, 0 ≤ j < size ∧ r = rank - ((rank / stride) mod size) * stride + j * stride.
Proof.
  unfold _make_parallelism_group. rewrite list_elem_of_fmap.
  setoid_rewrite elem_of_seqZ. naive_solver lia.
Qed.

(** A member of a group sits on the same row of the grid: its quotient by the
    group's span is the rank's, its coordinate is its position. *)
Lemma group_member_coords rank size stride r j :
  0 < size → 0 < stride → 0 ≤ j < size →
  r = rank - ((rank / stride) mod size) * stride + j * stride →
  (r / stride) mod size = j ∧
  r / (stride * size) = rank / (stride * size) ∧ r mod stride = rank mod stride.
Proof.
  intros Hs Hst Hj ->.
  set (q := rank / stride). pose proof (Z.div_mod rank stride ltac:(lia)) as Hr.
  pose proof (Z.mod_pos_bound rank stride ltac:(lia)) as Hb.
  pose proof (Z.div_mod q size ltac:(lia)) as Hq.
  assert (Hr' : rank - q mod size * stride + j * stride =
                (size * (q / size) + j) * stride + rank mod stride) by (subst q; nia).
  rewrite Hr'.
  assert (Hd : ((size * (q / size) + j) * stride + rank mod stride) / stride =
               size * (q / size) + j).
  { rewrite Z.div_add_l by lia. rewrite (Z.div_small (rank mod stride)) by lia. lia. }
  split_and!.
  - rewrite Hd. rewrite Z.mul_comm, Z.add_comm, Z.mod_add by lia. by apply Z.mod_small.
  - rewrite <-!Z.div_div by lia. rewrite Hd. fold q.
    rewrite Z.mul_comm, Z.div_add_l, (Z.div_small j) by lia. lia.
  - rewrite Z.add_comm, Z.mod_add by lia. apply Z.mod_mod. lia.
Qed.

Lemma rank_in_group rank size stride :
  0 < size → rank ∈ _make_parallelism_group rank size stride.
Proof.
  intros Hs. apply elem_of_group. exists ((rank / stride) mod size).
  split; [apply Z.mod_pos_bound; lia|lia].
Qed.

(** Groups whose span divides a stage never leave the stage. *)
Lemma group_confined rank size stride stage r :
  0 < size → 0 < stride → 0 < stage → (stride * size | stage) →
  r ∈ _make_parallelism_group rank size stride → r / stage = rank / stage.
Proof.
  intros Hs Hst Hstage [k Hk] (j & Hj & Hr)%elem_of_group.
  destruct (group_member_coords rank size stride r j) as (_ & Hq & _); try done.
  assert (0 < k) by nia. subst stage. rewrite (Z.mul_comm k).
  rewrite <-!(Z.div_div _ (stride * size) k) by nia. by rewrite Hq.
Qed.

Lemma group_of_size_1 rank : _make_parallelism_group rank 1 1 = [rank].
Proof. unfold _make_parallelism_group. rewrite Z.mod_1_r.
  change (seqZ 0 1) with [0]. cbn [fmap list_fmap]. f_equal. lia. Qed.

(** Mixed-radix decomposition of a rank over a two-level grid. *)
Lemma rank_grid2 rank tp dp :
  0 < tp → 0 < dp →
  rank = rank / (tp * dp) * (tp * dp) +
         _make_parallelism_rank rank dp tp * tp + _make_parallelism_rank rank tp 1.
Proof.
  intros Htp Hdp. unfold _make_parallelism_rank. rewrite Z.div_1_r.
  pose proof (Z.div_mod rank tp ltac:(lia)).
  pose proof (Z.div_mod (rank / tp) dp ltac:(lia)).
  rewrite <-Z.div_div by lia. nia.
Qed.

Lemma rank_grid3 rank tp ep dp :
  0 < tp → 0 < ep → 0 < dp →
  rank = rank / (tp * ep * dp) * (tp * ep * dp) +
         (_make_parallelism_rank rank dp (tp * ep) * ep +
          _make_parallelism_rank rank ep tp) * tp + _make_parallelism_rank rank tp 1.
Proof.
  intros Htp Hep Hdp.
  pose proof (rank_grid2 rank (tp * ep) dp ltac:(nia) Hdp) as H1.
  pose proof (rank_grid2 (_make_parallelism_rank rank (tp * ep) 1) tp ep Htp Hep) as H2.
  unfold _make_parallelism_rank in *. rewrite !Z.div_1_r in *.
  rewrite Z.div_small, Z.rem_mul_r in H2 by (try apply Z.mod_pos_bound; nia).
  rewrite Z.rem_mul_r in H1 by lia. nia.
Qed.

Lemma parallelism_rank_bound rank size stride :
  0 < size → 0 ≤ _make_parallelism_rank rank size stride < size.
Proof. intros. apply Z.mod_pos_bound. lia. Qed.
End rank_arithmetic.

(** ** Size resolution: lemmas *)

Definition positive_sizes (sizes : list (option Z)) : Prop :=
  Forall (λ o, ∀ x, o = Some x → 0 < x) sizes.

(** [r] keeps every size the caller fixed. *)
Definition extends_sizes (sizes : list (option Z)) (r : list Z) : Prop :=
  Forall2 (λ o x, ∀ y, o = Some y → x = y) sizes r.

Section size_resolution.
Implicit Types (sizes : list (option Z)) (r : list Z).

Lemma positive_sizes_forallb sizes :
  forallb (λ x, match x with None => true | Some x => 0 <? x end) sizes = true ↔
  positive_sizes sizes.
Proof.
  unfold positive_sizes. rewrite forallb_forall, Forall_forall.
  setoid_rewrite <-list_elem_of_In. apply forall_proper; intros [x|]; naive_solver lia.
Qed.

Lemma count_None_pos sizes :
  (0 <? length (filter (λ x, x = None) sizes))%nat = bool_decide (None ∈ sizes).
Proof.
  apply eq_true_iff_eq. rewrite Nat.ltb_lt, bool_decide_eq_true. split.
  - destruct (filter _ sizes) as [|x l] eqn:Hf; cbn; [lia|]. intros _.
    assert (Hx : x ∈ filter (λ x, x = None) sizes) by (rewrite Hf; constructor).
    by apply list_elem_of_filter in Hx as [-> ?].
  - intros HN. assert (Hx : None ∈ filter (λ x, x = None) sizes)
      by (by apply list_elem_of_filter).
    destruct (filter _ sizes); [by apply elem_of_nil in Hx|cbn; lia].
Qed.

Lemma provided_sizes_pos sizes : positive_sizes sizes → Forall (Z.lt 0) (provided_sizes sizes).
Proof. induction 1 as [|[x|] sizes]; cbn; [constructor|constructor|]; eauto. Qed.

Lemma fill_sizes_prod q sizes :
  prodZ (fill_sizes q sizes) =
    (if bool_decide (None ∈ sizes) then q else 1) * prodZ (provided_sizes sizes).
Proof.
  revert q. induction sizes as [|[x|] sizes IH]; intros q.
  - rewrite bool_decide_false by apply not_elem_of_nil. done.
  - cbn [fill_sizes provided_sizes omap list_omap id prodZ foldr]. fold (prodZ (fill_sizes q sizes)).
    rewrite IH. rewrite (bool_decide_ext (None ∈ Some x :: sizes) (None ∈ sizes)) by set_solver.
    unfold provided_sizes, prodZ. nia.
  - cbn [fill_sizes provided_sizes omap list_omap id prodZ foldr]. fold (prodZ (fill_sizes 1 sizes)).
    rewrite IH, (bool_decide_true (None ∈ None :: sizes)) by constructor.
    unfold provided_sizes. case_bool_decide; unfold prodZ; nia.
Qed.

Lemma fill_sizes_pos q sizes :
  0 < q → positive_sizes sizes → Forall (Z.lt 0) (fill_sizes q sizes).
Proof.
  intros Hq Hs. revert q Hq. induction Hs as [|[x|] sizes Hx Hs IH]; intros q Hq; cbn;
    constructor; auto. apply IH. lia.
Qed.

Lemma fill_sizes_extends q sizes : extends_sizes sizes (fill_sizes q sizes).
Proof. revert q. induction sizes as [|[x|] sizes IH]; intros q; cbn; constructor; naive_solver. Qed.

Lemma fill_sizes_no_None q sizes : None ∉ sizes → fill_sizes q sizes = provided_sizes sizes.
Proof.
  induction sizes as [|[x|] sizes IH]; cbn; [done| |].
  - intros [_ H]%not_elem_of_cons. f_equal. auto.
  - intros [H _]%not_elem_of_cons. done.
Qed.

(** The fixed sizes of any assignment divide its product. *)
Lemma extends_sizes_divide sizes r :
  extends_sizes sizes r → (prodZ (provided_sizes sizes) | prodZ r).
Proof.
  induction 1 as [|[x|] y sizes r Hy Hr IH]; cbn; [done| |].
  - rewrite (Hy x eq_refl). by apply Z.mul_divide_mono_l.
  - by apply Z.divide_mul_r.
Qed.

Lemma extends_sizes_no_None sizes r :
  None ∉ sizes → extends_sizes sizes r → r = provided_sizes sizes.
Proof.
  intros HN. induction 1 as [|[x|] y sizes r Hy Hr IH]; cbn; [done| |].
  - apply not_elem_of_cons in HN as [_ HN]. f_equal; auto.
  - by apply not_elem_of_cons in HN as [HN _].
Qed.

Lemma resolve_Ok world sizes r :
  _resolve_parallelism_sizes world sizes = Ok r ↔
  positive_sizes sizes ∧
  (if bool_decide (None ∈ sizes) then
     prodZ (provided_sizes sizes) ≤ world ∧ (prodZ (provided_sizes sizes) | world)
   else prodZ (provided_sizes sizes) = world) ∧
  r = fill_sizes (world / prodZ (provided_sizes sizes)) sizes.
Proof.
  unfold _resolve_parallelism_sizes. rewrite count_None_pos.
  split.
  - intros H. inv_ok. apply positive_sizes_forallb in Hr. split; [done|].
    pose proof (prodZ_pos _ (provided_sizes_pos _ Hr)) as Hpos.
    case_bool_decide as HN; inv_ok.
    + split; [|done]. split; [lia|]. apply Z.mod_divide; lia.
    + split; [lia|]. by rewrite fill_sizes_no_None.
  - intros (Hpos & Hc & ->).
    pose proof (prodZ_pos _ (provided_sizes_pos _ Hpos)) as Hp.
    rewrite (proj2 (positive_sizes_forallb sizes) Hpos); cbn.
    case_bool_decide as HN.
    + destruct Hc as [Hle Hdiv].
      assert (Hmod : world mod prodZ (provided_sizes sizes) = 0)
        by (apply Z.mod_divide; [lia|done]).
      rewrite (proj2 (Z.leb_le _ _) Hle), Hmod; cbn.
      rewrite fill_sizes_prod, bool_decide_true, div_of_divide, Z.eqb_refl by (done || lia).
      done.
    + cbn. rewrite Hc, Z.eqb_refl. cbn. by rewrite fill_sizes_no_None.
Qed.
End size_resolution.

(** ** Constructed mappings *)

Lemma resolve_sound world sizes r :
  0 < world → _resolve_parallelism_sizes world sizes = Ok r →
  extends_sizes sizes r ∧ Forall (Z.lt 0) r ∧ prodZ r = world.
Proof.
  intros Hw (Hpos & Hc & ->)%resolve_Ok.
  pose proof (prodZ_pos _ (provided_sizes_pos _ Hpos)) as Hp.
  split; [apply fill_sizes_extends|]. rewrite fill_sizes_prod.
  case_bool_decide as HN.
  - destruct Hc as [Hle Hdiv]. split; [|by apply div_of_divide].
    apply fill_sizes_pos; [|done]. apply Z.div_str_pos. lia.
  - split; [|lia]. rewrite fill_sizes_no_None by done. by apply provided_sizes_pos.
Qed.

Lemma resolve_pair world s1 s2 r x y :
  0 < world → _resolve_parallelism_sizes world [s1; s2] = Ok r → unpack2 r = Ok (x, y) →
  0 < x ∧ 0 < y ∧ x * y = world.
Proof.
  intros Hw (_ & Hpos & Hprod)%resolve_sound Hu; [|done].
  destruct r as [|? [|? [|]]]; try discriminate Hu. injection Hu as -> ->.
  rewrite !Forall_cons in Hpos. cbn in Hprod. lia.
Qed.

Lemma resolve_triple world s1 s2 s3 r x y z :
  0 < world → _resolve_parallelism_sizes world [s1; s2; s3] = Ok r →
  unpack3 r = Ok (x, y, z) →
  0 < x ∧ 0 < y ∧ 0 < z ∧ x * y * z = world.
Proof.
  intros Hw (_ & Hpos & Hprod)%resolve_sound Hu; [|done].
  destruct r as [|? [|? [|? [|]]]]; try discriminate Hu. injection Hu as -> -> ->.
  rewrite !Forall_cons in Hpos. cbn in Hprod. lia.
Qed.

(** What construction establishes of the attention grid. *)
Record attn_wf (m : AttentionLayerMapping.t) (rank : option Z) (world : Z) : Prop := {
  aw_base : AttentionLayerMapping.base m = {| _rank := rank; _world_size := world |};
  aw_tp : 0 < AttentionLayerMapping.tp_size m;
  aw_dp : 0 < AttentionLayerMapping.dp_size m;
  aw_world : AttentionLayerMapping.tp_size m * AttentionLayerMapping.dp_size m = world;
  aw_kvp : 0 < AttentionLayerMapping.kvp_size m;
  aw_kvp_tp : (AttentionLayerMapping.kvp_size m | AttentionLayerMapping.tp_size m);
  aw_qcp : 0 < AttentionLayerMapping.qcp_size m;
  aw_qcp_cases : AttentionLayerMapping.qcp_size m = 1 ∨
                 AttentionLayerMapping.qcp_size m = AttentionLayerMapping.tp_size m;
  aw_head : 0 < AttentionLayerMapping.head_tp_size m;
  aw_head_world : (AttentionLayerMapping.head_tp_size m | world);
  aw_head_cases :
    AttentionLayerMapping.has_head_tp m = true →
    _attention_row_group_size (AttentionLayerMapping.tp_size m)
      (AttentionLayerMapping.qcp_size m) = 1 ∧
    (AttentionLayerMapping.qcp_size m ≠ 1 →
     AttentionLayerMapping.head_tp_size m = AttentionLayerMapping.qcp_size m);
}.

Lemma base_init_Ok rank world b :
  Base.init rank world = Ok b →
  b = {| _rank := rank; _world_size := world |} ∧ 0 < world ∧ (∀ r, rank = Some r → 0 ≤ r).
Proof. intros H. unfold Base.init in H. inv_ok. destruct rank; naive_solver lia. Qed.

Lemma head_tp_Ok tp qcp world head h :
  0 < tp → 0 < qcp → (qcp | tp) → (tp | world) →
  _resolve_head_tp_size tp qcp world head = Ok h →
  0 < h ∧ (h | world) ∧
  (h ≠ tp / qcp → tp / qcp = 1 ∧ (qcp ≠ 1 → h = qcp)).
Proof.
  intros Htp Hqcp [k Hk] Htw H.
  assert (Hrow : tp / qcp = k) by (rewrite Hk; apply Z.div_mul; lia).
  assert (Hkt : (k | tp)) by (exists qcp; lia). assert (0 < k) by nia.
  unfold _resolve_head_tp_size, _attention_row_group_size in H. rewrite Hrow in *.
  destruct head as [h'|]; inv_ok.
  - destruct (h' =? k) eqn:Hh; inv_ok.
    + apply Z.eqb_eq in Hh as ->.
      split_and!; [lia|etrans; [exact Hkt|exact Htw]|]. intros. lia.
    + split_and!; [lia|apply Z.mod_divide; lia|]. intros _. split; [lia|]. lia.
  - split_and!; [lia|etrans; [exact Hkt|exact Htw]|]. intros. lia.
Qed.

Lemma attn_init_wf rank world tp dp kvp head qcp m :
  AttentionLayerMapping.init rank world tp dp kvp head qcp = Ok m → attn_wf m rank world.
Proof.
  intros H. unfold AttentionLayerMapping.init in H.
  inv_ok. apply base_init_Ok in Hr as (-> & Hw & _). cbn in *.
  destruct (resolve_pair _ _ _ _ _ _ Hw Hr0 Hr1) as (Htp & Hdp & Hprod).
  unfold _resolve_kvp_size in Hr2. inv_ok. unfold _resolve_qcp_size in Hr3. inv_ok.
  assert (Hdt : (z | world)) by (exists z0; lia).
  assert (Hq : (qcp | z)) by (apply Z.mod_divide; lia).
  assert (Hqpos : 0 < qcp) by lia.
  destruct (head_tp_Ok _ _ _ _ _ Htp Hqpos Hq Hdt Hr4) as (Hh & Hhd & Hcases).
  constructor; cbn; try done; try lia.
  - apply Z.mod_divide; lia.
  - assert (Hin : py_in qcp [1; z] = true) by (destruct (py_in qcp [1; z]); done).
    apply py_in_true in Hin. set_solver.
  - unfold AttentionLayerMapping.has_head_tp, _attention_row_group_size. cbn.
    intros. apply Hcases. lia.
Qed.

(** ** The grids of one stage *)

(** A group of the mapping: its size and its stride. *)
Record grid := { g_base : MappingBase; g_size : Z; g_stride : Z }.

Definition grid_group (g : grid) : result (list Z) :=
  group_of (g_base g) (g_size g) (g_stride g).

(** Every group an object inside one pipeline stage hands out. *)
Definition stage_grids (m : Mapping.t) : list grid :=
  let at_ := Mapping.attn m in let lm := Mapping.lm_head m in
  let de := Mapping.dense m in let mo := Mapping.moe m in
  let vi := Mapping.vision m in let li := Mapping.linear_attn m in
  [ Build_grid (AttentionLayerMapping.base at_) (AttentionLayerMapping.tp_size at_) 1;
    Build_grid (AttentionLayerMapping.base at_) (AttentionLayerMapping.dp_size at_)
      (AttentionLayerMapping.tp_size at_);
    Build_grid (AttentionLayerMapping.base at_) (AttentionLayerMapping.kvp_size at_) 1;
    Build_grid (AttentionLayerMapping.base at_) (AttentionLayerMapping.qcp_size at_) 1;
    Build_grid (AttentionLayerMapping.base at_) (AttentionLayerMapping.head_tp_size at_) 1;
    Build_grid (LmHeadMapping.base lm) (LmHeadMapping.tp_size lm) 1;
    Build_grid (LmHeadMapping.base lm) (LmHeadMapping.dp_size lm) (LmHeadMapping.tp_size lm);
    Build_grid (DenseLayerMapping.base de) (DenseLayerMapping.tp_size de) 1;
    Build_grid (DenseLayerMapping.base de) (DenseLayerMapping.dp_size de)
      (DenseLayerMapping.tp_size de);
    Build_grid (MoeLayerMapping.base mo) (MoeLayerMapping.tp_size mo) 1;
    Build_grid (MoeLayerMapping.base mo) (MoeLayerMapping.ep_size mo)
      (MoeLayerMapping.tp_size mo);
    Build_grid (MoeLayerMapping.base mo) (MoeLayerMapping.tp_ep_size mo) 1;
    Build_grid (MoeLayerMapping.base mo) (MoeLayerMapping.dp_size mo)
      (MoeLayerMapping.tp_size mo * MoeLayerMapping.ep_size mo);
    Build_grid (VisionTowerMapping.base vi) (VisionTowerMapping.tp_size vi) 1;
    Build_grid (VisionTowerMapping.base vi) (VisionTowerMapping.dp_size vi)
      (VisionTowerMapping.tp_size vi);
    Build_grid (LinearAttnLayerMapping.base li) (LinearAttnLayerMapping.tp_size li) 1;
    Build_grid (LinearAttnLayerMapping.base li) (LinearAttnLayerMapping.dp_size li)
      (LinearAttnLayerMapping.tp_size li) ].

(** What construction establishes of the whole mapping. *)
Record mapping_wf (m : Mapping.t) (rank : option Z) (world : Z) : Prop := {
  mw_base : Mapping.base m = {| _rank := rank; _world_size := world |};
  mw_rank : ∀ r, rank = Some r → 0 ≤ r;
  mw_pp : 0 < Mapping.pp_size m;
  mw_stage : 0 < Mapping.stage_world_size m;
  mw_world : Mapping.stage_world_size m * Mapping.pp_size m = world;
  mw_attn : attn_wf (Mapping.attn m) rank (Mapping.stage_world_size m);
  mw_moe_base : MoeLayerMapping.base (Mapping.moe m) =
    {| _rank := rank; _world_size := Mapping.stage_world_size m |};
  mw_moe : 0 < MoeLayerMapping.tp_size (Mapping.moe m) ∧
    0 < MoeLayerMapping.ep_size (Mapping.moe m) ∧ 0 < MoeLayerMapping.dp_size (Mapping.moe m) ∧
    MoeLayerMapping.tp_size (Mapping.moe m) * MoeLayerMapping.ep_size (Mapping.moe m) *
    MoeLayerMapping.dp_size (Mapping.moe m) = Mapping.stage_world_size m;
  mw_nodes : 0 < Mapping.nprocs_per_node m ∧ 0 < Mapping.nnodes m ∧
    Mapping.nprocs_per_node m * Mapping.nnodes m = world;
  mw_grids : Forall (λ g, _rank (g_base g) = rank ∧ 0 < g_size g ∧ 0 < g_stride g ∧
    (g_stride g * g_size g | Mapping.stage_world_size m)) (stage_grids m);
}.

(** The span of a grid divides the size of what the grid tiles. *)
Ltac grid_divides :=
  match goal with
  | H : ?a * ?b = ?n |- (?a | ?n) => exists b; lia
  | H : ?a * ?b = ?n |- (?a * ?b | ?n) => exists 1; lia
  | H : ?a * ?b * ?c = ?n |- (?a | ?n) => exists (b * c); lia
  | H : ?a * ?b = ?n, H' : (?n | ?w) |- (?a | ?w) => transitivity n; [exists b; lia|exact H']
  | H : ?a * ?b = ?n, H' : (?n | ?w) |- (?a * ?b | ?w) => rewrite H; exact H'
  end.

Lemma mapping_init_wf rank world a m :
  Mapping.init rank world a = Ok m → mapping_wf m rank world.
Proof.
  intros H. unfold Mapping.init in H. inv_ok.
  apply base_init_Ok in Hr as (-> & Hw & Hrank). cbn in *.
  set (S := world / Mapping.a_pp_size a) in *.
  assert (HS : S * Mapping.a_pp_size a = world)
    by (apply div_of_divide; [lia|apply Z.mod_divide; lia]).
  assert (HSpos : 0 < S) by nia.
  pose proof (attn_init_wf _ _ _ _ _ _ _ _ Hr2) as Ha.
  unfold LmHeadMapping.init, DenseLayerMapping.init, MoeLayerMapping.init,
    VisionTowerMapping.init, LinearAttnLayerMapping.init in *.
  inv_ok.
  repeat match goal with
  | H : Base.init _ _ = Ok _ |- _ => apply base_init_Ok in H as (-> & ? & _)
  end. cbn in *.
  pose proof Ha as [Hb Htp Hdp Hprod Hkvp Hkvptp Hqcp Hqc Hhead Hheadw _].
  repeat match goal with
  | H1 : _resolve_parallelism_sizes ?w _ = Ok ?l, H2 : unpack2 ?l = Ok _ |- _ =>
      pose proof (resolve_pair w _ _ _ _ _ ltac:(lia) H1 H2); clear H1 H2
  | H1 : _resolve_parallelism_sizes ?w _ = Ok ?l, H2 : unpack3 ?l = Ok _ |- _ =>
      pose proof (resolve_triple w _ _ _ _ _ _ _ ltac:(lia) H1 H2); clear H1 H2
  end.
  destruct_conj.
  assert (Hts : (AttentionLayerMapping.tp_size r0 | S)) by grid_divides.
  constructor; cbn; try done; try lia; try (split_and!; lia).
  unfold stage_grids; cbn. rewrite Hb, !Forall_cons, Forall_nil; cbn.
  unfold MoeLayerMapping.tp_ep_size, Mapping.stage_world_size; cbn. fold S.
  split_and!; try done; try lia; rewrite ?Z.mul_1_l; try grid_divides.
  - by etrans.
  - destruct Hqc as [->| ->]; [apply Z.divide_1_l|done].
  - done.
Qed.

(** The properties of a class at an initialized rank. *)
Lemma rank_of_Some b r size stride :
  _rank b = Some r → rank_of b size stride = Ok (_make_parallelism_rank r size stride).
Proof. intros Hb. unfold rank_of, Base.rank. by rewrite Hb. Qed.

Lemma group_of_Some b r size stride :
  _rank b = Some r → group_of b size stride = Ok (_make_parallelism_group r size stride).
Proof. intros Hb. unfold group_of, Base.rank. by rewrite Hb. Qed.

Lemma pp_rank_Some m r world :
  mapping_wf m (Some r) world → r < world →
  Mapping.pp_rank m = Ok (r / Mapping.stage_world_size m).
Proof.
  intros Hm Hr. unfold Mapping.pp_rank.
  rewrite (rank_of_Some _ r) by (by rewrite (mw_base _ _ _ Hm)).
  unfold _make_parallelism_rank. f_equal. apply Z.mod_small.
  pose proof (mw_rank _ _ _ Hm r eq_refl). pose proof (mw_stage _ _ _ Hm).
  pose proof (mw_world _ _ _ Hm). split; [by apply Z.div_pos|].
  apply Z.div_lt_upper_bound; lia.
Qed.

(** ** Properties *)

(** C40: A parallel group is an equivalence class of ranks.  The group of a rank
    has the requested size, holds the rank at the position its parallel rank
    names, and is the group of exactly its members, so the groups of one
    dimension partition the ranks. *)
Theorem parallelism_groups_partition rank size stride :
  0 < size → 0 < stride →
  let g := _make_parallelism_group rank size stride in
  length g = Z.to_nat size ∧
  g !! Z.to_nat (_make_parallelism_rank rank size stride) = Some rank ∧
  ∀ r, r ∈ g ↔ _make_parallelism_group r size stride = g.
Proof.
  intros Hs Hst. cbn zeta.
  pose proof (parallelism_rank_bound rank size stride Hs) as Hb.
  split_and!.
  - unfold _make_parallelism_group. by rewrite length_fmap, length_seqZ.
  - unfold _make_parallelism_group.
    rewrite list_lookup_fmap, lookup_seqZ_lt by lia. cbn. f_equal.
    unfold _make_parallelism_rank in *. lia.
  - intros r. split; [|intros <-; by apply rank_in_group].
    intros (j & Hj & Hr)%elem_of_group. unfold _make_parallelism_group.
    destruct (group_member_coords rank size stride r j) as (-> & _ & _); try done.
    apply list_fmap_ext. intros i x _. cbn. lia.
Qed.

Lemma parallelism_groups_partition_witness :
  length (_make_parallelism_group 13 4 2) = 4%nat ∧
  _make_parallelism_group 13 4 2 !! 2%nat = Some 13 ∧
  ∀ r, r ∈ _make_parallelism_group 13 4 2 ↔
       _make_parallelism_group r 4 2 = _make_parallelism_group 13 4 2.
Proof. exact (parallelism_groups_partition 13 4 2 ltac:(lia) ltac:(lia)). Defined.

(** Size resolution is complete and correct.  It succeeds exactly when the
    sizes the caller fixed extend to positive sizes whose product is the world
    size, and what it returns is such an extension. *)
Theorem resolve_parallelism_sizes_spec world sizes :
  0 < world →
  (is_Ok (_resolve_parallelism_sizes world sizes) = true ↔
   ∃ r, extends_sizes sizes r ∧ Forall (Z.lt 0) r ∧ prodZ r = world) ∧
  ∀ r, _resolve_parallelism_sizes world sizes = Ok r →
       extends_sizes sizes r ∧ Forall (Z.lt 0) r ∧ prodZ r = world.
Proof.
  intros Hw. split; [|intros r; by apply resolve_sound].
  rewrite is_Ok_true. split.
  - intros [r Hr]. exists r. by apply resolve_sound.
  - intros (r & He & Hpos & Hprod). eexists. apply resolve_Ok. split_and!; [| |done].
    + clear Hprod Hw. induction He as [|o x sizes r Ho He IH]; [constructor|].
      apply Forall_cons in Hpos as [Hx Hpos]. constructor; [|by apply IH].
      intros y Hy. by rewrite <-(Ho y Hy).
    + case_bool_decide as HN.
      * pose proof (extends_sizes_divide _ _ He) as Hd. rewrite Hprod in Hd.
        split; [|done]. by apply Z.divide_pos_le.
      * by rewrite <-(extends_sizes_no_None sizes r).
Qed.

Lemma resolve_parallelism_sizes_spec_witness :
  (is_Ok (_resolve_parallelism_sizes 24 [Some 4; None; Some 3]) = true ↔
   ∃ r, extends_sizes [Some 4; None; Some 3] r ∧ Forall (Z.lt 0) r ∧ prodZ r = 24) ∧
  ∀ r, _resolve_parallelism_sizes 24 [Some 4; None; Some 3] = Ok r →
       extends_sizes [Some 4; None; Some 3] r ∧ Forall (Z.lt 0) r ∧ prodZ r = 24.
Proof. exact (resolve_parallelism_sizes_spec 24 [Some 4; None; Some 3] ltac:(lia)). Defined.

(** Every group the objects inside one pipeline stage hand out. *)
Definition stage_groups (m : Mapping.t) : list (result (list Z)) :=
  [ AttentionLayerMapping.tp_group (Mapping.attn m);
    AttentionLayerMapping.dp_group (Mapping.attn m);
    AttentionLayerMapping.kvp_group (Mapping.attn m);
    AttentionLayerMapping.qcp_group (Mapping.attn m);
    AttentionLayerMapping.head_tp_group (Mapping.attn m);
    LmHeadMapping.tp_group (Mapping.lm_head m); LmHeadMapping.dp_group (Mapping.lm_head m);
    DenseLayerMapping.tp_group (Mapping.dense m); DenseLayerMapping.dp_group (Mapping.dense m);
    MoeLayerMapping.tp_group (Mapping.moe m); MoeLayerMapping.ep_group (Mapping.moe m);
    MoeLayerMapping.tp_ep_group (Mapping.moe m); MoeLayerMapping.dp_group (Mapping.moe m);
    VisionTowerMapping.tp_group (Mapping.vision m);
    VisionTowerMapping.dp_group (Mapping.vision m);
    LinearAttnLayerMapping.tp_group (Mapping.linear_attn m);
    LinearAttnLayerMapping.dp_group (Mapping.linear_attn m) ].

Lemma stage_groups_grids m : stage_groups m = grid_group <$> stage_grids m.
Proof. reflexivity. Qed.

(** A deployment of 16 ranks in two pipeline stages, used by the witnesses. *)
Definition example_args : Mapping.args := {|
  Mapping.a_attn_tp_size := Some 4; Mapping.a_attn_dp_size := None;
  Mapping.a_attn_kvp_size := 2; Mapping.a_attn_head_tp_size := None;
  Mapping.a_lm_head_tp_size := None; Mapping.a_attn_qcp_size := 4;
  Mapping.a_dense_tp_size := None; Mapping.a_dense_dp_size := None;
  Mapping.a_moe_tp_size := Some 2; Mapping.a_moe_ep_size := None;
  Mapping.a_moe_dp_size := None;
  Mapping.a_vision_tp_size := None; Mapping.a_vision_dp_size := Some 2;
  Mapping.a_linear_attn_tp_size := Some 8;
  Mapping.a_pp_size := 2; Mapping.a_pp_layer_partition := None;
  Mapping.a_nprocs_per_node := Some 8; Mapping.a_nnodes := None;
  Mapping.a_base_gpu_id := 0; Mapping.a_gpu_id_step := 1;
|}.

Definition example_mapping (rank : option Z) : Mapping.t :=
  match Mapping.init rank 16 example_args with
  | Ok m => m
  | Raise _ => {|
      Mapping.base := Build_MappingBase None 1; Mapping.pp_size := 1;
      Mapping.pp_layer_partition := None;
      Mapping.attn := AttentionLayerMapping.Build_t (Build_MappingBase None 1) 1 1 1 1 1;
      Mapping.lm_head := LmHeadMapping.Build_t (Build_MappingBase None 1) 1 1;
      Mapping.dense := DenseLayerMapping.Build_t (Build_MappingBase None 1) 1 1;
      Mapping.moe := MoeLayerMapping.Build_t (Build_MappingBase None 1) 1 1 1;
      Mapping.vision := VisionTowerMapping.Build_t (Build_MappingBase None 1) 1 1;
      Mapping.linear_attn := LinearAttnLayerMapping.Build_t (Build_MappingBase None 1) 1 1;
      Mapping.nprocs_per_node := 1; Mapping.nnodes := 1;
      Mapping.base_gpu_id := 0; Mapping.gpu_id_step := 1 |}
  end.

(** Sub-mappings keep the global rank under pipeline parallelism and still
    never mix stages: every attention, LM-head, dense, MoE, vision and
    linear-attention group of a constructed mapping holds its rank and only
    ranks of the same pipeline stage. *)
Theorem stage_groups_confined rank world a m :
  Mapping.init (Some rank) world a = Ok m → rank < world →
  Forall (λ grp, ∃ g, grp = Ok g ∧ rank ∈ g ∧
    ∀ r, r ∈ g → 0 ≤ r < world ∧
      r / Mapping.stage_world_size m = rank / Mapping.stage_world_size m) (stage_groups m).
Proof.
  intros Hm%mapping_init_wf Hr. rewrite stage_groups_grids, Forall_fmap.
  pose proof (mw_stage _ _ _ Hm). pose proof (mw_world _ _ _ Hm).
  pose proof (mw_rank _ _ _ Hm rank eq_refl). pose proof (mw_pp _ _ _ Hm).
  eapply Forall_impl; [exact (mw_grids _ _ _ Hm)|]. intros g (Hg & Hs & Hst & Hd). cbn.
  eexists. split; [by apply group_of_Some|]. split; [by apply rank_in_group|].
  intros r Hin. pose proof (group_confined _ _ _ (Mapping.stage_world_size m) _ Hs Hst
    ltac:(done) Hd Hin) as Hq.
  split; [|done]. set (S := Mapping.stage_world_size m) in *.
  assert (0 ≤ rank / S < Mapping.pp_size m)
    by (split; [by apply Z.div_pos|apply Z.div_lt_upper_bound; lia]).
  pose proof (Z.div_mod r S ltac:(lia)). pose proof (Z.mod_pos_bound r S ltac:(lia)). nia.
Qed.

Lemma stage_groups_confined_witness :
  Forall (λ grp, ∃ g, grp = Ok g ∧ 11 ∈ g ∧
    ∀ r, r ∈ g → 0 ≤ r < 16 ∧ r / Mapping.stage_world_size (example_mapping (Some 11)) =
      11 / Mapping.stage_world_size (example_mapping (Some 11)))
    (stage_groups (example_mapping (Some 11))).
Proof.
  apply (stage_groups_confined 11 16 example_args); [vm_compute; reflexivity|lia].
Defined.

(** The parallel ranks of a constructed mapping are the coordinates of its
    global rank.  The pipeline rank with the attention DP and TP ranks, the
    pipeline rank with the MoE DP, EP and TP ranks, and the node rank with the
    local rank each determine it, by mixed-radix expansion; the scatter index
    is the position inside the stage. *)
Theorem rank_coordinates rank world a m :
  Mapping.init (Some rank) world a = Ok m → rank < world →
  let S := Mapping.stage_world_size m in
  ∃ pp dp tp mdp mep mtp node loc,
    Mapping.pp_rank m = Ok pp ∧ 0 ≤ pp < Mapping.pp_size m ∧
    AttentionLayerMapping.dp_rank (Mapping.attn m) = Ok dp ∧
    AttentionLayerMapping.tp_rank (Mapping.attn m) = Ok tp ∧
    rank = pp * S + dp * AttentionLayerMapping.tp_size (Mapping.attn m) + tp ∧
    MoeLayerMapping.dp_rank (Mapping.moe m) = Ok mdp ∧
    MoeLayerMapping.ep_rank (Mapping.moe m) = Ok mep ∧
    MoeLayerMapping.tp_rank (Mapping.moe m) = Ok mtp ∧
    rank = pp * S + (mdp * MoeLayerMapping.ep_size (Mapping.moe m) + mep) *
                    MoeLayerMapping.tp_size (Mapping.moe m) + mtp ∧
    Mapping.node_rank m = Ok node ∧ Mapping.local_rank m = Ok loc ∧
    rank = node * Mapping.nprocs_per_node m + loc ∧ 0 ≤ loc < Mapping.nprocs_per_node m ∧
    AttentionLayerMapping.scatter_index (Mapping.attn m) rank = rank - pp * S.
Proof.
  intros Hm%mapping_init_wf Hr S.
  pose proof (mw_attn _ _ _ Hm) as Ha. destruct (mw_moe _ _ _ Hm) as (Hmt & Hme & Hmd & Hmp).
  pose proof (aw_world _ _ _ Ha) as Hap.
  pose proof (rank_grid2 rank _ _ (aw_tp _ _ _ Ha) (aw_dp _ _ _ Ha)) as Hga.
  pose proof (rank_grid3 rank _ _ _ Hmt Hme Hmd) as Hgm. rewrite Hap in Hga. rewrite Hmp in Hgm.
  destruct (mw_nodes _ _ _ Hm) as (Hn & _ & _).
  assert (Hrank : _rank (Mapping.base m) = Some rank) by (by rewrite (mw_base _ _ _ Hm)).
  do 8 eexists. split_and!.
  - by eapply pp_rank_Some.
  - apply Z.div_pos; [exact (mw_rank _ _ _ Hm rank eq_refl)|exact (mw_stage _ _ _ Hm)].
  - apply Z.div_lt_upper_bound; [exact (mw_stage _ _ _ Hm)|]. by rewrite (mw_world _ _ _ Hm).
  - apply rank_of_Some. by rewrite (aw_base _ _ _ Ha).
  - apply rank_of_Some. by rewrite (aw_base _ _ _ Ha).
  - exact Hga.
  - apply rank_of_Some. by rewrite (mw_moe_base _ _ _ Hm).
  - apply rank_of_Some. by rewrite (mw_moe_base _ _ _ Hm).
  - apply rank_of_Some. by rewrite (mw_moe_base _ _ _ Hm).
  - exact Hgm.
  - unfold Mapping.node_rank, Base.rank. by rewrite Hrank.
  - unfold Mapping.local_rank, Base.rank. by rewrite Hrank.
  - rewrite Z.mul_comm. apply Z.div_mod. lia.
  - by apply Z.mod_pos_bound.
  - by apply Z.mod_pos_bound.
  - unfold AttentionLayerMapping.scatter_index. subst S. lia.
Qed.

Lemma rank_coordinates_witness :
  let m := example_mapping (Some 11) in let S := Mapping.stage_world_size m in
  ∃ pp dp tp mdp mep mtp node loc,
    Mapping.pp_rank m = Ok pp ∧ 0 ≤ pp < Mapping.pp_size m ∧
    AttentionLayerMapping.dp_rank (Mapping.attn m) = Ok dp ∧
    AttentionLayerMapping.tp_rank (Mapping.attn m) = Ok tp ∧
    11 = pp * S + dp * AttentionLayerMapping.tp_size (Mapping.attn m) + tp ∧
    MoeLayerMapping.dp_rank (Mapping.moe m) = Ok mdp ∧
    MoeLayerMapping.ep_rank (Mapping.moe m) = Ok mep ∧
    MoeLayerMapping.tp_rank (Mapping.moe m) = Ok mtp ∧
    11 = pp * S + (mdp * MoeLayerMapping.ep_size (Mapping.moe m) + mep) *
                    MoeLayerMapping.tp_size (Mapping.moe m) + mtp ∧
    Mapping.node_rank m = Ok node ∧ Mapping.local_rank m = Ok loc ∧
    11 = node * Mapping.nprocs_per_node m + loc ∧ 0 ≤ loc < Mapping.nprocs_per_node m ∧
    AttentionLayerMapping.scatter_index (Mapping.attn m) 11 = 11 - pp * S.
Proof.
  apply (rank_coordinates 11 16 example_args); [vm_compute; reflexivity|lia].
Defined.

(** The head-projection group is the one its documentation promises.
    Without head TP it is the attention TP group, or the rank alone under query
    sharding; head TP over the query shards uses the query-shard group; head TP
    over attention-DP ranks happens only at attention TP 1. *)
Theorem head_tp_group_cases rank world tp dp kvp head qcp m :
  AttentionLayerMapping.init (Some rank) world tp dp kvp head qcp = Ok m →
  match AttentionLayerMapping.has_head_tp m, AttentionLayerMapping.has_qcp m with
  | false, false => AttentionLayerMapping.head_tp_group m = AttentionLayerMapping.tp_group m
  | false, true => AttentionLayerMapping.head_tp_group m = Ok [rank]
  | true, true => AttentionLayerMapping.head_tp_group m = AttentionLayerMapping.qcp_group m
  | true, false => AttentionLayerMapping.tp_size m = 1 ∧
      AttentionLayerMapping.head_tp_serves_decode_only m = true
  end.
Proof.
  intros Hm%attn_init_wf. destruct Hm as [Hb Htp _ _ _ _ Hq Hqc Hh _ Hcases].
  unfold AttentionLayerMapping.head_tp_serves_decode_only.
  destruct (AttentionLayerMapping.has_head_tp m) eqn:Hht.
  - destruct (Hcases eq_refl) as [Hrow Hhq].
    unfold _attention_row_group_size, AttentionLayerMapping.has_qcp in *.
    destruct (1 <? AttentionLayerMapping.qcp_size m) eqn:Hq1.
    + unfold AttentionLayerMapping.head_tp_group, AttentionLayerMapping.qcp_group.
      by rewrite Hhq by lia.
    + split; [|done].
      assert (Hq' : AttentionLayerMapping.qcp_size m = 1) by lia.
      rewrite Hq', Z.div_1_r in Hrow. done.
  - assert (Heq : AttentionLayerMapping.head_tp_size m =
      AttentionLayerMapping.tp_size m / AttentionLayerMapping.qcp_size m).
    { unfold AttentionLayerMapping.has_head_tp, _attention_row_group_size in Hht. lia. }
    unfold AttentionLayerMapping.has_qcp, AttentionLayerMapping.head_tp_group,
      AttentionLayerMapping.tp_group.
    destruct (1 <? AttentionLayerMapping.qcp_size m) eqn:Hq1.
    + rewrite (group_of_Some _ rank) by (by rewrite Hb). f_equal.
      destruct Hqc as [|Hqc]; [lia|]. rewrite Heq, Hqc, Z.div_same by lia.
      apply group_of_size_1.
    + rewrite Heq. replace (AttentionLayerMapping.qcp_size m) with 1 by lia.
      by rewrite Z.div_1_r.
Qed.

Lemma head_tp_group_cases_witness :
  AttentionLayerMapping.head_tp_group (Mapping.attn (example_mapping (Some 11))) = Ok [11].
Proof.
  exact (head_tp_group_cases 11 8 (Some 4) None 2 None 4
           (Mapping.attn (example_mapping (Some 11))) eq_refl).
Defined.

(** ** Late rank assignment *)

(** Base objects: assigning a rank to an object built without one. *)
Lemma base_set_rank world b r :
  Base.init None world = Ok b → 0 ≤ r → Base.set_rank b r = Base.init (Some r) world.
Proof.
  intros (-> & Hw & _)%base_init_Ok Hr. unfold Base.set_rank, Base.init. cbn.
  by rewrite (proj2 (Z.leb_le 0 r) Hr), (proj2 (Z.ltb_lt 0 world) Hw).
Qed.

Lemma base_init_world rank world b : Base.init rank world = Ok b → Base.world_size b = world.
Proof. by intros (-> & _)%base_init_Ok. Qed.

(** Every class resolves its sizes from the world size alone, so building
    without a rank and assigning one is building with it. *)
Ltac late_rank :=
  let H := fresh "H" in let Hr := fresh "Hr" in intros H Hr;
  let b := fresh "b" in let Hb := fresh "Hb" in let Hset := fresh "Hset" in
  apply bind_Ok in H; destruct H as (b & Hb & H);
  pose proof (base_set_rank _ _ _ Hb Hr) as Hset;
  apply base_init_Ok in Hb as (-> & ? & _);
  let Hi := fresh "Hi" in
  match goal with |- context [Base.init (Some ?r) ?w] =>
    assert (Hi : Base.init (Some r) w = Ok {| _rank := Some r; _world_size := w |})
      by (rewrite <-Hset; unfold Base.set_rank; cbn; by rewrite (proj2 (Z.leb_le 0 r) Hr)) end;
  rewrite Hi in Hset |- *; clear Hi; cbn in H; inv_ok; clear Hset;
  unfold Base.set_rank; cbn; rewrite (proj2 (Z.leb_le 0 _) Hr); cbn;
  repeat match goal with E : ?e = Ok _ |- context [?e] => rewrite E; cbn; clear E end; done.

Lemma attn_set_rank world tp dp kvp head qcp m r :
  AttentionLayerMapping.init None world tp dp kvp head qcp = Ok m → 0 ≤ r →
  AttentionLayerMapping.set_rank m r =
    AttentionLayerMapping.init (Some r) world tp dp kvp head qcp.
Proof. unfold AttentionLayerMapping.init, AttentionLayerMapping.set_rank. late_rank. Qed.

Lemma dense_set_rank world tp dp m r :
  DenseLayerMapping.init None world tp dp = Ok m → 0 ≤ r →
  DenseLayerMapping.set_rank m r = DenseLayerMapping.init (Some r) world tp dp.
Proof. unfold DenseLayerMapping.init, DenseLayerMapping.set_rank. late_rank. Qed.

Lemma moe_set_rank world tp ep dp m r :
  MoeLayerMapping.init None world tp ep dp = Ok m → 0 ≤ r →
  MoeLayerMapping.set_rank m r = MoeLayerMapping.init (Some r) world tp ep dp.
Proof. unfold MoeLayerMapping.init, MoeLayerMapping.set_rank. late_rank. Qed.

Lemma vision_set_rank world tp dp m r :
  VisionTowerMapping.init None world tp dp = Ok m → 0 ≤ r →
  VisionTowerMapping.set_rank m r = VisionTowerMapping.init (Some r) world tp dp.
Proof. unfold VisionTowerMapping.init, VisionTowerMapping.set_rank. late_rank. Qed.

Lemma linear_set_rank world tp m r :
  LinearAttnLayerMapping.init None world tp = Ok m → 0 ≤ r →
  LinearAttnLayerMapping.set_rank m r = LinearAttnLayerMapping.init (Some r) world tp.
Proof. unfold LinearAttnLayerMapping.init, LinearAttnLayerMapping.set_rank. late_rank. Qed.

Lemma lm_head_set_rank world tp m r :
  LmHeadMapping.init None world tp = Ok m → 0 ≤ r →
  LmHeadMapping.set_rank m r = LmHeadMapping.init (Some r) world tp.
Proof. unfold LmHeadMapping.init, LmHeadMapping.set_rank. late_rank. Qed.

Lemma attn_set_rank_sizes m r m' :
  AttentionLayerMapping.set_rank m r = Ok m' →
  AttentionLayerMapping.tp_size m' = AttentionLayerMapping.tp_size m ∧
  (∀ o, _resolve_lm_head_tp_size m' o = _resolve_lm_head_tp_size m o).
Proof.
  unfold AttentionLayerMapping.set_rank, Base.set_rank. intros H. inv_ok.
  split; [done|]. intros [o|]; done.
Qed.

#[local] Arguments Base.init : simpl never.
#[local] Arguments AttentionLayerMapping.init : simpl never.
#[local] Arguments LmHeadMapping.init : simpl never.
#[local] Arguments DenseLayerMapping.init : simpl never.
#[local] Arguments MoeLayerMapping.init : simpl never.
#[local] Arguments VisionTowerMapping.init : simpl never.
#[local] Arguments LinearAttnLayerMapping.init : simpl never.
#[local] Arguments AttentionLayerMapping.set_rank : simpl never.
#[local] Arguments LmHeadMapping.set_rank : simpl never.
#[local] Arguments DenseLayerMapping.set_rank : simpl never.
#[local] Arguments MoeLayerMapping.set_rank : simpl never.
#[local] Arguments VisionTowerMapping.set_rank : simpl never.
#[local] Arguments LinearAttnLayerMapping.set_rank : simpl never.

Lemma mapping_set_rank world a m r :
  Mapping.init None world a = Ok m → 0 ≤ r →
  Mapping.set_rank m r = Mapping.init (Some r) world a.
Proof.
  intros Hm Hr. unfold Mapping.init in Hm. inv_ok.
  match goal with H : Base.init _ _ = Ok _ |- _ =>
    rename H into Hb end.
  unfold Mapping.set_rank, Mapping._on_rank_initialized, Mapping.init; cbn [Mapping.base].
  rewrite <-(base_set_rank _ _ _ Hb Hr).
  destruct (Base.set_rank _ r) as [b|] eqn:Hbs; cbn; [|done].
  assert (Hbw : Base.world_size b = Base.world_size r0)
    by (unfold Base.set_rank in Hbs; inv_ok; done).
  rewrite Hr1, Hr2; cbn.
  rewrite <-(attn_set_rank _ _ _ _ _ _ _ _ Hr3 Hr).
  destruct (AttentionLayerMapping.set_rank _ r) as [at_|] eqn:Hat; cbn; [|done].
  destruct (attn_set_rank_sizes _ _ _ Hat) as [Htp ->]. rewrite Htp, Hr4; cbn.
  rewrite <-(lm_head_set_rank _ _ _ _ Hr5 Hr).
  destruct (LmHeadMapping.set_rank _ r); cbn; [|done].
  rewrite <-(dense_set_rank _ _ _ _ _ Hr6 Hr).
  destruct (DenseLayerMapping.set_rank _ r); cbn; [|done].
  rewrite <-(moe_set_rank _ _ _ _ _ _ Hr7 Hr).
  destruct (MoeLayerMapping.set_rank _ r); cbn; [|done].
  rewrite <-(vision_set_rank _ _ _ _ _ Hr8 Hr).
  destruct (VisionTowerMapping.set_rank _ r); cbn; [|done].
  rewrite <-(linear_set_rank _ _ _ _ Hr9 Hr).
  destruct (LinearAttnLayerMapping.set_rank _ r); cbn; [|done].
  rewrite Hbw, Hr10; cbn. rewrite Hr11; cbn. by rewrite Hr12, Hr13.
Qed.

(** A mapping built before its rank is known and given the rank later is
    the mapping built with that rank, in every sub-mapping; the rank cannot be
    assigned a second time. *)
Theorem late_rank_assignment world a m r :
  Mapping.init None world a = Ok m → 0 ≤ r →
  Mapping.set_rank m r = Mapping.init (Some r) world a ∧
  ∀ m' r', Mapping.set_rank m r = Ok m' →
    Mapping.set_rank m' r' = Raise (AssertionError "rank is already initialized").
Proof.
  intros Hm Hr. split; [by apply mapping_set_rank|].
  intros m' r' Hm'. rewrite (mapping_set_rank _ _ _ _ Hm Hr) in Hm'.
  apply mapping_init_wf, mw_base in Hm'.
  unfold Mapping.set_rank, Base.set_rank. by rewrite Hm'.
Qed.

Lemma late_rank_assignment_witness :
  Mapping.set_rank (example_mapping None) 5 = Mapping.init (Some 5) 16 example_args ∧
  ∀ m' r', Mapping.set_rank (example_mapping None) 5 = Ok m' →
    Mapping.set_rank m' r' = Raise (AssertionError "rank is already initialized").
Proof.
  apply (late_rank_assignment 16 example_args); [vm_compute; reflexivity|lia].
Defined.
