(* ===== verification/CacheFields.v ===== *)
(** * Cache fields: the declarations of [kv_cache/recipes/plan.py]

    The dtype table, the field-identifier syntax [layer.<id>.<plane>] and the
    field specification a recipe declares.  A [CacheFieldSpec] is built by
    [CacheFieldSpec.init], which validates the dtype, so the properties that
    read the dtype again cannot raise; on a dtype no constructed field has they
    return 0. *)

From S2P Require Import Prelude PyDict PyString.
From Stdlib Require Import Ascii.

Local Open Scope Z_scope.

(** ** Dtypes *)

Definition _CACHE_DTYPE_BYTES : list (string * Z) :=
  [ ("uint8", 1); ("int8", 1); ("float8_e4m3fn", 1); ("float8_e5m2", 1);
    ("float8_e8m0fnu", 1); ("bfloat16", 2); ("float16", 2); ("int32", 4);
    ("float32", 4); ("int64", 8); ("float64", 8) ].

Definition _INDEX_PUT_UNSUPPORTED : list string := ["float8_e5m2"; "float8_e4m3fn"].

(** [s.removeprefix(p)] *)
Definition removeprefix (p s : string) : string :=
  match strip_prefix p s with Some r => r | None => s end.

(** The argument is [str(dtype)]. *)
Definition cache_dtype_name (dtype : string) : result string :=
  let name := removeprefix "torch." dtype in
  raise_when (negb (py_in name (dict_keys _CACHE_DTYPE_BYTES)))
    (ValueError "unsupported cache dtype");;
  Ok name.

Definition scatter_stored_dtype_name (dtype : string) : result string :=
  name ← cache_dtype_name dtype;
  Ok (if py_in name _INDEX_PUT_UNSUPPORTED then "uint8" else name).

Definition cache_dtype_bytes (dtype_name : string) : result Z :=
  lookup_or (ValueError "unsupported cache dtype") (dict_get _CACHE_DTYPE_BYTES dtype_name).

(** The byte width of a dtype already validated. *)
Definition dtype_bytes (dtype_name : string) : Z :=
  default 0 (dict_get _CACHE_DTYPE_BYTES dtype_name).

Definition MXFP8_KV_SCALE_TILE_TOKENS : Z := 128.
Definition MXFP8_SCALE_BLOCK_SIZE : Z := 32.

(** ** Field identifiers *)

Definition _split_cache_field_id (field_id : string) : result (Z * string) :=
  match split_max "."%char 2 field_id with
  | [head; layer; plane] =>
      raise_when (negb (String.eqb head "layer"))
        (ValueError "cache field is not owned by a model layer");;
      layer_id ← lookup_or (ValueError "cache field has an invalid layer id")
        (int_of_string layer);
      raise_when (layer_id <? 0) (ValueError "cache field has an invalid layer id");;
      Ok (layer_id, plane)
  | _ => Raise (ValueError "cache field is not owned by a model layer")
  end.

Definition cache_field_layer_id (field_id : string) : result Z :=
  p ← _split_cache_field_id field_id; Ok p.1.

Definition cache_field_plane (field_id : string) : result string :=
  p ← _split_cache_field_id field_id; Ok p.2.

(** [f"layer.{layer_id}.{plane}"], the identifier a recipe writes. *)
Definition layer_field_id (layer_id : Z) (plane : string) : string :=
  "layer." +:+ str_of_int layer_id +:+ "." +:+ plane.

(** ** Field specifications *)

Module CacheFieldSpec.

Record t := {
  field_id : string;
  plane_id : string;
  shape : list Z;
  dtype : string;
  exact_page_stride : bool;
  page_stride_alignment_bytes : Z;
}.

(** The dataclass constructor with its [__post_init__]. *)
Definition init (field_id plane_id : string) (shape : list Z) (dtype : string)
    (exact_page_stride : bool) (page_stride_alignment_bytes : Z) : result t :=
  _ ← cache_dtype_bytes dtype;
  Ok {| field_id := field_id; plane_id := plane_id; shape := shape; dtype := dtype;
        exact_page_stride := exact_page_stride;
        page_stride_alignment_bytes := page_stride_alignment_bytes |}.

Definition element_size (self : t) : Z := dtype_bytes (dtype self).

Definition payload_bytes (self : t) : Z := prodZ (shape self) * element_size self.

End CacheFieldSpec.

#[export] Instance CacheFieldSpec_eq_dec : EqDecision CacheFieldSpec.t.
Proof. solve_decision. Defined.

Definition mxfp8_kv_scale_fields (layer_id occurrence kv_heads head_dim prefix_granularity : Z) :
    result (list CacheFieldSpec.t) :=
  raise_when (negb (prefix_granularity mod MXFP8_KV_SCALE_TILE_TOKENS =? 0) || (kv_heads <=? 0))
    (ValueError "mxfp8 KV scales need a page span that is a positive multiple of the tile");;
  raise_when (negb (head_dim mod MXFP8_SCALE_BLOCK_SIZE =? 0))
    (ValueError "mxfp8 head_dim must be a multiple of the scale block");;
  let scale_dim := head_dim / MXFP8_SCALE_BLOCK_SIZE in
  let shape :=
    [kv_heads; prefix_granularity / MXFP8_KV_SCALE_TILE_TOKENS; 32; scale_dim; scale_dim] in
  dtype ← cache_dtype_name "float8_e8m0fnu";
  mapM (λ plane : string,
    CacheFieldSpec.init
      ("layer." +:+ str_of_int layer_id +:+ "." +:+ plane +:+ "_scale")
      ("unit." +:+ str_of_int occurrence +:+ "." +:+ plane +:+ "_scale")
      shape dtype true 1) ["k"; "v"].

(** ** Lemmas *)

Lemma dtype_bytes_Ok name n : cache_dtype_bytes name = Ok n → dtype_bytes name = n ∧ 0 < n.
Proof.
  unfold cache_dtype_bytes, dtype_bytes. intros H%lookup_or_Ok. rewrite H. split; [done|].
  apply dict_get_elem_of in H. change (0 < (name, n).2).
  revert H. generalize (name, n). apply Forall_forall.
  repeat (constructor; [cbn; lia|]). constructor.
Qed.

(** A field specification that its constructor returned. *)
Definition field_built (f : CacheFieldSpec.t) : Prop :=
  is_Ok (cache_dtype_bytes (CacheFieldSpec.dtype f)) = true.

Lemma init_field_built a b c d e g f : CacheFieldSpec.init a b c d e g = Ok f → field_built f.
Proof.
  unfold CacheFieldSpec.init, field_built. intros H. inv_ok. cbn. by rewrite Hr.
Qed.

Lemma element_size_pos f : field_built f → 0 < CacheFieldSpec.element_size f.
Proof.
  unfold field_built, CacheFieldSpec.element_size.
  intros [n Hn]%is_Ok_true. by apply dtype_bytes_Ok in Hn as [-> ?].
Qed.

Lemma payload_bytes_pos f :
  field_built f → Forall (Z.lt 0) (CacheFieldSpec.shape f) → 0 < CacheFieldSpec.payload_bytes f.
Proof.
  intros Hf%element_size_pos Hs%prodZ_pos. unfold CacheFieldSpec.payload_bytes. nia.
Qed.

Lemma element_size_divides_payload f :
  (CacheFieldSpec.element_size f | CacheFieldSpec.payload_bytes f).
Proof. apply Z.divide_factor_r. Qed.

Lemma split_layer_field_id layer_id plane :
  0 ≤ layer_id → _split_cache_field_id (layer_field_id layer_id plane) = Ok (layer_id, plane).
Proof.
  intros Hl. unfold _split_cache_field_id, layer_field_id.
  destruct (str_of_int_nonneg layer_id Hl) as [_ Hocc].
  change ("layer." +:+ str_of_int layer_id +:+ "." +:+ plane)
    with ("layer" +:+ String "." (str_of_int layer_id +:+ String "." plane)).
  unfold split_max. rewrite break_at_app by reflexivity.
  rewrite break_at_app by (by apply Hocc). cbn [String.eqb negb raise_when].
  rewrite int_of_str_of_int by done. cbn.
  by rewrite (proj2 (Z.ltb_ge layer_id 0)) by lia.
Qed.

(** ** Properties *)

(** Field identifiers round trip: parsing the identifier a recipe writes
    for a layer and a plane gives back that layer and that plane, whatever the
    plane name (dots included). *)
Theorem field_id_roundtrip layer_id plane :
  0 ≤ layer_id →
  cache_field_layer_id (layer_field_id layer_id plane) = Ok layer_id ∧
  cache_field_plane (layer_field_id layer_id plane) = Ok plane.
Proof.
  intros Hl. unfold cache_field_layer_id, cache_field_plane.
  by rewrite split_layer_field_id.
Qed.

Lemma field_id_roundtrip_witness :
  cache_field_layer_id (layer_field_id 61 "k.scale") = Ok 61 ∧
  cache_field_plane (layer_field_id 61 "k.scale") = Ok "k.scale".
Proof. apply (field_id_roundtrip 61 "k.scale"). lia. Defined.

(** The span check of the mxfp8 scale fields tests divisibility only: a span of
    zero tokens, or of minus one tile, is accepted although the message asks for
    a positive multiple. *)
Lemma mxfp8_scale_span_not_positive :
  is_Ok (mxfp8_kv_scale_fields 0 0 1 32 0) = true ∧
  is_Ok (mxfp8_kv_scale_fields 0 0 1 32 (-128)) = true.
Proof. split; vm_compute; reflexivity. Qed.
