(* ===== verification/CacheSpec.v ===== *)
(** * Cache groups: [kv_cache/recipes/spec.py]

    The scheduler-facing description of a cache group, the rules that sort a
    model's layers into groups, and the walk ([group]) that builds every group's
    specification together with the fields its layers declare.  The [AttnKind]
    and [TransferPolicy] literals are inductive types, so the test that a kind
    is one of the known ones holds by typing, as does the test that a window is
    an [int] and not a [bool]. *)

From S2P Require Import Prelude PyDict PyString CacheFields.
From Stdlib Require Import Ascii.

Local Open Scope Z_scope.
#[local] Arguments String.append !_ _ : simpl nomatch.

Inductive AttnKind := full_history | sliding_window | state.
Inductive TransferPolicy := full_suffix | latest_snapshot.

#[export] Instance AttnKind_eq_dec : EqDecision AttnKind.
Proof. solve_decision. Defined.
#[export] Instance TransferPolicy_eq_dec : EqDecision TransferPolicy.
Proof. solve_decision. Defined.

(** One window for every sliding layer, one entry per layer, or none. *)
Inductive SlidingWindowTokens :=
  | window_none
  | window_scalar (window : Z)
  | window_per_layer (windows : list (option Z)).

Definition STATE_INPUT_SLOT : Z := 0.
Definition STATE_LIVE_SLOT : Z := 1.
Definition STATE_TABLE_SLOTS : Z := 2.
Definition STATE_CHECKPOINT_SLOT : Z := 2.

(** ** [CacheGroupSpec] *)

Module CacheGroupSpec.

Record t := {
  group_id : string;
  attn_kind : AttnKind;
  rows_per_page : option Z;
  entry_stride_tokens : option Z;
  sliding_window_tokens : option Z;
  replayable : bool;
  transfer_policy : option TransferPolicy;
  shard_count : Z;
}.

(** The dataclass constructor: [self] when [__post_init__] accepts it. *)
Definition post_init (self : t) : result t :=
  raise_when (shard_count self <=? 0) (ValueError "shard_count must be a positive integer");;
  match attn_kind self with
  | sliding_window =>
      raise_when (match sliding_window_tokens self with None => true | Some w => w <=? 0 end)
        (ValueError "a sliding-window group needs a positive sliding_window_tokens")
  | _ =>
      raise_when (bool_decide (is_Some (sliding_window_tokens self)))
        (ValueError "only a sliding-window group carries sliding_window_tokens")
  end;;
  raise_when (replayable self && negb (bool_decide (attn_kind self = sliding_window)))
    (ValueError "only a sliding-window group can be regenerated by bounded replay");;
  let has_rows := bool_decide (is_Some (rows_per_page self)) ||
                  bool_decide (is_Some (entry_stride_tokens self)) in
  match attn_kind self with
  | state =>
      raise_when has_rows
        (ValueError "a state group holds one state per block and declares no row geometry");;
      Ok self
  | _ =>
      match rows_per_page self, entry_stride_tokens self with
      | Some rows, Some stride =>
          raise_when ((rows <=? 0) || (stride <=? 0))
            (ValueError "rows_per_page and entry_stride_tokens must be > 0");;
          Ok self
      | _, _ => Raise (ValueError "a group declares row geometry")
      end
  end.

Definition page_size (self : t) : result Z :=
  match rows_per_page self, entry_stride_tokens self with
  | Some rows, Some stride => Ok (rows * stride)
  | _, _ => Raise (TypeError "page_size is undefined for a state group")
  end.

Definition block_granularity (self : t) : result Z := page_size self.

(** [dataclasses.replace(spec, transfer_policy=policy)], before the
    constructor runs again. *)
Definition with_transfer_policy (self : t) (policy : TransferPolicy) : t :=
  {| group_id := group_id self; attn_kind := attn_kind self;
     rows_per_page := rows_per_page self; entry_stride_tokens := entry_stride_tokens self;
     sliding_window_tokens := sliding_window_tokens self; replayable := replayable self;
     transfer_policy := Some policy; shard_count := shard_count self |}.

End CacheGroupSpec.

#[export] Instance CacheGroupSpec_eq_dec : EqDecision CacheGroupSpec.t.
Proof. solve_decision. Defined.

(** ** Validation of a backend against the published groups *)

(** [group_specs] is [kv_pool.arena.runtime_contract.group_specs] and
    [consumer_kinds] the backend's [cache_consumer_attn_kinds]. *)
Definition validate_scheduler_config (consumer_kinds : list AttnKind)
    (group_specs : list CacheGroupSpec.t) : result () :=
  let required_kinds := CacheGroupSpec.attn_kind <$> group_specs in
  let missing_kinds := filter (λ k, k ∉ consumer_kinds) required_kinds in
  raise_when (negb (bool_decide (missing_kinds = [])))
    (RuntimeError "cache pool requires consumers for cache-group kinds").

Definition validate_state_checkpoint_in_forward (stores_in_forward_state_checkpoints : bool)
    (group_specs : list CacheGroupSpec.t) : result () :=
  let has_state :=
    existsb (λ spec, bool_decide (CacheGroupSpec.attn_kind spec = state)) group_specs in
  raise_when (has_state && negb stores_in_forward_state_checkpoints)
    (ValueError "--enable-state-checkpoint-in-forward").

(** ** Block-table width of a captured decode graph *)

Definition _ceil_div (dividend divisor : Z) : result Z :=
  raise_when (divisor =? 0) (ZeroDivisionError "integer division or modulo by zero");;
  Ok ((dividend + divisor - 1) / divisor).

Definition compute_max_logical_pages_for_capture (spec : CacheGroupSpec.t)
    (max_context_len max_tokens_per_req overlap_schedule_depth : Z) : result Z :=
  raise_when (max_context_len <? 0) (ValueError "max_context_len must be >= 0");;
  raise_when (max_tokens_per_req <=? 0) (ValueError "max_tokens_per_req must be > 0");;
  raise_when (negb (py_in overlap_schedule_depth [0; 1]))
    (ValueError "overlap_schedule_depth must be 0 or 1");;
  match CacheGroupSpec.attn_kind spec with
  | state => Ok STATE_TABLE_SLOTS
  | kind =>
      block_granularity ← CacheGroupSpec.block_granularity spec;
      let reservation_horizon := (overlap_schedule_depth + 1) * max_tokens_per_req in
      match kind with
      | sliding_window =>
          window ← lookup_or (TypeError "min of None") (CacheGroupSpec.sliding_window_tokens spec);
          let retained := Z.min window max_context_len in
          let live_tokens := retained + reservation_horizon in
          columns ← _ceil_div live_tokens block_granularity;
          Ok (columns + 1)
      | _ =>
          let live_tokens := max_context_len + reservation_horizon in
          _ceil_div live_tokens block_granularity
      end
  end.

(** ** Layer labels *)

Definition FULL_ATTENTION : string := "full_attention".
Definition LINEAR_ATTENTION : string := "linear_attention".

Definition _LAYER_TYPE_ATTN_KIND : list (string * AttnKind) :=
  [ (FULL_ATTENTION, full_history); ("sliding_attention", sliding_window);
    (LINEAR_ATTENTION, state); ("deepseek_sparse_attention", full_history) ].

Definition STATE_LAYER_TYPES : list string :=
  (filter (λ p : string * AttnKind, p.2 = state) _LAYER_TYPE_ATTN_KIND).*1.

Definition _SLIDING_SUBGROUP_PREFIX : string := "sliding_attention_".

Definition _attn_kind_for_label (label : string) : option AttnKind :=
  match dict_get _LAYER_TYPE_ATTN_KIND label with
  | Some attn_kind => Some attn_kind
  | None =>
      match strip_prefix _SLIDING_SUBGROUP_PREFIX label with
      | Some rest => if isdigit rest then Some sliding_window else None
      | None => None
      end
  end.

Definition _windows_per_layer (sliding_window_tokens : SlidingWindowTokens) (num_layers : nat) :
    result (list (option Z) * bool) :=
  match sliding_window_tokens with
  | window_none => Ok (replicate num_layers None, true)
  | window_scalar window => Ok (replicate num_layers (Some window), true)
  | window_per_layer windows =>
      raise_when (negb (length windows =? num_layers)%nat)
        (ValueError "sliding_window_tokens has the wrong number of entries");;
      Ok (windows, false)
  end.

(** [max(d.values())] of a non-empty dictionary of counts. *)
Definition max_value (d : list (string * Z)) : Z := foldr Z.max 0 (dict_values d).

Definition hybrid_slab_group_size (layer_types : option (list string))
    (sliding_window_tokens : SlidingWindowTokens) : option Z :=
  match layer_types with
  | None | Some [] => None
  | Some layer_types =>
      if existsb (λ label, bool_decide (_attn_kind_for_label label = None) ||
                           bool_decide (_attn_kind_for_label label = Some state)) layer_types
      then None else
      let counts :=
        foldl (λ d label, dict_set d label (default 0 (dict_get d label) + 1)) [] layer_types in
      if (length counts <? 2)%nat then None else
      match sliding_window_tokens with
      | window_none | window_scalar _ => Some (max_value counts)
      | window_per_layer windows =>
          if negb (length windows =? length layer_types)%nat then None else
          let distinct :=
            omap (λ p : string * option Z,
              if bool_decide (_attn_kind_for_label p.1 = Some sliding_window)
              then match p.2 with Some w => if 0 <? w then Some w else None | None => None end
              else None) (zip layer_types windows) in
          if (1 <? len_set distinct)%nat then None else Some (max_value counts)
      end
  end.

(** One step of the validation loop: the policy of a layer. *)
Definition layer_policy (broadcast : bool) (label : string) (raw : option Z) :
    result (AttnKind * option Z) :=
  attn_kind ← lookup_or (ValueError "unknown layer_type") (_attn_kind_for_label label);
  match attn_kind with
  | sliding_window =>
      match raw with
      | Some window =>
          raise_when (window <=? 0) (ValueError "layer is sliding but its window is not positive");;
          Ok (attn_kind, raw)
      | None => Raise (ValueError "layer is sliding but its window is not positive")
      end
  | _ =>
      raise_when (negb broadcast && match raw with Some w => 0 <? w | None => false end)
        (ValueError "layer carries a sliding window; mislabeled layer_type?");;
      Ok (attn_kind, None)
  end.

Definition _layer_attn_kind_windows (layer_types : list string)
    (sliding_window_tokens : SlidingWindowTokens) : result (list (AttnKind * option Z)) :=
  '(windows, broadcast) ← _windows_per_layer sliding_window_tokens (length layer_types);
  mapM (λ p : string * option Z, layer_policy broadcast p.1 p.2) (zip layer_types windows).

Definition layer_group_ids (layer_types : list string)
    (sliding_window_tokens : SlidingWindowTokens) : result (list string) :=
  rows ← _layer_attn_kind_windows layer_types sliding_window_tokens;
  let distinct := (filter (λ r : AttnKind * option Z, r.1 = sliding_window) rows).*2 in
  let multi_window := (1 <? len_set distinct)%nat in
  Ok (zip_with (λ (label : string) (r : AttnKind * option Z),
        if multi_window && bool_decide (r.1 = sliding_window)
        then label +:+ "_" +:+ match r.2 with Some w => str_of_int w | None => "None" end
        else label) layer_types rows).

Fixpoint split_recurrent_from (state_position : Z) (layer_types : list string) : list string :=
  match layer_types with
  | [] => []
  | label :: rest =>
      if py_in label STATE_LAYER_TYPES
      then (label +:+ "_" +:+ str_of_int state_position)
             :: split_recurrent_from (state_position + 1) rest
      else label :: split_recurrent_from 0 rest
  end.

Definition split_recurrent_state_groups (layer_types : list string) : list string :=
  split_recurrent_from 0 layer_types.

(** ** Building the groups *)

Definition CacheGroupDeclaration : Type := CacheGroupSpec.t * list CacheFieldSpec.t.

Definition _layer_group_spec (group_id : string) (attn_kind : AttnKind) (window : option Z)
    (block_tokens : Z) : result CacheGroupSpec.t :=
  match attn_kind with
  | state =>
      CacheGroupSpec.post_init {|
        CacheGroupSpec.group_id := group_id; CacheGroupSpec.attn_kind := attn_kind;
        CacheGroupSpec.rows_per_page := None; CacheGroupSpec.entry_stride_tokens := None;
        CacheGroupSpec.sliding_window_tokens := None; CacheGroupSpec.replayable := false;
        CacheGroupSpec.transfer_policy := None; CacheGroupSpec.shard_count := 1 |}
  | _ =>
      CacheGroupSpec.post_init {|
        CacheGroupSpec.group_id := group_id; CacheGroupSpec.attn_kind := attn_kind;
        CacheGroupSpec.rows_per_page := Some block_tokens;
        CacheGroupSpec.entry_stride_tokens := Some 1;
        CacheGroupSpec.sliding_window_tokens := window; CacheGroupSpec.replayable := false;
        CacheGroupSpec.transfer_policy := None; CacheGroupSpec.shard_count := 1 |}
  end.

Definition apply_pd_transfer_policies (specs : list CacheGroupSpec.t) :
    result (list CacheGroupSpec.t) :=
  mapM (λ spec, CacheGroupSpec.post_init (CacheGroupSpec.with_transfer_policy spec
    (match CacheGroupSpec.attn_kind spec with
     | state => latest_snapshot | _ => full_suffix end))) specs.

(** The loop state of [group]: the three dictionaries. *)
Record group_state := {
  gs_specs : list (string * CacheGroupSpec.t);
  gs_fields : list (string * list CacheFieldSpec.t);
  gs_occurrences : list (string * Z);
}.

Section group.
Context (fields_for_layer : Z → string → Z → result (list CacheFieldSpec.t)).
Context (prefix_granularity : Z).

(** The loop body: one layer contributes its policy and its fields. *)
Definition group_step (s : group_state) (layer : Z * ((AttnKind * option Z) * string)) :
    result group_state :=
  let '(layer_id, ((attn_kind, window), gid)) := layer in
  specs ←
    match dict_get (gs_specs s) gid with
    | Some existing =>
        raise_when (negb (bool_decide
          ((CacheGroupSpec.attn_kind existing, CacheGroupSpec.sliding_window_tokens existing) =
           (attn_kind, window))))
          (ValueError "group_id mixes incompatible layer policies");;
        Ok (gs_specs s)
    | None =>
        spec ← _layer_group_spec gid attn_kind window prefix_granularity;
        Ok (dict_set (gs_specs s) gid spec)
    end;
  let occurrence := default 0 (dict_get (gs_occurrences s) gid) in
  declared ← fields_for_layer layer_id gid occurrence;
  Ok (if bool_decide (declared = []) then
        {| gs_specs := specs; gs_fields := gs_fields s; gs_occurrences := gs_occurrences s |}
      else
        {| gs_specs := specs;
           gs_fields := dict_set (gs_fields s) gid
             (default [] (dict_get (gs_fields s) gid) ++ declared);
           gs_occurrences := dict_set (gs_occurrences s) gid (occurrence + 1) |}).

Definition group (layer_types group_ids : list string)
    (sliding_window_tokens : SlidingWindowTokens) (pd_disaggregation_enabled : bool) :
    result (list CacheGroupDeclaration) :=
  raise_when (bool_decide (group_ids = [])) (ValueError "group requires per-layer group_ids");;
  raise_when (negb (length group_ids =? length layer_types)%nat)
    (ValueError "group_ids and layer_types differ in length");;
  layer_policies ← _layer_attn_kind_windows layer_types sliding_window_tokens;
  s ← foldM group_step {| gs_specs := []; gs_fields := []; gs_occurrences := [] |}
        (zip (seqZ 0 (Z.of_nat (length layer_policies))) (zip layer_policies group_ids));
  let barren := filter (λ gid, gid ∉ dict_keys (gs_fields s)) (dict_keys (gs_specs s)) in
  raise_when (negb (bool_decide (barren = []))) (ValueError "cache groups declare no fields");;
  published ← (if pd_disaggregation_enabled
               then apply_pd_transfer_policies (dict_values (gs_specs s))
               else Ok (dict_values (gs_specs s)));
  mapM (λ spec,
    fields ← lookup_or (KeyError "fields")
      (dict_get (gs_fields s) (CacheGroupSpec.group_id spec));
    Ok (spec, fields)) published.
End group.

(** ** Reference definitions *)

Definition positive (o : option Z) : Prop := ∃ z, o = Some z ∧ 0 < z.

(** The shape each kind of group declares. *)
Definition spec_valid (s : CacheGroupSpec.t) : Prop :=
  0 < CacheGroupSpec.shard_count s ∧
  match CacheGroupSpec.attn_kind s with
  | full_history =>
      positive (CacheGroupSpec.rows_per_page s) ∧
      positive (CacheGroupSpec.entry_stride_tokens s) ∧
      CacheGroupSpec.sliding_window_tokens s = None ∧ CacheGroupSpec.replayable s = false
  | sliding_window =>
      positive (CacheGroupSpec.rows_per_page s) ∧
      positive (CacheGroupSpec.entry_stride_tokens s) ∧
      positive (CacheGroupSpec.sliding_window_tokens s)
  | state =>
      CacheGroupSpec.rows_per_page s = None ∧ CacheGroupSpec.entry_stride_tokens s = None ∧
      CacheGroupSpec.sliding_window_tokens s = None ∧ CacheGroupSpec.replayable s = false
  end.

(** The blocks of [g] tokens that the [n] tokens from [first] on lie in. *)
Definition blocks_touched (g first n : Z) : Z :=
  if n <=? 0 then 0 else (first + n - 1) / g - first / g + 1.

(** Each identifier once, in order of first appearance. *)
Definition first_appearance (ids : list string) : list string :=
  foldl (λ seen gid, if decide (gid ∈ seen) then seen else seen ++ [gid]) [] ids.

(** The fields of one group on its own: the layers of that group in order,
    each told how many of them declared fields before it. *)
Fixpoint group_fields (fields_for_layer : Z → string → Z → result (list CacheFieldSpec.t))
    (gid : string) (layers : list (Z * ((AttnKind * option Z) * string))) (occurrence : Z) :
    result (list CacheFieldSpec.t) :=
  match layers with
  | [] => Ok []
  | (layer_id, (_, gid')) :: rest =>
      if decide (gid' = gid) then
        declared ← fields_for_layer layer_id gid occurrence;
        more ← group_fields fields_for_layer gid rest
          (if bool_decide (declared = []) then occurrence else occurrence + 1);
        Ok (declared ++ more)
      else group_fields fields_for_layer gid rest occurrence
  end.

(** What a layer's policy and the published specification of its group agree
    on. *)
Definition spec_matches (prefix_granularity : Z) (attn_kind : AttnKind) (window : option Z)
    (s : CacheGroupSpec.t) : Prop :=
  CacheGroupSpec.attn_kind s = attn_kind ∧ CacheGroupSpec.sliding_window_tokens s = window ∧
  CacheGroupSpec.shard_count s = 1 ∧ spec_valid s ∧
  (attn_kind ≠ state → CacheGroupSpec.block_granularity s = Ok prefix_granularity).

(** The layers of a model numbered from 0, with their policy and group. *)
Definition numbered_layers (policies : list (AttnKind * option Z)) (group_ids : list string) :
    list (Z * ((AttnKind * option Z) * string)) :=
  zip (seqZ 0 (Z.of_nat (length policies))) (zip policies group_ids).

Definition label_count (label : string) (layer_types : list string) : Z :=
  Z.of_nat (length (filter (λ l, l = label) layer_types)).

(** ** Specifications *)

Lemma post_init_valid s s' : CacheGroupSpec.post_init s = Ok s' ↔ s' = s ∧ spec_valid s.
Proof.
  destruct s as [gid k r e w b p n]. unfold CacheGroupSpec.post_init, spec_valid, positive; cbn.
  split.
  - intros H. inv_ok. destruct k; cbn in *; inv_ok;
      destruct r as [r|], e as [e|], w as [w|], b; cbn in *; inv_ok; try discriminate;
      (split; [congruence|]); split_and!; eauto with lia.
  - intros [-> [Hn H]]. rewrite (proj2 (Z.leb_gt n 0)) by lia. cbn.
    destruct k; destruct_conj; subst; cbn;
      repeat match goal with H : 0 < ?x |- context [?x <=? 0] =>
        rewrite (proj2 (Z.leb_gt x 0)) by lia end; cbn; try done.
    by destruct b.
Qed.

Lemma block_granularity_valid s :
  spec_valid s → CacheGroupSpec.attn_kind s ≠ state →
  ∃ g, CacheGroupSpec.block_granularity s = Ok g ∧ 0 < g.
Proof.
  unfold spec_valid, positive, CacheGroupSpec.block_granularity, CacheGroupSpec.page_size.
  intros [_ H] Hk. destruct (CacheGroupSpec.attn_kind s); destruct_conj; [..|done];
    repeat match goal with H : _ = Some _ |- _ => rewrite H end; eexists; split; eauto; nia.
Qed.

Lemma layer_group_spec_matches gid k w n s :
  _layer_group_spec gid k w n = Ok s → (k = sliding_window ∨ w = None) →
  (CacheGroupSpec.group_id s = gid ∧ CacheGroupSpec.transfer_policy s = None) ∧
  spec_matches n k w s.
Proof.
  unfold _layer_group_spec, spec_matches, CacheGroupSpec.block_granularity,
    CacheGroupSpec.page_size. intros H Hw.
  destruct k; apply post_init_valid in H as [-> Hv]; cbn in *; split_and!; auto;
    try (intros _; f_equal; lia); try congruence; destruct Hw; congruence.
Qed.

Lemma with_policy_valid s p : spec_valid (CacheGroupSpec.with_transfer_policy s p) ↔ spec_valid s.
Proof. done. Qed.

(** ** Block-table width *)

Lemma blocks_touched_le g first n m :
  0 < g → n ≤ m → 0 ≤ m → blocks_touched g first n ≤ ceil_div m g + 1.
Proof.
  intros Hg Hn Hm. unfold blocks_touched. pose proof (ceil_div_spec m g Hg).
  case_match; [nia|].
  pose proof (Z.div_mod (first + n - 1) g). pose proof (Z.mod_pos_bound (first + n - 1) g).
  pose proof (Z.div_mod first g). pose proof (Z.mod_pos_bound first g). nia.
Qed.

Lemma blocks_touched_from_0 g n : 0 < g → 0 ≤ n → blocks_touched g 0 n = ceil_div n g.
Proof.
  intros Hg Hn. unfold blocks_touched, ceil_div. case_match.
  - assert (n = 0) as -> by lia. rewrite Z.div_small; lia.
  - rewrite Z.div_0_l by lia. replace (n + g - 1) with (0 + n - 1 + 1 * g) by lia.
    rewrite Z.div_add by lia. lia.
Qed.

Lemma ceil_div_mono m n g : 0 < g → m ≤ n → ceil_div m g ≤ ceil_div n g.
Proof. intros. unfold ceil_div. apply Z.div_le_mono; lia. Qed.

Lemma ceil_div_Ok n g : 0 < g → _ceil_div n g = Ok (ceil_div n g).
Proof. intros. unfold _ceil_div. by rewrite (proj2 (Z.eqb_neq g 0)) by lia. Qed.

(** ** Layer labels and group identifiers *)

Lemma layer_policy_Ok broadcast label raw k w :
  layer_policy broadcast label raw = Ok (k, w) →
  _attn_kind_for_label label = Some k ∧
  match k with sliding_window => positive w ∧ w = raw | _ => w = None end.
Proof.
  unfold layer_policy, positive. intros H. inv_ok. rewrite Hr.
  destruct r; [inv_ok; by subst| |inv_ok; by subst].
  destruct raw as [z|]; inv_ok; subst. split; [done|]. eauto with lia.
Qed.

Lemma windows_per_layer_length spelled n windows b :
  _windows_per_layer spelled n = Ok (windows, b) → length windows = n.
Proof.
  unfold _windows_per_layer. destruct spelled; intros H; inv_ok; subst;
    rewrite ?length_replicate; try done.
  apply negb_false_iff, Nat.eqb_eq in Hr. done.
Qed.

Lemma layer_policies_spec layer_types spelled rows :
  _layer_attn_kind_windows layer_types spelled = Ok rows →
  Forall2 (λ label (row : AttnKind * option Z),
    _attn_kind_for_label label = Some row.1 ∧
    match row.1 with sliding_window => positive row.2 | _ => row.2 = None end)
    layer_types rows.
Proof.
  unfold _layer_attn_kind_windows. intros H. inv_ok.
  apply windows_per_layer_length in Hr. apply mapM_Ok in H.
  revert rows H. generalize dependent l.
  induction layer_types as [|label types IH]; intros [|raw ws] Hlen rows H; try discriminate Hlen;
    cbn in H; inversion H as [|? [k w] ? rows' Hrow Hrows]; subst; constructor.
  - cbn in Hrow. apply layer_policy_Ok in Hrow as [Hk Hw]. cbn. split; [done|].
    destruct k; naive_solver.
  - apply (IH ws); [by injection Hlen|done].
Qed.

(** The text after the last underscore is determined by the string. *)
Lemma last_segment_inj a b d e :
  occurs "_"%char d = false → occurs "_"%char e = false →
  a +:+ "_" +:+ d = b +:+ "_" +:+ e → d = e.
Proof.
  assert (Hocc : ∀ x y, occurs "_"%char (x +:+ String "_"%char y) = true).
  { induction x as [|c x IHx]; intros y; cbn; [done|]. by rewrite IHx, orb_true_r. }
  intros Hd He. revert b. induction a as [|c a IH]; intros [|c' b] H; cbn in *.
  - by injection H.
  - injection H as <- H. by rewrite H, Hocc in Hd.
  - injection H as -> H. by rewrite <-H, Hocc in He.
  - injection H as -> H. eauto.
Qed.

(** A table label that is not a sliding one ends in the segment [attention]. *)
Lemma history_label_segment label k :
  _attn_kind_for_label label = Some k → k ≠ sliding_window →
  ∃ a, label = a +:+ "_" +:+ "attention".
Proof.
  unfold _attn_kind_for_label, _LAYER_TYPE_ATTN_KIND. intros H Hk. cbn -[strip_prefix] in H.
  repeat case_decide; subst; simplify_eq.
  - by exists "full".
  - by exists "linear".
  - by exists "deepseek_sparse".
  - destruct (strip_prefix _ label) as [rest|]; [|done]. destruct (isdigit rest); simplify_eq.
Qed.

Lemma len_set_le_1 {A} `{EqDecision A} (l : list A) x y :
  (len_set l ≤ 1)%nat → x ∈ l → y ∈ l → x = y.
Proof.
  unfold len_set. rewrite <-(elem_of_remove_dups l x), <-(elem_of_remove_dups l y).
  destruct (remove_dups l) as [|a [|b l']]; cbn; intros Hl Hx Hy; [set_solver|set_solver|lia].
Qed.

Lemma window_suffix_inj a b v w :
  positive v → positive w →
  a +:+ "_" +:+ match v with Some z => str_of_int z | None => "None" end =
  b +:+ "_" +:+ match w with Some z => str_of_int z | None => "None" end → v = w.
Proof.
  intros (x & -> & Hx) (y & -> & Hy) H. apply last_segment_inj in H;
    [|apply str_of_int_nonneg; [lia|done]..].
  f_equal. apply (f_equal int_of_string) in H.
  rewrite !int_of_str_of_int in H by lia. by injection H.
Qed.

Lemma window_suffix_not_history a label w k :
  positive w → _attn_kind_for_label label = Some k → k ≠ sliding_window →
  a +:+ "_" +:+ match w with Some z => str_of_int z | None => "None" end ≠ label.
Proof.
  intros (x & -> & Hx) Hl Hk H. destruct (history_label_segment label k Hl Hk) as [b ->].
  destruct (str_of_int_nonneg x ltac:(lia)) as [_ Ho].
  apply last_segment_inj in H; [|by apply Ho|done].
  specialize (Ho "a"%char eq_refl). by rewrite H in Ho.
Qed.

(** Equal group identifiers mean equal policies. *)
Lemma layer_group_ids_agree layer_types spelled ids rows i j gid p q :
  layer_group_ids layer_types spelled = Ok ids →
  _layer_attn_kind_windows layer_types spelled = Ok rows →
  ids !! i = Some gid → ids !! j = Some gid →
  rows !! i = Some p → rows !! j = Some q → p = q.
Proof.
  unfold layer_group_ids. intros H Hrows Hi Hj Hp Hq. rewrite Hrows in H.
  apply Ok_inj in H. subst ids. apply layer_policies_spec in Hrows.
  rewrite lookup_zip_with, Hp in Hi. rewrite lookup_zip_with, Hq in Hj.
  destruct (Forall2_lookup_r _ _ _ _ _ Hrows Hp) as (la & Hla & Hka & Hwa).
  destruct (Forall2_lookup_r _ _ _ _ _ Hrows Hq) as (lb & Hlb & Hkb & Hwb).
  rewrite Hla in Hi. rewrite Hlb in Hj. destruct p as [ka wa], q as [kb wb].
  apply (inj Some) in Hi, Hj. cbn [fst snd] in *.
  destruct (1 <? len_set _)%nat eqn:Hm; cbn [andb] in Hi, Hj.
  - rewrite <-Hi in Hj. clear Hi.
    destruct (decide (ka = sliding_window)) as [->|Hna], (decide (kb = sliding_window)) as [->|Hnb];
      rewrite ?(bool_decide_true (sliding_window = sliding_window)) in Hj by done;
      rewrite ?(bool_decide_false (ka = sliding_window)) in Hj by done;
      rewrite ?(bool_decide_false (kb = sliding_window)) in Hj by done.
    + f_equal. symmetry in Hj. by eapply window_suffix_inj.
    + symmetry in Hj. by eapply window_suffix_not_history in Hkb.
    + by eapply window_suffix_not_history in Hka.
    + subst lb. destruct ka, kb; naive_solver.
  - subst la lb. assert (ka = kb) as <- by congruence. f_equal. apply Nat.ltb_ge in Hm.
    assert (Hin : ∀ k w, rows !! k = Some (sliding_window, w) →
      w ∈ (filter (λ r : AttnKind * option Z, r.1 = sliding_window) rows).*2).
    { intros k w Hk. apply list_elem_of_fmap. exists (sliding_window, w). split; [done|].
      apply list_elem_of_filter. split; [done|]. by eapply list_elem_of_lookup_2. }
    destruct ka; [congruence| |congruence]. eapply len_set_le_1; eauto.
Qed.

(** ** The walk over the layers *)

Section group_walk.
Context (fields_for_layer : Z → string → Z → result (list CacheFieldSpec.t)).
Context (prefix_granularity : Z).

Abbreviation layer := (Z * ((AttnKind * option Z) * string))%type.

(** The policies [_layer_attn_kind_windows] returns. *)
Definition policy_ok (l : layer) : Prop := l.2.1.1 = sliding_window ∨ l.2.1.2 = None.

Definition occurrence_of (s : group_state) (gid : string) : Z :=
  default 0 (dict_get (gs_occurrences s) gid).
Definition fields_of (s : group_state) (gid : string) : list CacheFieldSpec.t :=
  default [] (dict_get (gs_fields s) gid).

(** A specification published under its own identifier. *)
Definition own_spec (gid : string) (spec : CacheGroupSpec.t) : Prop :=
  (CacheGroupSpec.group_id spec = gid ∧ CacheGroupSpec.transfer_policy spec = None) ∧
  spec_matches prefix_granularity (CacheGroupSpec.attn_kind spec)
    (CacheGroupSpec.sliding_window_tokens spec) spec.

Record walk_inv (visited : list layer) (s : group_state) : Prop := {
  walk_keys : dict_keys (gs_specs s) = first_appearance ((λ l : layer, l.2.2) <$> visited);
  walk_nodup : NoDup (dict_keys (gs_specs s));
  walk_ids : ∀ gid spec, dict_get (gs_specs s) gid = Some spec → own_spec gid spec;
  walk_policy : ∀ l : layer, l ∈ visited → ∃ spec,
    dict_get (gs_specs s) l.2.2 = Some spec ∧
    spec_matches prefix_granularity l.2.1.1 l.2.1.2 spec;
  walk_fields : ∀ gid rest,
    group_fields fields_for_layer gid (visited ++ rest) 0 =
    (more ← group_fields fields_for_layer gid rest (occurrence_of s gid);
     Ok (fields_of s gid ++ more));
  walk_nonempty : ∀ gid fs, dict_get (gs_fields s) gid = Some fs → fs ≠ [];
}.

Lemma first_appearance_snoc ids gid :
  first_appearance (ids ++ [gid]) =
    if decide (gid ∈ first_appearance ids) then first_appearance ids
    else first_appearance ids ++ [gid].
Proof. unfold first_appearance. by rewrite foldl_app. Qed.

(** Publishing a layer's policy in the dictionary of specifications. *)
Lemma walk_specs_step visited s specs (l : layer) :
  walk_inv visited s → policy_ok l →
  match dict_get (gs_specs s) l.2.2 with
  | Some existing =>
      raise_when (negb (bool_decide
        ((CacheGroupSpec.attn_kind existing, CacheGroupSpec.sliding_window_tokens existing) =
         (l.2.1.1, l.2.1.2))))
        (ValueError "group_id mixes incompatible layer policies");;
      Ok (gs_specs s)
  | None =>
      spec ← _layer_group_spec l.2.2 l.2.1.1 l.2.1.2 prefix_granularity;
      Ok (dict_set (gs_specs s) l.2.2 spec)
  end = Ok specs →
  dict_keys specs = first_appearance ((λ l : layer, l.2.2) <$> visited ++ [l]) ∧
  NoDup (dict_keys specs) ∧
  (∀ gid spec, dict_get specs gid = Some spec → own_spec gid spec) ∧
  (∀ l' : layer, l' ∈ visited ++ [l] → ∃ spec, dict_get specs l'.2.2 = Some spec ∧
     spec_matches prefix_granularity l'.2.1.1 l'.2.1.2 spec).
Proof.
  intros [Hkeys Hnd Hids Hpol _ _] Hok H. rewrite fmap_app. cbn [fmap list_fmap].
  rewrite first_appearance_snoc, <-Hkeys. destruct (dict_get (gs_specs s) l.2.2) as [ex|] eqn:Hex.
  - inv_ok. apply negb_false_iff, bool_decide_eq_true in Hr. injection Hr as Hk Hw.
    rewrite decide_True by (apply dict_get_is_Some; eauto). split_and!; auto.
    intros l' [Hl'|Hl']%elem_of_app; [auto|]. apply list_elem_of_singleton in Hl' as ->.
    exists ex. split; [done|]. rewrite <-Hk, <-Hw. by apply (Hids _ _ Hex).
  - inv_ok. apply layer_group_spec_matches in Hr as [Hgid Hm]; [|done].
    assert (Hown : own_spec l.2.2 r).
    { split; [done|]. by destruct Hm as (Hk & Hw & Hm); rewrite Hk, Hw. }
    rewrite dict_keys_set. apply dict_get_None in Hex.
    rewrite !decide_False by done. split_and!; [done|..].
    + apply NoDup_app. split_and!; [done|set_solver|apply NoDup_singleton].
    + intros gid spec. rewrite dict_get_set. case_decide; [intros [= <-]; by subst|apply Hids].
    + intros l' Hl'. rewrite dict_get_set. case_decide as Heq.
      * exists r. split; [done|]. apply elem_of_app in Hl' as [Hl'|Hl'].
        { destruct (Hpol l' Hl') as (spec & Hspec & _). rewrite Heq in Hspec.
          destruct Hex. apply dict_get_is_Some. eauto. }
        by apply list_elem_of_singleton in Hl' as ->.
      * apply elem_of_app in Hl' as [Hl'|Hl']; [auto|].
        by apply list_elem_of_singleton in Hl' as ->.
Qed.

Lemma walk_step visited s s' (l : layer) :
  walk_inv visited s → policy_ok l →
  group_step fields_for_layer prefix_granularity s l = Ok s' → walk_inv (visited ++ [l]) s'.
Proof.
  intros Hinv Hok H. destruct l as [i [[k w] gid]]. cbn [group_step] in H.
  apply bind_Ok in H as (specs & Hspecs & H). apply bind_Ok in H as (declared & Hdecl & H).
  apply Ok_inj in H. destruct (walk_specs_step visited s specs _ Hinv Hok Hspecs)
    as (Hkeys & Hnd & Hids & Hpol).
  assert (Hs' : gs_specs s' = specs) by (subst s'; by case_bool_decide).
  split; rewrite ?Hs'; auto.
  - intros g rest. rewrite <-app_assoc. rewrite (walk_fields _ _ Hinv). cbn [group_fields app].
    destruct (decide (gid = g)) as [->|Hne].
    + fold (occurrence_of s g) in Hdecl. rewrite Hdecl. subst s'. cbn [mbind result_bind].
      case_bool_decide as Hd; unfold occurrence_of, fields_of; cbn [gs_occurrences gs_fields].
      * subst declared. by destruct (group_fields _ _ _ _).
      * rewrite !dict_get_set_eq. cbn [default].
        destruct (group_fields _ _ _ _); cbn; [by rewrite app_assoc|done].
    + subst s'. case_bool_decide; unfold occurrence_of, fields_of; cbn [gs_occurrences gs_fields].
      * done.
      * by rewrite !dict_get_set_ne by congruence.
  - intros g fs. subst s'. case_bool_decide as Hd; cbn [gs_fields].
    + apply (walk_nonempty _ _ Hinv).
    + rewrite dict_get_set. case_decide; [intros [= <-]|apply (walk_nonempty _ _ Hinv)].
      intros [_ ?]%app_eq_nil. done.
Qed.

Lemma walk_init : walk_inv [] {| gs_specs := []; gs_fields := []; gs_occurrences := [] |}.
Proof.
  split; cbn; try done; [constructor|set_solver|].
  intros gid rest. unfold occurrence_of, fields_of. cbn.
  by destruct (group_fields _ _ _ _).
Qed.

Lemma walk_run layers s :
  Forall policy_ok layers →
  foldM (group_step fields_for_layer prefix_granularity)
    {| gs_specs := []; gs_fields := []; gs_occurrences := [] |} layers = Ok s →
  walk_inv layers s.
Proof.
  intros Hok. apply foldM_ind; [apply walk_init|].
  intros visited l rest s1 s2 -> Hinv. apply walk_step; [done|].
  apply Forall_app in Hok as [_ [Hl _]%Forall_cons]. done.
Qed.

(** Every group of the walk has fields, those of [group_fields]. *)
Lemma walk_group_fields layers s gid fs :
  walk_inv layers s → dict_get (gs_fields s) gid = Some fs →
  group_fields fields_for_layer gid layers 0 = Ok fs ∧ fs ≠ [].
Proof.
  intros Hinv Hfs. split; [|by eapply walk_nonempty].
  rewrite <-(app_nil_r layers), (walk_fields _ _ Hinv). cbn. unfold fields_of.
  by rewrite Hfs, app_nil_r.
Qed.
End group_walk.

(** What the walk publishes of a group's specification. *)
Definition pd_policy (attn_kind : AttnKind) : TransferPolicy :=
  match attn_kind with state => latest_snapshot | _ => full_suffix end.

Definition publish (pd : bool) (spec : CacheGroupSpec.t) : CacheGroupSpec.t :=
  if pd then CacheGroupSpec.with_transfer_policy spec (pd_policy (CacheGroupSpec.attn_kind spec))
  else spec.

Lemma apply_pd_publish specs published :
  apply_pd_transfer_policies specs = Ok published → published = publish true <$> specs.
Proof.
  unfold apply_pd_transfer_policies. rewrite mapM_Ok.
  induction 1 as [|s p specs published Hs _ IH]; [done|]. csimpl. f_equal; [|done].
  by apply post_init_valid in Hs as [-> _].
Qed.

Lemma publish_matches pd n k w spec :
  spec_matches n k w (publish pd spec) ↔ spec_matches n k w spec.
Proof. by destruct pd. Qed.

Lemma policies_ok layer_types spelled policies ids :
  _layer_attn_kind_windows layer_types spelled = Ok policies →
  Forall policy_ok (numbered_layers policies ids).
Proof.
  intros H%layer_policies_spec. apply Forall_forall. intros [i [[k w] gid]] Hin.
  apply elem_of_zip_r, elem_of_zip_l in Hin.
  apply list_elem_of_lookup in Hin as [j Hj].
  destruct (Forall2_lookup_r _ _ _ _ _ H Hj) as (label & _ & _ & Hw). cbn in Hw.
  unfold policy_ok; cbn. destruct k; auto.
Qed.

Lemma elem_of_numbered policies ids i p gid :
  policies !! i = Some p → ids !! i = Some gid →
  (Z.of_nat i, (p, gid)) ∈ numbered_layers policies ids.
Proof.
  intros Hp Hg. apply list_elem_of_lookup. exists i. unfold numbered_layers.
  rewrite lookup_zip_with, lookup_seqZ_lt by (apply lookup_lt_Some in Hp; lia). cbn.
  by rewrite lookup_zip_with, Hp; cbn; rewrite Hg.
Qed.

Lemma numbered_ids policies ids :
  length ids = length policies → (λ l, l.2.2) <$> numbered_layers policies ids = ids.
Proof.
  intros Hlen. unfold numbered_layers.
  change (snd ∘ snd <$> zip (seqZ 0 (Z.of_nat (length policies))) (zip policies ids) = ids).
  rewrite list_fmap_compose, !snd_zip; [done|lia|].
  rewrite length_zip, length_seqZ. lia.
Qed.

(** The declarations of a successful walk, in terms of its final state. *)
Lemma group_Ok f n layer_types ids spelled pd decls :
  group f n layer_types ids spelled pd = Ok decls →
  ∃ policies s, _layer_attn_kind_windows layer_types spelled = Ok policies ∧
    length ids = length policies ∧
    walk_inv f n (numbered_layers policies ids) s ∧
    Forall2 (λ spec d, d.1 = publish pd spec ∧
      dict_get (gs_fields s) (CacheGroupSpec.group_id spec) = Some d.2)
      (dict_values (gs_specs s)) decls.
Proof.
  unfold group. intros H. apply bind_Ok in H as ([] & _ & H).
  apply bind_Ok in H as ([] & Hlen & H). apply raise_when_Ok, negb_false_iff, Nat.eqb_eq in Hlen.
  apply bind_Ok in H as (policies & Hpol & H). apply bind_Ok in H as (s & Hrun & H).
  apply bind_Ok in H as ([] & _ & H). apply bind_Ok in H as (published & Hpub & H).
  exists policies, s. split; [done|]. pose proof (layer_policies_spec _ _ _ Hpol) as Hl.
  apply Forall2_length in Hl. split; [lia|]. split.
  { apply walk_run; [by eapply policies_ok|done]. }
  assert (published = publish pd <$> dict_values (gs_specs s)) as ->.
  { destruct pd; [by apply apply_pd_publish|]. apply Ok_inj in Hpub. subst.
    symmetry. apply list_fmap_id. }
  apply mapM_Ok, Forall2_fmap_l in H. eapply Forall2_impl; [exact H|].
  intros spec d Hd. cbn in Hd. inv_ok. cbn. split; [done|]. by destruct pd.
Qed.

(** ** Counting labels *)

Definition count_labels (layer_types : list string) : list (string * Z) :=
  foldl (λ d label, dict_set d label (default 0 (dict_get d label) + 1)) [] layer_types.

Lemma count_labels_spec layer_types label :
  dict_get (count_labels layer_types) label =
    if decide (label ∈ layer_types) then Some (label_count label layer_types) else None.
Proof.
  revert label. pose (P (visited : list string) (d : list (string * Z)) := ∀ label : string,
    dict_get d label =
      if decide (label ∈ visited) then Some (label_count label visited) else None).
  apply (foldl_inv P).
  { done. }
  subst P. intros visited x rest d _ IH label. cbn beta in *.
  rewrite dict_get_set, !IH. unfold label_count.
  rewrite filter_app, length_app. case_decide as Hx.
  - subst x. rewrite (decide_True (P := label ∈ visited ++ [label])) by set_solver.
    rewrite filter_cons_True by done. cbn. f_equal.
    case_decide as Hv; cbn; [unfold label_count; lia|].
    destruct (filter (λ l, l = label) visited) as [|y l] eqn:Hf; [done|].
    assert (y ∈ filter (λ l, l = label) visited) as [-> ?]%list_elem_of_filter
      by (rewrite Hf; constructor). done.
  - rewrite filter_cons_False by done. cbn. rewrite Nat.add_0_r.
    repeat case_decide; set_solver.
Qed.

Lemma count_labels_NoDup layer_types : NoDup (dict_keys (count_labels layer_types)).
Proof.
  unfold count_labels.
  apply (foldl_inv (λ _ d, NoDup (dict_keys d))); [constructor|].
  intros. by apply dict_set_NoDup.
Qed.

Lemma foldr_max_ge l x : x ∈ l → x ≤ foldr Z.max 0 l.
Proof. induction 1; cbn; lia. Qed.

Lemma foldr_max_in l : Forall (Z.le 0) l → l ≠ [] → foldr Z.max 0 l ∈ l.
Proof.
  intros H Hne. induction H as [|x l Hx Hl IH]; [done|]. cbn.
  destruct l as [|y l]; cbn in *; [rewrite Z.max_l by lia; constructor|].
  destruct (Z.max_spec x (Z.max y (foldr Z.max 0 l))) as [[_ ->]|[_ ->]]; [|constructor].
  constructor. by apply IH.
Qed.

Lemma max_count_spec layer_types :
  layer_types ≠ [] →
  (∀ label, label ∈ layer_types →
     label_count label layer_types ≤ max_value (count_labels layer_types)) ∧
  (∃ label, label ∈ layer_types ∧
     label_count label layer_types = max_value (count_labels layer_types)).
Proof.
  intros Hne. pose proof (count_labels_NoDup layer_types) as Hnd. split.
  - intros label Hl. apply foldr_max_ge, list_elem_of_fmap.
    exists (label, label_count label layer_types). split; [done|].
    apply dict_get_elem_of. by rewrite count_labels_spec, decide_True.
  - assert (Hv : ∀ label z, (label, z) ∈ count_labels layer_types →
      label ∈ layer_types ∧ z = label_count label layer_types).
    { intros label z Hz. apply elem_of_dict_get in Hz; [|done].
      rewrite count_labels_spec in Hz. case_decide; naive_solver. }
    assert (Hin : max_value (count_labels layer_types) ∈ dict_values (count_labels layer_types)).
    { apply foldr_max_in.
      - apply Forall_fmap, Forall_forall. intros [label z] Hz. apply Hv in Hz as [_ ->].
        unfold label_count; cbn; lia.
      - destruct layer_types as [|x types]; [done|]. intros Hnil%fmap_nil_inv.
        pose proof (count_labels_spec (x :: types) x) as Hx.
        rewrite Hnil, decide_True in Hx by constructor. done. }
    apply list_elem_of_fmap in Hin as ([label z] & -> & Hz). apply Hv in Hz as [? ->]. eauto.
Qed.

(** ** Properties *)

(** One walk over the layers builds every group whole.  The declarations
    carry each group identifier once, in order of first appearance; each layer's
    kind and window are those of the specification its group publishes, whose
    block spans the prefix granularity; and the fields of a group are those its
    own layers declare, in layer order, each told how many layers of that group
    declared fields before it. *)
Theorem group_declarations f n layer_types ids spelled pd decls :
  group f n layer_types ids spelled pd = Ok decls →
  ∃ policies, _layer_attn_kind_windows layer_types spelled = Ok policies ∧
    CacheGroupSpec.group_id <$> decls.*1 = first_appearance ids ∧
    (∀ i p gid, policies !! i = Some p → ids !! i = Some gid →
       ∃ d, d ∈ decls ∧ CacheGroupSpec.group_id d.1 = gid ∧ spec_matches n p.1 p.2 d.1) ∧
    (∀ d, d ∈ decls → d.2 ≠ [] ∧
       group_fields f (CacheGroupSpec.group_id d.1) (numbered_layers policies ids) 0 = Ok d.2 ∧
       CacheGroupSpec.transfer_policy d.1 =
         if pd then Some (pd_policy (CacheGroupSpec.attn_kind d.1)) else None).
Proof.
  intros H. apply group_Ok in H as (policies & s & Hpol & Hlen & Hinv & HF).
  exists policies. split; [done|].
  assert (Hsnd : ∀ spec, spec ∈ dict_values (gs_specs s) →
    own_spec n (CacheGroupSpec.group_id spec) spec ∧
    dict_get (gs_specs s) (CacheGroupSpec.group_id spec) = Some spec).
  { intros spec ([gid spec'] & -> & Hin)%list_elem_of_fmap.
    apply elem_of_dict_get in Hin; [|apply Hinv]. cbn.
    destruct (walk_ids _ _ _ _ Hinv _ _ Hin) as [[Hgid Htp] Hm]. rewrite Hgid. split_and!; done. }
  split_and!.
  - rewrite <-(numbered_ids policies ids Hlen), <-(walk_keys _ _ _ _ Hinv).
    trans (CacheGroupSpec.group_id <$> dict_values (gs_specs s)).
    { symmetry. clear -HF. induction HF as [|spec d ? ? [Hd _] _ IH]; [done|].
      csimpl. rewrite IH, Hd. f_equal. by destruct pd. }
    rewrite <-list_fmap_compose. apply list_fmap_ext. intros i [gid spec] Hi.
    eapply walk_ids; [done|]. apply elem_of_dict_get; [apply Hinv|].
    by eapply list_elem_of_lookup_2.
  - intros i p gid Hp Hg. pose proof (elem_of_numbered policies ids i p gid Hp Hg) as Hin.
    destruct (walk_policy _ _ _ _ Hinv _ Hin) as (spec & Hspec & Hm). cbn in Hspec, Hm.
    assert (Hv : spec ∈ dict_values (gs_specs s)).
    { apply list_elem_of_fmap. exists (gid, spec). split; [done|]. by apply dict_get_elem_of. }
    apply list_elem_of_lookup in Hv as [j Hj].
    destruct (Forall2_lookup_l _ _ _ _ _ HF Hj) as (d & Hd & Hpub & _).
    exists d. rewrite Hpub, publish_matches. split_and!; [by eapply list_elem_of_lookup_2| |done].
    destruct (walk_ids _ _ _ _ Hinv _ _ Hspec) as [[<- _] _]. by destruct pd.
  - intros d [j Hj]%list_elem_of_lookup.
    destruct (Forall2_lookup_r _ _ _ _ _ HF Hj) as (spec & Hspec & -> & Hfs).
    apply list_elem_of_lookup_2, Hsnd in Hspec as [[[_ Htp] _] _].
    destruct (walk_group_fields _ _ _ _ _ _ Hinv Hfs) as [Hgf Hne].
    split_and!; [done|by destruct pd|by destruct pd].
Qed.

(** A four-layer model with two groups, for the witnesses. *)
Definition example_fields (layer_id : Z) (gid : string) (occurrence : Z) :
    result (list CacheFieldSpec.t) :=
  k ← CacheFieldSpec.init (layer_field_id layer_id "k")
        ("unit." +:+ str_of_int occurrence +:+ ".k") [64; 8] "bfloat16" true 1;
  Ok [k].

Definition example_types : list string :=
  ["sliding_attention"; "full_attention"; "sliding_attention"; "full_attention"].

Lemma group_declarations_witness :
  ∃ decls policies,
    group example_fields 64 example_types example_types (window_scalar 128) true = Ok decls ∧
    _layer_attn_kind_windows example_types (window_scalar 128) = Ok policies ∧
    CacheGroupSpec.group_id <$> decls.*1 = ["sliding_attention"; "full_attention"].
Proof.
  destruct (group example_fields 64 example_types example_types (window_scalar 128) true)
    as [decls|] eqn:H; [|vm_compute in H; discriminate H].
  destruct (group_declarations _ _ _ _ _ _ _ H) as (policies & Hpol & Hids & _).
  exists decls, policies. split; [reflexivity|]. split; [exact Hpol|].
  rewrite Hids. reflexivity.
Defined.

(** The block-table width of a captured decode graph is enough and not
    wasteful.  For valid arguments it is computed, and: a full-history group
    gets exactly the blocks its context and its reservation fill; a sliding
    group gets enough columns for a window that starts anywhere, with at most
    one to spare; a state group gets its two slots. *)
Theorem capture_width_covers spec max_context_len max_tokens_per_req overlap :
  spec_valid spec → 0 ≤ max_context_len → 0 < max_tokens_per_req → overlap = 0 ∨ overlap = 1 →
  ∃ width,
    compute_max_logical_pages_for_capture spec max_context_len max_tokens_per_req overlap
      = Ok width ∧
    let horizon := (overlap + 1) * max_tokens_per_req in
    match CacheGroupSpec.attn_kind spec with
    | state => width = STATE_TABLE_SLOTS
    | full_history => ∃ g, CacheGroupSpec.block_granularity spec = Ok g ∧
        width = blocks_touched g 0 (max_context_len + horizon) ∧
        ∀ n, 0 ≤ n ≤ max_context_len + horizon → blocks_touched g 0 n ≤ width
    | sliding_window => ∃ g w, CacheGroupSpec.block_granularity spec = Ok g ∧
        CacheGroupSpec.sliding_window_tokens spec = Some w ∧
        let live := Z.min w max_context_len + horizon in
        (∀ first n, n ≤ live → blocks_touched g first n ≤ width) ∧
        width ≤ blocks_touched g 0 live + 1
    end.
Proof.
  intros Hv Hc Ht Ho. unfold compute_max_logical_pages_for_capture.
  rewrite (proj2 (Z.ltb_ge max_context_len 0)), (proj2 (Z.leb_gt max_tokens_per_req 0)) by lia.
  assert (py_in overlap [0; 1] = true) as -> by (apply py_in_true; set_solver).
  cbn [negb raise_when mbind result_bind].
  assert (Hh : 0 < (overlap + 1) * max_tokens_per_req) by (destruct Ho; nia).
  destruct (CacheGroupSpec.attn_kind spec) eqn:Hk; [..|by eexists].
  - destruct (block_granularity_valid spec Hv) as (g & Hg & Hpos); [congruence|].
    rewrite Hg. cbn. rewrite ceil_div_Ok by done. eexists; split; [done|].
    exists g. rewrite blocks_touched_from_0 by lia. split_and!; [done..|].
    intros n Hn. rewrite blocks_touched_from_0 by lia. apply ceil_div_mono; lia.
  - destruct (block_granularity_valid spec Hv) as (g & Hg & Hpos); [congruence|].
    pose proof Hv as [_ Hs]. rewrite Hk in Hs. destruct Hs as (_ & _ & w & Hw & Hwp).
    rewrite Hg, Hw. cbn. rewrite ceil_div_Ok by done. eexists; split; [done|].
    exists g, w. split_and!; [done..| |].
    + intros first n Hn. apply blocks_touched_le; lia.
    + rewrite blocks_touched_from_0 by lia. lia.
Qed.

Definition example_sliding_spec : CacheGroupSpec.t :=
  {| CacheGroupSpec.group_id := "sliding_attention";
     CacheGroupSpec.attn_kind := sliding_window;
     CacheGroupSpec.rows_per_page := Some 64; CacheGroupSpec.entry_stride_tokens := Some 1;
     CacheGroupSpec.sliding_window_tokens := Some 128; CacheGroupSpec.replayable := false;
     CacheGroupSpec.transfer_policy := None; CacheGroupSpec.shard_count := 1 |}.

Lemma capture_width_covers_witness :
  ∃ width, compute_max_logical_pages_for_capture example_sliding_spec 4096 4 1 = Ok width.
Proof.
  destruct (capture_width_covers example_sliding_spec 4096 4 1) as (width & Hw & _);
    [repeat split; try (eexists; split; [reflexivity|]); cbn; lia|lia|lia|auto|].
  exists width. exact Hw.
Defined.

(** The group identifiers derived from the labels never put two different
    policies in one group: layers with the same identifier have the same kind
    and the same window, although a window is spelled into the identifier as
    text after a label that may itself end in digits. *)
Theorem layer_group_ids_compatible layer_types spelled ids :
  layer_group_ids layer_types spelled = Ok ids →
  ∃ policies, _layer_attn_kind_windows layer_types spelled = Ok policies ∧
    length ids = length policies ∧
    ∀ i j gid p q, ids !! i = Some gid → ids !! j = Some gid →
      policies !! i = Some p → policies !! j = Some q → p = q.
Proof.
  intros H. pose proof H as H'. unfold layer_group_ids in H'.
  apply bind_Ok in H' as (policies & Hpol & Hids). exists policies. split; [done|]. split.
  - apply Ok_inj in Hids. subst ids. rewrite length_zip_with.
    apply layer_policies_spec, Forall2_length in Hpol. lia.
  - intros. by eapply (layer_group_ids_agree layer_types spelled ids policies i j).
Qed.

Lemma layer_group_ids_compatible_witness :
  ∃ ids (policies : list (AttnKind * option Z)),
    layer_group_ids ["sliding_attention"; "full_attention"; "sliding_attention_5"]
      (window_per_layer [Some 5; None; Some 128]) = Ok ids ∧
    ids = ["sliding_attention_5"; "full_attention"; "sliding_attention_5_128"] ∧
    length ids = length policies.
Proof.
  destruct (layer_group_ids_compatible
    ["sliding_attention"; "full_attention"; "sliding_attention_5"]
    (window_per_layer [Some 5; None; Some 128])
    ["sliding_attention_5"; "full_attention"; "sliding_attention_5_128"])
    as (policies & _ & Hlen & _); [vm_compute; reflexivity|].
  exists ["sliding_attention_5"; "full_attention"; "sliding_attention_5_128"], policies.
  split; [vm_compute; reflexivity|]. split; [reflexivity|exact Hlen].
Defined.

(** When layers can share slabs, the slab count is the layer count of the
    largest label: every label has at most that many layers and some label has
    exactly that many, all labels are known history labels, and there are at
    least two of them. *)
Theorem hybrid_slab_size_is_largest_group layer_types spelled n :
  hybrid_slab_group_size (Some layer_types) spelled = Some n →
  (∀ label, label ∈ layer_types → label_count label layer_types ≤ n) ∧
  (∃ label, label ∈ layer_types ∧ label_count label layer_types = n) ∧
  (∀ label, label ∈ layer_types → ∃ k, _attn_kind_for_label label = Some k ∧ k ≠ state) ∧
  (∃ a b, a ∈ layer_types ∧ b ∈ layer_types ∧ a ≠ b).
Proof.
  unfold hybrid_slab_group_size. intros H. destruct layer_types as [|t0 ts]; [done|].
  set (types := t0 :: ts) in *. assert (Hne : types ≠ []) by done. clearbody types.
  destruct (existsb _ types) eqn:Hex; [done|]. fold (count_labels types) in H.
  destruct (length (count_labels types) <? 2)%nat eqn:Hlen; [done|].
  assert (n = max_value (count_labels types)) as ->.
  { repeat case_match; congruence. }
  destruct (max_count_spec types Hne) as [Hle Hin]. split_and!; [done..| |].
  - intros label Hl. destruct (_attn_kind_for_label label) as [k|] eqn:Hk.
    + exists k. split; [done|]. intros ->. assert (existsb (λ label,
        bool_decide (_attn_kind_for_label label = None) ||
        bool_decide (_attn_kind_for_label label = Some state)) types = true); [|congruence].
      apply existsb_exists. exists label. rewrite <-list_elem_of_In. split; [done|].
      by rewrite Hk.
    + assert (existsb (λ label,
        bool_decide (_attn_kind_for_label label = None) ||
        bool_decide (_attn_kind_for_label label = Some state)) types = true); [|congruence].
      apply existsb_exists. exists label. rewrite <-list_elem_of_In. split; [done|].
      by rewrite Hk.
  - pose proof (count_labels_NoDup types) as Hnd. apply Nat.ltb_ge in Hlen.
    assert (Hk : ∀ label, label ∈ dict_keys (count_labels types) → label ∈ types).
    { intros label [z Hz]%dict_get_is_Some. rewrite count_labels_spec in Hz.
      by case_decide. }
    destruct (count_labels types) as [|[a x] [|[b y] d]]; cbn in Hlen; [lia..|].
    exists a, b. csimpl in *. apply NoDup_cons in Hnd as [Hab _].
    split_and!; [apply Hk; set_solver..|set_solver].
Qed.

Lemma hybrid_slab_size_is_largest_group_witness :
  label_count "sliding_attention" example_types ≤ 2.
Proof.
  destruct (hybrid_slab_size_is_largest_group example_types (window_scalar 128) 2)
    as (H & _); [vm_compute; reflexivity|].
  apply H. unfold example_types. set_solver.
Defined.
