(* ===== verification/CachePlan.v ===== *)
(** * The cache arena: [CacheLayout] and [CacheMemoryPlan] of
      [kv_cache/recipes/plan.py]

    A layout is the byte geometry of one LCM block (a parent): the bytes of each
    plane and, for each field, its offset in a page and its page stride.  [bind]
    multiplies it out by a number of parents into a plan, whose planes lie one
    after another in one arena.  A parent is handed to one group at a time, so
    groups may share the bytes of a plane; what the plan promises is that two
    pages overlap in no other case.  [bool] is not an [int] in the model, so the
    [isinstance] guards hold by typing. *)

From S2P Require Import Prelude PyDict PyString PyFloat CacheFields.
From Stdlib Require Import SpecFloat.

Local Open Scope Z_scope.

Definition _MAX_LCM_BLOCK_BYTES : Z := 2 ^ 63 - 1.
Definition _MAX_KERNEL_PAGE_ID : Z := 2 ^ 31 - 1.

Module CacheGroupLayout.
Record t := {
  group_id : string;
  cache_blocks_per_lcm_block : Z;
  page_count : Z;
}.
End CacheGroupLayout.

Module CachePlaneLayout.
Record t := {
  plane_id : string;
  bytes_per_lcm_block : Z;
  arena_offset_bytes : Z;
}.
End CachePlaneLayout.

Module CacheFieldLayout.
Record t := {
  group_id : string;
  field_id : string;
  plane_id : string;
  shape : list Z;
  dtype : string;
  field_offset_bytes : Z;
  page_stride_bytes : Z;
}.

(** The dataclass constructor: [self] when [__post_init__] accepts it. *)
Definition post_init (self : t) : result t :=
  _ ← cache_dtype_bytes (dtype self); Ok self.

Definition element_size (self : t) : Z := dtype_bytes (dtype self).

Definition payload_bytes (self : t) : Z := prodZ (shape self) * element_size self.
End CacheFieldLayout.

#[export] Instance CacheFieldLayout_eq_dec : EqDecision CacheFieldLayout.t.
Proof. solve_decision. Defined.

(** One entry of the capacity report. *)
Record capacity_entry := {
  unit_name : string;
  capacity : Z;
  supported_requests : option Z;
  dead_bytes : option Z;
  binding_utilization : spec_float;
}.

Module CacheMemoryPlan.

Record t := {
  prefix_granularity : Z;
  lcm_block_bytes : Z;
  num_lcm_blocks : Z;
  groups : list CacheGroupLayout.t;
  planes : list CachePlaneLayout.t;
  fields : list CacheFieldLayout.t;
  resident_block_bytes : option Z;
}.

Definition arena_bytes (self : t) : Z :=
  let per_parent := default (lcm_block_bytes self) (resident_block_bytes self) in
  (num_lcm_blocks self + 1) * per_parent.

(** ** Narrowing to a layer window *)

Definition owned (first_layer last_layer : Z) (field : CacheFieldLayout.t) : bool :=
  match cache_field_layer_id (CacheFieldLayout.field_id field) with
  | Ok layer_id => (first_layer <=? layer_id) && (layer_id <? last_layer)
  | Raise _ => true
  end.

(** The loop that keeps the planes of [kept_plane_ids] and packs them from
    [arena_offset] on. *)
Fixpoint repack (num_lcm_blocks : Z) (kept_plane_ids : list string) (arena_offset : Z)
    (planes : list CachePlaneLayout.t) : list CachePlaneLayout.t :=
  match planes with
  | [] => []
  | plane :: rest =>
      if py_in (CachePlaneLayout.plane_id plane) kept_plane_ids then
        {| CachePlaneLayout.plane_id := CachePlaneLayout.plane_id plane;
           CachePlaneLayout.bytes_per_lcm_block := CachePlaneLayout.bytes_per_lcm_block plane;
           CachePlaneLayout.arena_offset_bytes := arena_offset |}
        :: repack num_lcm_blocks kept_plane_ids
             (arena_offset + (num_lcm_blocks + 1) * CachePlaneLayout.bytes_per_lcm_block plane) rest
      else repack num_lcm_blocks kept_plane_ids arena_offset rest
  end.

Definition narrow_to_layers (self : t) (first_layer last_layer : Z) : t :=
  let kept_fields := filter (λ f, owned first_layer last_layer f = true) (fields self) in
  let kept_plane_ids := CacheFieldLayout.plane_id <$> kept_fields in
  let planes := repack (num_lcm_blocks self) kept_plane_ids 0 (planes self) in
  let resident := sumZ (CachePlaneLayout.bytes_per_lcm_block <$> planes) in
  {| prefix_granularity := prefix_granularity self; lcm_block_bytes := lcm_block_bytes self;
     num_lcm_blocks := num_lcm_blocks self; groups := groups self; planes := planes;
     fields := kept_fields; resident_block_bytes := Some resident |}.

(** ** Lookups *)

Definition _groups_by_id (self : t) : list (string * CacheGroupLayout.t) :=
  dict_of ((λ g, (CacheGroupLayout.group_id g, g)) <$> groups self).
Definition _fields_by_id (self : t) : list (string * CacheFieldLayout.t) :=
  dict_of ((λ f, (CacheFieldLayout.field_id f, f)) <$> fields self).
Definition _planes_by_id (self : t) : list (string * CachePlaneLayout.t) :=
  dict_of ((λ p, (CachePlaneLayout.plane_id p, p)) <$> planes self).

Definition group (self : t) (group_id : string) : result CacheGroupLayout.t :=
  lookup_or (KeyError "group_id") (dict_get (_groups_by_id self) group_id).
Definition field (self : t) (field_id : string) : result CacheFieldLayout.t :=
  lookup_or (KeyError "field_id") (dict_get (_fields_by_id self) field_id).
Definition plane (self : t) (plane_id : string) : result CachePlaneLayout.t :=
  lookup_or (KeyError "plane_id") (dict_get (_planes_by_id self) plane_id).

(** ** Addresses *)

Definition field_page_byte_offset (self : t) (field_id : string) (page_id : Z) : result Z :=
  field ← field self field_id;
  group ← group self (CacheFieldLayout.group_id field);
  raise_when ((page_id <? 0) || (CacheGroupLayout.page_count group <=? page_id))
    (IndexError "page_id outside the group");;
  plane ← plane self (CacheFieldLayout.plane_id field);
  Ok (CachePlaneLayout.arena_offset_bytes plane
      + CachePlaneLayout.bytes_per_lcm_block plane
      - CacheFieldLayout.page_stride_bytes field
      + page_id * CacheFieldLayout.page_stride_bytes field
      + CacheFieldLayout.field_offset_bytes field).

(** The entry of one group in the table of block layouts. *)
Definition block_layout_entry (self : t) (group : CacheGroupLayout.t) :
    result (string * (Z * list (Z * Z * Z))) :=
  geometry ← mapM (λ field,
      base ← field_page_byte_offset self (CacheFieldLayout.field_id field) 0;
      Ok (base, CacheFieldLayout.page_stride_bytes field, CacheFieldLayout.payload_bytes field))
    (filter (λ field, CacheFieldLayout.group_id field = CacheGroupLayout.group_id group)
      (fields self));
  Ok (CacheGroupLayout.group_id group, (CacheGroupLayout.page_count group, geometry)).

Definition _block_byte_layouts (self : t) : result (list (string * (Z * list (Z * Z * Z)))) :=
  entries ← mapM (block_layout_entry self) (groups self);
  Ok (dict_of entries).

Definition page_field_layout (self : t) (group_id : string) : result (Z * list (Z * Z * Z)) :=
  layouts ← _block_byte_layouts self;
  lookup_or (KeyError "group_id") (dict_get layouts group_id).

(** The bounds loop and the comprehension of [block_byte_segments]. *)
Definition check_block_ids (page_count : Z) (block_ids : list Z) : result () :=
  foldM (λ _ block_id,
    raise_when ((block_id <? 0) || (page_count <=? block_id))
      (IndexError "page_id outside the group")) () block_ids.

Definition segments_of (fields : list (Z * Z * Z)) (block_ids : list Z) : list (Z * Z) :=
  concat ((λ block_id : Z,
    (λ field : Z * Z * Z, (field.1.1 + block_id * field.1.2, field.2)) <$> fields) <$> block_ids).

Definition block_byte_segments (self : t) (group_id : string) (block_ids : list Z) :
    result (list (Z * Z)) :=
  layout ← page_field_layout self group_id;
  check_block_ids layout.1 block_ids;;
  Ok (segments_of layout.2 block_ids).

(** ** Capacity *)

(** Payload bytes of one block of each group. *)
Definition group_bytes_per_block (self : t) : list (string * Z) :=
  foldl (λ d field,
    dict_set d (CacheFieldLayout.group_id field)
      (default 0 (dict_get d (CacheFieldLayout.group_id field))
       + CacheFieldLayout.payload_bytes field)) [] (fields self).

(** [max_num_seqs * n if max_num_seqs else None] *)
Definition demand (max_num_seqs : option Z) (n : Z) : option Z :=
  match max_num_seqs with
  | Some seqs => if seqs =? 0 then None else Some (seqs * n)
  | None => None
  end.

Definition capacity_group (self : t) (window_tokens per_request_blocks : list (string * Z))
    (max_num_seqs : option Z) (group : CacheGroupLayout.t) : result capacity_entry :=
  let usable_pages := num_lcm_blocks self * CacheGroupLayout.cache_blocks_per_lcm_block group in
  let block_bytes :=
    default 0 (dict_get (group_bytes_per_block self) (CacheGroupLayout.group_id group)) in
  binding_utilization ←
    (if lcm_block_bytes self =? 0 then Ok (S754_zero false)
     else int_truediv (CacheGroupLayout.cache_blocks_per_lcm_block group * block_bytes)
            (lcm_block_bytes self));
  match dict_get per_request_blocks (CacheGroupLayout.group_id group) with
  | Some blocks =>
      let blocks_per_req := Z.max 1 blocks in
      let supported := usable_pages / blocks_per_req in
      Ok {| unit_name := "requests"; capacity := supported;
            supported_requests := Some supported;
            dead_bytes := (λ demand_pages, Z.max 0 (usable_pages - demand_pages) * block_bytes)
              <$> demand max_num_seqs blocks_per_req;
            binding_utilization := binding_utilization |}
  | None =>
      let token_capacity := usable_pages * prefix_granularity self in
      match dict_get window_tokens (CacheGroupLayout.group_id group) with
      | Some window =>
          let window := Z.max 1 window in
          let supported := token_capacity / window in
          dead ←
            match demand max_num_seqs window with
            | None => Ok None
            | Some demand_tokens =>
                raise_when (prefix_granularity self =? 0)
                  (ZeroDivisionError "integer division or modulo by zero");;
                Ok (Some (Z.max 0 (token_capacity - demand_tokens)
                          / prefix_granularity self * block_bytes))
            end;
          Ok {| unit_name := "tokens"; capacity := token_capacity;
                supported_requests := Some supported; dead_bytes := dead;
                binding_utilization := binding_utilization |}
      | None =>
          Ok {| unit_name := "tokens"; capacity := token_capacity;
                supported_requests := None; dead_bytes := Some 0;
                binding_utilization := binding_utilization |}
      end
  end.

Definition capacity_report (self : t) (window_tokens per_request_blocks : list (string * Z))
    (max_num_seqs : option Z) : result (list (string * capacity_entry)) :=
  foldM (λ report group,
    entry ← capacity_group self window_tokens per_request_blocks max_num_seqs group;
    Ok (dict_set report (CacheGroupLayout.group_id group) entry)) [] (groups self).

End CacheMemoryPlan.

Module CacheLayout.

Record t := {
  prefix_granularity : Z;
  lcm_block_bytes : Z;
  group_packing : list (string * Z);
  plane_bytes : list (string * Z);
  fields : list CacheFieldLayout.t;
}.

Definition bind_group (num_lcm_blocks : Z) (entry : string * Z) : result CacheGroupLayout.t :=
  let '(group_id, count) := entry in
  raise_when (_MAX_KERNEL_PAGE_ID <? num_lcm_blocks * count)
    (ValueError "kernel page id exceeds the limit");;
  Ok {| CacheGroupLayout.group_id := group_id;
        CacheGroupLayout.cache_blocks_per_lcm_block := count;
        CacheGroupLayout.page_count := 1 + num_lcm_blocks * count |}.

(** The loop that lays the planes one after another. *)
Fixpoint place_planes (num_lcm_blocks arena_offset : Z) (plane_bytes : list (string * Z)) :
    list CachePlaneLayout.t :=
  match plane_bytes with
  | [] => []
  | (plane_id, bytes_per_lcm_block) :: rest =>
      {| CachePlaneLayout.plane_id := plane_id;
         CachePlaneLayout.bytes_per_lcm_block := bytes_per_lcm_block;
         CachePlaneLayout.arena_offset_bytes := arena_offset |}
      :: place_planes num_lcm_blocks
           (arena_offset + (num_lcm_blocks + 1) * bytes_per_lcm_block) rest
  end.

Definition bind (self : t) (num_lcm_blocks : Z) : result CacheMemoryPlan.t :=
  raise_when (num_lcm_blocks <? 1) (ValueError "num_lcm_blocks must be a positive integer");;
  groups ← mapM (bind_group num_lcm_blocks) (group_packing self);
  Ok {| CacheMemoryPlan.prefix_granularity := prefix_granularity self;
        CacheMemoryPlan.lcm_block_bytes := lcm_block_bytes self;
        CacheMemoryPlan.num_lcm_blocks := num_lcm_blocks;
        CacheMemoryPlan.groups := groups;
        CacheMemoryPlan.planes := place_planes num_lcm_blocks 0 (plane_bytes self);
        CacheMemoryPlan.fields := fields self;
        CacheMemoryPlan.resident_block_bytes := None |}.

End CacheLayout.

(** ** Well-formedness *)

(** Half-open byte ranges [[a, a+n)] and [[b, b+m)] that share no byte. *)
Definition disjoint_ranges (a n b m : Z) : Prop := a + n ≤ b ∨ b + m ≤ a.

(** A field sits inside its page, and pages of its group fill its plane. *)
Record field_wf (count plane_bytes : Z) (f : CacheFieldLayout.t) : Prop := {
  fw_count : 0 < count;
  fw_stride : count * CacheFieldLayout.page_stride_bytes f = plane_bytes;
  fw_offset : 0 ≤ CacheFieldLayout.field_offset_bytes f;
  fw_payload : 0 < CacheFieldLayout.payload_bytes f;
  fw_inside : CacheFieldLayout.field_offset_bytes f + CacheFieldLayout.payload_bytes f
              ≤ CacheFieldLayout.page_stride_bytes f;
}.

(** Two fields of one group in one plane do not overlap inside a page. *)
Definition fields_apart (fields : list CacheFieldLayout.t) : Prop :=
  ∀ f g, f ∈ fields → g ∈ fields → f ≠ g →
    CacheFieldLayout.group_id f = CacheFieldLayout.group_id g →
    CacheFieldLayout.plane_id f = CacheFieldLayout.plane_id g →
    disjoint_ranges
      (CacheFieldLayout.field_offset_bytes f) (CacheFieldLayout.payload_bytes f)
      (CacheFieldLayout.field_offset_bytes g) (CacheFieldLayout.payload_bytes g).

Record layout_wf (L : CacheLayout.t) : Prop := {
  lw_groups : NoDup (CacheLayout.group_packing L).*1;
  lw_planes : NoDup (CacheLayout.plane_bytes L).*1;
  lw_plane_pos : Forall (λ p, 0 < p.2) (CacheLayout.plane_bytes L);
  lw_ids : NoDup (CacheFieldLayout.field_id <$> CacheLayout.fields L);
  lw_fields : ∀ f, f ∈ CacheLayout.fields L → ∃ count bytes,
    (CacheFieldLayout.group_id f, count) ∈ CacheLayout.group_packing L ∧
    (CacheFieldLayout.plane_id f, bytes) ∈ CacheLayout.plane_bytes L ∧
    field_wf count bytes f;
  lw_apart : fields_apart (CacheLayout.fields L);
  lw_block : sumZ (CacheLayout.plane_bytes L).*2 ≤ CacheLayout.lcm_block_bytes L;
}.

(** Planes laid out from [off] on, each with room for [n] parents. *)
Fixpoint planes_from (n off : Z) (planes : list CachePlaneLayout.t) : Prop :=
  match planes with
  | [] => True
  | p :: rest => CachePlaneLayout.arena_offset_bytes p = off ∧
      planes_from n (off + n * CachePlaneLayout.bytes_per_lcm_block p) rest
  end.

Record plan_wf (P : CacheMemoryPlan.t) : Prop := {
  pw_blocks : 1 ≤ CacheMemoryPlan.num_lcm_blocks P;
  pw_groups : NoDup (CacheGroupLayout.group_id <$> CacheMemoryPlan.groups P);
  pw_pages : ∀ g, g ∈ CacheMemoryPlan.groups P →
    CacheGroupLayout.page_count g =
      1 + CacheMemoryPlan.num_lcm_blocks P * CacheGroupLayout.cache_blocks_per_lcm_block g;
  pw_planes : NoDup (CachePlaneLayout.plane_id <$> CacheMemoryPlan.planes P);
  pw_plane_pos :
    Forall (λ p, 0 < CachePlaneLayout.bytes_per_lcm_block p) (CacheMemoryPlan.planes P);
  pw_packed : planes_from (CacheMemoryPlan.num_lcm_blocks P + 1) 0 (CacheMemoryPlan.planes P);
  pw_ids : NoDup (CacheFieldLayout.field_id <$> CacheMemoryPlan.fields P);
  pw_fields : ∀ f, f ∈ CacheMemoryPlan.fields P → ∃ g p,
    g ∈ CacheMemoryPlan.groups P ∧ p ∈ CacheMemoryPlan.planes P ∧
    CacheGroupLayout.group_id g = CacheFieldLayout.group_id f ∧
    CachePlaneLayout.plane_id p = CacheFieldLayout.plane_id f ∧
    field_wf (CacheGroupLayout.cache_blocks_per_lcm_block g)
      (CachePlaneLayout.bytes_per_lcm_block p) f;
  pw_apart : fields_apart (CacheMemoryPlan.fields P);
  pw_room : sumZ (CachePlaneLayout.bytes_per_lcm_block <$> CacheMemoryPlan.planes P)
    ≤ default (CacheMemoryPlan.lcm_block_bytes P) (CacheMemoryPlan.resident_block_bytes P);
}.

(** The parent a page of a group with [count] pages per parent lies in; page 0
    is the null page, in the null parent. *)
Definition parent_of (count page_id : Z) : Z :=
  if page_id =? 0 then 0 else 1 + (page_id - 1) / count.

(** ** Lemmas *)

Lemma plan_group P g :
  plan_wf P → g ∈ CacheMemoryPlan.groups P →
  CacheMemoryPlan.group P (CacheGroupLayout.group_id g) = Ok g.
Proof. intros Hw Hg. apply lookup_or_Ok. by apply dict_of_index; [apply Hw|]. Qed.

Lemma plan_field P f :
  plan_wf P → f ∈ CacheMemoryPlan.fields P →
  CacheMemoryPlan.field P (CacheFieldLayout.field_id f) = Ok f.
Proof. intros Hw Hf. apply lookup_or_Ok. by apply dict_of_index; [apply Hw|]. Qed.

Lemma plan_plane P p :
  plan_wf P → p ∈ CacheMemoryPlan.planes P →
  CacheMemoryPlan.plane P (CachePlaneLayout.plane_id p) = Ok p.
Proof. intros Hw Hp. apply lookup_or_Ok. by apply dict_of_index; [apply Hw|]. Qed.

(** The bytes of plane [p] in the arena of [n] parents. *)
Abbreviation plane_size n p := (n * CachePlaneLayout.bytes_per_lcm_block p).

Lemma planes_from_bounds n off planes p :
  0 ≤ n → Forall (λ p, 0 < CachePlaneLayout.bytes_per_lcm_block p) planes →
  planes_from n off planes → p ∈ planes →
  off ≤ CachePlaneLayout.arena_offset_bytes p ∧
  CachePlaneLayout.arena_offset_bytes p + plane_size n p ≤
    off + n * sumZ (CachePlaneLayout.bytes_per_lcm_block <$> planes).
Proof.
  intros Hn Hpos. revert off. induction Hpos as [|q planes Hq Hpos IH]; [set_solver|].
  intros off [Hoff Hrest] Hp. rewrite fmap_cons, sumZ_cons.
  assert (0 ≤ sumZ (CachePlaneLayout.bytes_per_lcm_block <$> planes)).
  { apply sumZ_nonneg, Forall_fmap. eapply Forall_impl; [exact Hpos|]. cbn. lia. }
  apply elem_of_cons in Hp as [->|Hp]; [nia|].
  destruct (IH _ Hrest Hp). nia.
Qed.

Lemma planes_from_disjoint n off planes p q :
  0 ≤ n → Forall (λ p, 0 < CachePlaneLayout.bytes_per_lcm_block p) planes →
  planes_from n off planes → p ∈ planes → q ∈ planes → p ≠ q →
  disjoint_ranges (CachePlaneLayout.arena_offset_bytes p) (plane_size n p)
                  (CachePlaneLayout.arena_offset_bytes q) (plane_size n q).
Proof.
  intros Hn Hpos. revert off. induction Hpos as [|x planes Hx Hpos IH]; [set_solver|].
  intros off [Hoff Hrest] Hp Hq Hne. unfold disjoint_ranges in *.
  apply elem_of_cons in Hp as [->|Hp], Hq as [->|Hq]; [done| | |by eapply IH].
  - destruct (planes_from_bounds n _ planes q Hn Hpos Hrest Hq). lia.
  - destruct (planes_from_bounds n _ planes p Hn Hpos Hrest Hp). lia.
Qed.

(** The slot of page [page] lies in its parent. *)
Lemma page_slot_in_parent k s page :
  0 < k → 0 < s → 0 ≤ page →
  parent_of k page * (k * s) ≤ k * s - s + page * s ∧
  k * s - s + page * s + s ≤ (parent_of k page + 1) * (k * s).
Proof.
  intros Hk Hs Hp. unfold parent_of. destruct (Z.eqb_spec page 0) as [->|Hne]; [nia|].
  pose proof (Z.div_mod (page - 1) k ltac:(lia)) as Hdm.
  pose proof (Z.mod_pos_bound (page - 1) k Hk) as Hm.
  set (q := (page - 1) / k) in *. set (r := (page - 1) mod k) in *.
  assert (k * s - s + page * s = (1 + q) * (k * s) + r * s) as -> by nia. nia.
Qed.

Lemma parent_of_bounds k n page :
  0 < k → 0 ≤ n → 0 ≤ page < 1 + n * k → 0 ≤ parent_of k page ≤ n.
Proof.
  intros Hk Hn Hp. unfold parent_of. destruct (Z.eqb_spec page 0); [lia|].
  pose proof (Z.div_pos (page - 1) k ltac:(lia) Hk).
  assert ((page - 1) / k < n) by (apply Z.div_lt_upper_bound; nia). lia.
Qed.

(** Pages of one stride occupy distinct slots. *)
Lemma page_slots_disjoint s a p q : 0 < s → p ≠ q → disjoint_ranges (a + p * s) s (a + q * s) s.
Proof. intros Hs Hne. unfold disjoint_ranges. destruct (Z.lt_total p q) as [|[]]; nia. Qed.

(** The address of a page of a field, with its group and plane. *)
Record addressed (P : CacheMemoryPlan.t) (f : CacheFieldLayout.t) (g : CacheGroupLayout.t)
    (p : CachePlaneLayout.t) : Prop := {
  ad_group : g ∈ CacheMemoryPlan.groups P;
  ad_plane : p ∈ CacheMemoryPlan.planes P;
  ad_gid : CacheGroupLayout.group_id g = CacheFieldLayout.group_id f;
  ad_pid : CachePlaneLayout.plane_id p = CacheFieldLayout.plane_id f;
  ad_wf : field_wf (CacheGroupLayout.cache_blocks_per_lcm_block g)
            (CachePlaneLayout.bytes_per_lcm_block p) f;
  ad_offset : ∀ page, CacheMemoryPlan.field_page_byte_offset P (CacheFieldLayout.field_id f) page =
    if decide (0 ≤ page < CacheGroupLayout.page_count g) then
      Ok (CachePlaneLayout.arena_offset_bytes p + CachePlaneLayout.bytes_per_lcm_block p
          - CacheFieldLayout.page_stride_bytes f + page * CacheFieldLayout.page_stride_bytes f
          + CacheFieldLayout.field_offset_bytes f)
    else Raise (IndexError "page_id outside the group");
}.

Lemma field_addressed P f :
  plan_wf P → f ∈ CacheMemoryPlan.fields P → ∃ g p, addressed P f g p.
Proof.
  intros Hw Hf. destruct (pw_fields P Hw f Hf) as (g & p & Hg & Hp & Hgid & Hpid & Hfw).
  exists g, p. split; try done. intros page.
  unfold CacheMemoryPlan.field_page_byte_offset. rewrite plan_field by done. cbn.
  rewrite <-Hgid, plan_group by done. cbn. rewrite <-Hpid, plan_plane by done.
  case_decide as Hb.
  - by rewrite (proj2 (Z.ltb_ge page 0)), (proj2 (Z.leb_gt _ page)) by lia.
  - destruct (_ || _) eqn:Ho; [done|]. lia.
Qed.

Lemma field_wf_stride_pos k b f : field_wf k b f → 0 < CacheFieldLayout.page_stride_bytes f.
Proof. intros []. lia. Qed.

Lemma field_wf_plane_pos k b f : field_wf k b f → 0 < b.
Proof. intros Hf. pose proof (field_wf_stride_pos k b f Hf). destruct Hf. nia. Qed.

(** The page of a field lies inside the slot of its parent in its plane. *)
Lemma addressed_in_parent P f g p page o :
  addressed P f g p → 
  CacheMemoryPlan.field_page_byte_offset P (CacheFieldLayout.field_id f) page = Ok o →
  let parent := parent_of (CacheGroupLayout.cache_blocks_per_lcm_block g) page in
  let b := CachePlaneLayout.bytes_per_lcm_block p in
  0 ≤ page < CacheGroupLayout.page_count g ∧
  CachePlaneLayout.arena_offset_bytes p + parent * b ≤ o ∧
  o + CacheFieldLayout.payload_bytes f ≤ CachePlaneLayout.arena_offset_bytes p + (parent + 1) * b.
Proof.
  intros [Hg Hp _ _ Hfw Hoff] Ho. rewrite Hoff in Ho. case_decide as Hb; [|done].
  apply Ok_inj in Ho. pose proof (field_wf_stride_pos _ _ _ Hfw) as Hs. destruct Hfw as [Hc Hst Ho0 Hpay Hin].
  pose proof (page_slot_in_parent _ _ page Hc Hs ltac:(lia)) as [Hlo Hhi].
  cbn zeta. rewrite <-Hst. rewrite <-Hst in Ho. split; [done|]. split; lia.
Qed.

Lemma addressed_parent_bounds P f g p page :
  plan_wf P → addressed P f g p → 0 ≤ page < CacheGroupLayout.page_count g →
  0 ≤ parent_of (CacheGroupLayout.cache_blocks_per_lcm_block g) page
    ≤ CacheMemoryPlan.num_lcm_blocks P.
Proof.
  intros Hw Ha Hb. rewrite (pw_pages P Hw g) in Hb by apply Ha.
  pose proof (pw_blocks P Hw). apply parent_of_bounds; [apply (ad_wf _ _ _ _ Ha)|lia|lia].
Qed.

(** Fields of one group share the group layout, fields of one plane the plane. *)
Lemma addressed_same_group P f1 f2 g1 g2 p1 p2 :
  plan_wf P → addressed P f1 g1 p1 → addressed P f2 g2 p2 →
  CacheFieldLayout.group_id f1 = CacheFieldLayout.group_id f2 → g1 = g2.
Proof.
  intros Hw H1 H2 Hid. pose proof (plan_group P g1 Hw (ad_group _ _ _ _ H1)) as E1.
  pose proof (plan_group P g2 Hw (ad_group _ _ _ _ H2)) as E2.
  rewrite (ad_gid _ _ _ _ H1), Hid, <-(ad_gid _ _ _ _ H2) in E1. congruence.
Qed.

Lemma addressed_same_plane P f1 f2 g1 g2 p1 p2 :
  plan_wf P → addressed P f1 g1 p1 → addressed P f2 g2 p2 →
  CacheFieldLayout.plane_id f1 = CacheFieldLayout.plane_id f2 → p1 = p2.
Proof.
  intros Hw H1 H2 Hid. pose proof (plan_plane P p1 Hw (ad_plane _ _ _ _ H1)) as E1.
  pose proof (plan_plane P p2 Hw (ad_plane _ _ _ _ H2)) as E2.
  rewrite (ad_pid _ _ _ _ H1), Hid, <-(ad_pid _ _ _ _ H2) in E1. congruence.
Qed.

(** Disjointness case by case: other plane, other parent, other page of the
    group, other field of the page. *)
Lemma disjoint_other_plane P f1 f2 g1 g2 p1 p2 page1 page2 o1 o2 :
  plan_wf P → addressed P f1 g1 p1 → addressed P f2 g2 p2 →
  CacheFieldLayout.plane_id f1 ≠ CacheFieldLayout.plane_id f2 →
  CacheMemoryPlan.field_page_byte_offset P (CacheFieldLayout.field_id f1) page1 = Ok o1 →
  CacheMemoryPlan.field_page_byte_offset P (CacheFieldLayout.field_id f2) page2 = Ok o2 →
  disjoint_ranges o1 (CacheFieldLayout.payload_bytes f1) o2 (CacheFieldLayout.payload_bytes f2).
Proof.
  intros Hw H1 H2 Hne Ho1 Ho2.
  destruct (addressed_in_parent _ _ _ _ _ _ H1 Ho1) as (Hb1 & L1 & U1).
  destruct (addressed_in_parent _ _ _ _ _ _ H2 Ho2) as (Hb2 & L2 & U2).
  pose proof (addressed_parent_bounds _ _ _ _ _ Hw H1 Hb1) as B1.
  pose proof (addressed_parent_bounds _ _ _ _ _ Hw H2 Hb2) as B2.
  pose proof (field_wf_plane_pos _ _ _ (ad_wf _ _ _ _ H1)).
  pose proof (field_wf_plane_pos _ _ _ (ad_wf _ _ _ _ H2)).
  pose proof (pw_blocks P Hw).
  destruct (planes_from_disjoint (CacheMemoryPlan.num_lcm_blocks P + 1) 0
    (CacheMemoryPlan.planes P) p1 p2) as [Hd|Hd];
    [lia|apply Hw|apply Hw|apply H1|apply H2| |left; nia|right; nia].
  intros ->. apply Hne. by rewrite <-(ad_pid _ _ _ _ H1), <-(ad_pid _ _ _ _ H2).
Qed.

Lemma disjoint_other_parent P f1 f2 g1 g2 p page1 page2 o1 o2 :
  addressed P f1 g1 p → addressed P f2 g2 p →
  parent_of (CacheGroupLayout.cache_blocks_per_lcm_block g1) page1 ≠
  parent_of (CacheGroupLayout.cache_blocks_per_lcm_block g2) page2 →
  CacheMemoryPlan.field_page_byte_offset P (CacheFieldLayout.field_id f1) page1 = Ok o1 →
  CacheMemoryPlan.field_page_byte_offset P (CacheFieldLayout.field_id f2) page2 = Ok o2 →
  disjoint_ranges o1 (CacheFieldLayout.payload_bytes f1) o2 (CacheFieldLayout.payload_bytes f2).
Proof.
  intros H1 H2 Hne Ho1 Ho2.
  destruct (addressed_in_parent _ _ _ _ _ _ H1 Ho1) as (_ & L1 & U1).
  destruct (addressed_in_parent _ _ _ _ _ _ H2 Ho2) as (_ & L2 & U2).
  pose proof (field_wf_plane_pos _ _ _ (ad_wf _ _ _ _ H1)).
  unfold disjoint_ranges. cbn zeta in *.
  destruct (Z.lt_total (parent_of (CacheGroupLayout.cache_blocks_per_lcm_block g1) page1)
    (parent_of (CacheGroupLayout.cache_blocks_per_lcm_block g2) page2)) as [|[|]]; [|done|]; nia.
Qed.

Lemma disjoint_same_group P f1 f2 g p page1 page2 o1 o2 :
  plan_wf P → f1 ∈ CacheMemoryPlan.fields P → f2 ∈ CacheMemoryPlan.fields P →
  addressed P f1 g p → addressed P f2 g p → (f1, page1) ≠ (f2, page2) →
  CacheMemoryPlan.field_page_byte_offset P (CacheFieldLayout.field_id f1) page1 = Ok o1 →
  CacheMemoryPlan.field_page_byte_offset P (CacheFieldLayout.field_id f2) page2 = Ok o2 →
  disjoint_ranges o1 (CacheFieldLayout.payload_bytes f1) o2 (CacheFieldLayout.payload_bytes f2).
Proof.
  intros Hw Hf1 Hf2 H1 H2 Hne Ho1 Ho2.
  rewrite (ad_offset _ _ _ _ H1) in Ho1. rewrite (ad_offset _ _ _ _ H2) in Ho2.
  repeat case_decide; try done. apply Ok_inj in Ho1, Ho2.
  pose proof (ad_wf _ _ _ _ H1) as [Hc1 Hs1 ? ? ?]. pose proof (ad_wf _ _ _ _ H2) as [Hc2 Hs2 ? ? ?].
  assert (Hs : CacheFieldLayout.page_stride_bytes f1 = CacheFieldLayout.page_stride_bytes f2) by nia.
  destruct (decide (page1 = page2)) as [<-|Hp].
  - destruct (pw_apart P Hw f1 f2) as [Hd|Hd]; [done..|congruence| | | |].
    + by rewrite <-(ad_gid _ _ _ _ H1), <-(ad_gid _ _ _ _ H2).
    + by rewrite <-(ad_pid _ _ _ _ H1), <-(ad_pid _ _ _ _ H2).
    + left. rewrite Hs in *. lia.
    + right. rewrite Hs in *. lia.
  - rewrite Hs in *.
    destruct (page_slots_disjoint (CacheFieldLayout.page_stride_bytes f2) 0 page1 page2);
      [lia|done|left; lia|right; lia].
Qed.

(** ** Binding *)

Definition bound_group (n : Z) (entry : string * Z) : CacheGroupLayout.t :=
  {| CacheGroupLayout.group_id := entry.1;
     CacheGroupLayout.cache_blocks_per_lcm_block := entry.2;
     CacheGroupLayout.page_count := 1 + n * entry.2 |}.

Lemma bind_groups_Ok n packing groups :
  mapM (CacheLayout.bind_group n) packing = Ok groups ↔
  groups = bound_group n <$> packing ∧ Forall (λ e, n * e.2 ≤ _MAX_KERNEL_PAGE_ID) packing.
Proof.
  revert groups. induction packing as [|[gid count] packing IH]; intros groups.
  - cbn. split; [intros [= <-]; auto|]. intros [-> _]. done.
  - cbn [mapM CacheLayout.bind_group]. rewrite Forall_cons, fmap_cons. split.
    + intros H. inv_ok. apply IH in Hr0 as [-> Hall]. split; [done|]. split; [cbn; lia|done].
    + intros [-> [Hle Hall]]. cbn in Hle. rewrite (proj2 (Z.ltb_ge _ _)) by lia. cbn.
      rewrite (proj2 (IH _)) by (split; [reflexivity|done]). done.
Qed.

Lemma bind_ids n packing :
  CacheGroupLayout.group_id <$> (bound_group n <$> packing) = packing.*1.
Proof. by rewrite <-list_fmap_compose. Qed.

Lemma place_planes_spec n off pb :
  CachePlaneLayout.plane_id <$> CacheLayout.place_planes n off pb = pb.*1 ∧
  CachePlaneLayout.bytes_per_lcm_block <$> CacheLayout.place_planes n off pb = pb.*2 ∧
  planes_from (n + 1) off (CacheLayout.place_planes n off pb) ∧
  (∀ id b, (id, b) ∈ pb → ∃ p, p ∈ CacheLayout.place_planes n off pb ∧
     CachePlaneLayout.plane_id p = id ∧ CachePlaneLayout.bytes_per_lcm_block p = b).
Proof.
  revert off. induction pb as [|[id b] pb IH]; intros off; cbn [CacheLayout.place_planes].
  - split_and!; try done. set_solver.
  - destruct (IH (off + (n + 1) * b)) as (H1 & H2 & H3 & H4). rewrite !fmap_cons, H1, H2.
    split_and!; try done. intros id' b' [[= -> ->]|Hin]%elem_of_cons.
    + eexists. split; [constructor|]. done.
    + destruct (H4 _ _ Hin) as (p & Hp & ? & ?). exists p. split; [by constructor|done].
Qed.

Lemma bind_wf L n P : layout_wf L → CacheLayout.bind L n = Ok P → plan_wf P.
Proof.
  intros Hw H. unfold CacheLayout.bind in H. inv_ok. apply bind_groups_Ok in Hr0 as [-> Hmax].
  destruct (place_planes_spec n 0 (CacheLayout.plane_bytes L)) as (Hids & Hbytes & Hfrom & Hin).
  split; cbn; rewrite ?bind_ids, ?Hids, ?Hbytes; try apply Hw; try done; [lia|..].
  - intros g (e & -> & _)%list_elem_of_fmap. done.
  - rewrite <-(Forall_fmap CachePlaneLayout.bytes_per_lcm_block (λ b, 0 < b)), Hbytes, Forall_fmap.
    apply Hw.
  - intros f Hf. destruct (lw_fields L Hw f Hf) as (k & b & Hk & Hb & Hfw).
    destruct (Hin _ _ Hb) as (p & Hp & Hpid & Hpb).
    exists (bound_group n (CacheFieldLayout.group_id f, k)), p. cbn. rewrite Hpb.
    split_and!; try done. apply list_elem_of_fmap. eauto.
Qed.

Lemma bind_Ok_iff L n :
  (∃ P, CacheLayout.bind L n = Ok P) ↔
  1 ≤ n ∧ Forall (λ e, n * e.2 ≤ _MAX_KERNEL_PAGE_ID) (CacheLayout.group_packing L).
Proof.
  unfold CacheLayout.bind. split.
  - intros [P H]. inv_ok. apply bind_groups_Ok in Hr0 as [_ ?]. split; [lia|done].
  - intros [Hn Hall]. rewrite (proj2 (Z.ltb_ge n 1)) by lia. cbn.
    rewrite (proj2 (bind_groups_Ok n _ _)) by (split; [reflexivity|done]). cbn. eauto.
Qed.

(** ** Narrowing *)

Lemma repack_ids n kept off planes :
  CachePlaneLayout.plane_id <$> CacheMemoryPlan.repack n kept off planes =
  filter (λ id, id ∈ kept) (CachePlaneLayout.plane_id <$> planes).
Proof.
  revert off. induction planes as [|p planes IH]; intros off; [done|].
  cbn [CacheMemoryPlan.repack]. rewrite fmap_cons, filter_cons. unfold py_in.
  case_bool_decide; case_decide; try done. by rewrite fmap_cons, IH.
Qed.

Lemma repack_from n kept off planes :
  planes_from (n + 1) off (CacheMemoryPlan.repack n kept off planes).
Proof.
  revert off. induction planes as [|p planes IH]; intros off; cbn; [done|].
  case_match; [|done]. cbn. split; [done|]. apply IH.
Qed.

Lemma repack_elem n kept off planes q :
  q ∈ CacheMemoryPlan.repack n kept off planes →
  ∃ p, p ∈ planes ∧ CachePlaneLayout.plane_id q = CachePlaneLayout.plane_id p ∧
       CachePlaneLayout.bytes_per_lcm_block q = CachePlaneLayout.bytes_per_lcm_block p.
Proof.
  revert off. induction planes as [|p planes IH]; intros off; cbn; [set_solver|].
  case_match; [intros [->|Hq]%elem_of_cons|intros Hq].
  - exists p. split; [constructor|done].
  - destruct (IH _ Hq) as (p' & ? & ?). exists p'. split; [by constructor|done].
  - destruct (IH _ Hq) as (p' & ? & ?). exists p'. split; [by constructor|done].
Qed.

Lemma repack_kept n kept off planes p :
  p ∈ planes → CachePlaneLayout.plane_id p ∈ kept →
  ∃ q, q ∈ CacheMemoryPlan.repack n kept off planes ∧
       CachePlaneLayout.plane_id q = CachePlaneLayout.plane_id p ∧
       CachePlaneLayout.bytes_per_lcm_block q = CachePlaneLayout.bytes_per_lcm_block p.
Proof.
  intros Hp Hk. revert off. induction planes as [|p' planes IH]; intros off; [set_solver|].
  cbn. apply elem_of_cons in Hp as [<-|Hp].
  - rewrite (proj2 (py_in_true _ _) Hk). eexists. split; [constructor|done].
  - case_match; [|by apply IH].
    edestruct (IH Hp) as (q & Hq & ?). exists q. split; [by constructor|done].
Qed.

Lemma repack_sum n kept off planes :
  Forall (λ p, 0 < CachePlaneLayout.bytes_per_lcm_block p) planes →
  sumZ (CachePlaneLayout.bytes_per_lcm_block <$> CacheMemoryPlan.repack n kept off planes) ≤
  sumZ (CachePlaneLayout.bytes_per_lcm_block <$> planes).
Proof.
  intros Hpos. revert off. induction Hpos as [|p planes Hp Hpos IH]; intros off; [done|].
  cbn [CacheMemoryPlan.repack]. rewrite (fmap_cons _ p), sumZ_cons.
  case_match.
  - rewrite fmap_cons, sumZ_cons. cbn [CachePlaneLayout.bytes_per_lcm_block].
    apply Zplus_le_compat_l, IH.
  - specialize (IH off). lia.
Qed.

Lemma narrow_wf P a b : plan_wf P → plan_wf (CacheMemoryPlan.narrow_to_layers P a b).
Proof.
  intros Hw. unfold CacheMemoryPlan.narrow_to_layers.
  set (kept := filter _ (CacheMemoryPlan.fields P)).
  assert (Hsub : ∀ f, f ∈ kept → f ∈ CacheMemoryPlan.fields P)
    by (intros f Hf; by apply list_elem_of_filter in Hf as [_ ?]).
  split; cbn; try apply Hw.
  - rewrite repack_ids. apply NoDup_filter, Hw.
  - apply Forall_forall. intros q (p & Hp & _ & ->)%repack_elem.
    by apply (proj1 (Forall_forall _ _) (pw_plane_pos P Hw) p).
  - apply repack_from.
  - eapply sublist_NoDup; [apply (pw_ids P Hw)|]. apply fmap_sublist, sublist_filter.
  - intros f Hf. destruct (pw_fields P Hw f (Hsub f Hf)) as (g & p & Hg & Hp & ? & Hpid & Hfw).
    destruct (repack_kept (CacheMemoryPlan.num_lcm_blocks P) (CacheFieldLayout.plane_id <$> kept) 0
      (CacheMemoryPlan.planes P) p) as (q & Hq & Hqid & Hqb); [done| |].
    { rewrite Hpid. by apply list_elem_of_fmap_2. }
    exists g, q. rewrite Hqid, Hqb. done.
  - intros f g Hf Hg. apply (pw_apart P Hw); auto.
  - done.
Qed.

(** ** Block segments *)

Definition group_fields_of (P : CacheMemoryPlan.t) (group_id : string) :
    list CacheFieldLayout.t :=
  filter (λ f, CacheFieldLayout.group_id f = group_id) (CacheMemoryPlan.fields P).

Definition base_of (P : CacheMemoryPlan.t) (f : CacheFieldLayout.t) : Z :=
  match CacheMemoryPlan.field_page_byte_offset P (CacheFieldLayout.field_id f) 0 with
  | Ok o => o | Raise _ => 0 end.

Definition geometry_of (P : CacheMemoryPlan.t) (group_id : string) : list (Z * Z * Z) :=
  (λ f, (base_of P f, CacheFieldLayout.page_stride_bytes f, CacheFieldLayout.payload_bytes f))
    <$> group_fields_of P group_id.

(** The reference: resolve every page of every field through its own lookup. *)
Definition segments_by_page (P : CacheMemoryPlan.t) (group_id : string) (block_ids : list Z) :
    result (list (Z * Z)) :=
  mapM (λ bf : Z * CacheFieldLayout.t,
      o ← CacheMemoryPlan.field_page_byte_offset P (CacheFieldLayout.field_id bf.2) bf.1;
      Ok (o, CacheFieldLayout.payload_bytes bf.2))
    (concat ((λ b, (λ f, (b, f)) <$> group_fields_of P group_id) <$> block_ids)).

Lemma offset_from_base P f g p :
  plan_wf P → addressed P f g p →
  ∀ page, 0 ≤ page < CacheGroupLayout.page_count g →
    CacheMemoryPlan.field_page_byte_offset P (CacheFieldLayout.field_id f) page =
      Ok (base_of P f + page * CacheFieldLayout.page_stride_bytes f).
Proof.
  intros Hw Ha page Hp. unfold base_of. rewrite !(ad_offset _ _ _ _ Ha).
  rewrite !decide_True by lia. f_equal. lia.
Qed.

Lemma page_count_pos P f g p :
  plan_wf P → addressed P f g p → 1 < CacheGroupLayout.page_count g.
Proof.
  intros Hw Ha. rewrite (pw_pages P Hw) by apply Ha. pose proof (pw_blocks P Hw).
  destruct (ad_wf _ _ _ _ Ha). nia.
Qed.

Lemma block_layout_entry_Ok P g :
  plan_wf P → g ∈ CacheMemoryPlan.groups P →
  CacheMemoryPlan.block_layout_entry P g =
    Ok (CacheGroupLayout.group_id g,
        (CacheGroupLayout.page_count g, geometry_of P (CacheGroupLayout.group_id g))).
Proof.
  intros Hw Hg. unfold CacheMemoryPlan.block_layout_entry.
  fold (group_fields_of P (CacheGroupLayout.group_id g)).
  rewrite (proj2 (mapM_Ok _ _ (geometry_of P (CacheGroupLayout.group_id g)))); [done|].
  unfold geometry_of. apply Forall2_fmap_r, Forall_Forall2_diag, Forall_forall.
  intros f [_ Hf]%list_elem_of_filter. destruct (field_addressed P f Hw Hf) as (g' & p & Ha).
  pose proof (page_count_pos P f g' p Hw Ha).
  rewrite (offset_from_base P f g' p Hw Ha 0) by lia. cbn. do 3 f_equal. lia.
Qed.

Lemma page_field_layout_Ok P g :
  plan_wf P → g ∈ CacheMemoryPlan.groups P →
  CacheMemoryPlan.page_field_layout P (CacheGroupLayout.group_id g) =
    Ok (CacheGroupLayout.page_count g, geometry_of P (CacheGroupLayout.group_id g)).
Proof.
  intros Hw Hg. unfold CacheMemoryPlan.page_field_layout, CacheMemoryPlan._block_byte_layouts.
  pose (entry g := (CacheGroupLayout.group_id g,
    (CacheGroupLayout.page_count g, geometry_of P (CacheGroupLayout.group_id g)))).
  rewrite (proj2 (mapM_Ok _ _ (entry <$> CacheMemoryPlan.groups P))).
  2: { apply Forall2_fmap_r, Forall_Forall2_diag, Forall_forall. intros g' Hg'.
       by apply block_layout_entry_Ok. }
  cbn. apply lookup_or_Ok.
  assert ((entry <$> CacheMemoryPlan.groups P).*1 =
    CacheGroupLayout.group_id <$> CacheMemoryPlan.groups P) as Hk
    by (by rewrite <-list_fmap_compose).
  rewrite dict_get_of by (rewrite Hk; apply Hw).
  apply elem_of_dict_get; [rewrite Hk; apply Hw|]. apply list_elem_of_fmap. by exists g.
Qed.

Lemma check_block_ids_Ok n ids :
  CacheMemoryPlan.check_block_ids n ids =
    if decide (Forall (λ b, 0 ≤ b < n) ids) then Ok ()
    else Raise (IndexError "page_id outside the group").
Proof.
  unfold CacheMemoryPlan.check_block_ids. induction ids as [|b ids IH]; [done|]. cbn [foldM].
  destruct (_ || _) eqn:Hb; cbn [raise_when mbind result_bind].
  - rewrite decide_False; [done|]. intros [? _]%Forall_cons. lia.
  - rewrite IH. destruct (decide (Forall _ ids)) as [Hf|Hf].
    + rewrite decide_True; [done|]. constructor; [lia|done].
    + rewrite decide_False; [done|]. by intros [_ ?]%Forall_cons.
Qed.

Lemma segments_by_page_Ok P g block_ids :
  plan_wf P → g ∈ CacheMemoryPlan.groups P →
  Forall (λ b, 0 ≤ b < CacheGroupLayout.page_count g) block_ids →
  segments_by_page P (CacheGroupLayout.group_id g) block_ids =
    Ok (CacheMemoryPlan.segments_of (geometry_of P (CacheGroupLayout.group_id g)) block_ids).
Proof.
  intros Hw Hg Hb. apply mapM_Ok. unfold CacheMemoryPlan.segments_of, geometry_of.
  induction Hb as [|b ids Hb _ IH]; [constructor|]. rewrite !fmap_cons. cbn [concat].
  apply Forall2_app; [|exact IH]. rewrite <-list_fmap_compose.
  apply Forall2_fmap_l, Forall2_fmap_r, Forall_Forall2_diag, Forall_forall.
  intros f [Hgid Hf]%list_elem_of_filter. destruct (field_addressed P f Hw Hf) as (g' & p & Ha).
  assert (g' = g) as ->.
  { pose proof (plan_group P g Hw Hg) as E1.
    pose proof (plan_group P g' Hw (ad_group _ _ _ _ Ha)) as E2.
    rewrite (ad_gid _ _ _ _ Ha), Hgid in E2. congruence. }
  cbn. by rewrite (offset_from_base P f g p Hw Ha b Hb).
Qed.

(** ** Properties *)

(** The parent of a page of a field. *)
Definition page_parent (P : CacheMemoryPlan.t) (f : CacheFieldLayout.t) (page_id : Z) : Z :=
  match CacheMemoryPlan.group P (CacheFieldLayout.group_id f) with
  | Ok g => parent_of (CacheGroupLayout.cache_blocks_per_lcm_block g) page_id
  | Raise _ => 0
  end.

Lemma page_parent_addressed P f g p page :
  plan_wf P → addressed P f g p →
  page_parent P f page = parent_of (CacheGroupLayout.cache_blocks_per_lcm_block g) page.
Proof.
  intros Hw Ha. unfold page_parent. rewrite <-(ad_gid _ _ _ _ Ha), plan_group; [done..|apply Ha].
Qed.

(** Two different pages share bytes only when they lie in one plane and one
    parent and belong to different groups. *)
Lemma pages_disjoint P f1 f2 page1 page2 o1 o2 :
  plan_wf P → f1 ∈ CacheMemoryPlan.fields P → f2 ∈ CacheMemoryPlan.fields P →
  (f1, page1) ≠ (f2, page2) →
  (CacheFieldLayout.group_id f1 = CacheFieldLayout.group_id f2 ∨
   page_parent P f1 page1 ≠ page_parent P f2 page2) →
  CacheMemoryPlan.field_page_byte_offset P (CacheFieldLayout.field_id f1) page1 = Ok o1 →
  CacheMemoryPlan.field_page_byte_offset P (CacheFieldLayout.field_id f2) page2 = Ok o2 →
  disjoint_ranges o1 (CacheFieldLayout.payload_bytes f1) o2 (CacheFieldLayout.payload_bytes f2).
Proof.
  intros Hw Hf1 Hf2 Hne Hpar Ho1 Ho2.
  destruct (field_addressed P f1 Hw Hf1) as (g1 & p1 & H1).
  destruct (field_addressed P f2 Hw Hf2) as (g2 & p2 & H2).
  destruct (decide (CacheFieldLayout.plane_id f1 = CacheFieldLayout.plane_id f2)) as [Hpl|Hpl];
    [|by eapply disjoint_other_plane].
  assert (p1 = p2) as <- by (by eapply addressed_same_plane).
  destruct Hpar as [Hg|Hpar].
  - assert (g1 = g2) as <- by (by eapply addressed_same_group).
    by eapply (disjoint_same_group P f1 f2 g1 p1 page1 page2).
  - rewrite (page_parent_addressed P f1 g1 p1), (page_parent_addressed P f2 g2 p1) in Hpar by done.
    by eapply disjoint_other_parent.
Qed.

(** A small layout for the witnesses: groups [a] and [b] share plane [kv], one
    parent holding two blocks of [a] or one of [b]. *)
Definition example_field (group_id field_id plane_id : string) (extent offset stride : Z) :
    CacheFieldLayout.t :=
  {| CacheFieldLayout.group_id := group_id; CacheFieldLayout.field_id := field_id;
     CacheFieldLayout.plane_id := plane_id; CacheFieldLayout.shape := [extent];
     CacheFieldLayout.dtype := "bfloat16"; CacheFieldLayout.field_offset_bytes := offset;
     CacheFieldLayout.page_stride_bytes := stride |}.

Definition example_layout : CacheLayout.t :=
  {| CacheLayout.prefix_granularity := 16; CacheLayout.lcm_block_bytes := 80;
     CacheLayout.group_packing := [("a", 2); ("b", 1)];
     CacheLayout.plane_bytes := [("kv", 64); ("s", 16)];
     CacheLayout.fields :=
       [ example_field "a" "layer.0.k" "kv" 16 0 32; example_field "b" "layer.1.k" "kv" 32 0 64;
         example_field "a" "layer.0.s" "s" 2 0 8; example_field "a" "layer.0.t" "s" 2 4 8 ] |}.

Lemma example_layout_wf : layout_wf example_layout.
Proof.
  split; cbn -[Z.lt Z.le].
  - repeat (apply NoDup_cons; split; [set_solver|]). constructor.
  - repeat (apply NoDup_cons; split; [set_solver|]). constructor.
  - repeat constructor.
  - repeat (apply NoDup_cons; split; [set_solver|]). constructor.
  - intros f Hf. repeat (apply elem_of_cons in Hf as [->|Hf]); [..|set_solver];
      (eexists _, _; split_and!; [by repeat constructor|by repeat constructor|]; split; vm_compute; done).
  - intros f g Hf Hg. repeat (apply elem_of_cons in Hf as [->|Hf]); [..|set_solver];
      repeat (apply elem_of_cons in Hg as [->|Hg]); try (by set_solver);
      intros Hne; cbn; intros ??; try done; first [by left; vm_compute|by right; vm_compute].
  - done.
Qed.

(** C24: The arena keeps pages apart.  In a well-formed plan, two different
    pages of two fields share no byte, unless they belong to different groups
    and lie in the same parent -- and the scheduler hands a parent to one group
    at a time. *)
Theorem field_pages_disjoint P f1 f2 page1 page2 o1 o2 :
  plan_wf P → f1 ∈ CacheMemoryPlan.fields P → f2 ∈ CacheMemoryPlan.fields P →
  (f1, page1) ≠ (f2, page2) →
  (CacheFieldLayout.group_id f1 = CacheFieldLayout.group_id f2 ∨
   page_parent P f1 page1 ≠ page_parent P f2 page2) →
  CacheMemoryPlan.field_page_byte_offset P (CacheFieldLayout.field_id f1) page1 = Ok o1 →
  CacheMemoryPlan.field_page_byte_offset P (CacheFieldLayout.field_id f2) page2 = Ok o2 →
  disjoint_ranges o1 (CacheFieldLayout.payload_bytes f1) o2 (CacheFieldLayout.payload_bytes f2).
Proof. apply pages_disjoint. Qed.

Lemma field_pages_disjoint_witness :
  ∃ P, CacheLayout.bind example_layout 4 = Ok P ∧
    ∃ o1 o2,
      CacheMemoryPlan.field_page_byte_offset P "layer.0.k" 3 = Ok o1 ∧
      CacheMemoryPlan.field_page_byte_offset P "layer.1.k" 3 = Ok o2 ∧
      disjoint_ranges o1 32 o2 64.
Proof.
  destruct (CacheLayout.bind example_layout 4) as [P|] eqn:HP; [|vm_compute in HP; discriminate HP].
  exists P. split; [reflexivity|]. pose proof (bind_wf _ _ _ example_layout_wf HP) as Hw.
  vm_compute in HP. apply Ok_inj in HP. subst P. eexists _, _.
  split; [vm_compute; reflexivity|]. split; [vm_compute; reflexivity|].
  apply (field_pages_disjoint _ (example_field "a" "layer.0.k" "kv" 16 0 32)
    (example_field "b" "layer.1.k" "kv" 32 0 64) 3 3 _ _ Hw);
    [set_solver|set_solver|discriminate|right; vm_compute; discriminate
    |vm_compute; reflexivity|vm_compute; reflexivity].
Defined.

(** Every page address is inside its parent and inside the arena: a page
    of a planned field, and the null page 0, resolves to an offset whose payload
    ends within the bytes of its parent in its plane, which lie within the
    arena; a page identifier out of range raises [IndexError]. *)
Theorem field_page_in_arena P f page :
  plan_wf P → f ∈ CacheMemoryPlan.fields P →
  ∃ g p, g ∈ CacheMemoryPlan.groups P ∧ p ∈ CacheMemoryPlan.planes P ∧
    CacheGroupLayout.group_id g = CacheFieldLayout.group_id f ∧
    CachePlaneLayout.plane_id p = CacheFieldLayout.plane_id f ∧
    if decide (0 ≤ page < CacheGroupLayout.page_count g) then
      ∃ o, CacheMemoryPlan.field_page_byte_offset P (CacheFieldLayout.field_id f) page = Ok o ∧
        let parent := page_parent P f page in
        let b := CachePlaneLayout.bytes_per_lcm_block p in
        0 ≤ parent ≤ CacheMemoryPlan.num_lcm_blocks P ∧
        CachePlaneLayout.arena_offset_bytes p + parent * b ≤ o ∧
        o + CacheFieldLayout.payload_bytes f
          ≤ CachePlaneLayout.arena_offset_bytes p + (parent + 1) * b ∧
        0 ≤ o ∧ o + CacheFieldLayout.payload_bytes f ≤ CacheMemoryPlan.arena_bytes P
    else CacheMemoryPlan.field_page_byte_offset P (CacheFieldLayout.field_id f) page =
           Raise (IndexError "page_id outside the group").
Proof.
  intros Hw Hf. destruct (field_addressed P f Hw Hf) as (g & p & Ha). exists g, p.
  split_and!; [apply Ha..|]. case_decide as Hb.
  2: { by rewrite (ad_offset _ _ _ _ Ha), decide_False. }
  rewrite (offset_from_base P f g p Hw Ha page Hb). eexists. split; [done|].
  pose proof (offset_from_base P f g p Hw Ha page Hb) as Ho.
  destruct (addressed_in_parent _ _ _ _ _ _ Ha Ho) as (_ & Hlo & Hhi).
  pose proof (addressed_parent_bounds _ _ _ _ _ Hw Ha Hb) as Hpar.
  rewrite <-(page_parent_addressed P f g p page Hw Ha) in *. cbn zeta in *.
  pose proof (field_wf_plane_pos _ _ _ (ad_wf _ _ _ _ Ha)) as Hbp.
  destruct (planes_from_bounds (CacheMemoryPlan.num_lcm_blocks P + 1) 0
    (CacheMemoryPlan.planes P) p) as [Hoff Hend];
    [pose proof (pw_blocks P Hw); lia|apply Hw|apply Hw|apply Ha|].
  pose proof (pw_room P Hw) as Hroom. unfold CacheMemoryPlan.arena_bytes. split_and!; nia.
Qed.

Lemma field_page_in_arena_witness :
  ∃ P, CacheLayout.bind example_layout 4 = Ok P ∧
    ∃ o, CacheMemoryPlan.field_page_byte_offset P "layer.0.t" 8 = Ok o ∧ o + 4 ≤ 400.
Proof.
  destruct (CacheLayout.bind example_layout 4) as [P|] eqn:HP; [|vm_compute in HP; discriminate HP].
  exists P. split; [reflexivity|]. pose proof (bind_wf _ _ _ example_layout_wf HP) as Hw.
  vm_compute in HP. apply Ok_inj in HP. subst P.
  destruct (field_page_in_arena _ (example_field "a" "layer.0.t" "s" 2 4 8) 8 Hw)
    as (g & p & Hg & _ & Hid & _ & H); [set_solver|].
  assert (CacheGroupLayout.page_count g = 9) as Hc.
  { repeat (apply elem_of_cons in Hg as [->|Hg]); [reflexivity|discriminate Hid|set_solver]. }
  rewrite decide_True in H by lia. destruct H as (o & Ho & _ & _ & _ & _ & Hend).
  exists o. split; [exact Ho|]. exact Hend.
Defined.

(** C26: The batched block segments are the per-page addresses: for block
    identifiers in range, the precomputed bases and strides give the offset and
    size that resolving each page of each field would, in the same order; any
    identifier out of range raises [IndexError]. *)
Theorem block_byte_segments_equiv P g block_ids :
  plan_wf P → g ∈ CacheMemoryPlan.groups P →
  let gid := CacheGroupLayout.group_id g in
  if decide (Forall (λ b, 0 ≤ b < CacheGroupLayout.page_count g) block_ids) then
    ∃ segments, CacheMemoryPlan.block_byte_segments P gid block_ids = Ok segments ∧
                segments_by_page P gid block_ids = Ok segments
  else CacheMemoryPlan.block_byte_segments P gid block_ids =
         Raise (IndexError "page_id outside the group").
Proof.
  intros Hw Hg. cbn zeta. unfold CacheMemoryPlan.block_byte_segments.
  rewrite (page_field_layout_Ok P g) by done. cbn. rewrite check_block_ids_Ok.
  case_decide as Hb; [|done]. eexists. split; [done|]. by apply segments_by_page_Ok.
Qed.

Lemma block_byte_segments_equiv_witness :
  ∃ P, CacheLayout.bind example_layout 4 = Ok P ∧
    ∃ segments, CacheMemoryPlan.block_byte_segments P "a" [3; 0; 8] = Ok segments ∧
      segments_by_page P "a" [3; 0; 8] = Ok segments.
Proof.
  destruct (CacheLayout.bind example_layout 4) as [P|] eqn:HP; [|vm_compute in HP; discriminate HP].
  exists P. split; [reflexivity|]. pose proof (bind_wf _ _ _ example_layout_wf HP) as Hw.
  vm_compute in HP. apply Ok_inj in HP. subst P.
  pose proof (block_byte_segments_equiv _ (bound_group 4 ("a", 2)) [3; 0; 8] Hw) as H.
  cbn zeta in H. rewrite decide_True in H by (repeat constructor; cbn; lia).
  apply H. constructor.
Defined.

(** C25: Narrowing a plan to a layer window drops memory and nothing else.  The
    scheduler-visible geometry (groups, parents, bytes of a parent, prefix
    granularity) is unchanged; the resident bytes are those of the planes kept;
    the fields kept are exactly those
    of the window's layers; every kept plane holds one of them; the arena does
    not grow; the result is well formed, so its pages stay apart; and every page
    keeps its place relative to its plane. *)
Theorem narrow_keeps_geometry P a b :
  plan_wf P →
  let N := CacheMemoryPlan.narrow_to_layers P a b in
  plan_wf N ∧
  CacheMemoryPlan.groups N = CacheMemoryPlan.groups P ∧
  CacheMemoryPlan.num_lcm_blocks N = CacheMemoryPlan.num_lcm_blocks P ∧
  CacheMemoryPlan.lcm_block_bytes N = CacheMemoryPlan.lcm_block_bytes P ∧
  CacheMemoryPlan.prefix_granularity N = CacheMemoryPlan.prefix_granularity P ∧
  CacheMemoryPlan.resident_block_bytes N = Some (sumZ (CachePlaneLayout.bytes_per_lcm_block <$> CacheMemoryPlan.planes N)) ∧
  CacheMemoryPlan.arena_bytes N ≤ CacheMemoryPlan.arena_bytes P ∧
  (∀ f, f ∈ CacheMemoryPlan.fields N ↔
        f ∈ CacheMemoryPlan.fields P ∧ CacheMemoryPlan.owned a b f = true) ∧
  (∀ q, q ∈ CacheMemoryPlan.planes N → ∃ f, f ∈ CacheMemoryPlan.fields N ∧
        CacheFieldLayout.plane_id f = CachePlaneLayout.plane_id q) ∧
  (∀ f, f ∈ CacheMemoryPlan.fields N → ∃ p q,
     CacheMemoryPlan.plane P (CacheFieldLayout.plane_id f) = Ok p ∧
     CacheMemoryPlan.plane N (CacheFieldLayout.plane_id f) = Ok q ∧
     ∀ page, match CacheMemoryPlan.field_page_byte_offset P (CacheFieldLayout.field_id f) page with
       | Ok o => CacheMemoryPlan.field_page_byte_offset N (CacheFieldLayout.field_id f) page =
           Ok (o - CachePlaneLayout.arena_offset_bytes p + CachePlaneLayout.arena_offset_bytes q)
       | Raise e => CacheMemoryPlan.field_page_byte_offset N (CacheFieldLayout.field_id f) page =
           Raise e
       end).
Proof.
  intros Hw N. pose proof (narrow_wf P a b Hw) as HN. fold N in HN.
  assert (Hfields : ∀ f, f ∈ CacheMemoryPlan.fields N ↔
    f ∈ CacheMemoryPlan.fields P ∧ CacheMemoryPlan.owned a b f = true).
  { intros f. unfold N; cbn. rewrite list_elem_of_filter. tauto. }
  split_and!; try done.
  - unfold CacheMemoryPlan.arena_bytes. cbn.
    pose proof (repack_sum (CacheMemoryPlan.num_lcm_blocks P)
      (CacheFieldLayout.plane_id <$> CacheMemoryPlan.fields N) 0 _ (pw_plane_pos P Hw)) as Hs.
    pose proof (pw_room P Hw). pose proof (pw_blocks P Hw). unfold N in Hs; cbn in Hs. nia.
  - intros q Hq. assert (CachePlaneLayout.plane_id q ∈
      CachePlaneLayout.plane_id <$> CacheMemoryPlan.planes N) as Hid by (by apply list_elem_of_fmap_2).
    unfold N in Hid; cbn in Hid. rewrite repack_ids in Hid.
    apply list_elem_of_filter in Hid as [(f & Hf & Hin)%list_elem_of_fmap _]. eauto.
  - intros f Hf. destruct (field_addressed N f HN Hf) as (g' & q & Hq).
    apply Hfields in Hf as [Hf _]. destruct (field_addressed P f Hw Hf) as (g & p & Hp).
    exists p, q. split_and!.
    + rewrite <-(ad_pid _ _ _ _ Hp). apply plan_plane; [done|apply Hp].
    + rewrite <-(ad_pid _ _ _ _ Hq). apply plan_plane; [done|apply Hq].
    + assert (g' = g) as ->.
      { pose proof (plan_group N g' HN (ad_group _ _ _ _ Hq)) as E1.
        pose proof (plan_group P g Hw (ad_group _ _ _ _ Hp)) as E2.
        rewrite (ad_gid _ _ _ _ Hq), <-(ad_gid _ _ _ _ Hp) in E1.
        change (CacheMemoryPlan.group N) with (CacheMemoryPlan.group P) in E1. congruence. }
      pose proof (fw_stride _ _ _ (ad_wf _ _ _ _ Hp)). pose proof (fw_stride _ _ _ (ad_wf _ _ _ _ Hq)).
      intros page. rewrite (ad_offset _ _ _ _ Hp), (ad_offset _ _ _ _ Hq).
      case_decide; [|done]. f_equal. lia.
Qed.

Lemma narrow_keeps_geometry_witness :
  ∃ P, CacheLayout.bind example_layout 4 = Ok P ∧
    CacheMemoryPlan.arena_bytes (CacheMemoryPlan.narrow_to_layers P 1 2) ≤ 400.
Proof.
  destruct (CacheLayout.bind example_layout 4) as [P|] eqn:HP; [|vm_compute in HP; discriminate HP].
  exists P. split; [reflexivity|]. pose proof (bind_wf _ _ _ example_layout_wf HP) as Hw.
  vm_compute in HP. apply Ok_inj in HP.
  destruct (narrow_keeps_geometry P 1 2 Hw) as (_ & _ & _ & _ & _ & _ & H & _).
  subst P. exact H.
Defined.

(** Binding a well-formed layout succeeds exactly for a positive number of
    parents whose page identifiers fit the kernels' 31 bits, and then gives a
    well-formed plan with one group per packing entry. *)
Theorem bind_outcome L n :
  layout_wf L →
  if decide (1 ≤ n ∧ Forall (λ e, n * e.2 ≤ _MAX_KERNEL_PAGE_ID) (CacheLayout.group_packing L))
  then ∃ P, CacheLayout.bind L n = Ok P ∧ plan_wf P ∧
    CacheGroupLayout.group_id <$> CacheMemoryPlan.groups P = (CacheLayout.group_packing L).*1 ∧
    CacheMemoryPlan.arena_bytes P = (n + 1) * CacheLayout.lcm_block_bytes L
  else ∃ msg, CacheLayout.bind L n = Raise (ValueError msg).
Proof.
  intros Hw. case_decide as Hc.
  - destruct (proj2 (bind_Ok_iff L n) Hc) as [P HP]. exists P. split; [done|].
    split; [by eapply bind_wf|]. unfold CacheLayout.bind in HP. inv_ok.
    apply bind_groups_Ok in Hr0 as [-> _]. cbn. by rewrite bind_ids.
  - destruct (CacheLayout.bind L n) as [P|e] eqn:HP.
    { destruct Hc. apply bind_Ok_iff. eauto. }
    clear Hc. unfold CacheLayout.bind in HP. apply bind_Raise in HP as [HP|([] & _ & HP)].
    { destruct (n <? 1); [|done]. injection HP as <-. eauto. }
    apply bind_Raise in HP as [HP|(gs & _ & HP)]; [|done]. clear Hw.
    induction (CacheLayout.group_packing L) as [|[gid k] packing IH]; [done|].
    cbn in HP. destruct (_ <? n * k); cbn in HP; [injection HP as <-; eauto|].
    apply bind_Raise in HP as [HP|(gs & _ & HP)]; [auto|done].
Qed.

Lemma bind_outcome_witness :
  ∃ P, CacheLayout.bind example_layout 4 = Ok P ∧ CacheMemoryPlan.arena_bytes P = 400.
Proof.
  pose proof (bind_outcome example_layout 4 example_layout_wf) as H.
  rewrite decide_True in H by (split; [lia|repeat constructor; vm_compute; discriminate]).
  destruct H as (P & HP & _ & _ & Ha). exists P. split; [exact HP|]. exact Ha.
Defined.
