(* ===== verification/CachePack.v ===== *)
(** * The cache packer: [pack] of [kv_cache/recipes/plan.py]

    Packs the declared fields of every cache group into the byte geometry of
    one LCM block: how many blocks of each group share a parent, the bytes of
    each plane, and the offset and page stride of each field.  The steps of the
    Python function are separate definitions here, in its order.

    A set is a list read only through membership, length or [sorted].  Every
    divisor ([alignment], element sizes, packing counts) is positive where the
    code divides, so [//] needs no error branch; the theorems show the counts
    are.  [max_padding_fraction] is a binary64 number. *)

From S2P Require Import Prelude PyDict PyString PyFloat CacheFields CacheSpec CachePlan.
From Stdlib Require Import SpecFloat.

Local Open Scope Z_scope.

Definition entry : Type := string * CacheFieldSpec.t.

Definition dict_index {K V} `{EqDecision K} (d : list (K * V)) (k : K) : result V :=
  lookup_or (KeyError "key") (dict_get d k).

Definition _align_up (value alignment : Z) : Z := align_up value alignment.

(** ** Deriving the packing *)

(** The weighted union-find of [_solve_packing]: [root[g]] and [ratio[g]], with
    the count of [g] being [num / den] times the count of its root. *)
Record forest := {
  root : list (string * string);
  ratio : list (string * (Z * Z));
}.

(** [resolve]: [None] means the fuel ran out. *)
Fixpoint resolve_from (fuel : nat) (fr : forest) (group_id : string) (num den : Z) :
    option (string * (Z * Z)) :=
  match fuel with
  | O => None
  | S fuel =>
      parent ← dict_get (root fr) group_id;
      if decide (parent = group_id) then Some (group_id, (num, den))
      else
        r ← dict_get (ratio fr) group_id;
        resolve_from fuel fr parent (num * r.1) (den * r.2)
  end.

Definition resolve (fr : forest) (group_id : string) : option (string * (Z * Z)) :=
  resolve_from (length (root fr)) fr group_id 1 1.

(** What one constraint does to the forest: keep it, contradict it, extend it. *)
Inductive link_outcome :=
  | linked (fr : forest)
  | conflict
  | diverged.

Definition link (fr : forest) (first other : string * Z) : link_outcome :=
  match resolve fr first.1, resolve fr other.1 with
  | Some (first_root, (f_num, f_den)), Some (other_root, (o_num, o_den)) =>
      if decide (first_root = other_root) then
        if f_num * o_den * first.2 =? o_num * f_den * other.2 then linked fr else conflict
      else
        let num := f_num * o_den * first.2 in
        let den := o_num * f_den * other.2 in
        let common := Z.gcd num den in
        linked {| root := dict_set (root fr) other_root first_root;
                  ratio := dict_set (ratio fr) other_root (num / common, den / common) |}
  | _, _ => diverged
  end.

Fixpoint link_all (fr : forest) (pairs : list ((string * Z) * (string * Z))) : link_outcome :=
  match pairs with
  | [] => linked fr
  | (first, other) :: pairs =>
      match link fr first other with
      | linked fr => link_all fr pairs
      | outcome => outcome
      end
  end.

(** [exact_by_plane]: plane to group to the payload bytes of its exact fields. *)
Definition exact_step (d : list (string * list (string * Z))) (e : entry) :
    list (string * list (string * Z)) :=
  let '(group_id, field) := e in
  if CacheFieldSpec.exact_page_stride field then
    let plane := default [] (dict_get d (CacheFieldSpec.plane_id field)) in
    dict_set d (CacheFieldSpec.plane_id field)
      (dict_set plane group_id
        (default 0 (dict_get plane group_id) + CacheFieldSpec.payload_bytes field))
  else d.

Definition exact_by_plane (fields : list entry) : list (string * list (string * Z)) :=
  foldl exact_step [] fields.

(** [pairwise(l)] *)
Definition pairwise {A} (l : list A) : list (A * A) := zip l (tail l).

(** [sorted(d.items())] of a dictionary with string keys. *)
Definition sorted_items {V} (d : list (string * V)) : list (string * V) :=
  py_sorted (λ p q : string * V, str_leb p.1 q.1) d.

(** The constraints, in the order the two loops visit them. *)
Definition exact_constraints (fields : list entry) : list ((string * Z) * (string * Z)) :=
  concat ((λ plane : string * list (string * Z), pairwise (sorted_items plane.2))
            <$> sorted_items (exact_by_plane fields)).

(** [members.setdefault(component, []).append((group_id, fraction))] over the
    groups. *)
Fixpoint members_from (fr : forest) (members : list (string * list (string * (Z * Z))))
    (groups : list string) : option (list (string * list (string * (Z * Z)))) :=
  match groups with
  | [] => Some members
  | group_id :: groups =>
      r ← resolve fr group_id;
      members_from fr
        (dict_set members r.1 (default [] (dict_get members r.1) ++ [(group_id, r.2)])) groups
  end.

(** [scale * den // math.gcd(scale, den)] over the members. *)
Definition common_scale (members : list (string * (Z * Z))) : Z :=
  foldl (λ scale m, scale * m.2.2 / Z.gcd scale m.2.2) 1 members.

Definition component_counts (members : list (string * (Z * Z))) : list (string * Z) :=
  let scale := common_scale members in
  let counts := (λ m : string * (Z * Z), (m.1, m.2.1 * scale / m.2.2)) <$> members in
  let smallest := foldl (λ s c : Z, Z.gcd s c) 0 counts.*2 in
  (λ c : string * Z, (c.1, c.2 / smallest)) <$> counts.

Definition pack_component (packing : list (string * Z)) (members : list (string * (Z * Z))) :
    list (string * Z) :=
  if (length members =? 1)%nat then packing
  else dict_update packing (component_counts members).

Definition initial_forest (groups : list string) : forest :=
  {| root := (λ g, (g, g)) <$> groups; ratio := (λ g, (g, (1, 1))) <$> groups |}.

(** The outer [None] is fuel running out, which never happens; [Some None] is
    the [return None] of an unsatisfiable set of constraints. *)
Definition _solve_packing (fields : list entry) : option (option (list (string * Z))) :=
  let groups := remove_dups fields.*1 in
  match link_all (initial_forest groups) (exact_constraints fields) with
  | diverged => None
  | conflict => Some None
  | linked fr =>
      members ← members_from fr [] (py_sorted str_leb groups);
      Some (Some (foldl pack_component [] (dict_values members)))
  end.

(** [n.bit_length()] of a non-negative integer. *)
Definition bit_length (n : Z) : Z := if n =? 0 then 0 else Z.log2 n + 1.

Definition max_payload (d : list (string * Z)) : Z := foldr Z.max 0 (dict_values d).

Definition _packing_by_group_ratio (raw_by_group : list (string * Z)) : list (string * Z) :=
  let largest_payload := max_payload raw_by_group in
  (λ g : string * Z, (g.1, Z.shiftl 1 (bit_length (largest_payload / g.2) - 1))) <$> raw_by_group.

(** ** [pack], step by step *)

(** The order of [ordered_fields]: by plane, then group, then field. *)
Definition entry_key (e : entry) : string * (string * string) :=
  (CacheFieldSpec.plane_id e.2, (e.1, CacheFieldSpec.field_id e.2)).

Definition entry_leb (e1 e2 : entry) : bool :=
  pair_leb str_leb (pair_leb str_leb str_leb) (entry_key e1) (entry_key e2).

Definition declared_fields (groups : list CacheGroupDeclaration) : list entry :=
  concat ((λ g : CacheGroupDeclaration, (λ f, (CacheGroupSpec.group_id g.1, f)) <$> g.2) <$> groups).

Definition order_fields (groups : list CacheGroupDeclaration) : result (list entry) :=
  let declared_ids := (λ g : CacheGroupDeclaration, CacheGroupSpec.group_id g.1) <$> groups in
  raise_when (negb (length declared_ids =? len_set declared_ids)%nat)
    (ValueError "cache group declared more than once");;
  raise_when (existsb (λ g : CacheGroupDeclaration, bool_decide (g.2 = [])) groups)
    (ValueError "cache groups declare no fields");;
  let ordered_fields := py_sorted entry_leb (declared_fields groups) in
  raise_when (bool_decide (ordered_fields = [])) (ValueError "at least one cache group is required");;
  let field_ids := (λ e : entry, CacheFieldSpec.field_id e.2) <$> ordered_fields in
  raise_when (negb (len_set field_ids =? length ordered_fields)%nat)
    (ValueError "cache field ids must be unique");;
  Ok ordered_fields.

(** The validation loop that sums the payloads of each group. *)
Definition raw_step (raw_by_group : list (string * Z)) (e : entry) : result (list (string * Z)) :=
  let '(group_id, field) := e in
  raise_when (String.eqb group_id "" || String.eqb (CacheFieldSpec.field_id field) "" ||
              String.eqb (CacheFieldSpec.plane_id field) "")
    (ValueError "cache group id, field id and plane id must be non-empty");;
  raise_when (bool_decide (CacheFieldSpec.shape field = []) ||
              existsb (λ extent, extent <=? 0) (CacheFieldSpec.shape field) ||
              (CacheFieldSpec.page_stride_alignment_bytes field <=? 0))
    (ValueError "cache field has invalid geometry");;
  Ok (dict_set raw_by_group group_id
        (default 0 (dict_get raw_by_group group_id) + CacheFieldSpec.payload_bytes field)).

(** The packing before the flexible groups are revisited. *)
Definition choose_packing (ordered_fields : list entry) (raw_by_group pinned : list (string * Z))
    (ordered_group_ids : list string) : result (list (string * Z)) :=
  raise_when (existsb (λ g, negb (py_in g ordered_group_ids)) (dict_keys pinned))
    (ValueError "cache_blocks_per_lcm_block names groups outside the plan");;
  raise_when (existsb (λ count, count <? 1) (dict_values pinned))
    (ValueError "cache group packing must be a positive integer");;
  if forallb (λ g, py_in g (dict_keys pinned)) ordered_group_ids then Ok pinned
  else
    let packing := _packing_by_group_ratio raw_by_group in
    constrained ← lookup_or (RuntimeError "resolve ran out of fuel") (_solve_packing ordered_fields);
    let packing := dict_update packing (default [] constrained) in
    Ok (dict_update packing pinned).

(** Plane to group to its fields there, in order. *)
Definition plane_map : Type := list (string * list (string * list CacheFieldSpec.t)).

Definition plane_step (d : plane_map) (e : entry) : plane_map :=
  let '(group_id, field) := e in
  let by_group := default [] (dict_get d (CacheFieldSpec.plane_id field)) in
  dict_set d (CacheFieldSpec.plane_id field)
    (dict_set by_group group_id (default [] (dict_get by_group group_id) ++ [field])).

Definition plane_fields (ordered_fields : list entry) : plane_map :=
  foldl plane_step [] ordered_fields.

(** The dictionaries the placement loop fills. *)
Record offsets := {
  field_offsets : list (string * Z);
  group_plane_bytes : list (string * list (string * Z));
}.

(** The inner loop: place the fields of one group in one plane. *)
Fixpoint place_fields (field_offsets : list (string * Z)) (offset : Z)
    (fields : list CacheFieldSpec.t) : list (string * Z) * Z :=
  match fields with
  | [] => (field_offsets, offset)
  | field :: fields =>
      let offset := _align_up offset (CacheFieldSpec.element_size field) in
      place_fields (dict_set field_offsets (CacheFieldSpec.field_id field) offset)
        (offset + CacheFieldSpec.payload_bytes field) fields
  end.

Definition place_group (s : offsets) (plane_id : string)
    (g : string * list CacheFieldSpec.t) : offsets :=
  let '(fo, offset) := place_fields (field_offsets s) 0 g.2 in
  {| field_offsets := fo;
     group_plane_bytes := dict_set (group_plane_bytes s) g.1
       (dict_set (default [] (dict_get (group_plane_bytes s) g.1)) plane_id offset) |}.

Definition place_all (planes : plane_map) : offsets :=
  foldl (λ s plane, foldl (λ s g, place_group s plane.1 g) s plane.2)
    {| field_offsets := []; group_plane_bytes := [] |} planes.

Definition group_bytes (s : offsets) (group_id plane_id : string) : result Z :=
  by_plane ← dict_index (group_plane_bytes s) group_id; dict_index by_plane plane_id.

(** ** Flexible groups *)

(** The bytes the exact groups fix for one plane: the largest requirement and
    the common alignment. *)
Definition fixed_group_step (packing : list (string * Z)) (s : offsets) (plane_id : string)
    (flexible_groups : list string) (acc : Z * Z) (g : string * list CacheFieldSpec.t) :
    result (Z * Z) :=
  if py_in g.1 flexible_groups then Ok acc
  else
    count ← dict_index packing g.1;
    bytes ← group_bytes s g.1 plane_id;
    Ok (Z.max acc.1 (count * bytes),
        foldl (λ fixed_alignment field,
          lcm_step fixed_alignment (count * CacheFieldSpec.element_size field)) acc.2 g.2).

Definition fixed_plane_step (packing : list (string * Z)) (s : offsets) (alignment : Z)
    (flexible_groups : list string) (fixed_plane_bytes : list (string * Z))
    (plane : string * list (string * list CacheFieldSpec.t)) : result (list (string * Z)) :=
  acc ← foldM (fixed_group_step packing s plane.1 flexible_groups) (0, alignment) plane.2;
  Ok (if acc.1 =? 0 then fixed_plane_bytes
      else dict_set fixed_plane_bytes plane.1 (_align_up acc.1 acc.2)).

(** [element_alignment_by_plane] of one group. *)
Definition element_alignments (planes : plane_map) (group_id : string) : list (string * Z) :=
  omap (λ plane : string * list (string * list CacheFieldSpec.t),
    match dict_get plane.2 group_id with
    | None | Some [] => None
    | Some fields => Some (plane.1, foldl (λ a field, lcm_step a (CacheFieldSpec.element_size field))
                                      1 fields)
    end) planes.

(** [range(upper, 0, -1)] *)
Definition countdown (upper : Z) : list Z := reverse (seqZ 1 upper).

(** Whether [count] blocks divide every plane the group occupies.  Both lookups
    succeed: an occupied plane is in [fixed] by the guard before the call, and
    holds a field of the group. *)
Definition count_fits (fixed element_alignment occupied : list (string * Z)) (count : Z) : bool :=
  forallb (λ p : string * Z,
    match dict_get fixed p.1, dict_get element_alignment p.1 with
    | Some bytes, Some a => bytes mod (count * a) =? 0
    | _, _ => false
    end) occupied.

Definition flexible_step (planes : plane_map) (s : offsets) (fixed : list (string * Z))
    (packing : list (string * Z)) (group_id : string) : list (string * Z) :=
  let occupied := default [] (dict_get (group_plane_bytes s) group_id) in
  if negb (forallb (λ p : string * Z, py_in p.1 (dict_keys fixed)) occupied) then packing
  else
    let quotients :=
      (λ p : string * Z, default 0 (dict_get fixed p.1) / p.2) <$> occupied in
    let upper := foldr Z.min (default 0 (head quotients)) quotients in
    match filter (λ count,
        count_fits fixed (element_alignments planes group_id) occupied count = true)
        (countdown upper) with
    | count :: _ => dict_set packing group_id count
    | [] => packing
    end.

Definition revisit_flexible (ordered_fields : list entry) (ordered_group_ids : list string)
    (planes : plane_map) (s : offsets) (alignment : Z) (pinned packing : list (string * Z)) :
    result (list (string * Z)) :=
  let exact_groups := (filter (λ e : entry, CacheFieldSpec.exact_page_stride e.2 = true)
                         ordered_fields).*1 in
  let flexible_groups := filter (λ g, g ∉ exact_groups) ordered_group_ids in
  if bool_decide (flexible_groups = []) || negb (bool_decide (pinned = [])) then Ok packing
  else
    fixed ← foldM (fixed_plane_step packing s alignment flexible_groups) [] planes;
    Ok (foldl (flexible_step planes s fixed) packing (py_sorted str_leb flexible_groups)).

(** ** Plane sizes *)

Definition field_alignment_step (count : Z) (plane_alignment : Z) (field : CacheFieldSpec.t) :
    result Z :=
  let required := count * CacheFieldSpec.element_size field in
  let plane_alignment := lcm_step plane_alignment required in
  let stride_required := count * CacheFieldSpec.page_stride_alignment_bytes field in
  let plane_alignment := lcm_step plane_alignment stride_required in
  raise_when (_MAX_LCM_BLOCK_BYTES <? plane_alignment)
    (ValueError "LCM block size alignment exceeds limit");;
  Ok plane_alignment.

Definition plane_group_step (packing : list (string * Z)) (s : offsets) (plane_id : string)
    (acc : Z * Z) (g : string * list CacheFieldSpec.t) : result (Z * Z) :=
  count ← dict_index packing g.1;
  bytes ← group_bytes s g.1 plane_id;
  plane_alignment ← foldM (field_alignment_step count) acc.2 g.2;
  Ok (Z.max acc.1 (count * bytes), plane_alignment).

Definition plane_bytes_step (packing : list (string * Z)) (s : offsets) (alignment : Z)
    (plane_bytes : list (string * Z)) (plane : string * list (string * list CacheFieldSpec.t)) :
    result (list (string * Z)) :=
  acc ← foldM (plane_group_step packing s plane.1) (0, alignment) plane.2;
  Ok (dict_set plane_bytes plane.1 (_align_up acc.1 acc.2)).

Definition size_planes (packing : list (string * Z)) (s : offsets) (alignment : Z)
    (planes : plane_map) : result (list (string * Z)) :=
  foldM (plane_bytes_step packing s alignment) [] planes.

Definition exact_stride_step (plane_bytes packing : list (string * Z)) (u : ()) (e : entry) :
    result () :=
  let '(group_id, field) := e in
  if CacheFieldSpec.exact_page_stride field then
    bytes ← dict_index plane_bytes (CacheFieldSpec.plane_id field);
    count ← dict_index packing group_id;
    raise_when (negb (bytes / count =? CacheFieldSpec.payload_bytes field))
      (ValueError "cache field needs an exact page stride")
  else Ok ().

Definition _check_exact_page_strides (fields : list entry) (plane_bytes packing : list (string * Z)) :
    result () :=
  foldM (exact_stride_step plane_bytes packing) () fields.

(** ** Padding and the result *)

Definition check_padding_step (lcm_block_bytes : Z) (packing raw_by_group : list (string * Z))
    (max_padding_fraction : spec_float) (u : ()) (group_id : string) : result () :=
  count ← dict_index packing group_id;
  raw ← dict_index raw_by_group group_id;
  stride ← int_truediv lcm_block_bytes count;
  raw_float ← float_of_int raw;
  padding_fraction ← float_div (float_sub stride raw_float) raw_float;
  raise_when (float_gt padding_fraction max_padding_fraction)
    (ValueError "padding fraction exceeds limit").

Definition field_layout (s : offsets) (plane_bytes packing : list (string * Z)) (e : entry) :
    result CacheFieldLayout.t :=
  let '(group_id, field) := e in
  offset ← dict_index (field_offsets s) (CacheFieldSpec.field_id field);
  bytes ← dict_index plane_bytes (CacheFieldSpec.plane_id field);
  count ← dict_index packing group_id;
  CacheFieldLayout.post_init
    {| CacheFieldLayout.group_id := group_id;
       CacheFieldLayout.field_id := CacheFieldSpec.field_id field;
       CacheFieldLayout.plane_id := CacheFieldSpec.plane_id field;
       CacheFieldLayout.shape := CacheFieldSpec.shape field;
       CacheFieldLayout.dtype := CacheFieldSpec.dtype field;
       CacheFieldLayout.field_offset_bytes := offset;
       CacheFieldLayout.page_stride_bytes := bytes / count |}.

Definition pack (groups : list CacheGroupDeclaration) (prefix_granularity : Z)
    (cache_blocks_per_lcm_block : list (string * Z)) (alignment : Z)
    (max_padding_fraction : spec_float) : result CacheLayout.t :=
  raise_when (prefix_granularity <=? 0) (ValueError "prefix_granularity must be > 0");;
  raise_when (alignment <=? 0) (ValueError "alignment must be > 0");;
  raise_when (float_lt max_padding_fraction (S754_zero false))
    (ValueError "max_padding_fraction must be >= 0");;
  ordered_fields ← order_fields groups;
  raw_by_group ← foldM raw_step [] ordered_fields;
  let ordered_group_ids := py_sorted str_leb (dict_keys raw_by_group) in
  let pinned := cache_blocks_per_lcm_block in
  packing ← choose_packing ordered_fields raw_by_group pinned ordered_group_ids;
  let planes := plane_fields ordered_fields in
  let s := place_all planes in
  packing ← revisit_flexible ordered_fields ordered_group_ids planes s alignment pinned packing;
  plane_bytes ← size_planes packing s alignment planes;
  _check_exact_page_strides ordered_fields plane_bytes packing;;
  let lcm_block_bytes := _align_up (sumZ (dict_values plane_bytes)) alignment in
  raise_when (_MAX_LCM_BLOCK_BYTES <? lcm_block_bytes) (ValueError "LCM block size exceeds limit");;
  foldM (check_padding_step lcm_block_bytes packing raw_by_group max_padding_fraction) ()
    ordered_group_ids;;
  field_layouts ← mapM (field_layout s plane_bytes packing) ordered_fields;
  group_packing ← mapM (λ g, count ← dict_index packing g; Ok (g, count)) ordered_group_ids;
  Ok {| CacheLayout.prefix_granularity := prefix_granularity;
        CacheLayout.lcm_block_bytes := lcm_block_bytes;
        CacheLayout.group_packing := group_packing;
        CacheLayout.plane_bytes := sorted_items plane_bytes;
        CacheLayout.fields := field_layouts |}.

(** A padding budget of [num / den]. *)
Definition fraction (num den : Z) : spec_float :=
  match int_truediv num den with Ok f => f | Raise _ => S754_nan end.

(** ** Declared fields *)

(** A field the validation loop accepts. *)
Record entry_ok (e : entry) : Prop := {
  eo_built : field_built e.2;
  eo_shape : Forall (Z.lt 0) (CacheFieldSpec.shape e.2);
  eo_align : 0 < CacheFieldSpec.page_stride_alignment_bytes e.2;
}.

(** Declarations whose fields were built by their constructor. *)
Definition declarations_built (groups : list CacheGroupDeclaration) : Prop :=
  ∀ g f, g ∈ groups → f ∈ g.2 → field_built f.

Lemma entry_element_size_pos e : entry_ok e → 0 < CacheFieldSpec.element_size e.2.
Proof. intros He. apply element_size_pos, He. Qed.

Lemma entry_payload_pos e : entry_ok e → 0 < CacheFieldSpec.payload_bytes e.2.
Proof. intros He. apply payload_bytes_pos; apply He. Qed.

#[export] Hint Resolve entry_element_size_pos entry_payload_pos eo_align : pyint.

Lemma elem_of_declared groups e :
  e ∈ declared_fields groups ↔
  ∃ g, g ∈ groups ∧ CacheGroupSpec.group_id g.1 = e.1 ∧ e.2 ∈ g.2.
Proof.
  unfold declared_fields. rewrite elem_of_concat. split.
  - intros (l & (g & -> & Hg)%list_elem_of_fmap & (f & -> & Hf)%list_elem_of_fmap). eauto.
  - intros (g & Hg & Hid & Hf). exists ((λ f, (CacheGroupSpec.group_id g.1, f)) <$> g.2).
    split; [apply list_elem_of_fmap; eauto|].
    apply list_elem_of_fmap. exists e.2. rewrite Hid. by destruct e.
Qed.

Lemma order_fields_Ok groups entries :
  order_fields groups = Ok entries →
  entries ≡ₚ declared_fields groups ∧ entries ≠ [] ∧
  NoDup ((λ e : entry, CacheFieldSpec.field_id e.2) <$> entries) ∧
  NoDup ((λ g : CacheGroupDeclaration, CacheGroupSpec.group_id g.1) <$> groups).
Proof.
  unfold order_fields. intros H. inv_ok. split; [apply py_sorted_perm|].
  apply bool_decide_eq_false in Hr1. apply negb_false_iff, Nat.eqb_eq in Hr, Hr2.
  split; [done|]. split; [|by apply len_set_NoDup].
  apply len_set_NoDup. rewrite length_fmap. done.
Qed.

(** The loop state of [raw_step]: the payload sums of the groups seen. *)
Definition raw_of (entries : list entry) (group_id : string) : Z :=
  sumZ ((λ e : entry, CacheFieldSpec.payload_bytes e.2) <$>
    filter (λ e : entry, e.1 = group_id) entries).

Lemma raw_of_snoc entries e g :
  raw_of (entries ++ [e]) g =
    raw_of entries g + if decide (e.1 = g) then CacheFieldSpec.payload_bytes e.2 else 0.
Proof.
  unfold raw_of. rewrite filter_app, fmap_app, sumZ_app. f_equal.
  case_decide; [rewrite filter_cons_True by done|rewrite filter_cons_False by done]; cbn; lia.
Qed.

Record raw_inv (visited : list entry) (d : list (string * Z)) : Prop := {
  ri_nodup : NoDup (dict_keys d);
  ri_get : ∀ g, dict_get d g = if decide (g ∈ visited.*1) then Some (raw_of visited g) else None;
  ri_ok : ∀ e, e ∈ visited → Forall (Z.lt 0) (CacheFieldSpec.shape e.2) ∧
    0 < CacheFieldSpec.page_stride_alignment_bytes e.2;
}.

Lemma raw_of_not_elem entries g : g ∉ entries.*1 → raw_of entries g = 0.
Proof.
  induction entries as [|e entries IH]; csimpl; [done|].
  intros [Hne Hg]%not_elem_of_cons. unfold raw_of in *.
  rewrite filter_cons_False by congruence. auto.
Qed.

Lemma raw_Ok entries raw : foldM raw_step [] entries = Ok raw → raw_inv entries raw.
Proof.
  apply (foldM_ind raw_inv).
  { split; [constructor|done|set_solver]. }
  intros visited [g f] rest d d' _ [Hnd Hget Hok] H. unfold raw_step in H. inv_ok.
  apply orb_false_iff in Hr0 as [[_ Hs]%orb_false_iff Ha]. split.
  - by apply dict_set_NoDup.
  - intros g'. rewrite dict_get_set, raw_of_snoc, fmap_app, !Hget. cbn [fmap list_fmap fst snd].
    case_decide as Hg; [subst g'|].
    + rewrite (decide_True (P := g ∈ visited.*1 ++ [g])) by set_solver.
      rewrite (decide_True (P := g = g)) by done. f_equal.
      case_decide; cbn; [done|]. by rewrite raw_of_not_elem.
    + rewrite (decide_False (P := g = g')) by congruence. rewrite Z.add_0_r.
      repeat case_decide; set_solver.
  - intros e [He|He]%elem_of_app; [auto|]. apply list_elem_of_singleton in He as ->. cbn. split; [|lia].
    apply existsb_false_Forall in Hs. eapply Forall_impl; [exact Hs|]. cbn. lia.
Qed.

Lemma entries_ok groups entries raw :
  declarations_built groups → order_fields groups = Ok entries →
  foldM raw_step [] entries = Ok raw → Forall entry_ok entries.
Proof.
  intros Hb Ho Hr. apply order_fields_Ok in Ho as (Hp & _). apply raw_Ok in Hr.
  apply Forall_forall. intros e He. destruct (ri_ok _ _ Hr e He) as [Hs Ha]. split; [|done..].
  rewrite Hp in He. apply elem_of_declared in He as (g & Hg & _ & Hf). by eapply Hb.
Qed.

(** ** The ratio solver *)

Section solver.
Context (groups : list string).

(** An assignment of block counts that agrees with the forest. *)
Definition satisfies (K : string → Z) (fr : forest) : Prop :=
  ∀ g p n d, dict_get (root fr) g = Some p → dict_get (ratio fr) g = Some (n, d) →
    K g * d = K p * n.

(** Two tenants of one plane fill the same bytes. *)
Definition holds (K : string → Z) (c : (string * Z) * (string * Z)) : Prop :=
  K c.1.1 * c.1.2 = K c.2.1 * c.2.2.

Definition is_root (fr : forest) (g : string) : Prop := dict_get (root fr) g = Some g.

Definition count_roots (fr : forest) : nat :=
  length (filter (λ g, dict_get (root fr) g = Some g) groups).

(** A forest after [links] links. *)
Record forest_inv (fr : forest) (links : nat) : Prop := {
  fi_keys : dict_keys (root fr) = groups;
  fi_entry : ∀ g, g ∈ groups → ∃ p n d, dict_get (root fr) g = Some p ∧ p ∈ groups ∧
    dict_get (ratio fr) g = Some (n, d) ∧ 0 < n ∧ 0 < d ∧ (p = g → n = 1 ∧ d = 1);
  fi_resolve : ∀ g, g ∈ groups → ∃ r n d,
    resolve_from (S links) fr g 1 1 = Some (r, (n, d)) ∧ r ∈ groups ∧ is_root fr r ∧
    0 < n ∧ 0 < d;
  fi_count : (links + count_roots fr = length groups)%nat;
}.

Lemma resolve_acc fuel fr g a b :
  resolve_from fuel fr g a b =
    (λ x : string * (Z * Z), (x.1, (a * x.2.1, b * x.2.2))) <$> resolve_from fuel fr g 1 1.
Proof.
  revert g a b. induction fuel as [|fuel IH]; intros g a b; cbn; [done|].
  destruct (dict_get (root fr) g) as [p|]; cbn; [|done].
  case_decide; cbn; [by rewrite !Z.mul_1_r|].
  destruct (dict_get (ratio fr) g) as [[n d]|]; cbn; [|done].
  rewrite (IH p (a * n)), (IH p (1 * n)). destruct (resolve_from fuel fr p 1 1); cbn; [|done].
  do 3 f_equal; lia.
Qed.

Lemma resolve_root fuel fr g a b :
  is_root fr g → resolve_from (S fuel) fr g a b = Some (g, (a, b)).
Proof. intros Hg. cbn. rewrite Hg. cbn. by rewrite decide_True. Qed.

Lemma resolve_mono fuel k fr g a b x :
  resolve_from fuel fr g a b = Some x → resolve_from (fuel + k) fr g a b = Some x.
Proof.
  revert g a b. induction fuel as [|fuel IH]; intros g a b; cbn; [done|].
  destruct (dict_get (root fr) g) as [p|]; cbn; [|done]. case_decide; [done|].
  destruct (dict_get (ratio fr) g); cbn; [|done]. apply IH.
Qed.

Lemma resolve_satisfies K fr fuel g r n d :
  satisfies K fr → resolve_from fuel fr g 1 1 = Some (r, (n, d)) → K g * d = K r * n.
Proof.
  intros HK. revert g r n d. induction fuel as [|fuel IH]; intros g r n d; cbn; [done|].
  destruct (dict_get (root fr) g) as [p|] eqn:Hp; cbn; [|done].
  case_decide; [intros [= <- <- <-]; lia|].
  destruct (dict_get (ratio fr) g) as [[n0 d0]|] eqn:Hr; cbn; [|done].
  rewrite resolve_acc. destruct (resolve_from fuel fr p 1 1) as [[r' [n' d']]|] eqn:Hrec; cbn; [|done].
  intros [= <- <- <-]. specialize (IH _ _ _ _ Hrec). pose proof (HK _ _ _ _ Hp Hr) as Hg.
  rewrite !Z.mul_1_l. rewrite Z.mul_assoc, Hg.
  replace (K p * n0 * d') with (n0 * (K p * d')) by ring. rewrite IH. ring.
Qed.

(** A group that is not a root resolves through its parent. *)
Lemma resolve_parent fr g h n d c x r :
  dict_get (root fr) g = Some h → h ≠ g → dict_get (ratio fr) g = Some (n, d) →
  resolve fr h = Some (c, x) → resolve fr g = Some r → r = (c, (n * x.1, d * x.2)).
Proof.
  unfold resolve. intros Hh Hne Hrat Hrh Hrg.
  destruct (length (root fr)) as [|k]; [done|]. cbn in Hrg. rewrite Hh in Hrg. cbn in Hrg.
  rewrite decide_False in Hrg by done. rewrite Hrat in Hrg.
  cbn [mbind option_bind fst snd] in Hrg. rewrite resolve_acc in Hrg.
  destruct (resolve_from k fr h 1 1) as [[c2 [a2 b2]]|] eqn:Hk; [|done].
  apply (resolve_mono k 1) in Hk. rewrite Nat.add_1_r, Hrh in Hk. injection Hk as -> ->.
  cbn in Hrg. injection Hrg as <-. cbn. do 2 f_equal; lia.
Qed.

Lemma roots_pos fr r : r ∈ groups → is_root fr r → (1 ≤ count_roots fr)%nat.
Proof.
  intros Hr Hroot. unfold count_roots.
  assert (Hin : r ∈ filter (λ g, dict_get (root fr) g = Some g) groups)
    by (by apply list_elem_of_filter).
  destruct (filter _ groups); [set_solver|cbn; lia].
Qed.

Lemma resolve_total fr links g :
  forest_inv fr links → g ∈ groups → ∃ r n d,
    resolve fr g = Some (r, (n, d)) ∧ r ∈ groups ∧ is_root fr r ∧ 0 < n ∧ 0 < d.
Proof.
  intros Hi Hg. destruct (fi_resolve _ _ Hi g Hg) as (r & n & d & Hres & Hr & Hroot & Hn & Hd).
  exists r, n, d. split_and!; try done. unfold resolve.
  pose proof (roots_pos fr r Hr Hroot). pose proof (fi_count _ _ Hi).
  assert (length (root fr) = length groups) as -> by (rewrite <-(fi_keys _ _ Hi), length_fmap; done).
  replace (length groups) with (S links + (length groups - S links))%nat by lia.
  by apply resolve_mono.
Qed.

(** Linking root [o] below root [f]. *)
Section link_step.
Context (fr : forest) (f o : string) (n0 d0 : Z).
Context (Hf : is_root fr f) (Ho : is_root fr o) (Hne : f ≠ o).

Definition linked_forest : forest :=
  {| root := dict_set (root fr) o f; ratio := dict_set (ratio fr) o (n0, d0) |}.

Lemma linked_root g : dict_get (root linked_forest) g =
  if decide (g = o) then Some f else dict_get (root fr) g.
Proof. apply dict_get_set. Qed.

Lemma linked_ratio g : dict_get (ratio linked_forest) g =
  if decide (g = o) then Some (n0, d0) else dict_get (ratio fr) g.
Proof. apply dict_get_set. Qed.

Lemma resolve_linked fuel g r n d :
  resolve_from fuel fr g 1 1 = Some (r, (n, d)) →
  resolve_from (S fuel) linked_forest g 1 1 =
    Some (if decide (r = o) then (f, (n * n0, d * d0)) else (r, (n, d))).
Proof.
  revert g r n d. induction fuel as [|fuel IH]; intros g r n d; [done|].
  intros H. cbn in H. remember (S fuel) as fuel' eqn:Hfuel. cbn [resolve_from].
  rewrite linked_root. destruct (decide (g = o)) as [->|Hg].
  - rewrite Ho in H. cbn in H. rewrite decide_True in H by done. injection H as <- <- <-.
    rewrite decide_True by done. cbn [mbind option_bind].
    rewrite decide_False by done. rewrite linked_ratio, decide_True by done.
    subst fuel'. cbn [mbind option_bind fst snd]. rewrite resolve_root; [done|].
    unfold is_root. by rewrite linked_root, decide_False.
  - destruct (dict_get (root fr) g) as [p|] eqn:Hp; cbn in H; [|done].
    cbn [mbind option_bind]. case_decide as Hpg.
    + injection H as <- <- <-. by rewrite decide_False.
    + rewrite linked_ratio, (decide_False (P := g = o)) by done.
      destruct (dict_get (ratio fr) g) as [[n1 d1]|] eqn:Hr; cbn in H; [|done].
      cbn [mbind option_bind fst snd].
      rewrite resolve_acc in H. destruct (resolve_from fuel fr p 1 1) as [[r' [n' d']]|] eqn:Hrec;
        cbn in H; [|done]. injection H as <- <- <-. specialize (IH _ _ _ _ Hrec). subst fuel'.
      rewrite resolve_acc, IH. case_decide; cbn; do 3 f_equal; ring.
Qed.

Lemma count_roots_linked :
  NoDup groups → o ∈ groups → (S (count_roots linked_forest) = count_roots fr)%nat.
Proof.
  intros Hnd Hin. unfold count_roots. clear Hf. induction groups as [|g gs IH]; [set_solver|].
  apply NoDup_cons in Hnd as [Hg Hnd]. rewrite !filter_cons.
  assert (Hrest : o ∉ gs → filter (λ g, dict_get (root linked_forest) g = Some g) gs =
                  filter (λ g, dict_get (root fr) g = Some g) gs).
  { intros Ho'. apply filter_ext_in. intros x Hx.
    rewrite linked_root, decide_False; [done|]. by intros ->. }
  destruct (decide (g = o)) as [->|Hgo].
  - rewrite (decide_False (P := dict_get (root linked_forest) o = Some o));
      [|rewrite linked_root, decide_True by done; congruence].
    rewrite decide_True by done. cbn [length]. by rewrite Hrest.
  - apply elem_of_cons in Hin as [->|Hin]; [done|]. specialize (IH Hnd Hin).
    rewrite linked_root, (decide_False (P := g = o)) by done. case_decide; cbn [length]; lia.
Qed.

Lemma linked_inv links :
  NoDup groups → f ∈ groups → o ∈ groups → 0 < n0 → 0 < d0 →
  forest_inv fr links → forest_inv linked_forest (S links).
Proof.
  intros Hnd Hfg Hog Hn0 Hd0 Hi. split.
  - cbn. rewrite dict_keys_set, (fi_keys _ _ Hi). by rewrite decide_True.
  - intros g Hg. rewrite linked_root, linked_ratio. case_decide as Hgo.
    + exists f, n0, d0. split_and!; try done. congruence.
    + apply (fi_entry _ _ Hi g Hg).
  - intros g Hg. destruct (fi_resolve _ _ Hi g Hg) as (r & n & d & Hres & Hr & Hroot & Hn & Hd).
    apply resolve_linked in Hres. case_decide as Hro.
    + exists f, (n * n0), (d * d0). split_and!; try done; [|nia..].
      unfold is_root. by rewrite linked_root, decide_False.
    + exists r, n, d. split_and!; try done. unfold is_root. by rewrite linked_root, decide_False.
  - pose proof (fi_count _ _ Hi). pose proof (count_roots_linked Hnd Hog). lia.
Qed.

Lemma linked_satisfies links K :
  o ∈ groups → forest_inv fr links →
  satisfies K linked_forest ↔ satisfies K fr ∧ K o * d0 = K f * n0.
Proof.
  intros Hog Hi. unfold satisfies. split.
  - intros H. split.
    + intros g p n d Hp Hr. destruct (decide (g = o)) as [->|Hg].
      * destruct (fi_entry _ _ Hi o Hog) as (p' & n' & d' & Hp' & _ & Hr' & _ & _ & H1).
        rewrite Ho in Hp, Hp'. simplify_eq. destruct (H1 eq_refl) as [-> ->]. done.
      * apply (H g p n d); [rewrite linked_root|rewrite linked_ratio]; by rewrite decide_False.
    + apply (H o f n0 d0); [rewrite linked_root|rewrite linked_ratio]; by rewrite decide_True.
  - intros [H Hof] g p n d. rewrite linked_root, linked_ratio. case_decide as Hg.
    + intros [= <-] [= <- <-]. by subst.
    + apply H.
Qed.
End link_step.
End solver.

Section solver_loop.
Context (groups : list string) (Hnd : NoDup groups).

Definition positive_counts (K : string → Z) : Prop := ∀ g, 0 < K g.

(** A constraint between two groups with positive byte counts. *)
Definition constraint_ok (c : (string * Z) * (string * Z)) : Prop :=
  c.1.1 ∈ groups ∧ c.2.1 ∈ groups ∧ 0 < c.1.2 ∧ 0 < c.2.2.

(** Two resolved groups: their constraint is one between their roots. *)
Lemma constraint_on_roots Kf Ko Kr Ks f_num f_den o_num o_den fb ob :
  0 < f_den → 0 < o_den → Kf * f_den = Kr * f_num → Ko * o_den = Ks * o_num →
  Kf * fb = Ko * ob ↔ Ks * (o_num * f_den * ob) = Kr * (f_num * o_den * fb).
Proof.
  intros Hf Ho H1 H2.
  replace (Ks * (o_num * f_den * ob)) with ((Ks * o_num) * f_den * ob) by ring.
  replace (Kr * (f_num * o_den * fb)) with ((Kr * f_num) * o_den * fb) by ring.
  rewrite <-H1, <-H2.
  replace (Ko * o_den * f_den * ob) with ((o_den * f_den) * (Ko * ob)) by ring.
  replace (Kf * f_den * o_den * fb) with ((o_den * f_den) * (Kf * fb)) by ring.
  rewrite Z.mul_cancel_l by nia. done.
Qed.

Lemma reduced_ratio Ko Kf num den :
  0 < num → 0 < den →
  0 < num / Z.gcd num den ∧ 0 < den / Z.gcd num den ∧
  (Ko * (den / Z.gcd num den) = Kf * (num / Z.gcd num den) ↔ Ko * den = Kf * num).
Proof.
  intros Hn Hd. assert (Hg : 0 < Z.gcd num den)
    by (pose proof (Z.gcd_nonneg num den); pose proof (Z.gcd_eq_0_l num den); lia).
  pose proof (div_of_divide num _ Hg (Z.gcd_divide_l num den)) as E1.
  pose proof (div_of_divide den _ Hg (Z.gcd_divide_r num den)) as E2.
  set (c := Z.gcd num den) in *. set (n := num / c) in *. set (d := den / c) in *.
  rewrite <-E1, <-E2. split_and!; [nia..|].
  replace (Ko * (d * c)) with (c * (Ko * d)) by ring.
  replace (Kf * (n * c)) with (c * (Kf * n)) by ring.
  rewrite Z.mul_cancel_l by lia. done.
Qed.

Lemma link_spec fr links c :
  forest_inv groups fr links → constraint_ok c →
  match link fr c.1 c.2 with
  | linked fr' => ∃ links', forest_inv groups fr' links' ∧
      ∀ K, positive_counts K → satisfies K fr' ↔ satisfies K fr ∧ holds K c
  | conflict => ∀ K, positive_counts K → satisfies K fr → ¬ holds K c
  | diverged => False
  end.
Proof.
  intros Hi (Hg1 & Hg2 & Hb1 & Hb2). unfold link, holds.
  destruct (resolve_total groups fr links c.1.1 Hi Hg1) as (r & fn & fd & E1 & Hr & Hrr & Hfn & Hfd).
  destruct (resolve_total groups fr links c.2.1 Hi Hg2) as (s & on & od & E2 & Hs & Hsr & Hon & Hod).
  rewrite E1, E2. assert (Hroots : ∀ K, satisfies K fr →
    K c.1.1 * c.1.2 = K c.2.1 * c.2.2 ↔
    K s * (on * fd * c.2.2) = K r * (fn * od * c.1.2)).
  { intros K HK. apply constraint_on_roots; try done; by eapply resolve_satisfies. }
  case_decide as Hrs.
  - subst s. destruct (Z.eqb_spec (fn * od * c.1.2) (on * fd * c.2.2)) as [Heq|Hneq].
    + exists links. split; [done|]. intros K HK. split; [|tauto]. intros Hsat. split; [done|].
      apply Hroots; [done|]. by rewrite Heq.
    + intros K HK Hsat Hh. apply Hroots in Hh; [|done]. apply Hneq.
      specialize (HK r). symmetry. apply (Z.mul_reg_l _ _ (K r)); [lia|done].
  - exists (S links). pose proof (reduced_ratio 1 1 (fn * od * c.1.2) (on * fd * c.2.2)) as Hred.
    destruct Hred as (Hn & Hd & _); [nia..|]. split.
    + by apply (linked_inv groups fr r s).
    + intros K HK. pose proof (λ n d, linked_satisfies groups fr r s n d Hsr links K Hs Hi) as HL.
      unfold linked_forest in HL. rewrite HL.
      split; intros [Hsat Hk]; (split; [done|]); [apply Hroots; [done|]|apply Hroots in Hk; [|done]];
        by apply reduced_ratio; [nia|nia|].
Qed.

Lemma link_all_spec fr links pairs :
  forest_inv groups fr links → Forall constraint_ok pairs →
  match link_all fr pairs with
  | linked fr' => ∃ links', forest_inv groups fr' links' ∧
      ∀ K, positive_counts K → satisfies K fr' ↔ satisfies K fr ∧ Forall (holds K) pairs
  | conflict => ∀ K, positive_counts K → satisfies K fr → ¬ Forall (holds K) pairs
  | diverged => False
  end.
Proof.
  intros Hi Hok. revert fr links Hi. induction Hok as [|c pairs Hc Hok IH]; intros fr links Hi; cbn.
  { exists links. split; [done|]. intros K _. naive_solver. }
  destruct c as [x y]. pose proof (link_spec fr links (x, y) Hi Hc) as Hl. cbn in Hl.
  destruct (link fr x y) as [fr'| |]; [| |done].
  - destruct Hl as (links' & Hi' & Hsat). specialize (IH fr' links' Hi').
    destruct (link_all fr' pairs) as [fr''| |]; [|..|done].
    + destruct IH as (l'' & Hi'' & Hsat'). exists l''. split; [done|]. intros K HK.
      rewrite Hsat', Hsat, Forall_cons by done. tauto.
    + intros K HK Hs Hf. apply Forall_cons in Hf as [Hh Hf]. eapply IH; [done| |done].
      apply Hsat; [done|]. done.
  - intros K HK Hs [Hh _]%Forall_cons. by eapply Hl.
Qed.

Lemma initial_inv : forest_inv groups (initial_forest groups) 0.
Proof.
  assert (Hroot : ∀ g, g ∈ groups → dict_get (root (initial_forest groups)) g = Some g).
  { intros g Hg. apply elem_of_dict_get; cbn; [by rewrite <-list_fmap_compose, list_fmap_id|].
    apply list_elem_of_fmap. eauto. }
  assert (Hratio : ∀ g, g ∈ groups → dict_get (ratio (initial_forest groups)) g = Some (1, 1)).
  { intros g Hg. apply elem_of_dict_get; cbn; [by rewrite <-list_fmap_compose, list_fmap_id|].
    apply list_elem_of_fmap. eauto. }
  split.
  - cbn. by rewrite <-list_fmap_compose, list_fmap_id.
  - intros g Hg. exists g, 1, 1. rewrite Hroot, Hratio by done. done.
  - intros g Hg. exists g, 1, 1. rewrite resolve_root by (by apply Hroot).
    split_and!; try done. by apply Hroot.
  - unfold count_roots. cbn [Nat.add]. by rewrite (filter_all _ groups Hroot).
Qed.

Lemma initial_satisfies K : satisfies K (initial_forest groups).
Proof.
  intros g p n d Hp%dict_get_elem_of Hr%dict_get_elem_of.
  apply list_elem_of_fmap in Hp as (? & [= -> ->] & _).
  apply list_elem_of_fmap in Hr as (? & [= _ -> ->] & _). done.
Qed.
End solver_loop.

(** *** From the forest to the counts *)

Definition comp_members (fr : forest) (groups : list string) (c : string) :
    list (string * (Z * Z)) :=
  omap (λ g, match resolve fr g with
             | Some (c', fraction) => if decide (c' = c) then Some (g, fraction) else None
             | None => None
             end) groups.

Lemma elem_of_comp_members fr gs c g x :
  (g, x) ∈ comp_members fr gs c ↔ g ∈ gs ∧ resolve fr g = Some (c, x).
Proof.
  unfold comp_members. rewrite list_elem_of_omap. split.
  - intros (g' & Hg & H). destruct (resolve fr g') as [[c' x']|] eqn:Hr; [|done].
    case_decide; simplify_eq. done.
  - intros [Hg Hr]. exists g. rewrite Hr. by rewrite decide_True.
Qed.

Lemma comp_members_snoc fr gs g c r x :
  resolve fr g = Some (r, x) →
  comp_members fr (gs ++ [g]) c =
    comp_members fr gs c ++ if decide (r = c) then [(g, x)] else [].
Proof.
  intros Hr. unfold comp_members. rewrite omap_app. f_equal. cbn. rewrite Hr. by case_decide.
Qed.

Lemma comp_members_NoDup fr gs c : NoDup gs → NoDup (comp_members fr gs c).*1.
Proof.
  induction 1 as [|g gs Hg Hnd IH]; [constructor|]. unfold comp_members. cbn [omap list_omap].
  fold (comp_members fr gs c). destruct (resolve fr g) as [[r x]|]; [|done].
  case_decide; [|done]. rewrite fmap_cons. apply NoDup_cons. split; [|done].
  intros ([g' y] & Heq & Hin)%list_elem_of_fmap. cbn in Heq. subst g'.
  by apply elem_of_comp_members in Hin as [? _].
Qed.

Definition members_inv (fr : forest) (visited : list string)
    (d : list (string * list (string * (Z * Z)))) : Prop :=
  NoDup (dict_keys d) ∧
  ∀ c, dict_get d c = match comp_members fr visited c with [] => None | l => Some l end.

Lemma members_from_spec fr gs :
  Forall (λ g, is_Some (resolve fr g)) gs →
  ∃ M, members_from fr [] gs = Some M ∧ members_inv fr gs M.
Proof.
  intros Hres. cut (∀ visited d, members_inv fr visited d →
    ∃ M, members_from fr d gs = Some M ∧ members_inv fr (visited ++ gs) M).
  { intros H. apply (H [] []). split; [constructor|done]. }
  induction Hres as [|g gs [[r x] Hr] Hres IH]; intros visited d [Hnd Hd].
  { exists d. rewrite app_nil_r. done. }
  cbn. rewrite Hr. cbn. replace (visited ++ g :: gs) with ((visited ++ [g]) ++ gs)
    by (by rewrite <-app_assoc). apply IH. split; [by apply dict_set_NoDup|].
  intros c. rewrite dict_get_set, (comp_members_snoc _ _ _ _ _ _ Hr), !Hd.
  destruct (decide (c = r)) as [->|Hc].
  - rewrite decide_True by done. by destruct (comp_members fr visited r).
  - rewrite decide_False by done. by rewrite app_nil_r.
Qed.

Definition fractions_pos (members : list (string * (Z * Z))) : Prop :=
  Forall (λ m, 0 < m.2.1 ∧ 0 < m.2.2) members.

Lemma common_scale_spec members :
  fractions_pos members →
  0 < common_scale members ∧ Forall (λ m, (m.2.2 | common_scale members)) members.
Proof.
  intros Hpos. unfold common_scale.
  apply (foldl_inv (λ visited scale, 0 < scale ∧ Forall (λ m : string * (Z * Z), (m.2.2 | scale)) visited)).
  { split; [lia|constructor]. }
  intros visited m rest scale Hm [Hs Hdiv]. subst members.
  apply Forall_app in Hpos as [_ [[_ Hd] _]%Forall_cons].
  assert (Hg : 0 < Z.gcd scale m.2.2)
    by (pose proof (Z.gcd_nonneg scale m.2.2); pose proof (Z.gcd_eq_0_l scale m.2.2); lia).
  destruct (Z.gcd_divide_l scale m.2.2) as [a Ha], (Z.gcd_divide_r scale m.2.2) as [b Hb].
  assert (E : scale * m.2.2 / Z.gcd scale m.2.2 = scale * b).
  { rewrite Hb at 1. rewrite Z.mul_assoc, Z.div_mul by lia. done. }
  rewrite E. split; [nia|]. apply Forall_app. split.
  - eapply Forall_impl; [exact Hdiv|]. intros m' Hm'. by apply Z.divide_mul_l.
  - constructor; [|done]. exists a. rewrite Hb, Ha at 1. ring.
Qed.

Lemma gcd_fold_spec l :
  Forall (Z.lt 0) l → l ≠ [] →
  0 < foldl (λ s c : Z, Z.gcd s c) 0 l ∧ Forall (λ c, (foldl (λ s c : Z, Z.gcd s c) 0 l | c)) l.
Proof.
  intros Hpos Hne. pose proof (foldl_inv (λ visited s, 0 ≤ s ∧ (visited ≠ [] → 0 < s) ∧
    Forall (λ c, (s | c)) visited) (λ s c : Z, Z.gcd s c) l 0) as H.
  destruct H as (_ & Hs & Hd); [split_and!; [lia|done|constructor]| |by split; [apply Hs|]].
  intros visited c rest s -> (Hs & _ & Hd). apply Forall_app in Hpos as [_ [Hc _]%Forall_cons].
  split_and!; [apply Z.gcd_nonneg| |].
  - intros _. pose proof (Z.gcd_nonneg s c). pose proof (Z.gcd_eq_0_r s c). lia.
  - apply Forall_app. split; [|constructor; [apply Z.gcd_divide_r|done]].
    eapply Forall_impl; [exact Hd|]. intros x Hx. cbn in Hx.
    eapply Z.divide_trans; [apply Z.gcd_divide_l|done].
Qed.

Lemma component_counts_spec members :
  fractions_pos members → members ≠ [] → NoDup members.*1 →
  dict_keys (component_counts members) = members.*1 ∧
  ∃ sm S, 0 < sm ∧ 0 < S ∧ ∀ g n d, (g, (n, d)) ∈ members → ∃ v,
    dict_get (component_counts members) g = Some v ∧ 0 < v ∧ v * (sm * d) = n * S.
Proof.
  intros Hpos Hne Hnd. destruct (common_scale_spec members Hpos) as [HS Hdiv].
  assert (Hkeys : dict_keys (component_counts members) = members.*1).
  { unfold component_counts. by rewrite <-!list_fmap_compose. }
  split; [done|]. set (S := common_scale members) in *.
  pose (counts := (λ m : string * (Z * Z), (m.1, m.2.1 * S / m.2.2)) <$> members).
  assert (Hc : ∀ g n d, (g, (n, d)) ∈ members → n * S / d * d = n * S ∧ 0 < n * S / d).
  { intros g n d Hin. unfold fractions_pos in Hpos.
    destruct (proj1 (Forall_forall _ _) Hpos _ Hin) as [Hn Hd].
    pose proof (proj1 (Forall_forall _ _) Hdiv _ Hin) as HdS. cbn in *.
    pose proof (div_of_divide (n * S) d Hd (Z.divide_mul_r _ _ _ HdS)). split; [done|nia]. }
  destruct (gcd_fold_spec counts.*2) as [Hsm Hsd].
  { apply Forall_fmap, Forall_fmap, Forall_forall. intros [g [n d]] Hin. by apply (Hc g n d). }
  { by destruct members. }
  set (sm := foldl (λ s c : Z, Z.gcd s c) 0 counts.*2) in *.
  exists sm, S. split_and!; [done..|]. intros g n d Hin. exists (n * S / d / sm).
  destruct (Hc g n d Hin) as [E Hp].
  assert (Hdsm : (sm | n * S / d)).
  { apply (proj1 (Forall_forall _ _) Hsd). apply list_elem_of_fmap. exists (g, n * S / d).
    split; [done|]. apply list_elem_of_fmap. by exists (g, (n, d)). }
  pose proof (div_of_divide _ _ Hsm Hdsm) as E2. split_and!.
  - apply elem_of_dict_get; [by rewrite Hkeys|]. unfold component_counts. fold S counts sm.
    apply list_elem_of_fmap. exists (g, n * S / d). split; [done|].
    apply list_elem_of_fmap. by exists (g, (n, d)).
  - nia.
  - rewrite Z.mul_assoc, E2. done.
Qed.

Lemma pack_component_other p L g :
  g ∉ L.*1 → fractions_pos L → L ≠ [] → NoDup L.*1 →
  dict_get (pack_component p L) g = dict_get p g.
Proof.
  intros Hg Hpos Hne Hnd. unfold pack_component. case_match; [done|].
  destruct (component_counts_spec L Hpos Hne Hnd) as [Hkeys _].
  rewrite dict_get_update by (by rewrite Hkeys).
  rewrite (proj2 (dict_get_None _ _)); [done|]. by rewrite Hkeys.
Qed.

Definition component_ok (L : list (string * (Z * Z))) : Prop :=
  fractions_pos L ∧ L ≠ [] ∧ NoDup L.*1.

Lemma pack_components_other p Ls g :
  Forall component_ok Ls → Forall (λ L, g ∉ L.*1) Ls →
  dict_get (foldl pack_component p Ls) g = dict_get p g.
Proof.
  intros Hok. revert p. induction Hok as [|L Ls (Hp & Hne & Hnd) Hok IH]; intros p Hg; [done|].
  apply Forall_cons in Hg as [HL Hg]. cbn. rewrite IH by done. by apply pack_component_other.
Qed.

(** The counts of the forest's groups: those of their component, or none when
    the group is alone in it. *)
Lemma packing_of_component fr gs M c g x :
  members_inv fr gs M → (∀ c, fractions_pos (comp_members fr gs c)) → NoDup gs →
  g ∈ gs → resolve fr g = Some (c, x) →
  let L := comp_members fr gs c in
  dict_get (foldl pack_component [] (dict_values M)) g =
    if (length L =? 1)%nat then None else dict_get (component_counts L) g.
Proof.
  intros [Hnd HM] Hpos Hgs Hg Hr L.
  assert (HgL : (g, x) ∈ L) by (by apply elem_of_comp_members).
  assert (HL : dict_get M c = Some L) by (rewrite HM; fold L; by destruct L; [set_solver|]).
  assert (Hval : ∀ c' L', (c', L') ∈ M → L' = comp_members fr gs c' ∧ L' ≠ []).
  { intros c' L' Hin. apply elem_of_dict_get in Hin; [|done]. rewrite HM in Hin.
    destruct (comp_members fr gs c') eqn:E; [done|]. injection Hin as <-. done. }
  assert (Hok : ∀ c' L', (c', L') ∈ M → component_ok L').
  { intros c' L' Hin. destruct (Hval _ _ Hin) as [-> Hne].
    split_and!; [done|done|by apply comp_members_NoDup]. }
  apply dict_get_elem_of, list_elem_of_split in HL as (A & B & HM').
  assert (Hother : ∀ N, (∀ p, p ∈ N → p ∈ M ∧ p.1 ≠ c) →
    Forall component_ok (dict_values N) ∧ Forall (λ L', g ∉ L'.*1) (dict_values N)).
  { intros N HN. split; apply Forall_fmap, Forall_forall; intros [c' L'] Hin;
      destruct (HN _ Hin) as [HinM Hc]; [by eapply Hok|]. cbn in *.
    destruct (Hval _ _ HinM) as [-> _]. intros ([g' y] & Heq & Hy)%list_elem_of_fmap.
    cbn in Heq. subst g'. apply elem_of_comp_members in Hy as [_ Hy]. congruence. }
  assert (HAB : ∀ p, p ∈ A ∨ p ∈ B → p.1 ≠ c).
  { intros p Hp Heq. rewrite HM' in Hnd. rewrite fmap_app, fmap_cons in Hnd.
    apply NoDup_app in Hnd as (_ & Hd1 & [Hd2 _]%NoDup_cons).
    destruct Hp as [Hp|Hp]; apply (list_elem_of_fmap_2 fst) in Hp; rewrite Heq in Hp.
    - apply (Hd1 c Hp). constructor.
    - done. }
  destruct (Hother A) as [HA1 HA2]; [set_solver|]. destruct (Hother B) as [HB1 HB2]; [set_solver|].
  rewrite HM', fmap_app, fmap_cons, foldl_app. cbn [foldl snd].
  rewrite pack_components_other by done. unfold pack_component at 1. case_match eqn:Hlen.
  - by rewrite pack_components_other.
  - destruct (component_counts_spec L) as [Hkeys _];
      [apply Hpos|by destruct L; [set_solver|]|by apply comp_members_NoDup|].
    rewrite dict_get_update by (rewrite Hkeys; by apply comp_members_NoDup).
    destruct (dict_get (component_counts L) g) eqn:E; [done|].
    apply dict_get_None in E. destruct E. rewrite Hkeys.
    by apply (list_elem_of_fmap_2 fst _ (g, x)).
Qed.

Definition count_of (p : list (string * Z)) (g : string) : Z := default 1 (dict_get p g).

Section forest_counts.
Context (groups : list string) (fr : forest) (links : nat) (gs : list string).
Context (M : list (string * list (string * (Z * Z)))).
Context (Hnd : NoDup groups) (Hi : forest_inv groups fr links) (Hperm : gs ≡ₚ groups).
Context (HM : members_inv fr gs M).

Let p := foldl pack_component [] (dict_values M).

Lemma forest_gs_NoDup : NoDup gs.
Proof. by rewrite Hperm. Qed.

Lemma forest_fractions_pos c : fractions_pos (comp_members fr gs c).
Proof.
  apply Forall_forall. intros [g [n d]] [Hg Hr]%elem_of_comp_members.
  rewrite Hperm in Hg. destruct (resolve_total groups fr links g Hi Hg) as (? & ? & ? & E & _ & _ & ?).
  rewrite E in Hr. by simplify_eq.
Qed.

Lemma forest_counts_spec c g n d :
  (g, (n, d)) ∈ comp_members fr gs c →
  ∃ sm S, 0 < sm ∧ ∀ g' n' d', (g', (n', d')) ∈ comp_members fr gs c → ∃ v,
    dict_get (component_counts (comp_members fr gs c)) g' = Some v ∧ 0 < v ∧ v * (sm * d') = n' * S.
Proof.
  intros Hin.
  destruct (component_counts_spec (comp_members fr gs c)) as (_ & sm & S & Hsm & _ & Hv);
    [apply forest_fractions_pos|by eapply elem_of_ne_nil
    |apply comp_members_NoDup, forest_gs_NoDup|]. eauto.
Qed.

Lemma forest_count g c n d :
  g ∈ gs → resolve fr g = Some (c, (n, d)) →
  0 < count_of p g ∧ (length (comp_members fr gs c) ≠ 1%nat →
    dict_get p g = dict_get (component_counts (comp_members fr gs c)) g).
Proof.
  intros Hg Hr. unfold count_of, p.
  rewrite (packing_of_component fr gs M c g (n, d));
    [|done|apply forest_fractions_pos|apply forest_gs_NoDup|done..].
  destruct (Nat.eqb_spec (length (comp_members fr gs c)) 1) as [E|E]; [split; [cbn; lia|done]|].
  split; [|done]. assert (Hin : (g, (n, d)) ∈ comp_members fr gs c) by (by apply elem_of_comp_members).
  destruct (forest_counts_spec c g n d Hin) as (sm & S & _ & Hv).
  destruct (Hv _ _ _ Hin) as (v & -> & ? & _). done.
Qed.

Lemma forest_count_pos g : 0 < count_of p g.
Proof.
  destruct (decide (g ∈ gs)) as [Hg|Hg].
  - assert (Hg' : g ∈ groups) by (by rewrite <-Hperm).
    destruct (resolve_total groups fr links g Hi Hg') as (c & n & d & Hr & _).
    by apply (forest_count g c n d Hg Hr).
  - unfold count_of, p. assert (Hval : ∀ c L, (c, L) ∈ M → L = comp_members fr gs c ∧ L ≠ []).
    { intros c L Hin. destruct HM as [HMn HMg]. apply elem_of_dict_get in Hin; [|done].
      rewrite HMg in Hin. destruct (comp_members fr gs c) eqn:E; [done|]. by injection Hin as <-. }
    rewrite pack_components_other; [cbn; lia|..]; apply Forall_fmap, Forall_forall;
      intros [c L] Hin; destruct (Hval _ _ Hin) as [-> Hne]; cbn.
    + split_and!; [apply forest_fractions_pos|done|apply comp_members_NoDup, forest_gs_NoDup].
    + intros ([g' y] & Heq & Hy)%list_elem_of_fmap. cbn in Heq. subst g'.
      by apply elem_of_comp_members in Hy as [? _].
Qed.

(** The counts computed from a forest agree with it. *)
Lemma packing_satisfies : satisfies (count_of p) fr.
Proof.
  intros g h n d Hh Hrat.
  assert (Hg : g ∈ groups) by (rewrite <-(fi_keys _ _ _ Hi); apply dict_get_is_Some; eauto).
  destruct (fi_entry _ _ _ Hi g Hg) as (h' & n' & d' & E1 & Hhg & E2 & Hn & Hd & Hself).
  simplify_eq. destruct (decide (h = g)) as [->|Hne]; [by destruct (Hself eq_refl) as [-> ->]|].
  destruct (resolve_total groups fr links h Hi Hhg) as (c & a & b & Hrh & Hc & Hcr & Ha & Hb).
  assert (Hrg : resolve fr g = Some (c, (n * a, d * b))).
  { destruct (resolve_total groups fr links g Hi Hg) as (c' & a' & b' & Hrg & _). rewrite Hrg.
    f_equal. by apply (resolve_parent fr g h n d c (a, b)). }
  assert (Hinh : (h, (a, b)) ∈ comp_members fr gs c) by (apply elem_of_comp_members; by rewrite Hperm).
  assert (Hing : (g, (n * a, d * b)) ∈ comp_members fr gs c)
    by (apply elem_of_comp_members; by rewrite Hperm).
  assert (Hlen : length (comp_members fr gs c) ≠ 1%nat).
  { destruct (comp_members fr gs c) as [|m1 [|m2 ms]]; [set_solver| |done].
    apply list_elem_of_singleton in Hinh, Hing. congruence. }
  destruct (forest_counts_spec c g (n * a) (d * b) Hing) as (sm & S & Hsm & Hv).
  destruct (Hv _ _ _ Hinh) as (v & Ev & _ & Hvh), (Hv _ _ _ Hing) as (w & Ew & _ & Hwg).
  rewrite <-Hperm in Hg, Hhg. unfold count_of.
  rewrite (proj2 (forest_count g _ _ _ Hg Hrg) Hlen), (proj2 (forest_count h _ _ _ Hhg Hrh) Hlen),
    Ev, Ew. cbn. apply (Z.mul_reg_l _ _ (sm * b)); [nia|].
  replace (sm * b * (w * d)) with (w * (sm * (d * b))) by ring. rewrite Hwg.
  replace (sm * b * (v * n)) with (n * (v * (sm * b))) by ring. rewrite Hvh. ring.
Qed.
End forest_counts.

(** *** The constraints *)

(** [g] has an exact-stride field in plane [p], and the bytes of all of them. *)
Definition exact_in (p g : string) (e : entry) : Prop :=
  CacheFieldSpec.exact_page_stride e.2 = true ∧ CacheFieldSpec.plane_id e.2 = p ∧ e.1 = g.

#[export] Instance exact_in_dec p g e : Decision (exact_in p g e).
Proof. unfold exact_in. apply _. Defined.

Definition exact_tenant (entries : list entry) (p g : string) : Prop :=
  ∃ e, e ∈ entries ∧ exact_in p g e.

Definition exact_bytes (entries : list entry) (p g : string) : Z :=
  sumZ ((λ e : entry, CacheFieldSpec.payload_bytes e.2) <$> filter (exact_in p g) entries).

(** Every exact tenant of a plane fills the same bytes of a parent. *)
Definition fills_equally (entries : list entry) (K : string → Z) : Prop :=
  ∀ p g h, exact_tenant entries p g → exact_tenant entries p h →
    K g * exact_bytes entries p g = K h * exact_bytes entries p h.

Lemma exact_bytes_snoc entries e p g :
  exact_bytes (entries ++ [e]) p g =
    exact_bytes entries p g + if decide (exact_in p g e) then CacheFieldSpec.payload_bytes e.2 else 0.
Proof.
  unfold exact_bytes. rewrite filter_app, fmap_app, sumZ_app. f_equal.
  case_decide; [rewrite filter_cons_True by done|rewrite filter_cons_False by done]; cbn; lia.
Qed.

Lemma exact_bytes_nil entries p g : filter (exact_in p g) entries = [] → exact_bytes entries p g = 0.
Proof. unfold exact_bytes. by intros ->. Qed.

Definition exact_inv (visited : list entry) (d : list (string * list (string * Z))) : Prop :=
  dict2_ok d ∧ ∀ p g, dict_get2 d p g =
    match filter (exact_in p g) visited with [] => None | _ => Some (exact_bytes visited p g) end.

Lemma exact_by_plane_spec entries : exact_inv entries (exact_by_plane entries).
Proof.
  unfold exact_by_plane. apply (foldl_inv exact_inv); [split; [apply dict2_ok_nil|done]|].
  intros visited [g f] rest d _ [Hok Hget]. unfold exact_step.
  destruct (CacheFieldSpec.exact_page_stride f) eqn:Hx.
  - change (exact_inv (visited ++ [(g, f)]) (dict_set2 d (CacheFieldSpec.plane_id f) g
      (default 0 (dict_get2 d (CacheFieldSpec.plane_id f) g) + CacheFieldSpec.payload_bytes f))).
    split; [by apply dict2_ok_set2|]. intros p h. rewrite dict_get2_set2, filter_app, exact_bytes_snoc.
    destruct (decide (exact_in p h (g, f))) as [(_ & Hp & Hh)|Hn].
    + cbn in Hp, Hh. subst p h. rewrite decide_True by done.
      rewrite filter_cons_True by done. rewrite Hget.
      destruct (filter _ visited) eqn:E; cbn; [by rewrite exact_bytes_nil|done].
    + rewrite decide_False by (unfold exact_in in Hn; naive_solver).
      rewrite filter_cons_False by done. rewrite app_nil_r, Z.add_0_r. apply Hget.
  - split; [done|]. intros p h. rewrite filter_app, exact_bytes_snoc.
    rewrite filter_cons_False, decide_False by (intros [? _]; cbn in *; congruence).
    rewrite app_nil_r, Z.add_0_r. apply Hget.
Qed.

Lemma pairwise_chain {A B} (v : A → B) (l : list A) :
  Forall (λ c : A * A, v c.1 = v c.2) (pairwise l) ↔ ∀ x y, x ∈ l → y ∈ l → v x = v y.
Proof.
  unfold pairwise. induction l as [|a l IH]; [split; [set_solver|constructor]|].
  destruct l as [|b l].
  - cbn. split; [|constructor]. intros _ x y Hx Hy.
    apply list_elem_of_singleton in Hx, Hy. by subst.
  - change (zip (a :: b :: l) (tail (a :: b :: l))) with ((a, b) :: zip (b :: l) (tail (b :: l))).
    rewrite Forall_cons, IH. cbn [fst snd]. split.
    + intros [Hab Hl] x y. rewrite (elem_of_cons _ x), (elem_of_cons _ y).
      intros [->|Hx] [->|Hy]; [done|..|by apply Hl].
      * rewrite Hab. apply Hl; [constructor|done].
      * rewrite Hab. apply Hl; [done|constructor].
    + intros H. split; [apply H; repeat constructor|]. intros x y Hx Hy. apply H; by constructor.
Qed.

Lemma elem_of_pairwise {A} (l : list A) c : c ∈ pairwise l → c.1 ∈ l ∧ c.2 ∈ l.
Proof.
  destruct c as [x y]. intros Hc. unfold pairwise in Hc.
  pose proof (elem_of_zip_l _ _ _ _ Hc). apply elem_of_zip_r in Hc.
  split; [done|]. cbn. destruct l; [set_solver|]. by constructor.
Qed.

Lemma elem_of_sorted_items {V} (d : list (string * V)) x : x ∈ sorted_items d ↔ x ∈ d.
Proof. apply elem_of_py_sorted. Qed.

Section constraints.
Context (entries : list entry).

Lemma exact_tenant_get p g :
  exact_tenant entries p g ↔
  dict_get2 (exact_by_plane entries) p g = Some (exact_bytes entries p g).
Proof.
  destruct (exact_by_plane_spec entries) as [_ Hget]. rewrite Hget. unfold exact_tenant. split.
  - intros (e & He & Hx). assert (Hin : e ∈ filter (exact_in p g) entries)
      by (by apply list_elem_of_filter). destruct (filter _ entries); [set_solver|done].
  - destruct (filter _ entries) as [|e l] eqn:E; [done|]. intros _. exists e.
    assert (e ∈ filter (exact_in p g) entries) as [? ?]%list_elem_of_filter
      by (rewrite E; constructor). done.
Qed.

Lemma elem_of_tenants p m x :
  (p, m) ∈ exact_by_plane entries → x ∈ m →
  exact_tenant entries p x.1 ∧ x.2 = exact_bytes entries p x.1.
Proof.
  destruct (exact_by_plane_spec entries) as [Hok Hget]. intros Hm Hx. destruct x as [g b].
  pose proof (dict_get2_elem _ _ _ _ _ Hok Hm Hx) as H.
  assert (b = exact_bytes entries p g) as ->.
  { rewrite Hget in H. by case_match; simplify_eq. }
  split; [|done]. by apply exact_tenant_get.
Qed.

Lemma constraints_fill K :
  Forall (holds K) (exact_constraints entries) ↔ fills_equally entries K.
Proof.
  unfold exact_constraints, fills_equally. rewrite Forall_forall. split.
  - intros H p g h Hg Hh. apply exact_tenant_get in Hg, Hh.
    apply elem_dict_get2 in Hg as (m & Hm & Hg). apply elem_dict_get2 in Hh as (m' & Hm' & Hh).
    assert (m' = m) as ->.
    { destruct (exact_by_plane_spec entries) as [[Hnd _] _].
      apply elem_of_dict_get in Hm, Hm'; [congruence|done..]. }
    apply (proj1 (pairwise_chain (λ x : string * Z, K x.1 * x.2) (sorted_items m)))
      with (x := (g, _)) (y := (h, _)); [|by apply elem_of_sorted_items..].
    apply Forall_forall. intros c Hc. apply (H c), elem_of_concat.
    exists (pairwise (sorted_items m)). split; [|done].
    apply list_elem_of_fmap. exists (p, m). split; [done|]. by apply elem_of_sorted_items.
  - intros H c (l & (pm & -> & Hpm)%list_elem_of_fmap & Hc)%elem_of_concat. destruct pm as [p m].
    rewrite elem_of_sorted_items in Hpm. apply elem_of_pairwise in Hc as [H1 H2].
    cbn [snd] in H1, H2. rewrite elem_of_sorted_items in H1, H2.
    destruct (elem_of_tenants p m _ Hpm H1) as [T1 E1], (elem_of_tenants p m _ Hpm H2) as [T2 E2].
    unfold holds. rewrite E1, E2. by apply H.
Qed.

Lemma exact_bytes_pos p g :
  Forall entry_ok entries → exact_tenant entries p g → 0 < exact_bytes entries p g.
Proof.
  intros Hok (e & He & Hx). unfold exact_bytes.
  assert (Hin : e ∈ filter (exact_in p g) entries) by (by apply list_elem_of_filter).
  assert (Hall : Forall entry_ok (filter (exact_in p g) entries)).
  { apply Forall_forall. intros x [_ Hx']%list_elem_of_filter.
    by apply (proj1 (Forall_forall _ _) Hok). }
  destruct (filter _ entries) as [|e0 l]; [set_solver|]. rewrite fmap_cons, sumZ_cons.
  apply Forall_cons in Hall as [H0 Hl]. apply entry_payload_pos in H0.
  assert (0 ≤ sumZ ((λ e : entry, CacheFieldSpec.payload_bytes e.2) <$> l)); [|lia].
  apply sumZ_nonneg, Forall_fmap. eapply Forall_impl; [exact Hl|].
  intros x Hx'%entry_payload_pos. cbn. lia.
Qed.

Lemma constraints_ok :
  Forall entry_ok entries →
  Forall (constraint_ok (remove_dups entries.*1)) (exact_constraints entries).
Proof.
  intros Hok. apply Forall_forall. unfold exact_constraints.
  intros c (l & (pm & -> & Hpm)%list_elem_of_fmap & Hc)%elem_of_concat. destruct pm as [p m].
  rewrite elem_of_sorted_items in Hpm. apply elem_of_pairwise in Hc as [H1 H2].
  cbn [snd] in H1, H2. rewrite elem_of_sorted_items in H1, H2.
  assert (Hone : ∀ x, x ∈ m → x.1 ∈ remove_dups entries.*1 ∧ 0 < x.2).
  { intros x Hx. destruct (elem_of_tenants p m _ Hpm Hx) as [Ht ->].
    split; [|by apply exact_bytes_pos]. destruct Ht as (e & He & _ & _ & <-).
    by apply elem_of_remove_dups, list_elem_of_fmap_2. }
  destruct (Hone _ H1), (Hone _ H2). done.
Qed.

(** The solver never runs out of fuel; it finds counts under which the exact
    tenants of every plane fill the same bytes, or there are none. *)
Lemma solve_packing_spec :
  Forall entry_ok entries →
  match _solve_packing entries with
  | None => False
  | Some None => ∀ K, positive_counts K → ¬ fills_equally entries K
  | Some (Some p) => positive_counts (count_of p) ∧ fills_equally entries (count_of p)
  end.
Proof.
  intros Hok. unfold _solve_packing. set (groups := remove_dups entries.*1).
  assert (Hnd : NoDup groups) by apply NoDup_remove_dups.
  pose proof (link_all_spec groups Hnd _ 0 (exact_constraints entries) (initial_inv groups Hnd)
    (constraints_ok Hok)) as Hl.
  destruct (link_all _ _) as [fr| |]; [|..|done].
  - destruct Hl as (links & Hi & Hsat).
    destruct (members_from_spec fr (py_sorted str_leb groups)) as (M & HM & Hinv).
    { apply Forall_forall. intros g Hg. apply elem_of_py_sorted in Hg.
      destruct (resolve_total groups fr links g Hi Hg) as (? & ? & ? & -> & _). eauto. }
    rewrite HM. cbn. pose proof (py_sorted_perm str_leb groups) as Hperm.
    assert (Hpos : positive_counts (count_of (foldl pack_component [] (dict_values M)))).
    { intros g. by apply (forest_count_pos groups fr links (py_sorted str_leb groups)). }
    split; [done|]. apply constraints_fill. apply Hsat; [done|].
    by apply (packing_satisfies groups fr links (py_sorted str_leb groups)).
  - intros K HK Hfill. apply (Hl K HK); [apply initial_satisfies|]. by apply constraints_fill.
Qed.
End constraints.

(** ** The packing counts are positive *)

Definition values_pos (d : list (string * Z)) : Prop := Forall (λ p, 0 < p.2) d.

Lemma values_pos_get d g v : values_pos d → dict_get d g = Some v → 0 < v.
Proof.
  intros Hd Hg. apply dict_get_elem_of in Hg. by apply (proj1 (Forall_forall _ _) Hd _ Hg).
Qed.

Lemma values_pos_set d g v : values_pos d → 0 < v → values_pos (dict_set d g v).
Proof.
  intros Hd Hv. induction Hd as [|[g' v'] d Hd' Hd IH]; cbn; [by repeat constructor|].
  case_decide; constructor; done.
Qed.

Lemma values_pos_update d d2 : values_pos d → values_pos d2 → values_pos (dict_update d d2).
Proof.
  unfold dict_update. intros Hd Hd2. revert d Hd.
  induction Hd2 as [|[g v] d2 Hv Hd2 IH]; intros d Hd; cbn; [done|].
  by apply IH, values_pos_set.
Qed.

(** A packing with a positive count for every group. *)
Definition counts_ok (packing : list (string * Z)) (ids : list string) : Prop :=
  values_pos packing ∧ ∀ g, g ∈ ids → g ∈ dict_keys packing.

Lemma counts_ok_perm packing ids ids' :
  ids ≡ₚ ids' → counts_ok packing ids → counts_ok packing ids'.
Proof. intros Hp [Hv Hk]. split; [done|]. intros g Hg. apply Hk. by rewrite Hp. Qed.

Lemma solve_packing_values entries p :
  Forall entry_ok entries → _solve_packing entries = Some (Some p) → values_pos p.
Proof.
  intros Hok Hp. pose proof (solve_packing_spec entries Hok) as Hs. rewrite Hp in Hs.
  assert (Hnd : NoDup (dict_keys p)).
  { unfold _solve_packing in Hp. destruct (link_all _ _); [|done..].
    destruct (members_from _ _ _) as [M|]; [|done]. cbn in Hp. simplify_eq.
    apply (foldl_inv (λ _ p, NoDup (dict_keys p))); [constructor|].
    intros. unfold pack_component. case_match; [done|]. by apply dict_update_NoDup. }
  apply Forall_forall. intros [g v] Hin. apply elem_of_dict_get in Hin; [|done].
  destruct Hs as [Hpos _]. specialize (Hpos g). unfold count_of in Hpos. by rewrite Hin in Hpos.
Qed.

Lemma foldr_max_nonneg l x : x ∈ l → x ≤ foldr Z.max 0 l.
Proof. induction l as [|y l IH]; [set_solver|]. intros [->|?]%elem_of_cons; cbn; [lia|]. specialize (IH H). lia. Qed.

Lemma ratio_counts raw :
  values_pos raw → values_pos (_packing_by_group_ratio raw) ∧
  dict_keys (_packing_by_group_ratio raw) = dict_keys raw.
Proof.
  intros Hpos. unfold _packing_by_group_ratio. split; [|by rewrite <-list_fmap_compose].
  apply Forall_fmap, Forall_forall. intros [g v] Hin. cbn.
  pose proof (proj1 (Forall_forall _ _) Hpos _ Hin) as Hv. cbn in Hv.
  assert (Hmax : v ≤ max_payload raw) by (apply foldr_max_nonneg; by apply (list_elem_of_fmap_2 snd _ (g, v))).
  assert (Hq : 1 ≤ max_payload raw / v) by (apply Z.div_le_lower_bound; lia).
  unfold bit_length. rewrite (proj2 (Z.eqb_neq _ 0)) by lia.
  pose proof (Z.log2_nonneg (max_payload raw / v)).
  replace (Z.log2 (max_payload raw / v) + 1 - 1) with (Z.log2 (max_payload raw / v)) by lia.
  rewrite Z.shiftl_mul_pow2 by lia. pose proof (Z.pow_pos_nonneg 2 (Z.log2 (max_payload raw / v))). lia.
Qed.

Lemma raw_values_pos entries raw : Forall entry_ok entries → raw_inv entries raw → values_pos raw.
Proof.
  intros Hok Hr. apply Forall_forall. intros [g v] Hin.
  apply elem_of_dict_get in Hin; [|apply Hr]. rewrite (ri_get _ _ Hr) in Hin.
  case_decide as Hg; [|done]. injection Hin as <-. cbn. unfold raw_of. clear Hr.
  induction Hok as [|e entries He Hok IH]; [set_solver|]. rewrite filter_cons. csimpl in Hg.
  assert (Hrest : 0 ≤ sumZ ((λ e : entry, CacheFieldSpec.payload_bytes e.2) <$>
    filter (λ e : entry, e.1 = g) entries)).
  { apply sumZ_nonneg, Forall_fmap, Forall_forall. intros x [_ Hx]%list_elem_of_filter.
    apply (proj1 (Forall_forall _ _) Hok), entry_payload_pos in Hx. cbn. lia. }
  case_decide as Heg; [rewrite fmap_cons, sumZ_cons; apply entry_payload_pos in He; lia|].
  apply IH. by apply elem_of_cons in Hg as [->|?].
Qed.

Lemma choose_packing_ok entries raw pinned ids packing :
  Forall entry_ok entries → raw_inv entries raw → ids ≡ₚ dict_keys raw →
  choose_packing entries raw pinned ids = Ok packing → counts_ok packing ids.
Proof.
  intros Hok Hr Hids H. unfold choose_packing in H. inv_ok.
  assert (Hpin : values_pos pinned).
  { apply existsb_false_Forall, Forall_fmap in Hr1. eapply Forall_impl; [exact Hr1|].
    cbn. intros x Hx. lia. }
  case_match eqn:Hall; inv_ok.
  - split; [done|]. intros g Hg. rewrite forallb_forall in Hall.
    apply list_elem_of_In, Hall, py_in_true in Hg. done.
  - destruct (ratio_counts raw (raw_values_pos _ _ Hok Hr)) as [Hv Hk]. split.
    + repeat apply values_pos_update; [done| |done].
      destruct r as [p|]; [by eapply solve_packing_values|constructor].
    + intros g Hg. rewrite !elem_of_dict_keys_update, Hk, <-Hids. auto.
Qed.

Lemma elem_of_countdown n x : x ∈ countdown n → 1 ≤ x ≤ n.
Proof. unfold countdown. rewrite elem_of_reverse. intros Hx%elem_of_seqZ. lia. Qed.

Lemma flexible_step_ok planes s fixed packing g ids :
  counts_ok packing ids → counts_ok (flexible_step planes s fixed packing g) ids.
Proof.
  intros [Hv Hk]. unfold flexible_step. case_match; [done|].
  destruct (filter _ (countdown _)) as [|count l] eqn:Hf; [done|].
  assert (Hc : count ∈ count :: l) by constructor. rewrite <-Hf in Hc.
  apply list_elem_of_filter in Hc as [_ Hc]. apply elem_of_countdown in Hc. split.
  - apply values_pos_set; [done|lia].
  - intros g' Hg'. apply elem_of_dict_keys_set. auto.
Qed.

Lemma revisit_flexible_ok entries ids planes s alignment pinned packing packing' :
  counts_ok packing ids →
  revisit_flexible entries ids planes s alignment pinned packing = Ok packing' →
  counts_ok packing' ids.
Proof.
  intros Hc H. unfold revisit_flexible in H. case_match; inv_ok; [done|].
  apply (foldl_inv (λ _ p, counts_ok p ids)); [done|]. intros. by apply flexible_step_ok.
Qed.

(** ** Placing the fields *)

(** The fields of one group in one plane, in order. *)
Definition fields_at (entries : list entry) (p g : string) : list CacheFieldSpec.t :=
  (filter (λ e : entry, CacheFieldSpec.plane_id e.2 = p ∧ e.1 = g) entries).*2.

Lemma fields_at_snoc entries e p g :
  fields_at (entries ++ [e]) p g =
    fields_at entries p g ++
      if decide (CacheFieldSpec.plane_id e.2 = p ∧ e.1 = g) then [e.2] else [].
Proof.
  unfold fields_at. rewrite filter_app, fmap_app. f_equal.
  case_decide; [by rewrite filter_cons_True|by rewrite filter_cons_False].
Qed.

Lemma elem_of_fields_at entries p g f :
  f ∈ fields_at entries p g ↔ (g, f) ∈ entries ∧ CacheFieldSpec.plane_id f = p.
Proof.
  unfold fields_at. rewrite list_elem_of_fmap. split.
  - intros ([g' f'] & -> & [[Hp Hg] He]%list_elem_of_filter). cbn in *. by subst.
  - intros [He Hp]. exists (g, f). split; [done|]. by apply list_elem_of_filter.
Qed.

Definition planes_inv (visited : list entry) (d : plane_map) : Prop :=
  dict2_ok d ∧
  ∀ p g, dict_get2 d p g = match fields_at visited p g with [] => None | l => Some l end.

Lemma plane_fields_spec entries : planes_inv entries (plane_fields entries).
Proof.
  unfold plane_fields. apply (foldl_inv planes_inv); [split; [apply dict2_ok_nil|done]|].
  intros visited [g f] rest d _ [Hok Hget].
  change (planes_inv (visited ++ [(g, f)]) (dict_set2 d (CacheFieldSpec.plane_id f) g
    (default [] (dict_get2 d (CacheFieldSpec.plane_id f) g) ++ [f]))).
  split; [by apply dict2_ok_set2|]. intros p h. rewrite dict_get2_set2, fields_at_snoc, !Hget.
  cbn [fst snd]. destruct (decide (CacheFieldSpec.plane_id f = p ∧ g = h)) as [[<- <-]|Hn].
  - rewrite decide_True by done. by destruct (fields_at visited _ g).
  - rewrite decide_False by naive_solver. by rewrite app_nil_r.
Qed.

(** The pairs of a plane and one of its groups, in loop order. *)
Definition slots (planes : plane_map) : list (string * (string * list CacheFieldSpec.t)) :=
  concat ((λ plane : string * list (string * list CacheFieldSpec.t),
    (λ g, (plane.1, g)) <$> plane.2) <$> planes).

Lemma elem_of_slots planes p g fs :
  (p, (g, fs)) ∈ slots planes ↔ ∃ m, (p, m) ∈ planes ∧ (g, fs) ∈ m.
Proof.
  unfold slots. rewrite elem_of_concat. split.
  - intros (l & ([p' m] & -> & Hm)%list_elem_of_fmap & (x & [= -> <-] & Hx)%list_elem_of_fmap). eauto.
  - intros (m & Hm & Hg). eexists. split; [apply list_elem_of_fmap; by exists (p, m)|].
    apply list_elem_of_fmap. by exists (g, fs).
Qed.

Lemma slots_NoDup planes :
  dict2_ok planes → NoDup ((λ t, (t.1, t.2.1)) <$> slots planes).
Proof.
  intros [Hnd Hin]. induction planes as [|[p m] planes IH]; [constructor|].
  unfold slots. rewrite fmap_cons. cbn [concat]. rewrite fmap_app.
  rewrite fmap_cons in Hnd. apply NoDup_cons in Hnd as [Hp Hnd]. apply NoDup_app. split_and!.
  - rewrite <-list_fmap_compose. destruct (Hin p m) as [Hm _]; [constructor|].
    change (NoDup ((λ g : string, (p, g)) ∘ fst <$> m)).
    rewrite list_fmap_compose. by apply NoDup_fmap_2; [intros ?? [= ->]|].
  - intros [p' g'] (t & Ht & (x & -> & Hx)%list_elem_of_fmap)%list_elem_of_fmap.
    cbn in Ht. injection Ht as -> ->. intros ([p2 [g2 fs2]] & Heq & H2)%list_elem_of_fmap.
    cbn in Heq. injection Heq as <- _. apply elem_of_slots in H2 as (m2 & H2 & _).
    apply Hp. by apply (list_elem_of_fmap_2 fst _ (p, m2)).
  - apply IH; [done|]. intros k1 m' Hm'. apply (Hin k1). by constructor.
Qed.

Lemma slots_foldl {S} (f : S → string → string * list CacheFieldSpec.t → S) s planes :
  foldl (λ s plane, foldl (λ s g, f s plane.1 g) s plane.2) s planes =
  foldl (λ s t, f s t.1 t.2) s (slots planes).
Proof.
  revert s. induction planes as [|[p m] planes IH]; intros s; [done|].
  unfold slots. rewrite fmap_cons. cbn [foldl concat]. rewrite foldl_app, IH. f_equal.
  clear IH. cbn [fst snd]. revert s. induction m as [|g m IH]; intros s; [done|]. cbn. apply IH.
Qed.

(** Reference placement: aligned positions one after another. *)
Fixpoint positions (offset : Z) (fields : list CacheFieldSpec.t) : list Z :=
  match fields with
  | [] => []
  | f :: fields =>
      let o := align_up offset (CacheFieldSpec.element_size f) in
      o :: positions (o + CacheFieldSpec.payload_bytes f) fields
  end.

Fixpoint end_of (offset : Z) (fields : list CacheFieldSpec.t) : Z :=
  match fields with
  | [] => offset
  | f :: fields => end_of (align_up offset (CacheFieldSpec.element_size f)
                           + CacheFieldSpec.payload_bytes f) fields
  end.

Lemma place_fields_spec fo offset fs :
  place_fields fo offset fs =
    (dict_update fo (zip (CacheFieldSpec.field_id <$> fs) (positions offset fs)), end_of offset fs).
Proof.
  revert fo offset. induction fs as [|f fs IH]; intros fo offset; [done|].
  cbn [place_fields]. rewrite IH. done.
Qed.

Lemma length_positions offset fs : length (positions offset fs) = length fs.
Proof. revert offset. induction fs as [|f fs IH]; intros; cbn; [done|]. by rewrite IH. Qed.

(** Fields with positive sizes. *)
Definition sized (f : CacheFieldSpec.t) : Prop :=
  0 < CacheFieldSpec.element_size f ∧ 0 < CacheFieldSpec.payload_bytes f.

Lemma end_of_ge offset fs : Forall sized fs → offset ≤ end_of offset fs.
Proof.
  intros Hs. revert offset. induction Hs as [|f fs [He Hp] Hs IH]; intros offset; cbn [end_of]; [lia|].
  pose proof (align_up_ge offset _ He). specialize (IH (align_up offset
    (CacheFieldSpec.element_size f) + CacheFieldSpec.payload_bytes f)). lia.
Qed.

Lemma positions_spec offset fs i f o :
  Forall sized fs → fs !! i = Some f → positions offset fs !! i = Some o →
  offset ≤ o ∧ (CacheFieldSpec.element_size f | o) ∧
  o + CacheFieldSpec.payload_bytes f ≤ end_of offset fs.
Proof.
  intros Hs. revert offset i. induction Hs as [|f0 fs [He Hp] Hs IH]; intros offset i; [done|].
  pose proof (align_up_ge offset _ He) as Hge.
  cbn [positions end_of]. destruct i as [|i]; cbn [lookup list_lookup].
  - intros [= <-] [= <-]. split_and!; [done|apply align_up_divide|by apply end_of_ge].
  - intros Hf Ho. destruct (IH _ i Hf Ho) as (? & ? & ?). split_and!; [lia|done|done].
Qed.

Lemma positions_apart offset fs i j f o q :
  Forall sized fs → (i < j)%nat → fs !! i = Some f →
  positions offset fs !! i = Some o → positions offset fs !! j = Some q →
  o + CacheFieldSpec.payload_bytes f ≤ q.
Proof.
  intros Hs. revert offset i j. induction Hs as [|f0 fs [He Hp] Hs IH]; intros offset i j; [done|].
  cbn [positions]. destruct j as [|j]; [lia|].
  destruct i as [|i]; intros Hij; cbn [lookup list_lookup].
  - intros [= <-] [= <-] Hq.
    assert (Hj : (j < length fs)%nat) by (rewrite <-(length_positions (align_up offset
      (CacheFieldSpec.element_size f0) + CacheFieldSpec.payload_bytes f0)); by eapply lookup_lt_Some).
    apply lookup_lt_is_Some in Hj as [g Hg].
    by destruct (positions_spec _ fs j g q Hs Hg Hq).
  - intros. eapply IH; [|done..]. lia.
Qed.

Record placed (visited : list (string * (string * list CacheFieldSpec.t))) (s : offsets) : Prop := {
  pl_bytes : ∀ p g fs, (p, (g, fs)) ∈ visited →
    dict_get2 (group_plane_bytes s) g p = Some (end_of 0 fs);
  pl_offset : ∀ p g fs i f, (p, (g, fs)) ∈ visited → fs !! i = Some f →
    dict_get (field_offsets s) (CacheFieldSpec.field_id f) = positions 0 fs !! i;
}.

(** Slots whose fields have identifiers of their own. *)
Record slots_ok (T : list (string * (string * list CacheFieldSpec.t))) : Prop := {
  so_keys : NoDup ((λ t, (t.1, t.2.1)) <$> T);
  so_ids : ∀ t, t ∈ T → NoDup (CacheFieldSpec.field_id <$> t.2.2);
  so_apart : ∀ t u f h, t ∈ T → u ∈ T → f ∈ t.2.2 → h ∈ u.2.2 →
    CacheFieldSpec.field_id f = CacheFieldSpec.field_id h → (t.1, t.2.1) = (u.1, u.2.1);
}.

Lemma zip_ids_keys fs : (zip (CacheFieldSpec.field_id <$> fs) (positions 0 fs)).*1 = CacheFieldSpec.field_id <$> fs.
Proof. rewrite fst_zip; [done|]. rewrite length_fmap, length_positions. lia. Qed.

Lemma place_group_step T visited t rest s :
  slots_ok T → T = visited ++ t :: rest → placed visited s → placed (visited ++ [t]) (place_group s t.1 t.2).
Proof.
  intros HT -> [Hb Ho]. destruct t as [p [g fs]]. unfold place_group. cbn [fst snd].
  rewrite place_fields_spec. cbn [fst snd].
  assert (Hkey : ∀ p' g' fs', (p', (g', fs')) ∈ visited → ¬ (g' = g ∧ p' = p)).
  { intros p' g' fs' Hin [-> ->]. pose proof (so_keys _ HT) as Hk. rewrite fmap_app, fmap_cons in Hk.
    apply NoDup_app in Hk as (_ & Hd & _). apply (Hd (p, g)); [|constructor].
    by apply (list_elem_of_fmap_2 (λ t : string * (string * list CacheFieldSpec.t), (t.1, t.2.1)) _
      (p, (g, fs'))). }
  pose proof (so_ids _ HT (p, (g, fs)) ltac:(set_solver)) as Hids. cbn in Hids.
  split; cbn [group_plane_bytes field_offsets].
  - intros p' g' fs' Hin.
    change (dict_get2 (dict_set2 (group_plane_bytes s) g p (end_of 0 fs)) g' p' = Some (end_of 0 fs')).
    rewrite dict_get2_set2. apply elem_of_app in Hin as [Hin|Hin].
    + rewrite decide_False by (by eapply Hkey). by apply Hb.
    + apply list_elem_of_singleton in Hin as [= -> -> ->]. by rewrite decide_True.
  - intros p' g' fs' i f Hin Hf. rewrite dict_get_update by (by rewrite zip_ids_keys).
    apply elem_of_app in Hin as [Hin|Hin].
    + rewrite (proj2 (dict_get_None _ _)); [by eapply Ho|]. rewrite zip_ids_keys.
      intros (h & Hid & Hh)%list_elem_of_fmap.
      pose proof (so_apart _ HT (p', (g', fs')) (p, (g, fs)) f h) as Heq. cbn in Heq.
      apply (Hkey _ _ _ Hin). assert ((p', g') = (p, g)) as [= -> ->]; [|done].
      apply Heq; [set_solver|set_solver|by eapply list_elem_of_lookup_2|done|done].
    + apply list_elem_of_singleton in Hin as [= -> -> ->].
      assert (Hi : (i < length (positions 0 fs))%nat)
        by (rewrite length_positions; by eapply lookup_lt_Some).
      apply lookup_lt_is_Some in Hi as [o Hi]. rewrite Hi.
      rewrite (elem_of_dict_get _ (CacheFieldSpec.field_id f) o); [done|by rewrite zip_ids_keys|].
      apply list_elem_of_lookup. exists i. rewrite lookup_zip_with, list_lookup_fmap, Hf. cbn.
      by rewrite Hi.
Qed.

Lemma place_all_spec planes : slots_ok (slots planes) → placed (slots planes) (place_all planes).
Proof.
  intros HT. unfold place_all. rewrite (slots_foldl place_group).
  apply (foldl_inv placed).
  { split; set_solver. }
  intros visited t rest s Heq Hp. by eapply place_group_step.
Qed.

Lemma slots_plane_fields entries p g fs :
  (p, (g, fs)) ∈ slots (plane_fields entries) ↔ fs = fields_at entries p g ∧ fs ≠ [].
Proof.
  destruct (plane_fields_spec entries) as [Hok Hget]. rewrite elem_of_slots. split.
  - intros (m & Hm & Hg). pose proof (dict_get2_elem _ _ _ _ _ Hok Hm Hg) as H.
    rewrite Hget in H. by destruct (fields_at entries p g); simplify_eq.
  - intros [-> Hne]. apply elem_dict_get2. rewrite Hget. by destruct (fields_at entries p g).
Qed.

Lemma slots_plane_fields_ok entries :
  NoDup ((λ e : entry, CacheFieldSpec.field_id e.2) <$> entries) →
  slots_ok (slots (plane_fields entries)).
Proof.
  intros Hnd. split.
  - apply slots_NoDup, plane_fields_spec.
  - intros [p [g fs]] [-> _]%slots_plane_fields. cbn. unfold fields_at.
    rewrite <-list_fmap_compose. eapply sublist_NoDup; [exact Hnd|].
    apply fmap_sublist, sublist_filter.
  - intros [p [g fs]] [p' [g' fs']] f h [-> _]%slots_plane_fields [-> _]%slots_plane_fields.
    cbn. intros [Hf <-]%elem_of_fields_at [Hh <-]%elem_of_fields_at Hid.
    assert ((g, f) = (g', h)) as [= -> ->]; [|done].
    apply list_elem_of_lookup in Hf as [i Hi], Hh as [j Hj].
    assert (i = j) as ->; [|congruence].
    apply (NoDup_lookup _ i j (CacheFieldSpec.field_id f) Hnd).
    + rewrite list_lookup_fmap. unfold entry. by rewrite Hi.
    + rewrite list_lookup_fmap. unfold entry. rewrite Hj. cbn. by rewrite Hid.
Qed.

(** ** Plane sizes *)

(** The alignment both requirements of a field impose. *)
Definition field_aligned (count n : Z) (f : CacheFieldSpec.t) : Prop :=
  (count * CacheFieldSpec.element_size f | n) ∧
  (count * CacheFieldSpec.page_stride_alignment_bytes f | n).

Lemma field_aligned_trans count n m f : (n | m) → field_aligned count n f → field_aligned count m f.
Proof. intros Hnm [H1 H2]. split; by eapply Z.divide_trans. Qed.

Definition alignable (f : CacheFieldSpec.t) : Prop :=
  0 < CacheFieldSpec.element_size f ∧ 0 < CacheFieldSpec.page_stride_alignment_bytes f.

Lemma field_alignment_fold count al fs al' :
  0 < count → 0 < al → Forall alignable fs →
  foldM (field_alignment_step count) al fs = Ok al' →
  0 < al' ∧ (al | al') ∧ Forall (field_aligned count al') fs.
Proof.
  intros Hc Hal Hfs. apply (foldM_ind (λ visited a, 0 < a ∧ (al | a) ∧ Forall (field_aligned count a) visited)).
  { split_and!; [done|apply Z.divide_refl|constructor]. }
  intros visited f rest a1 a2 -> (Ha1 & Hd & Hv) H. unfold field_alignment_step in H. inv_ok.
  apply Forall_app in Hfs as [_ [[He Hp] _]%Forall_cons].
  set (e := count * CacheFieldSpec.element_size f) in *.
  set (p := count * CacheFieldSpec.page_stride_alignment_bytes f) in *.
  assert (0 < e ∧ 0 < p) as [He' Hp'] by (unfold e, p; nia).
  pose proof (lcm_step_pos a1 e Ha1 He') as H1. pose proof (lcm_step_pos _ p H1 Hp') as H2.
  pose proof (lcm_step_divide_l _ p H1 Hp') as D2. pose proof (lcm_step_divide_l a1 e Ha1 He') as D1.
  split_and!; [done|by eapply Z.divide_trans; [|eapply Z.divide_trans]|].
  apply Forall_app. split.
  - eapply Forall_impl; [exact Hv|]. intros x Hx.
    eapply field_aligned_trans; [|exact Hx]. by eapply Z.divide_trans.
  - constructor; [|constructor]. split; [|apply lcm_step_divide_r].
    eapply Z.divide_trans; [apply lcm_step_divide_r|done].
Qed.

(** A plane of [b] bytes serves every group that has fields in it. *)
Definition plane_serves (packing : list (string * Z)) (s : offsets) (p : string) (b : Z)
    (g : string * list CacheFieldSpec.t) : Prop :=
  ∃ count bytes, dict_get packing g.1 = Some count ∧
    dict_get2 (group_plane_bytes s) g.1 p = Some bytes ∧
    count * bytes ≤ b ∧ Forall (field_aligned count b) g.2.

Lemma group_bytes_Ok s g p bytes :
  group_bytes s g p = Ok bytes → dict_get2 (group_plane_bytes s) g p = Some bytes.
Proof.
  unfold group_bytes, dict_index, dict_get2. intros H. inv_ok. rewrite Hr. done.
Qed.

Lemma plane_groups_fold packing s p alignment m req al :
  values_pos packing → 0 < alignment → Forall (λ g, Forall alignable g.2) m →
  foldM (plane_group_step packing s p) (0, alignment) m = Ok (req, al) →
  0 ≤ req ∧ 0 < al ∧ (alignment | al) ∧
  Forall (λ g : string * list CacheFieldSpec.t, ∃ count bytes,
    dict_get packing g.1 = Some count ∧ dict_get2 (group_plane_bytes s) g.1 p = Some bytes ∧
    count * bytes ≤ req ∧ Forall (field_aligned count al) g.2) m.
Proof.
  intros Hpos Hal Hm. pose (P (visited : list (string * list CacheFieldSpec.t)) (acc : Z * Z) :=
    0 ≤ acc.1 ∧ 0 < acc.2 ∧ (alignment | acc.2) ∧
    Forall (λ g : string * list CacheFieldSpec.t, ∃ count bytes,
      dict_get packing g.1 = Some count ∧ dict_get2 (group_plane_bytes s) g.1 p = Some bytes ∧
      count * bytes ≤ acc.1 ∧ Forall (field_aligned count acc.2) g.2) visited).
  apply (foldM_ind P).
  { split_and!; [done|done|apply Z.divide_refl|constructor]. }
  intros visited g rest [r1 a1] acc2 -> (Hr1 & Ha1 & Hd & Hv) H. unfold plane_group_step in H. inv_ok.
  apply Forall_app in Hm as [_ [Hg _]%Forall_cons]. cbn in *.
  unfold dict_index in Hr. inv_ok. apply group_bytes_Ok in Hr0. rename r into count, r0 into bytes.
  pose proof (values_pos_get _ _ _ Hpos Hr) as Hc.
  destruct (field_alignment_fold count a1 g.2 _ Hc Ha1 Hg Hr2) as (Ha2 & D & Hf).
  unfold P; cbn. split_and!; [lia|done|by eapply Z.divide_trans|]. apply Forall_app. split.
  - eapply Forall_impl; [exact Hv|]. intros g' (c & b & ? & ? & Hle & Hfs). exists c, b.
    split_and!; [done|done|lia|]. eapply Forall_impl; [exact Hfs|].
    intros f Hff. by eapply field_aligned_trans.
  - constructor; [|constructor]. exists count, bytes. split_and!; [done|done|lia|done].
Qed.

Lemma plane_bytes_serve packing s p alignment m req al :
  values_pos packing → 0 < alignment → Forall (λ g, Forall alignable g.2) m →
  foldM (plane_group_step packing s p) (0, alignment) m = Ok (req, al) →
  (alignment | align_up req al) ∧ Forall (plane_serves packing s p (align_up req al)) m.
Proof.
  intros Hpos Hal Hm H. destruct (plane_groups_fold _ _ _ _ _ _ _ Hpos Hal Hm H) as (Hr & Ha & D & Hf).
  pose proof (align_up_divide req al) as Dal. pose proof (align_up_ge req al Ha) as Hge.
  split; [by eapply Z.divide_trans|]. eapply Forall_impl; [exact Hf|].
  intros g (c & b & ? & ? & ? & Hfs). exists c, b. split_and!; [done|done|lia|].
  eapply Forall_impl; [exact Hfs|]. intros f Hff. by eapply field_aligned_trans.
Qed.

Record planes_sized (packing : list (string * Z)) (s : offsets) (alignment : Z)
    (visited : plane_map) (d : list (string * Z)) : Prop := {
  ps_keys : dict_keys d = dict_keys visited;
  ps_serve : ∀ p m, (p, m) ∈ visited → ∃ b, (p, b) ∈ d ∧ (alignment | b) ∧
    Forall (plane_serves packing s p b) m;
}.

Lemma dict_set_fresh {V} (d : list (string * V)) k v : k ∉ dict_keys d → dict_set d k v = d ++ [(k, v)].
Proof.
  induction d as [|[k0 v0] d IH]; [done|]. csimpl. intros [Hne Hk]%not_elem_of_cons.
  rewrite decide_False by done. f_equal. auto.
Qed.

Lemma size_planes_spec packing s alignment planes d :
  values_pos packing → 0 < alignment → NoDup (dict_keys planes) →
  (∀ p m, (p, m) ∈ planes → Forall (λ g, Forall alignable g.2) m) →
  size_planes packing s alignment planes = Ok d → planes_sized packing s alignment planes d.
Proof.
  intros Hpos Hal Hnd Hfs. unfold size_planes. apply (foldM_ind (planes_sized packing s alignment)).
  { split; [done|set_solver]. }
  intros visited [p m] rest d1 d2 -> [Hk Hs] H. unfold plane_bytes_step in H. inv_ok. cbn in *.
  rewrite fmap_app in Hnd. apply NoDup_app in Hnd as (_ & Hd & _).
  assert (Hp : p ∉ dict_keys d1) by (rewrite Hk; intros Hp; apply (Hd p Hp); constructor).
  rewrite dict_set_fresh by done. destruct r as [req al]. cbn.
  destruct (plane_bytes_serve packing s p alignment m req al) as [D Hsv];
    [done|done|apply (Hfs p m); set_solver|done|]. split.
  - rewrite !fmap_app, Hk. done.
  - intros p' m' [Hin|Hin]%elem_of_app.
    + destruct (Hs p' m' Hin) as (b & Hb & ?). exists b. split; [set_solver|done].
    + apply list_elem_of_singleton in Hin as [= -> ->]. exists (align_up req al).
      split; [apply elem_of_app; right; constructor|done].
Qed.

(** ** The packed layout *)

(** What a successful run computed on the way. *)
Record packed (groups : list CacheGroupDeclaration) (alignment : Z) (L : CacheLayout.t)
    (entries : list entry) (raw packing plane_bytes : list (string * Z)) : Prop := {
  pk_order : order_fields groups = Ok entries;
  pk_ok : Forall entry_ok entries;
  pk_raw : raw_inv entries raw;
  pk_align : 0 < alignment;
  pk_counts : counts_ok packing (dict_keys raw);
  pk_sized : planes_sized packing (place_all (plane_fields entries)) alignment
    (plane_fields entries) plane_bytes;
  pk_exact : _check_exact_page_strides entries plane_bytes packing = Ok ();
  pk_lcm : CacheLayout.lcm_block_bytes L = align_up (sumZ (dict_values plane_bytes)) alignment;
  pk_limit : CacheLayout.lcm_block_bytes L ≤ _MAX_LCM_BLOCK_BYTES;
  pk_fields : Forall2 (λ e f, field_layout (place_all (plane_fields entries)) plane_bytes packing e
    = Ok f) entries (CacheLayout.fields L);
  pk_packing : Forall2 (λ g p, p.1 = g ∧ dict_get packing g = Some p.2)
    (py_sorted str_leb (dict_keys raw)) (CacheLayout.group_packing L);
  pk_planes : CacheLayout.plane_bytes L = sorted_items plane_bytes;
}.

Lemma plane_fields_alignable entries p m :
  Forall entry_ok entries → (p, m) ∈ plane_fields entries →
  Forall (λ g : string * list CacheFieldSpec.t, Forall alignable g.2) m.
Proof.
  intros Hok Hm. apply Forall_forall. intros [g fs] Hg. apply Forall_forall. intros f Hf.
  assert (Hs : (p, (g, fs)) ∈ slots (plane_fields entries)) by (apply elem_of_slots; eauto).
  apply slots_plane_fields in Hs as [-> _]. cbn in Hf. apply elem_of_fields_at in Hf as [Hf _].
  pose proof (proj1 (Forall_forall _ _) Hok _ Hf) as He.
  split; [apply (entry_element_size_pos (g, f) He)|apply (eo_align (g, f) He)].
Qed.

Lemma pack_packed groups n pins alignment pad L :
  declarations_built groups → pack groups n pins alignment pad = Ok L →
  ∃ entries raw packing plane_bytes, packed groups alignment L entries raw packing plane_bytes.
Proof.
  intros Hb H. unfold pack in H. inv_ok. apply Z.leb_gt in Hr0.
  rename r into entries, r0 into raw, r1 into packing0, r2 into packing, r3 into plane_bytes.
  pose proof (entries_ok _ _ _ Hb Hr2 Hr3) as Hok. pose proof (raw_Ok _ _ Hr3) as Hraw.
  pose proof (py_sorted_perm str_leb (dict_keys raw)) as Hperm.
  pose proof (choose_packing_ok _ _ _ _ _ Hok Hraw Hperm Hr4) as Hc0.
  pose proof (revisit_flexible_ok _ _ _ _ _ _ _ _ Hc0 Hr5) as [Hv Hk].
  exists entries, raw, packing, plane_bytes. split; cbn; try done.
  - split; [done|]. intros g Hg. apply Hk. by rewrite Hperm.
  - eapply size_planes_spec; [done|done|apply plane_fields_spec| |done].
    intros p m. by apply plane_fields_alignable.
  - unfold _align_up in *. lia.
  - by apply mapM_Ok.
  - apply mapM_Ok in Hr11. eapply Forall2_impl; [exact Hr11|].
    intros g p Hg. unfold dict_index in Hg. inv_ok. done.
Qed.

(** A field of the layout and the declaration it comes from. *)
Record field_from (packing plane_bytes : list (string * Z)) (e : entry) (f : CacheFieldLayout.t) : Prop := {
  ff_group : CacheFieldLayout.group_id f = e.1;
  ff_id : CacheFieldLayout.field_id f = CacheFieldSpec.field_id e.2;
  ff_plane : CacheFieldLayout.plane_id f = CacheFieldSpec.plane_id e.2;
  ff_payload : CacheFieldLayout.payload_bytes f = CacheFieldSpec.payload_bytes e.2;
  ff_wf : ∃ count b, dict_get packing e.1 = Some count ∧
    dict_get plane_bytes (CacheFieldSpec.plane_id e.2) = Some b ∧ field_wf count b f;
  ff_offset_aligned : (CacheFieldSpec.element_size e.2 | CacheFieldLayout.field_offset_bytes f);
  ff_stride_aligned : (CacheFieldSpec.element_size e.2 | CacheFieldLayout.page_stride_bytes f) ∧
    (CacheFieldSpec.page_stride_alignment_bytes e.2 | CacheFieldLayout.page_stride_bytes f);
}.

Section packed_layout.
Context (groups : list CacheGroupDeclaration) (alignment : Z) (L : CacheLayout.t).
Context (entries : list entry) (raw packing plane_bytes : list (string * Z)).
Context (Hpk : packed groups alignment L entries raw packing plane_bytes).

Let s := place_all (plane_fields entries).

Lemma packed_ids : NoDup ((λ e : entry, CacheFieldSpec.field_id e.2) <$> entries).
Proof. by destruct (order_fields_Ok _ _ (pk_order _ _ _ _ _ _ _ Hpk)) as (_ & _ & ? & _). Qed.

Lemma packed_placed : placed (slots (plane_fields entries)) s.
Proof. apply place_all_spec, slots_plane_fields_ok, packed_ids. Qed.

Lemma fields_at_sized p g : Forall sized (fields_at entries p g).
Proof.
  apply Forall_forall. intros f [Hf _]%elem_of_fields_at.
  pose proof (proj1 (Forall_forall _ _) (pk_ok _ _ _ _ _ _ _ Hpk) _ Hf) as He.
  split; [apply (entry_element_size_pos _ He)|apply (entry_payload_pos _ He)].
Qed.

Lemma plane_bytes_NoDup : NoDup (dict_keys plane_bytes).
Proof.
  rewrite (ps_keys _ _ _ _ _ (pk_sized _ _ _ _ _ _ _ Hpk)). apply plane_fields_spec.
Qed.

(** The slot of a declared field: its place among the fields of its group in
    its plane, and the plane that serves them. *)
Lemma entry_slot e :
  e ∈ entries → ∃ i b,
    let fs := fields_at entries (CacheFieldSpec.plane_id e.2) e.1 in
    fs !! i = Some e.2 ∧
    dict_get (field_offsets s) (CacheFieldSpec.field_id e.2) = positions 0 fs !! i ∧
    dict_get plane_bytes (CacheFieldSpec.plane_id e.2) = Some b ∧ (alignment | b) ∧
    ∃ count, dict_get packing e.1 = Some count ∧ 0 < count ∧ count * end_of 0 fs ≤ b ∧
      field_aligned count b e.2.
Proof.
  intros He. set (p := CacheFieldSpec.plane_id e.2). set (fs := fields_at entries p e.1).
  assert (Hin : e.2 ∈ fs) by (apply elem_of_fields_at; by destruct e).
  assert (Hslot : (p, (e.1, fs)) ∈ slots (plane_fields entries))
    by (apply slots_plane_fields; split; [done|by eapply elem_of_ne_nil]).
  destruct packed_placed as [Hbytes Hoff]. specialize (Hbytes _ _ _ Hslot).
  apply list_elem_of_lookup in Hin as [i Hi]. specialize (Hoff _ _ _ i _ Hslot Hi).
  pose proof Hslot as (m & Hm & Hg)%elem_of_slots.
  destruct (ps_serve _ _ _ _ _ (pk_sized _ _ _ _ _ _ _ Hpk) p m Hm) as (b & Hb & D & Hs).
  destruct (proj1 (Forall_forall _ _) Hs _ Hg) as (count & bytes & Hc & Hgb & Hle & Hal).
  cbn in Hc, Hgb, Hal. fold s in Hgb. rewrite Hbytes in Hgb. injection Hgb as <-.
  exists i, b. cbn. split_and!; [done|done|by apply elem_of_dict_get; [apply plane_bytes_NoDup|]|done|].
  exists count. split_and!; [done| |done|].
  - eapply values_pos_get; [apply Hpk|done].
  - apply (proj1 (Forall_forall _ _) Hal). by eapply list_elem_of_lookup_2.
Qed.

Lemma field_layout_from e f :
  e ∈ entries → field_layout s plane_bytes packing e = Ok f → field_from packing plane_bytes e f.
Proof.
  intros He H. destruct (entry_slot e He) as (i & b & Hi & Ho & Hb & _ & count & Hc & Hpos & Hle & Hal).
  destruct e as [g d]. cbn [fst snd] in *. unfold field_layout, dict_index in H.
  rewrite Ho, Hb, Hc in H. destruct (positions 0 _ !! i) as [o|] eqn:Hp; [|done]. cbn in H.
  unfold CacheFieldLayout.post_init in H. inv_ok.
  destruct (positions_spec _ _ _ _ _ (fields_at_sized _ _) Hi Hp) as (Hge & Hdiv & Hend).
  pose proof (proj1 (Forall_forall _ _) (pk_ok _ _ _ _ _ _ _ Hpk) _ He) as Hok.
  pose proof (entry_payload_pos _ Hok) as Hpay. pose proof (entry_element_size_pos _ Hok) as Hes.
  cbn in Hpay, Hes. destruct Hal as [[x Hx] [y Hy]].
  assert (Hst : b / count = x * CacheFieldSpec.element_size d).
  { rewrite Hx. replace (x * (count * CacheFieldSpec.element_size d))
      with (x * CacheFieldSpec.element_size d * count) by ring. by rewrite Z.div_mul by lia. }
  assert (Hsy : b / count = y * CacheFieldSpec.page_stride_alignment_bytes d).
  { rewrite Hy. replace (y * (count * CacheFieldSpec.page_stride_alignment_bytes d))
      with (y * CacheFieldSpec.page_stride_alignment_bytes d * count) by ring.
    by rewrite Z.div_mul by lia. }
  assert (Hbc : count * (b / count) = b) by (rewrite Hst, Hx; ring).
  split; try done; cbn [CacheFieldLayout.page_stride_bytes].
  - exists count, b. split_and!; [done|done|]. split; try done.
    change (o + CacheFieldSpec.payload_bytes d ≤ b / count). nia.
  - split; [rewrite Hst|rewrite Hsy]; apply Z.divide_factor_r.
Qed.

Lemma layout_field_from f :
  f ∈ CacheLayout.fields L → ∃ e, e ∈ entries ∧ field_from packing plane_bytes e f ∧
    field_layout s plane_bytes packing e = Ok f.
Proof.
  intros [i Hi]%list_elem_of_lookup.
  destruct (Forall2_lookup_r _ _ _ _ _ (pk_fields _ _ _ _ _ _ _ Hpk) Hi) as (e & He & Hf).
  apply list_elem_of_lookup_2 in He. exists e. split_and!; [done|by apply field_layout_from|done].
Qed.

(** Two declarations of one group in one plane are placed apart. *)
Lemma entries_apart e1 e2 f1 f2 :
  e1 ∈ entries → e2 ∈ entries → e1 ≠ e2 → e1.1 = e2.1 →
  CacheFieldSpec.plane_id e1.2 = CacheFieldSpec.plane_id e2.2 →
  field_layout s plane_bytes packing e1 = Ok f1 → field_layout s plane_bytes packing e2 = Ok f2 →
  disjoint_ranges (CacheFieldLayout.field_offset_bytes f1) (CacheFieldSpec.payload_bytes e1.2)
    (CacheFieldLayout.field_offset_bytes f2) (CacheFieldSpec.payload_bytes e2.2).
Proof.
  intros H1 H2 Hne Hg Hp L1 L2.
  destruct (entry_slot e1 H1) as (i & b & Hi & Ho & _), (entry_slot e2 H2) as (j & b' & Hj & Hq & _).
  cbn zeta in *. rewrite <-Hg, <-Hp in Hj, Hq. destruct e1 as [g d1], e2 as [g' d2]. cbn in *. subst g'.
  unfold field_layout, dict_index, CacheFieldLayout.post_init in L1, L2. inv_ok. cbn.
  rewrite Hr in Hq. rewrite Hr3 in Ho.
  pose proof (fields_at_sized (CacheFieldSpec.plane_id d1) g) as Hs.
  assert (Hij : i ≠ j) by (intros ->; rewrite Hi in Hj; congruence).
  destruct (Nat.lt_total i j) as [Hlt|[|Hlt]]; [left|done|right].
  - by eapply (positions_apart 0 _ i j).
  - by eapply (positions_apart 0 _ j i).
Qed.

Lemma packed_groups_NoDup : NoDup (CacheLayout.group_packing L).*1.
Proof.
  assert ((CacheLayout.group_packing L).*1 = py_sorted str_leb (dict_keys raw)) as ->.
  { pose proof (pk_packing _ _ _ _ _ _ _ Hpk) as H. induction H as [|g p ? ? [<- _] _ IH]; [done|].
    csimpl. by rewrite IH. }
  apply NoDup_py_sorted, (pk_raw _ _ _ _ _ _ _ Hpk).
Qed.

Lemma packed_group_count e count :
  e ∈ entries → dict_get packing e.1 = Some count → (e.1, count) ∈ CacheLayout.group_packing L.
Proof.
  intros He Hc. assert (Hg : e.1 ∈ py_sorted str_leb (dict_keys raw)).
  { apply elem_of_py_sorted, dict_get_is_Some.
    rewrite (ri_get _ _ (pk_raw _ _ _ _ _ _ _ Hpk)), decide_True by (by apply list_elem_of_fmap_2). eauto. }
  apply list_elem_of_lookup in Hg as [i Hi].
  destruct (Forall2_lookup_l _ _ _ _ _ (pk_packing _ _ _ _ _ _ _ Hpk) Hi) as ([g c] & Hp & Hg & Hc').
  cbn in Hg, Hc'. subst g. rewrite Hc in Hc'. injection Hc' as <-. by eapply list_elem_of_lookup_2.
Qed.

Lemma packed_plane_pos p b : (p, b) ∈ plane_bytes → 0 < b.
Proof.
  intros Hb. assert (Hk : p ∈ dict_keys (plane_fields entries)).
  { rewrite <-(ps_keys _ _ _ _ _ (pk_sized _ _ _ _ _ _ _ Hpk)).
    by apply (list_elem_of_fmap_2 fst _ (p, b)). }
  apply list_elem_of_fmap in Hk as ([p' m] & Heq & Hm). cbn in Heq. subst p'.
  destruct (plane_fields_spec entries) as [[_ Hne] _]. destruct (Hne p m Hm) as [_ Hm0].
  destruct m as [|[g fs] m]; [done|].
  assert (Hs : (p, (g, fs)) ∈ slots (plane_fields entries))
    by (apply elem_of_slots; eexists; split; [done|constructor]).
  apply slots_plane_fields in Hs as [-> Hfs].
  destruct (fields_at entries p g) as [|f fs] eqn:E; [done|].
  assert (Hf : f ∈ fields_at entries p g) by (rewrite E; constructor).
  apply elem_of_fields_at in Hf as [He <-].
  destruct (entry_slot (g, f) He) as (i & b' & Hi & _ & Hb' & _ & count & _ & Hc & Hle & _).
  cbn in Hi, Hb', Hle. assert (b' = b) as ->.
  { apply elem_of_dict_get in Hb; [congruence|apply plane_bytes_NoDup]. }
  pose proof (fields_at_sized (CacheFieldSpec.plane_id f) g) as Hsz. rewrite E in *.
  apply Forall_cons in Hsz as [[He0 Hp0] Hsz].
  pose proof (end_of_ge (align_up 0 (CacheFieldSpec.element_size f) + CacheFieldSpec.payload_bytes f) fs Hsz).
  pose proof (align_up_ge 0 _ He0). cbn [end_of] in Hle. nia.
Qed.
End packed_layout.

Lemma exact_strides packing plane_bytes entries e f :
  _check_exact_page_strides entries plane_bytes packing = Ok () →
  e ∈ entries → CacheFieldSpec.exact_page_stride e.2 = true → field_from packing plane_bytes e f →
  CacheFieldLayout.page_stride_bytes f = CacheFieldLayout.payload_bytes f.
Proof.
  intros Hchk He Hx Hf. unfold _check_exact_page_strides in Hchk.
  assert (Hall : Forall (λ e : entry, exact_stride_step plane_bytes packing () e = Ok ()) entries).
  { revert Hchk. apply (foldM_ind (λ visited _, Forall (λ e : entry,
      exact_stride_step plane_bytes packing () e = Ok ()) visited)); [constructor|].
    intros visited x rest [] [] _ Hv Hstep. apply Forall_app. split; [done|]. by constructor. }
  pose proof (proj1 (Forall_forall _ _) Hall e He) as Hs. destruct e as [g d]. cbn in Hx.
  unfold exact_stride_step, dict_index in Hs. rewrite Hx in Hs.
  destruct (ff_wf _ _ _ _ Hf) as (count & b & Hc & Hb & Hwf). cbn in Hc, Hb.
  rewrite Hb, Hc in Hs. cbn in Hs. inv_ok. apply negb_false_iff, Z.eqb_eq in Hs.
  rewrite (ff_payload _ _ _ _ Hf). cbn. rewrite <-Hs.
  pose proof (fw_count _ _ _ Hwf). rewrite <-(fw_stride _ _ _ Hwf).
  rewrite Z.mul_comm, Z.div_mul by lia. done.
Qed.

Lemma packed_layout_wf groups alignment L entries raw packing plane_bytes :
  packed groups alignment L entries raw packing plane_bytes → layout_wf L.
Proof.
  intros Hpk. pose proof (plane_bytes_NoDup _ _ _ _ _ _ _ Hpk) as Hpb.
  assert (Hperm : CacheLayout.plane_bytes L ≡ₚ plane_bytes).
  { rewrite (pk_planes _ _ _ _ _ _ _ Hpk). apply py_sorted_perm. }
  assert (Hids : CacheFieldLayout.field_id <$> CacheLayout.fields L =
    (λ e : entry, CacheFieldSpec.field_id e.2) <$> entries).
  { symmetry. apply list_eq_Forall2, Forall2_fmap. 
    eapply Forall2_impl; [exact (pk_fields _ _ _ _ _ _ _ Hpk)|].
    intros [g d] f Hf. unfold field_layout, CacheFieldLayout.post_init in Hf. by inv_ok. }
  split.
  - by eapply packed_groups_NoDup.
  - by rewrite Hperm.
  - rewrite Hperm. apply Forall_forall. intros [p b] Hb. by eapply packed_plane_pos.
  - rewrite Hids. by eapply packed_ids.
  - intros f Hf. destruct (layout_field_from _ _ _ _ _ _ _ Hpk f Hf) as (e & He & Hff & _).
    destruct (ff_wf _ _ _ _ Hff) as (count & b & Hc & Hb & Hwf). exists count, b.
    rewrite (ff_group _ _ _ _ Hff), (ff_plane _ _ _ _ Hff). split_and!; [|rewrite Hperm|done].
    + by eapply packed_group_count.
    + by apply dict_get_elem_of.
  - intros f1 f2 Hf1 Hf2 Hne Hg Hp.
    destruct (layout_field_from _ _ _ _ _ _ _ Hpk f1 Hf1) as (e1 & He1 & H1 & L1).
    destruct (layout_field_from _ _ _ _ _ _ _ Hpk f2 Hf2) as (e2 & He2 & H2 & L2).
    rewrite (ff_payload _ _ _ _ H1), (ff_payload _ _ _ _ H2).
    eapply (entries_apart _ _ _ _ _ _ _ Hpk); try done.
    + intros ->. rewrite L1 in L2. congruence.
    + by rewrite <-(ff_group _ _ _ _ H1), <-(ff_group _ _ _ _ H2).
    + by rewrite <-(ff_plane _ _ _ _ H1), <-(ff_plane _ _ _ _ H2).
  - rewrite (pk_lcm _ _ _ _ _ _ _ Hpk), (sumZ_perm _ (dict_values plane_bytes)).
    + apply align_up_ge, (pk_align _ _ _ _ _ _ _ Hpk).
    + by rewrite Hperm.
Qed.

(** ** Errors *)

(** The classes [pack] raises on purpose or by arithmetic; a failed lookup or an
    exhausted loop is none of them. *)
Definition expected_error (e : exn) : Prop :=
  match e with ValueError _ | OverflowError _ | ZeroDivisionError _ => True | _ => False end.

Definition fails_well {A} (m : result A) : Prop := ∀ e, m = Raise e → expected_error e.

Lemma fails_well_bind {A B} (m : result A) (f : A → result B) :
  fails_well m → (∀ a, m = Ok a → fails_well (f a)) → fails_well (m ≫= f).
Proof. intros Hm Hf e [H|(a & Ha & H)]%bind_Raise; [by apply Hm|by eapply Hf]. Qed.

Lemma fails_well_Ok {A} (a : A) : fails_well (Ok a).
Proof. done. Qed.

Lemma fails_well_value b msg : fails_well (raise_when b (ValueError msg)).
Proof. intros e. destruct b; cbn; [|done]. by intros [= <-]. Qed.

Lemma fails_well_foldM {A S} (f : S → A → result S) l s :
  (∀ s x, x ∈ l → fails_well (f s x)) → fails_well (foldM f s l).
Proof.
  intros Hf. revert s. induction l as [|x l IH]; intros s; cbn; [done|].
  apply fails_well_bind; [apply Hf; constructor|]. intros s' _. apply IH.
  intros s0 y Hy. apply Hf. by constructor.
Qed.

Lemma fails_well_mapM {A B} (f : A → result B) l :
  (∀ x, x ∈ l → fails_well (f x)) → fails_well (mapM f l).
Proof.
  intros Hf. induction l as [|x l IH]; cbn; [done|].
  apply fails_well_bind; [apply Hf; constructor|]. intros y _.
  apply fails_well_bind; [|done]. apply IH. intros z Hz. apply Hf. by constructor.
Qed.

Lemma fails_well_index {V} (d : list (string * V)) k : k ∈ dict_keys d → fails_well (dict_index d k).
Proof. intros [v Hv]%dict_get_is_Some e. unfold dict_index. by rewrite Hv. Qed.

Lemma fails_well_get2 s g p b : dict_get2 (group_plane_bytes s) g p = Some b → fails_well (group_bytes s g p).
Proof.
  unfold dict_get2, group_bytes, dict_index. intros H e.
  destruct (dict_get (group_plane_bytes s) g) as [m|]; cbn in *; [|done]. by rewrite H.
Qed.

Lemma fails_well_truediv a b : fails_well (int_truediv a b).
Proof.
  intros e. unfold int_truediv, finite_or_overflow. destruct b; [by intros [= <-]|..];
    (destruct (SFdiv _ _ _ _); [done|by intros [= <-]|done|done]).
Qed.

Lemma fails_well_of_int z : fails_well (float_of_int z).
Proof.
  intros e. unfold float_of_int, finite_or_overflow.
  destruct (binary_normalize _ _ _ _ _); [done|by intros [= <-]|done|done].
Qed.

Lemma fails_well_float_div x y : fails_well (float_div x y).
Proof. intros e. unfold float_div. destruct (float_is_zero y); cbn; [by intros [= <-]|done]. Qed.

Ltac fails_well_step :=
  first [ apply fails_well_Ok | apply fails_well_value | apply fails_well_truediv
        | apply fails_well_of_int | apply fails_well_float_div
        | apply fails_well_bind; [|intros ? ?] ].

Section errors.
Context (entries : list entry) (raw : list (string * Z)).
Context (Hok : Forall entry_ok entries) (Hraw : raw_inv entries raw).
Context (Hids : NoDup ((λ e : entry, CacheFieldSpec.field_id e.2) <$> entries)).

Let planes := plane_fields entries.
Let s := place_all planes.

Lemma entry_in_raw e : e ∈ entries → e.1 ∈ dict_keys raw.
Proof.
  intros He. apply dict_get_is_Some. rewrite (ri_get _ _ Hraw), decide_True; [eauto|].
  by apply list_elem_of_fmap_2.
Qed.

(** A group of a plane is declared, and its bytes there were recorded. *)
Lemma plane_group_known p m g :
  (p, m) ∈ planes → g ∈ m →
  g.1 ∈ dict_keys raw ∧ dict_get2 (group_plane_bytes s) g.1 p = Some (end_of 0 g.2).
Proof.
  intros Hm Hg. destruct g as [g fs]. assert (Hs : (p, (g, fs)) ∈ slots planes) by (apply elem_of_slots; eauto).
  split; [|eapply (pl_bytes _ _ (place_all_spec planes (slots_plane_fields_ok entries Hids))); done].
  apply slots_plane_fields in Hs as [-> Hne]. cbn.
  destruct (fields_at entries p g) as [|f fs] eqn:E; [done|].
  assert (Hf : f ∈ fields_at entries p g) by (rewrite E; constructor).
  apply elem_of_fields_at in Hf as [Hf _]. apply (entry_in_raw _ Hf).
Qed.

Lemma entry_plane_known e : e ∈ entries → CacheFieldSpec.plane_id e.2 ∈ dict_keys planes.
Proof.
  intros He. assert (Hin : e.2 ∈ fields_at entries (CacheFieldSpec.plane_id e.2) e.1)
    by (apply elem_of_fields_at; by destruct e).
  destruct (plane_fields_spec entries) as [_ Hget].
  specialize (Hget (CacheFieldSpec.plane_id e.2) e.1).
  destruct (fields_at _ _ _) eqn:E; [set_solver|].
  apply elem_dict_get2 in Hget as (m & Hm & _). by apply (list_elem_of_fmap_2 fst _ (_, m)).
Qed.

Lemma entry_offset_known e : e ∈ entries → CacheFieldSpec.field_id e.2 ∈ dict_keys (field_offsets s).
Proof.
  intros He. set (p := CacheFieldSpec.plane_id e.2). set (fs := fields_at entries p e.1).
  assert (Hin : e.2 ∈ fs) by (apply elem_of_fields_at; by destruct e).
  assert (Hslot : (p, (e.1, fs)) ∈ slots planes)
    by (apply slots_plane_fields; split; [done|by eapply elem_of_ne_nil]).
  apply list_elem_of_lookup in Hin as [i Hi]. apply dict_get_is_Some. unfold s.
  rewrite (pl_offset _ _ (place_all_spec planes (slots_plane_fields_ok entries Hids)) _ _ _ _ _ Hslot Hi).
  apply lookup_lt_is_Some. rewrite length_positions. by eapply lookup_lt_Some.
Qed.

Lemma choose_packing_fails_well pinned ids : fails_well (choose_packing entries raw pinned ids).
Proof.
  unfold choose_packing. fails_well_step; [fails_well_step|]. fails_well_step; [fails_well_step|].
  case_match; [apply fails_well_Ok|].
  apply fails_well_bind; [|intros; apply fails_well_Ok]. intros e.
  pose proof (solve_packing_spec entries Hok). by destruct (_solve_packing entries).
Qed.

Context (packing : list (string * Z)) (Hcounts : counts_ok packing (dict_keys raw)).

Lemma revisit_flexible_fails_well ids alignment pinned :
  fails_well (revisit_flexible entries ids planes s alignment pinned packing).
Proof.
  unfold revisit_flexible. case_match; [apply fails_well_Ok|].
  apply fails_well_bind; [|intros; apply fails_well_Ok].
  apply fails_well_foldM. intros d [p m] Hm. unfold fixed_plane_step.
  apply fails_well_bind; [|intros; apply fails_well_Ok].
  apply fails_well_foldM. intros acc g Hg. unfold fixed_group_step.
  destruct (plane_group_known p m g Hm Hg) as [Hraw' Hb].
  case_match; [apply fails_well_Ok|]. fails_well_step; [by apply fails_well_index, Hcounts|].
  fails_well_step; [by eapply fails_well_get2|]. apply fails_well_Ok.
Qed.

Lemma size_planes_fails_well alignment : fails_well (size_planes packing s alignment planes).
Proof.
  apply fails_well_foldM. intros d [p m] Hm. unfold plane_bytes_step.
  apply fails_well_bind; [|intros; apply fails_well_Ok].
  apply fails_well_foldM. intros acc g Hg. unfold plane_group_step.
  destruct (plane_group_known p m g Hm Hg) as [Hraw' Hb].
  fails_well_step; [by apply fails_well_index, Hcounts|].
  fails_well_step; [by eapply fails_well_get2|].
  fails_well_step; [|apply fails_well_Ok]. apply fails_well_foldM. intros al f _.
  unfold field_alignment_step. repeat fails_well_step.
Qed.

Context (plane_bytes : list (string * Z)) (Hpb : dict_keys plane_bytes = dict_keys planes).

Lemma exact_strides_fails_well : fails_well (_check_exact_page_strides entries plane_bytes packing).
Proof.
  apply fails_well_foldM. intros [] [g f] He. unfold exact_stride_step. case_match; [|apply fails_well_Ok].
  fails_well_step; [apply fails_well_index; rewrite Hpb; apply (entry_plane_known _ He)|].
  fails_well_step; [apply fails_well_index, Hcounts, (entry_in_raw _ He)|]. apply fails_well_value.
Qed.

Lemma field_layouts_fails_well : fails_well (mapM (field_layout s plane_bytes packing) entries).
Proof.
  apply fails_well_mapM. intros [g f] He. unfold field_layout.
  fails_well_step; [apply fails_well_index, (entry_offset_known _ He)|].
  fails_well_step; [apply fails_well_index; rewrite Hpb; apply (entry_plane_known _ He)|].
  fails_well_step; [apply fails_well_index, Hcounts, (entry_in_raw _ He)|].
  unfold CacheFieldLayout.post_init. fails_well_step; [|apply fails_well_Ok].
  intros e. unfold cache_dtype_bytes. destruct (dict_get _ _); cbn; [done|by intros [= <-]].
Qed.
End errors.

(** ** Properties *)

(** The declarations of the example model of [CacheSpec], for the witnesses. *)
Definition example_declarations : list CacheGroupDeclaration :=
  match group example_fields 64 example_types example_types (window_scalar 128) true with
  | Ok decls => decls | Raise _ => [] end.

Lemma example_declarations_built : declarations_built example_declarations.
Proof.
  assert (H : Forall (λ g : CacheGroupDeclaration, Forall field_built g.2) example_declarations)
    by (vm_compute; repeat constructor).
  intros g f Hg Hf. apply (proj1 (Forall_forall _ _)) with (x := g) in H; [|done].
  by apply (proj1 (Forall_forall _ _) H).
Qed.

(** C22: Packing is sound.  A layout that [pack] returns is well formed: pages
    fill their plane, fields lie inside their page and apart from each other,
    planes fit the parent, which fits 63 bits.  Every declared field appears
    exactly once, with its shape, at an offset and a page stride its elements
    and its kernel's alignment divide, and a kernel that walks pages by the
    payload finds exactly that stride. *)
Theorem pack_sound groups n pins alignment pad L :
  declarations_built groups → pack groups n pins alignment pad = Ok L →
  layout_wf L ∧ CacheLayout.lcm_block_bytes L ≤ _MAX_LCM_BLOCK_BYTES ∧
  (alignment | CacheLayout.lcm_block_bytes L) ∧
  ∃ entries, entries ≡ₚ declared_fields groups ∧
    Forall2 (λ (e : entry) f,
      CacheFieldLayout.group_id f = e.1 ∧
      CacheFieldLayout.field_id f = CacheFieldSpec.field_id e.2 ∧
      CacheFieldLayout.plane_id f = CacheFieldSpec.plane_id e.2 ∧
      CacheFieldLayout.payload_bytes f = CacheFieldSpec.payload_bytes e.2 ∧
      (CacheFieldSpec.element_size e.2 | CacheFieldLayout.field_offset_bytes f) ∧
      (CacheFieldSpec.element_size e.2 | CacheFieldLayout.page_stride_bytes f) ∧
      (CacheFieldSpec.page_stride_alignment_bytes e.2 | CacheFieldLayout.page_stride_bytes f) ∧
      (CacheFieldSpec.exact_page_stride e.2 = true →
         CacheFieldLayout.page_stride_bytes f = CacheFieldLayout.payload_bytes f))
      entries (CacheLayout.fields L).
Proof.
  intros Hb H. destruct (pack_packed _ _ _ _ _ _ Hb H) as (entries & raw & packing & pb & Hpk).
  split; [by eapply packed_layout_wf|]. split; [apply Hpk|]. split.
  { rewrite (pk_lcm _ _ _ _ _ _ _ Hpk). apply align_up_divide. }
  exists entries. split; [apply (order_fields_Ok _ _ (pk_order _ _ _ _ _ _ _ Hpk))|].
  apply Forall2_same_length_lookup. pose proof (pk_fields _ _ _ _ _ _ _ Hpk) as HF.
  split; [by eapply Forall2_length|]. intros i e f He Hf.
  pose proof (Forall2_lookup_lr _ _ _ _ _ _ HF He Hf) as Hl.
  assert (Hin : e ∈ entries) by (by eapply list_elem_of_lookup_2).
  pose proof (field_layout_from _ _ _ _ _ _ _ Hpk e f Hin Hl) as Hff.
  split_and!; try apply Hff. intros Hx. eapply exact_strides; [apply Hpk|done..].
Qed.

Lemma pack_sound_witness :
  ∃ L, pack example_declarations 64 [] 256 (fraction 1 4) = Ok L ∧ layout_wf L ∧
    length (CacheLayout.fields L) = 4%nat.
Proof.
  destruct (pack example_declarations 64 [] 256 (fraction 1 4)) as [L|] eqn:H;
    [|vm_compute in H; discriminate H].
  exists L. split; [reflexivity|].
  destruct (pack_sound _ _ _ _ _ _ example_declarations_built H) as (Hw & _).
  split; [exact Hw|]. vm_compute in H. injection H as <-. reflexivity.
Defined.

(** C21: End to end, the memory of a packed and bound plan is safe: two
    different pages of two fields share no byte unless they are of different
    groups in the same parent, and every page lies inside the arena. *)
Theorem packed_pages_safe groups n pins alignment pad L blocks P f1 f2 page1 page2 o1 o2 :
  declarations_built groups →
  pack groups n pins alignment pad = Ok L → CacheLayout.bind L blocks = Ok P →
  f1 ∈ CacheMemoryPlan.fields P → f2 ∈ CacheMemoryPlan.fields P → (f1, page1) ≠ (f2, page2) →
  CacheMemoryPlan.field_page_byte_offset P (CacheFieldLayout.field_id f1) page1 = Ok o1 →
  CacheMemoryPlan.field_page_byte_offset P (CacheFieldLayout.field_id f2) page2 = Ok o2 →
  (0 ≤ o1 ∧ o1 + CacheFieldLayout.payload_bytes f1 ≤ CacheMemoryPlan.arena_bytes P) ∧
  (disjoint_ranges o1 (CacheFieldLayout.payload_bytes f1) o2 (CacheFieldLayout.payload_bytes f2) ∨
   CacheFieldLayout.group_id f1 ≠ CacheFieldLayout.group_id f2 ∧
   page_parent P f1 page1 = page_parent P f2 page2).
Proof.
  intros Hb Hp HP Hf1 Hf2 Hne Ho1 Ho2.
  destruct (pack_packed _ _ _ _ _ _ Hb Hp) as (entries & raw & packing & pb & Hpk).
  pose proof (bind_wf _ _ _ (packed_layout_wf _ _ _ _ _ _ _ Hpk) HP) as Hw. split.
  - destruct (field_addressed P f1 Hw Hf1) as (g & p & Ha).
    destruct (addressed_in_parent _ _ _ _ _ _ Ha Ho1) as (Hpg & Hlo & Hhi).
    pose proof (addressed_parent_bounds _ _ _ _ _ Hw Ha Hpg) as Hpar.
    pose proof (field_wf_plane_pos _ _ _ (ad_wf _ _ _ _ Ha)) as Hbp. pose proof (pw_blocks P Hw).
    destruct (planes_from_bounds (CacheMemoryPlan.num_lcm_blocks P + 1) 0
      (CacheMemoryPlan.planes P) p) as [Hoff Hend]; [lia|apply Hw|apply Hw|apply Ha|].
    pose proof (pw_room P Hw). unfold CacheMemoryPlan.arena_bytes. cbn zeta in *. split; nia.
  - destruct (decide (CacheFieldLayout.group_id f1 = CacheFieldLayout.group_id f2)) as [Hg|Hg].
    { left. eapply (pages_disjoint P f1 f2 page1 page2); eauto. }
    destruct (decide (page_parent P f1 page1 = page_parent P f2 page2)) as [Hq|Hq]; [by right|].
    left. eapply (pages_disjoint P f1 f2 page1 page2); eauto.
Qed.

Lemma packed_pages_safe_witness :
  ∃ L P f1 f2 o1 o2,
    pack example_declarations 64 [] 256 (fraction 1 4) = Ok L ∧ CacheLayout.bind L 8 = Ok P ∧
    CacheMemoryPlan.field_page_byte_offset P (CacheFieldLayout.field_id f1) 3 = Ok o1 ∧
    CacheMemoryPlan.field_page_byte_offset P (CacheFieldLayout.field_id f2) 4 = Ok o2 ∧
    (disjoint_ranges o1 (CacheFieldLayout.payload_bytes f1) o2 (CacheFieldLayout.payload_bytes f2) ∨
     CacheFieldLayout.group_id f1 ≠ CacheFieldLayout.group_id f2 ∧
     page_parent P f1 3 = page_parent P f2 4).
Proof.
  destruct (pack example_declarations 64 [] 256 (fraction 1 4)) as [L|] eqn:HL;
    [|vm_compute in HL; discriminate HL].
  destruct (CacheLayout.bind L 8) as [P|] eqn:HP;
    [|vm_compute in HL; injection HL as <-; vm_compute in HP; discriminate HP].
  assert (HPv := HP). assert (HLv := HL). vm_compute in HLv. injection HLv as HLv.
  subst L. vm_compute in HPv. injection HPv as HPv.
  assert (Hf : ∃ f1 f2 rest, CacheMemoryPlan.fields P = f1 :: f2 :: rest)
    by (subst P; do 3 eexists; reflexivity).
  destruct Hf as (f1 & f2 & rest & Hf).
  assert (Ho : ∃ o1 o2,
    CacheMemoryPlan.field_page_byte_offset P (CacheFieldLayout.field_id f1) 3 = Ok o1 ∧
    CacheMemoryPlan.field_page_byte_offset P (CacheFieldLayout.field_id f2) 4 = Ok o2).
  { subst P. cbn in Hf. injection Hf as <- <- _. do 2 eexists. split; vm_compute; reflexivity. }
  destruct Ho as (o1 & o2 & Ho1 & Ho2). eexists _, P, f1, f2, o1, o2.
  split; [reflexivity|]. split; [exact HP|]. split; [exact Ho1|]. split; [exact Ho2|].
  apply (packed_pages_safe example_declarations 64 [] 256 (fraction 1 4) _ 8 P f1 f2 3 4 o1 o2
    example_declarations_built HL HP); [rewrite Hf; constructor|rewrite Hf; do 2 constructor
    |intros [= _ ?]; done|exact Ho1|exact Ho2].
Defined.

(** [pack] fails only by its own checks: an error of [pack] on built
    declarations is a [ValueError] or arithmetic on floats, never a missing
    dictionary key, so every group, plane and field the later steps look up was
    recorded by the earlier ones, and the solver's loop ends. *)
Theorem pack_error_class groups n pins alignment pad e :
  declarations_built groups → pack groups n pins alignment pad = Raise e → expected_error e.
Proof.
  intros Hb. revert e. change (fails_well (pack groups n pins alignment pad)). unfold pack.
  fails_well_step; [fails_well_step|]. fails_well_step; [fails_well_step|].
  match goal with H : raise_when (alignment <=? 0) _ = _ |- _ => apply raise_when_Ok in H; rename H into Hal end.
  fails_well_step; [fails_well_step|].
  apply fails_well_bind; [unfold order_fields; repeat fails_well_step|]. intros entries Hord.
  apply fails_well_bind.
  { apply fails_well_foldM. intros d [g f] _. unfold raw_step. repeat fails_well_step. }
  intros raw Hr. pose proof (entries_ok _ _ _ Hb Hord Hr) as Hok. pose proof (raw_Ok _ _ Hr) as Hraw.
  destruct (order_fields_Ok _ _ Hord) as (_ & _ & Hids & _).
  pose proof (py_sorted_perm str_leb (dict_keys raw)) as Hperm. cbn zeta.
  apply fails_well_bind; [by apply choose_packing_fails_well|]. intros packing0 Hc.
  pose proof (choose_packing_ok _ _ _ _ _ Hok Hraw Hperm Hc) as Hc0.
  pose proof (counts_ok_perm _ _ _ Hperm Hc0) as Hc1.
  apply fails_well_bind; [by eapply revisit_flexible_fails_well|]. intros packing Hrev.
  pose proof (counts_ok_perm _ _ _ Hperm (revisit_flexible_ok _ _ _ _ _ _ _ _ Hc0 Hrev)) as Hc2.
  apply fails_well_bind; [by eapply size_planes_fails_well|]. intros pb Hpb.
  apply size_planes_spec in Hpb;
    [|apply Hc2|lia|apply plane_fields_spec|intros p m; by apply plane_fields_alignable].
  pose proof (ps_keys _ _ _ _ _ Hpb) as Hkeys.
  apply fails_well_bind; [by eapply exact_strides_fails_well|]. intros _ _.
  fails_well_step; [fails_well_step|]. apply fails_well_bind.
  { apply fails_well_foldM. intros [] g Hg. apply elem_of_py_sorted in Hg. unfold check_padding_step.
    fails_well_step; [by apply fails_well_index, Hc2|].
    fails_well_step; [by apply fails_well_index|]. repeat fails_well_step. }
  intros _ _. apply fails_well_bind; [by eapply field_layouts_fails_well|]. intros layouts _.
  apply fails_well_bind; [|intros; apply fails_well_Ok].
  apply fails_well_mapM. intros g Hg. apply elem_of_py_sorted in Hg.
  fails_well_step; [by apply fails_well_index, Hc2|apply fails_well_Ok].
Qed.

Lemma pack_error_class_witness :
  ∃ e, pack example_declarations 64 [("other", 2)] 256 (fraction 1 4) = Raise e ∧ expected_error e.
Proof.
  destruct (pack example_declarations 64 [("other", 2)] 256 (fraction 1 4)) as [L|e] eqn:H;
    [vm_compute in H; discriminate H|].
  exists e. split; [reflexivity|].
  exact (pack_error_class example_declarations 64 [("other", 2)] 256 (fraction 1 4) e
    example_declarations_built H).
Defined.

(** The ratio packing balances unconstrained groups: a group gets a power
    of two of blocks per parent, the largest that keeps its bytes within the
    largest group's payload. *)
Theorem ratio_packing_balanced raw g payload :
  NoDup (dict_keys raw) → values_pos raw → (g, payload) ∈ raw →
  ∃ k, 0 ≤ k ∧ dict_get (_packing_by_group_ratio raw) g = Some (2 ^ k) ∧
    2 ^ k * payload ≤ max_payload raw < 2 ^ (k + 1) * payload.
Proof.
  intros Hnd Hpos Hin. pose proof (proj1 (Forall_forall _ _) Hpos _ Hin) as Hv. cbn in Hv.
  assert (Hmax : payload ≤ max_payload raw)
    by (apply foldr_max_nonneg; by apply (list_elem_of_fmap_2 snd _ (g, payload))).
  set (q := max_payload raw / payload). assert (Hq : 1 ≤ q) by (apply Z.div_le_lower_bound; lia).
  exists (Z.log2 q). pose proof (Z.log2_nonneg q) as Hl. split; [done|]. split.
  - apply elem_of_dict_get; [by destruct (ratio_counts raw Hpos) as [_ ->]|].
    unfold _packing_by_group_ratio. apply list_elem_of_fmap. exists (g, payload). split; [|done].
    cbn. fold q. f_equal. unfold bit_length. rewrite (proj2 (Z.eqb_neq q 0)) by lia.
    replace (Z.log2 q + 1 - 1) with (Z.log2 q) by lia. rewrite Z.shiftl_mul_pow2 by lia. lia.
  - destruct (Z.log2_spec q ltac:(lia)) as [Hlo Hhi]. rewrite <-Z.add_1_r in Hhi.
    pose proof (Z.div_mod (max_payload raw) payload ltac:(lia)) as Hdm. fold q in Hdm.
    pose proof (Z.mod_pos_bound (max_payload raw) payload Hv). nia.
Qed.

Lemma ratio_packing_balanced_witness :
  ∃ k, dict_get (_packing_by_group_ratio [("a", 1000); ("b", 48)]) "b" = Some (2 ^ k) ∧
    2 ^ k * 48 ≤ 1000.
Proof.
  destruct (ratio_packing_balanced [("a", 1000); ("b", 48)] "b" 48) as (k & _ & Hk & Hle & _);
    [repeat (apply NoDup_cons; split; [set_solver|]); constructor
    |repeat constructor|do 2 constructor|].
  exists k. split; [exact Hk|exact Hle].
Defined.

(** C23: The packing solver decides the exact-stride constraints.  It
    terminates; the counts it returns are positive and make every exact tenant
    of a plane fill the same bytes of a parent; and when it returns nothing, no
    positive counts do. *)
Theorem solve_packing_decides entries :
  Forall entry_ok entries →
  match _solve_packing entries with
  | None => False
  | Some None => ¬ ∃ K, positive_counts K ∧ fills_equally entries K
  | Some (Some p) => positive_counts (count_of p) ∧ fills_equally entries (count_of p)
  end.
Proof.
  intros Hok. pose proof (solve_packing_spec entries Hok) as H.
  destruct (_solve_packing entries) as [[p|]|]; [done| |done].
  intros (K & HK & Hf). by apply (H K).
Qed.

(** Entries whose solution is not a power of two: planes of 96 and 64 bytes. *)
Definition example_spec (field_id plane_id : string) (extent : Z) : CacheFieldSpec.t :=
  {| CacheFieldSpec.field_id := field_id; CacheFieldSpec.plane_id := plane_id;
     CacheFieldSpec.shape := [extent]; CacheFieldSpec.dtype := "uint8";
     CacheFieldSpec.exact_page_stride := true; CacheFieldSpec.page_stride_alignment_bytes := 1 |}.

Definition example_entries : list entry :=
  [ ("a", example_spec "layer.0.k" "p" 96); ("b", example_spec "layer.1.k" "p" 64);
    ("b", example_spec "layer.1.v" "q" 64); ("c", example_spec "layer.2.v" "q" 32) ].

Lemma solve_packing_decides_witness :
  _solve_packing example_entries = Some (Some [("a", 2); ("b", 3); ("c", 6)]) ∧
  fills_equally example_entries (count_of [("a", 2); ("b", 3); ("c", 6)]).
Proof.
  assert (Hok : Forall entry_ok example_entries)
    by (repeat constructor; vm_compute; reflexivity).
  pose proof (solve_packing_decides example_entries Hok) as H.
  assert (E : _solve_packing example_entries = Some (Some [("a", 2); ("b", 3); ("c", 6)]))
    by (vm_compute; reflexivity).
  rewrite E in H. split; [exact E|]. exact (proj2 H).
Defined.
