(* ===== verification/VirtualBlocks.v ===== *)
(** * Scheduler blocks and local pages: [kv_cache/recipes/cache_runtime.py] and
      [kv_cache/virtual_blocks.py]

    The scheduler addresses a cache group by virtual block identifiers; a group
    with [shard_count] owners deals them cyclically, so each owner backs its
    share with its own local pages.  The runtime contract sizes both sides; the
    translation maps the blocks a rank owns to its pages.

    A numpy array is a list of integers; converting a sequence to [int64] raises
    [OverflowError] on an integer out of range.  A mapping argument is an
    association list with distinct keys. *)

From S2P Require Import Prelude PyDict CacheSpec.

Local Open Scope Z_scope.

(** ** The runtime contract *)

Definition require_positive_int (name : string) (value : Z) : result Z :=
  raise_when (value <=? 0) (ValueError name);; Ok value.

Definition virtual_block_count (page_count shard_count : Z) : Z :=
  1 + (page_count - 1) * shard_count.

Definition MAX_INT32 : Z := 2 ^ 31 - 1.

Module CacheRuntimeContract.

Record t := {
  prefix_granularity : Z;
  num_lcm_blocks : Z;
  token_capacity : Z;
  group_specs : list CacheGroupSpec.t;
  group_page_counts : list (string * Z);
  group_packing : list (string * Z);
}.

Definition group_ids (self : t) : list string := CacheGroupSpec.group_id <$> group_specs self.

(** [{group_id: require_positive_int(..., d[group_id]) for group_id in ids}] *)
Definition positive_table (name : string) (d : list (string * Z)) (ids : list string) :
    result (list (string * Z)) :=
  entries ← mapM (λ group_id,
    value ← lookup_or (KeyError "group_id") (dict_get d group_id);
    value ← require_positive_int name value;
    Ok (group_id, value)) ids;
  Ok (dict_of entries).

Definition virtual_block_counts (self : t) : result (list (string * Z)) :=
  entries ← mapM (λ spec,
    pages ← lookup_or (KeyError "group_id")
      (dict_get (group_page_counts self) (CacheGroupSpec.group_id spec));
    Ok (CacheGroupSpec.group_id spec,
        virtual_block_count pages (CacheGroupSpec.shard_count spec))) (group_specs self);
  Ok (dict_of entries).

Definition virtual_packing (self : t) : result (list (string * Z)) :=
  entries ← mapM (λ spec,
    count ← lookup_or (KeyError "group_id")
      (dict_get (group_packing self) (CacheGroupSpec.group_id spec));
    Ok (CacheGroupSpec.group_id spec, count * CacheGroupSpec.shard_count spec)) (group_specs self);
  Ok (dict_of entries).

(** [max(d.values())] of a dictionary of positive counts. *)
Definition max_count (d : list (string * Z)) : Z := foldr Z.max 0 (dict_values d).

Definition check_slots (counts : list (string * Z)) (spec : CacheGroupSpec.t) : result () :=
  match CacheGroupSpec.rows_per_page spec with
  | Some rows =>
      count ← lookup_or (KeyError "group_id") (dict_get counts (CacheGroupSpec.group_id spec));
      raise_when (MAX_INT32 <? count * rows - 1)
        (ValueError "local cache slots exceed int32 range")
  | None => Ok ()
  end.

(** The dataclass constructor: the contract with its two tables rebuilt in
    group order. *)
Definition post_init (self : t) : result t :=
  _ ← require_positive_int "prefix_granularity" (prefix_granularity self);
  _ ← require_positive_int "num_lcm_blocks" (num_lcm_blocks self);
  _ ← require_positive_int "token_capacity" (token_capacity self);
  raise_when (bool_decide (group_specs self = [])) (ValueError "group_specs must be a non-empty tuple");;
  let ids := group_ids self in
  raise_when (existsb (λ i, String.eqb i "") ids)
    (ValueError "group_specs must use nonempty string IDs");;
  raise_when (negb (length ids =? len_set ids)%nat)
    (ValueError "group_specs contain duplicate group IDs");;
  raise_when (negb (same_ids (dict_keys (group_page_counts self)) ids))
    (ValueError "group_page_counts keys must match group_specs");;
  counts ← positive_table "group page count" (group_page_counts self) ids;
  raise_when (negb (same_ids (dict_keys (group_packing self)) ids))
    (ValueError "group_packing keys must match group_specs");;
  packing ← positive_table "cache_blocks_per_lcm_block" (group_packing self) ids;
  let expected_counts :=
    dict_of ((λ p : string * Z, (p.1, num_lcm_blocks self * p.2 + 1)) <$> packing) in
  raise_when (negb (bool_decide (counts = expected_counts)))
    (ValueError "group page counts must equal num_lcm_blocks * cache_blocks_per_lcm_block + 1");;
  virtual_counts ← virtual_block_counts self;
  raise_when (MAX_INT32 <? max_count virtual_counts - 1)
    (ValueError "virtual cache block ID exceeds int32 range");;
  foldM (λ _ spec, check_slots counts spec) () (group_specs self);;
  let max_child_pages := max_count virtual_counts - 1 in
  raise_when (max_child_pages * prefix_granularity self <? token_capacity self)
    (ValueError "token_capacity exceeds the largest group's child-page capacity");;
  Ok {| prefix_granularity := prefix_granularity self; num_lcm_blocks := num_lcm_blocks self;
        token_capacity := token_capacity self; group_specs := group_specs self;
        group_page_counts := counts; group_packing := packing |}.

End CacheRuntimeContract.

(** ** Translation *)

(** [np.asarray(l, dtype=np.int64)] *)
Definition as_int64 (l : list Z) : result (list Z) :=
  raise_when (existsb (λ v, (v <? - 2 ^ 63) || (2 ^ 63 <=? v)) l)
    (OverflowError "Python int too large to convert to C long");;
  Ok l.

(** [local[owned]] *)
Definition select {A} (mask : list bool) (l : list A) : list A :=
  (filter (λ p : bool * A, p.1 = true) (zip mask l)).*2.

Definition owned_local_pages (virtual_blocks : list Z) (shard_count rank virtual_block_count : Z) :
    result (list bool * list Z) :=
  _ ← require_positive_int "shard_count" shard_count;
  raise_when ((rank <? 0) || ((1 <? shard_count) && (shard_count <=? rank)))
    (ValueError "KVP rank is out of range");;
  blocks ← as_int64 virtual_blocks;
  raise_when (existsb (λ v, (v <? 0) || (virtual_block_count <=? v)) blocks)
    (IndexError "virtual cache block ID is out of range");;
  let owned := (λ v, (0 <? v) && (negb (1 <? shard_count) || ((v - 1) mod shard_count =? rank)))
                 <$> blocks in
  let local := (λ v, (v - 1) / shard_count + 1) <$> blocks in
  Ok (owned, select owned local).

Definition local_pages (virtual_blocks : list Z) (shard_count rank virtual_block_count : Z) :
    result (list Z) :=
  r ← owned_local_pages virtual_blocks shard_count rank virtual_block_count; Ok r.2.

(** [{spec.group_id: spec.shard_count for spec in contract.group_specs}] *)
Definition shard_counts (contract : CacheRuntimeContract.t) : list (string * Z) :=
  dict_of ((λ spec, (CacheGroupSpec.group_id spec, CacheGroupSpec.shard_count spec))
             <$> CacheRuntimeContract.group_specs contract).

Definition local_pages_by_group (virtual_blocks_by_group : list (string * list Z))
    (contract : CacheRuntimeContract.t) (rank : Z) : result (list (string * list Z)) :=
  counts ← CacheRuntimeContract.virtual_block_counts contract;
  mapM (λ group : string * list Z,
    shards ← lookup_or (KeyError "group_id") (dict_get (shard_counts contract) group.1);
    count ← lookup_or (KeyError "group_id") (dict_get counts group.1);
    pages ← local_pages group.2 shards rank count;
    Ok (group.1, pages)) virtual_blocks_by_group.

(** One group's pairs; [np.stack] pairs the two columns. *)
Definition local_page_pairs (pairs : list (Z * Z)) (shard_count rank virtual_block_count : Z) :
    result (list (Z * Z)) :=
  src ← owned_local_pages pairs.*1 shard_count rank virtual_block_count;
  dst ← owned_local_pages pairs.*2 shard_count rank virtual_block_count;
  raise_when (negb (bool_decide (src.1 = dst.1)))
    (ValueError "a block copy pairs blocks of different owners");;
  Ok (zip src.2 dst.2).

Definition local_page_pairs_by_group (virtual_pairs_by_group : list (string * list (Z * Z)))
    (contract : CacheRuntimeContract.t) (rank : Z) : result (list (string * list (Z * Z))) :=
  counts ← CacheRuntimeContract.virtual_block_counts contract;
  mapM (λ group : string * list (Z * Z),
    _ ← as_int64 (group.2.*1 ++ group.2.*2);
    shards ← lookup_or (KeyError "group_id") (dict_get (shard_counts contract) group.1);
    count ← lookup_or (KeyError "group_id") (dict_get counts group.1);
    pairs ← local_page_pairs group.2 shards rank count;
    Ok (group.1, pairs)) virtual_pairs_by_group.

(** ** The cyclic placement *)

(** Reference placement of a block other than the null block 0. *)
Definition block_owner (shard_count v : Z) : Z := (v - 1) mod shard_count.
Definition block_local (shard_count v : Z) : Z := (v - 1) / shard_count + 1.
Definition block_of (shard_count rank page : Z) : Z := (page - 1) * shard_count + rank + 1.

(** The blocks [rank] owns: all of them when the group is replicated. *)
Definition owns (shard_count rank v : Z) : bool :=
  (0 <? v) && ((shard_count <=? 1) || (block_owner shard_count v =? rank)).

Definition valid_rank (shard_count rank : Z) : Prop :=
  0 < shard_count ∧ 0 ≤ rank ∧ (1 < shard_count → rank < shard_count).

Lemma block_of_local d v : 0 < d → block_of d (block_owner d v) (block_local d v) = v.
Proof.
  intros Hd. unfold block_of, block_owner, block_local.
  pose proof (Z.div_mod (v - 1) d ltac:(lia)). lia.
Qed.

Lemma local_block_of d rank page :
  0 < d → 0 ≤ rank < d →
  block_owner d (block_of d rank page) = rank ∧ block_local d (block_of d rank page) = page.
Proof.
  intros Hd Hr. unfold block_of, block_owner, block_local.
  replace ((page - 1) * d + rank + 1 - 1) with (rank + (page - 1) * d) by lia.
  rewrite Z.mod_add, Z.div_add by lia. rewrite Z.mod_small, Z.div_small by lia. lia.
Qed.

Lemma block_owner_bound d v : 0 < d → 0 ≤ block_owner d v < d.
Proof. intros. by apply Z.mod_pos_bound. Qed.

(** A block of the group lies on a page of its owner, and back. *)
Lemma block_local_bound d pages v :
  0 < d → 0 < v < virtual_block_count pages d → 1 ≤ block_local d v < pages.
Proof.
  unfold virtual_block_count, block_local. intros Hd Hv.
  pose proof (Z.div_pos (v - 1) d ltac:(lia) Hd).
  assert ((v - 1) / d < pages - 1) by (apply Z.div_lt_upper_bound; lia). lia.
Qed.

Lemma block_of_bound d pages rank page :
  0 < d → 0 ≤ rank < d → 1 ≤ page < pages →
  0 < block_of d rank page < virtual_block_count pages d.
Proof. unfold block_of, virtual_block_count. nia. Qed.

Lemma select_fmap {A} (f : Z → bool) (g : Z → A) l :
  select (f <$> l) (g <$> l) = g <$> filter (λ v, f v = true) l.
Proof.
  unfold select. induction l as [|v l IH]; [done|]. rewrite !fmap_cons. cbn [zip_with].
  rewrite !filter_cons. cbn [fst]. case_decide; [|done]. rewrite !fmap_cons, IH. done.
Qed.

Definition int64 (v : Z) : Prop := - 2 ^ 63 ≤ v < 2 ^ 63.

(** The translation, for a rank of the group and blocks in range. *)
Lemma owned_local_pages_Ok blocks d rank n :
  valid_rank d rank → n ≤ 2 ^ 63 → Forall (λ v, 0 ≤ v < n) blocks →
  owned_local_pages blocks d rank n =
    Ok (owns d rank <$> blocks, block_local d <$> filter (λ v, owns d rank v = true) blocks).
Proof.
  intros (Hd & Hr & Hrd) Hn Hb. unfold owned_local_pages, require_positive_int, as_int64.
  rewrite (proj2 (Z.leb_gt d 0)) by lia. cbn.
  replace ((rank <? 0) || ((1 <? d) && (d <=? rank))) with false by lia. cbn.
  assert (Hno : ∀ p, (∀ v, 0 ≤ v < n → p v = false) → existsb p blocks = false).
  { intros p Hp. induction Hb as [|v l Hv Hl IH]; cbn; [done|]. by rewrite Hp, IH. }
  rewrite Hno by (intros; lia). cbn. rewrite Hno by (intros; lia). cbn.
  assert (Hf : (λ v, (0 <? v) && (negb (1 <? d) || ((v - 1) mod d =? rank))) <$> blocks =
               owns d rank <$> blocks).
  { apply list_fmap_ext. intros i v _. unfold owns, block_owner. f_equal. f_equal. lia. }
  rewrite Hf. change (λ v : Z, (v - 1) / d + 1) with (block_local d). by rewrite select_fmap.
Qed.

Lemma owned_local_pages_IndexError blocks d rank n :
  valid_rank d rank → Forall int64 blocks → ¬ Forall (λ v, 0 ≤ v < n) blocks →
  owned_local_pages blocks d rank n = Raise (IndexError "virtual cache block ID is out of range").
Proof.
  intros (Hd & Hr & Hrd) Hi Hb. unfold owned_local_pages, require_positive_int, as_int64.
  rewrite (proj2 (Z.leb_gt d 0)) by lia. cbn.
  replace ((rank <? 0) || ((1 <? d) && (d <=? rank))) with false by lia. cbn.
  assert (existsb (λ v, (v <? - 2 ^ 63) || (2 ^ 63 <=? v)) blocks = false) as ->.
  { clear Hb. induction Hi as [|v l Hv Hl IH]; cbn; [done|]. unfold int64 in Hv.
    cbn in IH. rewrite IH. lia. }
  cbn [raise_when mbind result_bind].
  destruct (existsb _ blocks) eqn:E; [done|]. destruct Hb. clear Hi.
  induction blocks as [|v l IH]; [constructor|]. cbn in E. apply orb_false_iff in E as [? ?].
  constructor; [lia|auto].
Qed.

(** Exactly one rank of a sharded group owns a block. *)
Lemma owns_unique d v r : 1 < d → 0 < v → owns d r v = true ↔ r = block_owner d v.
Proof. intros. unfold owns. lia. Qed.

(** Reading the owned blocks back: the mask says which, the pages say where. *)
Definition blocks_of_pages (d rank : Z) (pages : list Z) : list Z := block_of d rank <$> pages.

Lemma owned_blocks_back d rank blocks :
  1 < d → Forall (Z.le 0) blocks →
  blocks_of_pages d rank (block_local d <$> filter (λ v, owns d rank v = true) blocks) =
  filter (λ v, owns d rank v = true) blocks.
Proof.
  intros Hd Hb. unfold blocks_of_pages. rewrite <-list_fmap_compose.
  rewrite <-(list_fmap_id (filter _ blocks)) at 2. apply list_fmap_ext. intros i v Hi.
  apply list_elem_of_lookup_2, list_elem_of_filter in Hi as [Ho _]. cbn.
  unfold owns in Ho. assert (rank = block_owner d v) as -> by lia. apply block_of_local. lia.
Qed.

(** ** Contract tables *)

(** A table built by a comprehension over distinct identifiers. *)
Lemma mapM_table {A} (key : A → string) (f : A → result Z) l entries :
  mapM (λ x, v ← f x; Ok (key x, v)) l = Ok entries → NoDup (key <$> l) →
  dict_keys (dict_of entries) = key <$> l ∧
  ∀ x, x ∈ l → ∃ v, f x = Ok v ∧ dict_get (dict_of entries) (key x) = Some v.
Proof.
  intros H%mapM_Ok Hnd.
  assert (Hkeys : entries.*1 = key <$> l).
  { clear Hnd. induction H as [|x e l entries Hx _ IH]; [done|]. rewrite !fmap_cons, IH.
    f_equal. by inv_ok. }
  rewrite dict_of_id by (by rewrite Hkeys). split; [done|].
  intros x [i Hi]%list_elem_of_lookup.
  destruct (Forall2_lookup_l _ _ _ _ _ H Hi) as ([k v] & He & Hx). inv_ok. simplify_eq.
  exists v. split; [done|]. apply elem_of_dict_get; [by rewrite Hkeys|].
  by eapply list_elem_of_lookup_2.
Qed.

Lemma positive_table_spec name d ids tbl :
  CacheRuntimeContract.positive_table name d ids = Ok tbl → NoDup ids →
  dict_keys tbl = ids ∧ ∀ g, g ∈ ids → ∃ v, dict_get d g = Some v ∧ dict_get tbl g = Some v ∧ 0 < v.
Proof.
  intros H Hnd. unfold CacheRuntimeContract.positive_table in H. inv_ok.
  assert (Hr' : mapM (λ x, v ← (value ← lookup_or (KeyError "group_id") (dict_get d x);
    require_positive_int name value); Ok (id x, v)) ids = Ok r).
  { eapply mapM_Ok_ext; [exact Hr|]. intros x y _ Hx. cbn beta in Hx.
    destruct (dict_get d x) as [z|]; [|discriminate Hx]. cbn in *.
    by destruct (require_positive_int name z). }
  destruct (mapM_table id _ _ _ Hr') as [Hk Hv]; [by rewrite list_fmap_id|].
  rewrite list_fmap_id in Hk. split; [done|]. intros g Hg. destruct (Hv g Hg) as (v & Hf & Hgv).
  unfold require_positive_int in Hf. destruct (dict_get d g) as [z|]; [|discriminate Hf].
  cbn in Hf. inv_ok. exists z. split_and!; [done|done|lia].
Qed.

(** A comprehension over the group specifications that looks each one up. *)
Lemma spec_table (d : list (string * Z)) (h : Z → CacheGroupSpec.t → Z) specs :
  NoDup (CacheGroupSpec.group_id <$> specs) →
  (∀ spec, spec ∈ specs → is_Some (dict_get d (CacheGroupSpec.group_id spec))) →
  ∃ entries,
    mapM (λ spec, v ← lookup_or (KeyError "group_id") (dict_get d (CacheGroupSpec.group_id spec));
                  Ok (CacheGroupSpec.group_id spec, h v spec)) specs = Ok entries ∧
    ∀ spec v, spec ∈ specs → dict_get d (CacheGroupSpec.group_id spec) = Some v →
      dict_get (dict_of entries) (CacheGroupSpec.group_id spec) = Some (h v spec).
Proof.
  intros Hnd Hd. pose (entry spec := (CacheGroupSpec.group_id spec,
    h (default 0 (dict_get d (CacheGroupSpec.group_id spec))) spec)).
  exists (entry <$> specs). split.
  - apply mapM_Ok, Forall2_fmap_r, Forall_Forall2_diag, Forall_forall. intros spec Hs.
    destruct (Hd spec Hs) as [v E]. unfold entry, compose. by rewrite !E.
  - intros spec v Hs Hv. assert (Hk : (entry <$> specs).*1 = CacheGroupSpec.group_id <$> specs)
      by (by rewrite <-list_fmap_compose).
    rewrite dict_get_of by (by rewrite Hk). apply elem_of_dict_get; [by rewrite Hk|].
    apply list_elem_of_fmap. exists spec. unfold entry. rewrite Hv. done.
Qed.

Lemma max_count_ge d g v : dict_get d g = Some v → v ≤ CacheRuntimeContract.max_count d.
Proof.
  intros H%dict_get_elem_of. unfold CacheRuntimeContract.max_count.
  apply foldr_max_ge. by apply (list_elem_of_fmap_2 snd _ (g, v)).
Qed.

Lemma check_slots_Forall counts specs :
  foldM (λ _ spec, CacheRuntimeContract.check_slots counts spec) () specs = Ok () →
  Forall (λ spec, CacheRuntimeContract.check_slots counts spec = Ok ()) specs.
Proof.
  apply (foldM_ind (λ visited _,
    Forall (λ spec, CacheRuntimeContract.check_slots counts spec = Ok ()) visited)); [constructor|].
  intros visited x rest [] [] _ Hv Hx. apply Forall_app. split; [done|]. by constructor.
Qed.

(** ** Properties *)

(** Sharding loses and duplicates nothing.  Translating the same blocks on
    every rank of a sharded group, and reading each rank's local pages back as
    blocks, gives exactly the blocks other than the null block, each on one
    rank; a rank's pages are within its page count; and the mask marks as many
    blocks as there are pages. *)
Theorem shards_partition_blocks blocks d pages :
  1 < d → virtual_block_count pages d ≤ 2 ^ 63 →
  Forall (λ v, 0 ≤ v < virtual_block_count pages d) blocks →
  ∃ translated : list (list bool * list Z),
    mapM (λ rank, owned_local_pages blocks d rank (virtual_block_count pages d)) (seqZ 0 d)
      = Ok translated ∧
    concat (zip_with (λ rank t, blocks_of_pages d rank t.2) (seqZ 0 d) translated)
      ≡ₚ filter (λ v, 0 < v) blocks ∧
    Forall (λ t, Forall (λ p, 1 ≤ p < pages) t.2 ∧
                 length (filter (λ b, b = true) t.1) = length t.2) translated.
Proof.
  intros Hd Hmax Hb. set (t rank := (owns d rank <$> blocks,
    block_local d <$> filter (λ v, owns d rank v = true) blocks)).
  exists (t <$> seqZ 0 d). split_and!.
  - apply mapM_Ok, Forall2_fmap_r, Forall_Forall2_diag, Forall_forall. intros r Hr%elem_of_seqZ.
    apply owned_local_pages_Ok; [split_and!; lia|done|done].
  - trans (classes (block_owner d) (seqZ 0 d) (filter (λ v, 0 < v) blocks)).
    + unfold classes. rewrite zip_with_fmap_r, zip_with_diag. apply reflexive_eq. f_equal.
      apply list_fmap_ext. intros i r Hr. unfold t. cbn [snd].
      rewrite owned_blocks_back; [|done|eapply Forall_impl; [exact Hb|]; cbn; lia].
      rewrite list_filter_filter. apply list_filter_iff. intros v. unfold owns. lia.
    + apply classes_perm, Forall_forall. intros v _. by apply block_owner_bound; lia.
  - apply Forall_fmap, Forall_forall. intros r Hr. cbn. split.
    + apply Forall_fmap, Forall_forall. intros v [Ho Hv]%list_elem_of_filter.
      apply (proj1 (Forall_forall _ _) Hb) in Hv. cbn. apply block_local_bound; [lia|].
      unfold owns in Ho. lia.
    + rewrite length_fmap. clear. induction blocks as [|v l IH]; [done|].
      rewrite fmap_cons, !filter_cons. case_decide; cbn [length]; by rewrite IH.
Qed.

Lemma shards_partition_blocks_witness :
  ∃ translated : list (list bool * list Z),
    mapM (λ rank, owned_local_pages [5; 0; 2; 5] 4 rank (virtual_block_count 3 4)) (seqZ 0 4)
      = Ok translated ∧
    concat (zip_with (λ rank t, blocks_of_pages 4 rank t.2) (seqZ 0 4) translated)
      ≡ₚ [5; 2; 5].
Proof.
  destruct (shards_partition_blocks [5; 0; 2; 5] 4 3) as (t & Ht & Hp & _);
    [lia|vm_compute; discriminate|repeat constructor; vm_compute; congruence|].
  exists t. split; [exact Ht|]. exact Hp.
Defined.

(** The placement is a bijection.  A block other than the null block is
    determined by its owner and its local page, every owner and page in range
    name a block in range, and translating that block on its owner gives the
    page back. *)
Theorem block_page_bijection d pages :
  1 < d → virtual_block_count pages d ≤ 2 ^ 63 →
  (∀ v, 0 < v < virtual_block_count pages d →
     0 ≤ block_owner d v < d ∧ 1 ≤ block_local d v < pages ∧
     block_of d (block_owner d v) (block_local d v) = v) ∧
  (∀ rank page, 0 ≤ rank < d → 1 ≤ page < pages →
     0 < block_of d rank page < virtual_block_count pages d ∧
     local_pages [block_of d rank page] d rank (virtual_block_count pages d) = Ok [page] ∧
     ∀ rank', 0 ≤ rank' < d → rank' ≠ rank →
       local_pages [block_of d rank page] d rank' (virtual_block_count pages d) = Ok []).
Proof.
  intros Hd Hmax. split.
  - intros v Hv. split; [apply block_owner_bound; lia|].
    split; [apply block_local_bound; lia|apply block_of_local; lia].
  - intros rank page Hr Hp. pose proof (block_of_bound d pages rank page ltac:(lia) Hr Hp) as Hb.
    destruct (local_block_of d rank page ltac:(lia) Hr) as [Ho Hl].
    assert (Hall : Forall (λ v, 0 ≤ v < virtual_block_count pages d) [block_of d rank page])
      by (repeat constructor; lia).
    split; [done|]. unfold local_pages. split.
    + rewrite owned_local_pages_Ok; [|split_and!; lia|done|done]. cbn [mbind result_bind snd].
      rewrite filter_cons_True by (unfold owns; lia). cbn [fmap list_fmap]. by rewrite Hl.
    + intros r' Hr' Hne. rewrite owned_local_pages_Ok; [|split_and!; lia|done|done].
      cbn [mbind result_bind snd]. rewrite filter_cons_False by (unfold owns; lia). done.
Qed.

Lemma block_page_bijection_witness :
  local_pages [block_of 4 2 1] 4 2 (virtual_block_count 3 4) = Ok [1].
Proof.
  destruct (block_page_bijection 4 3) as [_ H]; [lia|vm_compute; discriminate|].
  apply (H 2 1); lia.
Defined.

(** The pairs [rank] owns at both ends, translated. *)
Definition owned_pairs (d rank : Z) (pairs : list (Z * Z)) : list (Z * Z) :=
  (λ p : Z * Z, (block_local d p.1, block_local d p.2)) <$>
    filter (λ p : Z * Z, owns d rank p.1 = true) pairs.

Lemma zip_owned_pairs d rank pairs :
  Forall (λ p : Z * Z, owns d rank p.1 = owns d rank p.2) pairs →
  zip (block_local d <$> filter (λ v, owns d rank v = true) pairs.*1)
      (block_local d <$> filter (λ v, owns d rank v = true) pairs.*2) = owned_pairs d rank pairs.
Proof.
  unfold owned_pairs. induction 1 as [|[a b] pairs Hp Hps IH]; [done|]. cbn in Hp.
  rewrite !fmap_cons, !filter_cons. cbn [fst snd]. rewrite <-Hp.
  case_decide; [|done]. rewrite !fmap_cons. cbn [zip_with fst snd]. by rewrite IH.
Qed.

(** A copy stays on one rank.  Translating block pairs succeeds exactly when
    the two ends of every pair agree on being owned here; then it returns both
    local pages of exactly the owned pairs, in order, and otherwise it raises
    [ValueError] instead of splitting a pair. *)
Theorem pairs_stay_together pairs d rank n :
  valid_rank d rank → n ≤ 2 ^ 63 → Forall (λ p : Z * Z, 0 ≤ p.1 < n ∧ 0 ≤ p.2 < n) pairs →
  local_page_pairs pairs d rank n =
    if decide (Forall (λ p : Z * Z, owns d rank p.1 = owns d rank p.2) pairs)
    then Ok (owned_pairs d rank pairs)
    else Raise (ValueError "a block copy pairs blocks of different owners").
Proof.
  intros Hr Hn Hp. unfold local_page_pairs.
  rewrite !owned_local_pages_Ok; try done;
    [|apply Forall_fmap; eapply Forall_impl; [exact Hp|]; cbn; tauto..].
  cbn [mbind result_bind fst snd]. case_decide as Hall.
  - rewrite bool_decide_true; [cbn; by rewrite zip_owned_pairs|].
    apply list_eq_Forall2, Forall2_fmap, Forall2_fmap, Forall_Forall2_diag. done.
  - rewrite bool_decide_false; [done|]. intros Heq. apply Hall. clear -Heq.
    induction pairs as [|p pairs IH]; [constructor|]. rewrite !fmap_cons in Heq.
    injection Heq as H1 H2. constructor; [done|auto].
Qed.

Lemma pairs_stay_together_witness :
  local_page_pairs [(1, 5); (2, 6); (3, 7)] 4 1 9 = Ok [(1, 2)].
Proof.
  rewrite (pairs_stay_together [(1, 5); (2, 6); (3, 7)] 4 1 9);
    [reflexivity|split_and!; lia|vm_compute; discriminate|repeat constructor; cbn; lia].
Defined.

(** A runtime contract that its constructor accepts is consistent.  Each
    group has its packing times the parents plus the null page; its scheduler
    blocks are the parents times the virtual packing plus the null block, so the
    scheduler and the arena count the same parents; and every block identifier
    and every row slot fits a 32-bit kernel index. *)
Theorem contract_consistent self c spec :
  CacheRuntimeContract.post_init self = Ok c → spec ∈ CacheRuntimeContract.group_specs c →
  let gid := CacheGroupSpec.group_id spec in
  let shards := CacheGroupSpec.shard_count spec in
  let n := CacheRuntimeContract.num_lcm_blocks c in
  0 < n ∧ NoDup (CacheRuntimeContract.group_ids c) ∧
  ∃ counts packing k,
    CacheRuntimeContract.virtual_block_counts c = Ok counts ∧
    CacheRuntimeContract.virtual_packing c = Ok packing ∧
    dict_get (CacheRuntimeContract.group_packing c) gid = Some k ∧ 0 < k ∧
    dict_get (CacheRuntimeContract.group_page_counts c) gid = Some (n * k + 1) ∧
    dict_get packing gid = Some (k * shards) ∧
    dict_get counts gid = Some (1 + n * (k * shards)) ∧
    n * (k * shards) ≤ MAX_INT32 ∧
    (∀ rows, CacheGroupSpec.rows_per_page spec = Some rows → (n * k + 1) * rows - 1 ≤ MAX_INT32).
Proof.
  intros H Hs. unfold CacheRuntimeContract.post_init, require_positive_int in H. inv_ok.
  unfold CacheRuntimeContract.group_ids in *. cbn [CacheRuntimeContract.group_specs
    CacheRuntimeContract.num_lcm_blocks CacheRuntimeContract.group_page_counts
    CacheRuntimeContract.group_packing] in *. cbn zeta.
  apply negb_false_iff, Nat.eqb_eq, len_set_NoDup in Hr4.
  destruct (positive_table_spec _ _ _ _ Hr6 Hr4) as [Hck Hc].
  destruct (positive_table_spec _ _ _ _ Hr8 Hr4) as [Hpk Hp].
  rename r2 into counts, r3 into packing. set (specs := CacheRuntimeContract.group_specs self) in *.
  set (n := CacheRuntimeContract.num_lcm_blocks self) in *.
  assert (Hid : ∀ spec, spec ∈ specs → CacheGroupSpec.group_id spec ∈ CacheGroupSpec.group_id <$> specs)
    by (intros; by apply list_elem_of_fmap_2).
  destruct (spec_table counts (λ v spec, virtual_block_count v (CacheGroupSpec.shard_count spec)) specs)
    as (vc & Hvc & Hvc'); [done|intros sp Hsp; destruct (Hc _ (Hid sp Hsp)) as (? & _ & ? & _); eauto|].
  destruct (spec_table packing (λ v spec, v * CacheGroupSpec.shard_count spec) specs)
    as (vp & Hvp & Hvp'); [done|intros sp Hsp; destruct (Hp _ (Hid sp Hsp)) as (? & _ & ? & _); eauto|].
  destruct (Hp _ (Hid spec Hs)) as (k & _ & Hk & Hkp).
  assert (Hpages : dict_get counts (CacheGroupSpec.group_id spec) = Some (n * k + 1)).
  { apply negb_false_iff, bool_decide_eq_true in Hr9. rewrite Hr9, dict_get_of;
      [|rewrite <-list_fmap_compose; change (NoDup (dict_keys packing)); by rewrite Hpk].
    apply elem_of_dict_get; [rewrite <-list_fmap_compose; change (NoDup (dict_keys packing)); by rewrite Hpk|].
    apply list_elem_of_fmap. exists (CacheGroupSpec.group_id spec, k). split; [done|].
    by apply dict_get_elem_of. }
  split; [lia|]. split; [done|]. exists (dict_of vc), (dict_of vp), k.
  unfold CacheRuntimeContract.virtual_block_counts, CacheRuntimeContract.virtual_packing. cbn.
  rewrite Hvc, Hvp. cbn. pose proof (Hvc' spec _ Hs Hpages) as Hcount.
  split_and!; try done.
  - by apply Hvp'.
  - rewrite Hcount. unfold virtual_block_count. f_equal. ring.
  - enough (r4 = dict_of vc) as ->.
    { pose proof (max_count_ge _ _ _ Hcount). unfold virtual_block_count in *. nia. }
    unfold CacheRuntimeContract.virtual_block_counts in Hr10.
    apply bind_Ok in Hr10 as (es & Hes & Hr10). apply Ok_inj in Hr10. subst r4. f_equal.
    apply Ok_inj. rewrite <-Hvc. symmetry. eapply mapM_Ok_ext; [exact Hes|].
    intros sp y Hsp Hy. cbn beta in Hy |- *. destruct (Hc _ (Hid sp Hsp)) as (v & E1 & E2 & _).
    by rewrite E1 in Hy; rewrite E2.
  - intros rows Hrows. apply check_slots_Forall in Hr12.
    pose proof (proj1 (Forall_forall _ _) Hr12 _ Hs) as Hslot.
    unfold CacheRuntimeContract.check_slots in Hslot. rewrite Hrows, Hpages in Hslot.
    cbn in Hslot. inv_ok. lia.
Qed.

(** A contract of two groups, one sharded over two ranks. *)
Definition example_contract : CacheRuntimeContract.t :=
  {| CacheRuntimeContract.prefix_granularity := 64; CacheRuntimeContract.num_lcm_blocks := 8;
     CacheRuntimeContract.token_capacity := 1024;
     CacheRuntimeContract.group_specs :=
       [ {| CacheGroupSpec.group_id := "full_attention"; CacheGroupSpec.attn_kind := full_history;
            CacheGroupSpec.rows_per_page := Some 64; CacheGroupSpec.entry_stride_tokens := Some 1;
            CacheGroupSpec.sliding_window_tokens := None; CacheGroupSpec.replayable := false;
            CacheGroupSpec.transfer_policy := None; CacheGroupSpec.shard_count := 2 |};
         example_sliding_spec ];
     CacheRuntimeContract.group_page_counts := [("sliding_attention", 9); ("full_attention", 17)];
     CacheRuntimeContract.group_packing := [("full_attention", 2); ("sliding_attention", 1)] |}.

Lemma contract_consistent_witness :
  ∃ c counts, CacheRuntimeContract.post_init example_contract = Ok c ∧
    CacheRuntimeContract.virtual_block_counts c = Ok counts ∧
    ∃ blocks, dict_get counts "full_attention" = Some blocks.
Proof.
  destruct (CacheRuntimeContract.post_init example_contract) as [c|] eqn:H;
    [|vm_compute in H; discriminate H].
  assert (Hc := H). vm_compute in Hc. injection Hc as Hc.
  destruct (contract_consistent example_contract c
    (hd example_sliding_spec (CacheRuntimeContract.group_specs example_contract)) H)
    as (_ & _ & counts & packing & k & Hv & _ & _ & _ & _ & _ & Hcount & _);
    [subst c; constructor|].
  exists c, counts. split; [reflexivity|]. split; [exact Hv|]. eexists. exact Hcount.
Defined.
