(* ===== verification/PPStage.v ===== *)
(** * Pipeline stages: [distributed/pp_stage.py]

    The split of a model's layers into stage windows, the same windows in the
    cache-layer namespace, and the tensor bundle one stage hands to the next.  A
    tensor is a value of an arbitrary type: the bundle only routes it. *)

From S2P Require Import Prelude PyDict Mapping.

Local Open Scope Z_scope.

(** The loop that turns counts into [[start, end)] windows. *)
Fixpoint windows_from (start : Z) (counts : list Z) : list (Z * Z) :=
  match counts with
  | [] => []
  | length :: counts => (start, start + length) :: windows_from (start + length) counts
  end.

Definition stage_counts (num_layers pp_size : Z) (partition : option (list Z)) :
    result (list Z) :=
  match partition with
  | Some partition =>
      raise_when (negb (Z.of_nat (length partition) =? pp_size))
        (ValueError "pp layer partition has the wrong number of entries");;
      raise_when (existsb (λ count, count <=? 0) partition)
        (ValueError "pp layer partition must give every stage at least one layer");;
      raise_when (negb (sumZ partition =? num_layers))
        (ValueError "pp layer partition does not sum to the layer count");;
      Ok partition
  | None =>
      raise_when (pp_size =? 0) (ZeroDivisionError "integer division or modulo by zero");;
      let base := num_layers / pp_size in
      let remainder := num_layers mod pp_size in
      Ok ((λ stage, base + if stage <? remainder then 1 else 0) <$> seqZ 0 pp_size)
  end.

Definition pp_stage_windows (num_layers pp_size : Z) (partition : option (list Z)) :
    result (list (Z * Z)) :=
  counts ← stage_counts num_layers pp_size partition;
  Ok (windows_from 0 counts).

Definition pp_stage_cache_windows (execution_windows : list (Z * Z))
    (cache_layers_per_execution_layer num_target_cache_layers : Z) : result (list (Z * Z)) :=
  raise_when (cache_layers_per_execution_layer <? 1)
    (ValueError "cache_layers_per_execution_layer must be >= 1");;
  let windows := (λ w : Z * Z, (w.1 * cache_layers_per_execution_layer,
                                w.2 * cache_layers_per_execution_layer)) <$> execution_windows in
  raise_when (match last windows with
              | None => true | Some w => negb (w.2 =? num_target_cache_layers) end)
    (ValueError "stage windows do not cover the target cache layers");;
  Ok windows.

(** [l[i]] *)
Definition py_index {A} (l : list A) (i : Z) : result A :=
  let n := Z.of_nat (length l) in
  if (0 <=? i) && (i <? n) then lookup_or (IndexError "list index out of range") (l !! Z.to_nat i)
  else if (- n <=? i) && (i <? 0)
  then lookup_or (IndexError "list index out of range") (l !! Z.to_nat (n + i))
  else Raise (IndexError "list index out of range").

Definition pp_layer_window (num_hidden_layers : Z) (mapping : Mapping.t) : result (Z * Z) :=
  let pp_size := Mapping.pp_size mapping in
  pp_rank ← (if 1 <? pp_size then Mapping.pp_rank mapping else Ok 0);
  windows ← pp_stage_windows num_hidden_layers pp_size (Mapping.pp_layer_partition mapping);
  py_index windows pp_rank.

(** ** The stage boundary *)

Module PPStageState.
Section tensors.
Context {T : Type}.

Record t := {
  hidden_states : T;
  residual : option T;
  hc_x : option T;
  hc_post : option T;
  hc_comb : option T;
  block_residual : option T;
  projected_context : option T;
}.

(** The fields in declaration order, with their names. *)
Definition named_fields (self : t) : list (string * option T) :=
  [ ("hidden_states", Some (hidden_states self)); ("residual", residual self);
    ("hc_x", hc_x self); ("hc_post", hc_post self); ("hc_comb", hc_comb self);
    ("block_residual", block_residual self); ("projected_context", projected_context self) ].

Definition tensors (self : t) : list T := omap snd (named_fields self).

Definition field_names : list string :=
  [ "hidden_states"; "residual"; "hc_x"; "hc_post"; "hc_comb"; "block_residual";
    "projected_context" ].

(** [cls( **kwargs)] *)
Definition of_kwargs (kwargs : list (string * T)) : result t :=
  raise_when (existsb (λ k, negb (py_in k field_names)) (dict_keys kwargs))
    (TypeError "unexpected keyword argument");;
  hidden ← lookup_or (TypeError "missing required argument: 'hidden_states'")
    (dict_get kwargs "hidden_states");
  Ok {| hidden_states := hidden; residual := dict_get kwargs "residual";
        hc_x := dict_get kwargs "hc_x"; hc_post := dict_get kwargs "hc_post";
        hc_comb := dict_get kwargs "hc_comb";
        block_residual := dict_get kwargs "block_residual";
        projected_context := dict_get kwargs "projected_context" |}.

Definition from_tensors (tensors : list T) (field_names : list string) : result t :=
  raise_when (negb (length field_names =? length tensors)%nat)
    (ValueError "zip() arguments have different lengths");;
  of_kwargs (dict_of (zip field_names tensors)).

(** The names of the fields that travel. *)
Definition wire_names (self : t) : list string :=
  omap (λ p : string * option T, match p.2 with Some _ => Some p.1 | None => None end)
    (named_fields self).
End tensors.
Arguments t : clear implicits.
End PPStageState.

(** ** Windows *)

(** Windows that follow each other from [start] to [stop]. *)
Fixpoint contiguous (start stop : Z) (windows : list (Z * Z)) : Prop :=
  match windows with
  | [] => start = stop
  | w :: windows => w.1 = start ∧ contiguous w.2 stop windows
  end.

Definition in_window (layer : Z) (w : Z * Z) : Prop := w.1 ≤ layer < w.2.

#[export] Instance in_window_dec layer w : Decision (in_window layer w).
Proof. unfold in_window. apply _. Defined.

Lemma windows_from_contiguous start counts :
  contiguous start (start + sumZ counts) (windows_from start counts).
Proof.
  revert start. induction counts as [|c counts IH]; intros start; cbn [windows_from contiguous].
  - cbn. lia.
  - split; [done|]. cbn [snd]. rewrite sumZ_cons, Z.add_assoc. apply IH.
Qed.

Lemma windows_from_lengths start counts :
  (λ w : Z * Z, w.2 - w.1) <$> windows_from start counts = counts.
Proof.
  revert start. induction counts as [|c counts IH]; intros start; [done|].
  cbn [windows_from]. rewrite fmap_cons, IH. cbn. f_equal. lia.
Qed.

Lemma contiguous_le start stop ws :
  contiguous start stop ws → Forall (λ w, w.1 ≤ w.2) ws → start ≤ stop.
Proof.
  revert start. induction ws as [|w ws IH]; intros start; cbn; [lia|].
  intros [<- Hc] [Hw Hws]%Forall_cons. specialize (IH _ Hc Hws). lia.
Qed.

(** A layer of the range lies in exactly one of the windows. *)
Lemma contiguous_covers start stop ws layer :
  contiguous start stop ws → Forall (λ w, w.1 ≤ w.2) ws → start ≤ layer < stop →
  length (filter (in_window layer) ws) = 1%nat.
Proof.
  intros Hc Hws. revert start Hc. induction Hws as [|w ws Hw Hws IH]; intros start Hc Hl; cbn in Hc.
  { lia. }
  destruct Hc as [<- Hc]. rewrite filter_cons. destruct (decide (in_window layer w)) as [Hin|Hout].
  - cbn [length]. f_equal.
    assert (filter (in_window layer) ws = []) as ->; [|done].
    clear IH Hl. revert Hc. generalize (w.2) (proj2 Hin). clear Hw Hin.
    induction Hws as [|v ws Hv Hws IH]; intros s Hs; [done|]. intros [<- Hc].
    rewrite filter_cons_False by (unfold in_window; lia). apply (IH v.2); [lia|done].
  - apply (IH _ Hc). unfold in_window in Hout. lia.
Qed.

Lemma contiguous_outside start stop ws layer :
  contiguous start stop ws → Forall (λ w, w.1 ≤ w.2) ws → ¬ start ≤ layer < stop →
  filter (in_window layer) ws = [].
Proof.
  intros Hc Hws. revert start Hc. induction Hws as [|w ws Hw Hws IH]; intros start Hc Hl; [done|].
  cbn in Hc. destruct Hc as [<- Hc]. pose proof (contiguous_le _ _ _ Hc Hws).
  rewrite filter_cons_False by (unfold in_window; lia). apply (IH _ Hc). lia.
Qed.

Lemma sumZ_indicator (r : Z) (k : nat) start :
  sumZ ((λ s, if s <? r then 1 else 0) <$> seqZ start (Z.of_nat k)) =
  Z.max 0 (Z.min (Z.of_nat k) (r - start)).
Proof.
  revert start. induction k as [|k IH]; intros start.
  { change (0 = Z.max 0 (Z.min 0 (r - start))). lia. }
  rewrite seqZ_cons by lia. rewrite fmap_cons, sumZ_cons.
  replace (Z.pred (Z.of_nat (S k))) with (Z.of_nat k) by lia. rewrite IH. case_match; lia.
Qed.

Lemma even_counts_sum num_layers pp_size :
  0 < pp_size →
  sumZ ((λ stage, num_layers / pp_size + if stage <? num_layers mod pp_size then 1 else 0)
    <$> seqZ 0 pp_size) = num_layers.
Proof.
  intros Hp. pose proof (Z.mod_pos_bound num_layers pp_size Hp) as Hm.
  assert (Hsplit : ∀ (l : list Z) (f : Z → Z) c, sumZ ((λ s, c + f s) <$> l) =
    c * Z.of_nat (length l) + sumZ (f <$> l)).
  { intros l f c. induction l as [|x l IH]; [change (0 = c * 0 + 0); lia|].
    rewrite !fmap_cons, !sumZ_cons, IH. cbn [length]. rewrite Nat2Z.inj_succ. lia. }
  rewrite (Hsplit _ (λ s, if s <? num_layers mod pp_size then 1 else 0)).
  pose proof (sumZ_indicator (num_layers mod pp_size) (Z.to_nat pp_size) 0) as Hi.
  rewrite Z2Nat.id in Hi by lia. rewrite Hi, length_seqZ.
  pose proof (Z.div_mod num_layers pp_size ltac:(lia)). lia.
Qed.

Lemma fmap_const_on {A} (f : Z → A) a k c :
  (∀ s, s ∈ seqZ a k → f s = c) → f <$> seqZ a k = replicate (Z.to_nat k) c.
Proof.
  intros Hf. rewrite <-(length_seqZ a k). induction (seqZ a k) as [|x l IH]; [done|].
  rewrite fmap_cons. cbn [length replicate]. rewrite Hf by constructor. f_equal.
  apply IH. intros s Hs. apply Hf. by constructor.
Qed.

Lemma stage_counts_spec num_layers pp_size partition counts :
  0 < pp_size → 0 ≤ num_layers → stage_counts num_layers pp_size partition = Ok counts →
  Z.of_nat (length counts) = pp_size ∧ sumZ counts = num_layers ∧ Forall (Z.le 0) counts.
Proof.
  intros Hp Hn H. unfold stage_counts in H. destruct partition as [l|]; inv_ok.
  - apply existsb_false_Forall in Hr0.
    split_and!; [lia|lia|]. eapply Forall_impl; [exact Hr0|]. cbn. lia.
  - rewrite length_fmap, length_seqZ. split_and!; [lia|by apply even_counts_sum|].
    apply Forall_fmap, Forall_forall. intros s _. cbn.
    pose proof (Z.div_pos num_layers pp_size Hn Hp). case_match; lia.
Qed.

Lemma pp_stage_windows_spec num_layers pp_size partition ws :
  0 < pp_size → 0 ≤ num_layers → pp_stage_windows num_layers pp_size partition = Ok ws →
  contiguous 0 num_layers ws ∧ Forall (λ w, w.1 ≤ w.2) ws ∧ Z.of_nat (length ws) = pp_size.
Proof.
  intros Hp Hn H. unfold pp_stage_windows in H. inv_ok.
  destruct (stage_counts_spec _ _ _ _ Hp Hn Hr) as (Hl & Hs & Hpos).
  pose proof (windows_from_contiguous 0 r) as Hc. rewrite Z.add_0_l, Hs in Hc.
  pose proof (windows_from_lengths 0 r) as Hlen. split; [done|]. split.
  - rewrite <-Hlen in Hpos. apply (proj1 (Forall_fmap _ _ _)) in Hpos. eapply Forall_impl; [exact Hpos|]. cbn. lia.
  - rewrite <-Hl. f_equal. by rewrite <-Hlen, length_fmap, Hlen.
Qed.

(** ** Properties *)

(** The stage split covers every layer once.  With or without an explicit
    partition, the windows follow each other from 0 to the layer count, one per
    stage, so each layer is in exactly one stage; without a partition the split
    always succeeds and stages differ by at most one layer, the larger first. *)
Theorem stage_windows_cover num_layers pp_size partition :
  0 < pp_size → 0 ≤ num_layers →
  match pp_stage_windows num_layers pp_size partition with
  | Ok ws =>
      contiguous 0 num_layers ws ∧ Z.of_nat (length ws) = pp_size ∧
      (∀ layer, 0 ≤ layer < num_layers → length (filter (in_window layer) ws) = 1%nat) ∧
      match partition with
      | Some counts => (λ w : Z * Z, w.2 - w.1) <$> ws = counts
      | None => (λ w : Z * Z, w.2 - w.1) <$> ws =
          replicate (Z.to_nat (num_layers mod pp_size)) (num_layers / pp_size + 1) ++
          replicate (Z.to_nat (pp_size - num_layers mod pp_size)) (num_layers / pp_size)
      end
  | Raise e => ∃ counts msg, partition = Some counts ∧ e = ValueError msg
  end.
Proof.
  intros Hp Hn. destruct (pp_stage_windows num_layers pp_size partition) as [ws|e] eqn:H.
  - destruct (pp_stage_windows_spec _ _ _ _ Hp Hn H) as (Hc & Hw & Hl). split_and!; [done..| |].
    { intros layer Hlayer. by eapply contiguous_covers. }
    unfold pp_stage_windows in H. inv_ok. rewrite windows_from_lengths. unfold stage_counts in Hr.
    destruct partition as [counts|]; inv_ok; [done|].
    pose proof (Z.mod_pos_bound num_layers pp_size Hp) as Hm. set (r := num_layers mod pp_size) in *.
    assert (seqZ 0 pp_size = seqZ 0 r ++ seqZ (0 + r) (pp_size - r)) as ->
      by (rewrite <-seqZ_app by lia; f_equal; lia).
    rewrite fmap_app.
    f_equal; apply fmap_const_on; intros s Hs%elem_of_seqZ; case_match; lia.
  - unfold pp_stage_windows in H. apply bind_Raise in H as [H|(? & _ & ?)]; [|done].
    unfold stage_counts in H. destruct partition as [counts|].
    + repeat (apply bind_Raise in H as [H|([] & _ & H)];
        [destruct (_ : bool) in H; [injection H as <-; eauto|done]|]). done.
    + rewrite (proj2 (Z.eqb_neq pp_size 0)) in H by lia. done.
Qed.

Lemma stage_windows_cover_witness :
  pp_stage_windows 38 4 None = Ok [(0, 10); (10, 20); (20, 29); (29, 38)] ∧
  contiguous 0 38 [(0, 10); (10, 20); (20, 29); (29, 38)].
Proof.
  assert (E : pp_stage_windows 38 4 None = Ok [(0, 10); (10, 20); (20, 29); (29, 38)])
    by (vm_compute; reflexivity).
  split; [exact E|]. pose proof (stage_windows_cover 38 4 None) as H. rewrite E in H.
  apply H; lia.
Defined.

(** The stage boundary round trips: rebuilding the bundle from the tensors
    it sends, under the names of the fields it sends, gives the bundle back,
    whichever optional fields are absent. *)
Theorem stage_state_roundtrip {T} (self : PPStageState.t T) :
  PPStageState.from_tensors (PPStageState.tensors self) (PPStageState.wire_names self) = Ok self.
Proof. by destruct self as [h [] [] [] [] [] []]. Qed.
