(* ===== verification/LayerOwnership.v ===== *)
(** * Cache-layer ownership: [kv_cache/recipes/ownership.py]

    Which pipeline stage holds which cache layers: the target layers by stage
    window, the draft layers on the last stage behind one producer step.  The
    placement resolves this into the fields each stage holds and the order they
    become ready. *)

From S2P Require Import Prelude PyDict PyString CacheFields CachePlan PPStage.

Local Open Scope Z_scope.

Module CacheLayerOwnership.

Record t := {
  num_target_cache_layers : Z;
  num_draft_cache_layers : Z;
  target_cache_window : Z * Z;
}.

Definition post_init (self : t) : result t :=
  raise_when ((num_target_cache_layers self <? 1) || (num_draft_cache_layers self <? 0))
    (ValueError "cache layer counts must be non-negative, target >= 1");;
  let '(start, stop) := target_cache_window self in
  raise_when (negb ((0 <=? start) && (start <? stop) && (stop <=? num_target_cache_layers self)))
    (ValueError "cache layer window is outside the target cache layer range");;
  Ok self.

Definition owns_draft_cache (self : t) : bool :=
  (0 <? num_draft_cache_layers self) &&
  ((target_cache_window self).2 =? num_target_cache_layers self).

Definition resident_cache_window (self : t) : Z * Z :=
  let '(start, stop) := target_cache_window self in
  (start, stop + if owns_draft_cache self then num_draft_cache_layers self else 0).

(** [range(a, b)] *)
Definition range (a b : Z) : list Z := seqZ a (b - a).

Definition producer_cache_layers (self : t) : list (list Z) :=
  let '(start, stop) := target_cache_window self in
  ((λ layer, [layer]) <$> range start stop) ++
  if owns_draft_cache self then [range stop (stop + num_draft_cache_layers self)] else [].

End CacheLayerOwnership.

Definition pipeline_cache_ownership (num_target_cache_layers num_draft_cache_layers : Z)
    (target_cache_windows : list (Z * Z)) : result (list CacheLayerOwnership.t) :=
  owners ← mapM (λ window, CacheLayerOwnership.post_init
    {| CacheLayerOwnership.num_target_cache_layers := num_target_cache_layers;
       CacheLayerOwnership.num_draft_cache_layers := num_draft_cache_layers;
       CacheLayerOwnership.target_cache_window := window |}) target_cache_windows;
  let windows := CacheLayerOwnership.target_cache_window <$> owners in
  raise_when
    (match head windows, last windows with
     | Some first, Some final =>
         negb (first.1 =? 0) || negb (final.2 =? num_target_cache_layers) ||
         existsb (λ p : (Z * Z) * (Z * Z), negb (p.1.2 =? p.2.1)) (zip windows (tail windows))
     | _, _ => true
     end)
    (ValueError "stage cache windows must cover the target cache layers once");;
  Ok owners.

(** [by_layer.setdefault(cache_field_layer_id(id), []).append(id)] over the fields. *)
Definition by_layer_step (d : list (Z * list string)) (field : CacheFieldLayout.t) :
    result (list (Z * list string)) :=
  let field_id := CacheFieldLayout.field_id field in
  layer ← cache_field_layer_id field_id;
  Ok (dict_set d layer (default [] (dict_get d layer) ++ [field_id])).

Definition schedule_of (by_layer : list (Z * list string)) (owner : CacheLayerOwnership.t) :
    list (list string) :=
  (λ layers : list Z, concat ((λ layer, default [] (dict_get by_layer layer)) <$> layers))
    <$> CacheLayerOwnership.producer_cache_layers owner.

Definition cache_field_placement (plan : CacheMemoryPlan.t) (owners : list CacheLayerOwnership.t) :
    result (list (list string) * list (list (list string))) :=
  by_layer ← foldM by_layer_step [] (CacheMemoryPlan.fields plan);
  let schedules := schedule_of by_layer <$> owners in
  let resident := (λ schedule : list (list string), concat schedule) <$> schedules in
  let flattened := concat resident in
  let field_ids := CacheFieldLayout.field_id <$> CacheMemoryPlan.fields plan in
  raise_when (negb (length flattened =? len_set flattened)%nat ||
              negb (same_ids flattened field_ids))
    (ValueError "cache ownership must cover every field exactly once");;
  Ok (resident, schedules).

(** ** Owners *)

Definition owner_of (target draft : Z) (w : Z * Z) : CacheLayerOwnership.t :=
  {| CacheLayerOwnership.num_target_cache_layers := target;
     CacheLayerOwnership.num_draft_cache_layers := draft;
     CacheLayerOwnership.target_cache_window := w |}.

(** Windows that a pipeline can own: non-empty, one after another, over the
    whole target range. *)
Definition windows_ok (target : Z) (ws : list (Z * Z)) : Prop :=
  ws ≠ [] ∧ contiguous 0 target ws ∧ Forall (λ w, w.1 < w.2) ws.

Lemma post_init_Ok o : is_Ok (CacheLayerOwnership.post_init o) = true ↔
  1 ≤ CacheLayerOwnership.num_target_cache_layers o ∧
  0 ≤ CacheLayerOwnership.num_draft_cache_layers o ∧
  0 ≤ (CacheLayerOwnership.target_cache_window o).1 <
      (CacheLayerOwnership.target_cache_window o).2 ∧
  (CacheLayerOwnership.target_cache_window o).2 ≤ CacheLayerOwnership.num_target_cache_layers o.
Proof.
  destruct o as [t d [a b]]. unfold CacheLayerOwnership.post_init; cbn.
  destruct ((t <? 1) || (d <? 0)) eqn:E1; cbn; [split; [done|lia]|].
  destruct ((0 <=? a) && (a <? b) && (b <=? t)) eqn:E2; cbn; split; try done; lia.
Qed.

Lemma post_init_id o o' : CacheLayerOwnership.post_init o = Ok o' → o' = o.
Proof.
  unfold CacheLayerOwnership.post_init. intros H.
  apply bind_Ok in H as (? & _ & H). destruct (CacheLayerOwnership.target_cache_window o).
  apply bind_Ok in H as (? & _ & H). by injection H.
Qed.

Lemma mapM_owners target draft ws owners :
  mapM (λ w, CacheLayerOwnership.post_init (owner_of target draft w)) ws = Ok owners ↔
  owners = owner_of target draft <$> ws ∧
  Forall (λ w, is_Ok (CacheLayerOwnership.post_init (owner_of target draft w)) = true) ws.
Proof.
  rewrite mapM_Ok. split.
  - intros H. split.
    + induction H as [|w o ws owners Hw _ IH]; [done|]. rewrite fmap_cons, <-IH. f_equal.
      by apply post_init_id.
    + apply Forall_forall. intros w [i Hi]%list_elem_of_lookup.
      destruct (Forall2_lookup_l _ _ _ _ _ H Hi) as (o & _ & Ho). by rewrite Ho.
  - intros [-> Hall]. apply Forall2_fmap_r, Forall_Forall2_diag.
    eapply Forall_impl; [exact Hall|]. intros w Hw. cbn in Hw |- *.
    apply is_Ok_true in Hw as [o Ho]. by pose proof (post_init_id _ _ Ho) as ->.
Qed.

Lemma contiguous_chain start stop ws :
  ws ≠ [] →
  contiguous start stop ws ↔
  (match head ws with Some w => w.1 = start | None => False end) ∧
  (match last ws with Some w => w.2 = stop | None => False end) ∧
  Forall (λ p : (Z * Z) * (Z * Z), p.1.2 = p.2.1) (zip ws (tail ws)).
Proof.
  revert start. induction ws as [|w ws IH]; intros start; [done|]. intros _.
  destruct ws as [|v ws]; cbn [contiguous head tail last].
  - cbn. naive_solver.
  - specialize (IH w.2 ltac:(done)).
    change (w.1 = start ∧ contiguous w.2 stop (v :: ws) ↔ w.1 = start ∧
      (match last (v :: ws) with Some w => w.2 = stop | None => False end) ∧
      Forall (λ p : (Z * Z) * (Z * Z), p.1.2 = p.2.1) ((w, v) :: zip (v :: ws) ws)).
    rewrite IH, Forall_cons. cbn [head tail fst snd]. naive_solver.
Qed.

Lemma windows_le (ws : list (Z * Z)) :
  Forall (λ w, w.1 < w.2) ws → Forall (λ w, w.1 ≤ w.2) ws.
Proof. intros H. eapply Forall_impl; [exact H|]. intros w Hw. cbn in Hw |- *. lia. Qed.

Lemma contiguous_bounds start stop ws (w : Z * Z) :
  contiguous start stop ws → Forall (λ w, w.1 ≤ w.2) ws → w ∈ ws → start ≤ w.1 ∧ w.2 ≤ stop.
Proof.
  intros Hc Hle. revert start Hc. induction Hle as [|v ws Hv Hws IH]; intros start Hc Hin.
  { by apply not_elem_of_nil in Hin. }
  cbn in Hc. destruct Hc as [<- Hc]. pose proof (contiguous_le _ _ _ Hc Hws).
  apply elem_of_cons in Hin as [->|Hin]; [lia|]. specialize (IH _ Hc Hin). lia.
Qed.

(** The pipeline constructor accepts exactly the covering window lists. *)
Lemma pipeline_cache_ownership_Ok target draft ws owners :
  pipeline_cache_ownership target draft ws = Ok owners ↔
  1 ≤ target ∧ 0 ≤ draft ∧ windows_ok target ws ∧ owners = owner_of target draft <$> ws.
Proof.
  unfold pipeline_cache_ownership. rewrite bind_Ok. split.
  - intros (os & Hos & H). apply mapM_owners in Hos as [-> Hall]. inv_ok.
    rewrite <-list_fmap_compose in Hr. unfold compose in Hr. cbn in Hr.
    rewrite list_fmap_id in Hr. destruct ws as [|w ws]; [done|].
    assert (Forall (λ w, 1 ≤ target ∧ 0 ≤ draft ∧ w.1 < w.2) (w :: ws)) as Hw.
    { eapply Forall_impl; [exact Hall|]. intros v Hv. apply post_init_Ok in Hv. cbn in Hv. lia. }
    pose proof (Forall_inv Hw) as Hi. cbn in Hi. split_and!; [lia|lia| |done]. split; [done|]. split.
    + apply contiguous_chain; [done|]. destruct (last (w :: ws)) as [f|] eqn:Hl; [|done].
      cbn [head] in Hr |- *. apply orb_false_iff in Hr as [Hr Hz].
      apply existsb_false_Forall in Hz. split_and!; [lia|lia|].
      eapply Forall_impl; [exact Hz|]. intros p Hp. cbn in Hp. lia.
    + eapply Forall_impl; [exact Hw|]. intros v Hv. cbn in Hv. lia.
  - intros (Ht & Hd & (Hne & Hc & Hlt) & ->). exists (owner_of target draft <$> ws). split.
    + apply mapM_owners. split; [done|]. apply Forall_forall. intros w Hin. apply post_init_Ok.
      cbn. pose proof (contiguous_bounds _ _ _ w Hc (windows_le _ Hlt) Hin).
      rewrite Forall_forall in Hlt. specialize (Hlt w Hin). lia.
    + rewrite <-list_fmap_compose. unfold compose. cbn. rewrite list_fmap_id.
      apply contiguous_chain in Hc as (Hh & Hl & Hz); [|done].
      destruct (head ws), (last ws); try done.
      assert (existsb (λ p : (Z * Z) * (Z * Z), negb (p.1.2 =? p.2.1)) (zip ws (tail ws)) = false) as ->.
      { apply existsb_false_Forall. eapply Forall_impl; [exact Hz|]. intros q Hq. cbn in Hq |- *. lia. }
      rewrite (proj2 (Z.eqb_eq _ _) Hh), (proj2 (Z.eqb_eq _ _) Hl). done.
Qed.

(** ** Layers held *)

(** The layers of a stage's producer steps, in order. *)
Definition held_layers (o : CacheLayerOwnership.t) : list Z :=
  concat (CacheLayerOwnership.producer_cache_layers o).

Lemma concat_singletons {A} (l : list A) : concat ((λ x, [x]) <$> l) = l.
Proof. induction l as [|x l IH]; [done|]. rewrite fmap_cons. cbn [concat app]. by rewrite IH. Qed.

(** The producer steps list the resident window once, in order. *)
Lemma held_layers_resident target draft w :
  0 ≤ draft → w.1 ≤ w.2 →
  held_layers (owner_of target draft w) =
  CacheLayerOwnership.range
    (CacheLayerOwnership.resident_cache_window (owner_of target draft w)).1
    (CacheLayerOwnership.resident_cache_window (owner_of target draft w)).2.
Proof.
  destruct w as [a b]. cbn. intros Hd Hw.
  unfold held_layers, CacheLayerOwnership.producer_cache_layers. cbn [CacheLayerOwnership.target_cache_window owner_of].
  rewrite concat_app, concat_singletons. unfold CacheLayerOwnership.range.
  destruct (CacheLayerOwnership.owns_draft_cache _); cbn [concat CacheLayerOwnership.num_draft_cache_layers owner_of].
  - rewrite app_nil_r. replace (b + draft - b) with draft by lia.
    replace (b + draft - a) with ((b - a) + draft) by lia.
    replace (seqZ b draft) with (seqZ (a + (b - a)) draft) by (f_equal; lia).
    by rewrite seqZ_app by lia.
  - by rewrite app_nil_r, Z.add_0_r.
Qed.

(** The stages together hold the merged namespace once, in order. *)
Lemma held_layers_cover target draft start ws :
  0 ≤ draft → ws ≠ [] → contiguous start target ws → Forall (λ w, w.1 < w.2) ws →
  concat (held_layers <$> (owner_of target draft <$> ws)) = seqZ start (target + draft - start).
Proof.
  intros Hd Hne Hc Hlt. revert start Hne Hc. induction Hlt as [|w ws Hw Hws IH]; [done|].
  intros start _ Hc. cbn [contiguous] in Hc. destruct Hc as [Hs Hc].
  rewrite !fmap_cons. cbn [concat]. rewrite held_layers_resident by lia.
  destruct w as [a b]. cbn in Hs, Hc, Hw. subst a.
  unfold CacheLayerOwnership.resident_cache_window, CacheLayerOwnership.owns_draft_cache,
    CacheLayerOwnership.range.
  cbn [CacheLayerOwnership.target_cache_window CacheLayerOwnership.num_draft_cache_layers
    CacheLayerOwnership.num_target_cache_layers owner_of fst snd].
  destruct ws as [|v ws].
  - cbn in Hc. subst b. rewrite app_nil_r, Z.eqb_refl. f_equal. destruct (0 <? draft) eqn:?; cbn; lia.
  - rewrite (IH b) by done.
    assert (b < target).
    { pose proof (contiguous_bounds _ _ _ v Hc (windows_le _ Hws) ltac:(set_solver)).
      apply Forall_inv in Hws. cbn in Hws. lia. }
    rewrite (proj2 (Z.eqb_neq b target)), andb_false_r by lia. rewrite Z.add_0_r.
    replace (seqZ b _) with (seqZ (start + (b - start)) (target + draft - b)) by (f_equal; lia).
    rewrite <-seqZ_app by lia. f_equal. lia.
Qed.

Lemma draft_only_last target draft start ws i o :
  contiguous start target ws → Forall (λ w, w.1 < w.2) ws →
  (owner_of target draft <$> ws) !! i = Some o → S i ≠ length ws →
  CacheLayerOwnership.owns_draft_cache o = false.
Proof.
  intros Hc Hlt. revert start i Hc. induction Hlt as [|w ws Hw Hws IH]; intros start i Hc Hi Hl; [done|].
  cbn in Hc. destruct Hc as [_ Hc]. destruct i as [|i].
  - cbn in Hi. injection Hi as <-. destruct ws as [|v ws]; [done|].
    pose proof (contiguous_bounds _ _ _ v Hc (windows_le _ Hws) ltac:(set_solver)).
    apply Forall_inv in Hws. unfold CacheLayerOwnership.owns_draft_cache. cbn in *. lia.
  - cbn in Hi, Hl. apply (IH _ i Hc Hi). lia.
Qed.

Lemma pipeline_ownership_error target draft ws e :
  pipeline_cache_ownership target draft ws = Raise e → ∃ msg, e = ValueError msg.
Proof.
  unfold pipeline_cache_ownership. intros H. apply bind_Raise in H as [H|(owners & _ & H)].
  - revert H. induction ws as [|w ws IH]; [done|]. cbn [mapM]. intros H.
    apply bind_Raise in H as [H|(o & _ & H)].
    + unfold CacheLayerOwnership.post_init in H. destruct w. cbn in H.
      unfold raise_when in H. repeat (case_match; cbn in H); try done; injection H as <-; by eexists.
    + apply bind_Raise in H as [H|(? & _ & ?)]; [by apply IH|done].
  - apply bind_Raise in H as [H|(? & _ & ?)]; [|done]. unfold raise_when in H.
    case_match; [injection H as <-; by eexists|done].
Qed.

(** ** Fields by layer *)

(** The layer of a field, -1 for an identifier that names none. *)
Definition layer_of (f : CacheFieldLayout.t) : Z :=
  match cache_field_layer_id (CacheFieldLayout.field_id f) with Ok l => l | Raise _ => -1 end.

Definition fields_of_layer (fields : list CacheFieldLayout.t) (layer : Z) : list string :=
  CacheFieldLayout.field_id <$> filter (λ f, layer_of f = layer) fields.

Lemma layer_of_Ok f layer :
  cache_field_layer_id (CacheFieldLayout.field_id f) = Ok layer → layer_of f = layer ∧ 0 ≤ layer.
Proof.
  unfold layer_of. intros H. rewrite H. split; [done|].
  unfold cache_field_layer_id, _split_cache_field_id in H. inv_ok.
  repeat case_match; inv_ok; try done. cbn. lia.
Qed.

Lemma layer_of_nonneg f :
  0 ≤ layer_of f → cache_field_layer_id (CacheFieldLayout.field_id f) = Ok (layer_of f).
Proof. unfold layer_of. by case_match. Qed.

Lemma by_layer_spec fields d :
  foldM by_layer_step [] fields = Ok d →
  Forall (λ f, 0 ≤ layer_of f) fields ∧
  ∀ layer, default [] (dict_get d layer) = fields_of_layer fields layer.
Proof.
  revert d. induction fields as [|f fields IH] using rev_ind; intros d H.
  { cbn in H. inv_ok. split; [constructor|done]. }
  rewrite foldM_app in H. apply bind_Ok in H as (d' & Hd' & H).
  specialize (IH _ Hd') as [IHf IHd]. cbn [foldM] in H. apply bind_Ok in H as (d'' & Hs & H).
  inv_ok. unfold by_layer_step in Hs. inv_ok. apply layer_of_Ok in Hr as [Hl Hpos].
  split; [apply Forall_app; split; [done|]; constructor; [lia|constructor]|].
  intros layer. unfold fields_of_layer. rewrite filter_app, fmap_app, filter_cons, Hl.
  rewrite dict_get_set. fold (fields_of_layer fields layer).
  repeat case_decide; subst; try done; cbn; rewrite ?IHd, ?app_nil_r; done.
Qed.

Lemma by_layer_total fields :
  Forall (λ f, 0 ≤ layer_of f) fields → ∃ d, foldM by_layer_step [] fields = Ok d.
Proof.
  generalize (@nil (Z * list string)). induction fields as [|f fields IH]; intros d H; [by eexists|].
  apply Forall_cons in H as [Hf H]. cbn [foldM].
  assert (∃ d', by_layer_step d f = Ok d') as [d' ->]; [|cbn; by apply IH].
  unfold by_layer_step. cbv zeta. rewrite (layer_of_nonneg _ Hf). by eexists.
Qed.

Lemma by_layer_error fields d e : foldM by_layer_step d fields = Raise e → ∃ msg, e = ValueError msg.
Proof.
  revert d. induction fields as [|f fields IH]; intros d H; [done|]. cbn [foldM] in H.
  apply bind_Raise in H as [H|(d' & _ & H)]; [|by eapply IH].
  unfold by_layer_step in H. apply bind_Raise in H as [H|(? & _ & ?)]; [|done].
  unfold cache_field_layer_id in H. apply bind_Raise in H as [H|(? & _ & ?)]; [|done].
  unfold _split_cache_field_id in H.
  destruct (split_max _ _ _) as [|h [|l [|p [|]]]]; try (injection H as <-; by eexists).
  repeat (apply bind_Raise in H as [H|(? & _ & H)];
    [unfold raise_when, lookup_or in H; case_match; [|try done]; try done; injection H as <-; by eexists|]).
  done.
Qed.

(** What one stage holds: the fields of its layers, layer by layer. *)
Lemma schedule_concat fields d o :
  (∀ layer, default [] (dict_get d layer) = fields_of_layer fields layer) →
  concat (schedule_of d o) = CacheFieldLayout.field_id <$> classes layer_of (held_layers o) fields.
Proof.
  intros Hd. unfold schedule_of. rewrite concat_fmap_concat. unfold held_layers, classes.
  induction (concat (CacheLayerOwnership.producer_cache_layers o)) as [|l ls IH]; [done|].
  rewrite !fmap_cons. cbn [concat]. rewrite fmap_app, IH, Hd. done.
Qed.

Lemma schedules_concat fields d owners :
  (∀ layer, default [] (dict_get d layer) = fields_of_layer fields layer) →
  concat ((λ schedule : list (list string), concat schedule) <$> (schedule_of d <$> owners)) =
  CacheFieldLayout.field_id <$> classes layer_of (concat (held_layers <$> owners)) fields.
Proof.
  intros Hd. induction owners as [|o owners IH]; [done|].
  rewrite !fmap_cons. cbn [concat]. rewrite IH, (schedule_concat fields) by done.
  unfold classes. by rewrite fmap_app, concat_app, fmap_app.
Qed.

(** The cover check, as set equality. *)
Lemma cover_check_false (flat ids : list string) :
  (negb (length flat =? len_set flat)%nat || negb (same_ids flat ids)) = false ↔
  NoDup flat ∧ ∀ x, x ∈ flat ↔ x ∈ ids.
Proof. by rewrite orb_false_iff, !negb_false_iff, Nat.eqb_eq, len_set_NoDup, same_ids_true. Qed.

(** Out-of-range fields are dropped by the schedule, so the check rejects them. *)
Lemma classes_ids_all fields n :
  (∀ x, x ∈ CacheFieldLayout.field_id <$> classes layer_of (seqZ 0 n) fields ↔
        x ∈ CacheFieldLayout.field_id <$> fields) →
  Forall (λ f, 0 ≤ layer_of f < n) fields.
Proof.
  intros Hx. apply Forall_forall. intros f Hf.
  assert (CacheFieldLayout.field_id f ∈ CacheFieldLayout.field_id <$> fields) as Hin
    by by apply list_elem_of_fmap_2.
  apply Hx in Hin. rewrite (classes_filter _ _ _ (NoDup_seqZ _ _)) in Hin.
  apply list_elem_of_fmap in Hin as (g & Heq & Hg). apply list_elem_of_filter in Hg as [Hg _].
  apply elem_of_seqZ in Hg. unfold layer_of in *. rewrite Heq. lia.
Qed.

Lemma placement_Ok plan owners n resident schedules :
  concat (held_layers <$> owners) = seqZ 0 n →
  cache_field_placement plan owners = Ok (resident, schedules) →
  let fields := CacheMemoryPlan.fields plan in
  ∃ d, foldM by_layer_step [] fields = Ok d ∧
    (∀ layer, default [] (dict_get d layer) = fields_of_layer fields layer) ∧
    Forall (λ f, 0 ≤ layer_of f) fields ∧
    resident = (λ schedule : list (list string), concat schedule) <$> (schedule_of d <$> owners) ∧
    schedules = schedule_of d <$> owners ∧
    Forall (λ f, 0 ≤ layer_of f < n) fields ∧ NoDup (CacheFieldLayout.field_id <$> fields).
Proof.
  intros Hcov H fields. unfold cache_field_placement in H. apply bind_Ok in H as (d & Hd & H).
  destruct (by_layer_spec _ _ Hd) as [Hpos Hby]. apply bind_Ok in H as ([] & Hr & H).
  apply raise_when_Ok, cover_check_false in Hr as [Hnd Hx]. injection H as <- <-.
  rewrite (schedules_concat _ _ _ Hby), Hcov in Hnd. fold fields in Hnd, Hby, Hpos.
  setoid_rewrite (schedules_concat _ _ _ Hby) in Hx. rewrite Hcov in Hx.
  pose proof (classes_ids_all _ _ Hx) as Hrange.
  exists d. split_and!; [done..|]. by rewrite (classes_perm _ _ _ Hrange) in Hnd.
Qed.

Lemma placement_Raise plan owners n e :
  concat (held_layers <$> owners) = seqZ 0 n →
  cache_field_placement plan owners = Raise e →
  let fields := CacheMemoryPlan.fields plan in
  (∃ msg, e = ValueError msg) ∧
  ¬ (NoDup (CacheFieldLayout.field_id <$> fields) ∧ Forall (λ f, 0 ≤ layer_of f < n) fields).
Proof.
  intros Hcov H fields. unfold cache_field_placement in H.
  apply bind_Raise in H as [H|(d & Hd & H)].
  - split; [by eapply by_layer_error|]. intros [_ Hr].
    destruct (by_layer_total fields) as [d Hd]; [|by unfold fields in Hd; rewrite Hd in H].
    eapply Forall_impl; [exact Hr|]. intros f Hf. cbn in Hf |- *. lia.
  - destruct (by_layer_spec _ _ Hd) as [_ Hby]. apply bind_Raise in H as [H|(? & _ & ?)]; [|done].
    unfold raise_when in H.
    match type of H with (if ?b then _ else _) = _ => destruct b eqn:E end; [|done].
    injection H as <-. split; [by eexists|]. intros [Hnd Hr]. apply not_false_iff_true in E.
    apply E. apply cover_check_false. rewrite (schedules_concat _ _ _ Hby), Hcov.
    fold fields. rewrite (classes_perm _ _ _ Hr). split; [done|]. intros x.
    by rewrite (classes_perm _ _ _ Hr).
Qed.

(** The fields of a layer window are the fields narrowing keeps. *)
Lemma resident_narrow plan a b :
  Forall (λ f, 0 ≤ layer_of f) (CacheMemoryPlan.fields plan) →
  classes layer_of (CacheLayerOwnership.range a b) (CacheMemoryPlan.fields plan) ≡ₚ
  CacheMemoryPlan.fields (CacheMemoryPlan.narrow_to_layers plan a b).
Proof.
  intros Hpos. rewrite classes_filter by apply NoDup_seqZ.
  unfold CacheMemoryPlan.narrow_to_layers; cbn [CacheMemoryPlan.fields].
  erewrite filter_ext_in; [done|]. intros f Hf. cbn beta. rewrite Forall_forall in Hpos.
  unfold CacheMemoryPlan.owned. rewrite (layer_of_nonneg f) by by apply Hpos.
  unfold CacheLayerOwnership.range. rewrite elem_of_seqZ. lia.
Qed.

(** ** Properties *)

(** C39: Stage ownership partitions the merged cache layers.  The constructor
    succeeds exactly for non-empty windows that follow each other over the whole
    target range; then the stages' producer steps, in stage order, list every
    target layer and every draft layer once, each stage's steps list its
    resident window in order, and only the last stage holds draft layers. *)
Theorem pipeline_ownership_partition target draft ws :
  match pipeline_cache_ownership target draft ws with
  | Ok owners =>
      1 ≤ target ∧ 0 ≤ draft ∧ windows_ok target ws ∧
      CacheLayerOwnership.target_cache_window <$> owners = ws ∧
      concat (held_layers <$> owners) = seqZ 0 (target + draft) ∧
      (∀ o, o ∈ owners → held_layers o =
        seqZ (CacheLayerOwnership.resident_cache_window o).1
          ((CacheLayerOwnership.resident_cache_window o).2 -
           (CacheLayerOwnership.resident_cache_window o).1)) ∧
      (∀ i o, owners !! i = Some o → S i ≠ length owners →
        CacheLayerOwnership.owns_draft_cache o = false)
  | Raise e => (∃ msg, e = ValueError msg) ∧ ¬ (1 ≤ target ∧ 0 ≤ draft ∧ windows_ok target ws)
  end.
Proof.
  destruct (pipeline_cache_ownership target draft ws) as [owners|e] eqn:H.
  - apply pipeline_cache_ownership_Ok in H as (Ht & Hd & Hok & ->). pose proof Hok as (Hne & Hc & Hlt).
    split_and!; [done..| | | |].
    + rewrite <-list_fmap_compose. apply list_fmap_id.
    + rewrite (held_layers_cover _ _ 0) by done. f_equal. lia.
    + intros o (w & -> & Hw)%list_elem_of_fmap. rewrite Forall_forall in Hlt. specialize (Hlt w Hw).
      apply held_layers_resident; [done|]. cbn in Hlt. lia.
    + intros i o Hi. rewrite length_fmap. by apply (draft_only_last target draft 0).
  - split; [by eapply pipeline_ownership_error|]. intros (Ht & Hd & Hok).
    assert (pipeline_cache_ownership target draft ws = Ok (owner_of target draft <$> ws)) as H'
      by by apply pipeline_cache_ownership_Ok.
    by rewrite H' in H.
Qed.

(** Field placement is exact.  For the owners of a pipeline, placement
    succeeds exactly when field identifiers are distinct and each names a layer
    of the merged namespace.  Then every field is resident on exactly one stage,
    a stage's readiness steps list its resident fields, and these are the fields
    [narrow_to_layers] keeps for the stage's resident window. *)
Theorem field_placement_exact plan target draft ws owners :
  pipeline_cache_ownership target draft ws = Ok owners →
  let ids := CacheFieldLayout.field_id <$> CacheMemoryPlan.fields plan in
  match cache_field_placement plan owners with
  | Ok (resident, schedules) =>
      NoDup ids ∧ Forall (λ f, 0 ≤ layer_of f < target + draft) (CacheMemoryPlan.fields plan) ∧
      concat resident ≡ₚ ids ∧
      Forall2 (λ fields steps, fields = concat steps) resident schedules ∧
      Forall2 (λ o fields, fields ≡ₚ CacheFieldLayout.field_id <$> CacheMemoryPlan.fields
          (CacheMemoryPlan.narrow_to_layers plan
            (CacheLayerOwnership.resident_cache_window o).1
            (CacheLayerOwnership.resident_cache_window o).2)) owners resident ∧
      Forall2 (λ o steps, length steps = length (CacheLayerOwnership.producer_cache_layers o))
        owners schedules
  | Raise e => (∃ msg, e = ValueError msg) ∧
      ¬ (NoDup ids ∧ Forall (λ f, 0 ≤ layer_of f < target + draft) (CacheMemoryPlan.fields plan))
  end.
Proof.
  intros Ho ids. apply pipeline_cache_ownership_Ok in Ho as (Ht & Hd & (Hne & Hc & Hlt) & Ho).
  pose proof (held_layers_cover target draft 0 ws Hd Hne Hc Hlt) as Hcov.
  rewrite Z.sub_0_r, <-Ho in Hcov.
  destruct (cache_field_placement plan owners) as [[resident schedules]|e] eqn:H.
  - destruct (placement_Ok _ _ _ _ _ Hcov H) as (d & Hd' & Hby & Hpos & -> & -> & Hrange & Hnd).
    split_and!; [done..| | | |].
    + by rewrite (schedules_concat _ _ _ Hby), Hcov, classes_perm.
    + apply Forall2_fmap_l, Forall_Forall2_diag, Forall_forall. done.
    + rewrite <-list_fmap_compose. apply Forall2_fmap_r, Forall_Forall2_diag, Forall_forall.
      intros o Hin. unfold compose. rewrite (schedule_concat _ _ _ Hby). f_equiv.
      rewrite Ho in Hin. apply list_elem_of_fmap in Hin as (w & -> & Hw).
      rewrite Forall_forall in Hlt. specialize (Hlt w Hw). cbn in Hlt.
      rewrite held_layers_resident by lia. by apply resident_narrow.
    + apply Forall2_fmap_r, Forall_Forall2_diag, Forall_forall. intros o _. cbn beta.
      unfold compose, schedule_of. by rewrite length_fmap.
  - by apply (placement_Raise _ _ _ _ Hcov).
Qed.

Lemma field_placement_exact_witness :
  ∃ plan owners resident schedules,
    CacheLayout.bind example_layout 4 = Ok plan ∧
    pipeline_cache_ownership 1 1 [(0, 1)] = Ok owners ∧
    cache_field_placement plan owners = Ok (resident, schedules) ∧
    schedules = [[["layer.0.k"; "layer.0.s"; "layer.0.t"]; ["layer.1.k"]]] ∧
    concat resident ≡ₚ CacheFieldLayout.field_id <$> CacheMemoryPlan.fields plan.
Proof.
  destruct (CacheLayout.bind example_layout 4) as [plan|] eqn:HP; [|vm_compute in HP; discriminate HP].
  vm_compute in HP. apply Ok_inj in HP. subst plan. eexists _, _, _, _.
  split; [reflexivity|]. split; [vm_compute; reflexivity|]. split; [vm_compute; reflexivity|].
  split; [reflexivity|].
  match goal with |- _ ≡ₚ _ <$> CacheMemoryPlan.fields ?P =>
    exact (proj1 (proj2 (proj2 (field_placement_exact P 1 1 [(0, 1)] _ eq_refl)))) end.
Defined.
