(* ===== verification/TransferLayout.v ===== *)
(** * Transfer layouts: [cache/transfer/layout.py]

    The byte geometry that moves cache blocks between tiers: the rows of a
    compute view's fields inside the arena, derived from the memory plan, and
    the merge of a target and a draft view of one arena.

    [TransferGroupLayout] is the module's [CacheGroupLayout], renamed because the
    memory plan has a class of that name.  A device buffer is a value of an
    arbitrary type [B] that stands for the object's identity, so [is] is equality
    on [B].  Sets of field and group identifiers are lists without order. *)

From S2P Require Import Prelude PyDict PyString CacheFields CachePlan LayerOwnership.

Local Open Scope Z_scope.

Definition _positive (name : string) (value : Z) : result Z :=
  raise_when (value <=? 0) (ValueError name);; Ok value.

(** The loop body: [selected.add(id)] and [consumers[layer_id - first].append(id)]. *)
Definition select_step (first_layer last_layer : Z) (acc : list string * list (list string))
    (field : CacheFieldLayout.t) : result (list string * list (list string)) :=
  let field_id := CacheFieldLayout.field_id field in
  layer_id ← cache_field_layer_id field_id;
  if (first_layer <=? layer_id) && (layer_id <? last_layer) then
    Ok (if py_in field_id acc.1 then acc.1 else acc.1 ++ [field_id],
        alter (λ consumer, consumer ++ [field_id]) (Z.to_nat (layer_id - first_layer)) acc.2)
  else Ok acc.

Definition select_layer_fields (fields : list CacheFieldLayout.t) (first_layer num_layers : Z) :
    result (list string * list (list string)) :=
  raise_when ((first_layer <? 0) || (num_layers <? 0))
    (ValueError "cache layer view bounds must be non-negative");;
  let last_layer := first_layer + num_layers in
  foldM (select_step first_layer last_layer) ([], replicate (Z.to_nat num_layers) []) fields.

Module CacheField.

Record t := {
  field_id : string;
  device_buffer_index : Z;
  device_block_zero_offset_bytes : Z;
  block_stride_bytes : Z;
  payload_bytes : Z;
}.

Definition post_init (self : t) : result t :=
  raise_when (String.eqb (field_id self) "") (ValueError "field_id must be non-empty");;
  raise_when (device_buffer_index self <? 0)
    (ValueError "device_buffer_index must be non-negative");;
  raise_when (device_block_zero_offset_bytes self <? 0)
    (ValueError "device_block_zero_offset_bytes must be non-negative");;
  _ ← _positive "block_stride_bytes" (block_stride_bytes self);
  _ ← _positive "payload_bytes" (payload_bytes self);
  raise_when (block_stride_bytes self <? payload_bytes self)
    (ValueError "payload_bytes cannot exceed block_stride_bytes");;
  Ok self.

End CacheField.

#[export] Instance CacheField_eq_dec : EqDecision CacheField.t.
Proof. solve_decision. Defined.

Module TransferGroupLayout.

Record t := {
  group_id : string;
  cache_blocks_per_lcm_block : Z;
  fields : list CacheField.t;
}.

Definition post_init (self : t) : result t :=
  raise_when (String.eqb (group_id self) "") (ValueError "group_id must be non-empty");;
  _ ← _positive "cache_blocks_per_lcm_block" (cache_blocks_per_lcm_block self);
  raise_when (bool_decide (fields self = []))
    (ValueError "cache group must contain at least one field");;
  let field_ids := CacheField.field_id <$> fields self in
  raise_when (negb (length field_ids =? len_set field_ids)%nat)
    (ValueError "group contains a duplicate field");;
  Ok self.

End TransferGroupLayout.

#[export] Instance TransferGroupLayout_eq_dec : EqDecision TransferGroupLayout.t.
Proof. solve_decision. Defined.

(** [field for group in groups for field in group.fields] *)
Definition group_fields (groups : list TransferGroupLayout.t) : list CacheField.t :=
  concat (TransferGroupLayout.fields <$> groups).

Definition group_field_ids (groups : list TransferGroupLayout.t) : list string :=
  CacheField.field_id <$> group_fields groups.

Module CacheTransferLayout.

Record t {B : Type} := {
  num_lcm_blocks : Z;
  groups : list TransferGroupLayout.t;
  buffers : list B;
  consumers : list (list string);
}.
Arguments t : clear implicits.

(** The loop over the consumers: the fields consumed so far. *)
Definition consume (known_fields : list string) (consumed_fields consumer : list string) :
    result (list string) :=
  raise_when (negb (length consumer =? len_set consumer)%nat)
    (ValueError "consumer contains a duplicate field");;
  raise_when (negb (forallb (λ f, py_in f known_fields) consumer))
    (ValueError "consumer references unknown field");;
  Ok (consumed_fields ++ consumer).

Definition post_init {B} (self : t B) : result (t B) :=
  _ ← _positive "num_lcm_blocks" (num_lcm_blocks self);
  raise_when (match groups self with [] => true | _ => false end)
    (ValueError "layout must contain at least one cache group");;
  raise_when (match buffers self with [] => true | _ => false end)
    (ValueError "layout must contain at least one device buffer");;
  let group_ids := TransferGroupLayout.group_id <$> groups self in
  raise_when (negb (length group_ids =? len_set group_ids)%nat)
    (ValueError "layout contains a duplicate group");;
  let fields := group_fields (groups self) in
  let field_ids := CacheField.field_id <$> fields in
  raise_when (negb (length field_ids =? len_set field_ids)%nat)
    (ValueError "layout contains a duplicate field");;
  raise_when (existsb (λ field, Z.of_nat (length (buffers self)) <=?
                                CacheField.device_buffer_index field) fields)
    (ValueError "field device_buffer_index is outside the buffer tuple");;
  consumed_fields ← foldM (consume field_ids) [] (consumers self);
  raise_when (negb (length consumed_fields =? len_set consumed_fields)%nat)
    (ValueError "a cache field cannot belong to multiple consumers");;
  raise_when (negb (forallb (λ f, py_in f consumed_fields) field_ids))
    (ValueError "cache fields have no consumer");;
  Ok self.

End CacheTransferLayout.

(** ** Layouts from a plan *)

Definition transfer_field (planes : list (string * CachePlaneLayout.t))
    (field : CacheFieldLayout.t) : result CacheField.t :=
  plane ← lookup_or (KeyError "plane_id") (dict_get planes (CacheFieldLayout.plane_id field));
  CacheField.post_init
    {| CacheField.field_id := CacheFieldLayout.field_id field;
       CacheField.device_buffer_index := 0;
       CacheField.device_block_zero_offset_bytes :=
         CachePlaneLayout.arena_offset_bytes plane + CachePlaneLayout.bytes_per_lcm_block plane
         - CacheFieldLayout.page_stride_bytes field + CacheFieldLayout.field_offset_bytes field;
       CacheField.block_stride_bytes := CacheFieldLayout.page_stride_bytes field;
       CacheField.payload_bytes := CacheFieldLayout.payload_bytes field |}.

Definition transfer_group (planes : list (string * CachePlaneLayout.t))
    (fields_by_group : list (string * list CacheFieldLayout.t)) (group : CacheGroupLayout.t) :
    result TransferGroupLayout.t :=
  selected ← lookup_or (KeyError "group_id")
    (dict_get fields_by_group (CacheGroupLayout.group_id group));
  fields ← mapM (transfer_field planes) selected;
  TransferGroupLayout.post_init
    {| TransferGroupLayout.group_id := CacheGroupLayout.group_id group;
       TransferGroupLayout.cache_blocks_per_lcm_block :=
         CacheGroupLayout.cache_blocks_per_lcm_block group;
       TransferGroupLayout.fields := fields |}.

(** The groups that own a selected field, in the plan's or the caller's order. *)
Definition ordered_plan_groups (plan : CacheMemoryPlan.t)
    (fields_by_group : list (string * list CacheFieldLayout.t)) (group_ids : option (list string)) :
    result (list CacheGroupLayout.t) :=
  let groups_by_id :=
    dict_of ((λ g, (CacheGroupLayout.group_id g, g)) <$> CacheMemoryPlan.groups plan) in
  let selected_group_ids :=
    (filter (λ p : string * list CacheFieldLayout.t, p.2 ≠ []) fields_by_group).*1 in
  match group_ids with
  | None => Ok (filter (λ g, CacheGroupLayout.group_id g ∈ selected_group_ids)
                  (CacheMemoryPlan.groups plan))
  | Some group_ids =>
      raise_when (negb (length group_ids =? len_set group_ids)%nat)
        (ValueError "scheduler cache groups contain a duplicate group");;
      raise_when (negb (same_ids group_ids selected_group_ids))
        (ValueError "scheduler and transfer cache groups do not match");;
      mapM (λ g, lookup_or (KeyError "group_id") (dict_get groups_by_id g)) group_ids
  end.

Section layouts.
Context {B : Type} `{EqDecision B}.

Definition layout_from_lcm_plan (plan : CacheMemoryPlan.t) (buffer : B)
    (consumers : list (list string)) (group_ids : option (list string))
    (field_ids : option (list string)) : result (CacheTransferLayout.t B) :=
  let planes :=
    dict_of ((λ p, (CachePlaneLayout.plane_id p, p)) <$> CacheMemoryPlan.planes plan) in
  let known_field_ids := CacheFieldLayout.field_id <$> CacheMemoryPlan.fields plan in
  field_ids ← match field_ids with
    | None => Ok known_field_ids
    | Some field_ids =>
        raise_when (negb (forallb (λ f, py_in f known_field_ids) field_ids))
          (ValueError "selected cache fields are absent from the plan");;
        Ok field_ids
    end;
  let fields_by_group := dict_of ((λ group, (CacheGroupLayout.group_id group,
      filter (λ field, CacheFieldLayout.group_id field = CacheGroupLayout.group_id group ∧
                       CacheFieldLayout.field_id field ∈ field_ids)
        (CacheMemoryPlan.fields plan))) <$> CacheMemoryPlan.groups plan) in
  ordered_groups ← ordered_plan_groups plan fields_by_group group_ids;
  groups ← mapM (transfer_group planes fields_by_group) ordered_groups;
  CacheTransferLayout.post_init
    {| CacheTransferLayout.num_lcm_blocks := CacheMemoryPlan.num_lcm_blocks plan;
       CacheTransferLayout.groups := groups;
       CacheTransferLayout.buffers := [buffer];
       CacheTransferLayout.consumers := consumers |}.

(** ** Merging two views *)

Definition index_groups (layout : CacheTransferLayout.t B) :
    list (string * TransferGroupLayout.t) :=
  dict_of ((λ g, (TransferGroupLayout.group_id g, g)) <$> CacheTransferLayout.groups layout).

(** [(group.group_id, field) for group in groups for field in group.fields] *)
Definition locations (groups : list TransferGroupLayout.t) : list (string * CacheField.t) :=
  concat ((λ g, (λ f, (TransferGroupLayout.group_id g, f)) <$> TransferGroupLayout.fields g)
    <$> groups).

Definition combined_order (target_groups draft_groups : list (string * TransferGroupLayout.t))
    (group_ids : option (list string)) : result (list string) :=
  match group_ids with
  | None => Ok (dict_keys target_groups ++
      filter (λ g, g ∉ dict_keys target_groups) (dict_keys draft_groups))
  | Some group_ids =>
      raise_when (negb (length group_ids =? len_set group_ids)%nat)
        (ValueError "scheduler cache groups contain a duplicate group");;
      raise_when (negb (same_ids group_ids (dict_keys target_groups ++ dict_keys draft_groups)))
        (ValueError "scheduler and transfer cache groups do not match");;
      Ok group_ids
  end.

(** The checks on fields both views name. *)
Definition check_aliased (target draft : CacheTransferLayout.t B)
    (target_fields draft_fields aliased_fields : list string) : result () :=
  match aliased_fields with
  | [] => Ok ()
  | _ =>
      raise_when (negb (forallb (λ f, py_in f target_fields) draft_fields &&
                        negb (forallb (λ f, py_in f draft_fields) target_fields)))
        (ValueError "shared target/draft arena views have ambiguous overlapping fields");;
      let target_locations := dict_of ((λ l : string * CacheField.t,
        (CacheField.field_id l.2, l)) <$> locations (CacheTransferLayout.groups target)) in
      conflicts ← mapM (λ l : string * CacheField.t,
          location ← lookup_or (KeyError "field_id")
            (dict_get target_locations (CacheField.field_id l.2));
          Ok (negb (bool_decide (location = l))))
        (locations (CacheTransferLayout.groups draft));
      raise_when (existsb id conflicts)
        (ValueError "shared target/draft arena fields use conflicting layouts")
  end.

(** One merged group. *)
Definition combine_group (target_groups draft_groups : list (string * TransferGroupLayout.t))
    (aliased_fields : list string) (group_id : string) : result TransferGroupLayout.t :=
  let target_group := dict_get target_groups group_id in
  let draft_group := dict_get draft_groups group_id in
  let fields :=
    match target_group with Some g => TransferGroupLayout.fields g | None => [] end ++
    match draft_group with
    | Some g => filter (λ f, CacheField.field_id f ∉ aliased_fields) (TransferGroupLayout.fields g)
    | None => []
    end in
  geometry ← match target_group, draft_group with
    | Some g, _ => Ok g
    | None, Some g => Ok g
    | None, None => Raise (AttributeError "cache_blocks_per_lcm_block")
    end;
  TransferGroupLayout.post_init
    {| TransferGroupLayout.group_id := group_id;
       TransferGroupLayout.cache_blocks_per_lcm_block :=
         TransferGroupLayout.cache_blocks_per_lcm_block geometry;
       TransferGroupLayout.fields := fields |}.

(** A shared group has one geometry in both views. *)
Definition geometry_agrees (target_groups draft_groups : list (string * TransferGroupLayout.t)) :
    bool :=
  forallb (λ p : string * TransferGroupLayout.t,
    match dict_get draft_groups p.1 with
    | Some g => TransferGroupLayout.cache_blocks_per_lcm_block g =?
                TransferGroupLayout.cache_blocks_per_lcm_block p.2
    | None => true
    end) target_groups.

Definition combine_cache_transfer_layouts (target : CacheTransferLayout.t B)
    (draft : option (CacheTransferLayout.t B)) (group_ids : option (list string)) :
    result (CacheTransferLayout.t B) :=
  match draft with
  | None => Ok target
  | Some draft =>
  raise_when (negb (CacheTransferLayout.num_lcm_blocks draft =?
                    CacheTransferLayout.num_lcm_blocks target))
    (ValueError "target and draft cache layouts use different geometry");;
  if bool_decide (CacheTransferLayout.groups target = CacheTransferLayout.groups draft) &&
     bool_decide (CacheTransferLayout.consumers target = CacheTransferLayout.consumers draft) &&
     bool_decide (CacheTransferLayout.buffers target = CacheTransferLayout.buffers draft)
  then Ok target else
  let target_groups := index_groups target in
  let draft_groups := index_groups draft in
  raise_when (negb (geometry_agrees target_groups draft_groups))
    (ValueError "target and draft cache group use different geometry");;
  ordered_group_ids ← combined_order target_groups draft_groups group_ids;
  raise_when (negb match CacheTransferLayout.buffers target, CacheTransferLayout.buffers draft with
                   | [b1], [b2] => bool_decide (b1 = b2)
                   | _, _ => false
                   end)
    (ValueError "target and draft cache views must share one arena");;
  let target_fields := group_field_ids (CacheTransferLayout.groups target) in
  let draft_fields := group_field_ids (CacheTransferLayout.groups draft) in
  let aliased_fields := filter (λ f, f ∈ draft_fields) target_fields in
  check_aliased target draft target_fields draft_fields aliased_fields;;
  raise_when (existsb (λ f, negb (CacheField.device_buffer_index f =? 0))
                (group_fields (CacheTransferLayout.groups target) ++
                 group_fields (CacheTransferLayout.groups draft)))
    (ValueError "shared arena fields must use device buffer zero");;
  groups ← mapM (combine_group target_groups draft_groups aliased_fields) ordered_group_ids;
  let draft_consumers := (λ consumer : list string, filter (λ f, f ∉ aliased_fields) consumer)
    <$> CacheTransferLayout.consumers draft in
  CacheTransferLayout.post_init
    {| CacheTransferLayout.num_lcm_blocks := CacheTransferLayout.num_lcm_blocks target;
       CacheTransferLayout.groups := groups;
       CacheTransferLayout.buffers := CacheTransferLayout.buffers target;
       CacheTransferLayout.consumers := CacheTransferLayout.consumers target ++ draft_consumers |}
  end.

End layouts.

(** ** Constructors *)

Record cache_field_ok (f : CacheField.t) : Prop := {
  cf_id : CacheField.field_id f ≠ "";
  cf_buffer : 0 ≤ CacheField.device_buffer_index f;
  cf_offset : 0 ≤ CacheField.device_block_zero_offset_bytes f;
  cf_payload : 0 < CacheField.payload_bytes f ≤ CacheField.block_stride_bytes f;
}.

Lemma _positive_Ok name v w : _positive name v = Ok w ↔ 0 < v ∧ w = v.
Proof. unfold _positive. destruct (Z.leb_spec v 0); cbn; split; intros; simplify_eq/=; naive_solver lia. Qed.

Lemma eqb_empty s : String.eqb s "" = false ↔ s ≠ "".
Proof. apply String.eqb_neq. Qed.

Lemma cache_field_post_init f f' :
  CacheField.post_init f = Ok f' ↔ f' = f ∧ cache_field_ok f.
Proof.
  unfold CacheField.post_init. split.
  - intros H. inv_ok. apply eqb_empty in Hr. apply _positive_Ok in Hr2 as [? _], Hr3 as [? _].
    split; [done|]. split; [done|lia..].
  - intros [-> [Hid Hb Ho Hp]]. rewrite (proj2 (eqb_empty _) Hid).
    rewrite (proj2 (Z.ltb_ge _ _) Hb), (proj2 (Z.ltb_ge _ _) Ho).
    rewrite (proj2 (_positive_Ok _ (CacheField.block_stride_bytes f) _)) by (split; [lia|done]).
    rewrite (proj2 (_positive_Ok _ (CacheField.payload_bytes f) _)) by (split; [lia|done]).
    cbn. by rewrite (proj2 (Z.ltb_ge _ _)) by lia.
Qed.

Record group_ok (g : TransferGroupLayout.t) : Prop := {
  gr_id : TransferGroupLayout.group_id g ≠ "";
  gr_count : 0 < TransferGroupLayout.cache_blocks_per_lcm_block g;
  gr_fields : TransferGroupLayout.fields g ≠ [];
  gr_nodup : NoDup (CacheField.field_id <$> TransferGroupLayout.fields g);
}.

Lemma len_set_check {A} `{EqDecision A} (l : list A) :
  negb (length l =? len_set l)%nat = false ↔ NoDup l.
Proof. by rewrite negb_false_iff, Nat.eqb_eq, len_set_NoDup. Qed.

Lemma group_post_init g g' :
  TransferGroupLayout.post_init g = Ok g' ↔ g' = g ∧ group_ok g.
Proof.
  unfold TransferGroupLayout.post_init. split.
  - intros H. inv_ok. apply eqb_empty in Hr. apply _positive_Ok in Hr0 as [? _].
    apply bool_decide_eq_false in Hr1. by apply len_set_check in Hr2.
  - intros [-> [Hid Hc Hf Hn]]. rewrite (proj2 (eqb_empty _) Hid).
    rewrite (proj2 (_positive_Ok _ (TransferGroupLayout.cache_blocks_per_lcm_block g) _)) by done.
    cbn. rewrite bool_decide_false by done. cbn. by rewrite (proj2 (len_set_check _)).
Qed.

Record layout_ok {B} (L : CacheTransferLayout.t B) : Prop := {
  lo_blocks : 0 < CacheTransferLayout.num_lcm_blocks L;
  lo_groups : CacheTransferLayout.groups L ≠ [];
  lo_buffers : CacheTransferLayout.buffers L ≠ [];
  lo_group_ids : NoDup (TransferGroupLayout.group_id <$> CacheTransferLayout.groups L);
  lo_field_ids : NoDup (group_field_ids (CacheTransferLayout.groups L));
  lo_index : Forall (λ f, CacheField.device_buffer_index f <
      Z.of_nat (length (CacheTransferLayout.buffers L)))
    (group_fields (CacheTransferLayout.groups L));
  lo_consumers :
    concat (CacheTransferLayout.consumers L) ≡ₚ group_field_ids (CacheTransferLayout.groups L);
}.

Lemma consume_Ok known acc cs r :
  foldM (CacheTransferLayout.consume known) acc cs = Ok r ↔
  r = acc ++ concat cs ∧ Forall (λ c, NoDup c ∧ ∀ x, x ∈ c → x ∈ known) cs.
Proof.
  revert acc. induction cs as [|c cs IH]; intros acc; cbn [foldM concat].
  { rewrite app_nil_r. split; [intros; by inv_ok|by intros [-> _]]. }
  rewrite bind_Ok, Forall_cons. setoid_rewrite IH.
  assert (∀ r', CacheTransferLayout.consume known acc c = Ok r' ↔
    r' = acc ++ c ∧ NoDup c ∧ ∀ x, x ∈ c → x ∈ known) as Hc.
  { intros r'. unfold CacheTransferLayout.consume.
    rewrite <-len_set_check. destruct (negb (length c =? len_set c)%nat); cbn; [naive_solver|].
    destruct (forallb _ c) eqn:E; cbn.
    - rewrite forallb_forall in E. setoid_rewrite py_in_true in E.
      setoid_rewrite <-list_elem_of_In in E. naive_solver.
    - split; [done|]. intros (_ & _ & Hk). apply not_true_iff_false in E. destruct E.
      apply forallb_forall. intros x Hx%list_elem_of_In. apply py_in_true. auto. }
  setoid_rewrite Hc. setoid_rewrite app_assoc. naive_solver.
Qed.

Lemma layout_post_init {B} (L L' : CacheTransferLayout.t B) :
  CacheTransferLayout.post_init L = Ok L' ↔ L' = L ∧ layout_ok L.
Proof.
  unfold CacheTransferLayout.post_init. split.
  - intros H. inv_ok. split; [done|]. apply _positive_Ok in Hr as [? _].
    apply len_set_check in Hr2, Hr3, Hr6. apply existsb_false_Forall in Hr4.
    apply consume_Ok in Hr5 as [-> Hk]. cbn [app] in *.
    apply negb_false_iff in Hr7. rewrite forallb_forall in Hr7.
    split; [done|by destruct (CacheTransferLayout.groups L)
      |by destruct (CacheTransferLayout.buffers L)|done|done| |].
    + eapply Forall_impl; [exact Hr4|]. intros f Hf. cbn in Hf |- *. lia.
    + apply NoDup_Permutation; [done|done|]. intros x. split.
      * intros (c & Hx & Hc)%elem_of_concat. rewrite Forall_forall in Hk. by apply (Hk c).
      * intros Hx%list_elem_of_In. by apply Hr7, py_in_true in Hx.
  - intros [-> [Hb Hg Hbf Hgi Hfi Hi Hc]].
    rewrite (proj2 (_positive_Ok _ (CacheTransferLayout.num_lcm_blocks L) _)) by done. cbn.
    destruct (CacheTransferLayout.groups L) as [|g gs] eqn:Eg; [done|].
    destruct (CacheTransferLayout.buffers L) as [|b bs] eqn:Eb; [done|]. cbn [raise_when].
    rewrite <-Eg, <-Eb in *. unfold group_field_ids in *.
    rewrite (proj2 (len_set_check _) Hgi), (proj2 (len_set_check _) Hfi). cbn.
    rewrite (proj2 (existsb_false_Forall _ _));
      [|eapply Forall_impl; [exact Hi|]; intros f Hf; cbn in Hf |- *; lia]. cbn.
    rewrite (proj2 (consume_Ok _ _ _ (concat (CacheTransferLayout.consumers L)))); cbn.
    + rewrite (proj2 (len_set_check _)) by by rewrite Hc. cbn.
      rewrite (proj2 (forallb_forall _ _)); [done|]. intros x Hx%list_elem_of_In.
      apply py_in_true. by rewrite Hc.
    + split; [done|]. apply Forall_forall. intros c Hcin. rewrite <-Hc in Hfi. split.
      * by eapply NoDup_concat_elem.
      * intros x Hx. rewrite <-Hc. apply elem_of_concat. by exists c.
Qed.

(** ** Locations *)

Lemma elem_of_locations groups gid f :
  (gid, f) ∈ locations groups ↔
  ∃ g, g ∈ groups ∧ TransferGroupLayout.group_id g = gid ∧ f ∈ TransferGroupLayout.fields g.
Proof.
  unfold locations. rewrite elem_of_concat. split.
  - intros (l & (g & -> & Hg)%list_elem_of_fmap & Hl).
    apply list_elem_of_fmap in Hl as (f' & Heq & Hf). exists g. by simplify_eq.
  - intros (g & Hg & <- & Hf). eexists. split; by apply list_elem_of_fmap_2.
Qed.

Lemma locations_fields groups : (locations groups).*2 = group_fields groups.
Proof.
  unfold locations, group_fields. induction groups as [|g groups IH]; [done|].
  rewrite !fmap_cons. cbn [concat]. rewrite fmap_app, IH. f_equal.
  rewrite <-list_fmap_compose. apply list_fmap_id.
Qed.

Lemma elem_of_group_fields groups f : f ∈ group_fields groups ↔ ∃ gid, (gid, f) ∈ locations groups.
Proof.
  rewrite <-locations_fields, list_elem_of_fmap. split.
  - intros ([gid f'] & -> & H). by exists gid.
  - intros [gid H]. by exists (gid, f).
Qed.

Lemma elem_of_group_field_ids groups x :
  x ∈ group_field_ids groups ↔ ∃ gid f, (gid, f) ∈ locations groups ∧ CacheField.field_id f = x.
Proof.
  unfold group_field_ids. rewrite list_elem_of_fmap. setoid_rewrite elem_of_group_fields. naive_solver.
Qed.

(** A field identifier has one location. *)
Lemma locations_inj groups l1 l2 :
  NoDup (group_field_ids groups) → l1 ∈ locations groups → l2 ∈ locations groups →
  CacheField.field_id l1.2 = CacheField.field_id l2.2 → l1 = l2.
Proof.
  unfold group_field_ids. rewrite <-locations_fields, <-list_fmap_compose.
  intros Hnd H1 H2 Heq. apply list_elem_of_lookup in H1 as [i Hi], H2 as [j Hj].
  assert (i = j) as ->; [|by simplify_eq].
  eapply NoDup_lookup; [exact Hnd|rewrite list_lookup_fmap, Hi|rewrite list_lookup_fmap, Hj]; cbn.
  - done.
  - by rewrite Heq.
Qed.

(** ** Rows of a plan *)

(** The row of a field: the plan's page addresses as base plus stride. *)
Record row_of (P : CacheMemoryPlan.t) (f : CacheFieldLayout.t) (row : CacheField.t) : Prop := {
  ro_id : CacheField.field_id row = CacheFieldLayout.field_id f;
  ro_buffer : CacheField.device_buffer_index row = 0;
  ro_payload : CacheField.payload_bytes row = CacheFieldLayout.payload_bytes f;
  ro_stride : CacheField.block_stride_bytes row = CacheFieldLayout.page_stride_bytes f;
  ro_address : ∀ page o,
    CacheMemoryPlan.field_page_byte_offset P (CacheFieldLayout.field_id f) page = Ok o →
    o = CacheField.device_block_zero_offset_bytes row + page * CacheField.block_stride_bytes row;
}.

Definition plane_index (P : CacheMemoryPlan.t) : list (string * CachePlaneLayout.t) :=
  dict_of ((λ p, (CachePlaneLayout.plane_id p, p)) <$> CacheMemoryPlan.planes P).

(** The row [transfer_field] computes for a planned field. *)
Lemma transfer_field_row P f :
  plan_wf P → f ∈ CacheMemoryPlan.fields P → CacheFieldLayout.field_id f ≠ "" →
  ∃ row, transfer_field (plane_index P) f = Ok row ∧ row_of P f row.
Proof.
  intros Hw Hf Hid. destruct (field_addressed P f Hw Hf) as (g & p & Ha).
  pose proof (ad_wf _ _ _ _ Ha) as Hfw. pose proof (field_wf_stride_pos _ _ _ Hfw) as Hs.
  assert (0 ≤ CachePlaneLayout.arena_offset_bytes p) as Hoff.
  { pose proof (pw_blocks P Hw).
    destruct (planes_from_bounds (CacheMemoryPlan.num_lcm_blocks P + 1) 0 _ p ltac:(lia)
      (pw_plane_pos P Hw) (pw_packed P Hw) (ad_plane _ _ _ _ Ha)); lia. }
  destruct Hfw as [Hc Hst Ho Hp Hin]. unfold transfer_field, plane_index.
  rewrite <-(ad_pid _ _ _ _ Ha), (dict_of_index CachePlaneLayout.plane_id);
    [|apply Hw|apply Ha]. cbn [lookup_or mbind result_bind].
  eexists. split; [apply cache_field_post_init; split; [reflexivity|]|].
  - split; cbn; [done|lia|nia|lia].
  - split; cbn; try done. intros page o. rewrite (ad_offset _ _ _ _ Ha). case_decide; [|done].
    intros [= <-]. lia.
Qed.

(** The row is a function of the field, whatever [transfer_field] is given. *)
Lemma transfer_field_id planes f row :
  transfer_field planes f = Ok row → CacheField.field_id row = CacheFieldLayout.field_id f ∧
    CacheFieldLayout.field_id f ≠ "".
Proof.
  unfold transfer_field. intros H. inv_ok. apply cache_field_post_init in H as [-> Hok].
  split; [done|apply Hok].
Qed.

Lemma row_of_unique P f r1 r2 :
  plan_wf P → f ∈ CacheMemoryPlan.fields P → row_of P f r1 → row_of P f r2 → r1 = r2.
Proof.
  intros Hw Hf H1 H2. destruct (field_addressed P f Hw Hf) as (g & p & Ha).
  pose proof (ad_offset _ _ _ _ Ha 0) as Ho. rewrite decide_True in Ho.
  - pose proof (ro_address _ _ _ H1 _ _ Ho) as E1. pose proof (ro_address _ _ _ H2 _ _ Ho) as E2.
    destruct r1, r2, H1, H2; cbn in *. f_equal; [congruence..|lia|congruence|congruence].
  - rewrite (pw_pages P Hw g (ad_group _ _ _ _ Ha)). pose proof (pw_blocks P Hw).
    pose proof (fw_count _ _ _ (ad_wf _ _ _ _ Ha)). nia.
Qed.

(** ** Layouts of a plan *)

Definition group_selection (P : CacheMemoryPlan.t) (sel : list string) (g : CacheGroupLayout.t) :
    list CacheFieldLayout.t :=
  filter (λ field, CacheFieldLayout.group_id field = CacheGroupLayout.group_id g ∧
                   CacheFieldLayout.field_id field ∈ sel) (CacheMemoryPlan.fields P).

Definition selection_index (P : CacheMemoryPlan.t) (sel : list string) :
    list (string * list CacheFieldLayout.t) :=
  dict_of ((λ g, (CacheGroupLayout.group_id g, group_selection P sel g))
    <$> CacheMemoryPlan.groups P).

Lemma selection_index_id P sel : plan_wf P →
  selection_index P sel =
  (λ g, (CacheGroupLayout.group_id g, group_selection P sel g)) <$> CacheMemoryPlan.groups P.
Proof.
  intros Hw. apply dict_of_id. rewrite <-list_fmap_compose. unfold compose. cbn. apply Hw.
Qed.

Lemma selection_get P sel g :
  plan_wf P → g ∈ CacheMemoryPlan.groups P →
  dict_get (selection_index P sel) (CacheGroupLayout.group_id g) = Some (group_selection P sel g).
Proof.
  intros Hw Hg. apply elem_of_dict_get; [apply dict_of_NoDup|].
  rewrite selection_index_id by done. apply list_elem_of_fmap. by exists g.
Qed.

Lemma selected_group_ids P sel gid : plan_wf P →
  gid ∈ (filter (λ p : string * list CacheFieldLayout.t, p.2 ≠ []) (selection_index P sel)).*1 ↔
  ∃ g, g ∈ CacheMemoryPlan.groups P ∧ CacheGroupLayout.group_id g = gid ∧
    group_selection P sel g ≠ [].
Proof.
  intros Hw. rewrite selection_index_id by done. rewrite list_elem_of_fmap. split.
  - intros ([k l] & -> & [Hl (g & [= -> ->] & Hg)%list_elem_of_fmap]%list_elem_of_filter). by exists g.
  - intros (g & Hg & <- & Hs). eexists (_, _). split; [done|]. apply list_elem_of_filter.
    split; [done|]. apply list_elem_of_fmap. by exists g.
Qed.

Lemma plan_group_inj P g1 g2 :
  plan_wf P → g1 ∈ CacheMemoryPlan.groups P → g2 ∈ CacheMemoryPlan.groups P →
  CacheGroupLayout.group_id g1 = CacheGroupLayout.group_id g2 → g1 = g2.
Proof.
  intros Hw H1 H2 Heq. pose proof (plan_group P g1 Hw H1) as E1.
  rewrite Heq, (plan_group P g2 Hw H2) in E1. by injection E1.
Qed.

(** Either order lists the groups with a selected field, each once. *)
Lemma ordered_plan_groups_spec P sel gids gs :
  plan_wf P → ordered_plan_groups P (selection_index P sel) gids = Ok gs →
  NoDup (CacheGroupLayout.group_id <$> gs) ∧
  ∀ g, g ∈ gs ↔ g ∈ CacheMemoryPlan.groups P ∧ group_selection P sel g ≠ [].
Proof.
  intros Hw H. unfold ordered_plan_groups in H. destruct gids as [gids|].
  - inv_ok. apply len_set_check in Hr. apply negb_false_iff in Hr0.
    rewrite same_ids_true in Hr0. apply mapM_Ok in H.
    assert (CacheGroupLayout.group_id <$> gs = gids ∧ Forall (λ g, g ∈ CacheMemoryPlan.groups P) gs)
      as [Hids Hall].
    { clear -H Hw. induction H as [|x g gids gs Hx _ [IH IH2]]; [done|]. cbn beta in Hx. inv_ok.
      apply dict_of_index_Some in Hx as [Hg <-]; [|apply Hw]. split; [by rewrite fmap_cons, IH|by constructor]. }
    split; [by rewrite Hids|]. intros g. rewrite Forall_forall in Hall. split.
    + intros Hg. split; [by apply Hall|].
      assert (CacheGroupLayout.group_id g ∈ gids) as Hin by (rewrite <-Hids; by apply list_elem_of_fmap_2).
      apply Hr0, selected_group_ids in Hin as (g' & Hg' & Heq & Hs); [|done].
      by rewrite (plan_group_inj P g g') by auto.
    + intros [Hg Hs]. assert (CacheGroupLayout.group_id g ∈ gids) as Hin.
      { apply Hr0, selected_group_ids; [done|]. by exists g. }
      rewrite <-Hids in Hin. apply list_elem_of_fmap in Hin as (g' & Heq & Hg').
      by rewrite (plan_group_inj P g g') by auto.
  - inv_ok. split.
    + eapply sublist_NoDup; [apply (pw_groups P Hw)|]. apply fmap_sublist, sublist_filter.
    + intros g. rewrite list_elem_of_filter, selected_group_ids by done. split.
      * intros [(g' & Hg' & Heq & Hs) Hg]. by rewrite (plan_group_inj P g g').
      * intros [Hg Hs]. split; [by exists g|done].
Qed.

(** What [transfer_group] makes of a planned group. *)
Record group_rows (P : CacheMemoryPlan.t) (sel : list string) (g : CacheGroupLayout.t)
    (G : TransferGroupLayout.t) : Prop := {
  gw_id : TransferGroupLayout.group_id G = CacheGroupLayout.group_id g;
  gw_count : TransferGroupLayout.cache_blocks_per_lcm_block G =
    CacheGroupLayout.cache_blocks_per_lcm_block g;
  gw_rows : ∀ row, row ∈ TransferGroupLayout.fields G ↔
    ∃ f, f ∈ group_selection P sel g ∧ row_of P f row;
  gw_ok : group_ok G;
}.

Lemma transfer_fields_rows P fields rows :
  plan_wf P → Forall (λ f, f ∈ CacheMemoryPlan.fields P) fields →
  mapM (transfer_field (plane_index P)) fields = Ok rows →
  Forall2 (row_of P) fields rows.
Proof.
  intros Hw Hall H. apply mapM_Ok in H. revert Hall.
  induction H as [|f row fields rows Hrow _ IH]; intros Hall; [constructor|].
  apply Forall_cons in Hall as [Hf Hall]. constructor; [|by apply IH].
  destruct (transfer_field_id _ _ _ Hrow) as [_ Hne].
  destruct (transfer_field_row P f Hw Hf Hne) as (row' & Hrow' & Hof). cbn beta in Hrow.
  rewrite Hrow in Hrow'. by injection Hrow' as ->.
Qed.

Lemma Forall2_row_of P fields rows row :
  plan_wf P → Forall (λ f, f ∈ CacheMemoryPlan.fields P) fields → Forall2 (row_of P) fields rows →
  row ∈ rows ↔ ∃ f, f ∈ fields ∧ row_of P f row.
Proof.
  intros Hw Hall HF. revert Hall. induction HF as [|f r fields rows Hr HF IH]; intros Hall.
  { split; [by intros ?%not_elem_of_nil|intros (? & ?%not_elem_of_nil & _); done]. }
  apply Forall_cons in Hall as [Hf Hall]. rewrite elem_of_cons, (IH Hall). split.
  - intros [->|(f' & ? & ?)]; [exists f|exists f']; rewrite elem_of_cons; auto.
  - intros (f' & [->|Hf']%elem_of_cons & Hrow); [left|right; by exists f'].
    by apply (row_of_unique P f).
Qed.

Lemma transfer_group_rows P sel g G :
  plan_wf P → g ∈ CacheMemoryPlan.groups P →
  transfer_group (plane_index P) (selection_index P sel) g = Ok G → group_rows P sel g G.
Proof.
  intros Hw Hg H. unfold transfer_group in H. rewrite (selection_get P sel g Hw Hg) in H.
  cbn [lookup_or] in H. inv_ok. apply group_post_init in H as [-> Hok].
  assert (Forall (λ f, f ∈ CacheMemoryPlan.fields P) (group_selection P sel g)) as Hall.
  { apply Forall_forall. by intros f [_ ?]%list_elem_of_filter. }
  split; [done|done| |done]. intros row. by apply Forall2_row_of, transfer_fields_rows.
Qed.

(** The rows of the groups are the rows of the selected fields. *)
Lemma transfer_groups_locations P sel gs groups :
  plan_wf P → Forall2 (group_rows P sel) gs groups →
  (∀ g, g ∈ gs ↔ g ∈ CacheMemoryPlan.groups P ∧ group_selection P sel g ≠ []) →
  ∀ gid row, (gid, row) ∈ locations groups ↔
    ∃ f, f ∈ CacheMemoryPlan.fields P ∧ CacheFieldLayout.field_id f ∈ sel ∧
      CacheFieldLayout.group_id f = gid ∧ row_of P f row.
Proof.
  intros Hw HF Hgs gid row. rewrite elem_of_locations. split.
  - intros (G & HG & HGid & Hrow). apply list_elem_of_lookup in HG as [i HG].
    destruct (Forall2_lookup_r _ _ _ _ _ HF HG) as (g & Hg & Hgr).
    rewrite (gw_rows _ _ _ _ Hgr) in Hrow. destruct Hrow as (f & Hf & Hrow).
    apply list_elem_of_filter in Hf as [[Hgid Hsel] Hf].
    exists f. by rewrite <-HGid, (gw_id _ _ _ _ Hgr).
  - intros (f & Hf & Hsel & <- & Hrow).
    destruct (pw_fields P Hw f Hf) as (g & _ & Hg & _ & Hgid & _).
    assert (f ∈ group_selection P sel g) as Hfs by by apply list_elem_of_filter.
    assert (g ∈ gs) as [i Hi]%list_elem_of_lookup
      by (apply Hgs; split; [done|by eapply elem_of_ne_nil]).
    destruct (Forall2_lookup_l _ _ _ _ _ HF Hi) as (G & HG & Hgr).
    exists G. split_and!; [by eapply list_elem_of_lookup_2|by rewrite (gw_id _ _ _ _ Hgr)|].
    apply (gw_rows _ _ _ _ Hgr). by exists f.
Qed.

Lemma transfer_groups_rows P sel gs groups :
  plan_wf P → Forall (λ g, g ∈ CacheMemoryPlan.groups P) gs →
  mapM (transfer_group (plane_index P) (selection_index P sel)) gs = Ok groups →
  Forall2 (group_rows P sel) gs groups.
Proof.
  intros Hw Hall H. apply mapM_Ok in H. revert Hall.
  induction H as [|g G gs groups HG _ IH]; intros Hall; [constructor|].
  apply Forall_cons in Hall as [Hg Hall]. constructor; [by apply transfer_group_rows|by apply IH].
Qed.

Definition selected_ids (P : CacheMemoryPlan.t) (field_ids : option (list string)) : list string :=
  default (CacheFieldLayout.field_id <$> CacheMemoryPlan.fields P) field_ids.

(** What a layout built from a plan holds. *)
Record view_of {B} (P : CacheMemoryPlan.t) (buffer : B) (consumers : list (list string))
    (sel : list string) (L : CacheTransferLayout.t B) : Prop := {
  vo_ok : layout_ok L;
  vo_blocks : CacheTransferLayout.num_lcm_blocks L = CacheMemoryPlan.num_lcm_blocks P;
  vo_buffers : CacheTransferLayout.buffers L = [buffer];
  vo_consumers : CacheTransferLayout.consumers L = consumers;
  vo_groups : ∃ gs, Forall2 (group_rows P sel) gs (CacheTransferLayout.groups L) ∧
    NoDup (CacheGroupLayout.group_id <$> gs) ∧
    ∀ g, g ∈ gs ↔ g ∈ CacheMemoryPlan.groups P ∧ group_selection P sel g ≠ [];
}.

Lemma layout_from_lcm_plan_view {B} P (buffer : B) consumers gids fids L :
  plan_wf P → layout_from_lcm_plan P buffer consumers gids fids = Ok L →
  view_of P buffer consumers (selected_ids P fids) L.
Proof.
  intros Hw H. unfold layout_from_lcm_plan in H. apply bind_Ok in H as (sel & Hsel & H).
  assert (sel = selected_ids P fids) as -> by (destruct fids; by inv_ok).
  apply bind_Ok in H as (gs & Hgs & H). apply bind_Ok in H as (groups & Hgroups & H).
  apply layout_post_init in H as [-> Hok].
  destruct (ordered_plan_groups_spec P (selected_ids P fids) gids gs Hw Hgs) as [Hnd Hin].
  split; [done..|]. exists gs. split; [|done]. apply transfer_groups_rows; [done| |done].
  apply Forall_forall. intros g Hg. by apply Hin.
Qed.

(** The view has a row for each selected field of the plan, and no other. *)
Lemma view_locations {B} P (buffer : B) consumers sel L gid row :
  plan_wf P → view_of P buffer consumers sel L →
  (gid, row) ∈ locations (CacheTransferLayout.groups L) ↔
  ∃ f, f ∈ CacheMemoryPlan.fields P ∧ CacheFieldLayout.field_id f ∈ sel ∧
    CacheFieldLayout.group_id f = gid ∧ row_of P f row.
Proof.
  intros Hw Hv. destruct (vo_groups _ _ _ _ _ Hv) as (gs & HF & _ & Hin).
  by apply (transfer_groups_locations P sel gs).
Qed.

(** The selected fields of the plan, group by group, are the selected fields. *)
Lemma selections_perm P sel gs :
  plan_wf P → NoDup (CacheGroupLayout.group_id <$> gs) →
  (∀ g, g ∈ gs ↔ g ∈ CacheMemoryPlan.groups P ∧ group_selection P sel g ≠ []) →
  concat (group_selection P sel <$> gs) ≡ₚ
  filter (λ f, CacheFieldLayout.field_id f ∈ sel) (CacheMemoryPlan.fields P).
Proof.
  intros Hw Hnd Hgs.
  assert (concat (group_selection P sel <$> gs) = classes CacheFieldLayout.group_id
    (CacheGroupLayout.group_id <$> gs)
    (filter (λ f, CacheFieldLayout.field_id f ∈ sel) (CacheMemoryPlan.fields P))) as ->.
  { unfold classes. f_equal. rewrite <-list_fmap_compose. apply list_fmap_ext. intros _ g _.
    cbn. by rewrite list_filter_filter. }
  rewrite classes_filter by done. rewrite filter_all; [done|].
  intros f [Hsel Hf]%list_elem_of_filter.
  destruct (pw_fields P Hw f Hf) as (g & _ & Hg & _ & Hgid & _). rewrite <-Hgid.
  apply list_elem_of_fmap_2, Hgs. split; [done|]. apply (elem_of_ne_nil f).
  by apply list_elem_of_filter.
Qed.

Lemma rows_ids P fields rows :
  Forall2 (row_of P) fields rows →
  CacheField.field_id <$> rows = CacheFieldLayout.field_id <$> fields.
Proof.
  induction 1 as [|f row fields rows Hr _ IH]; [done|]. by rewrite !fmap_cons, IH, (ro_id _ _ _ Hr).
Qed.

(** Every group with a selected field gets its rows. *)
Lemma transfer_group_total P sel g :
  plan_wf P → g ∈ CacheMemoryPlan.groups P → group_selection P sel g ≠ [] →
  CacheGroupLayout.group_id g ≠ "" →
  Forall (λ f, CacheFieldLayout.field_id f ≠ "") (CacheMemoryPlan.fields P) →
  ∃ G, transfer_group (plane_index P) (selection_index P sel) g = Ok G ∧
    CacheField.field_id <$> TransferGroupLayout.fields G =
      CacheFieldLayout.field_id <$> group_selection P sel g ∧
    Forall (λ r, CacheField.device_buffer_index r = 0) (TransferGroupLayout.fields G).
Proof.
  intros Hw Hg Hne Hid Hids. rewrite Forall_forall in Hids.
  assert (Forall (λ f, f ∈ CacheMemoryPlan.fields P) (group_selection P sel g)) as Hall
    by (apply Forall_forall; by intros f [_ ?]%list_elem_of_filter).
  assert (∃ rows, mapM (transfer_field (plane_index P)) (group_selection P sel g) = Ok rows)
    as [rows Hrows].
  { setoid_rewrite mapM_Ok. clear Hne. induction Hall as [|f fs Hf _ [rows IH]]; [by exists []|].
    destruct (transfer_field_row P f Hw Hf (Hids f Hf)) as (row & Hrow & _).
    exists (row :: rows). by constructor. }
  pose proof (transfer_fields_rows P _ _ Hw Hall Hrows) as HF.
  pose proof (rows_ids _ _ _ HF) as Hri.
  unfold transfer_group. rewrite (selection_get P sel g Hw Hg). cbn [lookup_or mbind result_bind].
  rewrite Hrows. cbn [mbind result_bind]. eexists.
  split; [apply group_post_init; split; [reflexivity|]; split; cbn|]; [done| | | |split; [done|]].
  - destruct (group_selection P sel g) as [|f fs] eqn:E; [done|]. apply Forall_cons in Hall as [Hf _].
    destruct (field_addressed P f Hw Hf) as (g' & p & Ha).
    assert (f ∈ group_selection P sel g) as [[Hgid _] _]%list_elem_of_filter by (rewrite E; by left).
    rewrite (plan_group_inj P g g' Hw Hg); [apply Ha|apply Ha|]. by rewrite (ad_gid _ _ _ _ Ha).
  - intros ->. cbn in Hri. symmetry in Hri. by apply fmap_nil_inv in Hri.
  - rewrite Hri. eapply sublist_NoDup; [apply (pw_ids P Hw)|]. apply fmap_sublist, sublist_filter.
  - cbn. clear -HF. induction HF as [|? ? ? ? Hr]; constructor; [apply Hr|done].
Qed.

Lemma transfer_groups_total P sel gs :
  plan_wf P → Forall (λ g, g ∈ CacheMemoryPlan.groups P ∧ group_selection P sel g ≠ []) gs →
  Forall (λ g, CacheGroupLayout.group_id g ≠ "") (CacheMemoryPlan.groups P) →
  Forall (λ f, CacheFieldLayout.field_id f ≠ "") (CacheMemoryPlan.fields P) →
  ∃ groups, mapM (transfer_group (plane_index P) (selection_index P sel)) gs = Ok groups ∧
    group_field_ids groups = CacheFieldLayout.field_id <$> concat (group_selection P sel <$> gs) ∧
    TransferGroupLayout.group_id <$> groups = CacheGroupLayout.group_id <$> gs ∧
    Forall (λ r, CacheField.device_buffer_index r = 0) (group_fields groups).
Proof.
  intros Hw Hgs Hgids Hids. setoid_rewrite mapM_Ok.
  induction Hgs as [|g gs [Hg Hne] _ (groups & IH1 & IH2 & IH3 & IH4)].
  { exists []. split_and!; constructor. }
  rewrite Forall_forall in Hgids.
  destruct (transfer_group_total P sel g Hw Hg Hne (Hgids g Hg) Hids) as (G & HG & Hf & Hb).
  exists (G :: groups). split_and!.
  - by constructor.
  - unfold group_field_ids, group_fields in *. rewrite !fmap_cons. cbn [concat].
    by rewrite !fmap_app, IH2, Hf.
  - rewrite !fmap_cons, IH3. f_equal. by apply (gw_id P sel), transfer_group_rows.
  - unfold group_fields in *. rewrite fmap_cons. cbn [concat]. by apply Forall_app.
Qed.

Lemma layout_from_selection {B} P (buffer : B) consumers sel :
  (∀ x, x ∈ sel → x ∈ CacheFieldLayout.field_id <$> CacheMemoryPlan.fields P) →
  layout_from_lcm_plan P buffer consumers None (Some sel) =
  gs ← ordered_plan_groups P (selection_index P sel) None;
  groups ← mapM (transfer_group (plane_index P) (selection_index P sel)) gs;
  CacheTransferLayout.post_init
    {| CacheTransferLayout.num_lcm_blocks := CacheMemoryPlan.num_lcm_blocks P;
       CacheTransferLayout.groups := groups; CacheTransferLayout.buffers := [buffer];
       CacheTransferLayout.consumers := consumers |}.
Proof.
  intros Hsub. unfold layout_from_lcm_plan. rewrite (proj2 (forallb_forall _ _)); [done|].
  intros x Hx%list_elem_of_In. by apply py_in_true, Hsub.
Qed.

Lemma layout_from_lcm_plan_total {B} P (buffer : B) consumers sel :
  plan_wf P →
  Forall (λ g, CacheGroupLayout.group_id g ≠ "") (CacheMemoryPlan.groups P) →
  Forall (λ f, CacheFieldLayout.field_id f ≠ "") (CacheMemoryPlan.fields P) →
  (∀ x, x ∈ sel → x ∈ CacheFieldLayout.field_id <$> CacheMemoryPlan.fields P) → sel ≠ [] →
  concat consumers ≡ₚ CacheFieldLayout.field_id <$>
    filter (λ f, CacheFieldLayout.field_id f ∈ sel) (CacheMemoryPlan.fields P) →
  ∃ L, layout_from_lcm_plan P buffer consumers None (Some sel) = Ok L.
Proof.
  intros Hw Hgids Hids Hsub Hne Hcons. rewrite layout_from_selection by done.
  destruct (ordered_plan_groups P (selection_index P sel) None) as [gs|] eqn:Hgs; [|done].
  cbn [mbind result_bind]. destruct (ordered_plan_groups_spec P sel None gs Hw Hgs) as [Hnd Hin].
  destruct (transfer_groups_total P sel gs Hw) as (groups & Hm & Hfi & Hgi & Hb); [|done..|].
  { apply Forall_forall. intros g. by rewrite Hin. }
  pose proof (selections_perm P sel gs Hw Hnd Hin) as Hperm.
  assert (group_field_ids groups ≡ₚ CacheFieldLayout.field_id <$>
    filter (λ f, CacheFieldLayout.field_id f ∈ sel) (CacheMemoryPlan.fields P)) as Hfp
    by (by rewrite Hfi, Hperm).
  rewrite Hm. cbn [mbind result_bind]. eexists. apply layout_post_init. split; [reflexivity|].
  split; cbn.
  - pose proof (pw_blocks P Hw). lia.
  - intros ->. destruct sel as [|x sel]; [done|].
    destruct (proj1 (list_elem_of_fmap _ _ _) (Hsub x ltac:(by left))) as (f & -> & Hf).
    assert (CacheFieldLayout.field_id f ∈ group_field_ids []) as Habs; [|by apply not_elem_of_nil in Habs].
    rewrite Hfp. apply list_elem_of_fmap_2, list_elem_of_filter. split; [by left|done].
  - done.
  - by rewrite Hgi.
  - rewrite Hfp. eapply sublist_NoDup; [apply (pw_ids P Hw)|]. apply fmap_sublist, sublist_filter.
  - eapply Forall_impl; [exact Hb|]. intros r Hr. cbn in Hr |- *. lia.
  - by rewrite Hcons, Hfp.
Qed.

(** ** Layer selection *)

Definition window_ids (fields : list CacheFieldLayout.t) (first_layer last_layer : Z) : list string :=
  CacheFieldLayout.field_id <$> filter (λ f, first_layer ≤ layer_of f < last_layer) fields.

Lemma alter_seqZ (h : Z → list string) k x a n :
  a ≤ k < a + n →
  alter (λ c, c ++ [x]) (Z.to_nat (k - a)) (h <$> seqZ a n) =
  (λ j, h j ++ if decide (j = k) then [x] else []) <$> seqZ a n.
Proof.
  intros Hk. rewrite alter_fmap_seqZ by done. apply list_fmap_ext. intros i j _.
  case_decide; [done|]. by rewrite app_nil_r.
Qed.

(** On fields with distinct identifiers the selection is the window's fields,
    and each consumer the fields of its layer. *)
Lemma select_fold fields a n :
  0 ≤ a → 0 ≤ n → NoDup (CacheFieldLayout.field_id <$> fields) →
  Forall (λ f, 0 ≤ layer_of f) fields →
  foldM (select_step a (a + n)) ([], replicate (Z.to_nat n) []) fields =
  Ok (window_ids fields a (a + n), fields_of_layer fields <$> seqZ a n).
Proof.
  intros Ha Hn. induction fields as [|f fields IH] using rev_ind; intros Hnd Hpos.
  { cbn [foldM]. by rewrite (replicate_seqZ _ a). }
  rewrite fmap_app in Hnd. apply NoDup_app in Hnd as (Hnd & Hdis & _).
  apply Forall_app in Hpos as [Hpos Hf]. apply Forall_inv in Hf.
  rewrite foldM_app, (IH Hnd Hpos). cbn [mbind result_bind foldM].
  assert (select_step a (a + n) (window_ids fields a (a + n), fields_of_layer fields <$> seqZ a n) f =
    Ok (window_ids (fields ++ [f]) a (a + n), fields_of_layer (fields ++ [f]) <$> seqZ a n)) as ->;
    [|done].
  unfold select_step. cbv zeta. rewrite (layer_of_nonneg f Hf). cbn [mbind result_bind fst snd].
  unfold window_ids. rewrite filter_app, fmap_app, filter_cons.
  assert (∀ j, fields_of_layer (fields ++ [f]) j = fields_of_layer fields j ++
    if decide (j = layer_of f) then [CacheFieldLayout.field_id f] else []) as Hext.
  { intros j. unfold fields_of_layer. rewrite filter_app, fmap_app, filter_cons.
    repeat case_decide; subst; done. }
  destruct (decide (a ≤ layer_of f < a + n)) as [Hw|Hw].
  - rewrite (proj2 (Z.leb_le _ _)), (proj2 (Z.ltb_lt _ _)) by lia. cbn [andb].
    rewrite (proj2 (py_in_false _ _)).
    + do 2 f_equal. rewrite alter_seqZ by done. by apply list_fmap_ext.
    + intros (g & Heq & Hg)%list_elem_of_fmap. apply list_elem_of_filter in Hg as [_ Hg].
      apply (Hdis (CacheFieldLayout.field_id f)); [rewrite Heq; by apply list_elem_of_fmap_2|by left].
  - rewrite (proj2 (andb_false_iff _ _)) by (rewrite Z.leb_gt, Z.ltb_ge; lia).
    cbn [fmap list_fmap filter list_filter]. rewrite app_nil_r. do 2 f_equal. apply list_fmap_ext. intros i j Hj.
    apply lookup_seqZ in Hj. by rewrite Hext, decide_False, app_nil_r by lia.
Qed.

Lemma window_consumers fields a n :
  concat (fields_of_layer fields <$> seqZ a n) ≡ₚ window_ids fields a (a + n).
Proof.
  transitivity (CacheFieldLayout.field_id <$> classes layer_of (seqZ a n) fields).
  - unfold classes. induction (seqZ a n) as [|l ls IH]; [done|].
    rewrite !fmap_cons. cbn [concat]. by rewrite fmap_app, IH.
  - rewrite classes_filter by apply NoDup_seqZ. unfold window_ids. f_equiv.
    erewrite filter_ext_in; [done|]. intros f _. cbn beta. rewrite elem_of_seqZ. lia.
Qed.

(** Selecting identifiers of distinct fields selects those fields. *)
Lemma filter_window P a b :
  plan_wf P →
  CacheFieldLayout.field_id <$> filter (λ f, CacheFieldLayout.field_id f ∈
    window_ids (CacheMemoryPlan.fields P) a b) (CacheMemoryPlan.fields P) =
  window_ids (CacheMemoryPlan.fields P) a b.
Proof.
  intros Hw. refine (f_equal (fmap CacheFieldLayout.field_id) (filter_ext_in _ _ _ _)). intros f Hf. cbn beta.
  unfold window_ids. rewrite list_elem_of_fmap. split.
  - intros (g & Heq & [Hg Hgin]%list_elem_of_filter).
    assert (f = g) as ->; [|done]. pose proof (plan_field P f Hw Hf) as E.
    rewrite Heq, (plan_field P g Hw Hgin) in E. by injection E.
  - intros Hl. exists f. split; [done|]. by apply list_elem_of_filter.
Qed.

(** ** Merged layouts *)

Section combine.
Context {B : Type} `{EqDecision B}.
Implicit Types T D L : CacheTransferLayout.t B.

Lemma index_groups_get T gid g :
  layout_ok T →
  dict_get (index_groups T) gid = Some g ↔
  g ∈ CacheTransferLayout.groups T ∧ TransferGroupLayout.group_id g = gid.
Proof.
  intros Hok. unfold index_groups. split.
  - apply (dict_of_index_Some TransferGroupLayout.group_id), Hok.
  - intros [Hg <-]. by apply (dict_of_index TransferGroupLayout.group_id); [apply Hok|].
Qed.

Lemma index_groups_keys T :
  layout_ok T →
  dict_keys (index_groups T) = TransferGroupLayout.group_id <$> CacheTransferLayout.groups T.
Proof.
  intros Hok. unfold index_groups. rewrite dict_of_id; unfold dict_keys;
    rewrite <-list_fmap_compose; [done|apply Hok].
Qed.

(** The fields a view has in a group. *)
Definition fields_in T (gid : string) : list CacheField.t :=
  match dict_get (index_groups T) gid with Some g => TransferGroupLayout.fields g | None => [] end.

Lemma elem_of_fields_in T gid f :
  layout_ok T → f ∈ fields_in T gid ↔ (gid, f) ∈ locations (CacheTransferLayout.groups T).
Proof.
  intros Hok. unfold fields_in. rewrite elem_of_locations.
  destruct (dict_get (index_groups T) gid) as [g|] eqn:E.
  - apply index_groups_get in E as [Hg <-]; [|done]. split; [intros Hf; by exists g|].
    intros (g' & Hg' & Heq & Hf). assert (Some g' = Some g) as [= ->]; [|done].
    rewrite <-(proj2 (index_groups_get T _ g' Hok) (conj Hg' Heq)).
    by apply index_groups_get.
  - split; [by intros ?%not_elem_of_nil|]. intros (g & Hg & Hgid & _).
    assert (dict_get (index_groups T) gid = Some g) as E' by by apply index_groups_get.
    by rewrite E in E'.
Qed.

(** The merged group of an identifier. *)
Lemma combine_group_Ok T D aliased gid G :
  combine_group (index_groups T) (index_groups D) aliased gid = Ok G →
  TransferGroupLayout.group_id G = gid ∧
  TransferGroupLayout.fields G =
    fields_in T gid ++ filter (λ f, CacheField.field_id f ∉ aliased) (fields_in D gid).
Proof.
  unfold combine_group, fields_in. intros H. apply bind_Ok in H as (geo & _ & H).
  apply group_post_init in H as [-> _]. cbn. split; [done|].
  by destruct (dict_get (index_groups D) gid).
Qed.

(** The merge order lists the groups of both views, each once. *)
Lemma combined_order_spec T D gids order :
  layout_ok T → layout_ok D →
  combined_order (index_groups T) (index_groups D) gids = Ok order →
  NoDup order ∧ ∀ x, x ∈ order ↔ x ∈ dict_keys (index_groups T) ∨ x ∈ dict_keys (index_groups D).
Proof.
  intros HT HD H. unfold combined_order in H. destruct gids as [gids|].
  - inv_ok. apply len_set_check in Hr. apply negb_false_iff in Hr0. rewrite same_ids_true in Hr0.
    split; [done|]. intros x. by rewrite Hr0, elem_of_app.
  - inv_ok. split.
    + apply NoDup_app. split_and!; [rewrite index_groups_keys by done; apply HT| |].
      * intros x Hx [Hn _]%list_elem_of_filter. done.
      * apply NoDup_filter. rewrite index_groups_keys by done. apply HD.
    + intros x. rewrite elem_of_app, list_elem_of_filter.
      destruct (decide (x ∈ dict_keys (index_groups T))); naive_solver.
Qed.

(** A field both views name is in one place. *)
Lemma check_aliased_spec T D aliased u l :
  layout_ok T → layout_ok D →
  check_aliased T D (group_field_ids (CacheTransferLayout.groups T))
    (group_field_ids (CacheTransferLayout.groups D)) aliased = Ok u →
  l ∈ locations (CacheTransferLayout.groups D) → CacheField.field_id l.2 ∈ aliased →
  l ∈ locations (CacheTransferLayout.groups T).
Proof.
  intros HT HD H Hl Hal. unfold check_aliased in H.
  destruct aliased as [|a aliased]; [by apply not_elem_of_nil in Hal|].
  apply bind_Ok in H as (_ & _ & H). apply bind_Ok in H as (conflicts & Hc & H).
  apply raise_when_Ok, existsb_false_Forall in H. apply mapM_Ok in Hc.
  apply list_elem_of_lookup in Hl as [i Hi].
  destruct (Forall2_lookup_l _ _ _ _ _ Hc Hi) as (c & Hci & Hb). cbn beta in Hb.
  rewrite Forall_forall in H. specialize (H c (list_elem_of_lookup_2 _ _ _ Hci)).
  apply bind_Ok in Hb as (loc & Hloc & Hb). apply lookup_or_Ok in Hloc. apply Ok_inj in Hb.
  rewrite <-Hb in H. unfold id in H. apply negb_false_iff, bool_decide_eq_true in H. subst loc.
  apply (dict_of_index_Some (λ l : string * CacheField.t, CacheField.field_id l.2)) in Hloc as [? _]; [done|].
  pose proof (lo_field_ids _ HT) as Hnd. unfold group_field_ids in Hnd.
  by rewrite <-locations_fields, <-list_fmap_compose in Hnd.
Qed.

(** The locations of merged groups. *)
Lemma combine_groups_locations T D aliased order groups :
  layout_ok T → layout_ok D →
  (∀ x, x ∈ order ↔ x ∈ dict_keys (index_groups T) ∨ x ∈ dict_keys (index_groups D)) →
  mapM (combine_group (index_groups T) (index_groups D) aliased) order = Ok groups →
  ∀ gid f, (gid, f) ∈ locations groups ↔
    (gid, f) ∈ locations (CacheTransferLayout.groups T) ∨
    ((gid, f) ∈ locations (CacheTransferLayout.groups D) ∧ CacheField.field_id f ∉ aliased).
Proof.
  intros HT HD Horder H gid f. apply mapM_Ok in H.
  rewrite <-!elem_of_fields_in by done. transitivity (f ∈ fields_in T gid ++
    filter (λ f, CacheField.field_id f ∉ aliased) (fields_in D gid));
    [|rewrite elem_of_app, list_elem_of_filter; tauto].
  rewrite elem_of_locations. split.
  - intros (G & HG & <- & Hf). apply list_elem_of_lookup in HG as [i HG].
    destruct (Forall2_lookup_r _ _ _ _ _ H HG) as (x & Hx & Hc).
    apply combine_group_Ok in Hc as [-> Hfs]. by rewrite <-Hfs.
  - intros Hf. assert (gid ∈ order) as Hin.
    { apply Horder. rewrite elem_of_app, list_elem_of_filter in Hf. unfold fields_in in Hf.
      rewrite <-!dict_get_is_Some.
      destruct (dict_get (index_groups T) gid); [by left; eexists|].
      destruct (dict_get (index_groups D) gid); [by right; eexists|].
      destruct Hf as [?%not_elem_of_nil|[_ ?%not_elem_of_nil]]; done. }
    apply list_elem_of_lookup in Hin as [i Hi].
    destruct (Forall2_lookup_l _ _ _ _ _ H Hi) as (G & HG & Hc).
    apply combine_group_Ok in Hc as [HGid Hfs]. exists G.
    split_and!; [by eapply list_elem_of_lookup_2|done|by rewrite Hfs].
Qed.

(** A successful merge holds the rows of both views. *)
Lemma combine_sound T D gids L :
  layout_ok T → layout_ok D →
  combine_cache_transfer_layouts T (Some D) gids = Ok L →
  layout_ok L ∧
  CacheTransferLayout.buffers L = CacheTransferLayout.buffers T ∧
  CacheTransferLayout.buffers L = CacheTransferLayout.buffers D ∧
  (∀ l, l ∈ locations (CacheTransferLayout.groups L) ↔
    l ∈ locations (CacheTransferLayout.groups T) ∨ l ∈ locations (CacheTransferLayout.groups D)) ∧
  ∃ rest, CacheTransferLayout.consumers L = CacheTransferLayout.consumers T ++ rest.
Proof.
  intros HT HD H. unfold combine_cache_transfer_layouts in H. apply bind_Ok in H as (_ & _ & H).
  case_match eqn:Hsame.
  { inv_ok. rewrite !andb_true_iff, !bool_decide_eq_true in Hsame.
    destruct Hsame as [[Hg Hc] Hb]. split_and!; [done..| |exists []; by rewrite app_nil_r].
    intros l. rewrite Hg. tauto. }
  apply bind_Ok in H as (_ & _ & H). apply bind_Ok in H as (order & Hord & H).
  apply bind_Ok in H as ([] & Hbuf & H). apply bind_Ok in H as (u & Hal & H).
  apply bind_Ok in H as (_ & _ & H). apply bind_Ok in H as (groups & Hg & H).
  apply layout_post_init in H as [-> Hok]. apply raise_when_Ok, negb_false_iff in Hbuf.
  destruct (combined_order_spec _ _ _ _ HT HD Hord) as [_ Hin].
  split_and!; [done|done| | |by eexists].
  - cbn. destruct (CacheTransferLayout.buffers T) as [|b1 []], (CacheTransferLayout.buffers D) as [|b2 []];
      try done. by apply bool_decide_eq_true in Hbuf as ->.
  - intros [gid f]. cbn [CacheTransferLayout.groups].
    rewrite (combine_groups_locations T D _ order groups) by done.
    split; [naive_solver|]. intros [?|HD']; [by left|].
    match type of Hal with check_aliased _ _ _ _ ?al = _ =>
      destruct (decide (CacheField.field_id f ∈ al)) as [Ha|Ha] end; [|by right].
    left. by apply (check_aliased_spec _ _ _ _ _ HT HD Hal).
Qed.

Lemma concat_fields_in T :
  layout_ok T →
  concat (fields_in T <$> dict_keys (index_groups T)) = group_fields (CacheTransferLayout.groups T).
Proof.
  intros Hok. rewrite index_groups_keys by done. unfold group_fields. f_equal.
  rewrite <-list_fmap_compose. apply list_fmap_ext. intros i g Hg. cbn. unfold fields_in.
  rewrite (proj2 (index_groups_get T _ g Hok)); [done|]. split; [by eapply list_elem_of_lookup_2|done].
Qed.

Lemma fields_in_order T order :
  layout_ok T → NoDup order → (∀ x, x ∈ dict_keys (index_groups T) → x ∈ order) →
  concat (fields_in T <$> order) ≡ₚ group_fields (CacheTransferLayout.groups T).
Proof.
  intros Hok Hnd Hsub. rewrite <-concat_fields_in by done.
  apply concat_support; [done|rewrite index_groups_keys by done; apply Hok|done|].
  intros x _ Hx. unfold fields_in. by rewrite (proj2 (dict_get_None _ _) Hx).
Qed.

Lemma concat_app_perm {A} (h k : A → list CacheField.t) l :
  concat ((λ x, h x ++ k x) <$> l) ≡ₚ concat (h <$> l) ++ concat (k <$> l).
Proof.
  induction l as [|x l IH]; [done|]. rewrite !fmap_cons. cbn [concat]. rewrite IH.
  rewrite <-!app_assoc. apply Permutation_app_head. rewrite !app_assoc.
  apply Permutation_app_tail, Permutation_app_comm.
Qed.

(** Two views that can be merged: one arena, one geometry, no common field. *)
Record mergeable (b : B) T D : Prop := {
  mg_target : layout_ok T;
  mg_draft : layout_ok D;
  mg_blocks : CacheTransferLayout.num_lcm_blocks D = CacheTransferLayout.num_lcm_blocks T;
  mg_target_buffers : CacheTransferLayout.buffers T = [b];
  mg_draft_buffers : CacheTransferLayout.buffers D = [b];
  mg_groups : Forall group_ok (CacheTransferLayout.groups T ++ CacheTransferLayout.groups D);
  mg_geometry : ∀ g h, g ∈ CacheTransferLayout.groups T → h ∈ CacheTransferLayout.groups D →
    TransferGroupLayout.group_id g = TransferGroupLayout.group_id h →
    TransferGroupLayout.cache_blocks_per_lcm_block g =
      TransferGroupLayout.cache_blocks_per_lcm_block h;
  mg_disjoint : ∀ x, x ∈ group_field_ids (CacheTransferLayout.groups T) →
    x ∉ group_field_ids (CacheTransferLayout.groups D);
  mg_index : Forall (λ f, CacheField.device_buffer_index f = 0)
    (group_fields (CacheTransferLayout.groups T) ++ group_fields (CacheTransferLayout.groups D));
}.

Lemma fields_in_ids T gid f :
  layout_ok T → f ∈ fields_in T gid →
  CacheField.field_id f ∈ group_field_ids (CacheTransferLayout.groups T).
Proof.
  intros Hok Hf. apply elem_of_group_field_ids. exists gid, f. by rewrite <-elem_of_fields_in.
Qed.

Lemma fields_in_group T gid g :
  dict_get (index_groups T) gid = Some g → fields_in T gid = TransferGroupLayout.fields g.
Proof. unfold fields_in. by intros ->. Qed.

Lemma combine_group_total b T D gid :
  mergeable b T D →
  gid ∈ dict_keys (index_groups T) ∨ gid ∈ dict_keys (index_groups D) →
  ∃ G, combine_group (index_groups T) (index_groups D) [] gid = Ok G.
Proof.
  intros [HT HD _ _ _ Hgr _ Hdis _] Hgid. rewrite Forall_forall in Hgr.
  assert (∀ (X : CacheTransferLayout.t B) g, layout_ok X → (∀ h, h ∈ CacheTransferLayout.groups X → group_ok h) →
    dict_get (index_groups X) gid = Some g → group_ok g ∧ TransferGroupLayout.group_id g = gid) as Hget.
  { intros X g HX Hall E. apply index_groups_get in E as [? <-]; [|done]. split; auto. }
  assert (∀ h, h ∈ CacheTransferLayout.groups T → group_ok h) as HgT by (intros; apply Hgr; set_solver).
  assert (∀ h, h ∈ CacheTransferLayout.groups D → group_ok h) as HgD by (intros; apply Hgr; set_solver).
  rewrite <-!dict_get_is_Some in Hgid. unfold combine_group.
  assert (∀ l : list CacheField.t, filter (λ f, CacheField.field_id f ∉ []) l = l) as Hnil
    by (intros l; apply filter_all; intros; apply not_elem_of_nil).
  destruct (dict_get (index_groups T) gid) as [g|] eqn:ET, (dict_get (index_groups D) gid) as [h|] eqn:ED;
    cbn [mbind result_bind]; rewrite ?Hnil, ?app_nil_r; try (exfalso; by destruct Hgid as [[]|[]]); eexists;
    apply group_post_init; (split; [reflexivity|]).
  - destruct (Hget T g HT HgT ET) as [[H1 H2 H3 H4] Hid], (Hget D h HD HgD ED) as [[_ _ _ H5] _].
    rewrite Hid in H1. split; cbn; [done|done| |].
    + by intros [? _]%app_nil.
    + rewrite fmap_app. apply NoDup_app. split_and!; [done| |done].
      intros x (f & -> & Hf)%list_elem_of_fmap (f' & Heq & Hf')%list_elem_of_fmap.
      rewrite <-(fields_in_group T gid) in Hf by done. rewrite <-(fields_in_group D gid) in Hf' by done.
      apply (Hdis (CacheField.field_id f)); [by eapply fields_in_ids|].
      rewrite Heq. by eapply fields_in_ids.
  - destruct (Hget T g HT HgT ET) as [[H1 H2 H3 H4] Hid]. rewrite Hid in H1. by split.
  - destruct (Hget D h HD HgD ED) as [[H1 H2 H3 H4] Hid]. rewrite Hid in H1. by split.
Qed.

Lemma combine_groups_total b T D order :
  mergeable b T D →
  NoDup order →
  (∀ x, x ∈ order ↔ x ∈ dict_keys (index_groups T) ∨ x ∈ dict_keys (index_groups D)) →
  ∃ groups, mapM (combine_group (index_groups T) (index_groups D) []) order = Ok groups ∧
    TransferGroupLayout.group_id <$> groups = order ∧
    group_fields groups ≡ₚ
      group_fields (CacheTransferLayout.groups T) ++ group_fields (CacheTransferLayout.groups D).
Proof.
  intros Hm Hnd Hin.
  assert (∃ groups, mapM (combine_group (index_groups T) (index_groups D) []) order = Ok groups)
    as [groups Hg].
  { setoid_rewrite mapM_Ok. assert (Forall (λ x, x ∈ dict_keys (index_groups T) ∨
      x ∈ dict_keys (index_groups D)) order) as Hall by (apply Forall_forall; intros x; apply Hin).
    clear Hnd Hin. induction Hall as [|x order Hx _ [groups IH]]; [by exists []|].
    destruct (combine_group_total b T D x Hm Hx) as [G HG]. exists (G :: groups). by constructor. }
  exists groups. split; [done|]. apply mapM_Ok in Hg.
  assert (TransferGroupLayout.group_id <$> groups = order ∧
    group_fields groups = concat ((λ x, fields_in T x ++ fields_in D x) <$> order)) as [Hids Hfs].
  { clear -Hg. induction Hg as [|x G order groups HG _ [IH1 IH2]]; [done|].
    apply combine_group_Ok in HG as [Hid Hf]. unfold group_fields in *. rewrite !fmap_cons. cbn [concat].
    rewrite IH1, IH2, Hid, Hf. split; [done|]. do 2 f_equal. rewrite filter_all; [done|].
    intros; apply not_elem_of_nil. }
  split; [done|]. rewrite Hfs, concat_app_perm.
  rewrite !fields_in_order; [done|apply Hm|done|intros; apply Hin; by right
    |apply Hm|done|intros; apply Hin; by left].
Qed.

Lemma geometry_agrees_true b T D :
  mergeable b T D → geometry_agrees (index_groups T) (index_groups D) = true.
Proof.
  intros Hm. apply forallb_forall. intros [gid g] Hg%list_elem_of_In. cbn.
  destruct (dict_get (index_groups D) gid) as [h|] eqn:E; [|done].
  apply index_groups_get in E as [Hh Hhid]; [|apply Hm].
  apply elem_of_dict_get, index_groups_get in Hg as [Hg Hgid]; [|apply Hm|apply dict_of_NoDup].
  apply Z.eqb_eq. symmetry. apply (mg_geometry _ _ _ Hm); [done|done|congruence].
Qed.

Lemma combine_total b T D :
  mergeable b T D → ∃ L, combine_cache_transfer_layouts T (Some D) None = Ok L.
Proof.
  intros Hm. unfold combine_cache_transfer_layouts.
  rewrite (proj2 (Z.eqb_eq _ _) (mg_blocks _ _ _ Hm)). cbn [negb raise_when mbind result_bind].
  case_match; [by eexists|]. rewrite (geometry_agrees_true b T D Hm). cbn [negb raise_when mbind result_bind].
  destruct (combined_order (index_groups T) (index_groups D) None) as [order|] eqn:Ho; [|done].
  destruct (combined_order_spec T D None order (mg_target _ _ _ Hm) (mg_draft _ _ _ Hm) Ho) as [Hnd Hin].
  cbn [mbind result_bind]. rewrite (mg_target_buffers _ _ _ Hm), (mg_draft_buffers _ _ _ Hm).
  rewrite bool_decide_true by done. cbn [negb raise_when mbind result_bind].
  assert (filter (λ f, f ∈ group_field_ids (CacheTransferLayout.groups D))
    (group_field_ids (CacheTransferLayout.groups T)) = []) as ->.
  { destruct (filter _ _) as [|x l] eqn:E; [done|]. exfalso.
    assert (x ∈ x :: l) as Hx by by left. rewrite <-E in Hx.
    apply list_elem_of_filter in Hx as [HxD HxT]. by apply (mg_disjoint _ _ _ Hm x). }
  cbn [check_aliased mbind result_bind].
  rewrite (proj2 (existsb_false_Forall _ _)); cbn [raise_when mbind result_bind].
  2:{ eapply Forall_impl; [apply (mg_index _ _ _ Hm)|]. intros f Hf. cbn in Hf |- *. by rewrite Hf. }
  destruct (combine_groups_total b T D order Hm Hnd Hin) as (groups & Hg & Hids & Hfs).
  rewrite Hg. cbn [mbind result_bind]. eexists. apply layout_post_init. split; [reflexivity|].
  assert (group_field_ids groups ≡ₚ group_field_ids (CacheTransferLayout.groups T) ++
    group_field_ids (CacheTransferLayout.groups D)) as Hfi
    by (unfold group_field_ids; by rewrite Hfs, fmap_app).
  destruct Hm as [HT HD _ _ _ _ _ Hdis Hidx]. split; cbn.
  - apply HT.
  - intros ->. cbn in Hids. subst order. pose proof (lo_groups _ HT) as Hne.
    destruct (CacheTransferLayout.groups T) as [|g gs] eqn:E; [done|].
    apply (not_elem_of_nil (TransferGroupLayout.group_id g)), Hin. left.
    rewrite index_groups_keys, E by done. by left.
  - done.
  - by rewrite Hids.
  - rewrite Hfi. apply NoDup_app. split_and!; [apply HT|done|apply HD].
  - rewrite Hfs. eapply Forall_impl; [exact Hidx|]. intros f Hf. cbn in Hf |- *. lia.
  - rewrite concat_app, Hfi. f_equiv; [apply HT|]. rewrite <-(lo_consumers _ HD).
    assert ((λ c : list string, filter (λ f, f ∉ []) c) <$> CacheTransferLayout.consumers D =
      CacheTransferLayout.consumers D) as ->; [|done].
    rewrite <-(list_fmap_id (CacheTransferLayout.consumers D)) at 2. apply list_fmap_ext.
    intros i c _. apply filter_all. intros; apply not_elem_of_nil.
Qed.
End combine.

(** ** Two views of one plan *)

Lemma window_ids_split fields a b c x :
  a ≤ b ≤ c →
  x ∈ window_ids fields a c ↔ x ∈ window_ids fields a b ∨ x ∈ window_ids fields b c.
Proof.
  intros Hb. unfold window_ids. rewrite !list_elem_of_fmap. setoid_rewrite list_elem_of_filter. split.
  - intros (f & -> & Hl & Hf). destruct (decide (layer_of f < b)); [left|right]; exists f; naive_solver lia.
  - intros [(f & -> & Hl & Hf)|(f & -> & Hl & Hf)]; exists f; naive_solver lia.
Qed.

(** The layer is a function of the identifier. *)
Lemma window_ids_disjoint fields a b c x : x ∈ window_ids fields a b → x ∉ window_ids fields b c.
Proof.
  unfold window_ids. intros (f & -> & [Hf _]%list_elem_of_filter)%list_elem_of_fmap.
  intros (g & Heq & [Hg _]%list_elem_of_filter)%list_elem_of_fmap.
  unfold layer_of in *. rewrite Heq in Hf. lia.
Qed.

Lemma layer_of_nonempty f : 0 ≤ layer_of f → CacheFieldLayout.field_id f ≠ "".
Proof. unfold layer_of. intros H E. rewrite E in H. vm_compute in H. by apply H. Qed.

(** A view over a layer window that holds a field. *)
Lemma window_view {B} P (buffer : B) a n :
  plan_wf P → Forall (λ f, 0 ≤ layer_of f) (CacheMemoryPlan.fields P) →
  Forall (λ g, CacheGroupLayout.group_id g ≠ "") (CacheMemoryPlan.groups P) →
  window_ids (CacheMemoryPlan.fields P) a (a + n) ≠ [] →
  ∃ L, layout_from_lcm_plan P buffer (fields_of_layer (CacheMemoryPlan.fields P) <$> seqZ a n) None
    (Some (window_ids (CacheMemoryPlan.fields P) a (a + n))) = Ok L.
Proof.
  intros Hw Hpos Hgids Hne. apply layout_from_lcm_plan_total; try done.
  - eapply Forall_impl; [exact Hpos|]. intros f. apply layer_of_nonempty.
  - intros x (f & -> & [_ Hf]%list_elem_of_filter)%list_elem_of_fmap. by apply list_elem_of_fmap_2.
  - by rewrite window_consumers, filter_window.
Qed.

(** The groups of a view come from the plan. *)
Lemma view_group {B} P (buffer : B) consumers sel L G :
  plan_wf P → view_of P buffer consumers sel L → G ∈ CacheTransferLayout.groups L →
  ∃ g, g ∈ CacheMemoryPlan.groups P ∧ group_rows P sel g G ∧ group_selection P sel g ≠ [].
Proof.
  intros Hw Hv [i HG]%list_elem_of_lookup. destruct (vo_groups _ _ _ _ _ Hv) as (gs & HF & _ & Hin).
  destruct (Forall2_lookup_r _ _ _ _ _ HF HG) as (g & Hg & Hr). exists g.
  apply list_elem_of_lookup_2, Hin in Hg as [??]. done.
Qed.

(** Views of disjoint selections can be merged. *)
Lemma views_mergeable {B} P (buffer : B) c1 c2 s1 s2 T D :
  plan_wf P → view_of P buffer c1 s1 T → view_of P buffer c2 s2 D →
  (∀ x, x ∈ s1 → x ∉ s2) → mergeable buffer T D.
Proof.
  intros Hw HT HD Hdis.
  assert (∀ c s (L : CacheTransferLayout.t B) f, view_of P buffer c s L →
    f ∈ group_fields (CacheTransferLayout.groups L) →
    CacheField.field_id f ∈ s ∧ CacheField.device_buffer_index f = 0) as Hrow.
  { intros c s L f HL [gid Hf]%elem_of_group_fields.
    apply (view_locations P buffer c s L gid f Hw HL) in Hf as (x & _ & Hs & _ & Hr).
    by rewrite (ro_id _ _ _ Hr), (ro_buffer _ _ _ Hr). }
  split; [apply HT|apply HD| |apply HT|apply HD| | | |].
  - by rewrite (vo_blocks _ _ _ _ _ HT), (vo_blocks _ _ _ _ _ HD).
  - apply Forall_forall. intros G [HG|HG]%elem_of_app.
    + by destruct (view_group _ _ _ _ _ _ Hw HT HG) as (g & _ & [] & _).
    + by destruct (view_group _ _ _ _ _ _ Hw HD HG) as (g & _ & [] & _).
  - intros G H HG HH Heq.
    destruct (view_group _ _ _ _ _ _ Hw HT HG) as (g & Hg & [Hid Hc _ _] & _).
    destruct (view_group _ _ _ _ _ _ Hw HD HH) as (h & Hh & [Hid' Hc' _ _] & _).
    rewrite Hc, Hc'. f_equal. apply (plan_group_inj P); [done..|]. congruence.
  - intros x (f & -> & Hf)%list_elem_of_fmap (f' & Heq & Hf')%list_elem_of_fmap.
    destruct (Hrow _ _ _ _ HT Hf) as [Hs _], (Hrow _ _ _ _ HD Hf') as [Hs' _].
    rewrite Heq in Hs. by apply (Hdis _ Hs).
  - apply Forall_forall. intros f [Hf|Hf]%elem_of_app; [apply (Hrow _ _ _ _ HT Hf)|apply (Hrow _ _ _ _ HD Hf)].
Qed.

(** The plan of the example layout with four parents. *)
Definition example_plan : CacheMemoryPlan.t :=
  Eval vm_compute in match CacheLayout.bind example_layout 4 with
                     | Ok P => P
                     | Raise _ => {| CacheMemoryPlan.prefix_granularity := 0;
                         CacheMemoryPlan.lcm_block_bytes := 0; CacheMemoryPlan.num_lcm_blocks := 0;
                         CacheMemoryPlan.groups := []; CacheMemoryPlan.planes := [];
                         CacheMemoryPlan.fields := []; CacheMemoryPlan.resident_block_bytes := None |}
                     end.

Lemma example_plan_bind : CacheLayout.bind example_layout 4 = Ok example_plan.
Proof. vm_compute. reflexivity. Qed.

Lemma example_plan_wf : plan_wf example_plan.
Proof. exact (bind_wf _ _ _ example_layout_wf example_plan_bind). Qed.

Lemma example_plan_layers : Forall (λ f, 0 ≤ layer_of f) (CacheMemoryPlan.fields example_plan).
Proof. repeat constructor; vm_compute; discriminate. Qed.

Lemma example_plan_groups :
  Forall (λ g, CacheGroupLayout.group_id g ≠ "") (CacheMemoryPlan.groups example_plan).
Proof. repeat constructor; discriminate. Qed.

(** ** Properties *)

(** C33: Transfer rows address the plan's pages.  A layout built from a
    well-formed plan has one row for each selected field, in the field's group,
    and no other row; row address plus block times stride is the plan's page
    address, and the consumers list every transferred field once. *)
Theorem transfer_rows_match_plan {B} P (buffer : B) consumers gids fids L :
  plan_wf P → layout_from_lcm_plan P buffer consumers gids fids = Ok L →
  (∀ gid row, (gid, row) ∈ locations (CacheTransferLayout.groups L) ↔
    ∃ f, f ∈ CacheMemoryPlan.fields P ∧ CacheFieldLayout.field_id f ∈ selected_ids P fids ∧
      CacheFieldLayout.group_id f = gid ∧ row_of P f row) ∧
  NoDup (group_field_ids (CacheTransferLayout.groups L)) ∧
  concat consumers ≡ₚ group_field_ids (CacheTransferLayout.groups L).
Proof.
  intros Hw H. pose proof (layout_from_lcm_plan_view _ _ _ _ _ _ Hw H) as Hv.
  split; [intros gid row; by apply (view_locations _ _ _ _ _ _ _ Hw Hv)|].
  pose proof (vo_ok _ _ _ _ _ Hv) as Hok. split; [apply Hok|].
  rewrite <-(vo_consumers _ _ _ _ _ Hv). apply Hok.
Qed.

Lemma transfer_rows_match_plan_witness :
  ∃ L, layout_from_lcm_plan example_plan 7%nat
      [["layer.0.k"; "layer.0.s"]; ["layer.1.k"; "layer.0.t"]] (Some ["b"; "a"]) None = Ok L ∧
    NoDup (group_field_ids (CacheTransferLayout.groups L)).
Proof.
  eexists. split; [vm_compute; reflexivity|].
  refine (proj1 (proj2 (transfer_rows_match_plan example_plan 7%nat
    [["layer.0.k"; "layer.0.s"]; ["layer.1.k"; "layer.0.t"]] (Some ["b"; "a"]) None _
    example_plan_wf _))).
  vm_compute. reflexivity.
Defined.

(** Every layer window is transferable.  Over a plan whose fields all name
    layers, selecting a window succeeds, returns the identifiers of the window's
    fields and one consumer per layer with that layer's fields, and the layout
    of the selection exists whenever the window holds a field. *)
Theorem select_view_total {B} P (buffer : B) first_layer num_layers :
  plan_wf P → Forall (λ f, 0 ≤ layer_of f) (CacheMemoryPlan.fields P) →
  Forall (λ g, CacheGroupLayout.group_id g ≠ "") (CacheMemoryPlan.groups P) →
  0 ≤ first_layer → 0 ≤ num_layers →
  ∃ selected consumers,
    select_layer_fields (CacheMemoryPlan.fields P) first_layer num_layers =
      Ok (selected, consumers) ∧
    selected = window_ids (CacheMemoryPlan.fields P) first_layer (first_layer + num_layers) ∧
    consumers = fields_of_layer (CacheMemoryPlan.fields P) <$> seqZ first_layer num_layers ∧
    (selected ≠ [] →
      ∃ L, layout_from_lcm_plan P buffer consumers None (Some selected) = Ok L).
Proof.
  intros Hw Hpos Hgids Ha Hn. eexists _, _. split_and!; [|done|done|].
  - unfold select_layer_fields. rewrite (proj2 (Z.ltb_ge _ _) Ha), (proj2 (Z.ltb_ge _ _) Hn).
    cbn. apply select_fold; [done|done|apply Hw|done].
  - intros Hne. by apply window_view.
Qed.

Lemma select_view_total_witness :
  ∃ selected consumers,
    select_layer_fields (CacheMemoryPlan.fields example_plan) 0 2 = Ok (selected, consumers) ∧
    ∃ L, layout_from_lcm_plan example_plan 7%nat consumers None (Some selected) = Ok L.
Proof.
  destruct (select_view_total example_plan 7%nat 0 2 example_plan_wf example_plan_layers
    example_plan_groups ltac:(lia) ltac:(lia)) as (selected & consumers & H & Hs & _ & HL).
  exists selected, consumers. split; [exact H|]. apply HL. rewrite Hs. vm_compute. discriminate.
Defined.

(** Merging keeps every row.  A successful merge of two constructed views
    is a valid layout over the same arena whose rows are exactly the rows of the
    two views, each in its group, with the target's consumers first. *)
Theorem combine_keeps_rows {B} `{EqDecision B} (T D L : CacheTransferLayout.t B) gids :
  CacheTransferLayout.post_init T = Ok T → CacheTransferLayout.post_init D = Ok D →
  combine_cache_transfer_layouts T (Some D) gids = Ok L →
  CacheTransferLayout.post_init L = Ok L ∧
  CacheTransferLayout.buffers L = CacheTransferLayout.buffers T ∧
  CacheTransferLayout.buffers L = CacheTransferLayout.buffers D ∧
  (∀ l, l ∈ locations (CacheTransferLayout.groups L) ↔
    l ∈ locations (CacheTransferLayout.groups T) ∨ l ∈ locations (CacheTransferLayout.groups D)) ∧
  ∃ rest, CacheTransferLayout.consumers L = CacheTransferLayout.consumers T ++ rest.
Proof.
  intros [_ HT]%layout_post_init [_ HD]%layout_post_init H.
  destruct (combine_sound T D gids L HT HD H) as (Hok & Hrest).
  split; [by apply layout_post_init|done].
Qed.

(** Rows and one-group views of one arena. *)
Definition example_row (field_id : string) (offset : Z) : CacheField.t :=
  {| CacheField.field_id := field_id; CacheField.device_buffer_index := 0;
     CacheField.device_block_zero_offset_bytes := offset; CacheField.block_stride_bytes := 32;
     CacheField.payload_bytes := 16 |}.
Definition example_view (gid : string) (rows : list CacheField.t) : CacheTransferLayout.t nat :=
  {| CacheTransferLayout.num_lcm_blocks := 4;
     CacheTransferLayout.groups := [ {| TransferGroupLayout.group_id := gid;
       TransferGroupLayout.cache_blocks_per_lcm_block := 2; TransferGroupLayout.fields := rows |} ];
     CacheTransferLayout.buffers := [7%nat];
     CacheTransferLayout.consumers := [CacheField.field_id <$> rows] |}.

Lemma combine_keeps_rows_witness :
  ∃ L, combine_cache_transfer_layouts
      (example_view "a" [example_row "x" 0; example_row "y" 16])
      (Some (example_view "a" [example_row "y" 16])) None = Ok L ∧
    CacheTransferLayout.post_init L = Ok L.
Proof.
  eexists. split; [vm_compute; reflexivity|].
  refine (proj1 (combine_keeps_rows (example_view "a" [example_row "x" 0; example_row "y" 16])
    (example_view "a" [example_row "y" 16]) _ None _ _ _)); vm_compute; reflexivity.
Defined.

(** Target and draft views of one plan merge into the view of both.  For
    adjacent layer windows that each hold a field, both views exist, their merge
    succeeds, and its rows are those of the plan's view over the joined window. *)
Theorem adjacent_views_merge {B} `{EqDecision B} P (buffer : B) a n m :
  plan_wf P → Forall (λ f, 0 ≤ layer_of f) (CacheMemoryPlan.fields P) →
  Forall (λ g, CacheGroupLayout.group_id g ≠ "") (CacheMemoryPlan.groups P) →
  0 ≤ a → 0 ≤ n → 0 ≤ m →
  window_ids (CacheMemoryPlan.fields P) a (a + n) ≠ [] →
  window_ids (CacheMemoryPlan.fields P) (a + n) (a + n + m) ≠ [] →
  let view a n := layout_from_lcm_plan P buffer
    (fields_of_layer (CacheMemoryPlan.fields P) <$> seqZ a n) None
    (Some (window_ids (CacheMemoryPlan.fields P) a (a + n))) in
  ∃ T D L J, view a n = Ok T ∧ view (a + n) m = Ok D ∧ view a (n + m) = Ok J ∧
    combine_cache_transfer_layouts T (Some D) None = Ok L ∧
    ∀ l, l ∈ locations (CacheTransferLayout.groups L) ↔ l ∈ locations (CacheTransferLayout.groups J).
Proof.
  intros Hw Hpos Hgids Ha Hn Hm Hne1 Hne2 view.
  destruct (window_view P buffer a n Hw Hpos Hgids Hne1) as [T HT].
  destruct (window_view P buffer (a + n) m Hw Hpos Hgids Hne2) as [D HD].
  assert (∀ x, x ∈ window_ids (CacheMemoryPlan.fields P) a (a + (n + m)) ↔
    x ∈ window_ids (CacheMemoryPlan.fields P) a (a + n) ∨
    x ∈ window_ids (CacheMemoryPlan.fields P) (a + n) (a + n + m)) as Hsplit
    by (intros x; rewrite Z.add_assoc; apply window_ids_split; lia).
  destruct (window_view P buffer a (n + m) Hw Hpos Hgids) as [J HJ].
  { destruct (window_ids (CacheMemoryPlan.fields P) a (a + n)) as [|x l]; [done|].
    apply (elem_of_ne_nil x), Hsplit. left. by left. }
  pose proof (layout_from_lcm_plan_view _ _ _ _ _ _ Hw HT) as VT.
  pose proof (layout_from_lcm_plan_view _ _ _ _ _ _ Hw HD) as VD.
  pose proof (layout_from_lcm_plan_view _ _ _ _ _ _ Hw HJ) as VJ.
  destruct (combine_total buffer T D) as [L HL].
  { eapply views_mergeable; [done..|]. intros x. cbn. by apply window_ids_disjoint. }
  exists T, D, L, J. split_and!; [done..|]. intros [gid row].
  destruct (combine_sound T D None L (vo_ok _ _ _ _ _ VT) (vo_ok _ _ _ _ _ VD) HL) as (_ & _ & _ & Hl & _).
  rewrite Hl, (view_locations _ _ _ _ _ _ _ Hw VT), (view_locations _ _ _ _ _ _ _ Hw VD),
    (view_locations _ _ _ _ _ _ _ Hw VJ). cbn [selected_ids default]. setoid_rewrite Hsplit. naive_solver.
Qed.

Lemma adjacent_views_merge_witness :
  window_ids (CacheMemoryPlan.fields example_plan) 0 1 = ["layer.0.k"; "layer.0.s"; "layer.0.t"] ∧
  window_ids (CacheMemoryPlan.fields example_plan) 1 2 = ["layer.1.k"] ∧
  ∃ T D L, layout_from_lcm_plan example_plan 7%nat [["layer.0.k"; "layer.0.s"; "layer.0.t"]] None
      (Some ["layer.0.k"; "layer.0.s"; "layer.0.t"]) = Ok T ∧
    layout_from_lcm_plan example_plan 7%nat [["layer.1.k"]] None (Some ["layer.1.k"]) = Ok D ∧
    combine_cache_transfer_layouts T (Some D) None = Ok L.
Proof.
  split; [vm_compute; reflexivity|]. split; [vm_compute; reflexivity|].
  destruct (adjacent_views_merge example_plan 7%nat 0 1 1 example_plan_wf example_plan_layers
    example_plan_groups) as (T & D & L & J & HT & HD & _ & HL & _);
    [lia|lia|lia|vm_compute; discriminate|vm_compute; discriminate|].
  exists T, D, L. split; [exact HT|]. split; [exact HD|exact HL].
Defined.
