(* ===== verification/OwnerTranslation.v ===== *)
(** * Owner translation of a host copy: [cache/transfer/ownership.py]

    A copy between the device arena and a host pool names scheduler blocks at
    both ends.  The translation keeps the rows this rank owns, in local page
    identifiers, and rejects a row whose ends have different owners.

    The parallel lists a source loop fills ([positions], [device_ids],
    [host_ids]) are one list of tuples per group. *)

From S2P Require Import Prelude PyDict CacheSpec VirtualBlocks TransferLayout.

Local Open Scope Z_scope.

(** The bucketing loop both methods open with: the group check, the null-block
    check and the appends. *)
Definition bucket_step {A} (num_groups : Z) (null : A → bool) (buckets : list (list (Z * A)))
    (item : Z * (Z * A)) : result (list (list (Z * A))) :=
  let '(position, (group, blocks)) := item in
  raise_when (negb ((0 <=? group) && (group <? num_groups)))
    (IndexError "cache transfer names unknown group");;
  raise_when (null blocks) (ValueError "a cache transfer cannot name the null block 0");;
  Ok (alter (λ bucket, bucket ++ [(position, blocks)]) (Z.to_nat group) buckets).

Definition bucket_rows {A} (num_groups : Z) (null : A → bool) (rows : list (Z * A)) :
    result (list (list (Z * A))) :=
  foldM (bucket_step num_groups null) (replicate (Z.to_nat num_groups) []) (enumerate rows).

Module BlockOwnerTranslation.

Record t := {
  shard_counts : list Z;
  device_virtual_counts : list Z;
  host_virtual_counts : list Z;
  rank : Z;
}.

Definition init (shard_counts device_virtual_counts host_virtual_counts : list Z) (rank : Z) :
    result t :=
  raise_when (negb ((length shard_counts =? length device_virtual_counts)%nat &&
                    (length device_virtual_counts =? length host_virtual_counts)%nat))
    (ValueError "owner translation tables must cover the same groups");;
  Ok {| shard_counts := shard_counts; device_virtual_counts := device_virtual_counts;
        host_virtual_counts := host_virtual_counts; rank := rank |}.

Definition for_host_pool {B} (layout : CacheTransferLayout.t B) (contract : CacheRuntimeContract.t)
    (num_host_lcm_blocks rank : Z) : result t :=
  let shard_by_id := VirtualBlocks.shard_counts contract in
  device_counts ← CacheRuntimeContract.virtual_block_counts contract;
  let groups := CacheTransferLayout.groups layout in
  shards ← mapM (λ g, lookup_or (KeyError "group_id")
    (dict_get shard_by_id (TransferGroupLayout.group_id g))) groups;
  devices ← mapM (λ g, lookup_or (KeyError "group_id")
    (dict_get device_counts (TransferGroupLayout.group_id g))) groups;
  init shards devices
    (zip_with (λ g shard,
       1 + num_host_lcm_blocks * TransferGroupLayout.cache_blocks_per_lcm_block g * shard)
       groups shards) rank.

Definition num_groups (self : t) : Z := Z.of_nat (length (shard_counts self)).

(** One pass of the second loop of [owned_positions]. *)
Definition owned_group (self : t) (buckets : list (list (Z * (Z * Z)))) (item : Z * Z) :
    result (list (Z * (Z * Z * Z))) :=
  let '(group, shard) := item in
  let index := Z.to_nat group in
  bucket ← lookup_or (IndexError "list index out of range") (buckets !! index);
  match bucket with
  | [] => Ok []
  | _ =>
      device_count ← lookup_or (IndexError "tuple index out of range")
        (device_virtual_counts self !! index);
      device ← owned_local_pages bucket.*2.*1 shard (rank self) device_count;
      host_count ← lookup_or (IndexError "tuple index out of range")
        (host_virtual_counts self !! index);
      host ← owned_local_pages bucket.*2.*2 shard (rank self) host_count;
      raise_when (negb (bool_decide (device.1 = host.1)))
        (ValueError "cache transfer pairs blocks owned by different ranks");;
      let owned_positions := select device.1 bucket.*1 in
      Ok (zip_with (λ position local, (position, (group, local.1, local.2)))
            owned_positions (zip device.2 host.2))
  end.

Definition owned_positions (self : t) (rows : list (Z * Z * Z)) :
    result (list (Z * (Z * Z * Z))) :=
  buckets ← bucket_rows (num_groups self) (λ b : Z * Z, (b.1 <=? 0) || (b.2 <=? 0))
    ((λ row : Z * Z * Z, (row.1.1, (row.1.2, row.2))) <$> rows);
  owned ← mapM (owned_group self buckets) (enumerate (shard_counts self));
  Ok (concat owned).

(** One pass of the second loop of [owned_host_positions]. *)
Definition owned_host_group (self : t) (buckets : list (list (Z * Z))) (item : Z * Z) :
    result (list (Z * (Z * Z))) :=
  let '(group, shard) := item in
  let index := Z.to_nat group in
  bucket ← lookup_or (IndexError "list index out of range") (buckets !! index);
  match bucket with
  | [] => Ok []
  | _ =>
      host_count ← lookup_or (IndexError "tuple index out of range")
        (host_virtual_counts self !! index);
      host ← owned_local_pages bucket.*2 shard (rank self) host_count;
      let owned_positions := select host.1 bucket.*1 in
      Ok (zip_with (λ position local, (position, (group, local))) owned_positions host.2)
  end.

Definition owned_host_positions (self : t) (rows : list (Z * Z)) : result (list (Z * (Z * Z))) :=
  buckets ← bucket_rows (num_groups self) (λ host_block, host_block <=? 0) rows;
  owned ← mapM (owned_host_group self buckets) (enumerate (shard_counts self));
  Ok (py_sorted (λ a b : Z * (Z * Z), a.1 <=? b.1) (concat owned)).

End BlockOwnerTranslation.

(** ** Buckets *)

(** The rows of one group, in input order, with their positions. *)
Definition bucket_of {A} (items : list (Z * (Z * A))) (g : Z) : list (Z * A) :=
  (λ it : Z * (Z * A), (it.1, it.2.2)) <$> filter (λ it : Z * (Z * A), it.2.1 = g) items.

Lemma bucket_step_Ok {A} n (null : A → bool) buckets it b :
  bucket_step n null buckets it = Ok b ↔
  (0 ≤ it.2.1 < n ∧ null it.2.2 = false) ∧
  b = alter (λ bucket, bucket ++ [(it.1, it.2.2)]) (Z.to_nat it.2.1) buckets.
Proof.
  destruct it as [p [g x]]. cbn. destruct ((0 <=? g) && (g <? n)) eqn:E; cbn.
  - destruct (null x); cbn; split.
    + done.
    + by intros [[_ ?] _].
    + intros [= <-]. split; [|done]. split; [lia|done].
    + by intros [_ ->].
  - split; [done|]. lia.
Qed.

Lemma bucket_fold {A} n (null : A → bool) items buckets :
  foldM (bucket_step n null) (replicate (Z.to_nat n) []) items = Ok buckets ↔
  Forall (λ it, 0 ≤ it.2.1 < n ∧ null it.2.2 = false) items ∧
  buckets = bucket_of items <$> seqZ 0 n.
Proof.
  revert buckets. induction items as [|it items IH] using rev_ind; intros buckets.
  { cbn [foldM]. rewrite (replicate_seqZ _ 0). split.
    - intros [= <-]. split; [constructor|done].
    - by intros [_ ->]. }
  assert (∀ g, bucket_of (items ++ [it]) g = bucket_of items g ++
    if decide (g = it.2.1) then [(it.1, it.2.2)] else []) as Hext.
  { intros g. unfold bucket_of. rewrite filter_app, fmap_app, filter_cons.
    repeat case_decide; subst; done. }
  assert (0 ≤ it.2.1 < n → alter (λ bucket, bucket ++ [(it.1, it.2.2)]) (Z.to_nat it.2.1)
    (bucket_of items <$> seqZ 0 n) = bucket_of (items ++ [it]) <$> seqZ 0 n) as Halt.
  { intros Hg. replace (Z.to_nat it.2.1) with (Z.to_nat (it.2.1 - 0)) by (f_equal; lia).
    rewrite alter_fmap_seqZ by lia. apply list_fmap_ext. intros i j _. rewrite Hext.
    case_decide; [done|]. by rewrite app_nil_r. }
  rewrite foldM_app, bind_Ok, Forall_app, Forall_singleton. cbn [foldM]. split.
  - intros (b & [Hf ->]%IH & H). apply bind_Ok in H as (b' & [Hs ->]%bucket_step_Ok & [= <-]).
    split; [done|]. apply Halt, Hs.
  - intros [[Hf Hs] ->]. exists (bucket_of items <$> seqZ 0 n). split; [by apply IH|].
    apply bind_Ok. eexists. split; [by apply bucket_step_Ok|]. rewrite Halt by apply Hs. done.
Qed.

Lemma elem_of_bucket {A} (rows : list (Z * A)) g p x :
  (p, x) ∈ bucket_of (enumerate rows) g ↔ 0 ≤ p ∧ rows !! Z.to_nat p = Some (g, x).
Proof.
  unfold bucket_of. rewrite list_elem_of_fmap. split.
  - intros ([p' [g' x']] & [= -> ->] & [Hg Hin]%list_elem_of_filter). cbn in Hg. subst g'.
    by apply elem_of_enumerate in Hin.
  - intros H. exists (p, (g, x)). split; [done|]. apply list_elem_of_filter.
    split; [done|]. by apply elem_of_enumerate.
Qed.

(** ** Translated pages *)

Lemma owned_local_pages_iff blocks d rank n r :
  valid_rank d rank → n ≤ 2 ^ 63 →
  owned_local_pages blocks d rank n = Ok r ↔
  Forall (λ v, 0 ≤ v < n) blocks ∧
  r = (owns d rank <$> blocks, block_local d <$> filter (λ v, owns d rank v = true) blocks).
Proof.
  intros Hr Hn. split.
  - intros H. assert (Forall (λ v, 0 ≤ v < n) blocks) as Hb.
    { unfold owned_local_pages in H. apply bind_Ok in H as (? & _ & H).
      apply bind_Ok in H as ([] & _ & H). apply bind_Ok in H as (blocks' & Hb & H).
      apply bind_Ok in H as ([] & Hx & _). apply raise_when_Ok, existsb_false_Forall in Hx.
      assert (blocks' = blocks) as -> by (unfold as_int64 in Hb; by inv_ok).
      eapply Forall_impl; [exact Hx|]. intros v Hv. cbn in Hv. lia. }
    split; [done|]. rewrite (owned_local_pages_Ok _ _ _ _ Hr Hn Hb) in H. by injection H.
  - intros [Hb ->]. by apply owned_local_pages_Ok.
Qed.

Lemma select_bucket {A} (f : A → bool) (bucket : list (Z * A)) :
  select (f <$> bucket.*2) bucket.*1 = (filter (λ e, f e.2 = true) bucket).*1.
Proof.
  unfold select. induction bucket as [|[p x] bucket IH]; [done|]. rewrite !fmap_cons. cbn [zip_with fst snd].
  rewrite !filter_cons. cbn [fst snd]. case_decide; [|done]. by rewrite !fmap_cons, IH.
Qed.

(** ** Translations *)

(** Tables a rank can use: one entry per group, the rank a member of every
    group's owners, the bounds within [int64]. *)
Record translation_ok (self : BlockOwnerTranslation.t) : Prop := {
  to_device : length (BlockOwnerTranslation.device_virtual_counts self) =
    length (BlockOwnerTranslation.shard_counts self);
  to_host : length (BlockOwnerTranslation.host_virtual_counts self) =
    length (BlockOwnerTranslation.shard_counts self);
  to_rank : Forall (λ d, valid_rank d (BlockOwnerTranslation.rank self))
    (BlockOwnerTranslation.shard_counts self);
  to_device_bound : Forall (λ n, n ≤ 2 ^ 63) (BlockOwnerTranslation.device_virtual_counts self);
  to_host_bound : Forall (λ n, n ≤ 2 ^ 63) (BlockOwnerTranslation.host_virtual_counts self);
}.

(** The table entries of a group. *)
Definition group_tables (self : BlockOwnerTranslation.t) (g shard dev host : Z) : Prop :=
  0 ≤ g ∧ BlockOwnerTranslation.shard_counts self !! Z.to_nat g = Some shard ∧
  BlockOwnerTranslation.device_virtual_counts self !! Z.to_nat g = Some dev ∧
  BlockOwnerTranslation.host_virtual_counts self !! Z.to_nat g = Some host.

Lemma group_tables_total self g shard :
  translation_ok self → 0 ≤ g →
  BlockOwnerTranslation.shard_counts self !! Z.to_nat g = Some shard →
  ∃ dev host, group_tables self g shard dev host ∧
    valid_rank shard (BlockOwnerTranslation.rank self) ∧ dev ≤ 2 ^ 63 ∧ host ≤ 2 ^ 63.
Proof.
  intros [Hd Hh Hr Hdb Hhb] Hg Hs. pose proof (lookup_lt_Some _ _ _ Hs) as Hlt.
  destruct (lookup_lt_is_Some_2 (BlockOwnerTranslation.device_virtual_counts self) (Z.to_nat g))
    as [dev Hdev]; [lia|].
  destruct (lookup_lt_is_Some_2 (BlockOwnerTranslation.host_virtual_counts self) (Z.to_nat g))
    as [host Hhost]; [lia|].
  exists dev, host. rewrite Forall_lookup in Hr, Hdb, Hhb. split_and!; try done; eauto.
Qed.

(** One pass over a group: in range and agreeing, or rejected. *)
Definition entry_good (shard rank dev host : Z) (e : Z * (Z * Z)) : Prop :=
  0 ≤ e.2.1 < dev ∧ 0 ≤ e.2.2 < host ∧ owns shard rank e.2.1 = owns shard rank e.2.2.

Definition translate_entry (g shard : Z) (e : Z * (Z * Z)) : Z * (Z * Z * Z) :=
  (e.1, (g, block_local shard e.2.1, block_local shard e.2.2)).

Lemma zip_translated g shard rank (bucket : list (Z * (Z * Z))) :
  owns shard rank <$> bucket.*2.*1 = owns shard rank <$> bucket.*2.*2 →
  zip_with (λ position local, (position, (g, local.1, local.2)))
    (select (owns shard rank <$> bucket.*2.*1) bucket.*1)
    (zip (block_local shard <$> filter (λ v, owns shard rank v = true) bucket.*2.*1)
         (block_local shard <$> filter (λ v, owns shard rank v = true) bucket.*2.*2)) =
  translate_entry g shard <$> filter (λ e : Z * (Z * Z), owns shard rank e.2.1 = true) bucket.
Proof.
  unfold select. induction bucket as [|[p [d h]] bucket IH]; [done|].
  rewrite !fmap_cons. cbn [fst snd]. rewrite ?fmap_cons. cbn [zip_with]. rewrite !filter_cons.
  cbn [fst snd]. intros [= Hdh Hrest]. rewrite <-Hdh. case_decide; [|by apply IH].
  rewrite !fmap_cons. cbn [zip_with fst snd]. f_equal. by apply IH.
Qed.

Lemma owned_group_Ok self buckets g shard dev host bucket out :
  group_tables self g shard dev host → valid_rank shard (BlockOwnerTranslation.rank self) →
  dev ≤ 2 ^ 63 → host ≤ 2 ^ 63 → buckets !! Z.to_nat g = Some bucket →
  BlockOwnerTranslation.owned_group self buckets (g, shard) = Ok out ↔
  Forall (entry_good shard (BlockOwnerTranslation.rank self) dev host) bucket ∧
  out = translate_entry g shard <$> filter (λ e : Z * (Z * Z),
    owns shard (BlockOwnerTranslation.rank self) e.2.1 = true) bucket.
Proof.
  intros (Hg & Hs & Hd & Hh) Hr Hdb Hhb Hb. unfold BlockOwnerTranslation.owned_group.
  rewrite Hb. cbn [lookup_or mbind result_bind].
  destruct bucket as [|e0 bucket'] eqn:Eb.
  { split; [intros [= <-]; split; [constructor|done]|by intros [_ ->]]. }
  rewrite <-Eb. rewrite Hd, Hh. cbn [lookup_or mbind result_bind].
  split.
  - intros H. apply bind_Ok in H as (dv & Hdv & H). apply owned_local_pages_iff in Hdv as [Hdv ->]; [|done..].
    apply bind_Ok in H as (hv & Hhv & H). apply owned_local_pages_iff in Hhv as [Hhv ->]; [|done..].
    apply bind_Ok in H as ([] & Hm & [= <-]). cbn [fst snd] in *.
    apply raise_when_Ok, negb_false_iff, bool_decide_eq_true in Hm.
    split; [|by apply zip_translated]. clear -Hdv Hhv Hm.
    induction bucket as [|[p [d h]] bucket IH]; [constructor|].
    rewrite ?fmap_cons in *. cbn [fst snd] in *. injection Hm as H1 H2.
    apply Forall_cons in Hdv as [? ?], Hhv as [? ?]. constructor; [unfold entry_good; cbn in *; split_and!; (lia || done)|]. by apply IH.
  - intros [Hgood ->].
    rewrite (owned_local_pages_Ok bucket.*2.*1 shard _ dev Hr Hdb).
    2:{ apply Forall_fmap, Forall_fmap. eapply Forall_impl; [exact Hgood|]. by intros e (? & _). }
    cbn [mbind result_bind]. rewrite (owned_local_pages_Ok bucket.*2.*2 shard _ host Hr Hhb).
    2:{ apply Forall_fmap, Forall_fmap. eapply Forall_impl; [exact Hgood|]. by intros e (_ & ? & _). }
    assert (owns shard (BlockOwnerTranslation.rank self) <$> bucket.*2.*1 =
            owns shard (BlockOwnerTranslation.rank self) <$> bucket.*2.*2) as Hm.
    { rewrite <-!list_fmap_compose. apply list_fmap_ext. intros i e He.
      rewrite Forall_lookup in Hgood. by destruct (Hgood i e He) as (_ & _ & ?). }
    cbn [mbind result_bind fst snd]. rewrite bool_decide_true by done. cbn [negb raise_when mbind result_bind].
    by rewrite zip_translated.
Qed.

(** A row the translation of this rank accepts: a known group, both blocks in
    range and not null, and the rank owns both or neither. *)
Definition row_good (self : BlockOwnerTranslation.t) (row : Z * Z * Z) : Prop :=
  ∃ shard dev host, group_tables self row.1.1 shard dev host ∧
    0 < row.1.2 < dev ∧ 0 < row.2 < host ∧
    owns shard (BlockOwnerTranslation.rank self) row.1.2 =
    owns shard (BlockOwnerTranslation.rank self) row.2.

(** What one row contributes: its translation, when this rank owns it. *)
Definition row_output (self : BlockOwnerTranslation.t) (it : Z * (Z * (Z * Z))) :
    option (Z * (Z * Z * Z)) :=
  match BlockOwnerTranslation.shard_counts self !! Z.to_nat it.2.1 with
  | Some shard =>
      if owns shard (BlockOwnerTranslation.rank self) it.2.2.1
      then Some (translate_entry it.2.1 shard (it.1, it.2.2)) else None
  | None => None
  end.

(** The rows of a group, with positions. *)
Definition row_items (rows : list (Z * Z * Z)) : list (Z * (Z * (Z * Z))) :=
  enumerate ((λ row : Z * Z * Z, (row.1.1, (row.1.2, row.2))) <$> rows).

Lemma elem_of_row_bucket rows g p d h :
  (p, (d, h)) ∈ bucket_of (row_items rows) g ↔ 0 ≤ p ∧ rows !! Z.to_nat p = Some (g, d, h).
Proof.
  unfold row_items. rewrite elem_of_bucket, list_lookup_fmap.
  destruct (rows !! Z.to_nat p) as [[[g' d'] h']|]; cbn; naive_solver.
Qed.

Lemma bucket_lookup {A} (items : list (Z * (Z * A))) (n : nat) g :
  0 ≤ g → (Z.to_nat g < n)%nat →
  (bucket_of items <$> seqZ 0 (Z.of_nat n)) !! Z.to_nat g = Some (bucket_of items g).
Proof.
  intros Hg Hn. rewrite list_lookup_fmap, lookup_seqZ_lt by lia. cbn. do 2 f_equal. lia.
Qed.

Definition group_output (self : BlockOwnerTranslation.t) (rows : list (Z * Z * Z)) (item : Z * Z) :
    list (Z * (Z * Z * Z)) :=
  translate_entry item.1 item.2 <$> filter (λ e : Z * (Z * Z),
    owns item.2 (BlockOwnerTranslation.rank self) e.2.1 = true) (bucket_of (row_items rows) item.1).

(** The pass of one group over the filled buckets. *)
Lemma owned_group_row_buckets self rows g shard out :
  translation_ok self → (g, shard) ∈ enumerate (BlockOwnerTranslation.shard_counts self) →
  BlockOwnerTranslation.owned_group self
    (bucket_of (row_items rows) <$> seqZ 0 (BlockOwnerTranslation.num_groups self)) (g, shard) = Ok out ↔
  (∃ dev host, group_tables self g shard dev host ∧
    Forall (entry_good shard (BlockOwnerTranslation.rank self) dev host)
      (bucket_of (row_items rows) g)) ∧
  out = group_output self rows (g, shard).
Proof.
  intros Hok [Hg Hs]%elem_of_enumerate.
  destruct (group_tables_total self g shard Hok Hg Hs) as (dev & host & Ht & Hr & Hd & Hh).
  rewrite (owned_group_Ok self _ g shard dev host (bucket_of (row_items rows) g)) by
    (done || (apply bucket_lookup; [done|by eapply lookup_lt_Some])).
  split.
  - intros [Hgood ->]. split; [by exists dev, host|done].
  - intros [(dev' & host' & (_ & _ & Hd' & Hh') & Hgood) ->]. split; [|done].
    destruct Ht as (_ & _ & Hd'' & Hh''). by simplify_eq.
Qed.

(** Accepted rows pass the loops of [owned_positions]. *)
Lemma row_items_good self rows :
  translation_ok self → Forall (row_good self) rows →
  Forall (λ it : Z * (Z * (Z * Z)), 0 ≤ it.2.1 < BlockOwnerTranslation.num_groups self ∧
    (it.2.2.1 <=? 0) || (it.2.2.2 <=? 0) = false) (row_items rows).
Proof.
  intros Hok Hgood. apply Forall_forall. intros [p [g [d h]]] [Hp Hi]%elem_of_enumerate.
  rewrite list_lookup_fmap in Hi. destruct (rows !! Z.to_nat p) as [row|] eqn:E; [|done].
  injection Hi as <- <- <-. rewrite Forall_lookup in Hgood.
  destruct (Hgood _ _ E) as (shard & dev & host & (Hg & Hs & _) & Hd & Hh & _). cbn.
  apply lookup_lt_Some in Hs. unfold BlockOwnerTranslation.num_groups. split; lia.
Qed.

Lemma bucket_good self rows g shard :
  translation_ok self → Forall (row_good self) rows →
  (g, shard) ∈ enumerate (BlockOwnerTranslation.shard_counts self) →
  ∃ dev host, group_tables self g shard dev host ∧
    Forall (entry_good shard (BlockOwnerTranslation.rank self) dev host)
      (bucket_of (row_items rows) g).
Proof.
  intros Hok Hgood [Hg Hs]%elem_of_enumerate.
  destruct (group_tables_total self g shard Hok Hg Hs) as (dev & host & Ht & _).
  exists dev, host. split; [done|]. apply Forall_forall. intros [p [d h]] [Hp Hr]%elem_of_row_bucket.
  rewrite Forall_lookup in Hgood.
  destruct (Hgood _ _ Hr) as (shard' & dev' & host' & (_ & Hs' & Hd' & Hh') & Hd & Hh & Ho).
  destruct Ht as (_ & _ & Hd'' & Hh''). cbn in *. simplify_eq. unfold entry_good. cbn.
  split_and!; (lia || done).
Qed.

Lemma rows_good_back self rows :
  Forall (λ it : Z * (Z * (Z * Z)), 0 ≤ it.2.1 < BlockOwnerTranslation.num_groups self ∧
    (it.2.2.1 <=? 0) || (it.2.2.2 <=? 0) = false) (row_items rows) →
  Forall (λ it : Z * Z, ∃ dev host, group_tables self it.1 it.2 dev host ∧
    Forall (entry_good it.2 (BlockOwnerTranslation.rank self) dev host)
      (bucket_of (row_items rows) it.1)) (enumerate (BlockOwnerTranslation.shard_counts self)) →
  Forall (row_good self) rows.
Proof.
  intros Hitems Hall. apply Forall_lookup. intros i [[g d] h] Hi. rewrite Forall_forall in Hitems. rewrite Forall_forall in Hall.
  assert ((Z.of_nat i, (g, (d, h))) ∈ row_items rows) as Hin.
  { apply elem_of_enumerate. rewrite Nat2Z.id, list_lookup_fmap, Hi. split; [lia|done]. }
  specialize (Hitems _ Hin) as [Hg Hnull]. cbn in Hg, Hnull.
  destruct (lookup_lt_is_Some_2 (BlockOwnerTranslation.shard_counts self) (Z.to_nat g))
    as [shard Hs]; [unfold BlockOwnerTranslation.num_groups in Hg; lia|].
  destruct (Hall (g, shard)) as (dev & host & Ht & Hgood); [apply elem_of_enumerate; split; [lia|done]|].
  rewrite Forall_forall in Hgood. destruct (Hgood (Z.of_nat i, (d, h))) as (Hd & Hh & Ho).
  { apply elem_of_row_bucket. rewrite Nat2Z.id. split; [lia|done]. }
  cbn in Hd, Hh, Ho. exists shard, dev, host. cbn. split_and!; (done || lia).
Qed.

Lemma owned_positions_Ok self rows out :
  translation_ok self →
  BlockOwnerTranslation.owned_positions self rows = Ok out ↔
  Forall (row_good self) rows ∧
  out = concat (group_output self rows <$> enumerate (BlockOwnerTranslation.shard_counts self)).
Proof.
  intros Hok. unfold BlockOwnerTranslation.owned_positions, bucket_rows. fold (row_items rows).
  rewrite bind_Ok. setoid_rewrite bucket_fold.
  assert (∀ owned, mapM (BlockOwnerTranslation.owned_group self (bucket_of (row_items rows) <$>
      seqZ 0 (BlockOwnerTranslation.num_groups self)))
      (enumerate (BlockOwnerTranslation.shard_counts self)) = Ok owned ↔
    Forall (λ it : Z * Z, ∃ dev host, group_tables self it.1 it.2 dev host ∧
      Forall (entry_good it.2 (BlockOwnerTranslation.rank self) dev host)
        (bucket_of (row_items rows) it.1)) (enumerate (BlockOwnerTranslation.shard_counts self)) ∧
    owned = group_output self rows <$> enumerate (BlockOwnerTranslation.shard_counts self)) as Hm.
  { intros owned. apply mapM_iff. intros [g shard] o Hin. by apply owned_group_row_buckets. }
  split.
  - intros (buckets & [Hitems ->] & H). apply bind_Ok in H as (owned & [Hall ->]%Hm & [= <-]).
    split; [|done]. by apply rows_good_back.
  - intros [Hgood ->]. eexists. split; [split; [by apply row_items_good|reflexivity]|].
    apply bind_Ok. eexists. split; [|reflexivity]. apply Hm. split; [|done].
    apply Forall_forall. intros [g shard] Hin. by apply bucket_good.
Qed.

(** ** Order *)

(** Passes by group visit every row once. *)
Lemma passes_perm {A O} (items : list (Z * (Z * A))) (out : Z * (Z * A) → option O)
    (pass : Z * Z → list O) (shards : list Z) :
  (∀ g shard, (g, shard) ∈ enumerate shards →
    pass (g, shard) = omap out (filter (λ it : Z * (Z * A), it.2.1 = g) items)) →
  Forall (λ it, 0 ≤ it.2.1 < Z.of_nat (length shards)) items →
  concat (pass <$> enumerate shards) ≡ₚ omap out items.
Proof.
  intros Hpass Hitems.
  rewrite <-(classes_perm (λ it : Z * (Z * A), it.2.1) _ items Hitems) at 1. unfold classes.
  assert (seqZ 0 (Z.of_nat (length shards)) = (enumerate shards).*1) as ->.
  { unfold enumerate. rewrite fst_zip; [done|]. rewrite length_seqZ. lia. }
  induction (enumerate shards) as [|[g shard] l IH]; [done|].
  rewrite !fmap_cons. cbn [concat]. rewrite omap_app, <-IH, Hpass; [done|by left|].
  intros. apply Hpass. by right.
Qed.

Lemma group_output_omap self rows g shard :
  (g, shard) ∈ enumerate (BlockOwnerTranslation.shard_counts self) →
  group_output self rows (g, shard) =
  omap (row_output self) (filter (λ it : Z * (Z * (Z * Z)), it.2.1 = g) (row_items rows)).
Proof.
  intros [_ Hs]%elem_of_enumerate. unfold group_output, bucket_of. cbn [fst snd].
  induction (row_items rows) as [|[p [g' [d h]]] items IH]; [done|].
  rewrite !filter_cons. cbn [fst snd]. case_decide as Hg; [|done]. cbn in Hg. subst g'.
  rewrite fmap_cons, filter_cons. cbn [fst snd omap list_omap]. unfold row_output at 1. cbn [fst snd].
  rewrite Hs. case_decide as Ho; cbn in Ho.
  - rewrite Ho, fmap_cons. f_equal. apply IH.
  - apply not_true_iff_false in Ho. rewrite Ho. apply IH.
Qed.

(** ** Host-only rows *)

Definition host_row_good (self : BlockOwnerTranslation.t) (row : Z * Z) : Prop :=
  ∃ shard dev host, group_tables self row.1 shard dev host ∧ 0 < row.2 < host.

Definition host_output (self : BlockOwnerTranslation.t) (it : Z * (Z * Z)) : option (Z * (Z * Z)) :=
  match BlockOwnerTranslation.shard_counts self !! Z.to_nat it.2.1 with
  | Some shard =>
      if owns shard (BlockOwnerTranslation.rank self) it.2.2
      then Some (it.1, (it.2.1, block_local shard it.2.2)) else None
  | None => None
  end.

Definition host_group_output (self : BlockOwnerTranslation.t) (rows : list (Z * Z)) (item : Z * Z) :
    list (Z * (Z * Z)) :=
  (λ e : Z * Z, (e.1, (item.1, block_local item.2 e.2))) <$> filter (λ e : Z * Z,
    owns item.2 (BlockOwnerTranslation.rank self) e.2 = true) (bucket_of (enumerate rows) item.1).

Lemma zip_host (g shard rank : Z) (bucket : list (Z * Z)) :
  zip_with (λ position local : Z, (position, (g, local)))
    (select (owns shard rank <$> bucket.*2) bucket.*1)
    (block_local shard <$> filter (λ v, owns shard rank v = true) bucket.*2) =
  (λ e : Z * Z, (e.1, (g, block_local shard e.2))) <$>
    filter (λ e : Z * Z, owns shard rank e.2 = true) bucket.
Proof.
  rewrite select_bucket. induction bucket as [|[p h] bucket IH]; [done|].
  rewrite !fmap_cons, !filter_cons. cbn [fst snd]. case_decide; [|done].
  rewrite !fmap_cons. cbn [zip_with fst snd]. by rewrite IH.
Qed.

Lemma owned_host_group_Ok self rows g shard out :
  translation_ok self → (g, shard) ∈ enumerate (BlockOwnerTranslation.shard_counts self) →
  BlockOwnerTranslation.owned_host_group self
    (bucket_of (enumerate rows) <$> seqZ 0 (BlockOwnerTranslation.num_groups self)) (g, shard) = Ok out ↔
  (∃ dev host, group_tables self g shard dev host ∧
    Forall (λ e : Z * Z, 0 ≤ e.2 < host) (bucket_of (enumerate rows) g)) ∧
  out = host_group_output self rows (g, shard).
Proof.
  intros Hok Hin. pose proof Hin as [Hg Hs]%elem_of_enumerate.
  destruct (group_tables_total self g shard Hok Hg Hs) as (dev & host & Ht & Hr & _ & Hh).
  pose proof Ht as (_ & _ & Hd' & Hh'). unfold BlockOwnerTranslation.owned_host_group.
  unfold BlockOwnerTranslation.num_groups. rewrite bucket_lookup by (done || by eapply lookup_lt_Some).
  cbn [lookup_or mbind result_bind]. unfold host_group_output. cbn [fst snd].
  generalize (bucket_of (enumerate rows) g). intros bucket. destruct bucket as [|e bucket'] eqn:Eb.
  { split; [intros [= <-]; split; [exists dev, host; by split; [|constructor]|done]|by intros [_ ->]]. }
  rewrite <-Eb. rewrite Hh'. cbn [lookup_or mbind result_bind]. split.
  - intros H. apply bind_Ok in H as (r & [Hf ->]%owned_local_pages_iff & H); [|done..].
    apply Ok_inj in H. cbn [fst snd] in H. rewrite zip_host in H. split; [|done]. exists dev, host. split; [done|].
    by apply (proj1 (Forall_fmap _ _ _)) in Hf.
  - intros [(dev' & host' & (_ & _ & _ & Hh'') & Hf) ->]. simplify_eq.
    rewrite owned_local_pages_Ok; [|done|done|by apply Forall_fmap].
    cbn [mbind result_bind fst snd]. by rewrite zip_host.
Qed.

Lemma host_group_output_omap self rows g shard :
  (g, shard) ∈ enumerate (BlockOwnerTranslation.shard_counts self) →
  host_group_output self rows (g, shard) =
  omap (host_output self) (filter (λ it : Z * (Z * Z), it.2.1 = g) (enumerate rows)).
Proof.
  intros [_ Hs]%elem_of_enumerate. unfold host_group_output, bucket_of. cbn [fst snd].
  induction (enumerate rows) as [|[p [g' h]] items IH]; [done|].
  rewrite !filter_cons. cbn [fst snd]. case_decide as Hg; [|done]. cbn in Hg. subst g'.
  rewrite fmap_cons, filter_cons. cbn [fst snd omap list_omap]. unfold host_output at 1. cbn [fst snd].
  rewrite Hs. case_decide as Ho; cbn in Ho.
  - rewrite Ho, fmap_cons. f_equal. apply IH.
  - apply not_true_iff_false in Ho. rewrite Ho. apply IH.
Qed.

Definition position_leb (a b : Z * (Z * Z)) : bool := a.1 <=? b.1.

#[export] Instance position_leb_total : TotalLeb position_leb.
Proof. split; unfold position_leb; lia. Qed.

(** Positions of the in-order output are increasing. *)
Lemma host_output_sorted self (rows : list (Z * Z)) :
  StronglySorted (λ a b, Is_true (position_leb a b)) (omap (host_output self) (enumerate rows)) ∧
  ∀ a b, a ∈ omap (host_output self) (enumerate rows) →
    b ∈ omap (host_output self) (enumerate rows) → a.1 = b.1 → a = b.
Proof.
  assert (∀ it o, host_output self it = Some o → o.1 = it.1) as Hpos.
  { intros it o. unfold host_output. repeat case_match; naive_solver. }
  split.
  - unfold enumerate. generalize 0 at 1. induction rows as [|row rows IH]; intros a; [by constructor|].
    cbn [length]. rewrite Nat2Z.inj_succ, <-Z.add_1_l.
    rewrite seqZ_cons by lia. replace (Z.pred (1 + _)) with (Z.of_nat (length rows)) by lia.
    cbn [zip_with omap list_omap]. destruct (host_output self (a, row)) as [o|] eqn:E; [|apply IH].
    constructor; [apply IH|]. apply Forall_forall. intros x Hx.
    apply list_elem_of_omap in Hx as ([p r] & Hin & Ho).
    apply Hpos in E, Ho. cbn in E, Ho. apply elem_of_zip_l, elem_of_seqZ in Hin.
    unfold position_leb. apply Is_true_true. lia.
  - intros x y Hx Hy Heq. apply list_elem_of_omap in Hx as ([p r] & Hin & Ho).
    apply list_elem_of_omap in Hy as ([p' r'] & Hin' & Ho').
    pose proof (Hpos _ _ Ho) as E. pose proof (Hpos _ _ Ho') as E'. cbn in E, E'.
    apply elem_of_enumerate in Hin as [_ Hin], Hin' as [_ Hin'].
    assert (p = p') as -> by congruence. rewrite Hin in Hin'. injection Hin' as ->. congruence.
Qed.

(** Sorting the passes by position gives the input order back. *)
Lemma host_sorted_output self (rows : list (Z * Z)) :
  Forall (λ it : Z * (Z * Z), 0 ≤ it.2.1 < BlockOwnerTranslation.num_groups self ∧
    (it.2.2 <=? 0) = false) (enumerate rows) →
  py_sorted (λ a b : Z * (Z * Z), a.1 <=? b.1)
    (concat (host_group_output self rows <$> enumerate (BlockOwnerTranslation.shard_counts self))) =
  omap (host_output self) (enumerate rows).
Proof.
  intros Hitems. destruct (host_output_sorted self rows) as [Hsorted Hinj].
  assert (py_sorted position_leb
    (concat (host_group_output self rows <$> enumerate (BlockOwnerTranslation.shard_counts self))) ≡ₚ
    omap (host_output self) (enumerate rows)) as Hperm.
  { rewrite py_sorted_perm. apply passes_perm; [by apply host_group_output_omap|].
    eapply Forall_impl; [exact Hitems|]. by intros it [? _]. }
  change (λ a b : Z * (Z * Z), a.1 <=? b.1) with position_leb.
  eapply (StronglySorted_unique_strong (λ a b, Is_true (position_leb a b))); [| |exact Hsorted|done].
  - intros a b Ha Hb Hab Hba. rewrite Hperm in Ha. apply Hinj; [done..|].
    apply Is_true_true in Hab, Hba. unfold position_leb in *. lia.
  - apply (py_sorted_sorted position_leb).
Qed.

Lemma host_rows_good_back self (rows : list (Z * Z)) :
  Forall (λ it : Z * (Z * Z), 0 ≤ it.2.1 < BlockOwnerTranslation.num_groups self ∧
    (it.2.2 <=? 0) = false) (enumerate rows) →
  Forall (λ it : Z * Z, ∃ dev host, group_tables self it.1 it.2 dev host ∧
    Forall (λ e : Z * Z, 0 ≤ e.2 < host) (bucket_of (enumerate rows) it.1))
    (enumerate (BlockOwnerTranslation.shard_counts self)) →
  Forall (host_row_good self) rows.
Proof.
  intros Hitems Hall. apply Forall_lookup. intros i [g h] Hi.
  rewrite Forall_forall in Hitems. rewrite Forall_forall in Hall.
  assert ((Z.of_nat i, (g, h)) ∈ enumerate rows) as Hin
    by (apply elem_of_enumerate; rewrite Nat2Z.id; split; [lia|done]).
  specialize (Hitems _ Hin) as [Hg Hnull]. cbn in Hg, Hnull.
  destruct (lookup_lt_is_Some_2 (BlockOwnerTranslation.shard_counts self) (Z.to_nat g))
    as [shard Hs]; [unfold BlockOwnerTranslation.num_groups in Hg; lia|].
  destruct (Hall (g, shard)) as (dev & host & Ht & Hgood); [apply elem_of_enumerate; split; [lia|done]|].
  rewrite Forall_forall in Hgood. specialize (Hgood (Z.of_nat i, h)). cbn in Hgood.
  exists shard, dev, host. split; [done|]. cbn. split; [lia|]. apply Hgood, elem_of_bucket.
  rewrite Nat2Z.id. split; [lia|done].
Qed.

Lemma host_rows_pass self (rows : list (Z * Z)) :
  translation_ok self → Forall (host_row_good self) rows →
  Forall (λ it : Z * (Z * Z), 0 ≤ it.2.1 < BlockOwnerTranslation.num_groups self ∧
    (it.2.2 <=? 0) = false) (enumerate rows) ∧
  Forall (λ it : Z * Z, ∃ dev host, group_tables self it.1 it.2 dev host ∧
    Forall (λ e : Z * Z, 0 ≤ e.2 < host) (bucket_of (enumerate rows) it.1))
    (enumerate (BlockOwnerTranslation.shard_counts self)).
Proof.
  intros Hok Hgood. rewrite Forall_lookup in Hgood. split; apply Forall_forall.
  - intros [p [g h]] [Hp Hi]%elem_of_enumerate.
    destruct (Hgood _ _ Hi) as (shard & dev & host & (Hg & Hs & _) & Hh). cbn in *.
    apply lookup_lt_Some in Hs. unfold BlockOwnerTranslation.num_groups. split; lia.
  - intros [g shard] [Hg Hs]%elem_of_enumerate.
    destruct (group_tables_total self g shard Hok Hg Hs) as (dev & host & Ht & _).
    exists dev, host. split; [done|]. apply Forall_forall. intros [p h] [Hp Hi]%elem_of_bucket.
    destruct (Hgood _ _ Hi) as (shard' & dev' & host' & (_ & _ & _ & Hh') & Hh).
    destruct Ht as (_ & _ & _ & Hh''). cbn in *. simplify_eq. lia.
Qed.

Lemma owned_host_positions_Ok self rows out :
  translation_ok self →
  BlockOwnerTranslation.owned_host_positions self rows = Ok out ↔
  Forall (host_row_good self) rows ∧ out = omap (host_output self) (enumerate rows).
Proof.
  intros Hok. unfold BlockOwnerTranslation.owned_host_positions, bucket_rows.
  rewrite bind_Ok. setoid_rewrite bucket_fold.
  assert (∀ owned, mapM (BlockOwnerTranslation.owned_host_group self (bucket_of (enumerate rows) <$>
      seqZ 0 (BlockOwnerTranslation.num_groups self)))
      (enumerate (BlockOwnerTranslation.shard_counts self)) = Ok owned ↔
    Forall (λ it : Z * Z, ∃ dev host, group_tables self it.1 it.2 dev host ∧
      Forall (λ e : Z * Z, 0 ≤ e.2 < host) (bucket_of (enumerate rows) it.1))
      (enumerate (BlockOwnerTranslation.shard_counts self)) ∧
    owned = host_group_output self rows <$> enumerate (BlockOwnerTranslation.shard_counts self)) as Hm.
  { intros owned. apply mapM_iff. intros [g shard] o Hin. by apply owned_host_group_Ok. }
  split.
  - intros (buckets & [Hitems ->] & H). apply bind_Ok in H as (owned & [Hall ->]%Hm & [= <-]).
    split; [by apply host_rows_good_back|]. by apply host_sorted_output.
  - intros [Hgood ->]. destruct (host_rows_pass self rows Hok Hgood) as [Hitems Hall].
    eexists. split; [split; [done|reflexivity]|].
    apply bind_Ok. eexists. split; [by apply Hm|]. f_equal. by apply host_sorted_output.
Qed.

(** ** One pool, all ranks *)

Definition with_rank (self : BlockOwnerTranslation.t) (rank : Z) : BlockOwnerTranslation.t :=
  {| BlockOwnerTranslation.shard_counts := BlockOwnerTranslation.shard_counts self;
     BlockOwnerTranslation.device_virtual_counts := BlockOwnerTranslation.device_virtual_counts self;
     BlockOwnerTranslation.host_virtual_counts := BlockOwnerTranslation.host_virtual_counts self;
     BlockOwnerTranslation.rank := rank |}.

(** The allocator's placement: both ends in range and in one residue class. *)
Definition row_aligned (self : BlockOwnerTranslation.t) (row : Z * Z * Z) : Prop :=
  ∃ shard dev host, group_tables self row.1.1 shard dev host ∧
    0 < row.1.2 < dev ∧ 0 < row.2 < host ∧ block_owner shard row.1.2 = block_owner shard row.2.

Lemma row_aligned_good self r row : row_aligned self row → row_good (with_rank self r) row.
Proof.
  intros (shard & dev & host & Ht & Hd & Hh & Ho). exists shard, dev, host.
  split_and!; try done; try lia. cbn. unfold owns. rewrite Ho. f_equal. lia.
Qed.

Lemma elem_of_row_output self rows p g ld lh :
  (Z.of_nat p, (g, ld, lh)) ∈ omap (row_output self) (row_items rows) ↔
  ∃ d h shard, rows !! p = Some (g, d, h) ∧
    BlockOwnerTranslation.shard_counts self !! Z.to_nat g = Some shard ∧
    owns shard (BlockOwnerTranslation.rank self) d = true ∧
    ld = block_local shard d ∧ lh = block_local shard h.
Proof.
  rewrite list_elem_of_omap. split.
  - intros ([p' [g' [d h]]] & Hin & Ho). apply elem_of_enumerate in Hin as [Hp Hi].
    rewrite list_lookup_fmap in Hi. unfold row_output in Ho. cbn in Ho.
    case_match eqn:Hs; [|done]. case_match eqn:Hown; [|done]. injection Ho as -> -> <- <-.
    destruct (rows !! Z.to_nat (Z.of_nat p)) as [[[g1 d1] h1]|] eqn:E; [|done].
    rewrite Nat2Z.id in E. cbn in Hi. injection Hi as -> -> ->. by exists d, h, z.
  - intros (d & h & shard & Hr & Hs & Ho & -> & ->). exists (Z.of_nat p, (g, (d, h))). split.
    + apply elem_of_enumerate. rewrite Nat2Z.id, list_lookup_fmap, Hr. split; [lia|done].
    + unfold row_output. cbn. by rewrite Hs, Ho.
Qed.

Lemma owned_positions_perm self rows out :
  translation_ok self → BlockOwnerTranslation.owned_positions self rows = Ok out →
  Forall (row_good self) rows ∧ out ≡ₚ omap (row_output self) (row_items rows).
Proof.
  intros Hok H. apply owned_positions_Ok in H as [Hgood ->]; [|done]. split; [done|].
  apply passes_perm; [by apply group_output_omap|].
  eapply Forall_impl; [by apply (row_items_good self)|]. by intros it [? _].
Qed.

(** The tables of a host pool: the contract's shard count and device bound of
    each group, and the scheduler bound of the pool's pages. *)
Lemma for_host_pool_tables {B} (layout : CacheTransferLayout.t B) contract n rank tr i g :
  BlockOwnerTranslation.for_host_pool layout contract n rank = Ok tr →
  CacheTransferLayout.groups layout !! i = Some g →
  ∃ shard dev counts,
    dict_get (VirtualBlocks.shard_counts contract) (TransferGroupLayout.group_id g) = Some shard ∧
    CacheRuntimeContract.virtual_block_counts contract = Ok counts ∧
    dict_get counts (TransferGroupLayout.group_id g) = Some dev ∧
    group_tables tr (Z.of_nat i) shard dev
      (virtual_block_count (1 + n * TransferGroupLayout.cache_blocks_per_lcm_block g) shard).
Proof.
  intros H Hi. unfold BlockOwnerTranslation.for_host_pool, BlockOwnerTranslation.init in H. inv_ok.
  apply mapM_Ok in Hr0, Hr1.
  destruct (Forall2_lookup_l _ _ _ _ _ Hr0 Hi) as (shard & Hs & Hsd).
  destruct (Forall2_lookup_l _ _ _ _ _ Hr1 Hi) as (dev & Hd & Hdd). cbn beta in *. inv_ok.
  exists shard, dev, r. split_and!; try done. unfold group_tables. rewrite Nat2Z.id. cbn.
  split_and!; [lia|done|done|]. rewrite lookup_zip_with, Hi, Hs. cbn. f_equal.
  unfold virtual_block_count. lia.
Qed.

(** ** Properties *)

(** A host copy is translated row by row.  The translation succeeds exactly
    when every row names a known group, non-null blocks in range, and ends this
    rank owns together or not at all; it then returns, once each with its
    position, the rows this rank owns in local page identifiers. *)
Theorem owned_positions_exact self rows :
  translation_ok self →
  match BlockOwnerTranslation.owned_positions self rows with
  | Ok out => Forall (row_good self) rows ∧ out ≡ₚ omap (row_output self) (row_items rows)
  | Raise _ => ¬ Forall (row_good self) rows
  end.
Proof.
  intros Hok. destruct (BlockOwnerTranslation.owned_positions self rows) as [out|e] eqn:H.
  - by apply owned_positions_perm.
  - intros Hgood. pose proof (proj2 (owned_positions_Ok self rows _ Hok) (conj Hgood eq_refl)) as E.
    by rewrite E in H.
Qed.

(** Two groups, one over four owners and one replicated, on rank 2. *)
Definition example_translation : BlockOwnerTranslation.t :=
  {| BlockOwnerTranslation.shard_counts := [4; 1];
     BlockOwnerTranslation.device_virtual_counts := [41; 11];
     BlockOwnerTranslation.host_virtual_counts := [81; 21];
     BlockOwnerTranslation.rank := 2 |}.

Lemma example_translation_ok r : 0 ≤ r < 4 → translation_ok (with_rank example_translation r).
Proof.
  intros Hr. split; [done|done|..]; cbn; repeat constructor; cbn; unfold valid_rank; lia.
Qed.

Lemma owned_positions_exact_witness :
  BlockOwnerTranslation.owned_positions example_translation [(0, 7, 11); (1, 3, 5); (0, 8, 4)] =
    Ok [(0, (0, 2, 3)); (1, (1, 3, 5))] ∧
  Forall (row_good example_translation) [(0, 7, 11); (1, 3, 5); (0, 8, 4)].
Proof.
  assert (E : BlockOwnerTranslation.owned_positions example_translation
    [(0, 7, 11); (1, 3, 5); (0, 8, 4)] = Ok [(0, (0, 2, 3)); (1, (1, 3, 5))])
    by (vm_compute; reflexivity).
  split; [exact E|].
  pose proof (owned_positions_exact example_translation [(0, 7, 11); (1, 3, 5); (0, 8, 4)]
    (example_translation_ok 2 ltac:(lia))) as H.
  rewrite E in H. exact (proj1 H).
Defined.

(** C34: A copy is performed by one rank.  When the allocator keeps both ends of
    every row in one residue class, every rank's translation succeeds, and a row
    of a group sharded over [D] owners is returned by exactly one of them, whose
    local pages stand for the row's two blocks. *)
Theorem copy_rows_one_owner self D rows p g d h :
  1 < D → (∀ r, 0 ≤ r < D → translation_ok (with_rank self r)) →
  Forall (row_aligned self) rows →
  rows !! p = Some (g, d, h) →
  BlockOwnerTranslation.shard_counts self !! Z.to_nat g = Some D →
  (∀ r, 0 ≤ r < D →
    is_Ok (BlockOwnerTranslation.owned_positions (with_rank self r) rows) = true) ∧
  ∃ r, 0 ≤ r < D ∧
    (∃ out ld lh, BlockOwnerTranslation.owned_positions (with_rank self r) rows = Ok out ∧
      (Z.of_nat p, (g, ld, lh)) ∈ out ∧ block_of D r ld = d ∧ block_of D r lh = h) ∧
    ∀ r' out', 0 ≤ r' < D →
      BlockOwnerTranslation.owned_positions (with_rank self r') rows = Ok out' →
      Z.of_nat p ∈ out'.*1 → r' = r.
Proof.
  intros HD Hok Hal Hp Hs.
  assert (∀ r, 0 ≤ r < D → ∃ out,
    BlockOwnerTranslation.owned_positions (with_rank self r) rows = Ok out) as Htot.
  { intros r Hr. eexists. apply owned_positions_Ok; [by apply Hok|]. split; [|reflexivity].
    eapply Forall_impl; [exact Hal|]. intros row. apply row_aligned_good. }
  split; [intros r Hr; by apply is_Ok_true, Htot|].
  rewrite Forall_lookup in Hal.
  destruct (Hal _ _ Hp) as (shard & dev & host & (_ & Hs' & _) & Hd & Hh & Ho). cbn in *. simplify_eq.
  pose proof (block_owner_bound D d ltac:(lia)) as Hb. exists (block_owner D d). split; [done|].
  split.
  - destruct (Htot _ Hb) as [out Hout].
    exists out, (block_local D d), (block_local D h). split; [done|].
    destruct (owned_positions_perm _ _ _ (Hok _ Hb) Hout) as [_ Hperm]. split.
    + rewrite Hperm. apply elem_of_row_output. exists d, h, D. split_and!; try done.
      cbn. apply owns_unique; [lia|lia|done].
    + split; [apply block_of_local; lia|]. rewrite Ho. apply block_of_local. lia.
  - intros r' out' Hr' Hout' Hin. destruct (owned_positions_perm _ _ _ (Hok _ Hr') Hout') as [_ Hperm].
    apply list_elem_of_fmap in Hin as ([p' [[g' ld] lh]] & Heq & Hin). cbn in Heq. subst p'.
    rewrite Hperm in Hin. apply elem_of_row_output in Hin as (d' & h' & s & Hr & Hs'' & Hown & _).
    cbn in *. simplify_eq. by apply owns_unique in Hown; [|lia..].
Qed.

Lemma copy_rows_one_owner_witness :
  ∃ r, 0 ≤ r < 4 ∧ ∃ out ld lh,
    BlockOwnerTranslation.owned_positions (with_rank example_translation r)
      [(0, 7, 11); (1, 3, 5)] = Ok out ∧
    (Z.of_nat 0, (0, ld, lh)) ∈ out ∧ block_of 4 r ld = 7 ∧ block_of 4 r lh = 11.
Proof.
  destruct (copy_rows_one_owner example_translation 4 [(0, 7, 11); (1, 3, 5)] 0%nat 0 7 11)
    as (_ & r & Hr & Hout & _).
  - lia.
  - intros r Hr. exact (example_translation_ok r Hr).
  - constructor; [|constructor; [|constructor]].
    + exists 4, 41, 81. cbn. split; [split; [lia|]; split; [reflexivity|]; split; reflexivity|].
      cbn. split; [lia|]. split; [lia|]. vm_compute. reflexivity.
    + exists 1, 11, 21. cbn. split; [split; [lia|]; split; [reflexivity|]; split; reflexivity|].
      cbn. split; [lia|]. split; [lia|]. vm_compute. reflexivity.
  - reflexivity.
  - reflexivity.
  - exists r. split; [exact Hr|exact Hout].
Defined.

(** Host-only rows keep their order.  For a prefetch into the host pool the
    translation succeeds exactly when every row names a known group and a
    non-null block in range, and returns the rows this rank owns, translated, in
    the order of the input. *)
Theorem owned_host_positions_exact self rows :
  translation_ok self →
  match BlockOwnerTranslation.owned_host_positions self rows with
  | Ok out => Forall (host_row_good self) rows ∧ out = omap (host_output self) (enumerate rows)
  | Raise _ => ¬ Forall (host_row_good self) rows
  end.
Proof.
  intros Hok. destruct (BlockOwnerTranslation.owned_host_positions self rows) as [out|e] eqn:H.
  - by apply owned_host_positions_Ok.
  - intros Hgood.
    pose proof (proj2 (owned_host_positions_Ok self rows _ Hok) (conj Hgood eq_refl)) as E.
    by rewrite E in H.
Qed.

Lemma owned_host_positions_exact_witness :
  BlockOwnerTranslation.owned_host_positions example_translation [(1, 5); (0, 11); (0, 12)] =
    Ok [(0, (1, 5)); (1, (0, 3))] ∧
  Forall (host_row_good example_translation) [(1, 5); (0, 11); (0, 12)].
Proof.
  assert (E : BlockOwnerTranslation.owned_host_positions example_translation
    [(1, 5); (0, 11); (0, 12)] = Ok [(0, (1, 5)); (1, (0, 3))]) by (vm_compute; reflexivity).
  split; [exact E|].
  pose proof (owned_host_positions_exact example_translation [(1, 5); (0, 11); (0, 12)]
    (example_translation_ok 2 ltac:(lia))) as H.
  rewrite E in H. exact (proj1 H).
Defined.
