(* ===== verification/SlotPlacement.v ===== *)
(** * Slot placement: [dcp/placement.py] and the slot translation of
      [tokenspeed_kernel/ops/kvcache/triton_cache_placement.py]

    A sharded cache group deals its blocks cyclically to the ranks of its group.
    [virtual_slots_to_local] translates token slots for one rank, by a device
    kernel or on the host; [cyclic_slot_owner] names the owner of every slot; the
    two counters give, from a page table, how many rows each rank owns.

    In the translation a tensor has its dtype, device, shape, contiguity and its
    elements in row-major order; the elements of one dtype are integers in its range,
    the arithmetic on them wraps and a store casts to the dtype of the buffer.  A
    Python integer that meets a tensor is converted by the tensor library to the
    tensor's dtype, on the host: for the integers the dtype represents this is the
    identity, for the others it is the library's affair, so the conversion is an
    argument, [scalar].  The kernel's [//] and [%] truncate, the host's floor.
    Buffers do not overlap the slots.

    In the row counts a table is the list of its rows, with its width beside it; the
    integers that occur there (page identifiers, row counts of a table) are far inside
    the range of [int64], in which they are computed.  The page size is positive, as
    the table's kernels require. *)

From S2P Require Import Prelude VirtualBlocks PPStage.

Local Open Scope Z_scope.

(** ** Tensors *)

Inductive dtype := int32 | int64 | boolean | other_dtype (name : string).
Inductive device := cpu | cuda (index : Z) | npu (index : Z) | other_device (name : string).

#[export] Instance dtype_eq_dec : EqDecision dtype.
Proof. solve_decision. Defined.
#[export] Instance device_eq_dec : EqDecision device.
Proof. solve_decision. Defined.

Record tensor (A : Type) := mkTensor {
  t_dtype : dtype;
  t_device : device;
  shape : list Z;
  is_contiguous : bool;
  elements : list A;
}.
Arguments mkTensor {A}.
Arguments t_dtype {A}.
Arguments t_device {A}.
Arguments shape {A}.
Arguments is_contiguous {A}.
Arguments elements {A}.

Definition with_elements {A} (t : tensor A) (l : list A) : tensor A :=
  mkTensor (t_dtype t) (t_device t) (shape t) (is_contiguous t) l.

Definition width (d : dtype) : option Z :=
  match d with int32 => Some 32 | int64 => Some 64 | _ => None end.

Definition represents (d : dtype) (x : Z) : bool :=
  match width d with Some w => (- 2 ^ (w - 1) <=? x) && (x <? 2 ^ (w - 1)) | None => false end.

(** The cast of an integer to the width of a dtype. *)
Definition cast (d : dtype) (x : Z) : Z :=
  match width d with Some w => (x + 2 ^ (w - 1)) mod 2 ^ w - 2 ^ (w - 1) | None => x end.

(** ** The slot translation *)

Definition virtual_block_to_local (block DEGREE RANK : Z) : Z * bool :=
  let positive := Z.max (block - 1) 0 in
  let owned := (0 <? block) && (Z.rem positive DEGREE =? RANK) in
  let local := Z.quot positive DEGREE + 1 in
  (if owned then local else 0, owned).

(** One lane of [_translate_virtual_slots]. *)
Definition translate_lane (raw ROWS VIRTUAL_COUNT DEGREE RANK : Z) : Z * bool :=
  let safe := Z.max raw 0 in
  let '(local, owner) := virtual_block_to_local (Z.quot safe ROWS) DEGREE RANK in
  let owner := owner && (ROWS <=? raw) && (raw <? VIRTUAL_COUNT * ROWS) in
  (if owner then cast int64 (local * ROWS + Z.rem safe ROWS) else 0, owner).

(** One program of the grid: the lanes of one block of offsets, masked by the
    element count; the destination has dtype [stored]. *)
Definition _translate_virtual_slots (source : list Z) (stored : dtype) (ROWS VIRTUAL_COUNT DEGREE RANK BLOCK : Z)
    (memory : list Z * list bool) (program_id : Z) : list Z * list bool :=
  foldl (λ memory offset,
    if offset <? Z.of_nat (length source) then
      let lane := translate_lane (default 0 (source !! Z.to_nat offset))
                    ROWS VIRTUAL_COUNT DEGREE RANK in
      (<[Z.to_nat offset := cast stored lane.1]> memory.1, <[Z.to_nat offset := lane.2]> memory.2)
    else memory)
  memory (seqZ (program_id * BLOCK) BLOCK).

(** The host path, element by element; [low] and [high] are the bounds the slots, in
    their own dtype, are compared with. *)
Definition translate_host (low high rows_per_page degree rank slot : Z) : Z * bool :=
  let safe := Z.max slot 0 in
  let block := safe / rows_per_page in
  let positive := Z.max (block - 1) 0 in
  let owned := (low <=? slot) && (slot <? high) && (positive mod degree =? rank) in
  let local := cast int64 ((positive / degree + 1) * rows_per_page + safe mod rows_per_page) in
  (if owned then local else 0, owned).

Definition on_accelerator (d : device) : bool :=
  match d with cuda _ | npu _ => true | _ => false end.

(** The check of one output. *)
Definition output_mismatch {A} (slots : tensor Z) (value : tensor A) (d : dtype) : bool :=
  negb (bool_decide (shape value = shape slots)) || negb (bool_decide (t_dtype value = d)) ||
  negb (bool_decide (t_device value = t_device slots)) || negb (is_contiguous value).

(** [out] and [owner_mask] when they are given, else fresh buffers, which hold anything. *)
Definition out_buffer (slots : tensor Z) (out : option (tensor Z)) (fresh : list Z) : tensor Z :=
  default (mkTensor (t_dtype slots) (t_device slots) (shape slots) true fresh) out.
Definition mask_buffer (slots : tensor Z) (owner_mask : option (tensor bool)) (fresh : list bool) : tensor bool :=
  default (mkTensor boolean (t_device slots) (shape slots) true fresh) owner_mask.

Definition virtual_slots_to_local (scalar : dtype → Z → result Z) (slots : tensor Z)
    (rows_per_page virtual_block_count degree rank : Z) (out : option (tensor Z))
    (owner_mask : option (tensor bool)) (fresh : list Z * list bool) : result (tensor Z * tensor bool) :=
  raise_when ((rows_per_page <=? 0) || (virtual_block_count <=? 1) || (degree <=? 0))
    (ValueError "virtual slot geometry must be positive and include usable pages");;
  raise_when (negb ((0 <=? rank) && (rank <? degree)))
    (ValueError "virtual slot owner rank is out of range");;
  raise_when (negb (bool_decide (t_dtype slots = int32) || bool_decide (t_dtype slots = int64)))
    (TypeError "virtual slots must be int32 or int64");;
  let out := out_buffer slots out fresh.1 in
  let owner_mask := mask_buffer slots owner_mask fresh.2 in
  raise_when (output_mismatch slots out (t_dtype slots) || output_mismatch slots owner_mask boolean)
    (ValueError "virtual slot outputs must match shape, device and dtype");;
  if bool_decide (elements slots = []) then Ok (out, owner_mask)
  else if on_accelerator (t_device slots) then
    let memory := foldl (_translate_virtual_slots (elements slots) (t_dtype out) rows_per_page virtual_block_count
        degree rank 256)
      (elements out, elements owner_mask) (seqZ 0 (ceil_div (Z.of_nat (length (elements slots))) 256)) in
    Ok (with_elements out memory.1, with_elements owner_mask memory.2)
  else
    rows ← scalar int64 rows_per_page;
    low ← scalar (t_dtype slots) rows_per_page;
    high ← scalar (t_dtype slots) (virtual_block_count * rows_per_page);
    divisor ← scalar int64 degree;
    owner ← scalar int64 rank;
    let values := translate_host low high rows divisor owner <$> elements slots in
    Ok (with_elements out (cast (t_dtype out) <$> values.*1), with_elements owner_mask values.*2).

(** ** Placement *)

Module CachePlacement.

Record t := {
  block_granularity : Z;
  virtual_block_count : Z;
  group : list Z;
  rank : Z;
}.

Definition degree (self : t) : Z := Z.of_nat (length (group self)).

Definition post_init (self : t) : result t :=
  raise_when ((block_granularity self <=? 0) || (virtual_block_count self <=? 0))
    (ValueError "Cache placement geometry must be positive");;
  raise_when (bool_decide (group self = []) ||
              negb ((0 <=? rank self) && (rank self <? degree self)))
    (ValueError "Cache placement rank must index its nonempty group");;
  Ok self.

End CachePlacement.

(** The mask is [None] when the group is not sharded. *)
Definition resolve_cache_slots (scalar : dtype → Z → result Z) (loc : tensor Z)
    (placement : option CachePlacement.t) (fresh : list Z * list bool) :
    result (tensor Z * option (tensor bool)) :=
  match placement with
  | None => Ok (loc, None)
  | Some p =>
      r ← virtual_slots_to_local scalar loc (CachePlacement.block_granularity p)
        (CachePlacement.virtual_block_count p) (CachePlacement.degree p) (CachePlacement.rank p)
        None None fresh;
      Ok (r.1, Some r.2)
  end.

Definition slot_owner (low rows virtual_block_count degree slot : Z) : Z :=
  let safe := Z.max slot 0 in
  let block := safe / rows in
  let valid := (low <=? slot) && (block <? virtual_block_count) in
  if valid then (block - 1) mod degree else -1.

(** The elements of the [int64] result. *)
Definition cyclic_slot_owner (scalar : dtype → Z → result Z) (slots : tensor Z)
    (placement : option CachePlacement.t) : result (list Z) :=
  match placement with
  | None => Ok ((λ _, 0) <$> elements slots)
  | Some p =>
      rows ← scalar int64 (CachePlacement.block_granularity p);
      low ← scalar (t_dtype slots) (CachePlacement.block_granularity p);
      count ← scalar int64 (CachePlacement.virtual_block_count p);
      degree ← scalar int64 (CachePlacement.degree p);
      Ok (slot_owner low rows count degree <$> elements slots)
  end.

(** ** Row counts *)

(** [max(l)], 0 when [l] is empty. *)
Definition max_or_zero (l : list Z) : Z :=
  match l with [] => 0 | x :: l => foldr Z.max x l end.

(** The owner of a kernel page; [degree] is the sink of pages without one. *)
Definition page_owner (p : CachePlacement.t) (page_size page : Z) : Z :=
  let subpages := CachePlacement.block_granularity p / page_size in
  let block := page / subpages in
  let valid := (0 <? block) && (block <? CachePlacement.virtual_block_count p) in
  if valid then (block - 1) mod CachePlacement.degree p else CachePlacement.degree p.

(** [clamp_(0, page_size)] of the tokens left at a column. *)
Definition page_tokens (page_size seq_len col : Z) : Z :=
  Z.min (Z.max (seq_len - col * page_size) 0) page_size.

(** [scatter_add_] of one row into [width] zeros. *)
Definition scatter_add (width : Z) (owner tokens : list Z) : list Z :=
  (λ k, sumZ ((λ x : Z * Z, if x.1 =? k then x.2 else 0) <$> zip owner tokens)) <$> seqZ 0 width.

Definition owned_history_rows (page_table : list (list Z)) (columns : Z) (seq_lens : list Z)
    (page_size : Z) (placement : option CachePlacement.t) : result (list (list Z)) :=
  raise_when (negb (length page_table =? length seq_lens)%nat)
    (ValueError "page table and requests disagree");;
  let degree := match placement with None => 1 | Some p => CachePlacement.degree p end in
  raise_when (columns * page_size <? max_or_zero seq_lens)
    (ValueError "page table does not cover a history");;
  owner ← match placement with
    | None => Ok (λ page, if 0 <? page then 0 else degree)
    | Some p =>
        raise_when ((CachePlacement.block_granularity p / page_size =? 0) &&
                    negb (bool_decide (page_table = [])) && (0 <? columns))
          (RuntimeError "ZeroDivisionError");;
        Ok (page_owner p page_size)
    end;
  let counts := zip_with (λ (row : list Z) seq_len,
      scatter_add (degree + 1) (owner <$> row) (page_tokens page_size seq_len <$> seqZ 0 columns))
    page_table seq_lens in
  raise_when (negb (sumZ ((λ row : list Z, default 0 (row !! Z.to_nat degree)) <$> counts) =? 0))
    (ValueError "history page table has holes below the request lengths");;
  Ok ((λ k, (λ row : list Z, default 0 (row !! Z.to_nat k)) <$> counts) <$> seqZ 0 degree).

(** [cumsum] with a leading zero. *)
Fixpoint prefix_sums (total : Z) (l : list Z) : list Z :=
  total :: match l with [] => [] | x :: l => prefix_sums (total + x) l end.

(** [np.eye(n)[o][k]] *)
Definition eye (o k : Z) : Z := if o =? k then 1 else 0.

(** The rows of each owner below a bound: whole pages, and the partial page. *)
Definition rows_below (owner : list Z) (columns page_size degree bound : Z) : result (list Z) :=
  let whole := bound / page_size in
  mapM (λ k,
    rows ← py_index (prefix_sums 0 ((λ o, eye o k * page_size) <$> owner)) whole;
    partial_owner ← py_index owner (Z.min whole (columns - 1));
    Ok (rows + eye partial_owner k * (bound mod page_size))) (seqZ 0 (degree + 1)).

(** One request: the differences at consecutive chunk bounds. *)
Definition request_chunks (owner : list Z) (columns page_size degree chunk_len num_chunks prefix : Z) :
    result (list (list Z)) :=
  below ← mapM (λ j, rows_below owner columns page_size degree (Z.min (j * chunk_len) prefix))
    (seqZ 0 (num_chunks + 1));
  Ok (zip_with (zip_with Z.sub) (tail below) below).

Definition owned_prefix_chunk_rows (page_table : list (list Z)) (width : Z) (prefix_lens : list Z)
    (chunk_len num_chunks page_size : Z) (p : CachePlacement.t) : result (list (list Z)) :=
  raise_when (negb (length page_table =? length prefix_lens)%nat)
    (ValueError "page table and requests disagree");;
  let degree := CachePlacement.degree p in
  let max_prefix := max_or_zero prefix_lens in
  let columns := - (- max_prefix / page_size) in
  raise_when (width <? columns) (ValueError "page table does not cover a prefix");;
  if columns =? 0 then Ok (replicate (Z.to_nat num_chunks) (replicate (Z.to_nat degree) 0)) else
  requests ← mapM (λ request : list Z * Z,
      request_chunks (page_owner p page_size <$> take (Z.to_nat columns) request.1)
        columns page_size degree chunk_len num_chunks request.2)
    (zip page_table prefix_lens);
  let counts := foldr (zip_with (zip_with Z.add))
    (replicate (Z.to_nat num_chunks) (replicate (Z.to_nat (degree + 1)) 0)) requests in
  raise_when (negb (sumZ ((λ row : list Z, default 0 (row !! Z.to_nat degree)) <$> counts) =? 0))
    (ValueError "prefix page table has holes below the prefix lengths");;
  Ok (take (Z.to_nat degree) <$> counts).

(** ** Device and host translation *)

(** The reference: a slot of a block in range, on the rank that owns the block, is the
    same row of the block's local page. *)
Definition placed_slot (rows vc degree rank slot : Z) : Z * bool :=
  if (rows <=? slot) && (slot <? vc * rows) && (block_owner degree (slot / rows) =? rank)
  then (block_local degree (slot / rows) * rows + slot mod rows, true) else (0, false).

Lemma cast_represented d x : represents d x = true → cast d x = x.
Proof.
  unfold represents, cast. destruct d; cbn [width]; try done; intros H; rewrite Z.mod_small; cbn in *; lia.
Qed.

Lemma represents_between d x y : represents d y = true → 0 ≤ x ≤ y → represents d x = true.
Proof. unfold represents. destruct d; cbn [width]; try done; cbn; lia. Qed.

(** The dtypes of slots are no wider than [int64]. *)
Lemma represents_int64 d x : represents d x = true → represents int64 x = true.
Proof. unfold represents. destruct d; cbn [width]; try done; cbn; lia. Qed.

(** The local page does not exceed the block. *)
Lemma local_at_most rows degree slot :
  0 < rows → 0 < degree → rows ≤ slot →
  0 < block_local degree (slot / rows) * rows + slot mod rows ≤ slot.
Proof.
  intros Hr Hd Hs. unfold block_local.
  pose proof (Z.div_le_mono rows slot rows Hr Hs) as Hb. rewrite Z.div_same in Hb by lia.
  pose proof (Z.div_mod slot rows ltac:(lia)) as Hdm. pose proof (Z.mod_pos_bound slot rows Hr) as Hm.
  pose proof (Z.div_pos (slot / rows - 1) degree ltac:(lia) Hd).
  assert ((slot / rows - 1) / degree ≤ slot / rows - 1) by (apply Z.div_le_upper_bound; nia). nia.
Qed.

Lemma placed_represented d rows vc degree rank slot :
  0 < rows → 0 < degree → represents d slot = true →
  cast d (placed_slot rows vc degree rank slot).1 = (placed_slot rows vc degree rank slot).1.
Proof.
  intros Hr Hd Hs. apply cast_represented. unfold placed_slot. case_match eqn:E; cbn [fst].
  - eapply represents_between; [exact Hs|]. pose proof (local_at_most rows degree slot Hr Hd). lia.
  - unfold represents in *. destruct d; try done; cbn in *; lia.
Qed.

Lemma host_placed rows vc degree rank slot :
  0 < rows → 0 < degree → represents int64 slot = true →
  translate_host rows (vc * rows) rows degree rank slot = placed_slot rows vc degree rank slot.
Proof.
  intros Hr Hd Hs. unfold translate_host, placed_slot. destruct (rows <=? slot) eqn:E1; [|done]. cbn [andb].
  destruct (slot <? vc * rows) eqn:E2; [|done]. cbn [andb]. rewrite (Z.max_l slot 0) by lia.
  pose proof (Z.div_le_mono rows slot rows Hr ltac:(lia)) as Hb. rewrite Z.div_same in Hb by lia.
  rewrite (Z.max_l (slot / rows - 1) 0) by lia. unfold block_owner. case_match eqn:E3; [|done]. f_equal.
  apply (cast_represented int64). eapply represents_between; [exact Hs|].
  pose proof (local_at_most rows degree slot Hr Hd). unfold block_local in *. lia.
Qed.

Lemma lane_host raw rows vc degree rank :
  0 < rows → 0 < degree → translate_lane raw rows vc degree rank = translate_host rows (vc * rows) rows degree rank raw.
Proof.
  intros Hr Hd. unfold translate_lane, translate_host, virtual_block_to_local.
  rewrite !Z.quot_div_nonneg, !Z.rem_mod_nonneg by lia.
  set (safe := Z.max raw 0). set (block := safe / rows). set (positive := Z.max (block - 1) 0).
  assert (rows ≤ raw → 0 < block).
  { intros. unfold block, safe. apply Z.div_str_pos. lia. }
  destruct (rows <=? raw) eqn:E1, (raw <? vc * rows) eqn:E2, (positive mod degree =? rank) eqn:E3,
    (0 <? block) eqn:E4; cbn [andb]; try done; lia.
Qed.

(** One masked store of each output. *)
Definition lane_step (source : list Z) (f : Z → Z * bool) (memory : list Z * list bool)
    (offset : Z) : list Z * list bool :=
  if offset <? Z.of_nat (length source) then
    let lane := f (default 0 (source !! Z.to_nat offset)) in
    (<[Z.to_nat offset := lane.1]> memory.1, <[Z.to_nat offset := lane.2]> memory.2)
  else memory.

Lemma foldl_concat_fmap {A B S} (step : S → B → S) (g : A → list B) s l :
  foldl (λ s x, foldl step s (g x)) s l = foldl step s (concat (g <$> l)).
Proof.
  revert s. induction l as [|x l IH]; intros s; [done|]. rewrite fmap_cons. cbn [concat foldl].
  by rewrite foldl_app, IH.
Qed.

(** After the stores at [offsets], those elements are translated and the others
    keep what they held. *)
Lemma lanes_written source f offsets out mask :
  length out = length source → length mask = length source → Forall (Z.le 0) offsets →
  let memory := foldl (lane_step source f) (out, mask) offsets in
  (length memory.1 = length source ∧ length memory.2 = length source) ∧
  ∀ i x, source !! i = Some x →
    (Z.of_nat i ∈ offsets → memory.1 !! i = Some (f x).1 ∧ memory.2 !! i = Some (f x).2).
Proof.
  intros Ho Hm Hpos. induction offsets as [|o offsets IH] using rev_ind.
  { cbn. split; [done|]. by intros i x _ ?%not_elem_of_nil. }
  apply Forall_app in Hpos as [Hpos Ho0]. apply Forall_inv in Ho0.
  cbn zeta in *. rewrite foldl_snoc. destruct (IH Hpos) as [[Hl1 Hl2] Hw].
  set (memory := foldl (lane_step source f) (out, mask) offsets) in *. unfold lane_step.
  destruct (o <? Z.of_nat (length source)) eqn:E.
  - cbn [fst snd]. rewrite !length_insert. split; [done|]. intros i x Hi Hin.
    apply elem_of_app in Hin. destruct (decide (o = Z.of_nat i)) as [->|Hne].
    + rewrite Nat2Z.id, Hi. cbn. apply lookup_lt_Some in Hi.
      rewrite !list_lookup_insert_eq by lia. done.
    + rewrite !list_lookup_insert_ne by lia. apply Hw; [done|].
      destruct Hin as [?|?%list_elem_of_singleton]; [done|]. congruence.
  - split; [done|]. intros i x Hi Hin. apply Hw; [done|].
    apply elem_of_app in Hin as [?|?%list_elem_of_singleton]; [done|].
    apply lookup_lt_Some in Hi. lia.
Qed.

(** The launch, with the programs of the grid in any order. *)
Lemma launch_any_order source stored rows vc degree rank BLOCK out mask pids :
  0 < rows → 0 < degree → 0 < BLOCK → Forall (λ x, represents stored x = true) source →
  length out = length source → length mask = length source →
  pids ≡ₚ seqZ 0 (ceil_div (Z.of_nat (length source)) BLOCK) →
  foldl (_translate_virtual_slots source stored rows vc degree rank BLOCK) (out, mask) pids =
  ((λ x, (placed_slot rows vc degree rank x).1) <$> source,
   (λ x, (placed_slot rows vc degree rank x).2) <$> source).
Proof.
  intros Hr Hd Hb Hrep Ho Hm Hp. set (f := λ x, (cast stored (translate_lane x rows vc degree rank).1, (translate_lane x rows vc degree rank).2)).
  change (foldl (λ memory pid, foldl (lane_step source f)
    memory (seqZ (pid * BLOCK) BLOCK)) (out, mask) pids = ((λ x, (placed_slot rows vc degree rank x).1) <$> source,
   (λ x, (placed_slot rows vc degree rank x).2) <$> source)).
  rewrite foldl_concat_fmap.
  set (offsets := concat ((λ pid, seqZ (pid * BLOCK) BLOCK) <$> pids)).
  assert (∀ o, o ∈ offsets ↔ ∃ pid, pid ∈ pids ∧ pid * BLOCK ≤ o < pid * BLOCK + BLOCK) as Hoff.
  { intros o. unfold offsets. rewrite elem_of_concat. setoid_rewrite list_elem_of_fmap. split.
    - intros (l & (pid & -> & Hpid) & Hl%elem_of_seqZ). by exists pid.
    - intros (pid & Hpid & Hl). eexists. split; [by exists pid|]. by apply elem_of_seqZ. }
  pose proof (ceil_div_spec (Z.of_nat (length source)) BLOCK Hb) as Hc.
  destruct (lanes_written source f offsets out mask Ho Hm)
    as [[Hl1 Hl2] Hw].
  { apply Forall_forall. intros o (pid & Hpid & ?)%Hoff. rewrite Hp, elem_of_seqZ in Hpid. nia. }
  cbn zeta in *.
  assert (∀ i, (i < length source)%nat → Z.of_nat i ∈ offsets) as Hall.
  { intros i Hi. apply Hoff. exists (Z.of_nat i / BLOCK). rewrite Hp, elem_of_seqZ.
    pose proof (Z.div_mod (Z.of_nat i) BLOCK ltac:(lia)). pose proof (Z.mod_pos_bound (Z.of_nat i) BLOCK Hb).
    pose proof (Z.div_pos (Z.of_nat i) BLOCK ltac:(lia) Hb). nia. }
  destruct (foldl _ (out, mask) offsets) as [m1 m2] eqn:E. cbn [fst snd] in *.
  f_equal; apply list_eq_same_length with (length source); rewrite ?length_fmap; try done;
    intros i x y Hi; rewrite list_lookup_fmap; intros Hx Hy;
    destruct (source !! i) as [z|] eqn:Ez; try done; cbn [fmap option_fmap option_map] in Hy;
    pose proof (proj1 (Forall_lookup _ _) Hrep i z Ez) as Hz; cbn in Hz; destruct (Hw i z Ez (Hall i Hi)) as [H1 H2];
    unfold f in H1, H2; cbn [fst snd] in H1, H2;
    rewrite lane_host, host_placed in H1, H2 by (by eauto using represents_int64); rewrite placed_represented in H1 by done; congruence.
Qed.

(** ** Slots *)

Lemma slot_valid rows vc slot :
  0 < rows → (rows <=? slot) && (Z.max slot 0 / rows <? vc) = (rows <=? slot) && (slot <? vc * rows).
Proof.
  intros Hr. destruct (rows <=? slot) eqn:E; [|done]. cbn. rewrite Z.max_l by lia.
  pose proof (Z.div_mod slot rows ltac:(lia)). pose proof (Z.mod_pos_bound slot rows Hr).
  destruct (slot / rows <? vc) eqn:E1, (slot <? vc * rows) eqn:E2; nia.
Qed.

(** The mask of a rank says whether it is the owner; the slot it gets is the same
    row of the block's local page. *)
Lemma placed_owner rows vc degree r slot :
  0 < rows → 0 < degree → 0 ≤ r →
  let t := placed_slot rows vc degree r slot in
  (t.2 = true ↔ slot_owner rows rows vc degree slot = r) ∧
  (if t.2 then block_of degree r (t.1 / rows) * rows + t.1 mod rows = slot ∧ 0 < t.1 ≤ slot else t.1 = 0).
Proof.
  intros Hr Hd Hrank. unfold placed_slot, slot_owner. rewrite slot_valid by done.
  destruct ((rows <=? slot) && (slot <? vc * rows)) eqn:E; cbn [andb fst snd]; [|split; [lia|done]].
  rewrite !(Z.max_l slot 0) by lia. fold (block_owner degree (slot / rows)).
  destruct (Z.eqb_spec (block_owner degree (slot / rows)) r) as [Eo|Eo]; cbn [fst snd]; [|by split].
  split; [done|]. pose proof (Z.mod_pos_bound slot rows Hr) as Hm.
  split; [|apply local_at_most; lia]. rewrite Z.div_add_l, (Z.div_small (slot mod rows)), Z.add_0_r by lia.
  rewrite (Z.add_comm (block_local degree (slot / rows) * rows)), Z.mod_add, Z.mod_mod by lia. rewrite <- Eo, block_of_local by done.
  pose proof (Z.div_mod slot rows ltac:(lia)). lia.
Qed.

Lemma slot_owner_range rows vc degree slot :
  0 < rows → 0 < degree →
  (-1 ≤ slot_owner rows rows vc degree slot < degree) ∧
  (slot_owner rows rows vc degree slot ≠ -1 ↔ rows ≤ slot < vc * rows).
Proof.
  intros Hr Hd. unfold slot_owner. rewrite slot_valid by done.
  pose proof (Z.mod_pos_bound (Z.max slot 0 / rows - 1) degree Hd). case_match; lia.
Qed.

(** What the tensor library documents of an integer and a tensor: an integer of the
    tensor's range is compared and computed with as it is. *)
Definition scalar_exact (scalar : dtype → Z → result Z) : Prop :=
  ∀ d x, represents d x = true → scalar d x = Ok x.

(** The elements of a tensor fill its shape; those of an integer tensor are in range. *)
Definition sized {A} (t : tensor A) : Prop := length (elements t) = Z.to_nat (foldr Z.mul 1 (shape t)).
Definition slots_ok (slots : tensor Z) : Prop :=
  sized slots ∧ (t_dtype slots = int32 ∨ t_dtype slots = int64 → Forall (λ x, represents (t_dtype slots) x = true) (elements slots)).

Lemma matching_length {A} slots (t : tensor A) d :
  sized slots → sized t → output_mismatch slots t d = false →
  t_dtype t = d ∧ length (elements t) = length (elements slots).
Proof.
  unfold sized, output_mismatch. intros -> ->. rewrite !orb_false_iff, !negb_false_iff, !bool_decide_eq_true.
  intros [[[-> ->] _] _]. done.
Qed.

Lemma with_elements_same {A} (t : tensor A) : with_elements t (elements t) = t.
Proof. by destruct t. Qed.

(** Every outcome of the call, on the host and on a device. *)
Lemma translation_outcome scalar slots rows vc degree rank out mask fresh :
  scalar_exact scalar → slots_ok slots → let o := out_buffer slots out fresh.1 in let m := mask_buffer slots mask fresh.2 in
  sized o → sized m →
  (t_dtype slots = int32 ∨ t_dtype slots = int64 → represents (t_dtype slots) (vc * rows) = true) → represents int64 degree = true →
  virtual_slots_to_local scalar slots rows vc degree rank out mask fresh =
  if (rows <=? 0) || (vc <=? 1) || (degree <=? 0)
  then Raise (ValueError "virtual slot geometry must be positive and include usable pages")
  else if negb ((0 <=? rank) && (rank <? degree)) then Raise (ValueError "virtual slot owner rank is out of range")
  else if negb (bool_decide (t_dtype slots = int32) || bool_decide (t_dtype slots = int64))
  then Raise (TypeError "virtual slots must be int32 or int64")
  else if output_mismatch slots o (t_dtype slots) || output_mismatch slots m boolean
  then Raise (ValueError "virtual slot outputs must match shape, device and dtype")
  else Ok (with_elements o (fst ∘ placed_slot rows vc degree rank <$> elements slots),
           with_elements m (snd ∘ placed_slot rows vc degree rank <$> elements slots)).
Proof.
  intros Hsc [Hss Hrep] o m Hso Hsm Hbound Hdeg. unfold virtual_slots_to_local. fold o m.
  destruct ((rows <=? 0) || (vc <=? 1) || (degree <=? 0)) eqn:E1; [done|].
  destruct (negb ((0 <=? rank) && (rank <? degree))) eqn:E2; [done|].
  destruct (bool_decide (t_dtype slots = int32) || bool_decide (t_dtype slots = int64)) eqn:E3; [|done].
  rewrite orb_true_iff, !bool_decide_eq_true in E3. specialize (Hrep E3). specialize (Hbound E3).
  destruct (output_mismatch slots o (t_dtype slots) || output_mismatch slots m boolean) eqn:E4; [done|].
  apply orb_false_iff in E4 as [[Hdo Hlo]%matching_length [_ Hlm]%matching_length]; [|done..].
  cbn [negb raise_when mbind result_bind]. case_bool_decide as Hnil.
  { rewrite Hnil in *. cbn [fmap list_fmap]. rewrite <- (nil_length_inv _ Hlo), <- (nil_length_inv _ Hlm), !with_elements_same. done. }
  rewrite Hdo. case_match.
  { rewrite launch_any_order; (done || lia). }
  assert (represents (t_dtype slots) rows = true) as Hrows by (eapply represents_between; [exact Hbound|nia]).
  rewrite !Hsc; eauto using represents_int64; [|eapply represents_between; [exact Hdeg|lia]]. cbn [mbind result_bind].
  assert (translate_host rows (vc * rows) rows degree rank <$> elements slots = placed_slot rows vc degree rank <$> elements slots) as ->.
  { apply list_fmap_ext. intros i x Hx. pose proof (proj1 (Forall_lookup _ _) Hrep i x Hx) as Hr.
    apply host_placed; [lia|lia|exact (represents_int64 _ _ Hr)]. }
  rewrite <- !list_fmap_compose. do 2 f_equal. f_equal. apply list_fmap_ext. intros i x Hx.
  pose proof (proj1 (Forall_lookup _ _) Hrep i x Hx) as Hr. apply placed_represented; [lia|lia|done].
Qed.

(** ** Rows below a bound *)

(** The reference count: the rows [i < x] whose page has owner [k]. *)
Definition rows_owned (own : Z → Z) (page_size k x : Z) : Z :=
  sumZ ((λ i, eye (own (i / page_size)) k) <$> seqZ 0 x).

(** Rows [a, b), for a chunk. *)
Definition rows_owned_between (own : Z → Z) (page_size k a b : Z) : Z :=
  sumZ ((λ i, eye (own (i / page_size)) k) <$> seqZ a (b - a)).

Lemma rows_owned_split own ps k a b :
  0 ≤ a ≤ b → rows_owned own ps k b = rows_owned own ps k a + rows_owned_between own ps k a b.
Proof.
  intros Hab. unfold rows_owned, rows_owned_between.
  replace b with (a + (b - a)) at 1 by lia. rewrite seqZ_app by lia.
  by rewrite fmap_app, sumZ_app, Z.add_0_l.
Qed.

(** Rows of one page have its owner. *)
Lemma rows_owned_page own ps k c a b :
  0 < ps → c * ps ≤ a ≤ b → b ≤ (c + 1) * ps →
  rows_owned_between own ps k a b = eye (own c) k * (b - a).
Proof.
  intros Hps Hab Hb. unfold rows_owned_between.
  assert ((λ i, eye (own (i / ps)) k) <$> seqZ a (b - a) = (λ _, eye (own c) k) <$> seqZ a (b - a)) as ->.
  { apply list_fmap_ext. intros j i Hi. apply lookup_seqZ in Hi as [-> ?].
    replace ((a + Z.of_nat j) / ps) with c; [done|]. apply (Z.div_unique _ _ _ (a + Z.of_nat j - c * ps)); lia. }
  rewrite <-(replicate_seqZ _ a). clear -Hab. generalize (b - a), (proj2 (Z.le_0_sub a b) (proj2 Hab)).
  intros n Hn. rewrite <-(Z2Nat.id n Hn) at 2. induction (Z.to_nat n) as [|m IH]; [cbn; lia|].
  cbn [replicate]. rewrite sumZ_cons, IH. lia.
Qed.

(** Summing the clamped page lengths counts the rows. *)
Lemma page_tokens_count own ps k len (c : nat) :
  0 < ps → 0 ≤ len →
  sumZ ((λ col, eye (own col) k * page_tokens ps len col) <$> seqZ 0 (Z.of_nat c)) =
  rows_owned own ps k (Z.min len (Z.of_nat c * ps)).
Proof.
  intros Hps Hlen. induction c as [|c IH].
  { replace (Z.min len (Z.of_nat 0 * ps)) with 0 by lia. done. }
  rewrite Nat2Z.inj_succ, <-Z.add_1_r, seqZ_app by lia. rewrite fmap_app, sumZ_app, IH.
  rewrite Z.add_0_l. assert (seqZ (Z.of_nat c) 1 = [Z.of_nat c]) as -> by (by rewrite seqZ_cons by lia).
  cbn [fmap list_fmap sumZ foldr]. rewrite Z.add_0_r.
  rewrite (rows_owned_split own ps k (Z.min len (Z.of_nat c * ps)) (Z.min len ((Z.of_nat c + 1) * ps)))
    by nia. f_equal. unfold page_tokens. destruct (Z.le_gt_cases len (Z.of_nat c * ps)) as [Hle|Hgt].
  - rewrite (Z.min_l len (Z.of_nat c * ps)), (Z.min_l len ((Z.of_nat c + 1) * ps)) by nia.
    rewrite (Z.max_r (len - Z.of_nat c * ps)), Z.min_l by lia.
    unfold rows_owned_between. rewrite Z.sub_diag, Z.mul_0_r. done.
  - rewrite (Z.min_r len (Z.of_nat c * ps)) by lia.
    rewrite (rows_owned_page own ps k (Z.of_nat c)) by nia. f_equal. lia.
Qed.

Lemma eye_nonneg o k : 0 ≤ eye o k.
Proof. unfold eye. case_match; lia. Qed.

Lemma sum_eye o n : 0 ≤ o < n → sumZ (eye o <$> seqZ 0 n) = 1.
Proof. apply sumZ_eqb. Qed.

(** No row falls in the sink exactly when every row has an owner. *)
Lemma rows_owned_sink own ps k x :
  rows_owned own ps k x = 0 ↔ ∀ i, 0 ≤ i < x → own (i / ps) ≠ k.
Proof.
  unfold rows_owned. rewrite sumZ_zero.
  - rewrite Forall_fmap, Forall_forall. setoid_rewrite elem_of_seqZ. cbn. unfold eye.
    split; intros H i Hi; specialize (H i ltac:(lia)); cbn in *; case_match; lia.
  - apply Forall_fmap, Forall_forall. intros i _. apply eye_nonneg.
Qed.

Lemma rows_owned_total own ps n x :
  0 ≤ x → (∀ i, 0 ≤ i < x → 0 ≤ own (i / ps) < n) →
  sumZ ((λ k, rows_owned own ps k x) <$> seqZ 0 n) = x.
Proof.
  intros Hx Hown. unfold rows_owned. rewrite sumZ_swap.
  assert ((λ i, sumZ ((λ k, eye (own (i / ps)) k) <$> seqZ 0 n)) <$> seqZ 0 x = (λ _, 1) <$> seqZ 0 x) as ->.
  { apply list_fmap_ext. intros j i [-> ?]%lookup_seqZ. apply sum_eye, Hown. lia. }
  rewrite <-(replicate_seqZ _ 0). rewrite <-(Z2Nat.id x) at 2 by done.
  induction (Z.to_nat x) as [|m IH]; [done|]. cbn [replicate]. rewrite sumZ_cons, IH. lia.
Qed.

(** ** History counts *)

Definition degree_of (placement : option CachePlacement.t) : Z :=
  match placement with None => 1 | Some p => CachePlacement.degree p end.

Definition owner_of_page (placement : option CachePlacement.t) (page_size page : Z) : Z :=
  match placement with
  | None => if 0 <? page then 0 else 1
  | Some p => page_owner p page_size page
  end.

(** The owner of a column of a request's table; the sink past its end. *)
Definition column_owner (own : Z → Z) (sink : Z) (row : list Z) (col : Z) : Z :=
  match row !! Z.to_nat col with Some page => own page | None => sink end.

Lemma zip_columns own sink (t : Z → Z) (row : list Z) :
  zip (own <$> row) (t <$> seqZ 0 (Z.of_nat (length row))) =
  (λ col, (column_owner own sink row col, t col)) <$> seqZ 0 (Z.of_nat (length row)).
Proof.
  apply list_eq. intros i. rewrite lookup_zip_with, !list_lookup_fmap.
  destruct (row !! i) as [page|] eqn:E.
  - apply lookup_lt_Some in E as Hi. rewrite lookup_seqZ_lt by lia. cbn.
    unfold column_owner. rewrite Z.add_0_l, Nat2Z.id, E. done.
  - apply lookup_ge_None in E. rewrite lookup_seqZ_ge by lia. done.
Qed.

Lemma scatter_add_lookup width own sink ps len row k :
  0 < ps → 0 ≤ len ≤ Z.of_nat (length row) * ps → 0 ≤ k < width →
  scatter_add width (own <$> row) (page_tokens ps len <$> seqZ 0 (Z.of_nat (length row)))
    !! Z.to_nat k = Some (rows_owned (column_owner own sink row) ps k len).
Proof.
  intros Hps Hlen Hk. unfold scatter_add. rewrite list_lookup_fmap, lookup_seqZ_lt by lia.
  cbn [fmap option_fmap option_map]. f_equal. rewrite (zip_columns own sink).
  replace (0 + Z.of_nat (Z.to_nat k)) with k by lia.
  transitivity (rows_owned (column_owner own sink row) ps k
    (Z.min len (Z.of_nat (length row) * ps))); [|f_equal; lia].
  rewrite <-page_tokens_count by lia. f_equal. rewrite <-list_fmap_compose.
  apply list_fmap_ext. intros i col _. cbn. unfold eye. case_match; lia.
Qed.

Lemma max_or_zero_lt l n : 0 ≤ n → n < max_or_zero l ↔ ∃ x, x ∈ l ∧ n < x.
Proof.
  intros Hn. destruct l as [|x l]; cbn.
  { split; [lia|]. by intros (? & ?%not_elem_of_nil & _). }
  assert (∀ x, n < foldr Z.max x l ↔ n < x ∨ ∃ y, y ∈ l ∧ n < y) as ->.
  { clear x. intros x. induction l as [|y l IH]; cbn.
    - split; [by left|]. by intros [?|(? & ?%not_elem_of_nil & _)].
    - rewrite Z.max_lt_iff, IH. setoid_rewrite elem_of_cons. naive_solver. }
  setoid_rewrite elem_of_cons. naive_solver.
Qed.

(** The table of owned rows, one entry per request. *)
Definition owned_column (own : Z → Z) (sink page_size k : Z) (table : list (list Z)) (lens : list Z) :
    list Z :=
  zip_with (λ row len, rows_owned (column_owner own sink row) page_size k len) table lens.

Lemma scatter_table own sink ps columns k table lens :
  0 < ps → 0 ≤ k ≤ sink → Forall (λ row : list Z, Z.of_nat (length row) = columns) table →
  Forall (λ len, 0 ≤ len ≤ columns * ps) lens →
  (λ row : list Z, default 0 (row !! Z.to_nat k)) <$>
    zip_with (λ (row : list Z) len, scatter_add (sink + 1) (own <$> row)
      (page_tokens ps len <$> seqZ 0 columns)) table lens =
  owned_column own sink ps k table lens.
Proof.
  intros Hps Hk Htab. revert lens. unfold owned_column.
  induction Htab as [|row table Hrow _ IH]; intros lens Hlens; [done|].
  destruct Hlens as [|len lens Hlen Hlens]; [done|]. cbn [zip_with]. rewrite fmap_cons, IH by done.
  f_equal. rewrite <-Hrow in *. by rewrite (scatter_add_lookup _ own sink) by lia.
Qed.

Lemma owned_column_zero own sink ps table lens :
  sumZ (owned_column own sink ps sink table lens) = 0 ↔
  ∀ r row len i, table !! r = Some row → lens !! r = Some len → 0 ≤ i < len →
    column_owner own sink row (i / ps) ≠ sink.
Proof.
  unfold owned_column. rewrite sumZ_zero.
  - rewrite Forall_lookup. setoid_rewrite lookup_zip_with_Some. split.
    + intros H r row len i Hr Hl. revert i. apply rows_owned_sink. eapply (H r). by eexists _, _.
    + intros H r x (row & len & -> & Hr & Hl). apply rows_owned_sink. intros i. by apply (H r).
  - apply Forall_lookup. intros r x (row & len & -> & _)%lookup_zip_with_Some.
    apply sumZ_nonneg, Forall_fmap, Forall_forall. intros i _. apply eye_nonneg.
Qed.

(** A placement the counters can use. *)
Definition placement_ok (placement : option CachePlacement.t) (page_size : Z) : Prop :=
  match placement with
  | None => True
  | Some p => 0 < CachePlacement.degree p ∧ 0 < CachePlacement.block_granularity p / page_size
  end.

Lemma owner_of_page_range placement ps page :
  placement_ok placement ps → 0 ≤ owner_of_page placement ps page ≤ degree_of placement.
Proof.
  destruct placement as [p|]; cbn; [|case_match; lia]. intros [Hd _]. unfold page_owner.
  case_match; [|lia]. pose proof (Z.mod_pos_bound
    (page / (CachePlacement.block_granularity p / ps) - 1) (CachePlacement.degree p) Hd). lia.
Qed.

Lemma column_owner_range placement ps row col :
  placement_ok placement ps →
  0 ≤ column_owner (owner_of_page placement ps) (degree_of placement) row col ≤ degree_of placement.
Proof.
  intros Hp. unfold column_owner. case_match; [by apply owner_of_page_range|].
  destruct placement; cbn in *; lia.
Qed.

(** The counter, once the table covers the histories. *)
Lemma owned_history_rows_covered table columns lens ps placement :
  0 < ps → placement_ok placement ps → length table = length lens →
  Forall (λ row : list Z, Z.of_nat (length row) = columns) table →
  0 ≤ columns → Forall (λ len, 0 ≤ len ≤ columns * ps) lens →
  let own := owner_of_page placement ps in
  let degree := degree_of placement in
  owned_history_rows table columns lens ps placement =
  if sumZ (owned_column own degree ps degree table lens) =? 0
  then Ok ((λ k, owned_column own degree ps k table lens) <$> seqZ 0 degree)
  else Raise (ValueError "history page table has holes below the request lengths").
Proof.
  intros Hps Hp Hlen Htab Hcol Hlens own degree. unfold owned_history_rows.
  rewrite (proj2 (Nat.eqb_eq _ _) Hlen). cbn [negb raise_when mbind result_bind].
  assert ((columns * ps <? max_or_zero lens) = false) as ->.
  { apply Z.ltb_ge, Z.nlt_ge. rewrite max_or_zero_lt by nia. intros (x & Hx & ?).
    rewrite Forall_forall in Hlens. specialize (Hlens x Hx). cbn in Hlens. lia. }
  cbn [raise_when mbind result_bind].
  match goal with |- (?o ≫= ?k) = _ => assert (o = Ok own) as -> end.
  { destruct placement as [p|]; [|done]. destruct Hp as [_ Hp]. by rewrite (proj2 (Z.eqb_neq _ 0)) by lia. }
  cbn [mbind result_bind]. fold (degree_of placement) degree.
  assert (0 ≤ degree) by (unfold degree; destruct placement; cbn in *; lia).
  rewrite (scatter_table own degree ps columns degree) by (done || lia).
  destruct (sumZ _ =? 0); [|done]. cbn [negb raise_when mbind result_bind]. f_equal.
  apply list_fmap_ext. intros i k Hk%list_elem_of_lookup_2%elem_of_seqZ.
  by rewrite (scatter_table own degree ps columns k) by (done || lia).
Qed.

Lemma covered_or_not b lens :
  Forall (Z.le 0) lens → Forall (λ len, 0 ≤ len ≤ b) lens ∨ ∃ len, len ∈ lens ∧ b < len.
Proof.
  intros Hpos. destruct (decide (Exists (λ len, b < len) lens)) as [He|He].
  - right. by apply Exists_exists in He.
  - left. apply Forall_forall. intros len Hl. rewrite Forall_forall in Hpos.
    specialize (Hpos len Hl). split; [done|]. apply Z.nlt_ge. intros Hlt. apply He, Exists_exists.
    by exists len.
Qed.

Lemma owned_history_uncovered table columns lens ps placement :
  0 < ps → length table = length lens → 0 ≤ columns →
  (∃ len, len ∈ lens ∧ columns * ps < len) →
  owned_history_rows table columns lens ps placement =
  Raise (ValueError "page table does not cover a history").
Proof.
  intros Hps Hlen Hcol Hunc. unfold owned_history_rows. rewrite (proj2 (Nat.eqb_eq _ _) Hlen).
  apply max_or_zero_lt in Hunc; [|nia]. by rewrite (proj2 (Z.ltb_lt _ _) Hunc).
Qed.

Lemma owned_column_nonzero own sink ps table lens :
  sumZ (owned_column own sink ps sink table lens) ≠ 0 →
  ∃ r row len i, table !! r = Some row ∧ lens !! r = Some len ∧ 0 ≤ i < len ∧
    column_owner own sink row (i / ps) = sink.
Proof.
  intros Hnz. assert (¬ Forall (λ x, x = 0) (owned_column own sink ps sink table lens)) as H.
  { intros H. apply Hnz. clear Hnz. induction H as [|x l -> _ IH]; [done|]. by rewrite sumZ_cons, IH. }
  apply not_Forall_Exists, Exists_exists in H as (x & Hx & Hne); [|apply _].
  apply list_elem_of_lookup in Hx as [r (row & len & -> & Hr & Hl)%lookup_zip_with_Some].
  destruct (decide (Exists (λ i, column_owner own sink row (i / ps) = sink) (seqZ 0 len))) as [He|He].
  - apply Exists_exists in He as (i & Hi%elem_of_seqZ & Ho). exists r, row, len, i.
    split_and!; (done || lia).
  - destruct Hne. apply rows_owned_sink. intros i Hi Ho. apply He, Exists_exists. exists i.
    split; [apply elem_of_seqZ; lia|done].
Qed.

(** ** Prefix chunks *)

Lemma prefix_sums_lookup t l i :
  (i ≤ length l)%nat → prefix_sums t l !! i = Some (t + sumZ (take i l)).
Proof.
  revert t i. induction l as [|x l IH]; intros t [|i] Hi; cbn [prefix_sums length] in *; cbn; try lia.
  - by rewrite Z.add_0_r.
  - by rewrite Z.add_0_r.
  - rewrite IH by lia. f_equal. change (foldr Z.add 0 (take i l)) with (sumZ (take i l)). lia.
Qed.

Lemma length_prefix_sums t l : length (prefix_sums t l) = S (length l).
Proof. revert t. induction l as [|x l IH]; intros t; cbn; [done|]. by rewrite IH. Qed.

(** The owner of a column, from the list of owners. *)
Definition listed_owner (sink : Z) (owner : list Z) (col : Z) : Z :=
  default sink (owner !! Z.to_nat col).

Lemma whole_pages_count sink owner ps k (w : nat) :
  0 < ps → (w ≤ length owner)%nat →
  sumZ (take w ((λ o, eye o k * ps) <$> owner)) =
  rows_owned (listed_owner sink owner) ps k (Z.of_nat w * ps).
Proof.
  intros Hps Hw. transitivity (rows_owned (listed_owner sink owner) ps k
    (Z.min (Z.of_nat w * ps) (Z.of_nat w * ps))); [|f_equal; lia].
  rewrite <-page_tokens_count by lia. f_equal. apply list_eq. intros i.
  destruct (decide (i < w)%nat) as [Hi|Hi].
  - rewrite lookup_take_lt, !list_lookup_fmap, lookup_seqZ_lt by lia.
    destruct (lookup_lt_is_Some_2 owner i ltac:(lia)) as [o Ho].
    unfold listed_owner, page_tokens. cbn [fmap option_fmap option_map].
    rewrite Z.add_0_l, Nat2Z.id, Ho. cbn. do 2 f_equal. nia.
  - rewrite lookup_take_ge, list_lookup_fmap, lookup_seqZ_ge by lia. done.
Qed.

Lemma py_index_lookup {A} (l : list A) i x :
  0 ≤ i → l !! Z.to_nat i = Some x → py_index l i = Ok x.
Proof.
  intros Hi Hx. apply lookup_lt_Some in Hx as Hl. unfold py_index. rewrite Hx.
  rewrite (proj2 (Z.leb_le _ _) Hi), (proj2 (Z.ltb_lt _ _)) by lia. done.
Qed.

Lemma rows_below_spec sink owner columns ps degree b :
  0 < ps → Z.of_nat (length owner) = columns → 0 < columns → 0 ≤ b ≤ columns * ps →
  rows_below owner columns ps degree b =
  Ok ((λ k, rows_owned (listed_owner sink owner) ps k b) <$> seqZ 0 (degree + 1)).
Proof.
  intros Hps Hl Hc Hb. unfold rows_below. apply mapM_Ok, Forall2_fmap_r, Forall_Forall2_diag.
  apply Forall_forall. intros k _. unfold compose.
  pose proof (Z.div_mod b ps ltac:(lia)) as Hdm. pose proof (Z.mod_pos_bound b ps Hps) as Hm.
  pose proof (Z.div_pos b ps ltac:(lia) Hps) as Hw. set (w := b / ps) in *. set (m := b mod ps) in *.
  assert (w ≤ columns) as Hwc by nia.
  rewrite (py_index_lookup _ w (0 + sumZ (take (Z.to_nat w) ((λ o, eye o k * ps) <$> owner))));
    [|done|apply prefix_sums_lookup; rewrite length_fmap; lia].
  rewrite (whole_pages_count sink) by lia. cbn [mbind result_bind].
  destruct (lookup_lt_is_Some_2 owner (Z.to_nat (Z.min w (columns - 1))) ltac:(lia)) as [o Ho].
  rewrite (py_index_lookup _ _ o) by (done || lia). cbn [mbind result_bind]. f_equal.
  rewrite Z2Nat.id, Z.add_0_l by done.
  rewrite (rows_owned_split _ ps k (w * ps) b) by nia. f_equal.
  rewrite (rows_owned_page _ ps k w) by nia. replace (b - w * ps) with m by nia.
  destruct (decide (m = 0)) as [->|Hne]; [by rewrite !Z.mul_0_r|].
  f_equal. f_equal. unfold listed_owner. rewrite Z.min_l in Ho by nia. by rewrite Ho.
Qed.

Lemma zip_with_fmap2 {A B C D} (h : B → C → D) (f : A → B) (g : A → C) l :
  zip_with h (f <$> l) (g <$> l) = (λ x, h (f x) (g x)) <$> l.
Proof. induction l as [|x l IH]; [done|]. rewrite !fmap_cons. cbn [zip_with]. by rewrite IH. Qed.

(** Zipping stops at the shorter list. *)
Lemma zip_with_shorter {A B C} (h : A → B → C) l k k' :
  length l = length k → zip_with h l (k ++ k') = zip_with h l k.
Proof.
  revert k. induction l as [|x l IH]; intros [|y k] Hl; try done; cbn in *.
  f_equal. apply IH. lia.
Qed.

(** The bounds of chunk [j] of a prefix. *)
Definition chunk_bound (chunk_len prefix j : Z) : Z := Z.min (j * chunk_len) prefix.

Definition chunk_rows (own : Z → Z) (page_size chunk_len prefix j k : Z) : Z :=
  rows_owned_between own page_size k (chunk_bound chunk_len prefix j)
    (chunk_bound chunk_len prefix (j + 1)).

Lemma request_chunks_spec sink owner columns ps degree chunk_len num_chunks prefix :
  0 < ps → Z.of_nat (length owner) = columns → 0 < columns → 0 ≤ chunk_len → 0 ≤ num_chunks →
  0 ≤ prefix ≤ columns * ps →
  request_chunks owner columns ps degree chunk_len num_chunks prefix =
  Ok ((λ j, (λ k, chunk_rows (listed_owner sink owner) ps chunk_len prefix j k)
         <$> seqZ 0 (degree + 1)) <$> seqZ 0 num_chunks).
Proof.
  intros Hps Hl Hc Hcl Hn Hp. unfold request_chunks.
  pose (row j := (λ k, rows_owned (listed_owner sink owner) ps k (chunk_bound chunk_len prefix j))
    <$> seqZ 0 (degree + 1)).
  assert (mapM (λ j, rows_below owner columns ps degree (Z.min (j * chunk_len) prefix))
    (seqZ 0 (num_chunks + 1)) = Ok (row <$> seqZ 0 (num_chunks + 1))) as ->.
  { apply mapM_Ok, Forall2_fmap_r, Forall_Forall2_diag, Forall_forall. intros j Hj%elem_of_seqZ.
    unfold compose, row, chunk_bound. apply rows_below_spec; [done..|]. nia. }
  cbn [mbind result_bind]. f_equal.
  assert (tail (row <$> seqZ 0 (num_chunks + 1)) = (λ j, row (j + 1)) <$> seqZ 0 num_chunks) as ->.
  { rewrite seqZ_cons by lia. rewrite fmap_cons. cbn [tail].
    replace (Z.pred (num_chunks + 1)) with num_chunks by lia.
    apply list_eq. intros i. rewrite !list_lookup_fmap. destruct (decide (Z.of_nat i < num_chunks)).
    - rewrite !lookup_seqZ_lt by lia. cbn. do 2 f_equal. lia.
    - by rewrite !lookup_seqZ_ge by lia. }
  rewrite seqZ_app, fmap_app by lia.
  rewrite zip_with_shorter by (by rewrite !length_fmap). rewrite zip_with_fmap2. apply list_fmap_ext.
  intros i j [-> Hj]%lookup_seqZ. unfold row. rewrite zip_with_fmap2. apply list_fmap_ext. intros _ k _.
  unfold chunk_rows. rewrite (rows_owned_split _ ps k (chunk_bound chunk_len prefix (0 + Z.of_nat i))
    (chunk_bound chunk_len prefix (0 + Z.of_nat i + 1))); [lia|]. unfold chunk_bound. nia.
Qed.

(** Adding the requests' tables adds their entries. *)
Lemma sum_tables {A} (f : A → Z → Z → Z) n d (xs : list A) :
  foldr (zip_with (zip_with Z.add)) (replicate (Z.to_nat n) (replicate (Z.to_nat d) 0))
    ((λ x, (λ j, (λ k, f x j k) <$> seqZ 0 d) <$> seqZ 0 n) <$> xs) =
  (λ j, (λ k, sumZ ((λ x, f x j k) <$> xs)) <$> seqZ 0 d) <$> seqZ 0 n.
Proof.
  induction xs as [|x xs IH].
  - cbn [fmap list_fmap foldr]. rewrite (replicate_seqZ _ 0 n), (replicate_seqZ 0 0 d). done.
  - rewrite fmap_cons. cbn [foldr]. rewrite IH, zip_with_fmap2. apply list_fmap_ext. intros _ j _.
    rewrite zip_with_fmap2. apply list_fmap_ext. intros _ k _. by rewrite fmap_cons, sumZ_cons.
Qed.

(** The chunks of a prefix add up to the rows they reach. *)
Lemma chunk_rows_total own ps c P k (n : nat) :
  0 ≤ c → 0 ≤ P →
  sumZ ((λ j, chunk_rows own ps c P j k) <$> seqZ 0 (Z.of_nat n)) =
  rows_owned own ps k (chunk_bound c P (Z.of_nat n)).
Proof.
  intros Hc HP. induction n as [|n IH].
  { unfold chunk_bound. rewrite Z.mul_0_l, Z.min_l by lia. done. }
  rewrite Nat2Z.inj_succ, <-Z.add_1_r, seqZ_app, fmap_app, sumZ_app, IH by lia. rewrite Z.add_0_l.
  assert (seqZ (Z.of_nat n) 1 = [Z.of_nat n]) as -> by (by rewrite seqZ_cons by lia).
  cbn [fmap list_fmap]. rewrite sumZ_cons. unfold chunk_rows.
  rewrite (rows_owned_split own ps k (chunk_bound c P (Z.of_nat n)) (chunk_bound c P (Z.of_nat n + 1)));
    [cbn; lia|]. unfold chunk_bound. nia.
Qed.

(** Only the owners of the columns that hold rows matter. *)
Lemma rows_owned_between_ext own own' ps k a b :
  (∀ i, a ≤ i < b → own (i / ps) = own' (i / ps)) →
  rows_owned_between own ps k a b = rows_owned_between own' ps k a b.
Proof.
  intros H. unfold rows_owned_between. f_equal. apply list_fmap_ext.
  intros j i [-> ?]%lookup_seqZ. by rewrite H by lia.
Qed.

Lemma listed_column_owner own sink row columns i ps :
  0 < ps → 0 ≤ i < columns * ps → columns ≤ Z.of_nat (length row) →
  listed_owner sink (own <$> take (Z.to_nat columns) row) (i / ps) = column_owner own sink row (i / ps).
Proof.
  intros Hps Hi Hc. pose proof (Z.div_pos i ps ltac:(lia) Hps).
  assert (i / ps < columns) by (apply Z.div_lt_upper_bound; lia).
  unfold listed_owner, column_owner. rewrite list_lookup_fmap, lookup_take_lt by lia.
  by destruct (row !! Z.to_nat (i / ps)).
Qed.

(** The reference table: rows of chunk [j] that rank [k] owns, over all requests. *)
Definition chunk_table (own : Z → Z) (sink page_size chunk_len num_chunks width : Z)
    (table : list (list Z)) (lens : list Z) : list (list Z) :=
  (λ j, (λ k, sumZ ((λ x : list Z * Z,
      chunk_rows (column_owner own sink x.1) page_size chunk_len x.2 j k) <$> zip table lens))
    <$> seqZ 0 width) <$> seqZ 0 num_chunks.

Lemma chunk_bound_le c P j : chunk_bound c P j ≤ P.
Proof. unfold chunk_bound. lia. Qed.

Lemma requests_chunks own sink ps columns c n table lens :
  0 < ps → 0 < columns → 0 ≤ c → 0 ≤ n →
  Forall (λ row : list Z, columns ≤ Z.of_nat (length row)) table →
  Forall (λ len, 0 ≤ len ≤ columns * ps) lens →
  mapM (λ request : list Z * Z, request_chunks (own <$> take (Z.to_nat columns) request.1)
    columns ps sink c n request.2) (zip table lens) =
  Ok ((λ x : list Z * Z, (λ j, (λ k, chunk_rows (column_owner own sink x.1) ps c x.2 j k)
         <$> seqZ 0 (sink + 1)) <$> seqZ 0 n) <$> zip table lens).
Proof.
  intros Hps Hcol Hc Hn Htab Hlens. apply mapM_Ok, Forall2_fmap_r, Forall_Forall2_diag, Forall_lookup.
  intros i [row len] (row' & len' & [= -> ->] & Hr & Hl)%lookup_zip_with_Some. unfold compose. cbn [fst snd].
  rewrite Forall_lookup in Htab. rewrite Forall_lookup in Hlens. specialize (Htab i row' Hr). specialize (Hlens i len' Hl). cbn in *.
  rewrite (request_chunks_spec sink); [|done|rewrite length_fmap, length_take; lia|done..].
  f_equal. apply list_fmap_ext. intros _ j Hj%list_elem_of_lookup_2%elem_of_seqZ.
  apply list_fmap_ext. intros _ k _. apply rows_owned_between_ext. intros x Hx.
  apply listed_column_owner; [done| |done]. pose proof (chunk_bound_le c len' (j + 1)).
  assert (0 ≤ chunk_bound c len' j) by (unfold chunk_bound; nia). lia.
Qed.

(** The sink of the reference table counts the rows without an owner that the
    chunks reach. *)
Lemma chunk_table_sink own sink ps c n table lens :
  0 ≤ c → 0 ≤ n → 0 ≤ sink → Forall (Z.le 0) lens →
  sumZ ((λ row : list Z, default 0 (row !! Z.to_nat sink)) <$>
    chunk_table own sink ps c n (sink + 1) table lens) =
  sumZ (owned_column own sink ps sink table ((λ len, chunk_bound c len n) <$> lens)).
Proof.
  intros Hc Hn Hs Hlens. unfold chunk_table. rewrite <-list_fmap_compose.
  assert (∀ j, default 0 (((λ k, sumZ ((λ x : list Z * Z,
      chunk_rows (column_owner own sink x.1) ps c x.2 j k) <$> zip table lens))
      <$> seqZ 0 (sink + 1)) !! Z.to_nat sink) =
    sumZ ((λ x : list Z * Z, chunk_rows (column_owner own sink x.1) ps c x.2 j sink) <$> zip table lens))
    as Hlook.
  { intros j. rewrite list_lookup_fmap, lookup_seqZ_lt by lia. cbn [fmap option_fmap option_map default].
    by replace (0 + Z.of_nat (Z.to_nat sink)) with sink by lia. }
  transitivity (sumZ ((λ j, sumZ ((λ x : list Z * Z,
    chunk_rows (column_owner own sink x.1) ps c x.2 j sink) <$> zip table lens)) <$> seqZ 0 n)).
  { f_equal. apply list_fmap_ext. intros _ j _. unfold compose. apply Hlook. }
  rewrite sumZ_swap. f_equal.
  unfold owned_column. rewrite zip_with_fmap_r. clear Hlook. revert lens Hlens.
  induction table as [|row table IH]; intros lens Hlens; [done|].
  destruct Hlens as [|len lens Hlen Hlens]; [done|]. cbn [zip_with]. rewrite fmap_cons, IH by done.
  f_equal. cbn [fst snd]. rewrite <-(Z2Nat.id n) by done. by apply chunk_rows_total.
Qed.

Lemma take_chunk_table own sink ps c n table lens :
  0 ≤ sink →
  take (Z.to_nat sink) <$> chunk_table own sink ps c n (sink + 1) table lens =
  chunk_table own sink ps c n sink table lens.
Proof.
  intros Hs. unfold chunk_table. rewrite <-list_fmap_compose. apply list_fmap_ext. intros _ j _.
  unfold compose. rewrite seqZ_app, fmap_app, take_app_length' by (rewrite ?length_fmap, ?length_seqZ; lia).
  done.
Qed.

Lemma max_or_zero_bounds l b :
  0 ≤ b → Forall (λ x, 0 ≤ x ≤ b) l →
  0 ≤ max_or_zero l ≤ b ∧ Forall (λ x, 0 ≤ x ≤ max_or_zero l) l.
Proof.
  intros Hb Hl. rewrite Forall_forall in Hl.
  assert (∀ x, x ∈ l → x ≤ max_or_zero l) as Hle.
  { intros x Hx. apply Z.nlt_ge. intros Hlt.
    destruct (decide (0 ≤ max_or_zero l)) as [H0|H0].
    - apply (Z.lt_irrefl (max_or_zero l)), max_or_zero_lt; [done|]. by exists x.
    - destruct l as [|y l]; [by apply not_elem_of_nil in Hx|]. apply H0. cbn.
      assert (∀ k : list Z, y ≤ foldr Z.max y k) as Hy by (induction k; cbn; lia).
      specialize (Hy l). specialize (Hl y ltac:(by left)). cbn in Hl. lia. }
  split.
  - split.
    + destruct l as [|x l]; [done|]. specialize (Hle x ltac:(by left)).
      specialize (Hl x ltac:(by left)). cbn in *. lia.
    + apply Z.nlt_ge. rewrite max_or_zero_lt by done. intros (x & Hx & ?).
      specialize (Hl x Hx). cbn in Hl. lia.
  - apply Forall_forall. intros x Hx. specialize (Hl x Hx). specialize (Hle x Hx). cbn in *. lia.
Qed.

(** With no prefix there is nothing to count. *)
Lemma empty_prefix_rows own ps c len j k : 0 ≤ c → 0 ≤ j → len = 0 → chunk_rows own ps c len j k = 0.
Proof.
  intros Hc Hj ->. unfold chunk_rows, chunk_bound. rewrite !Z.min_r by nia. done.
Qed.

Lemma empty_prefixes_sink own sink ps c n k table lens :
  0 ≤ c → 0 ≤ n → Forall (λ len, len = 0) lens →
  sumZ (owned_column own sink ps k table ((λ len, chunk_bound c len n) <$> lens)) = 0.
Proof.
  intros Hc Hn Hz. apply sumZ_zero.
  - apply Forall_lookup. intros r x (row & len & -> & _)%lookup_zip_with_Some.
    apply sumZ_nonneg, Forall_fmap, Forall_forall. intros i _. apply eye_nonneg.
  - apply Forall_lookup. intros r x (row & len & -> & _ & Hl)%lookup_zip_with_Some.
    rewrite list_lookup_fmap in Hl. destruct (lens !! r) as [len'|] eqn:E; [|done].
    injection Hl as <-. rewrite Forall_lookup in Hz. rewrite (Hz r len' E).
    unfold chunk_bound. by rewrite Z.min_r by nia.
Qed.

Lemma empty_prefixes_table own sink ps c n width table lens :
  0 ≤ c → Forall (λ len, len = 0) lens →
  replicate (Z.to_nat n) (replicate (Z.to_nat width) 0) =
  chunk_table own sink ps c n width table lens.
Proof.
  intros Hc Hz. unfold chunk_table. rewrite (replicate_seqZ _ 0 n), (replicate_seqZ 0 0 width).
  apply list_fmap_ext. intros _ j Hj%list_elem_of_lookup_2%elem_of_seqZ. apply list_fmap_ext. intros _ k _.
  symmetry. rewrite <-(sumZ_fmap_zero (zip table lens)). f_equal. apply list_fmap_ext.
  intros i x (row & len & -> & _ & Hl)%lookup_zip_with_Some. rewrite Forall_lookup in Hz.
  apply empty_prefix_rows; [done|lia|]. by apply (Hz i).
Qed.

Lemma owned_prefix_uncovered table width lens c n ps p :
  0 < ps → length table = length lens → 0 ≤ width →
  (∃ len, len ∈ lens ∧ width * ps < len) →
  owned_prefix_chunk_rows table width lens c n ps p =
  Raise (ValueError "page table does not cover a prefix").
Proof.
  intros Hps Hlen Hw Hunc. unfold owned_prefix_chunk_rows. rewrite (proj2 (Nat.eqb_eq _ _) Hlen).
  apply max_or_zero_lt in Hunc; [|nia]. cbn [negb raise_when mbind result_bind].
  rewrite (proj2 (Z.ltb_lt width _)); [done|].
  pose proof (Z.div_mod (- max_or_zero lens) ps ltac:(lia)).
  pose proof (Z.mod_pos_bound (- max_or_zero lens) ps Hps). nia.
Qed.

(** The counter, once the table covers the prefixes. *)
Lemma owned_prefix_covered table width lens c n ps p :
  0 < ps → 0 < CachePlacement.degree p → 0 ≤ c → 0 ≤ n → length table = length lens →
  Forall (λ row : list Z, Z.of_nat (length row) = width) table →
  Forall (λ len, 0 ≤ len ≤ width * ps) lens → 0 ≤ width →
  let own := page_owner p ps in
  let degree := CachePlacement.degree p in
  owned_prefix_chunk_rows table width lens c n ps p =
  if sumZ (owned_column own degree ps degree table ((λ len, chunk_bound c len n) <$> lens)) =? 0
  then Ok (chunk_table own degree ps c n degree table lens)
  else Raise (ValueError "prefix page table has holes below the prefix lengths").
Proof.
  intros Hps Hd Hc Hn Hlen Htab Hlens Hwid own degree. unfold owned_prefix_chunk_rows.
  rewrite (proj2 (Nat.eqb_eq _ _) Hlen). cbn [negb raise_when mbind result_bind].
  fold degree own. set (m := max_or_zero lens).
  assert (0 ≤ m ≤ width * ps ∧ Forall (λ len, 0 ≤ len ≤ m) lens) as [Hm Hlm]
    by (apply max_or_zero_bounds; [nia|done]).
  set (columns := - (- m / ps)).
  assert (m ≤ columns * ps < m + ps) as Hcd.
  { pose proof (Z.div_mod (- m) ps ltac:(lia)). pose proof (Z.mod_pos_bound (- m) ps Hps). nia. }
  assert (0 ≤ columns ≤ width) as Hcw by nia.
  rewrite (proj2 (Z.ltb_ge width columns)) by lia. cbn [raise_when mbind result_bind].
  assert (Forall (Z.le 0) lens) as Hpos by (eapply Forall_impl; [exact Hlm|]; cbn; lia).
  destruct (Z.eqb_spec columns 0) as [Hz|Hnz].
  - assert (Forall (λ len, len = 0) lens) as Hzero
      by (eapply Forall_impl; [exact Hlm|]; intros len Hl; cbn in Hl |- *; nia).
    rewrite empty_prefixes_sink, Z.eqb_refl by done. f_equal. by apply empty_prefixes_table.
  - rewrite (requests_chunks own degree ps columns c n table lens); [|done|lia|done|done| |].
    2:{ eapply Forall_impl; [exact Htab|]. intros row Hrow. cbn in Hrow |- *. lia. }
    2:{ eapply Forall_impl; [exact Hlm|]. intros len Hl. cbn in Hl |- *. nia. }
    cbn [mbind result_bind]. rewrite sum_tables.
    fold (chunk_table own degree ps c n (degree + 1) table lens).
    rewrite chunk_table_sink by (done || lia). destruct (sumZ _ =? 0); [|done].
    cbn [negb raise_when mbind result_bind]. by rewrite take_chunk_table by lia.
Qed.

(** ** Properties *)

(** C38: The slot kernel and the host compute the same translation, if the dtype of the
    slots represents the number of virtual slots and [int64] the degree.  On either, the
    call is refused for its geometry, its rank, the dtype of the slots or a mismatched
    output, in this order, and otherwise leaves in the outputs, whatever they held, of
    each slot of a block in range that the rank owns the same row of the block's
    local page and the mask true, and 0 and false of every other slot.  The programs of
    the kernel's grid may run in any order. *)
Theorem device_slots_equal_host scalar slots rows vc degree rank out mask fresh :
  scalar_exact scalar → slots_ok slots → let o := out_buffer slots out fresh.1 in let m := mask_buffer slots mask fresh.2 in
  sized o → sized m →
  (t_dtype slots = int32 ∨ t_dtype slots = int64 → represents (t_dtype slots) (vc * rows) = true) → represents int64 degree = true →
  let translated := placed_slot rows vc degree rank <$> elements slots in
  (virtual_slots_to_local scalar slots rows vc degree rank out mask fresh =
   if (rows <=? 0) || (vc <=? 1) || (degree <=? 0)
   then Raise (ValueError "virtual slot geometry must be positive and include usable pages")
   else if negb ((0 <=? rank) && (rank <? degree)) then Raise (ValueError "virtual slot owner rank is out of range")
   else if negb (bool_decide (t_dtype slots = int32) || bool_decide (t_dtype slots = int64))
   then Raise (TypeError "virtual slots must be int32 or int64")
   else if output_mismatch slots o (t_dtype slots) || output_mismatch slots m boolean
   then Raise (ValueError "virtual slot outputs must match shape, device and dtype")
   else Ok (with_elements o translated.*1, with_elements m translated.*2)) ∧
  (∀ r pids, virtual_slots_to_local scalar slots rows vc degree rank out mask fresh = Ok r →
    pids ≡ₚ seqZ 0 (ceil_div (Z.of_nat (length (elements slots))) 256) →
    foldl (_translate_virtual_slots (elements slots) (t_dtype o) rows vc degree rank 256) (elements o, elements m) pids =
    (elements r.1, elements r.2)).
Proof.
  intros Hsc Hok o m Hso Hsm Hbound Hdeg translated. unfold translated. rewrite <- !list_fmap_compose.
  split; [by apply translation_outcome|]. intros r pids. rewrite translation_outcome by done. fold o m.
  destruct ((rows <=? 0) || (vc <=? 1) || (degree <=? 0)) eqn:E1; [done|]. case_match; [done|].
  destruct (bool_decide (t_dtype slots = int32) || bool_decide (t_dtype slots = int64)) eqn:E3; [|done].
  rewrite orb_true_iff, !bool_decide_eq_true in E3. destruct Hok as [Hss Hrep]. specialize (Hrep E3). cbn [negb].
  destruct (output_mismatch slots o (t_dtype slots) || output_mismatch slots m boolean) eqn:E4; [done|].
  apply orb_false_iff in E4 as [[Hdo Hlo]%matching_length [_ Hlm]%matching_length]; [|done..].
  intros [= <-] Hp. rewrite Hdo. rewrite launch_any_order; (done || lia).
Qed.

(** A conversion that refuses what the dtype does not represent. *)
Definition checked_scalar (d : dtype) (x : Z) : result Z :=
  if represents d x then Ok x else Raise (RuntimeError "value cannot be converted without overflow").

Lemma checked_scalar_exact : scalar_exact checked_scalar.
Proof. intros d x H. unfold checked_scalar. by rewrite H. Qed.

Definition some_slots (d : device) : tensor Z := mkTensor int32 d [2; 3] true [0; 4; 9; 13; -1; 40].

Lemma some_slots_ok d : slots_ok (some_slots d).
Proof. split; [done|]. intros _. repeat constructor. Qed.

Lemma device_slots_equal_host_witness :
  (elements ∘ fst) <$> match virtual_slots_to_local checked_scalar (some_slots (cuda 0)) 4 6 2 1 None None
    ([7; 7; 7; 7; 7; 7], [true; true; true; true; true; true]) with Ok r => Some r | Raise _ => None end =
  Some [0; 0; 5; 0; 0; 0] ∧
  (elements ∘ snd) <$> match virtual_slots_to_local checked_scalar (some_slots cpu) 4 6 2 1 None None
    ([7; 7; 7; 7; 7; 7], [true; true; true; true; true; true]) with Ok r => Some r | Raise _ => None end =
  Some [false; false; true; false; false; false].
Proof.
  split; rewrite (proj1 (device_slots_equal_host checked_scalar (some_slots _) 4 6 2 1 None None
    ([7; 7; 7; 7; 7; 7], [true; true; true; true; true; true]) checked_scalar_exact (some_slots_ok _)
    ltac:(reflexivity) ltac:(reflexivity) ltac:(intros _; reflexivity) ltac:(reflexivity))); vm_compute; reflexivity.
Defined.

(** Every slot has one owner.  For a placement, the ranks' masks are true
    for exactly the rank [cyclic_slot_owner] names, which is some rank exactly
    for the slots of non-null blocks in range; the owner's local slot is the same
    row of the block's local page, from which the slot is recovered, and does not
    exceed the slot; every other rank gets slot 0. *)
Theorem slot_translation_exact scalar p p' slots fresh :
  scalar_exact scalar → slots_ok slots → t_dtype slots = int32 ∨ t_dtype slots = int64 →
  length fresh.1 = length (elements slots) → length fresh.2 = length (elements slots) →
  represents (t_dtype slots) (CachePlacement.virtual_block_count p * CachePlacement.block_granularity p) = true →
  represents int64 (CachePlacement.degree p) = true →
  CachePlacement.post_init p = Ok p' → 1 < CachePlacement.virtual_block_count p →
  ∃ local mask owners,
    resolve_cache_slots scalar slots (Some p) fresh = Ok (local, Some mask) ∧
    cyclic_slot_owner scalar slots (Some p) = Ok owners ∧
    ∀ i slot owner, elements slots !! i = Some slot → owners !! i = Some owner →
      (elements mask !! i = Some true ↔ owner = CachePlacement.rank p) ∧
      (-1 ≤ owner < CachePlacement.degree p) ∧
      (owner ≠ -1 ↔ CachePlacement.block_granularity p ≤ slot <
        CachePlacement.virtual_block_count p * CachePlacement.block_granularity p) ∧
      ∃ l, elements local !! i = Some l ∧
        if decide (owner = CachePlacement.rank p) then
          block_of (CachePlacement.degree p) owner (l / CachePlacement.block_granularity p) *
            CachePlacement.block_granularity p + l mod CachePlacement.block_granularity p = slot ∧
          0 < l ≤ slot
        else l = 0.
Proof.
  intros Hsc Hok Hdt Hf1 Hf2 Hbound Hdeg Hp Hvc. unfold CachePlacement.post_init in Hp. inv_ok.
  assert (0 < CachePlacement.block_granularity p ∧ 0 ≤ CachePlacement.rank p < CachePlacement.degree p)
    as [Hrows Hrank] by lia. clear Hr Hr0.
  set (f := placed_slot (CachePlacement.block_granularity p) (CachePlacement.virtual_block_count p)
    (CachePlacement.degree p) (CachePlacement.rank p)).
  unfold resolve_cache_slots. rewrite translation_outcome;
    [|done|done|unfold sized, out_buffer; cbn; rewrite Hf1; apply Hok|unfold sized, mask_buffer; cbn; rewrite Hf2; apply Hok|done|done].
  assert ((CachePlacement.block_granularity p <=? 0) || (CachePlacement.virtual_block_count p <=? 1) ||
    (CachePlacement.degree p <=? 0) = false) as -> by lia.
  assert (negb ((0 <=? CachePlacement.rank p) && (CachePlacement.rank p <? CachePlacement.degree p)) =
    false) as -> by lia.
  assert (bool_decide (t_dtype slots = int32) || bool_decide (t_dtype slots = int64) = true) as ->
    by (by rewrite orb_true_iff, !bool_decide_eq_true).
  unfold output_mismatch, out_buffer, mask_buffer. cbn [default t_dtype t_device shape is_contiguous negb].
  rewrite !bool_decide_true by done. cbn [negb orb mbind result_bind fst snd].
  unfold cyclic_slot_owner. rewrite !Hsc; try done; try (eapply represents_int64, represents_between; [exact Hbound|nia]);
    try (eapply represents_between; [exact Hbound|nia]). cbn [mbind result_bind].
  eexists _, _, _. split; [reflexivity|]. split; [reflexivity|]. cbn [with_elements elements].
  intros i slot owner Hi. rewrite !list_lookup_fmap, Hi. intros [= <-]. cbn [fmap option_fmap option_map compose].
  pose proof (placed_owner (CachePlacement.block_granularity p) (CachePlacement.virtual_block_count p)
    (CachePlacement.degree p) (CachePlacement.rank p) slot Hrows ltac:(lia) ltac:(lia)) as [Hmask Hl]. fold f in Hmask, Hl |- *.
  destruct (slot_owner_range (CachePlacement.block_granularity p) (CachePlacement.virtual_block_count p)
    (CachePlacement.degree p) slot Hrows ltac:(lia)) as [Hrange Hvalid].
  split; [|split; [done|split; [done|]]].
  - rewrite <-Hmask. split; [by intros [= ->]|by intros ->].
  - exists (f slot).1. split; [done|]. case_decide as Heq.
    + rewrite (proj2 Hmask Heq) in Hl. by rewrite Heq.
    + destruct (f slot).2; [|done]. by destruct Heq; apply Hmask.
Qed.

Lemma slot_translation_exact_witness :
  ∃ local mask (owners : list Z), resolve_cache_slots checked_scalar (some_slots cpu)
    (Some {| CachePlacement.block_granularity := 4; CachePlacement.virtual_block_count := 6;
             CachePlacement.group := [8; 9]; CachePlacement.rank := 1 |}) (replicate 6 0, replicate 6 false) =
    Ok (local, Some mask) ∧ elements mask !! 2%nat = Some true ∧ owners !! 2%nat = Some 1.
Proof.
  destruct (slot_translation_exact checked_scalar
    {| CachePlacement.block_granularity := 4; CachePlacement.virtual_block_count := 6;
       CachePlacement.group := [8; 9]; CachePlacement.rank := 1 |} _ (some_slots cpu) (replicate 6 0, replicate 6 false)
    checked_scalar_exact (some_slots_ok _) ltac:(by left) eq_refl eq_refl eq_refl eq_refl eq_refl ltac:(cbn; lia))
    as (local & mask & owners & H & Ho & Hall).
  exists local, mask, owners. split; [exact H|]. injection Ho as <-. split; [|reflexivity].
  destruct (Hall 2%nat 9 1 eq_refl eq_refl) as [Hm _]. apply Hm. reflexivity.
Defined.

(** History counts are exact.  For a table whose rows have the stated width,
    the counter succeeds exactly when every history is covered and each of its
    rows lies on a page with an owner; the count of a rank and a request is then
    the number of the request's rows the rank owns, and the ranks' counts add up
    to the request's length. *)
Theorem history_counts_exact table columns lens ps placement :
  0 < ps → placement_ok placement ps → length table = length lens →
  Forall (λ row : list Z, Z.of_nat (length row) = columns) table → 0 ≤ columns →
  Forall (Z.le 0) lens →
  let own := column_owner (owner_of_page placement ps) (degree_of placement) in
  match owned_history_rows table columns lens ps placement with
  | Ok counts => ∀ r row len, table !! r = Some row → lens !! r = Some len →
      len ≤ columns * ps ∧ (∀ i, 0 ≤ i < len → 0 ≤ own row (i / ps) < degree_of placement) ∧
      (∀ k, 0 ≤ k < degree_of placement →
        ∃ ck, counts !! Z.to_nat k = Some ck ∧ ck !! r = Some (rows_owned (own row) ps k len)) ∧
      sumZ ((λ k, rows_owned (own row) ps k len) <$> seqZ 0 (degree_of placement)) = len
  | Raise e => (∃ msg, e = ValueError msg) ∧
      ((∃ len, len ∈ lens ∧ columns * ps < len) ∨
       ∃ r row len i, table !! r = Some row ∧ lens !! r = Some len ∧ 0 ≤ i < len ∧
         own row (i / ps) = degree_of placement)
  end.
Proof.
  intros Hps Hp Hlen Htab Hcol Hpos own.
  destruct (covered_or_not (columns * ps) lens Hpos) as [Hlens|Hunc].
  2:{ rewrite (owned_history_uncovered table columns lens ps placement) by done.
      split; [by eexists|by left]. }
  rewrite owned_history_rows_covered by done. destruct (Z.eqb_spec
    (sumZ (owned_column (owner_of_page placement ps) (degree_of placement) ps (degree_of placement)
      table lens)) 0) as [Hz|Hnz].
  - rewrite owned_column_zero in Hz. intros r row len Hr Hl.
    rewrite Forall_lookup in Hlens. specialize (Hlens r len Hl). cbn in Hlens.
    assert (∀ i, 0 ≤ i < len → 0 ≤ own row (i / ps) < degree_of placement) as Hown.
    { intros i Hi. pose proof (column_owner_range placement ps row (i / ps) Hp) as Hrg.
      pose proof (Hz r row len i Hr Hl Hi). unfold own. lia. }
    split_and!; [lia|done| |apply rows_owned_total; [lia|done]].
    intros k Hk. eexists. rewrite list_lookup_fmap, lookup_seqZ_lt by lia. split; [reflexivity|].
    unfold owned_column. rewrite lookup_zip_with, Hr. cbn. rewrite Hl. cbn.
    by replace (0 + Z.of_nat (Z.to_nat k)) with k by lia.
  - split; [by eexists|]. right. by apply owned_column_nonzero.
Qed.

(** Two requests over two owners, pages of 2 rows, blocks of 4. *)
Definition example_placement : CachePlacement.t :=
  {| CachePlacement.block_granularity := 4; CachePlacement.virtual_block_count := 9;
     CachePlacement.group := [0; 1]; CachePlacement.rank := 0 |}.

Lemma history_counts_exact_witness :
  owned_history_rows [[2; 3; 4]; [6; 5; 0]] 3 [5; 3] 2 (Some example_placement) =
    Ok [[4; 2]; [1; 1]] ∧
  sumZ ((λ k, rows_owned (column_owner (owner_of_page (Some example_placement) 2) 2 [2; 3; 4])
    2 k 5) <$> seqZ 0 2) = 5.
Proof.
  assert (E : owned_history_rows [[2; 3; 4]; [6; 5; 0]] 3 [5; 3] 2 (Some example_placement) =
    Ok [[4; 2]; [1; 1]]) by (vm_compute; reflexivity).
  split; [exact E|].
  pose proof (history_counts_exact [[2; 3; 4]; [6; 5; 0]] 3 [5; 3] 2 (Some example_placement)
    ltac:(lia) ltac:(split; vm_compute; reflexivity) eq_refl ltac:(repeat constructor) ltac:(lia)
    ltac:(repeat constructor; lia)) as H.
  cbv zeta in H. rewrite E in H.
  exact (proj2 (proj2 (proj2 (H 0%nat [2; 3; 4] 5 eq_refl eq_refl)))).
Defined.

(** Prefix-chunk counts are exact.  The counter succeeds exactly when every
    prefix is covered and each row the chunks reach lies on a page with an owner;
    the count of a chunk and a rank, computed from differences of running sums,
    is then the number of rows of that chunk the rank owns over all requests. *)
Theorem prefix_chunk_counts_exact table width lens chunk_len num_chunks ps p :
  0 < ps → 0 < CachePlacement.degree p → 0 ≤ chunk_len → 0 ≤ num_chunks →
  length table = length lens →
  Forall (λ row : list Z, Z.of_nat (length row) = width) table → 0 ≤ width →
  Forall (Z.le 0) lens →
  let own := page_owner p ps in
  let degree := CachePlacement.degree p in
  let reach len := Z.min (num_chunks * chunk_len) len in
  match owned_prefix_chunk_rows table width lens chunk_len num_chunks ps p with
  | Ok counts =>
      counts = (λ j, (λ k, sumZ ((λ x : list Z * Z,
          rows_owned_between (column_owner own degree x.1) ps k
            (Z.min (j * chunk_len) x.2) (Z.min ((j + 1) * chunk_len) x.2)) <$> zip table lens))
        <$> seqZ 0 degree) <$> seqZ 0 num_chunks ∧
      ∀ r row len i, table !! r = Some row → lens !! r = Some len → 0 ≤ i < reach len →
        column_owner own degree row (i / ps) ≠ degree
  | Raise e => (∃ msg, e = ValueError msg) ∧
      ((∃ len, len ∈ lens ∧ width * ps < len) ∨
       ∃ r row len i, table !! r = Some row ∧ lens !! r = Some len ∧ 0 ≤ i < reach len ∧
         column_owner own degree row (i / ps) = degree)
  end.
Proof.
  intros Hps Hd Hc Hn Hlen Htab Hw Hpos own degree reach.
  destruct (covered_or_not (width * ps) lens Hpos) as [Hlens|Hunc].
  2:{ rewrite owned_prefix_uncovered by done. split; [by eexists|by left]. }
  rewrite owned_prefix_covered by done. fold own degree.
  destruct (Z.eqb_spec (sumZ (owned_column own degree ps degree table
    ((λ len, chunk_bound chunk_len len num_chunks) <$> lens))) 0) as [Hz|Hnz].
  - split; [done|]. rewrite owned_column_zero in Hz. intros r row len i Hr Hl Hi.
    eapply (Hz r); [done|by rewrite list_lookup_fmap, Hl|done].
  - split; [by eexists|]. right. apply owned_column_nonzero in Hnz as (r & row & b & i & Hr & Hb & Hi & Ho).
    rewrite list_lookup_fmap in Hb. destruct (lens !! r) as [len|] eqn:Hl; [|done].
    injection Hb as <-. by exists r, row, len, i.
Qed.

Lemma prefix_chunk_counts_exact_witness :
  owned_prefix_chunk_rows [[2; 3; 4]; [6; 5; 0]] 3 [5; 3] 3 2 2 example_placement =
    Ok [[5; 1]; [1; 1]] ∧
  column_owner (page_owner example_placement 2) 2 [6; 5; 0] (2 / 2) ≠ 2.
Proof.
  assert (E : owned_prefix_chunk_rows [[2; 3; 4]; [6; 5; 0]] 3 [5; 3] 3 2 2 example_placement =
    Ok [[5; 1]; [1; 1]]) by (vm_compute; reflexivity).
  split; [exact E|].
  pose proof (prefix_chunk_counts_exact [[2; 3; 4]; [6; 5; 0]] 3 [5; 3] 3 2 2 example_placement
    ltac:(lia) ltac:(vm_compute; reflexivity) ltac:(lia) ltac:(lia) eq_refl ltac:(repeat constructor)
    ltac:(lia) ltac:(repeat constructor; lia)) as H.
  cbv zeta in H. rewrite E in H.
  exact (proj2 H 1%nat [6; 5; 0] 3 2 eq_refl eq_refl ltac:(lia)).
Defined.
