(* ===== verification/RWLock.v ===== *)
(** * The reader-writer lock: [engine/aio_rwlock.py]

    [RWLock] guards the model's weights: requests hold it as readers, a weight
    update holds it as the writer.  The class runs on one event loop, so a task
    runs without interruption up to its next suspension point.  The only such
    point inside the class is [self._cond.wait()]: each method is one or more
    atomic segments, and the model has a definition per segment.

    [asyncio.Lock] and [asyncio.Condition] are modelled as the standard library
    has them: [wait] releases the lock and appends a future to the waiters,
    [notify_all] completes every pending future, a task resumes once its future is
    done and reacquires the lock.  A segment that finds the lock taken does not
    run ([None]); [lock_free] shows that no segment ever does.  A cancelled task
    reacquires the lock before [CancelledError] leaves [wait]; newer releases of
    the library also pass the wake-up on to one other waiter there, older ones do
    not, and the flag [renotify] tells the two apart.

    A client is a task that enters a list of reader or writer sections one after
    the other ([_ReaderLock], [_WriterLock]); a section lasts any number of steps.

    The theorems: readers and the writer exclude each other and the counters count
    them; while a writer waits no reader gets in; every schedule of finitely many
    clients is finite and ends with all of them finished, so nobody waits for ever,
    cancellations included when the wake-up is passed on; without that, cancelled
    writers may leave readers, and nobody else, waiting on a free lock, until a later
    client has been through a section. *)

From S2P Require Import Prelude.
From stdpp Require Import relations.

Local Open Scope Z_scope.

(** ** The class *)

(** [_waiters] are the condition's futures in order, each with its task and
    whether it is done; [_locked] is the state of the lock they share. *)
Record RWLock := mkRWLock {
  _locked : bool;
  _waiters : list (nat * bool);
  _readers : Z;
  _writer_active : bool;
  _waiting_writers : Z;
}.

Definition RWLock_init : RWLock := mkRWLock false [] 0 false 0.

Definition set_locked (b : bool) (self : RWLock) : RWLock :=
  mkRWLock b (_waiters self) (_readers self) (_writer_active self) (_waiting_writers self).
Definition set_waiters (ws : list (nat * bool)) (self : RWLock) : RWLock :=
  mkRWLock (_locked self) ws (_readers self) (_writer_active self) (_waiting_writers self).
Definition add_readers (d : Z) (self : RWLock) : RWLock :=
  mkRWLock (_locked self) (_waiters self) (_readers self + d) (_writer_active self)
    (_waiting_writers self).
Definition set_writer_active (b : bool) (self : RWLock) : RWLock :=
  mkRWLock (_locked self) (_waiters self) (_readers self) b (_waiting_writers self).
Definition add_waiting_writers (d : Z) (self : RWLock) : RWLock :=
  mkRWLock (_locked self) (_waiters self) (_readers self) (_writer_active self)
    (_waiting_writers self + d).

(** [Lock.acquire] when it does not suspend, and [Lock.release]. *)
Definition lock_acquire (self : RWLock) : option RWLock :=
  if _locked self then None else Some (set_locked true self).

Definition lock_release (self : RWLock) : result RWLock :=
  if _locked self then Ok (set_locked false self)
  else Raise (RuntimeError "Lock is not acquired.").

(** [Condition.notify]: complete the first [n] futures that are not done. *)
Fixpoint notify_waiters (n : nat) (ws : list (nat * bool)) : list (nat * bool) :=
  match n, ws with
  | O, _ => ws
  | _, [] => []
  | S n', (t, false) :: ws' => (t, true) :: notify_waiters n' ws'
  | _, w :: ws' => w :: notify_waiters n ws'
  end.

Definition notify (n : nat) (self : RWLock) : result RWLock :=
  if _locked self then Ok (set_waiters (notify_waiters n (_waiters self)) self)
  else Raise (RuntimeError "cannot notify on un-acquired lock").

Definition notify_all (self : RWLock) : result RWLock :=
  notify (length (_waiters self)) self.

(** How a segment ends: at [self._cond.wait()], or at the end of the method. *)
Inductive outcome := Suspends | Returns.

(** [Condition.wait] up to its suspension. *)
Definition cond_wait (task : nat) (self : RWLock) : result RWLock :=
  if _locked self then
    self ← lock_release self;
    Ok (set_waiters (_waiters self ++ [(task, false)]) self)
  else Raise (RuntimeError "cannot wait on un-acquired lock").

(** The exit of [async with self._lock]. *)
Definition leave (self : RWLock) : result (outcome * RWLock) :=
  self ← lock_release self; Ok (Returns, self).

(** The loop of [acquire_reader] and what follows it; entered at the call and
    again after each wake-up. *)
Definition acquire_reader_loop (task : nat) (self : RWLock) : result (outcome * RWLock) :=
  if _writer_active self || (0 <? _waiting_writers self) then
    self ← cond_wait task self; Ok (Suspends, self)
  else leave (add_readers 1 self).

Definition acquire_reader (task : nat) (self : RWLock) : option (result (outcome * RWLock)) :=
  self ← lock_acquire self; Some (acquire_reader_loop task self).

Definition release_reader (self : RWLock) : option (result (outcome * RWLock)) :=
  self ← lock_acquire self;
  let self := add_readers (-1) self in
  Some (if _readers self =? 0 then self ← notify_all self; leave self else leave self).

(** The loop of [acquire_writer] with the [finally] clause after it. *)
Definition acquire_writer_loop (task : nat) (self : RWLock) : result (outcome * RWLock) :=
  if _writer_active self || (0 <? _readers self) then
    self ← cond_wait task self; Ok (Suspends, self)
  else leave (add_waiting_writers (-1) (set_writer_active true self)).

Definition acquire_writer (task : nat) (self : RWLock) : option (result (outcome * RWLock)) :=
  self ← lock_acquire self; Some (acquire_writer_loop task (add_waiting_writers 1 self)).

Definition release_writer (self : RWLock) : option (result (outcome * RWLock)) :=
  self ← lock_acquire self;
  Some (self ← notify_all (set_writer_active false self); leave self).

(** The end of [Condition.wait]: the future leaves the waiters and the lock is
    taken again.  A task whose future is not done stays suspended. *)
Definition remove_waiter (task : nat) (ws : list (nat * bool)) : list (nat * bool) :=
  filter (λ w, w.1 ≠ task) ws.

Definition wait_resume (task : nat) (self : RWLock) : option RWLock :=
  if bool_decide ((task, true) ∈ _waiters self) then
    lock_acquire (set_waiters (remove_waiter task (_waiters self)) self)
  else None.

(** A cancelled [wait]. *)
Definition wait_cancel (renotify : bool) (task : nat) (self : RWLock) : option (result RWLock) :=
  self ← lock_acquire (set_waiters (remove_waiter task (_waiters self)) self);
  Some (if renotify then notify 1 self else Ok self).

(** ** Clients *)

(** Which of [reader_lock] and [writer_lock] a section enters. *)
Inductive mode := Reader | Writer.

(** What a task is doing; [rest] are the sections it enters afterwards. *)
Inductive pc :=
  | Idle (rest : list mode)
  | Waiting (m : mode) (rest : list mode)
  | Holding (m : mode) (rest : list mode).

Record state := mkState { lock : RWLock; tasks : list pc }.

Definition init (programs : list (list mode)) : state := mkState RWLock_init (Idle <$> programs).

(** [__aenter__] and [__aexit__] of the section's context manager, the rest of an
    [acquire] after its [wait], and a cancellation there: the exception leaves
    [acquire_reader] directly and [acquire_writer] through its [finally]. *)
Definition enter_section (m : mode) (task : nat) (self : RWLock) :=
  match m with Reader => acquire_reader task self | Writer => acquire_writer task self end.

Definition exit_section (m : mode) (self : RWLock) :=
  match m with Reader => release_reader self | Writer => release_writer self end.

Definition resume_section (m : mode) (task : nat) (self : RWLock) :
    option (result (outcome * RWLock)) :=
  self ← wait_resume task self;
  Some (match m with
        | Reader => acquire_reader_loop task self
        | Writer => acquire_writer_loop task self
        end).

Definition cancel_section (renotify : bool) (m : mode) (task : nat) (self : RWLock) :
    option (result (outcome * RWLock)) :=
  r ← wait_cancel renotify task self;
  Some (self ← r;
        leave (match m with Reader => self | Writer => add_waiting_writers (-1) self end)).

(** What the event loop may do next. *)
Inductive action := Enter (task : nat) | Resume (task : nat) | Exit (task : nat) | Cancel (task : nat).

Definition finish (s : state) (task : nat) (out : option (result (outcome * RWLock)))
    (suspended returned : pc) : option state :=
  match out with
  | Some (Ok (Suspends, l)) => Some (mkState l (<[task := suspended]> (tasks s)))
  | Some (Ok (Returns, l)) => Some (mkState l (<[task := returned]> (tasks s)))
  | _ => None
  end.

Definition exec (renotify : bool) (a : action) (s : state) : option state :=
  match a with
  | Enter t =>
      match tasks s !! t with
      | Some (Idle (m :: rest)) =>
          finish s t (enter_section m t (lock s)) (Waiting m rest) (Holding m rest)
      | _ => None
      end
  | Resume t =>
      match tasks s !! t with
      | Some (Waiting m rest) =>
          finish s t (resume_section m t (lock s)) (Waiting m rest) (Holding m rest)
      | _ => None
      end
  | Exit t =>
      match tasks s !! t with
      | Some (Holding m rest) => finish s t (exit_section m (lock s)) (Holding m rest) (Idle rest)
      | _ => None
      end
  | Cancel t =>
      match tasks s !! t with
      | Some (Waiting m rest) =>
          finish s t (cancel_section renotify m t (lock s)) (Waiting m rest) (Idle rest)
      | _ => None
      end
  end.

(** The step relation: with [cancels] unset the environment cancels nobody. *)
Definition is_cancel (a : action) : bool := match a with Cancel _ => true | _ => false end.

Definition step (cancels renotify : bool) (s s' : state) : Prop :=
  ∃ a, (cancels || negb (is_cancel a)) = true ∧ exec renotify a s = Some s'.

Definition finished (p : pc) : Prop := p = Idle [].

(** ** Segments, one equation each *)

(** The condition the loops wait on. *)
Definition blocked (m : mode) (l : RWLock) : bool :=
  match m with
  | Reader => _writer_active l || (0 <? _waiting_writers l)
  | Writer => _writer_active l || (0 <? _readers l)
  end.

Definition wake (n : nat) (l : RWLock) : RWLock := set_waiters (notify_waiters n (_waiters l)) l.

(** The state after the last release of a section. *)
Definition dropped (m : mode) (l : RWLock) : RWLock :=
  match m with
  | Reader => if _readers l - 1 =? 0 then wake (length (_waiters l)) (add_readers (-1) l)
              else add_readers (-1) l
  | Writer => wake (length (_waiters l)) (set_writer_active false l)
  end.

Definition queued (m : mode) (l : RWLock) : RWLock :=
  match m with Reader => l | Writer => add_waiting_writers 1 l end.

Definition unqueued (m : mode) (l : RWLock) : RWLock :=
  match m with Reader => l | Writer => add_waiting_writers (-1) l end.

Definition taken (m : mode) (l : RWLock) : RWLock :=
  match m with Reader => add_readers 1 l | Writer => set_writer_active true (unqueued Writer l) end.

Definition without (t : nat) (l : RWLock) : RWLock :=
  set_waiters (remove_waiter t (_waiters l)) l.

Definition waits_again (t : nat) (l : RWLock) : RWLock :=
  set_waiters (_waiters l ++ [(t, false)]) l.

(** What one action does to the lock and to its task. *)
Inductive effect (renotify : bool) (t : nat) (l : RWLock) : action → pc → RWLock → pc → Prop :=
  | enter_waits m rest : blocked m l = true →
      effect renotify t l (Enter t) (Idle (m :: rest)) (waits_again t (queued m l)) (Waiting m rest)
  | enter_holds m rest : blocked m l = false →
      effect renotify t l (Enter t) (Idle (m :: rest)) (taken m (queued m l)) (Holding m rest)
  | resume_waits m rest : (t, true) ∈ _waiters l → blocked m l = true →
      effect renotify t l (Resume t) (Waiting m rest) (waits_again t (without t l)) (Waiting m rest)
  | resume_holds m rest : (t, true) ∈ _waiters l → blocked m l = false →
      effect renotify t l (Resume t) (Waiting m rest) (taken m (without t l)) (Holding m rest)
  | exits m rest : effect renotify t l (Exit t) (Holding m rest) (dropped m l) (Idle rest)
  | cancels_wait m rest :
      effect renotify t l (Cancel t) (Waiting m rest)
        (unqueued m (if renotify then wake 1 (without t l) else without t l)) (Idle rest).

Section segments.
Context (l : RWLock) (Hfree : _locked l = false).

Ltac by_cases := destruct l as [lk ws r wa ww]; cbn in Hfree; subst lk; cbn.

Lemma enter_eq m t :
  enter_section m t l =
  Some (Ok (if blocked m l then (Suspends, waits_again t (queued m l))
            else (Returns, taken m (queued m l)))).
Proof.
  by_cases. destruct m; cbn; unfold acquire_reader_loop, acquire_writer_loop; cbn;
    case_match; done.
Qed.

Lemma resume_eq m t :
  resume_section m t l =
  if bool_decide ((t, true) ∈ _waiters l) then
    Some (Ok (if blocked m l then (Suspends, waits_again t (without t l))
              else (Returns, taken m (without t l))))
  else None.
Proof.
  by_cases. unfold resume_section, wait_resume; cbn. case_bool_decide; [|done].
  destruct m; cbn; unfold acquire_reader_loop, acquire_writer_loop; cbn; case_match; done.
Qed.

Lemma exit_eq m : exit_section m l = Some (Ok (Returns, dropped m l)).
Proof.
  by_cases. destruct m; cbn; [|done]. change (r + -1) with (r - 1). by case_match.
Qed.

Lemma cancel_eq renotify m t :
  cancel_section renotify m t l =
  Some (Ok (Returns, unqueued m (if renotify then wake 1 (without t l) else without t l))).
Proof. by_cases. by destruct m, renotify. Qed.

End segments.

Lemma exec_effect renotify a s s' :
  _locked (lock s) = false →
  exec renotify a s = Some s' ↔
  ∃ t p l p', tasks s !! t = Some p ∧ effect renotify t (lock s) a p l p' ∧
    s' = mkState l (<[t := p']> (tasks s)).
Proof.
  intros Hfree. split.
  - intros Hx. destruct a as [t|t|t|t]; cbn in Hx; destruct (tasks s !! t) as [p|] eqn:Hp; try done;
      destruct p as [[|m rest]|m rest|m rest]; try done.
    all: rewrite ?enter_eq, ?resume_eq, ?exit_eq, ?cancel_eq in Hx by done.
    + destruct (blocked m (lock s)) eqn:Hb; cbn in Hx; simplify_eq; eauto 10 using effect.
    + case_bool_decide; [|done].
      destruct (blocked m (lock s)) eqn:Hb; cbn in Hx; simplify_eq; eauto 10 using effect.
    + cbn in Hx; simplify_eq; eauto 10 using effect.
    + cbn in Hx; simplify_eq; eauto 10 using effect.
  - intros (t & p & l & p' & Hp & He & ->). destruct He; cbn; rewrite Hp;
      rewrite ?enter_eq, ?resume_eq, ?exit_eq, ?cancel_eq by done;
      rewrite ?bool_decide_eq_true_2 by done; by repeat case_match; simplify_eq.
Qed.

(** ** Invariant *)

#[export] Instance mode_eq_dec : EqDecision mode.
Proof. solve_decision. Defined.

Definition holds (m : mode) (p : pc) : Z :=
  match p with Holding m' _ => if decide (m = m') then 1 else 0 | _ => 0 end.

Definition waits (m : mode) (p : pc) : Z :=
  match p with Waiting m' _ => if decide (m = m') then 1 else 0 | _ => 0 end.

Definition number (f : pc → Z) (s : state) : Z := sumZ (f <$> tasks s).

Definition held (l : RWLock) : bool := _writer_active l || (0 <? _readers l).

Record inv (s : state) : Prop := {
  inv_free : _locked (lock s) = false;
  inv_readers : _readers (lock s) = number (holds Reader) s;
  inv_writer : number (holds Writer) s = Z.b2z (_writer_active (lock s));
  inv_waiting : _waiting_writers (lock s) = number (waits Writer) s;
  inv_excl : _writer_active (lock s) = true → _readers (lock s) = 0;
  inv_nodup : NoDup (_waiters (lock s)).*1;
  inv_waiters t :
    t ∈ (_waiters (lock s)).*1 ↔ ∃ m rest, tasks s !! t = Some (Waiting m rest);
}.

Lemma notify_tasks n ws : (notify_waiters n ws).*1 = ws.*1.
Proof. revert n. induction ws as [|[t []] ws IH]; intros [|n]; cbn; f_equal; auto. Qed.

Lemma remove_waiter_tasks t ws : (remove_waiter t ws).*1 = filter (λ u, u ≠ t) ws.*1.
Proof.
  unfold remove_waiter. induction ws as [|[u b] ws IH]; [done|].
  rewrite fmap_cons, !filter_cons. cbn [fst]. case_decide; rewrite ?fmap_cons, IH; done.
Qed.

Lemma number_nonneg f s : (∀ p, 0 ≤ f p) → 0 ≤ number f s.
Proof. intros Hf. apply sumZ_nonneg, Forall_fmap, Forall_true. exact Hf. Qed.

Lemma holds_nonneg m p : 0 ≤ holds m p.
Proof. destruct p; cbn; try done; case_decide; lia. Qed.

Lemma waits_nonneg m p : 0 ≤ waits m p.
Proof. destruct p; cbn; try done; case_decide; lia. Qed.

(** A positive count has a task behind it, and a task behind it makes it positive. *)
Lemma number_pos f s : (∀ p, 0 ≤ f p) → 0 < number f s ↔ ∃ t p, tasks s !! t = Some p ∧ 0 < f p.
Proof.
  intros Hf. unfold number. induction (tasks s) as [|p l IH]; cbn [fmap list_fmap].
  - split; [done|]. by intros (t & p & Hp & _).
  - rewrite sumZ_cons. pose proof (Hf p). assert (0 ≤ sumZ (f <$> l)).
    { apply sumZ_nonneg, Forall_fmap, Forall_true. exact Hf. }
    split.
    + intros Hs. destruct (decide (0 < f p)) as [Hp|Hp]; [by exists 0%nat, p|].
      destruct IH as [(t & q & Hq & Hpos) _]; [lia|]. by exists (S t), q.
    + intros ([|t] & q & Hq & Hpos); simplify_eq/=; [lia|].
      destruct IH as [_ IH]. enough (0 < sumZ (f <$> l)) by lia. eauto.
Qed.

Lemma init_inv programs : inv (init programs).
Proof.
  assert (∀ f, (∀ l, f (Idle l) = 0) → number f (init programs) = 0) as Hzero.
  { intros f Hf. unfold number, init; cbn. rewrite <- list_fmap_compose.
    rewrite (list_fmap_ext _ (λ _, 0) programs) by (intros; apply Hf).
    apply sumZ_fmap_zero. }
  split; rewrite ?Hzero by done; try done; [apply NoDup_nil_2|].
  intros t; cbn. split; [by intros ?%elem_of_nil|]. intros (m & rest & Hp).
  rewrite list_lookup_fmap in Hp. by destruct (programs !! t).
Qed.

(** How the waiting tasks change when task [t] goes from [p] to [p']. *)
Lemma waiters_change (ts : list pc) t p p' (U V : nat → Prop) :
  ts !! t = Some p →
  (∀ u, U u ↔ ∃ m rest, ts !! u = Some (Waiting m rest)) →
  (∀ u, u ≠ t → V u ↔ U u) → (V t ↔ ∃ m rest, p' = Waiting m rest) →
  ∀ u, V u ↔ ∃ m rest, <[t := p']> ts !! u = Some (Waiting m rest).
Proof.
  intros Hp HU Hne Ht u. pose proof (lookup_lt_Some _ _ _ Hp).
  destruct (decide (u = t)) as [->|Hut].
  - rewrite Ht, list_lookup_insert_eq by done. naive_solver.
  - rewrite Hne, HU, list_lookup_insert_ne by done. done.
Qed.

(** A task contributes at most the whole count. *)
Lemma number_ge f s t p : (∀ q, 0 ≤ f q) → tasks s !! t = Some p → f p ≤ number f s.
Proof.
  intros Hf Hp. unfold number. rewrite <- (take_drop_middle _ _ _ Hp), fmap_app, fmap_cons.
  rewrite sumZ_app, sumZ_cons.
  assert (∀ l, 0 ≤ sumZ (f <$> l)) as Hs by (intros l; apply sumZ_nonneg, Forall_fmap, Forall_true, Hf).
  pose proof (Hs (take t (tasks s))). pose proof (Hs (drop (S t) (tasks s))). lia.
Qed.

#[local] Arguments remove_waiter : simpl never.

Ltac effect_cases He :=
  destruct He as [m rest Hb|m rest Hb|m rest Hd Hb|m rest Hd Hb|m rest|m rest];
  try destruct m; cbn in *.

Section effects.
Context (renotify : bool) (a : action) (s : state) (t : nat) (p p' : pc) (l : RWLock).
Context (Hinv : inv s) (Hp : tasks s !! t = Some p) (He : effect renotify t (lock s) a p l p').

Let s' := mkState l (<[t := p']> (tasks s)).

Lemma number_change f : number f s' = number f s - f p + f p'.
Proof. by apply sumZ_insert. Qed.

(** The counters after the action, from the counters before it. *)
Lemma effect_counts :
  _locked l = false ∧
  _readers l = _readers (lock s) - holds Reader p + holds Reader p' ∧
  Z.b2z (_writer_active l) = Z.b2z (_writer_active (lock s)) - holds Writer p + holds Writer p' ∧
  _waiting_writers l = _waiting_writers (lock s) - waits Writer p + waits Writer p' ∧
  (_writer_active l = true → _readers l = 0).
Proof.
  destruct Hinv as [Hfree Hr Hw _ Hx _ _].
  pose proof (number_ge _ _ _ _ (holds_nonneg Reader) Hp) as Hn.
  pose proof (number_ge _ _ _ _ (holds_nonneg Writer) Hp) as Hnw.
  rewrite <- Hr in Hn. rewrite Hw in Hnw. clear Hinv Hr Hw Hp s'. revert Hfree Hx Hn Hnw He.
  destruct (lock s) as [b ws r wa ww]; cbn. intros -> Hx Hn Hnw He.
  effect_cases He; try destruct renotify; repeat case_match; cbn in *;
    destruct wa; cbn in *; repeat split; try done; try lia; intros; specialize (Hx eq_refl); lia.
Qed.

(** The futures after the action: a task that starts waiting is last, the others
    keep their place. *)
Lemma effect_waiters :
  (_waiters l).*1 = match p, p' with
                    | Idle _, Waiting _ _ => (_waiters (lock s)).*1 ++ [t]
                    | Waiting _ _, Waiting _ _ => filter (λ u, u ≠ t) (_waiters (lock s)).*1 ++ [t]
                    | Waiting _ _, _ => filter (λ u, u ≠ t) (_waiters (lock s)).*1
                    | _, _ => (_waiters (lock s)).*1
                    end.
Proof.
  clear Hinv Hp s'. revert He. destruct (lock s) as [b ws r wa ww]; intros He.
  effect_cases He; try destruct renotify; repeat case_match; cbn in *;
    rewrite ?fmap_app, ?notify_tasks, ?remove_waiter_tasks; done.
Qed.

Lemma effect_inv : inv s'.
Proof.
  destruct effect_counts as (Hfree' & Hr' & Hw' & Hww' & Hx').
  destruct Hinv as [Hfree Hr Hw Hww Hx Hnd Hwt].
  assert (t ∈ (_waiters (lock s)).*1 ↔ ∃ m rest, p = Waiting m rest) as Ht.
  { rewrite Hwt, Hp. naive_solver. }
  split; rewrite ?number_change; cbn [lock tasks s']; try lia; try done.
  - rewrite effect_waiters. repeat case_match; try done; try by apply NoDup_filter.
    + apply NoDup_app. split; [done|]. split; [|apply NoDup_singleton].
      intros x Hx1 ->%list_elem_of_singleton. apply Ht in Hx1. naive_solver.
    + apply NoDup_app. split; [by apply NoDup_filter|]. split; [|apply NoDup_singleton].
      intros x Hx1 ->%list_elem_of_singleton. apply list_elem_of_filter in Hx1. naive_solver.
  - apply (waiters_change _ _ p _ (λ u, u ∈ (_waiters (lock s)).*1)); [done|done| |];
      rewrite effect_waiters.
    + intros u Hu. repeat case_match; rewrite ?elem_of_app, ?list_elem_of_filter, ?list_elem_of_singleton;
        naive_solver.
    + destruct He;
        rewrite ?elem_of_app, ?list_elem_of_filter, ?list_elem_of_singleton, ?Ht; naive_solver.
Qed.
End effects.

(** ** No lost wake-up *)

(** A pending writer future has a section before it, and a pending future has a
    section or a task about to run before it. *)
Record wake_inv (s : state) : Prop := {
  wake_writer t rest :
    (t, false) ∈ _waiters (lock s) → tasks s !! t = Some (Waiting Writer rest) →
    held (lock s) = true;
  wake_any t :
    (t, false) ∈ _waiters (lock s) →
    held (lock s) = true ∨ ∃ u, (u, true) ∈ _waiters (lock s);
}.

Lemma notify_pending n ws t : (t, false) ∈ notify_waiters n ws → (t, false) ∈ ws.
Proof.
  revert n. induction ws as [|[u []] ws IH]; intros [|n]; cbn; rewrite ?elem_of_cons; naive_solver.
Qed.

Lemma notify_all_done ws n t : (length ws ≤ n)%nat → (t, false) ∉ notify_waiters n ws.
Proof.
  revert n. induction ws as [|[u []] ws IH]; intros [|n] Hn; cbn in *; try lia;
    rewrite ?elem_of_cons; try set_solver.
  - intros [|Hin]; [done|]. by apply (IH (S n)) in Hin; [|lia].
  - intros [|Hin]; [done|]. by apply (IH n) in Hin; [|lia].
Qed.

Lemma notify_one ws t : (t, false) ∈ ws → ∃ u, (u, true) ∈ notify_waiters 1 ws.
Proof.
  induction ws as [|[u []] ws IH]; [by intros ?%elem_of_nil| |]; intros Hin; cbn.
  - exists u. set_solver.
  - exists u. set_solver.
Qed.

Lemma elem_of_remove_waiter t ws u b :
  (u, b) ∈ remove_waiter t ws ↔ u ≠ t ∧ (u, b) ∈ ws.
Proof. unfold remove_waiter. by rewrite list_elem_of_filter. Qed.

Lemma unqueued_waiters m l : _waiters (unqueued m l) = _waiters l.
Proof. by destruct m. Qed.

(** A reader is only blocked by a section or by a writer that is about to run. *)
Lemma reader_blocked s :
  inv s → wake_inv s → blocked Reader (lock s) = true →
  held (lock s) = true ∨
  ∃ u rest, (u, true) ∈ _waiters (lock s) ∧ tasks s !! u = Some (Waiting Writer rest).
Proof.
  intros Hinv Hwake [Hw|Hww%Z.ltb_lt]%orb_prop; [left; unfold held; by rewrite Hw|].
  rewrite (inv_waiting s Hinv) in Hww.
  apply number_pos in Hww as (u & p & Hp & Hpos); [|apply waits_nonneg].
  destruct p as [|m rest|]; cbn in Hpos; try case_decide; try lia. subst m.
  assert (u ∈ (_waiters (lock s)).*1) as Hu by (apply (inv_waiters s Hinv); eauto).
  apply list_elem_of_fmap in Hu as ([v []] & -> & Hin); cbn in *; [by eauto|].
  left. by eapply (wake_writer s Hwake).
Qed.

Section wake_effects.
Context (s : state) (t : nat) (p p' : pc) (l : RWLock).
Context (Hinv : inv s) (Hp : tasks s !! t = Some p).

Let s' := mkState l (<[t := p']> (tasks s)).

Lemma wake_of_held : held l = true → wake_inv s'.
Proof. split; cbn; auto. Qed.

Lemma wake_of_done : (∀ u, (u, false) ∉ _waiters l) → wake_inv s'.
Proof. intros Hd. split; cbn; intros * Hin; by apply Hd in Hin. Qed.

(** Futures that were pending before keep what they wait for. *)
Lemma wake_of_old :
  wake_inv s → held l = held (lock s) →
  (∀ u, u ≠ t → (u, false) ∈ _waiters l → (u, false) ∈ _waiters (lock s)) →
  ((t, false) ∈ _waiters l → ∀ rest, p' ≠ Waiting Writer rest) →
  (∀ u, (u, false) ∈ _waiters l → held l = true ∨ ∃ v, (v, true) ∈ _waiters l) →
  wake_inv s'.
Proof.
  intros [H1 _] Hh Hold Ht H2. pose proof (lookup_lt_Some _ _ _ Hp). split; cbn; [|done].
  intros u rest Hin Hu. destruct (decide (u = t)) as [->|Hne].
  - rewrite list_lookup_insert_eq in Hu by done. simplify_eq. by destruct (Ht Hin rest).
  - rewrite list_lookup_insert_ne in Hu by done. rewrite Hh. eauto.
Qed.

(** A reader that suspends behind a section or behind a writer about to run. *)
Lemma reader_waits_wake ws :
  wake_inv s → blocked Reader (lock s) = true → _waiters l = ws ++ [(t, false)] →
  (∀ u b, u ≠ t → (u, b) ∈ ws ↔ (u, b) ∈ _waiters (lock s)) → (t, false) ∉ ws →
  held l = held (lock s) → (∀ rest, p ≠ Waiting Writer rest) → (∀ rest, p' ≠ Waiting Writer rest) →
  wake_inv s'.
Proof.
  intros Hwake Hb Hws Hsame Hnt Hh Hpw Hpw'.
  apply wake_of_old; try done; rewrite Hws.
  - intros u Hu Hin. rewrite elem_of_app, list_elem_of_singleton in Hin.
    destruct Hin as [Hin|]; [by apply Hsame|congruence].
  - intros _ _. rewrite Hh. destruct (reader_blocked s Hinv Hwake Hb) as [|(v & rest & Hv & Hvt)];
      [by left|]. right. exists v. apply elem_of_app. left. apply Hsame; [|done].
    intros Heq. rewrite Heq, Hp in Hvt. injection Hvt. apply Hpw.
Qed.

End wake_effects.

Lemma effect_wake renotify a s t p p' l :
  inv s → tasks s !! t = Some p → effect renotify t (lock s) a p l p' →
  (is_cancel a = true → renotify = true) →
  wake_inv s → wake_inv (mkState l (<[t := p']> (tasks s))).
Proof.
  intros Hinv Hp He Hcancel Hwake. pose proof (inv_readers s Hinv) as Hr.
  assert (0 ≤ _readers (lock s)) by (rewrite Hr; apply number_nonneg, holds_nonneg).
  assert (t ∈ (_waiters (lock s)).*1 ↔ ∃ m rest, p = Waiting m rest) as Ht.
  { rewrite (inv_waiters s Hinv), Hp. naive_solver. }
  destruct He as [m rest Hb|m rest Hb|m rest Hd Hb|m rest Hd Hb|m rest|m rest].
  - destruct m; [|by apply wake_of_held].
    apply (reader_waits_wake _ _ _ _ _ Hinv Hp (_waiters (lock s))); try done.
    intros Hin. apply (list_elem_of_fmap_2 fst), Ht in Hin. naive_solver.
  - apply wake_of_held. destruct m; unfold held; cbn; [|done]. apply orb_true_iff; right; lia.
  - destruct m; [|by apply wake_of_held].
    apply (reader_waits_wake _ _ _ _ _ Hinv Hp (remove_waiter t (_waiters (lock s)))); try done.
    + intros u b Hu. rewrite elem_of_remove_waiter. naive_solver.
    + rewrite elem_of_remove_waiter. naive_solver.
  - apply wake_of_held. destruct m; unfold held; cbn; [|done]. apply orb_true_iff; right; lia.
  - destruct m; cbn; [|apply wake_of_done; intros u; by apply notify_all_done].
    case_match; [apply wake_of_done; intros u; by apply notify_all_done|].
    apply wake_of_held; unfold held; cbn. apply orb_true_iff; right.
    assert (0 < _readers (lock s)); [|lia]. rewrite Hr. apply number_pos; [apply holds_nonneg|].
    exists t, (Holding Reader rest). by split.
  - rewrite Hcancel by done. cbn. eapply wake_of_old; try done; try by destruct m.
    + intros u Hu. rewrite unqueued_waiters.
      by intros [_ Hin]%notify_pending%elem_of_remove_waiter.
    + intros u. rewrite unqueued_waiters. intros Hin%notify_pending. right. by eapply notify_one.
Qed.

(** *** Pending writers, whether or not a cancelled wait passes its wake-up on *)

Definition writers_behind (s : state) : Prop :=
  ∀ t rest, (t, false) ∈ _waiters (lock s) → tasks s !! t = Some (Waiting Writer rest) → held (lock s) = true.

Lemma writers_of_old s t p' l :
  (t < length (tasks s))%nat → writers_behind s → held l = held (lock s) →
  (∀ u, u ≠ t → (u, false) ∈ _waiters l → (u, false) ∈ _waiters (lock s)) →
  (∀ rest, p' ≠ Waiting Writer rest) → writers_behind (mkState l (<[t := p']> (tasks s))).
Proof.
  intros Hlt Hold Hh Hpend Hp' u rest Hin Hu. cbn in *. destruct (decide (u = t)) as [->|Hne].
  - rewrite list_lookup_insert_eq in Hu by done. simplify_eq. by destruct (Hp' rest).
  - rewrite list_lookup_insert_ne in Hu by done. rewrite Hh. eauto.
Qed.

Lemma effect_writers renotify a s t p p' l :
  inv s → tasks s !! t = Some p → effect renotify t (lock s) a p l p' →
  writers_behind s → writers_behind (mkState l (<[t := p']> (tasks s))).
Proof.
  intros Hinv Hp He Hold. pose proof (lookup_lt_Some _ _ _ Hp) as Hlt. pose proof (inv_readers s Hinv) as Hr.
  assert (0 ≤ _readers (lock s)) by (rewrite Hr; apply number_nonneg, holds_nonneg).
  destruct He as [m rest Hb|m rest Hb|m rest Hd Hb|m rest Hd Hb|m rest|m rest].
  - destruct m; [|by intros ? ? _ _]. apply writers_of_old; try done. cbn. intros u Hu.
    rewrite elem_of_app, list_elem_of_singleton. naive_solver.
  - intros ? ? _ _. destruct m; unfold held; cbn; [|done]. apply orb_true_iff; right; lia.
  - destruct m; [|by intros ? ? _ _]. apply writers_of_old; try done. cbn. intros u Hu.
    rewrite elem_of_app, list_elem_of_singleton, elem_of_remove_waiter. naive_solver.
  - intros ? ? _ _. destruct m; unfold held; cbn; [|done]. apply orb_true_iff; right; lia.
  - destruct m; cbn; [|intros u ? Hu; by apply notify_all_done in Hu].
    case_match; [intros u ? Hu; by apply notify_all_done in Hu|]. intros ? ? _ _. unfold held; cbn. apply orb_true_iff; right.
    assert (0 < _readers (lock s)); [|lia]. rewrite Hr. apply number_pos; [apply holds_nonneg|].
    exists t, (Holding Reader rest). by split.
  - apply writers_of_old; [done|done|by destruct m, renotify| |done]. intros u Hu. rewrite unqueued_waiters.
    destruct renotify; [intros Hin%notify_pending|intros Hin]; cbn in Hin; by apply elem_of_remove_waiter in Hin as [_ ?].
Qed.

(** ** Runs *)

Section runs.
Context (cancels renotify : bool) (programs : list (list mode)).

Definition reachable (s : state) : Prop := rtc (step cancels renotify) (init programs) s.

Lemma step_effect s s' :
  inv s → step cancels renotify s s' →
  ∃ a t p l p', (cancels || negb (is_cancel a)) = true ∧ tasks s !! t = Some p ∧
    effect renotify t (lock s) a p l p' ∧ s' = mkState l (<[t := p']> (tasks s)).
Proof.
  intros Hinv (a & Ha & (t & p & l & p' & Hp & He & ->)%exec_effect); [|apply Hinv].
  by exists a, t, p, l, p'.
Qed.

Lemma reachable_inv s : reachable s → inv s.
Proof.
  unfold reachable. apply (rtc_ind_r inv); [apply init_inv|].
  intros s1 s2 _ Hstep Hinv. apply step_effect in Hstep as (a & t & p & l & p' & _ & Hp & He & ->);
    [|done]. by eapply effect_inv.
Qed.

Lemma reachable_wake s : (cancels = true → renotify = true) → reachable s → wake_inv s.
Proof.
  intros Hc. unfold reachable. intros Hs. apply (rtc_ind_r (λ s, inv s ∧ wake_inv s)) in Hs; [apply Hs| |].
  - split; [apply init_inv|]. split; cbn; intros * ?%elem_of_nil; done.
  - intros s1 s2 _ Hstep [Hinv Hwake].
    apply step_effect in Hstep as (a & t & p & l & p' & Ha & Hp & He & ->); [|done].
    split; [by eapply effect_inv|]. eapply effect_wake; try done.
    intros Hca. apply Hc. rewrite Hca in Ha. by destruct cancels.
Qed.

(** Some action is possible as long as a task is not finished. *)
Lemma effect_step s a t p l p' :
  inv s → (cancels || negb (is_cancel a)) = true → tasks s !! t = Some p →
  effect renotify t (lock s) a p l p' → ∃ s', step cancels renotify s s'.
Proof.
  intros Hinv Ha Hp He. eexists. exists a. split; [done|].
  apply exec_effect; [apply Hinv|]. eauto 10.
Qed.

Lemma enter_step s t m rest :
  inv s → tasks s !! t = Some (Idle (m :: rest)) → ∃ s', step cancels renotify s s'.
Proof.
  intros Hinv Hp. destruct (blocked m (lock s)) eqn:Hb.
  - eapply effect_step; [done| |done|by eapply enter_waits]. apply orb_true_r.
  - eapply effect_step; [done| |done|by eapply enter_holds]. apply orb_true_r.
Qed.

Lemma exit_step s t m rest :
  inv s → tasks s !! t = Some (Holding m rest) → ∃ s', step cancels renotify s s'.
Proof.
  intros Hinv Hp. eapply effect_step; [done| |done|by eapply exits]. apply orb_true_r.
Qed.

Lemma resume_step s t :
  inv s → (t, true) ∈ _waiters (lock s) → ∃ s', step cancels renotify s s'.
Proof.
  intros Hinv Hin.
  assert (t ∈ (_waiters (lock s)).*1) as (m & rest & Hp)%(inv_waiters s Hinv).
  { by apply (list_elem_of_fmap_2 fst) in Hin. }
  destruct (blocked m (lock s)) eqn:Hb.
  - eapply effect_step; [done| |done|by eapply resume_waits]. apply orb_true_r.
  - eapply effect_step; [done| |done|by eapply resume_holds]. apply orb_true_r.
Qed.

Lemma held_step s : inv s → held (lock s) = true → ∃ s', step cancels renotify s s'.
Proof.
  intros Hinv Hheld.
  assert (∃ m, 0 < number (holds m) s) as [m Hpos].
  { apply orb_prop in Hheld as [Hw|Hr%Z.ltb_lt].
    - exists Writer. rewrite (inv_writer s Hinv), Hw. done.
    - exists Reader. by rewrite <- (inv_readers s Hinv). }
  apply number_pos in Hpos as (t & p & Hp & Hpos); [|apply holds_nonneg].
  destruct p; cbn in Hpos; try lia. by eapply exit_step.
Qed.

Lemma progress s t p :
  inv s → wake_inv s → tasks s !! t = Some p → ¬ finished p → ∃ s', step cancels renotify s s'.
Proof.
  intros Hinv Hwake Hp Hnf. destruct p as [[|m rest]|m rest|m rest].
  - by destruct Hnf.
  - by eapply enter_step.
  - assert (t ∈ (_waiters (lock s)).*1) as Ht by (apply (inv_waiters s Hinv); eauto).
    apply list_elem_of_fmap in Ht as ([u []] & -> & Hin); [by eapply resume_step|].
    destruct (wake_any s Hwake u Hin) as [Hh|[v Hv]]; [by apply held_step|by eapply resume_step].
  - by eapply exit_step.
Qed.

Lemma reachable_writers s : reachable s → writers_behind s.
Proof.
  unfold reachable. intros Hs. apply (rtc_ind_r (λ s, inv s ∧ writers_behind s)) in Hs; [apply Hs| |].
  - split; [apply init_inv|]. intros t rest; cbn. by intros ?%elem_of_nil.
  - intros s1 s2 _ Hstep [Hinv Hw]. apply step_effect in Hstep as (a & t & p & l & p' & Ha & Hp & He & ->); [|done].
    split; [by eapply effect_inv|by eapply effect_writers].
Qed.

(** The measure: what the clients still have to do, then the futures that are done. *)
Definition weight (p : pc) : Z :=
  match p with
  | Idle rest => 3 * Z.of_nat (length rest)
  | Waiting _ rest => 3 * Z.of_nat (length rest) + 2
  | Holding _ rest => 3 * Z.of_nat (length rest) + 1
  end.

Definition done_futures (ws : list (nat * bool)) : Z :=
  sumZ ((λ w : nat * bool, Z.b2z w.2) <$> ws).

Definition measure (s : state) : Z :=
  number weight s * (Z.of_nat (length (tasks s)) + 1) + done_futures (_waiters (lock s)).

Lemma done_futures_bound ws : 0 ≤ done_futures ws ≤ Z.of_nat (length ws).
Proof.
  unfold done_futures. induction ws as [|[u []] ws IH]; cbn [fmap list_fmap length];
    rewrite ?sumZ_cons; cbn in *; lia.
Qed.

Lemma done_futures_remove t ws :
  done_futures (remove_waiter t ws) ≤ done_futures ws ∧
  ((t, true) ∈ ws → done_futures (remove_waiter t ws) < done_futures ws).
Proof.
  unfold done_futures, remove_waiter.
  induction ws as [|[u b] ws IH]; [split; [done|by intros ?%elem_of_nil]|].
  rewrite filter_cons; cbn [fst]. rewrite elem_of_cons. destruct IH as [IH1 IH2].
  case_decide as Hu; cbn [fmap list_fmap]; rewrite !sumZ_cons; cbn [snd].
  - split; [lia|]. intros [Heq|Hin]; [congruence|]. specialize (IH2 Hin). lia.
  - subst u. destruct b; cbn; split; try lia.
    intros [Heq|Hin]; [congruence|]. specialize (IH2 Hin). lia.
Qed.

Lemma waiters_bound s : inv s → (length (_waiters (lock s)) ≤ length (tasks s))%nat.
Proof.
  intros Hinv. rewrite <- (length_fmap fst).
  rewrite <- (length_seq (length (tasks s)) 0). apply submseteq_length.
  apply NoDup_submseteq; [apply Hinv|].
  intros t (m & rest & Hp)%(inv_waiters s Hinv). apply lookup_lt_Some in Hp.
  apply elem_of_seq. lia.
Qed.

Lemma effect_measure a s t p l p' :
  inv s → tasks s !! t = Some p → effect renotify t (lock s) a p l p' →
  weight p' < weight p ∨
  weight p' = weight p ∧ done_futures (_waiters l) < done_futures (_waiters (lock s)).
Proof.
  intros Hinv Hp He. destruct He as [m rest Hb|m rest Hb|m rest Hd Hb|m rest Hd Hb|m rest|m rest];
    cbn [weight length]; try (left; lia).
  right. split; [done|]. cbn. unfold done_futures at 1. rewrite fmap_app, sumZ_app; cbn.
  destruct (done_futures_remove t (_waiters (lock s))) as [_ Hlt]. specialize (Hlt Hd).
  unfold done_futures in *. lia.
Qed.

Lemma step_measure s s' : inv s → step cancels renotify s s' → measure s' < measure s.
Proof.
  intros Hinv Hstep.
  apply step_effect in Hstep as (a & t & p & l & p' & _ & Hp & He & ->); [|done].
  pose proof (effect_inv _ _ _ _ _ _ _ Hinv Hp He) as Hinv'.
  pose proof (waiters_bound _ Hinv') as Hb'. pose proof (done_futures_bound (_waiters l)).
  pose proof (done_futures_bound (_waiters (lock s))).
  unfold measure. rewrite (number_change _ _ _ _ _ Hp). cbn [lock tasks] in *.
  rewrite length_insert in *.
  destruct (effect_measure a s t p l p' Hinv Hp He) as [Hlt|[Heq Hlt]]; [nia|].
  rewrite Heq. replace (number weight s - weight p + weight p) with (number weight s) by lia. lia.
Qed.

Lemma run_measure n s1 s2 :
  nsteps (step cancels renotify) n s1 s2 → inv s1 → inv s2 ∧ Z.of_nat n + measure s2 ≤ measure s1.
Proof.
  induction 1 as [|k s1 s2 s3 Hstep Hrest IH]; intros Hinv; [split; [done|lia]|].
  pose proof (step_measure _ _ Hinv Hstep).
  assert (inv s2) as Hinv2; [|destruct (IH Hinv2); split; [done|lia]].
  apply step_effect in Hstep as (a & t & p & l & p' & _ & Hp & He & ->); [|done]. by eapply effect_inv.
Qed.

Lemma run_bound n s : nsteps (step cancels renotify) n (init programs) s →
  Z.of_nat n + measure s ≤ measure (init programs).
Proof. intros Hn. eapply run_measure; [done|apply init_inv]. Qed.

Lemma measure_nonneg s : 0 ≤ measure s.
Proof.
  unfold measure. pose proof (done_futures_bound (_waiters (lock s))).
  assert (0 ≤ number weight s); [|nia]. apply number_nonneg. intros []; cbn; lia.
Qed.

Definition sections : Z := sumZ ((λ program, Z.of_nat (length program)) <$> programs).

Lemma measure_init : measure (init programs) = 3 * sections * (Z.of_nat (length programs) + 1).
Proof.
  unfold measure, number, sections, init. cbn [lock tasks _waiters RWLock_init].
  rewrite length_fmap. change (done_futures []) with 0. rewrite Z.add_0_r. f_equal.
  induction programs as [|q l IH]; [done|]. rewrite !fmap_cons, !sumZ_cons, IH. cbn [weight]. lia.
Qed.

(** With every task finished the lock is as it was created. *)
Lemma finished_lock s : inv s → Forall finished (tasks s) → lock s = RWLock_init.
Proof.
  intros [Hfree Hr Hw Hww Hx Hnd Hwt] Hfin.
  assert (∀ f, (∀ p, 0 ≤ f p) → f (Idle []) = 0 → number f s = 0) as Hz.
  { intros f Hf H0. pose proof (number_nonneg f s Hf).
    destruct (decide (0 < number f s)) as [Hpos|]; [|lia].
    apply number_pos in Hpos as (t & p & Hp & Hpos); [|done].
    rewrite (Forall_lookup_1 _ _ _ _ Hfin Hp) in Hpos. lia. }
  rewrite Hz in Hr by (done || apply holds_nonneg).
  rewrite Hz in Hw by (done || apply holds_nonneg).
  rewrite Hz in Hww by (done || apply waits_nonneg).
  destruct (lock s) as [b ws r wa ww]; cbn in *. subst.
  assert (ws = []) as ->.
  { destruct ws as [|[u b] ws]; [done|]. assert (u ∈ ((u, b) :: ws).*1) as Hu by set_solver.
    apply Hwt in Hu as (m & rest & Hp). by pose proof (Forall_lookup_1 _ _ _ _ Hfin Hp). }
  by destruct wa.
Qed.

(** Where no step is left, everything is finished. *)
Lemma stuck_finished s :
  inv s → wake_inv s → (∀ s', ¬ step cancels renotify s s') → Forall finished (tasks s) ∧ lock s = RWLock_init.
Proof.
  intros Hinv Hwake Hstuck. assert (Forall finished (tasks s)) as Hfin.
  { apply Forall_lookup. intros t p Hp. destruct p as [[|m rest]|m rest|m rest]; [done|..];
      exfalso; edestruct (progress s t) as [s' Hs']; try done; by eapply Hstuck. }
  split; [done|by apply finished_lock].
Qed.

Lemma run_wake n s1 s2 :
  cancels = false → nsteps (step cancels renotify) n s1 s2 → inv s1 → wake_inv s1 → wake_inv s2.
Proof.
  intros Hc. induction 1 as [|k s1 s2 s3 Hstep _ IH]; intros Hinv Hwake; [done|].
  apply step_effect in Hstep as (a & t & p & l & p' & Ha & Hp & He & ->); [|done].
  apply IH; [by eapply effect_inv|]. eapply effect_wake; try done. intros Hca. rewrite Hc, Hca in Ha. done.
Qed.

End runs.

(** ** Stalls *)

(** No client can go on, if nobody is cancelled. *)
Definition stalled (s : state) : Prop := ∀ s', ¬ step false false s s'.

(** A stall leaves a free lock, and readers pending on it. *)
Lemma stalled_tasks s :
  inv s → writers_behind s → stalled s →
  held (lock s) = false ∧ _waiting_writers (lock s) = 0 ∧
  ∀ t p, tasks s !! t = Some p →
    p = Idle [] ∨ ∃ rest, p = Waiting Reader rest ∧ (t, false) ∈ _waiters (lock s).
Proof.
  intros Hinv Hw Hst.
  assert (held (lock s) = false) as Hh.
  { destruct (held (lock s)) eqn:Hh; [|done]. by destruct (held_step false false s Hinv Hh) as [s' ?%Hst]. }
  assert (∀ t p, tasks s !! t = Some p →
    p = Idle [] ∨ ∃ rest, p = Waiting Reader rest ∧ (t, false) ∈ _waiters (lock s)) as Hall.
  { intros t p Hp. destruct p as [[|m rest]|m rest|m rest]; [by left| | |].
    - by destruct (enter_step false false s t m rest Hinv Hp) as [s' ?%Hst].
    - assert (t ∈ (_waiters (lock s)).*1) as Ht by (apply (inv_waiters s Hinv); eauto).
      apply list_elem_of_fmap in Ht as ([u []] & -> & Hin).
      { by destruct (resume_step false false s u Hinv Hin) as [s' ?%Hst]. }
      right. exists rest. split; [|done]. destruct m; [done|]. specialize (Hw u rest Hin Hp). congruence.
    - by destruct (exit_step false false s t m rest Hinv Hp) as [s' ?%Hst]. }
  split; [done|]. split; [|done]. rewrite (inv_waiting s Hinv). pose proof (number_nonneg _ s (waits_nonneg Writer)).
  destruct (decide (0 < number (waits Writer) s)) as [Hpos|]; [|lia].
  apply number_pos in Hpos as (t & p & Hp & Hpos); [|apply waits_nonneg]. destruct (Hall t p Hp) as [->|(rest & -> & _)]; cbn in Hpos; try case_decide; (done || lia).
Qed.

(** A client that comes later. *)
Definition joined (s : state) (program : list mode) : state := mkState (lock s) (tasks s ++ [Idle program]).

Lemma joined_inv s program : inv s → inv (joined s program).
Proof.
  intros [Hfree Hr Hw Hww Hx Hnd Hwt].
  assert (∀ f, f (Idle program) = 0 → number f (joined s program) = number f s) as Hn.
  { intros f Hf. unfold number, joined. cbn. rewrite fmap_app, sumZ_app. cbn. lia. }
  split; rewrite ?Hn by done; try done. intros t. cbn. rewrite Hwt. split; intros (m & rest & Hp); exists m, rest.
  - by apply lookup_app_l_Some.
  - apply lookup_app_Some in Hp as [?|[_ Hp]]; [done|]. by apply list_lookup_singleton_Some in Hp as [_ ?].
Qed.

(** The first step after a stall is the new client's, into its section. *)
Lemma joined_enters s m rest s' :
  inv s → writers_behind s → stalled s → step false false (joined s (m :: rest)) s' → inv s' ∧ wake_inv s'.
Proof.
  intros Hinv Hw Hst Hstep. destruct (stalled_tasks s Hinv Hw Hst) as (Hh & Hww & Hall).
  pose proof (joined_inv s (m :: rest) Hinv) as Hinv'. pose proof Hstep as (a0 & Ha0 & Hx).
  apply step_effect in Hstep as (a & t & p & l & p' & Ha & Hp & He & ->); [|done].
  split; [by eapply effect_inv|]. cbn [tasks joined] in Hp. apply lookup_app_Some in Hp as [Hp|[_ Hp]].
  - exfalso. destruct (effect_step false false s a t p l p' Hinv Ha Hp He) as [s'' ?%Hst]. done.
  - apply list_lookup_singleton_Some in Hp as [_ <-]. apply wake_of_held.
    assert (0 ≤ _readers (lock s)) by (rewrite (inv_readers s Hinv); apply number_nonneg, holds_nonneg).
    inversion He as [? ? Hb|? ? Hb| | | |]; subst.
    + unfold held in Hh. apply orb_false_iff in Hh as [Hwa Hrd]. cbn in Hb. destruct m; cbn in Hb; rewrite Hwa in Hb; cbn in Hb;
        [rewrite Hww in Hb|rewrite Hrd in Hb]; done.
    + destruct m; unfold held; cbn; [|done]. apply orb_true_iff; right; lia.
Qed.

(** ** Theorems *)

(** C28: The writer's section excludes every other section, and the two counters and
    the flag say who is in a section or waits for one. *)
Theorem rwlock_exclusion cancels renotify programs s :
  reachable cancels renotify programs s →
  (∀ t u rest m rest', t ≠ u → tasks s !! t = Some (Holding Writer rest) →
     tasks s !! u ≠ Some (Holding m rest')) ∧
  _readers (lock s) = number (holds Reader) s ∧
  _waiting_writers (lock s) = number (waits Writer) s ∧
  (_writer_active (lock s) = true ↔ ∃ t rest, tasks s !! t = Some (Holding Writer rest)) ∧
  _locked (lock s) = false.
Proof.
  intros Hinv%reachable_inv. pose proof Hinv as [Hfree Hr Hw Hww Hx _ _].
  split; [|split; [done|split; [done|split; [|done]]]].
  - intros t u rest m rest' Htu Ht Hu.
    assert (0 < number (holds Writer) s) as Hpos.
    { apply number_pos; [apply holds_nonneg|]. by exists t, (Holding Writer rest). }
    rewrite Hw in Hpos. destruct (_writer_active (lock s)) eqn:Ha; [|done]. specialize (Hx eq_refl).
    destruct m.
    + assert (0 < number (holds Reader) s); [|lia].
      apply number_pos; [apply holds_nonneg|]. by exists u, (Holding Reader rest').
    + assert (0 < number (holds Writer) (mkState (lock s) (<[t := Idle []]> (tasks s)))) as Hpos2.
      { apply number_pos; [apply holds_nonneg|]. exists u, (Holding Writer rest'). cbn.
        by rewrite list_lookup_insert_ne. }
      rewrite (number_change _ _ _ _ _ Ht) in Hpos2. cbn in *. case_decide; [lia|done].
  - split.
    + intros Ha. rewrite Ha in Hw. assert (0 < number (holds Writer) s) as Hpos by (cbn in *; lia).
      apply number_pos in Hpos as (t & p & Hp & Hpos); [|apply holds_nonneg].
      destruct p as [| |m rest]; cbn in Hpos; try case_decide; try lia. subst m. by eauto.
    + intros (t & rest & Ht). destruct (_writer_active (lock s)); [done|].
      assert (0 < number (holds Writer) s); [|cbn in *; lia].
      apply number_pos; [apply holds_nonneg|]. by exists t, (Holding Writer rest).
Qed.

Definition example_programs : list (list mode) := [[Reader]; [Writer]; [Reader]].

(** The state after a schedule, for concrete runs. *)
Definition schedule (renotify : bool) (actions : list action) (s : state) : option state :=
  foldl (λ o a, s ← o; exec renotify a s) (Some s) actions.

Lemma schedule_steps cancels renotify actions s s' :
  Forall (λ a, (cancels || negb (is_cancel a)) = true) actions →
  schedule renotify actions s = Some s' → nsteps (step cancels renotify) (length actions) s s'.
Proof.
  revert s. induction actions as [|a actions IH]; intros s Hall Hs; cbn in Hs.
  - simplify_eq. apply nsteps_O.
  - apply Forall_cons in Hall as [Ha Hall]. unfold schedule in *. destruct (exec renotify a s) as [s1|] eqn:He.
    + apply (nsteps_l _ _ _ s1); [by exists a|]. by apply IH.
    + exfalso. clear -Hs. induction actions as [|b actions IH]; [done|]. by apply IH.
Qed.

Lemma schedule_reachable cancels renotify programs actions s :
  Forall (λ a, (cancels || negb (is_cancel a)) = true) actions →
  schedule renotify actions (init programs) = Some s → reachable cancels renotify programs s.
Proof. intros Hall Hs. apply rtc_nsteps. eexists. by apply schedule_steps. Qed.

Definition reader_in_section : state :=
  mkState (mkRWLock false [(1%nat, false)] 1 false 1)
    [Holding Reader []; Waiting Writer []; Idle [Reader]].

Lemma rwlock_exclusion_witness :
  reachable true true example_programs reader_in_section ∧
  _readers (lock reader_in_section) = number (holds Reader) reader_in_section.
Proof.
  assert (reachable true true example_programs reader_in_section) as Hr.
  { apply (schedule_reachable _ _ _ [Enter 0%nat; Enter 1%nat]); [by repeat constructor|reflexivity]. }
  split; [exact Hr|]. apply (rwlock_exclusion true true example_programs reader_in_section Hr).
Defined.

(** A step that lets a reader into its section happens only when no writer is in
    one and none is waiting for one. *)
Theorem rwlock_writer_priority cancels renotify programs s s' t rest :
  reachable cancels renotify programs s → step cancels renotify s s' →
  tasks s' !! t = Some (Holding Reader rest) →
  tasks s !! t = Some (Holding Reader rest) ∨
  ∀ u rest', tasks s !! u ≠ Some (Waiting Writer rest') ∧ tasks s !! u ≠ Some (Holding Writer rest').
Proof.
  intros Hinv%reachable_inv Hstep Ht.
  apply step_effect in Hstep as (a & v & p & l & p' & _ & Hp & He & ->); [|done]. cbn in Ht.
  pose proof (lookup_lt_Some _ _ _ Hp).
  destruct (decide (t = v)) as [->|Hne]; [|rewrite list_lookup_insert_ne in Ht by done; by left].
  rewrite list_lookup_insert_eq in Ht by done. simplify_eq. right.
  assert (blocked Reader (lock s) = false) as [Hna Hnw%Z.ltb_ge]%orb_false_iff.
  { inversion He; by subst. }
  pose proof (inv_writer s Hinv) as Hw. pose proof (inv_waiting s Hinv) as Hww.
  intros u rest'. split; intros Hu.
  - assert (0 < number (waits Writer) s); [|lia].
    apply number_pos; [apply waits_nonneg|]. by exists u, (Waiting Writer rest').
  - assert (0 < number (holds Writer) s); [|rewrite Hna in Hw; cbn in Hw; lia].
    apply number_pos; [apply holds_nonneg|]. by exists u, (Holding Writer rest').
Qed.

Lemma rwlock_writer_priority_witness :
  tasks (init example_programs) !! 0%nat = Some (Holding Reader []) ∨
  ∀ u rest', tasks (init example_programs) !! u ≠ Some (Waiting Writer rest') ∧
             tasks (init example_programs) !! u ≠ Some (Holding Writer rest').
Proof.
  apply (rwlock_writer_priority true true example_programs (init example_programs)
           (mkState (mkRWLock false [] 1 false 0) [Holding Reader []; Idle [Writer]; Idle [Reader]])
           0%nat []).
  - apply rtc_refl.
  - exists (Enter 0%nat). split; reflexivity.
  - reflexivity.
Defined.

(** C27: Every schedule of the clients has at most [3 * sections * (tasks + 1)] steps,
    and where none is possible any more every client has finished and the lock is
    as it was created: each section is entered and left, whoever is cancelled. *)
Theorem rwlock_all_finish cancels renotify programs n s :
  (cancels = true → renotify = true) →
  nsteps (step cancels renotify) n (init programs) s →
  Z.of_nat n ≤ 3 * sections programs * (Z.of_nat (length programs) + 1) ∧
  ((∀ s', ¬ step cancels renotify s s') → Forall finished (tasks s) ∧ lock s = RWLock_init).
Proof.
  intros Hc Hn.
  assert (reachable cancels renotify programs s) as Hreach by (apply rtc_nsteps; eauto).
  pose proof (reachable_inv _ _ _ _ Hreach) as Hinv.
  pose proof (reachable_wake _ _ _ _ Hc Hreach) as Hwake. split.
  - pose proof (run_bound _ _ _ _ _ Hn) as Hb. rewrite measure_init in Hb. pose proof (measure_nonneg s). lia.
  - by apply stuck_finished.
Qed.

Definition all_done : state := mkState RWLock_init [Idle []; Idle []; Idle []].

Lemma rwlock_all_finish_witness :
  schedule true [Enter 0%nat; Enter 1%nat; Exit 0%nat; Enter 2%nat; Cancel 1%nat; Resume 2%nat;
                 Exit 2%nat] (init example_programs) = Some all_done ∧
  Forall finished (tasks all_done) ∧ lock all_done = RWLock_init.
Proof.
  split; [vm_compute; reflexivity|].
  apply (rwlock_all_finish true true example_programs 7); [done| |].
  - apply (schedule_steps _ _ [Enter 0%nat; Enter 1%nat; Exit 0%nat; Enter 2%nat; Cancel 1%nat;
                               Resume 2%nat; Exit 2%nat]); [by repeat constructor|].
    vm_compute; reflexivity.
  - intros s' (a & _ & Ha). destruct a as [[|[|[|t]]]|[|[|[|t]]]|[|[|[|t]]]|[|[|[|t]]]];
      vm_compute in Ha; discriminate Ha.
Defined.

(** [n] readers behind a writer that was woken and is cancelled before its turn. *)
Definition stranded (n : nat) : state :=
  mkState (mkRWLock false ((λ t, (t, false)) <$> seq 2 n) 0 false 0) (Idle [] :: Idle [] :: replicate n (Waiting Reader [])).

Lemma readers_queue i k :
  rtc (step true false)
    (mkState (mkRWLock false ((1%nat, true) :: ((λ t, (t, false)) <$> seq 2 i)) 0 false 1)
      (Idle [] :: Waiting Writer [] :: replicate i (Waiting Reader []) ++ replicate k (Idle [Reader])))
    (mkState (mkRWLock false ((1%nat, true) :: ((λ t, (t, false)) <$> seq 2 (i + k))) 0 false 1)
      (Idle [] :: Waiting Writer [] :: replicate (i + k) (Waiting Reader []))).
Proof.
  revert i. induction k as [|k IH]; intros i; [rewrite Nat.add_0_r, app_nil_r; apply rtc_refl|].
  eapply rtc_l; [|rewrite <- Nat.add_succ_comm; apply (IH (S i))]. exists (Enter (2 + i)). split; [done|].
  cbn [exec tasks]. change ((?a :: ?b :: ?l) !! (2 + i)%nat) with (l !! i).
  rewrite lookup_app_r by (by rewrite length_replicate). rewrite length_replicate, Nat.sub_diag. cbn [replicate lookup list_lookup].
  cbn. do 2 f_equal.
  - unfold set_waiters, set_locked. cbn. f_equal. f_equal. change ((2%nat, false) :: _) with ((λ t : nat, (t, false)) <$> seq 2 (S i)).
    by rewrite seq_S, fmap_app.
  - do 2 f_equal. etransitivity; [apply insert_app_r_alt; by rewrite length_replicate|].
    rewrite length_replicate, Nat.sub_diag. cbn.
    by rewrite (cons_middle (Waiting Reader [])), app_assoc, <- replicate_cons_app.
Qed.

(** Any number of readers can be left behind. *)
Lemma stranded_reachable n : reachable true false ([Reader] :: [Writer] :: replicate n [Reader]) (stranded n).
Proof.
  unfold reachable, init. cbn [fmap list_fmap]. rewrite fmap_replicate.
  eapply rtc_l; [exists (Enter 0); split; [done|reflexivity]|].
  eapply rtc_l; [exists (Enter 1); split; [done|reflexivity]|].
  eapply rtc_l; [exists (Exit 0); split; [done|reflexivity]|].
  etransitivity; [apply (readers_queue 0 n)|]. apply rtc_once. exists (Cancel 1). split; [done|]. cbn.
  unfold stranded, remove_waiter. do 3 f_equal. rewrite filter_cons_False by (intros H; by apply H).
  unfold set_locked, add_waiting_writers, set_waiters. cbn. f_equal. apply filter_all. intros w (t & -> & Ht%elem_of_seq)%list_elem_of_fmap. cbn. lia.
Qed.

Lemma stranded_stalled n : stalled (stranded n).
Proof.
  intros s' (a & Ha & Hx). apply exec_effect in Hx as (t & p & l & p' & Hp & He & _); [|done].
  assert (p = Idle [] ∨ p = Waiting Reader []) as [-> | ->].
  { destruct t as [|[|t]]; cbn in Hp; [naive_solver..|]. apply lookup_replicate in Hp as [-> _]. by right. }
  - inversion He.
  - inversion He as [| |? ? Hin|? ? Hin| |]; subst; try done; cbn in Hin;
      by apply list_elem_of_fmap in Hin as (? & ? & _).
Qed.

(** C29: Where a cancelled wait does not pass its wake-up on, clients may be left unfinished
    with no step to take.  Then nobody is in a section and no writer waits: the clients
    left are readers whose futures are pending although nothing blocks them.  They stay so
    until another client comes: whatever sections it enters, every schedule from
    there on is finite, and ends with all of them finished and the lock as created. *)
Theorem rwlock_stall_exact programs s :
  reachable true false programs s → stalled s →
  (held (lock s) = false ∧ blocked Reader (lock s) = false ∧
   ∀ t p, tasks s !! t = Some p →
     finished p ∨ ∃ rest, p = Waiting Reader rest ∧ (t, false) ∈ _waiters (lock s)) ∧
  (∀ m rest n s', nsteps (step false false) n (joined s (m :: rest)) s' →
    Z.of_nat n ≤ measure (joined s (m :: rest)) ∧
    (stalled s' → Forall finished (tasks s') ∧ lock s' = RWLock_init)).
Proof.
  intros Hreach Hst. pose proof (reachable_inv _ _ _ _ Hreach) as Hinv. pose proof (reachable_writers _ _ _ _ Hreach) as Hw.
  destruct (stalled_tasks s Hinv Hw Hst) as (Hh & Hww & Hall). split.
  - split; [done|]. split; [|done]. unfold held in Hh. apply orb_false_iff in Hh as [Hwa _]. cbn. by rewrite Hwa, Hww.
  - intros m rest n s' Hn. pose proof (joined_inv s (m :: rest) Hinv) as Hj.
    destruct (run_measure _ _ _ _ _ Hn Hj) as [Hinv' Hm]. pose proof (measure_nonneg s').
    split; [lia|]. intros Hst'. inversion Hn as [|n' ? s1 ? Hstep Hn']; subst.
    + destruct (enter_step false false (joined s (m :: rest)) (length (tasks s)) m rest Hj) as [s'' ?%Hst']; [|done].
      cbn. by rewrite lookup_app_r, Nat.sub_diag by done.
    + destruct (joined_enters s m rest s1 Hinv Hw Hst Hstep) as [Hinv1 Hwake1].
      apply (stuck_finished false false); [done|by apply (run_wake false false n' s1 s')|done].
Qed.

Lemma rwlock_stall_exact_witness :
  blocked Reader (lock (stranded 2)) = false ∧ (2%nat, false) ∈ _waiters (lock (stranded 2)) ∧
  ∀ n s', nsteps (step false false) n (joined (stranded 2) [Reader]) s' → stalled s' →
    Forall finished (tasks s') ∧ lock s' = RWLock_init.
Proof.
  destruct (rwlock_stall_exact ([Reader] :: [Writer] :: replicate 2 [Reader]) (stranded 2) (stranded_reachable 2) (stranded_stalled 2))
    as [(_ & Hb & Hall) Hlater].
  split; [exact Hb|]. split.
  - destruct (Hall 2%nat (Waiting Reader []) eq_refl) as [Hf|(rest & _ & Hin)]; [discriminate Hf|exact Hin].
  - intros n s' Hn. exact (proj2 (Hlater Reader [] n s' Hn)).
Defined.
