(* ===== verification/EmbeddingCache.v ===== *)
(** * The vision-embedding caches: [cache/embedding_cache.py]

    [Single] is [EmbeddingCache], an LRU cache bounded by bytes; [Tiered] is
    [TieredEmbeddingCache], two of them, where the victims of the device tier
    move to the host tier.

    An [OrderedDict] is the list of its items, oldest first.  A Python object is
    an [option V], [None] being Python's: [get] of the tiered cache tests the
    value it gets against [None], so a stored [None] matters.  A method is a
    computation of [PyState]; the eviction hook is a method of the object that
    owns the cache, run inside the eviction loop.

    The theorems: both caches keep their byte count exact and within capacity; a
    [put] keeps the longest recent suffix that fits and hands the rest to the hook
    oldest first; the two tiers never share a key, and a promoted key is never a
    victim; whatever the sequence of calls, a [get] returns the last value put
    under the key or nothing; the counters count the calls. *)

From S2P Require Import Prelude PyState.

Local Open Scope Z_scope.

(** Python's [object]. *)
Abbreviation object := option.

Section ordered_dict.
Context {K A : Type} `{EqDecision K}.

(** [dict.get], [dict.pop(key, None)] and the store after it. *)
Fixpoint od_get (key : K) (d : list (K * A)) : option A :=
  match d with
  | [] => None
  | (k, a) :: d' => if decide (k = key) then Some a else od_get key d'
  end.

Definition od_remove (key : K) (d : list (K * A)) : list (K * A) := filter (λ e, e.1 ≠ key) d.

(** [d[key] = a]: in place for a key of the dictionary, else at the end. *)
Definition od_set (key : K) (a : A) (d : list (K * A)) : list (K * A) :=
  if decide (key ∈ d.*1) then (λ e, if decide (e.1 = key) then (key, a) else e) <$> d
  else d ++ [(key, a)].

(** [move_to_end(key)] for a key of the dictionary. *)
Definition od_move_to_end (key : K) (d : list (K * A)) : list (K * A) :=
  match od_get key d with
  | Some a => od_remove key d ++ [(key, a)]
  | None => d
  end.
End ordered_dict.

Module Single.
Section single.
Context {K V : Type} `{EqDecision K}.

Record t := mk {
  capacity_bytes : Z;
  _store : list (K * (object V * Z));
  _cur_bytes : Z;
  hits : Z;
  misses : Z;
}.

Definition init (capacity_bytes : Z) : result t :=
  if capacity_bytes <? 0 then Raise (ValueError "capacity_bytes must be >= 0")
  else Ok (mk capacity_bytes [] 0 0 0).

Definition set_store (store : list (K * (object V * Z))) (cur : Z) (self : t) : t :=
  mk (capacity_bytes self) store cur (hits self) (misses self).

Definition get (key : K) : M t (object V) :=
  store ← read _store;
  match od_get key store with
  | None =>
      modify (λ self, mk (capacity_bytes self) (_store self) (_cur_bytes self)
                         (hits self) (misses self + 1)) ;;
      mret None
  | Some entry =>
      modify (λ self, mk (capacity_bytes self) (od_move_to_end key (_store self))
                         (_cur_bytes self) (hits self + 1) (misses self)) ;;
      mret entry.1
  end.

Definition pop (key : K) : M t (option (object V * Z)) :=
  store ← read _store;
  match od_get key store with
  | None => mret None
  | Some existing =>
      modify (λ self, set_store (od_remove key (_store self)) (_cur_bytes self - existing.2) self) ;;
      mret (Some existing)
  end.

(** The owner's state [S] beside the cache, and its hook. *)
Section evict.
Context {S : Type} (on_evict : K → object V → Z → M S ()).

(** [_evict]: the loop pops the oldest item, then runs the hook. *)
Fixpoint evict_loop (capacity : Z) (store : list (K * (object V * Z))) (cur : Z) (s : S) :
    result () * (list (K * (object V * Z)) * Z * S) :=
  match store with
  | [] => (Ok (), (store, cur, s))
  | (key, (value, nbytes)) :: store' =>
      if capacity <? cur then
        match on_evict key value nbytes s with
        | (Ok _, s') => evict_loop capacity store' (cur - nbytes) s'
        | (Raise e, s') => (Raise e, (store', cur - nbytes, s'))
        end
      else (Ok (), (store, cur, s))
  end.

Definition _evict : M (t * S) () := λ '(self, s),
  let '(r, (store, cur, s')) := evict_loop (capacity_bytes self) (_store self) (_cur_bytes self) s in
  (r, (set_store store cur self, s')).

Definition put (key : K) (value : object V) (nbytes : Z) : M (t * S) () :=
  if nbytes <? 0 then raise (ValueError "nbytes must be >= 0") else
  capacity ← read (λ o : t * S, capacity_bytes o.1);
  if capacity <? nbytes then mret () else
  modify (λ o : t * S,
    match od_get key (_store o.1) with
    | Some existing =>
        (set_store (od_remove key (_store o.1)) (_cur_bytes o.1 - existing.2) o.1, o.2)
    | None => o
    end) ;;
  modify (λ o : t * S,
    (set_store (od_set key (value, nbytes) (_store o.1)) (_cur_bytes o.1 + nbytes) o.1, o.2)) ;;
  _evict.
End evict.

Definition contains (key : K) (self : t) : bool := bool_decide (key ∈ (_store self).*1).
Definition len (self : t) : Z := Z.of_nat (length (_store self)).
Definition current_bytes (self : t) : Z := _cur_bytes self.

(** [on_evict=None]: no hook and no owner. *)
Definition no_hook : K → object V → Z → M () () := λ _ _ _, mret ().

Definition put_alone (key : K) (value : object V) (nbytes : Z) : M t () := λ self,
  let '(r, (self', _)) := put no_hook key value nbytes (self, ()) in (r, self').
End single.
Arguments t : clear implicits.
End Single.

(** The default device-host copies: a value is a tensor, or a tuple of tensors and
    [None]s. *)
Inductive embedding (T : Type) :=
  | Bare (tensor : T)
  | Tuple (tensors : list (option T)).
Arguments Bare {T} _.
Arguments Tuple {T} _.

Section copies.
Context {T : Type} (cpu to : T → T).

Definition _embedding_to_host (value : embedding T) : embedding T :=
  match value with
  | Tuple tensors => Tuple ((λ t, match t with None => None | Some t => Some (cpu t) end) <$> tensors)
  | Bare tensor => Bare (cpu tensor)
  end.

Definition _embedding_to_device (value : embedding T) : embedding T :=
  match value with
  | Tuple tensors => Tuple ((λ t, match t with None => None | Some t => Some (to t) end) <$> tensors)
  | Bare tensor => Bare (to tensor)
  end.
End copies.

Module Tiered.
Section tiered.
Context {K V : Type} `{EqDecision K} (to_host to_device : object V → object V).

Record t := mk {
  l1 : Single.t K V;
  l2 : Single.t K V;
  l1_hits : Z;
  l2_hits : Z;
  misses : Z;
  promotions : Z;
  demotions : Z;
}.

Definition init (l1_capacity_bytes l2_capacity_bytes : Z) : result t :=
  l1 ← Single.init l1_capacity_bytes;
  l2 ← Single.init l2_capacity_bytes;
  Ok (mk l1 l2 0 0 0 0 0).

Definition set_l1 (c : Single.t K V) (self : t) : t :=
  mk c (l2 self) (l1_hits self) (l2_hits self) (misses self) (promotions self) (demotions self).
Definition set_l2 (c : Single.t K V) (self : t) : t :=
  mk (l1 self) c (l1_hits self) (l2_hits self) (misses self) (promotions self) (demotions self).

(** Counter updates: [+= 1] on some of the five. *)
Definition count (d1 d2 dm dp dd : Z) : M t () := modify (λ self,
  mk (l1 self) (l2 self) (l1_hits self + d1) (l2_hits self + d2) (misses self + dm)
     (promotions self + dp) (demotions self + dd)).

Definition _demote (key : K) (value : object V) (nbytes : Z) : M t () :=
  capacity ← read (λ self, Single.capacity_bytes (l2 self));
  if capacity <? nbytes then mret () else
  within l2 set_l2 (Single.put_alone key (to_host value) nbytes) ;;
  kept ← read (λ self, Single.contains key (l2 self));
  if (kept : bool) then count 0 0 0 0 1 else mret ().

(** [self.l1.put]: the hook is [self._demote], on the same object. *)
Definition l1_put (key : K) (value : object V) (nbytes : Z) : M t () := λ self,
  let '(r, (l1', self')) := Single.put _demote key value nbytes (l1 self, self) in
  (r, set_l1 l1' self').

Definition get (key : K) : M t (object V) :=
  value ← within l1 set_l1 (Single.get key);
  match value with
  | Some _ => count 1 0 0 0 0 ;; mret value
  | None =>
      promoted ← within l2 set_l2 (Single.pop key);
      match promoted with
      | None => count 0 0 1 0 0 ;; mret None
      | Some (host_value, nbytes) =>
          let device_value := to_device host_value in
          count 0 1 0 1 0 ;;
          l1_put key device_value nbytes ;;
          mret device_value
      end
  end.

Definition put (key : K) (value : object V) (nbytes : Z) : M t () :=
  within l2 set_l2 (Single.pop key) ;;
  l1_put key value nbytes.

Definition hits (self : t) : Z := l1_hits self + l2_hits self.
Definition contains (key : K) (self : t) : bool :=
  Single.contains key (l1 self) || Single.contains key (l2 self).
Definition len (self : t) : Z := Single.len (l1 self) + Single.len (l2 self).
End tiered.
Arguments t : clear implicits.
End Tiered.

(** ** Dictionaries *)

Section dict_lemmas.
Context {K A : Type} `{EqDecision K}.
Implicit Types d : list (K * A).

Lemma od_get_Some key a d : NoDup d.*1 → od_get key d = Some a ↔ (key, a) ∈ d.
Proof.
  induction d as [|[k b] d IH]; cbn; intros Hnd.
  - split; [done|by intros ?%elem_of_nil].
  - apply NoDup_cons in Hnd as [Hk Hnd]. rewrite elem_of_cons. case_decide as Hkk.
    + subst k. split; [naive_solver|]. intros [|Hin]; [naive_solver|].
      by apply (list_elem_of_fmap_2 fst) in Hin.
    + rewrite IH by done. naive_solver.
Qed.

Lemma od_get_None key d : od_get key d = None ↔ key ∉ d.*1.
Proof.
  induction d as [|[k b] d IH]; cbn; [split; [intros _ ?%elem_of_nil; done|done]|].
  rewrite elem_of_cons. case_decide; naive_solver.
Qed.

Lemma od_remove_keys key d : (od_remove key d).*1 = filter (λ k, k ≠ key) d.*1.
Proof.
  unfold od_remove. induction d as [|[k b] d IH]; [done|].
  rewrite fmap_cons, !filter_cons. cbn [fst]. case_decide; rewrite ?fmap_cons, IH; done.
Qed.

Lemma elem_of_od_remove key d e : e ∈ od_remove key d ↔ e.1 ≠ key ∧ e ∈ d.
Proof. unfold od_remove. by rewrite list_elem_of_filter. Qed.

Lemma od_remove_fresh key d : key ∉ d.*1 → od_remove key d = d.
Proof.
  intros Hk. unfold od_remove. apply filter_all. intros e He Heq.
  apply Hk. rewrite <- Heq. by apply list_elem_of_fmap_2.
Qed.

Lemma od_set_fresh key a d : key ∉ d.*1 → od_set key a d = d ++ [(key, a)].
Proof. intros Hk. unfold od_set. by rewrite decide_False. Qed.

Lemma od_remove_NoDup key d : NoDup d.*1 → NoDup (od_remove key d).*1.
Proof. rewrite od_remove_keys. apply NoDup_filter. Qed.

Lemma od_remove_not_in key d : key ∉ (od_remove key d).*1.
Proof. rewrite od_remove_keys, list_elem_of_filter. naive_solver. Qed.

(** A key removed and put last again: what [move_to_end] and [put] build. *)
Lemma od_last_NoDup key a d : NoDup d.*1 → NoDup (od_remove key d ++ [(key, a)]).*1.
Proof.
  intros Hnd. rewrite fmap_app. apply NoDup_app.
  split; [by apply od_remove_NoDup|]. split; [|apply NoDup_singleton].
  intros k Hk. cbn. intros ->%list_elem_of_singleton. by apply od_remove_not_in in Hk.
Qed.

(** A key of the dictionary splits its sum. *)
Lemma od_remove_sum (w : K * A → Z) key a d :
  NoDup d.*1 → (key, a) ∈ d → sumZ (w <$> d) = w (key, a) + sumZ (w <$> od_remove key d).
Proof.
  unfold od_remove. induction d as [|[k b] d IH]; [by intros _ ?%elem_of_nil|].
  rewrite fmap_cons. intros [Hk Hnd]%NoDup_cons Hin. rewrite filter_cons. cbn [fst].
  apply elem_of_cons in Hin as [Heq|Hin].
  - simplify_eq. rewrite decide_False by auto. rewrite fmap_cons, sumZ_cons.
    fold (od_remove k d). by rewrite od_remove_fresh.
  - rewrite decide_True.
    + rewrite !fmap_cons, !sumZ_cons, IH by done. lia.
    + intros ->. by apply (list_elem_of_fmap_2 fst) in Hin.
Qed.
End dict_lemmas.

(** ** The single cache *)

Module SingleFacts.
Import Single.
Section facts.
Context {K V : Type} `{EqDecision K}.
Implicit Types (c : Single.t K V) (l : list (K * (object V * Z))).

Definition bytes l : Z := sumZ ((λ e : K * (object V * Z), e.2.2) <$> l).

Record ok c : Prop := {
  ok_capacity : 0 ≤ capacity_bytes c;
  ok_keys : NoDup (_store c).*1;
  ok_bytes : _cur_bytes c = bytes (_store c);
  ok_sizes : Forall (λ e, 0 ≤ e.2.2 ≤ capacity_bytes c) (_store c);
  ok_fits : _cur_bytes c ≤ capacity_bytes c;
}.

Lemma bytes_app l1 l2 : bytes (l1 ++ l2) = bytes l1 + bytes l2.
Proof. unfold bytes. by rewrite fmap_app, sumZ_app. Qed.

Lemma bytes_cons e l : bytes (e :: l) = e.2.2 + bytes l.
Proof. done. Qed.

Lemma bytes_nonneg l (b : Z) : Forall (λ e, 0 ≤ e.2.2 ≤ b) l → 0 ≤ bytes l.
Proof.
  intros Hl. apply sumZ_nonneg, Forall_fmap. eapply Forall_impl; [exact Hl|]. cbn; intros; lia.
Qed.

Lemma init_ok capacity c : init capacity = Ok c → ok c ∧ capacity_bytes c = capacity.
Proof.
  unfold init. case_match eqn:Hc; [done|]. intros ?; simplify_eq. split; [|done].
  apply Z.ltb_ge in Hc. split; cbn; try done; apply NoDup_nil_2.
Qed.

(** How many items the loop evicts. *)
Fixpoint evictions (capacity : Z) l (cur : Z) : nat :=
  match l with
  | [] => 0
  | e :: l' => if capacity <? cur then S (evictions capacity l' (cur - e.2.2)) else 0
  end.

Lemma evictions_spec capacity l cur :
  cur = bytes l →
  let j := evictions capacity l cur in
  (j ≤ length l)%nat ∧ (0 ≤ capacity → bytes (drop j l) ≤ capacity) ∧
  (∀ i, (i < j)%nat → capacity < bytes (drop i l)).
Proof.
  revert cur. induction l as [|e l IH]; intros cur Hcur; cbn [evictions].
  - cbn. split; [done|]. split; [done|]. intros i Hi. lia.
  - case_match eqn:Hc.
    + apply Z.ltb_lt in Hc. destruct (IH (cur - e.2.2)) as (H1 & H2 & H3).
      { rewrite Hcur, bytes_cons. lia. }
      cbn [length drop]. split; [lia|]. split; [done|].
      intros [|i] Hi; cbn [drop]; [by rewrite <- Hcur|]. apply H3. lia.
    + apply Z.ltb_ge in Hc. cbv zeta. rewrite drop_0, <- Hcur.
      split; [lia|]. split; [lia|]. intros i Hi. lia.
Qed.

Section hooks.
Context {S : Type} (on_evict : K → object V → Z → M S ()).

Fixpoint run_hooks l : M S () :=
  match l with
  | [] => mret ()
  | e :: l' => on_evict e.1 e.2.1 e.2.2 ;; run_hooks l'
  end.

Lemma evict_loop_eq capacity l cur s s' :
  let j := evictions capacity l cur in
  run_hooks (take j l) s = (Ok (), s') →
  evict_loop on_evict capacity l cur s = (Ok (), (drop j l, cur - bytes (take j l), s')).
Proof.
  revert cur s. induction l as [|[k [v n]] l IH]; intros cur s; cbn [evictions evict_loop].
  - cbv zeta. cbn [take drop run_hooks]. rewrite run_ret. intros ?; simplify_eq.
    change (bytes []) with 0. by rewrite Z.sub_0_r.
  - case_match.
    2: { cbv zeta. rewrite take_0, drop_0. cbn [run_hooks]. rewrite run_ret. intros ?; simplify_eq.
         change (bytes []) with 0. by rewrite Z.sub_0_r. }
    cbn [take drop run_hooks fst snd]. unfold mbind, M_bind.
    destruct (on_evict k v n s) as [[[]|e] s1]; [|done]. intros Hrun. rewrite (IH _ _ Hrun).
    rewrite bytes_cons; cbn [snd]. do 3 f_equal. lia.
Qed.

(** The items a [put] leaves the loop with, and how many go. *)
Definition candidate key value nbytes c : list (K * (object V * Z)) :=
  od_remove key (_store c) ++ [(key, (value, nbytes))].

Definition victims key value nbytes c : nat :=
  evictions (capacity_bytes c) (candidate key value nbytes c) (bytes (candidate key value nbytes c)).

Lemma od_remove_bytes key c existing :
  ok c → od_get key (_store c) = Some existing →
  bytes (od_remove key (_store c)) = _cur_bytes c - existing.2.
Proof.
  intros Hok Hget. apply od_get_Some in Hget; [|apply Hok].
  pose proof (od_remove_sum (λ e : K * (object V * Z), e.2.2) _ _ _ (ok_keys c Hok) Hget) as Hsum.
  rewrite (ok_bytes c Hok).
  assert (bytes (_store c) = existing.2 + bytes (od_remove key (_store c))) as -> by exact Hsum. lia.
Qed.

Lemma put_eq key value nbytes c s s' :
  ok c → 0 ≤ nbytes ≤ capacity_bytes c →
  let l := candidate key value nbytes c in
  let j := victims key value nbytes c in
  run_hooks (take j l) s = (Ok (), s') →
  put on_evict key value nbytes (c, s) = (Ok (), (set_store (drop j l) (bytes (drop j l)) c, s')).
Proof.
  intros Hok Hn l j Hrun. unfold put. rewrite (proj2 (Z.ltb_ge _ _)) by lia.
  rewrite (run_bind_Ok (read _) _ _ (capacity_bytes c) (c, s)) by done.
  rewrite (proj2 (Z.ltb_ge _ _)) by lia.
  set (c1 := match od_get key (_store c) with
             | Some existing => set_store (od_remove key (_store c)) (_cur_bytes c - existing.2) c
             | None => c end).
  assert (_store c1 = od_remove key (_store c) ∧ _cur_bytes c1 = bytes (_store c1) ∧
          capacity_bytes c1 = capacity_bytes c ∧ set_store [] 0 c1 = set_store [] 0 c) as (E1 & E2 & E3 & E4).
  { unfold c1. destruct (od_get key (_store c)) as [ex|] eqn:Hget.
    - split_and!; try done. symmetry. by apply od_remove_bytes.
    - apply od_get_None in Hget. rewrite od_remove_fresh by done. by rewrite (ok_bytes c). }
  erewrite run_bind_Ok; [|reflexivity]. cbn [fst snd].
  replace (match od_get key (_store c) with
           | Some existing => (set_store (od_remove key (_store c)) (_cur_bytes c - existing.2) c, s)
           | None => (c, s) end) with (c1, s) by (unfold c1; by case_match).
  erewrite run_bind_Ok; [|reflexivity]. cbn [fst snd]. unfold _evict.
  cbn [set_store _store _cur_bytes capacity_bytes]. rewrite E1, E2, E3, E1.
  rewrite od_set_fresh by apply od_remove_not_in.
  assert (bytes (od_remove key (_store c)) + nbytes = bytes l) as ->.
  { unfold l, candidate. rewrite bytes_app. unfold bytes at 3. cbn. lia. }
  fold (candidate key value nbytes c). fold l.
  rewrite (evict_loop_eq (capacity_bytes c) l (bytes l) s s' Hrun).
  change (evictions (capacity_bytes c) l (bytes l)) with j.
  assert (bytes l - bytes (take j l) = bytes (drop j l)) as ->.
  { rewrite <- (take_drop j l) at 1. rewrite bytes_app. lia. }
  destruct c, c1; cbn in *; by simplify_eq.
Qed.

Lemma put_negative key value nbytes c s :
  nbytes < 0 → put on_evict key value nbytes (c, s) = (Raise (ValueError "nbytes must be >= 0"), (c, s)).
Proof. intros Hn. unfold put. by rewrite (proj2 (Z.ltb_lt _ _)). Qed.

Lemma put_oversized key value nbytes c s :
  0 ≤ nbytes → capacity_bytes c < nbytes → put on_evict key value nbytes (c, s) = (Ok (), (c, s)).
Proof.
  intros Hn Hc. unfold put. rewrite (proj2 (Z.ltb_ge _ _)) by lia.
  rewrite (run_bind_Ok (read _) _ _ (capacity_bytes c) (c, s)) by done.
  by rewrite (proj2 (Z.ltb_lt _ _)).
Qed.
End hooks.

Section candidates.
Context (key : K) (value : object V) (nbytes : Z) (c : Single.t K V).
Context (Hok : ok c) (Hn : 0 ≤ nbytes ≤ capacity_bytes c).

Let l := candidate key value nbytes c.
Let j := victims key value nbytes c.

Lemma candidate_NoDup : NoDup l.*1.
Proof. apply od_last_NoDup, Hok. Qed.

Lemma elem_of_candidate e : e ∈ l ↔ e = (key, (value, nbytes)) ∨ e.1 ≠ key ∧ e ∈ _store c.
Proof. unfold l, candidate. rewrite elem_of_app, elem_of_od_remove, list_elem_of_singleton. clear. tauto. Qed.

Lemma candidate_length : length l = S (length (od_remove key (_store c))).
Proof. unfold l, candidate. rewrite length_app; cbn; lia. Qed.

Lemma candidate_sizes : Forall (λ e, 0 ≤ e.2.2 ≤ capacity_bytes c) l.
Proof.
  apply Forall_forall. intros e [->|[_ He]]%elem_of_candidate; [done|].
  pose proof (ok_sizes c Hok) as Hs. rewrite Forall_forall in Hs. by apply Hs.
Qed.

Lemma victims_spec :
  (j < length l)%nat ∧ bytes (drop j l) ≤ capacity_bytes c ∧
  (∀ i, (i < j)%nat → capacity_bytes c < bytes (drop i l)).
Proof.
  destruct (evictions_spec (capacity_bytes c) l (bytes l) eq_refl) as (H1 & H2 & H3).
  change (evictions (capacity_bytes c) l (bytes l)) with j in H1, H2, H3.
  split; [|split; [by apply H2, Hok|done]].
  destruct (decide (j < length l)%nat) as [|Hj]; [done|]. exfalso.
  pose proof candidate_length as Hlen.
  specialize (H3 (length (od_remove key (_store c))) ltac:(lia)).
  unfold l, candidate in H3. rewrite drop_app_length in H3. unfold bytes in H3; cbn in H3. lia.
Qed.

(** The new item is the last to go. *)
Lemma drop_victims_last : ∃ l', drop j l = l' ++ [(key, (value, nbytes))].
Proof.
  destruct victims_spec as [Hj _]. rewrite candidate_length in Hj.
  exists (drop j (od_remove key (_store c))). apply drop_app_le. lia.
Qed.

Lemma put_result_ok : ok (set_store (drop j l) (bytes (drop j l)) c).
Proof.
  destruct victims_spec as (_ & Hfit & _). split; cbn [set_store capacity_bytes _store _cur_bytes].
  - apply Hok.
  - rewrite fmap_drop. pose proof candidate_NoDup as Hnd. rewrite <- (take_drop j l.*1) in Hnd.
    by apply NoDup_app in Hnd as (_ & _ & ?).
  - done.
  - apply Forall_drop, candidate_sizes.
  - done.
Qed.
End candidates.

Lemma get_eq key c :
  get key c = match od_get key (_store c) with
              | None => (Ok None, mk (capacity_bytes c) (_store c) (_cur_bytes c) (hits c) (misses c + 1))
              | Some e => (Ok e.1, mk (capacity_bytes c) (od_remove key (_store c) ++ [(key, e)])
                             (_cur_bytes c) (hits c + 1) (misses c))
              end.
Proof.
  unfold get. rewrite (run_bind_Ok (read _store) _ c (_store c) c) by done.
  cbv beta. unfold od_move_to_end. destruct (od_get key (_store c)) as [e|] eqn:Hg; [|reflexivity].
  unfold mbind, M_bind, modify, mret, M_ret. by rewrite Hg.
Qed.

Lemma pop_eq key c :
  pop key c = match od_get key (_store c) with
              | None => (Ok None, c)
              | Some e => (Ok (Some e), set_store (od_remove key (_store c)) (_cur_bytes c - e.2) c)
              end.
Proof.
  unfold pop. rewrite (run_bind_Ok (read _store) _ c (_store c) c) by done. cbv beta. by case_match.
Qed.

(** The reorder of a hit keeps the items. *)
Lemma move_to_end_perm key e (l : list (K * (object V * Z))) :
  NoDup l.*1 → od_get key l = Some e → od_remove key l ++ [(key, e)] ≡ₚ l.
Proof.
  intros Hnd Hget%od_get_Some; [|done]. apply NoDup_Permutation.
  - apply (NoDup_fmap_1 fst), od_last_NoDup, Hnd.
  - by apply (NoDup_fmap_1 fst).
  - intros x. rewrite elem_of_app, elem_of_od_remove, list_elem_of_singleton. split.
    + intros [[_ Hx]| -> ]; done.
    + intros Hx. destruct (decide (x.1 = key)) as [Hk|]; [right|by left].
      destruct x as [k e']; cbn in Hk; subst k. f_equal.
      apply (od_get_Some key) in Hx, Hget; try done. congruence.
Qed.

Lemma get_ok key c r c' : ok c → get key c = (r, c') → ok c'.
Proof.
  intros Hok. rewrite get_eq. destruct (od_get key (_store c)) as [e|] eqn:Hget; intros ?; simplify_eq.
  - pose proof (move_to_end_perm _ _ _ (ok_keys c Hok) Hget) as Hperm. destruct Hok. split; cbn; try done.
    + by rewrite Hperm.
    + rewrite ok_bytes0. symmetry. apply sumZ_perm. by rewrite Hperm.
    + by rewrite Hperm.
  - by destruct Hok.
Qed.

Lemma pop_ok key c r c' : ok c → pop key c = (r, c') → ok c' ∧ capacity_bytes c' = capacity_bytes c.
Proof.
  intros Hok. rewrite pop_eq. destruct (od_get key (_store c)) as [e|] eqn:Hget; intros ?; simplify_eq;
    [|done]. split; [|done]. pose proof (od_remove_bytes _ _ _ Hok Hget) as Hb. split; cbn.
  - apply Hok.
  - apply od_remove_NoDup, Hok.
  - done.
  - pose proof (ok_sizes c Hok) as Hs. rewrite Forall_forall in Hs. apply Forall_forall.
    intros x [_ Hx]%elem_of_od_remove. by apply Hs.
  - pose proof (ok_fits c Hok). pose proof (ok_sizes c Hok) as Hs. rewrite Forall_forall in Hs.
    apply od_get_Some in Hget; [|apply Hok]. specialize (Hs _ Hget). cbn in Hs. lia.
Qed.
End facts.
End SingleFacts.

(** ** The tiers *)

Module TieredFacts.
Import SingleFacts.
Section facts.
Context {K V : Type} `{EqDecision K} (to_host to_device : object V → object V).
Implicit Types (c : Tiered.t K V) (e : K * (object V * Z)).

Abbreviation store1 c := (Single._store (Tiered.l1 c)).
Abbreviation store2 c := (Single._store (Tiered.l2 c)).
Abbreviation cap1 c := (Single.capacity_bytes (Tiered.l1 c)).
Abbreviation cap2 c := (Single.capacity_bytes (Tiered.l2 c)).

Record tok c : Prop := {
  tok_l1 : ok (Tiered.l1 c);
  tok_l2 : ok (Tiered.l2 c);
  tok_exclusive k : k ∈ (store1 c).*1 → k ∉ (store2 c).*1;
  tok_promotable : Forall (λ e, e.2.2 ≤ cap1 c) (store2 c);
}.

Definition demoted e : K * (object V * Z) := (e.1, (to_host e.2.1, e.2.2)).

(** What the hooks leave alone. *)
Definition same_front c c' : Prop :=
  Tiered.l1 c' = Tiered.l1 c ∧ cap2 c' = cap2 c ∧
  Tiered.l1_hits c' = Tiered.l1_hits c ∧ Tiered.l2_hits c' = Tiered.l2_hits c ∧
  Tiered.misses c' = Tiered.misses c ∧ Tiered.promotions c' = Tiered.promotions c.

Lemma no_hooks (l : list (K * (object V * Z))) : run_hooks Single.no_hook l () = (Ok (), ()).
Proof. induction l as [|x l IH]; [done|]. exact IH. Qed.

Lemma demote_spec k v n c :
  ok (Tiered.l2 c) → 0 ≤ n →
  ∃ c', Tiered._demote to_host k v n c = (Ok (), c') ∧ same_front c c' ∧ ok (Tiered.l2 c') ∧
    Tiered.demotions c' = Tiered.demotions c + Z.b2z (n <=? cap2 c) ∧
    (n ≤ cap2 c → (k, (to_host v, n)) ∈ store2 c') ∧
    ∀ x, x ∈ store2 c' → x = demoted (k, (v, n)) ∨ x ∈ store2 c.
Proof.
  intros Hok Hn. unfold Tiered._demote.
  rewrite (run_bind_Ok (read _) _ c (cap2 c) c) by done. cbv beta.
  destruct (cap2 c <? n) eqn:Hc.
  - apply Z.ltb_lt in Hc. exists c. rewrite (proj2 (Z.leb_gt n (cap2 c))) by lia.
    rewrite Z.add_0_r. split_and!; try done; [lia|by right].
  - apply Z.ltb_ge in Hc. rewrite (proj2 (Z.leb_le n (cap2 c))) by lia.
    pose proof (put_eq Single.no_hook k (to_host v) n (Tiered.l2 c) () () Hok ltac:(lia)
                  (no_hooks _)) as Hput.
    set (j := victims k (to_host v) n (Tiered.l2 c)) in Hput.
    set (l := candidate k (to_host v) n (Tiered.l2 c)) in Hput.
    set (d := Single.set_store (drop j l) (bytes (drop j l)) (Tiered.l2 c)) in Hput.
    assert ((k, (to_host v, n)) ∈ drop j l) as Hin.
    { destruct (drop_victims_last k (to_host v) n (Tiered.l2 c) Hok ltac:(lia)) as [l' Hl'].
      unfold j, l. rewrite Hl'. set_solver. }
    rewrite (run_bind_Ok _ _ _ () (Tiered.set_l2 d c)).
    2: { unfold within, Single.put_alone. by rewrite Hput. }
    rewrite (run_bind_Ok (read _) _ _ true (Tiered.set_l2 d c)).
    2: { unfold read. do 2 f_equal. apply bool_decide_eq_true. by apply (list_elem_of_fmap_2 fst) in Hin. }
    eexists. split; [reflexivity|]. split; [cbn; split_and!; cbn; lia || done|].
    cbn. split; [by apply put_result_ok|]. split; [lia|]. split; [done|].
    intros x [->|[_ Hx]]%elem_of_drop_in%elem_of_candidate; [by left|by right].
Qed.

Lemma hooks_spec es c :
  ok (Tiered.l2 c) → Forall (λ e, 0 ≤ e.2.2) es →
  ∃ c', run_hooks (Tiered._demote to_host) es c = (Ok (), c') ∧ same_front c c' ∧
    ok (Tiered.l2 c') ∧
    ∀ x, x ∈ store2 c' → x ∈ store2 c ∨ ∃ e, e ∈ es ∧ x = demoted e.
Proof.
  revert c. induction es as [|[k [v n]] es IH]; intros c Hok Hes.
  - exists c. split; [done|]. split; [done|]. split; [done|]. by left.
  - apply Forall_cons in Hes as [Hn Hes]. cbn [fst snd] in Hn.
    destruct (demote_spec k v n c Hok Hn) as (c1 & Hrun1 & Hf1 & Hok1 & _ & _ & Hin1).
    destruct (IH c1 Hok1 Hes) as (c2 & Hrun2 & Hf2 & Hok2 & Hin2).
    exists c2. split; [|split; [|split; [done|]]].
    + cbn [run_hooks fst snd]. by rewrite (run_bind_Ok _ _ _ () c1).
    + unfold same_front in *. destruct Hf1 as (?&?&?&?&?&?), Hf2 as (?&?&?&?&?&?).
      split_and!; congruence.
    + intros x [Hx|(e & He & ->)]%Hin2.
      * apply Hin1 in Hx as [->|Hx]; [right|by left]. eexists. split; [by left|done].
      * right. exists e. split; [by right|done].
Qed.

(** A [put] into the device tier of an item it can hold. *)
Lemma l1_put_spec k v n c :
  tok c → k ∉ (store2 c).*1 → 0 ≤ n ≤ cap1 c →
  ∃ c' l', Tiered.l1_put to_host k v n c = (Ok (), c') ∧ tok c' ∧
    cap1 c' = cap1 c ∧ cap2 c' = cap2 c ∧ store1 c' = l' ++ [(k, (v, n))] ∧
    Tiered.l1_hits c' = Tiered.l1_hits c ∧ Tiered.l2_hits c' = Tiered.l2_hits c ∧
    Tiered.misses c' = Tiered.misses c ∧ Tiered.promotions c' = Tiered.promotions c ∧
    (∀ e, e ∈ l' → e.1 ≠ k ∧ e ∈ store1 c) ∧
    (∀ x, x ∈ store2 c' → x ∈ store2 c ∨ ∃ e, e.1 ≠ k ∧ e ∈ store1 c ∧ x = demoted e).
Proof.
  intros [Hok1 Hok2 Hex Hpr] Hk Hn.
  set (l := candidate k v n (Tiered.l1 c)). set (j := victims k v n (Tiered.l1 c)).
  pose proof (candidate_sizes k v n (Tiered.l1 c) Hok1 Hn) as Hsz. fold l in Hsz.
  destruct (hooks_spec (take j l) c Hok2) as (c1 & Hrun & (Hf1 & Hf2 & Hf3 & Hf4 & Hf5 & Hf6) & Hok1' & Hin).
  { apply Forall_take. eapply Forall_impl; [exact Hsz|]. cbn; intros; lia. }
  pose proof (put_eq (Tiered._demote to_host) k v n (Tiered.l1 c) c c1 Hok1 Hn Hrun) as Hput.
  destruct (drop_victims_last k v n (Tiered.l1 c) Hok1 Hn) as [l' Hl'].
  pose proof (candidate_NoDup k v n (Tiered.l1 c) Hok1) as Hnd. fold l in Hl', Hnd. fold j in Hl'.
  assert (Hnk : ∀ e, e ∈ take j l → e.1 ≠ k ∧ e ∈ store1 c).
  { intros e He. pose proof He as [->|?]%elem_of_take_in%elem_of_candidate; [|done]. exfalso.
    rewrite <- (take_drop j l), Hl', !fmap_app in Hnd. apply NoDup_app in Hnd as (_ & Hd & _).
    apply (Hd k); [|set_solver]. by apply (list_elem_of_fmap_2 fst) in He. }
  exists (Tiered.set_l1 (Single.set_store (drop j l) (bytes (drop j l)) (Tiered.l1 c)) c1), l'.
  split; [unfold Tiered.l1_put; by rewrite Hput|].
  assert (∀ x, x ∈ store2 c1 → x ∈ store2 c ∨ ∃ e, e.1 ≠ k ∧ e ∈ store1 c ∧ x = demoted e) as Hin'.
  { intros x [Hx|(e & [? ?]%Hnk & ->)]%Hin; [by left|]. right. eauto. }
  assert (∀ e, e ∈ l' → e.1 ≠ k ∧ e ∈ store1 c) as Hl1.
  { intros e He. assert (e ∈ drop j l) as [->|?]%elem_of_drop_in%elem_of_candidate; [|..|done].
    { rewrite Hl'. set_solver. }
    exfalso. rewrite <- (take_drop j l), Hl', !fmap_app in Hnd.
    apply NoDup_app in Hnd as (_ & _ & (_ & Hd & _)%NoDup_app).
    apply (Hd k); [|set_solver]. by apply (list_elem_of_fmap_2 fst) in He. }
  split; [|split_and!; try done].
  split; cbn.
  - by apply put_result_ok.
  - done.
  - intros k' Hk1 Hk2. apply list_elem_of_fmap in Hk1 as (e1 & -> & He1).
    apply list_elem_of_fmap in Hk2 as (e2 & Heq & He2). apply Hin in He2 as [He2|(e & He & ->)].
    + apply elem_of_drop_in, elem_of_candidate in He1 as [->|[_ He1]]; cbn in *.
      * apply Hk. rewrite Heq. by apply list_elem_of_fmap_2.
      * apply (Hex e1.1); [by apply list_elem_of_fmap_2|]. rewrite Heq. by apply list_elem_of_fmap_2.
    + rewrite <- (take_drop j l), fmap_app in Hnd. apply NoDup_app in Hnd as (_ & Hd & _).
      apply (Hd e1.1); [rewrite Heq; exact (list_elem_of_fmap_2 fst _ _ He)|exact (list_elem_of_fmap_2 fst _ _ He1)].
  - apply Forall_forall. intros x [Hx|(e & _ & He & ->)]%Hin'.
    + rewrite Forall_forall in Hpr. by apply Hpr.
    + pose proof (ok_sizes _ Hok1) as Hs. rewrite Forall_forall in Hs. cbn. by apply Hs.
Qed.

Lemma tok_shrink c c' :
  tok c → ok (Tiered.l1 c') → ok (Tiered.l2 c') → cap1 c' = cap1 c →
  (∀ e, e ∈ store1 c' → e ∈ store1 c) → (∀ e, e ∈ store2 c' → e ∈ store2 c) → tok c'.
Proof.
  intros [H1 H2 Hex Hpr] Hok1 Hok2 Hc Hs1 Hs2. split; [done|done| |].
  - intros k (e1 & -> & He1)%list_elem_of_fmap (e2 & Heq & He2)%list_elem_of_fmap.
    apply (Hex e1.1); [|rewrite Heq]; apply list_elem_of_fmap_2; auto.
  - rewrite Forall_forall in Hpr. apply Forall_forall. intros e He. rewrite Hc. auto.
Qed.

(** The value a key stands for: what [get] would return. *)
Definition holds c (k : K) (v : object V) : Prop :=
  (∃ n, (k, (v, n)) ∈ store1 c) ∨ (∃ h n, (k, (h, n)) ∈ store2 c ∧ v = to_device h).

Definition present c (k : K) : Prop := k ∈ (store1 c).*1 ∨ k ∈ (store2 c).*1.

Lemma holds_present c k v : holds c k v → present c k.
Proof.
  intros [[n Hin]|(h & n & Hin & _)]; [left|right]; exact (list_elem_of_fmap_2 fst _ _ Hin).
Qed.

(** The copies give back a value of the device tier. *)
Context (on_device : object V → Prop) (Hround : ∀ v, on_device v → to_device (to_host v) = v).

Definition device_values c : Prop := ∀ k v, holds c k v → on_device v.

Lemma device_store1 c k v n : device_values c → (k, (v, n)) ∈ store1 c → to_device (to_host v) = v.
Proof. intros Hd Hin. apply Hround, (Hd k). left. by exists n. Qed.

(** [get] on its three paths. *)
Lemma get_hit k v n c :
  od_get k (store1 c) = Some (v, n) → k ∉ (store2 c).*1 →
  ∃ c', Tiered.get to_host to_device k c = (Ok v, c') ∧
    Tiered.l1 c' = (Single.get k (Tiered.l1 c)).2 ∧ Tiered.l2 c' = Tiered.l2 c ∧
    Tiered.hits c' + Tiered.misses c' = Tiered.hits c + Tiered.misses c + 1.
Proof.
  intros Hg Hk. unfold Tiered.get. pose proof (get_eq k (Tiered.l1 c)) as E. rewrite Hg in E. cbn in E.
  erewrite run_bind_Ok; [|unfold within; rewrite E; reflexivity]. cbn [fst]. rewrite E. cbn [snd].
  destruct v as [v|].
  - eexists. split; [reflexivity|]. split; [done|]. split; [done|]. unfold Tiered.hits. cbn. lia.
  - pose proof (pop_eq k (Tiered.l2 c)) as E2. apply od_get_None in Hk. rewrite Hk in E2.
    erewrite run_bind_Ok; [|unfold within; cbn [Tiered.l2 Tiered.set_l1]; rewrite E2; reflexivity].
    eexists. split; [reflexivity|]. split; [done|]. split; [done|]. unfold Tiered.hits. cbn. lia.
Qed.

Lemma get_miss k c :
  od_get k (store1 c) = None → od_get k (store2 c) = None →
  ∃ c', Tiered.get to_host to_device k c = (Ok None, c') ∧
    Tiered.l1 c' = (Single.get k (Tiered.l1 c)).2 ∧ Tiered.l2 c' = Tiered.l2 c ∧
    Tiered.hits c' + Tiered.misses c' = Tiered.hits c + Tiered.misses c + 1.
Proof.
  intros Hg Hk. unfold Tiered.get. pose proof (get_eq k (Tiered.l1 c)) as E. rewrite Hg in E.
  erewrite run_bind_Ok; [|unfold within; rewrite E; reflexivity]. cbv beta iota.
  rewrite E. cbn [snd].
  pose proof (pop_eq k (Tiered.l2 c)) as E2. rewrite Hk in E2.
  erewrite run_bind_Ok; [|unfold within; cbn [Tiered.l2 Tiered.set_l1]; rewrite E2; reflexivity].
  eexists. split; [reflexivity|]. split; [done|]. split; [done|]. unfold Tiered.hits. cbn. lia.
Qed.

Lemma get_promotes k h n c :
  tok c → od_get k (store1 c) = None → od_get k (store2 c) = Some (h, n) →
  ∃ c' l', Tiered.get to_host to_device k c = (Ok (to_device h), c') ∧ tok c' ∧
    cap1 c' = cap1 c ∧ cap2 c' = cap2 c ∧
    Tiered.hits c' + Tiered.misses c' = Tiered.hits c + Tiered.misses c + 1 ∧
    store1 c' = l' ++ [(k, (to_device h, n))] ∧
    (∀ e, e ∈ l' → e ∈ store1 c) ∧
    (∀ x, x ∈ store2 c' → x ∈ store2 c ∨ ∃ e, e ∈ store1 c ∧ x = demoted e).
Proof.
  intros Htok Hg Hg2. pose proof Htok as [Hok1 Hok2 Hex Hpr]. unfold Tiered.get.
  pose proof (get_eq k (Tiered.l1 c)) as E. rewrite Hg in E.
  erewrite run_bind_Ok; [|unfold within; rewrite E; reflexivity]. cbv beta iota.
  pose proof (pop_eq k (Tiered.l2 c)) as E2. rewrite Hg2 in E2.
  erewrite run_bind_Ok; [|unfold within; cbn [Tiered.l2 Tiered.set_l1]; rewrite E2; reflexivity].
  cbv beta iota zeta. erewrite run_bind_Ok; [|reflexivity].
  match goal with |- context [(_ ≫= _) ?d] => set (c1 := d) end.
  assert (tok c1) as Htok1.
  { destruct (pop_ok k (Tiered.l2 c) _ _ Hok2 E2) as [Hp _].
    apply (tok_shrink c); try done.
    - by apply (get_ok k (Tiered.l1 c) _ _ Hok1 E).
    - intros e He. by apply elem_of_od_remove in He as [_ He]. }
  apply od_get_Some in Hg2; [|apply Hok2].
  assert (0 ≤ n ≤ cap1 c1) as Hn.
  { rewrite Forall_forall in Hpr. specialize (Hpr _ Hg2). pose proof (ok_sizes _ Hok2) as Hs.
    rewrite Forall_forall in Hs. specialize (Hs _ Hg2). cbn in *. lia. }
  destruct (l1_put_spec k (to_device h) n c1 Htok1) as
    (c2 & l' & Hrun & Htok2 & Hc1 & Hc2 & Hst & Hh1 & Hh2 & Hm & _ & Hl1 & Hl2); [|done|].
  { apply od_remove_not_in. }
  rewrite (run_bind_Ok _ _ c1 () c2) by done. exists c2, l'. split; [done|]. split; [done|].
  split; [done|]. split; [done|]. split; [|split; [done|split]].
  - unfold Tiered.hits. rewrite Hh1, Hh2, Hm. unfold c1. cbn. lia.
  - intros e He. by apply Hl1 in He as [_ He].
  - intros x [Hx|(e & _ & He & ->)]%Hl2; [left|right; eauto].
    by apply elem_of_od_remove in Hx as [_ Hx].
Qed.

Lemma store1_get k c e : ok (Tiered.l1 c) →
  e ∈ Single._store (Single.get k (Tiered.l1 c)).2 ↔ e ∈ store1 c.
Proof.
  intros Hok. rewrite get_eq. destruct (od_get k (store1 c)) as [x|] eqn:Hg; [|done]. cbn.
  by rewrite (move_to_end_perm k x (store1 c) (ok_keys _ Hok) Hg).
Qed.

(** What a hit or a miss in the device tier leaves. *)
Lemma get_front k c c' :
  tok c → Tiered.l1 c' = (Single.get k (Tiered.l1 c)).2 → Tiered.l2 c' = Tiered.l2 c →
  tok c' ∧ cap1 c' = cap1 c ∧ cap2 c' = cap2 c ∧ ∀ k' v, holds c' k' v → holds c k' v.
Proof.
  intros Htok H1 H2. assert (cap1 c' = cap1 c) as Hc.
  { rewrite H1, get_eq. by case_match. }
  assert (∀ e, e ∈ store1 c' → e ∈ store1 c) as Hs.
  { intros e. rewrite H1. by rewrite store1_get by apply Htok. }
  split; [|split; [done|split; [by rewrite H2|]]].
  - apply (tok_shrink c); try done; [|rewrite H2; apply Htok|by rewrite H2].
    rewrite H1. destruct (Single.get k (Tiered.l1 c)) as [r l] eqn:E.
    by apply (get_ok k (Tiered.l1 c) r l); [apply Htok|].
  - intros k' v [[n Hin]|Hin]; [left; eauto|right; by rewrite H2 in Hin].
Qed.

Lemma get_spec k c :
  tok c → device_values c →
  ∃ r c', Tiered.get to_host to_device k c = (Ok r, c') ∧ tok c' ∧
    cap1 c' = cap1 c ∧ cap2 c' = cap2 c ∧
    Tiered.hits c' + Tiered.misses c' = Tiered.hits c + Tiered.misses c + 1 ∧
    (∀ k' v, holds c' k' v → holds c k' v) ∧
    (∀ v, holds c k v → r = v ∧ ∃ l' n, store1 c' = l' ++ [(k, (v, n))]) ∧
    (¬ present c k → r = None).
Proof.
  intros Htok Hdev. pose proof Htok as [Hok1 Hok2 Hex Hpr].
  destruct (od_get k (store1 c)) as [[v n]|] eqn:Hg1.
  - pose proof Hg1 as Hin1. apply od_get_Some in Hin1; [|apply Hok1].
    assert (k ∉ (store2 c).*1) as Hk by exact (Hex k (list_elem_of_fmap_2 fst _ _ Hin1)).
    destruct (get_hit k v n c Hg1 Hk) as (c' & Hrun & H1 & H2 & Hcount).
    destruct (get_front k c c' Htok H1 H2) as (Htok' & Hc1 & Hc2 & Hholds).
    exists v, c'. split_and!; try done.
    + intros w [[n' Hw]|(h & n' & Hw & _)].
      * apply (od_get_Some k) in Hw; [|apply Hok1]. simplify_eq. split; [done|].
        rewrite H1, get_eq, Hg1. cbn. eauto.
      * by apply (list_elem_of_fmap_2 fst) in Hw.
    + intros []. left. exact (list_elem_of_fmap_2 fst _ _ Hin1).
  - pose proof Hg1 as Hk1. apply od_get_None in Hk1.
    destruct (od_get k (store2 c)) as [[h n]|] eqn:Hg2.
    + destruct (get_promotes k h n c Htok Hg1 Hg2) as
        (c' & l' & Hrun & Htok' & Hc1 & Hc2 & Hcount & Hst & Hl1 & Hl2).
      apply od_get_Some in Hg2 as Hin2; [|apply Hok2].
      exists (to_device h), c'. split_and!; try done.
      * intros k' v [[m Hin]|(g & m & Hin & ->)].
        -- rewrite Hst, elem_of_app, list_elem_of_singleton in Hin. destruct Hin as [Hin|Heq].
           ++ left. exists m. by apply Hl1.
           ++ simplify_eq. right. eauto.
        -- apply Hl2 in Hin as [Hin|([k2 [v2 n2]] & Hin & Heq)]; [right; by exists g, m|].
           unfold demoted in Heq; cbn in Heq. simplify_eq. left. exists n2. by erewrite device_store1.
      * intros w [[n' Hw]|(h' & n' & Hw & ->)].
        -- by apply (list_elem_of_fmap_2 fst) in Hw.
        -- apply (od_get_Some k) in Hw; [|apply Hok2]. simplify_eq. eauto.
      * intros []. right. exact (list_elem_of_fmap_2 fst _ _ Hin2).
    + destruct (get_miss k c Hg1 Hg2) as (c' & Hrun & H1 & H2 & Hcount).
      destruct (get_front k c c' Htok H1 H2) as (Htok' & Hc1 & Hc2 & Hholds).
      apply od_get_None in Hg2. exists None, c'. split_and!; try done.
      intros w [? | ?]%holds_present; done.
Qed.

Lemma l1_put_raises k v n c : n < 0 →
  Tiered.l1_put to_host k v n c = (Raise (ValueError "nbytes must be >= 0"), c).
Proof. intros Hn. unfold Tiered.l1_put. rewrite put_negative by done. by destruct c. Qed.

Lemma l1_put_skips k v n c : 0 ≤ n → cap1 c < n → Tiered.l1_put to_host k v n c = (Ok (), c).
Proof. intros Hn Hc. unfold Tiered.l1_put. rewrite put_oversized by done. by destruct c. Qed.

(** [put] drops the key from the host tier before it writes the device tier. *)
Lemma put_spec k v n c :
  tok c → device_values c →
  ∃ c', Tiered.put to_host k v n c =
        (if n <? 0 then Raise (ValueError "nbytes must be >= 0") else Ok (), c') ∧ tok c' ∧
    cap1 c' = cap1 c ∧ cap2 c' = cap2 c ∧
    Tiered.hits c' = Tiered.hits c ∧ Tiered.misses c' = Tiered.misses c ∧
    (0 ≤ n ≤ cap1 c → ∃ l', store1 c' = l' ++ [(k, (v, n))]) ∧
    (∀ k' w, holds c' k' w →
       if (0 <=? n) && (n <=? cap1 c) then k' = k ∧ w = v ∨ k' ≠ k ∧ holds c k' w
       else holds c k' w).
Proof.
  intros Htok Hdev. pose proof Htok as [Hok1 Hok2 _ _]. unfold Tiered.put.
  destruct (Single.pop k (Tiered.l2 c)) as [r l] eqn:Hpop.
  set (c1 := Tiered.set_l2 l c).
  assert (∀ e, e ∈ store2 c1 → e.1 ≠ k ∧ e ∈ store2 c) as Hs2.
  { intros e He. rewrite pop_eq in Hpop. destruct (od_get k (store2 c)) as [x|] eqn:Hg; simplify_eq; cbn in He.
    - by apply elem_of_od_remove in He.
    - split; [|done]. intros <-. apply od_get_None in Hg. by apply Hg, list_elem_of_fmap_2. }
  destruct (pop_ok k _ _ _ Hok2 Hpop) as [Hokl Hcapl].
  assert (tok c1) as Htok1.
  { apply (tok_shrink c); try done. intros e He. by apply Hs2. }
  assert (∀ k' w, holds c1 k' w → holds c k' w) as Hh1.
  { intros k' w [Hw|(h & m & Hw & ->)]; [by left|]. right. exists h, m. split; [|done]. by apply Hs2. }
  assert (∃ x, within Tiered.l2 Tiered.set_l2 (Single.pop k) c = (Ok x, c1)) as [x Hx].
  { unfold within. rewrite Hpop. rewrite pop_eq in Hpop. case_match; simplify_eq; eauto. }
  rewrite (run_bind_Ok _ _ c x c1 Hx).
  destruct (Z.ltb_spec n 0) as [Hneg|Hpos].
  { exists c1. rewrite (proj2 (Z.leb_gt 0 n)) by lia. rewrite l1_put_raises by done.
    split_and!; try done. intros ?; lia. }
  rewrite (proj2 (Z.leb_le 0 n)) by lia. cbn [andb].
  destruct (Z.leb_spec n (cap1 c)) as [Hfit|Hbig].
  - destruct (l1_put_spec k v n c1 Htok1) as
      (c2 & l' & Hrun & Htok2 & Hc1 & Hc2 & Hst & Hh & Hh' & Hm & _ & Hl1 & Hl2); [|done|].
    { intros (e & -> & He)%list_elem_of_fmap. by apply Hs2 in He as [? _]. }
    exists c2. rewrite Hrun. unfold Tiered.hits. rewrite Hh, Hh', Hm, Hc1, Hc2. split_and!; try done; [eauto|].
    intros k' w [[m Hin]|(h & m & Hin & ->)].
    + rewrite Hst, elem_of_app, list_elem_of_singleton in Hin. destruct Hin as [Hin|Heq].
      * right. apply Hl1 in Hin as [? ?]. split; [done|]. left. by exists m.
      * left. by simplify_eq.
    + right. apply Hl2 in Hin as [[? Hin]%Hs2|([k2 [v2 n2]] & Hne & Hin & Heq)].
      * split; [done|]. right. by exists h, m.
      * unfold demoted in Heq; cbn in Heq, Hne. simplify_eq. split; [done|].
        left. exists n2. by erewrite device_store1.
  - exists c1. rewrite l1_put_skips by done. split_and!; try done. intros ?; lia.
Qed.

(** ** Runs *)

(** The calls of a client. *)
Inductive op := OpGet (key : K) | OpPut (key : K) (value : object V) (nbytes : Z).

Definition run_op (c : Tiered.t K V) (o : op) : Tiered.t K V :=
  match o with
  | OpGet key => (Tiered.get to_host to_device key c).2
  | OpPut key value nbytes => (Tiered.put to_host key value nbytes c).2
  end.

Definition runs (ops : list op) c : Tiered.t K V := foldl run_op c ops.

Definition gets (ops : list op) : Z :=
  sumZ ((λ o, match o with OpGet _ => 1 | _ => 0 end) <$> ops).

(** The reference: a map that keeps every value put that the device tier can hold. *)
Definition spec_op (capacity : Z) (m : K → option (object V)) (o : op) : K → option (object V) :=
  match o with
  | OpGet _ => m
  | OpPut key value nbytes =>
      if (0 <=? nbytes) && (nbytes <=? capacity)
      then λ k, if decide (k = key) then Some value else m k
      else m
  end.

Definition spec_runs (capacity : Z) (ops : list op) : K → option (object V) :=
  foldl (spec_op capacity) (λ _, None) ops.

Definition puts_on_device (ops : list op) : Prop :=
  ∀ k v n, OpPut k v n ∈ ops → on_device v.

Lemma runs_spec capacity1 capacity2 c0 ops :
  Tiered.init capacity1 capacity2 = Ok c0 → puts_on_device ops →
  let c := runs ops c0 in
  tok c ∧ cap1 c = capacity1 ∧ cap2 c = capacity2 ∧ device_values c ∧
  Tiered.hits c + Tiered.misses c = gets ops ∧
  ∀ k v, holds c k v → spec_runs capacity1 ops k = Some v.
Proof.
  unfold Tiered.init. intros (c1 & H1 & (c2 & H2 & Heq)%bind_Ok)%bind_Ok. injection Heq as <-.
  induction ops as [|o ops IH] using rev_ind; intros Hdev.
  - destruct (init_ok _ _ H1) as [Hok1 _], (init_ok _ _ H2) as [Hok2 _].
    unfold Single.init in *. repeat case_match; simplify_eq.
    assert (∀ k v, ¬ holds (Tiered.mk (Single.mk capacity1 [] 0 0 0) (Single.mk capacity2 [] 0 0 0)
                              0 0 0 0 0) k v) as Hnone.
    { intros k v [[n ?%elem_of_nil]|(h & n & ?%elem_of_nil & _)]; done. }
    split_and!; try done; [|by intros k v ?%Hnone|by intros k v ?%Hnone].
    split; cbn; try done. intros k ?%elem_of_nil. done.
  - destruct IH as (Htok & Hc1 & Hc2 & Hdv & Hcount & Hm).
    { intros k v n Hin. apply (Hdev k v n). apply elem_of_app. by left. }
    unfold runs, spec_runs, gets in *. rewrite !foldl_app, fmap_app, sumZ_app.
    set (c := foldl run_op _ ops) in *. cbn [foldl fmap list_fmap]. rewrite <- Hcount.
    destruct o as [key|key value nbytes]; cbn [run_op spec_op].
    + destruct (get_spec key c Htok Hdv) as (r & c' & -> & Htok' & Hc1' & Hc2' & Hcnt & Hh & _ & _).
      cbn [snd]. split_and!; try done; try congruence; try (cbn; lia).
      * intros k v Hk. by apply (Hdv k), Hh.
      * intros k v Hk. by apply Hm, Hh.
    + destruct (put_spec key value nbytes c Htok Hdv) as
        (c' & -> & Htok' & Hc1' & Hc2' & Hhits & Hmiss & _ & Hh).
      cbn [snd]. rewrite Hc1 in Hh. split_and!; try done; try congruence.
      * intros k v Hk%Hh. case_match; [|by apply (Hdv k)].
        destruct Hk as [[-> ->]|[_ Hk]]; [|by apply (Hdv k)].
        apply (Hdev key value nbytes). apply elem_of_app. right. by left.
      * cbn. lia.
      * intros k v Hk%Hh. case_match; [|by apply Hm].
        destruct Hk as [[-> ->]|[Hne Hk]]; case_decide; try done; by apply Hm.
Qed.
End facts.
End TieredFacts.

(** ** Theorems *)

Section theorems.
Import SingleFacts TieredFacts.

(** [put] on every branch: a negative size raises, an item larger than the cache
    is skipped, both without effect; otherwise the items, the new one last, are cut
    into what is evicted and what stays: the longest recent run that fits, the new
    item included.  The hook gets the evicted items oldest first, and the cache
    keeps its distinct keys, its exact byte count and its bound. *)
Theorem embedding_cache_put {K V S : Type} `{EqDecision K} (hook : K → object V → Z → M S ())
    key value nbytes (c : Single.t K V) (s : S) :
  ok c →
  (nbytes < 0 → Single.put hook key value nbytes (c, s) =
                  (Raise (ValueError "nbytes must be >= 0"), (c, s))) ∧
  (0 ≤ nbytes → Single.capacity_bytes c < nbytes →
     Single.put hook key value nbytes (c, s) = (Ok (), (c, s))) ∧
  (0 ≤ nbytes ≤ Single.capacity_bytes c →
   ∃ evicted kept,
     od_remove key (Single._store c) ++ [(key, (value, nbytes))] =
       evicted ++ kept ++ [(key, (value, nbytes))] ∧
     (∀ i, (i < length evicted)%nat →
        Single.capacity_bytes c <
          bytes (drop i (evicted ++ kept ++ [(key, (value, nbytes))]))) ∧
     ∀ s', run_hooks hook evicted s = (Ok (), s') →
       ∃ c', Single.put hook key value nbytes (c, s) = (Ok (), (c', s')) ∧
         Single._store c' = kept ++ [(key, (value, nbytes))] ∧ ok c').
Proof.
  intros Hok. split; [by apply put_negative|]. split; [by apply put_oversized|]. intros Hn.
  set (l := candidate key value nbytes c). set (j := victims key value nbytes c).
  destruct (drop_victims_last key value nbytes c Hok Hn) as [kept Hkept].
  destruct (victims_spec key value nbytes c Hok Hn) as (Hj & _ & Hbig).
  fold l in Hkept, Hj, Hbig. fold j in Hkept, Hj, Hbig.
  exists (take j l), kept. rewrite <- Hkept, take_drop. split; [done|]. split.
  - intros i Hi. apply Hbig. rewrite length_take in Hi. lia.
  - intros s' Hrun. eexists. split; [by apply put_eq|]. split; [done|by apply put_result_ok].
Qed.

(** Three keys of 4 bytes in a cache of 10: the third evicts the first. *)
Definition example_cache : Single.t nat Z :=
  Single.mk 10 [(1%nat, (Some 11, 4)); (2%nat, (Some 12, 4))] 8 0 0.

Definition record_hook : nat → object Z → Z → M (list nat) () :=
  λ key _ _, modify (λ log, log ++ [key]).

Lemma example_cache_ok : ok example_cache.
Proof.
  split; cbn; try done.
  - apply NoDup_cons. split; [set_solver|]. apply NoDup_cons. split; [set_solver|]. apply NoDup_nil_2.
  - by repeat constructor.
Qed.

Lemma embedding_cache_put_witness :
  Single.put record_hook 3%nat (Some 13) (-1) (example_cache, []) =
    (Raise (ValueError "nbytes must be >= 0"), (example_cache, [])) ∧
  ∃ c', Single.put record_hook 3%nat (Some 13) 4 (example_cache, []) = (Ok (), (c', [1%nat])) ∧ ok c'.
Proof.
  split; [apply (embedding_cache_put record_hook 3%nat (Some 13) (-1) example_cache [] example_cache_ok); lia|].
  destruct (embedding_cache_put record_hook 3%nat (Some 13) 4 example_cache [] example_cache_ok)
    as (_ & _ & Hput).
  destruct Hput as (evicted & kept & Hsplit & _ & Hrun); [cbn; lia|].
  destruct (Hrun (run_hooks record_hook evicted []).2) as (c' & Hput & _ & Hok).
  { clear. generalize (@nil nat). induction evicted as [|e l IH]; intros s; [done|]. apply IH. }
  exists c'. split; [|exact Hok]. rewrite Hput. f_equal. f_equal.
  assert (Single.put record_hook 3%nat (Some 13) 4 (example_cache, []) =
          (Ok (), (Single.mk 10 [(2%nat, (Some 12, 4)); (3%nat, (Some 13, 4))] 8 0 0, [1%nat]))) as E
    by reflexivity.
  rewrite E in Hput. congruence.
Defined.

(** Whatever the calls, the two tiers keep distinct keys, exact byte counts and
    their bounds, share no key, and the host tier holds nothing the device tier
    could not take back; each [get] is counted once as a hit or a miss, and only a
    [put] of a negative size raises. *)
Theorem tiered_cache_invariant {K V : Type} `{EqDecision K} (to_host to_device : object V → object V)
    (on_device : object V → Prop) capacity1 capacity2 c0 ops :
  (∀ v, on_device v → to_device (to_host v) = v) →
  Tiered.init capacity1 capacity2 = Ok c0 → puts_on_device (K := K) on_device ops →
  let c := runs to_host to_device ops c0 in
  tok c ∧ Single.capacity_bytes (Tiered.l1 c) = capacity1 ∧
  Single.capacity_bytes (Tiered.l2 c) = capacity2 ∧
  Tiered.hits c + Tiered.misses c = gets ops ∧
  (∀ key, is_Ok (Tiered.get to_host to_device key c).1 = true) ∧
  (∀ key value nbytes,
     (Tiered.put to_host key value nbytes c).1 =
       if nbytes <? 0 then Raise (ValueError "nbytes must be >= 0") else Ok ()).
Proof.
  intros Hround Hinit Hputs c.
  destruct (runs_spec to_host to_device on_device Hround capacity1 capacity2 c0 ops Hinit Hputs)
    as (Htok & Hc1 & Hc2 & Hdev & Hcount & _). fold c in Htok, Hc1, Hc2, Hdev, Hcount.
  split_and!; try done.
  - intros key. by destruct (get_spec to_host to_device on_device Hround key c Htok Hdev)
      as (r & c' & -> & _).
  - intros key value nbytes.
    by destruct (put_spec to_host to_device on_device Hround key value nbytes c Htok Hdev)
      as (c' & -> & _).
Qed.

(** C32: The cache refines the map of the values put: a [get] returns the last value put
    under its key that the device tier could hold, or nothing; for a key that is
    cached in either tier it returns that value and leaves the key in the device
    tier as its most recent. *)
Theorem tiered_cache_refines_map {K V : Type} `{EqDecision K} (to_host to_device : object V → object V)
    (on_device : object V → Prop) capacity1 capacity2 c0 ops key :
  (∀ v, on_device v → to_device (to_host v) = v) →
  Tiered.init capacity1 capacity2 = Ok c0 → puts_on_device on_device ops →
  let c := runs to_host to_device ops c0 in
  let m := spec_runs (K := K) capacity1 ops in
  ∃ r c', Tiered.get to_host to_device key c = (Ok r, c') ∧
    (r = None ∨ m key = Some r) ∧
    (Tiered.contains key c = true →
       m key = Some r ∧ ∃ older n, Single._store (Tiered.l1 c') = older ++ [(key, (r, n))]).
Proof.
  intros Hround Hinit Hputs c m.
  destruct (runs_spec to_host to_device on_device Hround capacity1 capacity2 c0 ops Hinit Hputs)
    as (Htok & _ & _ & Hdev & _ & Hm). fold c in Htok, Hdev, Hm.
  destruct (get_spec to_host to_device on_device Hround key c Htok Hdev)
    as (r & c' & Hget & _ & _ & _ & _ & _ & Hhit & Hmiss).
  assert (Tiered.contains key c = true ↔ present c key) as Hcontains.
  { unfold Tiered.contains, Single.contains, present. by rewrite orb_true_iff, !bool_decide_eq_true. }
  assert (present c key → ∃ v, holds to_device c key v) as Hholds.
  { intros [([k [v n]] & -> & He)%list_elem_of_fmap|([k [h n]] & -> & He)%list_elem_of_fmap]; cbn.
    - exists v. left. by exists n.
    - exists (to_device h). right. by exists h, n. }
  exists r, c'. split; [done|].
  assert (present c key → m key = Some r ∧ ∃ older n, Single._store (Tiered.l1 c') = older ++ [(key, (r, n))])
    as Hpresent.
  { intros (v & Hv)%Hholds. destruct (Hhit v Hv) as [-> Hlast]. split; [by apply Hm|done]. }
  rewrite Hcontains. split; [|done].
  destruct (Tiered.contains key c) eqn:E.
  - right. apply Hpresent. by apply Hcontains.
  - left. apply Hmiss. intros Hp%Hcontains. congruence.
Qed.

(** Tensors that know where they are: the default copies move them. *)
Definition tensor : Type := bool * Z.
Definition example_cpu (t : tensor) : tensor := (false, t.2).
Definition example_to (t : tensor) : tensor := (true, t.2).
Definition example_host : object (embedding tensor) → object (embedding tensor) :=
  fmap (_embedding_to_host example_cpu).
Definition example_device : object (embedding tensor) → object (embedding tensor) :=
  fmap (_embedding_to_device example_to).

Definition example_on_device (v : object (embedding tensor)) : Prop :=
  match v with
  | Some (Bare t) => t.1 = true
  | Some (Tuple ts) => Forall (λ t, match t with Some t => t.1 = true | None => True end) ts
  | None => True
  end.

Lemma example_round v : example_on_device v → example_device (example_host v) = v.
Proof.
  destruct v as [[[[] x]|ts]|]; cbn; try done. intros Hts. f_equal. f_equal.
  induction Hts as [|t ts Ht Hts IH]; [done|]. rewrite !fmap_cons, IH.
  by destruct t as [[[] x]|].
Qed.

Definition example_ops : list (op (K := nat) (V := embedding tensor)) :=
  [OpPut 1%nat (Some (Bare (true, 11))) 6; OpPut 2%nat (Some (Tuple [Some (true, 12); None])) 6;
   OpGet 1%nat; OpPut 1%nat (Some (Bare (true, 99))) 20].

Lemma example_puts : puts_on_device example_on_device example_ops.
Proof.
  intros k v n Hin. unfold example_ops in Hin. rewrite !elem_of_cons in Hin.
  destruct Hin as [H|[H|[H|[H|H]]]]; simplify_eq; cbn; try done; [|by apply elem_of_nil in H].
  by repeat constructor.
Qed.

Definition example_tiers : Tiered.t nat (embedding tensor) :=
  Tiered.mk (Single.mk 10 [] 0 0 0) (Single.mk 8 [] 0 0 0) 0 0 0 0 0.

Lemma tiered_cache_invariant_witness :
  Tiered.hits (runs example_host example_device example_ops example_tiers) +
  Tiered.misses (runs example_host example_device example_ops example_tiers) = 1.
Proof.
  apply (tiered_cache_invariant example_host example_device example_on_device 10 8 example_tiers
           example_ops example_round eq_refl example_puts).
Defined.

Lemma tiered_cache_refines_map_witness :
  ∃ c', Tiered.get example_host example_device 2%nat
          (runs example_host example_device example_ops example_tiers) =
        (Ok (Some (Tuple [Some (true, 12); None])), c').
Proof.
  destruct (tiered_cache_refines_map example_host example_device example_on_device 10 8 example_tiers
              example_ops 2%nat example_round eq_refl example_puts) as (r & c' & Hget & _ & Hhit).
  destruct Hhit as [Hm _]; [reflexivity|]. exists c'. rewrite Hget.
  assert (spec_runs 10 example_ops 2%nat = Some (Some (Tuple [Some (true, 12); None]))) as E by reflexivity.
  rewrite E in Hm. by injection Hm as <-.
Defined.
End theorems.
