(* ===== verification/ExpertPlacement.v ===== *)
(** * Expert placement: [moe/eplb_algorithms] and [moe/placement_maps.py]

    A layer's logical experts are replicated into physical slots, and the slots are
    dealt to devices, so that measured load is balanced.  [rebalance_experts] does
    this per layer in three steps: groups of experts are packed onto nodes, each
    node replicates its busiest experts, and the replicas are packed onto the
    node's devices.  [compute_placement_maps] turns the result into the slot-to-expert
    map and the padded replica table the dispatcher reads.

    A two-dimensional tensor is the list of its rows, with its width beside it; a
    call on it acts on each row.  [torch.empty_like] gives a tensor with arbitrary
    contents, the section's [fresh].  Loads are doubles in the code; the algorithm
    only adds, divides and compares them, and the model takes these operations from
    the class [Weight], so that the theorems on the maps hold for any arithmetic,
    rounding included ([NaN] loads are outside the model).

    The theorems: packing gives every pack the same number of items, each in its own
    place; replication gives every expert at least one replica, numbers its replicas
    from 0, and, on doubles, minimises the largest load per replica; the maps are inverse to each
    other, every slot has one expert and every expert a slot, replicas of one group
    stay on one node, and the calls fail exactly on the layouts they reject. *)

From S2P Require Import Prelude PyDict PyFloat DoubleOrder.
From Stdlib Require Import SpecFloat.

Local Open Scope Z_scope.

(** The arithmetic of loads: conversion of a count, [sum], [+], [/] by a count, [<]. *)
Class Weight (W : Type) := {
  w_zero : W;
  w_of_count : Z → W;
  w_sum : list W → W;
  w_add : W → W → W;
  w_div : W → Z → W;
  w_ltb : W → W → bool;
}.

(** ** Tensor operations *)

(** [tensor.gather(-1, index)] and [tensor.scatter_(-1, index, src)], on a row. *)
Definition in_bounds {A} (l : list A) (i : Z) : bool := (0 <=? i) && (i <? Z.of_nat (length l)).

Definition gather {A} (source : list A) (index : list Z) : result (list A) :=
  mapM (λ i, if in_bounds source i
             then lookup_or (RuntimeError "index is out of bounds") (source !! Z.to_nat i)
             else Raise (RuntimeError "index is out of bounds")) index.

Definition scatter {A} (dest : list A) (index : list Z) (source : list A) : result (list A) :=
  foldM (λ dest '(i, x), if in_bounds dest i then Ok (<[Z.to_nat i := x]> dest)
                         else Raise (RuntimeError "index is out of bounds"))
    dest (zip index source).

Definition gather_rows {A} (source : list (list A)) (index : list (list Z)) :
    result (list (list A)) :=
  mapM (λ p : list A * list Z, gather p.1 p.2) (zip source index).

(** A row cut into [n] rows of [size]: [unflatten(-1, (n, size))], and [view]. *)
Definition unflatten {A} (n size : Z) (l : list A) : list (list A) :=
  (λ i, take (Z.to_nat size) (drop (Z.to_nat (i * size)) l)) <$> seqZ 0 n.

Definition view_rows {A} (n size : Z) (rows : list (list A)) : list (list A) :=
  (λ group : list (list A), concat group) <$> unflatten n size rows.

(** Python's [min(items, key=...)], and [max(dim=-1).indices]: the first extremum. *)
Definition min_by {A W} `{Weight W} (key : A → W) (items : list A) : option A :=
  match items with
  | [] => None
  | x :: items' => Some (foldl (λ best y, if w_ltb (key y) (key best) then y else best) x items')
  end.

Definition argmax {W} `{Weight W} (row : list W) : option Z :=
  match enumerate row with
  | [] => None
  | x :: items =>
      Some (foldl (λ best y : Z * W, if w_ltb best.2 y.2 then y else best) x items).1
  end.

(** [sort(dim=-1, descending=True, stable=True).indices]. *)
Definition sort_descending {W} `{Weight W} (row : list W) : list Z :=
  (py_sorted (λ a b : Z * W, negb (w_ltb a.2 b.2)) (enumerate row)).*1.

(** ** [eplb_algorithms/deepseek.py] *)

Section deepseek.
Context {W : Type} `{Weight W} (fresh : nat → list Z).

Record packing := mkPacking {
  pack_index : list Z;
  rank_in_pack : list Z;
  pack_weights : list W;
  pack_items : list Z;
}.

(** One turn of the inner loop of [balanced_packing]. *)
Definition pack_step (row : list W) (num_packs groups_per_pack : Z) (p : packing) (group : Z) :
    result packing :=
  let items i := default 0 (pack_items p !! Z.to_nat i) in
  let weight i := default w_zero (pack_weights p !! Z.to_nat i) in
  pack ← lookup_or (ValueError "min() iterable argument is empty")
           (min_by weight (filter (λ i, items i < groups_per_pack) (seqZ 0 num_packs)));
  if groups_per_pack <=? items pack
  then Raise (RuntimeError "balanced_packing selected a full pack.") else
  w ← lookup_or (IndexError "index is out of bounds") (row !! Z.to_nat group);
  Ok (mkPacking
        (<[Z.to_nat group := pack]> (pack_index p))
        (<[Z.to_nat group := items pack]> (rank_in_pack p))
        (<[Z.to_nat pack := w_add (weight pack) w]> (pack_weights p))
        (<[Z.to_nat pack := items pack + 1]> (pack_items p))).

Definition pack_row (num_packs groups_per_pack : Z) (row : list W) : result (list Z * list Z) :=
  p ← foldM (pack_step row num_packs groups_per_pack)
        (mkPacking (replicate (length row) (-1)) (replicate (length row) (-1))
           (replicate (Z.to_nat num_packs) w_zero) (replicate (Z.to_nat num_packs) 0))
        (sort_descending row);
  Ok (pack_index p, rank_in_pack p).

Definition balanced_packing (num_groups : Z) (weight : list (list W)) (num_packs : Z) :
    result (list (list Z) * list (list Z)) :=
  if (num_packs <=? 0) || negb (num_groups mod num_packs =? 0)
  then Raise (ValueError "num_groups must be divisible by num_packs.") else
  let groups_per_pack := num_groups / num_packs in
  if groups_per_pack =? 1 then
    Ok ((λ _, seqZ 0 num_groups) <$> weight, (λ row, replicate (length row) 0) <$> weight)
  else
    rows ← mapM (pack_row num_packs groups_per_pack) weight;
    Ok (rows.*1, rows.*2).

(** One turn of the loop of [replicate_experts], on one row. *)
Definition replicate_step (row : list W) (s : list Z * list Z * list Z) (i : Z) :
    result (list Z * list Z * list Z) :=
  let '(phy2log, rank, logcnt) := s in
  redundant ← lookup_or (IndexError "max(): Expected reduction dim to have non-zero size.")
                (argmax (zip_with w_div row logcnt));
  let c := default 0 (logcnt !! Z.to_nat redundant) in
  Ok (<[Z.to_nat i := redundant]> phy2log, <[Z.to_nat i := c]> rank,
      <[Z.to_nat redundant := c + 1]> logcnt).

Definition replicate_row (num_log num_phy : Z) (row : list W) : result (list Z * list Z * list Z) :=
  foldM (replicate_step row)
    (seqZ 0 num_phy, replicate (Z.to_nat num_phy) 0, replicate (Z.to_nat num_log) 1)
    (seqZ num_log (num_phy - num_log)).

Definition replicate_experts (num_log : Z) (weight : list (list W)) (num_phy : Z) :
    result (list (list Z) * list (list Z) * list (list Z)) :=
  let num_redundant := num_phy - num_log in
  if num_redundant <? 0
  then Raise (ValueError "num_phy must be greater than or equal to num_log.") else
  rows ← mapM (replicate_row num_log num_phy) weight;
  Ok (rows.*1.*1, rows.*1.*2, rows.*2).

Definition inverse (perm : list Z) : result (list Z) :=
  scatter (fresh (length perm)) perm (seqZ 0 (Z.of_nat (length perm))).

(** [log2mlog], from one layer's packing of its groups. *)
Definition meta_index (groups_per_node group_size : Z) (pack rank : list Z) : list Z :=
  concat (zip_with (λ p r, Z.add ((p * groups_per_node + r) * group_size) <$> seqZ 0 group_size)
            pack rank).

(** The node offsets of one layer: [+ torch.arange(0, L, L // num_nodes)]. *)
Definition offset_nodes (per_node : Z) (rows : list (list Z)) : list Z :=
  concat ((λ kr : Z * list Z, Z.add (kr.1 * per_node) <$> kr.2) <$> enumerate rows).

Definition rebalance_experts_hierarchical (num_logical_experts : Z) (weight : list (list W))
    (num_physical_experts num_groups num_nodes num_gpus : Z) :
    result (list (list Z) * list (list Z) * list (list Z)) :=
  let num_layers := Z.of_nat (length weight) in
  if (num_groups <=? 0) || negb (num_logical_experts mod num_groups =? 0)
  then Raise (ValueError "num_logical_experts must be divisible by num_groups.") else
  let group_size := num_logical_experts / num_groups in
  if (num_nodes <=? 0) || negb (num_groups mod num_nodes =? 0)
  then Raise (ValueError "num_groups must be divisible by num_nodes.") else
  let groups_per_node := num_groups / num_nodes in
  if (num_gpus <=? 0) || negb (num_gpus mod num_nodes =? 0)
  then Raise (ValueError "num_gpus must be divisible by num_nodes.") else
  if negb (num_physical_experts mod num_gpus =? 0)
  then Raise (ValueError "num_physical_experts must be divisible by num_gpus.") else
  let phy_experts_per_gpu := num_physical_experts / num_gpus in
  let per_node := num_logical_experts / num_nodes in
  (* Step 1: pack groups to nodes *)
  let tokens_per_group := (λ row : list W, w_sum <$> unflatten num_groups group_size row) <$> weight in
  '(group_pack_index, group_rank_in_pack) ← balanced_packing num_groups tokens_per_group num_nodes;
  let log2mlog := zip_with (meta_index groups_per_node group_size)
                    group_pack_index group_rank_in_pack in
  mlog2log ← mapM inverse log2mlog;
  (* Step 2: construct redundant experts within nodes *)
  tokens ← gather_rows weight mlog2log;
  if per_node =? 0
  then Raise (RuntimeError "cannot reshape tensor of 0 elements") else
  let tokens_per_mlog := concat ((λ row : list W, unflatten num_nodes per_node row) <$> tokens) in
  '(phy2mlog, phyrank, mlogcnt) ←
    replicate_experts per_node tokens_per_mlog (num_physical_experts / num_nodes);
  (* Step 3: pack physical_experts to GPUs *)
  tokens_per_phy ← gather_rows (zip_with (zip_with w_div) tokens_per_mlog mlogcnt) phy2mlog;
  '(pack_index, rank_in_pack) ←
    balanced_packing (num_physical_experts / num_nodes) tokens_per_phy (num_gpus / num_nodes);
  let phy2pphy := zip_with (zip_with (λ p r, p * phy_experts_per_gpu + r)) pack_index rank_in_pack in
  pphy2phy ← mapM inverse phy2pphy;
  pphy2mlog ← gather_rows phy2mlog pphy2phy;
  if num_layers =? 0
  then Raise (RuntimeError "cannot reshape tensor of 0 elements") else
  let pphy2mlog := offset_nodes per_node <$> unflatten num_layers num_nodes pphy2mlog in
  pphy2log ← gather_rows mlog2log pphy2mlog;
  pphyrank ← gather_rows phyrank pphy2phy;
  logcnt ← gather_rows (view_rows num_layers num_nodes mlogcnt) log2mlog;
  Ok (pphy2log, view_rows num_layers num_nodes pphyrank, logcnt).

(** [logcnt.max().item()]. *)
Definition max_count (logcnt : list (list Z)) : result Z :=
  match concat logcnt with
  | [] => Raise (RuntimeError "max(): Expected reduction dim to be specified for input.numel() == 0.")
  | c :: cs => Ok (foldl Z.max c cs)
  end.

(** The replica table of one layer, still flat. *)
Definition replica_row (num_logical_experts maxlogcnt num_replicas : Z) (phy2log phyrank : list Z) :
    result (list Z) :=
  scatter (replicate (Z.to_nat (num_logical_experts * maxlogcnt)) (-1))
    (zip_with (λ e r, e * maxlogcnt + r) phy2log phyrank) (seqZ 0 num_replicas).

Definition rebalance_experts (num_logical_experts : Z) (weight : list (list Z)) (num_replicas : Z)
    (num_groups : option Z) (num_nodes num_gpus : Z) (enable_hierarchical : bool) :
    result (list (list Z) * list (list (list Z)) * list (list Z)) :=
  let weight : list (list W) := (λ row : list Z, w_of_count <$> row) <$> weight in
  '(phy2log, phyrank, logcnt) ←
    (if enable_hierarchical then
       groups ← lookup_or (TypeError "'<=' not supported between NoneType and int") num_groups;
       rebalance_experts_hierarchical num_logical_experts weight num_replicas groups num_nodes num_gpus
     else rebalance_experts_hierarchical num_logical_experts weight num_replicas 1 1 num_gpus);
  maxlogcnt ← max_count logcnt;
  log2phy ← mapM (λ p : list Z * list Z,
                    replica_row num_logical_experts maxlogcnt num_replicas p.1 p.2)
              (zip phy2log phyrank);
  Ok (phy2log, (λ row : list Z, unflatten num_logical_experts maxlogcnt row) <$> log2phy, logcnt).

End deepseek.

(** ** [eplb_algorithms/__init__.py] *)

Inductive EplbAlgorithm := deepseek | deepseek_hierarchical.

#[export] Instance EplbAlgorithm_eq_dec : EqDecision EplbAlgorithm.
Proof. solve_decision. Defined.

(** [EplbAlgorithm[name]]. *)
Definition EplbAlgorithm_of_name (name : string) : result EplbAlgorithm :=
  if String.eqb name "deepseek" then Ok deepseek
  else if String.eqb name "deepseek_hierarchical" then Ok deepseek_hierarchical
  else Raise (KeyError name).

(** [tokens_per_expert.sum(dim=0)]: recording windows added up. *)
Definition sum_windows (num_layers num_logical_experts : Z) (windows : list (list (list Z))) :
    list (list Z) :=
  foldl (zip_with (zip_with Z.add))
    (replicate (Z.to_nat num_layers) (replicate (Z.to_nat num_logical_experts) 0)) windows.

Section placement.
Context {W : Type} `{Weight W} (fresh : nat → list Z).

Definition rebalance (num_layers num_logical_experts : Z) (tokens_per_expert : list (list (list Z)))
    (num_physical_experts num_local_physical_experts : Z) (num_groups : option Z) (num_nodes : Z)
    (algorithm : EplbAlgorithm) : result (list (list Z) * list (list (list Z)) * list (list Z)) :=
  if num_local_physical_experts =? 0
  then Raise (ZeroDivisionError "integer division or modulo by zero") else
  rebalance_experts fresh num_logical_experts
    (sum_windows num_layers num_logical_experts tokens_per_expert) num_physical_experts
    num_groups num_nodes (num_physical_experts / num_local_physical_experts)
    (bool_decide (algorithm = deepseek_hierarchical)).

(** ** [placement_maps.py] *)

Definition replica_table_width (num_physical_experts num_logical_experts : Z) : result Z :=
  if num_physical_experts <? num_logical_experts
  then Raise (ValueError "physical experts cannot hold logical experts") else
  Ok (num_physical_experts - num_logical_experts + 1).

(** [.to(torch.int32)]. *)
Definition to_int32 (z : Z) : Z := (z + 2 ^ 31) mod 2 ^ 32 - 2 ^ 31.

Definition int32_rows (table : list (list Z)) : list (list Z) :=
  (λ row : list Z, to_int32 <$> row) <$> table.

(** A [[..., X]] table is the list of its rows of [current] columns. *)
Definition pad_replica_table (current : Z) (table : list (list Z)) (width : Z) :
    result (list (list Z)) :=
  table ← (if width <? current then
             if existsb (λ row, existsb (λ x, negb (x =? -1)) (drop (Z.to_nat width) row)) table
             then Raise (ValueError "replica table holds more than width replicas of one expert")
             else Ok ((λ row : list Z, take (Z.to_nat width) row) <$> table)
           else if current <? width then
             Ok ((λ row : list Z, row ++ replicate (Z.to_nat (width - current)) (-1)) <$> table)
           else Ok table);
  Ok (int32_rows table).

(** The columns of a replica table: its last dimension. *)
Definition columns (table : list (list (list Z))) : Z :=
  match table with (row :: _) :: _ => Z.of_nat (length row) | _ => 0 end.

Definition compute_placement_maps (on_cpu : bool) (ndim num_logical_experts : Z)
    (logical_count : list (list Z)) (num_physical_experts ep_size : Z) (num_groups : option Z)
    (num_nodes : Z) (algorithm : EplbAlgorithm) :
    result (list (list Z) * list (list (list Z))) :=
  if negb on_cpu then Raise (ValueError "compute_placement_maps runs on host tensors only") else
  if negb (ndim =? 2) then Raise (ValueError "logical_count must be [layers, logical]") else
  if (ep_size <=? 0) || negb (num_physical_experts mod ep_size =? 0)
  then Raise (ValueError "physical experts do not divide over ep_size") else
  '(physical_to_logical_map, logical_to_all_physical_map, logcnt) ←
    rebalance (Z.of_nat (length logical_count)) num_logical_experts [logical_count]
      num_physical_experts (num_physical_experts / ep_size) num_groups num_nodes algorithm;
  width ← replica_table_width num_physical_experts num_logical_experts;
  table ← mapM (λ layer : list (list Z),
                  pad_replica_table (columns logical_to_all_physical_map) layer width)
            logical_to_all_physical_map;
  Ok (int32_rows physical_to_logical_map, table).

End placement.

Definition compute_algorithm (raw_algorithm : string) (num_groups : option Z) (num_nodes : Z) :
    result EplbAlgorithm :=
  if negb (String.eqb raw_algorithm "auto") then EplbAlgorithm_of_name raw_algorithm else
  match num_groups with
  | Some groups =>
      if num_nodes =? 0 then Raise (ZeroDivisionError "integer modulo by zero")
      else if groups mod num_nodes =? 0 then Ok deepseek_hierarchical else Ok deepseek
  | None => Ok deepseek
  end.

(** ** Rows: gather, scatter, permutations *)

Lemma in_bounds_true {A} (l : list A) i : in_bounds l i = true ↔ 0 ≤ i < Z.of_nat (length l).
Proof. unfold in_bounds. rewrite andb_true_iff, Z.leb_le, Z.ltb_lt. done. Qed.

Lemma gather_spec {A} (source : list A) index :
  Forall (λ i, 0 ≤ i < Z.of_nat (length source)) index →
  ∃ out, gather source index = Ok out ∧
    Forall2 (λ i x, source !! Z.to_nat i = Some x) index out.
Proof.
  unfold gather. induction 1 as [|i index Hi Hall IH]; [by exists []|].
  destruct IH as (out & Hout & Hf). destruct (lookup_lt_is_Some_2 source (Z.to_nat i)) as [x Hx]; [lia|].
  exists (x :: out). split; [|by constructor]. cbn.
  rewrite (proj2 (in_bounds_true _ _)) by done. rewrite Hx. cbn. by rewrite Hout.
Qed.

Lemma gather_rows_spec {A} (source : list (list A)) index :
  Forall2 (λ src idx, Forall (λ i, 0 ≤ i < Z.of_nat (length src)) idx) source index →
  ∃ out, gather_rows source index = Ok out ∧ length out = length source ∧
    ∀ q src idx row, source !! q = Some src → index !! q = Some idx → out !! q = Some row →
      Forall2 (λ i x, src !! Z.to_nat i = Some x) idx row.
Proof.
  unfold gather_rows. induction 1 as [|src idx source index Hrow Hall IH]; [by exists []|].
  destruct IH as (out & Hout & Hlen & Hf). destruct (gather_spec src idx Hrow) as (row & Hr & Hrf).
  exists (row :: out). cbn -[gather]. rewrite Hr. cbn -[gather]. rewrite Hout. split; [done|].
  split; [cbn; by f_equal|].
  intros [|q] src' idx' row' H1 H2 H3; simplify_eq/=; [done|eauto].
Qed.

Lemma scatter_spec {A} (dest : list A) index source :
  length index = length source →
  Forall (λ i, 0 ≤ i < Z.of_nat (length dest)) index → NoDup index →
  ∃ out, scatter dest index source = Ok out ∧ length out = length dest ∧
    (∀ j i x, index !! j = Some i → source !! j = Some x → out !! Z.to_nat i = Some x) ∧
    (∀ k, Z.of_nat k ∉ index → out !! k = dest !! k).
Proof.
  unfold scatter. revert dest source. induction index as [|i index IH]; intros dest [|x source] Hlen Hall Hnd;
    try done.
  - exists dest. cbn. split; [done|]. split; [done|]. split; [|done]. by intros [].
  - apply Forall_cons in Hall as [Hi Hall]. apply NoDup_cons in Hnd as [Hni Hnd].
    destruct (IH (<[Z.to_nat i := x]> dest) source) as (out & Hout & Hol & Hin & Hnin).
    { by injection Hlen. }
    { by rewrite length_insert. }
    { done. }
    rewrite length_insert in Hol. exists out. cbn. rewrite (proj2 (in_bounds_true _ _)) by done.
    cbn. split; [done|]. split; [done|]. split.
    + intros [|j] i' x' H1 H2; simplify_eq/=; [|eauto].
      rewrite Hnin by (rewrite Z2Nat.id by lia; done). by rewrite list_lookup_insert_eq by lia.
    + intros k Hk. rewrite not_elem_of_cons in Hk. destruct Hk as [Hk1 Hk2].
      rewrite Hnin by done. rewrite list_lookup_insert_ne by lia. done.
Qed.

Lemma some_perm {A} (l k : list A) : Some <$> l ≡ₚ Some <$> k → l ≡ₚ k.
Proof.
  assert (∀ l : list A, omap id (Some <$> l) = l) as Ho.
  { clear. induction l as [|x l IH]; [done|]. cbn. by f_equal. }
  intros Hp. rewrite <- (Ho l), <- (Ho k). by rewrite Hp.
Qed.

(** A row that is a permutation of [0 .. n-1]. *)
Definition is_perm (n : Z) (l : list Z) : Prop := l ≡ₚ seqZ 0 n.

Lemma is_perm_intro n l :
  NoDup l → Forall (λ x, 0 ≤ x < n) l → Z.of_nat (length l) = n → is_perm n l.
Proof.
  intros Hnd Hall Hlen. apply submseteq_length_Permutation.
  - apply NoDup_submseteq; [done|]. intros x Hx. rewrite Forall_forall in Hall.
    apply elem_of_seqZ. specialize (Hall x Hx). lia.
  - rewrite length_seqZ. lia.
Qed.

Section is_perm.
Context (n : Z) (l : list Z) (Hl : is_perm n l).

Lemma is_perm_NoDup : NoDup l.
Proof. unfold is_perm in Hl. rewrite Hl. apply NoDup_seqZ. Qed.

Lemma is_perm_length : length l = Z.to_nat n.
Proof. unfold is_perm in Hl. by rewrite Hl, length_seqZ. Qed.

Lemma is_perm_range : Forall (λ x, 0 ≤ x < n) l.
Proof.
  apply Forall_forall. intros x Hx. unfold is_perm in Hl. rewrite Hl in Hx.
  apply elem_of_seqZ in Hx. lia.
Qed.

Lemma is_perm_onto x : 0 ≤ x < n → ∃ j, l !! j = Some x.
Proof.
  intros Hx. apply list_elem_of_lookup. unfold is_perm in Hl. rewrite Hl. apply elem_of_seqZ. lia.
Qed.

Lemma gather_perm {A} (source out : list A) :
  Z.of_nat (length source) = n → Forall2 (λ i x, source !! Z.to_nat i = Some x) l out → out ≡ₚ source.
Proof.
  intros Hlen Hout.
  assert (Some <$> out ≡ₚ Some <$> source) as Hperm.
  { assert (Some <$> out = (λ i, source !! Z.to_nat i) <$> l) as ->.
    { clear -Hout. induction Hout as [|i x l out Hi Hall IH]; [done|]. by rewrite !fmap_cons, IH, Hi. }
    unfold is_perm in Hl. rewrite Hl. apply reflexive_eq, list_eq. intros k.
    rewrite !list_lookup_fmap. destruct (decide (k < length source)%nat) as [Hk|Hk].
    - rewrite lookup_seqZ_lt by lia. cbn [fmap option_fmap option_map].
      replace (Z.to_nat (0 + Z.of_nat k)) with k by lia.
      by destruct (lookup_lt_is_Some_2 _ _ Hk) as [x ->].
    - rewrite lookup_seqZ_ge by lia. cbn. by rewrite lookup_ge_None_2 by lia. }
  by apply some_perm.
Qed.

Lemma inverse_spec fresh :
  (∀ m, length (fresh m) = m) → 0 ≤ n →
  ∃ v, inverse fresh l = Ok v ∧ is_perm n v ∧
    (∀ j i, l !! j = Some i → v !! Z.to_nat i = Some (Z.of_nat j)) ∧
    (∀ k j, v !! k = Some j → 0 ≤ j ∧ l !! Z.to_nat j = Some (Z.of_nat k)).
Proof.
  intros Hfresh Hn. pose proof is_perm_length as Hlen.
  destruct (scatter_spec (fresh (length l)) l (seqZ 0 (Z.of_nat (length l))))
    as (v & Hv & Hvl & Hin & _).
  { by rewrite length_seqZ, Nat2Z.id. }
  { rewrite Hfresh. eapply Forall_impl; [apply is_perm_range|]. cbn; intros; lia. }
  { apply is_perm_NoDup. }
  rewrite Hfresh in Hvl.
  assert (∀ j i, l !! j = Some i → v !! Z.to_nat i = Some (Z.of_nat j)) as Hfw.
  { intros j i Hj. apply (Hin j i); [done|]. apply lookup_seqZ. apply lookup_lt_Some in Hj. lia. }
  assert (∀ k j, v !! k = Some j → 0 ≤ j ∧ l !! Z.to_nat j = Some (Z.of_nat k)) as Hbw.
  { intros k j Hk. pose proof (lookup_lt_Some _ _ _ Hk).
    destruct (is_perm_onto (Z.of_nat k)) as [j' Hj']; [lia|].
    pose proof (Hfw _ _ Hj') as Hk'. rewrite Nat2Z.id in Hk'. simplify_eq.
    split; [lia|]. by rewrite Nat2Z.id. }
  exists v. split; [done|]. split; [|done]. apply is_perm_intro.
  - apply NoDup_alt. intros k1 k2 j H1 H2. apply Hbw in H1 as [_ H1]. apply Hbw in H2 as [_ H2].
    simplify_eq. lia.
  - apply Forall_lookup. intros k j [Hj Hl']%Hbw. apply lookup_lt_Some in Hl'. lia.
  - lia.
Qed.
End is_perm.

(** ** Packing *)

Section packing_proofs.
Context {W : Type} `{Weight W}.

Lemma foldl_pick {A} (pick : A → A → A) x items :
  (∀ a b, pick a b = a ∨ pick a b = b) → foldl pick x items ∈ x :: items.
Proof.
  intros Hp. revert x. induction items as [|y items IH]; intros x; cbn; [by left|].
  specialize (IH (pick x y)). rewrite !elem_of_cons in *. destruct (Hp x y) as [E|E]; rewrite E in *; tauto.
Qed.

Lemma min_by_elem {A} (key : A → W) items : items ≠ [] → ∃ x, min_by key items = Some x ∧ x ∈ items.
Proof.
  destruct items as [|x items]; [done|]. intros _. eexists. split; [reflexivity|].
  apply foldl_pick. intros a b. case_match; auto.
Qed.

Lemma sort_descending_perm (row : list W) : sort_descending row ≡ₚ seqZ 0 (Z.of_nat (length row)).
Proof.
  unfold sort_descending. rewrite py_sorted_perm. unfold enumerate. rewrite fst_zip; [done|].
  rewrite length_seqZ. lia.
Qed.

Context (row : list W) (num_packs g : Z) (Hnum : 0 < num_packs) (Hg : 0 ≤ g).
Context (Hlen : Z.of_nat (length row) = num_packs * g).

Record packing_inv (visited : list Z) (p : packing (W := W)) : Prop := {
  pi_index : length (pack_index p) = length row;
  pi_rank : length (rank_in_pack p) = length row;
  pi_items : length (pack_items p) = Z.to_nat num_packs;
  pi_cell x : x ∈ visited → ∃ k r c, pack_index p !! Z.to_nat x = Some k ∧
    rank_in_pack p !! Z.to_nat x = Some r ∧ 0 ≤ k ∧ pack_items p !! Z.to_nat k = Some c ∧ 0 ≤ r < c;
  pi_inj x y k r : x ∈ visited → y ∈ visited →
    pack_index p !! Z.to_nat x = Some k → rank_in_pack p !! Z.to_nat x = Some r →
    pack_index p !! Z.to_nat y = Some k → rank_in_pack p !! Z.to_nat y = Some r → x = y;
  pi_bound : Forall (λ c, 0 ≤ c ≤ g) (pack_items p);
  pi_sum : sumZ (pack_items p) = Z.of_nat (length visited);
}.

(** A pack with room is left as long as an item is. *)
Lemma open_pack visited p :
  packing_inv visited p → (length visited < length row)%nat →
  filter (λ i, default 0 (pack_items p !! Z.to_nat i) < g) (seqZ 0 num_packs) ≠ [].
Proof.
  intros Hinv Hlt Hnil. destruct Hinv as [_ _ Hil _ _ _ Hsum].
  assert (Forall (λ x, g ≤ x) (pack_items p)) as Hfull.
  { apply Forall_lookup. intros k c Hk. destruct (decide (c < g)) as [Hc|]; [|lia]. exfalso.
    pose proof (lookup_lt_Some _ _ _ Hk).
    apply (not_elem_of_nil (Z.of_nat k)). rewrite <- Hnil. apply list_elem_of_filter.
    rewrite Nat2Z.id, Hk. split; [done|]. apply elem_of_seqZ. lia. }
  apply sumZ_ge in Hfull. rewrite Hsum, Hil in Hfull. nia.
Qed.

Lemma pack_step_inv visited x p :
  packing_inv visited p → x ∉ visited → 0 ≤ x < Z.of_nat (length row) → Forall (Z.le 0) visited →
  (length visited < length row)%nat →
  ∃ p', pack_step row num_packs g p x = Ok p' ∧ packing_inv (visited ++ [x]) p'.
Proof.
  intros Hinv Hx Hr Hpos Hlt. pose proof (open_pack visited p Hinv Hlt) as Hopen.
  destruct Hinv as [Hi1 Hi2 Hi3 Hcell Hinj Hb Hs]. unfold pack_step. cbv zeta.
  destruct (min_by_elem (λ i, default w_zero (pack_weights p !! Z.to_nat i)) _ Hopen)
    as (k & -> & [Hk Hkr%elem_of_seqZ]%list_elem_of_filter). cbn [lookup_or mbind result_bind].
  destruct (lookup_lt_is_Some_2 (pack_items p) (Z.to_nat k)) as [c Hc]; [lia|].
  rewrite Hc in Hk. cbn [default from_option id] in Hk.
  rewrite Hc. cbn [default from_option id]. rewrite (proj2 (Z.leb_gt _ _)) by lia.
  destruct (lookup_lt_is_Some_2 row (Z.to_nat x)) as [w ->]; [lia|]. cbn [lookup_or].
  eexists. split; [reflexivity|].
  assert (∀ y, y ∈ visited → Z.to_nat y ≠ Z.to_nat x) as Hne.
  { intros y Hy Heq. rewrite Forall_forall in Hpos. specialize (Hpos y Hy).
    assert (y = x) as -> by lia. done. }
  rewrite Forall_lookup in Hb. pose proof (Hb _ _ Hc) as Hcb.
  split; cbn [pack_index rank_in_pack pack_items pack_weights].
  - by rewrite length_insert.
  - by rewrite length_insert.
  - by rewrite length_insert.
  - intros y [Hy| ->%list_elem_of_singleton]%elem_of_app.
    + destruct (Hcell y Hy) as (k' & r' & c' & H1 & H2 & H3 & H4 & H5). specialize (Hne y Hy).
      rewrite !list_lookup_insert_ne by done. exists k', r'.
      destruct (decide (Z.to_nat k = Z.to_nat k')) as [E|E].
      * exists (c + 1). rewrite <- E, list_lookup_insert_eq by (rewrite Hi3; lia).
        rewrite <- E, Hc in H4. simplify_eq. split_and!; try done; lia.
      * exists c'. rewrite list_lookup_insert_ne by done. done.
    + exists k, c, (c + 1). rewrite !list_lookup_insert_eq by lia. split_and!; try done; lia.
  - assert (∀ y r, y ∈ visited → pack_index p !! Z.to_nat y = Some k →
      rank_in_pack p !! Z.to_nat y = Some r → r < c) as Hold.
    { intros y r Hy H1 H2. destruct (Hcell y Hy) as (k' & r' & c' & H1' & H2' & _ & H4' & ?).
      simplify_eq. lia. }
    intros y z k' r' [Hy| ->%list_elem_of_singleton]%elem_of_app [Hz| ->%list_elem_of_singleton]%elem_of_app;
      [|specialize (Hne y Hy)|specialize (Hne z Hz)|done].
    + pose proof (Hne y Hy). pose proof (Hne z Hz). rewrite !list_lookup_insert_ne by done. by apply Hinj.
    + rewrite !list_lookup_insert_eq, !list_lookup_insert_ne by (done || lia).
      intros H1 H2 ? ?; simplify_eq. specialize (Hold y _ Hy H1 H2). lia.
    + rewrite !list_lookup_insert_eq, !list_lookup_insert_ne by (done || lia).
      intros ? ? H1 H2; simplify_eq. specialize (Hold z _ Hz H1 H2). lia.
  - apply Forall_insert; [by apply Forall_lookup|]. cbn in Hk. lia.
  - pose proof (sumZ_insert id (pack_items p) (Z.to_nat k) c (c + 1) Hc) as Hsum.
    rewrite !list_fmap_id in Hsum. unfold id in Hsum. rewrite length_app; cbn. lia.
Qed.

(** Packing one row never raises and fills the grid of packs and places. *)
Lemma pack_row_spec :
  ∃ index rank, pack_row num_packs g row = Ok (index, rank) ∧
    length index = length row ∧ length rank = length row ∧
    (∀ x, (x < length row)%nat → ∃ k r, index !! x = Some k ∧ rank !! x = Some r ∧
       0 ≤ k < num_packs ∧ 0 ≤ r < g) ∧
    (∀ x y k r, index !! x = Some k → rank !! x = Some r → index !! y = Some k →
       rank !! y = Some r → x = y).
Proof.
  unfold pack_row. pose proof (sort_descending_perm row) as Hperm.
  assert (NoDup (sort_descending row)) as Hnd by (rewrite Hperm; apply NoDup_seqZ).
  assert (∀ x, x ∈ sort_descending row ↔ 0 ≤ x < Z.of_nat (length row)) as Hin.
  { intros x. rewrite Hperm, elem_of_seqZ. lia. }
  destruct (foldM_total packing_inv (pack_step row num_packs g) (sort_descending row)
              (mkPacking (replicate (length row) (-1)) (replicate (length row) (-1))
                 (replicate (Z.to_nat num_packs) w_zero) (replicate (Z.to_nat num_packs) 0)))
    as (p & Hp & Hinv).
  - split; cbn; rewrite ?length_replicate; try done.
    + by intros x ?%elem_of_nil.
    + by intros x y k r ?%elem_of_nil.
    + apply Forall_replicate. lia.
    + generalize (Z.to_nat num_packs). induction n as [|n IH]; [done|]. cbn in *. lia.
  - intros l1 x l2 p Heq Hinv. rewrite Heq in Hnd. apply NoDup_app in Hnd as (_ & Hd & _).
    assert (∀ y, y ∈ l1 ++ x :: l2 → 0 ≤ y < Z.of_nat (length row)) as Hr.
    { intros y. rewrite <- Heq. apply Hin. }
    apply pack_step_inv; [done| | | |].
    + intros Hx. by apply (Hd x); [|left].
    + apply Hr. set_solver.
    + apply Forall_forall. intros y Hy. apply Hr. set_solver.
    + apply (f_equal length) in Heq. rewrite length_app in Heq. cbn in Heq.
      apply Permutation_length in Hperm. rewrite length_seqZ in Hperm. lia.
  - rewrite Hp. cbn. destruct Hinv as [H1 H2 H3 Hcell Hinj Hb _].
    exists (pack_index p), (rank_in_pack p). split; [done|]. split; [done|]. split; [done|]. split.
    + intros x Hx. destruct (Hcell (Z.of_nat x)) as (k & r & c & Hk & Hrr & Hk0 & Hc & Hrc).
      { apply Hin. lia. }
      rewrite Nat2Z.id in Hk, Hrr. exists k, r. pose proof (lookup_lt_Some _ _ _ Hc).
      rewrite Forall_lookup in Hb. specialize (Hb _ _ Hc). split_and!; try done; lia.
    + intros x y k r Hx1 Hx2 Hy1 Hy2. pose proof (lookup_lt_Some _ _ _ Hx1).
      pose proof (lookup_lt_Some _ _ _ Hy1).
      enough (Z.of_nat x = Z.of_nat y) by lia.
      apply (Hinj _ _ k r); try (apply Hin; lia); by rewrite Nat2Z.id.
Qed.
End packing_proofs.

(** What one packed row is: a bijection of the items with the grid. *)
Record packed (num_packs g : Z) (index rank : list Z) : Prop := {
  packed_index : Z.of_nat (length index) = num_packs * g;
  packed_rank : Z.of_nat (length rank) = num_packs * g;
  packed_range x : (x < length index)%nat → ∃ k r, index !! x = Some k ∧ rank !! x = Some r ∧
    0 ≤ k < num_packs ∧ 0 ≤ r < g;
  packed_inj x y k r : index !! x = Some k → rank !! x = Some r → index !! y = Some k →
    rank !! y = Some r → x = y;
}.

Lemma balanced_packing_spec {W} `{Weight W} num_packs g (weight : list (list W)) :
  0 < num_packs → 0 ≤ g → Forall (λ row, Z.of_nat (length row) = num_packs * g) weight →
  ∃ index rank, balanced_packing (num_packs * g) weight num_packs = Ok (index, rank) ∧
    length index = length weight ∧ length rank = length weight ∧ Forall2 (packed num_packs g) index rank.
Proof.
  intros Hp Hg Hw. unfold balanced_packing. rewrite Z.mul_comm, Z.mod_mul, Z.div_mul by lia.
  rewrite (proj2 (Z.leb_gt _ _)) by lia. cbn [orb negb Z.eqb].
  destruct (Z.eqb_spec g 1) as [->|Hg1].
  - eexists _, _. split; [reflexivity|]. rewrite !length_fmap. split; [done|]. split; [done|].
    apply Forall2_fmap, Forall_Forall2_diag. eapply Forall_impl; [exact Hw|]. cbn. intros row Hrow.
    rewrite Z.mul_1_r in Hrow. split; rewrite ?length_seqZ, ?length_replicate; try lia.
    + intros x Hx. exists (Z.of_nat x), 0. rewrite lookup_seqZ_lt, lookup_replicate_2 by lia.
      split_and!; try done; lia.
    + intros x y k r Hx _ Hy _. apply lookup_seqZ in Hx, Hy. lia.
  - assert (∃ rows, mapM (pack_row num_packs g) weight = Ok rows ∧
      Forall2 (λ row ir, packed num_packs g ir.1 ir.2) weight rows) as (rows & -> & Hrows).
    { induction Hw as [|row weight Hrow Hw IH]; [by exists []|].
      destruct IH as (rows & Hrows & Hf).
      destruct (pack_row_spec row num_packs g Hp Hg Hrow) as (index & rank & Hrun & H1 & H2 & H3 & H4).
      exists ((index, rank) :: rows). split; [cbn; by rewrite Hrun; cbn; rewrite Hrows|].
      constructor; [|done]. split; cbn; try lia; [|done]. intros x Hx. apply H3. lia. }
    cbn. eexists _, _. split; [reflexivity|]. rewrite !length_fmap.
    rewrite (Forall2_length _ _ _ Hrows). split; [done|]. split; [done|].
    apply Forall2_fmap, Forall_Forall2_diag. clear -Hrows. induction Hrows; by constructor.
Qed.

Section packed.
Context (num_packs g : Z) (index rank : list Z) (Hpk : packed num_packs g index rank).
Context (Hnum : 0 < num_packs) (Hg : 0 ≤ g).

(** The places of the items, packs one after the other. *)
Definition places (g : Z) (index rank : list Z) : list Z := zip_with (λ p r, p * g + r) index rank.

Lemma places_lookup x : (x < length index)%nat → ∃ k r,
  index !! x = Some k ∧ rank !! x = Some r ∧ 0 ≤ k < num_packs ∧ 0 ≤ r < g ∧
  places g index rank !! x = Some (k * g + r).
Proof.
  intros Hx. destruct (packed_range _ _ _ _ Hpk x Hx) as (k & r & Hk & Hr & ? & ?).
  exists k, r. unfold places. rewrite lookup_zip_with, Hk, Hr. done.
Qed.

Lemma places_perm : is_perm (num_packs * g) (places g index rank).
Proof.
  pose proof (packed_index _ _ _ _ Hpk) as H1. pose proof (packed_rank _ _ _ _ Hpk) as H2.
  assert (length (places g index rank) = length index) as Hlen.
  { unfold places. rewrite length_zip_with. lia. }
  apply is_perm_intro.
  - apply NoDup_alt. intros x y c Hx Hy. pose proof (lookup_lt_Some _ _ _ Hx) as Hxl.
    pose proof (lookup_lt_Some _ _ _ Hy) as Hyl. rewrite Hlen in Hxl, Hyl.
    destruct (places_lookup x Hxl) as (k & r & Hk & Hr & ? & ? & Hc).
    destruct (places_lookup y Hyl) as (k' & r' & Hk' & Hr' & ? & ? & Hc').
    rewrite Hx in Hc. rewrite Hy in Hc'. simplify_eq.
    destruct (radix_inj g k k' r r') as [<- <-]; [lia|lia|done|].
    by eapply (packed_inj _ _ _ _ Hpk).
  - apply Forall_lookup. intros x c Hx. pose proof (lookup_lt_Some _ _ _ Hx) as Hxl. rewrite Hlen in Hxl.
    destruct (places_lookup x Hxl) as (k & r & _ & _ & ? & ? & Hc). rewrite Hx in Hc. simplify_eq. nia.
  - lia.
Qed.

(** The expansion of the places into ranges of [size]: the [meta_index] of the groups. *)
Lemma meta_index_lookup size e :
  0 < size → (e < length index * Z.to_nat size)%nat → ∃ k r,
  index !! (e / Z.to_nat size)%nat = Some k ∧ 0 ≤ k < num_packs ∧ 0 ≤ r < g ∧
  places g index rank !! (e / Z.to_nat size)%nat = Some (k * g + r) ∧
  meta_index g size index rank !! e =
    Some ((k * g + r) * size + Z.of_nat (e mod Z.to_nat size)%nat).
Proof.
  intros Hs He. assert (e / Z.to_nat size < length index)%nat as Hq.
  { apply Nat.Div0.div_lt_upper_bound. lia. }
  destruct (places_lookup _ Hq) as (k & r & Hk & Hr & ? & ? & Hpl). exists k, r.
  split; [done|]. split; [done|]. split; [done|]. split; [done|].
  unfold meta_index. rewrite (lookup_concat_uniform _ (Z.to_nat size)); [|lia|].
  - rewrite lookup_zip_with, Hk, Hr. cbn. rewrite list_lookup_fmap.
    pose proof (Nat.mod_upper_bound e (Z.to_nat size) ltac:(lia)).
    rewrite lookup_seqZ_lt by lia. done.
  - apply Forall_lookup. intros j l. rewrite lookup_zip_with. intros Hl.
    destruct (index !! j), (rank !! j); simplify_eq/=. by rewrite length_fmap, length_seqZ.
Qed.

Lemma meta_index_length size :
  0 < size → length (meta_index g size index rank) = (length index * Z.to_nat size)%nat.
Proof.
  intros Hs. unfold meta_index. rewrite (length_concat_uniform _ (Z.to_nat size)).
  - rewrite length_zip_with. pose proof (packed_index _ _ _ _ Hpk). pose proof (packed_rank _ _ _ _ Hpk).
    f_equal. lia.
  - apply Forall_lookup. intros j l. rewrite lookup_zip_with. intros Hl.
    destruct (index !! j), (rank !! j); simplify_eq/=. by rewrite length_fmap, length_seqZ.
Qed.

Lemma meta_index_perm size : 0 < size → is_perm (num_packs * g * size) (meta_index g size index rank).
Proof.
  intros Hs. pose proof (meta_index_length size Hs) as Hlen.
  pose proof (packed_index _ _ _ _ Hpk) as H1. pose proof places_perm as Hpl.
  apply is_perm_intro.
  - apply NoDup_alt. intros x y c Hx Hy. pose proof (lookup_lt_Some _ _ _ Hx) as Hxl.
    pose proof (lookup_lt_Some _ _ _ Hy) as Hyl. rewrite Hlen in Hxl, Hyl.
    destruct (meta_index_lookup size x Hs Hxl) as (k & r & _ & _ & _ & Hp & Hc).
    destruct (meta_index_lookup size y Hs Hyl) as (k' & r' & _ & _ & _ & Hp' & Hc').
    rewrite Hx in Hc. rewrite Hy in Hc'. simplify_eq.
    pose proof (Nat.mod_upper_bound x (Z.to_nat size) ltac:(lia)).
    pose proof (Nat.mod_upper_bound y (Z.to_nat size) ltac:(lia)).
    assert (k * g + r = k' * g + r') as Heq by nia. rewrite <- Heq in Hp'.
    pose proof (proj1 (NoDup_alt _) (is_perm_NoDup _ _ Hpl) _ _ _ Hp Hp') as Hq.
    rewrite (Nat.div_mod_eq x (Z.to_nat size)), (Nat.div_mod_eq y (Z.to_nat size)), Hq.
    f_equal. nia.
  - apply Forall_lookup. intros x c Hx. pose proof (lookup_lt_Some _ _ _ Hx) as Hxl. rewrite Hlen in Hxl.
    destruct (meta_index_lookup size x Hs Hxl) as (k & r & _ & ? & ? & _ & Hc).
    rewrite Hx in Hc. simplify_eq. pose proof (Nat.mod_upper_bound x (Z.to_nat size) ltac:(lia)).
    assert (0 ≤ k * g + r < num_packs * g) by nia. generalize dependent (k * g + r). intros z. nia.
  - rewrite Hlen. nia.
Qed.
End packed.

(** ** Replicas *)

(** The slots of a layer: each pair of an expert and a replica number below its
    count is the content of one slot. *)
Record replicas (phy2log rank logcnt : list Z) : Prop := {
  rep_length : length phy2log = length rank;
  rep_NoDup : NoDup (zip phy2log rank);
  rep_elem e r : (e, r) ∈ zip phy2log rank ↔
    0 ≤ e ∧ ∃ c, logcnt !! Z.to_nat e = Some c ∧ 0 ≤ r < c;
  rep_positive : Forall (λ c, 1 ≤ c) logcnt;
  rep_sum : sumZ logcnt = Z.of_nat (length phy2log);
}.

Lemma sumZ_replicate n c : sumZ (replicate n c) = Z.of_nat n * c.
Proof. induction n as [|n IH]; [done|]. cbn [replicate]. rewrite sumZ_cons, IH. lia. Qed.

Lemma zip_snoc {A B} (l : list A) (k : list B) a b :
  length l = length k → zip (l ++ [a]) (k ++ [b]) = zip l k ++ [(a, b)].
Proof. intros Hl. by rewrite zip_with_app. Qed.

Lemma replicas_init n : replicas (seqZ 0 (Z.of_nat n)) (replicate n 0) (replicate n 1).
Proof.
  assert (zip (seqZ 0 (Z.of_nat n)) (replicate n 0) = (λ e, (e, 0)) <$> seqZ 0 (Z.of_nat n)) as Hz.
  { apply list_eq. intros i. rewrite lookup_zip_with, list_lookup_fmap.
    destruct (decide (i < n)%nat).
    - by rewrite lookup_seqZ_lt, lookup_replicate_2 by lia.
    - by rewrite lookup_seqZ_ge by lia. }
  split; rewrite ?Hz.
  - rewrite length_seqZ, length_replicate. lia.
  - apply NoDup_fmap_2_strong; [|apply NoDup_seqZ]. by intros x y _ _ [= ->].
  - intros e r. rewrite list_elem_of_fmap. split.
    + intros (x & [= -> ->] & Hx%elem_of_seqZ). split; [lia|]. exists 1.
      split; [|lia]. apply lookup_replicate_2. lia.
    + intros (He & c & Hc & Hr). apply lookup_replicate in Hc as [-> Hlt]. exists e.
      assert (r = 0) as -> by lia. split; [done|]. apply elem_of_seqZ. lia.
  - apply Forall_replicate. lia.
  - rewrite sumZ_replicate, length_seqZ. lia.
Qed.

Lemma replicas_snoc phy2log rank logcnt e c :
  replicas phy2log rank logcnt → 0 ≤ e → logcnt !! Z.to_nat e = Some c →
  replicas (phy2log ++ [e]) (rank ++ [c]) (<[Z.to_nat e := c + 1]> logcnt).
Proof.
  intros [Hlen Hnd Hel Hpos Hsum] He Hc. pose proof (lookup_lt_Some _ _ _ Hc).
  pose proof (Forall_lookup_1 _ _ _ _ Hpos Hc) as Hc1. cbn in Hc1.
  split; rewrite ?zip_snoc by done.
  - by rewrite !length_app, Hlen.
  - apply NoDup_app. split; [done|]. split; [|apply NoDup_singleton].
    intros x Hx ->%list_elem_of_singleton. apply Hel in Hx as (_ & c' & Hc' & Hlt). simplify_eq. lia.
  - intros e' r. rewrite elem_of_app, Hel, list_elem_of_singleton.
    destruct (decide (Z.to_nat e' = Z.to_nat e)) as [E|E].
    + rewrite E, list_lookup_insert_eq by done. rewrite Hc. split.
      * intros [(? & c' & ? & ?)|Heq]; simplify_eq; (split; [done|]); eexists; (split; [done|]); lia.
      * intros (He' & c' & ? & Hr). simplify_eq. assert (e' = e) as -> by lia.
        destruct (decide (r = c)) as [->|]; [by right|]. left. split; [done|].
        exists c. split; [done|]. lia.
    + rewrite list_lookup_insert_ne by done. split; [intros [?|?]; [done|congruence]|by left].
  - apply Forall_insert; [done|lia].
  - pose proof (sumZ_insert id logcnt (Z.to_nat e) c (c + 1) Hc) as Hs.
    rewrite !list_fmap_id in Hs. unfold id in Hs. rewrite length_app; cbn. lia.
Qed.

(** Slots may be reordered. *)
Lemma replicas_perm phy2log rank logcnt phy2log' rank' :
  replicas phy2log rank logcnt → length phy2log' = length rank' →
  zip phy2log' rank' ≡ₚ zip phy2log rank → replicas phy2log' rank' logcnt.
Proof.
  intros [Hlen Hnd Hel Hpos Hsum] Hlen' Hp. split; [done|by rewrite Hp| |done|].
  - intros e r. by rewrite Hp.
  - apply Permutation_length in Hp. rewrite !length_zip_with in Hp. lia.
Qed.

Section replication.
Context {W : Type} `{Weight W}.

Lemma argmax_range (row : list W) : row ≠ [] → ∃ i, argmax row = Some i ∧ 0 ≤ i < Z.of_nat (length row).
Proof.
  intros Hne. unfold argmax. destruct (enumerate row) as [|x items] eqn:He.
  { apply (f_equal length) in He. unfold enumerate in He. rewrite length_zip_with, length_seqZ in He.
    destruct row; [done|]. cbn in He. lia. }
  eexists. split; [reflexivity|].
  match goal with |- context [foldl ?f x items] =>
    assert (foldl f x items ∈ x :: items) as Hin by (apply foldl_pick; intros a b; case_match; auto) end.
  rewrite <- He in Hin. apply list_elem_of_lookup in Hin as [j Hj]. rewrite enumerate_lookup in Hj.
  destruct (row !! j) eqn:Hrow; [|done]. apply lookup_lt_Some in Hrow. injection Hj as Hj.
  rewrite <- Hj. cbn. lia.
Qed.

Lemma seqZ_split a n l1 x l2 : seqZ a n = l1 ++ x :: l2 → x = a + Z.of_nat (length l1) ∧ Z.of_nat (length l1) < n.
Proof.
  intros Heq. assert (seqZ a n !! length l1 = Some x) as Hx by (rewrite Heq; by apply list_lookup_middle).
  apply lookup_seqZ in Hx. lia.
Qed.

Lemma take_insert_snoc {A} (l : list A) i x : (i < length l)%nat → take (S i) (<[i := x]> l) = take i l ++ [x].
Proof.
  intros Hi. rewrite (take_S_r _ _ x) by (by apply list_lookup_insert_eq). by rewrite take_insert_ge by lia.
Qed.

Context (row : list W) (num_log num_phy : Z).
Context (Hrow : Z.of_nat (length row) = num_log) (Hpos : 0 < num_log) (Hphy : num_log ≤ num_phy).

Definition replication_inv (visited : list Z) (s : list Z * list Z * list Z) : Prop :=
  let i := (Z.to_nat num_log + length visited)%nat in
  length s.1.1 = Z.to_nat num_phy ∧ length s.1.2 = Z.to_nat num_phy ∧ length s.2 = Z.to_nat num_log ∧
  replicas (take i s.1.1) (take i s.1.2) s.2.

Lemma replication_inv_init :
  replication_inv [] (seqZ 0 num_phy, replicate (Z.to_nat num_phy) 0, replicate (Z.to_nat num_log) 1).
Proof.
  unfold replication_inv; cbn [fst snd length]. rewrite Nat.add_0_r, length_seqZ, !length_replicate.
  split; [done|]. split; [done|]. split; [done|].
  assert (take (Z.to_nat num_log) (seqZ 0 num_phy) = seqZ 0 (Z.of_nat (Z.to_nat num_log))) as ->.
  { replace num_phy with (num_log + (num_phy - num_log)) by lia. rewrite seqZ_app by lia.
    rewrite take_app_length'; [by rewrite Z2Nat.id by lia|by rewrite length_seqZ]. }
  rewrite take_replicate, Nat.min_l by lia. apply replicas_init.
Qed.

Lemma replicate_step_inv l1 x l2 s :
  seqZ num_log (num_phy - num_log) = l1 ++ x :: l2 → replication_inv l1 s →
  ∃ s', replicate_step row s x = Ok s' ∧ replication_inv (l1 ++ [x]) s'.
Proof.
  intros [-> Hlt]%seqZ_split. destruct s as [[phy2log rank] cnt]. intros (H1 & H2 & H3 & Hrep). cbn in H1, H2, H3, Hrep.
  unfold replicate_step. destruct (argmax_range (zip_with w_div row cnt)) as (e & -> & He).
  { intros Hnil. apply (f_equal length) in Hnil. rewrite length_zip_with in Hnil. cbn in Hnil. lia. }
  rewrite length_zip_with in He. cbn [lookup_or mbind result_bind].
  destruct (lookup_lt_is_Some_2 cnt (Z.to_nat e)) as [c Hc]; [lia|]. rewrite Hc. cbn [default from_option id].
  eexists. split; [reflexivity|]. unfold replication_inv; cbn [fst snd]. rewrite !length_insert.
  split; [done|]. split; [done|]. split; [done|].
  rewrite length_app, Nat.add_assoc. cbn [length]. rewrite Nat.add_1_r.
  replace (Z.to_nat (num_log + Z.of_nat (length l1))) with (Z.to_nat num_log + length l1)%nat by lia.
  rewrite !take_insert_snoc by lia. apply replicas_snoc; [done|lia|done].
Qed.

Lemma replicate_row_spec :
  ∃ phy2log rank logcnt, replicate_row num_log num_phy row = Ok (phy2log, rank, logcnt) ∧
    length phy2log = Z.to_nat num_phy ∧ length rank = Z.to_nat num_phy ∧
    length logcnt = Z.to_nat num_log ∧ replicas phy2log rank logcnt.
Proof.
  unfold replicate_row.
  destruct (foldM_total replication_inv (replicate_step row) (seqZ num_log (num_phy - num_log))
              (seqZ 0 num_phy, replicate (Z.to_nat num_phy) 0, replicate (Z.to_nat num_log) 1))
    as ([[phy2log rank] cnt] & Hrun & H1 & H2 & H3 & Hrep).
  - apply replication_inv_init.
  - intros l1 x l2 s Heq Hinv. by eapply replicate_step_inv.
  - cbn in H1, H2, H3, Hrep. exists phy2log, rank, cnt. split; [done|]. split; [done|]. split; [done|].
    split; [done|]. rewrite length_seqZ in Hrep. by rewrite !take_ge in Hrep by lia.
Qed.
End replication.

Lemma replicate_experts_spec {W} `{Weight W} num_log num_phy (weight : list (list W)) :
  Forall (λ row, Z.of_nat (length row) = num_log) weight → 0 < num_log → num_log ≤ num_phy →
  ∃ phy2log rank logcnt, replicate_experts num_log weight num_phy = Ok (phy2log, rank, logcnt) ∧
    length phy2log = length weight ∧ length rank = length weight ∧ length logcnt = length weight ∧
    ∀ q p r c, phy2log !! q = Some p → rank !! q = Some r → logcnt !! q = Some c →
      length p = Z.to_nat num_phy ∧ length c = Z.to_nat num_log ∧ replicas p r c.
Proof.
  intros Hw Hpos Hle. unfold replicate_experts. rewrite (proj2 (Z.ltb_ge _ _)) by lia.
  assert (∃ rows, mapM (replicate_row num_log num_phy) weight = Ok rows ∧ length rows = length weight ∧
    Forall (λ t, length t.1.1 = Z.to_nat num_phy ∧ length t.2 = Z.to_nat num_log ∧
                 replicas t.1.1 t.1.2 t.2) rows) as (rows & -> & Hlen & Hrows).
  { induction Hw as [|row weight Hrow Hw IH]; [by exists []|]. destruct IH as (rows & Hr & Hl & Hf).
    destruct (replicate_row_spec row num_log num_phy Hrow Hpos Hle) as (p & r & c & Hrun & H1 & H2 & H3 & H4).
    exists ((p, r, c) :: rows). split; [cbn; by rewrite Hrun; cbn; rewrite Hr|].
    split; [cbn; by f_equal|]. by constructor. }
  cbn. eexists _, _, _. split; [reflexivity|]. rewrite !length_fmap. split; [done|]. split; [done|].
  split; [done|]. intros q p r c. rewrite !list_lookup_fmap. rewrite Forall_lookup in Hrows.
  destruct (rows !! q) as [t|] eqn:Hq; [|done]. cbn. intros; simplify_eq. by apply (Hrows q).
Qed.

(** ** From nodes to the layer *)

Section nodes.
Context (m : Z) (Hm : 0 ≤ m).

Definition node : Type := list Z * list Z * list Z.
Definition node_ok (t : node) : Prop := Z.of_nat (length t.2) = m ∧ replicas t.1.1 t.1.2 t.2.

Definition node_slots (s : Z) (T : list node) : list Z :=
  concat (zip_with (λ k (t : node), Z.add (k * m) <$> t.1.1) (seqZ s (Z.of_nat (length T))) T).
Definition node_ranks (T : list node) : list Z := concat ((λ t : node, t.1.2) <$> T).
Definition node_counts (T : list node) : list Z := concat ((λ t : node, t.2) <$> T).

Lemma node_slots_cons s t T : node_slots s (t :: T) = (Z.add (s * m) <$> t.1.1) ++ node_slots (s + 1) T.
Proof.
  unfold node_slots. cbn [length]. rewrite seqZ_cons by lia. cbn [zip_with concat].
  replace (Z.pred (Z.of_nat (S (length T)))) with (Z.of_nat (length T)) by lia. done.
Qed.

Lemma zip_shift d (l k : list Z) : zip (Z.add d <$> l) k = (λ er : Z * Z, (d + er.1, er.2)) <$> zip l k.
Proof. revert k. induction l as [|x l IH]; intros [|y k]; cbn; try done. by rewrite <- IH. Qed.

Lemma nodes_length s T : Forall node_ok T → length (node_slots s T) = length (node_ranks T).
Proof.
  intros HT. revert s. induction HT as [|t T [_ Ht] HT IH]; intros s; [done|].
  rewrite node_slots_cons. unfold node_ranks in *. rewrite fmap_cons. cbn [concat].
  rewrite !length_app, length_fmap, IH, (rep_length _ _ _ Ht). done.
Qed.

Lemma nodes_zip s t T :
  node_ok t → zip (node_slots s (t :: T)) (node_ranks (t :: T)) =
  ((λ er : Z * Z, (s * m + er.1, er.2)) <$> zip t.1.1 t.1.2) ++ zip (node_slots (s + 1) T) (node_ranks T).
Proof.
  intros [_ Ht]. rewrite node_slots_cons. unfold node_ranks. rewrite fmap_cons. cbn [concat].
  rewrite zip_with_app by (rewrite length_fmap; apply Ht). by rewrite zip_shift.
Qed.

Lemma nodes_elem s T e r :
  Forall node_ok T →
  (e, r) ∈ zip (node_slots s T) (node_ranks T) ↔
  s * m ≤ e ∧ ∃ c, node_counts T !! Z.to_nat (e - s * m) = Some c ∧ 0 ≤ r < c.
Proof.
  intros HT. revert s. induction HT as [|t T Ht HT IH]; intros s.
  { split; [by intros ?%elem_of_nil|]. by intros (_ & c & ? & _). }
  rewrite nodes_zip, elem_of_app, IH, list_elem_of_fmap by done.
  destruct Ht as [Hlen [_ _ Hel _ _]]. unfold node_counts in *. rewrite fmap_cons. cbn [concat].
  split.
  - intros [([e0 r0] & Heq & Hin)|(He & c & Hc & Hr)].
    + cbn in Heq. simplify_eq. apply Hel in Hin as (He0 & c & Hc & Hr). split; [lia|]. exists c.
      replace (s * m + e0 - s * m) with e0 by lia. split; [|done]. by apply lookup_app_l_Some.
    + split; [lia|]. exists c. split; [|done]. rewrite lookup_app_r by lia.
      replace (Z.to_nat (e - s * m) - length t.2)%nat with (Z.to_nat (e - (s + 1) * m)) by lia. done.
  - intros (He & c & Hc & Hr). destruct (decide (e - s * m < m)) as [Hlt|Hge].
    + left. exists (e - s * m, r). cbn. split; [f_equal; lia|]. apply Hel. split; [lia|]. exists c.
      rewrite lookup_app_l in Hc by lia. done.
    + right. split; [lia|]. exists c. rewrite lookup_app_r in Hc by lia.
      replace (Z.to_nat (e - (s + 1) * m)) with (Z.to_nat (e - s * m) - length t.2)%nat by lia. done.
Qed.

Lemma nodes_NoDup s T : Forall node_ok T → NoDup (zip (node_slots s T) (node_ranks T)).
Proof.
  intros HT. revert s. induction HT as [|t T Ht HT IH]; intros s; [apply NoDup_nil_2|].
  rewrite nodes_zip by done. apply NoDup_app. split; [|split; [|apply IH]].
  - apply NoDup_fmap_2_strong; [|apply Ht].
    intros [e1 r1] [e2 r2] _ _ Heq. cbn in Heq. simplify_eq. f_equal. lia.
  - intros [e r] Hin1 Hin2. apply nodes_elem in Hin2 as [He2 _]; [|done].
    apply list_elem_of_fmap in Hin1 as ([e0 r0] & Heq & Hin1). cbn in Heq. simplify_eq.
    destruct Ht as [Hlen [_ _ Hel _ _]]. apply Hel in Hin1 as (He0 & c & Hc & _).
    apply lookup_lt_Some in Hc. lia.
Qed.

Lemma nodes_replicas T : Forall node_ok T → replicas (node_slots 0 T) (node_ranks T) (node_counts T).
Proof.
  intros HT. split.
  - by apply nodes_length.
  - by apply nodes_NoDup.
  - intros e r. rewrite nodes_elem by done. by rewrite Z.mul_0_l, Z.sub_0_r.
  - unfold node_counts. induction HT as [|t T [_ Ht] HT IH]; [constructor|].
    rewrite fmap_cons. cbn [concat]. apply Forall_app. split; [apply Ht|done].
  - rewrite nodes_length by done. unfold node_counts, node_ranks.
    induction HT as [|t T [_ Ht] HT IH]; [done|]. rewrite !fmap_cons. cbn [concat].
    rewrite sumZ_app, length_app, IH, (rep_sum _ _ _ Ht), (rep_length _ _ _ Ht). lia.
Qed.
End nodes.

Lemma replicas_nonneg phy2log rank logcnt : replicas phy2log rank logcnt → Forall (λ e, 0 ≤ e) phy2log.
Proof.
  intros [Hlen _ Hel _ _]. apply Forall_lookup. intros j e Hj. destruct (lookup_lt_is_Some_2 rank j) as [r Hr].
  { rewrite <- Hlen. by apply lookup_lt_Some in Hj. }
  assert ((e, r) ∈ zip phy2log rank) as Hin; [|by apply Hel in Hin as [? _]].
  apply (list_elem_of_lookup_2 _ j). by rewrite lookup_zip_with, Hj, Hr.
Qed.

(** Renaming the experts of a layer: the slots by a permutation, the counts by its
    inverse. *)
Lemma replicas_rename n perm inv phy2log rank logcnt phy2log' logcnt' :
  replicas phy2log rank logcnt → Z.of_nat (length logcnt) = n →
  is_perm n perm → is_perm n inv →
  (∀ j i, inv !! j = Some i → perm !! Z.to_nat i = Some (Z.of_nat j)) →
  (∀ k j, perm !! k = Some j → 0 ≤ j ∧ inv !! Z.to_nat j = Some (Z.of_nat k)) →
  Forall2 (λ i x, perm !! Z.to_nat i = Some x) phy2log phy2log' →
  Forall2 (λ i x, logcnt !! Z.to_nat i = Some x) inv logcnt' →
  replicas phy2log' rank logcnt'.
Proof.
  intros Hrep Hn Hperm Hinv Hfw Hbw Hp Hc. pose proof Hrep as [Hlen Hnd Hel Hpos Hsum].
  assert (∀ j, phy2log' !! j = (phy2log !! j) ≫= λ i, perm !! Z.to_nat i) as Hp'.
  { intros j. destruct (phy2log !! j) as [i|] eqn:Hj; cbn.
    - destruct (Forall2_lookup_l _ _ _ _ _ Hp Hj) as (x & Hx & ->). done.
    - apply lookup_ge_None_2. apply lookup_ge_None in Hj. by rewrite <- (Forall2_length _ _ _ Hp). }
  pose proof (replicas_nonneg _ _ _ Hrep) as Hnn. split.
  - by rewrite <- (Forall2_length _ _ _ Hp).
  - apply NoDup_alt. intros x y [e r] Hx Hy. rewrite lookup_zip_with in Hx, Hy.
    rewrite Hp' in Hx, Hy. rewrite Forall_lookup in Hnn.
    destruct (phy2log !! x) as [i|] eqn:Hi, (phy2log !! y) as [i'|] eqn:Hi'; try done; cbn in Hx, Hy.
    destruct (perm !! Z.to_nat i) eqn:E1, (perm !! Z.to_nat i') eqn:E2; try done; cbn in Hx, Hy.
    destruct (rank !! x) as [r1|] eqn:R1, (rank !! y) as [r2|] eqn:R2; try done; cbn in Hx, Hy. simplify_eq.
    assert (Z.to_nat i = Z.to_nat i') as Hii.
    { apply (proj1 (NoDup_alt _) (is_perm_NoDup _ _ Hperm) _ _ _ E1 E2). }
    pose proof (Hnn _ _ Hi). pose proof (Hnn _ _ Hi'). assert (i = i') as -> by lia.
    apply (proj1 (NoDup_alt _) Hnd x y (i', r)); by rewrite lookup_zip_with, ?Hi, ?Hi', ?R1, ?R2.
  - intros e r. split.
    + intros (j & Hj)%list_elem_of_lookup. rewrite lookup_zip_with, Hp' in Hj.
      destruct (phy2log !! j) as [i|] eqn:Hi; [|done]. cbn in Hj.
      destruct (perm !! Z.to_nat i) as [e'|] eqn:E1; [|done]. cbn in Hj.
      destruct (rank !! j) as [r'|] eqn:R1; [|done]. cbn in Hj. simplify_eq.
      assert ((i, r) ∈ zip phy2log rank) as (Hi0 & c & Hcc & Hr)%Hel.
      { apply (list_elem_of_lookup_2 _ j). by rewrite lookup_zip_with, Hi, R1. }
      apply Hbw in E1 as [He Hinve]. rewrite Z2Nat.id in Hinve by done. split; [done|].
      destruct (Forall2_lookup_l _ _ _ _ _ Hc Hinve) as (c' & Hc' & Hcl). exists c'.
      rewrite Hcc in Hcl. by simplify_eq.
    + intros (He & c & Hc' & Hr). destruct (Forall2_lookup_r _ _ _ _ _ Hc Hc') as (i & Hi & Hci).
      assert ((i, r) ∈ zip phy2log rank) as (j & Hj)%list_elem_of_lookup.
      { apply Hel. split; [|eauto]. pose proof (is_perm_range _ _ Hinv) as Hrg.
        rewrite Forall_lookup in Hrg. by apply (Hrg _ _ Hi). }
      apply Hfw in Hi. rewrite Z2Nat.id in Hi by done.
      apply (list_elem_of_lookup_2 _ j). rewrite lookup_zip_with in Hj |- *. rewrite Hp'.
      destruct (phy2log !! j) as [i'|], (rank !! j) as [r'|]; try done; cbn in Hj |- *.
      simplify_eq. by rewrite Hi.
  - pose proof (gather_perm n inv Hinv logcnt logcnt' Hn Hc) as Hg. by rewrite Hg.
  - pose proof (gather_perm n inv Hinv logcnt logcnt' Hn Hc) as Hg.
    rewrite (sumZ_perm _ _ Hg), Hsum. by rewrite (Forall2_length _ _ _ Hp).
Qed.

(** ** One layer *)

(** [v] is the inverse of the permutation [l]. *)
Definition inverse_rel (n : Z) (l v : list Z) : Prop :=
  is_perm n l ∧ is_perm n v ∧
  (∀ j i, l !! j = Some i → v !! Z.to_nat i = Some (Z.of_nat j)) ∧
  (∀ k j, v !! k = Some j → 0 ≤ j ∧ l !! Z.to_nat j = Some (Z.of_nat k)).

Lemma inverse_rows_spec fresh n rows :
  (∀ m, length (fresh m) = m) → 0 ≤ n → Forall (is_perm n) rows →
  ∃ out, mapM (inverse fresh) rows = Ok out ∧ Forall2 (inverse_rel n) rows out.
Proof.
  intros Hfresh Hn. induction 1 as [|l rows Hl Hrows IH]; [by exists []|].
  destruct IH as (out & Hout & Hf). destruct (inverse_spec n l Hl fresh Hfresh Hn) as (v & Hv & H1 & H2 & H3).
  exists (v :: out). split; [cbn -[inverse]; rewrite Hv; cbn -[inverse]; by rewrite Hout|].
  constructor; [|done]. by split.
Qed.

Lemma node_slots_lookup m p T s x :
  0 < m → (0 < p)%nat → Forall (node_ok m) T → Forall (λ t : node, length t.1.1 = p) T →
  node_slots m 0 T !! s = Some x → x / m = Z.of_nat (s / p)%nat.
Proof.
  intros Hm Hp Hok Hlen Hs. unfold node_slots in Hs. rewrite (lookup_concat_uniform _ p) in Hs; [|done|].
  - rewrite lookup_zip_with in Hs. destruct (T !! (s / p)%nat) as [t|] eqn:Ht; [|by destruct (seqZ _ _ !! _)].
    pose proof (lookup_lt_Some _ _ _ Ht). rewrite lookup_seqZ_lt in Hs by lia. cbn in Hs.
    rewrite list_lookup_fmap in Hs. destruct (t.1.1 !! (s mod p)%nat) as [e|] eqn:He; [|done].
    cbn in Hs. injection Hs as <-.
    destruct (Forall_lookup_1 _ _ _ _ Hok Ht) as [Htl Hrep].
    assert (0 ≤ e < m) as Hem.
    { destruct (lookup_lt_is_Some_2 t.1.2 (s mod p)%nat) as [r Hr].
      { rewrite <- (rep_length _ _ _ Hrep). by apply lookup_lt_Some in He. }
      assert ((e, r) ∈ zip t.1.1 t.1.2) as Hin.
      { apply (list_elem_of_lookup_2 _ (s mod p)%nat). by rewrite lookup_zip_with, He, Hr. }
      apply (rep_elem _ _ _ Hrep) in Hin as (? & c & Hc & _). apply lookup_lt_Some in Hc. lia. }
    rewrite Z.add_comm, Z.div_add by lia. rewrite Z.div_small by lia. lia.
  - apply Forall_lookup. intros k l. rewrite lookup_zip_with. intros Hl.
    destruct (seqZ 0 (Z.of_nat (length T)) !! k), (T !! k) as [t|] eqn:Ht; simplify_eq/=.
    rewrite length_fmap. by apply (Forall_lookup_1 _ _ _ _ Hlen Ht).
Qed.

Section layer.
Context (num_nodes groups_per_node group_size per_node_slots : Z).
Context (HN : 0 < num_nodes) (Hgpn : 0 < groups_per_node) (Hgs : 0 < group_size) (Hpn : 0 < per_node_slots).

Let per_node := groups_per_node * group_size.
Let L := num_nodes * per_node.

(** What the maps of one layer promise: slots and replicas correspond, and the
    experts of a group share a node. *)
Record layer_maps (phy2log rank logcnt : list Z) : Prop := {
  lm_slots : Z.of_nat (length phy2log) = num_nodes * per_node_slots;
  lm_experts : Z.of_nat (length logcnt) = L;
  lm_replicas : replicas phy2log rank logcnt;
  lm_nodes s s' e e' : phy2log !! s = Some e → phy2log !! s' = Some e' →
    e / group_size = e' / group_size → Z.of_nat s / per_node_slots = Z.of_nat s' / per_node_slots;
}.

Context (index prank : list Z) (Hpk : packed num_nodes groups_per_node index prank).
Context (mlog2log : list Z) (Hinv : inverse_rel L (meta_index groups_per_node group_size index prank) mlog2log).
Context (T : list node) (HT : Forall (node_ok per_node) T) (HTlen : Z.of_nat (length T) = num_nodes).
Context (HTs : Forall (λ t : node, length t.1.1 = Z.to_nat per_node_slots) T).

Lemma node_counts_length : Z.of_nat (length (node_counts T)) = L.
Proof.
  unfold node_counts. rewrite (length_concat_uniform _ (Z.to_nat per_node)).
  - rewrite length_fmap. unfold L, per_node. nia.
  - apply Forall_fmap. eapply Forall_impl; [exact HT|]. intros t [Ht _]. cbn. lia.
Qed.

Lemma node_slots_length : Z.of_nat (length (node_slots per_node 0 T)) = num_nodes * per_node_slots.
Proof.
  unfold node_slots. rewrite (length_concat_uniform _ (Z.to_nat per_node_slots)).
  - rewrite length_zip_with, length_seqZ. nia.
  - apply Forall_lookup. intros k l. rewrite lookup_zip_with. intros Hl.
    destruct (seqZ 0 (Z.of_nat (length T)) !! k), (T !! k) as [t|] eqn:Ht; simplify_eq/=.
    rewrite length_fmap. by apply (Forall_lookup_1 _ _ _ _ HTs Ht).
Qed.

Lemma node_slots_range : Forall (λ i, 0 ≤ i < L) (node_slots per_node 0 T).
Proof.
  apply Forall_lookup. intros j i Hj. pose proof (nodes_replicas per_node T HT) as Hrep.
  destruct (lookup_lt_is_Some_2 (node_ranks T) j) as [r Hr].
  { rewrite <- (rep_length _ _ _ Hrep). by apply lookup_lt_Some in Hj. }
  assert ((i, r) ∈ zip (node_slots per_node 0 T) (node_ranks T)) as Hin.
  { apply (list_elem_of_lookup_2 _ j). by rewrite lookup_zip_with, Hj, Hr. }
  apply (rep_elem _ _ _ Hrep) in Hin as (? & c & Hc & _). apply lookup_lt_Some in Hc.
  pose proof node_counts_length. lia.
Qed.

(** The node of an expert, from the packing of its group. *)
Lemma expert_node i e :
  mlog2log !! Z.to_nat i = Some e → 0 ≤ i →
  0 ≤ e ∧ index !! Z.to_nat (e / group_size) = Some (i / per_node).
Proof.
  destruct Hinv as (Hp1 & Hp2 & Hfw & Hbw). intros [He Hi]%Hbw Hi0. split; [done|].
  rewrite Z2Nat.id in Hi by done. pose proof (lookup_lt_Some _ _ _ Hi) as Hlt.
  rewrite (meta_index_length num_nodes groups_per_node index prank Hpk group_size Hgs) in Hlt.
  destruct (meta_index_lookup _ _ _ _ Hpk group_size (Z.to_nat e) Hgs Hlt) as (k & r & Hk & ? & ? & _ & Hme).
  rewrite Hi in Hme. injection Hme as ->.
  assert (Z.to_nat e / Z.to_nat group_size = Z.to_nat (e / group_size))%nat as E.
  { rewrite Z2Nat.inj_div by lia. done. }
  rewrite E in Hk. rewrite Hk. f_equal. symmetry.
  pose proof (Nat.mod_upper_bound (Z.to_nat e) (Z.to_nat group_size) ltac:(lia)).
  unfold per_node. replace (groups_per_node * group_size) with (group_size * groups_per_node) by lia.
  rewrite <- Z.div_div by lia.
  rewrite Z.div_add_l by lia. rewrite (Z.div_small (Z.of_nat _)) by lia. rewrite Z.add_0_r.
  rewrite Z.div_add_l by lia. rewrite Z.div_small by lia. lia.
Qed.

Lemma layer_assembly phy2log logcnt :
  Forall2 (λ i x, mlog2log !! Z.to_nat i = Some x) (node_slots per_node 0 T) phy2log →
  Forall2 (λ i x, node_counts T !! Z.to_nat i = Some x)
    (meta_index groups_per_node group_size index prank) logcnt →
  layer_maps phy2log (node_ranks T) logcnt.
Proof.
  intros Hp Hc. pose proof Hinv as (Hp1 & Hp2 & Hfw & Hbw). split.
  - rewrite <- (Forall2_length _ _ _ Hp). apply node_slots_length.
  - rewrite <- (Forall2_length _ _ _ Hc), (is_perm_length _ _ Hp1).
    unfold L, per_node. nia.
  - eapply (replicas_rename L mlog2log); [|exact node_counts_length|done|exact Hp1|done|done|done|done].
    by apply nodes_replicas.
  - intros s s' e e' Hs Hs' Heq.
    destruct (Forall2_lookup_r _ _ _ _ _ Hp Hs) as (i & Hi & Hie).
    destruct (Forall2_lookup_r _ _ _ _ _ Hp Hs') as (i' & Hi' & Hie').
    pose proof node_slots_range as Hrg. rewrite Forall_lookup in Hrg.
    apply expert_node in Hie as [_ Hn]; [|by apply (Hrg _ _ Hi)].
    apply expert_node in Hie' as [_ Hn']; [|by apply (Hrg _ _ Hi')].
    rewrite Heq, Hn' in Hn. injection Hn as Hn.
    rewrite (node_slots_lookup per_node (Z.to_nat per_node_slots) T s i) in Hn by (done || unfold per_node; nia).
    rewrite (node_slots_lookup per_node (Z.to_nat per_node_slots) T s' i') in Hn by (done || unfold per_node; nia).
    rewrite !Nat2Z.inj_div, !Z2Nat.id in Hn by lia. done.
Qed.
End layer.

(** ** The hierarchical algorithm *)

Lemma length_unflatten {A} n size (l : list A) : length (unflatten n size l) = Z.to_nat n.
Proof. unfold unflatten. by rewrite length_fmap, length_seqZ. Qed.

Lemma unflatten_lookup {A} n size (l : list A) i :
  Z.of_nat i < n → unflatten n size l !! i = Some (take (Z.to_nat size) (drop (Z.to_nat (Z.of_nat i * size)) l)).
Proof. intros Hi. unfold unflatten. by rewrite list_lookup_fmap, lookup_seqZ_lt by lia. Qed.

Lemma unflatten_rows {A} n size (l : list A) :
  0 ≤ n → 0 ≤ size → Z.of_nat (length l) = n * size →
  Forall (λ row, Z.of_nat (length row) = size) (unflatten n size l).
Proof.
  intros Hn Hs Hl. apply Forall_lookup. intros i row Hrow.
  pose proof (lookup_lt_Some _ _ _ Hrow) as Hi. rewrite length_unflatten in Hi.
  rewrite unflatten_lookup in Hrow by lia. injection Hrow as <-.
  rewrite length_take, length_drop. nia.
Qed.

Lemma fmap_unflatten {A B} (f : A → B) n size (l : list A) :
  unflatten n size (f <$> l) = (λ row : list A, f <$> row) <$> unflatten n size l.
Proof.
  unfold unflatten. rewrite <- list_fmap_compose. apply list_fmap_ext. intros i x Hx. cbn.
  by rewrite fmap_take, fmap_drop.
Qed.

(** Two rows gathered by one permutation stay aligned. *)
Lemma gather_zip_perm {A B} n sigma (a : list A) (b : list B) a' b' :
  is_perm n sigma → Z.of_nat (length a) = n → Z.of_nat (length b) = n →
  Forall2 (λ i x, a !! Z.to_nat i = Some x) sigma a' →
  Forall2 (λ i x, b !! Z.to_nat i = Some x) sigma b' → zip a' b' ≡ₚ zip a b.
Proof.
  intros Hs Ha Hb Ha' Hb'. apply (gather_perm n sigma Hs).
  - rewrite length_zip_with. lia.
  - clear -Ha' Hb'. revert b' Hb'. induction Ha' as [|i x sigma a' Hi Ha' IH]; intros b' Hb'.
    + inversion Hb'. constructor.
    + inversion Hb' as [|? y ? b'' Hy Hb'']; subst. cbn. constructor; [|by apply IH].
      by rewrite lookup_zip_with, Hi, Hy.
Qed.

Lemma offset_nodes_eq m (T : list node) : offset_nodes m ((λ t : node, t.1.1) <$> T) = node_slots m 0 T.
Proof.
  unfold offset_nodes, node_slots, enumerate. rewrite length_fmap. f_equal.
  generalize (seqZ 0 (Z.of_nat (length T))). induction T as [|t T IH]; intros [|k ks]; try done.
  cbn. f_equal. apply IH.
Qed.

Lemma zip3_fmap (A B C : list (list Z)) :
  length A = length B → length A = length C →
  (λ t : node, t.1.1) <$> zip (zip A B) C = A ∧ (λ t : node, t.1.2) <$> zip (zip A B) C = B ∧
  (λ t : node, t.2) <$> zip (zip A B) C = C.
Proof.
  revert B C. induction A as [|a A IH]; intros [|b B] [|c C] H1 H2; try done.
  destruct (IH B C) as (E1 & E2 & E3); [by injection H1|by injection H2|].
  cbn. split_and!; by f_equal.
Qed.

Section hierarchical.
Context {W : Type} `{Weight W} (fresh : nat → list Z) (Hfresh : ∀ n, length (fresh n) = n).
Context (N gpn gs dn ppg : Z) (HN : 0 < N) (Hgpn : 0 < gpn) (Hgs : 0 < gs) (Hdn : 0 < dn) (Hppg : 0 < ppg).

(** What replication leaves behind for the packing: one map, rank row and count row
    per node, of the sizes the devices take. *)
Record replicated (m rows : Z) (phy2mlog phyrank mlogcnt : list (list Z)) : Prop := {
  replicated_maps : Z.of_nat (length phy2mlog) = rows;
  replicated_ranks : Z.of_nat (length phyrank) = rows;
  replicated_counts : Z.of_nat (length mlogcnt) = rows;
  replicated_node q p : phy2mlog !! q = Some p →
    ∃ r c, phyrank !! q = Some r ∧ mlogcnt !! q = Some c ∧
      length p = Z.to_nat (dn * ppg) ∧ length r = Z.to_nat (dn * ppg) ∧ length c = Z.to_nat m ∧
      replicas p r c;
}.

Lemma replicate_nodes m (rows : list (list W)) :
  0 < m → m ≤ dn * ppg → Forall (λ row, Z.of_nat (length row) = m) rows →
  ∃ phy2mlog phyrank mlogcnt,
    replicate_experts m rows (dn * ppg) = Ok (phy2mlog, phyrank, mlogcnt) ∧
    replicated m (Z.of_nat (length rows)) phy2mlog phyrank mlogcnt.
Proof.
  intros Hm Hle Hrows.
  destruct (replicate_experts_spec m (dn * ppg) rows Hrows Hm Hle) as
    (PM & PR & MC & Hrep & Hl1 & Hl2 & Hl3 & Hq).
  exists PM, PR, MC. split; [done|]. split; [lia..|].
  intros q p Hp. pose proof (lookup_lt_Some _ _ _ Hp).
  destruct (lookup_lt_is_Some_2 PR q) as [r Hr]; [lia|].
  destruct (lookup_lt_is_Some_2 MC q) as [c Hc]; [lia|].
  destruct (Hq q p r c Hp Hr Hc) as (? & ? & Hrp). exists r, c. split_and!; try done.
  by rewrite <- (rep_length _ _ _ Hrp).
Qed.

(** Every replica finds the load of its expert. *)
Lemma replica_tokens m (rows : list (list W)) PM PR MC :
  0 < m → Forall (λ row, Z.of_nat (length row) = m) rows →
  replicated m (Z.of_nat (length rows)) PM PR MC →
  ∃ tokens, gather_rows (zip_with (zip_with w_div) rows MC) PM = Ok tokens ∧
    length tokens = length rows ∧
    Forall (λ row, Z.of_nat (length row) = dn * ppg) tokens.
Proof.
  intros Hm Hrows [Hl1 Hl2 Hl3 Hq]. assert (0 < dn * ppg) by nia.
  destruct (gather_rows_spec (zip_with (zip_with w_div) rows MC) PM) as (tokens & Htok & Htl & Htq).
  { apply Forall2_same_length_lookup. rewrite length_zip_with. split; [lia|].
    intros q row p Hrow Hp. destruct (Hq q p Hp) as (r & c & Hr & Hc & Hpl & Hrl & Hcl & Hrp).
    rewrite lookup_zip_with, Hc in Hrow. destruct (rows !! q) as [w|] eqn:Hw; simplify_eq/=.
    pose proof (Forall_lookup_1 _ _ _ _ Hrows Hw) as Hwl. cbn in Hwl.
    rewrite length_zip_with. apply Forall_lookup. intros j e He.
    destruct (lookup_lt_is_Some_2 r j) as [k Hk]; [apply lookup_lt_Some in He; lia|].
    assert ((e, k) ∈ zip p r) as Hin.
    { apply (list_elem_of_lookup_2 _ j). by rewrite lookup_zip_with, He, Hk. }
    apply (rep_elem _ _ _ Hrp) in Hin as (? & x & Hx & _). apply lookup_lt_Some in Hx. lia. }
  rewrite length_zip_with in Htl. exists tokens. split; [done|]. split; [lia|].
  apply Forall_lookup. intros q t Ht. pose proof (lookup_lt_Some _ _ _ Ht).
  destruct (lookup_lt_is_Some_2 PM q) as [p Hp]; [lia|].
  destruct (Hq q p Hp) as (r & c & _ & Hc & Hpl & _).
  destruct (lookup_lt_is_Some_2 rows q) as [w Hw]; [lia|].
  rewrite <- (Forall2_length _ _ _ (Htq q (zip_with w_div w c) p t
    ltac:(by rewrite lookup_zip_with, Hw, Hc) Hp Ht)). lia.
Qed.

(** Reordering every node's slots keeps its replicas. *)
Lemma reorder_nodes m (rows : Z) PM PR MC SP :
  0 < m → replicated m rows PM PR MC → Z.of_nat (length SP) = rows → Forall (is_perm (dn * ppg)) SP →
  ∃ QM QR, gather_rows PM SP = Ok QM ∧ gather_rows PR SP = Ok QR ∧
    length QM = length PM ∧ length QR = length PM ∧
    Forall (λ t : node, node_ok m t ∧ length t.1.1 = Z.to_nat (dn * ppg)) (zip (zip QM QR) MC).
Proof.
  intros Hm [Hl1 Hl2 Hl3 Hq] Hsl Hperm. assert (0 < dn * ppg) by nia.
  assert (∀ X : list (list Z), Z.of_nat (length X) = rows →
    (∀ q x, X !! q = Some x → length x = Z.to_nat (dn * ppg)) →
    Forall2 (λ src idx, Forall (λ i, 0 ≤ i < Z.of_nat (length src)) idx) X SP) as Hgath.
  { intros X HX Hxl. apply Forall2_same_length_lookup. split; [lia|].
    intros q src idx Hsrc Hidx. rewrite (Hxl _ _ Hsrc). pose proof (Forall_lookup_1 _ _ _ _ Hperm Hidx) as Hs.
    eapply Forall_impl; [apply (is_perm_range _ _ Hs)|]. cbn; intros; lia. }
  destruct (gather_rows_spec PM SP) as (QM & HQM & HQMl & HQMq).
  { apply Hgath; [done|]. intros q x Hx. by destruct (Hq q x Hx) as (? & ? & _ & _ & ? & _). }
  destruct (gather_rows_spec PR SP) as (QR & HQR & HQRl & HQRq).
  { apply Hgath; [done|]. intros q x Hx.
    destruct (lookup_lt_is_Some_2 PM q) as [p Hp]; [apply lookup_lt_Some in Hx; lia|].
    destruct (Hq q p Hp) as (? & ? & ? & _ & _ & ? & _). by simplify_eq. }
  exists QM, QR. do 2 (split; [done|]). do 2 (split; [lia|]). apply Forall_lookup. intros q t Hqt.
  rewrite !lookup_zip_with in Hqt.
  destruct (QM !! q) as [a|] eqn:Ha, (QR !! q) as [b|] eqn:Hb, (MC !! q) as [c|] eqn:Hc; simplify_eq/=.
  pose proof (lookup_lt_Some _ _ _ Ha).
  destruct (lookup_lt_is_Some_2 PM q) as [p Hp]; [lia|]. destruct (lookup_lt_is_Some_2 SP q) as [s Hs]; [lia|].
  destruct (Hq q p Hp) as (r & c' & Hr & Hc' & Hpl' & Hrl' & Hcl & Hrp). simplify_eq.
  pose proof (HQMq q p s a Hp Hs Ha) as Fa. pose proof (HQRq q r s b Hr Hs Hb) as Fb.
  pose proof (Forall2_length _ _ _ Fa). pose proof (Forall2_length _ _ _ Fb).
  pose proof (Forall_lookup_1 _ _ _ _ Hperm Hs) as Hsp. pose proof (is_perm_length _ _ Hsp).
  split; [|cbn; lia]. split; [cbn; lia|]. cbn.
  eapply replicas_perm; [exact Hrp|lia|]. by apply (gather_zip_perm (dn * ppg) s); try done; lia.
Qed.

(** The device packing of the replicas, node by node. *)
Lemma nodes_packed m (rows : list (list W)) :
  0 < m → m ≤ dn * ppg → Forall (λ row, Z.of_nat (length row) = m) rows →
  ∃ phy2mlog phyrank mlogcnt tokens index rank pphy2phy pphy2mlog pphyrank,
    replicate_experts m rows (dn * ppg) = Ok (phy2mlog, phyrank, mlogcnt) ∧
    gather_rows (zip_with (zip_with w_div) rows mlogcnt) phy2mlog = Ok tokens ∧
    balanced_packing (dn * ppg) tokens dn = Ok (index, rank) ∧
    mapM (inverse fresh) (zip_with (zip_with (λ p r, p * ppg + r)) index rank) = Ok pphy2phy ∧
    gather_rows phy2mlog pphy2phy = Ok pphy2mlog ∧
    gather_rows phyrank pphy2phy = Ok pphyrank ∧
    length pphy2mlog = length rows ∧ length pphyrank = length rows ∧ length mlogcnt = length rows ∧
    Forall (node_ok m) (zip (zip pphy2mlog pphyrank) mlogcnt) ∧
    Forall (λ t : node, length t.1.1 = Z.to_nat (dn * ppg)) (zip (zip pphy2mlog pphyrank) mlogcnt).
Proof.
  intros Hm Hle Hrows. assert (0 < dn * ppg) as Hpos by nia.
  destruct (replicate_nodes m rows Hm Hle Hrows) as (PM & PR & MC & Hrep & Hnodes).
  destruct (replica_tokens m rows PM PR MC Hm Hrows Hnodes) as (tokens & Htok & Htl & Htr).
  destruct (balanced_packing_spec dn ppg tokens) as (index & rank & Hbal & Hil & Hrl & Hpk); [lia|lia|done|].
  set (pphy := zip_with (zip_with (λ p r, p * ppg + r)) index rank).
  assert (Forall (is_perm (dn * ppg)) pphy) as Hperm.
  { unfold pphy. clear -Hpk Hdn Hppg. induction Hpk as [|i r index rank Hir Hpk IH]; [constructor|].
    cbn. constructor; [|done]. apply (places_perm dn ppg i r Hir); lia. }
  assert (length pphy = length rows) as Hpl by (unfold pphy; rewrite length_zip_with; lia).
  destruct (inverse_rows_spec fresh (dn * ppg) pphy Hfresh ltac:(lia) Hperm) as (SP & Hsp & Hspr).
  pose proof (Forall2_length _ _ _ Hspr) as Hspl.
  destruct (reorder_nodes m _ PM PR MC SP Hm Hnodes) as (QM & QR & HQM & HQR & HQMl & HQRl & Hok); [lia| |].
  { apply Forall_lookup. intros q s Hs.
    by destruct (Forall2_lookup_r _ _ _ _ _ Hspr Hs) as (? & _ & _ & ? & _). }
  destruct Hnodes as [Hl1 Hl2 Hl3 _]. apply Forall_and in Hok as [Hok1 Hok2].
  exists PM, PR, MC, tokens, index, rank, SP, QM, QR. split_and!; done || lia.
Qed.

Let m := gpn * gs.
Let L := N * m.

Lemma hierarchical_guards :
  L mod (N * gpn) = 0 ∧ L / (N * gpn) = gs ∧ (N * gpn) mod N = 0 ∧ N * gpn / N = gpn ∧
  (N * dn) mod N = 0 ∧ N * dn / N = dn ∧ (N * dn * ppg) mod (N * dn) = 0 ∧
  N * dn * ppg / (N * dn) = ppg ∧ L / N = m ∧ N * dn * ppg / N = dn * ppg.
Proof.
  unfold L, m. replace (N * (gpn * gs)) with (gs * (N * gpn)) by lia.
  rewrite Z.mod_mul, Z.div_mul by nia.
  replace (gs * (N * gpn)) with (gpn * gs * N) by lia. rewrite Z.div_mul by lia.
  replace (N * dn * ppg) with (ppg * (N * dn)) by lia. rewrite Z.mod_mul, Z.div_mul by nia.
  replace (ppg * (N * dn)) with (dn * ppg * N) by lia. rewrite Z.div_mul by lia.
  rewrite (Z.mul_comm N gpn), Z.mod_mul, Z.div_mul by lia.
  rewrite (Z.mul_comm N dn), Z.mod_mul, Z.div_mul by lia. done.
Qed.

(** The experts of each layer, ordered by node. *)
Lemma nodes_ordered (weight : list (list W)) :
  Forall (λ row, Z.of_nat (length row) = L) weight →
  ∃ index rank mlog2log tokens,
    balanced_packing (N * gpn) ((λ row : list W, w_sum <$> unflatten (N * gpn) gs row) <$> weight) N =
      Ok (index, rank) ∧
    mapM (inverse fresh) (zip_with (meta_index gpn gs) index rank) = Ok mlog2log ∧
    gather_rows weight mlog2log = Ok tokens ∧
    length index = length weight ∧ length rank = length weight ∧ length mlog2log = length weight ∧
    Forall2 (packed N gpn) index rank ∧
    Forall2 (inverse_rel L) (zip_with (meta_index gpn gs) index rank) mlog2log ∧
    length tokens = length weight ∧ Forall (λ row, Z.of_nat (length row) = L) tokens.
Proof.
  intros Hw.
  destruct (balanced_packing_spec N gpn ((λ row : list W, w_sum <$> unflatten (N * gpn) gs row) <$> weight))
    as (index & rank & Hbal & Hil & Hrl & Hpk); [lia|lia| |].
  { apply Forall_fmap, Forall_true. intros row. cbn. rewrite length_fmap, length_unflatten. nia. }
  rewrite length_fmap in Hil, Hrl.
  set (LM := zip_with (meta_index gpn gs) index rank).
  assert (Forall (is_perm L) LM) as Hperm.
  { unfold LM. clear -Hpk HN Hgpn Hgs. induction Hpk as [|i r index rank Hir Hpk IH]; [constructor|].
    cbn. constructor; [|done]. unfold L, m. rewrite Z.mul_assoc.
    apply (meta_index_perm N gpn i r Hir); lia. }
  assert (length LM = length weight) as HLM by (unfold LM; rewrite length_zip_with; lia).
  destruct (inverse_rows_spec fresh L LM Hfresh) as (ML & Hinv & Hrel); [unfold L, m; nia|done|].
  pose proof (Forall2_length _ _ _ Hrel) as HMl.
  assert (∀ q v, ML !! q = Some v → is_perm L v) as HMp.
  { intros q v Hv. destruct (Forall2_lookup_r _ _ _ _ _ Hrel Hv) as (? & _ & _ & ? & _). done. }
  destruct (gather_rows_spec weight ML) as (tokens & Htok & Htl & Htq).
  { apply Forall2_same_length_lookup. split; [lia|]. intros q src idx Hsrc Hidx.
    rewrite (Forall_lookup_1 _ _ _ _ Hw Hsrc). apply (is_perm_range _ _ (HMp _ _ Hidx)). }
  exists index, rank, ML, tokens. do 3 (split; [done|]). split; [done|]. split; [done|].
  split; [lia|]. split; [done|]. split; [done|]. split; [done|].
  apply Forall_lookup. intros q t Ht. pose proof (lookup_lt_Some _ _ _ Ht).
  destruct (lookup_lt_is_Some_2 ML q) as [v Hv]; [lia|].
  destruct (lookup_lt_is_Some_2 weight q) as [w Hwq]; [lia|].
  rewrite <- (Forall2_length _ _ _ (Htq q w v t Hwq Hv Ht)), (is_perm_length _ _ (HMp _ _ Hv)).
  unfold L, m. nia.
Qed.

(** The last gathers, on the nodes of each layer. *)
Lemma layers_assembled (layers : nat) index rank mlog2log (TT : list (list node)) :
  length index = layers → length rank = layers → length mlog2log = layers → length TT = layers →
  Forall2 (packed N gpn) index rank →
  Forall2 (inverse_rel L) (zip_with (meta_index gpn gs) index rank) mlog2log →
  Forall (λ T, Forall (node_ok m) T ∧ Z.of_nat (length T) = N ∧
               Forall (λ t : node, length t.1.1 = Z.to_nat (dn * ppg)) T) TT →
  ∃ phy2log logcnt,
    gather_rows mlog2log (node_slots m 0 <$> TT) = Ok phy2log ∧
    gather_rows (node_counts <$> TT) (zip_with (meta_index gpn gs) index rank) = Ok logcnt ∧
    length phy2log = layers ∧ length logcnt = layers ∧
    ∀ i p r c, phy2log !! i = Some p → (node_ranks <$> TT) !! i = Some r → logcnt !! i = Some c →
      layer_maps N gpn gs (dn * ppg) p r c.
Proof.
  intros H1 H2 H3 H4 Hpk Hrel HTT. assert (0 < dn * ppg) as Hpos by nia.
  rewrite Forall_lookup in HTT.
  destruct (gather_rows_spec mlog2log (node_slots m 0 <$> TT)) as (PL & HPL & HPLl & HPLq).
  { apply Forall2_same_length_lookup. rewrite length_fmap. split; [lia|].
    intros q src idx Hsrc. rewrite list_lookup_fmap. intros Hidx.
    destruct (TT !! q) as [T|] eqn:HT; simplify_eq/=. destruct (HTT q T HT) as (Hok & HTl & _).
    destruct (Forall2_lookup_r _ _ _ _ _ Hrel Hsrc) as (? & _ & _ & Hp & _).
    rewrite (is_perm_length _ _ Hp), Z2Nat.id by (unfold L, m; nia).
    by apply (node_slots_range N gpn gs HN Hgpn Hgs). }
  destruct (gather_rows_spec (node_counts <$> TT) (zip_with (meta_index gpn gs) index rank))
    as (LC & HLC & HLCl & HLCq).
  { apply Forall2_same_length_lookup. rewrite length_fmap, length_zip_with. split; [lia|].
    intros q src idx. rewrite list_lookup_fmap. intros Hsrc Hidx.
    destruct (TT !! q) as [T|] eqn:HT; simplify_eq/=. destruct (HTT q T HT) as (Hok & HTl & _).
    destruct (Forall2_lookup_l _ _ _ _ _ Hrel Hidx) as (? & _ & Hp & _).
    rewrite (node_counts_length N gpn gs HN Hgpn Hgs T Hok HTl). apply (is_perm_range _ _ Hp). }
  rewrite length_fmap in HLCl.
  exists PL, LC. split; [done|]. split; [done|]. split; [lia|]. split; [lia|].
  intros i p r c Hp Hr Hc. rewrite list_lookup_fmap in Hr.
  destruct (TT !! i) as [T|] eqn:HT; simplify_eq/=. destruct (HTT i T HT) as (Hok & HTl & Hsl).
  pose proof (lookup_lt_Some _ _ _ HT) as Hi.
  destruct (lookup_lt_is_Some_2 index i) as [gi Hgi]; [lia|].
  destruct (lookup_lt_is_Some_2 rank i) as [gr Hgr]; [lia|].
  destruct (lookup_lt_is_Some_2 mlog2log i) as [ml Hml]; [lia|].
  assert (zip_with (meta_index gpn gs) index rank !! i = Some (meta_index gpn gs gi gr)) as Hlm
    by (by rewrite lookup_zip_with, Hgi, Hgr).
  apply (layer_assembly N gpn gs (dn * ppg) HN Hgpn Hgs Hpos gi gr) with (mlog2log := ml); try done.
  - by apply (Forall2_lookup_lr _ _ _ _ _ _ Hpk Hgi Hgr).
  - by apply (Forall2_lookup_lr _ _ _ _ _ _ Hrel Hlm Hml).
  - apply (HPLq i); [done| |done]. by rewrite list_lookup_fmap, HT.
  - apply (HLCq i); [|done|done]. by rewrite list_lookup_fmap, HT.
Qed.

(** Rows regrouped by layer. *)
Lemma regroup (layers : nat) (T : list node) QM QR MC :
  (λ t : node, t.1.1) <$> T = QM → (λ t : node, t.1.2) <$> T = QR → (λ t : node, t.2) <$> T = MC →
  let TT := unflatten (Z.of_nat layers) N T in
  offset_nodes m <$> unflatten (Z.of_nat layers) N QM = node_slots m 0 <$> TT ∧
  view_rows (Z.of_nat layers) N QR = node_ranks <$> TT ∧
  view_rows (Z.of_nat layers) N MC = node_counts <$> TT.
Proof.
  intros <- <- <-. cbv zeta. unfold view_rows. rewrite !fmap_unflatten, <- !list_fmap_compose.
  split; [|done]. apply list_fmap_ext. intros i x _. apply offset_nodes_eq.
Qed.

Lemma unflatten_nodes (layers : nat) (T : list node) (P : node → Prop) :
  length T = (layers * Z.to_nat N)%nat → Forall P T →
  Forall (λ Ti, Forall P Ti ∧ Z.of_nat (length Ti) = N) (unflatten (Z.of_nat layers) N T).
Proof.
  intros Hlen HP. apply Forall_and. split.
  - apply Forall_lookup. intros i Ti Hi. pose proof (lookup_lt_Some _ _ _ Hi) as Hlt.
    rewrite length_unflatten in Hlt. rewrite unflatten_lookup in Hi by lia. injection Hi as <-.
    by apply Forall_take, Forall_drop.
  - apply unflatten_rows; nia.
Qed.

Lemma hierarchical_ok (weight : list (list W)) :
  weight ≠ [] → Forall (λ row, Z.of_nat (length row) = L) weight → m ≤ dn * ppg →
  ∃ phy2log rank logcnt,
    rebalance_experts_hierarchical fresh L weight (N * dn * ppg) (N * gpn) N (N * dn) =
      Ok (phy2log, rank, logcnt) ∧
    length phy2log = length weight ∧ length rank = length weight ∧ length logcnt = length weight ∧
    ∀ i p r c, phy2log !! i = Some p → rank !! i = Some r → logcnt !! i = Some c →
      layer_maps N gpn gs (dn * ppg) p r c.
Proof.
  intros Hne Hw Hle. destruct hierarchical_guards as (G1 & G2 & G3 & G4 & G5 & G6 & G7 & G8 & G9 & G10).
  assert (0 < m) as Hm by (unfold m; nia).
  destruct (nodes_ordered weight Hw) as
    (GI & GR & ML & tokens & Hbal & Hinv & Htok & Hil & Hrl & Hml & Hpk & Hrel & Htl & Htf).
  set (rows := concat ((λ row : list W, unflatten N m row) <$> tokens)).
  assert (Forall (λ row, Z.of_nat (length row) = m) rows ∧ length rows = (length weight * Z.to_nat N)%nat)
    as [Hrows Hrowl].
  { unfold rows. split.
    - apply Forall_concat, Forall_fmap. eapply Forall_impl; [exact Htf|]. intros row Hrow. cbn.
      apply unflatten_rows; [lia|lia|done].
    - rewrite (length_concat_uniform _ (Z.to_nat N)).
      + by rewrite length_fmap, Htl.
      + apply Forall_fmap, Forall_true. intros row. cbn. by rewrite length_unflatten. }
  destruct (nodes_packed m rows Hm Hle Hrows) as
    (PM & PR & MC & tpp & PI & RI & SP & QM & QR & E1 & E2 & E3 & E4 & E5 & E6 & L1 & L2 & L3 & Hok & Hsl).
  set (T := zip (zip QM QR) MC) in *.
  destruct (zip3_fmap QM QR MC) as (F1 & F2 & F3); [lia|lia|]. fold T in F1, F2, F3.
  destruct (regroup (length weight) T QM QR MC F1 F2 F3) as (R1 & R2 & R3).
  assert (length T = (length weight * Z.to_nat N)%nat) as HTl by (unfold T; rewrite !length_zip_with; lia).
  set (TT := unflatten (Z.of_nat (length weight)) N T) in *.
  destruct (layers_assembled (length weight) GI GR ML TT) as (PL & LC & HPL & HLC & HPLl & HLCl & Hmaps);
    try done.
  { unfold TT. rewrite length_unflatten. lia. }
  { pose proof (unflatten_nodes _ T _ HTl Hok) as U1. pose proof (unflatten_nodes _ T _ HTl Hsl) as U2.
    fold TT in U1, U2. rewrite Forall_forall in U1. rewrite Forall_forall in U2. apply Forall_forall.
    intros Ti HTi. destruct (U1 Ti HTi), (U2 Ti HTi). done. }
  exists PL, (node_ranks <$> TT), LC. split; [|split; [done|split; [|split; [done|done]]]].
  - unfold rebalance_experts_hierarchical. rewrite G1, G2, G3, G4, G5, G6, G7, G8, G9, G10. cbv zeta.
    rewrite !(proj2 (Z.leb_gt _ 0)) by nia. cbn [orb negb Z.eqb].
    rewrite Hbal. cbn [mbind result_bind]. rewrite Hinv. cbn [mbind result_bind].
    rewrite Htok. cbn [mbind result_bind]. rewrite (proj2 (Z.eqb_neq m 0)) by lia. fold rows.
    rewrite E1. cbn [mbind result_bind]. rewrite E2. cbn [mbind result_bind]. rewrite E3.
    cbn [mbind result_bind]. rewrite E4. cbn [mbind result_bind]. rewrite E5. cbn [mbind result_bind].
    rewrite (proj2 (Z.eqb_neq _ 0)) by (destruct weight; [done|cbn; lia]).
    rewrite R1. change (unflatten (Z.of_nat (length weight)) N T) with TT. rewrite HPL. cbn [mbind result_bind]. rewrite E6. cbn [mbind result_bind].
    rewrite R3. change (unflatten (Z.of_nat (length weight)) N T) with TT. rewrite HLC. cbn [mbind result_bind]. by rewrite R2.
  - unfold TT. rewrite length_fmap, length_unflatten. lia.
Qed.
End hierarchical.

(** ** The replica table *)

Section table.
Context (P L : Z) (phy2log rank logcnt : list Z) (Hrep : replicas phy2log rank logcnt).
Context (HP : Z.of_nat (length phy2log) = P) (HL : Z.of_nat (length logcnt) = L).

Lemma rep_slot s : (s < length phy2log)%nat → ∃ e r c,
  phy2log !! s = Some e ∧ rank !! s = Some r ∧ 0 ≤ e < L ∧ logcnt !! Z.to_nat e = Some c ∧ 0 ≤ r < c.
Proof.
  intros Hs. destruct (lookup_lt_is_Some_2 _ _ Hs) as [e He].
  destruct (lookup_lt_is_Some_2 rank s) as [r Hr]; [by rewrite <- (rep_length _ _ _ Hrep)|].
  assert ((e, r) ∈ zip phy2log rank) as Hin.
  { apply (list_elem_of_lookup_2 _ s). by rewrite lookup_zip_with, He, Hr. }
  apply (rep_elem _ _ _ Hrep) in Hin as (He0 & c & Hc & Hrc). exists e, r, c.
  pose proof (lookup_lt_Some _ _ _ Hc). split_and!; try done; lia.
Qed.

Lemma rep_inj s s' e r : phy2log !! s = Some e → rank !! s = Some r →
  phy2log !! s' = Some e → rank !! s' = Some r → s = s'.
Proof.
  intros H1 H2 H3 H4. apply (proj1 (NoDup_alt _) (rep_NoDup _ _ _ Hrep) s s' (e, r));
    by rewrite lookup_zip_with, ?H1, ?H2, ?H3, ?H4.
Qed.

Lemma rep_onto e r c : logcnt !! e = Some c → 0 ≤ r < c →
  ∃ s, phy2log !! s = Some (Z.of_nat e) ∧ rank !! s = Some r.
Proof.
  intros Hc Hr. assert ((Z.of_nat e, r) ∈ zip phy2log rank) as (s & Hs)%list_elem_of_lookup.
  { apply (rep_elem _ _ _ Hrep). split; [lia|]. rewrite Nat2Z.id. eauto. }
  exists s. rewrite lookup_zip_with in Hs. destruct (phy2log !! s), (rank !! s); simplify_eq/=. done.
Qed.

(** No expert has more replicas than the table is wide. *)
Lemma count_width e c : logcnt !! e = Some c → c ≤ P - L + 1.
Proof.
  intros Hc. pose proof (rep_sum _ _ _ Hrep) as Hsum. pose proof (rep_positive _ _ _ Hrep) as Hpos.
  pose proof (sumZ_insert id logcnt e c 1 Hc) as Hs. rewrite !list_fmap_id in Hs. unfold id in Hs.
  assert (1 * Z.of_nat (length (<[e := 1]> logcnt)) ≤ sumZ (<[e := 1]> logcnt)) as Hge.
  { apply sumZ_ge. by apply Forall_insert. }
  rewrite length_insert in Hge. lia.
Qed.

Context (maxc : Z) (Hmax : ∀ e c, logcnt !! e = Some c → c ≤ maxc) (Hmax0 : 0 ≤ maxc).

Lemma replica_row_spec :
  ∃ out, replica_row L maxc P phy2log rank = Ok out ∧ Z.of_nat (length out) = L * maxc ∧
    (∀ s e r, phy2log !! s = Some e → rank !! s = Some r →
       out !! Z.to_nat (e * maxc + r) = Some (Z.of_nat s)) ∧
    (∀ e c r, logcnt !! e = Some c → c ≤ r < maxc →
       out !! Z.to_nat (Z.of_nat e * maxc + r) = Some (-1)).
Proof.
  unfold replica_row. set (index := zip_with (λ e r, e * maxc + r) phy2log rank).
  assert (length index = length phy2log) as Hil.
  { unfold index. rewrite length_zip_with, (rep_length _ _ _ Hrep). lia. }
  assert (∀ s x, index !! s = Some x → ∃ e r c, phy2log !! s = Some e ∧ rank !! s = Some r ∧
    0 ≤ e < L ∧ logcnt !! Z.to_nat e = Some c ∧ 0 ≤ r < c ∧ c ≤ maxc ∧ x = e * maxc + r) as Hidx.
  { intros s x Hx. pose proof (lookup_lt_Some _ _ _ Hx) as Hs. rewrite Hil in Hs.
    destruct (rep_slot s Hs) as (e & r & c & He & Hr & ? & Hc & ?).
    unfold index in Hx. rewrite lookup_zip_with, He, Hr in Hx. simplify_eq/=.
    exists e, r, c. pose proof (Hmax _ _ Hc). done. }
  destruct (scatter_spec (replicate (Z.to_nat (L * maxc)) (-1)) index (seqZ 0 P))
    as (out & Hout & Hol & Hin & Hnin).
  { rewrite length_seqZ. lia. }
  { rewrite length_replicate. apply Forall_lookup. intros s x Hx.
    destruct (Hidx s x Hx) as (e & r & c & _ & _ & ? & _ & ? & ? & ->). nia. }
  { apply NoDup_alt. intros s s' x Hx Hx'.
    destruct (Hidx s x Hx) as (e & r & c & He & Hr & ? & _ & ? & ? & ->).
    destruct (Hidx s' _ Hx') as (e' & r' & c' & He' & Hr' & ? & _ & ? & ? & Heq).
    destruct (radix_inj maxc e e' r r') as [<- <-]; [lia|lia|done|]. by eapply rep_inj. }
  rewrite length_replicate in Hol. exists out. split; [done|]. split; [lia|]. split.
  - intros s e r He Hr. apply (Hin s); [unfold index; by rewrite lookup_zip_with, He, Hr|].
    apply lookup_seqZ. apply lookup_lt_Some in He. lia.
  - intros e c r Hc Hr. pose proof (lookup_lt_Some _ _ _ Hc).
    pose proof (Forall_lookup_1 _ _ _ _ (rep_positive _ _ _ Hrep) Hc) as Hc1. cbn in Hc1. rewrite Hnin.
    + apply lookup_replicate_2. nia.
    + intros (s & Hs)%list_elem_of_lookup.
      destruct (Hidx s _ Hs) as (e' & r' & c' & _ & _ & ? & Hc' & ? & ? & Heq).
      rewrite Z2Nat.id in Heq by nia.
      destruct (radix_inj maxc (Z.of_nat e) e' r r') as [<- <-]; [lia|lia|done|].
      rewrite Nat2Z.id in Hc'. simplify_eq. lia.
Qed.

(** One expert's row of the padded table: its slots, then [-1]. *)
Definition table_row (width : Z) (phy2log : list Z) (e : nat) (row : list Z) : Prop :=
  ∃ slots, row = slots ++ replicate (Z.to_nat width - length slots) (-1) ∧
    slots ≠ [] ∧ (length slots ≤ Z.to_nat width)%nat ∧ NoDup slots ∧
    ∀ s, s ∈ slots ↔ 0 ≤ s ∧ phy2log !! Z.to_nat s = Some (Z.of_nat e).

Lemma flat_row_slots out e c row width :
  replica_row L maxc P phy2log rank = Ok out → logcnt !! e = Some c →
  unflatten L maxc out !! e = Some row → maxc ≤ width →
  table_row width phy2log e (row ++ replicate (Z.to_nat (width - maxc)) (-1)).
Proof.
  intros Hout Hc Hrow Hw. destruct replica_row_spec as (out' & Hout' & Hol & Hin & Hpad).
  assert (out' = out) as -> by congruence. clear Hout'.
  pose proof (lookup_lt_Some _ _ _ Hc) as Hel. rewrite unflatten_lookup in Hrow by lia. injection Hrow as <-.
  pose proof (Hmax _ _ Hc) as Hcm. pose proof (Forall_lookup_1 _ _ _ _ (rep_positive _ _ _ Hrep) Hc) as Hc1.
  cbn in Hc1. set (row := take _ _). assert (length row = Z.to_nat maxc) as Hrl.
  { unfold row. rewrite length_take, length_drop. nia. }
  assert (∀ r, (r < Z.to_nat maxc)%nat → row !! r = out !! Z.to_nat (Z.of_nat e * maxc + Z.of_nat r)) as Hlk.
  { intros r Hr. unfold row. rewrite lookup_take_lt, lookup_drop by lia. f_equal. lia. }
  exists (take (Z.to_nat c) row). rewrite length_take, Nat.min_l by lia. split; [|split; [|split; [lia|split]]].
  - rewrite <- (take_drop (Z.to_nat c) row) at 1. rewrite <- app_assoc. f_equal.
    assert (drop (Z.to_nat c) row = replicate (Z.to_nat (maxc - c)) (-1)) as ->.
    { apply list_eq. intros k. destruct (decide (k < Z.to_nat (maxc - c))%nat) as [Hk|Hk].
      - rewrite lookup_replicate_2 by done. rewrite lookup_drop, Hlk by lia.
        rewrite <- (Hpad e c (c + Z.of_nat k)) by (done || lia). f_equal. lia.
      - rewrite !lookup_ge_None_2; [done| |]; rewrite ?length_replicate, ?length_drop; lia. }
    rewrite <- replicate_add. f_equal. lia.
  - intros Hnil. apply (f_equal length) in Hnil. rewrite length_take in Hnil. cbn in Hnil. lia.
  - apply NoDup_alt. intros i j s Hi Hj. pose proof (lookup_lt_Some _ _ _ Hi) as Hil.
    pose proof (lookup_lt_Some _ _ _ Hj) as Hjl. rewrite length_take in Hil, Hjl.
    rewrite lookup_take_lt, Hlk in Hi by lia. rewrite lookup_take_lt, Hlk in Hj by lia.
    destruct (rep_onto e (Z.of_nat i) c Hc) as (si & Hs1 & Hs2); [lia|].
    destruct (rep_onto e (Z.of_nat j) c Hc) as (sj & Hs3 & Hs4); [lia|].
    rewrite (Hin _ _ _ Hs1 Hs2) in Hi. rewrite (Hin _ _ _ Hs3 Hs4) in Hj. simplify_eq.
    done.
  - intros s. rewrite list_elem_of_lookup. split.
    + intros (i & Hi). pose proof (lookup_lt_Some _ _ _ Hi) as Hil. rewrite length_take in Hil.
      rewrite lookup_take_lt, Hlk in Hi by lia.
      destruct (rep_onto e (Z.of_nat i) c Hc) as (si & Hs1 & Hs2); [lia|].
      rewrite (Hin _ _ _ Hs1 Hs2) in Hi. injection Hi as <-. split; [lia|]. by rewrite Nat2Z.id.
    + intros [Hs0 Hs]. destruct (rep_slot (Z.to_nat s)) as (e' & r & c' & He' & Hr & ? & Hc' & Hrc).
      { by apply lookup_lt_Some in Hs. }
      rewrite Hs in He'. injection He' as <-. rewrite Nat2Z.id in Hc'. simplify_eq.
      exists (Z.to_nat r). rewrite lookup_take_lt, Hlk by lia.
      rewrite <- (Z2Nat.id s) at 1 by done. rewrite <- (Hin _ _ _ Hs Hr). f_equal. lia.
Qed.
End table.

(** ** The maps of all layers *)

Lemma max_count_greatest logcnt :
  concat logcnt ≠ [] → ∃ maxc, max_count logcnt = Ok maxc ∧ maxc ∈ concat logcnt ∧
    ∀ c, c ∈ concat logcnt → c ≤ maxc.
Proof.
  unfold max_count. destruct (concat logcnt) as [|c cs]; [done|]. intros _. eexists. split; [reflexivity|].
  revert c. induction cs as [|d cs IH]; intros c; cbn [foldl].
  - split; [set_solver|]. intros x ->%list_elem_of_singleton. lia.
  - destruct (IH (Z.max c d)) as [Hin Hle]. split.
    + rewrite !elem_of_cons in *. destruct Hin as [->|Hin]; [|auto].
      destruct (Z.max_spec c d) as [[_ ->]|[_ ->]]; auto.
    + intros x Hx. rewrite !elem_of_cons in Hx. destruct Hx as [->|[->|Hx]].
      * pose proof (Hle (Z.max c d) ltac:(set_solver)). lia.
      * pose proof (Hle (Z.max c d) ltac:(set_solver)). lia.
      * apply Hle. by right.
Qed.

Section maps.
Context {W : Type} `{Weight W} (fresh : nat → list Z) (Hfresh : ∀ n, length (fresh n) = n).

(** The layouts the algorithm accepts. *)
Definition divides (L P G N D : Z) : Prop :=
  0 < L ≤ P ∧ 0 < G ∧ L mod G = 0 ∧ 0 < N ∧ G mod N = 0 ∧ 0 < D ∧ D mod N = 0 ∧ P mod D = 0.

Lemma divides_eqs L P G N D : divides L P G N D → N * (G / N * (L / G)) = L ∧ N * (P / N) = P.
Proof.
  intros (HL & HG & HLG & HN & HGN & HD & HDN & HPD). split.
  - apply Z.mod_divide in HGN as [x ->]; [|lia]. apply Z.mod_divide in HLG as [y ->]; [|nia].
    rewrite Z.div_mul by lia. rewrite Z.div_mul by nia. nia.
  - apply Z.mod_divide in HDN as [x ->]; [|lia]. apply Z.mod_divide in HPD as [y ->]; [|nia].
    replace (y * (x * N)) with (y * x * N) by lia. rewrite Z.div_mul by lia. lia.
Qed.

Lemma hierarchical_maps L P G N D (weight : list (list W)) :
  divides L P G N D → weight ≠ [] → Forall (λ row, Z.of_nat (length row) = L) weight →
  ∃ phy2log rank logcnt,
    rebalance_experts_hierarchical fresh L weight P G N D = Ok (phy2log, rank, logcnt) ∧
    length phy2log = length weight ∧ length rank = length weight ∧ length logcnt = length weight ∧
    ∀ i p r c, phy2log !! i = Some p → rank !! i = Some r → logcnt !! i = Some c →
      layer_maps N (G / N) (L / G) (P / N) p r c.
Proof.
  intros (HL & HG & HLG & HN & HGN & HD & HDN & HPD) Hne Hw.
  apply Z.mod_divide in HLG as [gs HLG]; [|lia]. apply Z.mod_divide in HGN as [gpn HGN]; [|lia].
  apply Z.mod_divide in HDN as [dn HDN]; [|lia]. apply Z.mod_divide in HPD as [ppg HPD]; [|lia].
  assert (0 < gs ∧ 0 < gpn ∧ 0 < dn ∧ 0 < ppg) as (? & ? & ? & ?) by nia.
  assert (L = N * (gpn * gs)) as EL by nia. assert (G = N * gpn) as EG by nia.
  assert (D = N * dn) as ED by nia. assert (P = N * dn * ppg) as EP by nia.
  assert (G / N = gpn) as -> by (rewrite EG, Z.mul_comm; by apply Z.div_mul; lia).
  assert (L / G = gs) as -> by (rewrite HLG; apply Z.div_mul; lia).
  assert (P / N = dn * ppg) as ->.
  { rewrite EP. replace (N * dn * ppg) with (dn * ppg * N) by lia. apply Z.div_mul. lia. }
  rewrite EG, ED, EP, EL. rewrite EL in Hw. apply hierarchical_ok; try done. nia.
Qed.

(** What [rebalance_experts] returns for one layer: the slots' experts and, per
    expert, its slots before the padding. *)
Record layer_result (L P G N maxc : Z) (phy2log : list Z) (table : list (list Z)) : Prop := {
  lr_slots : Z.of_nat (length phy2log) = P;
  lr_range : Forall (λ e, 0 ≤ e < L) phy2log;
  lr_experts : Z.of_nat (length table) = L;
  lr_rows e row : table !! e = Some row → Z.of_nat (length row) = maxc ∧
    table_row (P - L + 1) phy2log e (row ++ replicate (Z.to_nat (P - L + 1 - maxc)) (-1));
  lr_nodes s s' e e' : phy2log !! s = Some e → phy2log !! s' = Some e' →
    e / (L / G) = e' / (L / G) → Z.of_nat s / (P / N) = Z.of_nat s' / (P / N);
}.

Lemma layer_result_intro L P G N D maxc p r c out :
  divides L P G N D → layer_maps N (G / N) (L / G) (P / N) p r c →
  replica_row L maxc P p r = Ok out → (∀ e x, c !! e = Some x → x ≤ maxc) → 0 ≤ maxc ≤ P - L + 1 →
  layer_result L P G N maxc p (unflatten L maxc out).
Proof.
  intros Hdiv [Hs He Hrep Hn] Hout Hmax Hw.
  destruct (divides_eqs _ _ _ _ _ Hdiv) as [EL EP]. destruct Hdiv as [HL _].
  assert (Z.of_nat (length p) = P) as HP by lia. assert (Z.of_nat (length c) = L) as HLc by lia.
  assert (length (unflatten L maxc out) = length c) as Hul by (rewrite length_unflatten; lia).
  split; [done| |lia| |done].
  - apply Forall_lookup. intros s e Hse. pose proof (lookup_lt_Some _ _ _ Hse) as Hlt.
    destruct (rep_slot L p r c Hrep HLc s Hlt) as (e' & _ & _ & ? & _ & ? & _). by simplify_eq.
  - intros e row Hrow. pose proof (lookup_lt_Some _ _ _ Hrow) as Hlt. rewrite Hul in Hlt.
    destruct (lookup_lt_is_Some_2 _ _ Hlt) as [x Hx]. split.
    + destruct (replica_row_spec P L p r c Hrep HP HLc maxc Hmax ltac:(lia)) as (out' & Ho & Hol & _).
      rewrite Hout in Ho. injection Ho as <-.
      pose proof (unflatten_rows L maxc out ltac:(lia) ltac:(lia) Hol) as Hr.
      by apply (Forall_lookup_1 _ _ _ _ Hr Hrow).
    + apply (flat_row_slots P L p r c Hrep HP HLc maxc Hmax ltac:(lia) out e x row); try done. lia.
Qed.

(** The counts of all layers bound the table. *)
Lemma max_count_bounds L P G N D (PL RK LC : list (list Z)) :
  divides L P G N D → (0 < length LC)%nat →
  (∀ i c, LC !! i = Some c → ∃ p r, PL !! i = Some p ∧ RK !! i = Some r ∧
     layer_maps N (G / N) (L / G) (P / N) p r c) →
  ∃ maxc, max_count LC = Ok maxc ∧ 1 ≤ maxc ≤ P - L + 1 ∧
    ∀ i c e x, LC !! i = Some c → c !! e = Some x → x ≤ maxc.
Proof.
  intros Hdiv Hpos Hlay. destruct (divides_eqs _ _ _ _ _ Hdiv) as [EL EP]. destruct Hdiv as [HL _].
  destruct (max_count_greatest LC) as (maxc & Hmax & Hin & Hle).
  { destruct (lookup_lt_is_Some_2 _ _ Hpos) as [c Hc]. destruct (Hlay _ _ Hc) as (p & r & _ & _ & Hlm).
    destruct c as [|x c]; [pose proof (lm_experts _ _ _ _ _ _ _ Hlm) as He; cbn in He; lia|].
    destruct LC; [done|]. cbn in Hc. simplify_eq. done. }
  exists maxc. split; [done|]. split.
  - apply elem_of_concat in Hin as (c & (i & Hc)%list_elem_of_lookup & Hx).
    apply list_elem_of_lookup in Hx as (e & Hx).
    destruct (Hlay _ _ Hc) as (p & r & _ & _ & [Hs He Hrep _]).
    pose proof (Forall_lookup_1 _ _ _ _ (rep_positive _ _ _ Hrep) Hx) as H1. cbn in H1.
    pose proof (count_width P L p r c Hrep ltac:(lia) ltac:(lia) e maxc Hx). lia.
  - intros i c e x Hc Hx. apply Hle, elem_of_concat. exists c.
    split; [by apply list_elem_of_lookup_2 in Hc|by apply list_elem_of_lookup_2 in Hx].
Qed.

Lemma mapM_all {A B} (f : A → result B) (l : list A) :
  (∀ x, x ∈ l → ∃ y, f x = Ok y) → ∃ out, mapM f l = Ok out ∧ Forall2 (λ x y, f x = Ok y) l out.
Proof.
  intros Hall. induction l as [|x l IH]; [by exists []|]. destruct IH as (out & Hout & Hf); [intros z Hz; apply Hall; by right|].
  destruct (Hall x) as (y & Hy); [by left|]. exists (y :: out). split; [cbn; rewrite Hy; cbn; by rewrite Hout|by constructor].
Qed.

Lemma rebalance_ok L P (groups : option Z) N D (hier : bool) (weight : list (list Z)) :
  let G := if hier then default 0 groups else 1 in
  let N' := if hier then N else 1 in
  (hier = true → is_Some groups) →
  divides L P G N' D → weight ≠ [] → Forall (λ row, Z.of_nat (length row) = L) weight →
  ∃ phy2log table logcnt maxc,
    rebalance_experts fresh L weight P groups N D hier = Ok (phy2log, table, logcnt) ∧
    1 ≤ maxc ≤ P - L + 1 ∧ length phy2log = length weight ∧ length table = length weight ∧
    ∀ i p t, phy2log !! i = Some p → table !! i = Some t → layer_result L P G N' maxc p t.
Proof.
  intros G N' Hgroups Hdiv Hne Hw.
  pose (w := ((λ row : list Z, (w_of_count : Z → W) <$> row) <$> weight) : list (list W)).
  assert (Forall (λ row, Z.of_nat (length row) = L) w) as Hw'.
  { apply Forall_fmap. eapply Forall_impl; [exact Hw|]. intros row Hrow. cbn. by rewrite length_fmap. }
  destruct (hierarchical_maps L P G N' D w Hdiv) as (PL & RK & LC & Hrun & Hl1 & Hl2 & Hl3 & Hmaps);
    [unfold w; by destruct weight|done|].
  unfold w in Hl1, Hl2, Hl3. rewrite length_fmap in Hl1, Hl2, Hl3.
  assert (0 < length weight)%nat as Hpos by (destruct weight; [done|cbn; lia]).
  destruct (max_count_bounds L P G N' D PL RK LC Hdiv) as (maxc & Hmax & Hmaxb & Hmaxle); [lia| |].
  { intros i c Hc. pose proof (lookup_lt_Some _ _ _ Hc).
    destruct (lookup_lt_is_Some_2 PL i) as [p Hp]; [lia|].
    destruct (lookup_lt_is_Some_2 RK i) as [r Hr]; [lia|]. exists p, r. eauto. }
  assert (∃ out, mapM (λ p : list Z * list Z, replica_row L maxc P p.1 p.2) (zip PL RK) = Ok out ∧
    Forall2 (λ p o, replica_row L maxc P p.1 p.2 = Ok o) (zip PL RK) out) as (out & Hout & Hrows).
  { assert (∀ pr, pr ∈ zip PL RK → ∃ o, replica_row L maxc P pr.1 pr.2 = Ok o) as Hall.
    { intros pr (i & Hi)%list_elem_of_lookup. rewrite lookup_zip_with in Hi.
      destruct (PL !! i) as [p|] eqn:Hp, (RK !! i) as [r|] eqn:Hr; simplify_eq/=.
      pose proof (lookup_lt_Some _ _ _ Hp). destruct (lookup_lt_is_Some_2 LC i) as [c Hc]; [lia|].
      destruct (divides_eqs _ _ _ _ _ Hdiv) as [EL EP].
      destruct (Hmaps i p r c Hp Hr Hc) as [Hs He Hrep _].
      destruct (replica_row_spec P L p r c Hrep ltac:(lia) ltac:(lia) maxc) as (o & Ho & _);
        [intros e x Hx; by eapply Hmaxle|lia|by exists o]. }
    by apply mapM_all. }
  exists PL, ((λ row : list Z, unflatten L maxc row) <$> out), LC, maxc.
  pose proof (Forall2_length _ _ _ Hrows) as Hol. rewrite length_zip_with in Hol.
  split; [|split; [done|split; [done|split; [rewrite length_fmap; lia|]]]].
  - unfold rebalance_experts. cbv zeta. unfold G, N', w in Hrun. destruct hier.
    + destruct (Hgroups eq_refl) as [g ->]. cbn [lookup_or mbind result_bind default from_option id] in *.
      rewrite Hrun. cbn [mbind result_bind]. rewrite Hmax. cbn [mbind result_bind]. by rewrite Hout.
    + rewrite Hrun. cbn [mbind result_bind]. rewrite Hmax. cbn [mbind result_bind]. by rewrite Hout.
  - intros i p t Hp. rewrite list_lookup_fmap. intros Ht.
    destruct (out !! i) as [o|] eqn:Ho; simplify_eq/=.
    destruct (Forall2_lookup_r _ _ _ _ _ Hrows Ho) as (pr & Hpr & Hro). rewrite lookup_zip_with, Hp in Hpr.
    destruct (RK !! i) as [r|] eqn:Hr; simplify_eq/=. pose proof (lookup_lt_Some _ _ _ Hp).
    destruct (lookup_lt_is_Some_2 LC i) as [c Hc]; [lia|].
    apply (layer_result_intro L P G N' D maxc p r c o); try done; [by eapply Hmaps| |lia].
    intros e x Hx. by eapply Hmaxle.
Qed.

(** ** The padded maps *)

(** The maps of one layer as the dispatcher reads them. *)
Record placement (L P G N : Z) (phy2log : list Z) (table : list (list Z)) : Prop := {
  pl_slots : Z.of_nat (length phy2log) = P;
  pl_range : Forall (λ e, 0 ≤ e < L) phy2log;
  pl_experts : Z.of_nat (length table) = L;
  pl_rows e row : table !! e = Some row →
    Z.of_nat (length row) = P - L + 1 ∧ table_row (P - L + 1) phy2log e row;
  pl_nodes s s' e e' : phy2log !! s = Some e → phy2log !! s' = Some e' →
    e / (L / G) = e' / (L / G) → Z.of_nat s / (P / N) = Z.of_nat s' / (P / N);
}.

Lemma to_int32_id z : -1 ≤ z < 2 ^ 31 → to_int32 z = z.
Proof. intros Hz. unfold to_int32. rewrite Z.mod_small; lia. Qed.

Lemma int32_row_id (row : list Z) : Forall (λ z, -1 ≤ z < 2 ^ 31) row → to_int32 <$> row = row.
Proof. induction 1 as [|z row Hz Hrow IH]; [done|]. rewrite fmap_cons, IH, to_int32_id by done. done. Qed.

Lemma table_row_range width phy2log e row P :
  table_row width phy2log e row → Z.of_nat (length phy2log) = P → P ≤ 2 ^ 31 →
  Forall (λ z, -1 ≤ z < 2 ^ 31) row.
Proof.
  intros (slots & -> & _ & _ & _ & Hin) HP Hb. apply Forall_app. split.
  - apply Forall_forall. intros s [Hs0 Hs]%Hin. apply lookup_lt_Some in Hs. lia.
  - apply Forall_replicate. lia.
Qed.

Lemma length_table_row width phy2log e row :
  0 ≤ width → table_row width phy2log e row → Z.of_nat (length row) = width.
Proof. intros Hw (slots & -> & _ & Hle & _). rewrite length_app, length_replicate. lia. Qed.

(** Padding one layer. *)
Lemma pad_placement L P G N maxc p t :
  layer_result L P G N maxc p t → 0 < L ≤ P → P ≤ 2 ^ 31 → maxc ≤ P - L + 1 →
  ∃ t', pad_replica_table maxc t (P - L + 1) = Ok t' ∧ placement L P G N p t'.
Proof.
  intros [Hs Hr He Hrows Hn] HL HP Hw. unfold pad_replica_table.
  rewrite (proj2 (Z.ltb_ge _ maxc)) by lia.
  pose (padded := (λ row : list Z, row ++ replicate (Z.to_nat (P - L + 1 - maxc)) (-1)) <$> t).
  assert ((if maxc <? P - L + 1
           then Ok ((λ row : list Z, row ++ replicate (Z.to_nat (P - L + 1 - maxc)) (-1)) <$> t)
           else Ok t) = Ok padded) as ->.
  { case_match eqn:E; [done|]. apply Z.ltb_ge in E. f_equal. unfold padded.
    assert (P - L + 1 - maxc = 0) as -> by lia. rewrite <- (list_fmap_id t) at 1.
    apply list_fmap_ext. intros k x _. by rewrite app_nil_r. }
  cbn [mbind result_bind].
  assert (∀ e row, padded !! e = Some row → table_row (P - L + 1) p e row) as Hpad.
  { intros e row. unfold padded. rewrite list_lookup_fmap. destruct (t !! e) as [x|] eqn:Hx; [|done].
    intros [= <-]. by apply Hrows. }
  assert (int32_rows padded = padded) as ->.
  { unfold int32_rows. apply list_eq. intros e. rewrite list_lookup_fmap.
    destruct (padded !! e) as [row|] eqn:Hrow; [|done]. cbn. f_equal. apply int32_row_id.
    by eapply table_row_range; [apply (Hpad e)|done|done]. }
  exists padded. split; [done|]. split; try done.
  - unfold padded. by rewrite length_fmap.
  - intros e row Hrow%Hpad. split; [|done]. apply (length_table_row _ p e); [lia|done].
Qed.

Lemma sum_one_window L (rows : list (list Z)) :
  Forall (λ row, Z.of_nat (length row) = L) rows →
  sum_windows (Z.of_nat (length rows)) L [rows] = rows.
Proof.
  intros Hrows. unfold sum_windows. cbn [foldl]. rewrite Nat2Z.id.
  induction Hrows as [|row rows Hrow Hrows IH]; [done|]. cbn. f_equal; [|done].
  subst L. rewrite Nat2Z.id. clear. induction row as [|x row IH]; [done|]. cbn. by f_equal.
Qed.

(** The layouts [compute_placement_maps] accepts. *)
Definition accepts (L P ep : Z) (groups : option Z) (N : Z) (algorithm : EplbAlgorithm) : Prop :=
  0 < L ≤ P ∧ 0 < ep ∧ P mod ep = 0 ∧
  (algorithm = deepseek_hierarchical →
   ∃ G, groups = Some G ∧ 0 < G ∧ L mod G = 0 ∧ 0 < N ∧ G mod N = 0 ∧ ep mod N = 0).

Definition group_count (groups : option Z) (algorithm : EplbAlgorithm) : Z :=
  match algorithm with deepseek => 1 | deepseek_hierarchical => default 0 groups end.
Definition node_count (N : Z) (algorithm : EplbAlgorithm) : Z :=
  match algorithm with deepseek => 1 | deepseek_hierarchical => N end.

Lemma devices_of_ranks P ep : 0 < ep → 0 < P → P mod ep = 0 → P / (P / ep) = ep ∧ P / ep ≠ 0.
Proof.
  intros Hep HP Hm. apply Z.mod_divide in Hm as [x ->]; [|lia]. rewrite Z.div_mul by lia.
  assert (0 < x) by nia. split; [|lia]. rewrite Z.mul_comm. apply Z.div_mul. lia.
Qed.

Lemma accepts_divides L P ep groups N algorithm :
  accepts L P ep groups N algorithm →
  divides L P (group_count groups algorithm) (node_count N algorithm) ep ∧
  (bool_decide (algorithm = deepseek_hierarchical) = true → is_Some groups).
Proof.
  intros (HL & Hep & HP & Hh). destruct algorithm.
  - split; [|done]. unfold divides; cbn. rewrite !Z.mod_1_r. split_and!; try done; lia.
  - destruct (Hh eq_refl) as (G & -> & ? & ? & ? & ? & ?). split; [|done]. unfold divides; cbn.
    split_and!; try done; lia.
Qed.

End maps.

(** ** Theorems *)

(** C30: On a host load of accepted shape [compute_placement_maps] returns, for every
    layer, a map of all slots to experts and a replica table of fixed width whose
    rows list exactly the slots of their expert, at least one, before the padding;
    the experts of a group are all on one node.  Loads may be any numbers. *)
Theorem placement_maps_correct {W} `{Weight W} fresh L P ep groups N algorithm
    (logical_count : list (list Z)) :
  (∀ n, length (fresh n) = n) →
  accepts L P ep groups N algorithm → P ≤ 2 ^ 31 →
  logical_count ≠ [] → Forall (λ row, Z.of_nat (length row) = L) logical_count →
  ∃ phy2log table,
    compute_placement_maps fresh true 2 L logical_count P ep groups N algorithm =
      Ok (phy2log, table) ∧
    length phy2log = length logical_count ∧ length table = length logical_count ∧
    ∀ i p t, phy2log !! i = Some p → table !! i = Some t →
      placement L P (group_count groups algorithm) (node_count N algorithm) p t.
Proof.
  intros Hfresh Hacc HP31 Hne Hrows. pose proof Hacc as (HL & Hep & HPep & _).
  destruct (accepts_divides _ _ _ _ _ _ Hacc) as [Hdiv Hgroups].
  destruct (devices_of_ranks P ep) as [ED ED0]; [lia|lia|done|].
  destruct (rebalance_ok fresh Hfresh L P groups N ep (bool_decide (algorithm = deepseek_hierarchical))
              logical_count) as (PL & TB & LC & maxc & Hrun & Hmaxc & Hl1 & Hl2 & Hlay); try done.
  { by destruct algorithm. }
  assert (∀ i p t, PL !! i = Some p → TB !! i = Some t →
    layer_result L P (group_count groups algorithm) (node_count N algorithm) maxc p t) as Hres.
  { intros i p t Hp Ht. specialize (Hlay i p t Hp Ht). by destruct algorithm. }
  assert (∃ TB', mapM (λ layer, pad_replica_table maxc layer (P - L + 1)) TB = Ok TB' ∧
    length TB' = length TB ∧ ∀ i p t, PL !! i = Some p → TB' !! i = Some t →
      placement L P (group_count groups algorithm) (node_count N algorithm) p t) as (TB' & Hpad & Hpl & Hplc).
  { clear Hlay Hrun. assert (length PL = length TB) as Hlen by congruence. clear Hl1 Hl2.
    revert PL Hlen Hres. induction TB as [|t TB IH]; intros [|p PL] Hlen Hres; try done.
    { exists []. split; [done|]. split; [done|]. by intros []. }
    destruct (IH PL) as (TB' & HTB' & HTl & HTp); [by injection Hlen|intros i; apply (Hres (S i))|].
    destruct (pad_placement _ _ _ _ _ _ _ (Hres 0%nat p t eq_refl eq_refl) HL HP31 ltac:(lia)) as (t' & Ht' & Hp').
    exists (t' :: TB'). cbn -[pad_replica_table]. rewrite Ht'. cbn -[pad_replica_table]. rewrite HTB'.
    split; [done|]. split; [cbn; by f_equal|].
    intros [|i] q u Hq Hu; simplify_eq/=; [done|by apply (HTp i)]. }
  assert (columns TB = maxc) as Hcols.
  { destruct TB as [|t TB]; [by destruct logical_count|]. destruct PL as [|p PL]; [by destruct logical_count|].
    destruct (Hres 0%nat p t eq_refl eq_refl) as [_ _ He Hr _].
    destruct t as [|row t]; [cbn in He; lia|]. by destruct (Hr 0%nat row eq_refl). }
  assert (int32_rows PL = PL) as HPL.
  { unfold int32_rows. apply list_eq. intros i. rewrite list_lookup_fmap.
    destruct (PL !! i) as [p|] eqn:Hp; [|done]. cbn. f_equal. apply int32_row_id.
    destruct (lookup_lt_is_Some_2 TB i) as [t Ht]; [apply lookup_lt_Some in Hp; lia|].
    eapply Forall_impl; [apply (lr_range _ _ _ _ _ _ _ (Hres i p t Hp Ht))|]. cbn; intros; lia. }
  exists PL, TB'. split; [|split; [done|split; [congruence|done]]].
  unfold compute_placement_maps. cbn [negb Z.eqb Pos.eqb].
  rewrite (proj2 (Z.leb_gt _ _)), HPep by lia. cbn [orb negb Z.eqb].
  unfold rebalance. rewrite (proj2 (Z.eqb_neq _ 0)) by done. rewrite ED, sum_one_window by done.
  rewrite Hrun. cbn [mbind result_bind]. unfold replica_table_width.
  rewrite (proj2 (Z.ltb_ge _ _)) by lia. cbn [mbind result_bind]. rewrite Hcols, Hpad.
  cbn [mbind result_bind]. by rewrite HPL.
Qed.

(** A call that returns had a host tensor of two dimensions, at least one layer and
    an accepted layout: every other call raises. *)
Theorem placement_maps_accepts {W} `{Weight W} fresh on_cpu ndim L P ep groups N algorithm
    (logical_count : list (list Z)) maps :
  0 ≤ L → Forall (λ row, Z.of_nat (length row) = L) logical_count →
  compute_placement_maps fresh on_cpu ndim L logical_count P ep groups N algorithm = Ok maps →
  on_cpu = true ∧ ndim = 2 ∧ logical_count ≠ [] ∧ accepts L P ep groups N algorithm.
Proof.
  intros HL Hrows Hrun. unfold compute_placement_maps in Hrun.
  destruct on_cpu; [|done]. cbn [negb] in Hrun.
  destruct (Z.eqb_spec ndim 2) as [->|]; [|done]. cbn [negb] in Hrun.
  destruct ((ep <=? 0) || negb (P mod ep =? 0)) eqn:Hep; [done|].
  apply orb_false_iff in Hep as [Hep%Z.leb_gt HPep%negb_false_iff%Z.eqb_eq].
  apply bind_Ok in Hrun as ([[PL TB] LC] & Hreb & _). unfold rebalance in Hreb.
  destruct (Z.eqb_spec (P / ep) 0) as [|Hlocal]; [done|]. unfold rebalance_experts in Hreb. cbv zeta in Hreb.
  apply bind_Ok in Hreb as ([[a b] c] & Hh & _).
  assert (P / (P / ep) = ep) as ED.
  { apply Z.mod_divide in HPep as [x ->]; [|lia]. rewrite Z.div_mul in Hlocal |- * by lia.
    rewrite Z.mul_comm. apply Z.div_mul. done. }
  rewrite ED, sum_one_window in Hh by done.
  assert (∃ G N', (algorithm = deepseek_hierarchical → groups = Some G ∧ N' = N) ∧
    rebalance_experts_hierarchical fresh L ((λ row : list Z, (w_of_count : Z → W) <$> row) <$> logical_count)
      P G N' ep = Ok (a, b, c)) as (G & N' & Halg & Hh').
  { destruct algorithm; cbn in Hh; [by exists 1, 1|].
    destruct groups as [G|]; [|done]. cbn in Hh. by exists G, N. }
  clear Hh. unfold rebalance_experts_hierarchical in Hh'. cbv zeta in Hh'. rewrite length_fmap in Hh'.
  destruct ((G <=? 0) || negb (L mod G =? 0)) eqn:H1; [done|].
  apply orb_false_iff in H1 as [HG%Z.leb_gt HLG%negb_false_iff%Z.eqb_eq].
  destruct ((N' <=? 0) || negb (G mod N' =? 0)) eqn:H2; [done|].
  apply orb_false_iff in H2 as [HN%Z.leb_gt HGN%negb_false_iff%Z.eqb_eq].
  destruct ((ep <=? 0) || negb (ep mod N' =? 0)) eqn:H3; [done|].
  apply orb_false_iff in H3 as [_ HeN%negb_false_iff%Z.eqb_eq].
  rewrite HPep in Hh'. cbn [negb Z.eqb] in Hh'.
  apply bind_Ok in Hh' as ([gi gr] & _ & Hh'). apply bind_Ok in Hh' as (ml & _ & Hh').
  apply bind_Ok in Hh' as (tk & _ & Hh'). destruct (Z.eqb_spec (L / N') 0) as [|Hpn]; [done|].
  apply bind_Ok in Hh' as ([[pm pr] mc] & Hrep & Hh'). unfold replicate_experts in Hrep. cbv zeta in Hrep.
  destruct (Z.ltb_spec (P / N' - L / N') 0) as [|Hpl]; [done|].
  do 4 (apply bind_Ok in Hh' as (? & _ & Hh'); repeat case_match; try done).
  split; [done|]. split; [done|]. split; [by intros ->|].
  assert (L mod N' = 0 ∧ P mod N' = 0) as [HLN HPN].
  { split; apply Z.mod_divide; try lia.
    - transitivity G; by apply Z.mod_divide; try lia.
    - transitivity ep; by apply Z.mod_divide; try lia. }
  pose proof (Z.div_mod L N' ltac:(lia)). pose proof (Z.div_mod P N' ltac:(lia)).
  assert (0 ≤ L / N') by (apply Z.div_pos; lia).
  split; [nia|]. split; [done|]. split; [done|].
  intros Ha. destruct (Halg Ha) as [-> ->]. by exists G.
Qed.

(** ** Doubles *)

(** The loads as the code has them; a row is summed from its first element on. *)
#[export] Instance double_weight : Weight spec_float := {|
  w_zero := S754_zero false;
  w_of_count := count_as_double;
  w_sum := foldl (SFadd float_prec float_emax) (S754_zero false);
  w_add := SFadd float_prec float_emax;
  w_div := div_count;
  w_ltb := float_lt;
|}.

(** ** Replication minimises the largest load *)

Definition at_most (a b : spec_float) : Prop := is_nan a = false ∧ is_nan b = false ∧ float_lt b a = false.

Lemma at_most_refl a : is_nan a = false → at_most a a.
Proof. intros Ha. split_and!; [done..|]. by destruct (float_lt_total a a Ha Ha). Qed.

Lemma at_most_trans a b c : at_most a b → at_most b c → at_most a c.
Proof. intros (Ha & Hb & Hab) (_ & Hc & Hbc). split_and!; [done..|]. by apply (float_not_lt_trans a b c). Qed.

Lemma foldl_max_spec (x : Z * spec_float) items :
  Forall (λ y : Z * spec_float, is_nan y.2 = false) (x :: items) →
  let m := foldl (λ best y : Z * spec_float, if w_ltb best.2 y.2 then y else best) x items in
  ∀ y, y ∈ x :: items → at_most y.2 m.2.
Proof.
  cbv zeta. revert x. induction items as [|z items IH]; intros x Hall y Hy; cbn [foldl].
  - apply list_elem_of_singleton in Hy as ->. apply Forall_inv in Hall. by apply at_most_refl.
  - apply Forall_cons in Hall as [Hx Hall]. pose proof Hall as [Hz Hrest]%Forall_cons.
    assert (∀ u, u = x ∨ u = z → at_most u.2 (if w_ltb x.2 z.2 then z else x).2) as Hu.
    { intros u Hu. cbn [w_ltb double_weight]. destruct (float_lt x.2 z.2) eqn:E.
      - destruct Hu as [->| ->]; [|by apply at_most_refl]. split_and!; [done..|].
        destruct (float_lt_total x.2 z.2 Hx Hz) as [|]; [congruence|done].
      - destruct Hu as [->| ->]; [by apply at_most_refl|]. by split_and!. }
    assert (Forall (λ y : Z * spec_float, is_nan y.2 = false) ((if w_ltb x.2 z.2 then z else x) :: items)) as Hall'.
    { apply Forall_cons. split; [by case_match|done]. }
    rewrite !elem_of_cons in Hy.
    assert (y = x ∨ y = z ∨ y ∈ items) as [Hy'|[Hy'|Hy']] by tauto.
    + eapply at_most_trans; [apply (Hu y); by left|]. apply IH; [done|]. by left.
    + eapply at_most_trans; [apply (Hu y); by right|]. apply IH; [done|]. by left.
    + apply IH; [done|]. by right.
Qed.

Lemma argmax_max (row : list spec_float) i :
  Forall (λ w, is_nan w = false) row → argmax row = Some i →
  ∃ w, row !! Z.to_nat i = Some w ∧ ∀ j v, row !! j = Some v → at_most v w.
Proof.
  intros Hnan. unfold argmax. destruct (enumerate row) as [|x items] eqn:He; [done|]. intros [= <-].
  pose proof (foldl_max_spec x items) as Hmax. cbv zeta in Hmax.
  match goal with |- context [foldl ?f x items] => set (m := foldl f x items) in * end.
  assert (m ∈ enumerate row) as (k & Hk)%list_elem_of_lookup.
  { rewrite He. apply foldl_pick. intros a b. case_match; auto. }
  rewrite enumerate_lookup in Hk. destruct (row !! k) as [w|] eqn:Hw; [|done]. injection Hk as Hk.
  exists w. rewrite <- Hk. cbn [fst]. rewrite Nat2Z.id. split; [done|]. intros j v Hv.
  assert ((Z.of_nat j, v) ∈ x :: items) as Hin.
  { rewrite <- He. apply (list_elem_of_lookup_2 _ j). by rewrite enumerate_lookup, Hv. }
  assert (Forall (λ y : Z * spec_float, is_nan y.2 = false) (x :: items)) as Hall.
  { rewrite <- He. apply Forall_lookup. intros l y. rewrite enumerate_lookup. destruct (row !! l) eqn:Hl; [|done].
    intros [= <-]. by apply (Forall_lookup_1 _ _ _ _ Hnan Hl). }
  specialize (Hmax Hall _ Hin). change (at_most v m.2) in Hmax. by rewrite <- Hk in Hmax.
Qed.

Section optimal.
Context (row : list spec_float) (Hload : Forall (λ w, is_load w = true) row).

(** More replicas never raise the load of one of them. *)
Lemma load_antitone e w c d : row !! e = Some w → 1 ≤ c ≤ d → at_most (w_div w d) (w_div w c).
Proof.
  intros Hw Hcd. pose proof (Forall_lookup_1 _ _ _ _ Hload Hw) as Hl. cbn in Hl.
  split_and!; [apply div_count_not_nan; [done|lia]..|by apply div_count_mono].
Qed.

(** No load exceeds that of any replicated expert with one replica less. *)
Definition greedy (cnt : list Z) : Prop :=
  ∀ e w c f v d, row !! e = Some w → cnt !! e = Some c → row !! f = Some v → cnt !! f = Some d →
    2 ≤ d → at_most (w_div w c) (w_div v (d - 1)).

Lemma greedy_step p2l rank cnt i p2l' rank' cnt' :
  greedy cnt → Forall (Z.le 1) cnt → replicate_step row (p2l, rank, cnt) i = Ok (p2l', rank', cnt') →
  greedy cnt' ∧ Forall (Z.le 1) cnt'.
Proof.
  intros Hg Hpos. unfold replicate_step. intros (k & Hk%lookup_or_Ok & Heq)%bind_Ok. cbv zeta in Heq.
  injection Heq as _ _ <-. apply argmax_max in Hk as (m & Hm & Hmax).
  2:{ apply Forall_lookup. intros j x. rewrite lookup_zip_with. destruct (row !! j) as [w|] eqn:Hw; [|done].
      destruct (cnt !! j) as [c|] eqn:Hc; [|done]. cbn. intros [= <-]. apply div_count_not_nan;
        [by apply (Forall_lookup_1 _ _ _ _ Hload Hw)|by apply (Forall_lookup_1 _ _ _ _ Hpos Hc)]. }
  rewrite lookup_zip_with in Hm. destruct (row !! Z.to_nat k) as [wk|] eqn:Hwk; [|done].
  destruct (cnt !! Z.to_nat k) as [ck|] eqn:Hck; [|done]. cbn [mbind option_bind from_option id] in Hm |- *. injection Hm as <-.
  pose proof (Forall_lookup_1 _ _ _ _ Hpos Hck) as Hck1. pose proof (lookup_lt_Some _ _ _ Hck) as Hlt.
  assert (∀ e w c, row !! e = Some w → cnt !! e = Some c → at_most (w_div w c) (w_div wk ck)) as Hmx.
  { intros e w c Hw Hc. apply (Hmax e). by rewrite lookup_zip_with, Hw, Hc. }
  assert (∀ e w c, row !! e = Some w → <[Z.to_nat k := ck + 1]> cnt !! e = Some c →
    ∃ c0, cnt !! e = Some c0 ∧ 1 ≤ c0 ≤ c ∧ at_most (w_div w c) (w_div w c0)) as Hold.
  { intros e w c Hw Hc. destruct (decide (e = Z.to_nat k)) as [->|Hne].
    - rewrite list_lookup_insert_eq in Hc by done. injection Hc as <-. exists ck.
      split; [done|]. split; [lia|]. eapply load_antitone; [done|lia].
    - rewrite list_lookup_insert_ne in Hc by done. exists c.
      pose proof (Forall_lookup_1 _ _ _ _ Hpos Hc). split; [done|]. split; [lia|]. eapply load_antitone; [done|lia]. }
  split; [|apply Forall_insert; [done|lia]].
  intros e w c f v d Hw Hc Hv Hd Hd2. destruct (Hold e w c Hw Hc) as (c0 & Hc0 & _ & Hle).
  destruct (decide (f = Z.to_nat k)) as [->|Hne].
  - rewrite list_lookup_insert_eq in Hd by done. injection Hd as <-. rewrite Hwk in Hv. injection Hv as <-.
    replace (ck + 1 - 1) with ck by lia. eapply at_most_trans; [exact Hle|]. by apply (Hmx e).
  - rewrite list_lookup_insert_ne in Hd by done.
    eapply at_most_trans; [exact Hle|]. by apply (Hg e w c0 f v d).
Qed.

Lemma greedy_row num_log num_phy p2l rank cnt :
  replicate_row num_log num_phy row = Ok (p2l, rank, cnt) → greedy cnt ∧ Forall (Z.le 1) cnt.
Proof.
  unfold replicate_row. intros Hrun.
  apply (foldM_ind (λ _ s, greedy s.2 ∧ Forall (Z.le 1) s.2)) in Hrun; [done| |].
  - split; [|apply Forall_replicate; lia]. intros e w c f v d _ _ _ Hd. cbn in Hd.
    apply lookup_replicate in Hd as [-> _]. lia.
  - intros visited x rest [[a b] c] [[a' b'] c'] _ [Hg Hp] Hs. by eapply greedy_step.
Qed.
End optimal.

Lemma sumZ_le_pointwise (a b : list Z) :
  length a = length b → (∀ i x y, a !! i = Some x → b !! i = Some y → x ≤ y) → sumZ a ≤ sumZ b.
Proof.
  revert b. induction a as [|x a IH]; intros [|y b] Hlen Hle; try done. rewrite !sumZ_cons.
  pose proof (Hle 0%nat x y eq_refl eq_refl). specialize (IH b).
  assert (sumZ a ≤ sumZ b); [|lia]. apply IH; [by injection Hlen|]. intros i. apply (Hle (S i)).
Qed.

(** Equal sums: a larger entry is paid for by a smaller one. *)
Lemma sumZ_exchange (a b : list Z) e x y :
  length a = length b → sumZ a = sumZ b → a !! e = Some x → b !! e = Some y → x < y →
  ∃ f u v, a !! f = Some u ∧ b !! f = Some v ∧ v < u.
Proof.
  intros Hlen Hsum Ha Hb Hxy.
  destruct (decide (Exists (λ uv : Z * Z, uv.2 < uv.1) (zip a b))) as [Hex|Hnex].
  - apply Exists_exists in Hex as ([u v] & (f & Hf)%list_elem_of_lookup & Hlt). exists f, u, v.
    rewrite lookup_zip_with in Hf. destruct (a !! f), (b !! f); simplify_eq/=. done.
  - exfalso. assert (∀ i u v, a !! i = Some u → b !! i = Some v → u ≤ v) as Hle.
    { intros i u v Hu Hv. destruct (decide (v < u)) as [Hlt|]; [|lia]. exfalso. apply Hnex, Exists_exists.
      exists (u, v). split; [|done]. apply (list_elem_of_lookup_2 _ i). by rewrite lookup_zip_with, Hu, Hv. }
    pose proof (sumZ_insert id b e y x Hb) as Hs. rewrite !list_fmap_id in Hs. unfold id in Hs.
    assert (sumZ a ≤ sumZ (<[e := x]> b)); [|lia]. apply sumZ_le_pointwise; [by rewrite length_insert|].
    intros i u v Hu Hv. destruct (decide (i = e)) as [->|Hne].
    + rewrite list_lookup_insert_eq in Hv by (by apply lookup_lt_Some in Hb). simplify_eq. done.
    + rewrite list_lookup_insert_ne in Hv by done. by eapply Hle.
Qed.
(** C31: On loads that are finite doubles and not negative, the loop of [replicate_experts]
    minimises the largest load of a replica, as computed in doubles: it gives every expert
    at least one replica and [num_phy] in all, and against any other way to do so, no
    expert's load divided by its replicas is greater than the largest one there. *)
Theorem replication_minimises_load num_log num_phy (row : list spec_float) :
  0 < num_log ≤ num_phy → Z.of_nat (length row) = num_log → Forall (λ w, is_load w = true) row →
  ∃ p2l rank cnt, replicate_row num_log num_phy row = Ok (p2l, rank, cnt) ∧
    length cnt = length row ∧ Forall (Z.le 1) cnt ∧ sumZ cnt = num_phy ∧
    ∀ other, length other = length row → Forall (Z.le 1) other → sumZ other = num_phy →
      ∀ e w c, row !! e = Some w → cnt !! e = Some c →
        ∃ f v d, row !! f = Some v ∧ other !! f = Some d ∧ at_most (w_div w c) (w_div v d).
Proof.
  intros Hnum Hrow Hload.
  destruct (replicate_row_spec row num_log num_phy Hrow ltac:(lia) ltac:(lia))
    as (p2l & rank & cnt & Hrun & Hl1 & _ & Hl3 & Hrep).
  destruct (greedy_row row Hload _ _ _ _ _ Hrun) as [Hg Hpos].
  assert (sumZ cnt = num_phy) as Hsum by (rewrite (rep_sum _ _ _ Hrep); lia).
  exists p2l, rank, cnt. split; [done|]. split; [lia|]. split; [done|]. split; [done|].
  intros other Hol Hopos Hosum e w c Hw Hc. destruct (lookup_lt_is_Some_2 other e) as [d Hd].
  { rewrite Hol. by apply lookup_lt_Some in Hw. }
  pose proof (Forall_lookup_1 _ _ _ _ Hopos Hd) as Hd1.
  destruct (decide (d ≤ c)) as [Hle|Hgt].
  - exists e, w, d. split; [done|]. split; [done|]. eapply load_antitone; [done|done|lia].
  - destruct (sumZ_exchange cnt other e c d) as (f & u & v & Hu & Hv & Hlt); [lia|lia|done|done|lia|].
    destruct (lookup_lt_is_Some_2 row f) as [x Hx]; [apply lookup_lt_Some in Hv; lia|].
    pose proof (Forall_lookup_1 _ _ _ _ Hopos Hv) as Hv1.
    exists f, x, v. split; [done|]. split; [done|].
    eapply at_most_trans; [by apply (Hg e w c f x u); try done; lia|]. eapply load_antitone; [done|done|lia].
Qed.

(** ** Concrete loads *)

Definition example_fresh (n : nat) : list Z := replicate n (-7).

(** Four groups of two experts on two nodes of two devices. *)
Definition example_load : list (list Z) := [[5; 1; 9; 3; 2; 2; 8; 7]; [0; 0; 0; 0; 0; 0; 0; 1]].

Lemma placement_maps_correct_witness :
  ∃ phy2log table,
    compute_placement_maps (W := spec_float) example_fresh true 2 8 example_load 12 4 (Some 4) 2
      deepseek_hierarchical = Ok (phy2log, table) ∧
    length table = 2%nat.
Proof.
  destruct (placement_maps_correct (W := spec_float) example_fresh 8 12 4 (Some 4) 2 deepseek_hierarchical
              example_load) as (p & t & Hrun & _ & Ht & _).
  - intros n. apply length_replicate.
  - split; [lia|]. split; [lia|]. split; [reflexivity|]. intros _. exists 4. split_and!; lia || reflexivity.
  - lia.
  - done.
  - by repeat constructor.
  - exists p, t. split; [exact Hrun|exact Ht].
Defined.

Lemma placement_maps_accepts_witness :
  accepts 4 6 2 None 1 deepseek ∧
  is_Ok (compute_placement_maps (W := spec_float) example_fresh true 2 4 [[2 ^ 26; 2 ^ 26 + 3; 2 ^ 26 + 2; 2 ^ 26 + 1]]
           6 2 None 1 deepseek) = true.
Proof.
  split; [|vm_compute; reflexivity].
  destruct (compute_placement_maps (W := spec_float) example_fresh true 2 4
              [[2 ^ 26; 2 ^ 26 + 3; 2 ^ 26 + 2; 2 ^ 26 + 1]] 6 2 None 1 deepseek) as [maps|e] eqn:E;
    [|vm_compute in E; discriminate E].
  apply (placement_maps_accepts (W := spec_float) example_fresh true 2 4 6 2 None 1 deepseek
           [[2 ^ 26; 2 ^ 26 + 3; 2 ^ 26 + 2; 2 ^ 26 + 1]] maps); [lia|by repeat constructor|exact E].
Defined.

(** A third of a load of 7 is rounded. *)
Definition example_row : list spec_float := count_as_double <$> [7; 1; 2].

Lemma replication_minimises_load_witness : ∃ p2l rank cnt,
  replicate_row 3 5 example_row = Ok (p2l, rank, cnt) ∧ cnt = [3; 1; 1] ∧
  ∃ f v d, example_row !! f = Some v ∧ [2; 1; 2] !! f = Some d ∧ at_most (w_div (count_as_double 7) 3) (w_div v d).
Proof.
  destruct (replication_minimises_load 3 5 example_row ltac:(lia) ltac:(reflexivity) ltac:(repeat constructor))
    as (p2l & rank & cnt & Hrun & _ & _ & _ & Hbest).
  exists p2l, rank, cnt. split; [exact Hrun|].
  assert (cnt = [3; 1; 1]) as -> by (vm_compute in Hrun; by injection Hrun). split; [reflexivity|].
  apply (Hbest [2; 1; 2] ltac:(reflexivity) ltac:(repeat constructor; lia) ltac:(reflexivity) 0%nat (count_as_double 7) 3); reflexivity.
Defined.
