(* ===== verification/Cxx.v ===== *)
(** * C++ pieces the scheduler extension uses

    The two checks of [utils.h], indexing a vector, the order of [std::pair] and
    [std::tuple], and ordered sets and maps as strictly sorted lists.  A method that
    may throw half way is a computation of [PyState]; one that can only abort the
    process is a function to [result]. *)

From Stdlib Require Export ZifyBool.
From S2P Require Import Prelude PyState.

Local Open Scope Z_scope.

(** [_assert] throws [std::runtime_error]; [FatalCheck] ends the process. *)
Definition _assert (condition : bool) (message : string) : result () :=
  raise_when (negb condition) (RuntimeError message).
Definition FatalCheck (condition : bool) (message : string) : result () :=
  raise_when (negb condition) (Abort message).

(** [v[i]], without a check in C++. *)
Definition vec_at {A} (v : list A) (i : Z) : result A :=
  if 0 <=? i then lookup_or (Undefined "vector index out of range") (v !! Z.to_nat i)
  else Raise (Undefined "vector index out of range").

Definition INT32_MAX : Z := 2 ^ 31 - 1.
Definition INT32_MIN : Z := - 2 ^ 31.

(** The value of a signed 32-bit expression; overflow is undefined. *)
Definition i32 (z : Z) : result Z :=
  if (INT32_MIN <=? z) && (z <=? INT32_MAX) then Ok z else Raise (Undefined "signed integer overflow").

Lemma i32_Ok z : INT32_MIN ≤ z ≤ INT32_MAX → i32 z = Ok z.
Proof. intros [H1 H2]. unfold i32. by rewrite (proj2 (Z.leb_le _ _) H1), (proj2 (Z.leb_le _ _) H2). Qed.

Lemma i32_bounds z x : i32 z = Ok x ↔ x = z ∧ INT32_MIN ≤ z ≤ INT32_MAX.
Proof.
  unfold i32. destruct (Z.leb_spec INT32_MIN z), (Z.leb_spec z INT32_MAX); cbn; split; (intros [= ->] || intros (-> & ? & ?)); try lia; done.
Qed.

(** Computations on an object: a [const] method, and one that replaces it. *)
Definition const {S A} (f : S → result A) : M S A := λ s, (f s, s).
Definition update {S} (f : S → result S) : M S () := λ s,
  match f s with
  | Ok s' => (Ok (), s')
  | Raise e => (Raise e, s)
  end.

Lemma run_const {S A} (f : S → result A) s a : f s = Ok a → const f s = (Ok a, s).
Proof. unfold const. by intros ->. Qed.

Lemma run_update {S} (f : S → result S) s s' : f s = Ok s' → update f s = (Ok (), s').
Proof. unfold update. by intros ->. Qed.

Lemma _assert_Ok b msg u : _assert b msg = Ok u ↔ b = true.
Proof. unfold _assert. rewrite raise_when_Ok, negb_false_iff. done. Qed.

Lemma FatalCheck_Ok b msg u : FatalCheck b msg = Ok u ↔ b = true.
Proof. unfold FatalCheck. rewrite raise_when_Ok, negb_false_iff. done. Qed.

Lemma _assert_pass {A} b msg (k : () → result A) : b = true → _assert b msg ≫= k = k ().
Proof. by intros ->. Qed.

Lemma FatalCheck_pass {A} b msg (k : () → result A) : b = true → FatalCheck b msg ≫= k = k ().
Proof. by intros ->. Qed.

(** Pass the outermost check of a computation. *)
Ltac pass_check tac :=
  match goal with
  | |- context [mbind ?k (_assert ?b ?msg)] =>
      rewrite (_assert_pass b msg k) by tac; cbn [mbind result_bind]
  | |- context [mbind ?k (FatalCheck ?b ?msg)] =>
      rewrite (FatalCheck_pass b msg k) by tac; cbn [mbind result_bind]
  end.

Lemma vec_at_Ok {A} (v : list A) i x : vec_at v i = Ok x ↔ 0 ≤ i ∧ v !! Z.to_nat i = Some x.
Proof.
  unfold vec_at. destruct (Z.leb_spec 0 i); [|split; [done|lia]].
  rewrite lookup_or_Ok. naive_solver.
Qed.

Lemma vec_at_some {A} (v : list A) i x : 0 ≤ i → v !! Z.to_nat i = Some x → vec_at v i = Ok x.
Proof. intros Hi Hx. by apply vec_at_Ok. Qed.

Lemma vec_at_nat {A} (v : list A) (n : nat) x : v !! n = Some x → vec_at v (Z.of_nat n) = Ok x.
Proof. intros Hx. apply vec_at_Ok. split; [lia|]. by rewrite Nat2Z.id. Qed.

(** ** Orders *)

Class Less (A : Type) := ltb : A → A → bool.
#[export] Instance Z_less : Less Z := Z.ltb.

(** [operator<] of [std::pair], and of [std::tuple] read as nested pairs. *)
#[export] Instance prod_less {A B} `{Less A, Less B} : Less (A * B) := λ x y,
  ltb x.1 y.1 || (negb (ltb y.1 x.1) && ltb x.2 y.2).

Lemma ltb_pair {A B} `{Less A, Less B} (a a' : A) (b b' : B) :
  ltb (a, b) (a', b') = ltb a a' || (negb (ltb a' a) && ltb b b').
Proof. done. Qed.

Lemma ltb_Z (a b : Z) : ltb a b = (a <? b).
Proof. done. Qed.

Class TotalOrder (A : Type) `{Less A} := {
  ltb_irrefl a : ltb a a = false;
  ltb_trans a b c : ltb a b = true → ltb b c = true → ltb a c = true;
  ltb_total a b : ltb a b = false → ltb b a = false → a = b;
}.

#[export] Instance Z_total : TotalOrder Z.
Proof. split; unfold ltb, Z_less; intros *; rewrite ?Z.ltb_lt, ?Z.ltb_ge; lia. Qed.

Lemma ltb_asym {A} `{TotalOrder A} (a b : A) : ltb a b = true → ltb b a = false.
Proof.
  intros Hab. destruct (ltb b a) eqn:Hba; [|done].
  by rewrite <- (ltb_irrefl a), (ltb_trans a b a).
Qed.

#[export] Instance prod_total {A B} `{TotalOrder A, TotalOrder B} : TotalOrder (A * B).
Proof.
  split.
  - intros [a b]. unfold ltb, prod_less; cbn. by rewrite !ltb_irrefl.
  - intros [a1 b1] [a2 b2] [a3 b3]. unfold ltb at 1 2 3, prod_less; cbn.
    rewrite !orb_true_iff, !andb_true_iff, !negb_true_iff.
    intros [H12|[H21 Hb12]] [H23|[H32 Hb23]].
    + left. by eapply ltb_trans.
    + left. destruct (ltb a2 a3) eqn:H23; [by eapply ltb_trans|]. by rewrite <- (ltb_total a2 a3).
    + left. destruct (ltb a1 a2) eqn:H12; [by eapply ltb_trans|]. by rewrite (ltb_total a1 a2).
    + destruct (ltb a1 a3) eqn:H13; [by left|right]. split; [|by eapply ltb_trans].
      destruct (ltb a3 a1) eqn:H31; [|done]. destruct (ltb a1 a2) eqn:H12.
      * by rewrite (ltb_trans a3 a1 a2) in H32.
      * by rewrite (ltb_total a1 a2), H32 in H31.
  - intros [a1 b1] [a2 b2]. unfold ltb at 1 2, prod_less; cbn.
    rewrite !orb_false_iff, !andb_false_iff, !negb_false_iff. intros [H12 Hb] [H21 Hb'].
    rewrite H12 in Hb'. rewrite H21 in Hb. rewrite (ltb_total a1 a2) by done. f_equal.
    apply ltb_total; [by destruct Hb|by destruct Hb'].
Qed.

(** ** Ordered sets and maps *)

Section ordered.
Context {A : Type} `{TotalOrder A} `{EqDecision A}.

(** [s.emplace(x)] on the sorted elements; a present element stays. *)
Fixpoint set_emplace (x : A) (s : list A) : list A :=
  match s with
  | [] => [x]
  | y :: s' => if ltb x y then x :: s else if ltb y x then y :: set_emplace x s' else s
  end.

Definition set_erase (x : A) (s : list A) : list A := filter (λ y, y ≠ x) s.
Definition set_contains (x : A) (s : list A) : bool := bool_decide (x ∈ s).

Definition sorted (s : list A) : Prop := StronglySorted (λ x y, ltb x y = true) s.

Lemma elem_of_set_emplace x y s : y ∈ set_emplace x s ↔ y = x ∨ y ∈ s.
Proof.
  induction s as [|z s IH]; cbn; [set_solver|].
  destruct (ltb x z) eqn:Hxz; [set_solver|].
  destruct (ltb z x) eqn:Hzx; rewrite ?elem_of_cons, ?IH; [naive_solver|].
  rewrite (ltb_total x z) by done. naive_solver.
Qed.

Lemma elem_of_set_erase x y s : y ∈ set_erase x s ↔ y ≠ x ∧ y ∈ s.
Proof. unfold set_erase. by rewrite list_elem_of_filter. Qed.

Lemma sorted_set_emplace x s : sorted s → sorted (set_emplace x s).
Proof.
  induction 1 as [|z s Hs IH Hz]; cbn; [repeat constructor|].
  destruct (ltb x z) eqn:Hxz.
  - constructor; [by constructor|]. constructor; [done|].
    eapply Forall_impl; [exact Hz|]. intros w Hw. by eapply ltb_trans.
  - destruct (ltb z x) eqn:Hzx; constructor; try done.
    apply Forall_forall. intros w [->|Hw]%elem_of_set_emplace; [done|].
    by apply (proj1 (Forall_forall _ _) Hz).
Qed.

Lemma sorted_set_erase x s : sorted s → sorted (set_erase x s).
Proof.
  unfold set_erase. induction 1 as [|z s Hs IH Hz]; [constructor|].
  rewrite filter_cons. case_decide; [|done]. constructor; [done|].
  apply Forall_forall. intros w [_ Hw]%list_elem_of_filter. by apply (proj1 (Forall_forall _ _) Hz).
Qed.

(** [*s.begin()] is the least element. *)
Lemma sorted_head x s y : sorted (x :: s) → y ∈ x :: s → y = x ∨ ltb x y = true.
Proof.
  intros Hs. inversion Hs as [|? ? _ Hx]; subst. intros [->|Hy]%elem_of_cons; [by left|].
  right. by apply (proj1 (Forall_forall _ _) Hx).
Qed.

Lemma sorted_NoDup s : sorted s → NoDup s.
Proof.
  induction 1 as [|z s Hs IH Hz]; constructor; [|done].
  intros Hin. apply (proj1 (Forall_forall _ _) Hz) in Hin. by rewrite ltb_irrefl in Hin.
Qed.

(** Sorted lists with the same elements are the same. *)
Lemma sorted_ext s s' : sorted s → sorted s' → (∀ x, x ∈ s ↔ x ∈ s') → s = s'.
Proof.
  intros Hs. revert s'. induction Hs as [|z s Hs IH Hz]; intros s' Hs' Heq.
  - destruct s' as [|w s']; [done|]. exfalso. by apply (not_elem_of_nil w), Heq, elem_of_cons; left.
  - destruct Hs' as [|w s' Hs' Hw].
    { exfalso. by apply (not_elem_of_nil z), Heq, elem_of_cons; left. }
    rewrite Forall_forall in Hz, Hw. assert (z = w) as ->.
    { destruct (proj1 (elem_of_cons _ _ _) (proj1 (Heq z) ltac:(by left))) as [|Hz']; [done|].
      destruct (proj1 (elem_of_cons _ _ _) (proj2 (Heq w) ltac:(by left))) as [|Hw']; [done|].
      apply Hw in Hz'. apply Hz in Hw'. by rewrite (ltb_asym _ _ Hz') in Hw'. }
    f_equal. apply IH; [done|]. intros x. specialize (Heq x). rewrite !elem_of_cons in Heq.
    split; intros Hx.
    + destruct (proj1 Heq (or_intror Hx)) as [->|]; [|done].
      apply Hz in Hx. by rewrite ltb_irrefl in Hx.
    + destruct (proj2 Heq (or_intror Hx)) as [->|]; [|done].
      apply Hw in Hx. by rewrite ltb_irrefl in Hx.
Qed.
End ordered.

Section ordered_map.
Context {K V : Type} `{TotalOrder K} `{EqDecision K}.

(** [m.emplace(k, v)] on the sorted items; a present key keeps its value. *)
Fixpoint map_emplace (k : K) (v : V) (m : list (K * V)) : list (K * V) :=
  match m with
  | [] => [(k, v)]
  | (k', v') :: m' => if ltb k k' then (k, v) :: m else if ltb k' k then (k', v') :: map_emplace k v m' else m
  end.

Definition map_erase (k : K) (m : list (K * V)) : list (K * V) := filter (λ e, e.1 ≠ k) m.

Lemma map_emplace_keys k v m : (map_emplace k v m).*1 = set_emplace k m.*1.
Proof.
  induction m as [|[k' v'] m IH]; [done|]. cbn. destruct (ltb k k'); [done|]. destruct (ltb k' k); [|done]. cbn. by rewrite IH.
Qed.

Lemma elem_of_map_emplace k v e m : k ∉ m.*1 → e ∈ map_emplace k v m ↔ e = (k, v) ∨ e ∈ m.
Proof.
  induction m as [|[k' v'] m IH]; cbn; [set_solver|]. intros [Hne Hk]%not_elem_of_cons.
  destruct (ltb k k') eqn:Hlt; [set_solver|]. destruct (ltb k' k) eqn:Hgt; [|by destruct Hne; apply ltb_total].
  rewrite !elem_of_cons, IH by done. naive_solver.
Qed.

Lemma sorted_map_emplace k v m : sorted m.*1 → sorted (map_emplace k v m).*1.
Proof. rewrite map_emplace_keys. apply sorted_set_emplace. Qed.

Lemma elem_of_map_erase k e m : e ∈ map_erase k m ↔ e.1 ≠ k ∧ e ∈ m.
Proof. unfold map_erase. by rewrite list_elem_of_filter. Qed.

Lemma sorted_map_erase k m : sorted m.*1 → sorted (map_erase k m).*1.
Proof.
  intros Hs. assert ((map_erase k m).*1 = set_erase k m.*1) as ->; [|by apply sorted_set_erase].
  unfold map_erase, set_erase. clear Hs. induction m as [|[k' v'] m IH]; [done|].
  rewrite fmap_cons, !filter_cons. cbn. case_decide; cbn; by rewrite IH.
Qed.
End ordered_map.

(** A loop whose rounds succeed or throw the one error. *)
Lemma mapM_uniform {A B} (f : A → result B) (ok : A → bool) (R : A → B → Prop) (e : exn) (l : list A) :
  (∀ x, x ∈ l → if ok x then ∃ y, f x = Ok y ∧ R x y else f x = Raise e) →
  if forallb ok l then ∃ ys, mapM f l = Ok ys ∧ Forall2 R l ys else mapM f l = Raise e.
Proof.
  induction l as [|x l IH]; intros Hall; cbn [forallb]; [by exists []|].
  specialize (IH (λ y Hy, Hall y (list_elem_of_further _ _ _ Hy))). pose proof (Hall x (list_elem_of_here _ _)) as Hx.
  destruct (ok x); cbn [andb]; [|cbn; by rewrite Hx]. destruct Hx as (y & Hy & Hr). destruct (forallb ok l).
  - destruct IH as (ys & Hys & Hf). exists (y :: ys). split; [cbn; by rewrite Hy; cbn; rewrite Hys|by constructor].
  - cbn. rewrite Hy. cbn. by rewrite IH.
Qed.

Lemma mapM_of_fmap {A B C} (f : B → result C) (g : A → B) (l : list A) : mapM f (g <$> l) = mapM (f ∘ g) l.
Proof. induction l as [|x l IH]; [done|]. cbn. by rewrite IH. Qed.
