(* ===== verification/BlockPool.v ===== *)
(** * Physical placement of cache blocks

    The scheduler extension's [BlockPool] ([csrc/cache/core/block_pool.h]): the
    pool divides the device (or host) memory into LCM blocks, binds an empty one to
    a cache group when the group needs room, and hands out its slots.  Per group and
    bucket (slot modulo shard count) it keeps an ordered index of the partly
    occupied parents and a count of the holes in them.

    Group identifiers and bucket numbers are unsigned in the code and [nat] here;
    block identifiers, slots and counts are [Z].  The constructor bounds every count
    by the int32 range, so no sum below wraps.  A reference returned by the code is
    the location it owns; ownership counts are in [BlockRefs]. *)

From S2P Require Import Prelude PyState Cxx.

Local Open Scope Z_scope.

Record CacheBlockLocation := mkLocation { lcm_block_id : Z; slot_index : Z }.

#[export] Instance CacheBlockLocation_eq_dec : EqDecision CacheBlockLocation.
Proof. solve_decision. Defined.

(** A pair of minus the occupied count and the parent's identifier. *)
Abbreviation ParentOrder := (Z * Z)%type.

Record GroupAvailability := mkGroup {
  packing : Z;
  free_slots_by_bucket : list Z;
  parents_by_bucket : list (list ParentOrder);
}.

Record LcmBlock := mkLcmBlock {
  bound_group : option nat;
  occupancy : list bool;
  occupied_count : Z;
  first_free_slots : list Z;
}.

Definition empty_block : LcmBlock := mkLcmBlock None [] 0 [].

Record BlockPool := mkPool {
  lcm_blocks_ : list LcmBlock;
  free_parent_ids_ : list Z;
  group_availability_ : list GroupAvailability;
}.

Definition set_group (g : nat) (group : GroupAvailability) (self : BlockPool) : BlockPool :=
  mkPool (lcm_blocks_ self) (free_parent_ids_ self) (<[g := group]> (group_availability_ self)).

(** ** Demand per bucket *)

(** One round of the loop over the buckets: parents, total need and total holes. *)
Definition bucket_demand (per_parent : Z) (acc : Z * Z * Z) (bucket : Z * Z) : result (Z * Z * Z) :=
  let '(parents, total_need, total_holes) := acc in
  let '(need, holes) := bucket in
  _assert ((0 <=? need) && (0 <=? holes)) "bucket demand and holes must be non-negative";;
  let short_by := Z.max (need - holes) 0 in
  Ok (Z.max parents ((short_by + per_parent - 1) / per_parent), total_need + need, total_holes + holes).

Definition ParentsNeededForBuckets (need_by_bucket holes_by_bucket : list Z) (dense_need packing : Z) :
    result Z :=
  _assert (negb (length need_by_bucket =? 0)%nat && (length need_by_bucket =? length holes_by_bucket)%nat)
    "bucket demand and holes must cover the same shard count";;
  let buckets := Z.of_nat (length need_by_bucket) in
  _assert ((0 <? packing) && (packing mod buckets =? 0) && (0 <=? dense_need))
    "bucket count must divide the parent packing and dense demand must be non-negative";;
  let per_parent := packing / buckets in
  '(parents, total_need, total_holes) ←
    foldM (bucket_demand per_parent) (0, dense_need, 0) (zip need_by_bucket holes_by_bucket);
  let total_short := Z.max (total_need - total_holes) 0 in
  Ok (Z.max parents ((total_short + packing - 1) / packing)).

(** ** Construction, lookups and registration *)

Definition BlockPool_new (num_lcm_blocks : Z) (slots_per_group : list Z) : result BlockPool :=
  _assert (0 <=? num_lcm_blocks) "num_lcm_blocks must be >= 0";;
  groups ← mapM (λ packing,
    _assert (0 <? packing) "slots_per_parent must be > 0";;
    _assert (num_lcm_blocks * packing <=? INT32_MAX) "group cache page count exceeds int32 range";;
    Ok (mkGroup packing [] [])) slots_per_group;
  Ok (mkPool (replicate (Z.to_nat num_lcm_blocks) empty_block) (seqZ 1 num_lcm_blocks) groups).

Definition placement (group_id : nat) (self : BlockPool) : result GroupAvailability :=
  lookup_or (Abort "group id has no placement in this pool") (group_availability_ self !! group_id).

Definition FreeSlots (group : GroupAvailability) : Z := sumZ (free_slots_by_bucket group).

Definition lcmBlock (lcm_block_id : Z) (self : BlockPool) : result LcmBlock :=
  _assert ((0 <? lcm_block_id) && (lcm_block_id <=? Z.of_nat (length (lcm_blocks_ self))))
    "LCM block id out of range";;
  vec_at (lcm_blocks_ self) (lcm_block_id - 1).

Definition NumLcmBlocks (self : BlockPool) : Z := Z.of_nat (length (lcm_blocks_ self)).
Definition NumEmptyLcmBlocks (self : BlockPool) : Z := Z.of_nat (length (free_parent_ids_ self)).
Definition NumFreeSlots (group_id : nat) (self : BlockPool) : result Z :=
  group ← placement group_id self; Ok (FreeSlots group).
Definition FreeSlotsByBucket (group_id : nat) (self : BlockPool) : result (list Z) :=
  group ← placement group_id self; Ok (free_slots_by_bucket group).
Definition BoundGroup (lcm_block_id : Z) (self : BlockPool) : result (option nat) :=
  block ← lcmBlock lcm_block_id self; Ok (bound_group block).
Definition OccupiedCount (lcm_block_id : Z) (self : BlockPool) : result Z :=
  block ← lcmBlock lcm_block_id self; Ok (occupied_count block).

Definition slot_occupied (block : LcmBlock) (slot : Z) : bool :=
  (0 <=? slot) && default false (occupancy block !! Z.to_nat slot).

Definition IsOccupied (location : CacheBlockLocation) (self : BlockPool) : result bool :=
  block ← lcmBlock (lcm_block_id location) self; Ok (slot_occupied block (slot_index location)).

Definition NumOccupiedSlots (self : BlockPool) : Z := sumZ (occupied_count <$> lcm_blocks_ self).

Definition OccupiedLocations (lcm_block_id : Z) (self : BlockPool) : result (list CacheBlockLocation) :=
  block ← lcmBlock lcm_block_id self;
  Ok (mkLocation lcm_block_id <$>
        filter (λ slot, slot_occupied block slot = true) (seqZ 0 (Z.of_nat (length (occupancy block))))).

Definition RegisterGroup (group_id : nat) (packing' shard_count : Z) (self : BlockPool) : result BlockPool :=
  _assert ((0 <? packing') && (0 <? shard_count) && (packing' mod shard_count =? 0))
    "shard_count must be positive and divide parent packing";;
  group ← placement group_id self;
  _assert (packing group =? packing') "cache group packing changed after construction";;
  match parents_by_bucket group with
  | [] =>
      Ok (set_group group_id
            (mkGroup (packing group) (replicate (Z.to_nat shard_count) 0) (replicate (Z.to_nat shard_count) []))
            self)
  | _ =>
      _assert ((packing group =? packing') && (Z.of_nat (length (parents_by_bucket group)) =? shard_count))
        "cache group geometry changed after registration";;
      Ok self
  end.

Definition availableBlocks (group_id : nat) (packing' : Z) (self : BlockPool) : result Z :=
  group ← placement group_id self;
  _assert (packing group =? packing') "cache group packing changed after construction";;
  Ok (FreeSlots group + NumEmptyLcmBlocks self * packing').

Definition prepareAvailability (group_id : nat) (packing' : Z) : M BlockPool () :=
  const (availableBlocks group_id packing') ;;
  group ← const (placement group_id);
  match parents_by_bucket group with
  | [] => update (RegisterGroup group_id packing' 1)
  | _ => mret ()
  end.

(** ** The index of partly occupied parents *)

(** The loop over the buckets of [removeAvailability] and [addAvailability]. *)
Fixpoint over_buckets (f : Z → list ParentOrder → result (list ParentOrder)) (first_free : list Z)
    (parents : list (list ParentOrder)) : result (list (list ParentOrder)) :=
  match parents with
  | [] => Ok []
  | set :: parents =>
      match first_free with
      | [] => Raise (Undefined "vector index out of range")
      | first :: first_free =>
          set ← f first set;
          parents ← over_buckets f first_free parents;
          Ok (set :: parents)
      end
  end.

Definition set_parents (parents : list (list ParentOrder)) (group : GroupAvailability) : GroupAvailability :=
  mkGroup (packing group) (free_slots_by_bucket group) parents.

Definition removeAvailability (group : GroupAvailability) (parent : LcmBlock) (id : Z) :
    result GroupAvailability :=
  if occupied_count parent =? Z.of_nat (length (occupancy parent)) then Ok group
  else
    parents ← over_buckets (λ first set,
      if first <? packing group then
        FatalCheck (set_contains (- occupied_count parent, id) set)
          "partial LCM parent missing from its bucket index";;
        Ok (set_erase (- occupied_count parent, id) set)
      else Ok set) (first_free_slots parent) (parents_by_bucket group);
    Ok (set_parents parents group).

Definition addAvailability (group : GroupAvailability) (parent : LcmBlock) (id : Z) :
    result GroupAvailability :=
  if occupied_count parent =? Z.of_nat (length (occupancy parent)) then Ok group
  else
    parents ← over_buckets (λ first set,
      if first <? packing group then
        FatalCheck (negb (set_contains (- occupied_count parent, id) set))
          "partial LCM parent already present in its bucket index";;
        Ok (set_emplace (- occupied_count parent, id) set)
      else Ok set) (first_free_slots parent) (parents_by_bucket group);
    Ok (set_parents parents group).

(** ** Choosing a location *)

(** Load, bucket, minus the occupied count, parent and slot. *)
Abbreviation Priority := (Z * Z * Z * Z * Z)%type.

(** [std::ranges::min_element(loads) - loads.begin()] *)
Fixpoint min_element (best best_index index : Z) (loads : list Z) : Z :=
  match loads with
  | [] => best_index
  | load :: loads =>
      if load <? best then min_element load index (index + 1) loads
      else min_element best best_index (index + 1) loads
  end.

Definition min_index (loads : list Z) : Z :=
  match loads with
  | [] => 0
  | load :: loads => min_element load 0 1 loads
  end.

Definition consider_bucket (self : BlockPool) (loads : list Z)
    (best : option (Priority * CacheBlockLocation)) (entry : Z * list ParentOrder) :
    result (option (Priority * CacheBlockLocation)) :=
  match entry.2 with
  | [] => Ok best
  | (occupied, id) :: _ =>
      block ← lcmBlock id self;
      slot ← vec_at (first_free_slots block) entry.1;
      load ← (match loads with [] => Ok 0 | _ => vec_at loads entry.1 end);
      let bucket := match loads with [] => 0 | _ => entry.1 end in
      let priority : Priority := (load, bucket, occupied, id, slot) in
      Ok (match best with
          | Some (priority', _) => if ltb priority priority' then Some (priority, mkLocation id slot) else best
          | None => Some (priority, mkLocation id slot)
          end)
  end.

Definition nextLocation (group_id : nat) (loads : list Z) (self : BlockPool) : result CacheBlockLocation :=
  group ← placement group_id self;
  best ← foldM (consider_bucket self loads) None (enumerate (parents_by_bucket group));
  match best with
  | Some (_, location) => Ok location
  | None =>
      match free_parent_ids_ self with
      | [] => Raise (Abort "prechecked block capacity was exhausted")
      | id :: _ => Ok (mkLocation id (min_index loads))
      end
  end.

Definition nextLocationInBucket (group_id : nat) (bucket : Z) (self : BlockPool) :
    result CacheBlockLocation :=
  group ← placement group_id self;
  parents ← vec_at (parents_by_bucket group) bucket;
  match parents with
  | (_, id) :: _ =>
      block ← lcmBlock id self;
      slot ← vec_at (first_free_slots block) bucket;
      Ok (mkLocation id slot)
  | [] =>
      match free_parent_ids_ self with
      | [] => Raise (Abort "prechecked bucket capacity was exhausted")
      | id :: _ => Ok (mkLocation id bucket)
      end
  end.

(** ** Occupying and releasing a slot *)

(** The loop [for (next = slot + buckets; next < size; next += buckets)]; the
    occupancy has at most as many rounds as slots. *)
Fixpoint next_hole (fuel : nat) (occ : list bool) (buckets next : Z) : option Z :=
  match fuel with
  | O => None
  | S fuel =>
      match occ !! Z.to_nat next with
      | None => None
      | Some true => next_hole fuel occ buckets (next + buckets)
      | Some false => Some next
      end
  end.

(** An empty parent is taken from the front of the queue and bound to the group. *)
Definition bind_parent (group_id : nat) (slots_per_parent : Z) (id : Z) (parent : LcmBlock)
    (group : GroupAvailability) (free : list Z) : result (LcmBlock * GroupAvailability * list Z) :=
  let buckets := Z.of_nat (length (parents_by_bucket group)) in
  FatalCheck (bool_decide (head free = Some id)) "empty LCM placement must consume the next free parent";;
  FatalCheck (bool_decide (occupancy parent = [])) "empty LCM parent must not retain child slots";;
  let first_free := if 1 <? slots_per_parent then seqZ 0 buckets else first_free_slots parent in
  let per_bucket := slots_per_parent / buckets in
  Ok (mkLcmBlock (Some group_id) (replicate (Z.to_nat slots_per_parent) false) (occupied_count parent) first_free,
      mkGroup (packing group) ((λ holes, holes + per_bucket) <$> free_slots_by_bucket group)
        (parents_by_bucket group),
      tail free).

(** [parent.occupancy[slot] = true] with the counts and the first free slot. *)
Definition take_slot (slots_per_parent slot : Z) (parent : LcmBlock) (group : GroupAvailability) :
    result (LcmBlock * GroupAvailability) :=
  let buckets := Z.of_nat (length (parents_by_bucket group)) in
  FatalCheck ((0 <=? slot) && (slot <? Z.of_nat (length (occupancy parent)))) "LCM child slot is out of range";;
  FatalCheck (negb (slot_occupied parent slot)) "LCM child slot already occupied";;
  let occ := <[Z.to_nat slot := true]> (occupancy parent) in
  holes ← vec_at (free_slots_by_bucket group) (slot mod buckets);
  FatalCheck (0 <? holes) "group free-slot count underflow on occupy";;
  let group := mkGroup (packing group) (<[Z.to_nat (slot mod buckets) := holes - 1]> (free_slots_by_bucket group))
                 (parents_by_bucket group) in
  first_free ←
    (if 1 <? slots_per_parent then
       first ← vec_at (first_free_slots parent) (slot mod buckets);
       Ok (if first =? slot then
             <[Z.to_nat (slot mod buckets) :=
                 default slots_per_parent (next_hole (length occ) occ buckets (slot + buckets))]>
               (first_free_slots parent)
           else first_free_slots parent)
     else Ok (first_free_slots parent));
  Ok (mkLcmBlock (bound_group parent) occ (occupied_count parent + 1) first_free, group).

Definition occupy (group_id : nat) (slots_per_parent : Z) (location : CacheBlockLocation) (self : BlockPool) :
    result BlockPool :=
  let id := lcm_block_id location in
  parent ← vec_at (lcm_blocks_ self) (id - 1);
  group ← placement group_id self;
  '(parent, group, free) ←
    (if occupied_count parent =? 0 then
       bind_parent group_id slots_per_parent id parent group (free_parent_ids_ self)
     else
       group ← removeAvailability group parent id;
       Ok (parent, group, free_parent_ids_ self));
  FatalCheck (bool_decide (bound_group parent = Some group_id) &&
              (Z.of_nat (length (occupancy parent)) =? slots_per_parent))
    "LCM parent binding changed while occupied";;
  '(parent, group) ← take_slot slots_per_parent (slot_index location) parent group;
  group ← addAvailability group parent id;
  Ok (mkPool (<[Z.to_nat (id - 1) := parent]> (lcm_blocks_ self)) free
        (<[group_id := group]> (group_availability_ self))).

(** A parent whose last slot was released leaves its group. *)
Definition unbind_parent (id : Z) (parent : LcmBlock) (group : GroupAvailability) (free : list Z)
    (num_blocks : nat) : result (LcmBlock * GroupAvailability * list Z) :=
  let buckets := Z.of_nat (length (parents_by_bucket group)) in
  let per_bucket := Z.of_nat (length (occupancy parent)) / buckets in
  holes ← mapM (λ holes,
    FatalCheck (per_bucket <=? holes) "group free-slot count underflow on unbind";; Ok (holes - per_bucket))
    (free_slots_by_bucket group);
  FatalCheck (length free <? num_blocks)%nat "LCM free queue overflow";;
  Ok (mkLcmBlock None [] (occupied_count parent) [],
      mkGroup (packing group) holes (parents_by_bucket group), free ++ [id]).

(** [parent.occupancy[slot] = false] with the counts. *)
Definition drop_slot (slot : Z) (parent : LcmBlock) (group : GroupAvailability) :
    result (LcmBlock * GroupAvailability) :=
  let buckets := Z.of_nat (length (parents_by_bucket group)) in
  holes ← vec_at (free_slots_by_bucket group) (slot mod buckets);
  Ok (mkLcmBlock (bound_group parent) (<[Z.to_nat slot := false]> (occupancy parent))
        (occupied_count parent - 1) (first_free_slots parent),
      mkGroup (packing group) (<[Z.to_nat (slot mod buckets) := holes + 1]> (free_slots_by_bucket group))
        (parents_by_bucket group)).

Definition Release (location : CacheBlockLocation) (self : BlockPool) : result BlockPool :=
  let id := lcm_block_id location in
  let slot := slot_index location in
  FatalCheck ((0 <? id) && (id <=? NumLcmBlocks self)) "CacheBlock location has invalid LCM block id";;
  parent ← vec_at (lcm_blocks_ self) (id - 1);
  FatalCheck ((0 <=? slot) && (slot <? Z.of_nat (length (occupancy parent))))
    "CacheBlock location has invalid slot";;
  FatalCheck (slot_occupied parent slot && (0 <? occupied_count parent)) "CacheBlock location is not occupied";;
  group_id ← lookup_or (Abort "occupied LCM parent has no bound group") (bound_group parent);
  group ← placement group_id self;
  let buckets := Z.of_nat (length (parents_by_bucket group)) in
  group ← removeAvailability group parent id;
  '(parent, group) ← drop_slot slot parent group;
  '(parent, group, free) ←
    (if occupied_count parent =? 0 then
       unbind_parent id parent group (free_parent_ids_ self) (length (lcm_blocks_ self))
     else
       first ← vec_at (first_free_slots parent) (slot mod buckets);
       let parent := mkLcmBlock (bound_group parent) (occupancy parent) (occupied_count parent)
                       (<[Z.to_nat (slot mod buckets) := Z.min first slot]> (first_free_slots parent)) in
       group ← addAvailability group parent id;
       Ok (parent, group, free_parent_ids_ self));
  Ok (mkPool (<[Z.to_nat (id - 1) := parent]> (lcm_blocks_ self)) free
        (<[group_id := group]> (group_availability_ self))).

(** ** Acquiring blocks *)

(** The loop of [acquireAvailableBlocks]; [loads] is empty unless balanced. *)
Fixpoint acquire_loop (group_id : nat) (packing' : Z) (loads : list Z) (count : nat) :
    M BlockPool (list CacheBlockLocation) :=
  match count with
  | O => mret []
  | S count =>
      location ← const (nextLocation group_id loads);
      update (occupy group_id packing' location) ;;
      let bucket := slot_index location mod Z.of_nat (length loads) in
      rest ← acquire_loop group_id packing' (alter Z.succ (Z.to_nat bucket) loads) count;
      mret (location :: rest)
  end.

Definition acquireAvailableBlocks (group_id : nat) (packing' count : Z) (bucket_loads : list Z) :
    M BlockPool (list CacheBlockLocation) :=
  prepareAvailability group_id packing' ;;
  acquire_loop group_id packing' (if (1 <? length bucket_loads)%nat then bucket_loads else []) (Z.to_nat count).

Definition AcquireBlocks (group_id : nat) (num : Z) (bucket_loads : list Z) :
    M BlockPool (list CacheBlockLocation) :=
  group ← const (placement group_id);
  if num <=? 0 then mret []
  else
    const (λ _,
      if (1 <? length bucket_loads)%nat then
        _assert (length (parents_by_bucket group) =? length bucket_loads)%nat
          "allocation loads must match the registered shard_count";;
        _assert (forallb (Z.leb 0) bucket_loads) "allocation bucket loads must be non-negative"
      else Ok ()) ;;
    available ← const (availableBlocks group_id (packing group));
    if available <? num then mret []
    else acquireAvailableBlocks group_id (packing group) num bucket_loads.

Definition AcquireBlock (group_id : nat) : M BlockPool (option CacheBlockLocation) :=
  blocks ← AcquireBlocks group_id 1 [];
  mret (head blocks).

Definition AcquireUpToBlocks (group_id : nat) (max_num : Z) : M BlockPool (list CacheBlockLocation) :=
  group ← const (placement group_id);
  if max_num <=? 0 then mret []
  else
    available ← const (availableBlocks group_id (packing group));
    let take := Z.min max_num available in
    if 0 <? take then acquireAvailableBlocks group_id (packing group) take [] else mret [].

(** [++need[bucket]] for every requested bucket. *)
Definition count_buckets (buckets : list Z) (shards : nat) : result (list Z) :=
  foldM (λ need bucket,
    _assert ((0 <=? bucket) && (bucket <? Z.of_nat (length need)))
      "requested bucket is outside the registered shard count";;
    Ok (alter Z.succ (Z.to_nat bucket) need)) (replicate shards 0) buckets.

Fixpoint bucket_loop (group_id : nat) (packing' : Z) (buckets : list Z) :
    M BlockPool (list CacheBlockLocation) :=
  match buckets with
  | [] => mret []
  | bucket :: buckets =>
      location ← const (nextLocationInBucket group_id bucket);
      update (occupy group_id packing' location) ;;
      rest ← bucket_loop group_id packing' buckets;
      mret (location :: rest)
  end.

Definition AcquireBlocksInBuckets (group_id : nat) (buckets : list Z) : M BlockPool (list CacheBlockLocation) :=
  group ← const (placement group_id);
  match buckets with
  | [] => mret []
  | _ =>
      prepareAvailability group_id (packing group) ;;
      group ← const (placement group_id);
      need ← const (λ _, count_buckets buckets (length (parents_by_bucket group)));
      parents ← const (λ _,
        ParentsNeededForBuckets need (free_slots_by_bucket group) 0 (packing group));
      empty ← read NumEmptyLcmBlocks;
      if empty <? parents then mret [] else bucket_loop group_id (packing group) buckets
  end.
