(* ===== verification/BlockPoolFacts.v ===== *)
(** * Correctness of the block pool

    The invariant that ties the pool's indices and counters to the occupancy of its
    parents, that every operation keeps it and never reaches one of the checks that
    end the process, and what the acquisitions return. *)

From S2P Require Import Prelude PyState Cxx BlockPool.

Local Open Scope Z_scope.

(** ** Integers and lists *)

Lemma ceil_le n a k : 0 < a → (n + a - 1) / a ≤ k ↔ n ≤ k * a.
Proof. intros Ha. pose proof (ceil_div_spec n a Ha) as Hc. unfold ceil_div in Hc. nia. Qed.

Lemma sumZ_zip_sub (l k : list Z) :
  length l = length k → sumZ (zip_with Z.sub l k) = sumZ l - sumZ k.
Proof.
  revert k. induction l as [|x l IH]; intros [|y k] Hl; try done.
  cbn [zip_with]. rewrite !sumZ_cons, IH by (by injection Hl). lia.
Qed.

Lemma sumZ_pos_elem (l : list Z) : Forall (Z.le 0) l → 0 < sumZ l → ∃ i x, l !! i = Some x ∧ 0 < x.
Proof.
  induction 1 as [|x l Hx Hl IH]; [done|]. rewrite sumZ_cons. intros Hs.
  destruct (decide (0 < x)) as [Hp|]; [by exists 0%nat, x|].
  destruct IH as (i & y & Hy & Hp); [lia|]. by exists (S i), y.
Qed.

(** Any amount up to the total of the capacities can be spread within them. *)
Lemma spread (capacities : list Z) n :
  Forall (Z.le 0) capacities → 0 ≤ n ≤ sumZ capacities →
  ∃ parts, Forall2 (λ part capacity, 0 ≤ part ≤ capacity) parts capacities ∧ sumZ parts = n.
Proof.
  intros Hc. revert n. induction Hc as [|c l Hc Hl IH]; intros n Hn.
  - exists []. split; [constructor|]. cbn in *. lia.
  - rewrite sumZ_cons in Hn. pose proof (sumZ_nonneg l Hl).
    destruct (IH (n - Z.min n c)) as (parts & Hp & Hs); [lia|].
    exists (Z.min n c :: parts). split; [constructor; [lia|done]|]. rewrite sumZ_cons. lia.
Qed.

(** ** The demand formula *)

Section demand.
Context (per_parent : Z) (Hpp : 0 < per_parent).

Lemma bucket_demand_fold l parents need holes :
  Forall (λ x : Z * Z, 0 ≤ x.1 ∧ 0 ≤ x.2) l →
  ∃ parents', foldM (bucket_demand per_parent) (parents, need, holes) l =
      Ok (parents', need + sumZ l.*1, holes + sumZ l.*2) ∧
    ∀ k, 0 ≤ k → parents' ≤ k ↔ parents ≤ k ∧ Forall (λ x : Z * Z, x.1 ≤ x.2 + k * per_parent) l.
Proof.
  intros Hl. revert parents need holes. induction Hl as [|[n h] l [Hn Hh] Hl IH]; intros parents need holes.
  - exists parents. cbn. split; [by rewrite !Z.add_0_r|]. intros k Hk. rewrite Forall_nil. tauto.
  - cbn [foldM bucket_demand fst snd] in *. pass_check lia.
    edestruct IH as (p' & -> & Hp). exists p'. rewrite !fmap_cons, !sumZ_cons. cbn [fst snd].
    split; [by rewrite !Z.add_assoc|]. intros k Hk. rewrite Hp, Forall_cons, Z.max_lub_iff, ceil_le by done.
    cbn [fst snd]. assert (Z.max (n - h) 0 ≤ k * per_parent ↔ n ≤ h + k * per_parent) by nia. tauto.
Qed.
End demand.

(** What a call needs: the demands fit the holes and [k] more parents when the dense
    blocks can be spread over the buckets. *)
Definition fits (k per_parent dense : Z) (need holes : list Z) : Prop :=
  ∃ dense_by_bucket, Forall (Z.le 0) dense_by_bucket ∧ sumZ dense_by_bucket = dense ∧
    length dense_by_bucket = length need ∧
    ∀ b d n h, dense_by_bucket !! b = Some d → need !! b = Some n → holes !! b = Some h →
      n + d ≤ h + k * per_parent.

Lemma parents_needed_sums need holes dense packing per_parent :
  need ≠ [] → length need = length holes → Forall (Z.le 0) need → Forall (Z.le 0) holes →
  0 ≤ dense → 0 < per_parent → packing = Z.of_nat (length need) * per_parent →
  ∃ n, ParentsNeededForBuckets need holes dense packing = Ok n ∧
    0 ≤ n ∧ ∀ k, 0 ≤ k → n ≤ k ↔
      Forall (λ x : Z * Z, x.1 ≤ x.2 + k * per_parent) (zip need holes) ∧
      dense + sumZ need ≤ sumZ holes + k * packing.
Proof.
  intros Hne Hlen Hneed Hholes Hdense Hpp Hpk.
  assert (0 < Z.of_nat (length need)) as Hb by (destruct need; cbn; [done|lia]).
  assert (packing / Z.of_nat (length need) = per_parent) as Hdiv.
  { rewrite Hpk, Z.mul_comm. apply Z.div_mul. lia. }
  destruct (bucket_demand_fold per_parent Hpp (zip need holes) 0 dense 0) as (p & Hp & Hk).
  { apply Forall_lookup. intros i x (n & h & -> & Hn & Hh)%lookup_zip_with_Some.
    exact (conj (Forall_lookup_1 _ _ _ _ Hneed Hn) (Forall_lookup_1 _ _ _ _ Hholes Hh)). }
  unfold ParentsNeededForBuckets.
  pass_check lia.
  assert (packing mod Z.of_nat (length need) = 0) by (rewrite Hpk, Z.mul_comm; apply Z.mod_mul; lia).
  pass_check ltac:(rewrite !andb_true_iff; nia).
  rewrite Hdiv, Hp. cbn [mbind result_bind].
  rewrite fst_zip, snd_zip by lia. eexists. split; [done|].
  assert (0 < packing) by nia. split.
  - apply Z.max_le_iff. right. apply Z.div_pos; [|done]. lia.
  - intros k Hk0. rewrite Z.max_lub_iff, ceil_le, Hk by done.
    assert (Z.max (dense + sumZ need - (0 + sumZ holes)) 0 ≤ k * packing ↔
            dense + sumZ need ≤ sumZ holes + k * packing) by nia.
    split; [intros [[_ ?] ?]|intros [? ?]]; split_and?; tauto.
Qed.

Lemma fits_iff k per_parent dense need holes :
  0 ≤ k → 0 ≤ per_parent → 0 ≤ dense → length need = length holes →
  fits k per_parent dense need holes ↔
    Forall (λ x : Z * Z, x.1 ≤ x.2 + k * per_parent) (zip need holes) ∧
    dense + sumZ need ≤ sumZ holes + k * (Z.of_nat (length need) * per_parent).
Proof.
  intros Hk Hpp Hd Hlen.
  assert (∀ parts, length parts = length need →
    (∀ b d n h, parts !! b = Some d → need !! b = Some n → holes !! b = Some h →
       n + d ≤ h + k * per_parent) →
    sumZ parts + sumZ need ≤ sumZ holes + k * (Z.of_nat (length need) * per_parent)) as Hsum.
  { clear -Hlen. revert holes Hlen. induction need as [|n need IH]; intros [|h holes] Hlen [|d parts] Hp Hb;
      try done; [cbn; lia|]. rewrite !sumZ_cons. cbn [length] in *.
    specialize (IH holes ltac:(lia) parts ltac:(lia) (λ b, Hb (S b))).
    specialize (Hb 0%nat d n h eq_refl eq_refl eq_refl). lia. }
  split.
  - intros (parts & Hnn & <- & Hp & Hb). split; [|by apply Hsum].
    apply Forall_lookup. intros i x (n & h & -> & Hn & Hh)%lookup_zip_with_Some. cbn.
    destruct (lookup_lt_is_Some_2 parts i) as [d Hdi]; [apply lookup_lt_Some in Hn; lia|].
    specialize (Hb i d n h Hdi Hn Hh). pose proof (Forall_lookup_1 _ _ _ _ Hnn Hdi) as Hd0. cbn in Hd0. lia.
  - intros [Hall Htotal]. destruct (spread (zip_with (λ n h, h + k * per_parent - n) need holes) dense)
      as (parts & Hparts & Hs).
    + apply Forall_lookup. intros i x (n & h & -> & Hn & Hh)%lookup_zip_with_Some.
      apply (Forall_lookup_1 _ _ i (n, h)) in Hall; [cbn in Hall; lia|].
      by rewrite lookup_zip_with, Hn, Hh.
    + split; [done|]. clear -Hlen Htotal. revert Htotal. revert holes dense Hlen.
      induction need as [|n need IH]; intros [|h holes] dense Hlen Ht; try done; [cbn in *; lia|].
      cbn [zip_with length] in *. rewrite !sumZ_cons in *.
      specialize (IH holes (dense - (h + k * per_parent - n)) ltac:(lia)). lia.
    + exists parts. pose proof (Forall2_length _ _ _ Hparts) as Hpl. rewrite length_zip_with in Hpl.
      split_and!; [|done|lia|].
      * apply Forall_lookup. intros i d Hi.
        destruct (Forall2_lookup_l _ _ _ _ _ Hparts Hi) as (c & _ & ?). lia.
      * intros b d n h Hdb Hn Hh.
        destruct (Forall2_lookup_l _ _ _ _ _ Hparts Hdb) as (c & Hc & ?).
        rewrite lookup_zip_with, Hn, Hh in Hc. simplify_eq/=. lia.
Qed.

(** [ParentsNeededForBuckets] is the least number of empty parents with which the
    bucket demands and the dense blocks fit, each opened parent giving every bucket
    the same share. *)
Theorem parents_needed_least need holes dense per_parent :
  need ≠ [] → length need = length holes → Forall (Z.le 0) need → Forall (Z.le 0) holes →
  0 ≤ dense → 0 < per_parent →
  ∃ n, ParentsNeededForBuckets need holes dense (Z.of_nat (length need) * per_parent) = Ok n ∧ 0 ≤ n ∧
    ∀ k, 0 ≤ k → n ≤ k ↔ fits k per_parent dense need holes.
Proof.
  intros Hne Hlen Hneed Hholes Hd Hpp.
  destruct (parents_needed_sums need holes dense _ per_parent Hne Hlen Hneed Hholes Hd Hpp eq_refl)
    as (n & Hn & Hn0 & Hk).
  exists n. split; [done|]. split; [done|]. intros k Hk0. rewrite Hk, fits_iff by (done || lia). done.
Qed.

Lemma parents_needed_least_witness :
  ∃ n, ParentsNeededForBuckets [3; 0] [1; 4] 2 4 = Ok n ∧ ∀ k, 0 ≤ k → n ≤ k ↔ fits k 2 2 [3; 0] [1; 4].
Proof.
  destruct (parents_needed_least [3; 0] [1; 4] 2 2) as (n & Hn & _ & Hk);
    [done|done|by repeat constructor|by repeat constructor|lia|lia|].
  exists n. split; [exact Hn|exact Hk].
Defined.

(** ** Free slots of a parent *)

(** The free slots of bucket [b] among the slots of a parent, in order. *)
Definition holes (nb : Z) (occ : list bool) (b : Z) : list Z :=
  filter (λ s, s mod nb = b ∧ occ !! Z.to_nat s = Some false) (seqZ 0 (Z.of_nat (length occ))).

Definition count_true (occ : list bool) : Z := sumZ (Z.b2z <$> occ).

(** The lowest free slot of a bucket, or the packing. *)
Definition is_first (nb pk : Z) (occ : list bool) (b x : Z) : Prop :=
  (x ∈ holes nb occ b ∧ ∀ s, s ∈ holes nb occ b → x ≤ s) ∨ (holes nb occ b = [] ∧ x = pk).

Lemma elem_of_holes nb occ b s :
  s ∈ holes nb occ b ↔ 0 ≤ s ∧ s mod nb = b ∧ occ !! Z.to_nat s = Some false.
Proof.
  unfold holes. rewrite list_elem_of_filter, elem_of_seqZ. split; [naive_solver|].
  intros (Hs & Hb & Ho). split; [done|]. apply lookup_lt_Some in Ho. lia.
Qed.

Lemma NoDup_holes nb occ b : NoDup (holes nb occ b).
Proof. apply NoDup_filter, NoDup_seqZ. Qed.

(** Taking a slot removes it from its bucket and changes no other. *)
Lemma elem_of_holes_take nb occ b slot s :
  0 ≤ slot → s ∈ holes nb (<[Z.to_nat slot := true]> occ) b ↔ s ≠ slot ∧ s ∈ holes nb occ b.
Proof.
  intros Hslot. rewrite !elem_of_holes. destruct (decide (s = slot)) as [->|Hne].
  - split; [|tauto]. intros (_ & _ & Ho). exfalso.
    destruct (decide (Z.to_nat slot < length occ)%nat).
    + by rewrite list_lookup_insert_eq in Ho.
    + rewrite list_insert_ge in Ho by lia. apply lookup_lt_Some in Ho. lia.
  - split; intros H.
    + destruct H as (Hs & Hb & Ho). rewrite list_lookup_insert_ne in Ho by lia. tauto.
    + destruct H as (_ & Hs & Hb & Ho). rewrite list_lookup_insert_ne by lia. tauto.
Qed.

Lemma holes_take_other nb occ b slot :
  0 ≤ slot → slot mod nb ≠ b → holes nb (<[Z.to_nat slot := true]> occ) b = holes nb occ b.
Proof.
  intros Hs Hb. unfold holes. rewrite length_insert. apply filter_ext_in. intros x Hx%elem_of_seqZ.
  destruct (decide (x = slot)) as [->|Hne]; [tauto|]. rewrite list_lookup_insert_ne by lia. done.
Qed.

Lemma holes_take_same nb occ slot :
  0 ≤ slot → occ !! Z.to_nat slot = Some false →
  holes nb occ (slot mod nb) ≡ₚ slot :: holes nb (<[Z.to_nat slot := true]> occ) (slot mod nb).
Proof.
  intros Hs Ho. apply NoDup_Permutation.
  - apply NoDup_holes.
  - constructor; [|apply NoDup_holes]. rewrite elem_of_holes_take by done. tauto.
  - intros x. rewrite elem_of_cons, elem_of_holes_take by done.
    destruct (decide (x = slot)) as [->|]; [|tauto]. split; [tauto|]. intros _. by apply elem_of_holes.
Qed.

Lemma holes_take_length nb occ slot b :
  0 ≤ slot → occ !! Z.to_nat slot = Some false →
  Z.of_nat (length (holes nb (<[Z.to_nat slot := true]> occ) b)) =
  Z.of_nat (length (holes nb occ b)) - if decide (slot mod nb = b) then 1 else 0.
Proof.
  intros Hs Ho. case_decide as Hb.
  - subst b. rewrite (Permutation_length (holes_take_same nb occ slot Hs Ho)). cbn [length]. lia.
  - rewrite holes_take_other by done. lia.
Qed.

Lemma count_true_take occ slot :
  occ !! slot = Some false → count_true (<[slot := true]> occ) = count_true occ + 1.
Proof. intros Ho. unfold count_true. rewrite (sumZ_insert _ _ _ _ _ Ho). cbn. lia. Qed.

(** A slot put back: the same facts read from the occupancy after the release. *)
Lemma take_drop_slot (occ : list bool) slot : occ !! slot = Some true → <[slot := true]> (<[slot := false]> occ) = occ.
Proof. intros Ho. rewrite list_insert_insert_eq. by apply list_insert_id. Qed.

Lemma drop_slot_free (occ : list bool) slot b : occ !! slot = Some b → <[slot := false]> occ !! slot = Some false.
Proof. intros Ho. apply list_lookup_insert_eq. by apply lookup_lt_Some in Ho. Qed.

Lemma count_true_bounds occ : 0 ≤ count_true occ ≤ Z.of_nat (length occ).
Proof.
  unfold count_true. induction occ as [|[] occ IH]; [done|..]; rewrite fmap_cons, sumZ_cons; cbn [length Z.b2z]; lia.
Qed.

Lemma count_true_full occ :
  count_true occ = Z.of_nat (length occ) ↔ ∀ s, occ !! s ≠ Some false.
Proof.
  unfold count_true. induction occ as [|b occ IH]; [by split|].
  rewrite fmap_cons, sumZ_cons. cbn [length]. pose proof (count_true_bounds occ) as Hb. unfold count_true in Hb.
  destruct b; cbn [Z.b2z].
  - transitivity (∀ s, occ !! s ≠ Some false); [rewrite <- IH; lia|]. split.
    + intros Hs [|s]; [done|]. apply Hs.
    + intros Hs s. apply (Hs (S s)).
  - split; [lia|]. intros Hs. by destruct (Hs 0%nat).
Qed.

Lemma count_true_pos occ s : occ !! s = Some true → 0 < count_true occ.
Proof.
  revert s. unfold count_true. induction occ as [|b occ IH]; intros [|s] Hs; simplify_eq/=.
  - pose proof (count_true_bounds occ) as Hb. unfold count_true in Hb. lia.
  - specialize (IH s Hs). destruct b; cbn; lia.
Qed.

Lemma count_true_some occ : 0 < count_true occ → ∃ s, occ !! s = Some true.
Proof.
  unfold count_true. intros (s & x & Hs & Hx)%sumZ_pos_elem.
  - exists s. rewrite list_lookup_fmap in Hs. destruct (occ !! s) as [[]|]; simplify_eq/=; done.
  - apply Forall_fmap, Forall_true. by intros [].
Qed.

(** Slots of one bucket are a bucket count apart. *)
Lemma same_bucket_step nb a s : 0 < nb → a mod nb = s mod nb → a < s → a + nb ≤ s.
Proof.
  intros Hnb Hm Hlt. pose proof (Z.div_mod a nb). pose proof (Z.div_mod s nb).
  assert (a / nb < s / nb); nia.
Qed.

Lemma mod_add_self a nb : 0 < nb → (a + nb) mod nb = a mod nb.
Proof. intros Hnb. replace (a + nb) with (a + 1 * nb) by lia. apply Z.mod_add. lia. Qed.

Lemma next_hole_spec fuel occ nb next :
  0 < nb → 0 ≤ next → Z.of_nat (length occ) ≤ next + Z.of_nat fuel * nb →
  match next_hole fuel occ nb next with
  | Some s => s ∈ holes nb occ (next mod nb) ∧ next ≤ s ∧
              ∀ s', s' ∈ holes nb occ (next mod nb) → next ≤ s' → s ≤ s'
  | None => ∀ s', s' ∈ holes nb occ (next mod nb) → s' < next
  end.
Proof.
  intros Hnb. revert next. induction fuel as [|fuel IH]; intros next Hn Hfuel; cbn [next_hole].
  - intros s' (Hs & _ & Ho)%elem_of_holes. apply lookup_lt_Some in Ho. lia.
  - destruct (occ !! Z.to_nat next) as [[]|] eqn:Ho.
    + specialize (IH (next + nb) ltac:(lia) ltac:(lia)).
      rewrite mod_add_self in IH by done.
      assert (∀ s', s' ∈ holes nb occ (next mod nb) → next ≤ s' → next + nb ≤ s') as Hstep.
      { intros s' (Hs & Hm & Ho')%elem_of_holes Hle. apply same_bucket_step; [done|done|].
        destruct (decide (s' = next)) as [->|]; [|lia]. by rewrite Ho in Ho'. }
      destruct (next_hole _ _ _ _) as [s|].
      * destruct IH as (Hs & Hle & Hmin). split; [done|]. split; [lia|]. auto.
      * intros s' Hs'. destruct (decide (s' < next)); [done|]. specialize (IH s' Hs').
        specialize (Hstep s' Hs' ltac:(lia)). lia.
    + split; [by apply elem_of_holes|]. split; [lia|]. auto.
    + intros s' (Hs & _ & Ho')%elem_of_holes. apply lookup_lt_Some in Ho'. apply lookup_ge_None in Ho. lia.
Qed.

(** The first free slot of the bucket after its first free slot was taken. *)
Lemma first_after_take nb pk occ slot :
  0 < nb → 0 ≤ slot → Z.of_nat (length occ) = pk → is_first nb pk occ (slot mod nb) slot →
  occ !! Z.to_nat slot = Some false →
  let occ' := <[Z.to_nat slot := true]> occ in
  is_first nb pk occ' (slot mod nb) (default pk (next_hole (length occ') occ' nb (slot + nb))).
Proof.
  intros Hnb Hs Hlen Hfirst Ho occ'.
  destruct Hfirst as [[_ Hmin]|[_ ->]]; [|apply lookup_lt_Some in Ho; lia].
  pose proof (next_hole_spec (length occ') occ' nb (slot + nb) Hnb ltac:(lia) ltac:(nia)) as Hnext.
  rewrite mod_add_self in Hnext by done.
  assert (∀ s, s ∈ holes nb occ' (slot mod nb) → slot + nb ≤ s) as Hge.
  { intros s [Hne Hin]%elem_of_holes_take; [|done]. specialize (Hmin s Hin).
    apply elem_of_holes in Hin as (_ & Hm & _). apply same_bucket_step; [done|done|lia]. }
  destruct (next_hole _ _ _ _) as [s|]; cbn [default].
  - left. destruct Hnext as (Hin & _ & Hm). split; [done|]. auto.
  - right. split; [|done]. destruct (holes nb occ' (slot mod nb)) as [|s l]; [done|].
    specialize (Hnext s ltac:(by left)). specialize (Hge s ltac:(by left)). lia.
Qed.

Lemma first_take_other nb pk occ slot b x :
  0 ≤ slot → is_first nb pk occ b x → x ≠ slot → is_first nb pk (<[Z.to_nat slot := true]> occ) b x.
Proof.
  intros Hs [[Hin Hmin]|[Hnil ->]] Hne.
  - left. split; [by apply elem_of_holes_take|]. intros s [_ Hin']%elem_of_holes_take; auto.
  - right. split; [|done]. destruct (holes nb (<[_ := true]> occ) b) as [|s l] eqn:E; [done|].
    assert (s ∈ s :: l) as Hin by (by left). rewrite <- E in Hin.
    apply elem_of_holes_take in Hin as [_ Hin]; [|done]. rewrite Hnil in Hin. by apply not_elem_of_nil in Hin.
Qed.

(** The first free slot after one was put back. *)
Lemma first_after_drop nb pk occ slot x :
  0 ≤ slot < pk → occ !! Z.to_nat slot = Some false →
  is_first nb pk (<[Z.to_nat slot := true]> occ) (slot mod nb) x →
  is_first nb pk occ (slot mod nb) (Z.min x slot).
Proof.
  intros Hs Ho Hfirst. left.
  assert (slot ∈ holes nb occ (slot mod nb)) as Hslot by (apply elem_of_holes; tauto).
  assert (∀ s, s ∈ holes nb occ (slot mod nb) → s = slot ∨ s ∈ holes nb (<[Z.to_nat slot := true]> occ) (slot mod nb)) as Hcases.
  { intros s Hin. destruct (decide (s = slot)); [by left|]. right. apply elem_of_holes_take; [lia|done]. }
  destruct Hfirst as [[Hin Hmin]|[Hnil ->]].
  - apply elem_of_holes_take in Hin as [_ Hin]; [|lia]. split.
    + destruct (Z.min_spec x slot) as [[_ ->]|[_ ->]]; done.
    + intros s [->|Hs']%Hcases; [lia|]. specialize (Hmin s Hs'). lia.
  - rewrite Z.min_r by lia. split; [done|]. intros s [->|Hs']%Hcases; [done|].
    rewrite Hnil in Hs'. by apply not_elem_of_nil in Hs'.
Qed.

Lemma first_drop_other nb pk occ slot b x :
  0 ≤ slot → slot mod nb ≠ b →
  is_first nb pk (<[Z.to_nat slot := true]> occ) b x → is_first nb pk occ b x.
Proof. intros Hs Hb. unfold is_first. by rewrite holes_take_other. Qed.

Lemma is_first_lt nb pk occ b x :
  Z.of_nat (length occ) ≤ pk → is_first nb pk occ b x → x < pk ↔ holes nb occ b ≠ [].
Proof.
  intros Hlen [[Hin _]|[Hnil ->]].
  - apply elem_of_holes in Hin as Hx. destruct Hx as (? & _ & Ho). apply lookup_lt_Some in Ho.
    split; [|lia]. intros _ Hnil. rewrite Hnil in Hin. by apply not_elem_of_nil in Hin.
  - split; [lia|]. by rewrite Hnil.
Qed.

(** A fresh parent has its share of every bucket free, from the bucket's number on. *)
Lemma fresh_lookup n s : 0 ≤ s < n → replicate (Z.to_nat n) false !! Z.to_nat s = Some false.
Proof. intros Hs. apply lookup_replicate_2. lia. Qed.

Lemma fresh_holes nb per_bucket b :
  0 < nb → 0 ≤ per_bucket → 0 ≤ b < nb →
  length (holes nb (replicate (Z.to_nat (nb * per_bucket)) false) b) = Z.to_nat per_bucket.
Proof.
  intros Hnb Hp Hb.
  rewrite <- (length_seqZ 0 per_bucket), <- (length_fmap (λ k, k * nb + b) (seqZ 0 per_bucket)).
  apply Permutation_length, NoDup_Permutation.
  - apply NoDup_holes.
  - apply NoDup_fmap_2_strong; [|apply NoDup_seqZ]. intros x y _ _ Heq. nia.
  - intros s. rewrite elem_of_holes, list_elem_of_fmap. setoid_rewrite elem_of_seqZ. split.
    + intros (Hs & Hm & Ho). apply lookup_lt_Some in Ho. rewrite length_replicate in Ho.
      exists (s / nb). pose proof (Z.div_mod s nb). split; [nia|]. split; [apply Z.div_pos; lia|].
      apply Z.div_lt_upper_bound; lia.
    + intros (k & -> & Hk). split; [nia|]. split.
      * rewrite Z.add_comm, Z.mod_add by lia. by apply Z.mod_small.
      * apply fresh_lookup. nia.
Qed.

Lemma fresh_first nb pk b : 0 ≤ b < nb → b < pk → is_first nb pk (replicate (Z.to_nat pk) false) b b.
Proof.
  intros Hb Hpk. left. split.
  - apply elem_of_holes. rewrite Z.mod_small by done. split; [lia|]. split; [done|]. apply fresh_lookup. lia.
  - intros s (Hs & Hm & _)%elem_of_holes. pose proof (Z.mod_le s nb). lia.
Qed.

Lemma fresh_count n : count_true (replicate n false) = 0.
Proof. unfold count_true. induction n as [|n IH]; [done|]. cbn. unfold sumZ in *. lia. Qed.

(** ** The invariant *)

Definition block (self : BlockPool) (id : Z) (p : LcmBlock) : Prop :=
  0 < id ∧ lcm_blocks_ self !! Z.to_nat (id - 1) = Some p.

Definition buckets (group : GroupAvailability) : Z := Z.of_nat (length (parents_by_bucket group)).

(** The free slots a parent offers to group [g]. *)
Definition holes_of (g : nat) (nb : Z) (p : LcmBlock) (b : Z) : list Z :=
  if decide (bound_group p = Some g) then holes nb (occupancy p) b else [].

(** A parent in use. *)
Record parent_ok (nb pk : Z) (p : LcmBlock) : Prop := {
  po_len : Z.of_nat (length (occupancy p)) = pk;
  po_count : occupied_count p = count_true (occupancy p);
  po_pos : 0 < occupied_count p;
  po_first : 1 < pk → Z.of_nat (length (first_free_slots p)) = nb ∧
    ∀ b x, first_free_slots p !! b = Some x → is_first nb pk (occupancy p) (Z.of_nat b) x;
}.

(** The index and the hole counts of a group are those of the parents bound to it. *)
Record group_ok (self : BlockPool) (g : nat) (group : GroupAvailability) : Prop := {
  go_packing : 0 < packing group;
  go_divide : buckets group ≠ 0 → packing group mod buckets group = 0;
  go_length : length (free_slots_by_bucket group) = length (parents_by_bucket group);
  go_holes b n : free_slots_by_bucket group !! b = Some n →
    n = sumZ ((λ p, Z.of_nat (length (holes_of g (buckets group) p (Z.of_nat b)))) <$> lcm_blocks_ self);
  go_sorted b set : parents_by_bucket group !! b = Some set → sorted set;
  go_index b set o id : parents_by_bucket group !! b = Some set →
    (o, id) ∈ set ↔ ∃ p, block self id p ∧ o = - occupied_count p ∧
      holes_of g (buckets group) p (Z.of_nat b) ≠ [];
}.

Record ok (self : BlockPool) : Prop := {
  ok_nodup : NoDup (free_parent_ids_ self);
  ok_free id : id ∈ free_parent_ids_ self ↔ ∃ p, block self id p ∧ bound_group p = None;
  ok_unbound id p : block self id p → bound_group p = None → p = empty_block;
  ok_bound id p g : block self id p → bound_group p = Some g →
    ∃ group, group_availability_ self !! g = Some group ∧ 0 < buckets group ∧
      parent_ok (buckets group) (packing group) p;
  ok_groups g group : group_availability_ self !! g = Some group → group_ok self g group;
  ok_int32 g group : group_availability_ self !! g = Some group →
    NumLcmBlocks self * packing group ≤ INT32_MAX;
}.

Lemma holes_of_bound g nb p b : bound_group p = Some g → holes_of g nb p b = holes nb (occupancy p) b.
Proof. intros Hb. unfold holes_of. by rewrite decide_True. Qed.

Lemma holes_of_unbound g nb p b : bound_group p = None → holes_of g nb p b = [].
Proof. intros Hb. unfold holes_of. rewrite decide_False; [done|congruence]. Qed.

Lemma block_fun self id p q : block self id p → block self id q → p = q.
Proof. intros [_ Hp] [_ Hq]. congruence. Qed.

Lemma block_update self id p q f gs id' p' :
  block self id p →
  block (mkPool (<[Z.to_nat (id - 1) := q]> (lcm_blocks_ self)) f gs) id' p' ↔
  (id' = id ∧ p' = q) ∨ (id' ≠ id ∧ block self id' p').
Proof.
  intros [Hid Hp]. unfold block; cbn [lcm_blocks_]. apply lookup_lt_Some in Hp.
  destruct (decide (id' = id)) as [->|Hne].
  - rewrite list_lookup_insert_eq by done. naive_solver.
  - split.
    + intros [Hid' Hp']. right. split; [done|]. split; [done|].
      by rewrite list_lookup_insert_ne in Hp' by lia.
    + intros [[-> _]|[_ [Hid' Hp']]]; [done|]. split; [done|]. by rewrite list_lookup_insert_ne by lia.
Qed.

(** One parent of group [g] and the group's entries change together. *)
Section update.
Context (self : BlockPool) (Hok : ok self) (id : Z) (p p' : LcmBlock) (g : nat).
Context (group group' : GroupAvailability) (free' : list Z).
Context (Hp : block self id p) (Hg : group_availability_ self !! g = Some group).
Context (Hbp : bound_group p = None ∨ bound_group p = Some g).
Context (Hbp' : bound_group p' = None ∨ bound_group p' = Some g).
Context (Hempty : bound_group p' = None → p' = empty_block).
Context (Hparent : bound_group p' = Some g → 0 < buckets group ∧ parent_ok (buckets group) (packing group) p').
Context (Hnd : NoDup free').
Context (Hfree : ∀ i, i ∈ free' ↔ (i = id ∧ bound_group p' = None) ∨ (i ≠ id ∧ i ∈ free_parent_ids_ self)).
Context (Hpk : packing group' = packing group).
Context (Hlen : length (parents_by_bucket group') = length (parents_by_bucket group)).
Context (Hlen' : length (free_slots_by_bucket group') = length (free_slots_by_bucket group)).
Context (Hholes : ∀ b n n', free_slots_by_bucket group !! b = Some n → free_slots_by_bucket group' !! b = Some n' →
  n' = n - Z.of_nat (length (holes_of g (buckets group) p (Z.of_nat b)))
         + Z.of_nat (length (holes_of g (buckets group) p' (Z.of_nat b)))).
Context (Hsets : ∀ b set', parents_by_bucket group' !! b = Some set' →
  sorted set' ∧ ∃ set, parents_by_bucket group !! b = Some set ∧
    ∀ o i, (o, i) ∈ set' ↔ (i ≠ id ∧ (o, i) ∈ set) ∨
      (i = id ∧ o = - occupied_count p' ∧ holes_of g (buckets group) p' (Z.of_nat b) ≠ [])).

Let self' := mkPool (<[Z.to_nat (id - 1) := p']> (lcm_blocks_ self)) free' (<[g := group']> (group_availability_ self)).

Lemma update_buckets : buckets group' = buckets group.
Proof. unfold buckets. by rewrite Hlen. Qed.

Lemma update_same_group : group_ok self' g group'.
Proof.
  pose proof (ok_groups _ Hok _ _ Hg) as [Hpos Hdiv Hl Hn Hs Hi].
  split; rewrite ?update_buckets, ?Hpk; [done|done|congruence|..].
  - intros b n' Hn'. destruct (lookup_lt_is_Some_2 (free_slots_by_bucket group) b) as [n Hb].
    { rewrite <- Hlen'. by eapply lookup_lt_Some. }
    rewrite (Hholes b n n' Hb Hn'), (Hn b n Hb). cbn [lcm_blocks_ self'].
    destruct Hp as [_ Hp']. by rewrite (sumZ_insert _ _ _ _ p' Hp').
  - intros b set' Hset'. apply (Hsets b set' Hset').
  - intros b set' o i Hset'. destruct (Hsets b set' Hset') as (_ & set & Hset & ->).
    rewrite (Hi b set o i Hset). unfold self'. split.
    + intros [[Hne (q & Hq & Ho & Hh)]|(-> & -> & Hh)].
      * exists q. rewrite (block_update _ _ _ _ _ _ _ _ Hp). tauto.
      * exists p'. rewrite (block_update _ _ _ _ _ _ _ _ Hp). tauto.
    + intros (q & Hq & -> & Hh). apply (block_update _ _ _ _ _ _ _ _ Hp) in Hq as [[-> ->]|[Hne Hq]]; [by right|].
      left. split; [done|]. by exists q.
Qed.

Lemma update_other_group g0 group0 :
  g0 ≠ g → group_availability_ self !! g0 = Some group0 → group_ok self' g0 group0.
Proof.
  intros Hne Hg0. pose proof (ok_groups _ Hok _ _ Hg0) as [Hpos Hdiv Hl Hn Hs Hi].
  assert (∀ q nb b, bound_group q = None ∨ bound_group q = Some g → holes_of g0 nb q b = []) as Hnil.
  { intros q nb b Hq. unfold holes_of. rewrite decide_False; [done|]. destruct Hq as [->| ->]; congruence. }
  split; try done.
  - intros b n Hb. rewrite (Hn b n Hb). cbn [lcm_blocks_ self'].
    destruct Hp as [_ Hp']. rewrite (sumZ_insert _ _ _ _ p' Hp'), !Hnil by done. cbn. lia.
  - intros b set o i Hset. rewrite (Hi b set o i Hset). unfold self'. split.
    + intros (q & Hq & Ho & Hh). exists q. rewrite (block_update _ _ _ _ _ _ _ _ Hp). split; [|done].
      right. split; [|done]. intros ->. rewrite (block_fun _ _ _ _ Hq Hp) in Hh. by rewrite Hnil in Hh.
    + intros (q & Hq & Ho & Hh). apply (block_update _ _ _ _ _ _ _ _ Hp) in Hq as [[-> ->]|[_ Hq]].
      * by rewrite Hnil in Hh.
      * by exists q.
Qed.

Lemma ok_update : ok self'.
Proof.
  assert (g < length (group_availability_ self))%nat as Hgl by (by eapply lookup_lt_Some).
  split.
  - done.
  - intros i. cbn [free_parent_ids_ self']. rewrite Hfree, (ok_free _ Hok). unfold self'. split.
    + intros [[-> Hb]|[Hne (q & Hq & Hb)]].
      * exists p'. rewrite (block_update _ _ _ _ _ _ _ _ Hp). tauto.
      * exists q. rewrite (block_update _ _ _ _ _ _ _ _ Hp). tauto.
    + intros (q & Hq & Hb). apply (block_update _ _ _ _ _ _ _ _ Hp) in Hq as [[-> ->]|[Hne Hq]]; [by left|].
      right. split; [done|]. by exists q.
  - intros i q Hq Hb. apply (block_update _ _ _ _ _ _ _ _ Hp) in Hq as [[-> ->]|[_ Hq]]; [auto|].
    by eapply (ok_unbound _ Hok).
  - intros i q h Hq Hb. cbn [group_availability_ self']. destruct (decide (h = g)) as [->|Hne].
    + exists group'. rewrite list_lookup_insert_eq by done. split; [done|]. rewrite update_buckets, Hpk.
      apply (block_update _ _ _ _ _ _ _ _ Hp) in Hq as [[-> ->]|[_ Hq]]; [auto|].
      destruct (ok_bound _ Hok _ _ _ Hq Hb) as (gr & Hgr & ?). by simplify_eq.
    + rewrite list_lookup_insert_ne by done.
      apply (block_update _ _ _ _ _ _ _ _ Hp) in Hq as [[-> ->]|[_ Hq]].
      * destruct Hbp' as [E|E]; rewrite E in Hb; congruence.
      * by apply (ok_bound _ Hok _ _ _ Hq Hb).
  - intros h gr Hgr. cbn [group_availability_ self'] in Hgr. destruct (decide (h = g)) as [->|Hne].
    + rewrite list_lookup_insert_eq in Hgr by done. injection Hgr as <-. apply update_same_group.
    + rewrite list_lookup_insert_ne in Hgr by done. by apply update_other_group.
  - intros h gr Hgr. cbn [group_availability_ self'] in Hgr. unfold NumLcmBlocks; cbn [lcm_blocks_ self'].
    rewrite length_insert. destruct (decide (h = g)) as [->|Hne].
    + rewrite list_lookup_insert_eq in Hgr by done. injection Hgr as <-. rewrite Hpk.
      by apply (ok_int32 _ Hok g).
    + rewrite list_lookup_insert_ne in Hgr by done. by apply (ok_int32 _ Hok h).
Qed.
End update.

(** ** The bucket indices *)

Lemma over_buckets_Ok f (R : Z → list ParentOrder → list ParentOrder → Prop) first parents :
  length first = length parents →
  (∀ b x set, first !! b = Some x → parents !! b = Some set →
     ∃ set', f x set = Ok set' ∧ R (Z.of_nat b) set set') →
  ∃ parents', over_buckets f first parents = Ok parents' ∧ length parents' = length parents ∧
    ∀ b set', parents' !! b = Some set' → ∃ set, parents !! b = Some set ∧ R (Z.of_nat b) set set'.
Proof.
  intros Hlen Hf. cut (∀ k, (∀ b x set, first !! b = Some x → parents !! b = Some set →
    ∃ set', f x set = Ok set' ∧ R (k + Z.of_nat b) set set') →
    ∃ parents', over_buckets f first parents = Ok parents' ∧ length parents' = length parents ∧
    ∀ b set', parents' !! b = Some set' → ∃ set, parents !! b = Some set ∧ R (k + Z.of_nat b) set set').
  { intros H. by apply (H 0). }
  clear Hf. revert first Hlen. induction parents as [|set parents IH]; intros [|x first] Hlen k Hf; try done.
  - exists []. split; [done|]. split; [done|]. by intros b.
  - destruct (Hf 0%nat x set eq_refl eq_refl) as (set' & Hset' & HR).
    destruct (IH first ltac:(by injection Hlen) (k + 1)) as (parents' & Hrun & Hl & HP).
    { intros b y s Hy Hs. destruct (Hf (S b) y s Hy Hs) as (s' & ? & HR'). exists s'.
      split; [done|]. by replace (k + 1 + Z.of_nat b) with (k + Z.of_nat (S b)) by lia. }
    exists (set' :: parents'). cbn [over_buckets]. rewrite Hset'. cbn [mbind result_bind]. rewrite Hrun.
    split; [done|]. split; [cbn; by rewrite Hl|]. intros [|b] s Hs; simplify_eq/=.
    + by exists set.
    + destruct (HP b s Hs) as (s0 & ? & HR'). exists s0. split; [done|].
      by replace (k + Z.of_nat (S b)) with (k + 1 + Z.of_nat b) by lia.
Qed.

Lemma full_no_holes nb pk p b :
  parent_ok nb pk p → occupied_count p = Z.of_nat (length (occupancy p)) → holes nb (occupancy p) b = [].
Proof.
  intros Hp Hfull. rewrite (po_count _ _ _ Hp) in Hfull.
  destruct (holes nb (occupancy p) b) as [|s l] eqn:E; [done|].
  assert (s ∈ s :: l) as Hs by (by left). rewrite <- E in Hs. apply elem_of_holes in Hs as (_ & _ & Ho).
  by apply (proj1 (count_true_full _) Hfull) in Ho.
Qed.

(** A parent in use that is not full has a first free slot per bucket. *)
Lemma partial_first nb pk p :
  parent_ok nb pk p → occupied_count p ≠ Z.of_nat (length (occupancy p)) →
  Z.of_nat (length (first_free_slots p)) = nb ∧
  ∀ b x, first_free_slots p !! b = Some x → x < pk ↔ holes nb (occupancy p) (Z.of_nat b) ≠ [].
Proof.
  intros [Hl Hc Hpos Hf] Hpart. pose proof (count_true_bounds (occupancy p)).
  destruct Hf as [Hfl Hfirst]; [lia|]. split; [done|].
  intros b x Hx. by apply is_first_lt; [lia|apply Hfirst].
Qed.

Lemma removeAvailability_spec self id p g group :
  ok self → block self id p → bound_group p = Some g → group_availability_ self !! g = Some group →
  ∃ parents', removeAvailability group p id = Ok (set_parents parents' group) ∧
    length parents' = length (parents_by_bucket group) ∧
    ∀ b set', parents' !! b = Some set' → sorted set' ∧
      ∃ set, parents_by_bucket group !! b = Some set ∧ ∀ o i, (o, i) ∈ set' ↔ i ≠ id ∧ (o, i) ∈ set.
Proof.
  intros Hok Hp Hb Hg. pose proof (ok_groups _ Hok _ _ Hg) as Hgo.
  destruct (ok_bound _ Hok _ _ _ Hp Hb) as (gr & Hgr & Hnb & Hpo). rewrite Hg in Hgr. injection Hgr as <-.
  assert (∀ b set o, parents_by_bucket group !! b = Some set → (o, id) ∈ set ↔
    o = - occupied_count p ∧ holes (buckets group) (occupancy p) (Z.of_nat b) ≠ []) as Hid.
  { intros b set o Hset. rewrite (go_index _ _ _ Hgo b set o id Hset). unfold holes_of. split.
    - intros (q & Hq & Ho & Hh). rewrite (block_fun _ _ _ _ Hq Hp) in *. by rewrite decide_True in Hh.
    - intros [Ho Hh]. exists p. by rewrite decide_True. }
  unfold removeAvailability. destruct (Z.eqb_spec (occupied_count p) (Z.of_nat (length (occupancy p)))) as [Hfull|Hpart].
  - exists (parents_by_bucket group). split; [by destruct group|]. split; [done|].
    intros b set Hset. split; [by apply (go_sorted _ _ _ Hgo b)|]. exists set. split; [done|]. intros o i.
    split; [|tauto]. intros Hin. split; [|done]. intros ->. apply (Hid b set o Hset) in Hin as [_ Hh].
    by rewrite (full_no_holes _ _ _ _ Hpo Hfull) in Hh.
  - destruct (partial_first _ _ _ Hpo Hpart) as [Hfl Hfirst].
    lazymatch goal with |- context [over_buckets ?f ?first ?parents] =>
      destruct (over_buckets_Ok f (λ b set set', sorted set' ∧
        ∀ o i, (o, i) ∈ set' ↔ i ≠ id ∧ (o, i) ∈ set) first parents) as (parents' & -> & Hl & HP) end; cycle 2.
    + cbn [mbind result_bind]. exists parents'. split; [done|]. split; [done|]. intros b set' Hset'.
      destruct (HP b set' Hset') as (set & ? & ? & ?). split; [done|]. by exists set.
    + unfold buckets in Hfl. lia.
    + intros b x set Hx Hset. specialize (Hid b set). specialize (Hfirst b x Hx).
      pose proof (go_sorted _ _ _ Hgo b set Hset) as Hsorted. destruct (Z.ltb_spec x (packing group)) as [Hlt|Hge].
      * pass_check ltac:(apply bool_decide_eq_true, Hid; [done|]; tauto).
        eexists. split; [done|]. split; [by apply sorted_set_erase|]. intros o i. rewrite elem_of_set_erase.
        split; [|naive_solver]. intros [Hne Hin]. split; [|done]. intros ->. apply Hid in Hin; [|done].
        by destruct Hin as [-> _].
      * exists set. split; [done|]. split; [done|]. intros o i. split; [|tauto]. intros Hin. split; [|done].
        intros ->. apply Hid in Hin; [|done]. destruct Hin as [_ Hh]. apply Hfirst in Hh. lia.
Qed.

Lemma addAvailability_spec group p id :
  parent_ok (buckets group) (packing group) p →
  (∀ b set, parents_by_bucket group !! b = Some set → sorted set ∧ ∀ o, (o, id) ∉ set) →
  ∃ parents', addAvailability group p id = Ok (set_parents parents' group) ∧
    length parents' = length (parents_by_bucket group) ∧
    ∀ b set', parents' !! b = Some set' → sorted set' ∧
      ∃ set, parents_by_bucket group !! b = Some set ∧
        ∀ o i, (o, i) ∈ set' ↔ (o, i) ∈ set ∨
          (i = id ∧ o = - occupied_count p ∧ holes (buckets group) (occupancy p) (Z.of_nat b) ≠ []).
Proof.
  intros Hpo Hsets. unfold addAvailability.
  destruct (Z.eqb_spec (occupied_count p) (Z.of_nat (length (occupancy p)))) as [Hfull|Hpart].
  - exists (parents_by_bucket group). split; [by destruct group|]. split; [done|].
    intros b set Hset. split; [by apply (Hsets b)|]. exists set. split; [done|]. intros o i.
    split; [tauto|]. intros [|(_ & _ & Hh)]; [done|]. by rewrite (full_no_holes _ _ _ _ Hpo Hfull) in Hh.
  - destruct (partial_first _ _ _ Hpo Hpart) as [Hfl Hfirst].
    lazymatch goal with |- context [over_buckets ?f ?first ?parents] =>
      destruct (over_buckets_Ok f (λ b set set', sorted set' ∧ ∀ o i, (o, i) ∈ set' ↔ (o, i) ∈ set ∨
        (i = id ∧ o = - occupied_count p ∧ holes (buckets group) (occupancy p) b ≠ [])) first parents)
        as (parents' & -> & Hl & HP) end; cycle 2.
    + cbn [mbind result_bind]. exists parents'. split; [done|]. split; [done|]. intros b set' Hset'.
      destruct (HP b set' Hset') as (set & ? & ? & ?). split; [done|]. by exists set.
    + unfold buckets in Hfl. lia.
    + intros b x set Hx Hset. destruct (Hsets b set Hset) as [Hsorted Hid]. specialize (Hfirst b x Hx).
      destruct (Z.ltb_spec x (packing group)) as [Hlt|Hge].
      * pass_check ltac:(apply negb_true_iff, bool_decide_eq_false, Hid).
        eexists. split; [done|]. split; [by apply sorted_set_emplace|]. intros o i. rewrite elem_of_set_emplace.
        apply Hfirst in Hlt. naive_solver.
      * exists set. split; [done|]. split; [done|]. intros o i. split; [tauto|].
        intros [|(_ & _ & Hh)]; [done|]. apply Hfirst in Hh. lia.
Qed.

(** ** Occupying a slot *)

Definition first_ok (nb pk : Z) (occ : list bool) (first_free : list Z) : Prop :=
  1 < pk → Z.of_nat (length first_free) = nb ∧
    ∀ b x, first_free !! b = Some x → is_first nb pk occ (Z.of_nat b) x.

Lemma first_ok_take nb pk occ ff slot x :
  0 < nb → Z.of_nat (length occ) = pk → 0 ≤ slot → occ !! Z.to_nat slot = Some false →
  first_ok nb pk occ ff → 1 < pk → ff !! Z.to_nat (slot mod nb) = Some x →
  first_ok nb pk (<[Z.to_nat slot := true]> occ)
    (if x =? slot then
       <[Z.to_nat (slot mod nb) :=
           default pk (next_hole (length (<[Z.to_nat slot := true]> occ)) (<[Z.to_nat slot := true]> occ) nb
                         (slot + nb))]> ff
     else ff).
Proof.
  intros Hnb Hlen Hs Ho Hff Hpk Hx _. destruct (Hff Hpk) as [Hl Hfirst]. clear Hff.
  pose proof (Z.mod_pos_bound slot nb Hnb) as Hm.
  destruct (Z.eqb_spec x slot) as [->|Hne].
  - split; [by rewrite length_insert|]. intros b y Hy.
    destruct (decide (b = Z.to_nat (slot mod nb))) as [->|Hb].
    + rewrite list_lookup_insert_eq in Hy by (by eapply lookup_lt_Some). injection Hy as <-.
      rewrite Z2Nat.id by lia. apply first_after_take; try done.
      specialize (Hfirst _ _ Hx). by rewrite Z2Nat.id in Hfirst by lia.
    + rewrite list_lookup_insert_ne in Hy by done. specialize (Hfirst b y Hy).
      unfold is_first. by rewrite holes_take_other by lia.
  - split; [done|]. intros b y Hy. specialize (Hfirst b y Hy).
    destruct (decide (b = Z.to_nat (slot mod nb))) as [->|Hb].
    + apply first_take_other; [done|done|]. rewrite Hx in Hy. by injection Hy as <-.
    + unfold is_first. by rewrite holes_take_other by lia.
Qed.

Lemma take_slot_spec pk slot p group h :
  0 < buckets group → Z.of_nat (length (occupancy p)) = pk → 0 ≤ slot →
  occupancy p !! Z.to_nat slot = Some false → first_ok (buckets group) pk (occupancy p) (first_free_slots p) →
  free_slots_by_bucket group !! Z.to_nat (slot mod buckets group) = Some h → 0 < h →
  ∃ ff, take_slot pk slot p group =
      Ok (mkLcmBlock (bound_group p) (<[Z.to_nat slot := true]> (occupancy p)) (occupied_count p + 1) ff,
          mkGroup (packing group)
            (<[Z.to_nat (slot mod buckets group) := h - 1]> (free_slots_by_bucket group)) (parents_by_bucket group)) ∧
    first_ok (buckets group) pk (<[Z.to_nat slot := true]> (occupancy p)) ff.
Proof.
  intros Hnb Hlen Hs Ho Hff Hh Hpos. pose proof (Z.mod_pos_bound slot (buckets group) Hnb) as Hm.
  unfold take_slot. fold (buckets group).
  pose proof (lookup_lt_Some _ _ _ Ho). pass_check lia.
  pass_check ltac:(unfold slot_occupied; rewrite Ho; by destruct (0 <=? slot)).
  rewrite (vec_at_some _ _ _ (proj1 Hm) Hh). cbn [mbind result_bind]. pass_check lia.
  destruct (Z.ltb_spec 1 pk) as [Hpk|Hpk].
  - destruct (Hff Hpk) as [Hl _].
    destruct (lookup_lt_is_Some_2 (first_free_slots p) (Z.to_nat (slot mod buckets group))) as [x Hx]; [lia|].
    rewrite (vec_at_some _ _ _ (proj1 Hm) Hx). cbn [mbind result_bind].
    eexists. split; [done|]. by apply first_ok_take.
  - cbn [mbind result_bind]. eexists. split; [done|]. intros ?. lia.
Qed.

(** The slots in use. *)
Definition occupied (self : BlockPool) (l : CacheBlockLocation) : Prop :=
  ∃ p, block self (lcm_block_id l) p ∧ 0 ≤ slot_index l ∧
    occupancy p !! Z.to_nat (slot_index l) = Some true.

(** The group a slot in use belongs to. *)
Definition owner (self : BlockPool) (l : CacheBlockLocation) (g : nat) : Prop :=
  ∃ p, block self (lcm_block_id l) p ∧ bound_group p = Some g.

(** A slot group [g] may take next: a hole in one of its parents, or any slot of the
    parent at the front of the queue. *)
Definition vacant (self : BlockPool) (g : nat) (group : GroupAvailability) (l : CacheBlockLocation) : Prop :=
  0 ≤ slot_index l ∧
  ((∃ p, block self (lcm_block_id l) p ∧ bound_group p = Some g ∧
      occupancy p !! Z.to_nat (slot_index l) = Some false) ∨
   (head (free_parent_ids_ self) = Some (lcm_block_id l) ∧ slot_index l < packing group)).

Definition share (group : GroupAvailability) : Z := packing group / buckets group.

(** One more slot is in use; everything else is as before. *)
Record occupies (self : BlockPool) (g : nat) (l : CacheBlockLocation) (self' : BlockPool) : Prop := {
  oc_ok : ok self';
  oc_occupied l' : occupied self' l' ↔ occupied self l' ∨ l' = l;
  oc_owner : owner self' l g;
  oc_others l' h : occupied self l' → owner self l' h → owner self' l' h;
  oc_groups h : h ≠ g → group_availability_ self' !! h = group_availability_ self !! h;
  oc_group group : group_availability_ self !! g = Some group →
    ∃ group', group_availability_ self' !! g = Some group' ∧ packing group' = packing group ∧
      buckets group' = buckets group ∧
      ∀ b n n', free_slots_by_bucket group !! b = Some n → free_slots_by_bucket group' !! b = Some n' →
        n' + NumEmptyLcmBlocks self' * share group = n + NumEmptyLcmBlocks self * share group
          - if decide (slot_index l mod buckets group = Z.of_nat b) then 1 else 0;
  oc_blocks : length (lcm_blocks_ self') = length (lcm_blocks_ self);
  oc_free : free_parent_ids_ self' = free_parent_ids_ self ∨ free_parent_ids_ self' = tail (free_parent_ids_ self);
}.

(** The parent and its group after the first half of [occupy]: bound, and out of the
    index. *)
Record staged (self : BlockPool) (id : Z) (p : LcmBlock) (g : nat) (group : GroupAvailability)
    (p1 : LcmBlock) (group1 : GroupAvailability) (free1 : list Z) : Prop := {
  st_bound : bound_group p1 = Some g;
  st_len : Z.of_nat (length (occupancy p1)) = packing group;
  st_count : occupied_count p1 = count_true (occupancy p1);
  st_first : first_ok (buckets group) (packing group) (occupancy p1) (first_free_slots p1);
  st_same s : occupancy p1 !! s = Some true ↔ occupancy p !! s = Some true;
  st_packing : packing group1 = packing group;
  st_parents : length (parents_by_bucket group1) = length (parents_by_bucket group);
  st_slots : length (free_slots_by_bucket group1) = length (free_slots_by_bucket group);
  st_holes b n n1 : free_slots_by_bucket group !! b = Some n → free_slots_by_bucket group1 !! b = Some n1 →
    n1 = n - Z.of_nat (length (holes_of g (buckets group) p (Z.of_nat b)))
           + Z.of_nat (length (holes (buckets group) (occupancy p1) (Z.of_nat b)));
  st_account b : 0 ≤ b < buckets group →
    Z.of_nat (length (holes (buckets group) (occupancy p1) b))
      - Z.of_nat (length (holes_of g (buckets group) p b)) =
    (NumEmptyLcmBlocks self - Z.of_nat (length free1)) * share group;
  st_sets b set1 : parents_by_bucket group1 !! b = Some set1 →
    sorted set1 ∧ ∃ set, parents_by_bucket group !! b = Some set ∧
      ∀ o i, (o, i) ∈ set1 ↔ i ≠ id ∧ (o, i) ∈ set;
  st_nodup : NoDup free1;
  st_free i : i ∈ free1 ↔ i ≠ id ∧ i ∈ free_parent_ids_ self;
  st_queue : free1 = free_parent_ids_ self ∨ free1 = tail (free_parent_ids_ self);
}.

Section finish.
Context (self : BlockPool) (Hok : ok self) (l : CacheBlockLocation) (p : LcmBlock) (g : nat).
Context (group : GroupAvailability) (Hp : block self (lcm_block_id l) p).
Context (Hg : group_availability_ self !! g = Some group) (Hnb : 0 < buckets group).
Context (Hbp : bound_group p = None ∨ bound_group p = Some g).
Context (p1 : LcmBlock) (group1 : GroupAvailability) (free1 : list Z).
Context (Hst : staged self (lcm_block_id l) p g group p1 group1 free1).
Context (Hs : 0 ≤ slot_index l) (Ho : occupancy p1 !! Z.to_nat (slot_index l) = Some false).

Lemma bucket_holes_nonneg b n :
  free_slots_by_bucket group !! b = Some n →
  Z.of_nat (length (holes_of g (buckets group) p (Z.of_nat b))) ≤ n.
Proof.
  intros Hb. rewrite (go_holes _ _ _ (ok_groups _ Hok _ _ Hg) b n Hb). destruct Hp as [_ Hp'].
  rewrite <- (take_drop_middle _ _ _ Hp'), fmap_app, fmap_cons, sumZ_app, sumZ_cons.
  assert (∀ k, 0 ≤ sumZ ((λ q, Z.of_nat (length (holes_of g (buckets group) q (Z.of_nat b)))) <$> k)) as Hnn.
  { intros k. apply sumZ_nonneg, Forall_fmap, Forall_true. intros q. cbn. lia. }
  pose proof (Hnn (take (Z.to_nat (lcm_block_id l - 1)) (lcm_blocks_ self))).
  pose proof (Hnn (drop (S (Z.to_nat (lcm_block_id l - 1))) (lcm_blocks_ self))). lia.
Qed.

Lemma staged_buckets : buckets group1 = buckets group.
Proof. unfold buckets. by rewrite (st_parents _ _ _ _ _ _ _ _ Hst). Qed.

Lemma slot_bucket : 0 ≤ slot_index l mod buckets group < buckets group.
Proof. by apply Z.mod_pos_bound. Qed.

Lemma staged_take : ∃ ff n1,
  free_slots_by_bucket group1 !! Z.to_nat (slot_index l mod buckets group) = Some n1 ∧
  take_slot (packing group) (slot_index l) p1 group1 =
    Ok (mkLcmBlock (Some g) (<[Z.to_nat (slot_index l) := true]> (occupancy p1)) (occupied_count p1 + 1) ff,
        mkGroup (packing group)
          (<[Z.to_nat (slot_index l mod buckets group) := n1 - 1]> (free_slots_by_bucket group1))
          (parents_by_bucket group1)) ∧
  first_ok (buckets group) (packing group) (<[Z.to_nat (slot_index l) := true]> (occupancy p1)) ff.
Proof.
  pose proof slot_bucket as Hb. pose proof (ok_groups _ Hok _ _ Hg) as Hgo.
  assert (Z.to_nat (slot_index l mod buckets group) < length (free_slots_by_bucket group))%nat as Hlt.
  { rewrite (go_length _ _ _ Hgo). unfold buckets in *. lia. }
  destruct (lookup_lt_is_Some_2 _ _ Hlt) as [n Hn].
  rewrite <- (st_slots _ _ _ _ _ _ _ _ Hst) in Hlt. destruct (lookup_lt_is_Some_2 _ _ Hlt) as [n1 Hn1].
  destruct (take_slot_spec (packing group) (slot_index l) p1 group1 n1) as (ff & Htake & Hff);
    rewrite ?staged_buckets; try done.
  - apply Hst.
  - apply Hst.
  - rewrite (st_holes _ _ _ _ _ _ _ _ Hst _ _ _ Hn Hn1).
    pose proof (bucket_holes_nonneg _ _ Hn) as Hle. rewrite Z2Nat.id in * by lia.
    rewrite (Permutation_length (holes_take_same _ _ _ Hs Ho)). cbn [length]. lia.
  - exists ff, n1. rewrite staged_buckets in *. split; [done|]. split; [|done]. rewrite Htake.
    by rewrite (st_bound _ _ _ _ _ _ _ _ Hst), (st_packing _ _ _ _ _ _ _ _ Hst).
Qed.

Lemma taken_parent_ok ff :
  first_ok (buckets group) (packing group) (<[Z.to_nat (slot_index l) := true]> (occupancy p1)) ff →
  parent_ok (buckets group) (packing group)
    (mkLcmBlock (Some g) (<[Z.to_nat (slot_index l) := true]> (occupancy p1)) (occupied_count p1 + 1) ff).
Proof.
  intros Hff. split; cbn [occupancy occupied_count first_free_slots].
  - rewrite length_insert. apply Hst.
  - rewrite count_true_take by done. by rewrite (st_count _ _ _ _ _ _ _ _ Hst).
  - rewrite (st_count _ _ _ _ _ _ _ _ Hst). pose proof (count_true_bounds (occupancy p1)). lia.
  - exact Hff.
Qed.

(** The slots of one parent after it changes. *)
Lemma occupied_update p2 f gs l' :
  (∀ s, occupancy p2 !! s = Some true ↔ occupancy p !! s = Some true ∨ s = Z.to_nat (slot_index l)) →
  occupied (mkPool (<[Z.to_nat (lcm_block_id l - 1) := p2]> (lcm_blocks_ self)) f gs) l' ↔
  occupied self l' ∨ l' = l.
Proof.
  intros Hocc. unfold occupied. split.
  - intros (q & Hq & Hs' & Ho'). apply (block_update _ _ _ _ _ _ _ _ Hp) in Hq as [[Hid ->]|[Hne Hq]].
    + apply Hocc in Ho' as [Ho'|Heq].
      * left. exists p. by rewrite Hid.
      * right. destruct l, l'; cbn in *. f_equal; lia.
    + left. by exists q.
  - intros [(q & Hq & Hs' & Ho')| ->].
    + destruct (decide (lcm_block_id l' = lcm_block_id l)) as [Hid|Hne].
      * exists p2. rewrite (block_update _ _ _ _ _ _ _ _ Hp). split; [by left|]. split; [done|].
        apply Hocc. left. rewrite Hid in Hq. by rewrite (block_fun _ _ _ _ Hp Hq).
      * exists q. rewrite (block_update _ _ _ _ _ _ _ _ Hp). tauto.
    + exists p2. rewrite (block_update _ _ _ _ _ _ _ _ Hp). split; [by left|]. split; [done|].
      apply Hocc. by right.
Qed.

Lemma taken_occupancy s :
  <[Z.to_nat (slot_index l) := true]> (occupancy p1) !! s = Some true ↔
  occupancy p !! s = Some true ∨ s = Z.to_nat (slot_index l).
Proof.
  destruct (decide (s = Z.to_nat (slot_index l))) as [->|Hne].
  - rewrite list_lookup_insert_eq by (by eapply lookup_lt_Some). tauto.
  - rewrite list_lookup_insert_ne by done. rewrite (st_same _ _ _ _ _ _ _ _ Hst). naive_solver.
Qed.

(** The counters of the buckets follow the holes of the parent. *)
Lemma taken_holes ff n1 :
  free_slots_by_bucket group1 !! Z.to_nat (slot_index l mod buckets group) = Some n1 →
  ∀ b n n', free_slots_by_bucket group !! b = Some n →
    <[Z.to_nat (slot_index l mod buckets group) := n1 - 1]> (free_slots_by_bucket group1) !! b = Some n' →
    n' = n - Z.of_nat (length (holes_of g (buckets group) p (Z.of_nat b)))
           + Z.of_nat (length (holes_of g (buckets group)
               (mkLcmBlock (Some g) (<[Z.to_nat (slot_index l) := true]> (occupancy p1)) (occupied_count p1 + 1) ff) (Z.of_nat b))).
Proof.
  intros Hn1 b n n' Hn Hn'. unfold holes_of at 2. rewrite decide_True by done. cbn [occupancy].
  rewrite holes_take_length by done. pose proof slot_bucket as Hbk.
  destruct (decide (b = Z.to_nat (slot_index l mod buckets group))) as [->|Hne].
  - rewrite list_lookup_insert_eq in Hn' by (by eapply lookup_lt_Some). injection Hn' as <-.
    rewrite decide_True by lia. rewrite (st_holes _ _ _ _ _ _ _ _ Hst _ _ _ Hn Hn1). lia.
  - rewrite list_lookup_insert_ne in Hn' by done. rewrite decide_False by lia.
    rewrite (st_holes _ _ _ _ _ _ _ _ Hst _ _ _ Hn Hn'). lia.
Qed.

Lemma occupy_finish : ∃ p2 group2 group3,
  take_slot (packing group) (slot_index l) p1 group1 = Ok (p2, group2) ∧
  addAvailability group2 p2 (lcm_block_id l) = Ok group3 ∧
  occupies self g l
    (mkPool (<[Z.to_nat (lcm_block_id l - 1) := p2]> (lcm_blocks_ self)) free1
       (<[g := group3]> (group_availability_ self))).
Proof.
  destruct staged_take as (ff & n1 & Hn1 & Htake & Hff). pose proof (taken_parent_ok ff Hff) as Hpo.
  set (p2 := mkLcmBlock _ _ _ ff) in *. set (group2 := mkGroup _ _ _) in Htake.
  assert (buckets group2 = buckets group) as Hb2 by apply staged_buckets.
  destruct (addAvailability_spec group2 p2 (lcm_block_id l)) as (parents3 & Hadd & Hl3 & Hsets3).
  { by rewrite Hb2. }
  { intros b set Hset. destruct (st_sets _ _ _ _ _ _ _ _ Hst b set Hset) as (Hsorted & set0 & _ & Hiff).
    split; [done|]. intros o Hin. by apply Hiff in Hin as []. }
  exists p2, group2, (set_parents parents3 group2). split; [done|]. split; [done|].
  pose proof (taken_holes ff n1 Hn1 : ∀ b n n', _ → free_slots_by_bucket group2 !! b = Some n' →
    n' = n - Z.of_nat (length (holes_of g (buckets group) p (Z.of_nat b)))
           + Z.of_nat (length (holes_of g (buckets group) p2 (Z.of_nat b)))) as Hholes.
  split.
  - apply (ok_update self Hok (lcm_block_id l) p p2 g group); try done; try by right.
    + apply Hst.
    + intros i. rewrite (st_free _ _ _ _ _ _ _ _ Hst). cbn [bound_group p2]. naive_solver.
    + cbn [set_parents parents_by_bucket]. rewrite Hl3. apply Hst.
    + cbn. rewrite length_insert. apply Hst.
    + intros b set' Hset'. destruct (Hsets3 b set' Hset') as (Hsorted & set2 & Hset2 & Hiff). split; [done|].
      destruct (st_sets _ _ _ _ _ _ _ _ Hst b set2 Hset2) as (_ & set & Hset & Hiff2). exists set.
      split; [done|]. intros o i. rewrite Hiff, Hiff2, Hb2. unfold holes_of. by rewrite decide_True.
  - intros l'. apply occupied_update. apply taken_occupancy.
  - exists p2. rewrite (block_update _ _ _ _ _ _ _ _ Hp). split; [by left|done].
  - intros l' h (q & Hq & _ & Ho') (q' & Hq' & Hh). rewrite (block_fun _ _ _ _ Hq' Hq) in Hh.
    destruct (decide (lcm_block_id l' = lcm_block_id l)) as [Hid|Hne].
    + exists p2. rewrite (block_update _ _ _ _ _ _ _ _ Hp). split; [by left|]. cbn [bound_group p2].
      rewrite Hid in Hq. rewrite (block_fun _ _ _ _ Hq Hp) in Hh. destruct Hbp as [E|E]; rewrite E in Hh; congruence.
    + exists q. rewrite (block_update _ _ _ _ _ _ _ _ Hp). tauto.
  - intros h Hne. cbn. by rewrite list_lookup_insert_ne.
  - intros gr Hgr. rewrite Hg in Hgr. injection Hgr as <-. exists (set_parents parents3 group2).
    cbn [group_availability_]. rewrite list_lookup_insert_eq by (by eapply lookup_lt_Some). split; [done|].
    split; [done|]. split; [unfold buckets in *; cbn [set_parents parents_by_bucket]; lia|].
    intros b n n' Hn Hn'. rewrite (Hholes b n n' Hn Hn'). unfold holes_of at 2. rewrite decide_True by done.
    cbn [occupancy p2]. rewrite holes_take_length by done.
    pose proof (st_account _ _ _ _ _ _ _ _ Hst (Z.of_nat b)) as Hacc.
    pose proof (lookup_lt_Some _ _ _ Hn) as Hbl. rewrite (go_length _ _ _ (ok_groups _ Hok _ _ Hg)) in Hbl.
    unfold NumEmptyLcmBlocks in *; cbn [free_parent_ids_]. specialize (Hacc ltac:(unfold buckets; lia)).
    case_decide; lia.
  - cbn. by rewrite length_insert.
  - apply Hst.
Qed.
End finish.

Lemma share_packing self g group :
  ok self → group_availability_ self !! g = Some group → 0 < buckets group →
  packing group = buckets group * share group ∧ 0 < share group.
Proof.
  intros Hok Hg Hnb. pose proof (ok_groups _ Hok _ _ Hg) as [Hpos Hdiv _ _ _ _].
  specialize (Hdiv ltac:(lia)). unfold share. pose proof (Z.div_mod (packing group) (buckets group)). nia.
Qed.

Lemma stage_hole self id p g group :
  ok self → block self id p → bound_group p = Some g → group_availability_ self !! g = Some group →
  ∃ group1, removeAvailability group p id = Ok group1 ∧
    staged self id p g group p group1 (free_parent_ids_ self).
Proof.
  intros Hok Hp Hb Hg.
  destruct (ok_bound _ Hok _ _ _ Hp Hb) as (gr & Hgr & Hnb & Hpo). rewrite Hg in Hgr. injection Hgr as <-.
  destruct (removeAvailability_spec self id p g group Hok Hp Hb Hg) as (parents' & Hrem & Hl & Hsets).
  exists (set_parents parents' group). split; [done|].
  pose proof (λ nb b, holes_of_bound g nb p b Hb) as Hho.
  split; try done.
  - apply (po_len _ _ _ Hpo).
  - apply (po_count _ _ _ Hpo).
  - exact (po_first _ _ _ Hpo).
  - intros b n n1 Hn Hn1. cbn in Hn1. rewrite Hn in Hn1. injection Hn1 as <-. rewrite Hho. lia.
  - intros b Hbb. rewrite Hho. unfold NumEmptyLcmBlocks. lia.
  - apply Hok.
  - intros i. split; [|tauto]. intros Hi. split; [|done]. intros ->.
    apply (ok_free _ Hok) in Hi as (q & Hq & Hn). rewrite (block_fun _ _ _ _ Hq Hp) in Hn. congruence.
  - by left.
Qed.

Lemma stage_open self id g group :
  ok self → group_availability_ self !! g = Some group → 0 < buckets group →
  head (free_parent_ids_ self) = Some id →
  block self id empty_block ∧
  ∃ p1 group1 free1,
    bind_parent g (packing group) id empty_block group (free_parent_ids_ self) = Ok (p1, group1, free1) ∧
    occupancy p1 = replicate (Z.to_nat (packing group)) false ∧
    staged self id empty_block g group p1 group1 free1.
Proof.
  intros Hok Hg Hnb Hhead. destruct (free_parent_ids_ self) as [|i free] eqn:Hfree; [done|]. injection Hhead as ->.
  assert (id ∈ free_parent_ids_ self) as Hin by (rewrite Hfree; by left).
  apply (ok_free _ Hok) in Hin as (p & Hp & Hb). pose proof (ok_unbound _ Hok _ _ Hp Hb) as ->. split; [done|].
  destruct (share_packing self g group Hok Hg Hnb) as [Hpk Hshare].
  pose proof (ok_groups _ Hok _ _ Hg) as Hgo. pose proof (ok_nodup _ Hok) as Hnd. rewrite Hfree in Hnd.
  assert (∀ b, 0 ≤ b < buckets group →
    Z.of_nat (length (holes (buckets group) (replicate (Z.to_nat (packing group)) false) b)) = share group) as Hfresh.
  { intros b Hbb. rewrite Hpk at 1. rewrite fresh_holes by lia. lia. }
  unfold bind_parent. fold (buckets group). fold (share group). pass_check ltac:(by apply bool_decide_eq_true).
  pass_check ltac:(by apply bool_decide_eq_true).
  eexists _, _, _. split; [done|]. split; [done|]. split; cbn [bound_group occupancy occupied_count]; try done.
  - rewrite length_replicate. pose proof (go_packing _ _ _ Hgo). lia.
  - by rewrite fresh_count.
  - intros H1. cbn [first_free_slots]. rewrite (proj2 (Z.ltb_lt _ _)) by done. rewrite length_seqZ.
    split; [lia|]. intros b x Hx. apply lookup_seqZ in Hx as [-> Hb']. apply fresh_first; nia.
  - intros s. rewrite lookup_replicate. cbn. naive_solver.
  - cbn. by rewrite length_fmap.
  - intros b n n1 Hn Hn1. cbn [free_slots_by_bucket] in Hn1. rewrite list_lookup_fmap, Hn in Hn1. injection Hn1 as <-.
    apply lookup_lt_Some in Hn. rewrite (go_length _ _ _ Hgo) in Hn.
    unfold holes_of. rewrite decide_False by done. rewrite Hfresh by (unfold buckets; lia). cbn. lia.
  - intros b Hbb. unfold holes_of. rewrite decide_False by done. rewrite Hfresh by done.
    unfold NumEmptyLcmBlocks. rewrite Hfree. cbn [length tail]. lia.
  - intros b set1 Hset1. split; [by apply (go_sorted _ _ _ Hgo b)|]. exists set1. split; [done|].
    intros o j. split; [|tauto]. intros Hin. split; [|done]. intros ->.
    apply (go_index _ _ _ Hgo b set1 o id Hset1) in Hin as (q & Hq & _ & Hh).
    rewrite (block_fun _ _ _ _ Hq Hp) in Hh. done.
  - by inversion Hnd.
  - intros j. rewrite Hfree. cbn [tail]. rewrite elem_of_cons. inversion Hnd; subst. naive_solver.
  - right. by rewrite Hfree.
Qed.

Lemma occupy_spec self g group l :
  ok self → group_availability_ self !! g = Some group → 0 < buckets group → vacant self g group l →
  ∃ self', occupy g (packing group) l self = Ok self' ∧ occupies self g l self'.
Proof.
  intros Hok Hg Hnb [Hs Hv]. unfold occupy.
  assert (∃ p p1 group1 free1, block self (lcm_block_id l) p ∧
    (bound_group p = None ∨ bound_group p = Some g) ∧
    (if occupied_count p =? 0 then
       bind_parent g (packing group) (lcm_block_id l) p group (free_parent_ids_ self)
     else group1 ← removeAvailability group p (lcm_block_id l); Ok (p, group1, free_parent_ids_ self)) =
      Ok (p1, group1, free1) ∧
    staged self (lcm_block_id l) p g group p1 group1 free1 ∧
    occupancy p1 !! Z.to_nat (slot_index l) = Some false) as (p & p1 & group1 & free1 & Hp & Hbp & Hrun & Hst & Ho).
  { destruct Hv as [(p & Hp & Hb & Ho)|[Hhead Hlt]].
    - destruct (stage_hole self (lcm_block_id l) p g group Hok Hp Hb Hg) as (group1 & Hrem & Hst).
      destruct (ok_bound _ Hok _ _ _ Hp Hb) as (gr & _ & _ & Hpo). pose proof (po_pos _ _ _ Hpo).
      exists p, p, group1, (free_parent_ids_ self). rewrite (proj2 (Z.eqb_neq _ _)) by lia.
      rewrite Hrem. by split_and!; [|right|..].
    - destruct (stage_open self (lcm_block_id l) g group Hok Hg Hnb Hhead) as (Hp & p1 & group1 & free1 & Hbind & Hocc & Hst).
      exists empty_block, p1, group1, free1. rewrite Hocc. split_and!; try done; [by left|].
      apply fresh_lookup. lia. }
  destruct (occupy_finish self Hok l p g group Hp Hg Hnb Hbp p1 group1 free1 Hst Hs Ho)
    as (p2 & group2 & group3 & Htake & Hadd & Hocc).
  destruct Hp as [Hid Hp]. rewrite (vec_at_some _ _ p) by (lia || done). cbn [mbind result_bind].
  unfold placement. rewrite Hg. cbn [lookup_or mbind result_bind]. rewrite Hrun. cbn [mbind result_bind].
  pass_check ltac:(rewrite (st_bound _ _ _ _ _ _ _ _ Hst), (st_len _ _ _ _ _ _ _ _ Hst), Z.eqb_refl, andb_true_r;
                   by apply bool_decide_eq_true).
  rewrite Htake. cbn [mbind result_bind]. rewrite Hadd. cbn [mbind result_bind]. eexists. by split.
Qed.

(** ** Choosing a location *)

Lemma lcmBlock_Ok self id p : block self id p → lcmBlock id self = Ok p.
Proof.
  intros [Hid Hp]. unfold lcmBlock. pose proof (lookup_lt_Some _ _ _ Hp). pass_check lia.
  by apply vec_at_some; [lia|].
Qed.

(** How the code ranks a free slot: the load and the number of its bucket when it
    balances, then the fullest parent, the lowest parent, the lowest slot. *)
Definition rank (loads : list Z) (nb : Z) (p : LcmBlock) (id slot : Z) : Priority :=
  (match loads with [] => 0 | _ => default 0 (loads !! Z.to_nat (slot mod nb)) end,
   match loads with [] => 0 | _ => slot mod nb end, - occupied_count p, id, slot).

(** A free slot in a parent bound to the group. *)
Definition hole (self : BlockPool) (g : nat) (nb : Z) (p : LcmBlock) (l : CacheBlockLocation) : Prop :=
  block self (lcm_block_id l) p ∧ bound_group p = Some g ∧ 0 ≤ slot_index l ∧
  occupancy p !! Z.to_nat (slot_index l) = Some false.

Lemma hole_bucket self g nb p l :
  hole self g nb p l ↔ block self (lcm_block_id l) p ∧ slot_index l ∈ holes_of g nb p (slot_index l mod nb).
Proof.
  unfold hole, holes_of. case_decide as Hb; [|set_solver]. rewrite elem_of_holes. naive_solver.
Qed.

Lemma tuple_le_lex (a b : Z) (x y : Z * Z) (s t : Z) :
  x = y ∨ ltb x y = true → (x = y → s ≤ t) →
  ltb (a, b, y.1, y.2, t) (a, b, x.1, x.2, s) = false.
Proof.
  intros Hxy Hst. destruct (ltb (a, b, y.1, y.2, t) _) eqn:E; [|done]. exfalso.
  assert (ltb y x = true ∨ y = x ∧ t < s) as [Hlt|[-> Hlt]].
  { destruct x as [x1 x2], y as [y1 y2]. cbn [fst snd] in *. revert E.
    rewrite !ltb_pair. change (@ltb Z Z_less) with Z.ltb. rewrite !Z.ltb_irrefl. cbn [orb andb negb]. intros E.
    destruct (Z.ltb_spec y1 x1), (Z.ltb_spec x1 y1), (Z.ltb_spec y2 x2), (Z.ltb_spec x2 y2), (Z.ltb_spec t s);
      cbn in *; try done; first [by left|right; split; [f_equal; lia|lia]]. }
  - destruct Hxy as [->|Hxy]; [by rewrite ltb_irrefl in Hlt|]. by rewrite (ltb_asym _ _ Hxy) in Hlt.
  - specialize (Hst eq_refl). lia.
Qed.

(** The head of a bucket's index with its first free slot ranks before every hole of
    the bucket. *)
Lemma bucket_head self g group b o id rest :
  ok self → group_availability_ self !! g = Some group →
  parents_by_bucket group !! b = Some ((o, id) :: rest) →
  ∃ p x, block self id p ∧ o = - occupied_count p ∧ first_free_slots p !! b = Some x ∧
    hole self g (buckets group) p (mkLocation id x) ∧ x mod buckets group = Z.of_nat b ∧
    ∀ loads p' l', hole self g (buckets group) p' l' → slot_index l' mod buckets group = Z.of_nat b →
      ltb (rank loads (buckets group) p' (lcm_block_id l') (slot_index l')) (rank loads (buckets group) p id x) = false.
Proof.
  intros Hok Hg Hset. pose proof (ok_groups _ Hok _ _ Hg) as Hgo.
  pose proof (go_sorted _ _ _ Hgo b _ Hset) as Hsorted. pose proof (lookup_lt_Some _ _ _ Hset) as Hb.
  destruct (proj1 (go_index _ _ _ Hgo b _ o id Hset) ltac:(by left)) as (p & Hp & -> & Hh).
  unfold holes_of in Hh. case_decide as Hbound; [|done].
  destruct (ok_bound _ Hok _ _ _ Hp Hbound) as (gr & Hgr & Hnb & Hpo). rewrite Hg in Hgr. injection Hgr as <-.
  assert (1 < packing group) as Hpk.
  { destruct (holes (buckets group) (occupancy p) (Z.of_nat b)) as [|s ss] eqn:E; [done|].
    assert (s ∈ s :: ss) as Hin by (by left). rewrite <- E in Hin. apply elem_of_holes in Hin as (_ & _ & Ho).
    pose proof (po_pos _ _ _ Hpo) as Hpos. rewrite (po_count _ _ _ Hpo) in Hpos. pose proof (po_len _ _ _ Hpo).
    pose proof (count_true_bounds (<[Z.to_nat (Z.of_nat (Z.to_nat s)) := true]> (occupancy p))) as Hb2.
    rewrite Nat2Z.id, count_true_take, length_insert in Hb2 by done. lia. }
  destruct (po_first _ _ _ Hpo Hpk) as [Hfl Hfirst].
  destruct (lookup_lt_is_Some_2 (first_free_slots p) b) as [x Hx]; [unfold buckets in Hfl; lia|].
  destruct (Hfirst b x Hx) as [[Hin Hmin]|[Hnil _]]; [|done].
  apply elem_of_holes in Hin as (Hx0 & Hxb & Hxo). exists p, x. do 3 (split; [done|]). split; [done|].
  split; [done|]. intros loads p' l' (Hp' & Hb' & Hs' & Ho') Hl'. unfold rank. rewrite Hxb, Hl'.
  assert ((- occupied_count p', lcm_block_id l') ∈ (- occupied_count p, id) :: rest) as Hin'.
  { apply (go_index _ _ _ Hgo b _ _ _ Hset). exists p'. split; [done|]. split; [done|].
    unfold holes_of. rewrite decide_True by done. intros Hnil.
    apply (not_elem_of_nil (slot_index l')). rewrite <- Hnil. by apply elem_of_holes. }
  apply (tuple_le_lex _ _ (- occupied_count p, id) (- occupied_count p', lcm_block_id l')).
  - destruct (sorted_head _ _ _ Hsorted Hin') as [->|]; [by left|by right].
  - intros [= Hocc Hid]. rewrite <- Hid in Hp'. rewrite (block_fun _ _ _ _ Hp' Hp) in Ho'.
    apply Hmin. by apply elem_of_holes.
Qed.

Section choose.
Context (self : BlockPool) (g : nat) (group : GroupAvailability) (loads : list Z).
Context (Hok : ok self) (Hg : group_availability_ self !! g = Some group) (Hnb : 0 < buckets group).
Context (Hloads : loads = [] ∨ Z.of_nat (length loads) = buckets group).

(** The best of the buckets visited so far. *)
Definition best_of (visited : list (Z * list ParentOrder)) (best : option (Priority * CacheBlockLocation)) : Prop :=
  match best with
  | None => ∀ e, e ∈ visited → ∃ b, e.1 = Z.of_nat b ∧ parents_by_bucket group !! b = Some []
  | Some (priority, l) =>
      ∃ p, hole self g (buckets group) p l ∧
        priority = rank loads (buckets group) p (lcm_block_id l) (slot_index l) ∧
        ∀ e p' l', e ∈ visited → hole self g (buckets group) p' l' → slot_index l' mod buckets group = e.1 →
          ltb (rank loads (buckets group) p' (lcm_block_id l') (slot_index l')) priority = false
  end.

(** No hole is in a bucket with an empty index. *)
Lemma empty_bucket b p' l' :
  parents_by_bucket group !! b = Some [] → hole self g (buckets group) p' l' →
  slot_index l' mod buckets group ≠ Z.of_nat b.
Proof.
  intros Hset Hh Hb. apply hole_bucket in Hh as [Hp Hin].
  apply (not_elem_of_nil (- occupied_count p', lcm_block_id l')).
  apply (go_index _ _ _ (ok_groups _ Hok _ _ Hg) b [] _ _ Hset). exists p'. split; [done|]. split; [done|].
  rewrite <- Hb. intros Hnil. rewrite Hnil in Hin. by apply not_elem_of_nil in Hin.
Qed.

Lemma ltb_false_trans (a b c : Priority) : ltb a b = false → ltb b c = false → ltb a c = false.
Proof.
  intros Hab Hbc. destruct (ltb a c) eqn:Hac; [|done]. destruct (ltb b a) eqn:Hba.
  - by rewrite (ltb_trans b a c) in Hbc.
  - by rewrite (ltb_total a b), Hbc in Hac.
Qed.

Lemma consider_step visited b set best :
  parents_by_bucket group !! b = Some set → best_of visited best →
  ∃ best', consider_bucket self loads best (Z.of_nat b, set) = Ok best' ∧
    best_of (visited ++ [(Z.of_nat b, set)]) best'.
Proof.
  intros Hset Hbest. unfold consider_bucket; cbn [fst snd]. destruct set as [|[o id] rest].
  - exists best. split; [done|]. destruct best as [[priority l]|]; cbn in *.
    + destruct Hbest as (p & Hh & Hpr & Hall). exists p. split; [done|]. split; [done|].
      intros e p' l' [He| ->%list_elem_of_singleton]%elem_of_app Hh' Heq; [by eapply Hall|].
      by destruct (empty_bucket b p' l' Hset Hh').
    + intros e [He| ->%list_elem_of_singleton]%elem_of_app; [auto|]. by exists b.
  - destruct (bucket_head self g group b o id rest Hok Hg Hset) as (p & x & Hp & -> & Hx & Hh & Hxb & Hmin).
    rewrite (lcmBlock_Ok _ _ _ Hp). cbn [mbind result_bind]. rewrite (vec_at_nat _ _ _ Hx). cbn [mbind result_bind].
    pose proof (lookup_lt_Some _ _ _ Hset) as Hb.
    set (load := match loads with [] => 0 | _ => default 0 (loads !! b) end).
    assert (match loads with [] => Ok 0 | _ => vec_at loads (Z.of_nat b) end = Ok load) as ->.
    { unfold load. destruct loads as [|y ys]; [done|]. destruct Hloads as [|Hl]; [done|].
      destruct (lookup_lt_is_Some_2 (y :: ys) b) as [z Hz]; [unfold buckets in Hl; lia|].
      rewrite Hz. by apply vec_at_nat. }
    cbn [mbind result_bind].
    assert ((load, match loads with [] => 0 | _ => Z.of_nat b end, - occupied_count p, id, x) =
            rank loads (buckets group) p id x) as ->.
    { unfold rank, load. rewrite Hxb, Nat2Z.id. by destruct loads. }
    destruct best as [[priority l]|]; cbn in Hbest.
    + destruct Hbest as (q & Hq & Hpr & Hall). destruct (ltb _ priority) eqn:Hlt.
      * eexists. split; [done|]. exists p. split; [done|]. split; [done|].
        intros e p' l' [He| ->%list_elem_of_singleton]%elem_of_app Hh' Heq; [|by apply Hmin].
        apply (ltb_false_trans _ priority); [by eapply Hall|by apply ltb_asym].
      * eexists. split; [done|]. exists q. split; [done|]. split; [done|].
        intros e p' l' [He| ->%list_elem_of_singleton]%elem_of_app Hh' Heq; [by eapply Hall|].
        eapply ltb_false_trans; [by apply Hmin|exact Hlt].
    + eexists. split; [done|]. exists p. split; [done|]. split; [done|].
      intros e p' l' [He| ->%list_elem_of_singleton]%elem_of_app Hh' Heq; [|by apply Hmin].
      destruct (Hbest e He) as (b' & Hb' & Hnil). rewrite Hb' in Heq.
      by destruct (empty_bucket b' p' l' Hnil Hh').
Qed.

Lemma consider_all : ∃ best,
  foldM (consider_bucket self loads) None (enumerate (parents_by_bucket group)) = Ok best ∧
  best_of (enumerate (parents_by_bucket group)) best.
Proof.
  apply (foldM_total best_of); [by intros e ?%not_elem_of_nil|].
  intros visited [b set] rest best Heq Hbest.
  assert ((b, set) ∈ enumerate (parents_by_bucket group)) as Hin.
  { rewrite Heq. apply elem_of_app. right. by left. }
  apply elem_of_enumerate in Hin as [Hb Hset]. rewrite <- (Z2Nat.id b) by done.
  by apply consider_step.
Qed.

Lemma hole_visited p l :
  hole self g (buckets group) p l →
  ∃ e, e ∈ enumerate (parents_by_bucket group) ∧ slot_index l mod buckets group = e.1.
Proof.
  clear Hok Hg Hloads. intros Hh. pose proof (Z.mod_pos_bound (slot_index l) (buckets group) Hnb) as Hb.
  destruct (lookup_lt_is_Some_2 (parents_by_bucket group) (Z.to_nat (slot_index l mod buckets group))) as [set Hset].
  { unfold buckets in *. lia. }
  exists (slot_index l mod buckets group, set). split; [|done]. apply elem_of_enumerate. split; [lia|done].
Qed.
End choose.

Lemma min_element_spec best best_index index loads :
  0 ≤ best_index < index →
  let r := min_element best best_index index loads in
  0 ≤ r < index + Z.of_nat (length loads) ∧
  ∃ m, (r = best_index ∧ m = best ∨ index ≤ r ∧ loads !! Z.to_nat (r - index) = Some m) ∧
    m ≤ best ∧ Forall (Z.le m) loads.
Proof.
  revert best best_index index. induction loads as [|x loads IH]; intros best bi index Hbi; cbn [min_element length].
  - split; [lia|]. exists best. split; [by left|]. split; [lia|constructor].
  - destruct (Z.ltb_spec x best) as [Hlt|Hge].
    + destruct (IH x index (index + 1) ltac:(lia)) as (Hr & m & Hm & Hle & Hall). split; [lia|]. exists m.
      split; [|split; [lia|by constructor]]. right. destruct Hm as [[-> ->]|[Hi Hm]].
      * split; [lia|]. by replace (index - index) with 0 by lia.
      * split; [lia|]. revert Hm. set (r := min_element _ _ _ _) in *. intros Hm.
        replace (Z.to_nat (r - index)) with (S (Z.to_nat (r - (index + 1)))) by lia. done.
    + destruct (IH best bi (index + 1) ltac:(lia)) as (Hr & m & Hm & Hle & Hall). split; [lia|]. exists m.
      split; [|split; [lia|constructor; [lia|done]]]. destruct Hm as [Hm|[Hi Hm]]; [by left|right].
      split; [lia|]. revert Hm. set (r := min_element _ _ _ _) in *. intros Hm.
      replace (Z.to_nat (r - index)) with (S (Z.to_nat (r - (index + 1)))) by lia. done.
Qed.

(** The chosen bucket of a fresh parent has the least load. *)
Lemma min_index_spec loads :
  loads ≠ [] → 0 ≤ min_index loads < Z.of_nat (length loads) ∧
  ∃ m, loads !! Z.to_nat (min_index loads) = Some m ∧ Forall (Z.le m) loads.
Proof.
  destruct loads as [|x loads]; [done|]. intros _. cbn [min_index length].
  destruct (min_element_spec x 0 1 loads ltac:(lia)) as (Hr & m & Hm & Hle & Hall). split; [lia|].
  exists m. split; [|by constructor]. destruct Hm as [[-> ->]|[Hi Hm]]; [done|].
  revert Hm. set (r := min_element _ _ _ _) in *. intros Hm.
  by replace (Z.to_nat r) with (S (Z.to_nat (r - 1))) by lia.
Qed.

(** The slots of each bucket that the group could still get. *)
Definition potential (self : BlockPool) (group : GroupAvailability) : list Z :=
  (λ n, n + NumEmptyLcmBlocks self * share group) <$> free_slots_by_bucket group.

Definition capacity (self : BlockPool) (group : GroupAvailability) : Z :=
  FreeSlots group + NumEmptyLcmBlocks self * packing group.

Section capacity.
Context (self : BlockPool) (g : nat) (group : GroupAvailability).
Context (Hok : ok self) (Hg : group_availability_ self !! g = Some group).

Lemma free_slots_nonneg : Forall (Z.le 0) (free_slots_by_bucket group).
Proof.
  apply Forall_lookup. intros b n Hn. rewrite (go_holes _ _ _ (ok_groups _ Hok _ _ Hg) b n Hn).
  apply sumZ_nonneg, Forall_fmap, Forall_true. intros p. cbn. lia.
Qed.

(** A bucket with a positive count has a parent with a hole in it. *)
Lemma bucket_has_hole b n :
  free_slots_by_bucket group !! b = Some n → 0 < n →
  ∃ set, parents_by_bucket group !! b = Some set ∧ set ≠ [].
Proof.
  intros Hn Hpos. pose proof (ok_groups _ Hok _ _ Hg) as Hgo. rewrite (go_holes _ _ _ Hgo b n Hn) in Hpos.
  destruct (lookup_lt_is_Some_2 (parents_by_bucket group) b) as [set Hset].
  { rewrite <- (go_length _ _ _ Hgo). by eapply lookup_lt_Some. }
  exists set. split; [done|]. apply sumZ_pos_elem in Hpos as (i & x & Hi & Hx).
  2:{ apply Forall_fmap, Forall_true. intros p. cbn. lia. }
  rewrite list_lookup_fmap in Hi. destruct (lcm_blocks_ self !! i) as [p|] eqn:Hp; [|done].
  injection Hi as <-. apply (elem_of_ne_nil (- occupied_count p, Z.of_nat i + 1)).
  apply (go_index _ _ _ Hgo b set _ _ Hset). exists p. split; [|split; [done|]].
  - split; [lia|]. by replace (Z.to_nat (Z.of_nat i + 1 - 1)) with i by lia.
  - intros Hnil. rewrite Hnil in Hx. cbn in Hx. lia.
Qed.

Lemma capacity_potential : 0 < buckets group → sumZ (potential self group) = capacity self group.
Proof.
  intros Hnb. destruct (share_packing self g group Hok Hg Hnb) as [Hpk _].
  pose proof (go_length _ _ _ (ok_groups _ Hok _ _ Hg)) as Hl.
  assert (∀ c l, sumZ ((λ n, n + c) <$> l) = sumZ l + Z.of_nat (length l) * c) as Hs.
  { intros c l. induction l as [|x l IH]; [done|]. rewrite fmap_cons, !sumZ_cons, IH. cbn [length]. lia. }
  unfold potential, capacity, FreeSlots. rewrite Hs, Hl. fold (buckets group).
  set (sh := share group) in *. clearbody sh. rewrite Hpk. lia.
Qed.

Lemma occupies_potential l self' group' :
  occupies self g l self' → group_availability_ self' !! g = Some group' → 0 < buckets group →
  potential self' group' = alter Z.pred (Z.to_nat (slot_index l mod buckets group)) (potential self group).
Proof.
  intros Hoc Hg' Hnb. destruct (oc_group _ _ _ _ Hoc group Hg) as (gr & Hgr & Hpk & Hb & Hacc).
  rewrite Hg' in Hgr. injection Hgr as <-.
  pose proof (go_length _ _ _ (ok_groups _ Hok _ _ Hg)) as Hl.
  pose proof (go_length _ _ _ (ok_groups _ (oc_ok _ _ _ _ Hoc) _ _ Hg')) as Hl'.
  pose proof (Z.mod_pos_bound (slot_index l) (buckets group) Hnb) as Hm.
  assert (share group' = share group) as Hsh by (unfold share; by rewrite Hpk, Hb).
  unfold potential. rewrite Hsh. apply list_eq. intros b.
  assert (length (free_slots_by_bucket group') = length (free_slots_by_bucket group)) as Hll.
  { unfold buckets in Hb. lia. }
  destruct (free_slots_by_bucket group !! b) as [n|] eqn:Hn; cycle 1.
  { apply lookup_ge_None in Hn. rewrite !(lookup_ge_None_2 _ b); [done|..];
      rewrite ?length_alter, length_fmap; lia. }
  destruct (lookup_lt_is_Some_2 (free_slots_by_bucket group') b) as [n' Hn'].
  { rewrite Hll. by eapply lookup_lt_Some. }
  specialize (Hacc b n n' Hn Hn'). rewrite list_lookup_fmap, Hn'. cbn [fmap option_fmap option_map].
  destruct (decide (b = Z.to_nat (slot_index l mod buckets group))) as [->|Hne].
  - rewrite list_lookup_alter_eq, list_lookup_fmap, Hn. cbn. f_equal. rewrite decide_True in Hacc by lia. lia.
  - rewrite list_lookup_alter_ne, list_lookup_fmap, Hn by done. cbn. f_equal. rewrite decide_False in Hacc by lia. lia.
Qed.
End capacity.

Lemma sumZ_alter_pred i (l : list Z) x : l !! i = Some x → sumZ (alter Z.pred i l) = sumZ l - 1.
Proof.
  revert i. induction l as [|y l IH]; intros [|i] Hi; simplify_eq/=.
  - unfold sumZ. cbn. lia.
  - specialize (IH i Hi). unfold sumZ in *. cbn. lia.
Qed.

Lemma occupies_capacity self g group l self' group' :
  ok self → group_availability_ self !! g = Some group → 0 < buckets group →
  occupies self g l self' → group_availability_ self' !! g = Some group' →
  capacity self' group' = capacity self group - 1.
Proof.
  intros Hok Hg Hnb Hoc Hg'. destruct (oc_group _ _ _ _ Hoc group Hg) as (gr & Hgr & _ & Hb & _).
  rewrite Hg' in Hgr. injection Hgr as <-.
  rewrite <- (capacity_potential self' g group' (oc_ok _ _ _ _ Hoc) Hg') by lia.
  rewrite <- (capacity_potential self g group Hok Hg Hnb).
  rewrite (occupies_potential self g group Hok Hg l self' group' Hoc Hg' Hnb).
  pose proof (Z.mod_pos_bound (slot_index l) (buckets group) Hnb) as Hm.
  destruct (lookup_lt_is_Some_2 (potential self group) (Z.to_nat (slot_index l mod buckets group))) as [x Hx].
  { unfold potential. rewrite length_fmap, (go_length _ _ _ (ok_groups _ Hok _ _ Hg)). unfold buckets in *. lia. }
  by rewrite (sumZ_alter_pred _ _ _ Hx).
Qed.

(** The location the code takes next: the best of the holes, and the parent at the
    front of the queue only when there is none. *)
Lemma nextLocation_spec self g group loads :
  ok self → group_availability_ self !! g = Some group → 0 < buckets group →
  loads = [] ∨ Z.of_nat (length loads) = buckets group → 0 < capacity self group →
  ∃ l, nextLocation g loads self = Ok l ∧ vacant self g group l ∧
    ((∃ p, hole self g (buckets group) p l ∧
        ∀ p' l', hole self g (buckets group) p' l' →
          ltb (rank loads (buckets group) p' (lcm_block_id l') (slot_index l'))
            (rank loads (buckets group) p (lcm_block_id l) (slot_index l)) = false) ∨
     ((∀ p' l', ¬ hole self g (buckets group) p' l') ∧
      head (free_parent_ids_ self) = Some (lcm_block_id l) ∧ slot_index l = min_index loads)).
Proof.
  intros Hok Hg Hnb Hloads Hcap. unfold nextLocation, placement. rewrite Hg. cbn [lookup_or mbind result_bind].
  destruct (consider_all self g group loads Hok Hg Hloads) as (best & -> & Hbest). cbn [mbind result_bind].
  destruct best as [[priority l]|]; cbn in Hbest.
  - destruct Hbest as (p & Hh & -> & Hall). exists l. split; [done|]. split.
    + destruct Hh as (Hp & Hb & Hs & Ho). split; [done|]. left. by exists p.
    + left. exists p. split; [done|]. intros p' l' Hh'.
      destruct (hole_visited self g group Hnb p' l' Hh') as (e & He & Heq). by eapply Hall.
  - assert (∀ p' l', ¬ hole self g (buckets group) p' l') as Hnone.
    { intros p' l' Hh. destruct (hole_visited self g group Hnb p' l' Hh) as (e & He & Heq).
      destruct (Hbest e He) as (b & Hb & Hnil). rewrite Hb in Heq.
      by apply (empty_bucket self g group Hok Hg b p' l' Hnil Hh). }
    destruct (free_parent_ids_ self) as [|id free] eqn:Hfree.
    + exfalso. unfold capacity, NumEmptyLcmBlocks in Hcap. rewrite Hfree in Hcap. cbn [length] in Hcap.
      assert (0 < FreeSlots group) as Hpos by lia.
      apply sumZ_pos_elem in Hpos as (b & n & Hn & Hpos); [|by apply (free_slots_nonneg self g)].
      destruct (bucket_has_hole self g group Hok Hg b n Hn Hpos) as (set & Hset & Hne).
      destruct set as [|[o id] rest]; [done|].
      destruct (bucket_head self g group b o id rest Hok Hg Hset) as (p & x & _ & _ & _ & Hh & _).
      by apply Hnone in Hh.
    + eexists. split; [done|]. pose proof (share_packing self g group Hok Hg Hnb) as [Hpk Hsh].
      assert (0 ≤ min_index loads < packing group) as Hmin.
      { destruct Hloads as [->|Hl]; [cbn; nia|]. destruct (min_index_spec loads) as [? _]; [|nia].
        intros ->. cbn in Hl. lia. }
      split; [|by right]. split; [cbn; lia|]. right. rewrite Hfree. cbn. split; [done|lia].
Qed.

Lemma nextLocationInBucket_spec self g group b n :
  ok self → group_availability_ self !! g = Some group → 0 < buckets group →
  0 ≤ b → potential self group !! Z.to_nat b = Some n → 0 < n →
  ∃ l, nextLocationInBucket g b self = Ok l ∧ vacant self g group l ∧ slot_index l mod buckets group = b.
Proof.
  intros Hok Hg Hnb Hb Hn Hpos. unfold potential in Hn. rewrite list_lookup_fmap in Hn.
  destruct (free_slots_by_bucket group !! Z.to_nat b) as [f|] eqn:Hf; [|done]. injection Hn as <-.
  pose proof (share_packing self g group Hok Hg Hnb) as [Hpk Hsh].
  assert (Z.to_nat b < length (parents_by_bucket group))%nat as Hbl.
  { rewrite <- (go_length _ _ _ (ok_groups _ Hok _ _ Hg)). by eapply lookup_lt_Some. }
  destruct (lookup_lt_is_Some_2 _ _ Hbl) as [set Hset].
  unfold nextLocationInBucket, placement. rewrite Hg. cbn [lookup_or mbind result_bind].
  rewrite (vec_at_some _ _ set Hb Hset). cbn [mbind result_bind]. destruct set as [|[o id] rest].
  - destruct (free_parent_ids_ self) as [|id free] eqn:Hfree.
    + exfalso. unfold NumEmptyLcmBlocks in Hpos. rewrite Hfree in Hpos. cbn [length] in Hpos.
      destruct (bucket_has_hole self g group Hok Hg _ f Hf ltac:(lia)) as (set & Hset' & Hne). by simplify_eq.
    + eexists. split; [done|]. unfold buckets in *. split; [|cbn; apply Z.mod_small; lia].
      split; [done|]. right. rewrite Hfree. cbn. split; [done|]. nia.
  - destruct (bucket_head self g group _ o id rest Hok Hg Hset) as (p & x & Hp & _ & Hx & Hh & Hxb & _).
    rewrite (lcmBlock_Ok _ _ _ Hp). cbn [mbind result_bind]. rewrite (vec_at_some _ _ x Hb Hx). cbn [mbind result_bind].
    eexists. split; [done|]. rewrite Z2Nat.id in Hxb by done. split; [|done].
    destruct Hh as (_ & Hbd & Hs & Ho). split; [done|]. left. by exists p.
Qed.

(** ** Acquisitions *)

(** The locations [ls] are new in use, for group [g]; everything else is as before. *)
Record grows (self : BlockPool) (g : nat) (ls : list CacheBlockLocation) (self' : BlockPool) : Prop := {
  gr_ok : ok self';
  gr_nodup : NoDup ls;
  gr_fresh l : l ∈ ls → ¬ occupied self l;
  gr_occupied l : occupied self' l ↔ occupied self l ∨ l ∈ ls;
  gr_owner l : l ∈ ls → owner self' l g;
  gr_others l h : occupied self l → owner self l h → owner self' l h;
  gr_groups h : h ≠ g → group_availability_ self' !! h = group_availability_ self !! h;
  gr_group group : group_availability_ self !! g = Some group →
    ∃ group', group_availability_ self' !! g = Some group' ∧ packing group' = packing group ∧
      (0 < buckets group → buckets group' = buckets group);
  gr_blocks : length (lcm_blocks_ self') = length (lcm_blocks_ self);
}.

Lemma vacant_free self g group l : ok self → vacant self g group l → ¬ occupied self l.
Proof.
  intros Hok [_ [(p & Hp & _ & Ho)|[Hhead _]]] (q & Hq & _ & Ho').
  - rewrite (block_fun _ _ _ _ Hq Hp), Ho in Ho'. done.
  - assert (lcm_block_id l ∈ free_parent_ids_ self) as Hin.
    { destruct (free_parent_ids_ self); [done|]. injection Hhead as ->. by left. }
    apply (ok_free _ Hok) in Hin as (p & Hp & Hn). rewrite (block_fun _ _ _ _ Hq Hp) in Ho'.
    by rewrite (ok_unbound _ Hok _ _ Hp Hn) in Ho'.
Qed.

Lemma grows_nil self g : ok self → grows self g [] self.
Proof. intros Hok. split; try set_solver. constructor. Qed.

Lemma grows_cons self g group l self1 ls self2 :
  ok self → vacant self g group l → occupies self g l self1 → grows self1 g ls self2 →
  grows self g (l :: ls) self2.
Proof.
  intros Hok Hv [Hok1 Ho Hown Hoth Hgr Hg Hbl _] [Hok2 Hnd Hfresh Ho2 Hown2 Hoth2 Hgr2 Hg2 Hbl2].
  pose proof (vacant_free self g group l Hok Hv) as Hnl.
  assert (occupied self1 l) as Hl by (apply Ho; by right).
  split; try done.
  - constructor; [|done]. intros Hin. by apply (Hfresh l Hin).
  - intros l' [->|Hin]%elem_of_cons; [done|]. intros Hocc. apply (Hfresh l' Hin), Ho. by left.
  - intros l'. rewrite Ho2, Ho, elem_of_cons. tauto.
  - intros l' [->|Hin]%elem_of_cons; [by apply Hoth2|by apply Hown2].
  - intros l' h Hocc Hh. apply Hoth2; [apply Ho; by left|by apply Hoth].
  - intros h Hne. by rewrite Hgr2, Hgr.
  - intros gr Hgr0. destruct (Hg gr Hgr0) as (g1 & Hg1 & Hp1 & Hb1 & _).
    destruct (Hg2 g1 Hg1) as (g2 & Hg2' & Hp2 & Hb2). exists g2. split_and!; [done|congruence|].
    intros Hpos. rewrite Hb2, Hb1; [done|]. by rewrite Hb1.
  - congruence.
Qed.

Lemma acquire_loop_spec count self g group loads :
  ok self → group_availability_ self !! g = Some group → 0 < buckets group →
  loads = [] ∨ Z.of_nat (length loads) = buckets group → Z.of_nat count ≤ capacity self group →
  ∃ ls self', acquire_loop g (packing group) loads count self = (Ok ls, self') ∧
    grows self g ls self' ∧ length ls = count.
Proof.
  revert self group loads. induction count as [|count IH]; intros self group loads Hok Hg Hnb Hloads Hcap.
  { exists [], self. split; [done|]. split; [by apply grows_nil|done]. }
  destruct (nextLocation_spec self g group loads Hok Hg Hnb Hloads ltac:(lia)) as (l & Hnext & Hv & _).
  destruct (occupy_spec self g group l Hok Hg Hnb Hv) as (self1 & Hocc & Hoc).
  destruct (oc_group _ _ _ _ Hoc group Hg) as (group1 & Hg1 & Hpk1 & Hb1 & _).
  pose proof (occupies_capacity self g group l self1 group1 Hok Hg Hnb Hoc Hg1) as Hcap1.
  destruct (IH self1 group1 (alter Z.succ (Z.to_nat (slot_index l mod Z.of_nat (length loads))) loads))
    as (ls & self2 & Hrun & Hgrow & Hlen); [apply Hoc|done|lia| |lia|].
  { destruct Hloads as [->|Hl]; [by left|right]. rewrite length_alter. lia. }
  exists (l :: ls), self2. split; [|split; [by eapply grows_cons|cbn; by rewrite Hlen]].
  cbn [acquire_loop]. rewrite (run_bind_Ok _ _ _ _ _ (run_const _ _ _ Hnext)).
  rewrite (run_bind_Ok _ _ _ _ _ (run_update _ _ _ Hocc)). rewrite <- Hpk1.
  by rewrite (run_bind_Ok _ _ _ _ _ Hrun).
Qed.

(** How often a bucket is asked for. *)
Definition demand (bs : list Z) (b : Z) : Z := Z.of_nat (length (filter (λ x, x = b) bs)).

Lemma bucket_loop_spec bs self g group :
  ok self → group_availability_ self !! g = Some group → 0 < buckets group →
  Forall (λ b, 0 ≤ b < buckets group) bs →
  (∀ b n, potential self group !! b = Some n → demand bs (Z.of_nat b) ≤ n) →
  ∃ ls self', bucket_loop g (packing group) bs self = (Ok ls, self') ∧ grows self g ls self' ∧
    Forall2 (λ b l, slot_index l mod buckets group = b) bs ls.
Proof.
  revert self group. induction bs as [|b bs IH]; intros self group Hok Hg Hnb Hbs Hdem.
  { exists [], self. split; [done|]. split; [by apply grows_nil|constructor]. }
  apply Forall_cons in Hbs as [Hb Hbs].
  destruct (lookup_lt_is_Some_2 (potential self group) (Z.to_nat b)) as [n Hn].
  { unfold potential. rewrite length_fmap, (go_length _ _ _ (ok_groups _ Hok _ _ Hg)). unfold buckets in *. lia. }
  assert (0 < n) as Hpos.
  { specialize (Hdem _ _ Hn). unfold demand in Hdem. rewrite Z2Nat.id, filter_cons_True in Hdem by lia. cbn in Hdem. lia. }
  destruct (nextLocationInBucket_spec self g group b n Hok Hg Hnb (proj1 Hb) Hn Hpos) as (l & Hnext & Hv & Hlb).
  destruct (occupy_spec self g group l Hok Hg Hnb Hv) as (self1 & Hocc & Hoc).
  destruct (oc_group _ _ _ _ Hoc group Hg) as (group1 & Hg1 & Hpk1 & Hb1 & _).
  destruct (IH self1 group1) as (ls & self2 & Hrun & Hgrow & Hall); [apply Hoc|done|lia|by rewrite Hb1| |].
  { intros b' n' Hn'. rewrite (occupies_potential self g group Hok Hg l self1 group1 Hoc Hg1 Hnb), Hlb in Hn'.
    unfold demand in *. destruct (decide (b' = Z.to_nat b)) as [->|Hne].
    - rewrite list_lookup_alter_eq, Hn in Hn'. injection Hn' as <-. specialize (Hdem _ _ Hn).
      rewrite Z2Nat.id, filter_cons_True in * by lia. cbn [length] in Hdem. lia.
    - rewrite list_lookup_alter_ne in Hn' by done. specialize (Hdem _ _ Hn').
      by rewrite filter_cons_False in Hdem by lia. }
  exists (l :: ls), self2. split; [|split; [by eapply grows_cons|constructor; [done|by rewrite <- Hb1]]].
  cbn [bucket_loop]. rewrite (run_bind_Ok _ _ _ _ _ (run_const _ _ _ Hnext)).
  rewrite (run_bind_Ok _ _ _ _ _ (run_update _ _ _ Hocc)). rewrite <- Hpk1.
  by rewrite (run_bind_Ok _ _ _ _ _ Hrun).
Qed.

(** ** Registration *)

Lemma holes_of_unregistered self g group p id nb b :
  ok self → group_availability_ self !! g = Some group → buckets group = 0 → block self id p →
  holes_of g nb p b = [].
Proof.
  intros Hok Hg Hb Hp. unfold holes_of. rewrite decide_False; [done|]. intros Hbound.
  destruct (ok_bound _ Hok _ _ _ Hp Hbound) as (gr & Hgr & Hpos & _). simplify_eq. lia.
Qed.

Lemma register_fresh self g group n :
  ok self → group_availability_ self !! g = Some group → parents_by_bucket group = [] →
  0 < n → packing group mod n = 0 →
  ok (set_group g (mkGroup (packing group) (replicate (Z.to_nat n) 0) (replicate (Z.to_nat n) [])) self).
Proof.
  intros Hok Hg Hnil Hn Hdiv. pose proof (ok_groups _ Hok _ _ Hg) as Hgo.
  assert (buckets group = 0) as Hb0 by (unfold buckets; by rewrite Hnil).
  set (group' := mkGroup _ _ _).
  assert (buckets group' = n) as Hb' by (unfold buckets; cbn; rewrite length_replicate; lia).
  assert (g < length (group_availability_ self))%nat as Hgl by (by eapply lookup_lt_Some).
  pose proof Hok as [Hnd Hfree Hun Hbd Hgr H32].
  split; try done.
  - intros id p h Hp Hb. cbn [group_availability_ set_group]. destruct (decide (h = g)) as [->|Hne].
    + destruct (Hbd _ _ _ Hp Hb) as (gr & Hgr' & Hpos & _). simplify_eq. lia.
    + rewrite list_lookup_insert_ne by done. by apply (Hbd id).
  - intros h gr Hgr'. cbn [group_availability_ set_group] in Hgr'. destruct (decide (h = g)) as [->|Hne].
    + rewrite list_lookup_insert_eq in Hgr' by done. injection Hgr' as <-.
      split; rewrite ?Hb'; cbn [group' packing free_slots_by_bucket parents_by_bucket].
      * apply Hgo.
      * done.
      * by rewrite !length_replicate.
      * intros b m Hm. apply lookup_replicate in Hm as [-> _]. symmetry. apply sumZ_zero.
        { apply Forall_fmap, Forall_true. intros p. cbn. lia. }
        apply Forall_fmap, Forall_lookup. intros i p Hp. cbn.
        rewrite (holes_of_unregistered self g group p (Z.of_nat i + 1)); try done.
        split; [lia|]. by replace (Z.to_nat (Z.of_nat i + 1 - 1)) with i by lia.
      * intros b set Hset. apply lookup_replicate in Hset as [-> _]. constructor.
      * intros b set o id Hset. apply lookup_replicate in Hset as [-> _]. split; [by intros ?%not_elem_of_nil|].
        intros (p & Hp & _ & Hh). by rewrite (holes_of_unregistered self g group p id) in Hh.
    + rewrite list_lookup_insert_ne in Hgr' by done. destruct (Hgr _ _ Hgr'). by split.
  - intros h gr Hgr'. cbn [group_availability_ set_group] in Hgr'. destruct (decide (h = g)) as [->|Hne].
    + rewrite list_lookup_insert_eq in Hgr' by done. injection Hgr' as <-. by apply (H32 g group).
    + rewrite list_lookup_insert_ne in Hgr' by done. by apply (H32 h).
Qed.

(** Registration fixes the bucket count once; it changes no placement. *)
Lemma register_spec self g group n :
  ok self → group_availability_ self !! g = Some group → 0 < n → packing group mod n = 0 →
  parents_by_bucket group = [] ∨ buckets group = n →
  ∃ self' group', RegisterGroup g (packing group) n self = Ok self' ∧ ok self' ∧
    group_availability_ self' !! g = Some group' ∧ packing group' = packing group ∧ buckets group' = n ∧
    FreeSlots group' = FreeSlots group ∧
    lcm_blocks_ self' = lcm_blocks_ self ∧ free_parent_ids_ self' = free_parent_ids_ self ∧
    (buckets group = n → self' = self ∧ group' = group) ∧
    ∀ h, h ≠ g → group_availability_ self' !! h = group_availability_ self !! h.
Proof.
  intros Hok Hg Hn Hdiv Hcase. pose proof (ok_groups _ Hok _ _ Hg) as Hgo. pose proof (go_packing _ _ _ Hgo).
  unfold RegisterGroup. pass_check lia. unfold placement. rewrite Hg. cbn [lookup_or mbind result_bind].
  pass_check lia. destruct (parents_by_bucket group) as [|set sets] eqn:Hp.
  - eexists _, _. split; [done|]. split; [by apply register_fresh|]. cbn [set_group group_availability_].
    rewrite list_lookup_insert_eq by (by eapply lookup_lt_Some). split; [done|]. cbn.
    split; [done|]. split; [unfold buckets; cbn; rewrite length_replicate; lia|]. split.
    + unfold FreeSlots; cbn. pose proof (go_length _ _ _ Hgo) as Hl. rewrite Hp in Hl.
      destruct (free_slots_by_bucket group); [|done]. clear. induction (Z.to_nat n); cbn; [done|].
      unfold sumZ in *. cbn in *. lia.
    + split; [done|]. split; [done|]. split; [unfold buckets; rewrite Hp; cbn; lia|].
      intros h Hne. by rewrite list_lookup_insert_ne.
  - destruct Hcase as [|Hb]; [done|]. pass_check ltac:(unfold buckets in Hb; rewrite Hp in Hb; lia).
    exists self, group. by split_and!.
Qed.

Lemma prepare_spec self g group :
  ok self → group_availability_ self !! g = Some group →
  ∃ self' group', prepareAvailability g (packing group) self = (Ok (), self') ∧ ok self' ∧
    group_availability_ self' !! g = Some group' ∧ packing group' = packing group ∧ 0 < buckets group' ∧
    FreeSlots group' = FreeSlots group ∧
    lcm_blocks_ self' = lcm_blocks_ self ∧ free_parent_ids_ self' = free_parent_ids_ self ∧
    (0 < buckets group → self' = self ∧ group' = group) ∧
    ∀ h, h ≠ g → group_availability_ self' !! h = group_availability_ self !! h.
Proof.
  intros Hok Hg. unfold prepareAvailability.
  assert (availableBlocks g (packing group) self = Ok (capacity self group)) as Hav.
  { unfold availableBlocks, placement. rewrite Hg. cbn [lookup_or mbind result_bind]. by pass_check lia. }
  rewrite (run_bind_Ok _ _ _ _ _ (run_const _ _ _ Hav)).
  rewrite (run_bind_Ok _ _ _ group self); [|apply run_const; unfold placement; by rewrite Hg].
  destruct (parents_by_bucket group) as [|set sets] eqn:Hp.
  - destruct (register_spec self g group 1) as (self' & group' & Hrun & Hok' & Hg' & Hpk & Hb & Hfs & Hl & Hf & _ & Hoth);
      [done|done|lia|apply Z.mod_1_r|by left|].
    exists self', group'. split; [by apply run_update|]. split_and!; try done; [lia|].
    unfold buckets. rewrite Hp. cbn. lia.
  - exists self, group. split; [done|]. split_and!; try done. unfold buckets. rewrite Hp. cbn. lia.
Qed.

Lemma occupied_blocks self self' l : lcm_blocks_ self' = lcm_blocks_ self → occupied self' l ↔ occupied self l.
Proof. intros Hl. unfold occupied, block. by rewrite Hl. Qed.

Lemma owner_blocks self self' l h : lcm_blocks_ self' = lcm_blocks_ self → owner self' l h ↔ owner self l h.
Proof. intros Hl. unfold owner, block. by rewrite Hl. Qed.

Lemma grows_prepared self g group self1 group1 ls self2 :
  group_availability_ self !! g = Some group → group_availability_ self1 !! g = Some group1 →
  packing group1 = packing group → (0 < buckets group → self1 = self ∧ group1 = group) → 0 < buckets group1 →
  lcm_blocks_ self1 = lcm_blocks_ self →
  (∀ h, h ≠ g → group_availability_ self1 !! h = group_availability_ self !! h) →
  grows self1 g ls self2 → grows self g ls self2.
Proof.
  intros Hg Hg1 Hpk Hsame Hnb Hl Hoth [Hok2 Hnd Hfresh Ho Hown Hothers Hgr Hg2 Hbl]. split; try done.
  - intros l Hin Hocc. by apply (Hfresh l Hin), (occupied_blocks self).
  - intros l. by rewrite Ho, (occupied_blocks self self1).
  - intros l h Hocc Hh. apply Hothers; [by apply (occupied_blocks self)|by apply (owner_blocks self)].
  - intros h Hne. by rewrite Hgr, Hoth.
  - intros gr Hgr'. rewrite Hg in Hgr'. injection Hgr' as <-. destruct (Hg2 group1 Hg1) as (group2 & ? & ? & Hb2).
    exists group2. split_and!; [done|congruence|]. intros Hpos. destruct (Hsame Hpos) as [_ ->]. auto.
  - by rewrite Hbl, Hl.
Qed.

(** The loads a caller may pass: none to balance, or one per bucket. *)
Definition valid_loads (group : GroupAvailability) (loads : list Z) : Prop :=
  (1 < length loads)%nat → Z.of_nat (length loads) = buckets group ∧ Forall (Z.le 0) loads.

Lemma acquire_available_spec self g group num loads :
  ok self → group_availability_ self !! g = Some group → valid_loads group loads →
  0 ≤ num ≤ capacity self group →
  ∃ ls self', acquireAvailableBlocks g (packing group) num loads self = (Ok ls, self') ∧
    grows self g ls self' ∧ Z.of_nat (length ls) = num.
Proof.
  intros Hok Hg Hloads Hnum.
  destruct (prepare_spec self g group Hok Hg) as
    (self1 & group1 & Hrun1 & Hok1 & Hg1 & Hpk1 & Hnb1 & Hfs1 & Hl1 & Hf1 & Hsame & Hoth).
  unfold acquireAvailableBlocks. rewrite (run_bind_Ok _ _ _ _ _ Hrun1). rewrite <- Hpk1.
  destruct (acquire_loop_spec (Z.to_nat num) self1 g group1
              (if (1 <? length loads)%nat then loads else [])) as (ls & self2 & Hrun & Hgrow & Hlen); try done.
  - destruct (Nat.ltb_spec 1 (length loads)) as [Hlt|]; [|by left]. right. destruct (Hloads Hlt) as [Hb _].
    destruct Hsame as [_ ->]; [lia|done].
  - unfold capacity, NumEmptyLcmBlocks in *. rewrite Hfs1, Hf1, Hpk1. lia.
  - exists ls, self2. split; [done|]. split; [|lia]. by eapply (grows_prepared self g group self1 group1).
Qed.

(** [AcquireBlocks] returns [num] fresh blocks exactly when the group has room for
    them, and nothing otherwise, without any change. *)
Lemma acquire_blocks_spec self g group num loads :
  ok self → group_availability_ self !! g = Some group → valid_loads group loads →
  (num ≤ 0 ∨ capacity self group < num → AcquireBlocks g num loads self = (Ok [], self)) ∧
  (0 < num ≤ capacity self group →
   ∃ ls self', AcquireBlocks g num loads self = (Ok ls, self') ∧ grows self g ls self' ∧
     Z.of_nat (length ls) = num).
Proof.
  intros Hok Hg Hloads. unfold AcquireBlocks.
  rewrite (run_bind_Ok _ _ _ group self); [|apply run_const; unfold placement; by rewrite Hg].
  destruct (Z.leb_spec num 0) as [|Hnum]; [split; [done|lia]|].
  rewrite (run_bind_Ok _ _ _ () self); cycle 1.
  { apply run_const. destruct (Nat.ltb_spec 1 (length loads)) as [Hlt|]; [|done].
    destruct (Hloads Hlt) as [Hb Hnn]. pass_check ltac:(unfold buckets in Hb; lia).
    apply _assert_Ok, forallb_forall. intros x Hx%list_elem_of_In. apply Z.leb_le.
    by apply (proj1 (Forall_forall _ _) Hnn). }
  rewrite (run_bind_Ok _ _ _ (capacity self group) self); cycle 1.
  { apply run_const. unfold availableBlocks, placement. rewrite Hg. cbn [lookup_or mbind result_bind].
    by pass_check lia. }
  destruct (Z.ltb_spec (capacity self group) num) as [Hlt|Hge]; (split; [|try lia]).
  - done.
  - lia.
  - intros Hn. apply acquire_available_spec; try done. lia.
Qed.

Lemma acquire_up_to_spec self g group num :
  ok self → group_availability_ self !! g = Some group →
  ∃ ls self', AcquireUpToBlocks g num self = (Ok ls, self') ∧ grows self g ls self' ∧
    Z.of_nat (length ls) = Z.max 0 (Z.min num (capacity self group)).
Proof.
  intros Hok Hg. unfold AcquireUpToBlocks.
  rewrite (run_bind_Ok _ _ _ group self); [|apply run_const; unfold placement; by rewrite Hg].
  destruct (Z.leb_spec num 0) as [|Hnum].
  { exists [], self. split; [done|]. split; [by apply grows_nil|]. cbn. lia. }
  rewrite (run_bind_Ok _ _ _ (capacity self group) self); cycle 1.
  { apply run_const. unfold availableBlocks, placement. rewrite Hg. cbn [lookup_or mbind result_bind].
    by pass_check lia. }
  destruct (Z.ltb_spec 0 (Z.min num (capacity self group))) as [Hlt|Hge].
  - destruct (acquire_available_spec self g group (Z.min num (capacity self group)) [] Hok Hg)
      as (ls & self' & Hrun & Hgrow & Hlen); [unfold valid_loads; cbn; lia|lia|].
    exists ls, self'. split; [done|]. split; [done|]. lia.
  - exists [], self. split; [done|]. split; [by apply grows_nil|]. cbn. lia.
Qed.

Lemma count_buckets_fold bs need :
  Forall (λ b, 0 ≤ b < Z.of_nat (length need)) bs →
  ∃ need', foldM (λ need bucket,
      _assert ((0 <=? bucket) && (bucket <? Z.of_nat (length need)))
        "requested bucket is outside the registered shard count";;
      Ok (alter Z.succ (Z.to_nat bucket) need)) need bs = Ok need' ∧ length need' = length need ∧
    ∀ b x, need !! b = Some x → need' !! b = Some (x + demand bs (Z.of_nat b)).
Proof.
  revert need. induction bs as [|b bs IH]; intros need Hbs.
  - exists need. split; [done|]. split; [done|]. intros b x Hx. by rewrite Z.add_0_r.
  - apply Forall_cons in Hbs as [Hb Hbs]. cbn [foldM]. pass_check lia.
    destruct (IH (alter Z.succ (Z.to_nat b) need)) as (need' & Hrun & Hl & Hn).
    { by rewrite length_alter. }
    exists need'. split; [done|]. rewrite length_alter in Hl. split; [done|]. intros b' x Hx. unfold demand.
    destruct (decide (b' = Z.to_nat b)) as [->|Hne].
    + rewrite (Hn _ (Z.succ x)) by (by rewrite list_lookup_alter_eq, Hx). f_equal. unfold demand.
      rewrite filter_cons_True by lia. cbn [length]. lia.
    + rewrite (Hn _ x) by (by rewrite list_lookup_alter_ne). f_equal. unfold demand.
      by rewrite filter_cons_False by lia.
Qed.

Lemma count_buckets_spec bs shards :
  Forall (λ b, 0 ≤ b < Z.of_nat shards) bs →
  ∃ need, count_buckets bs shards = Ok need ∧ length need = shards ∧
    ∀ b x, need !! b = Some x → x = demand bs (Z.of_nat b).
Proof.
  intros Hbs. destruct (count_buckets_fold bs (replicate shards 0)) as (need & Hrun & Hl & Hn).
  { by rewrite length_replicate. }
  rewrite length_replicate in Hl. exists need. split; [done|]. split; [done|]. intros b x Hx.
  specialize (Hn b 0). rewrite lookup_replicate_2 in Hn by (rewrite <- Hl; by eapply lookup_lt_Some).
  specialize (Hn eq_refl). rewrite Hx in Hn. injection Hn as ->. lia.
Qed.

(** Every bucket has room for the blocks asked of it. *)
Definition buckets_fit (self : BlockPool) (group : GroupAvailability) (bs : list Z) : Prop :=
  ∀ b n, potential self group !! b = Some n → demand bs (Z.of_nat b) ≤ n.

Lemma parents_needed_fit self g group bs :
  ok self → group_availability_ self !! g = Some group → 0 < buckets group →
  Forall (λ b, 0 ≤ b < buckets group) bs →
  ∃ need n, count_buckets bs (length (parents_by_bucket group)) = Ok need ∧
    ParentsNeededForBuckets need (free_slots_by_bucket group) 0 (packing group) = Ok n ∧
    (n ≤ NumEmptyLcmBlocks self ↔ buckets_fit self group bs).
Proof.
  intros Hok Hg Hnb Hbs. pose proof (ok_groups _ Hok _ _ Hg) as Hgo.
  destruct (count_buckets_spec bs (length (parents_by_bucket group)) Hbs) as (need & Hneed & Hl & Hn).
  destruct (share_packing self g group Hok Hg Hnb) as [Hpk Hsh].
  destruct (parents_needed_sums need (free_slots_by_bucket group) 0 (packing group) (share group))
    as (n & Hrun & Hn0 & Hiff).
  - intros ->. cbn in Hl. unfold buckets in Hnb. lia.
  - by rewrite Hl, (go_length _ _ _ Hgo).
  - apply Forall_lookup. intros b x Hx. rewrite (Hn b x Hx). unfold demand. lia.
  - by apply (free_slots_nonneg self g).
  - done.
  - done.
  - rewrite Hl. exact Hpk.
  - exists need, n. split; [done|]. split; [done|]. rewrite Hiff by (unfold NumEmptyLcmBlocks; lia).
    unfold buckets_fit, potential. split.
    + intros [Hall _] b m Hm. rewrite list_lookup_fmap in Hm.
      destruct (free_slots_by_bucket group !! b) as [f|] eqn:Hf; [|done]. injection Hm as <-.
      destruct (lookup_lt_is_Some_2 need b) as [x Hx].
      { rewrite Hl, <- (go_length _ _ _ Hgo). by eapply lookup_lt_Some. }
      apply (Forall_lookup_1 _ _ b (x, f)) in Hall; [|by rewrite lookup_zip_with, Hx, Hf].
      cbn in Hall. by rewrite <- (Hn b x Hx).
    + intros Hfit. assert (Forall2 (λ x f, x ≤ f + NumEmptyLcmBlocks self * share group) need (free_slots_by_bucket group)) as Hall.
      { apply Forall2_same_length_lookup. split; [by rewrite Hl, (go_length _ _ _ Hgo)|].
        intros b x f Hx Hf. rewrite (Hn b x Hx). apply Hfit. by rewrite list_lookup_fmap, Hf. }
      split.
      * apply Forall_lookup. intros i [x f] (x' & f' & [= <- <-] & Hx & Hf)%lookup_zip_with_Some. cbn.
        exact (Forall2_lookup_lr _ _ _ _ _ _ Hall Hx Hf).
      * transitivity (sumZ (free_slots_by_bucket group) + Z.of_nat (length need) * (NumEmptyLcmBlocks self * share group)).
        -- clear -Hall. induction Hall as [|x f need fs Hxf Hall IH]; [done|]. rewrite !sumZ_cons. cbn [length]. lia.
        -- rewrite Hl. fold (buckets group). rewrite Hpk. set (sh := share group). clearbody sh. lia.
Qed.

(** [AcquireBlocksInBuckets] returns one fresh block per request, each in its bucket,
    exactly when every bucket has room, and nothing otherwise, without any change. *)
Lemma acquire_in_buckets_spec self g group bs :
  ok self → group_availability_ self !! g = Some group → 0 < buckets group →
  Forall (λ b, 0 ≤ b < buckets group) bs →
  (buckets_fit self group bs →
   ∃ ls self', AcquireBlocksInBuckets g bs self = (Ok ls, self') ∧ grows self g ls self' ∧
     Forall2 (λ b l, slot_index l mod buckets group = b) bs ls) ∧
  (¬ buckets_fit self group bs → AcquireBlocksInBuckets g bs self = (Ok [], self)).
Proof.
  intros Hok Hg Hnb Hbs. unfold AcquireBlocksInBuckets.
  rewrite (run_bind_Ok _ _ _ group self); [|apply run_const; unfold placement; by rewrite Hg].
  destruct bs as [|b0 bs0]; [|remember (b0 :: bs0) as bs eqn:Ebs].
  { split; [|done]. intros _. exists [], self. split; [done|]. split; [by apply grows_nil|constructor]. }
  destruct (prepare_spec self g group Hok Hg) as (self1 & group1 & Hprep & _ & _ & _ & _ & _ & _ & _ & Hsame & _).
  destruct (Hsame Hnb) as [-> ->]. rewrite (run_bind_Ok _ _ _ _ _ Hprep).
  rewrite (run_bind_Ok _ _ _ group self); [|apply run_const; unfold placement; by rewrite Hg].
  destruct (parents_needed_fit self g group bs Hok Hg Hnb Hbs) as (need & n & Hneed & Hn & Hiff).
  rewrite (run_bind_Ok _ _ _ need self) by (by apply run_const).
  rewrite (run_bind_Ok _ _ _ n self) by (by apply run_const).
  rewrite (run_bind_Ok _ _ _ (NumEmptyLcmBlocks self) self) by done.
  destruct (Z.ltb_spec (NumEmptyLcmBlocks self) n) as [Hlt|Hge]; rewrite <- Hiff; (split; [intros Hfit; try lia|intros Hno; try lia]).
  - done.
  - by apply bucket_loop_spec; [done|done|done|done|apply Hiff].
Qed.
