(* ===== verification/BlockPoolSafety.v ===== *)
(** The block pool of the scheduler, [csrc/cache/core/block_pool.h]: releasing a block,
    the states the pool can reach, and the theorems on acquisition, placement and release. *)

From S2P Require Import Prelude PyState Cxx BlockPool BlockPoolFacts.

Local Open Scope Z_scope.

(** ** Releasing a slot *)

(** One slot less is in use; everything else is as before. *)
Record releases (self : BlockPool) (g : nat) (l : CacheBlockLocation) (self' : BlockPool) : Prop := {
  rl_ok : ok self';
  rl_occupied l' : occupied self' l' ↔ occupied self l' ∧ l' ≠ l;
  rl_others l' h : occupied self l' → l' ≠ l → owner self l' h → owner self' l' h;
  rl_groups h : h ≠ g → group_availability_ self' !! h = group_availability_ self !! h;
  rl_group group : group_availability_ self !! g = Some group →
    ∃ group', group_availability_ self' !! g = Some group' ∧ packing group' = packing group ∧
      buckets group' = buckets group ∧
      ∀ b n n', free_slots_by_bucket group !! b = Some n → free_slots_by_bucket group' !! b = Some n' →
        n' + NumEmptyLcmBlocks self' * share group = n + NumEmptyLcmBlocks self * share group
          + if decide (slot_index l mod buckets group = Z.of_nat b) then 1 else 0;
  rl_blocks : length (lcm_blocks_ self') = length (lcm_blocks_ self);
}.

Lemma count_true_none occ : count_true occ = 0 → occ = replicate (length occ) false.
Proof.
  intros H0. induction occ as [|b occ IH]; [done|]. unfold count_true in *. rewrite fmap_cons, sumZ_cons in H0.
  pose proof (count_true_bounds occ) as Hb. unfold count_true in Hb.
  destruct b; cbn [Z.b2z] in H0; [lia|]. cbn. f_equal. apply IH. lia.
Qed.

Section release.
Context (self : BlockPool) (Hok : ok self) (l : CacheBlockLocation) (p : LcmBlock) (g : nat).
Context (group : GroupAvailability) (Hp : block self (lcm_block_id l) p) (Hb : bound_group p = Some g).
Context (Hg : group_availability_ self !! g = Some group) (Hnb : 0 < buckets group).
Context (Hpo : parent_ok (buckets group) (packing group) p).
Context (Hs : 0 ≤ slot_index l) (Ho : occupancy p !! Z.to_nat (slot_index l) = Some true).

Let occ := <[Z.to_nat (slot_index l) := false]> (occupancy p).

Lemma dropped_back : <[Z.to_nat (slot_index l) := true]> occ = occupancy p.
Proof. by apply take_drop_slot. Qed.

Lemma dropped_free : occ !! Z.to_nat (slot_index l) = Some false.
Proof. by eapply drop_slot_free. Qed.

Lemma dropped_length : Z.of_nat (length occ) = packing group.
Proof. unfold occ. rewrite length_insert. apply Hpo. Qed.

Lemma dropped_count : count_true occ = occupied_count p - 1.
Proof.
  rewrite (po_count _ _ _ Hpo), <- dropped_back, (count_true_take _ _ dropped_free). lia.
Qed.

Lemma dropped_holes b :
  Z.of_nat (length (holes (buckets group) occ b)) =
  Z.of_nat (length (holes (buckets group) (occupancy p) b)) +
    if decide (slot_index l mod buckets group = b) then 1 else 0.
Proof. rewrite <- dropped_back, (holes_take_length _ _ _ _ Hs dropped_free). lia. Qed.

Lemma dropped_slots s :
  occ !! s = Some true ↔ occupancy p !! s = Some true ∧ s ≠ Z.to_nat (slot_index l).
Proof.
  destruct (decide (s = Z.to_nat (slot_index l))) as [->|Hne].
  - rewrite dropped_free. naive_solver.
  - unfold occ. rewrite list_lookup_insert_ne by done. naive_solver.
Qed.

(** What [Release] leaves behind, whether or not the parent stays in its group. *)
Section change.
Context (p' : LcmBlock) (group' : GroupAvailability) (free' : list Z).
Context (Hok' : ok (mkPool (<[Z.to_nat (lcm_block_id l - 1) := p']> (lcm_blocks_ self)) free'
                     (<[g := group']> (group_availability_ self)))).
Context (Hbound : bound_group p' = Some g ∨ occupancy p' = []).
Context (Hslots : ∀ s, occupancy p' !! s = Some true ↔ occ !! s = Some true).
Context (Hpk : packing group' = packing group) (Hbk : buckets group' = buckets group).
Context (Hacc : ∀ b n n', free_slots_by_bucket group !! b = Some n → free_slots_by_bucket group' !! b = Some n' →
  n' + Z.of_nat (length free') * share group = n + NumEmptyLcmBlocks self * share group
    + if decide (slot_index l mod buckets group = Z.of_nat b) then 1 else 0).

Lemma change_releases :
  releases self g l (mkPool (<[Z.to_nat (lcm_block_id l - 1) := p']> (lcm_blocks_ self)) free'
                       (<[g := group']> (group_availability_ self))).
Proof.
  split; [done|..].
  - intros l'. unfold occupied. split.
    + intros (q & Hq & Hs' & Ho'). apply (block_update _ _ _ _ _ _ _ _ Hp) in Hq as [[Hid ->]|[Hne Hq]].
      * apply Hslots, dropped_slots in Ho' as [Ho' Hne]. split; [|congruence]. exists p. by rewrite Hid.
      * split; [by exists q|congruence].
    + intros [(q & Hq & Hs' & Ho') Hne]. destruct (decide (lcm_block_id l' = lcm_block_id l)) as [Hid|Hid].
      * exists p'. rewrite (block_update _ _ _ _ _ _ _ _ Hp). split; [by left|]. split; [done|].
        rewrite Hid in Hq. rewrite (block_fun _ _ _ _ Hq Hp) in Ho'. apply Hslots, dropped_slots. split; [done|].
        intros Heq. apply Hne. destruct l, l'; cbn in *. f_equal; lia.
      * exists q. rewrite (block_update _ _ _ _ _ _ _ _ Hp). tauto.
  - intros l' h (q & Hq & Hs' & Ho') Hne (q' & Hq' & Hh). rewrite (block_fun _ _ _ _ Hq' Hq) in Hh.
    destruct (decide (lcm_block_id l' = lcm_block_id l)) as [Hid|Hid].
    + exists p'. rewrite (block_update _ _ _ _ _ _ _ _ Hp). split; [by left|].
      rewrite Hid in Hq. rewrite (block_fun _ _ _ _ Hq Hp) in *. destruct Hbound as [E|E]; [congruence|].
      exfalso. assert (occupancy p' !! Z.to_nat (slot_index l') = Some true) as Hx; [|by rewrite E in Hx].
      apply Hslots, dropped_slots. split; [done|]. intros Heq. apply Hne. destruct l, l'; cbn in *. f_equal; lia.
    + exists q. rewrite (block_update _ _ _ _ _ _ _ _ Hp). tauto.
  - intros h Hne. cbn. by rewrite list_lookup_insert_ne.
  - intros gr Hgr. rewrite Hg in Hgr. injection Hgr as <-. exists group'. cbn [group_availability_].
    rewrite list_lookup_insert_eq by (by eapply lookup_lt_Some). by split_and!.
  - cbn. by rewrite length_insert.
Qed.
End change.

(** The group once its parent is out of the index and the slot is counted as free. *)
Lemma drop_staged :
  ∃ group1 group2 h, removeAvailability group p (lcm_block_id l) = Ok group1 ∧
    staged self (lcm_block_id l) p g group p group1 (free_parent_ids_ self) ∧
    free_slots_by_bucket group !! Z.to_nat (slot_index l mod buckets group) = Some h ∧
    group2 = mkGroup (packing group)
      (<[Z.to_nat (slot_index l mod buckets group) := h + 1]> (free_slots_by_bucket group)) (parents_by_bucket group1) ∧
    drop_slot (slot_index l) p group1 =
      Ok (mkLcmBlock (Some g) occ (occupied_count p - 1) (first_free_slots p), group2).
Proof.
  pose proof (Z.mod_pos_bound (slot_index l) _ Hnb) as Hm.
  destruct (stage_hole self (lcm_block_id l) p g group Hok Hp Hb Hg) as (group1 & Hrem & Hst).
  destruct (lookup_lt_is_Some_2 (free_slots_by_bucket group) (Z.to_nat (slot_index l mod buckets group))) as [h Hh].
  { rewrite (go_length _ _ _ (ok_groups _ Hok _ _ Hg)). unfold buckets in *. lia. }
  exists group1. eexists. exists h. split; [done|]. split; [done|]. split; [done|]. split; [done|].
  unfold drop_slot. fold (buckets group1). pose proof (staged_buckets self l p g group p group1 _ Hst) as ->.
  destruct (removeAvailability_spec self _ p g group Hok Hp Hb Hg) as (ps & Hrem' & _).
  rewrite Hrem in Hrem'. injection Hrem' as ->. cbn [set_parents free_slots_by_bucket].
  rewrite (vec_at_some _ _ _ (proj1 Hm) Hh). cbn [mbind result_bind]. by rewrite Hb.
Qed.

Lemma dropped_group_holes h b n n' :
  free_slots_by_bucket group !! Z.to_nat (slot_index l mod buckets group) = Some h →
  free_slots_by_bucket group !! b = Some n →
  <[Z.to_nat (slot_index l mod buckets group) := h + 1]> (free_slots_by_bucket group) !! b = Some n' →
  n' = n + if decide (slot_index l mod buckets group = Z.of_nat b) then 1 else 0.
Proof.
  intros Hh Hn Hn'. pose proof (Z.mod_pos_bound (slot_index l) _ Hnb) as Hm.
  destruct (decide (b = Z.to_nat (slot_index l mod buckets group))) as [->|Hne].
  - rewrite list_lookup_insert_eq in Hn' by (by eapply lookup_lt_Some). rewrite decide_True by lia. simplify_eq. lia.
  - rewrite list_lookup_insert_ne in Hn' by done. rewrite decide_False by lia. simplify_eq. lia.
Qed.

Lemma kept_parent :
  occupied_count p - 1 ≠ 0 →
  ∃ x, first_free_slots p !! Z.to_nat (slot_index l mod buckets group) = Some x ∧
    parent_ok (buckets group) (packing group) (mkLcmBlock (Some g) occ (occupied_count p - 1)
      (<[Z.to_nat (slot_index l mod buckets group) := Z.min x (slot_index l)]> (first_free_slots p))).
Proof.
  intros Hmore. pose proof (Z.mod_pos_bound (slot_index l) _ Hnb) as Hm.
  pose proof dropped_length as Hl. pose proof dropped_count as Hc. pose proof (count_true_bounds occ) as Hbo.
  pose proof (po_pos _ _ _ Hpo) as Hpos. pose proof dropped_free as Hfree. pose proof (lookup_lt_Some _ _ _ Hfree) as Hlt.
  destruct (po_first _ _ _ Hpo) as [Hfl Hfirst].
  { enough (count_true occ ≠ Z.of_nat (length occ)) by lia. intros Hfull.
    by apply (proj1 (count_true_full _) Hfull) in Hfree. }
  destruct (lookup_lt_is_Some_2 (first_free_slots p) (Z.to_nat (slot_index l mod buckets group))) as [x Hx]; [lia|].
  exists x. split; [done|]. split; cbn [occupancy occupied_count first_free_slots]; [done|done|lia|].
  intros _. split; [by rewrite length_insert|]. intros b y Hy. rewrite <- dropped_back in Hfirst.
  destruct (decide (b = Z.to_nat (slot_index l mod buckets group))) as [->|Hne].
  - rewrite list_lookup_insert_eq in Hy by (by eapply lookup_lt_Some). injection Hy as <-.
    specialize (Hfirst _ _ Hx). rewrite Z2Nat.id in * by lia. apply first_after_drop; [lia|done|done].
  - rewrite list_lookup_insert_ne in Hy by done. specialize (Hfirst _ _ Hy).
    eapply first_drop_other; [|  |exact Hfirst]; lia.
Qed.

(** The parent keeps other slots in use: it stays in the group, in the index under its
    new count. *)
Lemma drop_keep h group1 :
  occupied_count p - 1 ≠ 0 →
  staged self (lcm_block_id l) p g group p group1 (free_parent_ids_ self) →
  free_slots_by_bucket group !! Z.to_nat (slot_index l mod buckets group) = Some h →
  ∃ x group3, first_free_slots p !! Z.to_nat (slot_index l mod buckets group) = Some x ∧
    let p2 := mkLcmBlock (Some g) occ (occupied_count p - 1)
      (<[Z.to_nat (slot_index l mod buckets group) := Z.min x (slot_index l)]> (first_free_slots p)) in
    addAvailability (mkGroup (packing group)
        (<[Z.to_nat (slot_index l mod buckets group) := h + 1]> (free_slots_by_bucket group))
        (parents_by_bucket group1)) p2 (lcm_block_id l) = Ok group3 ∧
    releases self g l (mkPool (<[Z.to_nat (lcm_block_id l - 1) := p2]> (lcm_blocks_ self))
                         (free_parent_ids_ self) (<[g := group3]> (group_availability_ self))).
Proof.
  intros Hmore Hst Hh. destruct (kept_parent Hmore) as (x & Hx & Hpo2). exists x.
  set (p2 := mkLcmBlock _ _ _ _) in *. set (group2 := mkGroup _ _ _).
  assert (buckets group2 = buckets group) as Hb2 by exact (staged_buckets self l p g group p group1 _ Hst).
  destruct (addAvailability_spec group2 p2 (lcm_block_id l)) as (parents3 & Hadd & Hl3 & Hsets3).
  { by rewrite Hb2. }
  { intros b set Hset. destruct (st_sets _ _ _ _ _ _ _ _ Hst b set Hset) as (Hsorted & set0 & _ & Hiff).
    split; [done|]. intros o Hin. by apply Hiff in Hin as []. }
  exists (set_parents parents3 group2). split; [done|]. split; [done|].
  assert (∀ b n n', free_slots_by_bucket group !! b = Some n → free_slots_by_bucket group2 !! b = Some n' →
    n' = n + if decide (slot_index l mod buckets group = Z.of_nat b) then 1 else 0) as Hn2.
  { intros b n n' Hn Hn'. by apply (dropped_group_holes h b). }
  apply change_releases; [|by left|done|done|by unfold buckets in *; cbn [set_parents parents_by_bucket]; lia|].
  - apply (ok_update self Hok (lcm_block_id l) p p2 g group); try done; try by right.
    + apply Hok.
    + intros i. cbn [bound_group p2]. split; [|naive_solver]. intros Hi. right. split; [|done].
      by apply (st_free _ _ _ _ _ _ _ _ Hst) in Hi as [].
    + cbn [set_parents parents_by_bucket]. rewrite Hl3. apply Hst.
    + cbn. by rewrite length_insert.
    + intros b n n' Hn Hn'. rewrite (Hn2 b n n' Hn Hn'). rewrite !holes_of_bound by done.
      cbn [occupancy p2]. rewrite dropped_holes. lia.
    + intros b set' Hset'. destruct (Hsets3 b set' Hset') as (Hsorted & set2 & Hset2 & Hiff). split; [done|].
      destruct (st_sets _ _ _ _ _ _ _ _ Hst b set2 Hset2) as (_ & set & Hset & Hiff2). exists set.
      split; [done|]. intros o i. rewrite Hiff, Hiff2, Hb2. by rewrite holes_of_bound.
  - intros b n n' Hn Hn'. rewrite (Hn2 b n n' Hn Hn'). unfold NumEmptyLcmBlocks. lia.
Qed.

Lemma free_room : (length (free_parent_ids_ self) < length (lcm_blocks_ self))%nat.
Proof.
  enough (length (lcm_block_id l :: free_parent_ids_ self) ≤ length (seqZ 1 (Z.of_nat (length (lcm_blocks_ self)))))%nat
    as Hle by (rewrite length_seqZ in Hle; cbn in Hle; lia).
  assert (∀ i q, block self i q → i ∈ seqZ 1 (Z.of_nat (length (lcm_blocks_ self)))) as Hin.
  { intros i q [Hi Hq]. apply lookup_lt_Some in Hq. apply elem_of_seqZ. lia. }
  apply submseteq_length, NoDup_submseteq.
  - constructor; [|apply Hok]. intros (q & Hq & Hn)%(ok_free _ Hok).
    rewrite (block_fun _ _ _ _ Hq Hp) in Hn. congruence.
  - intros i [->|(q & Hq & _)%(ok_free _ Hok)]%elem_of_cons; by eapply Hin.
Qed.

(** A parent with one slot in use offers all its others. *)
Lemma last_slot_holes b :
  occupied_count p - 1 = 0 → 0 ≤ b < buckets group →
  Z.of_nat (length (holes (buckets group) (occupancy p) b)) +
    (if decide (slot_index l mod buckets group = b) then 1 else 0) = share group.
Proof.
  intros Hlast Hbb. rewrite <- dropped_holes. pose proof dropped_count as Hc. rewrite Hlast in Hc.
  destruct (share_packing self g group Hok Hg Hnb) as [Hpk Hsh].
  rewrite (count_true_none _ Hc), <- (Nat2Z.id (length occ)), dropped_length.
  rewrite Hpk at 1. rewrite fresh_holes by lia. lia.
Qed.

Lemma unbound_releases group1 slots :
  occupied_count p - 1 = 0 →
  staged self (lcm_block_id l) p g group p group1 (free_parent_ids_ self) →
  (∀ b n, free_slots_by_bucket group !! b = Some n →
     slots !! b = Some (n - Z.of_nat (length (holes (buckets group) (occupancy p) (Z.of_nat b))))) →
  length slots = length (free_slots_by_bucket group) →
  releases self g l (mkPool (<[Z.to_nat (lcm_block_id l - 1) := empty_block]> (lcm_blocks_ self))
    (free_parent_ids_ self ++ [lcm_block_id l])
    (<[g := mkGroup (packing group) slots (parents_by_bucket group1)]> (group_availability_ self))).
Proof.
  intros Hlast Hst Hslots Hlen. pose proof (ok_groups _ Hok _ _ Hg) as Hgo.
  pose proof (st_free _ _ _ _ _ _ _ _ Hst) as Hfree.
  apply change_releases; [|by right|..].
  - apply (ok_update self Hok (lcm_block_id l) p empty_block g group); try done; try (by left); try (by right).
    + apply NoDup_app. split; [apply Hok|]. split; [|apply NoDup_singleton].
      intros i [? ?]%Hfree ->%list_elem_of_singleton. done.
    + intros i. rewrite elem_of_app, list_elem_of_singleton. rewrite Hfree at 1. cbn. naive_solver.
    + apply Hst.
    + intros b n n' Hn Hn'. cbn [free_slots_by_bucket] in Hn'. rewrite (Hslots b n Hn) in Hn'. injection Hn' as <-.
      rewrite (holes_of_unbound _ _ empty_block) by done. rewrite holes_of_bound by done. cbn. lia.
    + intros b set' Hset'. destruct (st_sets _ _ _ _ _ _ _ _ Hst b set' Hset') as (Hsorted & set & Hset & Hiff).
      split; [done|]. exists set. split; [done|]. intros o i. rewrite Hiff, holes_of_unbound by done. tauto.
  - intros s. pose proof dropped_count as Hc. rewrite Hlast in Hc. rewrite (count_true_none _ Hc), lookup_replicate.
    cbn. naive_solver.
  - done.
  - exact (staged_buckets self l p g group p group1 _ Hst).
  - intros b n n' Hn Hn'. cbn [free_slots_by_bucket] in Hn'. rewrite (Hslots b n Hn) in Hn'. injection Hn' as <-.
    unfold NumEmptyLcmBlocks. rewrite length_app, Nat2Z.inj_add. cbn [length].
    apply lookup_lt_Some in Hn. rewrite (go_length _ _ _ Hgo) in Hn.
    rewrite <- (last_slot_holes (Z.of_nat b) Hlast) by (unfold buckets; lia). lia.
Qed.

(** The last slot of the parent: it leaves the group for the end of the queue. *)
Lemma drop_unbind h group1 :
  occupied_count p - 1 = 0 →
  staged self (lcm_block_id l) p g group p group1 (free_parent_ids_ self) →
  free_slots_by_bucket group !! Z.to_nat (slot_index l mod buckets group) = Some h →
  ∃ p3 group3 free3,
    unbind_parent (lcm_block_id l) (mkLcmBlock (Some g) occ (occupied_count p - 1) (first_free_slots p))
      (mkGroup (packing group)
        (<[Z.to_nat (slot_index l mod buckets group) := h + 1]> (free_slots_by_bucket group))
        (parents_by_bucket group1)) (free_parent_ids_ self) (length (lcm_blocks_ self)) = Ok (p3, group3, free3) ∧
    releases self g l (mkPool (<[Z.to_nat (lcm_block_id l - 1) := p3]> (lcm_blocks_ self))
                         free3 (<[g := group3]> (group_availability_ self))).
Proof.
  intros Hlast Hst Hh. pose proof (staged_buckets self l p g group p group1 _ Hst) as Hb1.
  set (slots := <[_ := _]> _). pose proof (ok_groups _ Hok _ _ Hg) as Hgo.
  assert (∀ b n, free_slots_by_bucket group !! b = Some n →
    slots !! b = Some (n - Z.of_nat (length (holes (buckets group) (occupancy p) (Z.of_nat b))) + share group) ∧
    Z.of_nat (length (holes (buckets group) (occupancy p) (Z.of_nat b))) ≤ n) as Hslots.
  { intros b n Hn. pose proof (lookup_lt_Some _ _ _ Hn) as Hlt.
    destruct (lookup_lt_is_Some_2 slots b) as [n' Hn']; [unfold slots; by rewrite length_insert|].
    rewrite Hn', (dropped_group_holes h b n n' Hh Hn Hn'), <- (last_slot_holes (Z.of_nat b) Hlast).
    - split; [f_equal; lia|]. rewrite <- (holes_of_bound g) by done.
      by apply (bucket_holes_nonneg self Hok l p g group Hp Hg).
    - rewrite (go_length _ _ _ Hgo) in Hlt. unfold buckets. lia. }
  unfold unbind_parent. cbn [occupancy occupied_count packing free_slots_by_bucket parents_by_bucket].
  fold (buckets group1). rewrite Hb1, dropped_length. fold (share group).
  assert (mapM (λ holes, FatalCheck (share group <=? holes) "group free-slot count underflow on unbind";;
                         Ok (holes - share group)) slots = Ok ((λ holes, holes - share group) <$> slots)) as ->.
  { apply mapM_Ok, Forall2_fmap_r, Forall_Forall2_diag, Forall_lookup. intros b n' Hn'.
    destruct (lookup_lt_is_Some_2 (free_slots_by_bucket group) b) as [n Hn].
    { apply lookup_lt_Some in Hn'. unfold slots in Hn'. by rewrite length_insert in Hn'. }
    destruct (Hslots b n Hn) as [Hn2 Hle]. rewrite Hn2 in Hn'. injection Hn' as <-. by pass_check lia. }
  cbn [mbind result_bind]. pass_check ltac:(apply Nat.ltb_lt, free_room). rewrite Hlast.
  eexists _, _, _. split; [done|]. apply unbound_releases with (group1 := group1); try done.
  - intros b n Hn. rewrite list_lookup_fmap. destruct (Hslots b n Hn) as [-> _]. cbn. f_equal. lia.
  - unfold slots. by rewrite length_fmap, length_insert.
Qed.
End release.

(** [Release] of a slot in use puts that slot back and nothing else. *)
Lemma release_spec self l :
  ok self → occupied self l →
  ∃ g self', owner self l g ∧ Release l self = Ok self' ∧ releases self g l self'.
Proof.
  intros Hok (p & Hp & Hs & Ho).
  destruct (bound_group p) as [g|] eqn:Hb; [|by rewrite (ok_unbound _ Hok _ _ Hp Hb) in Ho].
  destruct (ok_bound _ Hok _ _ _ Hp Hb) as (group & Hg & Hnb & Hpo).
  destruct (drop_staged self Hok l p g group Hp Hb Hg Hnb) as (group1 & group2 & h & Hrem & Hst & Hh & -> & Hdrop).
  pose proof (Z.mod_pos_bound (slot_index l) _ Hnb) as Hm. pose proof (po_pos _ _ _ Hpo) as Hpos.
  exists g. unfold Release. pose proof Hp as [Hid Hlook]. pose proof (lookup_lt_Some _ _ _ Hlook).
  pass_check ltac:(unfold NumLcmBlocks; lia). rewrite (vec_at_some _ _ p) by (lia || done). cbn [mbind result_bind].
  pose proof (lookup_lt_Some _ _ _ Ho). pass_check lia.
  pass_check ltac:(unfold slot_occupied; rewrite Ho; cbn; lia).
  rewrite Hb. cbn [lookup_or mbind result_bind]. unfold placement. rewrite Hg. cbn [lookup_or mbind result_bind].
  rewrite Hrem. cbn [mbind result_bind]. rewrite Hdrop. cbn [mbind result_bind occupied_count].
  fold (buckets group). cbn [first_free_slots bound_group occupancy].
  destruct (Z.eqb_spec (occupied_count p - 1) 0) as [Hlast|Hmore].
  - destruct (drop_unbind self Hok l p g group Hp Hb Hg Hnb Hpo Hs Ho h group1 Hlast Hst Hh)
      as (p3 & group3 & free3 & -> & Hrel). cbn [mbind result_bind]. eexists. split; [by exists p|]. by split.
  - destruct (drop_keep self Hok l p g group Hp Hb Hg Hnb Hpo Hs Ho h group1 Hmore Hst Hh)
      as (x & group3 & Hx & Hadd & Hrel).
    rewrite (vec_at_some _ _ x (proj1 Hm) Hx). cbn [mbind result_bind]. rewrite Hadd. cbn [mbind result_bind].
    eexists. split; [by exists p|]. by split.
Qed.

(** ** The states the pool can reach *)

Lemma new_ok num slots self : BlockPool_new num slots = Ok self → ok self.
Proof.
  unfold BlockPool_new. intros Hnew. apply bind_Ok in Hnew as (u & Hn & Hnew). apply _assert_Ok in Hn.
  apply bind_Ok in Hnew as (groups & Hgroups%mapM_Ok & [= <-]).
  assert (∀ id p, block (mkPool (replicate (Z.to_nat num) empty_block) (seqZ 1 num) groups) id p →
    p = empty_block ∧ 1 ≤ id ≤ num) as Hblock.
  { intros id p [Hid Hp]. cbn in Hp. apply lookup_replicate in Hp as [-> Hlt]. split; [done|lia]. }
  assert (∀ g group, groups !! g = Some group →
    0 < packing group ∧ num * packing group ≤ INT32_MAX ∧ group = mkGroup (packing group) [] []) as Hgr.
  { intros g group Hg. destruct (Forall2_lookup_r _ _ _ _ _ Hgroups Hg) as (pk & _ & Hrun). cbn in Hrun.
    apply bind_Ok in Hrun as (? & Hpos & Hrun). apply bind_Ok in Hrun as (? & H32 & [= <-]).
    apply _assert_Ok in Hpos. apply _assert_Ok in H32.
    cbn. split_and!; [lia|lia|done]. }
  split; cbn [free_parent_ids_ group_availability_].
  - apply NoDup_seqZ.
  - intros id. rewrite elem_of_seqZ. split.
    + intros Hid. exists empty_block. split; [|done]. split; [lia|]. cbn. apply lookup_replicate_2. lia.
    + intros (p & Hp & _). apply Hblock in Hp as [_ ?]. lia.
  - intros id p Hp _. by apply Hblock in Hp as [-> _].
  - intros id p g Hp Hb. by apply Hblock in Hp as [-> _].
  - intros g group Hg. destruct (Hgr g group Hg) as (? & ? & ->). by split.
  - intros g group Hg. unfold NumLcmBlocks. cbn. rewrite length_replicate. destruct (Hgr g group Hg) as (? & ? & _). lia.
Qed.

(** The calls of the pool's clients. *)
Inductive request :=
  | RegisterRequest (group_id : nat) (packing' shard_count : Z)
  | AcquireRequest (group_id : nat) (num : Z) (bucket_loads : list Z)
  | AcquireUpToRequest (group_id : nat) (max_num : Z)
  | AcquireInBucketsRequest (group_id : nat) (buckets : list Z)
  | ReleaseRequest (location : CacheBlockLocation).

Definition serve (r : request) : M BlockPool (list CacheBlockLocation) :=
  match r with
  | RegisterRequest g packing' n => update (RegisterGroup g packing' n) ;; mret []
  | AcquireRequest g num loads => AcquireBlocks g num loads
  | AcquireUpToRequest g num => AcquireUpToBlocks g num
  | AcquireInBucketsRequest g bs => AcquireBlocksInBuckets g bs
  | ReleaseRequest l => update (Release l) ;; mret []
  end.

(** A client names a group of the pool and releases a block it holds. *)
Definition allowed (self : BlockPool) (r : request) : Prop :=
  match r with
  | RegisterRequest g _ _ | AcquireRequest g _ _ | AcquireUpToRequest g _ | AcquireInBucketsRequest g _ =>
      (g < length (group_availability_ self))%nat
  | ReleaseRequest l => occupied self l
  end.

(** States after any requests, also ones a check refused with an exception. *)
Inductive reachable : BlockPool → Prop :=
  | reach_new num slots self : BlockPool_new num slots = Ok self → reachable self
  | reach_serve self r answer self' :
      reachable self → allowed self r → serve r self = (answer, self') → reachable self'.

(** The process ended, or the C++ behaviour is undefined. *)
Definition fatal {A} (r : result A) : bool :=
  match r with Raise (Abort _) | Raise (Undefined _) => true | _ => false end.

(** ** What the pool promises: an allocator of locations *)

(** The group that holds a location, as the pool's queries report it. *)
Definition live (self : BlockPool) (l : CacheBlockLocation) : option nat :=
  if 0 <? lcm_block_id l then
    p ← lcm_blocks_ self !! Z.to_nat (lcm_block_id l - 1);
    if slot_occupied p (slot_index l) then bound_group p else None
  else None.

Lemma live_Some self l g : live self l = Some g ↔ occupied self l ∧ owner self l g.
Proof.
  unfold live, occupied, owner, block, slot_occupied. split.
  - destruct (Z.ltb_spec 0 (lcm_block_id l)); [|done].
    destruct (lcm_blocks_ self !! _) as [p|] eqn:Hp; [|done]. cbn.
    destruct (occupancy p !! Z.to_nat (slot_index l)) as [[]|] eqn:Ho; cbn;
      destruct (Z.leb_spec 0 (slot_index l)); cbn; try done. intros Hb. split; by exists p.
  - intros [(p & [Hid Hp] & Hs & Ho) (q & [_ Hq] & Hb)]. rewrite Hp in Hq. injection Hq as <-.
    rewrite (proj2 (Z.ltb_lt _ _)) by done. rewrite Hp. cbn. rewrite Ho. cbn.
    by rewrite (proj2 (Z.leb_le _ _)).
Qed.

Lemma occupied_owner self l : ok self → occupied self l → ∃ g, owner self l g.
Proof.
  intros Hok (p & Hp & _ & Ho). destruct (bound_group p) as [g|] eqn:Hb; [by exists g, p|].
  by rewrite (ok_unbound _ Hok _ _ Hp Hb) in Ho.
Qed.

Lemma live_None self l : ok self → live self l = None ↔ ¬ occupied self l.
Proof.
  intros Hok. split.
  - intros Hn Ho. destruct (occupied_owner self l Hok Ho) as [g Hg].
    assert (live self l = Some g) by (by apply live_Some). congruence.
  - intros Hn. destruct (live self l) as [g|] eqn:Hl; [|done]. by apply live_Some in Hl as [].
Qed.

Lemma owner_fun self l g h : owner self l g → owner self l h → g = h.
Proof. intros (p & Hp & Hb) (q & Hq & Hc). rewrite (block_fun _ _ _ _ Hq Hp) in Hc. congruence. Qed.

Lemma live_grows self g ls self' l :
  ok self → grows self g ls self' → live self' l = if decide (l ∈ ls) then Some g else live self l.
Proof.
  intros Hok Hgr. case_decide as Hin.
  - apply live_Some. split; [apply (gr_occupied _ _ _ _ Hgr); by right|by apply (gr_owner _ _ _ _ Hgr)].
  - destruct (live self l) as [h|] eqn:Hl.
    + apply live_Some in Hl as [Ho Hh]. apply live_Some.
      split; [apply (gr_occupied _ _ _ _ Hgr); by left|by apply (gr_others _ _ _ _ Hgr)].
    + apply live_None in Hl; [|done]. apply live_None; [apply Hgr|]. rewrite (gr_occupied _ _ _ _ Hgr). tauto.
Qed.

Lemma live_releases self g l self' l' :
  ok self → releases self g l self' → live self' l' = if decide (l' = l) then None else live self l'.
Proof.
  intros Hok Hrl. case_decide as Heq.
  - apply live_None; [apply Hrl|]. rewrite (rl_occupied _ _ _ _ Hrl). tauto.
  - destruct (live self l') as [h|] eqn:Hl.
    + apply live_Some in Hl as [Ho Hh]. apply live_Some.
      split; [by apply (rl_occupied _ _ _ _ Hrl)|by apply (rl_others _ _ _ _ Hrl)].
    + apply live_None in Hl; [|done]. apply live_None; [apply Hrl|]. rewrite (rl_occupied _ _ _ _ Hrl). tauto.
Qed.

Lemma live_blocks self self' l : lcm_blocks_ self' = lcm_blocks_ self → live self' l = live self l.
Proof. intros Hl. unfold live. by rewrite Hl. Qed.

(** The group a request acquires for, and the number of blocks it may be given. *)
Definition acquires (r : request) (n : Z) : option nat :=
  match r with
  | AcquireRequest g num _ => if decide (n = Z.max 0 num ∨ n = 0) then Some g else None
  | AcquireUpToRequest g num => if decide (n ≤ Z.max 0 num) then Some g else None
  | AcquireInBucketsRequest g bs => if decide (n = Z.of_nat (length bs) ∨ n = 0) then Some g else None
  | _ => None
  end.

(** The abstract allocator: a map from locations to groups. *)
Inductive allocator (held : CacheBlockLocation → option nat) :
    request → result (list CacheBlockLocation) → (CacheBlockLocation → option nat) → Prop :=
  | alloc_refuse r message held' :
      (∀ l, held' l = held l) → allocator held r (Raise (RuntimeError message)) held'
  | alloc_register g packing' n held' :
      (∀ l, held' l = held l) → allocator held (RegisterRequest g packing' n) (Ok []) held'
  | alloc_acquire r g ls held' :
      acquires r (Z.of_nat (length ls)) = Some g → NoDup ls → (∀ l, l ∈ ls → held l = None) →
      (∀ l, held' l = if decide (l ∈ ls) then Some g else held l) →
      allocator held r (Ok ls) held'
  | alloc_release l g held' :
      held l = Some g → (∀ l', held' l' = if decide (l' = l) then None else held l') →
      allocator held (ReleaseRequest l) (Ok []) held'.

(** One served request keeps the invariant and is a step of the allocator. *)
Definition served (self : BlockPool) (r : request) : Prop :=
  ∃ answer self', serve r self = (answer, self') ∧ ok self' ∧ fatal answer = false ∧
    allocator (live self) r answer (live self').


Lemma grows_served self r g ls self' :
  ok self → serve r self = (Ok ls, self') → acquires r (Z.of_nat (length ls)) = Some g →
  grows self g ls self' → served self r.
Proof.
  intros Hok Hrun Hacq Hgr. exists (Ok ls), self'. split; [done|]. split; [apply Hgr|]. split; [done|].
  apply (alloc_acquire _ _ g); [done|apply Hgr|..].
  - intros l Hin. apply live_None; [done|]. by apply (gr_fresh _ _ _ _ Hgr).
  - intros l. by apply live_grows.
Qed.

Lemma refused_served self r message self' :
  serve r self = (Raise (RuntimeError message), self') → ok self' → lcm_blocks_ self' = lcm_blocks_ self →
  served self r.
Proof.
  intros Hrun Hok' Hl. eexists _, self'. split; [done|]. split; [done|]. split; [done|]. apply alloc_refuse.
  intros l. by apply live_blocks.
Qed.

Lemma _assert_fail {A} b msg (k : () → result A) : b = false → _assert b msg ≫= k = Raise (RuntimeError msg).
Proof. by intros ->. Qed.

Lemma serve_register self g packing' n : ok self → (g < length (group_availability_ self))%nat →
  served self (RegisterRequest g packing' n).
Proof.
  intros Hok [group Hg]%lookup_lt_is_Some_2.
  assert ((∃ message, RegisterGroup g packing' n self = Raise (RuntimeError message)) ∨
    ∃ self', RegisterGroup g packing' n self = Ok self' ∧ ok self' ∧ lcm_blocks_ self' = lcm_blocks_ self)
    as [[message Hrun]|(self' & Hrun & Hok' & Hl)].
  { destruct (decide (0 < packing' ∧ 0 < n ∧ packing' mod n = 0)) as [(Hpk & Hn & Hdiv)|Hno]; cycle 1.
    { left. eexists. apply _assert_fail. lia. }
    destruct (decide (packing' = packing group)) as [->|Hne]; cycle 1.
    { left. eexists. unfold RegisterGroup, placement. pass_check lia. rewrite Hg. cbn [lookup_or mbind result_bind].
      apply _assert_fail. lia. }
    destruct (decide (parents_by_bucket group = [] ∨ buckets group = n)) as [Hcase|Hno].
    - right. destruct (register_spec self g group n Hok Hg Hn Hdiv Hcase) as (self' & _ & ? & ? & _ & _ & _ & _ & ? & _).
      by exists self'.
    - left. eexists. unfold RegisterGroup, placement. pass_check lia. rewrite Hg. cbn [lookup_or mbind result_bind].
      pass_check lia. destruct (parents_by_bucket group) eqn:Hp; [tauto|]. apply _assert_fail.
      unfold buckets in Hno. rewrite Hp in Hno. lia. }
  - apply (refused_served self _ message self); [|done|done]. cbn. unfold update, mbind, M_bind. by rewrite Hrun.
  - exists (Ok []), self'. split; [cbn; unfold update, mbind, M_bind; by rewrite Hrun|]. split; [done|].
    split; [done|]. apply alloc_register. intros l. by apply live_blocks.
Qed.

Lemma serve_acquire self g num loads : ok self → (g < length (group_availability_ self))%nat →
  served self (AcquireRequest g num loads).
Proof.
  intros Hok [group Hg]%lookup_lt_is_Some_2.
  assert ((1 < length loads)%nat ∧ ¬ (Z.of_nat (length loads) = buckets group ∧ Forall (Z.le 0) loads) ∨
          valid_loads group loads) as [[Hlong Hbad]|Hloads].
  { unfold valid_loads. destruct (decide (Z.of_nat (length loads) = buckets group ∧ Forall (Z.le 0) loads)); [by right; intros _|].
    destruct (decide (1 < length loads)%nat); [by left|by right]. }
  - destruct (decide (num ≤ 0)) as [Hnum|Hnum].
    + apply (grows_served self _ g [] self); [done|..|cbn; by rewrite decide_True by lia|by apply grows_nil].
      cbn. unfold AcquireBlocks. rewrite (run_bind_Ok _ _ _ group self); [|apply run_const; unfold placement; by rewrite Hg].
      by rewrite (proj2 (Z.leb_le _ _)).
    + assert (∃ message, AcquireBlocks g num loads self = (Raise (RuntimeError message), self)) as [message Hrun];
        [|by apply (refused_served self _ message self)].
      unfold AcquireBlocks. rewrite (run_bind_Ok _ _ _ group self); [|apply run_const; unfold placement; by rewrite Hg].
      rewrite (proj2 (Z.leb_gt _ _)) by lia.
      rewrite (proj2 (Nat.ltb_lt _ _)) by done. fold (buckets group).
      unfold const at 1, mbind at 1, M_bind.
      destruct (decide (Z.of_nat (length loads) = buckets group)) as [Hl|Hl].
      * pass_check ltac:(unfold buckets in Hl; lia). destruct (forallb (Z.leb 0) loads) eqn:Hf; [|by eexists].
        destruct Hbad. split; [done|]. apply Forall_forall. intros x Hx%list_elem_of_In.
        apply Z.leb_le. by apply (proj1 (forallb_forall _ _) Hf).
      * eexists. rewrite _assert_fail; [done|]. unfold buckets in Hl. lia.
  - destruct (acquire_blocks_spec self g group num loads Hok Hg Hloads) as [Hno Hyes].
    destruct (decide (0 < num ≤ capacity self group)) as [Hr|Hr].
    + destruct (Hyes Hr) as (ls & self' & Hrun & Hgr & Hlen).
      apply (grows_served self _ g ls self'); try done. cbn. by rewrite decide_True by lia.
    + apply (grows_served self _ g [] self); [done|apply Hno; lia|cbn; by rewrite decide_True by lia|by apply grows_nil].
Qed.

Lemma count_buckets_refused bs (need : list Z) :
  ¬ Forall (λ b, 0 ≤ b < Z.of_nat (length need)) bs →
  ∃ message, foldM (λ need bucket,
      _assert ((0 <=? bucket) && (bucket <? Z.of_nat (length need)))
        "requested bucket is outside the registered shard count";;
      Ok (alter Z.succ (Z.to_nat bucket) need)) need bs = Raise (RuntimeError message).
Proof.
  revert need. induction bs as [|b bs IH]; intros need Hbad; [by destruct Hbad|]. cbn [foldM].
  destruct (decide (0 ≤ b < Z.of_nat (length need))) as [Hb|Hb].
  - pass_check lia. apply IH. rewrite length_alter. intros Hall. apply Hbad. by constructor.
  - rewrite (_assert_fail (_ && _)) by lia. by eexists.
Qed.

(** A group no one registered gets one bucket before anything else. *)
Lemma in_buckets_prepared self g group bs :
  ok self → group_availability_ self !! g = Some group → bs ≠ [] →
  ∃ self1 group1, AcquireBlocksInBuckets g bs self = AcquireBlocksInBuckets g bs self1 ∧ ok self1 ∧
    group_availability_ self1 !! g = Some group1 ∧ packing group1 = packing group ∧ 0 < buckets group1 ∧
    lcm_blocks_ self1 = lcm_blocks_ self ∧ (0 < buckets group → self1 = self ∧ group1 = group) ∧
    ∀ h, h ≠ g → group_availability_ self1 !! h = group_availability_ self !! h.
Proof.
  intros Hok Hg Hbs.
  destruct (prepare_spec self g group Hok Hg) as (self1 & group1 & Hrun & Hok1 & Hg1 & Hpk & Hnb & _ & Hl & _ & Hsame & Hoth).
  destruct (prepare_spec self1 g group1 Hok1 Hg1) as (self2 & group2 & Hrun2 & _ & _ & _ & _ & _ & _ & _ & Hsame2 & _).
  destruct (Hsame2 Hnb) as [-> ->]. exists self1, group1. split_and!; try done.
  unfold AcquireBlocksInBuckets.
  rewrite (run_bind_Ok _ _ self group self); [|apply run_const; unfold placement; by rewrite Hg].
  rewrite (run_bind_Ok _ _ self1 group1 self1); [|apply run_const; unfold placement; by rewrite Hg1].
  destruct bs as [|b bs]; [done|]. by rewrite (run_bind_Ok _ _ _ _ _ Hrun), (run_bind_Ok _ _ _ _ _ Hrun2).
Qed.

Lemma serve_in_buckets self g bs : ok self → (g < length (group_availability_ self))%nat →
  served self (AcquireInBucketsRequest g bs).
Proof.
  intros Hok [group Hg]%lookup_lt_is_Some_2. destruct (decide (bs = [])) as [->|Hbs].
  { apply (grows_served self _ g [] self); [done|..|done|by apply grows_nil]. cbn. unfold AcquireBlocksInBuckets.
    by rewrite (run_bind_Ok _ _ _ group self); [|apply run_const; unfold placement; rewrite Hg]. }
  destruct (in_buckets_prepared self g group bs Hok Hg Hbs) as
    (self1 & group1 & Heq & Hok1 & Hg1 & Hpk & Hnb & Hl & Hsame & Hoth).
  destruct (decide (Forall (λ b, 0 ≤ b < buckets group1) bs)) as [Hin|Hout].
  - destruct (acquire_in_buckets_spec self1 g group1 bs Hok1 Hg1 Hnb Hin) as [Hyes Hno].
    destruct (AcquireBlocksInBuckets g bs self1) as [answer self2] eqn:Hrun.
    assert (∃ ls, answer = Ok ls ∧ grows self1 g ls self2 ∧ (length ls = length bs ∨ ls = [])) as (ls & -> & Hgr & Hlen).
    { assert (Decision (buckets_fit self1 group1 bs)) as [Hfit|Hfull].
      { destruct (decide (Forall2 (λ b n, demand bs (Z.of_nat b) ≤ n) (seq 0 (length (potential self1 group1)))
                            (potential self1 group1))) as [Hall|Hnot].
        - left. intros b n Hn. by destruct (Forall2_lookup_r _ _ _ _ _ Hall Hn) as (? & [-> _]%lookup_seq & ?).
        - right. intros Hfit. apply Hnot, Forall2_same_length_lookup. split; [apply length_seq|].
          intros i b n [-> _]%lookup_seq Hn. by apply Hfit. }
      - destruct (Hyes Hfit) as (ls & self' & [= -> ->] & Hgr & Hall). exists ls. split; [done|]. split; [done|]. left.
        symmetry. by apply Forall2_length in Hall.
      - specialize (Hno Hfull) as [= -> ->]. exists []. split; [done|]. split; [by apply grows_nil|by right]. }
    apply (grows_served self _ g ls self2); [done|cbn; congruence|cbn|].
    + rewrite decide_True; [done|]. destruct Hlen as [-> | ->]; [by left|by right].
    + by eapply (grows_prepared self g group self1 group1).
  - assert (∃ message, AcquireBlocksInBuckets g bs self1 = (Raise (RuntimeError message), self1)) as [message Hrun];
      [|by apply (refused_served self _ message self1); [cbn; congruence|..]].
    unfold AcquireBlocksInBuckets.
    rewrite (run_bind_Ok _ _ _ group1 self1); [|apply run_const; unfold placement; by rewrite Hg1].
    destruct bs as [|b0 bs0] eqn:Ebs; [done|]. rewrite <- Ebs in *.
    destruct (prepare_spec self1 g group1 Hok1 Hg1) as (self2 & group2 & Hrun2 & _ & _ & _ & _ & _ & _ & _ & Hsame2 & _).
    destruct (Hsame2 Hnb) as [-> ->]. rewrite (run_bind_Ok _ _ _ _ _ Hrun2).
    rewrite (run_bind_Ok _ _ _ group1 self1); [|apply run_const; unfold placement; by rewrite Hg1].
    destruct (count_buckets_refused bs (replicate (length (parents_by_bucket group1)) 0)) as [message Hcount].
    { by rewrite length_replicate. }
    exists message. apply run_bind_Raise. unfold const. f_equal. exact Hcount.
Qed.

Lemma serve_spec self r : ok self → allowed self r → served self r.
Proof.
  intros Hok. destruct r as [g pk n|g num loads|g num|g bs|l]; intros Hallow.
  - by apply serve_register.
  - by apply serve_acquire.
  - apply lookup_lt_is_Some_2 in Hallow as [group Hg].
    destruct (acquire_up_to_spec self g group num Hok Hg) as (ls & self' & Hrun & Hgr & Hlen).
    apply (grows_served self _ g ls self'); try done. cbn. by rewrite decide_True by lia.
  - by apply serve_in_buckets.
  - destruct (release_spec self l Hok Hallow) as (g & self' & Hown & Hrun & Hrel).
    exists (Ok []), self'. split; [cbn; unfold update, mbind, M_bind; by rewrite Hrun|]. split; [apply Hrel|].
    split; [done|]. apply (alloc_release _ _ g); [by apply live_Some|]. intros l'. by eapply live_releases.
Qed.

Lemma reachable_ok self : reachable self → ok self.
Proof.
  induction 1 as [num slots self Hnew|self r answer self' _ Hok Hallow Hrun]; [by eapply new_ok|].
  destruct (serve_spec self r Hok Hallow) as (answer' & self2 & Hrun' & Hok' & _). congruence.
Qed.

(** ** Room in terms of the blocks in use *)

(** The slots of a parent that group [g] could take. *)
Definition room_in (g : nat) (group : GroupAvailability) (p : LcmBlock) : Z :=
  match bound_group p with
  | None => packing group
  | Some h => if decide (h = g) then packing group - count_true (occupancy p) else 0
  end.

Lemma filter_by_bucket (Q : Z → Prop) `{∀ s, Decision (Q s)} nb (l : list Z) :
  0 < nb →
  sumZ ((λ b, Z.of_nat (length (filter (λ s, s mod nb = b ∧ Q s) l))) <$> seqZ 0 nb) = Z.of_nat (length (filter Q l)).
Proof.
  intros Hnb. induction l as [|s l IH]; [apply sumZ_fmap_zero|]. destruct (decide (Q s)) as [HQ|HQ].
  - rewrite filter_cons_True by done. cbn [length].
    rewrite Nat2Z.inj_succ, <- IH, <- Z.add_1_l, <- (sumZ_eqb (s mod nb) nb), <- sumZ_fmap_add by (by apply Z.mod_pos_bound).
    f_equal. apply list_fmap_ext. intros i b _. destruct (Z.eqb_spec (s mod nb) b) as [Hb|Hb].
    + rewrite filter_cons_True by done. cbn [length]. lia.
    + rewrite filter_cons_False by tauto. lia.
  - rewrite filter_cons_False by done. rewrite <- IH. f_equal. apply list_fmap_ext. intros i b _.
    by rewrite filter_cons_False by tauto.
Qed.

Lemma free_slots_count (occ : list bool) :
  Z.of_nat (length (filter (λ s, occ !! Z.to_nat s = Some false) (seqZ 0 (Z.of_nat (length occ))))) =
  Z.of_nat (length occ) - count_true occ.
Proof.
  induction occ as [|b occ IH] using rev_ind; [done|].
  rewrite length_app, Nat2Z.inj_add. cbn [length]. rewrite seqZ_app by lia. rewrite filter_app, length_app.
  unfold count_true in *. rewrite fmap_app, sumZ_app, Nat2Z.inj_add.
  assert (∀ k : list Z, Forall (λ s, 0 ≤ s < Z.of_nat (length occ)) k →
    filter (λ s, (occ ++ [b]) !! Z.to_nat s = Some false) k = filter (λ s, occ !! Z.to_nat s = Some false) k) as Hext.
  { induction 1 as [|s k Hs Hk IHk]; [done|]. rewrite !filter_cons, IHk, lookup_app_l by lia. done. }
  rewrite Hext by (apply Forall_forall; intros s Hs%elem_of_seqZ; lia).
  rewrite IH, Z.add_0_l. change (seqZ (Z.of_nat (length occ)) (Z.of_nat 1)) with [0 + Z.of_nat (length occ)].
  rewrite filter_cons, Z.add_0_l, Nat2Z.id, lookup_app_r, Nat.sub_diag by lia. case_decide as Hd; destruct b; cbn in *; simplify_eq; lia.
Qed.

Lemma holes_total nb (occ : list bool) :
  0 < nb →
  sumZ ((λ b, Z.of_nat (length (holes nb occ b))) <$> seqZ 0 nb) = Z.of_nat (length occ) - count_true occ.
Proof. intros Hnb. unfold holes. rewrite filter_by_bucket by done. apply free_slots_count. Qed.

(** The empty parents of the queue are those bound to no group. *)
Lemma empty_count self :
  ok self → NumEmptyLcmBlocks self =
    sumZ ((λ p, if decide (bound_group p = None) then 1 else 0) <$> lcm_blocks_ self).
Proof.
  intros Hok. set (unbound := λ id, default empty_block (lcm_blocks_ self !! Z.to_nat (id - 1))).
  transitivity (Z.of_nat (length (filter (λ id, bound_group (unbound id) = None)
                                    (seqZ 1 (Z.of_nat (length (lcm_blocks_ self))))))).
  - unfold NumEmptyLcmBlocks. f_equal. apply Permutation_length, NoDup_Permutation.
    + apply Hok.
    + apply NoDup_filter, NoDup_seqZ.
    + intros id. rewrite (ok_free _ Hok), list_elem_of_filter, elem_of_seqZ. unfold unbound, block. split.
      * intros (p & [Hid Hp] & Hb). rewrite Hp. apply lookup_lt_Some in Hp. split; [done|lia].
      * intros [Hb Hid]. destruct (lookup_lt_is_Some_2 (lcm_blocks_ self) (Z.to_nat (id - 1))) as [p Hp]; [lia|].
        exists p. rewrite Hp in Hb. split; [|done]. split; [lia|done].
  - subst unbound. clear Hok. induction (lcm_blocks_ self) as [|p l IH] using rev_ind; [done|].
    rewrite length_app, Nat2Z.inj_add, seqZ_app, filter_app, length_app by lia.
    rewrite fmap_app, sumZ_app, <- IH, Nat2Z.inj_add. f_equal.
    + f_equal. f_equal. assert (∀ k : list Z, Forall (λ id, 1 ≤ id < 1 + Z.of_nat (length l)) k →
        filter (λ id, bound_group (default empty_block ((l ++ [p]) !! Z.to_nat (id - 1))) = None) k =
        filter (λ id, bound_group (default empty_block (l !! Z.to_nat (id - 1))) = None) k) as Hext.
      { induction 1 as [|s k Hs Hk IHk]; [done|]. rewrite !filter_cons, IHk, lookup_app_l by lia. done. }
      apply Hext, Forall_forall. intros s Hs%elem_of_seqZ. lia.
    + change (seqZ (1 + Z.of_nat (length l)) (Z.of_nat (length [p]))) with [0 + (1 + Z.of_nat (length l))].
      rewrite filter_cons. replace (Z.to_nat (0 + (1 + Z.of_nat (length l)) - 1)) with (length l) by lia.
      rewrite lookup_app_r, Nat.sub_diag by lia. cbn. case_decide; done.
Qed.

Lemma free_slots_total self g group :
  ok self → group_availability_ self !! g = Some group →
  FreeSlots group = sumZ ((λ p, if decide (bound_group p = Some g)
                                then packing group - count_true (occupancy p) else 0) <$> lcm_blocks_ self).
Proof.
  intros Hok Hg. pose proof (ok_groups _ Hok _ _ Hg) as Hgo. unfold FreeSlots.
  assert (free_slots_by_bucket group =
    (λ b, sumZ ((λ p, Z.of_nat (length (holes_of g (buckets group) p b))) <$> lcm_blocks_ self)) <$> seqZ 0 (buckets group)) as ->.
  { apply list_eq_same_length with (length (parents_by_bucket group)).
    - rewrite length_fmap, length_seqZ. unfold buckets. lia.
    - apply Hgo.
    - intros b n m Hb Hn Hm. rewrite (go_holes _ _ _ Hgo b n Hn). rewrite list_lookup_fmap, lookup_seqZ_lt in Hm by (unfold buckets; lia).
      by injection Hm as <-. }
  rewrite sumZ_swap. f_equal. apply list_fmap_ext. intros i p Hp. case_decide as Hb.
  - assert (block self (Z.of_nat i + 1) p) as Hbl.
    { split; [lia|]. by replace (Z.to_nat (Z.of_nat i + 1 - 1)) with i by lia. }
    destruct (ok_bound _ Hok _ _ _ Hbl Hb) as (gr & Hgr & Hnb & Hpo). rewrite Hg in Hgr. injection Hgr as <-.
    rewrite <- (po_len _ _ _ Hpo), <- (holes_total (buckets group)) by done. f_equal.
    apply list_fmap_ext. intros j b _. by rewrite holes_of_bound.
  - transitivity (sumZ ((λ _, 0) <$> seqZ 0 (buckets group))); [|apply sumZ_fmap_zero]. f_equal. apply list_fmap_ext. intros j b _.
    unfold holes_of. by rewrite decide_False.
Qed.

Lemma capacity_room self g group :
  ok self → group_availability_ self !! g = Some group →
  capacity self group = sumZ (room_in g group <$> lcm_blocks_ self).
Proof.
  intros Hok Hg. unfold capacity. rewrite (empty_count self Hok), (free_slots_total self g group Hok Hg), Z.mul_comm.
  clear. induction (lcm_blocks_ self) as [|p l IH]; [cbn; lia|]. rewrite !fmap_cons, !sumZ_cons, <- IH.
  unfold room_in at 1. destruct (bound_group p) as [h|]; repeat case_decide; simplify_eq; lia.
Qed.

(** The slots of bucket [b] in a parent that group [g] could take. *)
Definition bucket_room_in (g : nat) (group : GroupAvailability) (b : Z) (p : LcmBlock) : Z :=
  match bound_group p with
  | None => share group
  | Some h => if decide (h = g) then Z.of_nat (length (holes (buckets group) (occupancy p) b)) else 0
  end.

Lemma potential_room self g group b n :
  ok self → group_availability_ self !! g = Some group → potential self group !! b = Some n →
  n = sumZ (bucket_room_in g group (Z.of_nat b) <$> lcm_blocks_ self).
Proof.
  intros Hok Hg Hn. unfold potential in Hn. rewrite list_lookup_fmap in Hn.
  destruct (free_slots_by_bucket group !! b) as [f|] eqn:Hf; [|done]. injection Hn as <-.
  rewrite (go_holes _ _ _ (ok_groups _ Hok _ _ Hg) b f Hf), (empty_count self Hok), Z.mul_comm. clear.
  induction (lcm_blocks_ self) as [|p l IH]; [cbn; lia|]. rewrite !fmap_cons, !sumZ_cons, <- IH.
  unfold bucket_room_in at 1, holes_of at 1.
  destruct (bound_group p) as [h|]; repeat case_decide; simplify_eq; cbn [length]; lia.
Qed.

(** The blocks in use determine the room of every group. *)
Definition packings (self : BlockPool) : list Z := packing <$> group_availability_ self.

Lemma live_parent self self' id p p' :
  ok self → ok self' → packings self' = packings self → (∀ l, live self' l = live self l) →
  block self id p → block self' id p' → ∀ h, bound_group p = Some h →
  bound_group p' = Some h ∧ occupancy p' = occupancy p.
Proof.
  intros Hok Hok' Hpk Hlive Hp Hp' h Hb.
  destruct (ok_bound _ Hok _ _ _ Hp Hb) as (group & Hg & Hnb & Hpo).
  assert (∀ s, occupancy p !! s = Some true ↔ occupancy p' !! s = Some true ∧ bound_group p' = Some h) as Hs.
  { intros s. transitivity (live self (mkLocation id (Z.of_nat s)) = Some h).
    - rewrite live_Some. unfold occupied, owner. cbn. split.
      + intros Ho. rewrite <- (Nat2Z.id s) in Ho. split; [exists p; split_and!; [done|lia|done]|by exists p].
      + intros [(q & Hq & _ & Ho) _]. rewrite (block_fun _ _ _ _ Hq Hp), Nat2Z.id in Ho. done.
    - rewrite <- Hlive, live_Some. unfold occupied, owner. cbn. split.
      + intros [(q & Hq & _ & Ho) (q' & Hq' & Hb')]. rewrite (block_fun _ _ _ _ Hq Hp'), Nat2Z.id in Ho.
        by rewrite (block_fun _ _ _ _ Hq' Hp') in Hb'.
      + intros [Ho Hb']. rewrite <- (Nat2Z.id s) in Ho. split; [exists p'; split_and!; [done|lia|done]|by exists p']. }
  assert (∃ s, occupancy p !! s = Some true) as [s Ho].
  { apply count_true_some. rewrite <- (po_count _ _ _ Hpo). apply Hpo. }
  apply Hs in Ho as [_ Hb']. split; [done|].
  destruct (ok_bound _ Hok' _ _ _ Hp' Hb') as (group' & Hg' & _ & Hpo').
  assert (packing group' = packing group) as Hpks.
  { apply (f_equal (.!! h)) in Hpk. unfold packings in Hpk. rewrite !list_lookup_fmap, Hg, Hg' in Hpk. by injection Hpk. }
  pose proof (po_len _ _ _ Hpo) as Hlen. pose proof (po_len _ _ _ Hpo') as Hlen'.
  apply list_eq_same_length with (length (occupancy p)); [done|lia|]. intros i x y _ Hx Hy.
  specialize (Hs i). rewrite Hx, Hy in Hs. destruct x, y; naive_solver.
Qed.

Definition room (self : BlockPool) (g : nat) (group : GroupAvailability) : Z :=
  sumZ (room_in g group <$> lcm_blocks_ self).

Lemma live_room self self' g group group' :
  ok self → ok self' → packings self' = packings self → length (lcm_blocks_ self') = length (lcm_blocks_ self) →
  (∀ l, live self' l = live self l) → packing group' = packing group →
  room self' g group' = room self g group.
Proof.
  intros Hok Hok' Hpk Hlen Hlive Hgr. unfold room. f_equal.
  apply list_eq_same_length with (length (lcm_blocks_ self)); rewrite ?length_fmap; [done|done|].
  intros i x y _ Hx Hy. rewrite list_lookup_fmap in Hx, Hy.
  destruct (lcm_blocks_ self !! i) as [p|] eqn:Hp; [|done]. injection Hy as <-.
  destruct (lcm_blocks_ self' !! i) as [p'|] eqn:Hp'; [|done]. injection Hx as <-.
  assert (∀ s q, lcm_blocks_ s !! i = Some q → block s (Z.of_nat i + 1) q) as Hbl.
  { intros s q Hq. split; [lia|]. by replace (Z.to_nat (Z.of_nat i + 1 - 1)) with i by lia. }
  unfold room_in. rewrite Hgr. destruct (bound_group p) as [h|] eqn:Hb.
  - by destruct (live_parent self self' _ p p' Hok Hok' Hpk Hlive (Hbl _ _ Hp) (Hbl _ _ Hp') h Hb) as [-> ->].
  - destruct (bound_group p') as [h'|] eqn:Hb'; [|done].
    destruct (live_parent self' self _ p' p Hok' Hok (eq_sym Hpk) (λ l, eq_sym (Hlive l)) (Hbl _ _ Hp') (Hbl _ _ Hp) h' Hb'); congruence.
Qed.

Lemma packings_update (self self' : BlockPool) g :
  (∀ h, h ≠ g → group_availability_ self' !! h = group_availability_ self !! h) →
  (∀ group, group_availability_ self !! g = Some group →
     ∃ group', group_availability_ self' !! g = Some group' ∧ packing group' = packing group) →
  (g < length (group_availability_ self))%nat → packings self' = packings self.
Proof.
  intros Hoth Hgr [group Hg]%lookup_lt_is_Some_2. unfold packings. apply list_eq. intros h.
  rewrite !list_lookup_fmap. destruct (decide (h = g)) as [->|Hne]; [|by rewrite Hoth].
  destruct (Hgr group Hg) as (group' & -> & Hpk). rewrite Hg. cbn. by rewrite Hpk.
Qed.

Lemma grows_packings self g ls self' :
  (g < length (group_availability_ self))%nat → grows self g ls self' → packings self' = packings self.
Proof.
  intros Hg Hgr. apply (packings_update self self' g); [apply Hgr| |done].
  intros group Hgroup. destruct (gr_group _ _ _ _ Hgr group Hgroup) as (group' & ? & ? & _). by exists group'.
Qed.

Lemma owner_lt self l g : ok self → owner self l g → (g < length (group_availability_ self))%nat.
Proof.
  intros Hok (p & Hp & Hb). destruct (ok_bound _ Hok _ _ _ Hp Hb) as (group & Hg & _). by eapply lookup_lt_Some.
Qed.

(** Releasing several blocks, in the order given. *)
Definition release_all (ls : list CacheBlockLocation) (self : BlockPool) : result BlockPool :=
  foldM (λ self l, Release l self) self ls.

Lemma release_all_spec ls self :
  ok self → NoDup ls → (∀ l, l ∈ ls → live self l ≠ None) →
  ∃ self', release_all ls self = Ok self' ∧ ok self' ∧ packings self' = packings self ∧
    length (lcm_blocks_ self') = length (lcm_blocks_ self) ∧
    ∀ l, live self' l = if decide (l ∈ ls) then None else live self l.
Proof.
  revert self. induction ls as [|l ls IH]; intros self Hok Hnd Hlive.
  { exists self. split_and!; try done. }
  apply NoDup_cons in Hnd as [Hnin Hnd].
  assert (occupied self l) as Hocc.
  { destruct (live self l) as [g|] eqn:Hl; [by apply live_Some in Hl as []|]. exfalso. apply (Hlive l); [by left|done]. }
  destruct (release_spec self l Hok Hocc) as (g & self1 & Hown & Hrun & Hrel).
  pose proof (live_releases self g l self1) as Hl1.
  destruct (IH self1) as (self2 & Hrun2 & Hok2 & Hpk2 & Hlen2 & Hl2); [apply Hrel|done|..].
  { intros l' Hin. rewrite Hl1 by done. rewrite decide_False by (intros ->; done). apply Hlive. by right. }
  exists self2. split; [unfold release_all; cbn [foldM]; rewrite Hrun; exact Hrun2|]. split; [done|]. split_and!.
  - rewrite Hpk2. apply (packings_update self self1 g); [apply Hrel| |by eapply owner_lt].
    intros group Hg. destruct (rl_group _ _ _ _ Hrel group Hg) as (group' & ? & ? & _). by exists group'.
  - by rewrite Hlen2, (rl_blocks _ _ _ _ Hrel).
  - intros l'. rewrite Hl2, Hl1 by done. destruct (decide (l' = l)) as [->|Hne].
    + rewrite (decide_True (P := l ∈ l :: ls)) by (by left). by rewrite decide_False.
    + destruct (decide (l' ∈ ls)) as [Hin|Hnin'].
      * by rewrite decide_True by (by right).
      * rewrite decide_False; [done|]. by intros [?|?]%elem_of_cons.
Qed.

(** ** Theorems *)

(** C1: The pool implements the allocator: in every state it can reach, a request is
    answered without ending the process or undefined behaviour, an acquisition hands out
    distinct locations no group held, a release takes back exactly one, and a refused
    request changes nothing held. *)
Theorem pool_refines_allocator self r :
  reachable self → allowed self r →
  ∃ answer self', serve r self = (answer, self') ∧ reachable self' ∧
    allocator (live self) r answer (live self').
Proof.
  intros Hreach Hallow.
  destruct (serve_spec self r (reachable_ok self Hreach) Hallow) as (answer & self' & Hrun & _ & _ & Hstep).
  exists answer, self'. split; [done|]. split; [|done]. by eapply reach_serve.
Qed.

(** C2: [AcquireBlocks] is exact: it returns the number of blocks asked for whenever the
    parents that no other group uses have that many free slots, and otherwise nothing,
    leaving the pool as it was. *)
Theorem acquire_exact self g group num loads :
  reachable self → group_availability_ self !! g = Some group → valid_loads group loads →
  (num ≤ 0 ∨ room self g group < num → AcquireBlocks g num loads self = (Ok [], self)) ∧
  (0 < num ≤ room self g group →
   ∃ ls self', AcquireBlocks g num loads self = (Ok ls, self') ∧ Z.of_nat (length ls) = num ∧ NoDup ls ∧
     (∀ l, l ∈ ls → live self l = None) ∧
     ∀ l, live self' l = if decide (l ∈ ls) then Some g else live self l).
Proof.
  intros Hok%reachable_ok Hg Hloads. unfold room. rewrite <- (capacity_room self g group Hok Hg).
  destruct (acquire_blocks_spec self g group num loads Hok Hg Hloads) as [Hno Hyes]. split; [done|].
  intros Hnum. destruct (Hyes Hnum) as (ls & self' & Hrun & Hgr & Hlen). exists ls, self'.
  split_and!; try done; [apply Hgr|..].
  - intros l Hin. apply live_None; [done|]. by apply (gr_fresh _ _ _ _ Hgr).
  - intros l. by apply live_grows.
Qed.

(** [AcquireBlocksInBuckets] is exact in the same way, bucket by bucket, and puts every
    block in the bucket asked for. *)
Theorem acquire_in_buckets_exact self g group bs :
  reachable self → group_availability_ self !! g = Some group → 0 < buckets group →
  Forall (λ b, 0 ≤ b < buckets group) bs →
  let fit := ∀ b, 0 ≤ b < buckets group → demand bs b ≤ sumZ (bucket_room_in g group b <$> lcm_blocks_ self) in
  (¬ fit → AcquireBlocksInBuckets g bs self = (Ok [], self)) ∧
  (fit → ∃ ls self', AcquireBlocksInBuckets g bs self = (Ok ls, self') ∧
     Forall2 (λ b l, slot_index l mod buckets group = b) bs ls ∧ NoDup ls ∧
     (∀ l, l ∈ ls → live self l = None) ∧
     ∀ l, live self' l = if decide (l ∈ ls) then Some g else live self l).
Proof.
  intros Hok%reachable_ok Hg Hnb Hbs fit.
  assert (buckets_fit self group bs ↔ fit) as Hfit.
  { unfold buckets_fit, fit. pose proof (go_length _ _ _ (ok_groups _ Hok _ _ Hg)) as Hl. split.
    - intros Hall b Hb. destruct (lookup_lt_is_Some_2 (potential self group) (Z.to_nat b)) as [n Hn].
      { unfold potential. rewrite length_fmap, Hl. unfold buckets in Hb. lia. }
      specialize (Hall _ _ Hn). rewrite (potential_room self g group _ n Hok Hg Hn) in Hall.
      by rewrite Z2Nat.id in Hall by lia.
    - intros Hall b n Hn. rewrite (potential_room self g group b n Hok Hg Hn). apply Hall.
      apply lookup_lt_Some in Hn. unfold potential in Hn. rewrite length_fmap, Hl in Hn. unfold buckets. lia. }
  destruct (acquire_in_buckets_spec self g group bs Hok Hg Hnb Hbs) as [Hyes Hno].
  rewrite <- Hfit. split; [done|]. intros Hf.
  destruct (Hyes Hf) as (ls & self' & Hrun & Hgr & Hall). exists ls, self'.
  split_and!; try done; [apply Hgr|..].
  - intros l Hin. apply live_None; [done|]. by apply (gr_fresh _ _ _ _ Hgr).
  - intros l. by apply live_grows.
Qed.

(** Releasing what was acquired, in any order, leaks nothing: the blocks in use and the
    room of every group are those before. *)
Theorem acquire_release_no_leak self g group num loads ls self1 ls' :
  reachable self → group_availability_ self !! g = Some group → valid_loads group loads →
  AcquireBlocks g num loads self = (Ok ls, self1) → ls' ≡ₚ ls →
  ∃ self2, release_all ls' self1 = Ok self2 ∧ (∀ l, live self2 l = live self l) ∧
    ∀ h gh, group_availability_ self !! h = Some gh →
      ∃ gh', group_availability_ self2 !! h = Some gh' ∧ room self2 h gh' = room self h gh.
Proof.
  intros Hok%reachable_ok Hg Hloads Hrun Hperm.
  assert (grows self g ls self1) as Hgr.
  { destruct (acquire_blocks_spec self g group num loads Hok Hg Hloads) as [Hno Hyes].
    destruct (decide (0 < num ≤ capacity self group)) as [Hn|Hn].
    - destruct (Hyes Hn) as (ls2 & self2 & Hrun' & Hgr & _). rewrite Hrun in Hrun'. by injection Hrun' as <- <-.
    - rewrite Hno in Hrun by lia. injection Hrun as <- <-. by apply grows_nil. }
  pose proof (live_grows self g ls self1) as Hl1.
  destruct (release_all_spec ls' self1) as (self2 & Hrun2 & Hok2 & Hpk2 & Hlen2 & Hl2).
  { apply Hgr. }
  { rewrite Hperm. apply Hgr. }
  { intros l Hin. rewrite Hl1 by done. by rewrite decide_True by (by rewrite <- Hperm). }
  assert (∀ l, live self2 l = live self l) as Hlive.
  { intros l. rewrite Hl2, Hl1 by done. destruct (decide (l ∈ ls')) as [Hin|Hin]; rewrite Hperm in Hin.
    - symmetry. apply live_None; [done|]. by apply (gr_fresh _ _ _ _ Hgr).
    - by rewrite decide_False. }
  exists self2. split; [done|]. split; [done|]. intros h gh Hgh.
  assert (packings self2 = packings self) as Hpk.
  { rewrite Hpk2. apply (grows_packings self g ls); [by eapply lookup_lt_Some|done]. }
  pose proof (f_equal (.!! h) Hpk) as Hh. unfold packings in Hh. rewrite !list_lookup_fmap, Hgh in Hh.
  destruct (group_availability_ self2 !! h) as [gh'|] eqn:Hgh'; [|done]. injection Hh as Hh.
  exists gh'. split; [done|]. apply live_room; try done. by rewrite Hlen2, (gr_blocks _ _ _ _ Hgr).
Qed.

(** Placement policy: the next block goes to the least loaded bucket with a hole (when
    the caller balances), there to the fullest parent with a hole, the lowest identifier
    and the lowest slot; an empty parent is opened only when the group has no hole. *)
Theorem placement_policy self g group loads :
  reachable self → group_availability_ self !! g = Some group → 0 < buckets group →
  loads = [] ∨ Z.of_nat (length loads) = buckets group → 0 < room self g group →
  ∃ l, nextLocation g loads self = Ok l ∧ live self l = None ∧
    ((∃ p, hole self g (buckets group) p l ∧
        ∀ p' l', hole self g (buckets group) p' l' →
          ltb (rank loads (buckets group) p' (lcm_block_id l') (slot_index l'))
            (rank loads (buckets group) p (lcm_block_id l) (slot_index l)) = false) ∨
     ((∀ p' l', ¬ hole self g (buckets group) p' l') ∧
      head (free_parent_ids_ self) = Some (lcm_block_id l) ∧ slot_index l = min_index loads)).
Proof.
  intros Hok%reachable_ok Hg Hnb Hloads Hroom. unfold room in Hroom. rewrite <- (capacity_room self g group Hok Hg) in Hroom.
  destruct (nextLocation_spec self g group loads Hok Hg Hnb Hloads Hroom) as (l & Hl & Hv & Hpol).
  exists l. split; [done|]. split; [|done]. apply live_None; [done|]. exact (vacant_free self g group l Hok Hv).
Qed.

Lemma sumZ_average (l : list Z) c :
  Forall (λ x, 0 ≤ x ∧ Z.of_nat (length l) * x ≤ c) l → 0 ≤ c → 0 ≤ sumZ l ≤ c.
Proof.
  intros Hl Hc. split; [apply sumZ_nonneg; eapply Forall_impl; [exact Hl|]; cbn; lia|].
  destruct (decide (l = [])) as [->|Hne]; [done|].
  assert (0 < Z.of_nat (length l)) as Hn by (destruct l; [done|cbn; lia]).
  assert (∀ n k, Forall (λ x, 0 ≤ x ∧ n * x ≤ c) k → n * sumZ k ≤ Z.of_nat (length k) * c) as Hsum.
  { intros n k. induction 1 as [|x k Hx _ IH]; [cbn; lia|]. rewrite sumZ_cons. cbn [length]. lia. }
  specialize (Hsum _ _ Hl). nia.
Qed.

(** The counts of blocks in use, of holes and of blocks available fit the int32
    variables that hold them. *)
Theorem counts_in_int32 self :
  reachable self →
  0 ≤ NumOccupiedSlots self ≤ INT32_MAX ∧
  ∀ g group, group_availability_ self !! g = Some group →
    0 ≤ FreeSlots group ≤ INT32_MAX ∧ 0 ≤ capacity self group ≤ INT32_MAX.
Proof.
  intros Hok%reachable_ok.
  assert (∀ i p, lcm_blocks_ self !! i = Some p → block self (Z.of_nat i + 1) p) as Hbl.
  { intros i p Hp. split; [lia|]. by replace (Z.to_nat (Z.of_nat i + 1 - 1)) with i by lia. }
  split.
  - apply sumZ_average; [|done]. apply Forall_fmap, Forall_lookup. intros i p Hp. rewrite length_fmap. cbn.
    destruct (bound_group p) as [h|] eqn:Hb.
    + destruct (ok_bound _ Hok _ _ _ (Hbl i p Hp) Hb) as (group & Hg & _ & [Hlen Hcount Hpos _]).
      pose proof (ok_int32 _ Hok _ _ Hg) as H32. unfold NumLcmBlocks in H32.
      pose proof (count_true_bounds (occupancy p)). split; [lia|nia].
    + rewrite (ok_unbound _ Hok _ _ (Hbl i p Hp) Hb). cbn. split; [lia|]. rewrite Z.mul_0_r. done.
  - intros g group Hg. pose proof (ok_int32 _ Hok _ _ Hg) as H32. unfold NumLcmBlocks in H32.
    pose proof (go_packing _ _ _ (ok_groups _ Hok _ _ Hg)) as Hpk.
    assert (0 ≤ FreeSlots group) as Hf by apply sumZ_nonneg, (free_slots_nonneg self g group Hok Hg).
    enough (0 ≤ capacity self group ≤ INT32_MAX) as Hcap.
    { split; [|done]. unfold capacity in Hcap. unfold NumEmptyLcmBlocks in *. nia. }
    rewrite (capacity_room self g group Hok Hg). apply sumZ_average; [|done].
    apply Forall_fmap, Forall_lookup. intros i p Hp. rewrite length_fmap. cbn. unfold room_in.
    destruct (bound_group p) as [h|] eqn:Hb; [|lia]. case_decide as Heq; [subst h|by rewrite Z.mul_0_r].
    destruct (ok_bound _ Hok _ _ _ (Hbl i p Hp) Hb) as (gr & Hgr & _ & [Hlen _ _ _]). simplify_eq.
    pose proof (count_true_bounds (occupancy p)). nia.
Qed.

(** ** A pool in use *)

(** Two parents; group 0 packs four blocks in two buckets and group 1 two; group 0 holds
    three slots of the first parent. *)
Definition pool_example : BlockPool :=
  mkPool [mkLcmBlock (Some 0%nat) [true; true; true; false] 3 [4; 3]; empty_block] [2]
    [mkGroup 4 [0; 1] [[]; [(-3, 1)]]; mkGroup 2 [] []].

Lemma pool_example_reachable : reachable pool_example.
Proof.
  eapply (reach_serve _ (AcquireRequest 0 3 []) _ _).
  - eapply (reach_serve _ (RegisterRequest 0 4 2) _ _); [by apply (reach_new 2 [4; 2])| |vm_compute; reflexivity].
    cbn. lia.
  - cbn. lia.
  - vm_compute. reflexivity.
Qed.

Lemma pool_refines_allocator_witness :
  ∃ answer self', serve (ReleaseRequest (mkLocation 1 1)) pool_example = (answer, self') ∧
    allocator (live pool_example) (ReleaseRequest (mkLocation 1 1)) answer (live self').
Proof.
  destruct (pool_refines_allocator pool_example (ReleaseRequest (mkLocation 1 1)) pool_example_reachable)
    as (answer & self' & Hrun & _ & Hstep).
  - eexists. split; [split; [|reflexivity]|split]; cbn; [lia|lia|reflexivity].
  - exists answer, self'. split; [exact Hrun|exact Hstep].
Defined.

Lemma acquire_exact_witness :
  room pool_example 0 (mkGroup 4 [0; 1] [[]; [(-3, 1)]]) = 5 ∧
  AcquireBlocks 0 6 [2; 1] pool_example = (Ok [], pool_example) ∧
  ∃ ls self', AcquireBlocks 0 5 [2; 1] pool_example = (Ok ls, self') ∧ Z.of_nat (length ls) = 5.
Proof.
  destruct (acquire_exact pool_example 0 (mkGroup 4 [0; 1] [[]; [(-3, 1)]]) 6 [2; 1] pool_example_reachable)
    as [Hno _]; [reflexivity|intros _; split; [reflexivity|repeat constructor; lia]|].
  destruct (acquire_exact pool_example 0 (mkGroup 4 [0; 1] [[]; [(-3, 1)]]) 5 [2; 1] pool_example_reachable)
    as [_ Hyes]; [reflexivity|intros _; split; [reflexivity|repeat constructor; lia]|].
  split; [vm_compute; reflexivity|]. split; [apply Hno; right; vm_compute; reflexivity|].
  destruct Hyes as (ls & self' & Hrun & Hlen & _); [vm_compute; split; [reflexivity|discriminate]|].
  exists ls, self'. split; [exact Hrun|exact Hlen].
Defined.

Lemma acquire_in_buckets_exact_witness :
  ∃ ls self', AcquireBlocksInBuckets 0 [0; 1; 1; 1] pool_example = (Ok ls, self') ∧
    Forall2 (λ b l, slot_index l mod 2 = b) [0; 1; 1; 1] ls.
Proof.
  destruct (acquire_in_buckets_exact pool_example 0 (mkGroup 4 [0; 1] [[]; [(-3, 1)]]) [0; 1; 1; 1]
              pool_example_reachable) as [_ Hyes].
  - reflexivity.
  - vm_compute. reflexivity.
  - repeat constructor; discriminate.
  - destruct Hyes as (ls & self' & Hrun & Hall & _).
    + intros b Hb. change (buckets _) with 2 in Hb. assert (b = 0 ∨ b = 1) as [-> | ->] by lia; vm_compute; discriminate.
    + exists ls, self'. split; [exact Hrun|exact Hall].
Defined.

Lemma acquire_release_no_leak_witness :
  ∃ self2, release_all [mkLocation 2 1; mkLocation 1 3; mkLocation 2 0]
      (AcquireBlocks 0 3 [] pool_example).2 = Ok self2 ∧ ∀ l, live self2 l = live pool_example l.
Proof.
  destruct (acquire_release_no_leak pool_example 0 (mkGroup 4 [0; 1] [[]; [(-3, 1)]]) 3 []
              [mkLocation 1 3; mkLocation 2 0; mkLocation 2 1] (AcquireBlocks 0 3 [] pool_example).2
              [mkLocation 2 1; mkLocation 1 3; mkLocation 2 0] pool_example_reachable) as (self2 & Hrun & Hlive & _).
  - reflexivity.
  - intros H. exfalso. cbn in H. lia.
  - vm_compute. reflexivity.
  - exact (Permutation_app_comm [mkLocation 2 1] [mkLocation 1 3; mkLocation 2 0]).
  - exists self2. split; [exact Hrun|exact Hlive].
Defined.

Lemma placement_policy_witness : ∃ l, nextLocation 0 [2; 1] pool_example = Ok l ∧ live pool_example l = None.
Proof.
  destruct (placement_policy pool_example 0 (mkGroup 4 [0; 1] [[]; [(-3, 1)]]) [2; 1] pool_example_reachable)
    as (l & Hl & Hlive & _).
  - reflexivity.
  - vm_compute. reflexivity.
  - right. reflexivity.
  - vm_compute. reflexivity.
  - exists l. split; [exact Hl|exact Hlive].
Defined.

Lemma counts_in_int32_witness : 0 ≤ NumOccupiedSlots pool_example ≤ INT32_MAX.
Proof. exact (proj1 (counts_in_int32 pool_example pool_example_reachable)). Defined.
