(* ===== verification/BlockRefs.v ===== *)
(** * Shared ownership of cache blocks

    The counted references of [csrc/cache/core/cache_block_ref.h] and [.cpp]: a control
    object owns one placement in a pool and dies with its last reference, which puts
    the placement back.  The heap is the pools and the control objects; an address is
    the position of a control, and a deleted control leaves [None] behind, so that a
    dangling use is undefined behaviour here as it is in C++.

    The invariant [owned] relates the heap to the list of all references that exist:
    each count is the number of references, and the placements in use are exactly those
    of the live controls. *)

From S2P Require Import Prelude PyState Cxx BlockPool BlockPoolFacts BlockPoolSafety.

Local Open Scope Z_scope.

(** ** Control objects and references *)

(** The embedded [CacheBlock] is its pool and its location. *)
Record CacheBlockControl := mkControl { pool_ : nat; location_ : CacheBlockLocation; strong_count_ : Z }.

(** [nullptr] or the address of a control. *)
Definition CacheBlockRef : Type := option nat.

Record heap := mkHeap { pools : list BlockPool; controls : list (option CacheBlockControl) }.

Definition UINT32_MAX : Z := 2 ^ 32 - 1.

Definition set_pool (i : nat) (p : BlockPool) (h : heap) : heap := mkHeap (<[i := p]> (pools h)) (controls h).
Definition set_control (c : nat) (k : option CacheBlockControl) (h : heap) : heap :=
  mkHeap (pools h) (<[c := k]> (controls h)).

(** [*control_] *)
Definition control_at (c : nat) (h : heap) : result CacheBlockControl :=
  match controls h !! c with
  | Some (Some k) => Ok k
  | _ => Raise (Undefined "dangling CacheBlockControl")
  end.

Definition pool_at (i : nat) (h : heap) : result BlockPool :=
  lookup_or (Undefined "dangling BlockPool") (pools h !! i).

(** [CacheBlockControl::retain] *)
Definition retain (c : nat) (h : heap) : result heap :=
  k ← control_at c h;
  FatalCheck (negb (strong_count_ k =? 0) && negb (strong_count_ k =? UINT32_MAX))
    "cannot retain a destroyed or saturated CacheBlockControl";;
  Ok (set_control c (Some (mkControl (pool_ k) (location_ k) (strong_count_ k + 1))) h).

(** [~CacheBlock], run when the control is deleted. *)
Definition delete_control (c : nat) (k : CacheBlockControl) (h : heap) : result heap :=
  p ← pool_at (pool_ k) h;
  p ← Release (location_ k) p;
  Ok (set_control c None (set_pool (pool_ k) p h)).

(** [CacheBlockControl::release] *)
Definition release (c : nat) (h : heap) : result heap :=
  k ← control_at c h;
  FatalCheck (negb (strong_count_ k =? 0)) "CacheBlockControl release requires a live reference";;
  if strong_count_ k - 1 =? 0 then delete_control c k h
  else Ok (set_control c (Some (mkControl (pool_ k) (location_ k) (strong_count_ k - 1))) h).

(** The copy constructor. *)
Definition copy_ref (r : CacheBlockRef) : M heap CacheBlockRef :=
  match r with
  | None => mret None
  | Some c => update (retain c) ;; mret r
  end.

(** [reset], which is also the destructor; the reference is null afterwards. *)
Definition reset (r : CacheBlockRef) : M heap () :=
  match r with
  | None => mret ()
  | Some c => update (release c)
  end.

(** [dst = src] for two different objects: the copy is made before the old reference of
    [dst] goes; the result is the new value of [dst]. *)
Definition assign_copy (dst src : CacheBlockRef) : M heap CacheBlockRef :=
  copy ← copy_ref src;
  reset dst ;;
  mret copy.

(** [dst = std::move(src)] for two different objects. *)
Definition assign_move (dst src : CacheBlockRef) : M heap CacheBlockRef :=
  reset dst ;;
  mret src.

(** [ref->Location()] *)
Definition Location (r : CacheBlockRef) (h : heap) : result CacheBlockLocation :=
  c ← lookup_or (Undefined "null CacheBlockRef") r;
  k ← control_at c h;
  Ok (location_ k).

Definition use_count (r : CacheBlockRef) (h : heap) : result Z :=
  match r with
  | None => Ok 0
  | Some c => k ← control_at c h; Ok (strong_count_ k)
  end.

Definition unique (r : CacheBlockRef) (h : heap) : result bool :=
  n ← use_count r h; Ok (n =? 1).

Definition IsOwnedBy (r : CacheBlockRef) (i : nat) (h : heap) : result bool :=
  match r with
  | None => Ok false
  | Some c => k ← control_at c h; Ok (pool_ k =? i)%nat
  end.

(** A vector of references goes out of scope. *)
Fixpoint reset_all (rs : list CacheBlockRef) : M heap () :=
  match rs with
  | [] => mret ()
  | r :: rs => reset r ;; reset_all rs
  end.

(** [createBlockRef] for every location an acquisition of pool [i] placed. *)
Definition new_controls (i : nat) (ls : list CacheBlockLocation) (h : heap) : heap :=
  mkHeap (pools h) (controls h ++ ((λ l, Some (mkControl i l 1)) <$> ls)).

Definition acquire_refs (i : nat) (acquire : M BlockPool (list CacheBlockLocation)) : M heap (list CacheBlockRef) :=
  λ h, match pool_at i h with
       | Raise e => (Raise e, h)
       | Ok p =>
           match acquire p with
           | (Raise e, p) => (Raise e, set_pool i p h)
           | (Ok ls, p) => (Ok (Some <$> seq (length (controls h)) (length ls)), new_controls i ls (set_pool i p h))
           end
       end.

(** ** The invariant *)

Definition control (h : heap) (c : nat) (k : CacheBlockControl) : Prop := controls h !! c = Some (Some k).

Definition uses (c : nat) (held : list nat) : Z := Z.of_nat (length (filter (λ d, d = c) held)).

Record owned (h : heap) (held : list nat) : Prop := {
  ow_pools i p : pools h !! i = Some p → ok p;
  ow_count c k : control h c k → strong_count_ k = uses c held ∧ 0 < strong_count_ k ≤ UINT32_MAX;
  ow_held c : c ∈ held → ∃ k, control h c k;
  ow_placed c k : control h c k → ∃ p, pools h !! pool_ k = Some p ∧ live p (location_ k) ≠ None;
  ow_distinct c d k k' : control h c k → control h d k' → pool_ k = pool_ k' → location_ k = location_ k' → c = d;
  ow_covered i p l : pools h !! i = Some p → live p l ≠ None →
    ∃ c k, control h c k ∧ pool_ k = i ∧ location_ k = l;
}.

Lemma uses_cons c d held : uses c (d :: held) = uses c held + if decide (d = c) then 1 else 0.
Proof.
  unfold uses. rewrite filter_cons. case_decide; cbn [length]; lia.
Qed.

Lemma uses_app c l k : uses c (l ++ k) = uses c l + uses c k.
Proof. unfold uses. rewrite filter_app, length_app. lia. Qed.

Lemma uses_nonneg c held : 0 ≤ uses c held.
Proof. unfold uses. lia. Qed.

Lemma uses_pos c held : 0 < uses c held ↔ c ∈ held.
Proof.
  unfold uses. split.
  - intros Hpos. destruct (filter (λ d, d = c) held) as [|d l] eqn:Hf; [cbn in Hpos; lia|].
    assert (d ∈ filter (λ d, d = c) held) as Hd by (rewrite Hf; by left). by apply list_elem_of_filter in Hd as [-> ?].
  - intros Hin. assert (c ∈ filter (λ d, d = c) held) as Hc by (by apply list_elem_of_filter).
    destruct (filter (λ d, d = c) held); [by apply not_elem_of_nil in Hc|]. cbn. lia.
Qed.

Lemma uses_le c held : uses c held ≤ Z.of_nat (length held).
Proof. unfold uses. pose proof (length_filter (λ d, d = c) held). lia. Qed.

#[export] Instance uses_proper c : Proper (Permutation ==> eq) (uses c).
Proof. intros l k Hlk. unfold uses. by rewrite Hlk. Qed.

#[export] Instance owned_proper h : Proper (Permutation ==> iff) (owned h).
Proof.
  assert (∀ l k, l ≡ₚ k → owned h l → owned h k) as Himp.
  { intros l k Hlk [? Hcount Hheld ? ? ?]. split; try done.
    - intros c K Hk. rewrite <- Hlk. by apply Hcount.
    - intros c. rewrite <- Hlk. apply Hheld. }
  intros l k Hlk. split; by apply Himp.
Qed.

(** ** References *)

Lemma control_Ok h c k : control h c k → control_at c h = Ok k.
Proof. unfold control, control_at. by intros ->. Qed.

Lemma control_fun h c k k' : control h c k → control h c k' → k = k'.
Proof. unfold control. congruence. Qed.

Lemma control_set h c k k' d kd :
  control h c k →
  control (set_control c k' h) d kd ↔ (d = c ∧ k' = Some kd) ∨ (d ≠ c ∧ control h d kd).
Proof.
  unfold control, set_control. cbn [controls]. intros Hc. apply lookup_lt_Some in Hc.
  destruct (decide (d = c)) as [->|Hne].
  - rewrite list_lookup_insert_eq by done. naive_solver.
  - rewrite list_lookup_insert_ne by done. naive_solver.
Qed.

(** Only a count changes. *)
Lemma owned_recount h held held' c k n :
  owned h held → control h c k → n = uses c held' → 0 < n ≤ UINT32_MAX →
  (∀ d, d ≠ c → uses d held' = uses d held) →
  owned (set_control c (Some (mkControl (pool_ k) (location_ k) n)) h) held'.
Proof.
  intros [Hpools Hcount Hheld Hplaced Hdist Hcov] Hk Hn Hpos Hoth.
  pose proof (λ kd, control_set h c k (Some (mkControl (pool_ k) (location_ k) n)) kd) as Hset.
  assert (∀ d kd, control (set_control c (Some (mkControl (pool_ k) (location_ k) n)) h) d kd →
    ∃ kd0, control h d kd0 ∧ pool_ kd = pool_ kd0 ∧ location_ kd = location_ kd0) as Hback.
  { intros d kd [[-> [= <-]]|[_ Hd]]%Hset; [by exists k| |done]. by exists kd. }
  split.
  - done.
  - intros d kd [[-> [= <-]]|[Hne Hd]]%Hset; [done| |done]. rewrite Hoth by done. by apply Hcount.
  - intros d Hd%uses_pos. destruct (decide (d = c)) as [->|Hne].
    + eexists. apply Hset; [done|]. by left.
    + rewrite Hoth in Hd by done. apply uses_pos, Hheld in Hd as [kd Hd]. exists kd. apply Hset; [done|]. by right.
  - intros d kd (kd0 & Hd & -> & ->)%Hback. by eapply Hplaced.
  - intros d e kd ke (kd0 & Hd & -> & ->)%Hback (ke0 & He & -> & ->)%Hback. by eapply Hdist.
  - intros i p l Hp Hl. destruct (Hcov i p l Hp Hl) as (d & kd & Hd & Hi & Hloc).
    destruct (decide (d = c)) as [->|Hne].
    + rewrite (control_fun _ _ _ _ Hd Hk) in *. eexists c, _. split; [apply Hset; [done|]; by left|done].
    + exists d, kd. split; [|done]. apply Hset; [done|]. by right.
Qed.

(** Where the block of a control is. *)
Definition place (h : heap) (c : nat) : option (nat * CacheBlockLocation) :=
  match controls h !! c with
  | Some (Some k) => Some (pool_ k, location_ k)
  | _ => None
  end.

Lemma place_Some h c i l : place h c = Some (i, l) ↔ ∃ k, control h c k ∧ pool_ k = i ∧ location_ k = l.
Proof. unfold place, control. destruct (controls h !! c) as [[k|]|]; naive_solver. Qed.

Definition same_places (h h' : heap) : Prop := pools h' = pools h ∧ ∀ c, place h' c = place h c.

Lemma recount_places h c k n :
  control h c k → same_places h (set_control c (Some (mkControl (pool_ k) (location_ k) n)) h).
Proof.
  intros Hk. split; [done|]. intros d. unfold place, set_control. cbn. destruct (decide (d = c)) as [->|Hne].
  - rewrite list_lookup_insert_eq by (by eapply lookup_lt_Some). by rewrite Hk.
  - by rewrite list_lookup_insert_ne.
Qed.

(** A copy adds one reference and changes no pool. *)
Lemma copy_spec h held c :
  owned h held → c ∈ held → Z.of_nat (length held) < UINT32_MAX →
  ∃ h', copy_ref (Some c) h = (Ok (Some c), h') ∧ owned h' (c :: held) ∧ same_places h h'.
Proof.
  intros How Hin Hroom. destruct (ow_held _ _ How c Hin) as [k Hk].
  destruct (ow_count _ _ How c k Hk) as [Hcount Hpos]. pose proof (uses_le c held) as Hle.
  exists (set_control c (Some (mkControl (pool_ k) (location_ k) (strong_count_ k + 1))) h).
  split; [|split; [|by apply recount_places]].
  - unfold copy_ref. erewrite run_bind_Ok; [done|]. apply run_update. unfold retain.
    rewrite (control_Ok _ _ _ Hk). cbn [mbind result_bind]. by pass_check lia.
  - apply (owned_recount h held); [done|done|..].
    + rewrite uses_cons, decide_True by done. lia.
    + lia.
    + intros d Hne. rewrite uses_cons, decide_False by done. lia.
Qed.

Lemma live_occupied p l : ok p → live p l ≠ None → occupied p l.
Proof.
  intros Hok Hl. destruct (live p l) as [g|] eqn:E; [|done]. by apply live_Some in E as [].
Qed.

(** The groups of a pool keep their packing and, once registered, their buckets. *)
Definition same_groups (p p' : BlockPool) : Prop :=
  packings p' = packings p ∧
  ∀ g group group', group_availability_ p !! g = Some group → group_availability_ p' !! g = Some group' →
    0 < buckets group → buckets group' = buckets group.

Lemma packings_lookup p p' g group :
  packings p' = packings p → group_availability_ p !! g = Some group →
  ∃ group', group_availability_ p' !! g = Some group' ∧ packing group' = packing group.
Proof.
  intros Hpk Hg. apply (f_equal (λ l, l !! g)) in Hpk. unfold packings in Hpk. rewrite !list_lookup_fmap, Hg in Hpk.
  destruct (group_availability_ p' !! g) as [group'|]; [|done]. injection Hpk as Hpk. by exists group'.
Qed.

#[export] Instance same_groups_preorder : PreOrder same_groups.
Proof.
  split.
  - intros p. split; [done|]. intros g group group' H1 H2 _. congruence.
  - intros p1 p2 p3 [Hp1 Hb1] [Hp2 Hb2]. split; [congruence|]. intros g group group3 H1 H3 Hpos.
    destruct (packings_lookup p1 p2 g group Hp1 H1) as (group2 & H2 & _).
    rewrite (Hb2 g group2 group3 H2 H3); rewrite (Hb1 g group group2 H1 H2 Hpos); done.
Qed.

Lemma grows_same_groups p g ls p' : (g < length (group_availability_ p))%nat → grows p g ls p' → same_groups p p'.
Proof.
  intros Hg Hgr. split; [by eapply grows_packings|]. intros h group group' H1 H2 Hpos.
  destruct (decide (h = g)) as [->|Hne].
  - destruct (gr_group _ _ _ _ Hgr group H1) as (group2 & H2' & _ & Hb). rewrite H2 in H2'. injection H2' as <-. by apply Hb.
  - rewrite (gr_groups _ _ _ _ Hgr h Hne) in H2. congruence.
Qed.

(** A pool in which only location [l] was put back. *)
Definition put_back (l : CacheBlockLocation) (p p' : BlockPool) : Prop :=
  ok p' ∧ same_groups p p' ∧ length (lcm_blocks_ p') = length (lcm_blocks_ p) ∧
  ∀ l', live p' l' = if decide (l' = l) then None else live p l'.

Lemma Release_put_back p l : ok p → live p l ≠ None → ∃ p', Release l p = Ok p' ∧ put_back l p p'.
Proof.
  intros Hok Hl. destruct (release_spec p l Hok (live_occupied p l Hok Hl)) as (g & p' & Hown & Hrun & Hrel).
  exists p'. split; [done|]. split; [apply Hrel|]. split; [split|split; [apply Hrel|]].
  - apply (packings_update p p' g); [apply Hrel| |by eapply owner_lt].
    intros group Hg. destruct (rl_group _ _ _ _ Hrel group Hg) as (group' & ? & ? & _). by exists group'.
  - intros h group group' H1 H2 _. destruct (decide (h = g)) as [->|Hne].
    + destruct (rl_group _ _ _ _ Hrel group H1) as (group2 & H2' & _ & Hb & _). congruence.
    + rewrite (rl_groups _ _ _ _ Hrel h Hne) in H2. congruence.
  - intros l'. by apply (live_releases p g).
Qed.

Lemma owned_delete h held c k p p' :
  owned h (c :: held) → control h c k → c ∉ held →
  pools h !! pool_ k = Some p → put_back (location_ k) p p' →
  owned (set_control c None (set_pool (pool_ k) p' h)) held.
Proof.
  intros [Hpools Hcount Hheld Hplaced Hdist Hcov] Hk Hnin Hp (Hok' & _ & _ & Hlive).
  assert (control (set_pool (pool_ k) p' h) c k) as Hk' by exact Hk.
  pose proof (control_set (set_pool (pool_ k) p' h) c k None) as Hset.
  assert (∀ d kd, control (set_control c None (set_pool (pool_ k) p' h)) d kd ↔ d ≠ c ∧ control h d kd) as Hctl.
  { intros d kd. rewrite (Hset d kd Hk'). unfold control, set_pool. cbn. naive_solver. }
  assert (∀ i q, pools (set_control c None (set_pool (pool_ k) p' h)) !! i = Some q →
    (i = pool_ k ∧ q = p') ∨ (i ≠ pool_ k ∧ pools h !! i = Some q)) as Hpool.
  { intros i q. cbn. destruct (decide (i = pool_ k)) as [->|Hne].
    - rewrite list_lookup_insert_eq by (by eapply lookup_lt_Some). naive_solver.
    - rewrite list_lookup_insert_ne by done. naive_solver. }
  split.
  - intros i q [[_ ->]|[_ Hq]]%Hpool; [done|]. by eapply Hpools.
  - intros d kd [Hne Hd]%Hctl. destruct (Hcount d kd Hd) as [Hn ?]. rewrite uses_cons, decide_False in Hn by done.
    split; [lia|done].
  - intros d Hd. destruct (Hheld d) as [kd Hkd]; [by right|]. exists kd. apply Hctl. split; [|done]. by intros ->.
  - intros d kd [Hne Hd]%Hctl. destruct (Hplaced d kd Hd) as (q & Hq & Hl). cbn.
    destruct (decide (pool_ kd = pool_ k)) as [Heq|Hnp].
    + exists p'. rewrite Heq in *. rewrite list_lookup_insert_eq by (by eapply lookup_lt_Some). split; [done|].
      rewrite Hlive, decide_False by (intros Hloc; by apply Hne, (Hdist d c kd k)). congruence.
    + exists q. by rewrite list_lookup_insert_ne.
  - intros d e kd ke [_ Hd]%Hctl [_ He]%Hctl. by apply Hdist.
  - intros i q l [[-> ->]|[Hne Hq]]%Hpool Hl.
    + rewrite Hlive in Hl. case_decide as Hloc; [done|]. destruct (Hcov _ _ _ Hp Hl) as (d & kd & Hd & Hi & Hdl).
      exists d, kd. split; [|done]. apply Hctl. split; [|done]. intros ->.
      rewrite (control_fun _ _ _ _ Hd Hk) in Hdl. congruence.
    + destruct (Hcov _ _ _ Hq Hl) as (d & kd & Hd & Hi & Hdl). exists d, kd. split; [|done]. apply Hctl.
      split; [|done]. intros ->. rewrite (control_fun _ _ _ _ Hd Hk) in Hi. congruence.
Qed.

(** Blocks may have gone; what is left is where it was, for the group it was. *)
Record shrinks (h h' : heap) : Prop := {
  sh_pools : length (pools h') = length (pools h);
  sh_place c i l : place h' c = Some (i, l) → place h c = Some (i, l);
  sh_pool i p : pools h !! i = Some p → ∃ p', pools h' !! i = Some p' ∧ same_groups p p' ∧
    length (lcm_blocks_ p') = length (lcm_blocks_ p) ∧ ∀ l g, live p' l = Some g → live p l = Some g;
}.

#[export] Instance shrinks_preorder : PreOrder shrinks.
Proof.
  split.
  - intros h. split; [done|done|]. intros i p Hp. by exists p.
  - intros h1 h2 h3 [Hl1 Hc1 Hp1] [Hl2 Hc2 Hp2]. split; [congruence|auto|].
    intros i p Hp. destruct (Hp1 i p Hp) as (p2 & Hp' & ? & ? & ?). destruct (Hp2 i p2 Hp') as (p3 & ? & ? & ? & ?).
    exists p3. split_and!; [done|by etrans|congruence|auto].
Qed.

(** A block in use is one some reference holds. *)
Lemma live_held h held i p l :
  owned h held → pools h !! i = Some p →
  live p l ≠ None ↔ ∃ c, c ∈ held ∧ place h c = Some (i, l).
Proof.
  intros How Hp. split.
  - intros Hl. destruct (ow_covered _ _ How i p l Hp Hl) as (c & k & Hk & Hi & Hloc). exists c.
    destruct (ow_count _ _ How c k Hk) as [Hcount Hpos]. split; [apply uses_pos; lia|].
    apply place_Some. by exists k.
  - intros (c & _ & (k & Hk & <- & <-)%place_Some). destruct (ow_placed _ _ How c k Hk) as (q & Hq & Hl). congruence.
Qed.

(** The last reference puts the block back; any other only lowers the count. *)
Lemma reset_spec h held c :
  owned h (c :: held) →
  ∃ k h', control h c k ∧ reset (Some c) h = (Ok (), h') ∧ owned h' held ∧
    shrinks h h' ∧ (c ∈ held → pools h' = pools h).
Proof.
  intros How. destruct (ow_held _ _ How c) as [k Hk]; [by left|].
  destruct (ow_count _ _ How c k Hk) as [Hcount Hpos]. rewrite uses_cons, decide_True in Hcount by done.
  destruct (decide (c ∈ held)) as [Hin|Hnin].
  - exists k, (set_control c (Some (mkControl (pool_ k) (location_ k) (strong_count_ k - 1))) h).
    apply uses_pos in Hin as Hu. split; [done|]. split; [|split].
    + apply run_update. unfold release. rewrite (control_Ok _ _ _ Hk). cbn [mbind result_bind].
      pass_check lia. by rewrite (proj2 (Z.eqb_neq _ _)) by lia.
    + apply (owned_recount h (c :: held)); [done|done|lia|lia|].
      intros d Hne. rewrite uses_cons, decide_False by done. lia.
    + split; [|done]. split; [done|..|intros i p Hp; by exists p]. intros d i l (kd & Hd & <- & <-)%place_Some.
      apply (control_set _ _ _ _ _ _ Hk) in Hd as [[-> [= <-]]|[_ Hd]]; apply place_Some; [by exists k|by exists kd].
  - pose proof (uses_nonneg c held). assert (¬ 0 < uses c held) as Hu by (by rewrite uses_pos).
    destruct (ow_placed _ _ How c k Hk) as (p & Hp & Hl). pose proof (ow_pools _ _ How _ _ Hp) as Hok.
    destruct (Release_put_back p (location_ k) Hok Hl) as (p' & Hrun & Hback).
    exists k, (set_control c None (set_pool (pool_ k) p' h)). split; [done|]. split; [|split].
    + apply run_update. unfold release. rewrite (control_Ok _ _ _ Hk). cbn [mbind result_bind].
      pass_check lia. rewrite (proj2 (Z.eqb_eq _ _)) by lia. unfold delete_control, pool_at. rewrite Hp.
      cbn [lookup_or mbind result_bind]. by rewrite Hrun.
    + by eapply owned_delete.
    + destruct Hback as (_ & Hpk & Hlen & Hlive). split; [|done]. split; [cbn; by rewrite length_insert|..].
      * intros d i l (kd & Hd & <- & <-)%place_Some.
        apply (control_set (set_pool (pool_ k) p' h) c k) in Hd as [[_ ?]|[_ Hd]]; [done| |done].
        apply place_Some. by exists kd.
      * intros i q Hq. cbn. destruct (decide (i = pool_ k)) as [->|Hne].
        -- exists p'. rewrite list_lookup_insert_eq by (by eapply lookup_lt_Some). simplify_eq. split_and!; try done.
           intros l g. rewrite Hlive. by case_decide.
        -- exists q. by rewrite list_lookup_insert_ne.
Qed.

(** Every reference of a vector goes. *)
Lemma reset_all_spec rs h held :
  owned h (omap id rs ++ held) →
  ∃ h', reset_all rs h = (Ok (), h') ∧ owned h' held ∧ shrinks h h'.
Proof.
  revert h. induction rs as [|[c|] rs IH]; intros h How; cbn [omap list_omap app] in How.
  - by exists h.
  - destruct (reset_spec h (omap id rs ++ held) c How) as (k & h1 & _ & Hrun & How1 & Hsh & _).
    destruct (IH h1 How1) as (h2 & Hrun2 & How2 & Hsh2). exists h2. split; [|split; [done|by etrans]].
    cbn [reset_all]. by erewrite run_bind_Ok.
  - destruct (IH h How) as (h' & Hrun & ?). exists h'. by split.
Qed.

(** ** Acquiring *)

(** New controls for new blocks; everything else is as before. *)
Record gains (h : heap) (i g : nat) (new : list nat) (ls : list CacheBlockLocation) (h' : heap) : Prop := {
  ga_fresh c : c ∈ new → place h c = None;
  ga_nodup : NoDup new;
  ga_new : Forall2 (λ c l, place h' c = Some (i, l)) new ls;
  ga_old c i' l : place h c = Some (i', l) → place h' c = Some (i', l);
  ga_vacant p l : pools h !! i = Some p → l ∈ ls → live p l = None;
  ga_pools : length (pools h') = length (pools h);
  ga_pool j p : pools h !! j = Some p → ∃ p', pools h' !! j = Some p' ∧ same_groups p p' ∧
    length (lcm_blocks_ p') = length (lcm_blocks_ p) ∧
    ∀ l, live p' l = if decide (j = i ∧ l ∈ ls) then Some g else live p l;
}.

Section acquired.
Context (h : heap) (held : list nat) (i g : nat) (p p' : BlockPool) (ls : list CacheBlockLocation).
Context (How : owned h held) (Hp : pools h !! i = Some p) (Hgr : grows p g ls p').
Context (Hg : (g < length (group_availability_ p))%nat).

Let h' := new_controls i ls (set_pool i p' h).
Let new := seq (length (controls h)) (length ls).

Lemma new_control c k : control h' c k ↔
  control h c k ∨ ∃ j l, c = (length (controls h) + j)%nat ∧ ls !! j = Some l ∧ k = mkControl i l 1.
Proof.
  unfold control, h', new_controls. cbn. rewrite lookup_app_Some, list_lookup_fmap. split.
  - intros [?|[Hge Hl]]; [by left|]. right. destruct (ls !! _) as [l|] eqn:E; [|done]. injection Hl as <-.
    exists (c - length (controls h))%nat, l. split_and!; [lia|done|done].
  - intros [?|(j & l & -> & Hl & ->)]; [by left|]. right. split; [lia|].
    replace (length (controls h) + j - length (controls h))%nat with j by lia. by rewrite Hl.
Qed.

Lemma new_uses c : uses c (new ++ held) = uses c held + if decide (c ∈ new) then 1 else 0.
Proof.
  rewrite uses_app, Z.add_comm. f_equal. case_decide as Hin.
  - assert (∀ l, NoDup l → c ∈ l → uses c l = 1) as H1; [|by apply H1; [apply NoDup_seq|]].
    induction 1 as [|d l Hnin Hnd IH]; [by intros ?%not_elem_of_nil|]. intros [->|Hc]%elem_of_cons; rewrite uses_cons.
    + rewrite decide_True by done. pose proof (uses_nonneg d l). pose proof (uses_pos d l) as Hpos.
      assert (¬ 0 < uses d l) by (by rewrite Hpos). lia.
    + rewrite decide_False by (by intros ->). rewrite IH by done. lia.
  - pose proof (uses_nonneg c new). assert (¬ 0 < uses c new) by (by rewrite uses_pos). lia.
Qed.

Lemma old_not_new c k : control h c k → c ∉ new.
Proof. intros Hc%lookup_lt_Some [Hge _]%elem_of_seq. lia. Qed.

Lemma new_pool j q : pools h' !! j = Some q → (j = i ∧ q = p') ∨ (j ≠ i ∧ pools h !! j = Some q).
Proof.
  cbn. destruct (decide (j = i)) as [->|Hne].
  - rewrite list_lookup_insert_eq by (by eapply lookup_lt_Some). naive_solver.
  - rewrite list_lookup_insert_ne by done. naive_solver.
Qed.

Lemma acquired_live l : live p' l = if decide (l ∈ ls) then Some g else live p l.
Proof. by apply live_grows; [by eapply (ow_pools _ _ How)|]. Qed.

Lemma acquired_owned : owned h' (new ++ held).
Proof.
  pose proof How as [Hpools Hcount Hheld Hplaced Hdist Hcov].
  assert (∀ c k, control h c k → pool_ k = i → location_ k ∉ ls) as Hold.
  { intros c k Hk Hi Hin. destruct (Hplaced c k Hk) as (q & Hq & Hl). simplify_eq.
    apply (gr_fresh _ _ _ _ Hgr _ Hin). by apply live_occupied; [by eapply Hpools|]. }
  split.
  - intros j q [[_ ->]|[_ Hq]]%new_pool; [apply Hgr|by eapply Hpools].
  - intros c k [Hk|(j & l & -> & Hl & ->)]%new_control; rewrite new_uses.
    + rewrite decide_False by (by eapply old_not_new). rewrite Z.add_0_r. by apply Hcount.
    + rewrite decide_True by (apply elem_of_seq; apply lookup_lt_Some in Hl; lia). cbn. unfold UINT32_MAX.
      split; [|lia]. assert (¬ 0 < uses (length (controls h) + j) held) as Hu.
      { rewrite uses_pos. intros [k Hk%lookup_lt_Some]%Hheld. lia. }
      pose proof (uses_nonneg (length (controls h) + j) held). lia.
  - intros c [Hin|[k Hk]%Hheld]%elem_of_app; [|exists k; apply new_control; by left].
    apply elem_of_seq in Hin as [Hge Hlt].
    destruct (lookup_lt_is_Some_2 ls (c - length (controls h))) as [l Hl]; [lia|].
    eexists. apply new_control. right. eexists _, l. split_and!; [|done|done]. lia.
  - intros c k [Hk|(j & l & -> & Hl & ->)]%new_control.
    + destruct (Hplaced c k Hk) as (q & Hq & Hlive). cbn. destruct (decide (pool_ k = i)) as [Heq|Hne].
      * exists p'. rewrite Heq in *. rewrite list_lookup_insert_eq by (by eapply lookup_lt_Some). split; [done|].
        rewrite acquired_live. rewrite decide_False by (by eapply Hold). congruence.
      * exists q. by rewrite list_lookup_insert_ne.
    + cbn. exists p'. rewrite list_lookup_insert_eq by (by eapply lookup_lt_Some). split; [done|].
      rewrite acquired_live, decide_True; [done|]. by eapply list_elem_of_lookup_2.
  - intros c d k kd [Hk|(j & l & -> & Hl & ->)]%new_control [Hd|(jd & ld & -> & Hld & ->)]%new_control Hpk Hlk; cbn in *.
    + by eapply Hdist.
    + destruct (Hold c k Hk Hpk). rewrite Hlk. by eapply list_elem_of_lookup_2.
    + destruct (Hold d kd Hd (eq_sym Hpk)). rewrite <- Hlk. by eapply list_elem_of_lookup_2.
    + subst ld. by rewrite (NoDup_lookup _ _ _ _ (gr_nodup _ _ _ _ Hgr) Hl Hld).
  - intros j q l [[-> ->]|[Hne Hq]]%new_pool Hlive.
    + rewrite acquired_live in Hlive. case_decide as Hin.
      * apply list_elem_of_lookup_1 in Hin as [n Hn]. eexists _, _. split; [apply new_control; right|].
        { exists n, l. split_and!; [done|done|done]. } done.
      * destruct (Hcov _ _ _ Hp Hlive) as (c & k & Hk & ?). exists c, k. split; [|done]. apply new_control. by left.
    + destruct (Hcov _ _ _ Hq Hlive) as (c & k & Hk & ?). exists c, k. split; [|done]. apply new_control. by left.
Qed.

Lemma acquired_gains : gains h i g new ls h'.
Proof.
  split.
  - intros c [Hge _]%elem_of_seq. unfold place. by rewrite (proj2 (lookup_ge_None _ _)) by lia.
  - apply NoDup_seq.
  - apply Forall2_same_length_lookup. split; [apply length_seq|]. intros j c l [-> Hj]%lookup_seq Hl.
    apply place_Some. eexists. split; [apply new_control; right|]. { exists j, l. by split_and!. } done.
  - intros c j l (k & Hk & <- & <-)%place_Some. apply place_Some. exists k. split; [|done]. apply new_control. by left.
  - intros q l Hq Hl. assert (q = p) as -> by congruence. apply live_None; [by eapply (ow_pools _ _ How)|].
    by apply (gr_fresh _ _ _ _ Hgr).
  - cbn. by rewrite length_insert.
  - intros j q Hq. cbn. destruct (decide (j = i)) as [->|Hne].
    + exists p'. rewrite list_lookup_insert_eq by (by eapply lookup_lt_Some).
      assert (q = p) as -> by congruence. split; [done|]. split; [by eapply grows_same_groups|].
      split; [apply Hgr|]. intros l. rewrite acquired_live. apply decide_ext. tauto.
    + exists q. rewrite list_lookup_insert_ne by done. split_and!; try done. intros l.
      by rewrite decide_False by tauto.
Qed.

Lemma acquire_refs_spec acquire :
  acquire p = (Ok ls, p') →
  ∃ new h', acquire_refs i acquire h = (Ok (Some <$> new), h') ∧ owned h' (new ++ held) ∧ gains h i g new ls h'.
Proof.
  intros Hrun. exists new, h'. split; [|split; [apply acquired_owned|apply acquired_gains]].
  unfold acquire_refs, pool_at. rewrite Hp. cbn [lookup_or]. by rewrite Hrun.
Qed.
End acquired.

(** ** Programs over reference variables *)

Inductive statement :=
  | AcquireInto (dst : nat) (pool group_id : nat)
  | CopyTo (dst src : nat)
  | MoveTo (dst src : nat)
  | ResetVar (dst : nat).

Definition store : Type := heap * list CacheBlockRef.

Definition on_heap {A} (m : M heap A) : M store A := within fst (λ h s, (h, s.2)) m.
Definition get_var (v : nat) : M store CacheBlockRef :=
  const (λ s : store, lookup_or (Undefined "no such variable") (s.2 !! v)).
Definition set_var (v : nat) (r : CacheBlockRef) : M store () := modify (λ s, (s.1, <[v := r]> s.2)).

Definition exec (st : statement) : M store () :=
  match st with
  | AcquireInto dst i g =>
      refs ← on_heap (acquire_refs i (AcquireBlocks g 1 []));
      old ← get_var dst;
      r ← on_heap (assign_move old (mjoin (head refs)));
      set_var dst r
  | CopyTo dst src =>
      if decide (dst = src) then mret ()
      else
        old ← get_var dst;
        other ← get_var src;
        r ← on_heap (assign_copy old other);
        set_var dst r
  | MoveTo dst src =>
      if decide (dst = src) then mret ()
      else
        old ← get_var dst;
        other ← get_var src;
        r ← on_heap (assign_move old other);
        set_var dst r ;;
        set_var src None
  | ResetVar dst =>
      old ← get_var dst;
      on_heap (reset old) ;;
      set_var dst None
  end.

Definition well_formed (s : store) (st : statement) : Prop :=
  match st with
  | AcquireInto dst i g => (dst < length s.2)%nat ∧ ∃ p, pools s.1 !! i = Some p ∧ (g < length (group_availability_ p))%nat
  | CopyTo dst src | MoveTo dst src => (dst < length s.2)%nat ∧ (src < length s.2)%nat
  | ResetVar dst => (dst < length s.2)%nat
  end.

Inductive runs : store → Prop :=
  | runs_start ps n :
      Forall (λ p, ∃ num slots, BlockPool_new num slots = Ok p) ps → Z.of_nat n < UINT32_MAX →
      runs (mkHeap ps [], replicate n None)
  | runs_exec s st answer s' : runs s → well_formed s st → exec st s = (answer, s') → runs s'.

Definition vars_ok (s : store) : Prop := owned s.1 (omap id s.2) ∧ Z.of_nat (length s.2) < UINT32_MAX.

Lemma omap_insert (vars : list CacheBlockRef) v old r :
  vars !! v = Some old →
  omap id (<[v := r]> vars) ++ option_list old ≡ₚ omap id vars ++ option_list r.
Proof.
  intros Hv. rewrite <- (take_drop_middle _ _ _ Hv) at 2.
  rewrite insert_take_drop by (by eapply lookup_lt_Some). rewrite !omap_app. cbn [omap list_omap].
  destruct old as [c|], r as [d|]; cbn; rewrite ?app_nil_r; solve_Permutation.
Qed.

Lemma on_heap_Ok {A} (m : M heap A) h vars a h' : m h = (Ok a, h') → on_heap m (h, vars) = (Ok a, (h', vars)).
Proof. unfold on_heap, within. cbn. by intros ->. Qed.

Lemma get_var_Ok (h : heap) (vars : list CacheBlockRef) v r :
  vars !! v = Some r → get_var v (h, vars) = (Ok r, (h, vars)).
Proof. unfold get_var, const. cbn. by intros ->. Qed.

Lemma reset_opt_spec h held (r : CacheBlockRef) :
  owned h (option_list r ++ held) →
  ∃ h', reset r h = (Ok (), h') ∧ owned h' held ∧ shrinks h h'.
Proof.
  destruct r as [c|]; intros How; [|by exists h].
  destruct (reset_spec h held c How) as (k & h' & _ & ? & ? & ? & _). by exists h'.
Qed.

Lemma copy_opt_spec h held (r : CacheBlockRef) :
  owned h held → (∀ c, r = Some c → c ∈ held) → Z.of_nat (length held) < UINT32_MAX →
  ∃ h', copy_ref r h = (Ok r, h') ∧ owned h' (option_list r ++ held).
Proof.
  destruct r as [c|]; intros How Hin Hlen; [|by exists h].
  destruct (copy_spec h held c How (Hin c eq_refl) Hlen) as (h' & ? & ? & _). by exists h'.
Qed.

Section exec.
Context (h : heap) (vars : list CacheBlockRef).
Context (How : owned h (omap id vars)) (Hlen : Z.of_nat (length vars) < UINT32_MAX).

Lemma held_room : Z.of_nat (length (omap id vars)) < UINT32_MAX.
Proof.
  assert (∀ l : list CacheBlockRef, length (omap id l) ≤ length l)%nat as Hl; [|specialize (Hl vars); lia].
  induction l as [|[] l IH]; cbn; lia.
Qed.

Lemma acquire_one i p g :
  pools h !! i = Some p → (g < length (group_availability_ p))%nat →
  ∃ new h1, acquire_refs i (AcquireBlocks g 1 []) h = (Ok (Some <$> new), h1) ∧ (length new ≤ 1)%nat ∧
    owned h1 (new ++ omap id vars).
Proof.
  intros Hp Hg. apply lookup_lt_is_Some_2 in Hg as [group Hgroup]. pose proof (ow_pools _ _ How _ _ Hp) as Hok.
  destruct (acquire_blocks_spec p g group 1 [] Hok Hgroup) as [Hno Hyes]; [unfold valid_loads; cbn; lia|].
  assert (∃ ls p', AcquireBlocks g 1 [] p = (Ok ls, p') ∧ grows p g ls p' ∧ (length ls ≤ 1)%nat) as (ls & p' & Hacq & Hgr & Hls).
  { destruct (decide (1 ≤ capacity p group)).
    - destruct Hyes as (ls & p' & ? & ? & ?); [lia|]. exists ls, p'. split_and!; [done|done|lia].
    - exists [], p. split; [apply Hno; lia|]. split; [by apply grows_nil|cbn; lia]. }
  destruct (acquire_refs_spec h (omap id vars) i g p p' ls How Hp Hgr (lookup_lt_Some _ _ _ Hgroup) _ Hacq)
    as (new & h1 & Hrun & How1 & Hgain). exists new, h1. split; [done|]. split; [|done].
  rewrite (Forall2_length _ _ _ (ga_new _ _ _ _ _ _ Hgain)). done.
Qed.

Lemma exec_acquire dst i p g old :
  vars !! dst = Some old → pools h !! i = Some p → (g < length (group_availability_ p))%nat →
  ∃ s', exec (AcquireInto dst i g) (h, vars) = (Ok (), s') ∧ vars_ok s'.
Proof.
  intros Hold Hp Hg. destruct (acquire_one i p g Hp Hg) as (new & h1 & Hrun & Hnew & How1). unfold exec.
  set (r := mjoin (head (Some <$> new)) : CacheBlockRef).
  assert (option_list r = new) as Hr by (destruct new as [|? []]; [done|done|cbn in Hnew; lia]).
  rewrite (run_bind_Ok _ _ _ _ _ (on_heap_Ok _ _ vars _ _ Hrun)), (run_bind_Ok _ _ _ _ _ (get_var_Ok _ _ _ _ Hold)).
  destruct (reset_opt_spec h1 (omap id (<[dst := r]> vars)) old) as (h2 & Hreset & How2 & _).
  { by rewrite (Permutation_app_comm (option_list old)), (omap_insert _ _ _ _ Hold), Hr, Permutation_app_comm. }
  erewrite run_bind_Ok; [|apply on_heap_Ok; unfold assign_move; by rewrite (run_bind_Ok _ _ _ _ _ Hreset)].
  eexists. split; [done|]. split; cbn; by rewrite ?length_insert.
Qed.

Lemma exec_copy dst src old other :
  vars !! dst = Some old → vars !! src = Some other →
  ∃ s', exec (CopyTo dst src) (h, vars) = (Ok (), s') ∧ vars_ok s'.
Proof.
  intros Hold Hother. unfold exec. case_decide; [by exists (h, vars)|]. pose proof held_room as Hroom.
  rewrite (run_bind_Ok _ _ _ _ _ (get_var_Ok _ _ _ _ Hold)), (run_bind_Ok _ _ _ _ _ (get_var_Ok _ _ _ _ Hother)).
  destruct (copy_opt_spec h (omap id vars) other How) as (h1 & Hcopy & How1); [|done|].
  { intros c ->. apply list_elem_of_omap. exists (Some c). split; [by eapply list_elem_of_lookup_2|done]. }
  destruct (reset_opt_spec h1 (omap id (<[dst := other]> vars)) old) as (h2 & Hreset & How2 & _).
  { by rewrite (Permutation_app_comm (option_list old)), (omap_insert _ _ _ _ Hold), Permutation_app_comm. }
  erewrite run_bind_Ok; [|apply on_heap_Ok; unfold assign_copy;
    rewrite (run_bind_Ok _ _ _ _ _ Hcopy); by rewrite (run_bind_Ok _ _ _ _ _ Hreset)].
  eexists. split; [done|]. split; cbn; by rewrite ?length_insert.
Qed.

Lemma exec_move dst src old other :
  vars !! dst = Some old → vars !! src = Some other →
  ∃ s', exec (MoveTo dst src) (h, vars) = (Ok (), s') ∧ vars_ok s'.
Proof.
  intros Hold Hother. unfold exec. case_decide as Hne; [by exists (h, vars)|].
  rewrite (run_bind_Ok _ _ _ _ _ (get_var_Ok _ _ _ _ Hold)), (run_bind_Ok _ _ _ _ _ (get_var_Ok _ _ _ _ Hother)).
  destruct (reset_opt_spec h (omap id (<[src := None]> (<[dst := other]> vars))) old) as (h2 & Hreset & How2 & _).
  { pose proof (omap_insert _ _ _ other Hold) as H1.
    assert (<[dst := other]> vars !! src = Some other) as Hsrc by (by rewrite list_lookup_insert_ne).
    pose proof (omap_insert _ _ _ None Hsrc) as H2. cbn [option_list] in H2. rewrite app_nil_r in H2.
    rewrite <- H2 in H1. rewrite <- app_assoc, (Permutation_app_comm (option_list other)), app_assoc in H1.
    apply Permutation_app_inv_r in H1. by rewrite Permutation_app_comm, H1. }
  erewrite run_bind_Ok; [|apply on_heap_Ok; unfold assign_move; by rewrite (run_bind_Ok _ _ _ _ _ Hreset)].
  erewrite run_bind_Ok by done. eexists. split; [done|]. split; cbn; by rewrite ?length_insert.
Qed.

Lemma exec_reset dst old :
  vars !! dst = Some old → ∃ s', exec (ResetVar dst) (h, vars) = (Ok (), s') ∧ vars_ok s'.
Proof.
  intros Hold. unfold exec. rewrite (run_bind_Ok _ _ _ _ _ (get_var_Ok _ _ _ _ Hold)).
  destruct (reset_opt_spec h (omap id (<[dst := None]> vars)) old) as (h2 & Hreset & How2 & _).
  { rewrite (Permutation_app_comm (option_list old)), (omap_insert _ _ _ _ Hold). cbn. by rewrite app_nil_r. }
  erewrite run_bind_Ok by (by apply on_heap_Ok). eexists. split; [done|]. split; cbn; by rewrite ?length_insert.
Qed.
End exec.

Lemma exec_ok s st : vars_ok s → well_formed s st → ∃ s', exec st s = (Ok (), s') ∧ vars_ok s'.
Proof.
  destruct s as [h vars]. intros [How Hlen]. cbn [fst snd] in *.
  destruct st as [dst i g|dst src|dst src|dst]; cbn [well_formed fst snd].
  - intros [[old Hold]%lookup_lt_is_Some_2 (p & Hp & Hg)]. by eapply exec_acquire.
  - intros [[old Hold]%lookup_lt_is_Some_2 [other Hother]%lookup_lt_is_Some_2]. by eapply exec_copy.
  - intros [[old Hold]%lookup_lt_is_Some_2 [other Hother]%lookup_lt_is_Some_2]. by eapply exec_move.
  - intros [old Hold]%lookup_lt_is_Some_2. by eapply exec_reset.
Qed.

(** Pools nothing was acquired from yet. *)
Definition unused (p : BlockPool) : Prop := ok p ∧ ∀ l, live p l = None.

Lemma unused_new num slots p : BlockPool_new num slots = Ok p → unused p.
Proof.
  intros Hnew. split; [by eapply new_ok|]. intros l. apply live_None; [by eapply new_ok|]. intros (q & [_ Hq] & _ & Ho).
  unfold BlockPool_new in Hnew. apply bind_Ok in Hnew as (? & _ & Hnew). apply bind_Ok in Hnew as (? & _ & [= <-]).
  cbn in Hq. by apply lookup_replicate in Hq as [-> _].
Qed.

Lemma owned_unused ps : Forall unused ps → owned (mkHeap ps []) [].
Proof.
  intros Hps. pose proof (λ i p, Forall_lookup_1 _ ps i p Hps) as Hfresh.
  split; unfold control; cbn; try done.
  - intros i p Hp. by apply (Hfresh i).
  - intros c ?%not_elem_of_nil. done.
  - intros i p l Hp Hl. by rewrite (proj2 (Hfresh i p Hp)) in Hl.
Qed.

Lemma runs_ok s : runs s → vars_ok s.
Proof.
  induction 1 as [ps n Hps Hn|s st answer s' _ IH Hwf Hrun].
  - split; [|cbn; by rewrite length_replicate].
    assert (∀ m, omap id (replicate m (None : CacheBlockRef)) = []) as Hnone by (by induction m).
    unfold fst, snd. rewrite Hnone. apply owned_unused. eapply Forall_impl; [done|].
    intros p (num & slots & ?). by eapply unused_new.
  - destruct (exec_ok s st IH Hwf) as (s2 & Hrun2 & ?). congruence.
Qed.

(** C3: Counted references are exact: however a program acquires, copies, moves and drops
    references, every statement runs to its end, the count of a control is the number
    of variables that refer to it, and the blocks in use of every pool are exactly those
    some variable refers to. *)
Theorem references_exact s :
  runs s →
  (∀ st, well_formed s st → ∃ s', exec st s = (Ok (), s') ∧ runs s') ∧
  (∀ v c, s.2 !! v = Some (Some c) → use_count (Some c) s.1 = Ok (uses c (omap id s.2))) ∧
  ∀ i p l, pools s.1 !! i = Some p →
    live p l ≠ None ↔ ∃ v c, s.2 !! v = Some (Some c) ∧ place s.1 c = Some (i, l).
Proof.
  intros Hruns. pose proof (runs_ok s Hruns) as Hok. destruct Hok as [How Hlen].
  assert (∀ c, c ∈ omap id s.2 ↔ ∃ v, s.2 !! v = Some (Some c)) as Hin.
  { intros c. rewrite list_elem_of_omap. split.
    - intros (r & [v Hv]%list_elem_of_lookup_1 & Hr). cbn in Hr. subst r. by exists v.
    - intros [v Hv]. exists (Some c). split; [by eapply list_elem_of_lookup_2|done]. }
  split; [|split].
  - intros st Hwf. destruct (exec_ok s st (runs_ok s Hruns) Hwf) as (s' & Hrun & _). exists s'. split; [done|].
    by eapply runs_exec.
  - intros v c Hv. destruct (ow_held _ _ How c) as [k Hk]; [apply Hin; by exists v|].
    cbn. rewrite (control_Ok _ _ _ Hk). cbn. f_equal. by apply (ow_count _ _ How c k Hk).
  - intros i p l Hp. rewrite (live_held _ _ i p l How Hp). setoid_rewrite Hin. naive_solver.
Qed.

(** Two variables share one block of a pool; a third is null. *)
Definition shared_store : store :=
  (mkHeap [mkPool [mkLcmBlock (Some 0%nat) [true; false] 1 [1]] [] [mkGroup 2 [1] [[(-1, 1)]]]]
     [Some (mkControl 0 (mkLocation 1 0) 2)], [Some 0%nat; Some 0%nat; None]).

Lemma references_exact_witness :
  runs shared_store ∧ use_count (Some 0%nat) shared_store.1 = Ok (uses 0 (omap id shared_store.2)).
Proof.
  assert (runs shared_store) as Hruns.
  { eapply (runs_exec _ (CopyTo 1 0)).
    - eapply (runs_exec _ (AcquireInto 0 0 0)).
      + apply (runs_start [mkPool [empty_block] [1] [mkGroup 2 [] []]] 3); [|unfold UINT32_MAX; lia].
        constructor; [|constructor]. exists 1, [2]. reflexivity.
      + split; [cbn; lia|]. eexists. split; [reflexivity|cbn; lia].
      + vm_compute. reflexivity.
    - split; cbn; lia.
    - vm_compute. reflexivity. }
  split; [exact Hruns|].
  exact (proj1 (proj2 (references_exact shared_store Hruns)) 0%nat 0%nat eq_refl).
Defined.
