(* ===== verification/PrefixHash.v ===== *)
(** * Chained hashes of prefix pages

    [csrc/cache/prefix/prefix_hasher.h]: the framing of a page (hash of the page before,
    tokens, extra keys) into the bytes SHA-256 absorbs, hexadecimal digests, and the
    chain over the pages of a prompt.  SHA-256 is a parameter; the theorems assume it
    does not collide on the messages at hand.

    A byte is an integer from 0 to 255; a [char] is signed; a string is its bytes. *)

From Stdlib Require Import Ascii String.
From S2P Require Import Prelude Cxx.

Local Open Scope Z_scope.

(** ** Bytes *)

Definition uint8 (x : Z) : Z := x mod 256.
Definition uint32 (x : Z) : Z := x mod 2 ^ 32.
Definition is_byte (b : Z) : Prop := 0 ≤ b < 256.

Definition bytes_of (s : string) : list Z := Z.of_nat ∘ nat_of_ascii <$> list_ascii_of_string s.

(** The value of a [char], which is signed on the supported platforms. *)
Definition char_value (c : ascii) : Z :=
  let n := Z.of_nat (nat_of_ascii c) in if n <? 128 then n else n - 256.

(** [kHex] *)
Definition hex_digit (n : Z) : ascii :=
  default "0"%char (list_ascii_of_string "0123456789abcdef" !! Z.to_nat n).

Definition AppendHexBytes (out : list ascii) (bytes : list Z) : list ascii :=
  foldl (λ out b, out ++ [hex_digit (Z.shiftr b 4); hex_digit (Z.land b 15)]) out bytes.

(** [Sha256UpdateU32LE]: the four bytes it absorbs. *)
Definition u32_le (v : Z) : list Z := [uint8 v; uint8 (Z.shiftr v 8); uint8 (Z.shiftr v 16); uint8 (Z.shiftr v 24)].

Definition DigestToHex (digest : list Z) : string := string_of_list_ascii (AppendHexBytes [] digest).

Definition hex_value (c : ascii) : Z :=
  let v := char_value c in
  if 97 <=? v then uint8 (v - 97 + 10)
  else if 65 <=? v then uint8 (v - 65 + 10)
  else uint8 (v - 48).

Fixpoint hex_pairs (l : list ascii) : list Z :=
  match l with
  | hi :: lo :: l => uint8 (Z.lor (Z.shiftl (hex_value hi) 4) (hex_value lo)) :: hex_pairs l
  | _ => []
  end.

Definition HexToBytes (hex : string) : list Z := hex_pairs (list_ascii_of_string hex).

(** ** The message of a page *)

Definition size_le {A} (l : list A) : list Z := u32_le (uint32 (Z.of_nat (length l))).

Definition frame_keys (extra_keys : list string) : list Z :=
  match extra_keys with
  | [] => []
  | _ => size_le extra_keys ++ mjoin ((λ key, size_le (bytes_of key) ++ bytes_of key) <$> extra_keys)
  end.

Definition page_message (tokens : list Z) (prior_bytes : list Z) (extra_keys : list string) : list Z :=
  size_le prior_bytes ++ prior_bytes ++
  size_le tokens ++ mjoin (u32_le ∘ uint32 <$> tokens) ++
  frame_keys extra_keys.

Section hash.
Context (sha256 : list Z → list Z).

Definition HashPrefixPage (tokens : list Z) (prior_hash : string) (extra_keys : list string) : string :=
  DigestToHex (sha256 (page_message tokens (HexToBytes prior_hash) extra_keys)).

(** [extra] is [extra_keys_per_page] from the current page on. *)
Fixpoint ComputePrefixHashes (prefix_pages : list (list Z)) (prior : string) (extra : list (list string)) :
    list string :=
  match prefix_pages with
  | [] => []
  | page :: pages =>
      let h := HashPrefixPage page prior (default [] (head extra)) in
      h :: ComputePrefixHashes pages h (tail extra)
  end.

Definition AdvancePrefixHashes (prefix_pages : list (list Z)) (first_page : Z) (prior : string)
    (past_end_page : Z) : result (list string) :=
  _assert (0 <=? first_page) "first_page must be >= 0";;
  _assert (first_page <? past_end_page) "hash range must be non-empty";;
  _assert (past_end_page <=? Z.of_nat (length prefix_pages)) "hash range exceeds the available full pages";;
  Ok (ComputePrefixHashes
        (take (Z.to_nat (past_end_page - first_page)) (drop (Z.to_nat first_page) prefix_pages)) prior []).

End hash.

(** ** The bytes determine the values *)

Lemma u32_le_inj x y : 0 ≤ x < 2 ^ 32 → 0 ≤ y < 2 ^ 32 → u32_le x = u32_le y → x = y.
Proof.
  intros Hx Hy [= H0 H1 H2 H3]. unfold uint8 in *. rewrite !Z.shiftr_div_pow2 in * by lia.
  assert (∀ z, 0 ≤ z < 2 ^ 32 →
    z = z mod 256 + 256 * ((z / 2 ^ 8) mod 256) + 65536 * ((z / 2 ^ 16) mod 256) + 16777216 * ((z / 2 ^ 24) mod 256)) as Hz.
  { intros z Hz. change (2 ^ 8) with 256. change (2 ^ 16) with (256 * 256). change (2 ^ 24) with (256 * 256 * 256).
    rewrite <- !Z.div_div by lia. rewrite (Z.mod_small (z / 256 / 256 / 256)).
    - pose proof (Z.div_mod z 256). pose proof (Z.div_mod (z / 256) 256). pose proof (Z.div_mod (z / 256 / 256) 256). lia.
    - change (2 ^ 32) with 4294967296 in Hz. pose proof (Z.div_mod z 256). pose proof (Z.div_mod (z / 256) 256).
      pose proof (Z.div_mod (z / 256 / 256) 256). pose proof (Z.mod_pos_bound z 256).
      pose proof (Z.mod_pos_bound (z / 256) 256). pose proof (Z.mod_pos_bound (z / 256 / 256) 256). lia. }
  rewrite (Hz x Hx), (Hz y Hy). congruence.
Qed.

Lemma uint32_range x : 0 ≤ uint32 x < 2 ^ 32.
Proof. apply Z.mod_pos_bound. lia. Qed.

Definition is_int32 (x : Z) : Prop := - 2 ^ 31 ≤ x < 2 ^ 31.

Lemma uint32_inj x y : is_int32 x → is_int32 y → uint32 x = uint32 y → x = y.
Proof.
  unfold is_int32, uint32. intros Hx Hy Heq. pose proof (Z.div_mod x (2 ^ 32)). pose proof (Z.div_mod y (2 ^ 32)).
  rewrite Heq in *. assert (x - y = 2 ^ 32 * (x / 2 ^ 32 - y / 2 ^ 32)) by lia. nia.
Qed.

Lemma bytes_of_inj s t : bytes_of s = bytes_of t → s = t.
Proof.
  unfold bytes_of. intros Heq. rewrite <- (string_of_list_ascii_of_string s), <- (string_of_list_ascii_of_string t).
  f_equal. revert Heq. generalize (list_ascii_of_string s) (list_ascii_of_string t). clear.
  induction l as [|a l IH]; intros [|b k]; cbn; intros Heq; try done. injection Heq as Hab Hlk.
  apply Nat2Z.inj in Hab. f_equal; [|auto]. by rewrite <- (ascii_nat_embedding a), Hab, ascii_nat_embedding.
Qed.

(** A length in front of a list delimits it. *)
Definition fits_u32 {A} (l : list A) : Prop := Z.of_nat (length l) < 2 ^ 32.

Lemma size_le_inj {A B} (l : list A) (k : list B) :
  fits_u32 l → fits_u32 k → size_le l = size_le k → length l = length k.
Proof.
  unfold fits_u32, size_le, uint32. intros Hl Hk Heq. rewrite !Z.mod_small in Heq by lia.
  apply u32_le_inj in Heq; lia.
Qed.

Lemma framed_inj (l k rest rest' : list Z) :
  fits_u32 l → fits_u32 k → size_le l ++ l ++ rest = size_le k ++ k ++ rest' → l = k ∧ rest = rest'.
Proof.
  intros Hl Hk [Hsize Heq]%app_inj_1; [|done]. apply size_le_inj in Hsize; [|done|done]. by apply app_inj_1 in Heq.
Qed.

Lemma mjoin_cons {A} (x : list A) l : mjoin (x :: l) = x ++ mjoin l.
Proof. done. Qed.

Lemma u32_list_inj (l k : list Z) rest rest' :
  length l = length k → Forall is_int32 l → Forall is_int32 k →
  mjoin (u32_le ∘ uint32 <$> l) ++ rest = mjoin (u32_le ∘ uint32 <$> k) ++ rest' → l = k ∧ rest = rest'.
Proof.
  intros Hlen Hl. revert k Hlen. induction Hl as [|x l Hx Hl IH]; intros [|y k] Hlen Hk Heq; try done.
  apply Forall_cons in Hk as [Hy Hk]. rewrite !fmap_cons, !mjoin_cons, <- !app_assoc in Heq.
  apply app_inj_1 in Heq as [Hxy Heq]; [|done].
  apply u32_le_inj in Hxy; [|apply uint32_range..]. apply uint32_inj in Hxy as ->; [|done|done].
  destruct (IH k) as [-> ->]; [by injection Hlen|done|done|done].
Qed.

Lemma keys_inj (l k : list string) :
  length l = length k → Forall (fits_u32 ∘ bytes_of) l → Forall (fits_u32 ∘ bytes_of) k →
  mjoin ((λ key, size_le (bytes_of key) ++ bytes_of key) <$> l) =
  mjoin ((λ key, size_le (bytes_of key) ++ bytes_of key) <$> k) → l = k.
Proof.
  intros Hlen Hl. revert k Hlen. induction Hl as [|x l Hx Hl IH]; intros [|y k] Hlen Hk Heq; try done.
  apply Forall_cons in Hk as [Hy Hk]. rewrite !fmap_cons, !mjoin_cons, <- !app_assoc in Heq.
  apply framed_inj in Heq as [Hxy Heq]; [|done|done]. apply bytes_of_inj in Hxy as ->. f_equal.
  apply IH; [by injection Hlen|done|done].
Qed.

(** What the counts of a page must fit for the framing to delimit it. *)
Record page_fits (tokens prior_bytes : list Z) (extra_keys : list string) : Prop := {
  pf_tokens : fits_u32 tokens;
  pf_int32 : Forall is_int32 tokens;
  pf_prior : fits_u32 prior_bytes;
  pf_extra : fits_u32 extra_keys;
  pf_keys : Forall (fits_u32 ∘ bytes_of) extra_keys;
}.

Lemma page_message_inj tokens prior extra tokens' prior' extra' :
  page_fits tokens prior extra → page_fits tokens' prior' extra' →
  page_message tokens prior extra = page_message tokens' prior' extra' →
  tokens = tokens' ∧ prior = prior' ∧ extra = extra'.
Proof.
  intros [Ht Hti Hp He Hk] [Ht' Hti' Hp' He' Hk'] Heq. unfold page_message in Heq.
  apply framed_inj in Heq as [-> Heq]; [|done|done].
  apply app_inj_1 in Heq as [Hsize Heq]; [|done]. apply size_le_inj in Hsize; [|done|done].
  apply u32_list_inj in Heq as [-> Heq]; [|done|done|done]. split; [done|]. split; [done|].
  destruct extra as [|x extra], extra' as [|y extra']; try done.
  unfold frame_keys in Heq. apply app_inj_1 in Heq as [Hsize' Heq]; [|done].
  apply size_le_inj in Hsize'; [|done|done]. by apply keys_inj.
Qed.

(** ** Hexadecimal digests *)

Lemma append_hex_bytes out bytes :
  AppendHexBytes out bytes = out ++ mjoin ((λ b, [hex_digit (Z.shiftr b 4); hex_digit (Z.land b 15)]) <$> bytes).
Proof.
  unfold AppendHexBytes. revert out. induction bytes as [|b bytes IH]; intros out; cbn [foldl].
  - by rewrite app_nil_r.
  - rewrite IH, fmap_cons, mjoin_cons. by rewrite <- app_assoc.
Qed.

Lemma hex_byte b : is_byte b →
  uint8 (Z.lor (Z.shiftl (hex_value (hex_digit (Z.shiftr b 4))) 4) (hex_value (hex_digit (Z.land b 15)))) = b.
Proof.
  intros Hb.
  assert (forallb (λ b, uint8 (Z.lor (Z.shiftl (hex_value (hex_digit (Z.shiftr b 4))) 4)
                                (hex_value (hex_digit (Z.land b 15)))) =? b) (seqZ 0 256) = true) as Hall
    by (vm_compute; reflexivity).
  rewrite forallb_forall in Hall. apply Z.eqb_eq, Hall, list_elem_of_In, elem_of_seqZ. unfold is_byte in Hb. lia.
Qed.

Lemma hex_roundtrip digest : Forall is_byte digest → HexToBytes (DigestToHex digest) = digest.
Proof.
  intros Hd. unfold HexToBytes, DigestToHex. rewrite list_ascii_of_string_of_list_ascii, append_hex_bytes. cbn [app].
  induction Hd as [|b digest Hb Hd IH]; [done|]. rewrite fmap_cons, mjoin_cons. cbn [app hex_pairs]. by rewrite hex_byte, IH.
Qed.

(** ** The chain *)

Section chain.
Context (sha256 : list Z → list Z).
Context (Hdigest : ∀ m, length (sha256 m) = 32%nat ∧ Forall is_byte (sha256 m)).

(** The messages a chain hashes. *)
Fixpoint chain_messages (pages : list (list Z)) (prior : string) (extra : list (list string)) : list (list Z) :=
  match pages with
  | [] => []
  | page :: pages =>
      page_message page (HexToBytes prior) (default [] (head extra)) ::
      chain_messages pages (HashPrefixPage sha256 page prior (default [] (head extra))) (tail extra)
  end.

Definition collision_free (messages : list (list Z)) : Prop :=
  ∀ x y, x ∈ messages → y ∈ messages → sha256 x = sha256 y → x = y.

Definition keys_at (extra : list (list string)) (i : nat) : list string := default [] (extra !! i).

Definition pages_fit (pages : list (list Z)) (extra : list (list string)) : Prop :=
  ∀ i page, pages !! i = Some page →
    fits_u32 page ∧ Forall is_int32 page ∧ fits_u32 (keys_at extra i) ∧ Forall (fits_u32 ∘ bytes_of) (keys_at extra i).

Lemma hash_at pages prior extra i h :
  ComputePrefixHashes sha256 pages prior extra !! i = Some h →
  ∃ page before, pages !! i = Some page ∧
    h = HashPrefixPage sha256 page before (keys_at extra i) ∧
    page_message page (HexToBytes before) (keys_at extra i) ∈ chain_messages pages prior extra ∧
    match i with
    | O => before = prior
    | S k => ComputePrefixHashes sha256 pages prior extra !! k = Some before
    end.
Proof.
  revert prior extra i. induction pages as [|page pages IH]; intros prior extra [|i] Hh; try done.
  - cbn in Hh. injection Hh as <-. exists page, prior. unfold keys_at. destruct extra; (split_and!; [done|done|by left|done]).
  - cbn in Hh. apply IH in Hh as (page' & before & Hp & -> & Hin & Hi). exists page', before. split; [done|].
    assert (keys_at (tail extra) i = keys_at extra (S i)) as Hkeys by (unfold keys_at; by destruct extra).
    rewrite Hkeys in *. split; [done|]. split; [by right|]. destruct i as [|k]; [by subst before|done].
Qed.

Lemma page_hash_bytes page before keys :
  HexToBytes (HashPrefixPage sha256 page before keys) = sha256 (page_message page (HexToBytes before) keys).
Proof. apply hex_roundtrip, Hdigest. Qed.

Lemma chain_fits pages extra i page before h :
  pages_fit pages extra → pages !! i = Some page →
  before = ""%string ∨ (∃ page' b keys, before = HashPrefixPage sha256 page' b keys) →
  h = HashPrefixPage sha256 page before (keys_at extra i) →
  page_fits page (HexToBytes before) (keys_at extra i).
Proof.
  intros Hfit Hp Hb _. destruct (Hfit i page Hp) as (? & ? & ? & ?). split; try done.
  destruct Hb as [->|(page' & b & keys & ->)]; [done|]. unfold fits_u32. rewrite page_hash_bytes, (proj1 (Hdigest _)). done.
Qed.

(** Equal hashes mean equal prefixes. *)
Lemma hashes_identify pages pages' extra extra' i j h :
  pages_fit pages extra → pages_fit pages' extra' →
  collision_free (chain_messages pages "" extra ++ chain_messages pages' "" extra') →
  ComputePrefixHashes sha256 pages "" extra !! i = Some h →
  ComputePrefixHashes sha256 pages' "" extra' !! j = Some h →
  i = j ∧ ∀ k, (k ≤ i)%nat → pages !! k = pages' !! k ∧ keys_at extra k = keys_at extra' k.
Proof.
  intros Hfit Hfit' Hfree. revert j h. induction i as [i IH] using lt_wf_ind. intros j h Hi Hj.
  destruct (hash_at _ _ _ _ _ Hi) as (page & before & Hp & Hh & Hin & Hbefore).
  destruct (hash_at _ _ _ _ _ Hj) as (page' & before' & Hp' & Hh' & Hin' & Hbefore').
  assert (page_fits page (HexToBytes before) (keys_at extra i)) as Hpf.
  { eapply chain_fits; [done|done| |exact Hh]. destruct i; [by left|].
    apply hash_at in Hbefore as (? & ? & _ & -> & _). right. eauto. }
  assert (page_fits page' (HexToBytes before') (keys_at extra' j)) as Hpf'.
  { eapply chain_fits; [done|done| |exact Hh']. destruct j; [by left|].
    apply hash_at in Hbefore' as (? & ? & _ & -> & _). right. eauto. }
  assert (sha256 (page_message page (HexToBytes before) (keys_at extra i)) =
          sha256 (page_message page' (HexToBytes before') (keys_at extra' j))) as Hsha.
  { rewrite <- !page_hash_bytes. congruence. }
  apply Hfree in Hsha; [|apply elem_of_app; by left|apply elem_of_app; by right].
  apply page_message_inj in Hsha as (<- & Hprior & Hkeys); [|done|done].
  assert (∀ m, HexToBytes "" ≠ sha256 m) as Hne.
  { intros m Heq. pose proof (proj1 (Hdigest m)) as Hl. by rewrite <- Heq in Hl. }
  destruct i as [|i], j as [|j].
  - split; [done|]. intros k Hk. replace k with 0%nat by lia. split; [congruence|done].
  - subst before. apply hash_at in Hbefore' as (? & ? & _ & -> & _). rewrite page_hash_bytes in Hprior. by apply Hne in Hprior.
  - subst before'. apply hash_at in Hbefore as (? & ? & _ & -> & _). rewrite page_hash_bytes in Hprior.
    symmetry in Hprior. by apply Hne in Hprior.
  - assert (before = before') as <-.
    { destruct (hash_at _ _ _ _ _ Hbefore) as (? & ? & _ & E & _). destruct (hash_at _ _ _ _ _ Hbefore') as (? & ? & _ & E' & _).
      rewrite E, E' in Hprior. rewrite !page_hash_bytes in Hprior. rewrite E, E'. unfold HashPrefixPage. by rewrite Hprior. }
    destruct (IH i ltac:(lia) j before Hbefore Hbefore') as [-> Hall]. split; [done|].
    intros k Hk. destruct (decide (k = S j)) as [->|]; [split; [congruence|done]|]. apply Hall. lia.
Qed.

(** A hash depends on the pages and keys up to it only, and there is one for every page. *)
Lemma hashes_determined pages pages' extra extra' prior i :
  (∀ k, (k ≤ i)%nat → pages !! k = pages' !! k ∧ keys_at extra k = keys_at extra' k) →
  ComputePrefixHashes sha256 pages prior extra !! i = ComputePrefixHashes sha256 pages' prior extra' !! i.
Proof.
  revert pages pages' extra extra' prior. induction i as [|i IH]; intros pages pages' extra extra' prior Hall.
  - destruct (Hall 0%nat ltac:(lia)) as [Hp Hk]. unfold keys_at in Hk. destruct pages, pages', extra, extra'; cbn in *; congruence.
  - destruct (Hall 0%nat ltac:(lia)) as [Hp Hk]. destruct pages as [|page pages], pages' as [|page' pages']; try done.
    injection Hp as <-. assert (default [] (head extra) = default [] (head extra')) as Hhead by (by destruct extra, extra').
    cbn [ComputePrefixHashes lookup list_lookup]. rewrite Hhead. apply IH. intros k Hle.
    destruct (Hall (S k) ltac:(lia)) as [Hp' Hk']. split; [done|]. unfold keys_at in *. by destruct extra, extra'.
Qed.

Lemma hashes_length pages prior extra : length (ComputePrefixHashes sha256 pages prior extra) = length pages.
Proof. revert prior extra. induction pages as [|page pages IH]; intros prior extra; [done|]. cbn. by rewrite IH. Qed.

(** C20: A hash stands for a prefix: every page of a prompt has one and, on pages whose
    hashed messages do not collide, the hashes of two pages of two prompts are equal
    exactly when the pages are at the same position and the tokens and extra keys of
    every page up to there are the same, whatever follows. *)
Theorem prefix_hash_identifies pages pages' extra extra' i j :
  pages_fit pages extra → pages_fit pages' extra' →
  collision_free (chain_messages pages "" extra ++ chain_messages pages' "" extra') →
  (i < length pages)%nat → (j < length pages')%nat →
  ∃ h h', ComputePrefixHashes sha256 pages "" extra !! i = Some h ∧
    ComputePrefixHashes sha256 pages' "" extra' !! j = Some h' ∧
    (h = h' ↔ i = j ∧ ∀ k, (k ≤ i)%nat → pages !! k = pages' !! k ∧ keys_at extra k = keys_at extra' k).
Proof.
  intros Hfit Hfit' Hfree Hi Hj.
  destruct (lookup_lt_is_Some_2 (ComputePrefixHashes sha256 pages "" extra) i) as [h Hh]; [by rewrite hashes_length|].
  destruct (lookup_lt_is_Some_2 (ComputePrefixHashes sha256 pages' "" extra') j) as [h' Hh']; [by rewrite hashes_length|].
  exists h, h'. split; [done|]. split; [done|]. split.
  - intros <-. by eapply hashes_identify.
  - intros [<- Hall]. rewrite (hashes_determined _ _ _ _ "" i Hall) in Hh. congruence.
Qed.

(** Continuing a chain gives the hashes the whole chain has there. *)
Lemma compute_app pages pages' prior :
  ComputePrefixHashes sha256 (pages ++ pages') prior [] =
  ComputePrefixHashes sha256 pages prior [] ++
  ComputePrefixHashes sha256 pages' (default prior (last (ComputePrefixHashes sha256 pages prior []))) [].
Proof.
  revert prior. induction pages as [|page pages IH]; intros prior; [done|]. cbn [app ComputePrefixHashes head tail].
  rewrite IH. cbn [app]. set (h := HashPrefixPage _ _ _ _). f_equal. f_equal. rewrite last_cons.
  by destruct (last (ComputePrefixHashes sha256 pages h [])).
Qed.

Lemma compute_length pages prior : length (ComputePrefixHashes sha256 pages prior []) = length pages.
Proof. revert prior. induction pages as [|page pages IH]; intros prior; [done|]. cbn. by rewrite IH. Qed.

Lemma compute_take n pages prior :
  ComputePrefixHashes sha256 (take n pages) prior [] = take n (ComputePrefixHashes sha256 pages prior []).
Proof.
  revert pages prior. induction n as [|n IH]; intros [|page pages] prior; try done. cbn. by rewrite IH.
Qed.

Lemma advance_spec pages prior (a b : nat) :
  (a < b ≤ length pages)%nat →
  AdvancePrefixHashes sha256 pages (Z.of_nat a)
    (default prior (last (take a (ComputePrefixHashes sha256 pages prior [])))) (Z.of_nat b) =
  Ok (take (b - a) (drop a (ComputePrefixHashes sha256 pages prior []))).
Proof.
  intros Hab. unfold AdvancePrefixHashes. pass_check lia. pass_check lia. pass_check lia. f_equal.
  replace (Z.to_nat (Z.of_nat b - Z.of_nat a)) with (b - a)%nat by lia. rewrite Nat2Z.id, compute_take. f_equal.
  rewrite <- (take_drop a pages) at 3. rewrite compute_app, compute_take.
  rewrite drop_app_length'; [done|]. rewrite length_take, compute_length. lia.
Qed.
End chain.

(** A stand-in digest: the bytes of a polynomial in the message. *)
Definition toy_digest (m : list Z) : list Z :=
  let v := foldl (λ acc b, (acc * 257 + b + 1) mod 2 ^ 256) 1 m in
  (λ i, Z.shiftr v (8 * i) mod 256) <$> seqZ 0 32.

Lemma toy_digest_bytes m : length (toy_digest m) = 32%nat ∧ Forall is_byte (toy_digest m).
Proof.
  unfold toy_digest. split; [by rewrite length_fmap, length_seqZ|]. apply Forall_fmap, Forall_true.
  intros i. cbn. unfold is_byte. apply Z.mod_pos_bound. lia.
Qed.

Definition distinct_digests (digest : list Z → list Z) (messages : list (list Z)) : bool :=
  forallb (λ x, forallb (λ y, negb (bool_decide (digest x = digest y)) || bool_decide (x = y)) messages) messages.

Lemma distinct_digests_free digest messages : distinct_digests digest messages = true → collision_free digest messages.
Proof.
  unfold distinct_digests. rewrite forallb_forall. intros Hall x y Hx Hy Heq.
  specialize (Hall x (proj1 (list_elem_of_In _ _) Hx)). rewrite forallb_forall in Hall.
  specialize (Hall y (proj1 (list_elem_of_In _ _) Hy)). rewrite bool_decide_eq_true_2 in Hall by done.
  by apply bool_decide_eq_true in Hall.
Qed.

Ltac solve_fits :=
  split_and!; repeat (apply Forall_cons; split); try apply Forall_nil_2; vm_compute; repeat split; discriminate.

Lemma prefix_hash_identifies_witness :
  ∃ h h', ComputePrefixHashes toy_digest [[1; 2]; [3; 4]] "" [["salt"]] !! 1%nat = Some h ∧
    ComputePrefixHashes toy_digest [[1; 2]; [3; 4]; [-1; 7]] "" [["salt"]] !! 1%nat = Some h' ∧ h = h'.
Proof.
  destruct (prefix_hash_identifies toy_digest toy_digest_bytes [[1; 2]; [3; 4]] [[1; 2]; [3; 4]; [-1; 7]] [["salt"]] [["salt"]] 1 1)
    as (h & h' & Hh & Hh' & Hiff).
  - intros [|[|[|i]]] page Hp; try discriminate Hp; injection Hp as <-; solve_fits.
  - intros [|[|[|[|i]]]] page Hp; try discriminate Hp; injection Hp as <-; solve_fits.
  - apply distinct_digests_free. vm_compute. reflexivity.
  - cbn. lia.
  - cbn. lia.
  - exists h, h'. split; [exact Hh|]. split; [exact Hh'|]. apply Hiff. split; [reflexivity|].
    intros [|[|k]] Hk; [split; reflexivity|split; reflexivity|lia].
Defined.
