(* ===== verification/TailTable.v ===== *)
(** * Published tail boundaries

    [csrc/cache/prefix/tail_table.h]: per chain hash ("prior") the tails published
    behind it, least recently used first and at most eight, with a reverse index from a
    tail's hash to its prior.  The reference is the map from priors to lists alone;
    the theorems say that the reverse index finds what a search would, that every
    operation is the corresponding step of a bounded least-recently-used list, and that
    no operation of a table in use fails. *)

From stdpp Require Import gmap strings.
From S2P Require Import Prelude PyState Cxx.

Local Open Scope Z_scope.

Abbreviation ContentHash := string.

Record Tail := mkTail { tail_tokens : Z; hash : ContentHash }.

Record TailTable := mkTails {
  tails_by_prior_ : gmap ContentHash (list Tail);
  prior_of_ : gmap ContentHash ContentHash;
  cap_evictions_ : Z;
}.

Definition TailTable_new : TailTable := mkTails ∅ ∅ 0.

Definition kMaxTailsPerPrior : Z := 8.

(** [std::ranges::find] by hash and [std::rotate] of the found tail to the back. *)
Definition rotate_back (h : ContentHash) (tails : list Tail) : option (list Tail) :=
  '(i, tail) ← list_find (λ tail, hash tail = h) tails;
  Some (take i tails ++ drop (S i) tails ++ [tail]).

(** [tails_by_prior_.at(...)] *)
Definition tails_at (prior : ContentHash) (self : TailTable) : result (list Tail) :=
  lookup_or (RuntimeError "out_of_range") (tails_by_prior_ self !! prior).

Definition Touch (h : ContentHash) : M TailTable bool := λ self,
  match prior_of_ self !! h with
  | None => (Ok false, self)
  | Some prior =>
      match
        (tails ← tails_at prior self;
         lookup_or (RuntimeError "a recorded tail hash is in its prior's list") (rotate_back h tails))
      with
      | Raise e => (Raise e, self)
      | Ok tails => (Ok true, mkTails (<[prior := tails]> (tails_by_prior_ self)) (prior_of_ self) (cap_evictions_ self))
      end
  end.

Definition insert_tail (prior : ContentHash) (tail : Tail) : M TailTable (option Tail) := λ self,
  let tails := default [] (tails_by_prior_ self !! prior) ++ [tail] in
  let prior_of := <[hash tail := prior]> (prior_of_ self) in
  if Z.of_nat (length tails) <=? kMaxTailsPerPrior then
    (Ok None, mkTails (<[prior := tails]> (tails_by_prior_ self)) prior_of (cap_evictions_ self))
  else
    match tails with
    | [] => (Ok None, self)
    | dropped :: tails =>
        (Ok (Some dropped),
         mkTails (<[prior := tails]> (tails_by_prior_ self)) (delete (hash dropped) prior_of) (cap_evictions_ self + 1))
    end.

Definition Add (prior : ContentHash) (tail_tokens : Z) (h : ContentHash) : M TailTable (option Tail) :=
  const (λ _ : TailTable, _assert (0 <? tail_tokens) "a tail boundary lies strictly inside a prefix page") ;;
  const (λ _ : TailTable, _assert (negb (bool_decide (h = ""%string))) "a tail is published under a content hash") ;;
  known ← Touch h;
  if (known : bool) then mret None else insert_tail prior (mkTail tail_tokens h).

Definition Remove (h : ContentHash) : M TailTable () := λ self,
  match prior_of_ self !! h with
  | None => (Ok (), self)
  | Some prior =>
      match tails_by_prior_ self !! prior with
      | None => (Raise (RuntimeError "a recorded tail hash names a recorded prior"), self)
      | Some tails =>
          let tails := filter (λ tail, hash tail ≠ h) tails in
          let by_prior := match tails with
                          | [] => delete prior (tails_by_prior_ self)
                          | _ => <[prior := tails]> (tails_by_prior_ self)
                          end in
          (Ok (), mkTails by_prior (delete h (prior_of_ self)) (cap_evictions_ self))
      end
  end.

Definition Tails (prior : ContentHash) (self : TailTable) : list Tail := default [] (tails_by_prior_ self !! prior).

Definition TailTokensOf (h : ContentHash) (self : TailTable) : result (option Z) :=
  match prior_of_ self !! h with
  | None => Ok None
  | Some prior =>
      tails ← tails_at prior self;
      match list_find (λ tail, hash tail = h) tails with
      | Some (_, tail) => Ok (Some (tail_tokens tail))
      | None => Raise (Abort "a recorded tail hash is missing from its prior's list")
      end
  end.

Definition Contains (h : ContentHash) (self : TailTable) : bool := bool_decide (is_Some (prior_of_ self !! h)).
Definition Size (self : TailTable) : Z := Z.of_nat (size (prior_of_ self)).
Definition Clear : M TailTable () := modify (λ self, mkTails ∅ ∅ (cap_evictions_ self)).

(** ** The invariant *)

Record ok (self : TailTable) : Prop := {
  ok_list prior tails : tails_by_prior_ self !! prior = Some tails →
    tails ≠ [] ∧ Z.of_nat (length tails) ≤ kMaxTailsPerPrior ∧ NoDup (hash <$> tails);
  ok_prior h prior : prior_of_ self !! h = Some prior ↔ h ∈ hash <$> Tails prior self;
}.

Lemma empty_table_ok : ok TailTable_new.
Proof.
  split; [done|]. intros h prior. unfold Tails. cbn. rewrite !lookup_empty. cbn. split; [done|].
  by intros ?%not_elem_of_nil.
Qed.

(** A use moves a tail behind all others. *)
Definition to_back (h : ContentHash) (tails : list Tail) : list Tail :=
  filter (λ tail, hash tail ≠ h) tails ++ filter (λ tail, hash tail = h) tails.

Lemma to_back_perm h tails : to_back h tails ≡ₚ tails.
Proof.
  unfold to_back. induction tails as [|tail tails IH]; [done|]. rewrite !filter_cons.
  destruct (decide (hash tail = h)) as [E|E].
  - rewrite decide_False by tauto. rewrite <- Permutation_middle, IH. done.
  - rewrite decide_True by done. cbn. by rewrite IH.
Qed.

Lemma rotate_back_spec h tails :
  NoDup (hash <$> tails) → h ∈ hash <$> tails → rotate_back h tails = Some (to_back h tails).
Proof.
  intros Hnd Hin. unfold rotate_back.
  destruct (list_find (λ tail, hash tail = h) tails) as [[i tail]|] eqn:Hf.
  - cbn. f_equal. apply list_find_Some in Hf as (Hi & Hh & Hfirst).
    assert (∀ k, h ∉ hash <$> k → filter (λ t, hash t ≠ h) k = k ∧ filter (λ t, hash t = h) k = []) as Hother.
    { induction k as [|t k IHk]; [done|]. rewrite fmap_cons, not_elem_of_cons. intros [Hne Hk].
      rewrite !filter_cons, decide_True, decide_False by congruence. destruct (IHk Hk) as [-> ->]. done. }
    rewrite <- (take_drop_middle _ _ _ Hi) in Hnd |- * at 3. unfold to_back.
    rewrite fmap_app, fmap_cons in Hnd. apply NoDup_app in Hnd as (_ & Hdisj & Hnd). apply NoDup_cons in Hnd as [Hafter _].
    assert (h ∉ hash <$> take i tails) as Hbefore.
    { intros Hin'. apply (Hdisj h Hin'). rewrite Hh. by left. }
    rewrite Hh in Hafter. rewrite !filter_app, !filter_cons, decide_False, decide_True by tauto.
    destruct (Hother _ Hbefore) as [-> ->], (Hother _ Hafter) as [-> ->]. cbn. by rewrite <- app_assoc.
  - exfalso. apply list_find_None in Hf. apply list_elem_of_fmap in Hin as (tail & -> & Hin).
    by apply (proj1 (Forall_forall _ _) Hf tail Hin).
Qed.

Lemma Tails_insert prior tails self po n q :
  Tails q (mkTails (<[prior := tails]> (tails_by_prior_ self)) po n) = if decide (q = prior) then tails else Tails q self.
Proof.
  unfold Tails. cbn. case_decide as Hq; [subst q; by rewrite lookup_insert_eq|by rewrite lookup_insert_ne by congruence].
Qed.

Lemma Tails_delete prior self po n q :
  Tails q (mkTails (delete prior (tails_by_prior_ self)) po n) = if decide (q = prior) then [] else Tails q self.
Proof.
  unfold Tails. cbn. case_decide as Hq; [subst q; by rewrite lookup_delete_eq|by rewrite lookup_delete_ne by congruence].
Qed.

Lemma ok_insert self prior tails po n :
  ok self → tails ≠ [] → Z.of_nat (length tails) ≤ kMaxTailsPerPrior → NoDup (hash <$> tails) →
  (∀ h q, po !! h = Some q ↔ if decide (q = prior) then h ∈ hash <$> tails else h ∈ hash <$> Tails q self) →
  ok (mkTails (<[prior := tails]> (tails_by_prior_ self)) po n).
Proof.
  intros Hok Hne Hlen Hnd Hpo. split; cbn [tails_by_prior_ prior_of_].
  - intros q l [[-> <-]|[Hq Hl]]%lookup_insert_Some; [done|]. by apply (ok_list _ Hok q).
  - intros h q. rewrite Hpo, Tails_insert. by case_decide.
Qed.

Lemma Tails_list self prior : ok self →
  Z.of_nat (length (Tails prior self)) ≤ kMaxTailsPerPrior ∧ NoDup (hash <$> Tails prior self).
Proof.
  intros Hok. unfold Tails. destruct (tails_by_prior_ self !! prior) as [tails|] eqn:Ht; cbn.
  - by apply (ok_list _ Hok prior).
  - split; [done|constructor].
Qed.

(** A hash is recorded under one prior. *)
Lemma prior_fun self h p q : ok self → h ∈ hash <$> Tails p self → h ∈ hash <$> Tails q self → p = q.
Proof. intros Hok Hp%(ok_prior _ Hok) Hq%(ok_prior _ Hok). congruence. Qed.

Lemma touch_spec self h :
  ok self →
  (∀ p, h ∈ hash <$> Tails p self →
     ∃ self', Touch h self = (Ok true, self') ∧ ok self' ∧
       ∀ q, Tails q self' = if decide (q = p) then to_back h (Tails p self) else Tails q self) ∧
  ((∀ p, h ∉ hash <$> Tails p self) → Touch h self = (Ok false, self)).
Proof.
  intros Hok. split.
  - intros p Hin. destruct (Tails_list self p Hok) as [Hlen Hnd].
    assert (tails_by_prior_ self !! p = Some (Tails p self)) as Hp.
    { unfold Tails in *. destruct (tails_by_prior_ self !! p); [done|]. by apply not_elem_of_nil in Hin. }
    unfold Touch. rewrite (proj2 (ok_prior _ Hok h p) Hin). unfold tails_at. rewrite Hp. cbn [lookup_or mbind result_bind].
    rewrite (rotate_back_spec h _ Hnd Hin). cbn [lookup_or].
    eexists. split; [done|]. split; [|intros q; apply Tails_insert].
    pose proof (to_back_perm h (Tails p self)) as Hperm. apply ok_insert; [done|..].
    + intros Hnil%(f_equal length). rewrite Hperm in Hnil. by destruct (Tails p self); [apply not_elem_of_nil in Hin|].
    + by rewrite Hperm.
    + by rewrite Hperm.
    + intros h' q. rewrite (ok_prior _ Hok). case_decide; [subst q; by rewrite Hperm|done].
  - intros Hnone. unfold Touch. destruct (prior_of_ self !! h) as [p|] eqn:Hp; [|done].
    apply (ok_prior _ Hok) in Hp. by apply Hnone in Hp.
Qed.

(** What publishing a new tail does to the list of its prior. *)
Definition push_tail (tail : Tail) (tails : list Tail) : list Tail :=
  if Z.of_nat (length tails) <? kMaxTailsPerPrior then tails ++ [tail] else drop 1 tails ++ [tail].

Lemma insert_tail_spec self prior tail :
  ok self → (∀ p, hash tail ∉ hash <$> Tails p self) →
  ∃ self', insert_tail prior tail self =
      (Ok (if Z.of_nat (length (Tails prior self)) <? kMaxTailsPerPrior then None else head (Tails prior self)), self') ∧
    ok self' ∧ ∀ q, Tails q self' = if decide (q = prior) then push_tail tail (Tails prior self) else Tails q self.
Proof.
  intros Hok Hnew. destruct (Tails_list self prior Hok) as [Hlen Hnd]. unfold insert_tail. fold (Tails prior self).
  set (tails := Tails prior self) in *. rewrite length_app. cbn [length].
  assert (NoDup (hash <$> tails ++ [tail])) as Hnd'.
  { rewrite fmap_app. apply NoDup_app. split; [done|]. split; [|apply NoDup_singleton].
    intros h Hh ->%list_elem_of_singleton. by apply (Hnew prior). }
  unfold push_tail. destruct (Z.ltb_spec (Z.of_nat (length tails)) kMaxTailsPerPrior) as [Hroom|Hfull].
  - rewrite (proj2 (Z.leb_le _ _)) by lia. eexists. split; [done|]. split; [|intros q; apply Tails_insert].
    apply ok_insert; [done|by destruct tails|rewrite length_app; cbn; lia|done|].
    intros h q. rewrite lookup_insert_Some, (ok_prior _ Hok). case_decide as Hq.
    + subst q. fold tails. rewrite fmap_app, elem_of_app. cbn [fmap list_fmap]. rewrite list_elem_of_singleton.
      specialize (Hnew prior). fold tails in Hnew. destruct (decide (hash tail = h)); naive_solver.
    + split; [naive_solver|]. intros Hin. right. split; [|done]. intros <-. by apply (Hnew q).
  - rewrite (proj2 (Z.leb_gt _ _)) by lia. destruct tails as [|dropped rest] eqn:Et.
    { cbn in Hfull. unfold kMaxTailsPerPrior in Hfull. lia. }
    cbn [app drop head]. eexists. split; [done|]. split; [|intros q; apply Tails_insert].
    cbn in Hnd'. apply NoDup_cons in Hnd' as [Hdrop Hnd''].
    apply ok_insert; [done|by destruct rest|rewrite length_app in *; cbn in *; lia|done|].
    intros h q. rewrite lookup_delete_Some, lookup_insert_Some, (ok_prior _ Hok).
    rewrite fmap_app, not_elem_of_app in Hdrop. destruct Hdrop as [Hdrop Hnt]. cbn in Hnt.
    apply not_elem_of_cons in Hnt as [Hnt _].
    assert (∀ q', hash dropped ∈ hash <$> Tails q' self → q' = prior) as Hd.
    { intros q' Hin. apply (prior_fun self (hash dropped)); [done|done|]. fold tails. rewrite Et. by left. }
    case_decide as Hq.
    + subst q. specialize (Hnew prior). fold tails in Hnew |- *. rewrite Et in Hnew |- *.
      rewrite fmap_cons, elem_of_cons in Hnew |- *. rewrite fmap_app, elem_of_app. cbn [fmap list_fmap].
      rewrite list_elem_of_singleton. destruct (decide (hash tail = h)); naive_solver.
    + split; [naive_solver|]. intros Hin. split; [intros <-; auto|]. right. split; [|done].
      intros <-. by apply (Hnew q).
Qed.

Lemma remove_spec self h :
  ok self →
  ∃ self', Remove h self = (Ok (), self') ∧ ok self' ∧
    ∀ q, Tails q self' = filter (λ tail, hash tail ≠ h) (Tails q self).
Proof.
  intros Hok.
  assert (∀ tails : list Tail, h ∉ hash <$> tails → filter (λ tail, hash tail ≠ h) tails = tails) as Hsame.
  { induction tails as [|t tails IH]; [done|]. rewrite fmap_cons, not_elem_of_cons. intros [Hne Ht].
    rewrite filter_cons, decide_True by congruence. by rewrite IH. }
  unfold Remove. destruct (prior_of_ self !! h) as [p|] eqn:Hp; cycle 1.
  { exists self. split; [done|]. split; [done|]. intros q. symmetry. apply Hsame. intros Hin%(ok_prior _ Hok). congruence. }
  apply (ok_prior _ Hok) in Hp as Hin.
  destruct (Tails_list self p Hok) as [Hlen Hnd].
  assert (tails_by_prior_ self !! p = Some (Tails p self)) as Ht.
  { unfold Tails in *. destruct (tails_by_prior_ self !! p); [done|]. by apply not_elem_of_nil in Hin. }
  rewrite Ht. set (rest := filter _ (Tails p self)).
  assert (∀ q, q ≠ p → filter (λ tail, hash tail ≠ h) (Tails q self) = Tails q self) as Hother.
  { intros q Hq. apply Hsame. intros Hin'. apply Hq. by apply (prior_fun self h). }
  assert (∀ h', h' ∈ hash <$> rest ↔ h' ≠ h ∧ h' ∈ hash <$> Tails p self) as Hrest.
  { intros h'. unfold rest. rewrite !list_elem_of_fmap. setoid_rewrite list_elem_of_filter. naive_solver. }
  assert (∀ h' q, delete h (prior_of_ self) !! h' = Some q ↔
    if decide (q = p) then h' ∈ hash <$> rest else h' ∈ hash <$> Tails q self) as Hpo.
  { intros h' q. rewrite lookup_delete_Some, (ok_prior _ Hok). case_decide as Hq; [subst q; rewrite Hrest; naive_solver|].
    split; [naive_solver|]. intros Hin'. split; [|done]. intros <-. apply Hq. by apply (prior_fun self h). }
  destruct rest as [|t rest'] eqn:Erest.
  - eexists. split; [done|]. split.
    + split; cbn [tails_by_prior_ prior_of_].
      * intros q l [Hq Hl]%lookup_delete_Some. by apply (ok_list _ Hok q).
      * intros h' q. rewrite Hpo, Tails_delete. by case_decide.
    + intros q. rewrite Tails_delete. case_decide as Hq; [by subst q|]. by rewrite Hother.
  - eexists. split; [done|]. rewrite <- Erest in *. split.
    + apply ok_insert; [done|by rewrite Erest|..|done].
      * unfold rest. pose proof (length_filter (λ tail, hash tail ≠ h) (Tails p self)). lia.
      * unfold rest. eapply sublist_NoDup; [exact Hnd|]. apply fmap_sublist, sublist_filter.
    + intros q. rewrite Tails_insert. case_decide as Hq; [by subst q|]. by rewrite Hother.
Qed.

(** ** Theorems *)

Inductive reachable : TailTable → Prop :=
  | reach_new : reachable TailTable_new
  | reach_add self prior n h answer self' : reachable self → Add prior n h self = (answer, self') → reachable self'
  | reach_touch self h answer self' : reachable self → Touch h self = (answer, self') → reachable self'
  | reach_remove self h answer self' : reachable self → Remove h self = (answer, self') → reachable self'
  | reach_clear self : reachable self → reachable (Clear self).2.

(** [Add] on a hash some list has, and on a new one. *)
Definition added (self : TailTable) (prior : ContentHash) (tail : Tail) (answer : option Tail) (self' : TailTable) : Prop :=
  (∃ p, hash tail ∈ hash <$> Tails p self ∧ answer = None ∧
     ∀ q, Tails q self' = if decide (q = p) then to_back (hash tail) (Tails p self) else Tails q self) ∨
  ((∀ p, hash tail ∉ hash <$> Tails p self) ∧
   answer = (if Z.of_nat (length (Tails prior self)) <? kMaxTailsPerPrior then None else head (Tails prior self)) ∧
   ∀ q, Tails q self' = if decide (q = prior) then push_tail tail (Tails prior self) else Tails q self).

Lemma recorded_dec self h : ok self → (∃ p, h ∈ hash <$> Tails p self) ∨ ∀ p, h ∉ hash <$> Tails p self.
Proof.
  intros Hok. destruct (prior_of_ self !! h) as [p|] eqn:Hp.
  - left. exists p. by apply (ok_prior _ Hok).
  - right. intros p Hin%(ok_prior _ Hok). congruence.
Qed.

Lemma add_spec self prior n h :
  ok self → 0 < n → h ≠ ""%string →
  ∃ answer self', Add prior n h self = (Ok answer, self') ∧ ok self' ∧ added self prior (mkTail n h) answer self'.
Proof.
  intros Hok Hn Hh. unfold Add.
  rewrite (run_bind_Ok _ _ _ () self) by (apply run_const, _assert_Ok; lia).
  rewrite (run_bind_Ok _ _ _ () self) by (apply run_const, _assert_Ok; by rewrite bool_decide_eq_false_2).
  destruct (touch_spec self h Hok) as [Hyes Hno]. destruct (recorded_dec self h Hok) as [[p Hin]|Hnone].
  - destruct (Hyes p Hin) as (self' & Hrun & Hok' & Ht). rewrite (run_bind_Ok _ _ _ _ _ Hrun).
    exists None, self'. split; [done|]. split; [done|]. left. by exists p.
  - rewrite (run_bind_Ok _ _ _ _ _ (Hno Hnone)).
    destruct (insert_tail_spec self prior (mkTail n h) Hok Hnone) as (self' & Hrun & Hok' & Ht).
    eexists _, self'. split; [exact Hrun|]. split; [done|]. by right.
Qed.

Lemma add_refused self prior n h :
  ¬ (0 < n ∧ h ≠ ""%string) → ∃ message, Add prior n h self = (Raise (RuntimeError message), self).
Proof.
  intros Hno. unfold Add, const, mbind, M_bind, _assert, raise_when. destruct (Z.ltb_spec 0 n) as [Hn|Hn]; [|by eexists].
  cbn [negb]. case_bool_decide as Hh; [by eexists|]. destruct Hno. by split.
Qed.

Lemma table_reachable_ok self : reachable self → ok self.
Proof.
  induction 1 as [|self prior n h answer self' _ IH Hrun|self h answer self' _ IH Hrun|self h answer self' _ IH Hrun|self _ IH].
  - apply empty_table_ok.
  - destruct (decide (0 < n ∧ h ≠ ""%string)) as [[Hn Hh]|Hno].
    + destruct (add_spec self prior n h IH Hn Hh) as (? & ? & Hrun' & ? & _). congruence.
    + destruct (add_refused self prior n h Hno) as [message Hrun']. congruence.
  - destruct (touch_spec self h IH) as [Hyes Hno]. destruct (recorded_dec self h IH) as [[p Hin]|Hnone].
    + destruct (Hyes p Hin) as (? & Hrun' & ? & _). congruence.
    + rewrite (Hno Hnone) in Hrun. by injection Hrun as _ <-.
  - destruct (remove_spec self h IH) as (? & Hrun' & ? & _). congruence.
  - cbn. split; cbn; [done|]. intros h prior. unfold Tails. cbn. rewrite !lookup_empty. cbn. split; [done|].
    by intros ?%not_elem_of_nil.
Qed.

(** C36: The table is a bounded least-recently-used list per prior: in every reachable state
    the lists have at most eight tails with distinct hashes; publishing a known hash or
    hitting it moves it to the back of its list; publishing a new one appends it and
    drops the front of a full list; removal deletes the hash; and the offset recorded
    for a hash is found exactly when a list has it.  No operation fails. *)
Theorem tail_table_lru self :
  reachable self →
  (∀ prior, Z.of_nat (length (Tails prior self)) ≤ kMaxTailsPerPrior ∧ NoDup (hash <$> Tails prior self)) ∧
  (∀ prior n h, 0 < n → h ≠ ""%string →
     ∃ answer self', Add prior n h self = (Ok answer, self') ∧ added self prior (mkTail n h) answer self') ∧
  (∀ h, (∃ p self', h ∈ hash <$> Tails p self ∧ Touch h self = (Ok true, self') ∧
           ∀ q, Tails q self' = if decide (q = p) then to_back h (Tails p self) else Tails q self) ∨
        ((∀ p, h ∉ hash <$> Tails p self) ∧ Touch h self = (Ok false, self))) ∧
  (∀ h, ∃ self', Remove h self = (Ok (), self') ∧
     ∀ q, Tails q self' = filter (λ tail, hash tail ≠ h) (Tails q self)) ∧
  (∀ h, ∃ answer, TailTokensOf h self = Ok answer ∧
     ∀ n, answer = Some n ↔ ∃ p, mkTail n h ∈ Tails p self).
Proof.
  intros Hreach. pose proof (table_reachable_ok self Hreach) as Hok. split_and!.
  - intros prior. by apply Tails_list.
  - intros prior n h Hn Hh. destruct (add_spec self prior n h Hok Hn Hh) as (answer & self' & ? & _ & ?). eauto.
  - intros h. destruct (touch_spec self h Hok) as [Hyes Hno]. destruct (recorded_dec self h Hok) as [[p Hin]|Hnone].
    + left. destruct (Hyes p Hin) as (self' & ? & _ & ?). by exists p, self'.
    + right. auto.
  - intros h. destruct (remove_spec self h Hok) as (self' & ? & _ & ?). eauto.
  - intros h. unfold TailTokensOf. destruct (prior_of_ self !! h) as [p|] eqn:Hp; cycle 1.
    { exists None. split; [done|]. intros n. split; [done|]. intros [p Hin].
      assert (h ∈ hash <$> Tails p self) as Hh%(ok_prior _ Hok) by (by apply (list_elem_of_fmap_2 hash _ (mkTail n h))).
      congruence. }
    apply (ok_prior _ Hok) in Hp as Hin. destruct (Tails_list self p Hok) as [_ Hnd].
    assert (tails_by_prior_ self !! p = Some (Tails p self)) as Ht.
    { unfold Tails in *. destruct (tails_by_prior_ self !! p); [done|]. by apply not_elem_of_nil in Hin. }
    unfold tails_at. rewrite Ht. cbn [lookup_or mbind result_bind].
    destruct (list_find (λ tail, hash tail = h) (Tails p self)) as [[i tail]|] eqn:Hf; cycle 1.
    { apply list_find_None in Hf. apply list_elem_of_fmap in Hin as (t & Hth & Hin).
      by apply (proj1 (Forall_forall _ _) Hf t) in Hin. }
    apply list_find_Some in Hf as (Hi & Hh & _). exists (Some (tail_tokens tail)). split; [done|]. intros n. split.
    + intros [= <-]. exists p. apply list_elem_of_lookup_2 with i. rewrite Hi, <- Hh. by destruct tail.
    + intros [q Hq]. assert (q = p) as ->.
      { apply (prior_fun self h); [done| |done]. by apply (list_elem_of_fmap_2 hash _ (mkTail n h)). }
      apply list_elem_of_lookup_1 in Hq as [j Hj]. f_equal.
      assert (j = i) as ->; [|by rewrite Hi in Hj; injection Hj as ->].
      apply (NoDup_lookup (hash <$> Tails p self) j i h Hnd); rewrite list_lookup_fmap, ?Hj, ?Hi; cbn; congruence.
Qed.

(** Two tails under one prior. *)
Definition two_tails : TailTable := (Add "p" 6 "i" (Add "p" 5 "h" TailTable_new).2).2.

Lemma two_tails_reachable : reachable two_tails.
Proof.
  eapply (reach_add _ "p" 6 "i"); [eapply (reach_add _ "p" 5 "h"); [apply reach_new|apply surjective_pairing]|apply surjective_pairing].
Qed.

Lemma tail_table_lru_witness :
  ∃ self', Touch "h" two_tails = (Ok true, self') ∧ Tails "p" self' = [mkTail 6 "i"; mkTail 5 "h"].
Proof.
  destruct (tail_table_lru two_tails two_tails_reachable) as (_ & _ & Htouch & _).
  destruct (Htouch "h"%string) as [(p & self' & Hin & Hrun & Htails)|[Hnot _]].
  - exists self'. split; [exact Hrun|]. revert Hrun. vm_compute (Touch "h" two_tails). intros [= <-]. vm_compute. reflexivity.
  - exfalso. apply (Hnot "p"%string). apply list_elem_of_In. vm_compute. left. reflexivity.
Defined.
