(* ===== verification/ReqPool.v ===== *)
(** * Request-pool slots

    [csrc/resource/allocator/req_pool_allocator.h] and [.cpp], which also hold the blob
    slots of retracted requests: a first-in first-out pool of slots numbered from 1, and
    move-only indices that give their slot back when they go. *)

From S2P Require Import Prelude PyState Cxx.

Local Open Scope Z_scope.

Record ReqPoolAllocator := mkReqPool { size_ : Z; free_slots_ : list Z }.

(** [allocator_] is null or the one allocator. *)
Record ReqPoolIndex := mkIndex { slot_ : Z; owns : bool }.

(** The default constructor, and an index that was moved from. *)
Definition ReqPoolIndex_default : ReqPoolIndex := mkIndex 0 false.
Definition moved_from : ReqPoolIndex := mkIndex (-1) false.

Definition valid (index : ReqPoolIndex) : bool := owns index.

Definition ReqPoolAllocator_new (size : Z) : ReqPoolAllocator := mkReqPool size (seqZ 1 size).

Definition Allocate : M ReqPoolAllocator ReqPoolIndex := λ self,
  match free_slots_ self with
  | [] => (Raise (RuntimeError "ReqPoolAllocator::Allocate: no request pool slots available"), self)
  | slot :: free => (Ok (mkIndex slot true), mkReqPool (size_ self) free)
  end.

Definition Size (self : ReqPoolAllocator) : Z := size_ self.
Definition AvailableSlots (self : ReqPoolAllocator) : Z := Z.of_nat (length (free_slots_ self)).

Definition deallocate (slot : Z) : M ReqPoolAllocator () :=
  modify (λ self, mkReqPool (size_ self) (free_slots_ self ++ [slot])).

(** The destructor. *)
Definition destroy (index : ReqPoolIndex) : M ReqPoolAllocator () :=
  if owns index then deallocate (slot_ index) else mret ().

(** [dst = std::move(src)] for two different objects: the new values of both. *)
Definition move_assign (dst src : ReqPoolIndex) : M ReqPoolAllocator (ReqPoolIndex * ReqPoolIndex) :=
  destroy dst ;;
  mret (src, moved_from).

(** ** Programs over index variables *)

Inductive statement :=
  | AllocateInto (dst : nat)
  | MoveTo (dst src : nat)
  | Drop (dst : nat).

Definition store : Type := ReqPoolAllocator * list ReqPoolIndex.

Definition var (v : nat) (s : store) : ReqPoolIndex := default ReqPoolIndex_default (s.2 !! v).

(** [dst = value], whose right-hand side is a temporary: it is moved from, and destroyed
    at the end of the statement. *)
Definition assign_temporary (dst : nat) (temporary : ReqPoolIndex) : M store () := λ s,
  match (values ← move_assign (var dst s) temporary; destroy values.2;; mret values.1) s.1 with
  | (Ok value, a) => (Ok (), (a, <[dst := value]> s.2))
  | (Raise e, a) => (Raise e, (a, s.2))
  end.

(** [dst = allocator.Allocate()], [dst = std::move(src)] and [dst = ReqPoolIndex{}]. *)
Definition exec (st : statement) : M store () := λ s,
  match st with
  | AllocateInto dst =>
      match Allocate s.1 with
      | (Raise e, a) => (Raise e, (a, s.2))
      | (Ok fresh, a) => assign_temporary dst fresh (a, s.2)
      end
  | MoveTo dst src =>
      if decide (dst = src) then (Ok (), s)
      else
        match move_assign (var dst s) (var src s) s.1 with
        | (Ok (value, rest), a) => (Ok (), (a, <[src := rest]> (<[dst := value]> s.2)))
        | (Raise e, a) => (Raise e, (a, s.2))
        end
  | Drop dst => assign_temporary dst ReqPoolIndex_default s
  end.

Definition names (st : statement) : list nat :=
  match st with AllocateInto dst | Drop dst => [dst] | MoveTo dst src => [dst; src] end.

Inductive runs (size : Z) : store → Prop :=
  | runs_start n : runs size (ReqPoolAllocator_new size, replicate n ReqPoolIndex_default)
  | runs_exec s st answer s' :
      runs size s → Forall (λ v, (v < length s.2)%nat) (names st) → exec st s = (answer, s') → runs size s'.

(** The slots some index owns. *)
Definition held (vars : list ReqPoolIndex) : list Z := slot_ <$> filter (λ i, owns i = true) vars.
Definition held_by (i : ReqPoolIndex) : list Z := if owns i then [slot_ i] else [].

Lemma held_cons i vars : held (i :: vars) = held_by i ++ held vars.
Proof. unfold held, held_by. rewrite filter_cons. destruct (owns i); case_decide; try done; by cbn. Qed.

Lemma held_app l k : held (l ++ k) = held l ++ held k.
Proof. unfold held. by rewrite filter_app, fmap_app. Qed.

Lemma held_insert vars v old i :
  vars !! v = Some old → held (<[v := i]> vars) ++ held_by old ≡ₚ held vars ++ held_by i.
Proof.
  intros Hv. rewrite <- (take_drop_middle _ _ _ Hv) at 2. rewrite insert_take_drop by (by eapply lookup_lt_Some).
  rewrite !held_app, !held_cons. solve_Permutation.
Qed.

Lemma destroy_free i self : (destroy i self).2 = mkReqPool (size_ self) (free_slots_ self ++ held_by i).
Proof. unfold destroy, held_by. destruct (owns i); cbn; [done|]. rewrite app_nil_r. by destruct self. Qed.

Lemma move_assign_free dst src self :
  move_assign dst src self = (Ok (src, moved_from), mkReqPool (size_ self) (free_slots_ self ++ held_by dst)).
Proof.
  unfold move_assign, mbind, M_bind. pose proof (destroy_free dst self) as Hd.
  destruct (destroy dst self) as [[[]|e] a] eqn:E; cbn in Hd; [by subst a|].
  unfold destroy in E. by destruct (owns dst).
Qed.

Lemma assign_temporary_free dst temporary a vars :
  assign_temporary dst temporary (a, vars) =
  (Ok (), (mkReqPool (size_ a) (free_slots_ a ++ held_by (var dst (a, vars))), <[dst := temporary]> vars)).
Proof.
  unfold assign_temporary. cbn [fst snd]. by rewrite (run_bind_Ok _ _ _ _ _ (move_assign_free _ _ _)).
Qed.

(** Every slot is free or owned by one index. *)
Definition accounted (size : Z) (s : store) : Prop :=
  size_ s.1 = size ∧ free_slots_ s.1 ++ held s.2 ≡ₚ seqZ 1 size.

Lemma exec_accounted size s st answer s' :
  accounted size s → Forall (λ v, (v < length s.2)%nat) (names st) → exec st s = (answer, s') → accounted size s'.
Proof.
  destruct s as [a vars]. intros [Hsize Hperm] Hnames Hrun. cbn [fst snd] in *.
  assert (∀ v, (v < length vars)%nat → vars !! v = Some (var v (a, vars))) as Hvar.
  { intros v [i Hi]%lookup_lt_is_Some_2. unfold var. cbn. by rewrite Hi. }
  destruct st as [dst|dst src|dst]; cbn [exec names fst snd] in *.
  - apply Forall_cons in Hnames as [Hdst _]. unfold Allocate in Hrun.
    destruct (free_slots_ a) as [|slot free] eqn:Hfree.
    { injection Hrun as _ <-. split; cbn; [done|]. by rewrite Hfree. }
    rewrite assign_temporary_free in Hrun. injection Hrun as _ <-. split; cbn [fst snd size_ free_slots_]; [done|].
    change (var dst (_, vars)) with (var dst (a, vars)).
    pose proof (held_insert vars dst _ (mkIndex slot true) (Hvar dst Hdst)) as Hins.
    rewrite <- Hperm, <- app_assoc, (Permutation_app_comm (held_by _)), Hins. cbn [held_by owns slot_]. solve_Permutation.
  - apply Forall_cons in Hnames as [Hdst Hnames]. apply Forall_cons in Hnames as [Hsrc _].
    case_decide as Hne; [injection Hrun as _ <-; by split|].
    rewrite move_assign_free in Hrun. injection Hrun as _ <-. split; cbn [fst snd size_ free_slots_]; [done|].
    pose proof (held_insert vars dst _ (var src (a, vars)) (Hvar dst Hdst)) as Hins.
    assert (<[dst := var src (a, vars)]> vars !! src = Some (var src (a, vars))) as Hs.
    { rewrite list_lookup_insert_ne by done. by apply Hvar. }
    pose proof (held_insert _ src _ moved_from Hs) as Hins2. cbn [held_by owns moved_from] in Hins2.
    rewrite app_nil_r in Hins2. rewrite <- Hins2 in Hins. clear Hins2.
    rewrite <- Hperm, <- app_assoc. apply Permutation_app_head.
    apply (Permutation_app_inv_r (held_by (var src (a, vars)))). rewrite <- Hins. solve_Permutation.
  - apply Forall_cons in Hnames as [Hdst _]. rewrite assign_temporary_free in Hrun. injection Hrun as _ <-.
    split; cbn [fst snd size_ free_slots_]; [done|].
    pose proof (held_insert vars dst _ ReqPoolIndex_default (Hvar dst Hdst)) as Hins. cbn [held_by owns ReqPoolIndex_default] in Hins.
    rewrite app_nil_r in Hins. rewrite <- Hperm, <- Hins. solve_Permutation.
Qed.


