(* ===== verification/PrefixIndex.v ===== *)
(** * The prefix index of a cache group

    [csrc/cache/prefix/prefix_index.h], with the keys of [cache_types.h]: which block is
    canonical for which key, per pool.  Entries live in a list with stable nodes; two
    hash maps and an ordered map point into it.  A node is a number that is never
    reused; looking up one that is gone is undefined behaviour.

    Methods run on the heap of blocks and the index together, since they copy, compare
    and drop references. *)

From stdpp Require Import gmap strings.
From S2P Require Import Prelude PyState Cxx BlockPool BlockPoolFacts BlockPoolSafety BlockRefs.

Local Open Scope Z_scope.

(** ** Keys *)

Inductive CacheBoundaryKind := kChunk | kEndpoint.

(** [operator<] of the enumeration. *)
Definition kind_less (a b : CacheBoundaryKind) : bool :=
  match a, b with kChunk, kEndpoint => true | _, _ => false end.

Record CacheKey := mkKey {
  namespace_id : nat;
  group_id : nat;
  content_hash : string;
  page_offset : Z;
}.

#[export] Instance CacheKey_eq_dec : EqDecision CacheKey.
Proof. solve_decision. Defined.

#[export] Instance CacheKey_countable : Countable CacheKey.
Proof.
  refine (inj_countable' (λ k, (namespace_id k, group_id k, content_hash k, page_offset k))
            (λ t, mkKey t.1.1.1 t.1.1.2 t.1.2 t.2) _). by intros [].
Defined.

#[export] Instance CacheBlockLocation_countable : Countable CacheBlockLocation.
Proof.
  refine (inj_countable' (λ l, (lcm_block_id l, slot_index l)) (λ t, mkLocation t.1 t.2) _). by intros [].
Defined.

(** ** Entries *)

Record CacheEntry := mkEntry {
  key : CacheKey;
  block_ref : CacheBlockRef;
  last_access_epoch : Z;
  logical_block_index : Z;
  boundary_kind : CacheBoundaryKind;
  was_acquired : bool;
}.

Record CachedBlockMetadata := mkMetadata {
  meta_epoch : Z;
  meta_index : Z;
  meta_kind : CacheBoundaryKind;
  meta_acquired : bool;
}.

(** Access epoch, parent and slot. *)
Abbreviation EvictionOrder := (Z * Z * Z)%type.

Record CacheEntries := mkEntries {
  entries : list (nat * CacheEntry);
  next_node : nat;
  by_key : gmap CacheKey nat;
  by_location : gmap CacheBlockLocation nat;
  by_eviction_order : list (EvictionOrder * nat);
}.

Definition no_entries : CacheEntries := mkEntries [] 0 ∅ ∅ [].

Record PrefixCacheIndex := mkIndex { group_id_ : nat; cache_entries_by_pool_ : gmap nat CacheEntries }.

Definition PrefixCacheIndex_new (g : nat) : PrefixCacheIndex := mkIndex g ∅.

Definition metadataOf (e : CacheEntry) : CachedBlockMetadata :=
  mkMetadata (last_access_epoch e) (logical_block_index e) (boundary_kind e) (was_acquired e).

Definition set_epoch (epoch : Z) (e : CacheEntry) : CacheEntry :=
  mkEntry (key e) (block_ref e) epoch (logical_block_index e) (boundary_kind e) (was_acquired e).
Definition set_kind (kind : CacheBoundaryKind) (e : CacheEntry) : CacheEntry :=
  mkEntry (key e) (block_ref e) (last_access_epoch e) (logical_block_index e) kind (was_acquired e).
Definition set_acquired (e : CacheEntry) : CacheEntry :=
  mkEntry (key e) (block_ref e) (last_access_epoch e) (logical_block_index e) (boundary_kind e) true.

(** [*it] *)
Definition entry_at (n : nat) (E : CacheEntries) : result CacheEntry :=
  match list_find (λ node, node.1 = n) (entries E) with
  | Some (_, node) => Ok node.2
  | None => Raise (Undefined "dangling list iterator")
  end.

Definition set_entry (n : nat) (e : CacheEntry) (E : CacheEntries) : CacheEntries :=
  mkEntries ((λ node, if decide (node.1 = n) then (n, e) else node) <$> entries E) (next_node E)
    (by_key E) (by_location E) (by_eviction_order E).

Definition set_order (order : list (EvictionOrder * nat)) (E : CacheEntries) : CacheEntries :=
  mkEntries (entries E) (next_node E) (by_key E) (by_location E) order.

Definition evictionOrder (e : CacheEntry) (h : heap) : result EvictionOrder :=
  location ← Location (block_ref e) h;
  Ok (last_access_epoch e, lcm_block_id location, slot_index location).

Definition validateKey (k : CacheKey) (self : PrefixCacheIndex) : result () :=
  _assert (group_id k =? group_id_ self)%nat "cache key group does not match index";;
  _assert (negb (bool_decide (content_hash k = ""%string))) "cache key content hash must not be empty".

(** [findEntry]: [None] is [entries.end()]. *)
Definition findEntry_key (k : CacheKey) (E : CacheEntries) (self : PrefixCacheIndex) : result (option nat) :=
  validateKey k self;;
  Ok (by_key E !! k).

Definition findEntry_location (l : CacheBlockLocation) (E : CacheEntries) : option nat := by_location E !! l.

Definition touchEntry (n : nat) (epoch : Z) (E : CacheEntries) (h : heap) : result CacheEntries :=
  e ← entry_at n E;
  if last_access_epoch e =? epoch then Ok E
  else
    before ← evictionOrder e h;
    let e' := set_epoch epoch e in
    after ← evictionOrder e' h;
    Ok (set_order (map_emplace after n (map_erase before (by_eviction_order E))) (set_entry n e' E)).

(** The entry leaves the three maps and the list; its reference goes with it. *)
Definition unlinkEntry (n : nat) (e : CacheEntry) (E : CacheEntries) (h : heap) : result CacheEntries :=
  order ← evictionOrder e h;
  location ← Location (block_ref e) h;
  Ok (mkEntries (filter (λ node, node.1 ≠ n) (entries E)) (next_node E) (delete (key e) (by_key E))
        (delete location (by_location E)) (map_erase order (by_eviction_order E))).

(** ** State of a method *)

Definition state : Type := heap * PrefixCacheIndex.

Definition on_heap {A} (m : M heap A) : M state A := within fst (λ h s, (h, s.2)) m.
Definition ask {A} (f : heap → PrefixCacheIndex → result A) : M state A := const (λ s : state, f s.1 s.2).
Definition store_entries (i : nat) (E : CacheEntries) : M state () :=
  modify (λ s, (s.1, mkIndex (group_id_ s.2) (<[i := E]> (cache_entries_by_pool_ s.2)))).

Definition findCacheEntries (i : nat) (self : PrefixCacheIndex) : option CacheEntries :=
  cache_entries_by_pool_ self !! i.

(** [cacheEntries]: [try_emplace] of an empty index. *)
Definition cacheEntries (i : nat) : M state CacheEntries :=
  E ← ask (λ _ self, Ok (default no_entries (findCacheEntries i self)));
  store_entries i E ;;
  mret E.

(** [boundary_kind] only rises. *)
Definition raise_kind (n : nat) (kind : CacheBoundaryKind) (E : CacheEntries) : result CacheEntries :=
  e ← entry_at n E;
  Ok (if kind_less (boundary_kind e) kind then set_entry n (set_kind kind e) E else E).

(** ** Publishing *)

(** Register a block that is new under its key. *)
Definition insertEntry (i : nat) (r : CacheBlockRef) (k : CacheKey) (epoch logical : Z) (kind : CacheBoundaryKind)
    (location : CacheBlockLocation) (E : CacheEntries) : M state () :=
  copy ← on_heap (copy_ref r);
  let e := mkEntry k copy epoch logical kind false in
  let n := next_node E in
  order ← ask (λ h _, evictionOrder e h);
  store_entries i
    (mkEntries (entries E ++ [(n, e)]) (S n) (<[k := n]> (by_key E)) (<[location := n]> (by_location E))
       (map_emplace order n (by_eviction_order E))).

(** An entry is published again. *)
Definition refreshEntry (i n : nat) (epoch : Z) (kind : CacheBoundaryKind) (E : CacheEntries) : M state CacheEntries :=
  E ← ask (λ h _, E ← raise_kind n kind E; touchEntry n epoch E h);
  store_entries i E ;;
  mret E.

(** [Register] once the entries of the pool are at hand. *)
Definition registerIn (i : nat) (r : CacheBlockRef) (k : CacheKey) (epoch logical : Z) (kind : CacheBoundaryKind)
    (record : bool) (location : CacheBlockLocation) (E : CacheEntries) :
    M state (CacheBlockRef * list (CacheKey * CacheBlockRef)) :=
  match findEntry_location location E with
  | Some n =>
      e ← ask (λ _ _, entry_at n E);
      ask (λ _ _, _assert (bool_decide (key e = k)) "one cache block location cannot change cache key") ;;
      refreshEntry i n epoch kind E ;;
      mret (r, [])
  | None =>
      canonical ← ask (λ _ self, findEntry_key k E self);
      match canonical with
      | Some n =>
          E ← refreshEntry i n epoch kind E;
          e ← ask (λ _ _, entry_at n E);
          r ← on_heap (assign_copy r (block_ref e));
          mret (r, [])
      | None =>
          insertEntry i r k epoch logical kind location E ;;
          if record then copy ← on_heap (copy_ref r); mret (r, [(k, copy)]) else mret (r, [])
      end
  end.

(** [newly_cached] is a vector when [record]; the result is the caller's reference and
    what was appended to the vector. *)
Definition Register (i : nat) (r : CacheBlockRef) (k : CacheKey) (epoch logical : Z) (kind : CacheBoundaryKind)
    (record : bool) : M state (CacheBlockRef * list (CacheKey * CacheBlockRef)) :=
  mine ← ask (λ h _, IsOwnedBy r i h);
  ask (λ _ _, _assert mine "cache block must belong to the target pool") ;;
  location ← ask (λ h _, Location r h);
  bound ← ask (λ h _, p ← pool_at i h; BoundGroup (lcm_block_id location) p);
  ask (λ _ self, _assert (bool_decide (bound = Some (group_id_ self)))
                   "cache block must belong to the prefix index group") ;;
  ask (λ _ self, validateKey k self) ;;
  E ← cacheEntries i;
  registerIn i r k epoch logical kind record location E.

(** The caller's blocks and vector, which keep what was done when a call throws. *)
Definition publication : Type := list CacheBlockRef * list (CacheKey * CacheBlockRef).

Fixpoint publish_from (i : nat) (j : nat) (keys : list CacheKey) (epoch first_logical : Z) (kind : CacheBoundaryKind)
    (record : bool) : M (state * publication) () :=
  match keys with
  | [] => mret ()
  | k :: keys =>
      r ← const (λ s : state * publication, lookup_or (Undefined "span index out of range") (s.2.1 !! j));
      (match r with
       | None => mret ()
       | Some _ =>
           answer ← within fst (λ s p, (s, p.2)) (Register i r k epoch (first_logical + Z.of_nat j) kind record);
           modify (λ s : state * publication, (s.1, (<[j := answer.1]> s.2.1, s.2.2 ++ answer.2)))
       end) ;;
      publish_from i (S j) keys epoch first_logical kind record
  end.

Definition RegisterFullBlocks (i : nat) (keys : list CacheKey) (epoch first_logical_block : Z)
    (kind : CacheBoundaryKind) (record : bool) : M (state * publication) () :=
  const (λ _ : state * publication, _assert (0 <=? first_logical_block) "first_logical_block must be >= 0") ;;
  const (λ s : state * publication, _assert (length s.2.1 =? length keys)%nat "one key per published block") ;;
  publish_from i 0 keys epoch first_logical_block kind record.

(** ** Lookups *)

Definition Contains_key (i : nat) (k : CacheKey) (self : PrefixCacheIndex) : result bool :=
  match findCacheEntries i self with
  | None => Ok false
  | Some E => n ← findEntry_key k E self; Ok (bool_decide (is_Some n))
  end.

Definition Contains_location (i : nat) (l : CacheBlockLocation) (self : PrefixCacheIndex) : bool :=
  match findCacheEntries i self with
  | None => false
  | Some E => bool_decide (is_Some (findEntry_location l E))
  end.

(** The block of the entry at this location, when there is one. *)
Definition block_at (l : CacheBlockLocation) (E : CacheEntries) : result (option CacheBlockRef) :=
  match findEntry_location l E with
  | None => Ok None
  | Some n => e ← entry_at n E; Ok (Some (block_ref e))
  end.

Definition Contains_ref (r : CacheBlockRef) (h : heap) (self : PrefixCacheIndex) : result bool :=
  match r with
  | None => Ok false
  | Some _ =>
      foldM (λ found item,
        if (found : bool) then Ok true
        else
          location ← Location r h;
          block ← block_at location item.2;
          Ok (bool_decide (block = Some r))) false (map_to_list (cache_entries_by_pool_ self))
  end.

Definition Find (i : nat) (k : CacheKey) : M state CacheBlockRef :=
  E ← ask (λ _ self, Ok (findCacheEntries i self));
  match E with
  | None => mret None
  | Some E =>
      n ← ask (λ _ self, findEntry_key k E self);
      match n with
      | None => mret None
      | Some n => e ← ask (λ _ _, entry_at n E); on_heap (copy_ref (block_ref e))
      end
  end.

Definition KeyOf (i : nat) (r : CacheBlockRef) (h : heap) (self : PrefixCacheIndex) : result (option CacheKey) :=
  match findCacheEntries i self, r with
  | Some E, Some _ =>
      location ← Location r h;
      match findEntry_location location E with
      | None => Ok None
      | Some n => e ← entry_at n E; Ok (if bool_decide (block_ref e = r) then Some (key e) else None)
      end
  | _, _ => Ok None
  end.

Definition MetadataFor (i : nat) (l : CacheBlockLocation) (self : PrefixCacheIndex) :
    result (option CachedBlockMetadata) :=
  match findCacheEntries i self with
  | None => Ok None
  | Some E =>
      match findEntry_location l E with
      | None => Ok None
      | Some n => e ← entry_at n E; Ok (Some (metadataOf e))
      end
  end.

Definition NumEntries (i : nat) (self : PrefixCacheIndex) : Z :=
  match findCacheEntries i self with None => 0 | Some E => Z.of_nat (length (entries E)) end.

Definition NumPinnedEntries (i : nat) (h : heap) (self : PrefixCacheIndex) : result Z :=
  match findCacheEntries i self with
  | None => Ok 0
  | Some E => counts ← mapM (λ node, use_count (block_ref node.2) h) (entries E);
              Ok (Z.of_nat (length (filter (λ n, 1 < n) counts)))
  end.

(** ** Eviction *)

Record EvictionCandidate := mkCandidate { candidate_location : CacheBlockLocation; metadata : CachedBlockMetadata }.

(** An entry as a candidate when no one else holds its block. *)
Definition candidate (e : CacheEntry) (h : heap) : result (list EvictionCandidate) :=
  free ← unique (block_ref e) h;
  if (free : bool) then location ← Location (block_ref e) h; Ok [mkCandidate location (metadataOf e)] else Ok [].

(** The inner loop: the entries of one epoch; the rest of the order is the cursor. *)
Fixpoint take_epoch (epoch : Z) (E : CacheEntries) (h : heap) (order : list (EvictionOrder * nat)) :
    result (list EvictionCandidate * list (EvictionOrder * nat)) :=
  match order with
  | [] => Ok ([], [])
  | ((epoch', _, _), n) :: rest =>
      if epoch' =? epoch then
        e ← entry_at n E;
        found ← candidate e h;
        '(more, rest) ← take_epoch epoch E h rest;
        Ok (found ++ more, rest)
      else Ok ([], order)
  end.

(** The outer loop; every round consumes an item, so the length bounds the rounds. *)
Fixpoint next_epoch (fuel : nat) (E : CacheEntries) (h : heap) (order : list (EvictionOrder * nat)) :
    result (list EvictionCandidate * list (EvictionOrder * nat)) :=
  match fuel, order with
  | S fuel, ((epoch, _, _), _) :: _ =>
      '(found, rest) ← take_epoch epoch E h order;
      match found with
      | [] => next_epoch fuel E h rest
      | _ => Ok (found, rest)
      end
  | _, _ => Ok ([], [])
  end.

(** The cursor is [None] before its first use, then what is left of the order; the result
    is whether candidates were appended, the cursor and the candidates. *)
Definition NextEvictionEpoch (i : nat) (cursor : option (list (EvictionOrder * nat))) (h : heap)
    (self : PrefixCacheIndex) : result (bool * option (list (EvictionOrder * nat)) * list EvictionCandidate) :=
  match findCacheEntries i self with
  | None => Ok (false, None, [])
  | Some E =>
      let order := default (by_eviction_order E) cursor in
      '(found, rest) ← next_epoch (length order) E h order;
      Ok (bool_decide (found ≠ []), Some rest, found)
  end.

Definition EvictableCandidates (i : nat) (h : heap) (self : PrefixCacheIndex) : result (list EvictionCandidate) :=
  match findCacheEntries i self with
  | None => Ok []
  | Some E => found ← mapM (λ node, candidate node.2 h) (entries E); Ok (mjoin found)
  end.

Definition Evict (i : nat) (l : CacheBlockLocation) : M state (option CacheKey) :=
  E ← ask (λ _ self, Ok (findCacheEntries i self));
  match E with
  | None => mret None
  | Some E =>
      match findEntry_location l E with
      | None => mret None
      | Some n =>
          e ← ask (λ _ _, entry_at n E);
          free ← ask (λ h _, unique (block_ref e) h);
          if (free : bool) then
            E ← ask (λ h _, unlinkEntry n e E h);
            store_entries i E ;;
            on_heap (reset (block_ref e)) ;;
            mret (Some (key e))
          else mret None
      end
  end.

(** One slot of the loop: free, or an entry no one else holds. *)
Definition slot_evictable (i : nat) (E : CacheEntries) (h : heap) (l : CacheBlockLocation) : result bool :=
  p ← pool_at i h;
  busy ← IsOccupied l p;
  if (busy : bool) then
    match findEntry_location l E with
    | None => Ok false
    | Some n => e ← entry_at n E; unique (block_ref e) h
    end
  else Ok true.

Definition ParentIsFullyEvictable (i : nat) (id packing' : Z) (h : heap) (self : PrefixCacheIndex) : result bool :=
  p ← pool_at i h;
  count ← OccupiedCount id p;
  if count =? 0 then Ok false
  else
    match findCacheEntries i self with
    | None => Ok false
    | Some E =>
        foldM (λ all slot, if (all : bool) then slot_evictable i E h (mkLocation id slot) else Ok false)
          true (seqZ 0 packing')
    end.

(** ** Matched prefixes *)

Record PrefixMatch := mkMatch { blocks : list CacheBlockRef }.
Definition NumHitBlocks (self : PrefixMatch) : Z := Z.of_nat (length (filter (λ r, is_Some r) (blocks self))).

Record GroupPrefixProbe := mkProbe { hits : list Z }.

Definition matched_range (keys : list CacheKey) (begin_blocks : Z) (probe : GroupPrefixProbe) :
    result (list (Z * CacheKey)) :=
  _assert ((0 <=? begin_blocks) &&
           (begin_blocks + Z.of_nat (length (hits probe)) <=? Z.of_nat (length keys)))
    "matched block range is out of bounds";;
  Ok (zip (hits probe) (drop (Z.to_nat begin_blocks) keys)).

Definition acquire_hit (i : nat) (k : CacheKey) (epoch : Z) : M state CacheBlockRef :=
  E ← ask (λ _ self, lookup_or (RuntimeError "cached pool disappeared between match probe and acquisition")
                       (findCacheEntries i self));
  found ← ask (λ _ self, findEntry_key k E self);
  n ← ask (λ _ _, lookup_or (RuntimeError "cached block disappeared between match probe and acquisition") found);
  e ← ask (λ _ _, entry_at n E);
  E ← ask (λ h _, touchEntry n epoch (set_entry n (set_acquired e) E) h);
  store_entries i E ;;
  on_heap (copy_ref (block_ref e)).

(** When a hit throws, the references taken so far go. *)
Fixpoint acquire_hits (i : nat) (epoch : Z) (range : list (Z * CacheKey)) (taken : list CacheBlockRef) :
    M state (list CacheBlockRef) :=
  match range with
  | [] => mret taken
  | (hit, k) :: range =>
      if hit =? 0 then acquire_hits i epoch range (taken ++ [None])
      else λ s,
        match acquire_hit i k epoch s with
        | (Ok r, s) => acquire_hits i epoch range (taken ++ [r]) s
        | (Raise e, s) => (on_heap (reset_all taken) ;; raise e) s
        end
  end.

Definition AcquireMatched (i : nat) (keys : list CacheKey) (begin_blocks : Z) (probe : GroupPrefixProbe)
    (epoch : Z) : M state PrefixMatch :=
  range ← ask (λ _ _, matched_range keys begin_blocks probe);
  blocks ← acquire_hits i epoch range [];
  mret (mkMatch blocks).

Definition MatchedLocations (i : nat) (keys : list CacheKey) (begin_blocks : Z) (probe : GroupPrefixProbe)
    (h : heap) (self : PrefixCacheIndex) : result (list CacheBlockLocation) :=
  range ← matched_range keys begin_blocks probe;
  mapM (λ item,
    E ← lookup_or (RuntimeError "cached pool disappeared between match probes") (findCacheEntries i self);
    found ← findEntry_key item.2 E self;
    n ← lookup_or (RuntimeError "cached block disappeared between match probes") found;
    e ← entry_at n E;
    Location (block_ref e) h) (filter (λ item, item.1 ≠ 0) range).
