(* ===== verification/PrefixIndexFacts.v ===== *)
(** * Correctness of the prefix index

    The invariant that ties the three maps of an index to its list of entries and the
    references it holds to the heap, that publishing, eviction and matching keep it,
    and what they return. *)

From stdpp Require Import gmap strings.
From S2P Require Import Prelude PyState Cxx BlockPool BlockPoolFacts BlockPoolSafety BlockRefs PrefixIndex.

Local Open Scope Z_scope.

(** ** The invariant *)

(** The block of an entry is at location [l] of pool [i]. *)
Definition at_place (h : heap) (i : nat) (e : CacheEntry) (l : CacheBlockLocation) : Prop :=
  ∃ c, block_ref e = Some c ∧ place h c = Some (i, l).

Definition order_of (e : CacheEntry) (l : CacheBlockLocation) : EvictionOrder :=
  (last_access_epoch e, lcm_block_id l, slot_index l).

Definition valid_key (g : nat) (k : CacheKey) : Prop := group_id k = g ∧ content_hash k ≠ ""%string.

Record entries_ok (h : heap) (i g : nat) (E : CacheEntries) : Prop := {
  eo_nodes : NoDup (entries E).*1;
  eo_fresh n : n ∈ (entries E).*1 → (n < next_node E)%nat;
  eo_placed n e : (n, e) ∈ entries E → ∃ l, at_place h i e l;
  eo_valid n e : (n, e) ∈ entries E → valid_key g (key e);
  eo_key k n : by_key E !! k = Some n ↔ ∃ e, (n, e) ∈ entries E ∧ key e = k;
  eo_location l n : by_location E !! l = Some n ↔ ∃ e, (n, e) ∈ entries E ∧ at_place h i e l;
  eo_order o n : (o, n) ∈ by_eviction_order E ↔ ∃ e l, (n, e) ∈ entries E ∧ at_place h i e l ∧ o = order_of e l;
  eo_sorted : sorted (by_eviction_order E).*1;
}.

Definition refs (E : CacheEntries) : list nat := omap (λ node, block_ref node.2) (entries E).

Lemma at_place_fun h i e l l' : at_place h i e l → at_place h i e l' → l = l'.
Proof. intros (c & Hc & Hl) (c' & Hc' & Hl'). congruence. Qed.

Lemma at_place_Location h i e l : at_place h i e l → Location (block_ref e) h = Ok l.
Proof.
  intros (c & Hc & (k & Hk & _ & Hl)%place_Some). unfold Location. rewrite Hc. cbn [lookup_or mbind result_bind].
  rewrite (control_Ok _ _ _ Hk). cbn. by rewrite Hl.
Qed.

Section entries.
Context (h : heap) (i g : nat) (E : CacheEntries) (HE : entries_ok h i g E).

Lemma entry_fun n e e' : (n, e) ∈ entries E → (n, e') ∈ entries E → e = e'.
Proof.
  intros [j Hj]%list_elem_of_lookup_1 [j' Hj']%list_elem_of_lookup_1.
  assert (j = j') as ->; [|congruence].
  apply (NoDup_lookup (entries E).*1 j j' n); [apply HE|by rewrite list_lookup_fmap, Hj|by rewrite list_lookup_fmap, Hj'].
Qed.

Lemma entry_at_spec n e : (n, e) ∈ entries E → entry_at n E = Ok e.
Proof.
  intros Hin. unfold entry_at. destruct (list_find _ (entries E)) as [[j [n' e']]|] eqn:Hf.
  - apply list_find_Some in Hf as (Hj & Hn & _). cbn in *. subst n'. f_equal. symmetry.
    apply (entry_fun n); [done|]. by eapply list_elem_of_lookup_2.
  - apply list_find_None in Hf. by apply (proj1 (Forall_forall _ _) Hf (n, e)) in Hin.
Qed.

Lemma key_entry n n' e e' : (n, e) ∈ entries E → (n', e') ∈ entries E → key e = key e' → n = n'.
Proof.
  intros Hin Hin' Hk. assert (by_key E !! key e = Some n) as Hn by (apply (eo_key _ _ _ _ HE); eauto).
  assert (by_key E !! key e = Some n') as Hn' by (apply (eo_key _ _ _ _ HE); eauto). congruence.
Qed.

Lemma place_entry n n' e e' l :
  (n, e) ∈ entries E → (n', e') ∈ entries E → at_place h i e l → at_place h i e' l → n = n'.
Proof.
  intros Hin Hin' Hl Hl'. assert (by_location E !! l = Some n) as Hn by (apply (eo_location _ _ _ _ HE); eauto).
  assert (by_location E !! l = Some n') as Hn' by (apply (eo_location _ _ _ _ HE); eauto). congruence.
Qed.

Lemma elem_of_set_entry n e m em :
  n ∈ (entries E).*1 → (m, em) ∈ entries (set_entry n e E) ↔ (m = n ∧ em = e) ∨ (m ≠ n ∧ (m, em) ∈ entries E).
Proof.
  intros Hn. cbn. rewrite list_elem_of_fmap. split.
  - intros ([m' em'] & Heq & Hin). cbn in Heq. case_decide; [injection Heq as -> ->; by left|].
    injection Heq as -> ->. right. split; [congruence|done].
  - intros [[-> ->]|[Hne Hin]].
    + apply list_elem_of_fmap in Hn as ([n' e'] & -> & Hin). exists (n', e'). split; [|done]. by rewrite decide_True.
    + exists (m, em). split; [|done]. cbn. by rewrite decide_False.
Qed.

Lemma set_entry_nodes n e : (entries (set_entry n e E)).*1 = (entries E).*1.
Proof.
  cbn. rewrite <- list_fmap_compose. apply list_fmap_ext. intros j [m em] _. cbn. by case_decide.
Qed.

Lemma set_entry_refs n e e' : (n, e) ∈ entries E → block_ref e' = block_ref e → refs (set_entry n e' E) = refs E.
Proof.
  intros Hin Hr. unfold refs. cbn. pose proof (λ m em, entry_fun m em) as Hfun.
  assert (∀ m em, (m, em) ∈ entries E → m = n → em = e) as Hn by (intros m em Hm ->; by eapply Hfun).
  clear Hfun Hin HE. induction (entries E) as [|[m em] l IH]; [done|]. cbn.
  rewrite IH by (intros m' em' Hm; apply Hn; by right).
  case_decide; cbn; [|done]. rewrite Hr, (Hn m em) by (done || by left). done.
Qed.

(** An entry changes its marks and its epoch together with the order. *)
Lemma set_entry_ok n e e' order :
  (n, e) ∈ entries E → block_ref e' = block_ref e → key e' = key e →
  sorted order.*1 →
  (∀ o m, (o, m) ∈ order ↔ (m = n ∧ ∃ l, at_place h i e l ∧ o = order_of e' l) ∨
     (m ≠ n ∧ (o, m) ∈ by_eviction_order E)) →
  entries_ok h i g (set_order order (set_entry n e' E)).
Proof.
  intros Hin Hr Hk Hsorted Horder.
  assert (n ∈ (entries E).*1) as Hn by (by apply (list_elem_of_fmap_2 fst _ (n, e))).
  pose proof (elem_of_set_entry n e' ) as Hset. specialize (λ m em, Hset m em Hn).
  assert (∀ l, at_place h i e' l ↔ at_place h i e l) as Hat by (intros l; unfold at_place; by rewrite Hr).
  split; cbn [set_order entries next_node by_key by_location by_eviction_order].
  - rewrite set_entry_nodes. apply HE.
  - rewrite set_entry_nodes. apply HE.
  - intros m em [[-> ->]|[_ Hm]]%Hset.
    + destruct (eo_placed _ _ _ _ HE n e Hin) as [l Hl]. exists l. by apply Hat.
    + by apply (eo_placed _ _ _ _ HE m).
  - intros m em [[-> ->]|[_ Hm]]%Hset; [rewrite Hk; by apply (eo_valid _ _ _ _ HE n)|by apply (eo_valid _ _ _ _ HE m)].
  - intros k m. change (by_key (set_entry n e' E)) with (by_key E). rewrite (eo_key _ _ _ _ HE). split.
    + intros (em & Hm & <-). destruct (decide (m = n)) as [->|Hne].
      * exists e'. split; [apply Hset; by left|]. by rewrite Hk, (entry_fun n em e).
      * exists em. split; [apply Hset; by right|done].
    + intros (em & [[-> ->]|[_ Hm]]%Hset & <-); [exists e; by rewrite Hk|by exists em].
  - intros l m. change (by_location (set_entry n e' E)) with (by_location E). rewrite (eo_location _ _ _ _ HE). split.
    + intros (em & Hm & Hl). destruct (decide (m = n)) as [->|Hne].
      * exists e'. split; [apply Hset; by left|]. apply Hat. by rewrite <- (entry_fun n em e).
      * exists em. split; [apply Hset; by right|done].
    + intros (em & [[-> ->]|[_ Hm]]%Hset & Hl); [exists e; by rewrite <- Hat|by exists em].
  - intros o m. rewrite Horder, (eo_order _ _ _ _ HE). split.
    + intros [(-> & l & Hl & ->)|(Hne & em & l & Hm & Hl & ->)].
      * exists e', l. split; [apply Hset; by left|]. by rewrite Hat.
      * exists em, l. split; [apply Hset; by right|done].
    + intros (em & l & [[-> ->]|[Hne Hm]]%Hset & Hl & ->).
      * left. split; [done|]. exists l. by rewrite <- Hat.
      * right. split; [done|]. by exists em, l.
  - done.
Qed.
End entries.

Section operations.
Context (h : heap) (i g : nat).

Lemma set_mark_ok E n e e' :
  entries_ok h i g E → (n, e) ∈ entries E → block_ref e' = block_ref e → key e' = key e →
  last_access_epoch e' = last_access_epoch e → entries_ok h i g (set_entry n e' E).
Proof.
  intros HE Hin Hr Hk Hepoch. change (set_entry n e' E) with (set_order (by_eviction_order E) (set_entry n e' E)).
  apply (set_entry_ok h i g E HE n e); [done|done|done|apply HE|]. intros o m. split.
  - intros Hm. destruct (decide (m = n)) as [->|Hne]; [|by right]. left. split; [done|].
    apply (eo_order _ _ _ _ HE) in Hm as (em & l & Hm & Hl & ->). rewrite (entry_fun h i g E HE n em e Hm Hin) in *.
    exists l. split; [done|]. unfold order_of. by rewrite Hepoch.
  - intros [(-> & l & Hl & ->)|[_ Hm]]; [|done]. apply (eo_order _ _ _ _ HE). exists e, l. split; [done|]. split; [done|].
    unfold order_of. by rewrite Hepoch.
Qed.

(** [E'] has the entries of [E] but for entry [n], which is [e'], and the same references. *)
Definition entry_replaced (E : CacheEntries) (n : nat) (e' : CacheEntry) (E' : CacheEntries) : Prop :=
  entries E' = entries (set_entry n e' E) ∧ refs E' = refs E.

Lemma set_entry_same E n e : entries_ok h i g E → (n, e) ∈ entries E → entries (set_entry n e E) = entries E.
Proof.
  intros HE Hin. cbn. rewrite <- (list_fmap_id (entries E)) at 2. apply list_fmap_ext. intros j [m em] Hj. cbn.
  case_decide as Hm; [|done]. cbn in Hm. subst m. f_equal. apply (entry_fun h i g E HE n); [done|].
  by eapply list_elem_of_lookup_2.
Qed.

Lemma touchEntry_spec E n e epoch :
  entries_ok h i g E → (n, e) ∈ entries E →
  ∃ E', touchEntry n epoch E h = Ok E' ∧ entries_ok h i g E' ∧ entry_replaced E n (set_epoch epoch e) E'.
Proof.
  intros HE Hin. unfold touchEntry. rewrite (entry_at_spec h i g E HE n e Hin). cbn [mbind result_bind].
  destruct (Z.eqb_spec (last_access_epoch e) epoch) as [Heq|Hne].
  - exists E. split; [done|]. split; [done|]. assert (set_epoch epoch e = e) as -> by (destruct e; cbn in *; by rewrite Heq).
    split; [by rewrite set_entry_same|done].
  - destruct (eo_placed _ _ _ _ HE n e Hin) as [l Hl]. unfold evictionOrder. rewrite (at_place_Location h i e l Hl).
    cbn [mbind result_bind]. change (block_ref (set_epoch epoch e)) with (block_ref e).
    rewrite (at_place_Location h i e l Hl). cbn [mbind result_bind].
    change (last_access_epoch (set_epoch epoch e), lcm_block_id l, slot_index l) with (order_of (set_epoch epoch e) l).
    change (last_access_epoch e, lcm_block_id l, slot_index l) with (order_of e l).
    eexists. split; [done|]. split; [|split; [done|by apply (set_entry_refs h i g E HE n e)]].
    assert (∀ o m, (o, m) ∈ by_eviction_order E → (o = order_of e l ↔ m = n)) as Hkey.
    { intros o m (em & lm & Hm & Hlm & ->)%(eo_order _ _ _ _ HE). split.
      - intros [= _ Hid Hslot]. apply (place_entry h i g E HE m n em e l); [done|done| |done].
        assert (lm = l) as <-; [|done]. destruct lm, l. cbn in *. congruence.
      - intros ->. rewrite (entry_fun h i g E HE n em e Hm Hin) in *. by rewrite (at_place_fun h i e lm l). }
    assert (order_of (set_epoch epoch e) l ∉ (map_erase (order_of e l) (by_eviction_order E)).*1) as Hfresh.
    { intros ([o m] & Ho & Hom)%list_elem_of_fmap. cbn in Ho. subst o. apply elem_of_map_erase in Hom as [_ Hom].
      apply (eo_order _ _ _ _ HE) in Hom as (em & lm & Hm & Hlm & [= Hep Hid Hslot]).
      assert (m = n) as ->.
      { apply (place_entry h i g E HE m n em e l); [done|done| |done]. assert (lm = l) as <-; [|done].
        destruct lm, l. cbn in *. congruence. }
      apply Hne. by rewrite <- (entry_fun h i g E HE n em e Hm Hin). }
    apply (set_entry_ok h i g E HE n e); [done|done|done|..].
    + apply sorted_map_emplace, sorted_map_erase, HE.
    + intros o m. rewrite elem_of_map_emplace by done. rewrite elem_of_map_erase. cbn. split.
      * intros [[= -> ->]|[Ho Hm]]; [left; split; [done|]; by exists l|]. right. split; [|done].
        rewrite <- (Hkey o m Hm). done.
      * intros [(-> & l' & Hl' & ->)|[Hmn Hm]].
        -- left. by rewrite (at_place_fun h i e l' l).
        -- right. split; [|done]. by rewrite (Hkey o m Hm).
Qed.

Definition rise (kind : CacheBoundaryKind) (e : CacheEntry) : CacheEntry :=
  if kind_less (boundary_kind e) kind then set_kind kind e else e.

Lemma set_entry_twice E n e1 e2 : entries (set_entry n e2 (set_entry n e1 E)) = entries (set_entry n e2 E).
Proof.
  cbn. rewrite <- list_fmap_compose. apply list_fmap_ext. intros j [m em] _. cbn. case_decide; cbn; by case_decide.
Qed.

(** An entry published again: its kind rises, its epoch is the new one. *)
Lemma refresh_spec E n e epoch kind :
  entries_ok h i g E → (n, e) ∈ entries E →
  ∃ E', (E ← raise_kind n kind E; touchEntry n epoch E h) = Ok E' ∧ entries_ok h i g E' ∧
    entry_replaced E n (set_epoch epoch (rise kind e)) E'.
Proof.
  intros HE Hin. unfold raise_kind. rewrite (entry_at_spec h i g E HE n e Hin). cbn [mbind result_bind]. unfold rise.
  destruct (kind_less (boundary_kind e) kind); [|by apply touchEntry_spec].
  assert (entries_ok h i g (set_entry n (set_kind kind e) E)) as HE1 by (by apply (set_mark_ok E n e)).
  assert ((n, set_kind kind e) ∈ entries (set_entry n (set_kind kind e) E)) as Hin1.
  { apply elem_of_set_entry; [|by left]. by apply (list_elem_of_fmap_2 fst _ (n, e)). }
  destruct (touchEntry_spec _ n _ epoch HE1 Hin1) as (E' & Hrun & HE' & Hent & Href). exists E'.
  split; [done|]. split; [done|]. split; [by rewrite Hent, set_entry_twice|].
  by rewrite Href, (set_entry_refs h i g E HE n e).
Qed.

(** A new entry behind the others. *)
Definition with_entry (E : CacheEntries) (e : CacheEntry) (l : CacheBlockLocation) : CacheEntries :=
  mkEntries (entries E ++ [(next_node E, e)]) (S (next_node E)) (<[key e := next_node E]> (by_key E))
    (<[l := next_node E]> (by_location E)) (map_emplace (order_of e l) (next_node E) (by_eviction_order E)).

Lemma with_entry_ok E e l :
  entries_ok h i g E → by_key E !! key e = None → by_location E !! l = None → at_place h i e l → valid_key g (key e) →
  entries_ok h i g (with_entry E e l).
Proof.
  intros HE Hk Hl Hat Hvalid.
  assert (∀ m em, (m, em) ∈ entries E ++ [(next_node E, e)] ↔ (m, em) ∈ entries E ∨ (m = next_node E ∧ em = e)) as Hin.
  { intros m em. rewrite elem_of_app, list_elem_of_singleton. naive_solver. }
  assert (next_node E ∉ (entries E).*1) as Hnew by (intros Hn%(eo_fresh _ _ _ _ HE); lia).
  assert (∀ m em, (m, em) ∈ entries E → m ≠ next_node E) as Hne.
  { intros m em Hm ->. apply Hnew. by apply (list_elem_of_fmap_2 fst _ (next_node E, em)). }
  assert (∀ m em, (m, em) ∈ entries E → at_place h i em l → False) as Hnl.
  { intros m em Hm Hlm. assert (by_location E !! l = Some m); [apply (eo_location _ _ _ _ HE); eauto|congruence]. }
  assert (order_of e l ∉ (by_eviction_order E).*1) as Hno.
  { intros ([o m] & Ho & Hom)%list_elem_of_fmap. cbn in Ho. subst o.
    apply (eo_order _ _ _ _ HE) in Hom as (em & lm & Hm & Hlm & [= _ Hid Hslot]). apply (Hnl m em Hm).
    assert (lm = l) as <-; [|done]. destruct lm, l. cbn in *. congruence. }
  split; cbn [with_entry entries next_node by_key by_location by_eviction_order].
  - rewrite fmap_app. apply NoDup_app. split; [apply HE|]. split; [|apply NoDup_singleton].
    intros m Hm ->%list_elem_of_singleton. done.
  - intros m. rewrite fmap_app, elem_of_app. intros [Hm%(eo_fresh _ _ _ _ HE)|Hm%list_elem_of_singleton]; cbn in *; lia.
  - intros m em [Hm|[-> ->]]%Hin; [by apply (eo_placed _ _ _ _ HE m)|by exists l].
  - intros m em [Hm|[-> ->]]%Hin; [by apply (eo_valid _ _ _ _ HE m)|done].
  - intros k m. rewrite lookup_insert_Some, (eo_key _ _ _ _ HE). setoid_rewrite Hin. split.
    + intros [[<- <-]|[Hk' (em & Hm & <-)]]; [exists e; auto|exists em; auto].
    + intros (em & [Hm|[-> ->]] & <-); [|by left]. right. split; [|by exists em]. intros Heq.
      assert (by_key E !! key em = Some m); [apply (eo_key _ _ _ _ HE); eauto|congruence].
  - intros l' m. rewrite lookup_insert_Some, (eo_location _ _ _ _ HE). setoid_rewrite Hin. split.
    + intros [[<- <-]|[Hl' (em & Hm & Hlm)]]; [exists e; auto|exists em; auto].
    + intros (em & [Hm|[-> ->]] & Hlm); [|left; by rewrite (at_place_fun h i e l' l)]. right. split; [|by exists em].
      intros <-. by apply (Hnl m em).
  - intros o m. rewrite elem_of_map_emplace by done. rewrite (eo_order _ _ _ _ HE). setoid_rewrite Hin. split.
    + intros [[= -> ->]|(em & lm & Hm & Hlm & ->)]; [exists e, l; auto|exists em, lm; auto].
    + intros (em & lm & [Hm|[-> ->]] & Hlm & ->); [right; by exists em, lm|left; by rewrite (at_place_fun h i e lm l)].
  - apply sorted_map_emplace, HE.
Qed.

Lemma with_entry_refs E e l c : block_ref e = Some c → refs (with_entry E e l) = refs E ++ [c].
Proof. intros Hc. unfold refs. cbn. rewrite omap_app. cbn. by rewrite Hc. Qed.

(** An entry leaves. *)
Lemma unlinkEntry_spec E n e c :
  entries_ok h i g E → (n, e) ∈ entries E → block_ref e = Some c →
  ∃ E', unlinkEntry n e E h = Ok E' ∧ entries_ok h i g E' ∧ refs E ≡ₚ c :: refs E' ∧
    entries E' = filter (λ node, node.1 ≠ n) (entries E).
Proof.
  intros HE Hin Hc. destruct (eo_placed _ _ _ _ HE n e Hin) as [l Hl]. unfold unlinkEntry, evictionOrder.
  rewrite (at_place_Location h i e l Hl). cbn [mbind result_bind]. fold (order_of e l).
  eexists. split; [done|].
  assert (∀ m em, (m, em) ∈ filter (λ node, node.1 ≠ n) (entries E) ↔ m ≠ n ∧ (m, em) ∈ entries E) as Hf.
  { intros m em. by rewrite list_elem_of_filter. }
  split; [|split; [|done]].
  - split; cbn [entries next_node by_key by_location by_eviction_order].
    + apply (sublist_NoDup _ (entries E).*1); [apply HE|]. apply fmap_sublist, sublist_filter.
    + intros m ([m' em] & -> & [_ Hm]%list_elem_of_filter)%list_elem_of_fmap. apply (eo_fresh _ _ _ _ HE).
      by apply (list_elem_of_fmap_2 fst _ (m', em)).
    + intros m em [_ Hm]%Hf. by apply (eo_placed _ _ _ _ HE m).
    + intros m em [_ Hm]%Hf. by apply (eo_valid _ _ _ _ HE m).
    + intros k m. rewrite lookup_delete_Some, (eo_key _ _ _ _ HE). setoid_rewrite Hf. split.
      * intros [Hne (em & Hm & <-)]. exists em. split; [|done]. split; [|done]. intros ->. apply Hne.
        by rewrite (entry_fun h i g E HE n em e).
      * intros (em & [Hne Hm] & <-). split; [|by exists em]. intros Hk. apply Hne.
        by apply (key_entry h i g E HE m n em e).
    + intros l' m. rewrite lookup_delete_Some, (eo_location _ _ _ _ HE). setoid_rewrite Hf. split.
      * intros [Hne (em & Hm & Hlm)]. exists em. split; [|done]. split; [|done]. intros ->. apply Hne.
        rewrite (entry_fun h i g E HE n em e) in Hlm by done. by apply (at_place_fun h i e).
      * intros (em & [Hne Hm] & Hlm). split; [|by exists em]. intros <-. apply Hne.
        by apply (place_entry h i g E HE m n em e l).
    + intros o m. rewrite elem_of_map_erase, (eo_order _ _ _ _ HE). cbn. setoid_rewrite Hf. split.
      * intros [Hne (em & lm & Hm & Hlm & ->)]. exists em, lm. split; [|done]. split; [|done]. intros ->. apply Hne.
        rewrite (entry_fun h i g E HE n em e) in * by done. by rewrite (at_place_fun h i e lm l).
      * intros (em & lm & [Hne Hm] & Hlm & ->). split; [|by exists em, lm]. intros [= _ Hid Hslot]. apply Hne.
        apply (place_entry h i g E HE m n em e l); [done|done| |done]. assert (lm = l) as <-; [|done].
        destruct lm, l. cbn in *. congruence.
    + apply sorted_map_erase, HE.
  - unfold refs. cbn. pose proof (eo_nodes _ _ _ _ HE) as Hnd. clear -Hnd Hin Hc.
    induction (entries E) as [|[m em] l IH]; [by apply not_elem_of_nil in Hin|]. rewrite filter_cons. cbn in *.
    apply NoDup_cons in Hnd as [Hm Hnd]. case_decide as Hne.
    + cbn. apply elem_of_cons in Hin as [[= -> ->]|Hin]; [done|].
      destruct (block_ref em); [rewrite (IH Hin Hnd); solve_Permutation|by apply IH].
    + assert (m = n) as -> by (by destruct (decide (m = n)); [|destruct Hne]).
      assert (filter (λ node, node.1 ≠ n) l = l) as ->.
      { clear -Hm. induction l as [|[m em] l IH]; [done|]. cbn in Hm. apply not_elem_of_cons in Hm as [Hne Hm].
        rewrite filter_cons, decide_True by (cbn; congruence). by rewrite IH. }
      apply elem_of_cons in Hin as [[= ->]|Hin]; [by rewrite Hc|]. destruct Hm. by apply (list_elem_of_fmap_2 fst _ (n, e)).
Qed.
End operations.

(** ** The index and its references *)

Definition index_refs (self : PrefixCacheIndex) : list nat :=
  mjoin (refs <$> (map_to_list (cache_entries_by_pool_ self)).*2).

(** The block of a control belongs to group [g]. *)
Definition in_group (h : heap) (g c : nat) : Prop :=
  ∃ i l p, place h c = Some (i, l) ∧ pools h !! i = Some p ∧ live p l = Some g.

Record index_ok (h : heap) (self : PrefixCacheIndex) : Prop := {
  io_entries i E : cache_entries_by_pool_ self !! i = Some E → entries_ok h i (group_id_ self) E;
  io_group c : c ∈ index_refs self → in_group h (group_id_ self) c;
}.

Definition others (i : nat) (self : PrefixCacheIndex) : PrefixCacheIndex :=
  mkIndex (group_id_ self) (delete i (cache_entries_by_pool_ self)).
Definition with_entries (i : nat) (E : CacheEntries) (self : PrefixCacheIndex) : PrefixCacheIndex :=
  mkIndex (group_id_ self) (<[i := E]> (cache_entries_by_pool_ self)).

Lemma index_refs_with i E self : index_refs (with_entries i E self) ≡ₚ refs E ++ index_refs (others i self).
Proof.
  unfold index_refs, with_entries, others. cbn.
  rewrite <- insert_delete_eq, map_to_list_insert by apply lookup_delete_eq. done.
Qed.

Lemma index_refs_at i E self :
  cache_entries_by_pool_ self !! i = Some E → index_refs self ≡ₚ refs E ++ index_refs (others i self).
Proof.
  intros HE. rewrite <- index_refs_with. unfold with_entries. rewrite insert_id by done. by destruct self.
Qed.

Lemma index_refs_none i self :
  cache_entries_by_pool_ self !! i = None → index_refs (others i self) = index_refs self.
Proof. intros Hn. unfold index_refs, others. cbn. by rewrite delete_id. Qed.

Lemma index_refs_default i self :
  index_refs self ≡ₚ refs (default no_entries (findCacheEntries i self)) ++ index_refs (others i self).
Proof.
  unfold findCacheEntries. destruct (cache_entries_by_pool_ self !! i) as [E|] eqn:HE; cbn.
  - by apply index_refs_at.
  - by rewrite (index_refs_none i self HE).
Qed.

Lemma entries_ok_stable h h' i g E :
  entries_ok h i g E → (∀ c, c ∈ refs E → place h' c = place h c) → entries_ok h' i g E.
Proof.
  intros [Hnd Hfresh Hpl Hv Hk Hl Ho Hs] Hsame.
  assert (∀ n e l, (n, e) ∈ entries E → at_place h' i e l ↔ at_place h i e l) as Hat.
  { intros n e l Hin.
    assert (∀ c, block_ref e = Some c → place h' c = place h c) as Hc.
    { intros c Hc. apply Hsame. unfold refs. apply list_elem_of_omap. exists (n, e). by split. }
    split; intros (c & Hr & Hp); exists c; (split; [done|]); [by rewrite <- (Hc c Hr)|by rewrite (Hc c Hr)]. }
  split; try done.
  - intros n e Hin. destruct (Hpl n e Hin) as [l ?]. exists l. by apply (Hat n).
  - intros l n. rewrite Hl. split; intros (e & Hin & ?); exists e; (split; [done|]); by apply (Hat n).
  - intros o n. rewrite Ho. split; intros (e & l & Hin & ? & ?); exists e, l; (split; [done|]); (split; [by apply (Hat n)|done]).
Qed.

(** Every reference the index holds stays where it is. *)
Definition keeps (h h' : heap) (g : nat) (cs : list nat) : Prop :=
  ∀ c, c ∈ cs → place h' c = place h c ∧ (in_group h g c → in_group h' g c).

Lemma index_ok_stable h h' self :
  index_ok h self → keeps h h' (group_id_ self) (index_refs self) → index_ok h' self.
Proof.
  intros [Hent Hgrp] Hkeep. split.
  - intros i E HE. apply (entries_ok_stable h); [by apply Hent|]. intros c Hc. apply Hkeep.
    rewrite (index_refs_at i E self HE). apply elem_of_app. by left.
  - intros c Hc. apply Hkeep; [done|]. by apply Hgrp.
Qed.

Lemma same_places_keeps h h' g cs : same_places h h' → keeps h h' g cs.
Proof.
  intros [Hp Hpl] c _. split; [apply Hpl|]. intros (i & l & p & Hc & Hi & Hl). exists i, l, p. by rewrite Hpl, Hp.
Qed.

Lemma shrinks_keeps h h' held g cs : owned h' held → shrinks h h' → (∀ c, c ∈ cs → c ∈ held) → keeps h h' g cs.
Proof.
  intros How Hsh Hin c Hc. destruct (ow_held _ _ How c (Hin c Hc)) as [k Hk].
  assert (place h' c = Some (pool_ k, location_ k)) as Hpl by (apply place_Some; by exists k).
  pose proof (sh_place _ _ Hsh _ _ _ Hpl) as Hpl0. split; [congruence|].
  intros (i & l & p & Hc' & Hi & Hl). rewrite Hpl0 in Hc'. injection Hc' as <- <-.
  destruct (sh_pool _ _ Hsh _ _ Hi) as (p' & Hp' & _ & _ & Hlive). exists (pool_ k), (location_ k), p'.
  split; [done|]. split; [done|]. destruct (ow_placed _ _ How c k Hk) as (q & Hq & Hne).
  rewrite Hp' in Hq. injection Hq as <-.
  destruct (live p' (location_ k)) as [g'|] eqn:Hg'; [|done]. apply Hlive in Hg'. congruence.
Qed.

Lemma gains_keeps h h' i g' new ls g cs held :
  owned h held → gains h i g' new ls h' → (∀ c, c ∈ cs → c ∈ held) → keeps h h' g cs.
Proof.
  intros How Hga Hin c Hc. destruct (ow_held _ _ How c (Hin c Hc)) as [k Hk].
  assert (place h c = Some (pool_ k, location_ k)) as Hpl by (apply place_Some; by exists k).
  pose proof (ga_old _ _ _ _ _ _ Hga _ _ _ Hpl) as Hpl'. split; [congruence|].
  intros (j & l & p & Hc' & Hj & Hl). rewrite Hpl in Hc'. injection Hc' as <- <-.
  destruct (ga_pool _ _ _ _ _ _ Hga _ _ Hj) as (p' & Hp' & _ & _ & Hlive). exists (pool_ k), (location_ k), p'.
  split; [done|]. split; [done|]. rewrite Hlive, decide_False; [done|]. intros [Hi Hl'].
  rewrite Hi in Hj. rewrite (ga_vacant _ _ _ _ _ _ Hga p _ Hj Hl') in Hl. done.
Qed.


(** ** Running the methods *)

Lemma run_ask {A} (f : heap → PrefixCacheIndex → result A) h self a : f h self = Ok a → ask f (h, self) = (Ok a, (h, self)).
Proof. unfold ask, const. cbn. by intros ->. Qed.

Lemma run_heap {A} (m : M heap A) h h' self a : m h = (Ok a, h') → on_heap m (h, self) = (Ok a, (h', self)).
Proof. unfold on_heap, within. cbn. by intros ->. Qed.

Lemma run_store i E h self : store_entries i E (h, self) = (Ok (), (h, with_entries i E self)).
Proof. done. Qed.

(** Run the first call of a method. *)
Ltac step lem := erewrite run_bind_Ok; [|eapply lem].

(** [e] is the entry of key [k] in pool [i]. *)
Definition caches (self : PrefixCacheIndex) (i : nat) (k : CacheKey) (e : CacheEntry) : Prop :=
  ∃ E n, cache_entries_by_pool_ self !! i = Some E ∧ (n, e) ∈ entries E ∧ key e = k.

Lemma caches_with self i E E' j k e :
  cache_entries_by_pool_ self !! i = Some E →
  caches (with_entries i E' self) j k e ↔
  (j = i ∧ ∃ n, (n, e) ∈ entries E' ∧ key e = k) ∨ (j ≠ i ∧ caches self j k e).
Proof.
  intros HE. unfold caches, with_entries. cbn. destruct (decide (j = i)) as [->|Hne].
  - setoid_rewrite lookup_insert_eq. split; [intros (? & n & [= <-] & ?); eauto|]. intros [(_ & n & ?)|[? _]]; [|done]. eauto.
  - setoid_rewrite lookup_insert_ne; [|done]. split; [eauto|]. intros [[? _]|[_ ?]]; [done|done].
Qed.

Lemma no_entries_ok h i g : entries_ok h i g no_entries.
Proof.
  split; cbn; try done.
  - constructor.
  - intros n ?%not_elem_of_nil. done.
  - intros n e ?%not_elem_of_nil. done.
  - intros n e ?%not_elem_of_nil. done.
  - intros k n. rewrite lookup_empty. split; [done|]. by intros (e & ?%not_elem_of_nil & _).
  - intros l n. rewrite lookup_empty. split; [done|]. by intros (e & ?%not_elem_of_nil & _).
  - intros o n. split; [by intros ?%not_elem_of_nil|]. by intros (e & l & ?%not_elem_of_nil & _).
  - constructor.
Qed.

(** Replacing the entries of a pool by others that hold the same references. *)
Lemma index_ok_with h self i E' :
  index_ok h self → entries_ok h i (group_id_ self) E' →
  (∀ c, c ∈ refs E' → in_group h (group_id_ self) c) → index_ok h (with_entries i E' self).
Proof.
  intros [Hent Hgrp] HE' Hg. split; cbn.
  - intros j E [[-> <-]|[_ HE]]%lookup_insert_Some; [done|by apply Hent].
  - intros c. rewrite index_refs_with, elem_of_app. intros [Hc|Hc]; [by apply Hg|]. apply Hgrp.
    rewrite (index_refs_default i self), elem_of_app. by right.
Qed.

Lemma refs_group h self i E c :
  index_ok h self → cache_entries_by_pool_ self !! i = Some E → c ∈ refs E → in_group h (group_id_ self) c.
Proof. intros Hio HE Hc. apply (io_group _ _ Hio). rewrite (index_refs_at i E self HE), elem_of_app. by left. Qed.

Lemma ref_of_entry E n e c : (n, e) ∈ entries E → block_ref e = Some c → c ∈ refs E.
Proof. intros Hin Hc. unfold refs. apply list_elem_of_omap. exists (n, e). by split. Qed.
