(* ===== verification/PrefixIndexSafety.v ===== *)
(** * What the prefix index promises

    An index is a map from a pool and a key to an entry ([caches]), whose references are
    part of what keeps blocks in use.  [register_exact] says what publishing a block does
    to the map, to the caller's reference and to the counts. *)

From stdpp Require Import gmap strings.
From S2P Require Import Prelude PyState Cxx BlockPool BlockPoolFacts BlockPoolSafety BlockRefs PrefixIndex.
From S2P Require Import PrefixIndexFacts.

Local Open Scope Z_scope.

(** The map of [self'] is that of [self] with [e] under [k] in pool [i]. *)
Definition published (self : PrefixCacheIndex) (i : nat) (k : CacheKey) (e : CacheEntry) (self' : PrefixCacheIndex) : Prop :=
  group_id_ self' = group_id_ self ∧
  ∀ j k' x, caches self' j k' x ↔ (j = i ∧ k' = k ∧ x = e) ∨ (¬ (j = i ∧ k' = k) ∧ caches self j k' x).

Lemma caches_fun h self i k e e' : index_ok h self → caches self i k e → caches self i k e' → e = e'.
Proof.
  intros Hio (E & n & HE & Hin & Hk) (E' & n' & HE' & Hin' & Hk'). rewrite HE in HE'. injection HE' as <-.
  pose proof (io_entries _ _ Hio i E HE) as Hok.
  assert (n = n') as <- by (apply (key_entry _ _ _ _ Hok n n' e e'); congruence). by apply (entry_fun _ _ _ _ Hok n).
Qed.

(** ** One entry changes *)

Section replaced.
Context (h : heap) (self : PrefixCacheIndex) (i : nat) (E : CacheEntries).
Context (Hio : index_ok h self) (HE : cache_entries_by_pool_ self !! i = Some E).

Lemma entries_at_ok : entries_ok h i (group_id_ self) E.
Proof. by apply (io_entries _ _ Hio). Qed.

Lemma replaced_index n e' E' :
  entries_ok h i (group_id_ self) E' → entry_replaced E n e' E' →
  index_ok h (with_entries i E' self) ∧ index_refs (with_entries i E' self) ≡ₚ index_refs self.
Proof.
  intros HE' [_ Hrefs]. split.
  - apply index_ok_with; [done|done|]. rewrite Hrefs. intros c Hc. by eapply refs_group.
  - by rewrite index_refs_with, Hrefs, <- (index_refs_at i E self HE).
Qed.

Lemma replaced_published n e e' E' :
  (n, e) ∈ entries E → key e' = key e → entry_replaced E n e' E' → published self i (key e) e' (with_entries i E' self).
Proof.
  intros Hin Hk [Hent _]. pose proof entries_at_ok as Hok. split; [done|]. intros j k' x. rewrite (caches_with _ _ E) by done.
  assert (n ∈ (entries E).*1) as Hn by (by apply (list_elem_of_fmap_2 fst _ (n, e))).
  rewrite Hent. setoid_rewrite (elem_of_set_entry _ n e' _ _ Hn). split.
  - intros [(-> & m & [[-> ->]|[Hne Hm]] & <-)|[Hne Hc]]; [left; done| |right; tauto].
    right. split; [|by exists E, m]. intros [_ Heq]. apply Hne. by apply (key_entry _ _ _ _ Hok m n x e).
  - intros [(-> & -> & ->)|[Hne Hc]]; [left; split; [done|]; exists n; by auto|].
    destruct (decide (j = i)) as [->|]; [|by right]. left. split; [done|].
    destruct Hc as (E0 & m & HE0 & Hm & <-). rewrite HE in HE0. injection HE0 as <-. exists m. split; [|done]. right.
    split; [|done]. intros ->. apply Hne. by rewrite (entry_fun _ _ _ _ Hok n x e).
Qed.

Lemma refreshEntry_run n e epoch kind :
  (n, e) ∈ entries E →
  ∃ E' self', refreshEntry i n epoch kind E (h, self) = (Ok E', (h, self')) ∧
    index_ok h self' ∧ index_refs self' ≡ₚ index_refs self ∧ cache_entries_by_pool_ self' !! i = Some E' ∧
    (n, set_epoch epoch (rise kind e)) ∈ entries E' ∧ published self i (key e) (set_epoch epoch (rise kind e)) self'.
Proof.
  intros Hin. destruct (refresh_spec _ _ _ E n e epoch kind entries_at_ok Hin) as (E' & Hrun & HE' & Hrep).
  exists E', (with_entries i E' self). destruct (replaced_index n _ E' HE' Hrep) as [Hio' Hrefs].
  split; [|split; [done|split; [done|split; [apply lookup_insert_eq|split]]]].
  - unfold refreshEntry. rewrite (run_bind_Ok _ _ _ _ _ (run_ask _ h self E' Hrun)). done.
  - destruct Hrep as [-> _]. apply elem_of_set_entry; [|by left]. by apply (list_elem_of_fmap_2 fst _ (n, e)).
  - apply (replaced_published n); [done| |done]. unfold rise. by destruct (kind_less _ _).
Qed.

Lemma with_entry_published e l :
  by_key E !! key e = None → published self i (key e) e (with_entries i (with_entry E e l) self).
Proof.
  intros Hk. split; [done|]. intros j k' x. rewrite (caches_with _ _ E) by done. cbn.
  setoid_rewrite elem_of_app. setoid_rewrite list_elem_of_singleton. split.
  - intros [(-> & m & [Hm|[= -> ->]] & <-)|[Hne Hc]]; [|by left|right; tauto]. right. split; [|by exists E, m].
    intros [_ Heq]. assert (by_key E !! key x = Some m); [|congruence]. apply (eo_key _ _ _ _ entries_at_ok). by exists x.
  - intros [(-> & -> & ->)|[Hne Hc]]; [left; split; [done|]; exists (next_node E); by auto|].
    destruct (decide (j = i)) as [->|]; [|by right]. left. split; [done|].
    destruct Hc as (E0 & m & HE0 & Hm & <-). rewrite HE in HE0. injection HE0 as <-. exists m. by auto.
Qed.
End replaced.

(** ** Publishing *)

Lemma index_ok_same h h' self : index_ok h self → same_places h h' → index_ok h' self.
Proof. intros Hio Hs. apply (index_ok_stable h); [done|]. by apply same_places_keeps. Qed.

Lemma index_ok_shrinks h h' self held :
  index_ok h self → owned h' held → shrinks h h' → (∀ c, c ∈ index_refs self → c ∈ held) → index_ok h' self.
Proof. intros Hio How Hsh Hin. apply (index_ok_stable h); [done|]. by eapply shrinks_keeps. Qed.

(** Two controls of one place are one. *)
Lemma same_place_same h held c d i l :
  owned h held → place h c = Some (i, l) → place h d = Some (i, l) → c = d.
Proof.
  intros How (k & Hk & Hi & Hl)%place_Some (k' & Hk' & Hi' & Hl')%place_Some.
  apply (ow_distinct _ _ How c d k k'); congruence.
Qed.

Lemma validateKey_Ok self k : valid_key (group_id_ self) k → validateKey k self = Ok ().
Proof.
  intros [Hg Hne]. unfold validateKey. rewrite Hg. pass_check ltac:(apply Nat.eqb_refl). unfold _assert.
  by rewrite bool_decide_eq_false_2.
Qed.

Lemma findEntry_key_Ok self k E : valid_key (group_id_ self) k → findEntry_key k E self = Ok (by_key E !! k).
Proof. intros Hk. unfold findEntry_key. by rewrite validateKey_Ok. Qed.

Lemma no_key_no_entry h self i E k :
  index_ok h self → cache_entries_by_pool_ self !! i = Some E → by_key E !! k = None → ∀ e, ¬ caches self i k e.
Proof.
  intros Hio HE Hn e (E0 & m & HE0 & Hm & Hx). rewrite HE in HE0. injection HE0 as <-.
  assert (by_key E !! k = Some m); [|congruence]. apply (eo_key _ _ _ _ (io_entries _ _ Hio i E HE)). by exists e.
Qed.

(** What [Register] does with the caller's reference [c], for the vector when [record]. *)
Record registers (h : heap) (self : PrefixCacheIndex) (F : list nat) (i c : nat) (k : CacheKey) (epoch logical : Z)
    (kind : CacheBoundaryKind) (record : bool) (c' : nat) (newly : list (CacheKey * CacheBlockRef)) (h' : heap)
    (self' : PrefixCacheIndex) : Prop := {
  rg_ok : index_ok h' self';
  rg_owned : owned h' (c' :: omap snd newly ++ index_refs self' ++ F);
  rg_cases :
    (∃ e, caches self i k e ∧ block_ref e = Some c' ∧ newly = [] ∧
       published self i k (set_epoch epoch (rise kind e)) self') ∨
    ((∀ e, ¬ caches self i k e) ∧ c' = c ∧ newly = (if record then [(k, Some c)] else []) ∧
       published self i k (mkEntry k (Some c) epoch logical kind false) self');
}.

Section register.
Context (h : heap) (self : PrefixCacheIndex) (F : list nat) (i c : nat) (l : CacheBlockLocation) (E : CacheEntries).
Context (k : CacheKey) (epoch logical : Z) (kind : CacheBoundaryKind) (record : bool).
Context (Hio : index_ok h self) (HE : cache_entries_by_pool_ self !! i = Some E).
Context (How : owned h (c :: index_refs self ++ F)) (Hc : place h c = Some (i, l)).
Context (Hg : in_group h (group_id_ self) c) (Hk : valid_key (group_id_ self) k).
Context (Hroom : Z.of_nat (length (index_refs self ++ F)) + 3 ≤ UINT32_MAX).

Let run := registerIn i (Some c) k epoch logical kind record l E (h, self).

Lemma register_there n e :
  (n, e) ∈ entries E → at_place h i e l →
  (key e ≠ k → run = (Raise (RuntimeError "one cache block location cannot change cache key"), (h, self))) ∧
  (key e = k → ∃ self', run = (Ok (Some c, []), (h, self')) ∧
     registers h self F i c k epoch logical kind record c [] h self').
Proof.
  intros Hin Hat. pose proof (entries_at_ok h self i E Hio HE) as Hok.
  assert (findEntry_location l E = Some n) as Hf by (apply (eo_location _ _ _ _ Hok); by exists e).
  pose proof (run_ask (λ _ _, entry_at n E) h self e (entry_at_spec _ _ _ _ Hok n e Hin)) as Hentry.
  unfold run, registerIn. rewrite Hf, (run_bind_Ok _ _ _ _ _ Hentry). split; intros Hkey.
  - apply run_bind_Raise. unfold ask, const. cbn. by rewrite bool_decide_eq_false_2.
  - rewrite (run_bind_Ok _ _ _ () (h, self)) by (apply run_ask; by rewrite bool_decide_eq_true_2).
    destruct (refreshEntry_run h self i E Hio HE n e epoch kind Hin) as (E' & self' & Hrun & Hio' & Hrefs & _ & _ & Hpub).
    exists self'. rewrite (run_bind_Ok _ _ _ _ _ Hrun). split; [done|]. split; [done|by rewrite Hrefs|].
    left. exists e. rewrite <- Hkey. split; [by exists E, n|]. split; [|done].
    destruct Hat as (d & Hd & Hpd). rewrite Hd. f_equal. by apply (same_place_same _ _ d c i l How).
Qed.

Lemma register_canonical n e :
  by_location E !! l = None → (n, e) ∈ entries E → key e = k →
  ∃ d h' self', run = (Ok (Some d, []), (h', self')) ∧ registers h self F i c k epoch logical kind record d [] h' self'.
Proof.
  intros Hl Hin Hkey. pose proof (entries_at_ok h self i E Hio HE) as Hok.
  assert (by_key E !! k = Some n) as Hn by (apply (eo_key _ _ _ _ Hok); by exists e).
  destruct (eo_placed _ _ _ _ Hok n e Hin) as (ld & d & Hd & Hpd).
  destruct (refreshEntry_run h self i E Hio HE n e epoch kind Hin) as (E' & self' & Hrun & Hio' & Hrefs & HE' & Hin' & Hpub).
  pose proof (entry_at_spec _ _ _ _ (entries_at_ok h self' i E' Hio' HE') n _ Hin') as Hentry.
  assert (d ∈ index_refs self) as Hdin.
  { rewrite (index_refs_at i E self HE), elem_of_app. left. by eapply ref_of_entry. }
  destruct (copy_spec h _ d How) as (h1 & Hcopy & How1 & Hsame); [right; apply elem_of_app; by left|cbn in *; lia|].
  destruct (reset_spec h1 (d :: index_refs self ++ F) c) as (_ & h2 & _ & Hreset & How2 & Hsh & _).
  { by rewrite (Permutation_swap d c). }
  exists d, h2, self'. split.
  - unfold run, registerIn, findEntry_location. rewrite Hl.
    rewrite (run_bind_Ok _ _ _ _ _ (run_ask _ h self _ (findEntry_key_Ok self k E Hk))), Hn.
    rewrite (run_bind_Ok _ _ _ _ _ Hrun), (run_bind_Ok _ _ _ _ _ (run_ask (λ _ _, entry_at n E') h self' _ Hentry)).
    assert (block_ref (set_epoch epoch (rise kind e)) = Some d) as -> by (cbn; unfold rise; by destruct (kind_less _ _)).
    erewrite run_bind_Ok; [done|]. apply run_heap. unfold assign_copy.
    by rewrite (run_bind_Ok _ _ _ _ _ Hcopy), (run_bind_Ok _ _ _ _ _ Hreset).
  - split.
    + apply (index_ok_shrinks h1 h2 self' _ ltac:(by eapply index_ok_same) How2 Hsh). intros x Hx.
      right. apply elem_of_app. left. by rewrite <- Hrefs.
    + cbn. by rewrite Hrefs.
    + left. exists e. rewrite <- Hkey. split; [by exists E, n|done].
Qed.

Lemma register_new :
  by_location E !! l = None → by_key E !! k = None →
  ∃ newly h' self', run = (Ok (Some c, newly), (h', self')) ∧
    registers h self F i c k epoch logical kind record c newly h' self'.
Proof.
  intros Hl Hn. pose proof (entries_at_ok h self i E Hio HE) as Hok. set (e := mkEntry k (Some c) epoch logical kind false).
  destruct (copy_spec h _ c How) as (h1 & Hcopy & How1 & Hsame); [by left|cbn in *; lia|].
  assert (index_ok h1 self) as Hio1 by (by eapply index_ok_same).
  assert (at_place h1 i e l) as Hat by (exists c; by rewrite (proj2 Hsame)).
  set (self' := with_entries i (with_entry E e l) self).
  assert (index_refs self' ≡ₚ c :: index_refs self) as Hrefs.
  { unfold self'. rewrite index_refs_with, (with_entry_refs _ _ _ c), (index_refs_at i E self HE) by done. solve_Permutation. }
  assert (index_ok h1 self') as Hio'.
  { apply index_ok_with; [done|by apply with_entry_ok; [by apply (io_entries _ _ Hio1)|..]|].
    rewrite (with_entry_refs _ _ _ c) by done. intros x [Hx| ->%list_elem_of_singleton]%elem_of_app; [by eapply refs_group|].
    apply (same_places_keeps h h1 _ [c]); [done|by left|done]. }
  assert (published self i k e self') as Hpub by (by eapply with_entry_published).
  assert (owned h1 (c :: index_refs self' ++ F)) as How' by (by rewrite Hrefs).
  unfold run, registerIn, findEntry_location. rewrite Hl.
  rewrite (run_bind_Ok _ _ _ _ _ (run_ask _ h self _ (findEntry_key_Ok self k E Hk))), Hn.
  rewrite (run_bind_Ok _ _ _ () (h1, self')).
  2: { unfold insertEntry. rewrite (run_bind_Ok _ _ _ _ _ (run_heap _ _ _ self _ Hcopy)). fold e.
       erewrite run_bind_Ok; [|apply run_ask; unfold evictionOrder; by rewrite (at_place_Location _ _ _ _ Hat)]. done. }
  destruct record.
  - destruct (copy_spec h1 _ c How') as (h2 & Hcopy2 & How2 & Hsame2); [by left|rewrite Hrefs; cbn in *; lia|].
    exists [(k, Some c)], h2, self'. rewrite (run_bind_Ok _ _ _ _ _ (run_heap _ _ _ self' _ Hcopy2)). split; [done|].
    split; [by eapply index_ok_same|done|]. right. split_and!; try done. by eapply no_key_no_entry.
  - exists [], h1, self'. split; [done|]. split; [done|done|]. right. split_and!; try done. by eapply no_key_no_entry.
Qed.
End register.

(** ** The whole of [Register] *)

Lemma live_BoundGroup p l g : live p l = Some g → BoundGroup (lcm_block_id l) p = Ok (Some g).
Proof.
  intros [_ (q & Hq & Hg)]%live_Some. unfold BoundGroup. rewrite (lcmBlock_Ok _ _ _ Hq). cbn. by rewrite Hg.
Qed.

(** The index once the entries of pool [i] exist. *)
Definition opened (i : nat) (self : PrefixCacheIndex) : PrefixCacheIndex :=
  with_entries i (default no_entries (findCacheEntries i self)) self.

Lemma opened_id i E self : cache_entries_by_pool_ self !! i = Some E → opened i self = self.
Proof. intros HE. unfold opened, findCacheEntries, with_entries. rewrite HE. cbn. rewrite insert_id by done. by destruct self. Qed.

Lemma opened_ok h i self : index_ok h self → index_ok h (opened i self).
Proof.
  intros Hio. apply index_ok_with; [done|..].
  - unfold findCacheEntries. destruct (cache_entries_by_pool_ self !! i) as [E|] eqn:HE; [by apply Hio|apply no_entries_ok].
  - intros c Hc. apply Hio. rewrite (index_refs_default i), elem_of_app. by left.
Qed.

Lemma opened_refs i self : index_refs (opened i self) ≡ₚ index_refs self.
Proof. unfold opened. by rewrite index_refs_with, <- index_refs_default. Qed.

Lemma opened_caches i self j k e : caches (opened i self) j k e ↔ caches self j k e.
Proof.
  destruct (cache_entries_by_pool_ self !! i) as [E|] eqn:HE; [by rewrite (opened_id i E)|].
  unfold opened, findCacheEntries. rewrite HE. cbn. unfold caches, with_entries. cbn.
  split; intros (E & n & HE' & Hin & Hk).
  - apply lookup_insert_Some in HE' as [[_ <-]|[_ HE']]; [by apply not_elem_of_nil in Hin|]. by exists E, n.
  - exists E, n. split; [|done]. rewrite lookup_insert_ne; [done|]. intros <-. congruence.
Qed.

Lemma opened_published i self k e self' : published (opened i self) i k e self' ↔ published self i k e self'.
Proof. unfold published. by setoid_rewrite opened_caches. Qed.

Lemma Register_opens h self i c l k epoch logical kind record :
  place h c = Some (i, l) → in_group h (group_id_ self) c → valid_key (group_id_ self) k →
  Register i (Some c) k epoch logical kind record (h, self) =
  registerIn i (Some c) k epoch logical kind record l (default no_entries (findCacheEntries i self)) (h, opened i self).
Proof.
  intros Hc (i' & l' & p & Hc' & Hp & Hl) Hk. rewrite Hc in Hc'. injection Hc' as <- <-.
  apply place_Some in Hc as (ctl & Hctl & Hi & Hloc). unfold Register.
  rewrite (run_bind_Ok _ _ _ true (h, self)).
  2: { apply run_ask. cbn. rewrite (control_Ok _ _ _ Hctl). cbn. by rewrite Hi, Nat.eqb_refl. }
  rewrite (run_bind_Ok _ _ _ () (h, self)) by (by apply run_ask).
  rewrite (run_bind_Ok _ _ _ l (h, self)).
  2: { apply run_ask. unfold Location. cbn. rewrite (control_Ok _ _ _ Hctl). cbn. by rewrite Hloc. }
  rewrite (run_bind_Ok _ _ _ (Some (group_id_ self)) (h, self)).
  2: { apply run_ask. unfold pool_at. rewrite Hp. cbn. by apply live_BoundGroup. }
  rewrite (run_bind_Ok _ _ _ () (h, self)) by (apply run_ask; by rewrite bool_decide_eq_true_2).
  rewrite (run_bind_Ok _ _ _ () (h, self)) by (apply run_ask; by apply validateKey_Ok).
  by rewrite (run_bind_Ok _ _ _ (default no_entries (findCacheEntries i self)) (h, opened i self)).
Qed.

Section whole.
Context (h : heap) (self : PrefixCacheIndex) (F : list nat) (i c : nat) (l : CacheBlockLocation).
Context (k : CacheKey) (epoch logical : Z) (kind : CacheBoundaryKind) (record : bool).
Context (Hio : index_ok h self) (How : owned h (c :: index_refs self ++ F)) (Hc : place h c = Some (i, l)).
Context (Hg : in_group h (group_id_ self) c) (Hk : valid_key (group_id_ self) k).
Context (Hroom : Z.of_nat (length (index_refs self ++ F)) + 3 ≤ UINT32_MAX).

Let E := default no_entries (findCacheEntries i self).
Let HE : cache_entries_by_pool_ (opened i self) !! i = Some E := lookup_insert_eq _ _ _.
Let Hio1 := opened_ok h i self Hio.
Let Hok := entries_at_ok _ _ _ _ Hio1 HE.

Lemma opened_owned : owned h (c :: index_refs (opened i self) ++ F).
Proof using How. by rewrite opened_refs. Qed.

Lemma opened_room : Z.of_nat (length (index_refs (opened i self) ++ F)) + 3 ≤ UINT32_MAX.
Proof using Hroom. by rewrite opened_refs. Qed.

Lemma opened_registers c' newly h' self' :
  registers h (opened i self) F i c k epoch logical kind record c' newly h' self' →
  registers h self F i c k epoch logical kind record c' newly h' self'.
Proof using.
  intros [? ? Hcases]. split; [done|done|]. setoid_rewrite opened_caches in Hcases.
  by setoid_rewrite opened_published in Hcases.
Qed.

(** The entry that holds the caller's block is the one of its place. *)
Lemma held_entry k' x : caches self i k' x → block_ref x = Some c → ∃ n, (n, x) ∈ entries E ∧ key x = k' ∧ at_place h i x l.
Proof using Hc.
  intros Hx%(opened_caches i) Hxc. destruct Hx as (E0 & n & HE0 & Hn & Hkx). rewrite HE in HE0. injection HE0 as <-.
  exists n. split; [done|]. split; [done|]. by exists c.
Qed.

Lemma Register_conflict k' e :
  caches self i k' e → block_ref e = Some c → k' ≠ k →
  Register i (Some c) k epoch logical kind record (h, self) =
  (Raise (RuntimeError "one cache block location cannot change cache key"), (h, self)).
Proof using Hio How Hc Hg Hk.
  intros He Hec Hne. rewrite (Register_opens h self i c l) by done. fold E. destruct (held_entry k' e He Hec) as (n & Hin & <- & Hat).
  rewrite (proj1 (register_there h (opened i self) F i c l E k epoch logical kind record Hio1 HE opened_owned Hc n e Hin Hat) Hne).
  destruct He as (E0 & _ & HE0 & _). by rewrite (opened_id i E0).
Qed.

Lemma Register_ok :
  (∀ k' e, caches self i k' e → block_ref e = Some c → k' = k) →
  ∃ c' newly h' self',
    Register i (Some c) k epoch logical kind record (h, self) = (Ok (Some c', newly), (h', self')) ∧
    registers h self F i c k epoch logical kind record c' newly h' self'.
Proof using Hio How Hc Hg Hk Hroom.
  intros Hown. rewrite (Register_opens h self i c l) by done. fold E. pose proof opened_room as Hroom1.
  destruct (by_location E !! l) as [n|] eqn:Hl.
  - apply (eo_location _ _ _ _ Hok) in Hl as (e & Hin & Hat).
    destruct (proj2 (register_there h (opened i self) F i c l E k epoch logical kind record Hio1 HE opened_owned Hc n e Hin Hat))
      as (self' & Hrun & Hreg%opened_registers); [|by exists c, [], h, self'].
    apply (Hown (key e) e); [apply (opened_caches i); by exists E, n|]. destruct Hat as (d & Hd & Hpd). rewrite Hd. f_equal.
    by apply (same_place_same _ _ d c i l How).
  - destruct (by_key E !! k) as [n|] eqn:Hn.
    + apply (eo_key _ _ _ _ Hok) in Hn as (e & Hin & Hkey).
      destruct (register_canonical h (opened i self) F i c l E k epoch logical kind record Hio1 HE opened_owned Hk Hroom1 n e Hl Hin Hkey)
        as (d & h' & self' & Hrun & Hreg%opened_registers). by exists d, [], h', self'.
    + destruct (register_new h (opened i self) F i c l E k epoch logical kind record Hio1 HE opened_owned Hc Hg Hk Hroom1 Hl Hn)
        as (newly & h' & self' & Hrun & Hreg%opened_registers). by exists c, newly, h', self'.
Qed.

(** Whether the index holds the block under another key. *)
Lemma held_elsewhere :
  (∃ k' e, caches self i k' e ∧ block_ref e = Some c ∧ k' ≠ k) ∨ (∀ k' e, caches self i k' e → block_ref e = Some c → k' = k).
Proof using Hio Hc.
  destruct (by_location E !! l) as [n|] eqn:Hl.
  - apply (eo_location _ _ _ _ Hok) in Hl as (e & Hin & Hat). destruct (decide (key e = k)) as [Hkey|Hkey].
    + right. intros k' x Hx Hxc. destruct (held_entry k' x Hx Hxc) as (m & Hm & <- & Hxl).
      assert (m = n) as -> by (by apply (place_entry _ _ _ _ Hok m n x e l)). by rewrite (entry_fun _ _ _ _ Hok n x e).
    + destruct (decide (block_ref e = Some c)) as [Hec|Hec].
      * left. exists (key e), e. split; [apply (opened_caches i); by exists E, n|done].
      * right. intros k' x Hx Hxc. destruct (held_entry k' x Hx Hxc) as (m & Hm & <- & Hxl). destruct Hec.
        assert (m = n) as -> by (by apply (place_entry _ _ _ _ Hok m n x e l)). by rewrite <- (entry_fun _ _ _ _ Hok n x e).
  - right. intros k' x Hx Hxc. destruct (held_entry k' x Hx Hxc) as (m & Hm & _ & Hxl).
    assert (by_location E !! l = Some m); [apply (eo_location _ _ _ _ Hok); by exists x|congruence].
Qed.
End whole.

(** C10: Publishing is exact.  The caller's block, live and of the group, is published under
    a valid key.  When the index holds it under another key, nothing changes and the
    call throws.  Otherwise it returns: when the key was cached, the caller's reference
    now refers to the canonical block, whose entry is of the new epoch and whose kind has
    not fallen; else the block is canonical under a new entry, and is recorded when asked.
    Every other entry is as before, the index stays consistent with the heap, and the
    references counted are the caller's, the recorded one, those of the index and those
    of everyone else. *)
Theorem register_exact h self F i c l k epoch logical kind record :
  index_ok h self → owned h (c :: index_refs self ++ F) →
  place h c = Some (i, l) → in_group h (group_id_ self) c → valid_key (group_id_ self) k →
  Z.of_nat (length (index_refs self ++ F)) + 3 ≤ UINT32_MAX →
  (∃ k' e, caches self i k' e ∧ block_ref e = Some c ∧ k' ≠ k ∧
     Register i (Some c) k epoch logical kind record (h, self) =
     (Raise (RuntimeError "one cache block location cannot change cache key"), (h, self))) ∨
  ((∀ k' e, caches self i k' e → block_ref e = Some c → k' = k) ∧
   ∃ c' newly h' self',
     Register i (Some c) k epoch logical kind record (h, self) = (Ok (Some c', newly), (h', self')) ∧
     registers h self F i c k epoch logical kind record c' newly h' self').
Proof.
  intros Hio How Hc Hg Hk Hroom. destruct (held_elsewhere h self i c l k Hio Hc) as [(k' & e & He & Hec & Hne)|Hown].
  - left. exists k', e. split_and!; try done. by eapply Register_conflict.
  - right. split; [done|]. by apply (Register_ok h self F i c l).
Qed.

Lemma index_ok_new h g : index_ok h (PrefixCacheIndex_new g).
Proof.
  split; cbn.
  - intros i E. by rewrite lookup_empty.
  - intros c. unfold index_refs. cbn. rewrite map_to_list_empty. by intros ?%not_elem_of_nil.
Qed.

(** Two blocks of one parent, computed under the same key one after the other. *)
Definition two_blocks : heap :=
  mkHeap [mkPool [mkLcmBlock (Some 0%nat) [true; true] 2 [2]] [] [mkGroup 2 [0] [[]]]]
    [Some (mkControl 0 (mkLocation 1 0) 1); Some (mkControl 0 (mkLocation 1 1) 1)].
Definition a_key : CacheKey := mkKey 0 0 "ab" 0.
Definition publish_first := Register 0 (Some 0%nat) a_key 1 0 kChunk true (two_blocks, PrefixCacheIndex_new 0).
Definition publish_second := Register 0 (Some 1%nat) a_key 2 0 kEndpoint true publish_first.2.

Lemma two_blocks_owned : owned two_blocks [0%nat; 1%nat].
Proof.
  assert (runs (two_blocks, [Some 0%nat; Some 1%nat])) as Hruns; [|exact (proj1 (runs_ok _ Hruns))].
  eapply (runs_exec _ (AcquireInto 1 0 0)).
  - eapply (runs_exec _ (AcquireInto 0 0 0)).
    + apply (runs_start [mkPool [empty_block] [1] [mkGroup 2 [] []]] 2); [|unfold UINT32_MAX; lia].
      constructor; [|constructor]. exists 1, [2]. reflexivity.
    + split; [cbn; lia|]. eexists. split; [reflexivity|cbn; lia].
    + vm_compute. reflexivity.
  - split; [cbn; lia|]. eexists. split; [vm_compute; reflexivity|cbn; lia].
  - vm_compute. reflexivity.
Qed.

Lemma two_blocks_first :
  index_ok publish_first.2.1 publish_first.2.2 ∧ owned publish_first.2.1 [0; 0; 0; 1]%nat.
Proof.
  destruct (Register_ok two_blocks (PrefixCacheIndex_new 0) [1%nat] 0 0 (mkLocation 1 0) a_key 1 0 kChunk true)
    as (c' & newly & h' & self' & Hrun & [Hok How Hcases]).
  - apply index_ok_new.
  - exact two_blocks_owned.
  - reflexivity.
  - exists 0%nat, (mkLocation 1 0). eexists. split; [reflexivity|]. split; reflexivity.
  - split; [reflexivity|done].
  - vm_compute. done.
  - intros k' e (E & n & HE & _). vm_compute in HE. discriminate HE.
  - change (Register 0 (Some 0%nat) a_key 1 0 kChunk true (two_blocks, PrefixCacheIndex_new 0)) with publish_first in Hrun.
    pose proof (f_equal fst Hrun) as Hans. vm_compute in Hans. injection Hans as <- <-.
    assert (h' = publish_first.2.1) as -> by (by rewrite Hrun). assert (self' = publish_first.2.2) as -> by (by rewrite Hrun).
    split; [exact Hok|]. exact How.
Qed.

Lemma register_exact_witness :
  publish_second.1 = Ok (Some 0%nat, []) ∧ index_ok publish_second.2.1 publish_second.2.2 ∧
  owned publish_second.2.1 [0; 0; 0; 0]%nat.
Proof.
  destruct two_blocks_first as [Hok How].
  destruct (register_exact publish_first.2.1 publish_first.2.2 [0%nat; 0%nat] 0 1 (mkLocation 1 1) a_key 2 0 kEndpoint true)
    as [(k' & e & (E & n & HE & Hin & Hk) & Hr & _)|[_ (c' & newly & h' & self' & Hrun & [Hok' How' _])]].
  - exact Hok.
  - assert (index_refs publish_first.2.2 = [0%nat]) as -> by reflexivity. cbn [app]. revert How. apply owned_proper. solve_Permutation.
  - reflexivity.
  - exists 0%nat, (mkLocation 1 1). eexists. split; [reflexivity|]. split; reflexivity.
  - split; [reflexivity|done].
  - vm_compute. done.
  - vm_compute in HE. injection HE as <-. apply list_elem_of_singleton in Hin. injection Hin as -> ->. discriminate Hr.
  - change (Register 0 (Some 1%nat) a_key 2 0 kEndpoint true (publish_first.2.1, publish_first.2.2)) with publish_second in Hrun.
    pose proof (f_equal fst Hrun) as Hans. vm_compute in Hans. injection Hans as <- <-.
    assert (h' = publish_second.2.1) as -> by (by rewrite Hrun). assert (self' = publish_second.2.2) as -> by (by rewrite Hrun).
    split; [by rewrite Hrun|]. split; [exact Hok'|]. exact How'.
Defined.

(** ** Eviction *)

(** The map of [self'] is that of [self] without [k] in pool [i]. *)
Definition removed (self : PrefixCacheIndex) (i : nat) (k : CacheKey) (self' : PrefixCacheIndex) : Prop :=
  group_id_ self' = group_id_ self ∧
  ∀ j k' x, caches self' j k' x ↔ ¬ (j = i ∧ k' = k) ∧ caches self j k' x.

Section evict.
Context (h : heap) (self : PrefixCacheIndex) (F : list nat) (i : nat) (l : CacheBlockLocation).
Context (Hio : index_ok h self) (How : owned h (index_refs self ++ F)).

(** [e] is the entry of pool [i] whose block [c] is at [l]. *)
Definition cached_at (e : CacheEntry) (c : nat) : Prop :=
  caches self i (key e) e ∧ block_ref e = Some c ∧ place h c = Some (i, l).

Lemma index_ref_held e c : cached_at e c → c ∈ index_refs self.
Proof.
  intros ((E & n & HE & Hin & _) & Hc & _). rewrite (index_refs_at i E self HE), elem_of_app. left. by eapply ref_of_entry.
Qed.

Lemma unique_uses c : c ∈ index_refs self → unique (Some c) h = Ok (uses c (index_refs self ++ F) =? 1).
Proof.
  intros Hin. destruct (ow_held _ _ How c) as [k Hk]; [apply elem_of_app; by left|].
  unfold unique. cbn. rewrite (control_Ok _ _ _ Hk). cbn. f_equal. by rewrite (proj1 (ow_count _ _ How c k Hk)).
Qed.

Lemma removed_with E n e E' :
  cache_entries_by_pool_ self !! i = Some E → (n, e) ∈ entries E →
  entries E' = filter (λ node, node.1 ≠ n) (entries E) → removed self i (key e) (with_entries i E' self).
Proof.
  intros HE Hin Hent. pose proof (io_entries _ _ Hio i E HE) as Hok. split; [done|]. intros j k' x.
  rewrite (caches_with _ _ E) by done. rewrite Hent. setoid_rewrite list_elem_of_filter. cbn. split.
  - intros [(-> & m & [Hne Hm] & <-)|[Hne Hc]]; [|split; [tauto|done]]. split; [|by exists E, m].
    intros [_ Heq]. apply Hne. by apply (key_entry _ _ _ _ Hok m n x e).
  - intros [Hne Hc]. destruct (decide (j = i)) as [->|]; [|by right]. left. split; [done|].
    destruct Hc as (E0 & m & HE0 & Hm & <-). rewrite HE in HE0. injection HE0 as <-. exists m. split; [|done]. split; [|done].
    intros ->. apply Hne. by rewrite (entry_fun _ _ _ _ Hok n x e).
Qed.

Lemma find_cached E n :
  cache_entries_by_pool_ self !! i = Some E → by_location E !! l = Some n →
  ∃ e c, (n, e) ∈ entries E ∧ cached_at e c ∧ entry_at n E = Ok e.
Proof.
  intros HE Hn. pose proof (io_entries _ _ Hio i E HE) as Hok.
  apply (eo_location _ _ _ _ Hok) in Hn as (e & Hin & c & Hc & Hp). exists e, c. split; [done|].
  split; [|by eapply entry_at_spec]. split; [by exists E, n|done].
Qed.

Lemma cached_found E e c :
  cache_entries_by_pool_ self !! i = Some E → cached_at e c → ∃ n, by_location E !! l = Some n ∧ entry_at n E = Ok e.
Proof.
  intros HE ((E0 & n & HE0 & Hin & _) & Hc & Hp). rewrite HE in HE0. injection HE0 as <-.
  pose proof (io_entries _ _ Hio i E HE) as Hok. exists n. split; [|by eapply entry_at_spec].
  apply (eo_location _ _ _ _ Hok). exists e. split; [done|]. by exists c.
Qed.

Lemma evict_absent : (∀ e c, ¬ cached_at e c) → Evict i l (h, self) = (Ok None, (h, self)).
Proof.
  intros Hnone. unfold Evict. rewrite (run_bind_Ok _ _ _ (findCacheEntries i self) (h, self)) by (by apply run_ask).
  unfold findCacheEntries, findEntry_location. destruct (cache_entries_by_pool_ self !! i) as [E|] eqn:HE; [|done].
  destruct (by_location E !! l) as [n|] eqn:Hn; [|done].
  destruct (find_cached E n HE Hn) as (e & c & _ & Hat & _). by destruct (Hnone e c).
Qed.

Lemma evict_pinned e c :
  cached_at e c → uses c (index_refs self ++ F) ≠ 1 → Evict i l (h, self) = (Ok None, (h, self)).
Proof.
  intros Hat Hpin. unfold Evict. rewrite (run_bind_Ok _ _ _ (findCacheEntries i self) (h, self)) by (by apply run_ask).
  unfold findCacheEntries, findEntry_location. destruct (cache_entries_by_pool_ self !! i) as [E|] eqn:HE; [|done].
  destruct (cached_found E e c HE Hat) as (n & -> & Hentry).
  rewrite (run_bind_Ok _ _ _ _ _ (run_ask (λ _ _, entry_at n E) h self _ Hentry)), (proj1 (proj2 Hat)).
  rewrite (run_bind_Ok _ _ _ _ _ (run_ask _ h self _ (unique_uses c (index_ref_held e c Hat)))).
  by rewrite (proj2 (Z.eqb_neq _ _)).
Qed.

Lemma evict_free e c :
  cached_at e c → uses c (index_refs self ++ F) = 1 →
  ∃ h' self', Evict i l (h, self) = (Ok (Some (key e)), (h', self')) ∧
    index_ok h' self' ∧ index_refs self ≡ₚ c :: index_refs self' ∧ owned h' (index_refs self' ++ F) ∧
    shrinks h h' ∧ removed self i (key e) self'.
Proof.
  intros Hat Hone. pose proof Hat as ((E & n & HE & Hin & _) & Hc & Hp). pose proof (io_entries _ _ Hio i E HE) as Hok.
  destruct (cached_found E e c HE Hat) as (m & Hm & Hentry).
  assert (m = n) as ->.
  { apply (eo_location _ _ _ _ Hok) in Hm as (e' & Hin' & Hat').
    apply (place_entry _ _ _ _ Hok m n e' e l); [done|done|done|]. by exists c. }
  destruct (unlinkEntry_spec h i _ E n e c Hok Hin Hc) as (E' & Hunlink & Hok' & Hrefs & Hent).
  set (self' := with_entries i E' self).
  assert (index_refs self ≡ₚ c :: index_refs self') as Hperm.
  { unfold self'. by rewrite (index_refs_at i E self HE), Hrefs, index_refs_with. }
  destruct (reset_spec h (index_refs self' ++ F) c) as (_ & h' & _ & Hreset & How' & Hsh & _); [by rewrite Hperm in How|].
  assert (index_ok h self') as Hio'.
  { apply index_ok_with; [done|done|]. intros d Hd. apply (refs_group h self i E); [done|done|]. rewrite Hrefs. by right. }
  exists h', self'. split_and!; try done.
  - unfold Evict. rewrite (run_bind_Ok _ _ _ (Some E) (h, self)) by (apply run_ask; unfold findCacheEntries; by rewrite HE).
    unfold findEntry_location. rewrite Hm.
    rewrite (run_bind_Ok _ _ _ _ _ (run_ask (λ _ _, entry_at n E) h self _ Hentry)), Hc.
    rewrite (run_bind_Ok _ _ _ _ _ (run_ask _ h self _ (unique_uses c (index_ref_held e c Hat)))), Hone. cbn [Z.eqb Pos.eqb].
    rewrite (run_bind_Ok _ _ _ _ _ (run_ask _ h self _ Hunlink)), (run_bind_Ok _ _ _ _ _ (run_store i E' h self)).
    by rewrite (run_bind_Ok _ _ _ _ _ (run_heap _ _ _ _ _ Hreset)).
  - apply (index_ok_shrinks h h' self' _ Hio' How' Hsh). intros d Hd. apply elem_of_app. by left.
  - by eapply removed_with.
Qed.
End evict.

(** The block of an evicted location is free again. *)
Lemma evicted_free h h' held held' c i l p :
  owned h held → held ≡ₚ c :: held' → uses c held = 1 → place h c = Some (i, l) →
  owned h' held' → shrinks h h' → pools h' !! i = Some p → live p l = None.
Proof.
  intros How Hperm Hone Hc How' Hsh Hp. destruct (live p l) as [g|] eqn:Hl; [|done]. exfalso.
  destruct (proj1 (live_held h' held' i p l How' Hp)) as (d & Hd & Hpd); [congruence|].
  apply (sh_place _ _ Hsh) in Hpd. rewrite (same_place_same h held d c i l How Hpd Hc) in Hd.
  rewrite Hperm, uses_cons, decide_True in Hone by done. apply uses_pos in Hd. lia.
Qed.

(** C11: Evicting is exact: an entry goes exactly when no one but the index holds its block,
    its block is then free in the pool, every other entry stays, and the answer is its key. *)
Theorem evict_exact h self F i l :
  index_ok h self → owned h (index_refs self ++ F) →
  (∃ e c h' self', cached_at h self i l e c ∧ uses c (index_refs self ++ F) = 1 ∧
     Evict i l (h, self) = (Ok (Some (key e)), (h', self')) ∧
     index_ok h' self' ∧ owned h' (index_refs self' ++ F) ∧ removed self i (key e) self' ∧
     ∀ p, pools h' !! i = Some p → live p l = None) ∨
  ((∀ e c, cached_at h self i l e c → 1 < uses c (index_refs self ++ F)) ∧
   Evict i l (h, self) = (Ok None, (h, self))).
Proof.
  intros Hio How.
  assert ((∃ e c, cached_at h self i l e c) ∨ ∀ e c, ¬ cached_at h self i l e c) as [(e & c & Hat)|Hnone].
  { destruct (cache_entries_by_pool_ self !! i) as [E|] eqn:HE.
    - destruct (by_location E !! l) as [n|] eqn:Hn.
      + destruct (find_cached h self i l Hio E n HE Hn) as (e & c & _ & Hat & _). left. by exists e, c.
      + right. intros e c Hat. destruct (cached_found h self i l Hio E e c HE Hat) as (n & Hn' & _). congruence.
    - right. intros e c ((E & n & HE' & _) & _). congruence. }
  - destruct (decide (uses c (index_refs self ++ F) = 1)) as [Hone|Hpin].
    + left. destruct (evict_free h self F i l Hio How e c Hat Hone) as (h' & self' & Hrun & Hio' & Hperm & How' & Hsh & Hrem).
      exists e, c, h', self'. split_and!; try done. intros p Hp.
      apply (evicted_free h h' (index_refs self ++ F) (index_refs self' ++ F) c i l); try done; [by rewrite Hperm|apply Hat].
    + right. split; [|by eapply evict_pinned]. intros e' c' Hat'.
      assert (c' = c) as -> by (apply (same_place_same _ _ _ _ i l How); [apply Hat'|apply Hat]).
      assert (0 < uses c (index_refs self ++ F)); [|lia]. apply uses_pos, elem_of_app. left. by eapply index_ref_held.
  - right. split; [|by eapply evict_absent]. intros e c Hat. by destruct (Hnone e c).
Qed.

(** ** Evicting many *)

(** The loop of [ClearCache] over the locations of one group. *)
Fixpoint evict_locations (i : nat) (ls : list CacheBlockLocation) : M state () :=
  match ls with
  | [] => mret ()
  | l :: ls =>
      answer ← Evict i l;
      ask (λ _ _, _assert (bool_decide (is_Some answer)) "clearable Host cache entry disappeared") ;;
      evict_locations i ls
  end.

Lemma evict_others h h' self self' F i e c l l2 e2 c2 :
  index_ok h self → owned h (index_refs self ++ F) → owned h' (index_refs self' ++ F) → shrinks h h' →
  removed self i (key e) self' → index_refs self ≡ₚ c :: index_refs self' → cached_at h self i l e c →
  l2 ≠ l → cached_at h self i l2 e2 c2 →
  cached_at h' self' i l2 e2 c2 ∧ uses c2 (index_refs self' ++ F) = uses c2 (index_refs self ++ F).
Proof.
  intros Hio How How' Hsh [_ Hrem] Hperm (Hce & Hc & Hpl) Hne (Hce2 & Hc2 & Hpl2).
  assert (c ≠ c2) as Hcc by congruence.
  assert (caches self' i (key e2) e2) as Hin.
  { apply Hrem. split; [|done]. intros [_ Hk]. rewrite Hk in Hce2.
    assert (e2 = e) by (by eapply caches_fun). congruence. }
  split.
  - split; [done|]. split; [done|]. destruct Hin as (E & n & HE & Hin & _).
    destruct (ow_held _ _ How' c2) as [ctl Hctl].
    { rewrite (index_refs_at i E self' HE), !elem_of_app. do 2 left. by eapply ref_of_entry. }
    assert (place h' c2 = Some (pool_ ctl, location_ ctl)) as Hpl' by (apply place_Some; by exists ctl).
    rewrite Hpl'. by rewrite <- (sh_place _ _ Hsh _ _ _ Hpl').
  - rewrite Hperm. cbn [app]. rewrite uses_cons, decide_False by done. lia.
Qed.

Record evicts (h : heap) (self : PrefixCacheIndex) (F : list nat) (i : nat) (ls : list CacheBlockLocation) (h' : heap)
    (self' : PrefixCacheIndex) : Prop := {
  ev_ok : index_ok h' self';
  ev_group : group_id_ self' = group_id_ self;
  ev_owned : owned h' (index_refs self' ++ F);
  ev_shrinks : shrinks h h';
  ev_free l p : l ∈ ls → pools h' !! i = Some p → live p l = None;
  ev_caches j k x : caches self' j k x ↔ caches self j k x ∧ ¬ (j = i ∧ ∃ l, l ∈ ls ∧ at_place h i x l);
}.

Lemma evict_locations_spec ls h self F i :
  index_ok h self → owned h (index_refs self ++ F) → NoDup ls →
  (∀ l, l ∈ ls → ∃ e c, cached_at h self i l e c ∧ uses c (index_refs self ++ F) = 1) →
  ∃ h' self', evict_locations i ls (h, self) = (Ok (), (h', self')) ∧ evicts h self F i ls h' self'.
Proof.
  revert h self. induction ls as [|l ls IH]; intros h self Hio How Hnd Hall.
  - exists h, self. split; [done|]. split; try done; [by intros l p ?%not_elem_of_nil|]. intros j k x. split; [|by intros []].
    intros Hx. split; [done|]. by intros (_ & l & ?%not_elem_of_nil & _).
  - apply NoDup_cons in Hnd as [Hnin Hnd]. destruct (Hall l) as (e & c & Hat & Hone); [by left|].
    destruct (evict_free h self F i l Hio How e c Hat Hone) as (h1 & self1 & Hrun & Hio1 & Hperm & How1 & Hsh & Hrem).
    assert (∀ l2 e2 c2, l2 ≠ l → cached_at h self i l2 e2 c2 → cached_at h1 self1 i l2 e2 c2 ∧
      uses c2 (index_refs self1 ++ F) = uses c2 (index_refs self ++ F)) as Hoth.
    { intros l2 e2 c2 Hne Hat2. by apply (evict_others h h1 self self1 F i e c l). }
    destruct (IH h1 self1 Hio1 How1 Hnd) as (h' & self' & Hrun' & [Hio' Hg' How' Hsh' Hfree' Hc']).
    { intros l2 Hin2. destruct (Hall l2) as (e2 & c2 & Hat2 & Hone2); [by right|]. exists e2, c2.
      destruct (Hoth l2 e2 c2) as [? ->]; [by intros ->|done|done]. }
    exists h', self'. split.
    { cbn [evict_locations]. rewrite (run_bind_Ok _ _ _ _ _ Hrun). by rewrite (run_bind_Ok _ _ _ () (h1, self1)). }
    destruct Hrem as [Hg1 Hrem]. split; [done|congruence|done|by etrans|..].
    + intros l2 p [->|Hin2]%elem_of_cons Hp; [|by eapply Hfree'].
      destruct (lookup_lt_is_Some_2 (pools h1) i) as [p1 Hp1].
      { rewrite <- (sh_pools _ _ Hsh'). by eapply lookup_lt_Some. }
      destruct (sh_pool _ _ Hsh' i p1 Hp1) as (p' & Hp' & _ & _ & Hlive). assert (p' = p) as -> by congruence.
      assert (live p1 l = None) as Hl1.
      { apply (evicted_free h h1 (index_refs self ++ F) (index_refs self1 ++ F) c i l); try done; [by rewrite Hperm|apply Hat]. }
      destruct (live p l) as [g|] eqn:Hl; [|done]. apply Hlive in Hl. congruence.
    + intros j k x. rewrite Hc', Hrem. split.
      * intros [[Hne Hx] Hno]. split; [done|]. intros (-> & l2 & [->|Hin2]%elem_of_cons & Hxl).
        -- apply Hne. split; [done|]. destruct Hxl as (d & Hd & Hpd). destruct Hx as (E & n & HE & Hin & <-).
           destruct Hat as ((E0 & n0 & HE0 & Hin0 & _) & Hr & Hpl). rewrite HE in HE0. injection HE0 as <-.
           pose proof (io_entries _ _ Hio i E HE) as Hok.
           assert (n = n0) as -> by (apply (place_entry _ _ _ _ Hok n n0 x e l); [done|done|by exists d|by exists c]).
           by rewrite (entry_fun _ _ _ _ Hok n0 x e).
        -- apply Hno. split; [done|]. exists l2. split; [done|]. destruct Hxl as (d & Hd & Hpd).
           destruct (Hoth l2 x d) as [(_ & _ & Hpd1) _]; [by intros ->| |by exists d].
           split; [|done]. destruct Hx as (E & n & HE & Hin & <-). by exists E, n.
      * intros [Hx Hno]. split; [split; [|done]|].
        -- intros [-> ->]. apply Hno. split; [done|]. exists l. split; [by left|].
           rewrite (caches_fun h self i (key e) x e Hio Hx (proj1 Hat)). exists c. apply Hat.
        -- intros (-> & l2 & Hin2 & d & Hd & Hpd). apply Hno. split; [done|]. exists l2. split; [by right|].
           exists d. split; [done|]. by apply (sh_place _ _ Hsh).
Qed.
