(* ===== verification/PrefixEviction.v ===== *)
(** * The order of eviction

    [NextEvictionEpoch] walks an index epoch by epoch, oldest first, and yields the
    entries no one else holds; [ParentIsFullyEvictable] tells when evicting a whole
    parent loses only cache; [ClearCache] empties an index. *)

From stdpp Require Import gmap strings.
From S2P Require Import Prelude PyState Cxx BlockPool BlockPoolFacts BlockPoolSafety BlockRefs PrefixIndex.
From S2P Require Import PrefixIndexFacts PrefixIndexSafety.

Local Open Scope Z_scope.

(** The loop of admission: epochs until none is left; [None] when it did not end
    within [fuel] calls. *)
Fixpoint eviction_rounds (fuel : nat) (i : nat) (cursor : option (list (EvictionOrder * nat))) (h : heap)
    (self : PrefixCacheIndex) : result (option (list (list EvictionCandidate))) :=
  match fuel with
  | O => Ok None
  | S fuel =>
      '(more, cursor, found) ← NextEvictionEpoch i cursor h self;
      if (more : bool) then
        rounds ← eviction_rounds fuel i cursor h self;
        Ok (option_map (cons found) rounds)
      else Ok (Some [])
  end.

(** [x] names an entry of pool [i] whose block only the index holds. *)
Definition spare (h : heap) (self : PrefixCacheIndex) (F : list nat) (i : nat) (x : EvictionCandidate) : Prop :=
  ∃ e c, cached_at h self i (candidate_location x) e c ∧ uses c (index_refs self ++ F) = 1 ∧ metadata x = metadataOf e.

Definition epoch_of (x : EvictionCandidate) : Z := meta_epoch (metadata x).

Section order.
Context (h : heap) (self : PrefixCacheIndex) (F : list nat) (i : nat) (E : CacheEntries).
Context (Hio : index_ok h self) (How : owned h (index_refs self ++ F)).
Context (HE : cache_entries_by_pool_ self !! i = Some E).

(** What the walk finds at an entry. *)
Definition found_at (n : nat) : list EvictionCandidate :=
  match entry_at n E with
  | Ok e => match candidate e h with Ok found => found | Raise _ => [] end
  | Raise _ => []
  end.

Definition found_in (order : list (EvictionOrder * nat)) : list EvictionCandidate := mjoin (found_at <$> order.*2).

Lemma candidate_spec n e :
  (n, e) ∈ entries E →
  entry_at n E = Ok e ∧ candidate e h = Ok (found_at n) ∧
  ∃ c l, block_ref e = Some c ∧ place h c = Some (i, l) ∧
    found_at n = if uses c (index_refs self ++ F) =? 1 then [mkCandidate l (metadataOf e)] else [].
Proof.
  intros Hin. pose proof (io_entries _ _ Hio i E HE) as Hok. pose proof (entry_at_spec _ _ _ _ Hok n e Hin) as Hentry.
  destruct (eo_placed _ _ _ _ Hok n e Hin) as (l & c & Hc & Hl).
  assert (c ∈ index_refs self) as Hheld.
  { apply (index_ref_held h self i l e c). split; [by exists E, n|done]. }
  assert (candidate e h = Ok (if uses c (index_refs self ++ F) =? 1 then [mkCandidate l (metadataOf e)] else [])) as Hcand.
  { unfold candidate. rewrite Hc, (unique_uses h self F How c Hheld). cbn [mbind result_bind].
    rewrite <- Hc, (at_place_Location h i e l) by (by exists c). by destruct (_ =? 1). }
  unfold found_at. rewrite Hentry, Hcand. split; [done|]. split; [done|]. by exists c, l.
Qed.

Lemma found_spare n x : x ∈ found_at n → n ∈ (entries E).*1 → spare h self F i x.
Proof.
  intros Hx ([n' e] & -> & Hin)%list_elem_of_fmap. cbn in *. destruct (candidate_spec n' e Hin) as (_ & _ & c & l & Hc & Hl & Hf).
  rewrite Hf in Hx. destruct (Z.eqb_spec (uses c (index_refs self ++ F)) 1) as [Hone|]; [|by apply not_elem_of_nil in Hx].
  apply list_elem_of_singleton in Hx as ->. exists e, c. split; [|done]. split; [by exists E, n'|done].
Qed.

Lemma spare_found x : spare h self F i x → ∃ n e, (n, e) ∈ entries E ∧ x ∈ found_at n.
Proof.
  intros (e & c & ((E0 & n & HE0 & Hin & _) & Hc & Hl) & Hone & Hm). rewrite HE in HE0. injection HE0 as <-. exists n, e.
  split; [done|]. destruct (candidate_spec n e Hin) as (_ & _ & c' & l' & Hc' & Hl' & ->).
  assert (c' = c) as -> by congruence. assert (l' = candidate_location x) as -> by congruence. rewrite Hone. cbn.
  apply list_elem_of_singleton. destruct x. cbn in *. by rewrite Hm.
Qed.

(** The epoch of an item of the order is that of what is found there. *)
Lemma item_spec o n :
  (o, n) ∈ by_eviction_order E →
  ∃ e, entry_at n E = Ok e ∧ candidate e h = Ok (found_at n) ∧ Forall (λ x, epoch_of x = o.1.1) (found_at n).
Proof.
  intros (e & l & Hin & Hat & ->)%(eo_order _ _ _ _ (io_entries _ _ Hio i E HE)). exists e.
  destruct (candidate_spec n e Hin) as (Hentry & Hcand & c & l' & _ & _ & Hf). split; [done|]. split; [done|].
  rewrite Hf. destruct (_ =? 1); [|done]. by repeat constructor.
Qed.

Definition part (order : list (EvictionOrder * nat)) : Prop := ∀ o n, (o, n) ∈ order → (o, n) ∈ by_eviction_order E.

Lemma take_epoch_spec epoch order :
  part order →
  ∃ pre rest, order = pre ++ rest ∧ take_epoch epoch E h order = Ok (found_in pre, rest) ∧
    Forall (λ item, item.1.1.1 = epoch) pre ∧ (∀ item, head rest = Some item → item.1.1.1 ≠ epoch).
Proof.
  induction order as [|[[[epoch' a] b] n] order IH]; intros Hpart; [by exists [], []|]. cbn [take_epoch].
  destruct (Z.eqb_spec epoch' epoch) as [->|Hne].
  - destruct (item_spec (epoch, a, b) n) as (e & Hentry & Hcand & _); [by apply Hpart; left|].
    destruct IH as (pre & rest & -> & Hrun & Hpre & Hrest); [intros o m Hm; apply Hpart; by right|].
    exists (((epoch, a, b), n) :: pre), rest. split; [done|]. split; [|split; [by constructor|done]].
    rewrite Hentry. cbn [mbind result_bind]. rewrite Hcand. cbn [mbind result_bind]. rewrite Hrun. done.
  - exists [], (((epoch', a, b), n) :: order). split_and!; try done. by intros ? [= <-].
Qed.

Lemma found_in_epoch epoch pre :
  part pre → Forall (λ item, item.1.1.1 = epoch) pre → Forall (λ x, epoch_of x = epoch) (found_in pre).
Proof.
  intros Hpart Hpre. unfold found_in. apply Forall_forall. intros x (xs & Hx & Hxs)%list_elem_of_join.
  apply list_elem_of_fmap in Hxs as (n & -> & Hn). apply list_elem_of_fmap in Hn as ([o n'] & -> & Hin).
  destruct (item_spec o n' (Hpart _ _ Hin)) as (_ & _ & _ & Hall). rewrite Forall_forall in Hall. rewrite (Hall x Hx).
  by rewrite Forall_forall in Hpre; apply (Hpre (o, n')).
Qed.

Definition rising (order : list (EvictionOrder * nat)) : Prop := StronglySorted (λ x y, x.1.1.1 ≤ y.1.1.1) order.

Lemma sorted_rising order : sorted order.*1 → rising order.
Proof.
  unfold sorted, rising. induction order as [|[[[ep a] b] n] order IH]; intros Hs; [constructor|].
  apply StronglySorted_inv in Hs as [Hs Hall]. constructor; [by apply IH|]. clear IH Hs. cbn in Hall.
  induction order as [|[[[ep' a'] b'] n'] order IH]; [constructor|]. cbn in Hall. apply Forall_cons in Hall as [Hlt Hall].
  constructor; [|by apply IH]. cbn. rewrite !ltb_pair in Hlt. unfold ltb, Z_less in Hlt. naive_solver lia.
Qed.

Lemma part_app l k : part (l ++ k) → part l ∧ part k.
Proof. intros Hp. split; intros o n Hin; apply Hp, elem_of_app; auto. Qed.

Lemma rising_app l k : rising (l ++ k) → rising k ∧ ∀ x y, x ∈ l → y ∈ k → x.1.1.1 ≤ y.1.1.1.
Proof.
  induction l as [|z l IH]; cbn; intros Hr; [split; [done|]; by intros x y ?%not_elem_of_nil|].
  apply StronglySorted_inv in Hr as [Hr Hall]. destruct (IH Hr) as [Hk Hle]. split; [done|].
  intros x y [->|Hx]%elem_of_cons Hy; [|by apply Hle]. rewrite Forall_forall in Hall. apply Hall, elem_of_app. by right.
Qed.

Lemma found_in_app l k : found_in (l ++ k) = found_in l ++ found_in k.
Proof. unfold found_in. by rewrite !fmap_app, join_app. Qed.

Lemma rising_above epoch rest :
  rising rest → (∀ item, item ∈ rest → epoch ≤ item.1.1.1) → (∀ item, head rest = Some item → item.1.1.1 ≠ epoch) →
  Forall (λ item, epoch < item.1.1.1) rest.
Proof.
  destruct rest as [|z rest]; intros Hr Hge Hhead; [constructor|]. specialize (Hhead z eq_refl).
  assert (epoch < z.1.1.1) as Hz by (pose proof (Hge z ltac:(by left)); lia).
  apply StronglySorted_inv in Hr as [_ Hall]. constructor; [done|]. eapply Forall_impl; [done|]. cbn. lia.
Qed.

Lemma next_epoch_spec fuel order :
  part order → rising order → (length order ≤ fuel)%nat →
  ∃ skipped pre rest epoch, order = skipped ++ pre ++ rest ∧ next_epoch fuel E h order = Ok (found_in pre, rest) ∧
    found_in skipped = [] ∧ Forall (λ item, item.1.1.1 = epoch) pre ∧ Forall (λ item, epoch < item.1.1.1) rest ∧
    (found_in pre = [] → rest = []).
Proof.
  revert order. induction fuel as [|fuel IH]; intros order Hpart Hrise Hlen.
  { destruct order; [|cbn in Hlen; lia]. by exists [], [], [], 0. }
  destruct order as [|[[[ep a] b] n] order]; [by exists [], [], [], 0|]. cbn [next_epoch].
  set (all := ((ep, a, b), n) :: order) in *. destruct (take_epoch_spec ep all Hpart) as (pre & rest & Heq & -> & Hpre & Hhead).
  cbn [mbind result_bind]. rewrite Heq in Hpart, Hrise. destruct (part_app _ _ Hpart) as [_ Hprest].
  destruct (rising_app _ _ Hrise) as [Hrrest Hle].
  assert (∃ z pre', pre = z :: pre') as (z & pre' & Hz).
  { destruct pre; [|by eexists _, _]. exfalso. cbn in Heq. rewrite <- Heq in Hhead. by apply (Hhead _ eq_refl). }
  assert (Forall (λ item, ep < item.1.1.1) rest) as Habove.
  { apply rising_above; [done| |done]. intros item Hitem.
    rewrite Forall_forall in Hpre. rewrite <- (Hpre z) by (rewrite Hz; by left). apply Hle; [rewrite Hz; by left|done]. }
  destruct (found_in pre) as [|x found] eqn:Hf.
  - destruct (IH rest Hprest Hrrest) as (sk & pre2 & rest2 & ep2 & -> & Hrun & Hsk & Hcases).
    { apply (f_equal length) in Heq. rewrite Hz in Heq. rewrite length_app in Heq. unfold all in *. cbn in *. lia. }
    exists (pre ++ sk), pre2, rest2, ep2. split; [by rewrite Heq, app_assoc|]. split; [done|].
    split; [by rewrite found_in_app, Hf, Hsk|done].
  - exists [], pre, rest, ep. split_and!; try done; [by rewrite Hf|by rewrite Hf].
Qed.
End order.

(** ** The rounds *)

Section rounds.
Context (h : heap) (self : PrefixCacheIndex) (F : list nat) (i : nat) (E : CacheEntries).
Context (Hio : index_ok h self) (How : owned h (index_refs self ++ F)).
Context (HE : cache_entries_by_pool_ self !! i = Some E).

Record rounds_of (order : list (EvictionOrder * nat)) (rounds : list (list EvictionCandidate)) : Prop := {
  ro_all : mjoin rounds = found_in h E order;
  ro_one : Forall (λ r, r ≠ [] ∧ ∃ epoch, Forall (λ x, epoch_of x = epoch) r) rounds;
  ro_order : StronglySorted (λ r r', ∀ x y, x ∈ r → y ∈ r' → epoch_of x < epoch_of y) rounds;
}.

Lemma eviction_rounds_spec fuel order cursor :
  default (by_eviction_order E) cursor = order → part E order → rising order → (length order < fuel)%nat →
  ∃ rounds, eviction_rounds fuel i cursor h self = Ok (Some rounds) ∧ rounds_of order rounds.
Proof.
  revert order cursor. induction fuel as [|fuel IH]; intros order cursor Hcur Hpart Hrise Hlen; [lia|].
  cbn [eviction_rounds]. unfold NextEvictionEpoch, findCacheEntries. rewrite HE, Hcur.
  destruct (next_epoch_spec h self F i E Hio How HE (length order) order Hpart Hrise) as
    (sk & pre & rest & ep & Heq & -> & Hsk & Hpre & Habove & Hend); [lia|]. cbn [mbind result_bind].
  assert (found_in h E order = found_in h E pre ++ found_in h E rest) as Hall by (by rewrite Heq, !found_in_app, Hsk).
  rewrite Heq in Hpart, Hrise. destruct (part_app _ _ _ Hpart) as [_ [Hppre Hprest]%part_app].
  destruct (rising_app _ _ Hrise) as [[Hrrest _]%rising_app _].
  case_bool_decide as Hfound.
  - destruct (IH rest (Some rest) eq_refl Hprest Hrrest) as (rounds & -> & [Hj Hone Hord]).
    { rewrite Heq, !length_app in Hlen. destruct pre; [done|]. cbn in Hlen. lia. }
    cbn [mbind result_bind option_map]. eexists. split; [done|].
    pose proof (found_in_epoch h self F i E Hio How HE ep pre Hppre Hpre) as Hep. split.
    + change (found_in h E pre ++ mjoin rounds = found_in h E order). by rewrite Hj, Hall.
    + constructor; [|done]. split; [done|]. by exists ep.
    + constructor; [done|]. apply Forall_forall. intros r Hr x y Hx Hy. rewrite Forall_forall in Hep.
      rewrite (Hep x Hx). assert (y ∈ found_in h E rest) as Hyin.
      { rewrite <- Hj. apply list_elem_of_join. by exists r. }
      unfold found_in in Hyin. apply list_elem_of_join in Hyin as (ys & Hys & (n & -> & ([o n'] & -> & Hin)%list_elem_of_fmap)%list_elem_of_fmap).
      destruct (item_spec h self F i E Hio How HE o n' (Hprest _ _ Hin)) as (_ & _ & _ & Hepy).
      rewrite Forall_forall in Hepy. rewrite (Hepy y Hys). rewrite Forall_forall in Habove. by apply (Habove (o, n')).
  - rewrite (Hend Hfound), Hfound in Hall. exists []. split; [done|].
    split; [by rewrite Hall|constructor|constructor].
Qed.
End rounds.

(** One spare block is found once. *)
Lemma found_nodup h self F i E :
  index_ok h self → owned h (index_refs self ++ F) → cache_entries_by_pool_ self !! i = Some E →
  ∀ ns, NoDup ns → (∀ n, n ∈ ns → n ∈ (entries E).*1) → NoDup (candidate_location <$> mjoin (found_at h E <$> ns)).
Proof.
  intros Hio How HE. pose proof (io_entries _ _ Hio i E HE) as Hok. induction ns as [|n ns IH]; intros Hnd Hin; [constructor|].
  apply NoDup_cons in Hnd as [Hnin Hnd]. change (mjoin (found_at h E <$> n :: ns)) with (found_at h E n ++ mjoin (found_at h E <$> ns)).
  rewrite fmap_app. apply NoDup_app. split; [|split; [|apply IH; [done|intros m Hm; apply Hin; by right]]].
  - destruct (proj1 (list_elem_of_fmap _ _ _) (Hin n ltac:(by left))) as ([n' e] & -> & He). cbn.
    destruct (candidate_spec h self F i E Hio How HE n' e He) as (_ & _ & c & l & _ & _ & ->).
    destruct (_ =? 1); [apply NoDup_singleton|constructor].
  - intros l (x & -> & Hx)%list_elem_of_fmap (y & Hxy & Hy)%list_elem_of_fmap.
    apply list_elem_of_join in Hy as (ys & Hy & (m & -> & Hm)%list_elem_of_fmap). apply Hnin.
    destruct (proj1 (list_elem_of_fmap _ _ _) (Hin n ltac:(by left))) as ([n' e] & -> & He).
    destruct (proj1 (list_elem_of_fmap _ _ _) (Hin m ltac:(by right))) as ([m' e'] & -> & He'). cbn in *.
    destruct (candidate_spec h self F i E Hio How HE n' e He) as (_ & _ & c & l & Hc & Hl & Hf).
    destruct (candidate_spec h self F i E Hio How HE m' e' He') as (_ & _ & c' & l' & Hc' & Hl' & Hf').
    rewrite Hf in Hx. rewrite Hf' in Hy. destruct (uses c _ =? 1); [|by apply not_elem_of_nil in Hx].
    destruct (uses c' _ =? 1); [|by apply not_elem_of_nil in Hy].
    apply list_elem_of_singleton in Hx as ->. apply list_elem_of_singleton in Hy as ->. cbn in Hxy. subst l'.
    rewrite (place_entry _ _ _ _ Hok n' m' e e' l He He'); [done|by exists c|by exists c'].
Qed.

Lemma order_nodes h i g E : entries_ok h i g E → (by_eviction_order E).*2 ≡ₚ (entries E).*1.
Proof.
  intros Hok. apply NoDup_Permutation.
  - apply NoDup_fmap_2_strong.
    + intros [o n] [o' n'] Hin Hin' Heq. cbn in Heq. subst n'.
      apply (eo_order _ _ _ _ Hok) in Hin as (e & l & Hin & Hl & ->). apply (eo_order _ _ _ _ Hok) in Hin' as (e' & l' & Hin' & Hl' & ->).
      assert (e' = e) as -> by (by apply (entry_fun _ _ _ _ Hok n)). by rewrite (at_place_fun h i e l' l).
    + apply (NoDup_fmap_1 fst). apply sorted_NoDup, Hok.
  - apply Hok.
  - intros n. rewrite !list_elem_of_fmap. split.
    + intros ([o n'] & -> & Hin). apply (eo_order _ _ _ _ Hok) in Hin as (e & l & Hin & _). by exists (n', e).
    + intros ([n' e] & -> & Hin). destruct (eo_placed _ _ _ _ Hok n' e Hin) as [l Hl]. exists (order_of e l, n').
      split; [done|]. apply (eo_order _ _ _ _ Hok). by exists e, l.
Qed.

(** C12: The walk of admission over an index ends and is exact: within one call more than
    there are entries it has no epoch left; every round holds entries of one epoch, the
    rounds go from the oldest epoch to the newest, and together they name, once each,
    exactly the entries whose block only the index holds. *)
Theorem eviction_rounds_exact h self F i fuel :
  index_ok h self → owned h (index_refs self ++ F) → NumEntries i self < Z.of_nat fuel →
  ∃ rounds, eviction_rounds fuel i None h self = Ok (Some rounds) ∧
    Forall (λ r, r ≠ [] ∧ ∃ epoch, Forall (λ x, epoch_of x = epoch) r) rounds ∧
    StronglySorted (λ r r', ∀ x y, x ∈ r → y ∈ r' → epoch_of x < epoch_of y) rounds ∧
    (∀ x, x ∈ mjoin rounds ↔ spare h self F i x) ∧ NoDup (candidate_location <$> mjoin rounds).
Proof.
  intros Hio How Hfuel. unfold NumEntries, findCacheEntries in Hfuel.
  destruct (cache_entries_by_pool_ self !! i) as [E|] eqn:HE.
  - pose proof (io_entries _ _ Hio i E HE) as Hok. pose proof (order_nodes _ _ _ _ Hok) as Hnodes.
    destruct (eviction_rounds_spec h self F i E Hio How HE fuel (by_eviction_order E) None eq_refl) as (rounds & Hrun & [Hall Hone Hord]).
    { by intros o n. }
    { apply sorted_rising, Hok. }
    { apply Permutation_length in Hnodes. rewrite !length_fmap in Hnodes. lia. }
    exists rounds. split; [done|]. split; [done|]. split; [done|]. rewrite Hall. unfold found_in. split.
    + intros x. rewrite list_elem_of_join. split.
      * intros (xs & Hx & (n & -> & Hn)%list_elem_of_fmap). apply (found_spare h self F i E Hio How HE n); [done|]. by rewrite <- Hnodes.
      * intros Hx. destruct (spare_found h self F i E Hio How HE x Hx) as (n & e & Hin & Hf). exists (found_at h E n).
        split; [done|]. apply (list_elem_of_fmap_2 (found_at h E)). rewrite Hnodes. by apply (list_elem_of_fmap_2 fst _ (n, e)).
    + apply (found_nodup h self F i E Hio How HE); [rewrite Hnodes; apply Hok|]. intros n. by rewrite Hnodes.
  - exists []. destruct fuel; [cbn in Hfuel; lia|]. cbn [eviction_rounds]. unfold NextEvictionEpoch, findCacheEntries.
    rewrite HE. split; [done|]. split; [constructor|]. split; [constructor|]. split; [|constructor].
    intros x. split; [by intros ?%not_elem_of_nil|]. intros (e & c & ((E & n & HE' & _) & _) & _). congruence.
Qed.

(** ** Emptying an index *)

Lemma EvictableCandidates_spec h self F i E :
  index_ok h self → owned h (index_refs self ++ F) → cache_entries_by_pool_ self !! i = Some E →
  EvictableCandidates i h self = Ok (mjoin (found_at h E <$> (entries E).*1)).
Proof.
  intros Hio How HE. unfold EvictableCandidates, findCacheEntries. rewrite HE.
  assert (∀ l, (∀ node, node ∈ l → node ∈ entries E) →
    mapM (λ node, candidate node.2 h) l = Ok (found_at h E <$> l.*1)) as ->; [|done|by auto].
  induction l as [|[n e] l IH]; intros Hin; [done|].
  destruct (candidate_spec h self F i E Hio How HE n e) as (_ & Hcand & _); [by apply Hin; left|]. cbn [mapM fst snd fmap list_fmap].
  rewrite Hcand. cbn [mbind result_bind]. rewrite IH by (intros node Hnode; apply Hin; by right). done.
Qed.

Lemma found_full h self F i E :
  index_ok h self → owned h (index_refs self ++ F) → cache_entries_by_pool_ self !! i = Some E →
  ∀ ns, (∀ n, n ∈ ns → n ∈ (entries E).*1) →
  (length (mjoin (found_at h E <$> ns)) ≤ length ns)%nat ∧
  (length (mjoin (found_at h E <$> ns)) = length ns → ∀ n, n ∈ ns → found_at h E n ≠ []).
Proof.
  intros Hio How HE. induction ns as [|n ns IH]; intros Hin; [split; [done|]; by intros _ n ?%not_elem_of_nil|].
  change (mjoin (found_at h E <$> n :: ns)) with (found_at h E n ++ mjoin (found_at h E <$> ns)). rewrite length_app. cbn [length].
  destruct IH as [Hle Hall]; [intros m Hm; apply Hin; by right|].
  assert (length (found_at h E n) ≤ 1)%nat as Hone.
  { destruct (proj1 (list_elem_of_fmap _ _ _) (Hin n ltac:(by left))) as ([n' e] & -> & He). cbn.
    destruct (candidate_spec h self F i E Hio How HE n' e He) as (_ & _ & c & l & _ & _ & ->). destruct (_ =? 1); cbn; lia. }
  split; [lia|]. intros Heq m [->|Hm]%elem_of_cons.
  - intros Hnil. rewrite Hnil in *. cbn in *. lia.
  - apply Hall; [lia|done].
Qed.

(** Clearing a tier: when every entry of an index is evictable, evicting the candidates
    one after the other never finds one gone, leaves the index without entries of the
    pool and the blocks they held free, and touches no other pool's entries. *)
Theorem clear_exact h self F i cs :
  index_ok h self → owned h (index_refs self ++ F) →
  EvictableCandidates i h self = Ok cs → Z.of_nat (length cs) = NumEntries i self →
  ∃ h' self', evict_locations i (candidate_location <$> cs) (h, self) = (Ok (), (h', self')) ∧
    index_ok h' self' ∧ owned h' (index_refs self' ++ F) ∧
    (∀ k e, ¬ caches self' i k e) ∧ (∀ j k e, j ≠ i → caches self' j k e ↔ caches self j k e) ∧
    ∀ l p, l ∈ candidate_location <$> cs → pools h' !! i = Some p → live p l = None.
Proof.
  intros Hio How Hcs Hlen. destruct (cache_entries_by_pool_ self !! i) as [E|] eqn:HE.
  - rewrite (EvictableCandidates_spec h self F i E) in Hcs by done. injection Hcs as <-.
    unfold NumEntries, findCacheEntries in Hlen. rewrite HE in Hlen. pose proof (io_entries _ _ Hio i E HE) as Hok.
    destruct (found_full h self F i E Hio How HE (entries E).*1) as [_ Hfull]; [done|].
    destruct (evict_locations_spec (candidate_location <$> mjoin (found_at h E <$> (entries E).*1)) h self F i Hio How)
      as (h' & self' & Hrun & [Hio' Hg' How' Hsh Hfree Hc]).
    { apply (found_nodup h self F i E); try done. apply Hok. }
    { intros l (x & -> & (xs & Hx & (n & -> & Hn)%list_elem_of_fmap)%list_elem_of_join)%list_elem_of_fmap.
      destruct (found_spare h self F i E Hio How HE n x Hx Hn) as (e & c & Hat & Hone & _). by exists e, c. }
    exists h', self'. split_and!; try done.
    + intros k e [Hin Hno]%Hc. apply Hno. split; [done|]. destruct Hin as (E0 & n & HE0 & Hin & _). rewrite HE in HE0.
      injection HE0 as <-. assert (n ∈ (entries E).*1) as Hn by (by apply (list_elem_of_fmap_2 fst _ (n, e))).
      assert (found_at h E n ≠ []) as Hf by (apply Hfull; [rewrite length_fmap; lia|done]).
      destruct (candidate_spec h self F i E Hio How HE n e Hin) as (_ & _ & c & l & Hcr & Hl & Heq).
      destruct (_ =? 1); [|by rewrite Heq in Hf]. exists l. split; [|by exists c].
      apply (list_elem_of_fmap_2 candidate_location _ (mkCandidate l (metadataOf e))), list_elem_of_join.
      exists (found_at h E n). split; [rewrite Heq; by left|]. by apply list_elem_of_fmap_2.
    + intros j k e Hne. rewrite Hc. tauto.
  - unfold EvictableCandidates, findCacheEntries in Hcs. rewrite HE in Hcs. injection Hcs as <-.
    exists h, self. split_and!; try done; [|by intros l p ?%not_elem_of_nil]. intros k e (E & n & HE' & _). congruence.
Qed.

(** ** Evicting a parent *)

Lemma IsOccupied_live p l q : ok p → block p (lcm_block_id l) q → IsOccupied l p = Ok (bool_decide (live p l ≠ None)).
Proof.
  intros Hok Hq. unfold IsOccupied. rewrite (lcmBlock_Ok _ _ _ Hq). cbn [mbind result_bind]. f_equal. symmetry.
  destruct (slot_occupied q (slot_index l)) eqn:Hs.
  - apply bool_decide_eq_true_2. rewrite (live_None p l Hok). intros Hn. apply Hn. exists q. split; [done|].
    unfold slot_occupied in Hs. destruct (Z.leb_spec 0 (slot_index l)); [|done]. split; [done|].
    destruct (occupancy q !! _) as [[]|]; done.
  - apply bool_decide_eq_false_2. intros Hne. apply Hne. unfold live. destruct Hq as [Hid Hq]. rewrite Hq.
    rewrite (proj2 (Z.ltb_lt _ _)) by done. cbn. by rewrite Hs.
Qed.

Definition spare_at (h : heap) (self : PrefixCacheIndex) (F : list nat) (i : nat) (l : CacheBlockLocation) : Prop :=
  ∃ e c, cached_at h self i l e c ∧ uses c (index_refs self ++ F) = 1.

Section parent.
Context (h : heap) (self : PrefixCacheIndex) (F : list nat) (i : nat) (p : BlockPool) (id : Z) (q : LcmBlock).
Context (Hio : index_ok h self) (How : owned h (index_refs self ++ F)).
Context (Hp : pools h !! i = Some p) (Hq : block p id q).

Lemma slot_evictable_spec E slot :
  cache_entries_by_pool_ self !! i = Some E →
  ∃ b, slot_evictable i E h (mkLocation id slot) = Ok b ∧
    (b = true ↔ (live p (mkLocation id slot) ≠ None → spare_at h self F i (mkLocation id slot))).
Proof.
  intros HE. set (l := mkLocation id slot). unfold slot_evictable, pool_at, findEntry_location. rewrite Hp. cbn [lookup_or mbind result_bind].
  rewrite (IsOccupied_live p l q (ow_pools _ _ How i p Hp) Hq). cbn [mbind result_bind].
  case_bool_decide as Hlive; [|exists true; tauto].
  destruct (by_location E !! l) as [n|] eqn:Hn.
  - destruct (find_cached h self i l Hio E n HE Hn) as (e & c & _ & Hat & ->). cbn [mbind result_bind].
    rewrite (proj1 (proj2 Hat)), (unique_uses h self F How c (index_ref_held h self i l e c Hat)). eexists. split; [done|].
    rewrite Z.eqb_eq. split; [intros; by exists e, c|]. intros Hsp. destruct (Hsp Hlive) as (e' & c' & Hat' & Hone).
    assert (c' = c) as <-; [|done]. apply (same_place_same _ _ _ _ i l How); [apply Hat'|apply Hat].
  - exists false. split; [done|]. split; [done|]. intros Hsp. destruct (Hsp Hlive) as (e & c & Hat & _).
    destruct (cached_found h self i l Hio E e c HE Hat) as (n & Hn' & _). congruence.
Qed.

Lemma slots_evictable_spec E slots :
  cache_entries_by_pool_ self !! i = Some E → ∀ all : bool,
  ∃ b, foldM (λ all slot, if (all : bool) then slot_evictable i E h (mkLocation id slot) else Ok false) all slots = Ok b ∧
    (b = true ↔ all = true ∧ ∀ slot, slot ∈ slots → live p (mkLocation id slot) ≠ None → spare_at h self F i (mkLocation id slot)).
Proof.
  intros HE. induction slots as [|slot slots IH]; intros all.
  - exists all. split; [done|]. split; [|tauto]. intros ->. split; [done|]. by intros slot ?%not_elem_of_nil.
  - cbn [foldM]. setoid_rewrite elem_of_cons. destruct all; cbn [mbind result_bind].
    + destruct (slot_evictable_spec E slot HE) as (b & -> & Hb). cbn [mbind result_bind].
      destruct (IH b) as (b' & Hrun & Hb'). exists b'. split; [done|]. rewrite Hb', Hb. naive_solver.
    + destruct (IH false) as (b' & Hrun & Hb'). exists b'. split; [done|]. rewrite Hb'. naive_solver.
Qed.

(** The slots in use of the parent. *)
Lemma occupied_locations :
  ∃ ls, OccupiedLocations id p = Ok ls ∧ NoDup ls ∧ ∀ l, l ∈ ls ↔ lcm_block_id l = id ∧ live p l ≠ None.
Proof.
  pose proof (ow_pools _ _ How i p Hp) as Hok. unfold OccupiedLocations. rewrite (lcmBlock_Ok _ _ _ Hq). cbn [mbind result_bind].
  eexists. split; [done|]. split.
  - apply NoDup_fmap_2; [by intros ?? [= ->]|]. apply NoDup_filter, NoDup_seqZ.
  - intros [id' slot]. rewrite list_elem_of_fmap. setoid_rewrite list_elem_of_filter. setoid_rewrite elem_of_seqZ. cbn.
    assert (∀ s, slot_occupied q s = true ↔ live p (mkLocation id s) ≠ None) as Hs.
    { intros s. pose proof (IsOccupied_live p (mkLocation id s) q Hok Hq) as Hr. unfold IsOccupied in Hr.
      cbn [lcm_block_id slot_index] in Hr. rewrite (lcmBlock_Ok _ _ _ Hq) in Hr. cbn in Hr. injection Hr as ->.
      apply bool_decide_eq_true. }
    split.
    + intros (s & [= -> ->] & Hocc%Hs & _). done.
    + intros [-> Hl]. exists slot. split; [done|]. apply Hs in Hl as Hocc. split; [done|]. unfold slot_occupied in Hocc.
      apply andb_prop in Hocc as [H0 Ho]. apply Z.leb_le in H0. destruct (occupancy q !! Z.to_nat slot) eqn:Hlk; [|done].
      apply lookup_lt_Some in Hlk. lia.
Qed.

Lemma parent_evictable_when g (ls : list CacheBlockLocation) :
  bound_group q = Some g → (∀ l, l ∈ ls ↔ lcm_block_id l = id ∧ live p l ≠ None) →
  ∃ b, ParentIsFullyEvictable i id (Z.of_nat (length (occupancy q))) h self = Ok b ∧
    (b = true ↔ ∀ l, l ∈ ls → spare_at h self F i l).
Proof.
  intros Hg Hin. pose proof (ow_pools _ _ How i p Hp) as Hok.
  destruct (ok_bound _ Hok id q g Hq Hg) as (group & _ & _ & Hpo). pose proof (po_pos _ _ _ Hpo) as Hpos.
  unfold ParentIsFullyEvictable, pool_at, OccupiedCount, findCacheEntries. rewrite Hp. cbn [lookup_or mbind result_bind].
  rewrite (lcmBlock_Ok _ _ _ Hq). cbn [mbind result_bind]. rewrite (proj2 (Z.eqb_neq _ _)) by lia.
  destruct (cache_entries_by_pool_ self !! i) as [E|] eqn:HE.
  - destruct (slots_evictable_spec E (seqZ 0 (Z.of_nat (length (occupancy q)))) HE true) as (b & Hrun & Hb).
    exists b. split; [done|]. rewrite Hb. split.
    + intros [_ Hall] [id' slot] [Heq Hl]%Hin. cbn in Heq. subst id'. apply Hall; [|done].
      apply elem_of_seqZ. apply (live_occupied p _ Hok) in Hl as (q' & Hq' & H0 & Ho). cbn in *.
      rewrite (block_fun _ _ _ _ Hq' Hq) in Ho. apply lookup_lt_Some in Ho. lia.
    + intros Hall. split; [done|]. intros slot _ Hl. by apply Hall, Hin.
  - exists false. split; [done|]. split; [done|]. intros Hall. rewrite (po_count _ _ _ Hpo) in Hpos.
    destruct (count_true_some _ Hpos) as [s Hs]. destruct (Hall (mkLocation id (Z.of_nat s))) as (e & c & ((E & n & HE' & _) & _) & _);
      [|congruence]. apply Hin. split; [done|]. rewrite (live_None p _ Hok). intros Hn. apply Hn.
    exists q. split; [done|]. cbn. split; [lia|]. by rewrite Nat2Z.id.
Qed.
End parent.

(** A parent without a block in use is unbound. *)
Lemma emptied_unbound p id q : ok p → block p id q → (∀ slot, live p (mkLocation id slot) = None) → bound_group q = None.
Proof.
  intros Hok Hq Hnone. destruct (bound_group q) as [g|] eqn:Hg; [|done]. exfalso.
  destruct (ok_bound _ Hok id q g Hq Hg) as (group & _ & _ & Hpo). pose proof (po_pos _ _ _ Hpo) as Hpos.
  rewrite (po_count _ _ _ Hpo) in Hpos. destruct (count_true_some _ Hpos) as [s Hs].
  assert (live p (mkLocation id (Z.of_nat s)) = Some g) as Hl; [|by rewrite Hnone in Hl].
  apply live_Some. split; exists q; [|done]. split; [done|]. cbn. split; [lia|]. by rewrite Nat2Z.id.
Qed.

(** A parent is fully evictable exactly when every block of it in use is one only the
    index holds; evicting them all then gives the parent back to every group. *)
Theorem parent_evictable_exact h self F i p id q g :
  index_ok h self → owned h (index_refs self ++ F) →
  pools h !! i = Some p → block p id q → bound_group q = Some g →
  ∃ b ls, ParentIsFullyEvictable i id (Z.of_nat (length (occupancy q))) h self = Ok b ∧
    OccupiedLocations id p = Ok ls ∧ (b = true ↔ ∀ l, l ∈ ls → spare_at h self F i l) ∧
    (b = true → ∃ h' self' p', evict_locations i ls (h, self) = (Ok (), (h', self')) ∧
       pools h' !! i = Some p' ∧ BoundGroup id p' = Ok None ∧ id ∈ free_parent_ids_ p').
Proof.
  intros Hio How Hp Hq Hg. destruct (occupied_locations h self F i p id q How Hp Hq) as (ls & Hls & Hnd & Hin).
  destruct (parent_evictable_when h self F i p id q Hio How Hp Hq g ls Hg Hin) as (b & Hrun & Hb).
  exists b, ls. split_and!; [done|done|done|]. intros Htrue.
  destruct (evict_locations_spec ls h self F i Hio How Hnd) as (h' & self' & Hev & [_ _ How' Hsh Hfree _]); [by apply Hb|].
  destruct (sh_pool _ _ Hsh i p Hp) as (p' & Hp' & _ & Hlen & Hlive). exists h', self', p'. split; [done|]. split; [done|].
  pose proof (ow_pools _ _ How' i p' Hp') as Hok'. destruct Hq as [Hid Hq].
  destruct (lookup_lt_is_Some_2 (lcm_blocks_ p') (Z.to_nat (id - 1))) as [q' Hq']; [rewrite Hlen; by eapply lookup_lt_Some|].
  assert (bound_group q' = None) as Hnone.
  { apply (emptied_unbound p' id); [done|done|]. intros slot. destruct (live p' (mkLocation id slot)) as [g'|] eqn:Hl'; [|done].
    rewrite <- Hl'. apply Hfree; [|done]. apply Hin. split; [done|]. by rewrite (Hlive _ _ Hl'). }
  split; [|apply (ok_free _ Hok'); by exists q']. unfold BoundGroup. rewrite (lcmBlock_Ok p' id q') by done. cbn. by rewrite Hnone.
Qed.

(** ** A concrete index

    Two blocks of one parent are cached; the first caller still holds its block, the
    other one has dropped its. *)

Definition other_key : CacheKey := mkKey 0 0 "cd" 0.
Definition publish_other := Register 0 (Some 1%nat) other_key 2 0 kEndpoint false publish_first.2.
Definition dropped := reset (Some 1%nat) publish_other.2.1.
Definition an_index : PrefixCacheIndex := publish_other.2.2.

Lemma an_index_ok : index_ok dropped.2 an_index ∧ owned dropped.2 (index_refs an_index ++ [0; 0])%nat.
Proof.
  destruct two_blocks_first as [Hok How].
  destruct (Register_ok publish_first.2.1 publish_first.2.2 [0%nat; 0%nat] 0 1 (mkLocation 1 1) other_key 2 0 kEndpoint false)
    as (c' & newly & h' & self' & Hrun & [Hok' How' _]).
  - exact Hok.
  - assert (index_refs publish_first.2.2 = [0%nat]) as -> by reflexivity. cbn [app]. revert How. apply owned_proper. solve_Permutation.
  - reflexivity.
  - exists 0%nat, (mkLocation 1 1). eexists. split; [reflexivity|]. split; reflexivity.
  - split; [reflexivity|done].
  - vm_compute. done.
  - intros k' e (E & n & HE & Hin & Hk) Hr. vm_compute in HE. injection HE as <-. apply list_elem_of_singleton in Hin.
    injection Hin as -> ->. discriminate Hr.
  - change (Register 0 (Some 1%nat) other_key 2 0 kEndpoint false (publish_first.2.1, publish_first.2.2)) with publish_other in Hrun.
    pose proof (f_equal fst Hrun) as Hans. vm_compute in Hans. injection Hans as <- <-.
    assert (h' = publish_other.2.1) as -> by (by rewrite Hrun). assert (self' = an_index) as -> by (unfold an_index; by rewrite Hrun).
    destruct (reset_spec _ _ _ How') as (_ & h2 & _ & Hreset & How2 & Hsh & _). unfold dropped. rewrite Hreset.
    split; [|exact How2]. apply (index_ok_shrinks publish_other.2.1 h2 an_index _ Hok' How2 Hsh).
    intros d Hd. change (d ∈ index_refs an_index ++ [0; 0]%nat). apply elem_of_app. by left.
Qed.

Lemma eviction_rounds_exact_witness :
  ∃ rounds, eviction_rounds 3 0 None dropped.2 an_index = Ok (Some rounds) ∧
    rounds = [[mkCandidate (mkLocation 1 1) (mkMetadata 2 0 kEndpoint false)]] ∧ NoDup (candidate_location <$> mjoin rounds).
Proof.
  destruct an_index_ok as [Hok How].
  destruct (eviction_rounds_exact dropped.2 an_index [0%nat; 0%nat] 0 3 Hok How) as (rounds & Hrun & _ & _ & _ & Hnd).
  - vm_compute. reflexivity.
  - exists rounds. split; [exact Hrun|]. split; [|exact Hnd]. vm_compute in Hrun. congruence.
Defined.

Lemma parent_evictable_exact_witness :
  ∃ b, ParentIsFullyEvictable 0 1 2 dropped.2 an_index = Ok b ∧ b = false.
Proof.
  destruct an_index_ok as [Hok How].
  destruct (parent_evictable_exact dropped.2 an_index [0%nat; 0%nat] 0
              (mkPool [mkLcmBlock (Some 0%nat) [true; true] 2 [2]] [] [mkGroup 2 [0] [[]]]) 1
              (mkLcmBlock (Some 0%nat) [true; true] 2 [2]) 0 Hok How) as (b & ls & Hrun & _).
  - reflexivity.
  - split; [lia|reflexivity].
  - reflexivity.
  - exists b. split; [exact Hrun|]. vm_compute in Hrun. congruence.
Defined.

Lemma evict_exact_witness :
  ∃ k, (Evict 0 (mkLocation 1 1) (dropped.2, an_index)).1 = Ok (Some k) ∧ k = other_key.
Proof.
  destruct an_index_ok as [Hok How].
  destruct (evict_exact dropped.2 an_index [0%nat; 0%nat] 0 (mkLocation 1 1) Hok How)
    as [(e & c & h' & self' & _ & _ & Hrun & _)|[_ Hrun]].
  - exists (key e). rewrite Hrun. split; [reflexivity|]. apply (f_equal fst) in Hrun. vm_compute in Hrun.
    injection Hrun as Hk. symmetry. exact Hk.
  - apply (f_equal fst) in Hrun. vm_compute in Hrun. discriminate Hrun.
Defined.

(** The first holders let go as well, and the index is emptied. *)
Definition both : list EvictionCandidate :=
  [mkCandidate (mkLocation 1 0) (mkMetadata 1 0 kChunk false); mkCandidate (mkLocation 1 1) (mkMetadata 2 0 kEndpoint false)].
Definition released := reset_all [Some 0%nat; Some 0%nat] dropped.2.

Lemma clear_exact_witness :
  ∃ cs, EvictableCandidates 0 released.2 an_index = Ok cs ∧ length cs = 2%nat ∧
    (evict_locations 0 (candidate_location <$> cs) (released.2, an_index)).1 = Ok ().
Proof.
  destruct an_index_ok as [Hok How].
  destruct (reset_all_spec [Some 0%nat; Some 0%nat] dropped.2 (index_refs an_index ++ [])) as (h' & Hrun & How' & Hsh).
  - revert How. apply owned_proper. rewrite app_nil_r. apply Permutation_app_comm.
  - assert (index_ok h' an_index) as Hok'.
    { apply (index_ok_shrinks dropped.2 h' an_index _ Hok How' Hsh). intros d Hd. apply elem_of_app. by left. }
    unfold released. rewrite Hrun. cbn [snd]. apply (f_equal snd) in Hrun. vm_compute in Hrun. subst h'.
    exists both. split; [vm_compute; reflexivity|]. split; [reflexivity|].
    destruct (clear_exact _ an_index [] 0 both Hok' How') as (h2 & self2 & Hclear & _).
    + vm_compute. reflexivity.
    + vm_compute. reflexivity.
    + rewrite Hclear. reflexivity.
Defined.
