(* ===== verification/PrefixMatcher.v ===== *)
(** * Matching a prefix

    [csrc/cache/prefix/prefix_matcher.h]: what each kind of attention accepts as a cached
    prefix.  A full-attention group needs every page from the start; a sliding-window
    group needs only the pages its window reads behind the boundary it resumes at, and
    looks for the highest such boundary; a state group is never walked. *)

From stdpp Require Import gmap strings.
From S2P Require Import Prelude PyState Cxx BlockPool BlockPoolFacts BlockPoolSafety BlockRefs PrefixIndex.
From S2P Require Import PrefixIndexFacts PrefixIndexSafety PrefixEviction.

Local Open Scope Z_scope.

(** ** The matchers *)

Definition PrefixKeyIsHit (i : nat) (k : CacheKey) (extra_hits : option (gset CacheKey)) (self : PrefixCacheIndex) :
    result bool :=
  found ← Contains_key i k self;
  Ok (found || match extra_hits with None => false | Some s => bool_decide (k ∈ s) end).

Inductive PrefixMatcher :=
  | FullAttnMatcher
  | StateMatcher
  | SwaMatcher (block_granularity_ sliding_window_ : Z).

Definition SwaMatcher_new (block_granularity sliding_window : Z) : result PrefixMatcher :=
  _assert (0 <? block_granularity) "block_granularity must be > 0";;
  _assert (0 <? sliding_window) "sliding_window must be > 0";;
  Ok (SwaMatcher block_granularity sliding_window).

Definition IsPrefixClosed (self : PrefixMatcher) : bool := match self with FullAttnMatcher => true | _ => false end.

Definition pagesNeededToResume (block_granularity_ sliding_window_ : Z) : result Z :=
  a ← i32 (sliding_window_ - 1);
  b ← i32 (a + block_granularity_);
  c ← i32 (b - 1);
  Ok (c ÷ block_granularity_).

Definition BoundaryLookbackPages (self : PrefixMatcher) : result Z :=
  match self with
  | SwaMatcher block_granularity sliding_window => pagesNeededToResume block_granularity sliding_window
  | _ => Ok 0
  end.

(** The loop of a full-attention probe from key [j]: the number of hits. *)
Fixpoint full_run (fuel : nat) (hit : Z → result bool) (j end_blocks : Z) : result nat :=
  match fuel with
  | O => Ok O
  | S fuel =>
      if j <? end_blocks then
        found ← hit j;
        if (found : bool) then n ← full_run fuel hit (j + 1) end_blocks; Ok (S n) else Ok O
      else Ok O
  end.

(** The inner loop of [findResumableBoundary]: whether it returned, and [hits_begin]. *)
Fixpoint back_run (fuel : nat) (hit : Z → result bool) (begin_blocks pages_needed boundary hits_begin : Z) :
    result (bool * Z) :=
  match fuel with
  | O => Ok (false, hits_begin)
  | S fuel =>
      if begin_blocks <? hits_begin then
        found ← hit (hits_begin - 1);
        if (found : bool) then
          if pages_needed <=? boundary - (hits_begin - 1) then Ok (true, hits_begin - 1)
          else back_run fuel hit begin_blocks pages_needed boundary (hits_begin - 1)
        else Ok (false, hits_begin)
      else Ok (false, hits_begin)
  end.

(** The outer loop; the pair is the boundary and where its hits begin. *)
Fixpoint boundary_from (fuel : nat) (hit : Z → result bool) (begin_blocks pages_needed boundary : Z) : result (Z * Z) :=
  match fuel with
  | O => Ok (begin_blocks, begin_blocks)
  | S fuel =>
      if begin_blocks <? boundary then
        '(enough, hits_begin) ←
          back_run (Z.to_nat (boundary - begin_blocks)) hit begin_blocks pages_needed boundary boundary;
        if (enough : bool) then Ok (boundary, hits_begin)
        else if (hits_begin =? begin_blocks) && (hits_begin <? boundary) then Ok (boundary, hits_begin)
        else boundary_from fuel hit begin_blocks pages_needed (hits_begin - 1)
      else Ok (begin_blocks, begin_blocks)
  end.

Definition findResumableBoundary (hit : Z → result bool) (pages_needed begin_blocks end_blocks : Z) : result (Z * Z) :=
  boundary_from (Z.to_nat (end_blocks - begin_blocks)) hit begin_blocks pages_needed end_blocks.

Definition end_blocks_of (keys : list CacheKey) (max_blocks : Z) : Z :=
  Z.min (Z.of_nat (length keys)) (Z.max max_blocks 0).

Definition Probe (self : PrefixMatcher) (index : PrefixCacheIndex) (i : nat) (keys : list CacheKey)
    (begin_blocks max_blocks : Z) (extra_hits : option (gset CacheKey)) : result GroupPrefixProbe :=
  let end_blocks := end_blocks_of keys max_blocks in
  let hit j := k ← vec_at keys j; PrefixKeyIsHit i k extra_hits index in
  match self with
  | FullAttnMatcher =>
      n ← full_run (Z.to_nat (end_blocks - begin_blocks)) hit begin_blocks end_blocks;
      Ok (mkProbe (replicate n 1))
  | StateMatcher =>
      FatalCheck false "a State group's boundaries are judged per candidate, never walked";;
      Ok (mkProbe [])
  | SwaMatcher block_granularity sliding_window =>
      if end_blocks <=? begin_blocks then Ok (mkProbe [])
      else
        pages_needed ← pagesNeededToResume block_granularity sliding_window;
        if pages_needed =? 0 then Ok (mkProbe (replicate (Z.to_nat (end_blocks - begin_blocks)) 0))
        else
          '(boundary, hits_begin) ← findResumableBoundary hit pages_needed begin_blocks end_blocks;
          if boundary =? begin_blocks then Ok (mkProbe [])
          else Ok (mkProbe (replicate (Z.to_nat (hits_begin - begin_blocks)) 0 ++
                            replicate (Z.to_nat (boundary - hits_begin)) 1))
  end.

(** ** The highest resumable boundary *)

Section scan.
Context (hit : Z → result bool) (h : Z → bool) (begin_blocks end_blocks pages : Z).
Context (Hhit : ∀ j, begin_blocks ≤ j < end_blocks → hit j = Ok (h j)) (Hpages : 0 < pages).

(** A boundary behind which every page the window reads is cached; nothing below
    [begin_blocks] is needed. *)
Definition resumable (b : Z) : Prop :=
  begin_blocks < b ≤ end_blocks ∧ ∀ j, Z.max begin_blocks (b - pages) ≤ j < b → h j = true.

Lemma back_run_spec fuel boundary hits_begin :
  boundary ≤ end_blocks → begin_blocks ≤ hits_begin ≤ boundary → boundary - hits_begin < pages →
  hits_begin - begin_blocks ≤ Z.of_nat fuel → (∀ j, hits_begin ≤ j < boundary → h j = true) →
  ∃ enough hb, back_run fuel hit begin_blocks pages boundary hits_begin = Ok (enough, hb) ∧
    begin_blocks ≤ hb ≤ hits_begin ∧ (∀ j, hb ≤ j < boundary → h j = true) ∧
    if enough : bool then hb = boundary - pages
    else boundary - hb < pages ∧ (hb = begin_blocks ∨ (begin_blocks < hb ∧ h (hb - 1) = false)).
Proof.
  revert hits_begin. induction fuel as [|fuel IH]; intros hb Hend Hb Hfew Hfuel Hall; cbn [back_run].
  { exists false, hb. split; [done|]. split; [lia|]. split; [done|]. split; [lia|]. left. lia. }
  destruct (Z.ltb_spec begin_blocks hb) as [Hlt|Hge].
  2: { exists false, hb. split; [done|]. split; [lia|]. split; [done|]. split; [lia|]. left. lia. }
  rewrite Hhit by lia. cbn [mbind result_bind]. destruct (h (hb - 1)) eqn:Hh.
  - assert (∀ j, hb - 1 ≤ j < boundary → h j = true) as Hall'.
    { intros j Hj. destruct (decide (j = hb - 1)) as [->|]; [done|]. apply Hall. lia. }
    destruct (Z.leb_spec pages (boundary - (hb - 1))) as [Hen|Hen].
    + exists true, (hb - 1). split; [done|]. split; [lia|]. split; [done|]. lia.
    + destruct (IH (hb - 1)) as (en & hb' & Hrun & Hb' & Hrest); [lia|lia|lia|lia|done|].
      exists en, hb'. split; [done|]. split; [lia|done].
  - exists false, hb. split; [done|]. split; [lia|]. split; [done|]. split; [lia|]. right. split; [lia|done].
Qed.

Lemma boundary_from_spec fuel boundary :
  boundary ≤ end_blocks → boundary - begin_blocks ≤ Z.of_nat fuel → (∀ b, boundary < b → ¬ resumable b) →
  ∃ b hb, boundary_from fuel hit begin_blocks pages boundary = Ok (b, hb) ∧
    (∀ b', resumable b' → b' ≤ b) ∧
    ((b = begin_blocks ∧ hb = begin_blocks ∧ ∀ b', ¬ resumable b') ∨ (resumable b ∧ hb = Z.max begin_blocks (b - pages))).
Proof.
  revert boundary. induction fuel as [|fuel IH]; intros boundary Hend Hfuel Hno; cbn [boundary_from].
  { assert (∀ b', ¬ resumable b') as Hnone by (intros b' Hr; apply (Hno b'); [destruct Hr; lia|done]).
    exists begin_blocks, begin_blocks. split; [done|]. split; [intros b' Hr; by destruct (Hnone b')|]. by left. }
  destruct (Z.ltb_spec begin_blocks boundary) as [Hlt|Hge].
  2: { assert (∀ b', ¬ resumable b') as Hnone by (intros b' Hr; apply (Hno b'); [destruct Hr; lia|done]).
       exists begin_blocks, begin_blocks. split; [done|]. split; [intros b' Hr; by destruct (Hnone b')|]. by left. }
  destruct (back_run_spec (Z.to_nat (boundary - begin_blocks)) boundary boundary) as (en & hb & -> & Hb & Hall & Hcase); [lia..|].
  cbn [mbind result_bind].
  assert (∀ b, resumable b → b ≤ boundary) as Hmax.
  { intros b Hr. destruct (Z.le_gt_cases b boundary); [done|]. by destruct (Hno b). }
  destruct en.
  - exists boundary, hb. split; [done|]. split; [done|]. right. split; [|lia]. split; [lia|]. intros j Hj. apply Hall. lia.
  - destruct Hcase as [Hfew Hstop]. destruct (Z.eqb_spec hb begin_blocks) as [->|Hne]; cbn [andb].
    + rewrite (proj2 (Z.ltb_lt _ _)) by lia. exists boundary, begin_blocks. split; [done|]. split; [done|]. right.
      split; [|lia]. split; [lia|]. intros j Hj. apply Hall. lia.
    + destruct Hstop as [?|[Hbb Hmiss]]; [done|]. apply (IH (hb - 1)); [lia|lia|].
      intros b Hgt Hr. pose proof (Hmax b Hr). destruct Hr as [Hrange Hr].
      rewrite Hr in Hmiss; [done|]. lia.
Qed.

(** The scan of a sliding-window group ends, at the highest boundary the window can
    resume at, if there is one. *)
Lemma findResumableBoundary_spec :
  ∃ b hb, findResumableBoundary hit pages begin_blocks end_blocks = Ok (b, hb) ∧
    (∀ b', resumable b' → b' ≤ b) ∧
    ((b = begin_blocks ∧ hb = begin_blocks ∧ ∀ b', ¬ resumable b') ∨ (resumable b ∧ hb = Z.max begin_blocks (b - pages))).
Proof.
  apply boundary_from_spec; [lia|lia|]. intros b Hb [Hr _]. lia.
Qed.

Lemma full_run_spec fuel j :
  begin_blocks ≤ j → end_blocks - j ≤ Z.of_nat fuel →
  ∃ n, full_run fuel hit j end_blocks = Ok n ∧ (∀ m, j ≤ m < j + Z.of_nat n → h m = true) ∧ j + Z.of_nat n ≤ Z.max j end_blocks ∧
    (j + Z.of_nat n < end_blocks → h (j + Z.of_nat n) = false).
Proof.
  revert j. induction fuel as [|fuel IH]; intros j Hj Hfuel; cbn [full_run]; [exists O; split_and!; [done|lia|lia|lia]|].
  destruct (Z.ltb_spec j end_blocks) as [Hlt|Hge]; [|exists O; split_and!; [done|lia|lia|lia]].
  rewrite Hhit by lia. cbn [mbind result_bind]. destruct (h j) eqn:Hh.
  - destruct (IH (j + 1)) as (n & -> & Hall & Hle & Hstop); [lia|lia|]. exists (S n). split; [done|]. split_and!.
    + intros m Hm. destruct (decide (m = j)) as [->|]; [done|]. apply Hall. lia.
    + lia.
    + intros Hlt'. replace (j + Z.of_nat (S n)) with (j + 1 + Z.of_nat n) by lia. apply Hstop. lia.
  - exists O. split_and!; [done|lia|lia|]. by rewrite Z.add_0_r.
Qed.
End scan.

(** ** What a probe finds *)

(** Whether a matcher that resumes at page boundary [b] reads page [j]. *)
Definition reads (self : PrefixMatcher) (b j : Z) : bool :=
  match self with
  | FullAttnMatcher => true
  | StateMatcher => false
  | SwaMatcher g w => b * g - (w - 1) <? (j + 1) * g
  end.

Definition walks (self : PrefixMatcher) : Prop :=
  match self with
  | FullAttnMatcher => True
  | StateMatcher => False
  | SwaMatcher g w => 0 < g ∧ 0 < w ∧ w - 1 + g ≤ INT32_MAX
  end.

Definition is_hit (index : PrefixCacheIndex) (i : nat) (extra_hits : option (gset CacheKey)) (k : CacheKey) : bool :=
  match PrefixKeyIsHit i k extra_hits index with Ok b => b | Raise _ => false end.

Lemma PrefixKeyIsHit_Ok index i extra k :
  valid_key (group_id_ index) k → PrefixKeyIsHit i k extra index = Ok (is_hit index i extra k).
Proof.
  intros Hk. unfold is_hit, PrefixKeyIsHit, Contains_key, findCacheEntries.
  destruct (cache_entries_by_pool_ index !! i) as [E|]; [|done]. by rewrite findEntry_key_Ok.
Qed.

Lemma is_hit_caches h index i k :
  index_ok h index → valid_key (group_id_ index) k → is_hit index i None k = true ↔ ∃ e, caches index i k e.
Proof.
  intros Hio Hk. unfold is_hit, PrefixKeyIsHit, Contains_key, findCacheEntries.
  destruct (cache_entries_by_pool_ index !! i) as [E|] eqn:HE; cbn.
  - rewrite findEntry_key_Ok by done. cbn. rewrite orb_false_r, bool_decide_eq_true. unfold is_Some.
    setoid_rewrite (eo_key _ _ _ _ (io_entries _ _ Hio i E HE)). split.
    + intros (n & e & Hin & Hke). exists e, E, n. done.
    + intros (e & E0 & n & HE0 & Hin & Hke). rewrite HE in HE0. injection HE0 as <-. by exists n, e.
  - split; [done|]. intros (e & E & n & HE' & _). congruence.
Qed.

Section probe.
Context (index : PrefixCacheIndex) (i : nat) (keys : list CacheKey) (begin_blocks max_blocks : Z).
Context (extra : option (gset CacheKey)).
Context (Hkeys : Forall (valid_key (group_id_ index)) keys) (Hbegin : 0 ≤ begin_blocks).

Let end_blocks := end_blocks_of keys max_blocks.

Definition page_hit (j : Z) : bool :=
  match keys !! Z.to_nat j with Some k => is_hit index i extra k | None => false end.

(** A boundary every page read behind it is cached. *)
Definition accepts (self : PrefixMatcher) (b : Z) : Prop :=
  begin_blocks < b ≤ end_blocks ∧ ∀ j, begin_blocks ≤ j < b → reads self b j = true → page_hit j = true.

Lemma hit_Ok j : begin_blocks ≤ j < end_blocks →
  (k ← vec_at keys j; PrefixKeyIsHit i k extra index) = Ok (page_hit j).
Proof.
  intros Hj. unfold end_blocks, end_blocks_of in Hj. destruct (lookup_lt_is_Some_2 keys (Z.to_nat j)) as [k Hk]; [lia|].
  rewrite (vec_at_some keys j k) by (lia || done). cbn [mbind result_bind]. unfold page_hit. rewrite Hk.
  apply PrefixKeyIsHit_Ok. by eapply Forall_lookup_1.
Qed.

(** A probe [hits] stands at the highest boundary [self] accepts. *)
Definition highest (self : PrefixMatcher) (hits : list Z) : Prop :=
  let b := begin_blocks + Z.of_nat (length hits) in
  (hits = [] ∨ accepts self b) ∧ (∀ b', accepts self b' → b' ≤ b) ∧
  ∀ n, (n < length hits)%nat → hits !! n = Some (if reads self b (begin_blocks + Z.of_nat n) then 1 else 0).

Lemma full_highest :
  ∃ hits, Probe FullAttnMatcher index i keys begin_blocks max_blocks extra = Ok (mkProbe hits) ∧ highest FullAttnMatcher hits.
Proof.
  unfold Probe. fold end_blocks.
  destruct (full_run_spec (λ j, k ← vec_at keys j; PrefixKeyIsHit i k extra index) page_hit begin_blocks end_blocks hit_Ok
    (Z.to_nat (end_blocks - begin_blocks)) begin_blocks) as (n & -> & Hall & Hle & Hstop); [lia|lia|]. cbn [mbind result_bind].
  exists (replicate n 1). split; [done|]. unfold highest. rewrite length_replicate. split; [|split].
  - destruct n as [|n]; [by left|]. right. split; [lia|]. intros j Hj _. apply Hall. lia.
  - intros b' [Hb' Hr]. destruct (Z.le_gt_cases b' (begin_blocks + Z.of_nat n)); [done|].
    rewrite Hr in Hstop; [|lia|done]. by specialize (Hstop ltac:(lia)).
  - intros m Hm. by rewrite lookup_replicate_2.
Qed.

Section window.
Context (g w : Z) (Hg : 0 < g) (Hw : 0 < w) (Hint : w - 1 + g ≤ INT32_MAX).

Let pages := (w - 1 + g - 1) / g.

Lemma pages_Ok : pagesNeededToResume g w = Ok pages.
Proof.
  unfold pagesNeededToResume. rewrite i32_Ok by (unfold INT32_MIN, INT32_MAX in *; lia). cbn [mbind result_bind].
  rewrite i32_Ok by (unfold INT32_MIN, INT32_MAX in *; lia). cbn [mbind result_bind].
  rewrite i32_Ok by (unfold INT32_MIN, INT32_MAX in *; lia). cbn [mbind result_bind].
  unfold pages. rewrite Z.quot_div_nonneg by lia. done.
Qed.

Lemma reads_pages b j : reads (SwaMatcher g w) b j = true ↔ b - pages ≤ j.
Proof.
  unfold reads. rewrite Z.ltb_lt. unfold pages.
  pose proof (Z.div_mod (w - 1 + g - 1) g ltac:(lia)) as Hdm. pose proof (Z.mod_pos_bound (w - 1 + g - 1) g Hg) as Hb.
  set (q := (w - 1 + g - 1) / g) in *. split; intros H; nia.
Qed.

Lemma accepts_resumable b :
  accepts (SwaMatcher g w) b ↔ resumable page_hit begin_blocks end_blocks pages b.
Proof.
  unfold accepts, resumable. setoid_rewrite reads_pages. split; intros [Hr Hall]; (split; [done|]).
  - intros j Hj. apply Hall; lia.
  - intros j Hj Hp. apply Hall. lia.
Qed.

Lemma swa_highest :
  ∃ hits, Probe (SwaMatcher g w) index i keys begin_blocks max_blocks extra = Ok (mkProbe hits) ∧ highest (SwaMatcher g w) hits.
Proof.
  unfold Probe. fold end_blocks. destruct (Z.leb_spec end_blocks begin_blocks) as [Hle|Hlt].
  { exists []. split; [done|]. split; [by left|]. split; [|cbn; lia]. intros b' [? _]. lia. }
  rewrite pages_Ok. cbn [mbind result_bind]. assert (0 ≤ pages) as Hpos by (apply Z.div_pos; lia).
  destruct (Z.eqb_spec pages 0) as [Hz|Hnz].
  - exists (replicate (Z.to_nat (end_blocks - begin_blocks)) 0). split; [done|]. unfold highest. rewrite length_replicate.
    replace (begin_blocks + Z.of_nat (Z.to_nat (end_blocks - begin_blocks))) with end_blocks by lia. split; [|split].
    + right. apply accepts_resumable. split; [lia|]. intros j Hj. lia.
    + intros b' [? _]. lia.
    + intros n Hn. rewrite lookup_replicate_2 by done. f_equal.
      destruct (reads _ _ _) eqn:Hr; [|done]. apply reads_pages in Hr. lia.
  - destruct (findResumableBoundary_spec (λ j, k ← vec_at keys j; PrefixKeyIsHit i k extra index) page_hit begin_blocks end_blocks
      pages hit_Ok ltac:(lia)) as (b & hb & -> & Hmax & Hcase). cbn [mbind result_bind].
    destruct Hcase as [(-> & -> & Hno)|[Hr ->]].
    + rewrite Z.eqb_refl. exists []. split; [done|]. split; [by left|]. split; [|cbn; lia].
      intros b' Hb'%accepts_resumable. by destruct (Hno b').
    + pose proof Hr as [[Hb1 Hb2] _]. rewrite (proj2 (Z.eqb_neq _ _)) by lia. eexists. split; [done|]. unfold highest.
      rewrite length_app, !length_replicate.
      replace (begin_blocks + Z.of_nat _) with b by lia. split; [|split].
      * right. by apply accepts_resumable.
      * intros b' Hb'%accepts_resumable. by apply Hmax.
      * intros n Hn. destruct (reads (SwaMatcher g w) b (begin_blocks + Z.of_nat n)) eqn:Hrd.
        -- apply reads_pages in Hrd. rewrite lookup_app_r by (rewrite length_replicate; lia).
           rewrite length_replicate. apply lookup_replicate_2. lia.
        -- rewrite lookup_app_l; [apply lookup_replicate_2|rewrite length_replicate];
             (destruct (Z.le_gt_cases (b - pages) (begin_blocks + Z.of_nat n)) as [Hle|]; [by apply reads_pages in Hle; congruence|lia]).
Qed.
End window.
End probe.

Lemma Probe_walks self index i keys begin_blocks max_blocks extra :
  Forall (valid_key (group_id_ index)) keys → 0 ≤ begin_blocks → walks self →
  ∃ hits, Probe self index i keys begin_blocks max_blocks extra = Ok (mkProbe hits) ∧
    highest index i keys begin_blocks max_blocks extra self hits.
Proof.
  intros Hkeys Hbegin Hwalk. destruct self as [| |g w]; [by apply full_highest|done|].
  destruct Hwalk as (Hg & Hw & Hint). by apply swa_highest.
Qed.

(** ** Acquiring what was matched *)

Definition use (epoch : Z) (e : CacheEntry) : CacheEntry := set_epoch epoch (set_acquired e).

Lemma acquire_hit_spec h self F i k e c epoch :
  index_ok h self → owned h (index_refs self ++ F) → valid_key (group_id_ self) k →
  Z.of_nat (length (index_refs self ++ F)) < UINT32_MAX → caches self i k e → block_ref e = Some c →
  ∃ h' self', acquire_hit i k epoch (h, self) = (Ok (Some c), (h', self')) ∧ same_places h h' ∧
    index_ok h' self' ∧ index_refs self' ≡ₚ index_refs self ∧ owned h' (c :: index_refs self' ++ F) ∧
    published self i k (use epoch e) self'.
Proof.
  intros Hio How Hk Hroom (E & n & HE & Hin & <-) Hc. pose proof (io_entries _ _ Hio i E HE) as Hok.
  assert (by_key E !! key e = Some n) as Hn by (apply (eo_key _ _ _ _ Hok); by exists e).
  assert (n ∈ (entries E).*1) as Hnode by (by apply (list_elem_of_fmap_2 fst _ (n, e))).
  set (E1 := set_entry n (set_acquired e) E).
  assert (entries_ok h i (group_id_ self) E1) as Hok1 by (by apply (set_mark_ok h i _ E n e)).
  destruct (touchEntry_spec h i _ E1 n (set_acquired e) epoch Hok1) as (E' & Htouch & Hok' & Hent & Hrefs).
  { apply elem_of_set_entry; [done|by left]. }
  assert (entry_replaced E n (use epoch e) E') as Hrep.
  { split; [rewrite Hent; apply set_entry_twice|]. unfold E1 in Hrefs. by rewrite Hrefs, (set_entry_refs h i _ E Hok n e). }
  destruct (replaced_index h self i E Hio HE n _ E' Hok' Hrep) as [Hio' Hperm].
  destruct (copy_spec h (index_refs (with_entries i E' self) ++ F) c) as (h' & Hcopy & How' & Hsame).
  { by rewrite Hperm. }
  { rewrite Hperm, (index_refs_at i E self HE), !elem_of_app. do 2 left. by eapply ref_of_entry. }
  { by rewrite Hperm. }
  exists h', (with_entries i E' self). split; [|split; [done|split; [by eapply index_ok_same|split; [done|split; [done|]]]]].
  - unfold acquire_hit, findCacheEntries. rewrite (run_bind_Ok _ _ _ E (h, self)) by (apply run_ask; by rewrite HE).
    rewrite (run_bind_Ok _ _ _ _ _ (run_ask _ h self _ (findEntry_key_Ok self (key e) E Hk))), Hn.
    rewrite (run_bind_Ok _ _ _ n (h, self)) by (by apply run_ask).
    rewrite (run_bind_Ok _ _ _ _ _ (run_ask (λ _ _, entry_at n E) h self _ (entry_at_spec _ _ _ _ Hok n e Hin))).
    rewrite (run_bind_Ok _ _ _ _ _ (run_ask (λ h _, touchEntry n epoch E1 h) h self _ Htouch)).
    rewrite (run_bind_Ok _ _ _ _ _ (run_store i E' h self)), Hc. by apply run_heap.
  - by apply (replaced_published h self i E Hio HE n e).
Qed.

(** A key without an entry: nothing changes. *)
Lemma acquire_miss h self i k epoch :
  index_ok h self → valid_key (group_id_ self) k → (∀ e, ¬ caches self i k e) →
  ∃ msg, acquire_hit i k epoch (h, self) = (Raise (RuntimeError msg), (h, self)).
Proof.
  intros Hio Hk Hno. unfold acquire_hit, findCacheEntries. destruct (cache_entries_by_pool_ self !! i) as [E|] eqn:HE.
  - rewrite (run_bind_Ok _ _ _ E (h, self)) by (apply run_ask; by rewrite HE).
    rewrite (run_bind_Ok _ _ _ _ _ (run_ask _ h self _ (findEntry_key_Ok self k E Hk))).
    destruct (by_key E !! k) as [n|] eqn:Hn.
    { apply (eo_key _ _ _ _ (io_entries _ _ Hio i E HE)) in Hn as (e & Hin & Hke). destruct (Hno e). by exists E, n. }
    eexists. by apply run_bind_Raise.
  - eexists. apply run_bind_Raise. unfold ask, const. cbn. by rewrite HE.
Qed.

(** The keys a range of hits takes. *)
Definition hit_keys (range : list (Z * CacheKey)) : list CacheKey := (filter (λ item, item.1 ≠ 0) range).*2.

(** Every entry of a key taken is used at this epoch; the rest is as before. *)
Definition used (self : PrefixCacheIndex) (i : nat) (epoch : Z) (ks : list CacheKey) (self' : PrefixCacheIndex) : Prop :=
  group_id_ self' = group_id_ self ∧
  ∀ j k x, caches self' j k x ↔
    ∃ y, caches self j k y ∧ x = if decide (j = i ∧ k ∈ ks) then use epoch y else y.

(** The block a slot of the match holds. *)
Definition matched (self : PrefixCacheIndex) (i : nat) (item : Z * CacheKey) (r : CacheBlockRef) : Prop :=
  if decide (item.1 = 0) then r = None
  else ∃ e, caches self i item.2 e ∧ r = block_ref e ∧ r ≠ None.

Record acquires (h : heap) (self : PrefixCacheIndex) (F : list nat) (i : nat) (epoch : Z) (range : list (Z * CacheKey))
    (blocks : list CacheBlockRef) (h' : heap) (self' : PrefixCacheIndex) : Prop := {
  aq_ok : index_ok h' self';
  aq_same : same_places h h';
  aq_owned : owned h' (omap id blocks ++ index_refs self' ++ F);
  aq_used : used self i epoch (hit_keys range) self';
  aq_blocks : Forall2 (matched self i) range blocks;
}.

Lemma use_use epoch e : use epoch (use epoch e) = use epoch e.
Proof. done. Qed.

Lemma used_published h self i epoch k ks e self1 self' :
  index_ok h self → caches self i k e → published self i k (use epoch e) self1 → used self1 i epoch ks self' →
  used self i epoch (k :: ks) self'.
Proof.
  intros Hio He [Hg1 Hpub] [Hg Hus]. split; [congruence|]. intros j k' x. rewrite Hus. setoid_rewrite Hpub. split.
  - intros (y & [(-> & -> & ->)|[Hne Hy]] & ->).
    + exists e. split; [done|]. rewrite (decide_True (P := i = i ∧ k ∈ k :: ks)) by (split; [done|by left]). by case_decide.
    + exists y. split; [done|]. apply decide_ext. set_solver.
  - intros (y & Hy & ->). destruct (decide (j = i ∧ k' = k)) as [[-> ->]|Hne].
    + rewrite (caches_fun h self i k y e Hio Hy He) in *. exists (use epoch e). split; [by left|].
      rewrite (decide_True (P := i = i ∧ k ∈ k :: ks)) by (split; [done|by left]). by case_decide.
    + exists y. split; [right; done|]. apply decide_ext. set_solver.
Qed.

Lemma matched_published h self i epoch k e self1 item r :
  index_ok h self → caches self i k e → published self i k (use epoch e) self1 →
  matched self1 i item r → matched self i item r.
Proof.
  intros Hio He [_ Hpub]. unfold matched. case_decide; [done|]. intros (x & [(_ & -> & ->)|[_ Hx]]%Hpub & Hr); [by exists e|by exists x].
Qed.

Lemma same_places_shrinks h h' : same_places h h' → shrinks h h'.
Proof.
  intros [Hp Hpl]. split; [by rewrite Hp|intros c i l; by rewrite Hpl|]. intros i p Hi. exists p. by rewrite Hp.
Qed.

Lemma same_places_trans h1 h2 h3 : same_places h1 h2 → same_places h2 h3 → same_places h1 h3.
Proof. intros [Hp1 Hc1] [Hp2 Hc2]. split; [congruence|]. intros c. by rewrite Hc2. Qed.

Definition all_cached (self : PrefixCacheIndex) (i : nat) (ks : list CacheKey) : Prop := ∀ k, k ∈ ks → ∃ e, caches self i k e.

Lemma all_cached_published h self i epoch k e self1 ks :
  index_ok h self → caches self i k e → published self i k (use epoch e) self1 → all_cached self1 i ks ↔ all_cached self i ks.
Proof.
  intros Hio He [_ Hpub]. split; intros Hall k' Hk'; destruct (Hall k' Hk') as [x Hx].
  - apply Hpub in Hx as [(_ & -> & _)|[_ Hx]]; [by exists e|by exists x].
  - destruct (decide (k' = k)) as [->|Hne]; [exists (use epoch e)|exists x]; apply Hpub; [by left|]. right. split; [tauto|done].
Qed.

Section acquire.
Context (i : nat) (epoch : Z) (F : list nat).

Lemma acquire_hits_spec range h self taken :
  index_ok h self → owned h (omap id taken ++ index_refs self ++ F) →
  Forall (valid_key (group_id_ self)) (hit_keys range) →
  Z.of_nat (length (omap id taken ++ index_refs self ++ F) + length range) < UINT32_MAX →
  all_cached self i (hit_keys range) →
  ∃ blocks h' self', acquire_hits i epoch range taken (h, self) = (Ok (taken ++ blocks), (h', self')) ∧
    acquires h self (omap id taken ++ F) i epoch range blocks h' self'.
Proof.
  revert h self taken. induction range as [|[hit k] range IH]; intros h self taken Hio How Hkeys Hroom Hall; cbn [acquire_hits].
  - exists [], h, self. split; [by rewrite app_nil_r|]. split; [done|done| |split; [done|]|constructor].
    + revert How. apply owned_proper. cbn [omap list_omap app]. solve_Permutation.
    + intros j k x. split; [exists x; by rewrite decide_False by set_solver|]. intros (y & Hy & ->). by rewrite decide_False by set_solver.
  - unfold hit_keys in *. rewrite filter_cons in *. cbn [fst] in *. destruct (Z.eqb_spec hit 0) as [->|Hne].
    + rewrite decide_False in * by tauto. fold (hit_keys range) in *.
      destruct (IH h self (taken ++ [None])) as (blocks & h' & self' & Hrun & [Hio' Hsame How' Hused Hbl]); try done.
      { rewrite omap_app. cbn [omap list_omap]. by rewrite app_nil_r. }
      { rewrite omap_app. cbn [omap list_omap]. rewrite app_nil_r. cbn [length] in Hroom. lia. }
      exists (None :: blocks), h', self'. split; [etrans; [exact Hrun|]; by rewrite <- app_assoc|]. split; [done|done|..].
      * rewrite omap_app in How'. cbn [omap list_omap] in How'. by rewrite app_nil_r in How'.
      * unfold hit_keys. rewrite filter_cons, decide_False by (cbn; tauto). done.
      * constructor; [|done]. unfold matched. by rewrite decide_True.
    + rewrite decide_True in * by done. cbn [fmap list_fmap snd] in *. fold (hit_keys range) in *.
      destruct (Hall k) as [e He]; [by left|]. apply Forall_cons in Hkeys as [Hk Hkeys].
      assert (∃ c, block_ref e = Some c) as [c Hc].
      { destruct He as (E & n & HE & Hin & _). destruct (eo_placed _ _ _ _ (io_entries _ _ Hio i E HE) n e Hin) as (l & c & ? & _). by exists c. }
      destruct (acquire_hit_spec h self (omap id taken ++ F) i k e c epoch) as (h1 & self1 & Hrun1 & Hsame1 & Hio1 & Hperm & How1 & Hpub);
        [done|revert How; apply owned_proper; solve_Permutation|done|rewrite !length_app in *; lia|done|done|].
      destruct (IH h1 self1 (taken ++ [Some c])) as (blocks & h' & self' & Hrun & [Hio' Hsame How' Hused Hbl]).
      { done. }
      { rewrite omap_app. cbn [omap list_omap]. revert How1. apply owned_proper. cbn. solve_Permutation. }
      { destruct Hpub as [-> _]. done. }
      { rewrite omap_app. cbn [omap list_omap]. rewrite !length_app in *. cbn [length] in *. rewrite Hperm. cbn. lia. }
      { apply (all_cached_published h self i epoch k e self1); [done|done|done|]. intros k' Hk'. apply Hall. by right. }
      exists (Some c :: blocks), h', self'. rewrite Hrun1. split; [etrans; [exact Hrun|]; by rewrite <- app_assoc|]. split; [done|by eapply same_places_trans|..].
      * revert How'. apply owned_proper. rewrite omap_app. cbn. solve_Permutation.
      * unfold hit_keys. rewrite filter_cons, decide_True by done. by eapply used_published.
      * constructor; [|eapply Forall2_impl; [done|]; intros item r; by apply (matched_published h self i epoch k e self1)].
        unfold matched. rewrite decide_False by done. exists e. by rewrite Hc.
Qed.

(** A hit without an entry: the references taken so far are dropped. *)
Lemma acquire_hits_miss range h self taken :
  index_ok h self → owned h (omap id taken ++ index_refs self ++ F) →
  Forall (valid_key (group_id_ self)) (hit_keys range) →
  Z.of_nat (length (omap id taken ++ index_refs self ++ F) + length range) < UINT32_MAX →
  ¬ all_cached self i (hit_keys range) →
  ∃ msg h' self', acquire_hits i epoch range taken (h, self) = (Raise (RuntimeError msg), (h', self')) ∧
    index_ok h' self' ∧ owned h' (index_refs self' ++ F).
Proof.
  revert h self taken. induction range as [|[hit k] range IH]; intros h self taken Hio How Hkeys Hroom Hmiss; cbn [acquire_hits].
  - destruct Hmiss. by intros k ?%not_elem_of_nil.
  - unfold hit_keys in *. rewrite filter_cons in *. cbn [fst] in *. destruct (Z.eqb_spec hit 0) as [->|Hne].
    + rewrite decide_False in * by tauto. apply (IH h self (taken ++ [None])); try done; rewrite omap_app; cbn [omap list_omap];
        rewrite app_nil_r; [done|cbn [length] in Hroom; lia].
    + rewrite decide_True in * by done. cbn [fmap list_fmap snd] in *. apply Forall_cons in Hkeys as [Hk Hkeys].
      assert ((∃ e, caches self i k e) ∨ ∀ e, ¬ caches self i k e) as [[e He]|Hno].
      { destruct (is_hit self i None k) eqn:Hh; [left; by apply (is_hit_caches h)|]. right. intros e He.
        assert (is_hit self i None k = true); [apply (is_hit_caches h); [done|done|by exists e]|congruence]. }
      * assert (∃ c, block_ref e = Some c) as [c Hc].
        { destruct He as (E & n & HE & Hin & _). destruct (eo_placed _ _ _ _ (io_entries _ _ Hio i E HE) n e Hin) as (l & c & ? & _). by exists c. }
        destruct (acquire_hit_spec h self (omap id taken ++ F) i k e c epoch) as (h1 & self1 & Hrun1 & Hsame1 & Hio1 & Hperm & How1 & Hpub);
          [done|revert How; apply owned_proper; solve_Permutation|done|rewrite !length_app in *; lia|done|done|].
        rewrite Hrun1. apply (IH h1 self1 (taken ++ [Some c])); [done|..].
        -- rewrite omap_app. cbn [omap list_omap]. revert How1. apply owned_proper. cbn. solve_Permutation.
        -- destruct Hpub as [-> _]. done.
        -- rewrite omap_app. cbn [omap list_omap]. rewrite !length_app in *. cbn [length] in *. rewrite Hperm. cbn. lia.
        -- rewrite (all_cached_published h self i epoch k e self1) by done. intros Hall. apply Hmiss.
           intros k' [->|Hk']%elem_of_cons; [by exists e|by apply Hall].
      * destruct (acquire_miss h self i k epoch Hio Hk Hno) as [msg ->].
        destruct (reset_all_spec taken h (index_refs self ++ F) How) as (h' & Hreset & How' & Hsh).
        exists msg, h', self. split; [by rewrite (run_bind_Ok _ _ _ _ _ (run_heap _ _ _ self _ Hreset))|]. split; [|done].
        apply (index_ok_shrinks h h' self _ Hio How' Hsh). intros c Hc. apply elem_of_app. by left.
Qed.
End acquire.

Section acquire_matched.
Context (h : heap) (self : PrefixCacheIndex) (F : list nat) (i : nat) (keys : list CacheKey) (begin_blocks : Z).
Context (probe : GroupPrefixProbe) (epoch : Z) (range : list (Z * CacheKey)).
Context (Hio : index_ok h self) (How : owned h (index_refs self ++ F)) (Hkeys : Forall (valid_key (group_id_ self)) keys).
Context (Hroom : Z.of_nat (length (index_refs self ++ F) + length (hits probe)) < UINT32_MAX).
Context (Hrange : matched_range keys begin_blocks probe = Ok range).

Lemma range_zip : range = zip (hits probe) (drop (Z.to_nat begin_blocks) keys).
Proof. unfold matched_range in Hrange. by apply bind_Ok in Hrange as (_ & _ & [= <-]). Qed.

Lemma range_valid : Forall (valid_key (group_id_ self)) (hit_keys range).
Proof.
  apply Forall_forall. intros k ([hit k'] & -> & [_ Hin]%list_elem_of_filter)%list_elem_of_fmap. rewrite range_zip in Hin.
  apply elem_of_zip_r in Hin. rewrite Forall_forall in Hkeys. apply Hkeys. cbn.
  apply list_elem_of_lookup_1 in Hin as [n Hn]. rewrite lookup_drop in Hn. by eapply list_elem_of_lookup_2.
Qed.

Lemma range_room : Z.of_nat (length (omap id ([] : list CacheBlockRef) ++ index_refs self ++ F) + length range) < UINT32_MAX.
Proof. rewrite range_zip, length_zip_with. cbn. lia. Qed.

Lemma AcquireMatched_ok :
  all_cached self i (hit_keys range) → ∃ blocks h' self',
    AcquireMatched i keys begin_blocks probe epoch (h, self) = (Ok (mkMatch blocks), (h', self')) ∧
    acquires h self F i epoch range blocks h' self'.
Proof.
  intros Hall. destruct (acquire_hits_spec i epoch F range h self [] Hio How range_valid range_room Hall) as (blocks & h' & self' & Hrun & Hacq).
  exists blocks, h', self'. split; [|done]. unfold AcquireMatched.
  rewrite (run_bind_Ok _ _ _ range (h, self)) by (by apply run_ask). by rewrite (run_bind_Ok _ _ _ _ _ Hrun).
Qed.

Lemma AcquireMatched_miss :
  ¬ all_cached self i (hit_keys range) → ∃ msg h' self',
    AcquireMatched i keys begin_blocks probe epoch (h, self) = (Raise (RuntimeError msg), (h', self')) ∧
    index_ok h' self' ∧ owned h' (index_refs self' ++ F).
Proof.
  intros Hall. destruct (acquire_hits_miss i epoch F range h self [] Hio How range_valid range_room Hall) as (msg & h' & self' & Hrun & Hpost).
  exists msg, h', self'. split; [|done]. unfold AcquireMatched.
  rewrite (run_bind_Ok _ _ _ range (h, self)) by (by apply run_ask). by rewrite (run_bind_Raise _ _ _ _ _ Hrun).
Qed.
End acquire_matched.

(** Acquiring a match is exact.  When every key marked in the probe is cached, the match
    holds the block of each such key and null elsewhere, one more reference each, those
    entries are marked as used at this epoch, and nothing else changes.  When one is
    missing the call throws and every reference it had taken is dropped again. *)
Theorem acquire_matched_exact h self F i keys begin_blocks probe epoch range :
  index_ok h self → owned h (index_refs self ++ F) → Forall (valid_key (group_id_ self)) keys →
  Z.of_nat (length (index_refs self ++ F) + length (hits probe)) < UINT32_MAX →
  matched_range keys begin_blocks probe = Ok range →
  (all_cached self i (hit_keys range) → ∃ blocks h' self',
     AcquireMatched i keys begin_blocks probe epoch (h, self) = (Ok (mkMatch blocks), (h', self')) ∧
     acquires h self F i epoch range blocks h' self') ∧
  (¬ all_cached self i (hit_keys range) → ∃ msg h' self',
     AcquireMatched i keys begin_blocks probe epoch (h, self) = (Raise (RuntimeError msg), (h', self')) ∧
     index_ok h' self' ∧ owned h' (index_refs self' ++ F)).
Proof.
  intros Hio How Hkeys Hroom Hrange. split; [by apply AcquireMatched_ok|by apply AcquireMatched_miss].
Qed.

(** ** Matching and acquiring together *)

Lemma probe_range keys begin_blocks max_blocks index i extra self hits :
  0 ≤ begin_blocks → highest index i keys begin_blocks max_blocks extra self hits →
  begin_blocks ≤ Z.of_nat (length keys) →
  matched_range keys begin_blocks (mkProbe hits) = Ok (zip hits (drop (Z.to_nat begin_blocks) keys)).
Proof.
  intros Hbegin (Hacc & _ & _) Hle. unfold matched_range. cbn [PrefixIndex.hits].
  assert (begin_blocks + Z.of_nat (length hits) ≤ Z.of_nat (length keys)) as Hend; [|by pass_check lia].
  destruct Hacc as [->|[Hb _]]; [cbn; lia|]. unfold end_blocks_of in Hb. lia.
Qed.

(** The keys of a probe from the index alone are cached. *)
Lemma highest_cached h index i keys begin_blocks max_blocks self hits :
  index_ok h index → Forall (valid_key (group_id_ index)) keys → 0 ≤ begin_blocks →
  highest index i keys begin_blocks max_blocks None self hits →
  all_cached index i (hit_keys (zip hits (drop (Z.to_nat begin_blocks) keys))).
Proof.
  intros Hio Hkeys Hbegin (Hacc & _ & Hslots) k Hk.
  apply list_elem_of_fmap in Hk as ([hit k'] & -> & [Hne Hin]%list_elem_of_filter). cbn in *.
  apply list_elem_of_lookup_1 in Hin as [n Hn]. apply lookup_zip_Some in Hn as [Hhit Hkey]. rewrite lookup_drop in Hkey.
  pose proof (lookup_lt_Some _ _ _ Hhit) as Hlt. destruct Hacc as [->|[Hb Hacc]]; [cbn in Hlt; lia|].
  rewrite (Hslots n Hlt) in Hhit. destruct (reads _ _ _) eqn:Hr; [|congruence].
  specialize (Hacc (begin_blocks + Z.of_nat n) ltac:(lia) Hr). unfold page_hit in Hacc.
  replace (Z.to_nat (begin_blocks + Z.of_nat n)) with (Z.to_nat begin_blocks + n)%nat in Hacc by lia. rewrite Hkey in Hacc.
  apply (is_hit_caches h); [done| |done]. by eapply Forall_lookup_1.
Qed.


(** The first two of three pages are cached; a window of five tokens over pages of four
    resumes at page two and reads only the second page. *)
Definition three_keys : list CacheKey := [a_key; other_key; mkKey 0 0 "ef" 0].

Lemma three_valid : Forall (valid_key (group_id_ an_index)) three_keys.
Proof. repeat constructor; done. Qed.


Lemma acquire_matched_exact_witness :
  ∃ msg h' index', AcquireMatched 0 three_keys 0 (mkProbe [1; 0; 1]) 7 (dropped.2, an_index) = (Raise (RuntimeError msg), (h', index')) ∧
    owned h' (index_refs index' ++ [0; 0])%nat.
Proof.
  destruct an_index_ok as [Hok How].
  destruct (acquire_matched_exact dropped.2 an_index [0%nat; 0%nat] 0 three_keys 0 (mkProbe [1; 0; 1]) 7
              [(1, a_key); (0, other_key); (1, mkKey 0 0 "ef" 0)] Hok How three_valid) as [_ Hmiss].
  - vm_compute. reflexivity.
  - reflexivity.
  - destruct Hmiss as (msg & h' & index' & Hrun & _ & How').
    + intros Hall. destruct (Hall (mkKey 0 0 "ef" 0)) as (e & Hc); [right; by left|].
      assert (is_hit an_index 0 None (mkKey 0 0 "ef" 0) = true) as Hhit by (apply (is_hit_caches dropped.2); [done|done|by exists e]).
      vm_compute in Hhit. discriminate Hhit.
    + exists msg, h', index'. split; [exact Hrun|exact How'].
Defined.
