(* ===== verification/SchedulerConfig.v ===== *)
(** * The configuration of the scheduler

    [csrc/cache/core/cache_config.{h,cpp}], [csrc/scheduler/types.{h,cpp}] and the
    limits of [csrc/cache/tier/storage.h]: the records the runtime fills in and their
    validation.  [std::invalid_argument] is [ValueError].  The group specifications
    derived from a configuration ([scheduler/operations/cache.cpp]) follow. *)

From stdpp Require Import strings.
From S2P Require Import Prelude PyState Cxx.

Local Open Scope Z_scope.

Inductive AttnKind := kFull | kSlidingWindow | kState.
Inductive CacheTransferPolicy := Unspecified | FullSuffix | LatestSnapshot.
Inductive Role := kP | kD | kFused.

#[export] Instance AttnKind_dec : EqDecision AttnKind.
Proof. solve_decision. Defined.
#[export] Instance CacheTransferPolicy_eq_dec : EqDecision CacheTransferPolicy.
Proof. solve_decision. Defined.
#[export] Instance Role_eq_dec : EqDecision Role.
Proof. solve_decision. Defined.

Definition invalid (condition : bool) (message : string) : result () := raise_when condition (ValueError message).

(** ** Messages *)

Definition state_span_message : string :=
  "a State group has no token span: block_granularity must be 0 (its two slots hold whole recurrent states, not token rows)".
Definition replay_message : string :=
  "only a sliding-window group can be regenerated by bounded replay; a full-history group is prefix-closed and shared, a state group is a checkpoint".
Definition budget_message : string :=
  "Scheduler: max_scheduled_tokens must cover the replayable groups' largest sliding_window_tokens plus max(that window, prefix_granularity)".
Definition snapshot_page_message : string :=
  "Scheduler: snapshot_allocator.total_pages (num_snapshot_pages, from --retraction-snapshot-host-gb) must include the null page: 1 means the engine never retracts".
Definition retracted_message : string :=
  "Scheduler: max_retracted_requests (--retraction-snapshot-max-requests) must be >= 0".
Definition slots_message : string :=
  "Scheduler: a snapshot pool above the null page (num_snapshot_pages > 1, from --retraction-snapshot-host-gb) requires max_retracted_requests > 0 (--retraction-snapshot-max-requests), and max_retracted_requests > 0 requires a snapshot pool".
Definition prefill_role_message : string :=
  "Scheduler: the P role never retracts and takes no snapshot pool (--retraction-snapshot-host-gb must be 0 on the prefill role)".
Definition debug_message : string :=
  "Scheduler: debug_force_retraction_interval (--debug-force-retraction-interval) requires a snapshot pool (--retraction-snapshot-host-gb > 0): without one nothing can be retracted".
Definition limits_message : string :=
  "L3 limits and deadlines must be positive and the minimum must fit the maximum".
Definition watermark_message : string :=
  "L3 pressure high watermarks must exceed nonnegative low watermarks".
Definition device_message : string :=
  "Scheduler: device cache must contain a null page and usable capacity".
Definition overlap_message : string :=
  "Scheduler: overlapped decode requires decode_input_tokens > 0".
Definition window_message : string :=
  "only a sliding-window group carries sliding_window_tokens".
Definition positive_window_message : string :=
  "sliding_window_tokens must be > 0 for sliding groups".
Definition policy_message : string :=
  "transfer_policy does not match its scheduler destination layout".
Definition divide_message : string :=
  "block_granularity must divide the scheduler prefix_granularity".
Definition checkpoint_message : string :=
  "Scheduler: state_checkpoint_in_forward requires prefix caching".
Definition shards_message : string :=
  "shard_count must be positive and divide parent packing".
Definition storage_message : string :=
  "StorageConfig requires L3 storage to be enabled".
Definition credits_message : string :=
  "L3 Host credits must not exceed usable Host parents".

(** ** One cache group *)

Module CacheGroupConfig.
Record t := mk {
  group_id : string;
  block_granularity : Z;
  total_pages : Z;
  cache_blocks_per_lcm_block : Z;
  attn_kind : AttnKind;
  sliding_window_tokens : option Z;
  replayable : bool;
  transfer_policy : CacheTransferPolicy;
  shard_count : Z;
}.

Definition where_ (self : t) : string := "Cache group '" +:+ group_id self +:+ "': ".

Definition ValidateCapacityInputs (self : t) : result () :=
  invalid (bool_decide (group_id self = ""%string)) "CacheGroupConfig: group_id must be non-empty";;
  (if decide (attn_kind self = kState) then
     invalid (negb (block_granularity self =? 0))
       (where_ self +:+ state_span_message)
   else invalid (block_granularity self <=? 0) (where_ self +:+ "block_granularity must be > 0"));;
  invalid (cache_blocks_per_lcm_block self <=? 0) (where_ self +:+ "cache_blocks_per_lcm_block must be > 0");;
  invalid ((shard_count self <=? 0) || negb (Z.rem (cache_blocks_per_lcm_block self) (shard_count self) =? 0))
    (where_ self +:+ shards_message);;
  (if decide (attn_kind self = kSlidingWindow) then
     invalid (match sliding_window_tokens self with None => true | Some w => w <=? 0 end)
       (where_ self +:+ positive_window_message)
   else invalid (bool_decide (is_Some (sliding_window_tokens self)))
          (where_ self +:+ window_message));;
  invalid (replayable self && bool_decide (attn_kind self ≠ kSlidingWindow))
    (where_ self +:+ replay_message).

Definition Validate (self : t) : result () :=
  ValidateCapacityInputs self;;
  invalid (total_pages self <? 1) (where_ self +:+ "total_pages must include the null page").
End CacheGroupConfig.

(** ** Storage limits *)

Module StoragePressure.
Record t := mk { queued_operations : Z; queued_bytes : Z; oldest_operation_us : Z }.

Definition Validate (self : t) : result () :=
  invalid ((queued_operations self <? 0) || (queued_bytes self <? 0) || (oldest_operation_us self <? 0))
    "L3 pressure observations cannot be negative".
End StoragePressure.

Module StorageConfig.
Record t := mk {
  max_operations : Z;
  max_keys_per_operation : Z;
  max_host_blocks : Z;
  metadata_entries : Z;
  max_prefetch_tokens : Z;
  min_prefetch_tokens : Z;
  wait_timeout_us : Z;
  ready_timeout_us : Z;
  pressure_high : StoragePressure.t;
  pressure_low : StoragePressure.t;
}.

Definition Validate (self : t) : result () :=
  invalid ((max_operations self <=? 0) || (max_keys_per_operation self <=? 0) || (max_host_blocks self <=? 0) ||
           (metadata_entries self <=? 0) || (max_prefetch_tokens self <=? 0) || (min_prefetch_tokens self <=? 0) ||
           (max_prefetch_tokens self <? min_prefetch_tokens self) || (wait_timeout_us self <=? 0) ||
           (ready_timeout_us self <=? 0))
    limits_message;;
  StoragePressure.Validate (pressure_low self);;
  invalid
    ((StoragePressure.queued_operations (pressure_high self) <=? StoragePressure.queued_operations (pressure_low self)) ||
     (StoragePressure.queued_bytes (pressure_high self) <=? StoragePressure.queued_bytes (pressure_low self)) ||
     (StoragePressure.oldest_operation_us (pressure_high self) <=?
        StoragePressure.oldest_operation_us (pressure_low self)))
    watermark_message.
End StorageConfig.

(** ** The scheduler *)

Module SchedulerConfig.
Record t := mk {
  prefix_granularity : Z;
  host_total_pages : Z;
  device_total_pages : Z;
  snapshot_total_pages : Z;
  max_retracted_requests : Z;
  debug_force_retraction_interval : Z;
  cache_groups : list CacheGroupConfig.t;
  max_scheduled_tokens : Z;
  max_batch_size : Z;
  decode_input_tokens : Z;
  overlap_schedule_depth : Z;
  disable_l2_cache : bool;
  enable_l3_storage : bool;
  storage_config : option StorageConfig.t;
  enable_kv_cache_events : bool;
  enable_mixed_prefill_decode : bool;
  role : Role;
  disable_prefix_cache : bool;
  prefix_replay_tokens : Z;
  state_checkpoint_in_forward : bool;
}.

(** [AllocatorConfig::NumUsableBlocks] *)
Definition NumUsableBlocks (total_pages : Z) : result Z := i32 (total_pages - 1).

Definition HasHostCache (self : t) : bool := negb (disable_l2_cache self) && (1 <? host_total_pages self).
Definition HasSnapshotPool (self : t) : bool := 1 <? snapshot_total_pages self.
Definition StreamsDeviceCacheToHost (self : t) : bool := HasHostCache self && bool_decide (role self ≠ kD).

Definition validateGroupCapacityInputs (config : t) (group : CacheGroupConfig.t) : result () :=
  CacheGroupConfig.ValidateCapacityInputs group;;
  invalid (bool_decide (CacheGroupConfig.attn_kind group ≠ kState) &&
           negb (Z.rem (prefix_granularity config) (CacheGroupConfig.block_granularity group) =? 0))
    (CacheGroupConfig.where_ group +:+ divide_message);;
  if decide (role config = kFused) then Ok ()
  else
    let expected := if decide (CacheGroupConfig.attn_kind group = kState) then LatestSnapshot else FullSuffix in
    invalid (bool_decide (CacheGroupConfig.transfer_policy group = Unspecified))
      (CacheGroupConfig.where_ group +:+ "PD cache requires an explicit transfer_policy");;
    invalid (bool_decide (CacheGroupConfig.transfer_policy group ≠ expected))
      (CacheGroupConfig.where_ group +:+ policy_message).

(** The loop over the groups and the largest window of a replayable one. *)
Definition replay_step (config : t) (replay_window_tokens : Z) (group : CacheGroupConfig.t) : result Z :=
  validateGroupCapacityInputs config group;;
  if CacheGroupConfig.replayable group then
    w ← lookup_or (Undefined "empty std::optional") (CacheGroupConfig.sliding_window_tokens group);
    Ok (Z.max replay_window_tokens w)
  else Ok replay_window_tokens.

Definition ValidateCapacityInputs (self : t) : result () :=
  invalid (prefix_granularity self <=? 0) "Scheduler: prefix_granularity must be > 0";;
  invalid (bool_decide (cache_groups self = [])) "Scheduler: at least one cache group is required";;
  invalid (max_batch_size self <? 0) "Scheduler: max_batch_size must be >= 0";;
  invalid (decode_input_tokens self <? 0) "Scheduler: decode_input_tokens must be >= 0";;
  invalid (max_scheduled_tokens self <=? 0) "Scheduler: max_scheduled_tokens must be > 0";;
  invalid ((overlap_schedule_depth self <? 0) || (1 <? overlap_schedule_depth self))
    "Scheduler: overlap_schedule_depth must be 0 or 1";;
  invalid ((0 <? overlap_schedule_depth self) && (decode_input_tokens self =? 0))
    overlap_message;;
  replay_window_tokens ← foldM (replay_step self) 0 (cache_groups self);
  if 0 <? replay_window_tokens then
    least ← i32 (replay_window_tokens + Z.max replay_window_tokens (prefix_granularity self));
    invalid (max_scheduled_tokens self <? least)
      budget_message
  else Ok ().

Definition validate_storage (self : t) : result () :=
  invalid (negb (enable_l3_storage self) && bool_decide (is_Some (storage_config self)))
    storage_message;;
  if enable_l3_storage self then
    storage ← lookup_or (ValueError "L3 requires an explicit StorageConfig") (storage_config self);
    StorageConfig.Validate storage;;
    usable ← NumUsableBlocks (host_total_pages self);
    invalid (usable <? StorageConfig.max_host_blocks storage) credits_message
  else Ok ().

Definition Validate (self : t) : result () :=
  ValidateCapacityInputs self;;
  invalid (device_total_pages self <=? 1) device_message;;
  foldM (λ _ group, CacheGroupConfig.Validate group) () (cache_groups self);;
  invalid (prefix_replay_tokens self <? 0) "Scheduler: prefix_replay_tokens must be >= 0";;
  invalid (state_checkpoint_in_forward self && disable_prefix_cache self && bool_decide (role self ≠ kD))
    checkpoint_message;;
  validate_storage self;;
  invalid (enable_l3_storage self && negb (HasHostCache self)) "Scheduler: L3 storage requires Host L2 cache";;
  invalid (snapshot_total_pages self <? 1)
    snapshot_page_message;;
  invalid (max_retracted_requests self <? 0)
    retracted_message;;
  invalid (negb (eqb (HasSnapshotPool self) (0 <? max_retracted_requests self)))
    slots_message;;
  invalid (bool_decide (role self = kP) && HasSnapshotPool self)
    prefill_role_message;;
  invalid (negb (debug_force_retraction_interval self =? 0) && negb (HasSnapshotPool self))
    debug_message.
End SchedulerConfig.

(** ** Specifications *)

Module CacheGroupSpec.
Record t := mk {
  attn_kind : AttnKind;
  sliding_window : Z;
  replayable : bool;
  cache_blocks_per_lcm_block : Z;
  block_granularity : Z;
  shard_count : Z;
}.
End CacheGroupSpec.

Definition make_spec (group : CacheGroupConfig.t) : result CacheGroupSpec.t :=
  let kind := CacheGroupConfig.attn_kind group in
  window ← (if decide (kind = kSlidingWindow)
            then lookup_or (Undefined "empty std::optional") (CacheGroupConfig.sliding_window_tokens group)
            else Ok 0);
  Ok (CacheGroupSpec.mk kind window (CacheGroupConfig.replayable group)
        (CacheGroupConfig.cache_blocks_per_lcm_block group) (CacheGroupConfig.block_granularity group)
        (CacheGroupConfig.shard_count group)).

Definition MakeSpecsFromConfig (config : SchedulerConfig.t) : result (list CacheGroupSpec.t) :=
  mapM make_spec (SchedulerConfig.cache_groups config).

(** ** What validation accepts *)

(** A group as the rest of the scheduler relies on it. *)
Record group_valid (config : SchedulerConfig.t) (group : CacheGroupConfig.t) : Prop := {
  gv_named : CacheGroupConfig.group_id group ≠ ""%string;
  gv_span : if decide (CacheGroupConfig.attn_kind group = kState) then CacheGroupConfig.block_granularity group = 0
    else 0 < CacheGroupConfig.block_granularity group ∧
      Z.rem (SchedulerConfig.prefix_granularity config) (CacheGroupConfig.block_granularity group) = 0;
  gv_packing : 0 < CacheGroupConfig.cache_blocks_per_lcm_block group;
  gv_shards : 0 < CacheGroupConfig.shard_count group ∧
    Z.rem (CacheGroupConfig.cache_blocks_per_lcm_block group) (CacheGroupConfig.shard_count group) = 0;
  gv_window : if decide (CacheGroupConfig.attn_kind group = kSlidingWindow)
    then ∃ w, CacheGroupConfig.sliding_window_tokens group = Some w ∧ 0 < w
    else CacheGroupConfig.sliding_window_tokens group = None;
  gv_replay : CacheGroupConfig.replayable group = true → CacheGroupConfig.attn_kind group = kSlidingWindow;
  gv_policy : SchedulerConfig.role config ≠ kFused → CacheGroupConfig.transfer_policy group =
    if decide (CacheGroupConfig.attn_kind group = kState) then LatestSnapshot else FullSuffix;
}.

Lemma invalid_Ok b msg u : invalid b msg = Ok u ↔ b = false.
Proof. apply raise_when_Ok. Qed.

Lemma invalid_pass {A} b msg (k : () → result A) : b = false → invalid b msg ≫= k = k ().
Proof. by intros ->. Qed.

(** Pass the outermost check. *)
Ltac pass_valid tac :=
  match goal with
  | |- context [mbind ?k (invalid ?b ?msg)] => rewrite (invalid_pass b msg k) by tac; cbn [mbind result_bind]
  end.

Lemma then_Ok {A} (m : result ()) (k : result A) u : (m;; k) = Ok u ↔ m = Ok () ∧ k = Ok u.
Proof. destruct m as [[]|e]; cbn; naive_solver. Qed.

Lemma group_inputs_Ok config group :
  SchedulerConfig.validateGroupCapacityInputs config group = Ok () ↔ group_valid config group.
Proof.
  unfold SchedulerConfig.validateGroupCapacityInputs, CacheGroupConfig.ValidateCapacityInputs.
  rewrite !then_Ok, !invalid_Ok. destruct group as [name bg pages packing kind window replay policy shards]; cbn.
  split.
  - intros ((Hname & Hspan & Hpk & Hsh & Hwin & Hrep) & Hdiv & Hpol). apply bool_decide_eq_false in Hname.
    apply orb_false_elim in Hsh as [Hsh1 Hsh2]. split; cbn.
    + done.
    + destruct (decide (kind = kState)) as [->|Hk]; rewrite invalid_Ok in Hspan; [lia|].
      rewrite bool_decide_eq_true_2 in Hdiv by done. cbn in Hdiv. lia.
    + lia.
    + lia.
    + destruct (decide (kind = kSlidingWindow)) as [->|Hk]; rewrite invalid_Ok in Hwin.
      * destruct window as [w|]; [|done]. exists w. split; [done|lia].
      * apply bool_decide_eq_false in Hwin. destruct window; [|done]. destruct Hwin. by eexists.
    + intros ->. destruct kind; [done|done|done].
    + intros Hrole. rewrite decide_False in Hpol by done. rewrite then_Ok, !invalid_Ok in Hpol. destruct Hpol as [_ Hpol].
      apply bool_decide_eq_false in Hpol. by apply dec_stable in Hpol.
  - intros [Hname Hspan Hpk [Hsh1 Hsh2] Hwin Hrep Hpol]. cbn in *. split; [split_and!|split].
    + by apply bool_decide_eq_false.
    + destruct (decide (kind = kState)); rewrite invalid_Ok; lia.
    + lia.
    + lia.
    + destruct (decide (kind = kSlidingWindow)); rewrite invalid_Ok.
      * destruct Hwin as (w & -> & Hw). lia.
      * by rewrite Hwin, bool_decide_eq_false_2 by (intros []; done).
    + destruct replay; [|done]. by rewrite bool_decide_eq_false_2 by (rewrite (Hrep eq_refl); tauto).
    + case_bool_decide as Hk; [|done]. rewrite decide_False in Hspan by done. lia.
    + destruct (decide (SchedulerConfig.role config = kFused)) as [|Hrole]; [done|]. rewrite then_Ok, !invalid_Ok.
      rewrite (Hpol Hrole). split; apply bool_decide_eq_false; destruct (decide (kind = kState)); tauto || done.
Qed.

(** The largest window of a replayable group. *)
Definition replay_window (groups : list CacheGroupConfig.t) : Z :=
  foldl (λ w group, if CacheGroupConfig.replayable group
                    then Z.max w (default 0 (CacheGroupConfig.sliding_window_tokens group)) else w) 0 groups.

Lemma replay_fold_Ok config groups w r :
  foldM (SchedulerConfig.replay_step config) w groups = Ok r ↔
  Forall (group_valid config) groups ∧
  r = foldl (λ w group, if CacheGroupConfig.replayable group
                        then Z.max w (default 0 (CacheGroupConfig.sliding_window_tokens group)) else w) w groups.
Proof.
  revert w. induction groups as [|group groups IH]; intros w; cbn [foldM foldl].
  { split; [by intros [= ->]|]. by intros [_ ->]. }
  split.
  - intros (w1 & Hstep & Hrest)%bind_Ok. unfold SchedulerConfig.replay_step in Hstep. apply then_Ok in Hstep as [Hg%group_inputs_Ok Hstep].
    destruct (CacheGroupConfig.replayable group) eqn:Hr.
    + apply bind_Ok in Hstep as (wg & Hwg%lookup_or_Ok & [= <-]). apply IH in Hrest as [Hall ->].
      split; [by constructor|]. by rewrite Hwg.
    + injection Hstep as <-. apply IH in Hrest as [Hall ->]. split; [by constructor|done].
  - intros [[Hg Hall]%Forall_cons ->].
    assert (SchedulerConfig.replay_step config w group = Ok (if CacheGroupConfig.replayable group
      then Z.max w (default 0 (CacheGroupConfig.sliding_window_tokens group)) else w)) as ->; [|by apply IH].
    unfold SchedulerConfig.replay_step.
    rewrite (proj2 (group_inputs_Ok config group) Hg). cbn [mbind result_bind].
    destruct (CacheGroupConfig.replayable group) eqn:Hr; [|done].
    pose proof (gv_window _ _ Hg) as Hw. rewrite decide_True in Hw by (by apply (gv_replay _ _ Hg)).
    destruct Hw as (wg & -> & _). done.
Qed.

(** What the capacity model and the scheduler may rely on. *)
Record capacity_valid (config : SchedulerConfig.t) : Prop := {
  cv_prefix : 0 < SchedulerConfig.prefix_granularity config;
  cv_some : SchedulerConfig.cache_groups config ≠ [];
  cv_batch : 0 ≤ SchedulerConfig.max_batch_size config;
  cv_decode : 0 ≤ SchedulerConfig.decode_input_tokens config;
  cv_tokens : 0 < SchedulerConfig.max_scheduled_tokens config;
  cv_depth : 0 ≤ SchedulerConfig.overlap_schedule_depth config ≤ 1;
  cv_overlap : SchedulerConfig.overlap_schedule_depth config = 1 → 0 < SchedulerConfig.decode_input_tokens config;
  cv_groups : Forall (group_valid config) (SchedulerConfig.cache_groups config);
  cv_replay : let w := replay_window (SchedulerConfig.cache_groups config) in
    0 < w → w + Z.max w (SchedulerConfig.prefix_granularity config) ≤
      Z.min (SchedulerConfig.max_scheduled_tokens config) INT32_MAX;
}.

Lemma capacity_inputs_Ok config :
  SchedulerConfig.ValidateCapacityInputs config = Ok () ↔ capacity_valid config.
Proof.
  unfold SchedulerConfig.ValidateCapacityInputs. rewrite !then_Ok, !invalid_Ok.
  set (w := replay_window (SchedulerConfig.cache_groups config)). split.
  - intros (Hp & Hne & Hb & Hd & Ht & Ho & Hov & Hrest). apply bool_decide_eq_false in Hne.
    apply bind_Ok in Hrest as (r & [Hall Hr]%replay_fold_Ok & Hrest).
    change (r = w) in Hr. subst r. split; try done; try lia.
    fold w. cbn zeta. intros Hw. rewrite (proj2 (Z.ltb_lt _ _) Hw) in Hrest.
    apply bind_Ok in Hrest as (least & [-> Hi]%i32_bounds & Hle%invalid_Ok). lia.
  - intros [Hp Hne Hb Hd Ht Ho Hov Hall Hw]. split_and!; try lia; [by apply bool_decide_eq_false|].
    assert (foldM (SchedulerConfig.replay_step config) 0 (SchedulerConfig.cache_groups config) = Ok w) as ->
      by (by apply replay_fold_Ok).
    cbn [mbind result_bind]. fold w in Hw. cbn zeta in Hw. destruct (Z.ltb_spec 0 w) as [Hpos|]; [|done].
    specialize (Hw Hpos). rewrite i32_Ok by (unfold INT32_MIN; lia). cbn [mbind result_bind]. apply invalid_Ok. lia.
Qed.

Record storage_valid (storage : StorageConfig.t) : Prop := {
  sv_limits : 0 < StorageConfig.max_operations storage ∧ 0 < StorageConfig.max_keys_per_operation storage ∧
    0 < StorageConfig.max_host_blocks storage ∧ 0 < StorageConfig.metadata_entries storage;
  sv_prefetch : 0 < StorageConfig.min_prefetch_tokens storage ≤ StorageConfig.max_prefetch_tokens storage;
  sv_deadlines : 0 < StorageConfig.wait_timeout_us storage ∧ 0 < StorageConfig.ready_timeout_us storage;
  sv_operations : 0 ≤ StoragePressure.queued_operations (StorageConfig.pressure_low storage)
    < StoragePressure.queued_operations (StorageConfig.pressure_high storage);
  sv_bytes : 0 ≤ StoragePressure.queued_bytes (StorageConfig.pressure_low storage)
    < StoragePressure.queued_bytes (StorageConfig.pressure_high storage);
  sv_age : 0 ≤ StoragePressure.oldest_operation_us (StorageConfig.pressure_low storage)
    < StoragePressure.oldest_operation_us (StorageConfig.pressure_high storage);
}.

Lemma storage_Ok storage : StorageConfig.Validate storage = Ok () ↔ storage_valid storage.
Proof.
  unfold StorageConfig.Validate, StoragePressure.Validate. rewrite !then_Ok, !invalid_Ok, !orb_false_iff.
  rewrite !Z.leb_gt, !Z.ltb_ge. destruct storage as [? ? ? ? ? ? ? ? [] []]; cbn. split.
  - intros. split; cbn; lia.
  - intros []. cbn in *. lia.
Qed.

Record config_valid (config : SchedulerConfig.t) : Prop := {
  va_capacity : capacity_valid config;
  va_device : 1 < SchedulerConfig.device_total_pages config;
  va_pages : Forall (λ group, 1 ≤ CacheGroupConfig.total_pages group) (SchedulerConfig.cache_groups config);
  va_prefix_replay : 0 ≤ SchedulerConfig.prefix_replay_tokens config;
  va_checkpoint : SchedulerConfig.state_checkpoint_in_forward config = true →
    SchedulerConfig.disable_prefix_cache config = false ∨ SchedulerConfig.role config = kD;
  va_storage : if SchedulerConfig.enable_l3_storage config then
      SchedulerConfig.HasHostCache config = true ∧
      ∃ storage, SchedulerConfig.storage_config config = Some storage ∧ storage_valid storage ∧
        StorageConfig.max_host_blocks storage ≤ SchedulerConfig.host_total_pages config - 1
    else SchedulerConfig.storage_config config = None;
  va_snapshot : 1 ≤ SchedulerConfig.snapshot_total_pages config;
  va_retracted : 0 ≤ SchedulerConfig.max_retracted_requests config;
  va_slots : 1 < SchedulerConfig.snapshot_total_pages config ↔ 0 < SchedulerConfig.max_retracted_requests config;
  va_prefill : SchedulerConfig.role config = kP → SchedulerConfig.snapshot_total_pages config = 1;
  va_debug : SchedulerConfig.debug_force_retraction_interval config ≠ 0 → 1 < SchedulerConfig.snapshot_total_pages config;
}.

Lemma groups_Ok config groups :
  Forall (group_valid config) groups →
  foldM (λ _ group, CacheGroupConfig.Validate group) () groups = Ok () ↔
  Forall (λ group, 1 ≤ CacheGroupConfig.total_pages group) groups.
Proof.
  induction 1 as [|group groups Hg Hall IH]; [done|].
  assert (foldM (λ _ group, CacheGroupConfig.Validate group) () (group :: groups) =
    (CacheGroupConfig.Validate group;; foldM (λ _ group, CacheGroupConfig.Validate group) () groups)) as ->.
  { cbn [foldM]. by destruct (CacheGroupConfig.Validate group) as [[]|]. }
  rewrite then_Ok, Forall_cons, IH.
  apply group_inputs_Ok in Hg. unfold SchedulerConfig.validateGroupCapacityInputs in Hg. apply then_Ok in Hg as [Hg _].
  unfold CacheGroupConfig.Validate. rewrite then_Ok, invalid_Ok, Z.ltb_ge. tauto.
Qed.

Lemma validate_storage_Ok config :
  SchedulerConfig.host_total_pages config ≤ INT32_MAX →
  SchedulerConfig.validate_storage config = Ok () ∧
  SchedulerConfig.enable_l3_storage config && negb (SchedulerConfig.HasHostCache config) = false ↔
  if SchedulerConfig.enable_l3_storage config then
    SchedulerConfig.HasHostCache config = true ∧
    ∃ storage, SchedulerConfig.storage_config config = Some storage ∧ storage_valid storage ∧
      StorageConfig.max_host_blocks storage ≤ SchedulerConfig.host_total_pages config - 1
  else SchedulerConfig.storage_config config = None.
Proof.
  intros Hint. unfold SchedulerConfig.validate_storage. rewrite then_Ok, invalid_Ok.
  destruct (SchedulerConfig.enable_l3_storage config); cbn [negb andb].
  - rewrite negb_false_iff. split.
    + intros [[_ Hrun] Hhost]. split; [done|]. apply bind_Ok in Hrun as (storage & Hs%lookup_or_Ok & Hrun).
      apply then_Ok in Hrun as [Hv%storage_Ok Hrun]. apply bind_Ok in Hrun as (usable & [-> _]%i32_bounds & Hle%invalid_Ok).
      exists storage. split; [done|]. split; [done|]. lia.
    + intros [Hhost (storage & Hs & Hv & Hle)]. split; [|done]. split; [done|]. rewrite Hs. cbn [lookup_or mbind result_bind].
      rewrite (proj2 (storage_Ok storage) Hv). cbn [mbind result_bind]. unfold SchedulerConfig.NumUsableBlocks.
      pose proof (sv_limits _ Hv). rewrite i32_Ok by (unfold INT32_MIN; lia). cbn [mbind result_bind]. apply invalid_Ok. lia.
  - split.
    + intros [[Hs _] _]. apply bool_decide_eq_false in Hs. destruct (SchedulerConfig.storage_config config); [|done].
      destruct Hs. by eexists.
    + intros ->. split; [|done]. split; [|done]. apply bool_decide_eq_false_2. by intros [].
Qed.

(** [Validate] accepts exactly the consistent configurations. *)
Lemma Validate_Ok config :
  SchedulerConfig.host_total_pages config ≤ INT32_MAX →
  SchedulerConfig.Validate config = Ok () ↔ config_valid config.
Proof.
  intros Hint. unfold SchedulerConfig.Validate. rewrite !then_Ok, !invalid_Ok, capacity_inputs_Ok.
  unfold SchedulerConfig.HasSnapshotPool. split.
  - intros (Hcap & Hdev & Hpages & Hpr & Hck & Hst & Hl3 & Hsnap & Hret & Hslots & Hrole & Hdbg).
    rewrite (groups_Ok config) in Hpages by apply Hcap. split; try done; try lia.
    + intros Hsc. rewrite Hsc in Hck. destruct (SchedulerConfig.disable_prefix_cache config); [|by left]. right.
      cbn in Hck. apply bool_decide_eq_false in Hck. by apply dec_stable in Hck.
    + by apply validate_storage_Ok.
    + intros Hp. rewrite bool_decide_eq_true_2 in Hrole by done. cbn in Hrole. lia.
  - intros [Hcap Hdev Hpages Hpr Hck Hst Hsnap Hret Hslots Hrole Hdbg]. apply validate_storage_Ok in Hst as [Hst Hl3]; [|done].
    split_and!; try done; try lia.
    + by apply (groups_Ok config); [apply Hcap|].
    + destruct (SchedulerConfig.state_checkpoint_in_forward config); [|done]. cbn.
      destruct (Hck eq_refl) as [->|Hd]; [done|]. rewrite bool_decide_eq_false_2 by tauto. apply andb_false_r.
    + case_bool_decide as Hp; [|done]. rewrite (Hrole Hp). done.
Qed.
