(* ===== verification/GroupGeometry.v ===== *)
(** * Tokens and pages of a cache group

    [csrc/cache/coordinator/group_geometry.h], with the shapes of demand of
    [cache_types.h], [acquire_plan.h] and the numbers of [block_table.h] it reads:
    how many blocks a group needs for so many tokens, what the table looks like after
    that, and which pages have slid out of a window.  Arithmetic is on 32-bit integers;
    overflow is undefined. *)

From S2P Require Import Prelude PyState Cxx BlockPool BlockRefs SchedulerConfig PrefixMatcher.

Local Open Scope Z_scope.

(** [/], undefined on 0 and on overflow. *)
Definition div32 (a b : Z) : result Z :=
  if b =? 0 then Raise (Undefined "division by zero") else i32 (a ÷ b).

Lemma div32_Ok a b : 0 ≤ a ≤ INT32_MAX → 0 < b → div32 a b = Ok (a / b).
Proof.
  intros Ha Hb. unfold div32. rewrite (proj2 (Z.eqb_neq _ _)) by lia. rewrite Z.quot_div_nonneg by lia.
  apply i32_Ok. unfold INT32_MIN. pose proof (Z.div_pos a b ltac:(lia) Hb). pose proof (Z.div_le_upper_bound a b a Hb).
  nia.
Qed.

(** ** Tables and demands *)

Record BlockTable := mkTable {
  blocks_ : list CacheBlockRef;
  available_tokens_ : Z;
  reclaimed_prefix_blocks_ : Z;
}.

Definition NumBlocks (table : BlockTable) : Z := Z.of_nat (length (blocks_ table)).

Record AcquirePlan := mkPlan {
  num_blocks : Z;
  suffix_start : Z;
  table_blocks_after : Z;
  available_tokens_after : Z;
}.

Inductive StateKind := kRotate | kRelease | kKeep | kLand.
Inductive GroupExtent :=
  | DenseGrowth (num_tokens : Z)
  | SparseSuffix (extent_tokens first_block : Z)
  | StateStep (kind : StateKind) (checkpoint : bool).

(** [GroupDemand] without the pointer to its table. *)
Record GroupDemand := mkDemand { extent : GroupExtent; reserve_tokens : Z }.

(** ** The geometry *)

Record GroupGeometry := mkGeometry { block_granularity_ : Z }.

Definition GroupGeometry_new (block_granularity : Z) : result GroupGeometry :=
  _assert (0 <=? block_granularity) "block_granularity must be non-negative";;
  Ok (mkGeometry block_granularity).

Definition HasTokenSpan (self : GroupGeometry) : bool := 0 <? block_granularity_ self.

(** [noexcept]: the failed check ends the process. *)
Definition BlockGranularity (self : GroupGeometry) : result Z :=
  FatalCheck (0 <? block_granularity_ self) "a State group has no token span";;
  Ok (block_granularity_ self).

(** [(x + block_granularity_ - 1) / block_granularity_] *)
Definition blocks_covering (self : GroupGeometry) (x : Z) : result Z :=
  a ← i32 (x + block_granularity_ self);
  b ← i32 (a - 1);
  div32 b (block_granularity_ self).

Definition BlocksNeededBeyond (available_tokens num_tokens : Z) (self : GroupGeometry) : result Z :=
  _assert (0 <=? available_tokens) "available tokens must be non-negative";;
  if num_tokens <=? available_tokens then Ok 0
  else over ← i32 (num_tokens - available_tokens); blocks_covering self over.

Definition BlocksNeededFor (table : BlockTable) (num_tokens : Z) (self : GroupGeometry) : result Z :=
  BlocksNeededBeyond (available_tokens_ table) num_tokens self.

(** The 64-bit extent of a sparse suffix, checked against [int32]. *)
Definition sparseSuffixBlocks (table : BlockTable) (extent_tokens first_block reserve_tokens : Z)
    (self : GroupGeometry) : result Z :=
  _assert (NumBlocks table <=? first_block) "sparse suffix overlaps the existing block table";;
  _assert ((0 <? extent_tokens) && (0 <=? reserve_tokens))
    "sparse suffix materialization requires a positive extent";;
  _assert (extent_tokens + reserve_tokens <=? INT32_MAX) "sparse suffix extent exceeds int32 range";;
  last_block ← div32 (extent_tokens + reserve_tokens - 1) (block_granularity_ self);
  a ← i32 (last_block - first_block);
  b ← i32 (a + 1);
  Ok (Z.max 0 b).

Definition BlocksNeededFor_demand (table : BlockTable) (demand : GroupDemand) (self : GroupGeometry) : result Z :=
  match extent demand with
  | DenseGrowth num_tokens =>
      n ← i32 (num_tokens + reserve_tokens demand);
      BlocksNeededFor table n self
  | SparseSuffix extent_tokens first_block =>
      sparseSuffixBlocks table extent_tokens first_block (reserve_tokens demand) self
  | StateStep kind checkpoint =>
      _assert (negb (HasTokenSpan self) && (reserve_tokens demand =? 0)) "a StateStep shapes a State group";;
      Ok ((match kind with kRotate | kLand => 1 | _ => 0 end) + (if checkpoint then 1 else 0))
  end.

Definition planDense (table : BlockTable) (num_tokens reserve_tokens : Z) (self : GroupGeometry) : result AcquirePlan :=
  _assert ((0 <=? num_tokens) && (0 <=? reserve_tokens)) "token demand and reserve must be non-negative";;
  n ← i32 (num_tokens + reserve_tokens);
  num_blocks ← BlocksNeededFor table n self;
  after ← i32 (NumBlocks table + num_blocks);
  capacity ← i32 (num_blocks * block_granularity_ self);
  total ← i32 (available_tokens_ table + capacity);
  left ← i32 (total - num_tokens);
  Ok (mkPlan num_blocks (-1) after left).

Definition planSparseSuffix (table : BlockTable) (extent_tokens first_block reserve_tokens : Z)
    (self : GroupGeometry) : result AcquirePlan :=
  num_blocks ← sparseSuffixBlocks table extent_tokens first_block reserve_tokens self;
  logical_blocks ← div32 (extent_tokens + reserve_tokens + block_granularity_ self - 1) (block_granularity_ self);
  _assert ((0 <? num_blocks) || (NumBlocks table =? logical_blocks)) "an empty sparse suffix leaves the table at the extent";;
  capacity ← i32 (logical_blocks * block_granularity_ self);
  left ← i32 (capacity - extent_tokens);
  Ok (mkPlan num_blocks first_block logical_blocks left).

Definition PlanAcquire (table : BlockTable) (demand : GroupDemand) (self : GroupGeometry) : result AcquirePlan :=
  match extent demand with
  | DenseGrowth num_tokens => planDense table num_tokens (reserve_tokens demand) self
  | SparseSuffix extent_tokens first_block => planSparseSuffix table extent_tokens first_block (reserve_tokens demand) self
  | StateStep _ _ =>
      FatalCheck false "a StateStep has no token-spanned acquire plan";;
      Ok (mkPlan 0 (-1) 0 0)
  end.

Definition ExpiredBlocksAt (spec : CacheGroupSpec.t) (num_computed_tokens : Z) (self : GroupGeometry) : result Z :=
  if decide (CacheGroupSpec.attn_kind spec ≠ kSlidingWindow) then Ok 0
  else
    _assert (0 <? CacheGroupSpec.sliding_window spec) "retention window must be > 0";;
    a ← i32 (num_computed_tokens - CacheGroupSpec.sliding_window spec);
    skipped ← i32 (a + 1);
    if skipped <=? 0 then Ok 0 else g ← BlockGranularity self; div32 skipped g.

(** ** What a plan guarantees *)

Section geometry.
Context (g : Z) (Hg : 0 < g).

(** The least number of blocks of [g] tokens that hold [x] tokens. *)
Definition least_blocks (x : Z) : Z := (Z.max x 0 + g - 1) / g.

Lemma least_blocks_bounds x : 0 ≤ least_blocks x ∧ Z.max x 0 ≤ least_blocks x * g < Z.max x 0 + g.
Proof.
  unfold least_blocks. pose proof (Z.div_mod (Z.max x 0 + g - 1) g ltac:(lia)) as Hdm.
  pose proof (Z.mod_pos_bound (Z.max x 0 + g - 1) g Hg). pose proof (Z.div_pos (Z.max x 0 + g - 1) g ltac:(lia) Hg). nia.
Qed.

Lemma least_blocks_least x n : 0 ≤ n → x ≤ n * g → least_blocks x ≤ n.
Proof. intros Hn Hx. pose proof (least_blocks_bounds x). nia. Qed.

Lemma BlocksNeededFor_spec table n :
  0 ≤ available_tokens_ table → n + g ≤ INT32_MAX →
  BlocksNeededFor table n (mkGeometry g) = Ok (least_blocks (n - available_tokens_ table)).
Proof.
  intros Ha Hn. unfold BlocksNeededFor, BlocksNeededBeyond. pass_check lia.
  destruct (Z.leb_spec n (available_tokens_ table)) as [Hle|Hgt].
  - unfold least_blocks. rewrite Z.max_r by lia. f_equal. symmetry. apply Z.div_small. lia.
  - rewrite i32_Ok by (unfold INT32_MIN; lia). cbn [mbind result_bind]. unfold blocks_covering. cbn [block_granularity_].
    rewrite i32_Ok by (unfold INT32_MIN; lia). cbn [mbind result_bind].
    rewrite i32_Ok by (unfold INT32_MIN; lia). cbn [mbind result_bind]. rewrite div32_Ok by lia.
    unfold least_blocks. by rewrite Z.max_l by lia.
Qed.
End geometry.

(** A dense plan takes the least number of blocks that hold the tokens and the reserve
    beyond what the table has left, and leaves at least the reserve; within the sizes
    given no 32-bit sum overflows. *)
Theorem dense_plan_exact g table num_tokens reserve :
  0 < g → 0 ≤ available_tokens_ table ≤ INT32_MAX → 0 ≤ num_tokens → 0 ≤ reserve →
  num_tokens + reserve + g ≤ INT32_MAX → NumBlocks table + num_tokens + reserve ≤ INT32_MAX →
  ∃ n, PlanAcquire table (mkDemand (DenseGrowth num_tokens) reserve) (mkGeometry g) =
      Ok (mkPlan n (-1) (NumBlocks table + n) (available_tokens_ table + n * g - num_tokens)) ∧
    BlocksNeededFor_demand table (mkDemand (DenseGrowth num_tokens) reserve) (mkGeometry g) = Ok n ∧
    reserve ≤ available_tokens_ table + n * g - num_tokens ∧
    ∀ m, 0 ≤ m → num_tokens + reserve ≤ available_tokens_ table + m * g → n ≤ m.
Proof.
  intros Hg Ha Hn Hr Hsum Hblocks. set (a := available_tokens_ table) in *.
  exists (least_blocks g (num_tokens + reserve - a)). pose proof (least_blocks_bounds g Hg (num_tokens + reserve - a)) as Hb.
  assert (NumBlocks table + least_blocks g (num_tokens + reserve - a) ≤ INT32_MAX) as Hafter by nia.
  assert (0 ≤ NumBlocks table) as Hpos by (unfold NumBlocks; lia).
  pose proof (least_blocks_least g Hg (num_tokens + reserve - a) 0) as Hnone.
  assert (a + least_blocks g (num_tokens + reserve - a) * g ≤ INT32_MAX) as Htotal
    by (destruct (Z.le_gt_cases (num_tokens + reserve) a); nia).
  split_and!.
  - cbn [PlanAcquire extent reserve_tokens]. unfold planDense. pass_check lia.
    rewrite i32_Ok by (unfold INT32_MIN; lia). cbn [mbind result_bind].
    rewrite (BlocksNeededFor_spec g Hg) by (fold a; lia). cbn [mbind result_bind block_granularity_]. fold a.
    rewrite i32_Ok by (unfold INT32_MIN; lia). cbn [mbind result_bind].
    rewrite i32_Ok by (unfold INT32_MIN; lia). cbn [mbind result_bind].
    rewrite i32_Ok by (unfold INT32_MIN; lia). cbn [mbind result_bind].
    by rewrite i32_Ok by (unfold INT32_MIN; lia).
  - cbn [BlocksNeededFor_demand extent reserve_tokens]. rewrite i32_Ok by (unfold INT32_MIN; lia). cbn [mbind result_bind].
    rewrite (BlocksNeededFor_spec g Hg) by (fold a; lia). done.
  - lia.
  - intros m Hm Hfit. apply least_blocks_least; [done|done|lia].
Qed.

Lemma dense_plan_exact_witness :
  ∃ n, PlanAcquire (mkTable [None] 3 0) (mkDemand (DenseGrowth 10) 2) (mkGeometry 4) =
    Ok (mkPlan n (-1) (1 + n) (3 + n * 4 - 10)) ∧ n = 3.
Proof.
  edestruct (dense_plan_exact 4 (mkTable [None] 3 0) 10 2) as (n & Hplan & _);
    [unfold INT32_MAX, NumBlocks; cbn; lia..|].
  exists n. split; [exact Hplan|]. vm_compute in Hplan. congruence.
Defined.

(** The blocks a sparse suffix lands, or the check that refuses it. *)
Definition suffix_checked {A} (table : BlockTable) (extent_tokens first_block reserve : Z) (answer : result A) : result A :=
  if first_block <? NumBlocks table then Raise (RuntimeError "sparse suffix overlaps the existing block table")
  else if (extent_tokens <=? 0) || (reserve <? 0) then
    Raise (RuntimeError "sparse suffix materialization requires a positive extent")
  else if INT32_MAX <? extent_tokens + reserve then Raise (RuntimeError "sparse suffix extent exceeds int32 range")
  else answer.

Lemma assert_bind_if {B} (b : bool) msg (k : () → result B) :
  (_assert b msg ≫= k) = if b then k () else Raise (RuntimeError msg).
Proof. by destruct b. Qed.

Lemma least_blocks_div g x : 0 < g → 0 < x → (x - 1) / g = least_blocks g x - 1 ∧ (x + g - 1) / g = least_blocks g x.
Proof.
  intros Hg Hx. unfold least_blocks. rewrite Z.max_l by lia. split; [|done].
  replace (x + g - 1) with (x - 1 + 1 * g) by lia. rewrite Z.div_add by lia. lia.
Qed.

Lemma sparseSuffixBlocks_spec g table extent_tokens first_block reserve :
  0 < g → first_block ≤ INT32_MAX →
  sparseSuffixBlocks table extent_tokens first_block reserve (mkGeometry g) =
  suffix_checked table extent_tokens first_block reserve (Ok (Z.max 0 (least_blocks g (extent_tokens + reserve) - first_block))).
Proof.
  intros Hg Hfirst. unfold sparseSuffixBlocks, suffix_checked. rewrite assert_bind_if, (Z.ltb_antisym (NumBlocks table) first_block).
  destruct (Z.leb_spec (NumBlocks table) first_block) as [Hb|Hb]; cbn [negb]; [|done].
  rewrite assert_bind_if. assert (0 ≤ NumBlocks table) as Hpos by (unfold NumBlocks; lia).
  destruct (Z.ltb_spec 0 extent_tokens), (Z.leb_spec 0 reserve), (Z.leb_spec extent_tokens 0), (Z.ltb_spec reserve 0);
    cbn [andb orb]; try lia; try done.
  rewrite assert_bind_if, (Z.ltb_antisym (extent_tokens + reserve) INT32_MAX). destruct (Z.leb_spec (extent_tokens + reserve) INT32_MAX) as [Hfit|Hfit]; cbn [negb]; [|done].
  cbn [block_granularity_]. rewrite div32_Ok by lia. cbn [mbind result_bind].
  rewrite (proj1 (least_blocks_div g (extent_tokens + reserve) Hg ltac:(lia))).
  pose proof (least_blocks_bounds g Hg (extent_tokens + reserve)) as Hl. rewrite Z.max_l in Hl by lia.
  rewrite i32_Ok by (unfold INT32_MIN, INT32_MAX in *; nia). cbn [mbind result_bind].
  rewrite i32_Ok by (unfold INT32_MIN, INT32_MAX in *; nia). cbn [mbind result_bind]. f_equal. lia.
Qed.

(** C35: The answer to a demand for a sparse suffix, in every case: it is refused, by the
    check that says so, when it starts inside the table, has no positive extent, passes
    the 32-bit range or lands nothing short of its extent; it overflows, which is
    undefined, when only the capacity of the blocks leaves that range; and otherwise the
    plan lands exactly the blocks from its start that cover extent and reserve. *)
Theorem sparse_plan_exact g table extent_tokens first_block reserve :
  0 < g → first_block ≤ INT32_MAX →
  let logical := least_blocks g (extent_tokens + reserve) in
  let lands := Z.max 0 (logical - first_block) in
  let demand := mkDemand (SparseSuffix extent_tokens first_block) reserve in
  BlocksNeededFor_demand table demand (mkGeometry g) = suffix_checked table extent_tokens first_block reserve (Ok lands) ∧
  PlanAcquire table demand (mkGeometry g) = suffix_checked table extent_tokens first_block reserve
    (if (lands =? 0) && negb (NumBlocks table =? logical) then
       Raise (RuntimeError "an empty sparse suffix leaves the table at the extent")
     else if INT32_MAX <? logical * g then Raise (Undefined "signed integer overflow")
     else Ok (mkPlan lands first_block logical (logical * g - extent_tokens))) ∧
  (0 < extent_tokens + reserve → (logical - 1) * g < extent_tokens + reserve ≤ logical * g).
Proof.
  intros Hg Hfirst logical lands demand.
  pose proof (sparseSuffixBlocks_spec g table extent_tokens first_block reserve Hg Hfirst) as Hblocks.
  pose proof (least_blocks_bounds g Hg (extent_tokens + reserve)) as Hb. fold logical lands in Hb, Hblocks.
  split; [exact Hblocks|]. split; [|lia].
  unfold demand. cbn [PlanAcquire extent reserve_tokens]. unfold planSparseSuffix. rewrite Hblocks. unfold suffix_checked.
  destruct (first_block <? NumBlocks table); [done|].
  destruct (Z.leb_spec extent_tokens 0), (Z.ltb_spec reserve 0); cbn [orb]; try done.
  destruct (Z.ltb_spec INT32_MAX (extent_tokens + reserve)) as [|Hext]; [done|].
  rewrite Z.max_l in Hb by lia. cbn [mbind result_bind block_granularity_].
  assert (div32 (extent_tokens + reserve + g - 1) g = Ok logical) as ->.
  { unfold div32. rewrite (proj2 (Z.eqb_neq _ _)) by lia. rewrite Z.quot_div_nonneg by lia.
    rewrite (proj2 (least_blocks_div g (extent_tokens + reserve) Hg ltac:(lia))). fold logical. apply i32_Ok. unfold INT32_MIN. nia. }
  cbn [mbind result_bind]. rewrite assert_bind_if.
  assert ((0 <? lands) || (NumBlocks table =? logical) = negb ((lands =? 0) && negb (NumBlocks table =? logical))) as ->.
  { rewrite negb_andb, negb_involutive. f_equal. destruct (Z.ltb_spec 0 lands), (Z.eqb_spec lands 0); cbn; lia. }
  destruct ((lands =? 0) && _); cbn [negb]; [done|].
  destruct (Z.ltb_spec INT32_MAX (logical * g)) as [Hover|Hfit].
  - unfold i32. by rewrite (proj2 (Z.leb_gt _ _) Hover), andb_false_r.
  - rewrite i32_Ok by (unfold INT32_MIN; lia). cbn [mbind result_bind]. by rewrite i32_Ok by (unfold INT32_MIN; lia).
Qed.

(** An extent one below the limit with pages of 64 tokens: the check passes, the plan
    overflows. *)
Lemma sparse_plan_exact_witness :
  PlanAcquire (mkTable [] 0 0) (mkDemand (SparseSuffix (INT32_MAX - 1) 7) 0) (mkGeometry 64) =
    Raise (Undefined "signed integer overflow").
Proof.
  destruct (sparse_plan_exact 64 (mkTable [] 0 0) (INT32_MAX - 1) 7 0) as (_ & Hplan & _); [done|done|exact Hplan].
Defined.

(** ** Retention *)

(** Page [j] holds a token the next token's window reads after [n] tokens. *)
Definition window_reads (g w n j : Z) : bool := n - (w - 1) <? (j + 1) * g.

Lemma ExpiredBlocksAt_spec g spec n :
  0 < g → CacheGroupSpec.attn_kind spec = kSlidingWindow → 0 < CacheGroupSpec.sliding_window spec ≤ INT32_MAX →
  0 ≤ n ≤ INT32_MAX →
  ∃ e, ExpiredBlocksAt spec n (mkGeometry g) = Ok e ∧ 0 ≤ e ∧
    ∀ j, 0 ≤ j → (j < e ↔ window_reads g (CacheGroupSpec.sliding_window spec) n j = false).
Proof.
  intros Hg Hkind Hw Hn. set (w := CacheGroupSpec.sliding_window spec) in *.
  unfold ExpiredBlocksAt. rewrite decide_False by tauto. fold w. pass_check lia.
  rewrite i32_Ok by (unfold INT32_MIN, INT32_MAX in *; lia). cbn [mbind result_bind].
  rewrite i32_Ok by (unfold INT32_MIN, INT32_MAX in *; lia). cbn [mbind result_bind]. unfold window_reads.
  destruct (Z.leb_spec (n - w + 1) 0) as [Hle|Hgt].
  - exists 0. split; [done|]. split; [done|]. intros j Hj. rewrite Z.ltb_ge. nia.
  - unfold BlockGranularity. cbn [block_granularity_]. pass_check lia. rewrite div32_Ok by lia.
    pose proof (Z.div_mod (n - w + 1) g ltac:(lia)). pose proof (Z.mod_pos_bound (n - w + 1) g Hg).
    pose proof (Z.div_pos (n - w + 1) g ltac:(lia) Hg).
    exists ((n - w + 1) / g). split; [done|]. split; [done|]. intros j Hj. rewrite Z.ltb_ge. nia.
Qed.

(** The pages that have expired at a page boundary are exactly those a prefix match
    there does not need. *)
Theorem retention_exact g spec b :
  0 < g → CacheGroupSpec.attn_kind spec = kSlidingWindow → 0 < CacheGroupSpec.sliding_window spec ≤ INT32_MAX →
  0 ≤ b * g ≤ INT32_MAX →
  ∃ e, ExpiredBlocksAt spec (b * g) (mkGeometry g) = Ok e ∧
    ∀ j, 0 ≤ j → (j < e ↔ reads (SwaMatcher g (CacheGroupSpec.sliding_window spec)) b j = false).
Proof.
  intros Hg Hkind Hw Hn. destruct (ExpiredBlocksAt_spec g spec _ Hg Hkind Hw Hn) as (e & Hrun & _ & Hall). by exists e.
Qed.

Lemma retention_exact_witness :
  ∃ e, ExpiredBlocksAt (CacheGroupSpec.mk kSlidingWindow 5 false 2 4 1) (3 * 4) (mkGeometry 4) = Ok e ∧ e = 2.
Proof.
  edestruct (retention_exact 4 (CacheGroupSpec.mk kSlidingWindow 5 false 2 4 1) 3) as (e & Hrun & _);
    [lia|reflexivity|unfold INT32_MAX; cbn; lia..|].
  exists e. split; [exact Hrun|]. vm_compute in Hrun. congruence.
Defined.
