(* ===== verification/GroupAllocator.v ===== *)
(** * Block tables and the group allocator

    [csrc/cache/allocator/group_allocator.h] with the tables of
    [csrc/cache/core/block_table.h] and the recorded shapes of [cache_types.h]: one
    cache group's moves of counted blocks between a pool and the tables of requests,
    and the page ids the kernels read.

    An operation runs on the heap of counted blocks and one table.  A reference passed
    by value, or held in a local vector, is dropped when the operation throws. *)

From stdpp Require Import gmap strings.
From S2P Require Import Prelude PyState Cxx BlockPool BlockPoolFacts BlockPoolSafety BlockRefs.
From S2P Require Import PrefixIndex SchedulerConfig GroupGeometry.

Local Open Scope Z_scope.

(** ** Tables on the heap *)

Definition tstate : Type := heap * BlockTable.

Definition on_refs {A} (m : M heap A) : M tstate A := within fst (λ h s, (h, s.2)) m.
Definition ask_table {A} (f : heap → BlockTable → result A) : M tstate A := const (λ s : tstate, f s.1 s.2).
Definition set_table (t : BlockTable) : M tstate () := modify (λ s, (s.1, t)).

(** A check of the code. *)
Definition check (r : result ()) : M tstate () := const (λ _, r).

Definition set_blocks (rs : list CacheBlockRef) (t : BlockTable) : BlockTable :=
  mkTable rs (available_tokens_ t) (reclaimed_prefix_blocks_ t).
Definition set_available (n : Z) (t : BlockTable) : BlockTable :=
  mkTable (blocks_ t) n (reclaimed_prefix_blocks_ t).
Definition set_reclaimed (n : Z) (t : BlockTable) : BlockTable :=
  mkTable (blocks_ t) (available_tokens_ t) n.

Definition change (f : BlockTable → BlockTable) : M tstate () := modify (λ s, (s.1, f s.2)).

Definition empty_table : BlockTable := mkTable [] 0 0.

Definition FromBlocks (rs : list CacheBlockRef) (available_tokens : Z) : result BlockTable :=
  _assert (0 <=? available_tokens) "BlockTable available_tokens must be non-negative";;
  Ok (mkTable rs available_tokens 0).

(** [table.blocks_[slot] = std::move(r)] *)
Definition assign_slot (slot : Z) (r : CacheBlockRef) : M tstate () :=
  old ← ask_table (λ _ t, vec_at (blocks_ t) slot);
  r ← on_refs (assign_move old r);
  change (λ t, set_blocks (<[Z.to_nat slot := r]> (blocks_ t)) t).

(** [std::exchange(table.blocks_[slot], {})] *)
Definition take_out (slot : Z) : M tstate CacheBlockRef :=
  old ← ask_table (λ _ t, vec_at (blocks_ t) slot);
  change (λ t, set_blocks (<[Z.to_nat slot := None]> (blocks_ t)) t) ;;
  mret old.

Definition EvictToNull (index : Z) : M tstate CacheBlockRef :=
  ask_table (λ _ t, _assert ((0 <=? index) && (index <? NumBlocks t)) "EvictToNull index out of range") ;;
  take_out index.

(** [table.blocks_.resize(n)]; a negative [n] is a huge [std::size_t]. *)
Definition resize (n : Z) : M tstate () :=
  check (raise_when (n <? 0) (ValueError "vector::_M_default_append")) ;;
  dropped ← ask_table (λ _ t, Ok (drop (Z.to_nat n) (blocks_ t)));
  on_refs (reset_all dropped) ;;
  change (λ t, set_blocks (take (Z.to_nat n) (blocks_ t) ++ replicate (Z.to_nat n - length (blocks_ t)) None) t).

(** References in scope while [m] runs, dropped when it throws; an abort unwinds nothing. *)
Definition holding {A} (rs : list CacheBlockRef) (m : M tstate A) : M tstate A := λ s,
  match m s with
  | (Ok a, s) => (Ok a, s)
  | (Raise (Abort e), s) => (Raise (Abort e), s)
  | (Raise (Undefined e), s) => (Raise (Undefined e), s)
  | (Raise e, s) =>
      match reset_all rs s.1 with
      | (Ok _, h) => (Raise e, (h, s.2))
      | (Raise e', h) => (Raise e', (h, s.2))
      end
  end.

Definition BlockTableLcmBlockIds (t : BlockTable) (h : heap) : result (list Z) :=
  mapM (λ r : CacheBlockRef, match r with Some _ => l ← Location r h; Ok (lcm_block_id l) | None => Ok 0 end) (blocks_ t).

(** ** Recorded shapes *)

Record ImageSlot := mkSlot {
  image_slot_index : Z;
  image_block : CacheBlockRef;
  image_key : CacheKey;
  image_logical_block_index : Z;
  image_boundary_kind : CacheBoundaryKind;
}.

Record ImageTable := mkImage {
  image_num_blocks : Z;
  image_reclaimed_prefix_blocks : Z;
  image_available_tokens : Z;
  image_slots : list ImageSlot;
}.

(** The unkeyed transfers of [AppendHostExtension]. *)
Record BlockTransfer := mkTransfer { transfer_group : nat; source : CacheBlockRef; destination : CacheBlockRef }.

(** ** The allocator *)

Record GroupAllocator := mkAllocator {
  cache_blocks_per_lcm_block_ : Z;
  allocator_group_id_ : nat;
  shard_count_ : Z;
}.

Definition GroupAllocator_new (cache_blocks_per_lcm_block : Z) (g : nat) (shard_count : Z) : result GroupAllocator :=
  _assert (0 <? cache_blocks_per_lcm_block) "cache_blocks_per_lcm_block must be > 0";;
  _assert ((0 <? shard_count) && (Z.rem cache_blocks_per_lcm_block shard_count =? 0))
    "shard_count must be positive and divide parent packing";;
  Ok (mkAllocator cache_blocks_per_lcm_block g shard_count).

Section allocator.
Context (self : GroupAllocator).

Definition ResolveCacheBlockId (l : CacheBlockLocation) : result Z :=
  _assert (0 <? lcm_block_id l) "LCM block id must be > 0";;
  _assert ((0 <=? slot_index l) && (slot_index l <? cache_blocks_per_lcm_block_ self)) "cache block slot is out of range";;
  let page_id := 1 + (lcm_block_id l - 1) * cache_blocks_per_lcm_block_ self + slot_index l in
  _assert (page_id <=? INT32_MAX) "kernel page id exceeds int32 range";;
  Ok page_id.

Definition page_id_of (h : heap) (r : CacheBlockRef) : result Z :=
  match r with
  | Some _ => l ← Location r h; ResolveCacheBlockId l
  | None => Ok 0
  end.

Definition BlockTablePageIds (t : BlockTable) (h : heap) : result (list Z) := mapM (page_id_of h) (blocks_ t).

(** The window is the part of the table from [first_slot], [count] slots long. *)
Definition BlocksToPublish (t : BlockTable) (first_slot : Z) (count : nat) : result (list CacheBlockRef) :=
  _assert (0 <=? first_slot) "first_slot must be >= 0";;
  _assert (first_slot + Z.of_nat count <=? NumBlocks t) "publish window exceeds table size";;
  Ok (take count (drop (Z.to_nat first_slot) (blocks_ t))).

(** The leading null slots from [n] on are reclaimed already. *)
Fixpoint skip_null (n : Z) (rs : list CacheBlockRef) : Z :=
  match rs with
  | None :: rs => skip_null (n + 1) rs
  | _ => n
  end.

Definition ClaimHitBlocks (hit : PrefixMatch) : M tstate () :=
  ask_table (λ _ t, _assert (bool_decide (blocks_ t = [])) "ClaimHitBlocks requires a fresh (empty) table") ;;
  change (λ t, let rs := blocks hit in
    mkTable rs (available_tokens_ t)
      (skip_null (reclaimed_prefix_blocks_ t) (drop (Z.to_nat (reclaimed_prefix_blocks_ t)) rs))).

Definition BucketOf (l : CacheBlockLocation) : Z := Z.rem (slot_index l) (shard_count_ self).

Definition add_load (h : heap) (loads : list Z) (r : CacheBlockRef) : result (list Z) :=
  match r with
  | None => Ok loads
  | Some _ =>
      l ← Location r h;
      let b := Z.rem (slot_index l) (shard_count_ self) in
      n ← vec_at loads b;
      Ok (<[Z.to_nat b := n + 1]> loads)
  end.

Definition BucketLoads (h : heap) (t : BlockTable) : result (list Z) :=
  if shard_count_ self =? 1 then Ok []
  else foldM (add_load h) (replicate (Z.to_nat (shard_count_ self)) 0) (blocks_ t).

(** [pool.AcquireBlocks(group_id_, n, BucketLoads(table))] *)
Definition acquire_balanced (pool : nat) (n : Z) : M tstate (list CacheBlockRef) :=
  loads ← ask_table BucketLoads;
  on_refs (acquire_refs pool (AcquireBlocks (allocator_group_id_ self) n loads)).

(** The sparse branch places [rs] from slot [start] on. *)
Fixpoint place_at (start : Z) (rs : list CacheBlockRef) : M tstate () :=
  match rs with
  | [] => mret ()
  | r :: rs => assign_slot start r ;; place_at (start + 1) rs
  end.

Definition place_suffix (plan : AcquirePlan) (old_num_blocks : Z) (rs : list CacheBlockRef) : M tstate () :=
  holding rs (
    ask_table (λ _ t, _assert (NumBlocks t <=? suffix_start plan) "sparse suffix overlaps the existing block table") ;;
    check (past ← i32 (suffix_start plan + num_blocks plan);
           _assert (past <=? table_blocks_after plan) "sparse suffix exceeds the planned table size") ;;
    resize (table_blocks_after plan)) ;;
  change (λ t, if old_num_blocks =? 0 then set_reclaimed (suffix_start plan) t else t) ;;
  place_at (suffix_start plan) rs.

Definition Acquire (pool : nat) (plan : AcquirePlan) : M tstate bool :=
  old_num_blocks ← ask_table (λ _ t, Ok (NumBlocks t));
  rs ← (if 0 <? num_blocks plan then acquire_balanced pool (num_blocks plan) else mret []);
  if (0 <? num_blocks plan) && (Z.of_nat (length rs) <? num_blocks plan) then
    on_refs (reset_all rs) ;;
    mret false
  else
    (if suffix_start plan <? 0 then change (λ t, set_blocks (blocks_ t ++ rs) t)
     else place_suffix plan old_num_blocks rs) ;;
    change (set_available (available_tokens_after plan)) ;;
    mret true.

(** The buckets of the slots nothing was claimed for. *)
Fixpoint shape_buckets (h : heap) (num_blocks : Z) (slots : list ImageSlot) (claimed : list CacheBlockRef) :
    result (list Z) :=
  match slots, claimed with
  | slot :: slots, r :: claimed =>
      _assert (bool_decide (is_Some (image_block slot)) &&
               ((0 <=? image_slot_index slot) && (image_slot_index slot <? num_blocks)))
        "image slot must hold a block inside the recorded table";;
      match r with
      | Some _ => shape_buckets h num_blocks slots claimed
      | None =>
          l ← Location (image_block slot) h;
          rest ← shape_buckets h num_blocks slots claimed;
          Ok (BucketOf l :: rest)
      end
  | _, _ => Ok []
  end.

Fixpoint fill_shape (slots : list ImageSlot) (claimed fresh : list CacheBlockRef) : M tstate () :=
  match slots, claimed with
  | slot :: slots, Some c :: claimed => assign_slot (image_slot_index slot) (Some c) ;; fill_shape slots claimed fresh
  | slot :: slots, None :: claimed =>
      match fresh with
      | r :: fresh => assign_slot (image_slot_index slot) r ;; fill_shape slots claimed fresh
      | [] => raise (Undefined "vector index out of range")
      end
  | _, _ => mret ()
  end.

Definition AcquireShape (pool : nat) (shape : ImageTable) (claimed : list CacheBlockRef) : M tstate bool :=
  '(fresh, buckets) ← holding claimed (
    ask_table (λ _ t, _assert (NumBlocks t =? 0) "AcquireShape requires a fresh (empty) table") ;;
    check (_assert (length claimed =? length (image_slots shape))%nat "claimed blocks must parallel the recorded slots") ;;
    buckets ← ask_table (λ h _, shape_buckets h (image_num_blocks shape) (image_slots shape) claimed);
    fresh ← on_refs (acquire_refs pool (AcquireBlocksInBuckets (allocator_group_id_ self) buckets));
    mret (fresh, buckets));
  if negb (length fresh =? length buckets)%nat then
    on_refs (reset_all fresh) ;;
    on_refs (reset_all claimed) ;;
    mret false
  else
    holding (fresh ++ claimed) (resize (image_num_blocks shape)) ;;
    fill_shape (image_slots shape) claimed fresh ;;
    change (λ t, mkTable (blocks_ t) (image_available_tokens shape) (image_reclaimed_prefix_blocks shape)) ;;
    mret true.

Definition SwapInFreshBlock (pool : nat) (slot available_tokens : Z) : M tstate CacheBlockRef :=
  ask_table (λ _ t, _assert ((0 <=? slot) && (slot <? NumBlocks t)) "swapped slot lies inside the table") ;;
  check (_assert (0 <=? available_tokens) "tail capacity must be non-negative") ;;
  current ← ask_table (λ _ t, vec_at (blocks_ t) slot);
  fresh ←
    match current with
    | Some _ =>
        l ← ask_table (λ h _, Location current h);
        on_refs (acquire_refs pool (AcquireBlocksInBuckets (allocator_group_id_ self) [BucketOf l]))
    | None => acquire_balanced pool 1
    end;
  check (FatalCheck (length fresh =? 1)%nat "admission plan no longer fits the block pool") ;;
  change (λ t, set_available available_tokens (set_blocks (<[Z.to_nat slot := mjoin (head fresh)]> (blocks_ t)) t)) ;;
  mret current.

Definition host_buckets (h : heap) (host : list CacheBlockRef) : result (list Z) :=
  mapM (λ r : CacheBlockRef, l ← Location r h; Ok (BucketOf l)) (filter is_Some host).

(** The vector of pairs the caller passes grows with the table. *)
Definition on_table {A} (m : M tstate A) : M (tstate * list BlockTransfer) A := within fst (λ s p, (s, p.2)) m.

Fixpoint extend_host (host fresh : list CacheBlockRef) : M (tstate * list BlockTransfer) () :=
  match host with
  | [] => on_table (holding fresh (check (_assert (bool_decide (fresh = [])) "unused host extension destination")))
  | None :: host => on_table (change (λ t, set_blocks (blocks_ t ++ [None]) t)) ;; extend_host host fresh
  | Some c :: host =>
      match fresh with
      | [] => raise (RuntimeError "missing host extension destination")
      | r :: fresh =>
          on_table (change (λ t, set_blocks (blocks_ t ++ [r]) t)) ;;
          copy ← on_table (on_refs (copy_ref r));
          modify (λ p, (p.1, p.2 ++ [mkTransfer (allocator_group_id_ self) (Some c) copy])) ;;
          extend_host host fresh
      end
  end.

Definition AppendHostExtension (pool : nat) (host : list CacheBlockRef) (tail_available_tokens : Z) :
    M (tstate * list BlockTransfer) () :=
  fresh ← on_table (
    ask_table (λ _ t, _assert (available_tokens_ t =? 0) "host extension must append on a full-page boundary") ;;
    check (_assert (0 <=? tail_available_tokens) "tail capacity must be non-negative") ;;
    buckets ← ask_table (λ h _, host_buckets h host);
    fresh ← on_refs (acquire_refs pool (AcquireBlocksInBuckets (allocator_group_id_ self) buckets));
    check (FatalCheck (length fresh =? length buckets)%nat "admission plan no longer fits the block pool") ;;
    mret fresh);
  extend_host host fresh ;;
  on_table (change (set_available tail_available_tokens)).

(** ** Two-slot tables *)

Definition ShapeStateTable (input : CacheBlockRef) : M tstate () :=
  holding [input]
    (ask_table (λ _ t, _assert (bool_decide (blocks_ t = [])) "ShapeStateTable requires a fresh (empty) table")) ;;
  set_table (mkTable [input; None] 0 0).

Definition assertStateTable : M tstate () :=
  ask_table (λ _ t, _assert (NumBlocks t =? 2) "a State table has exactly two slots").

Definition assert_null (slot : Z) (message : string) : M tstate () :=
  ask_table (λ _ t, r ← vec_at (blocks_ t) slot; _assert (bool_decide (r = None)) message).

Definition ReleaseStateInput : M tstate () :=
  assertStateTable ;;
  assign_slot 0 None.

Definition InstallStateInput (input : CacheBlockRef) : M tstate () :=
  holding [input] (assertStateTable ;; assert_null 0 "the input slot is installed only when empty") ;;
  assign_slot 0 input.

Definition RotateState : M tstate () :=
  assertStateTable ;;
  live ← take_out 1;
  assign_slot 0 live.

Definition acquireStateSlot (pool : nat) (slot : Z) : M tstate bool :=
  fresh ← acquire_balanced pool 1;
  match fresh with
  | [r] => assign_slot slot r ;; mret true
  | _ => on_refs (reset_all fresh) ;; mret false
  end.

Definition AcquireStateLive (pool : nat) : M tstate bool :=
  assertStateTable ;;
  assert_null 1 "the live slot is acquired only once per step" ;;
  acquireStateSlot pool 1.

Definition AcquireStateInput (pool : nat) : M tstate bool :=
  assertStateTable ;;
  assert_null 0 "the input slot is acquired only when empty" ;;
  acquireStateSlot pool 0.

Definition AcquireStateCheckpoint (pool : nat) : M tstate CacheBlockRef :=
  assertStateTable ;;
  fresh ← acquire_balanced pool 1;
  match fresh with
  | [r] => mret r
  | _ => on_refs (reset_all fresh) ;; mret None
  end.

(** The table, and the index when it caches the block, are the only owners. *)
Definition reclaimable (index : PrefixCacheIndex) (count_uncached : bool) (r : CacheBlockRef) (h : heap) : result bool :=
  cached ← Contains_ref r h index;
  n ← use_count r h;
  Ok ((cached && (n =? 2)) || (count_uncached && negb cached && (n =? 1))).

Definition ReleasableStateInput (index : PrefixCacheIndex) (kind : StateKind) (t : BlockTable) (h : heap) :
    result (option CacheBlockLocation) :=
  match kind, blocks_ t : list CacheBlockRef with
  | kKeep, _ | _, [] | _, None :: _ => Ok None
  | _, r :: _ =>
      yes ← reclaimable index true r h;
      if (yes : bool) then l ← Location r h; Ok (Some l) else Ok None
  end.

(** ** Retention *)

Fixpoint evict_from (i : Z) (n : nat) : M tstate () :=
  match n with
  | O => mret ()
  | S n =>
      r ← EvictToNull i;
      on_refs (reset r) ;;
      evict_from (i + 1) n
  end.

Definition ReclaimExpired (num_expired_blocks : Z) : M tstate () :=
  t ← ask_table (λ _ t, Ok t);
  let expired := Z.min num_expired_blocks (NumBlocks t) in
  evict_from (reclaimed_prefix_blocks_ t) (Z.to_nat (expired - reclaimed_prefix_blocks_ t)) ;;
  change (λ t, set_reclaimed (Z.max (reclaimed_prefix_blocks_ t) expired) t).

(** The slots a reclaim would empty. *)
Definition expiring (t : BlockTable) (num_expired_blocks : Z) : list CacheBlockRef :=
  let expired := Z.min num_expired_blocks (NumBlocks t) in
  let first := reclaimed_prefix_blocks_ t in
  take (Z.to_nat (expired - first)) (drop (Z.to_nat first) (blocks_ t)).

Definition BlocksReclaimableAt (index : PrefixCacheIndex) (t : BlockTable) (num_expired_blocks : Z)
    (count_uncached : bool) (h : heap) : result Z :=
  foldM (λ (freed : Z) (r : CacheBlockRef),
    match r with
    | None => Ok freed
    | Some _ => yes ← reclaimable index count_uncached r h; Ok (if (yes : bool) then freed + 1 else freed)
    end) 0 (expiring t num_expired_blocks).

Definition ReclaimableBlockLocationsAt (index : PrefixCacheIndex) (t : BlockTable) (num_expired_blocks : Z)
    (h : heap) : result (list CacheBlockLocation) :=
  foldM (λ (ls : list CacheBlockLocation) (r : CacheBlockRef),
    match r with
    | None => Ok ls
    | Some _ =>
        yes ← reclaimable index true r h;
        if (yes : bool) then l ← Location r h; Ok (ls ++ [l]) else Ok ls
    end) [] (expiring t num_expired_blocks).

Definition ConsumeReservedTokens (num_tokens : Z) : M tstate () :=
  ask_table (λ _ t, _assert ((0 <=? num_tokens) && (num_tokens <=? available_tokens_ t))
    "token demand exceeds the available capacity") ;;
  change (λ t, set_available (available_tokens_ t - num_tokens) t).

Definition Free : M tstate () :=
  rs ← ask_table (λ _ t, Ok (blocks_ t));
  on_refs (reset_all (reverse rs)) ;;
  set_table empty_table.
End allocator.
