(* ===== verification/TableSafety.v ===== *)
(** * What the group allocator does to references

    Every table operation, also one that throws half way, leaves each reference with
    exactly one owner: the table, the caller or nobody.  The proofs use a small logic
    of triples over the heap and the table whose assertions name who owns what. *)

From stdpp Require Import gmap strings.
From S2P Require Import Prelude PyState Cxx BlockPool BlockPoolFacts BlockPoolSafety BlockRefs.
From S2P Require Import PrefixIndex PrefixIndexFacts SchedulerConfig GroupGeometry GroupAllocator.

Local Open Scope Z_scope.

(** ** Ownership *)

Definition table_refs (t : BlockTable) : list nat := omap id (blocks_ t).

(** Pool [i] has the allocator's group, registered with its packing and buckets. *)
Definition placed_for (self : GroupAllocator) (i : nat) (h : heap) : Prop :=
  ∃ p group, pools h !! i = Some p ∧ group_availability_ p !! allocator_group_id_ self = Some group ∧
    packing group = cache_blocks_per_lcm_block_ self ∧ buckets group = shard_count_ self ∧ 0 < shard_count_ self.

Lemma placed_same self i h h' p p' :
  placed_for self i h → pools h !! i = Some p → pools h' !! i = Some p' → same_groups p p' → placed_for self i h'.
Proof.
  intros (q & group & Hq & Hg & Hpk & Hb & Hpos) Hp Hp' [Hpks Hbs]. assert (q = p) as -> by congruence.
  destruct (packings_lookup p p' _ group Hpks Hg) as (group' & Hg' & Hpk').
  exists p', group'. split_and!; try done; [congruence|]. rewrite (Hbs _ _ _ Hg Hg'); [done|lia].
Qed.

Lemma placed_shrinks self i h h' : placed_for self i h → shrinks h h' → placed_for self i h'.
Proof.
  intros Hpl Hsh. pose proof Hpl as (p & _ & Hp & _). destruct (sh_pool _ _ Hsh i p Hp) as (p' & Hp' & Hsame & _).
  by eapply placed_same.
Qed.

Lemma placed_gains self i j g new ls h h' : placed_for self i h → gains h j g new ls h' → placed_for self i h'.
Proof.
  intros Hpl Hga. pose proof Hpl as (p & _ & Hp & _). destruct (ga_pool _ _ _ _ _ _ Hga i p Hp) as (p' & Hp' & Hsame & _).
  by eapply placed_same.
Qed.

(** A held reference leads to a block in use. *)
Lemma held_location h held c :
  owned h held → c ∈ held →
  ∃ j p l g, place h c = Some (j, l) ∧ Location (Some c) h = Ok l ∧ pools h !! j = Some p ∧ live p l = Some g.
Proof.
  intros How Hin. destruct (ow_held _ _ How c Hin) as [k Hk]. destruct (ow_placed _ _ How c k Hk) as (p & Hp & Hl).
  destruct (live p (location_ k)) as [g|] eqn:Hlive; [|done]. exists (pool_ k), p, (location_ k), g.
  split_and!; [apply place_Some; by exists k| |done|done]. cbn. by rewrite (control_Ok _ _ _ Hk).
Qed.

Lemma live_slot p l g : live p l = Some g → 0 ≤ slot_index l.
Proof. by intros [(? & _ & ? & _) _]%live_Some. Qed.

Lemma elem_of_table_refs t c : c ∈ table_refs t ↔ Some c ∈ blocks_ t.
Proof.
  unfold table_refs. rewrite list_elem_of_omap. split; [by intros (r & Hr & [= ->])|]. intros Hc. by exists (Some c).
Qed.

(** ** Triples *)

Definition no_fit : string := "admission plan no longer fits the block pool".

(** From [P], [m] answers with [Q], throws with [E], or finds that an admission was not
    planned; nothing is undefined and no other check is fatal. *)
Definition triple {S A} (P : S → Prop) (m : M S A) (Q : A → S → Prop) (E : S → Prop) : Prop :=
  ∀ s, P s →
    match m s with
    | (Ok a, s') => Q a s'
    | (Raise (Abort message), _) => message = no_fit
    | (Raise (Undefined _), _) => False
    | (Raise _, s') => E s'
    end.

Section rules.
Context {S : Type}.
Implicit Types P E : S → Prop.

Lemma triple_ret {A} (a : A) (Q : A → S → Prop) E : triple (Q a) (mret a) Q E.
Proof. by intros s Hs. Qed.

Lemma triple_bind {A B} P R (m : M S A) (k : A → M S B) Q E :
  triple P m R E → (∀ a, triple (R a) (k a) Q E) → triple P (m ≫= k) Q E.
Proof.
  intros Hm Hk s Hs. unfold mbind, M_bind. specialize (Hm s Hs). destruct (m s) as [[a|e] s']; [by apply Hk|by destruct e].
Qed.

Lemma triple_weaken {A} P P' (m : M S A) Q Q' E E' :
  triple P' m Q' E' → (∀ s, P s → P' s) → (∀ a s, Q' a s → Q a s) → (∀ s, E' s → E s) → triple P m Q E.
Proof.
  intros Hm HP HQ HE s Hs. specialize (Hm s (HP s Hs)). destruct (m s) as [[a|e] s']; [by apply HQ|]. destruct e; auto.
Qed.

Lemma triple_pre {A} P P' (m : M S A) Q E : triple P' m Q E → (∀ s, P s → P' s) → triple P m Q E.
Proof. intros Hm HP. by eapply triple_weaken. Qed.

Lemma triple_case {A} (Φ : Prop) P (m : M S A) Q E :
  (Φ → triple P m Q E) → triple (λ s, Φ ∧ P s) m Q E.
Proof. intros Hm s [HΦ Hs]. by apply Hm. Qed.

Lemma triple_modify (f : S → S) (Q : () → S → Prop) E : triple (λ s, Q () (f s)) (modify f) Q E.
Proof. by intros s Hs. Qed.

(** An expression that has a value. *)
Lemma triple_const {A} P (f : S → result A) (Q : A → S → Prop) E :
  (∀ s, P s → ∃ a, f s = Ok a ∧ Q a s) → triple P (const f) Q E.
Proof. intros Hf s Hs. unfold const. destruct (Hf s Hs) as (a & -> & ?). done. Qed.

(** A check that throws. *)
Lemma triple_assert P (b : S → bool) message E :
  (∀ s, P s → E s) → triple P (const (λ s, _assert (b s) message)) (λ _ s, b s = true ∧ P s) E.
Proof. intros HE s Hs. unfold const, _assert, raise_when. destruct (b s) eqn:Hb; cbn; [done|]. by apply HE. Qed.
End rules.

(** ** Rules for tables *)

Section tables.
Context (self : GroupAllocator) (i : nat).

(** The table owns its references, [X] are all others, and the table is as [Φ] says. *)
Definition own (Φ : BlockTable → Prop) (X : list nat) (s : tstate) : Prop :=
  placed_for self i s.1 ∧ owned s.1 (table_refs s.2 ++ X) ∧ Φ s.2.

Lemma own_perm Φ X Y s : X ≡ₚ Y → own Φ X s → own Φ Y s.
Proof. unfold own. by intros ->. Qed.

Lemma own_weaken (Φ Ψ : BlockTable → Prop) X s : (∀ t, Φ t → Ψ t) → own Φ X s → own Ψ X s.
Proof. unfold own. naive_solver. Qed.

(** The state after a throw. *)
Definition anyhow (X : list nat) : tstate → Prop := own (λ _, True) X.

Lemma own_anyhow Φ X s : own Φ X s → anyhow X s.
Proof. by apply own_weaken. Qed.

Lemma triple_perm {A} Φ X Y (m : M tstate A) Q E : X ≡ₚ Y → triple (own Φ Y) m Q E → triple (own Φ X) m Q E.
Proof. intros Hp Hm. eapply triple_pre; [done|]. intros s. by apply own_perm. Qed.

(** A check on the table. *)
Lemma triple_check Φ X (b : BlockTable → bool) message :
  triple (own Φ X) (ask_table (λ _ t, _assert (b t) message)) (λ _, own (λ t, b t = true ∧ Φ t) X) (anyhow X).
Proof.
  eapply triple_weaken; [apply (triple_assert (own Φ X) (λ s, b s.2) message (anyhow X))|done|..|done].
  - intros s. apply own_anyhow.
  - intros _ s [Hb (? & ? & ?)]. by split_and!.
Qed.

(** A check on the arguments. *)
Lemma triple_check_pure Φ X (b : bool) message :
  triple (own Φ X) (check (_assert b message)) (λ _, own (λ t, b = true ∧ Φ t) X) (anyhow X).
Proof. apply (triple_check Φ X (λ _, b) message). Qed.

Lemma triple_ask {A} Φ X (f : heap → BlockTable → result A) (Ψ : A → BlockTable → Prop) :
  (∀ h t, own Φ X (h, t) → ∃ a, f h t = Ok a ∧ Ψ a t) →
  triple (own Φ X) (ask_table f) (λ a, own (Ψ a) X) (anyhow X).
Proof.
  intros Hf. apply triple_const. intros [h t] Hs. destruct (Hf h t Hs) as (a & Ha & HΨ). exists a. split; [done|].
  by destruct Hs as (? & ? & _).
Qed.

(** The table changes, and its references with it. *)
Lemma triple_change (f : BlockTable → BlockTable) Φ Ψ X Y E :
  (∀ t, Φ t → table_refs (f t) ++ Y ≡ₚ table_refs t ++ X ∧ Ψ (f t)) →
  triple (own Φ X) (change f) (λ _, own Ψ Y) E.
Proof.
  intros Hf [h t] (Hpl & How & HΦ). destruct (Hf t HΦ) as [Hp HΨ]. cbn. split_and!; try done. cbn. by rewrite Hp.
Qed.

Lemma own_reset_all Φ rs X h t :
  own Φ (omap id rs ++ X) (h, t) → ∃ h', reset_all rs h = (Ok (), h') ∧ own Φ X (h', t).
Proof.
  intros (Hpl & How & HΦ). cbn in How. rewrite Permutation_app_comm, <- app_assoc in How.
  destruct (reset_all_spec rs h _ How) as (h' & Hrun & How' & Hsh). exists h'. split; [done|].
  split_and!; [by eapply placed_shrinks| |done]. cbn. by rewrite Permutation_app_comm.
Qed.

Lemma triple_reset_all Φ rs X E : triple (own Φ (omap id rs ++ X)) (on_refs (reset_all rs)) (λ _, own Φ X) E.
Proof.
  intros [h t] Hs. destruct (own_reset_all Φ rs X h t Hs) as (h' & Hrun & ?). unfold on_refs, within. cbn. by rewrite Hrun.
Qed.

Lemma triple_reset Φ (r : CacheBlockRef) X E : triple (own Φ (option_list r ++ X)) (on_refs (reset r)) (λ _, own Φ X) E.
Proof.
  intros [h t] (Hpl & How & HΦ). cbn in How. rewrite Permutation_app_comm, <- app_assoc in How.
  destruct (reset_opt_spec h _ r How) as (h' & Hrun & How' & Hsh). unfold on_refs, within. cbn. rewrite Hrun.
  split_and!; [by eapply placed_shrinks| |done]. cbn. by rewrite Permutation_app_comm.
Qed.

(** What is in scope goes when the body throws. *)
Lemma triple_holding {A} P rs (m : M tstate A) Q X :
  triple P m Q (anyhow (omap id rs ++ X)) → triple P (holding rs m) Q (anyhow X).
Proof.
  intros Hm s Hs. specialize (Hm s Hs). unfold holding. destruct (m s) as [[a|e] [h t]]; [done|].
  destruct e; try done; destruct (own_reset_all _ rs X h t Hm) as (h' & Hrun & ?); cbn; by rewrite Hrun.
Qed.

Lemma triple_holding_one {A} P (r : CacheBlockRef) (m : M tstate A) Q X :
  triple P m Q (anyhow (option_list r ++ X)) → triple P (holding [r] m) Q (anyhow X).
Proof. intros Hm. apply triple_holding. by destruct r. Qed.

(** ** Rules for slots and placement *)

Lemma table_refs_set t slot old r :
  blocks_ t !! slot = Some old →
  table_refs (set_blocks (<[slot := r]> (blocks_ t)) t) ++ option_list old ≡ₚ table_refs t ++ option_list r.
Proof. apply omap_insert. Qed.

Lemma slot_lookup t slot :
  0 ≤ slot < NumBlocks t → ∃ r, vec_at (blocks_ t) slot = Ok r ∧ blocks_ t !! Z.to_nat slot = Some r.
Proof.
  unfold NumBlocks. intros Hs. destruct (lookup_lt_is_Some_2 (blocks_ t) (Z.to_nat slot)) as [r Hr]; [lia|].
  exists r. split; [|done]. apply vec_at_some; [lia|done].
Qed.

Lemma triple_assign Φ Ψ slot r X E :
  (∀ t, Φ t → 0 ≤ slot < NumBlocks t ∧ Ψ (set_blocks (<[Z.to_nat slot := r]> (blocks_ t)) t)) →
  triple (own Φ (option_list r ++ X)) (assign_slot slot r) (λ _, own Ψ X) E.
Proof.
  intros Hf [h t] (Hpl & How & HΦ). destruct (Hf t HΦ) as [Hs HΨ]. destruct (slot_lookup t slot Hs) as (old & Hold & Hl).
  unfold assign_slot. rewrite (run_bind_Ok _ _ _ old (h, t)); [|unfold ask_table, const; cbn; by rewrite Hold].
  pose proof (table_refs_set t (Z.to_nat slot) old r Hl) as Hp.
  destruct (reset_opt_spec h (table_refs (set_blocks (<[Z.to_nat slot := r]> (blocks_ t)) t) ++ X) old) as (h' & Hrun & How' & Hsh).
  { cbn in How. rewrite app_assoc, (Permutation_app_comm (option_list old)), Hp. by rewrite <- app_assoc. }
  rewrite (run_bind_Ok _ _ _ r (h', t)).
  - split_and!; [by eapply placed_shrinks|done|done].
  - unfold on_refs, within, assign_move. cbn. by rewrite (run_bind_Ok _ _ _ _ _ Hrun).
Qed.

Lemma triple_take_out Φ Ψ slot X E :
  (∀ t, Φ t → 0 ≤ slot < NumBlocks t ∧ Ψ (set_blocks (<[Z.to_nat slot := None]> (blocks_ t)) t)) →
  triple (own Φ X) (take_out slot) (λ r, own Ψ (option_list r ++ X)) E.
Proof.
  intros Hf [h t] (Hpl & How & HΦ). destruct (Hf t HΦ) as [Hs HΨ]. destruct (slot_lookup t slot Hs) as (old & Hold & Hl).
  unfold take_out. rewrite (run_bind_Ok _ _ _ old (h, t)); [|unfold ask_table, const; cbn; by rewrite Hold].
  cbn. split_and!; try done. cbn [fst snd].
  pose proof (table_refs_set t (Z.to_nat slot) old None Hl) as Hp. cbn [option_list] in Hp. rewrite app_nil_r in Hp.
  by rewrite app_assoc, Hp.
Qed.

(** The loads are one count per bucket, or nothing to balance. *)
Lemma BucketLoads_spec h t X :
  owned h (table_refs t ++ X) → 0 < shard_count_ self →
  ∃ loads, BucketLoads self h t = Ok loads ∧
    ((1 < length loads)%nat → Z.of_nat (length loads) = shard_count_ self ∧ Forall (Z.le 0) loads).
Proof.
  intros How Hpos. unfold BucketLoads. destruct (Z.eqb_spec (shard_count_ self) 1) as [|Hne]; [exists []; split; [done|cbn; lia]|].
  assert (∀ rs loads, (∀ c, Some c ∈ rs → Some c ∈ blocks_ t) →
    Z.of_nat (length loads) = shard_count_ self → Forall (Z.le 0) loads →
    ∃ loads', foldM (add_load self h) loads rs = Ok loads' ∧
      Z.of_nat (length loads') = shard_count_ self ∧ Forall (Z.le 0) loads') as Hfold.
  { induction rs as [|r rs IH]; intros loads Hin Hlen Hnn; [by exists loads|]. cbn [foldM].
    destruct r as [c|]; cbn [add_load mbind result_bind]; [|apply IH; [|done..]; intros d Hd; apply Hin; by right].
    destruct (held_location h _ c How) as (j & p & l & g & _ & Hloc & _ & Hlive).
    { apply elem_of_app. left. apply elem_of_table_refs, Hin. by left. }
    pose proof (live_slot _ _ _ Hlive) as Hslot. rewrite Hloc. cbn [mbind result_bind].
    pose proof (Z.rem_bound_pos (slot_index l) (shard_count_ self) Hslot Hpos) as Hb.
    destruct (lookup_lt_is_Some_2 loads (Z.to_nat (Z.rem (slot_index l) (shard_count_ self)))) as [n Hn]; [lia|].
    rewrite (vec_at_some _ _ _ (proj1 Hb) Hn). cbn [mbind result_bind]. apply IH.
    - intros d Hd. apply Hin. by right.
    - by rewrite length_insert.
    - apply Forall_insert; [done|]. pose proof (Forall_lookup_1 _ _ _ _ Hnn Hn). cbn in *. lia. }
  destruct (Hfold (blocks_ t) (replicate (Z.to_nat (shard_count_ self)) 0)) as (loads & ? & ? & ?); [done| | |].
  - rewrite length_replicate. lia.
  - apply Forall_replicate. lia.
  - by exists loads.
Qed.

(** What an acquisition of a pool gives is new, and nobody else's. *)
Lemma acquire_own (acquire : M BlockPool (list CacheBlockLocation)) X h t p g ls p' (Φ : BlockTable → Prop) :
  own Φ X (h, t) → pools h !! i = Some p → acquire p = (Ok ls, p') → grows p g ls p' →
  (g < length (group_availability_ p))%nat →
  ∃ new h', acquire_refs i acquire h = (Ok (Some <$> new), h') ∧ length new = length ls ∧
    own Φ (new ++ X) (h', t) ∧ gains h i g new ls h'.
Proof.
  intros (Hpl & How & HΦ) Hp Hacq Hgr Hg. cbn in How.
  destruct (acquire_refs_spec h _ i g p p' ls How Hp Hgr Hg acquire Hacq) as (new & h' & Hrun & How' & Hga).
  exists new, h'. split; [done|]. split; [by rewrite (Forall2_length _ _ _ (ga_new _ _ _ _ _ _ Hga))|]. split; [|done].
  split_and!; [by eapply placed_gains| |done]. cbn. by rewrite Permutation_app_swap_app.
Qed.

Lemma omap_Some (new : list nat) : omap id (Some <$> new) = new.
Proof. induction new as [|c new IH]; cbn; [done|]. by rewrite IH. Qed.

(** All the blocks asked for, or none. *)
Lemma triple_balanced Φ X n E :
  triple (own Φ X) (acquire_balanced self i n)
    (λ rs s, (rs = [] ∨ Z.of_nat (length rs) = n) ∧ own Φ (omap id rs ++ X) s) E.
Proof.
  intros [h t] Hs. pose proof Hs as ((p & group & Hp & Hg & Hpk & Hb & Hpos) & How & HΦ). cbn in How.
  destruct (BucketLoads_spec h t X How Hpos) as (loads & Hloads & Hvalid). unfold acquire_balanced.
  rewrite (run_bind_Ok _ _ _ loads (h, t)); [|unfold ask_table, const; cbn; by rewrite Hloads].
  destruct (acquire_blocks_spec p _ group n loads (ow_pools _ _ How _ _ Hp) Hg) as [Hno Hyes].
  { intros Hl. rewrite Hb. by apply Hvalid. }
  assert (∃ ls p', AcquireBlocks (allocator_group_id_ self) n loads p = (Ok ls, p') ∧
    grows p (allocator_group_id_ self) ls p' ∧ (ls = [] ∨ Z.of_nat (length ls) = n)) as (ls & p' & Hacq & Hgr & Hls).
  { destruct (decide (0 < n ≤ capacity p group)) as [Hn|Hn].
    - destruct (Hyes Hn) as (ls & p' & ? & ? & ?). exists ls, p'. auto.
    - exists [], p. rewrite Hno by lia. split_and!; [done|apply grows_nil; by eapply ow_pools|by left]. }
  destruct (acquire_own _ X h t p _ ls p' Φ Hs Hp Hacq Hgr) as (new & h' & Hrun & Hlen & Hown & _); [by eapply lookup_lt_Some|].
  unfold on_refs, within. cbn. rewrite Hrun. rewrite omap_Some. split; [|done].
  destruct Hls as [->|Hls]; [left; by destruct new|right; rewrite length_fmap; lia].
Qed.

(** One block per bucket asked for, or none. *)
Lemma triple_buckets Φ X bs E :
  Forall (λ b, 0 ≤ b < shard_count_ self) bs →
  triple (own Φ X) (on_refs (acquire_refs i (AcquireBlocksInBuckets (allocator_group_id_ self) bs)))
    (λ rs s, (rs = [] ∨ length rs = length bs) ∧ own Φ (omap id rs ++ X) s) E.
Proof.
  intros Hbs [h t] Hs. pose proof Hs as ((p & group & Hp & Hg & Hpk & Hb & Hpos) & How & HΦ). cbn in How.
  rewrite <- Hb in Hbs.
  destruct (acquire_in_buckets_spec p _ group bs (ow_pools _ _ How _ _ Hp) Hg) as [Hyes Hno]; [lia|done|].
  assert (∃ ls p', AcquireBlocksInBuckets (allocator_group_id_ self) bs p = (Ok ls, p') ∧
    grows p (allocator_group_id_ self) ls p' ∧ (ls = [] ∨ length ls = length bs)) as (ls & p' & Hacq & Hgr & Hls).
  { destruct (parents_needed_fit p _ group bs (ow_pools _ _ How _ _ Hp) Hg) as (need & n & _ & _ & Hiff); [lia|done|].
    destruct (decide (n ≤ NumEmptyLcmBlocks p)) as [Hfit|Hfit]; rewrite Hiff in Hfit.
    - destruct (Hyes Hfit) as (ls & p' & ? & ? & Hall). exists ls, p'. split_and!; try done. right.
      symmetry. by eapply Forall2_length.
    - exists [], p. rewrite (Hno Hfit). split_and!; [done|apply grows_nil; by eapply ow_pools|by left]. }
  destruct (acquire_own _ X h t p _ ls p' Φ Hs Hp Hacq Hgr) as (new & h' & Hrun & Hlen & Hown & _); [by eapply lookup_lt_Some|].
  unfold on_refs, within. cbn. rewrite Hrun. rewrite omap_Some. split; [|done].
  destruct Hls as [->|Hls]; [left; by destruct new|right; rewrite length_fmap; lia].
Qed.

(** A value or a throw. *)
Lemma triple_ask_throw {A} Φ X (f : heap → BlockTable → result A) (Ψ : A → BlockTable → Prop) :
  (∀ h t, own Φ X (h, t) → match f h t with Ok a => Ψ a t | Raise (RuntimeError _) => True | Raise _ => False end) →
  triple (own Φ X) (ask_table f) (λ a, own (Ψ a) X) (anyhow X).
Proof.
  intros Hf [h t] Hs. specialize (Hf h t Hs). unfold ask_table, const. cbn [fst snd].
  destruct Hs as (? & ? & ?). destruct (f h t) as [a|[]]; done.
Qed.

Lemma triple_drop {A} (Φ Ψ : BlockTable → Prop) X (m : M tstate A) Q E :
  triple (own Ψ X) m Q E → (∀ t, Φ t → Ψ t) → triple (own Φ X) m Q E.
Proof. intros Hm Hi. eapply triple_pre; [done|]. intros s. by apply own_weaken. Qed.

Lemma triple_own_case {A} (φ : Prop) X (m : M tstate A) Q E :
  (φ → triple (anyhow X) m Q E) → triple (own (λ _, φ) X) m Q E.
Proof. intros Hm s (Hpl & How & Hφ). by apply Hm. Qed.

Lemma triple_own_and {A} (φ : Prop) Φ X (m : M tstate A) Q E :
  (φ → triple (own Φ X) m Q E) → triple (own (λ t, φ ∧ Φ t) X) m Q E.
Proof. intros Hm s (Hpl & How & Hφ & HΦ). by apply Hm. Qed.

(** A fatal check whose failure means that an admission was not planned. *)
Lemma triple_fatal P (b : bool) message E :
  message = no_fit → triple P (check (FatalCheck b message)) (λ _ s, b = true ∧ P s) E.
Proof. intros -> s Hs. unfold check, const, FatalCheck, raise_when. by destruct b. Qed.

Lemma triple_resize Φ X n :
  triple (own Φ X) (resize n) (λ _, own (λ t, NumBlocks t = n) X) (anyhow X).
Proof.
  intros [h t] Hs. unfold resize, check, raise_when. destruct (Z.ltb_spec n 0) as [Hneg|Hn]; [by apply own_anyhow in Hs|].
  rewrite (run_bind_Ok _ _ _ () (h, t)) by done.
  rewrite (run_bind_Ok _ _ _ (drop (Z.to_nat n) (blocks_ t)) (h, t)) by done.
  set (t' := set_blocks (take (Z.to_nat n) (blocks_ t) ++ replicate (Z.to_nat n - length (blocks_ t)) None) t).
  assert (∀ m, omap id (replicate m (None : CacheBlockRef)) = []) as Hnone by (by induction m).
  assert (table_refs t ≡ₚ omap id (drop (Z.to_nat n) (blocks_ t)) ++ table_refs t') as Hp.
  { unfold table_refs, t'. cbn [set_blocks blocks_]. rewrite omap_app, Hnone, app_nil_r, Permutation_app_comm, <- omap_app.
    by rewrite take_drop. }
  destruct Hs as (Hpl & How & _). cbn in How, Hpl. rewrite Hp, <- app_assoc in How.
  destruct (reset_all_spec _ h _ How) as (h' & Hrun & How' & Hsh).
  rewrite (run_bind_Ok _ _ _ () (h', t)); [|unfold on_refs, within; cbn; by rewrite Hrun].
  cbn. split_and!; [by eapply placed_shrinks|done|]. unfold t', NumBlocks. cbn.
  rewrite length_app, length_take, length_replicate. lia.
Qed.

Lemma triple_place_at rs start X E :
  triple (own (λ t, rs = [] ∨ 0 ≤ start ∧ start + Z.of_nat (length rs) ≤ NumBlocks t) (omap id rs ++ X)) (place_at start rs)
    (λ _, own (λ _, True) X) E.
Proof.
  revert start. induction rs as [|r rs IH]; intros start; cbn [place_at].
  - eapply triple_pre; [apply triple_ret|]. intros s. by apply own_weaken.
  - assert (omap id (r :: rs) ++ X ≡ₚ option_list r ++ omap id rs ++ X) as Hp by (by destruct r).
    eapply (triple_perm _ _ _ _ _ _ Hp), triple_bind; [|intros ?; apply (IH (start + 1))].
    apply triple_assign. intros t [?|[Hs Hle]]; [done|]. cbn [length] in Hle. split; [lia|]. right.
    unfold NumBlocks in *. cbn. rewrite length_insert. lia.
Qed.

(** ** The operations *)

Lemma Claim_triple hit F :
  triple (anyhow (omap id (blocks hit) ++ F)) (ClaimHitBlocks hit) (λ _, anyhow F) (anyhow (omap id (blocks hit) ++ F)).
Proof.
  unfold ClaimHitBlocks. eapply triple_bind; [apply triple_check|]. intros [].
  apply triple_change. intros t [Hnil%bool_decide_eq_true _]. split; [|done].
  unfold table_refs at 2. by rewrite Hnil.
Qed.

Lemma place_suffix_triple plan old rs F :
  INT32_MIN ≤ suffix_start plan + num_blocks plan ≤ INT32_MAX → 0 ≤ suffix_start plan →
  rs = [] ∨ Z.of_nat (length rs) = num_blocks plan →
  triple (anyhow (omap id rs ++ F)) (place_suffix plan old rs) (λ _, anyhow F) (anyhow F).
Proof.
  intros Hint Hstart Hlen. unfold place_suffix.
  eapply (triple_bind _ (λ _, own (λ t, rs = [] ∨ suffix_start plan + Z.of_nat (length rs) ≤ NumBlocks t) (omap id rs ++ F))).
  { apply triple_holding. eapply triple_bind; [apply triple_check|]. intros [].
    rewrite (i32_Ok _ Hint). cbn [mbind result_bind].
    eapply triple_bind; [eapply triple_drop; [apply (triple_check_pure (λ _, True))|done]|]. intros [].
    intros s Hs. destruct Hs as (Hpl & How & Hle%Z.leb_le & _).
    pose proof (triple_resize (λ _, True) (omap id rs ++ F) (table_blocks_after plan) s) as Hr.
    destruct (resize (table_blocks_after plan) s) as [[[]|e] s'].
    - destruct Hr as (? & ? & Hn); [done|]. split_and!; try done. destruct Hlen as [->|Hlen]; [by left|right]. lia.
    - by apply Hr. }
  intros []. eapply triple_bind; [|intros ?; apply (triple_place_at rs (suffix_start plan))].
  apply triple_change. intros t Ht. destruct (old =? 0); (split; [done|]); destruct Ht as [?|Ht]; auto.
Qed.

Lemma Acquire_triple plan F :
  INT32_MIN ≤ suffix_start plan + num_blocks plan ≤ INT32_MAX →
  triple (anyhow F) (Acquire self i plan) (λ _, anyhow F) (anyhow F).
Proof.
  intros Hint. unfold Acquire.
  eapply triple_bind; [apply (triple_ask _ _ _ (λ _ _, True)); intros h t _; by eexists|]. intros old.
  eapply (triple_bind _ (λ rs s, (rs = [] ∨ Z.of_nat (length rs) = num_blocks plan) ∧ anyhow (omap id rs ++ F) s)).
  { destruct (0 <? num_blocks plan); [apply triple_balanced|]. eapply triple_pre; [apply triple_ret|]. intros s Hs. split; [by left|done]. }
  intros rs. apply triple_case. intros Hlen. destruct (_ && _).
  - eapply (triple_bind _ (λ _, anyhow F)); [apply triple_reset_all|intros []; apply (triple_ret false (λ _, anyhow F))].
  - eapply (triple_bind _ (λ _, anyhow F)).
    + destruct (Z.ltb_spec (suffix_start plan) 0) as [Hd|Hs]; [|by apply place_suffix_triple].
      apply triple_change. intros t _. split; [|done]. unfold table_refs. cbn [set_blocks blocks_].
      rewrite omap_app. by rewrite <- app_assoc.
    + intros []. eapply (triple_bind _ (λ _, anyhow F)); [by apply triple_change|].
      intros []. apply (triple_ret true (λ _, anyhow F)).
Qed.

Definition unclaimed (claimed : list CacheBlockRef) : nat := length (filter (λ r, r = None) claimed).

Definition slots_in (n : Z) (slots : list ImageSlot) : Prop := Forall (λ slot, 0 ≤ image_slot_index slot < n) slots.

(** One bucket per slot nothing was claimed for, unless a slot is outside the table. *)
Lemma shape_buckets_spec h held n slots claimed :
  owned h held → 0 < shard_count_ self → length claimed = length slots →
  (∀ slot c, slot ∈ slots → image_block slot = Some c → c ∈ held) →
  match shape_buckets self h n slots claimed with
  | Ok bs => length bs = unclaimed claimed ∧ slots_in n slots ∧ Forall (λ b, 0 ≤ b < shard_count_ self) bs
  | Raise (RuntimeError _) => True
  | Raise _ => False
  end.
Proof.
  intros How Hpos. revert claimed. induction slots as [|slot slots IH]; intros claimed Hlen Hheld.
  { destruct claimed; [|done]. cbn. split_and!; [done|constructor|constructor]. }
  destruct claimed as [|r claimed]; [done|]. injection Hlen as Hlen. cbn [shape_buckets].
  specialize (IH claimed Hlen ltac:(intros s c Hs; apply Hheld; by right)).
  unfold _assert, raise_when. destruct (bool_decide_reflect (is_Some (image_block slot))) as [[c Hc]|]; cbn [andb negb]; [|done].
  destruct (Z.leb_spec 0 (image_slot_index slot)), (Z.ltb_spec (image_slot_index slot) n); cbn [andb negb mbind result_bind]; try done.
  assert (slots_in n slots → slots_in n (slot :: slots)) as Hslots by (intros ?; by constructor).
  unfold unclaimed. rewrite filter_cons. destruct r as [d|].
  - rewrite decide_False by done. destruct (shape_buckets self h n slots claimed) as [bs|e]; [|done].
    destruct IH as (? & ? & ?). split_and!; auto.
  - rewrite decide_True by done. rewrite Hc.
    destruct (held_location h held c How) as (j & p & l & g & _ & Hloc & _ & Hlive).
    { apply (Hheld slot); [by left|done]. }
    rewrite Hloc. cbn [mbind result_bind]. destruct (shape_buckets self h n slots claimed) as [bs|e]; cbn [mbind result_bind]; [|done].
    destruct IH as (Hbs & ? & ?). split_and!; [cbn; f_equal; apply Hbs|auto|]. constructor; [|done].
    apply Z.rem_bound_pos; [by eapply live_slot|done].
Qed.

Lemma fill_shape_triple n slots claimed fresh F E :
  slots_in n slots → length claimed = length slots → length fresh = unclaimed claimed →
  triple (own (λ t, NumBlocks t = n) (omap id claimed ++ omap id fresh ++ F)) (fill_shape slots claimed fresh)
    (λ _, own (λ t, NumBlocks t = n) F) E.
Proof.
  intros Hin. revert claimed fresh. induction Hin as [|slot slots Hs Hin IH]; intros claimed fresh Hlen Hf.
  { destruct claimed; [|done]. destruct fresh; [|done]. apply (triple_ret () (λ _, own _ F)). }
  destruct claimed as [|r claimed]; [done|]. injection Hlen as Hlen. cbn [fill_shape].
  assert (∀ (r : CacheBlockRef) t, NumBlocks t = n →
    0 ≤ image_slot_index slot < NumBlocks t ∧
    NumBlocks (set_blocks (<[Z.to_nat (image_slot_index slot) := r]> (blocks_ t)) t) = n) as Hset.
  { intros r' t <-. split; [done|]. unfold NumBlocks. cbn. by rewrite length_insert. }
  unfold unclaimed in Hf. rewrite filter_cons in Hf. destruct r as [c|].
  - rewrite decide_False in Hf by done. eapply triple_bind; [|intros ?; by apply (IH claimed fresh)].
    apply (triple_assign _ _ _ (Some c)). by apply Hset.
  - rewrite decide_True in Hf by done. destruct fresh as [|r fresh]; [done|]. injection Hf as Hf.
    eapply triple_bind; [|intros ?; by apply (IH claimed fresh)].
    eapply triple_perm; [|apply (triple_assign _ _ _ r), Hset]. destruct r; cbn; solve_Permutation.
Qed.

(** The fresh blocks are one per bucket, or none fit. *)
Definition shape_ready (shape : ImageTable) (claimed : list CacheBlockRef) (x : list CacheBlockRef * list Z) : Prop :=
  length claimed = length (image_slots shape) ∧ length x.2 = unclaimed claimed ∧
  slots_in (image_num_blocks shape) (image_slots shape) ∧ (x.1 = [] ∨ length x.1 = length x.2).

Lemma AcquireShape_triple shape claimed F :
  (∀ slot c, slot ∈ image_slots shape → image_block slot = Some c → c ∈ F) →
  triple (anyhow (omap id claimed ++ F)) (AcquireShape self i shape claimed) (λ _, anyhow F) (anyhow F).
Proof.
  intros Hheld. unfold AcquireShape.
  eapply (triple_bind _ (λ x s, shape_ready shape claimed x ∧ anyhow (omap id x.1 ++ omap id claimed ++ F) s)).
  { apply triple_holding. eapply triple_bind; [apply triple_check|]. intros [].
    eapply triple_bind; [eapply triple_drop; [apply (triple_check_pure (λ _, True))|done]|]. intros [].
    eapply triple_bind; [apply (triple_ask_throw _ _ _ (λ bs _, length claimed = length (image_slots shape) ∧
      length bs = unclaimed claimed ∧ slots_in (image_num_blocks shape) (image_slots shape) ∧
      Forall (λ b, 0 ≤ b < shard_count_ self) bs))|].
    { intros h t ((p & group & _ & _ & _ & _ & Hpos) & How & Hlen%Nat.eqb_eq & _). cbn in How.
      pose proof (shape_buckets_spec h _ (image_num_blocks shape) (image_slots shape) claimed How Hpos Hlen) as Hsp.
      destruct (shape_buckets _ _ _ _ _); [split; [done|]|]; apply Hsp; intros slot c Hs Hc;
        apply elem_of_app; right; apply elem_of_app; right; by eapply Hheld. }
    intros bs. apply triple_own_case. intros (Hlen & Hbs & Hin & Hrange).
    eapply triple_bind; [by apply triple_buckets|]. intros fresh. eapply triple_pre; [apply triple_ret|].
    intros s [Hf Hs]. by split. }
  intros [fresh bs]. cbn [fst snd]. apply triple_case. intros (Hlen & Hbs & Hin & Hcase). cbn [fst snd] in *.
  destruct (Nat.eqb_spec (length fresh) (length bs)) as [Heq|Hne]; cbn [negb].
  - eapply (triple_bind _ (λ _, own (λ t, NumBlocks t = image_num_blocks shape) (omap id claimed ++ omap id fresh ++ F))).
    + apply triple_holding. rewrite omap_app, <- app_assoc. eapply triple_weaken; [apply (triple_resize (λ _, True))|done| |done].
      intros [] s. apply own_perm. solve_Permutation.
    + intros []. eapply triple_bind; [apply fill_shape_triple; [done|done|congruence]|]. intros [].
      eapply (triple_bind _ (λ _, anyhow F)); [by apply triple_change|]. intros []. apply (triple_ret true (λ _, anyhow F)).
  - eapply (triple_bind _ (λ _, anyhow (omap id claimed ++ F))); [apply triple_reset_all|]. intros [].
    eapply (triple_bind _ (λ _, anyhow F)); [apply triple_reset_all|]. intros []. apply (triple_ret false (λ _, anyhow F)).
Qed.

Lemma bucket_range l p g : 0 < shard_count_ self → live p l = Some g → 0 ≤ BucketOf self l < shard_count_ self.
Proof. intros Hpos Hl. apply Z.rem_bound_pos; [by eapply live_slot|done]. Qed.

Lemma Swap_triple slot available F :
  triple (anyhow F) (SwapInFreshBlock self i slot available) (λ r, anyhow (option_list r ++ F)) (anyhow F).
Proof.
  unfold SwapInFreshBlock. eapply triple_bind; [apply triple_check|]. intros [].
  eapply triple_bind; [apply triple_check_pure|]. intros [].
  eapply (triple_bind _ (λ r, own (λ t, blocks_ t !! Z.to_nat slot = Some r) F)).
  { apply triple_ask. intros h t (_ & _ & _ & Hrange & _). cbn in Hrange.
    destruct (slot_lookup t slot) as (r & ? & ?); [lia|]. by exists r. }
  intros current.
  eapply (triple_bind _ (λ rs, own (λ t, blocks_ t !! Z.to_nat slot = Some current) (omap id rs ++ F))).
  { destruct current as [c|]; [|eapply triple_weaken; [apply triple_balanced|done|by intros rs s [_ ?]|done]].
    eapply (triple_bind _ (λ l, own (λ t, 0 ≤ BucketOf self l < shard_count_ self ∧ blocks_ t !! Z.to_nat slot = Some (Some c)) F)).
    - apply triple_ask. intros h t ((p & group & _ & _ & _ & _ & Hpos) & How & Hl). cbn in How, Hl.
      destruct (held_location h _ c How) as (j & q & l & g & _ & Hloc & _ & Hlive).
      { apply elem_of_app. left. apply elem_of_table_refs. by eapply list_elem_of_lookup_2. }
      exists l. split; [done|]. split; [by eapply bucket_range|done].
    - intros l. apply triple_own_and. intros Hb. eapply triple_weaken; [apply triple_buckets|done|by intros rs s [_ ?]|done].
      by constructor. }
  intros fresh. eapply triple_bind; [by apply triple_fatal|]. intros []. apply triple_case. intros Hone%Nat.eqb_eq.
  destruct fresh as [|r []]; [done| |done]. cbn [head mjoin option_join].
  eapply (triple_bind _ (λ _, anyhow (option_list current ++ F))); [|intros []; apply (triple_ret current (λ r, anyhow (option_list r ++ F)))].
  apply triple_change. intros t Hl. split; [|done]. pose proof (table_refs_set t _ _ r Hl) as Hp.
  change (table_refs (set_available available (set_blocks (<[Z.to_nat slot:=r]> (blocks_ t)) t)))
    with (table_refs (set_blocks (<[Z.to_nat slot:=r]> (blocks_ t)) t)).
  rewrite app_assoc, Hp, <- app_assoc. by destruct r.
Qed.

(** ** Two-slot tables *)

Lemma triple_state_table Φ X :
  triple (own Φ X) assertStateTable (λ _, own (λ t, NumBlocks t = 2 ∧ Φ t) X) (anyhow X).
Proof.
  eapply triple_weaken; [apply triple_check|done| |done]. intros [] s. apply own_weaken. intros t [?%Z.eqb_eq ?]. done.
Qed.

Lemma triple_assert_null slot message X :
  0 ≤ slot < 2 →
  triple (own (λ t, NumBlocks t = 2 ∧ True) X) (assert_null slot message)
    (λ _, own (λ t, NumBlocks t = 2) X) (anyhow X).
Proof.
  intros Hs. apply triple_ask_throw. intros h t (_ & _ & Hn & _). cbn in Hn.
  destruct (slot_lookup t slot) as (r & -> & _); [lia|]. cbn [mbind result_bind]. unfold _assert, raise_when. by destruct (negb _).
Qed.

Lemma state_assign_triple slot r X E :
  0 ≤ slot < 2 →
  triple (own (λ t, NumBlocks t = 2) (option_list r ++ X)) (assign_slot slot r) (λ _, anyhow X) E.
Proof. intros Hs. apply triple_assign. intros t Ht. split; [lia|done]. Qed.

Lemma ShapeState_triple input F :
  triple (anyhow (option_list input ++ F)) (ShapeStateTable input) (λ _, anyhow F) (anyhow F).
Proof.
  unfold ShapeStateTable.
  eapply (triple_bind _ (λ _, own (λ t, blocks_ t = []) (option_list input ++ F))).
  { apply triple_holding_one. eapply triple_weaken; [apply triple_check|done| |done].
    intros [] s. apply own_weaken. by intros t [?%bool_decide_eq_true _]. }
  intros [] [h t] (Hpl & How & Hnil). cbn in *. split_and!; try done. cbn. unfold table_refs in *. rewrite Hnil in How.
  by destruct input.
Qed.

Lemma ReleaseInput_triple F : triple (anyhow F) ReleaseStateInput (λ _, anyhow F) (anyhow F).
Proof.
  unfold ReleaseStateInput. eapply triple_bind; [apply triple_state_table|]. intros [].
  eapply triple_drop; [by apply (state_assign_triple 0 None)|]. by intros t [].
Qed.

Lemma InstallInput_triple input F :
  triple (anyhow (option_list input ++ F)) (InstallStateInput input) (λ _, anyhow F) (anyhow F).
Proof.
  unfold InstallStateInput. eapply triple_bind; [|intros ?; by apply state_assign_triple].
  apply triple_holding_one.
  eapply triple_bind; [apply triple_state_table|]. intros []. by apply triple_assert_null.
Qed.

Lemma Rotate_triple F : triple (anyhow F) RotateState (λ _, anyhow F) (anyhow F).
Proof.
  unfold RotateState. eapply triple_bind; [apply triple_state_table|]. intros [].
  eapply triple_bind; [|intros ?; by apply state_assign_triple]. apply triple_take_out. intros t [Ht _].
  split; [lia|]. unfold NumBlocks in *. cbn. by rewrite length_insert.
Qed.

Lemma StateSlot_triple slot F E :
  0 ≤ slot < 2 → triple (own (λ t, NumBlocks t = 2) F) (acquireStateSlot self i slot) (λ _, anyhow F) E.
Proof.
  intros Hs. unfold acquireStateSlot. eapply triple_bind; [apply triple_balanced|]. intros rs. apply triple_case. intros _.
  destruct rs as [|r [|r' rs]].
  2: { eapply (triple_bind _ (λ _, anyhow F)); [|intros []; apply (triple_ret true (λ _, anyhow F))].
    eapply triple_perm; [|by apply state_assign_triple]. by destruct r. }
  all: eapply (triple_bind _ (λ _, anyhow F)); [|intros []; apply (triple_ret false (λ _, anyhow F))].
  all: eapply triple_drop; [apply (triple_reset_all (λ _, True))|done].
Qed.

Lemma StateLive_triple F : triple (anyhow F) (AcquireStateLive self i) (λ _, anyhow F) (anyhow F).
Proof.
  unfold AcquireStateLive. eapply triple_bind; [apply triple_state_table|]. intros [].
  eapply triple_bind; [by apply triple_assert_null|]. intros []. by apply StateSlot_triple.
Qed.

Lemma StateInput_triple F : triple (anyhow F) (AcquireStateInput self i) (λ _, anyhow F) (anyhow F).
Proof.
  unfold AcquireStateInput. eapply triple_bind; [apply triple_state_table|]. intros [].
  eapply triple_bind; [by apply triple_assert_null|]. intros []. by apply StateSlot_triple.
Qed.

Lemma StateCheckpoint_triple F :
  triple (anyhow F) (AcquireStateCheckpoint self i) (λ r, anyhow (option_list r ++ F)) (anyhow F).
Proof.
  unfold AcquireStateCheckpoint. eapply triple_bind; [apply triple_state_table|]. intros [].
  eapply triple_bind; [apply triple_balanced|]. intros rs. apply triple_case. intros _.
  destruct rs as [|r [|r' rs]].
  2: { eapply triple_pre; [apply triple_ret|]. intros s Hs. apply own_anyhow in Hs. by destruct r. }
  all: eapply (triple_bind _ (λ _, anyhow F)); [|intros []; apply (triple_ret None (λ r, anyhow (option_list r ++ F)))].
  all: eapply triple_drop; [apply (triple_reset_all (λ _, True))|done].
Qed.

(** ** Retention *)

Lemma evict_from_triple n k F : triple (anyhow F) (evict_from k n) (λ _, anyhow F) (anyhow F).
Proof.
  revert k. induction n as [|n IH]; intros k; cbn [evict_from]; [apply (triple_ret () (λ _, anyhow F))|].
  eapply (triple_bind _ (λ r, anyhow (option_list r ++ F))).
  - unfold EvictToNull. eapply triple_bind; [apply triple_check|]. intros [].
    apply triple_take_out. intros t [Ht _]. split; [lia|done].
  - intros r. eapply triple_bind; [apply triple_reset|]. intros []. apply IH.
Qed.

Lemma Reclaim_triple n F : triple (anyhow F) (ReclaimExpired n) (λ _, anyhow F) (anyhow F).
Proof.
  unfold ReclaimExpired. eapply (triple_bind _ (λ _, anyhow F)); [apply triple_ask; intros h t _; by exists t|].
  intros t0. eapply triple_bind; [apply evict_from_triple|]. intros []. by apply triple_change.
Qed.

Lemma Consume_triple n F : triple (anyhow F) (ConsumeReservedTokens n) (λ _, anyhow F) (anyhow F).
Proof. unfold ConsumeReservedTokens. eapply triple_bind; [apply triple_check|]. intros []. by apply triple_change. Qed.

Lemma Free_triple F : triple (anyhow F) Free (λ _ s, anyhow F s ∧ s.2 = empty_table) (anyhow F).
Proof.
  unfold Free. intros [h t] (Hpl & How & _). cbn in How.
  rewrite (run_bind_Ok _ _ _ (blocks_ t) (h, t)) by done.
  destruct (reset_all_spec (reverse (blocks_ t)) h F) as (h' & Hrun & How' & Hsh).
  { unfold table_refs in How. assert (omap id (reverse (blocks_ t)) ≡ₚ omap id (blocks_ t)) as ->; [|done].
    by rewrite (reverse_Permutation (blocks_ t)). }
  rewrite (run_bind_Ok _ _ _ () (h', t)); [|unfold on_refs, within; cbn; by rewrite Hrun].
  cbn. split; [|done]. split_and!; [by eapply placed_shrinks|done|done].
Qed.

(** ** Host extensions *)

Definition transfer_refs (pairs : list BlockTransfer) : list nat :=
  mjoin ((λ pair, option_list (source pair) ++ option_list (destination pair)) <$> pairs).

Lemma transfer_refs_snoc pairs pair :
  transfer_refs (pairs ++ [pair]) = transfer_refs pairs ++ option_list (source pair) ++ option_list (destination pair).
Proof. unfold transfer_refs. rewrite fmap_app, join_app. cbn. by rewrite app_nil_r. Qed.

Lemma host_buckets_spec h held host :
  owned h held → 0 < shard_count_ self → (∀ c, Some c ∈ host → c ∈ held) →
  ∃ bs, host_buckets self h host = Ok bs ∧ length bs = length (omap id host) ∧ Forall (λ b, 0 ≤ b < shard_count_ self) bs.
Proof.
  intros How Hpos. unfold host_buckets. induction host as [|[c|] host IH]; intros Hin.
  - by exists [].
  - destruct IH as (bs & Hbs & Hlen & Hall); [intros d Hd; apply Hin; by right|].
    destruct (held_location h held c How) as (j & p & l & g & _ & Hloc & _ & Hlive); [apply Hin; by left|].
    exists (BucketOf self l :: bs). rewrite filter_cons, decide_True by (by eexists). split_and!.
    + apply mapM_Ok. constructor; [by rewrite Hloc|]. by apply mapM_Ok.
    + cbn. by rewrite Hlen.
    + constructor; [by eapply bucket_range|done].
  - rewrite filter_cons, decide_False by (by intros [? ?]). apply IH. intros d Hd. apply Hin. by right.
Qed.

Lemma on_table_Ok {A} (m : M tstate A) s pairs a s' :
  m s = (Ok a, s') → on_table m (s, pairs) = (Ok a, (s', pairs)).
Proof. unfold on_table, within. cbn. by intros ->. Qed.

(** A copy of a reference in use, with room to count it. *)
Lemma copy_own Φ (r : CacheBlockRef) X h t :
  own Φ X (h, t) → (∀ c, r = Some c → c ∈ table_refs t) → Z.of_nat (length (table_refs t ++ X)) < UINT32_MAX →
  ∃ h', copy_ref r h = (Ok r, h') ∧ own Φ (option_list r ++ X) (h', t).
Proof.
  intros (Hpl & How & HΦ) Hin Hroom. cbn in How. destruct r as [c|]; [|by exists h].
  destruct (copy_spec h _ c How) as (h' & Hrun & How' & [Hpools _]); [apply elem_of_app; left; by apply Hin|done|].
  exists h'. split; [done|]. split_and!; [|cbn; by rewrite <- Permutation_middle|done].
  destruct Hpl as (p & group & Hp & Hrest). exists p, group. cbn in *. by rewrite Hpools.
Qed.

Lemma extend_host_run host fresh h t pairs F :
  length fresh = length (omap id host) →
  anyhow (omap id fresh ++ omap id host ++ transfer_refs pairs ++ F) (h, t) →
  Z.of_nat (length (table_refs t ++ omap id fresh ++ omap id host ++ transfer_refs pairs ++ F)) + Z.of_nat (length host) < UINT32_MAX →
  ∃ s' pairs', extend_host self host fresh ((h, t), pairs) = (Ok (), (s', pairs')) ∧ anyhow (transfer_refs pairs' ++ F) s'.
Proof.
  revert fresh h t pairs. induction host as [|[c|] host IH]; intros fresh h t pairs Hlen Hown Hroom; cbn [extend_host].
  - destruct fresh; [|done]. exists (h, t), pairs. by split.
  - destruct fresh as [|r fresh]; [done|]. injection Hlen as Hlen.
    change (omap id (Some c :: host)) with (c :: omap id host) in *.
    set (t' := set_blocks (blocks_ t ++ [r]) t).
    assert (omap id (r :: fresh) = option_list r ++ omap id fresh) as Hr by (by destruct r). rewrite Hr in *.
    assert (table_refs t' = table_refs t ++ option_list r) as Ht.
    { unfold table_refs, t'. cbn [set_blocks blocks_]. rewrite omap_app. by destruct r. }
    destruct (copy_own (λ _, True) r (omap id fresh ++ (c :: omap id host) ++ transfer_refs pairs ++ F) h t') as (h' & Hcopy & Hown').
    { destruct Hown as (Hpl & How & _). split_and!; try done. cbn [fst snd] in *. rewrite Ht, <- app_assoc. by rewrite <- app_assoc in How. }
    { intros d ->. rewrite Ht. apply elem_of_app. right. by left. }
    { rewrite Ht. rewrite !length_app in *. cbn in *. lia. }
    rewrite (run_bind_Ok _ _ _ () ((h, t'), pairs)) by done.
    rewrite (run_bind_Ok _ _ _ r ((h', t'), pairs)); [|apply on_table_Ok; unfold on_refs, within; cbn; by rewrite Hcopy].
    rewrite (run_bind_Ok _ _ _ () ((h', t'), pairs ++ [mkTransfer (allocator_group_id_ self) (Some c) r])) by done.
    apply IH; [done|..]; rewrite transfer_refs_snoc; cbn [source destination option_list].
    + eapply own_perm; [|exact Hown']. solve_Permutation.
    + rewrite Ht, !length_app. rewrite !length_app in Hroom. cbn [length] in Hroom.
      change (length (option_list (Some c))) with 1%nat. assert (length (option_list r) ≤ 1)%nat by (destruct r; cbn; lia). lia.
  - set (t' := set_blocks (blocks_ t ++ [None]) t).
    assert (table_refs t' = table_refs t) as Ht.
    { unfold table_refs, t'. cbn. rewrite omap_app. cbn. by rewrite app_nil_r. }
    rewrite (run_bind_Ok _ _ _ () ((h, t'), pairs)) by done. apply IH; [done|..].
    + destruct Hown as (? & ? & _). split_and!; try done. cbn [fst snd]. by rewrite Ht.
    + rewrite Ht. cbn [length omap list_omap id] in *. lia.
Qed.

(** The references of the pairs a host extension adds. *)
Definition host_extension (host : list CacheBlockRef) (tail_available_tokens : Z) : M tstate (list CacheBlockRef) := λ s,
  match AppendHostExtension self i host tail_available_tokens (s, []) with
  | (Ok _, (s, pairs)) => (Ok (mjoin ((λ pair, [source pair; destination pair]) <$> pairs)), s)
  | (Raise e, (s, _)) => (Raise e, s)
  end.

Lemma pair_refs pairs : omap id (mjoin ((λ pair, [source pair; destination pair]) <$> pairs)) = transfer_refs pairs.
Proof.
  induction pairs as [|[g [c|] [d|]] pairs IH]; [done|..]; unfold transfer_refs in *; cbn.
  all: repeat f_equal; apply IH.
Qed.

Definition room_for (n : nat) (X : list nat) (t : BlockTable) : Prop :=
  Z.of_nat (length (table_refs t ++ X)) + 2 * Z.of_nat n < UINT32_MAX.

Lemma Extend_triple host tail F :
  triple (own (room_for (length host) (omap id host ++ F)) (omap id host ++ F)) (host_extension host tail)
    (λ out, anyhow (omap id out ++ F)) (anyhow (omap id host ++ F)).
Proof.
  set (Φ := room_for (length host) (omap id host ++ F)). intros s Hs. unfold host_extension, AppendHostExtension.
  match goal with |- context [mbind _ (on_table ?m)] => set (plan := m) end.
  assert (triple (own Φ (omap id host ++ F)) plan (λ fresh s, length fresh = length (omap id host) ∧
    own Φ (omap id fresh ++ omap id host ++ F) s) (anyhow (omap id host ++ F))) as Hplan.
  { unfold plan. eapply triple_bind; [apply triple_check|]. intros []. eapply triple_bind; [apply triple_check_pure|]. intros [].
    eapply (triple_bind _ (λ bs, own (λ t, (length bs = length (omap id host) ∧ Forall (λ b, 0 ≤ b < shard_count_ self) bs) ∧ Φ t) (omap id host ++ F))).
    { apply triple_ask. intros h t ((p & group & _ & _ & _ & _ & Hpos) & How & _ & _ & HΦ). cbn in How, HΦ.
      destruct (host_buckets_spec h _ host How Hpos) as (bs & Hbs & ? & ?); [|by exists bs].
      intros c Hc. apply elem_of_app. right. apply elem_of_app. left. apply list_elem_of_omap. by exists (Some c). }
    intros bs. apply triple_own_and. intros [Hlen Hrange]. eapply triple_bind; [by apply triple_buckets|]. intros fresh.
    apply triple_case. intros Hfresh. eapply triple_bind; [by apply triple_fatal|]. intros [].
    apply triple_case. intros Heq%Nat.eqb_eq. eapply triple_pre; [apply triple_ret|]. intros s' Hs'. split; [congruence|done]. }
  specialize (Hplan s Hs). destruct (plan s) as [[fresh|e] [h t]] eqn:Hrun.
  - rewrite (run_bind_Ok _ _ _ _ _ (on_table_Ok plan s [] _ _ Hrun)). destruct Hplan as [Hlen Hown].
    assert (length (omap id host) ≤ length host)%nat as Hle by (clear; induction host as [|[] ? ?]; cbn; lia).
    assert (length (omap id fresh) ≤ length fresh)%nat as Hle' by (clear; induction fresh as [|[] ? ?]; cbn; lia).
    destruct (extend_host_run host fresh h t [] F Hlen) as (s' & pairs & Hext & Hany).
    { by eapply own_anyhow. }
    { destruct Hown as (_ & _ & HΦ). unfold Φ, room_for in HΦ. cbn [fst snd] in HΦ.
      change (transfer_refs []) with (@nil nat). rewrite !length_app. rewrite !length_app in HΦ. cbn [length]. unfold CacheBlockRef in *. lia. }
    rewrite (run_bind_Ok _ _ _ _ _ Hext). cbn [on_table within change modify fst snd]. rewrite pair_refs.
    destruct s' as [h' t']. done.
  - assert (on_table plan (s, []) = (Raise e, ((h, t), []))) as Hraise by (unfold on_table, within; cbn; by rewrite Hrun).
    rewrite (run_bind_Raise _ _ _ _ _ Hraise). by destruct e.
Qed.

(** ** All operations *)

Inductive table_op :=
  | OpClaim (hit : PrefixMatch)
  | OpAcquire (plan : AcquirePlan)
  | OpShape (shape : ImageTable) (claimed : list CacheBlockRef)
  | OpSwap (slot available_tokens : Z)
  | OpExtend (host : list CacheBlockRef) (tail_available_tokens : Z)
  | OpShapeState (input : CacheBlockRef)
  | OpReleaseInput
  | OpInstallInput (input : CacheBlockRef)
  | OpRotate
  | OpAcquireLive
  | OpAcquireInput
  | OpCheckpoint
  | OpReclaim (num_expired_blocks : Z)
  | OpConsume (num_tokens : Z)
  | OpFree.

(** What the caller hands over, and has back when the operation throws. *)
Definition given (op : table_op) : list CacheBlockRef :=
  match op with
  | OpClaim hit => blocks hit
  | OpShape _ claimed => claimed
  | OpExtend host _ => host
  | OpShapeState input | OpInstallInput input => [input]
  | _ => []
  end.

Definition kept (op : table_op) : list CacheBlockRef :=
  match op with
  | OpClaim hit => blocks hit
  | OpExtend host _ => host
  | _ => []
  end.

(** An operation, with the references it returns. *)
Definition run_op (op : table_op) : M tstate (list CacheBlockRef) :=
  match op with
  | OpClaim hit => ClaimHitBlocks hit ;; mret []
  | OpAcquire plan => Acquire self i plan ;; mret []
  | OpShape shape claimed => AcquireShape self i shape claimed ;; mret []
  | OpSwap slot available => r ← SwapInFreshBlock self i slot available; mret [r]
  | OpExtend host tail => host_extension host tail
  | OpShapeState input => ShapeStateTable input ;; mret []
  | OpReleaseInput => ReleaseStateInput ;; mret []
  | OpInstallInput input => InstallStateInput input ;; mret []
  | OpRotate => RotateState ;; mret []
  | OpAcquireLive => AcquireStateLive self i ;; mret []
  | OpAcquireInput => AcquireStateInput self i ;; mret []
  | OpCheckpoint => r ← AcquireStateCheckpoint self i; mret [r]
  | OpReclaim n => ReclaimExpired n ;; mret []
  | OpConsume n => ConsumeReservedTokens n ;; mret []
  | OpFree => Free ;; mret []
  end.

(** What the caller answers for: an int32 end of a suffix, a shape whose blocks are
    held, and room to count one more reference per pair. *)
Definition may_run (op : table_op) (F : list nat) (t : BlockTable) : Prop :=
  match op with
  | OpAcquire plan => INT32_MIN ≤ suffix_start plan + num_blocks plan ≤ INT32_MAX
  | OpShape shape _ => ∀ slot c, slot ∈ image_slots shape → image_block slot = Some c → c ∈ F
  | OpExtend host _ => room_for (length host) (omap id host ++ F) t
  | _ => True
  end.

Lemma returns_nothing {A} (m : M tstate A) P F E :
  triple P m (λ _, anyhow F) E → triple P (m ;; mret []) (λ out, anyhow (omap id (out : list CacheBlockRef) ++ F)) E.
Proof. intros Hm. eapply triple_bind; [done|]. intros a. eapply triple_pre; [apply triple_ret|]. done. Qed.

Lemma returns_one (m : M tstate CacheBlockRef) P F E :
  triple P m (λ r, anyhow (option_list r ++ F)) E →
  triple P (r ← m; mret [r]) (λ out, anyhow (omap id (out : list CacheBlockRef) ++ F)) E.
Proof.
  intros Hm. eapply triple_bind; [done|]. intros r. eapply triple_pre; [apply triple_ret|]. intros s. by destruct r.
Qed.

Lemma run_op_triple op F :
  triple (own (may_run op F) (omap id (given op) ++ F)) (run_op op) (λ out, anyhow (omap id out ++ F))
    (anyhow (omap id (kept op) ++ F)).
Proof.
  destruct op; cbn [may_run given kept run_op];
    try (apply triple_own_case; intros Hmay); try apply returns_nothing; try apply returns_one.
  - apply Claim_triple.
  - by apply Acquire_triple.
  - by apply AcquireShape_triple.
  - apply Swap_triple.
  - apply Extend_triple.
  - eapply triple_perm; [|apply ShapeState_triple]. by destruct input.
  - apply ReleaseInput_triple.
  - eapply triple_perm; [|apply InstallInput_triple]. by destruct input.
  - apply Rotate_triple.
  - apply StateLive_triple.
  - apply StateInput_triple.
  - apply StateCheckpoint_triple.
  - apply Reclaim_triple.
  - apply Consume_triple.
  - eapply triple_weaken; [apply Free_triple|done|by intros [] s [? _]|done].
Qed.
End tables.

(** C4: Table operations conserve references.  Whatever an operation of the group
    allocator does, also when it throws half way, afterwards every reference is owned
    once: by the table, by the caller, or by whoever else had it, with exact counts and
    exactly those blocks in use.  Nothing is undefined, and the only fatal check that
    can fail is that of an admission that was not planned. *)
Theorem table_operations_conserve self i op h t F :
  placed_for self i h → owned h (table_refs t ++ omap id (given op) ++ F) → may_run op F t →
  match run_op self i op (h, t) with
  | (Ok out, (h', t')) => placed_for self i h' ∧ owned h' (table_refs t' ++ omap id out ++ F)
  | (Raise (Abort message), _) => message = no_fit
  | (Raise (Undefined _), _) => False
  | (Raise _, (h', t')) => placed_for self i h' ∧ owned h' (table_refs t' ++ omap id (kept op) ++ F)
  end.
Proof.
  intros Hpl How Hmay. pose proof (run_op_triple self i op F (h, t)) as Hrun.
  assert (own self i (may_run op F) (omap id (given op) ++ F) (h, t)) as Hpre by done.
  specialize (Hrun Hpre). destruct (run_op self i op (h, t)) as [[out|e] [h' t']].
  - by destruct Hrun as (? & ? & _).
  - destruct e; try done; by destruct Hrun as (? & ? & _).
Qed.

(** An unused pool of four parents whose group has four slots per parent in two buckets. *)
Definition some_allocator : GroupAllocator := mkAllocator 4 0 2.
Definition some_pool : BlockPool :=
  mkPool (replicate 4 empty_block) [1; 2; 3; 4] [mkGroup 4 [0; 0] [[]; []]].
Definition some_heap : heap := mkHeap [some_pool] [].

Lemma some_heap_placed : placed_for some_allocator 0 some_heap.
Proof. eexists _, _. by split_and!. Qed.

Lemma some_heap_owned : owned some_heap [].
Proof.
  apply owned_unused. constructor; [|constructor].
  destruct (unused_new 4 [4] (mkPool (replicate 4 empty_block) [1; 2; 3; 4] [mkGroup 4 [] []]) eq_refl) as [Hok Hlive].
  destruct (register_spec _ 0 _ 2 Hok eq_refl) as (p & group & Hrun & Hok' & _ & _ & _ & _ & Hbl & _); [done|done|by left|].
  vm_compute in Hrun. injection Hrun as <-. split; [exact Hok'|]. intros l. rewrite <- (Hlive l). by apply live_blocks.
Qed.

Lemma table_operations_conserve_witness :
  ∃ h' t', run_op some_allocator 0 (OpAcquire (mkPlan 3 2 5 1)) (some_heap, empty_table) = (Ok [], (h', t')) ∧
    table_refs t' = [0; 1; 2]%nat ∧ owned h' [0; 1; 2]%nat.
Proof.
  pose proof (table_operations_conserve some_allocator 0 (OpAcquire (mkPlan 3 2 5 1)) some_heap empty_table []
    some_heap_placed some_heap_owned) as Hrun.
  eexists _, _. split; [vm_compute; reflexivity|]. split; [reflexivity|]. vm_compute in Hrun. apply Hrun. split; discriminate.
Defined.
