(* ===== verification/TableExact.v ===== *)
(** * What the group allocator computes

    An admission, from the plan of its geometry to the table it leaves; the page ids of
    a table; and retention. *)

From stdpp Require Import gmap strings.
From S2P Require Import Prelude PyState Cxx BlockPool BlockPoolFacts BlockPoolSafety BlockRefs.
From S2P Require Import PrefixIndex PrefixIndexFacts PrefixMatcher SchedulerConfig GroupGeometry GroupAllocator TableSafety.

Local Open Scope Z_scope.

Lemma assert_true b message u : _assert b message = Ok u → b = true.
Proof. by rewrite _assert_Ok. Qed.

(** ** Plans *)

(** The tokens a table holds. *)
Definition filled (g : Z) (t : BlockTable) : Z := NumBlocks t * g - available_tokens_ t.

(** What the demand says the table holds afterwards. *)
Definition filled_after (g : Z) (demand : GroupDemand) (t : BlockTable) : Z :=
  match extent demand with
  | DenseGrowth num_tokens => filled g t + num_tokens
  | SparseSuffix extent_tokens _ => extent_tokens
  | StateStep _ _ => filled g t
  end.

Record planned (g : Z) (t : BlockTable) (demand : GroupDemand) (plan : AcquirePlan) : Prop := {
  pl_blocks : 0 ≤ num_blocks plan;
  pl_filled : table_blocks_after plan * g - available_tokens_after plan = filled_after g demand t;
  pl_reserve : 0 ≤ reserve_tokens demand ≤ available_tokens_after plan;
  pl_shape : suffix_start plan < 0 ∧ table_blocks_after plan = NumBlocks t + num_blocks plan ∨
    NumBlocks t ≤ suffix_start plan ∧ INT32_MIN ≤ table_blocks_after plan ≤ INT32_MAX ∧
    (0 < num_blocks plan ∧ suffix_start plan + num_blocks plan = table_blocks_after plan ∨
     num_blocks plan = 0 ∧ table_blocks_after plan = NumBlocks t);
}.

Lemma BlocksNeededFor_inv g t n b :
  0 < g → BlocksNeededFor t n (mkGeometry g) = Ok b →
  0 ≤ available_tokens_ t ∧ b = least_blocks g (n - available_tokens_ t).
Proof.
  intros Hg. unfold BlocksNeededFor, BlocksNeededBeyond. intros (? & Ha%assert_true & Hb)%bind_Ok. split; [lia|]. revert Hb.
  unfold least_blocks. destruct (Z.leb_spec n (available_tokens_ t)) as [Hle|Hgt].
  - intros [= <-]. rewrite Z.max_r by lia. symmetry. apply Z.div_small. lia.
  - intros (over & [-> _]%i32_bounds & Hb)%bind_Ok. unfold blocks_covering in Hb. cbn [block_granularity_] in Hb.
    apply bind_Ok in Hb as (a & [-> _]%i32_bounds & Hb). apply bind_Ok in Hb as (c & [-> Hc]%i32_bounds & Hb).
    rewrite div32_Ok in Hb by lia. injection Hb as <-. by rewrite Z.max_l by lia.
Qed.

Lemma planDense_inv g t n r plan demand :
  0 < g → planDense t n r (mkGeometry g) = Ok plan → extent demand = DenseGrowth n → reserve_tokens demand = r →
  planned g t demand plan.
Proof.
  intros Hg Hplan Hext Hres. unfold planDense in Hplan.
  apply bind_Ok in Hplan as (? & Hn%assert_true & Hplan). apply bind_Ok in Hplan as (m & [-> _]%i32_bounds & Hplan).
  apply bind_Ok in Hplan as (b & [Ha ->]%(BlocksNeededFor_inv g t _ _ Hg) & Hplan).
  apply bind_Ok in Hplan as (after & [-> _]%i32_bounds & Hplan). cbn [block_granularity_] in Hplan.
  apply bind_Ok in Hplan as (cap & [-> _]%i32_bounds & Hplan). apply bind_Ok in Hplan as (total & [-> _]%i32_bounds & Hplan).
  apply bind_Ok in Hplan as (left & [-> _]%i32_bounds & [= <-]).
  pose proof (least_blocks_bounds g Hg (n + r - available_tokens_ t)) as Hb.
  split; cbn [num_blocks suffix_start table_blocks_after available_tokens_after].
  - lia.
  - unfold filled_after, filled. rewrite Hext. lia.
  - lia.
  - left. lia.
Qed.

Lemma sparse_blocks_inv g t e f r b :
  0 < g → sparseSuffixBlocks t e f r (mkGeometry g) = Ok b →
  NumBlocks t ≤ f ∧ 0 < e ∧ 0 ≤ r ∧ e + r ≤ INT32_MAX ∧ b = Z.max 0 (least_blocks g (e + r) - f).
Proof.
  intros Hg. unfold sparseSuffixBlocks. intros (? & Hf%assert_true & H1)%bind_Ok.
  apply bind_Ok in H1 as (? & He%assert_true & H1). apply bind_Ok in H1 as (? & Hx%assert_true & H1).
  cbn [block_granularity_] in H1. rewrite div32_Ok in H1 by lia. cbn [mbind result_bind] in H1.
  apply bind_Ok in H1 as (a & [-> _]%i32_bounds & H1). apply bind_Ok in H1 as (c & [-> _]%i32_bounds & [= <-]).
  split_and!; try lia. f_equal. pose proof (least_blocks_bounds g Hg (e + r)) as Hb. rewrite Z.max_l in Hb by lia.
  pose proof (Z.div_mod (e + r - 1) g ltac:(lia)). pose proof (Z.mod_pos_bound (e + r - 1) g Hg). nia.
Qed.

Lemma planSparse_inv g t e f r plan demand :
  0 < g → planSparseSuffix t e f r (mkGeometry g) = Ok plan → extent demand = SparseSuffix e f → reserve_tokens demand = r →
  planned g t demand plan.
Proof.
  intros Hg Hplan Hext Hres. unfold planSparseSuffix in Hplan.
  apply bind_Ok in Hplan as (b & (Hf & He & Hr & Hx & ->)%(sparse_blocks_inv g t _ _ _ _ Hg) & Hplan).
  pose proof (least_blocks_bounds g Hg (e + r)) as Hb. rewrite Z.max_l in Hb by lia.
  cbn [block_granularity_] in Hplan. apply bind_Ok in Hplan as (logical & Hl & Hplan).
  assert (logical = least_blocks g (e + r)) as ->.
  { unfold div32 in Hl. rewrite (proj2 (Z.eqb_neq _ _)) in Hl by lia. rewrite Z.quot_div_nonneg in Hl by lia.
    apply i32_bounds in Hl as [-> _]. unfold least_blocks. by rewrite Z.max_l by lia. }
  apply bind_Ok in Hplan as (? & Hempty%assert_true & Hplan). apply bind_Ok in Hplan as (cap & [-> _]%i32_bounds & Hplan).
  apply bind_Ok in Hplan as (left & [-> _]%i32_bounds & [= <-]).
  split; cbn [num_blocks suffix_start table_blocks_after available_tokens_after].
  - lia.
  - unfold filled_after. rewrite Hext. lia.
  - lia.
  - right. split; [done|]. split; [unfold INT32_MIN; nia|]. lia.
Qed.

Lemma PlanAcquire_inv g t demand plan :
  0 < g → PlanAcquire t demand (mkGeometry g) = Ok plan → planned g t demand plan.
Proof.
  intros Hg. unfold PlanAcquire. destruct (extent demand) as [n|e f|kind checkpoint] eqn:Hext; intros Hplan.
  - by eapply planDense_inv.
  - by eapply planSparse_inv.
  - done.
Qed.

(** ** Executing a plan *)

Lemma acquire_refs_nothing i acquire h p :
  pools h !! i = Some p → acquire p = (Ok [], p) → acquire_refs i acquire h = (Ok [], h).
Proof.
  intros Hp Hacq. unfold acquire_refs, pool_at. rewrite Hp. cbn [lookup_or]. rewrite Hacq. cbn [length seq fmap list_fmap].
  destruct h as [ps cs]. unfold new_controls, set_pool. cbn in *. by rewrite app_nil_r, list_insert_id.
Qed.

Section acquire.
Context (self : GroupAllocator) (i : nat) (h : heap) (t : BlockTable) (F : list nat) (p : BlockPool) (group : GroupAvailability).
Context (Hpl : placed_for self i h) (How : owned h (table_refs t ++ F)).
Context (Hp : pools h !! i = Some p) (Hg : group_availability_ p !! allocator_group_id_ self = Some group).

Lemma balanced_run n :
  0 < n →
  (capacity p group < n → acquire_balanced self i n (h, t) = (Ok [], (h, t))) ∧
  (n ≤ capacity p group → ∃ new ls h', acquire_balanced self i n (h, t) = (Ok (Some <$> new), (h', t)) ∧
     Z.of_nat (length new) = n ∧ owned h' (table_refs t ++ new ++ F) ∧ gains h i (allocator_group_id_ self) new ls h').
Proof.
  intros Hn. pose proof Hpl as (q & gq & Hq & Hgq & Hpk & Hb & Hpos).
  assert (q = p) as -> by congruence. assert (gq = group) as -> by congruence.
  destruct (BucketLoads_spec self h t F How Hpos) as (loads & Hloads & Hvalid). unfold acquire_balanced.
  rewrite (run_bind_Ok _ _ _ loads (h, t)); [|unfold ask_table, const; cbn; by rewrite Hloads].
  destruct (acquire_blocks_spec p _ group n loads (ow_pools _ _ How _ _ Hp) Hg) as [Hno Hyes].
  { intros Hl. rewrite Hb. by apply Hvalid. }
  split; intros Hcap; unfold on_refs, within; cbn [fst snd].
  - by rewrite (acquire_refs_nothing i _ h p Hp (Hno (or_intror Hcap))).
  - destruct (Hyes (conj Hn Hcap)) as (ls & p' & Hacq & Hgr & Hlen).
    destruct (acquire_own self i _ F h t p _ ls p' (λ _, True) (conj Hpl (conj How I)) Hp Hacq Hgr)
      as (new & h' & Hrun & Hnew & (_ & How' & _) & Hga); [by eapply lookup_lt_Some|].
    exists new, ls, h'. rewrite Hrun. split_and!; [done|congruence|done|done].
Qed.
End acquire.

Lemma assign_null_run h t slot r :
  blocks_ t !! slot = Some None →
  assign_slot (Z.of_nat slot) r (h, t) = (Ok (), (h, set_blocks (<[slot := r]> (blocks_ t)) t)).
Proof.
  intros Hl. unfold assign_slot. rewrite (run_bind_Ok _ _ _ (None : CacheBlockRef) (h, t)).
  - cbn. by rewrite Nat2Z.id.
  - assert (vec_at (blocks_ t) (Z.of_nat slot) = Ok (None : CacheBlockRef)) as Hv by (by apply vec_at_nat).
    unfold ask_table, const. cbn. by rewrite Hv.
Qed.

(** Null slots take the references as they come. *)
Lemma place_at_run h (rs pre post : list CacheBlockRef) a r :
  place_at (Z.of_nat (length pre)) rs (h, mkTable (pre ++ replicate (length rs) None ++ post) a r) =
  (Ok (), (h, mkTable (pre ++ rs ++ post) a r)).
Proof.
  revert pre. induction rs as [|x rs IH]; intros pre; [done|]. cbn [place_at length replicate app].
  assert ((pre ++ None :: replicate (length rs) None ++ post) !! length pre = Some None) as Hl.
  { by rewrite lookup_app_r, Nat.sub_diag. }
  rewrite (run_bind_Ok _ _ _ _ _ (assign_null_run h (mkTable _ a r) _ x Hl)). unfold set_blocks. cbn [blocks_ available_tokens_ reclaimed_prefix_blocks_].
  specialize (IH (pre ++ [x])). rewrite length_app, Nat2Z.inj_add in IH. change (Z.of_nat (length [x])) with 1 in IH.
  rewrite insert_app_r_alt, Nat.sub_diag by done. rewrite <- !app_assoc in IH. exact IH.
Qed.

Lemma resize_run h t n :
  NumBlocks t ≤ n → resize n (h, t) =
  (Ok (), (h, set_blocks (blocks_ t ++ replicate (Z.to_nat n - length (blocks_ t)) None) t)).
Proof.
  unfold NumBlocks. intros Hn. unfold resize, check, raise_when. rewrite (proj2 (Z.ltb_ge _ _)) by lia.
  rewrite (run_bind_Ok _ _ _ () (h, t)) by done. rewrite (run_bind_Ok _ _ _ ([] : list CacheBlockRef) (h, t)).
  - rewrite (run_bind_Ok _ _ _ () (h, t)) by done. unfold change, modify. cbn [fst snd]. by rewrite take_ge by lia.
  - unfold ask_table, const. cbn. by rewrite drop_ge by lia.
Qed.

Lemma place_suffix_run h t plan old (rs : list CacheBlockRef) :
  NumBlocks t ≤ suffix_start plan → num_blocks plan = Z.of_nat (length rs) →
  suffix_start plan + num_blocks plan = table_blocks_after plan → INT32_MIN ≤ table_blocks_after plan ≤ INT32_MAX →
  place_suffix plan old rs (h, t) =
  (Ok (), (h, mkTable (blocks_ t ++ replicate (Z.to_nat (suffix_start plan - NumBlocks t)) None ++ rs)
    (available_tokens_ t) (if old =? 0 then suffix_start plan else reclaimed_prefix_blocks_ t))).
Proof.
  intros Hstart Hnum Hafter Hint. assert (0 ≤ NumBlocks t) as Hpos by (unfold NumBlocks; lia).
  set (k := Z.to_nat (suffix_start plan - NumBlocks t)). set (pre := blocks_ t ++ replicate k None).
  assert (suffix_start plan = Z.of_nat (length pre)) as Hpre.
  { unfold pre, k, NumBlocks in *. rewrite length_app, length_replicate. lia. }
  assert (blocks_ t ++ replicate (Z.to_nat (table_blocks_after plan) - length (blocks_ t)) None =
          pre ++ replicate (length rs) None ++ []) as Hres.
  { unfold pre. rewrite app_nil_r, <- app_assoc, <- replicate_add. do 2 f_equal. unfold k, NumBlocks in *. lia. }
  unfold place_suffix. rewrite (run_bind_Ok _ _ _ () (h, set_blocks (pre ++ replicate (length rs) None ++ []) t)).
  - rewrite (run_bind_Ok _ _ _ () (h, mkTable (pre ++ replicate (length rs) None ++ []) (available_tokens_ t)
      (if old =? 0 then suffix_start plan else reclaimed_prefix_blocks_ t))); [|by destruct (old =? 0)].
    rewrite Hpre at 1. rewrite place_at_run. rewrite app_nil_r. unfold pre. by rewrite <- app_assoc.
  - unfold holding. erewrite run_bind_Ok; [|unfold ask_table, const; cbn; by rewrite (proj2 (Z.leb_le _ _) Hstart)].
    rewrite (i32_Ok (suffix_start plan + num_blocks plan)) by lia. cbn [mbind result_bind].
    erewrite run_bind_Ok; [|unfold check, const; by rewrite (proj2 (Z.leb_le _ _)) by lia].
    rewrite resize_run by lia. by rewrite Hres.
Qed.

(** The reference of every slot of a table that grew is an old or a new one. *)
Lemma table_refs_grown t k (new : list nat) a r :
  table_refs (mkTable (blocks_ t ++ replicate k None ++ (Some <$> new)) a r) = table_refs t ++ new.
Proof.
  unfold table_refs. cbn [blocks_]. rewrite !omap_app.
  assert (∀ m, omap id (replicate m (None : CacheBlockRef)) = []) as -> by (by induction m).
  cbn [app]. f_equal. apply omap_Some.
Qed.

(** The table after the blocks are there. *)
Lemma execute_run g h t demand plan (rs : list CacheBlockRef) :
  planned g t demand plan → num_blocks plan = Z.of_nat (length rs) → suffix_start plan ≤ table_blocks_after plan →
  ∃ reclaimed,
    ((if suffix_start plan <? 0 then change (λ t, set_blocks (blocks_ t ++ rs) t) else place_suffix plan (NumBlocks t) rs) ;;
     change (set_available (available_tokens_after plan)) ;; mret true : M tstate bool) (h, t) =
    (Ok true, (h, mkTable (blocks_ t ++ replicate (Z.to_nat (table_blocks_after plan - NumBlocks t - num_blocks plan)) None ++ rs)
       (available_tokens_after plan) reclaimed)).
Proof.
  intros [Hb _ _ Hshape] Hlen Hlands. assert (0 ≤ NumBlocks t) by (unfold NumBlocks; lia).
  destruct Hshape as [[Hd Hafter]|(Hover & Hint & Hs)].
  - exists (reclaimed_prefix_blocks_ t). rewrite (proj2 (Z.ltb_lt _ _) Hd), Hafter.
    replace (NumBlocks t + num_blocks plan - NumBlocks t - num_blocks plan) with 0 by lia. done.
  - eexists. rewrite (proj2 (Z.ltb_ge _ _)) by lia.
    erewrite run_bind_Ok; [|apply place_suffix_run; [done|done|lia|done]].
    replace (table_blocks_after plan - NumBlocks t - num_blocks plan) with (suffix_start plan - NumBlocks t) by lia. done.
Qed.

Lemma gains_nothing i g h : gains h i g [] [] h.
Proof.
  split; try done.
  - intros c ?%not_elem_of_nil. done.
  - constructor.
  - intros p l _ ?%not_elem_of_nil. done.
  - intros j p Hp. exists p. split_and!; try done. intros l. rewrite decide_False; [done|]. by intros [_ ?%not_elem_of_nil].
Qed.

Lemma capacity_nonneg p g group :
  ok p → group_availability_ p !! g = Some group → 0 ≤ capacity p group.
Proof.
  intros Hok Hg. unfold capacity, FreeSlots, NumEmptyLcmBlocks. pose proof (go_packing _ _ _ (ok_groups _ Hok _ _ Hg)).
  pose proof (sumZ_nonneg _ (free_slots_nonneg p g group Hok Hg)). nia.
Qed.

(** The answer of an admission that fits. *)
Definition admitted (self : GroupAllocator) (i : nat) (g : Z) (h : heap) (t : BlockTable) (F : list nat)
    (demand : GroupDemand) (plan : AcquirePlan) (answer : result bool * tstate) : Prop :=
  ∃ new ls h' t', answer = (Ok true, (h', t')) ∧
    blocks_ t' = blocks_ t ++ replicate (Z.to_nat (table_blocks_after plan - NumBlocks t - num_blocks plan)) None ++ (Some <$> new) ∧
    Z.of_nat (length new) = num_blocks plan ∧ gains h i (allocator_group_id_ self) new ls h' ∧
    owned h' (table_refs t' ++ F) ∧ filled g t' = filled_after g demand t ∧ reserve_tokens demand ≤ available_tokens_ t'.

Lemma execute_admitted self i g h t F demand plan new ls h' :
  planned g t demand plan → suffix_start plan ≤ table_blocks_after plan → Z.of_nat (length new) = num_blocks plan →
  owned h' (table_refs t ++ new ++ F) → gains h i (allocator_group_id_ self) new ls h' →
  admitted self i g h t F demand plan
    (((if suffix_start plan <? 0 then change (λ t, set_blocks (blocks_ t ++ (Some <$> new)) t)
       else place_suffix plan (NumBlocks t) (Some <$> new)) ;;
      change (set_available (available_tokens_after plan)) ;; mret true : M tstate bool) (h', t)).
Proof.
  intros Hplan Hlands Hlen How' Hga.
  destruct (execute_run g h' t demand plan (Some <$> new)) as [reclaimed Hexec]; [done|rewrite length_fmap; lia|done|].
  destruct Hplan as [Hb Hfill Hres Hshape].
  eexists new, ls, h', _. split; [exact Hexec|]. cbn [blocks_ available_tokens_]. split_and!; try done; [..|lia].
  - by rewrite table_refs_grown, <- app_assoc.
  - unfold filled, NumBlocks in *. cbn [blocks_ available_tokens_]. rewrite !length_app, length_replicate, length_fmap.
    rewrite <- Hfill. f_equal. f_equal. destruct Hshape as [|]; lia.
Qed.

(** A sparse suffix that starts behind the planned table takes no block and is refused. *)
Lemma beyond_refused self i g h t demand plan :
  planned g t demand plan → table_blocks_after plan < suffix_start plan ≤ INT32_MAX →
  num_blocks plan = 0 ∧
  Acquire self i plan (h, t) = (Raise (RuntimeError "sparse suffix exceeds the planned table size"), (h, t)).
Proof.
  intros [Hb _ _ Hshape] Hfar. assert (0 ≤ NumBlocks t) as Hpos by (unfold NumBlocks; lia).
  assert (num_blocks plan = 0 ∧ NumBlocks t ≤ suffix_start plan ∧ 0 ≤ suffix_start plan) as (Hnone & Hstart & Hnn) by lia.
  split; [done|]. unfold Acquire. rewrite (run_bind_Ok _ _ _ (NumBlocks t) (h, t)) by done. rewrite Hnone.
  change (0 <? 0) with false. cbn [andb]. rewrite (run_bind_Ok _ _ _ ([] : list CacheBlockRef) (h, t)) by done.
  rewrite (proj2 (Z.ltb_ge _ _)) by lia. apply run_bind_Raise. unfold place_suffix. apply run_bind_Raise. unfold holding.
  rewrite (run_bind_Ok _ _ _ () (h, t)) by (unfold ask_table, const; cbn; by rewrite (proj2 (Z.leb_le _ _) Hstart)).
  rewrite Hnone, (i32_Ok (suffix_start plan + 0)) by (unfold INT32_MIN; lia). cbn [mbind result_bind].
  rewrite (run_bind_Raise _ _ (h, t) (RuntimeError "sparse suffix exceeds the planned table size") (h, t)); [done|].
  unfold check, const. by rewrite (proj2 (Z.leb_gt _ _)) by lia.
Qed.

(** C5: An admission is exact.  A plan of the geometry that the pool has no room for
    changes nothing.  One it has room for adds as many fresh blocks as planned, each new
    in use and held once, after the blocks there were and the holes of a sparse suffix;
    the table then holds exactly the tokens demanded and has the reserve free.  The one
    plan that is refused with an error is that of a sparse suffix which lands nothing and
    starts behind the planned table; table and pool stay as they are. *)
Theorem admission_exact self i g h t F demand plan p group :
  0 < g → placed_for self i h → owned h (table_refs t ++ F) →
  pools h !! i = Some p → group_availability_ p !! allocator_group_id_ self = Some group →
  PlanAcquire t demand (mkGeometry g) = Ok plan → suffix_start plan ≤ INT32_MAX →
  if suffix_start plan <=? table_blocks_after plan then
    if room p (allocator_group_id_ self) group <? num_blocks plan
    then Acquire self i plan (h, t) = (Ok false, (h, t))
    else admitted self i g h t F demand plan (Acquire self i plan (h, t))
  else num_blocks plan = 0 ∧
    Acquire self i plan (h, t) = (Raise (RuntimeError "sparse suffix exceeds the planned table size"), (h, t)).
Proof.
  intros Hg Hpl How Hp Hgroup Hplan Hint. pose proof (PlanAcquire_inv g t demand plan Hg Hplan) as Hpd.
  destruct (Z.leb_spec (suffix_start plan) (table_blocks_after plan)) as [Hlands|Hfar]; [|by eapply beyond_refused].
  unfold room. rewrite <- (capacity_room p _ group (ow_pools _ _ How _ _ Hp) Hgroup).
  pose proof (balanced_run self i h t F p group Hpl How Hp Hgroup (num_blocks plan)) as Hrun.
  unfold Acquire. rewrite (run_bind_Ok _ _ _ (NumBlocks t) (h, t)) by done.
  destruct (Z.ltb_spec 0 (num_blocks plan)) as [Hpos|Hzero]; cbn [andb].
  - destruct (Hrun Hpos) as [Hno Hyes]. destruct (Z.ltb_spec (capacity p group) (num_blocks plan)) as [Hcap|Hcap].
    + rewrite (run_bind_Ok _ _ _ _ _ (Hno Hcap)). cbn [length]. by rewrite (proj2 (Z.ltb_lt _ _)) by lia.
    + destruct (Hyes Hcap) as (new & ls & h' & Hacq & Hlen & How' & Hga).
      rewrite (run_bind_Ok _ _ _ _ _ Hacq). rewrite length_fmap, (proj2 (Z.ltb_ge _ _)) by lia. by eapply execute_admitted.
  - pose proof (pl_blocks _ _ _ _ Hpd). pose proof (capacity_nonneg p _ group (ow_pools _ _ How _ _ Hp) Hgroup).
    rewrite (proj2 (Z.ltb_ge _ _)) by lia.
    apply (execute_admitted self i g h t F demand plan [] [] h); [done|done|cbn; lia|done|apply gains_nothing].
Qed.

(** Ten tokens with two in reserve, in pages of four. *)
Lemma admission_exact_witness :
  admitted some_allocator 0 4 some_heap empty_table [] (mkDemand (DenseGrowth 10) 2) (mkPlan 3 (-1) 3 2)
    (Acquire some_allocator 0 (mkPlan 3 (-1) 3 2) (some_heap, empty_table)).
Proof.
  pose proof (admission_exact some_allocator 0 4 some_heap empty_table [] (mkDemand (DenseGrowth 10) 2) (mkPlan 3 (-1) 3 2)
    some_pool (mkGroup 4 [0; 0] [[]; []]) ltac:(lia) some_heap_placed some_heap_owned eq_refl eq_refl eq_refl ltac:(done)) as Hadmit.
  exact Hadmit.
Defined.

(** ** Retention *)

(** Slots below the frontier are null. *)
Definition frontier_ok (t : BlockTable) : Prop :=
  0 ≤ reclaimed_prefix_blocks_ t ∧ ∀ j r, blocks_ t !! j = Some r → Z.of_nat j < reclaimed_prefix_blocks_ t → r = None.

Definition emptied (k n : nat) (rs : list CacheBlockRef) : list CacheBlockRef :=
  take k rs ++ replicate n None ++ drop (k + n) rs.

Lemma emptied_0 k rs : emptied k 0 rs = rs.
Proof. unfold emptied. cbn [replicate app]. by rewrite Nat.add_0_r, take_drop. Qed.

Lemma emptied_S k n rs : (k + S n ≤ length rs)%nat → emptied (S k) n (<[k := None]> rs) = emptied k (S n) rs.
Proof.
  intros Hk. unfold emptied. rewrite drop_insert_lt by lia. rewrite (take_S_r _ k (None : CacheBlockRef)).
  - rewrite take_insert_ge by lia. rewrite <- app_assoc. cbn. do 3 f_equal. f_equal. lia.
  - by rewrite list_lookup_insert_eq by lia.
Qed.

Lemma lookup_emptied k n rs j :
  (k + n ≤ length rs)%nat →
  emptied k n rs !! j = if decide (k ≤ j < k + n)%nat then Some None else rs !! j.
Proof.
  intros Hk. unfold emptied, CacheBlockRef in *. case_decide as Hj.
  - rewrite lookup_app_r by (rewrite length_take; lia). rewrite lookup_app_l by (rewrite length_take, length_replicate; lia).
    apply lookup_replicate. rewrite length_take. split; [done|lia].
  - destruct (decide (j < k)%nat) as [Hlt|Hge].
    + rewrite lookup_app_l by (rewrite length_take; lia). by rewrite lookup_take_lt.
    + rewrite lookup_app_r by (rewrite length_take; lia). rewrite lookup_app_r by (rewrite length_take, length_replicate; lia).
      rewrite lookup_drop, length_take, length_replicate. f_equal. lia.
Qed.

Lemma evict_from_run n k h t F :
  (k + n ≤ length (blocks_ t))%nat → owned h (table_refs t ++ F) →
  ∃ h', evict_from (Z.of_nat k) n (h, t) = (Ok (), (h', set_blocks (emptied k n (blocks_ t)) t)) ∧
    owned h' (table_refs (set_blocks (emptied k n (blocks_ t)) t) ++ F) ∧ shrinks h h'.
Proof.
  revert k h t. induction n as [|n IH]; intros k h t Hk How; cbn [evict_from].
  { exists h. rewrite emptied_0. by destruct t. }
  destruct (lookup_lt_is_Some_2 (blocks_ t) k) as [r Hr]; [lia|].
  assert (EvictToNull (Z.of_nat k) (h, t) = (Ok r, (h, set_blocks (<[k := None]> (blocks_ t)) t))) as Hev.
  { unfold EvictToNull. rewrite (run_bind_Ok _ _ _ () (h, t)).
    - unfold take_out. rewrite (run_bind_Ok _ _ _ r (h, t)); [cbn; by rewrite Nat2Z.id|].
      unfold ask_table, const. cbn. by rewrite (vec_at_nat _ _ _ Hr).
    - unfold ask_table, const, NumBlocks. cbn. by rewrite (proj2 (Z.leb_le _ _)), (proj2 (Z.ltb_lt _ _)) by lia. }
  rewrite (run_bind_Ok _ _ _ _ _ Hev). set (t1 := set_blocks (<[k := None]> (blocks_ t)) t).
  pose proof (table_refs_set t k r None Hr) as Hp. cbn [option_list] in Hp. rewrite app_nil_r in Hp. fold t1 in Hp.
  destruct (reset_opt_spec h (table_refs t1 ++ F) r) as (h1 & Hreset & How1 & Hsh1).
  { by rewrite app_assoc, (Permutation_app_comm (option_list r)), Hp. }
  rewrite (run_bind_Ok _ _ _ () (h1, t1)); [|unfold on_refs, within; cbn [fst snd]; by rewrite Hreset].
  replace (Z.of_nat k + 1) with (Z.of_nat (S k)) by lia.
  destruct (IH (S k) h1 t1) as (h2 & Hrun & How2 & Hsh2); [unfold t1; cbn; rewrite length_insert; lia|done|].
  unfold t1 in Hrun, How2. cbn [set_blocks blocks_] in Hrun, How2. rewrite emptied_S in Hrun, How2 by lia.
  exists h2. split; [exact Hrun|]. split; [exact How2|by etrans].
Qed.

Lemma ReclaimExpired_run h t F e :
  frontier_ok t → owned h (table_refs t ++ F) →
  ∃ h' t', ReclaimExpired e (h, t) = (Ok (), (h', t')) ∧ owned h' (table_refs t' ++ F) ∧ shrinks h h' ∧ frontier_ok t' ∧
    reclaimed_prefix_blocks_ t' = Z.max (reclaimed_prefix_blocks_ t) (Z.min e (NumBlocks t)) ∧
    available_tokens_ t' = available_tokens_ t ∧ NumBlocks t' = NumBlocks t ∧
    ∀ j r, blocks_ t !! j = Some r → blocks_ t' !! j = Some (if Z.of_nat j <? e then None else r).
Proof.
  intros [Hpos Hnull] How. unfold ReclaimExpired. rewrite (run_bind_Ok _ _ _ t (h, t)) by done.
  set (x := Z.min e (NumBlocks t)). set (k := Z.to_nat (reclaimed_prefix_blocks_ t)).
  destruct (decide (reclaimed_prefix_blocks_ t ≤ x)) as [Hle|Hgt]; cycle 1.
  { replace (Z.to_nat (x - reclaimed_prefix_blocks_ t)) with 0%nat by lia. eexists h, _. split; [reflexivity|]. cbn [snd fst].
    split_and!; try done.
    - split; cbn; [lia|]. intros j r Hr. rewrite Z.max_l by lia. by apply Hnull.
    - intros j r Hr. cbn. rewrite Hr. destruct (Z.ltb_spec (Z.of_nat j) e) as [Hj|]; [|done].
      rewrite (Hnull j r Hr); [done|]. apply lookup_lt_Some in Hr. unfold x, NumBlocks, CacheBlockRef in *. lia. }
  destruct (evict_from_run (Z.to_nat (x - reclaimed_prefix_blocks_ t)) k h t F) as (h' & Hrun & How' & Hsh); [|done|].
  { unfold k, x, NumBlocks in *. lia. }
  assert (∀ j, emptied k (Z.to_nat (x - reclaimed_prefix_blocks_ t)) (blocks_ t) !! j =
    if decide (reclaimed_prefix_blocks_ t ≤ Z.of_nat j < x) then Some None else blocks_ t !! j) as Hl.
  { intros j. rewrite lookup_emptied by (unfold k, x, NumBlocks in *; lia). apply decide_ext. unfold k. lia. }
  replace (Z.of_nat k) with (reclaimed_prefix_blocks_ t) in Hrun by (unfold k; lia).
  eexists h', _. split; [rewrite (run_bind_Ok _ _ _ _ _ Hrun); reflexivity|]. cbn [snd fst]. split; [exact How'|]. split; [done|].
  split_and!; try done.
  - split; cbn; [lia|]. intros j r. rewrite Hl, Z.max_r by done. case_decide; [congruence|]. intros Hr Hj. by apply (Hnull j); [|lia].
  - unfold NumBlocks. cbn. unfold emptied. rewrite !length_app, length_take, length_replicate, length_drop.
    unfold k, x, NumBlocks, CacheBlockRef in *. lia.
  - intros j r Hr. cbn. rewrite Hl. pose proof (lookup_lt_Some _ _ _ Hr) as Hj.
    destruct (Z.ltb_spec (Z.of_nat j) e) as [Hlt|Hge]; case_decide; try done.
    + rewrite Hr. f_equal. apply (Hnull j r Hr). unfold x, NumBlocks, CacheBlockRef in *. lia.
    + unfold x in *. lia.
Qed.

(** C6: Retention frees exactly what the window no longer reads: after [n] tokens the
    reclaim empties the slots of the pages no later token of a sliding-window group
    reads, keeps every other slot, the length of the table and its free capacity, and
    drops nothing else; the frontier moves on to the slots expired and never back, and
    everything below it stays empty. *)
Theorem retention_frees_exactly g spec n h t F :
  0 < g → CacheGroupSpec.attn_kind spec = kSlidingWindow → 0 < CacheGroupSpec.sliding_window spec ≤ INT32_MAX →
  0 ≤ n ≤ INT32_MAX → frontier_ok t → owned h (table_refs t ++ F) →
  ∃ e h' t', ExpiredBlocksAt spec n (mkGeometry g) = Ok e ∧ ReclaimExpired e (h, t) = (Ok (), (h', t')) ∧
    owned h' (table_refs t' ++ F) ∧ shrinks h h' ∧ frontier_ok t' ∧
    reclaimed_prefix_blocks_ t' = Z.max (reclaimed_prefix_blocks_ t) (Z.min e (NumBlocks t)) ∧
    available_tokens_ t' = available_tokens_ t ∧ NumBlocks t' = NumBlocks t ∧
    ∀ j r, blocks_ t !! j = Some r →
      blocks_ t' !! j = Some (if window_reads g (CacheGroupSpec.sliding_window spec) n (Z.of_nat j) then r else None).
Proof.
  intros Hg Hkind Hw Hn Hfront How.
  destruct (ExpiredBlocksAt_spec g spec n Hg Hkind Hw Hn) as (e & Hexp & He & Hall).
  destruct (ReclaimExpired_run h t F e Hfront How) as (h' & t' & Hrun & How' & Hsh & Hf & Hfr & Ha & Hlen & Hslots).
  exists e, h', t'. split_and!; try done. intros j r Hr. rewrite (Hslots j r Hr). specialize (Hall (Z.of_nat j) ltac:(lia)).
  destruct (Z.ltb_spec (Z.of_nat j) e) as [Hlt|Hge], (window_reads _ _ _ _); try done; [by apply Hall in Hlt|].
  by apply Z.le_ngt in Hge; destruct Hge; apply Hall.
Qed.

(** A table of four pages. *)
Definition four_pages : tstate := (Acquire some_allocator 0 (mkPlan 4 (-1) 4 3) (some_heap, empty_table)).2.

Lemma four_pages_owned : placed_for some_allocator 0 four_pages.1 ∧ owned four_pages.1 (table_refs four_pages.2 ++ []).
Proof.
  pose proof (run_op_triple some_allocator 0 (OpAcquire (mkPlan 4 (-1) 4 3)) [] (some_heap, empty_table)) as Hrun.
  vm_compute (run_op _ _ _ _) in Hrun. destruct Hrun as (Hpl & How & _); [|split; [exact Hpl|exact How]].
  split; [apply some_heap_placed|]. split; [apply some_heap_owned|]. split; vm_compute; discriminate.
Qed.

(** After thirteen tokens in pages of four, a window of five reads the last two. *)
Lemma retention_frees_exactly_witness :
  ∃ h2 t2, ReclaimExpired 2 four_pages = (Ok (), (h2, t2)) ∧
    blocks_ t2 = [None; None; Some 2; Some 3]%nat ∧ owned h2 [2; 3]%nat.
Proof.
  destruct (retention_frees_exactly 4 (CacheGroupSpec.mk kSlidingWindow 5 false 4 4 2) 13 four_pages.1 four_pages.2 [])
    as (e & h2 & t2 & Hexp & Hrec & How2 & _).
  - lia.
  - reflexivity.
  - unfold INT32_MAX. cbn. lia.
  - unfold INT32_MAX. lia.
  - split; [vm_compute; discriminate|]. intros j r _ Hj. vm_compute in Hj. destruct j; discriminate.
  - apply four_pages_owned.
  - vm_compute in Hexp. injection Hexp as <-. exists h2, t2.
    assert (blocks_ t2 = [None; None; Some 2; Some 3]%nat) as Hb.
    { apply (f_equal (λ x, blocks_ x.2.2)) in Hrec. cbn [snd] in Hrec. rewrite <- Hrec. vm_compute. reflexivity. }
    split; [exact Hrec|]. split; [exact Hb|]. unfold table_refs in How2. rewrite Hb in How2. exact How2.
Defined.

(** ** Page ids *)

Definition of_group (h : heap) (i g c : nat) : Prop :=
  ∃ l p, place h c = Some (i, l) ∧ pools h !! i = Some p ∧ live p l = Some g.

Lemma live_range p l g group :
  ok p → group_availability_ p !! g = Some group → live p l = Some g →
  1 ≤ lcm_block_id l ≤ NumLcmBlocks p ∧ 0 ≤ slot_index l < packing group.
Proof.
  intros Hok Hg [(q & [Hid Hq] & Hslot & Hocc) (q' & [_ Hq'] & Hb)]%live_Some. rewrite Hq in Hq'. injection Hq' as <-.
  destruct (ok_bound _ Hok (lcm_block_id l) q g (conj Hid Hq) Hb) as (group' & Hg' & _ & Hpo).
  assert (group' = group) as -> by congruence. pose proof (po_len _ _ _ Hpo).
  apply lookup_lt_Some in Hocc, Hq. unfold NumLcmBlocks. lia.
Qed.

(** The page id of a control, and back. *)
Definition page_of (self : GroupAllocator) (i : nat) (h : heap) (c : nat) (id : Z) : Prop :=
  1 ≤ id ≤ INT32_MAX ∧
  place h c = Some (i, mkLocation (1 + (id - 1) / cache_blocks_per_lcm_block_ self) ((id - 1) mod cache_blocks_per_lcm_block_ self)) ∧
  BucketOf self (mkLocation (1 + (id - 1) / cache_blocks_per_lcm_block_ self) ((id - 1) mod cache_blocks_per_lcm_block_ self)) =
    (id - 1) mod shard_count_ self.

Lemma page_id_spec self i h held c :
  placed_for self i h → owned h held → of_group h i (allocator_group_id_ self) c →
  ∃ id, page_id_of self h (Some c) = Ok id ∧ page_of self i h c id.
Proof.
  intros (p & group & Hp & Hg & Hpk & Hb & Hpos) How (l & q & Hl & Hq & Hlive). assert (q = p) as -> by congruence.
  pose proof (ow_pools _ _ How _ _ Hp) as Hok. destruct (live_range p l _ group Hok Hg Hlive) as [Hid Hslot].
  pose proof (ok_int32 _ Hok _ _ Hg) as Hint. pose proof (go_divide _ _ _ (ok_groups _ Hok _ _ Hg)) as Hdiv. rewrite Hpk, ?Hb in *.
  set (k := cache_blocks_per_lcm_block_ self) in *.
  set (x := (lcm_block_id l - 1) * k + slot_index l). exists (1 + x).
  assert (0 ≤ x < INT32_MAX) as Hrange by (unfold x; nia).
  assert (x mod k = slot_index l ∧ x / k = lcm_block_id l - 1) as [Hmod Hquot].
  { unfold x. rewrite (Z.add_comm _ (slot_index l)), Z.mod_add, Z.div_add, Z.mod_small, Z.div_small by lia. lia. }
  pose proof Hl as (kc & Hkc & _ & Hloc)%place_Some. split.
  - unfold page_id_of, Location. cbn [lookup_or mbind result_bind]. rewrite (control_Ok _ _ _ Hkc). cbn [mbind result_bind].
    rewrite Hloc. unfold ResolveCacheBlockId. fold k. pass_check lia. pass_check lia. pass_check ltac:(unfold x in *; lia).
    f_equal. unfold x. lia.
  - unfold page_of. fold k. replace (1 + x - 1) with x by lia. rewrite Hmod, Hquot. split; [lia|].
    replace (1 + (lcm_block_id l - 1)) with (lcm_block_id l) by lia. split; [by destruct l|].
    unfold BucketOf. cbn. rewrite Z.rem_mod_nonneg by lia. unfold x.
    specialize (Hdiv ltac:(lia)). apply Z.mod_divide in Hdiv as [m Hm]; [|lia].
    rewrite Hm, Z.mul_assoc, (Z.add_comm _ (slot_index l)), Z.mod_add by lia. done.
Qed.

(** A slot and its page id. *)
Definition slot_page (self : GroupAllocator) (i : nat) (h : heap) (r : CacheBlockRef) (id : Z) : Prop :=
  match r with None => id = 0 | Some c => page_of self i h c id end.

Lemma page_ids_spec self i h held t :
  placed_for self i h → owned h held → (∀ c, c ∈ table_refs t → of_group h i (allocator_group_id_ self) c) →
  ∃ ids, BlockTablePageIds self t h = Ok ids ∧ Forall2 (slot_page self i h) (blocks_ t) ids.
Proof.
  intros Hpl How Hall. unfold BlockTablePageIds.
  assert (∀ r, r ∈ blocks_ t → ∃ id, page_id_of self h r = Ok id ∧ slot_page self i h r id) as Hone.
  { intros [c|] Hr; [|by exists 0]. by eapply page_id_spec; [..|apply Hall, elem_of_table_refs]. }
  clear Hall. induction (blocks_ t) as [|r rs IH]; [by exists []|].
  destruct (Hone r) as (id & Hid & Hpage); [by left|]. destruct IH as (ids & Hids & Hpages); [intros ? ?; apply Hone; by right|].
  exists (id :: ids). split; [|by constructor]. apply mapM_Ok. constructor; [done|]. by apply mapM_Ok.
Qed.

Lemma page_of_inj self i h held c c' id id' :
  placed_for self i h → owned h held → page_of self i h c id → page_of self i h c' id' → id = id' ↔ c = c'.
Proof.
  intros (p & group & Hp & Hg & Hpk & _) How (_ & Hpl & _) (_ & Hpl' & _).
  assert (0 < cache_blocks_per_lcm_block_ self) as Hpos.
  { rewrite <- Hpk. apply (go_packing _ _ _ (ok_groups _ (ow_pools _ _ How _ _ Hp) _ _ Hg)). }
  split.
  - intros <-. apply place_Some in Hpl as (k & Hk & Hi & Hl), Hpl' as (k' & Hk' & Hi' & Hl').
    apply (ow_distinct _ _ How c c' k k'); congruence.
  - intros <-. rewrite Hpl in Hpl'. injection Hpl' as Hq Hr.
    pose proof (Z.div_mod (id - 1) (cache_blocks_per_lcm_block_ self) ltac:(lia)).
    pose proof (Z.div_mod (id' - 1) (cache_blocks_per_lcm_block_ self) ltac:(lia)). nia.
Qed.

(** C7: The kernels read the right pages: the page ids of the tables of a group resolve
    without an error, a hole is page 0, a page id decodes to the parent, the slot and
    the owner of its block, and two slots of any two tables have the same page id
    exactly when they share the block. *)
Theorem page_ids_exact self i h held (ts : list BlockTable) :
  placed_for self i h → owned h held →
  (∀ t c, t ∈ ts → c ∈ table_refs t → of_group h i (allocator_group_id_ self) c) →
  (∀ t, t ∈ ts → ∃ ids, BlockTablePageIds self t h = Ok ids ∧ Forall2 (slot_page self i h) (blocks_ t) ids) ∧
  ∀ t t' ids ids' j j' c c' id id',
    t ∈ ts → t' ∈ ts → BlockTablePageIds self t h = Ok ids → BlockTablePageIds self t' h = Ok ids' →
    blocks_ t !! j = Some (Some c) → blocks_ t' !! j' = Some (Some c') → ids !! j = Some id → ids' !! j' = Some id' →
    id = id' ↔ c = c'.
Proof.
  intros Hpl How Hts.
  assert (∀ t, t ∈ ts → ∃ ids, BlockTablePageIds self t h = Ok ids ∧ Forall2 (slot_page self i h) (blocks_ t) ids) as Hids.
  { intros t Ht. eapply page_ids_spec; [done|done|]. intros c. by apply Hts. }
  split; [done|]. intros t t' ids ids' j j' c c' id id' Ht Ht' Hrun Hrun' Hc Hc' Hid Hid'.
  destruct (Hids t Ht) as (ids1 & Hrun1 & Hpages), (Hids t' Ht') as (ids2 & Hrun2 & Hpages').
  assert (ids1 = ids) as -> by congruence. assert (ids2 = ids') as -> by congruence.
  eapply page_of_inj; [done|done|..].
  - exact (Forall2_lookup_lr _ _ _ _ _ _ Hpages Hc Hid).
  - exact (Forall2_lookup_lr _ _ _ _ _ _ Hpages' Hc' Hid').
Qed.

Lemma page_ids_exact_witness :
  ∃ ids, BlockTablePageIds some_allocator four_pages.2 four_pages.1 = Ok ids ∧ ids = [1; 2; 3; 4] ∧
    Forall2 (slot_page some_allocator 0 four_pages.1) (blocks_ four_pages.2) ids.
Proof.
  destruct four_pages_owned as [Hpl How].
  destruct (page_ids_exact some_allocator 0 four_pages.1 _ [four_pages.2] Hpl How) as [Hids _].
  - intros t c Ht%list_elem_of_singleton Hc. subst t. change (c ∈ [0; 1; 2; 3]%nat) in Hc.
    rewrite !elem_of_cons, elem_of_nil in Hc. destruct Hc as [->|[->|[->|[->|[]]]]]; eexists _, _; vm_compute; done.
  - destruct (Hids four_pages.2) as (ids & Hrun & Hall); [by left|]. exists ids. split; [exact Hrun|]. split; [|exact Hall].
    vm_compute in Hrun. congruence.
Defined.
