(* ===== verification/CapacityModel.v ===== *)
(** * The capacity model

    [csrc/scheduler/capacity_model.{h,cpp}]: how many pages of each cache group one
    request, or a batch of them, may need, the LCM blocks that hold those pages, and the
    longest request a pool takes.  Sums and products are 64-bit over 32-bit inputs and
    are exact here; what the code computes in 32 bits is [i32]. *)

From S2P Require Import Prelude PyState Cxx SchedulerConfig GroupGeometry PrefixMatcher.

Local Open Scope Z_scope.

Definition ceilDiv (value divisor : Z) : result Z :=
  _assert ((0 <=? value) && (0 <? divisor)) "ceilDiv requires non-negative value and positive divisor";;
  Ok ((value + divisor - 1) ÷ divisor).

Definition kStateSlots : Z := 2.

(** [MakePrefixMatcher] of [cache_coordinator.cpp] *)
Definition MakePrefixMatcher (spec : CacheGroupSpec.t) : result PrefixMatcher :=
  match CacheGroupSpec.attn_kind spec with
  | kFull =>
      _assert (0 <? CacheGroupSpec.block_granularity spec) "group block_granularity must be > 0";;
      Ok FullAttnMatcher
  | kState =>
      _assert (CacheGroupSpec.block_granularity spec =? 0) "a State group has no token span";;
      Ok StateMatcher
  | kSlidingWindow =>
      _assert (0 <? CacheGroupSpec.block_granularity spec) "group block_granularity must be > 0";;
      _assert (0 <? CacheGroupSpec.sliding_window spec) "sliding window group requires a positive window";;
      SwaMatcher_new (CacheGroupSpec.block_granularity spec) (CacheGroupSpec.sliding_window spec)
  end.

Module CapacityModel.
Record Group := mkGroup {
  block_granularity : Z;
  cache_blocks_per_lcm_block : Z;
  prefix_closed : bool;
  lookback_pages : Z;
}.

Record t := mk { config_ : SchedulerConfig.t; groups_ : list Group }.

(** The most blocks a sliding window can intersect. *)
Definition window_blocks (spec : CacheGroupSpec.t) : result Z :=
  if bool_decide (CacheGroupSpec.attn_kind spec = kSlidingWindow) && (1 <? CacheGroupSpec.sliding_window spec) then
    slack ← i32 (2 * (CacheGroupSpec.block_granularity spec - 1));
    Ok ((CacheGroupSpec.sliding_window spec - 1 + slack) ÷ CacheGroupSpec.block_granularity spec)
  else Ok 0.

Definition make_group (spec : CacheGroupSpec.t) : result Group :=
  matcher ← MakePrefixMatcher spec;
  blocks ← window_blocks spec;
  Ok (mkGroup (CacheGroupSpec.block_granularity spec) (CacheGroupSpec.cache_blocks_per_lcm_block spec)
        (IsPrefixClosed matcher) blocks).

Definition new (config : SchedulerConfig.t) : result t :=
  SchedulerConfig.ValidateCapacityInputs config;;
  specs ← MakeSpecsFromConfig config;
  groups ← mapM make_group specs;
  Ok (mk config groups).

Section model.
Context (self : t).

Definition decodeWidth : Z := SchedulerConfig.decode_input_tokens (config_ self).

Definition protectedTokens : Z :=
  if decide (SchedulerConfig.role (config_ self) = kP) then 0
  else SchedulerConfig.overlap_schedule_depth (config_ self) * decodeWidth.

Definition DraftWindowTokens (config : SchedulerConfig.t) : Z :=
  if decide (SchedulerConfig.role config = kP) then 0
  else if SchedulerConfig.decode_input_tokens config <=? 1 then 0
  else SchedulerConfig.decode_input_tokens config.

Definition tailHandoverBlocks (group : Group) : result Z :=
  if SchedulerConfig.disable_prefix_cache (config_ self) then Ok 0
  else
    let tail_tokens := SchedulerConfig.prefix_granularity (config_ self) - 1 in
    blocks ← (if decide (SchedulerConfig.role (config_ self) = kD)
              then (if block_granularity group =? 0 then Raise (Undefined "division by zero")
                    else Ok (tail_tokens ÷ block_granularity group))
              else ceilDiv tail_tokens (block_granularity group));
    Ok (if prefix_closed group then blocks else Z.min blocks (lookback_pages group)).

(** The lambda [local_prefill_peak]. *)
Definition local_prefill_peak (group : Group) (max_prompt_tokens : Z) : result Z :=
  let chunk_tokens := SchedulerConfig.max_scheduled_tokens (config_ self) in
  let g := block_granularity group in
  let lookback := lookback_pages group in
  pages ← ceilDiv (Z.min max_prompt_tokens chunk_tokens + decodeWidth + protectedTokens) g;
  if chunk_tokens <? max_prompt_tokens then
    let later_prompt := Z.min (max_prompt_tokens - chunk_tokens) chunk_tokens in
    chunk ← ceilDiv chunk_tokens g;
    later ← ceilDiv (later_prompt + decodeWidth + protectedTokens) g;
    Ok (Z.max (Z.max pages (lookback + chunk)) (lookback + later))
  else Ok pages.

(** One round of the loop of [SingleRequestGroupPages]. *)
Definition single_group_pages (token_limit : Z) (groups : CacheGroupConfig.t * Group) : result Z :=
  let '(group, model) := groups in
  if decide (CacheGroupConfig.attn_kind group = kState) then Ok (if token_limit =? 0 then 0 else kStateSlots)
  else
    let g := block_granularity model in
    handover ← (if token_limit =? 0 then Ok 0 else tailHandoverBlocks model);
    if prefix_closed model then
      pages ← ceilDiv (token_limit + protectedTokens) g;
      Ok (handover + pages)
    else if decide (SchedulerConfig.role (config_ self) = kD) then
      dense_pages ← ceilDiv (token_limit + protectedTokens) g;
      w ← lookup_or (Undefined "empty std::optional") (CacheGroupConfig.sliding_window_tokens group);
      w1 ← i32 (w - 1);
      window_pages ← ceilDiv (w1 + decodeWidth + protectedTokens + g - 1) g;
      Ok (handover + Z.min dense_pages (lookback_pages model + window_pages))
    else
      pages ← local_prefill_peak model (Z.max (token_limit - decodeWidth) 0);
      Ok (handover + pages).

Definition SingleRequestGroupPages (token_limit : Z) : result (list Z) :=
  _assert (0 <=? token_limit) "single-request token limit must be non-negative";;
  mapM (single_group_pages token_limit) (zip (SchedulerConfig.cache_groups (config_ self)) (groups_ self)).

(** One round of the loop of [ConcurrentGroupPages]. *)
Definition concurrent_group_pages (max_total_tokens max_context_len : Z) (groups : CacheGroupConfig.t * Group) :
    result Z :=
  let '(group, model) := groups in
  let live_requests := SchedulerConfig.max_batch_size (config_ self) in
  let protected_tokens := protectedTokens + DraftWindowTokens (config_ self) in
  let chunk_tokens := SchedulerConfig.max_scheduled_tokens (config_ self) in
  if decide (CacheGroupConfig.attn_kind group = kState) then Ok (live_requests * kStateSlots)
  else
    let g := block_granularity model in
    let lookback := lookback_pages model in
    history ← ceilDiv max_total_tokens g;
    spill ← ceilDiv (g - 1 + protected_tokens) g;
    let dense_pages := history + live_requests * spill in
    handover ← tailHandoverBlocks model;
    let handover_pages := live_requests * handover in
    if prefix_closed model then Ok (dense_pages + handover_pages)
    else
      w ← lookup_or (Undefined "empty std::optional") (CacheGroupConfig.sliding_window_tokens group);
      let resident_tokens := Z.min (w - 1) max_context_len in
      window_pages ← ceilDiv (resident_tokens + decodeWidth + protected_tokens + g - 1) g;
      if decide (SchedulerConfig.role (config_ self) = kD) then
        Ok (Z.min dense_pages (live_requests * (lookback + window_pages)) + handover_pages)
      else
        chunk ← ceilDiv (Z.min chunk_tokens max_total_tokens) g;
        Ok (live_requests * window_pages + lookback + chunk + handover_pages).

Definition ConcurrentGroupPages (max_total_tokens max_context_len : Z) : result (list Z) :=
  invalid (max_total_tokens <? 0) "CapacityModel: max_total_tokens must be >= 0";;
  invalid (max_context_len <? 0) "CapacityModel: max_context_len must be >= 0";;
  mapM (concurrent_group_pages max_total_tokens max_context_len)
    (zip (SchedulerConfig.cache_groups (config_ self)) (groups_ self)).

Definition LcmBlocksNeededFor (group_pages : list Z) : result Z :=
  _assert (length group_pages =? length (groups_ self))%nat "page demand requires one entry per cache group";;
  foldM (λ lcm_blocks pages_group,
    let '(pages, group) := (pages_group : Z * Group) in
    _assert (0 <=? pages) "group page demand must be non-negative";;
    blocks ← ceilDiv pages (cache_blocks_per_lcm_block group);
    Ok (lcm_blocks + blocks)) 0 (zip group_pages (groups_ self)).

Definition blocks_for (token_limit : Z) : result Z :=
  pages ← SingleRequestGroupPages token_limit;
  LcmBlocksNeededFor pages.

(** The binary search; [fuel] bounds its rounds. *)
Fixpoint search (fuel : nat) (usable_lcm_blocks low high : Z) : result Z :=
  if low <? high then
    match fuel with
    | O => Raise (Undefined "the search ran out of rounds")
    | S fuel =>
        let candidate := low + (high - low + 1) ÷ 2 in
        needed ← blocks_for candidate;
        if needed <=? usable_lcm_blocks then search fuel usable_lcm_blocks candidate high
        else search fuel usable_lcm_blocks low (candidate - 1)
    end
  else Ok low.

(** The range halves each round: 32 are enough. *)
Definition MaxSingleRequestTokens (usable_lcm_blocks : Z) : result Z := search 32 usable_lcm_blocks 0 INT32_MAX.
End model.
End CapacityModel.

(** ** Rounding up *)

Definition cdiv (v d : Z) : Z := (v + d - 1) / d.

Lemma cdiv_spec v d : 0 < d → cdiv v d * d - d < v ≤ cdiv v d * d.
Proof.
  intros Hd. unfold cdiv. pose proof (Z.div_mod (v + d - 1) d ltac:(lia)). pose proof (Z.mod_pos_bound (v + d - 1) d Hd). lia.
Qed.

Lemma cdiv_nonneg v d : 0 < d → 0 ≤ v → 0 ≤ cdiv v d.
Proof. intros Hd Hv. apply Z.div_pos; lia. Qed.

Lemma cdiv_mono a b d : 0 < d → a ≤ b → cdiv a d ≤ cdiv b d.
Proof. intros Hd Hab. apply Z.div_le_mono; lia. Qed.

Lemma cdiv_add a b d : 0 < d → cdiv (a + b) d ≤ cdiv a d + cdiv b d.
Proof. intros Hd. pose proof (cdiv_spec a d Hd). pose proof (cdiv_spec b d Hd). pose proof (cdiv_spec (a + b) d Hd). nia. Qed.

Lemma ceilDiv_Ok v d : 0 ≤ v → 0 < d → ceilDiv v d = Ok (cdiv v d).
Proof. intros Hv Hd. unfold ceilDiv. pass_check lia. by rewrite Z.quot_div_nonneg by lia. Qed.

(** ** The groups of a model *)

(** A group of the configuration and what the model keeps of it. *)
Record matches (group : CacheGroupConfig.t) (model : CapacityModel.Group) : Prop := {
  mo_packing : 0 < CapacityModel.cache_blocks_per_lcm_block model;
  mo_span : CacheGroupConfig.attn_kind group ≠ kState → 0 < CapacityModel.block_granularity model;
  mo_lookback : 0 ≤ CapacityModel.lookback_pages model;
  mo_window : CacheGroupConfig.attn_kind group ≠ kState → CapacityModel.prefix_closed model = false →
    ∃ w, CacheGroupConfig.sliding_window_tokens group = Some w ∧ 0 < w ≤ INT32_MAX;
}.

(** Configurations with 32-bit fields whose pages are below half the range. *)
Record int32_config (config : SchedulerConfig.t) : Prop := {
  ic_group group : group ∈ SchedulerConfig.cache_groups config →
    CacheGroupConfig.block_granularity group ≤ 2 ^ 30 ∧
    ∀ w, CacheGroupConfig.sliding_window_tokens group = Some w → w ≤ INT32_MAX;
}.

Lemma make_spec_Ok config group :
  group_valid config group →
  make_spec group = Ok (CacheGroupSpec.mk (CacheGroupConfig.attn_kind group)
    (default 0 (CacheGroupConfig.sliding_window_tokens group)) (CacheGroupConfig.replayable group)
    (CacheGroupConfig.cache_blocks_per_lcm_block group) (CacheGroupConfig.block_granularity group)
    (CacheGroupConfig.shard_count group)).
Proof.
  intros Hg. unfold make_spec. pose proof (gv_window _ _ Hg) as Hw.
  destruct (decide (CacheGroupConfig.attn_kind group = kSlidingWindow)) as [Hk|Hk].
  - destruct Hw as (w & -> & _). done.
  - rewrite Hw. done.
Qed.

(** The matcher of a group. *)
Definition matcher_of (group : CacheGroupConfig.t) : PrefixMatcher :=
  match CacheGroupConfig.attn_kind group with
  | kFull => FullAttnMatcher
  | kState => StateMatcher
  | kSlidingWindow => SwaMatcher (CacheGroupConfig.block_granularity group) (default 0 (CacheGroupConfig.sliding_window_tokens group))
  end.

Definition spec_of (group : CacheGroupConfig.t) : CacheGroupSpec.t :=
  CacheGroupSpec.mk (CacheGroupConfig.attn_kind group) (default 0 (CacheGroupConfig.sliding_window_tokens group))
    (CacheGroupConfig.replayable group) (CacheGroupConfig.cache_blocks_per_lcm_block group)
    (CacheGroupConfig.block_granularity group) (CacheGroupConfig.shard_count group).

Lemma MakePrefixMatcher_Ok config group :
  group_valid config group → MakePrefixMatcher (spec_of group) = Ok (matcher_of group).
Proof.
  intros Hg. unfold MakePrefixMatcher, matcher_of, spec_of. cbn. pose proof (gv_span _ _ Hg) as Hs. pose proof (gv_window _ _ Hg) as Hw.
  destruct (CacheGroupConfig.attn_kind group).
  - rewrite decide_False in Hs by done. by pass_check lia.
  - rewrite decide_False in Hs by done. rewrite decide_True in Hw by done. destruct Hw as (w & -> & Hpos).
    cbn. pass_check lia. pass_check lia. unfold SwaMatcher_new. pass_check lia. by pass_check lia.
  - rewrite decide_True in Hs by done. by pass_check lia.
Qed.

Lemma MakeSpecs_Ok config :
  capacity_valid config → MakeSpecsFromConfig config = Ok (spec_of <$> SchedulerConfig.cache_groups config).
Proof.
  intros Hcv. apply mapM_Ok, Forall2_fmap_r. apply Forall_Forall2_diag. eapply Forall_impl; [apply Hcv|].
  intros group Hg. by eapply make_spec_Ok.
Qed.

(** Twice the tokens of a page, which the constructor computes for a window, stay within
    32 bits. *)
Definition window_fits (group : CacheGroupConfig.t) : bool :=
  negb (bool_decide (CacheGroupConfig.attn_kind group = kSlidingWindow) &&
        (1 <? default 0 (CacheGroupConfig.sliding_window_tokens group))) ||
  (CacheGroupConfig.block_granularity group <=? 2 ^ 30).

Lemma make_group_cases config group :
  group_valid config group → (∀ w, CacheGroupConfig.sliding_window_tokens group = Some w → w ≤ INT32_MAX) →
  if window_fits group then ∃ model, CapacityModel.make_group (spec_of group) = Ok model ∧ matches group model
  else CapacityModel.make_group (spec_of group) = Raise (Undefined "signed integer overflow").
Proof.
  intros Hg Hwmax. unfold CapacityModel.make_group.
  rewrite (MakePrefixMatcher_Ok config group Hg). cbn [mbind result_bind]. pose proof (gv_span _ _ Hg) as Hs. pose proof (gv_window _ _ Hg) as Hw.
  pose proof (gv_packing _ _ Hg) as Hpk. unfold CapacityModel.window_blocks, window_fits, matcher_of. cbn.
  destruct (CacheGroupConfig.attn_kind group) eqn:Hk; cbn.
  - eexists. split; [done|]. rewrite decide_False in Hs by done. split; cbn; rewrite ?Hk; done || lia.
  - rewrite decide_False in Hs by done. rewrite decide_True in Hw by done. destruct Hw as (w & Hw & Hpos). rewrite Hw. cbn.
    specialize (Hwmax w Hw). destruct (Z.ltb_spec 1 w) as [Hbig|Hone]; cbn.
    + destruct (Z.leb_spec (CacheGroupConfig.block_granularity group) (2 ^ 30)) as [Hgran|Hgran].
      * rewrite i32_Ok by (unfold INT32_MIN, INT32_MAX; lia). cbn [mbind result_bind]. eexists. split; [done|].
        split; cbn; rewrite ?Hk; try lia; [|by exists w]. rewrite Z.quot_div_nonneg by lia. apply Z.div_pos; lia.
      * unfold i32. by rewrite (proj2 (Z.leb_gt _ INT32_MAX)), andb_false_r by (unfold INT32_MAX; lia).
    + eexists. split; [done|]. split; cbn; rewrite ?Hk; try lia. by exists w.
  - eexists. split; [done|]. split; cbn; rewrite ?Hk; done || lia.
Qed.

Lemma model_cases config :
  capacity_valid config →
  (∀ group w, group ∈ SchedulerConfig.cache_groups config → CacheGroupConfig.sliding_window_tokens group = Some w → w ≤ INT32_MAX) →
  if forallb window_fits (SchedulerConfig.cache_groups config)
  then ∃ groups, CapacityModel.new config = Ok (CapacityModel.mk config groups) ∧
    Forall2 matches (SchedulerConfig.cache_groups config) groups
  else CapacityModel.new config = Raise (Undefined "signed integer overflow").
Proof.
  intros Hcv Hwmax. unfold CapacityModel.new. rewrite (proj2 (capacity_inputs_Ok config) Hcv). cbn [mbind result_bind].
  rewrite (MakeSpecs_Ok config Hcv). cbn [mbind result_bind]. rewrite mapM_of_fmap.
  pose proof (mapM_uniform (CapacityModel.make_group ∘ spec_of) window_fits matches (Undefined "signed integer overflow")
    (SchedulerConfig.cache_groups config)) as Hall.
  destruct (forallb _ _); [destruct Hall as (models & -> & Hf)|rewrite Hall; [done|]].
  - intros group Hin. apply (make_group_cases config); [by apply (proj1 (Forall_forall _ _) (cv_groups _ Hcv))|by eauto].
  - by exists models.
  - intros group Hin. apply (make_group_cases config); [by apply (proj1 (Forall_forall _ _) (cv_groups _ Hcv))|by eauto].
Qed.

Lemma model_Ok config :
  capacity_valid config → int32_config config →
  ∃ groups, CapacityModel.new config = Ok (CapacityModel.mk config groups) ∧
    Forall2 matches (SchedulerConfig.cache_groups config) groups.
Proof.
  intros Hcv Hic. pose proof (model_cases config Hcv) as Hm.
  assert (forallb window_fits (SchedulerConfig.cache_groups config) = true) as Hfit.
  { apply forallb_forall. intros group Hin%list_elem_of_In. unfold window_fits. destruct (ic_group _ Hic group Hin) as [Hg _].
    by rewrite (proj2 (Z.leb_le _ _) Hg), orb_true_r. }
  rewrite Hfit in Hm. apply Hm. intros group w Hin. by apply (ic_group _ Hic group Hin).
Qed.

(** ** One request *)

Section pages.
Context (config : SchedulerConfig.t) (Hcv : capacity_valid config).
Context (groups : list CapacityModel.Group) (Hgroups : Forall2 matches (SchedulerConfig.cache_groups config) groups).
Let self := CapacityModel.mk config groups.

Lemma protected_nonneg : 0 ≤ CapacityModel.protectedTokens self.
Proof.
  unfold CapacityModel.protectedTokens, CapacityModel.decodeWidth. cbn. pose proof (cv_depth _ Hcv). pose proof (cv_decode _ Hcv).
  case_decide; nia.
Qed.

Lemma draft_nonneg : 0 ≤ CapacityModel.DraftWindowTokens config.
Proof. unfold CapacityModel.DraftWindowTokens. case_decide; [done|]. destruct (Z.leb_spec (SchedulerConfig.decode_input_tokens config) 1); lia. Qed.

Lemma width_nonneg : 0 ≤ CapacityModel.decodeWidth self.
Proof. apply (cv_decode _ Hcv). Qed.

Lemma handover_Ok group model :
  matches group model → CacheGroupConfig.attn_kind group ≠ kState →
  ∃ n, CapacityModel.tailHandoverBlocks self model = Ok n ∧ 0 ≤ n.
Proof.
  intros Hm Hk. unfold CapacityModel.tailHandoverBlocks. change (CapacityModel.config_ self) with config.
  destruct (SchedulerConfig.disable_prefix_cache config); [by exists 0|].
  pose proof (mo_span _ _ Hm Hk) as Hg. pose proof (cv_prefix _ Hcv) as Hp. pose proof (mo_lookback _ _ Hm) as Hl.
  assert (∃ b, (if decide (SchedulerConfig.role config = kD) then
    if CapacityModel.block_granularity model =? 0 then Raise (Undefined "division by zero")
    else Ok ((SchedulerConfig.prefix_granularity config - 1) ÷ CapacityModel.block_granularity model)
    else ceilDiv (SchedulerConfig.prefix_granularity config - 1) (CapacityModel.block_granularity model)) = Ok b ∧ 0 ≤ b) as (b & -> & Hb).
  { case_decide.
    - rewrite (proj2 (Z.eqb_neq _ _)) by lia. eexists. split; [done|]. apply Z.quot_pos; lia.
    - rewrite ceilDiv_Ok by lia. eexists. split; [done|]. apply cdiv_nonneg; lia. }
  cbn [mbind result_bind]. eexists. split; [done|]. destruct (CapacityModel.prefix_closed model); lia.
Qed.

(** The pages of one request, read off the code. *)
Definition peak_pages (model : CapacityModel.Group) (mp : Z) : Z :=
  let chunk := SchedulerConfig.max_scheduled_tokens config in
  let g := CapacityModel.block_granularity model in
  let extra := CapacityModel.decodeWidth self + CapacityModel.protectedTokens self in
  let first := cdiv (Z.min mp chunk + extra) g in
  if chunk <? mp then
    Z.max (Z.max first (CapacityModel.lookback_pages model + cdiv chunk g))
      (CapacityModel.lookback_pages model + cdiv (Z.min (mp - chunk) chunk + extra) g)
  else first.

Lemma peak_Ok group model mp :
  matches group model → CacheGroupConfig.attn_kind group ≠ kState → 0 ≤ mp →
  CapacityModel.local_prefill_peak self model mp = Ok (peak_pages model mp).
Proof.
  intros Hm Hk Hmp. pose proof (mo_span _ _ Hm Hk). pose proof protected_nonneg. pose proof width_nonneg. pose proof (cv_tokens _ Hcv).
  unfold CapacityModel.local_prefill_peak, peak_pages. change (CapacityModel.config_ self) with config.
  set (w := CapacityModel.decodeWidth self) in *. set (p := CapacityModel.protectedTokens self) in *.
  rewrite (ceilDiv_Ok (Z.min mp _ + w + p)) by lia. cbn [mbind result_bind]. rewrite Z.add_assoc.
  destruct (Z.ltb_spec (SchedulerConfig.max_scheduled_tokens config) mp); [|done].
  rewrite ceilDiv_Ok by lia. cbn [mbind result_bind]. rewrite ceilDiv_Ok by lia. cbn [mbind result_bind]. by rewrite Z.add_assoc.
Qed.

Lemma peak_mono group model a b :
  matches group model → CacheGroupConfig.attn_kind group ≠ kState → 0 ≤ a ≤ b → 0 ≤ peak_pages model a ≤ peak_pages model b.
Proof.
  intros Hm Hk Hab. pose proof (mo_span _ _ Hm Hk) as Hg. pose proof protected_nonneg. pose proof width_nonneg. pose proof (cv_tokens _ Hcv).
  pose proof (mo_lookback _ _ Hm). unfold peak_pages.
  set (extra := CapacityModel.decodeWidth self + CapacityModel.protectedTokens self).
  set (chunk := SchedulerConfig.max_scheduled_tokens config) in *. set (g := CapacityModel.block_granularity model) in *.
  assert (0 ≤ extra) by (unfold extra; lia).
  pose proof (cdiv_mono (Z.min a chunk + extra) (Z.min b chunk + extra) g Hg ltac:(lia)).
  pose proof (cdiv_mono (Z.min (a - chunk) chunk + extra) (Z.min (b - chunk) chunk + extra) g Hg ltac:(lia)).
  pose proof (cdiv_nonneg (Z.min a chunk + extra) g Hg ltac:(lia)).
  destruct (Z.ltb_spec chunk a), (Z.ltb_spec chunk b); lia.
Qed.

(** Growing and non-negative functions of the length of a request. *)
Definition grows_with (f : Z → Z) : Prop := ∀ a b, 0 ≤ a ≤ b → 0 ≤ f a ≤ f b.

Lemma single_group_Ok group model :
  matches group model →
  ∃ f, (∀ L, 0 ≤ L → CapacityModel.single_group_pages self L (group, model) = Ok (f L)) ∧ grows_with f.
Proof.
  intros Hm. unfold CapacityModel.single_group_pages. destruct (decide (CacheGroupConfig.attn_kind group = kState)) as [|Hk].
  { exists (λ L, if L =? 0 then 0 else kStateSlots). split; [done|]. intros a b Hab. unfold kStateSlots.
    destruct (Z.eqb_spec a 0), (Z.eqb_spec b 0); lia. }
  destruct (handover_Ok group model Hm Hk) as (n & Hn & Hpos). pose proof (mo_span _ _ Hm Hk) as Hg.
  pose proof protected_nonneg as Hp. pose proof width_nonneg as Hw. pose proof (mo_lookback _ _ Hm) as Hl.
  set (g := CapacityModel.block_granularity model) in *. set (p := CapacityModel.protectedTokens self) in *.
  set (h := λ L : Z, if L =? 0 then 0 else n).
  assert (∀ L, (if L =? 0 then Ok 0 else CapacityModel.tailHandoverBlocks self model) = Ok (h L)) as Hh
    by (intros L; unfold h; by destruct (L =? 0)).
  assert (grows_with h) as Hhg by (intros a b Hab; unfold h; destruct (Z.eqb_spec a 0), (Z.eqb_spec b 0); lia).
  assert (∀ f, grows_with f → grows_with (λ L, h L + f L)) as Hadd.
  { intros f Hf a b Hab. specialize (Hf a b Hab). specialize (Hhg a b Hab). lia. }
  assert (grows_with (λ L, cdiv (L + p) g)) as Hdense.
  { intros a b Hab. split; [apply cdiv_nonneg|apply cdiv_mono]; lia. }
  destruct (CapacityModel.prefix_closed model) eqn:Hclosed; [|destruct (decide (SchedulerConfig.role config = kD)) as [Hd|Hd]].
  - exists (λ L, h L + cdiv (L + p) g). split; [|by apply Hadd]. intros L HL. rewrite Hh. cbn [mbind result_bind].
    by rewrite ceilDiv_Ok by lia.
  - destruct (mo_window _ _ Hm Hk Hclosed) as (w & Hwin & Hwp).
    set (cap := CapacityModel.lookback_pages model + cdiv (w - 1 + CapacityModel.decodeWidth self + p + g - 1) g).
    assert (0 ≤ cap) by (unfold cap; pose proof (cdiv_nonneg (w - 1 + CapacityModel.decodeWidth self + p + g - 1) g Hg ltac:(lia)); lia).
    exists (λ L, h L + Z.min (cdiv (L + p) g) cap). split.
    + intros L HL. rewrite Hh. cbn [mbind result_bind]. change (CapacityModel.config_ self) with config. rewrite decide_True by done.
      rewrite ceilDiv_Ok by lia. cbn [mbind result_bind]. rewrite Hwin. cbn [lookup_or mbind result_bind].
      rewrite i32_Ok by (unfold INT32_MIN; lia). cbn [mbind result_bind]. by rewrite ceilDiv_Ok by lia.
    + apply Hadd. intros a b Hab. specialize (Hdense a b Hab). cbn in Hdense. lia.
  - exists (λ L, h L + peak_pages model (Z.max (L - CapacityModel.decodeWidth self) 0)). split.
    + intros L HL. rewrite Hh. cbn [mbind result_bind]. change (CapacityModel.config_ self) with config. rewrite decide_False by done.
      by rewrite (peak_Ok group) by (done || lia).
    + apply Hadd. intros a b Hab. apply (peak_mono group); [done|done|lia].
Qed.

(** Page counts, one per group, and the blocks they take. *)
Definition lcm_blocks (pages : list Z) : Z :=
  sumZ (zip_with (λ n model, cdiv n (CapacityModel.cache_blocks_per_lcm_block model)) pages groups).

Lemma lcm_blocks_Ok pages :
  length pages = length groups → Forall (Z.le 0) pages → CapacityModel.LcmBlocksNeededFor self pages = Ok (lcm_blocks pages).
Proof.
  intros Hlen Hpos. unfold CapacityModel.LcmBlocksNeededFor, lcm_blocks. change (CapacityModel.groups_ self) with groups.
  rewrite (proj2 (Nat.eqb_eq _ _) Hlen). cbn [_assert raise_when negb mbind result_bind].
  assert (Forall (λ model, 0 < CapacityModel.cache_blocks_per_lcm_block model) groups) as Hpk.
  { eapply Forall2_Forall_r; [exact Hgroups|]. apply Forall_true. intros group model Hm. apply Hm. }
  assert (∀ acc, foldM (λ lcm_blocks pages_group, let '(pages, group) := (pages_group : Z * CapacityModel.Group) in
    _assert (0 <=? pages) "group page demand must be non-negative";;
    blocks ← ceilDiv pages (CapacityModel.cache_blocks_per_lcm_block group);
    Ok (lcm_blocks + blocks)) acc (zip pages groups) =
    Ok (acc + sumZ (zip_with (λ n model, cdiv n (CapacityModel.cache_blocks_per_lcm_block model)) pages groups))) as Hfold;
    [|rewrite Hfold; f_equal; lia].
  clear Hgroups self. revert pages Hlen Hpos. induction Hpk as [|model models Hm Hpk IH]; intros pages Hlen Hpos acc.
  { destruct pages; [|done]. cbn. f_equal. unfold sumZ. cbn. lia. }
  destruct pages as [|n pages]; [done|]. apply Forall_cons in Hpos as [Hn Hpos]. injection Hlen as Hlen. cbn [zip_with foldM].
  pass_check lia. rewrite ceilDiv_Ok by lia. cbn [mbind result_bind]. rewrite IH by done. f_equal. rewrite sumZ_cons. lia.
Qed.

Lemma lcm_blocks_mono pages pages' :
  length pages = length groups → Forall2 Z.le pages pages' → lcm_blocks pages ≤ lcm_blocks pages'.
Proof.
  intros Hlen Hle. unfold lcm_blocks.
  assert (Forall (λ model, 0 < CapacityModel.cache_blocks_per_lcm_block model) groups) as Hpk.
  { eapply Forall2_Forall_r; [exact Hgroups|]. apply Forall_true. intros group model Hm. apply Hm. }
  clear Hgroups self. revert pages pages' Hlen Hle. induction Hpk as [|model models Hm Hpk IH]; intros pages pages' Hlen Hle.
  { destruct Hle; [done|done]. }
  destruct Hle as [|n n' pages pages' Hn Hle]; [done|]. injection Hlen as Hlen. cbn [zip_with]. rewrite !sumZ_cons.
  pose proof (cdiv_mono n n' _ Hm Hn). pose proof (IH _ _ Hlen Hle). lia.
Qed.

(** The pages of a request grow with it. *)
Lemma single_pages_Ok :
  ∃ f, (∀ L, 0 ≤ L → CapacityModel.SingleRequestGroupPages self L = Ok (f L)) ∧
    (∀ L, 0 ≤ L → length (f L) = length groups ∧ Forall (Z.le 0) (f L)) ∧ ∀ a b, 0 ≤ a ≤ b → Forall2 Z.le (f a) (f b).
Proof.
  assert (∀ gs ms, Forall2 matches gs ms → ∃ f : Z → list Z,
    (∀ L, 0 ≤ L → mapM (CapacityModel.single_group_pages self L) (zip gs ms) = Ok (f L)) ∧
    (∀ L, 0 ≤ L → length (f L) = length ms ∧ Forall (Z.le 0) (f L)) ∧ ∀ a b, 0 ≤ a ≤ b → Forall2 Z.le (f a) (f b)) as Hall.
  { induction 1 as [|group model gs ms Hm Hf IH].
    { exists (λ _, []). split_and!; [done|done|constructor]. }
    destruct (single_group_Ok group model Hm) as (f1 & Hrun1 & Hgrow1). destruct IH as (f & Hrun & Hpos & Hmono).
    exists (λ L, f1 L :: f L). split_and!.
    - intros L HL. apply mapM_Ok. constructor; [by apply Hrun1|]. by apply mapM_Ok, Hrun.
    - intros L HL. destruct (Hpos L HL) as [? ?]. split; [cbn; congruence|]. constructor; [|done]. by apply (Hgrow1 L L).
    - intros a b Hab. constructor; [by apply Hgrow1|by apply Hmono]. }
  destruct (Hall _ _ Hgroups) as (f & Hrun & Hpos & Hmono). exists f. split_and!; try done.
  intros L HL. unfold CapacityModel.SingleRequestGroupPages. pass_check lia. by apply Hrun.
Qed.

(** The blocks of a request grow with it. *)
Lemma blocks_for_Ok :
  ∃ need, (∀ L, 0 ≤ L → CapacityModel.blocks_for self L = Ok (need L)) ∧ ∀ a b, 0 ≤ a ≤ b → need a ≤ need b.
Proof.
  destruct single_pages_Ok as (f & Hrun & Hpos & Hmono). exists (λ L, lcm_blocks (f L)). split.
  - intros L HL. unfold CapacityModel.blocks_for. rewrite (Hrun L HL). cbn [mbind result_bind].
    destruct (Hpos L HL). by apply lcm_blocks_Ok.
  - intros a b Hab. apply lcm_blocks_mono; [apply Hpos; lia|by apply Hmono].
Qed.

Lemma search_spec need usable fuel low high :
  (∀ L, 0 ≤ L → CapacityModel.blocks_for self L = Ok (need L)) → (∀ a b, 0 ≤ a ≤ b → need a ≤ need b) →
  0 ≤ low ≤ high → high - low < 2 ^ Z.of_nat fuel →
  low = 0 ∨ need low ≤ usable → (∀ L, high < L → usable < need L) ∨ high = INT32_MAX →
  ∃ m, CapacityModel.search self fuel usable low high = Ok m ∧ low ≤ m ≤ high ∧
    (m = 0 ∨ need m ≤ usable) ∧ ∀ L, m < L ≤ INT32_MAX → usable < need L.
Proof.
  intros Hrun Hmono. revert low high. induction fuel as [|fuel IH]; intros low high Hr Hfuel Hlow Hhigh; cbn [CapacityModel.search].
  { rewrite (proj2 (Z.ltb_ge _ _)) by (cbn in Hfuel; lia). exists low. split_and!; try done; try lia.
    intros L HL. destruct Hhigh as [Hh| ->]; [apply Hh; cbn in Hfuel; lia|cbn in Hfuel; lia]. }
  destruct (Z.ltb_spec low high) as [Hlt|Hge].
  - rewrite Z.quot_div_nonneg by lia. set (c := low + (high - low + 1) / 2).
    assert (low < c ≤ high ∧ 2 * (high - c) ≤ high - low ∧ 2 * (c - 1 - low) ≤ high - low) as (Hc & Hc1 & Hc2).
    { unfold c. pose proof (Z.div_mod (high - low + 1) 2 ltac:(lia)). pose proof (Z.mod_pos_bound (high - low + 1) 2 ltac:(lia)). lia. }
    rewrite Nat2Z.inj_succ, Z.pow_succ_r in Hfuel by lia.
    rewrite (Hrun c) by lia. cbn [mbind result_bind]. destruct (Z.leb_spec (need c) usable) as [Hfit|Hno].
    + destruct (IH c high) as (m & Hm & Hrange & ?); [lia|lia|by right|done|]. exists m. split; [done|]. split; [lia|done].
    + destruct (IH low (c - 1)) as (m & Hm & Hrange & ?); [lia|lia|done| |].
      { left. intros L HL. pose proof (Hmono c L ltac:(lia)). lia. }
      exists m. split; [done|]. split; [lia|done].
  - exists low. split_and!; try done; try lia. intros L HL. destruct Hhigh as [Hh| ->]; [apply Hh; lia|lia].
Qed.
End pages.

Lemma longest_spec config groups usable :
  capacity_valid config → Forall2 matches (SchedulerConfig.cache_groups config) groups →
  ∃ need m, (∀ L, 0 ≤ L → CapacityModel.blocks_for (CapacityModel.mk config groups) L = Ok (need L)) ∧
    CapacityModel.MaxSingleRequestTokens (CapacityModel.mk config groups) usable = Ok m ∧ 0 ≤ m ≤ INT32_MAX ∧
    (∀ L, 0 < L ≤ m → need L ≤ usable) ∧ ∀ L, m < L ≤ INT32_MAX → usable < need L.
Proof.
  intros Hcv Hgroups. destruct (blocks_for_Ok config Hcv groups Hgroups) as (need & Hrun & Hmono).
  destruct (search_spec config groups need usable 32 0 INT32_MAX Hrun Hmono) as (m & Hm & Hrange & Hfit & Hover);
    [done|done|by left|by right|].
  exists need, m. split_and!; try done; try lia.
  intros L HL. destruct Hfit as [->|Hfit]; [lia|]. pose proof (Hmono L m ltac:(lia)). lia.
Qed.

(** C18: The longest request is found exactly: for a valid configuration the binary
    search ends within its rounds on the largest number of tokens up to the int32 limit
    whose pages fit the usable blocks (or on 0); every shorter request fits and every
    longer one does not. *)
Theorem max_single_request_exact config usable :
  capacity_valid config → int32_config config →
  ∃ self need m, CapacityModel.new config = Ok self ∧
    (∀ L, 0 ≤ L → CapacityModel.blocks_for self L = Ok (need L)) ∧
    CapacityModel.MaxSingleRequestTokens self usable = Ok m ∧ 0 ≤ m ≤ INT32_MAX ∧
    (∀ L, 0 < L ≤ m → need L ≤ usable) ∧ ∀ L, m < L ≤ INT32_MAX → usable < need L.
Proof.
  intros Hcv Hic. destruct (model_Ok config Hcv Hic) as (groups & Hnew & Hgroups).
  destruct (longest_spec config groups usable Hcv Hgroups) as (need & m & ?). by exists (CapacityModel.mk config groups), need, m.
Qed.

(** ** A batch *)

(** A request's protected tokens fit the tail blocks of a batch. *)
Lemma dense_covers L p d g live :
  0 < g → 0 ≤ L → 0 ≤ p → 0 ≤ d → 1 ≤ live → cdiv (L + p) g ≤ cdiv L g + live * cdiv (g - 1 + (p + d)) g.
Proof.
  intros Hg HL Hp Hd Hone. pose proof (cdiv_add L p g Hg). pose proof (cdiv_mono p (g - 1 + (p + d)) g Hg ltac:(lia)).
  pose proof (cdiv_nonneg (g - 1 + (p + d)) g Hg ltac:(lia)). nia.
Qed.

Section batch.
Context (config : SchedulerConfig.t) (Hcv : capacity_valid config) (Hlive : 1 ≤ SchedulerConfig.max_batch_size config).
Context (groups : list CapacityModel.Group) (Hgroups : Forall2 matches (SchedulerConfig.cache_groups config) groups).
Let self := CapacityModel.mk config groups.

Lemma batch_group_covers group model L :
  matches group model → 0 ≤ L →
  ∃ a b, CapacityModel.single_group_pages self L (group, model) = Ok a ∧
    CapacityModel.concurrent_group_pages self L L (group, model) = Ok b ∧ 0 ≤ a ≤ b.
Proof.
  intros Hm HL. destruct (single_group_Ok config Hcv groups group model Hm) as (f & Hf & Hgrow).
  pose proof (Hgrow L L ltac:(lia)) as [Hpos _]. exists (f L). specialize (Hf L HL). fold self in Hf. rewrite Hf. revert Hf.
  unfold CapacityModel.single_group_pages, CapacityModel.concurrent_group_pages. change (CapacityModel.config_ self) with config.
  destruct (decide (CacheGroupConfig.attn_kind group = kState)) as [|Hk].
  { intros [= Hfl]. eexists. split_and!; [done|done|done|]. unfold kStateSlots in *. destruct (L =? 0); lia. }
  destruct (handover_Ok config Hcv groups group model Hm Hk) as (n & Hn & Hn0). fold self in Hn. pose proof (mo_span _ _ Hm Hk) as Hg.
  pose proof (protected_nonneg config Hcv groups) as Hp. pose proof (width_nonneg config Hcv groups) as Hw. fold self in Hp, Hw.
  pose proof (draft_nonneg config) as Hd. pose proof (mo_lookback _ _ Hm) as Hl. pose proof (cv_tokens _ Hcv) as Hchunk. rewrite Hn.
  set (g := CapacityModel.block_granularity model) in *. set (p := CapacityModel.protectedTokens self) in *.
  set (d := CapacityModel.DraftWindowTokens config) in *. set (dw := CapacityModel.decodeWidth self) in *.
  set (live := SchedulerConfig.max_batch_size config) in *. set (chunk := SchedulerConfig.max_scheduled_tokens config) in *.
  rewrite (ceilDiv_Ok L) by lia. rewrite (ceilDiv_Ok (g - 1 + (p + d))) by lia. cbn [mbind result_bind].
  set (h := if L =? 0 then 0 else n). assert ((if L =? 0 then Ok 0 else Ok n) = Ok h) as -> by (unfold h; by destruct (L =? 0)).
  assert (0 ≤ h ≤ live * n) as Hh by (unfold h; destruct (L =? 0); nia). cbn [mbind result_bind].
  rewrite (ceilDiv_Ok (L + p)) by lia. cbn [mbind result_bind].
  pose proof (dense_covers L p d g live Hg ltac:(lia) ltac:(lia) ltac:(lia) ltac:(lia)) as Hdense.
  destruct (CapacityModel.prefix_closed model) eqn:Hclosed.
  { intros [= Hfl]. eexists. split_and!; [done|done|done|]. lia. }
  destruct (mo_window _ _ Hm Hk Hclosed) as (w & Hwin & Hwp). rewrite Hwin. cbn [lookup_or mbind result_bind].
  rewrite (ceilDiv_Ok (Z.min (w - 1) L + dw + (p + d) + g - 1)) by lia. cbn [mbind result_bind].
  set (window := cdiv (Z.min (w - 1) L + dw + (p + d) + g - 1) g).
  assert (0 ≤ window) as Hwin0 by (apply cdiv_nonneg; lia). assert (window ≤ live * window) as Hlw by nia.
  assert (CapacityModel.lookback_pages model + window ≤ live * (CapacityModel.lookback_pages model + window)) as Hlb by nia.
  destruct (decide (SchedulerConfig.role config = kD)) as [Hrole|Hrole].
  - rewrite i32_Ok by (unfold INT32_MIN; lia). cbn [mbind result_bind]. rewrite ceilDiv_Ok by lia. cbn [mbind result_bind].
    intros [= Hfl]. eexists. split_and!; [done|done|done|].
    assert (cdiv (L + p) g ≤ window ∨ cdiv (w - 1 + dw + p + g - 1) g ≤ window) as Hcase.
    { destruct (Z.le_ge_cases (w - 1) L); [right|left]; apply cdiv_mono; lia. }
    lia.
  - rewrite (ceilDiv_Ok (Z.min chunk L)) by lia. cbn [mbind result_bind]. fold self.
    rewrite (peak_Ok config Hcv groups group) by (done || lia). cbn [mbind result_bind]. intros [= Hfl].
    eexists. split_and!; [done|done|done|]. unfold peak_pages in Hfl. fold self g dw p chunk in Hfl.
    set (mp := Z.max (L - dw) 0) in *.
    assert (cdiv (dw + p) g ≤ window) as Hextra by (apply cdiv_mono; lia).
    pose proof (cdiv_add (Z.min mp chunk) (dw + p) g Hg). pose proof (cdiv_mono (Z.min mp chunk) (Z.min chunk L) g Hg ltac:(unfold mp; lia)).
    destruct (Z.ltb_spec chunk mp) as [Hlong|_]; [|lia].
    pose proof (cdiv_add (Z.min (mp - chunk) chunk) (dw + p) g Hg).
    pose proof (cdiv_mono (Z.min (mp - chunk) chunk) (Z.min chunk L) g Hg ltac:(lia)).
    pose proof (cdiv_mono chunk (Z.min chunk L) g Hg ltac:(unfold mp in *; lia)). lia.
Qed.

Lemma batch_covers L :
  0 ≤ L → ∃ single batch, CapacityModel.SingleRequestGroupPages self L = Ok single ∧
    CapacityModel.ConcurrentGroupPages self L L = Ok batch ∧ length single = length groups ∧
    Forall (Z.le 0) single ∧ Forall2 Z.le single batch.
Proof.
  intros HL.
  assert (∀ gs ms, Forall2 matches gs ms → ∃ single batch,
    mapM (CapacityModel.single_group_pages self L) (zip gs ms) = Ok single ∧
    mapM (CapacityModel.concurrent_group_pages self L L) (zip gs ms) = Ok batch ∧ length single = length ms ∧
    Forall (Z.le 0) single ∧ Forall2 Z.le single batch) as Hall.
  { induction 1 as [|group model gs ms Hm Hf (single & batch & Hs & Hb & Hlen & Hpos & Hle)].
    { exists [], []. split_and!; [done|done|done|constructor|constructor]. }
    destruct (batch_group_covers group model L Hm HL) as (a & b & Ha & Hb' & Hab).
    exists (a :: single), (b :: batch). split_and!; [| |cbn; congruence|constructor; [lia|done]|constructor; [lia|done]].
    - apply mapM_Ok. constructor; [done|]. by apply mapM_Ok.
    - apply mapM_Ok. constructor; [done|]. by apply mapM_Ok. }
  destruct (Hall _ _ Hgroups) as (single & batch & Hs & Hb & Hlen & Hpos & Hle). exists single, batch. split_and!; try done.
  - unfold CapacityModel.SingleRequestGroupPages. by pass_check lia.
  - unfold CapacityModel.ConcurrentGroupPages. pass_valid lia. by pass_valid lia.
Qed.
End batch.

(** C19: A pool sized for a batch takes every request the sizing promises: the pages a
    batch of [L] tokens in all is sized for are enough, group by group, for one request
    of [L] tokens, and a pool with the blocks for those pages takes requests of [L]
    tokens. *)
Theorem batch_sizing_admits config L :
  capacity_valid config → int32_config config → 1 ≤ SchedulerConfig.max_batch_size config → 0 ≤ L ≤ INT32_MAX →
  ∃ self single batch blocks m, CapacityModel.new config = Ok self ∧
    CapacityModel.SingleRequestGroupPages self L = Ok single ∧ CapacityModel.ConcurrentGroupPages self L L = Ok batch ∧
    Forall2 Z.le single batch ∧ CapacityModel.LcmBlocksNeededFor self batch = Ok blocks ∧
    CapacityModel.MaxSingleRequestTokens self blocks = Ok m ∧ L ≤ m.
Proof.
  intros Hcv Hic Hlive HL. destruct (model_Ok config Hcv Hic) as (groups & Hnew & Hgroups).
  destruct (batch_covers config Hcv Hlive groups Hgroups L ltac:(lia)) as (single & batch & Hs & Hb & Hlen & Hpos & Hle).
  pose proof (Forall2_length _ _ _ Hle) as Hlen'.
  assert (Forall (Z.le 0) batch) as Hpos'.
  { eapply Forall2_Forall_r; [exact Hle|]. eapply Forall_impl; [exact Hpos|]. intros a Ha b Hab. cbn in *. lia. }
  pose proof (lcm_blocks_Ok config groups Hgroups batch ltac:(congruence) Hpos') as Hblocks.
  destruct (longest_spec config groups (lcm_blocks groups batch) Hcv Hgroups) as (need & m & Hrun & Hm & _ & _ & Hover).
  eexists _, single, batch, _, m. split_and!; try done.
  destruct (Z.le_gt_cases L m) as [|Hgt]; [done|]. specialize (Hover L ltac:(lia)).
  specialize (Hrun L ltac:(lia)). unfold CapacityModel.blocks_for in Hrun. rewrite Hs in Hrun. cbn [mbind result_bind] in Hrun.
  rewrite (lcm_blocks_Ok config groups Hgroups single Hlen Hpos) in Hrun. injection Hrun as Hrun.
  pose proof (lcm_blocks_mono config groups Hgroups single batch Hlen Hle). lia.
Qed.

(** ** The lookback *)

(** The lookback of a sliding-window group is exact: whatever the progress, the
    pages a request holds after retention are at most the lookback the capacity model
    counts, and some progress holds exactly that many. *)
Theorem lookback_exact spec g :
  CacheGroupSpec.attn_kind spec = kSlidingWindow → CacheGroupSpec.block_granularity spec = g → 0 < g ≤ 2 ^ 30 →
  1 < CacheGroupSpec.sliding_window spec → CacheGroupSpec.sliding_window spec + g ≤ INT32_MAX →
  ∃ k, CapacityModel.window_blocks spec = Ok k ∧
    (∀ n, 0 ≤ n ≤ INT32_MAX → ∃ e, ExpiredBlocksAt spec n (mkGeometry g) = Ok e ∧ cdiv n g - e ≤ k) ∧
    ∃ n e, 0 ≤ n ≤ INT32_MAX ∧ ExpiredBlocksAt spec n (mkGeometry g) = Ok e ∧ cdiv n g - e = k.
Proof.
  intros Hk Hgr Hg Hw Hsum. set (w := CacheGroupSpec.sliding_window spec) in *.
  exists ((w - 1 + 2 * (g - 1)) / g).
  assert (∀ n, 0 ≤ n ≤ INT32_MAX → ExpiredBlocksAt spec n (mkGeometry g) = Ok (Z.max 0 (n - w + 1) / g)) as Hexp.
  { intros n Hn. unfold ExpiredBlocksAt. rewrite decide_False by tauto. fold w. pass_check lia.
    rewrite i32_Ok by (unfold INT32_MIN, INT32_MAX in *; lia). cbn [mbind result_bind].
    rewrite i32_Ok by (unfold INT32_MIN, INT32_MAX in *; lia). cbn [mbind result_bind].
    destruct (Z.leb_spec (n - w + 1) 0); [rewrite Z.max_l by lia; by rewrite Z.div_0_l by lia|].
    unfold BlockGranularity. cbn [block_granularity_]. pass_check lia. rewrite div32_Ok by lia. by rewrite Z.max_r by lia. }
  pose proof (Z.div_mod (w - 1 + 2 * (g - 1)) g ltac:(lia)). pose proof (Z.mod_pos_bound (w - 1 + 2 * (g - 1)) g ltac:(lia)).
  split_and!.
  - unfold CapacityModel.window_blocks. rewrite bool_decide_eq_true_2 by done. fold w. rewrite (proj2 (Z.ltb_lt _ _) Hw), Hgr. cbn [andb].
    rewrite i32_Ok by (unfold INT32_MIN, INT32_MAX; lia). cbn [mbind result_bind]. by rewrite Z.quot_div_nonneg by lia.
  - intros n Hn. eexists. split; [by apply Hexp|]. pose proof (cdiv_spec n g ltac:(lia)).
    pose proof (Z.div_mod (Z.max 0 (n - w + 1)) g ltac:(lia)). pose proof (Z.mod_pos_bound (Z.max 0 (n - w + 1)) g ltac:(lia)). nia.
  - exists (w - 1 + (g - 1)). eexists. split; [lia|]. split; [apply Hexp; lia|].
    rewrite Z.max_r by lia. replace (w - 1 + (g - 1) - w + 1) with (g - 1) by lia. rewrite (Z.div_small (g - 1)) by lia.
    unfold cdiv. rewrite Z.sub_0_r. f_equal. lia.
Qed.

Lemma lookback_exact_witness :
  ∃ k, CapacityModel.window_blocks (CacheGroupSpec.mk kSlidingWindow 5 false 4 4 2) = Ok k ∧ k = 2.
Proof.
  destruct (lookback_exact (CacheGroupSpec.mk kSlidingWindow 5 false 4 4 2) 4) as (k & Hk & _);
    [reflexivity|reflexivity|lia|cbn; lia|unfold INT32_MAX; cbn; lia|].
  exists k. split; [exact Hk|]. vm_compute in Hk. congruence.
Defined.

(** ** A configuration *)

(** A full-attention group, a sliding window and a recurrent state, with prefix pages of
    64 tokens. *)
Definition some_config : SchedulerConfig.t := {|
  SchedulerConfig.prefix_granularity := 64;
  SchedulerConfig.host_total_pages := 17;
  SchedulerConfig.device_total_pages := 33;
  SchedulerConfig.snapshot_total_pages := 9;
  SchedulerConfig.max_retracted_requests := 2;
  SchedulerConfig.debug_force_retraction_interval := 0;
  SchedulerConfig.cache_groups :=
    [CacheGroupConfig.mk "full" 64 33 2 kFull None false Unspecified 2;
     CacheGroupConfig.mk "window" 16 33 4 kSlidingWindow (Some 100) true Unspecified 1;
     CacheGroupConfig.mk "state" 0 33 1 kState None false Unspecified 1];
  SchedulerConfig.max_scheduled_tokens := 256;
  SchedulerConfig.max_batch_size := 4;
  SchedulerConfig.decode_input_tokens := 1;
  SchedulerConfig.overlap_schedule_depth := 1;
  SchedulerConfig.disable_l2_cache := false;
  SchedulerConfig.enable_l3_storage := false;
  SchedulerConfig.storage_config := None;
  SchedulerConfig.enable_kv_cache_events := false;
  SchedulerConfig.enable_mixed_prefill_decode := true;
  SchedulerConfig.role := kFused;
  SchedulerConfig.disable_prefix_cache := false;
  SchedulerConfig.prefix_replay_tokens := 0;
  SchedulerConfig.state_checkpoint_in_forward := false;
|}.

Lemma some_config_capacity : capacity_valid some_config.
Proof. apply capacity_inputs_Ok. vm_compute. reflexivity. Qed.

Lemma some_config_int32 : int32_config some_config.
Proof.
  split. intros group Hin. cbn in Hin. rewrite !elem_of_cons, elem_of_nil in Hin.
  destruct Hin as [->|[->|[->|[]]]]; cbn; (split; [lia|]); intros w; try done. intros [= <-]. unfold INT32_MAX. lia.
Qed.

Lemma some_config_longest : (self ← CapacityModel.new some_config; CapacityModel.MaxSingleRequestTokens self 32) = Ok 2751.
Proof. vm_compute. reflexivity. Qed.

Lemma longest_is self m :
  CapacityModel.new some_config = Ok self → CapacityModel.MaxSingleRequestTokens self 32 = Ok m → m = 2751.
Proof.
  intros Hnew Hm. destruct (proj1 (bind_Ok _ _ _) some_config_longest) as (self' & Hnew' & Hm'). congruence.
Qed.

Lemma max_single_request_exact_witness :
  ∃ self m, CapacityModel.new some_config = Ok self ∧ CapacityModel.MaxSingleRequestTokens self 32 = Ok m ∧ m = 2751.
Proof.
  destruct (max_single_request_exact some_config 32 some_config_capacity some_config_int32)
    as (self & need & m & Hnew & _ & Hm & _). exists self, m. split; [exact Hnew|]. split; [exact Hm|].
  exact (longest_is self m Hnew Hm).
Defined.

Lemma batch_sizing_admits_witness :
  ∃ self batch blocks m, CapacityModel.new some_config = Ok self ∧ CapacityModel.ConcurrentGroupPages self 1000 1000 = Ok batch ∧
    CapacityModel.LcmBlocksNeededFor self batch = Ok blocks ∧ CapacityModel.MaxSingleRequestTokens self blocks = Ok m ∧ 1000 ≤ m.
Proof.
  destruct (batch_sizing_admits some_config 1000 some_config_capacity some_config_int32)
    as (self & single & batch & blocks & m & ? & _ & ? & _ & ? & ? & ?); [cbn; lia|unfold INT32_MAX; lia|].
  exists self, batch, blocks, m. split_and!; assumption.
Defined.
