(* ===== verification/SchedulerSetup.v ===== *)
(** * Building the scheduler

    The pools, the cache groups and the coordinator a [Scheduler] is constructed with:
    [csrc/cache/cache_group.h], the constructors of
    [csrc/cache/coordinator/cache_coordinator.cpp] and of [csrc/scheduler/scheduler.cpp].
    The three pools are a list, device first, then host and snapshot; a pointer to a pool
    is its position.  The transfer managers, the event sink and the log level are not
    part of the model. *)

From stdpp Require Import gmap strings.
From S2P Require Import Prelude PyState Cxx BlockPool BlockPoolFacts BlockPoolSafety BlockRefs ReqPool.
From S2P Require Import PrefixIndex PrefixMatcher SchedulerConfig GroupGeometry GroupAllocator TableSafety CapacityModel.

Local Open Scope Z_scope.

(** ** Groups *)

Record CacheGroup := mkCacheGroup {
  spec_ : CacheGroupSpec.t;
  allocator_ : GroupAllocator;
  matcher_ : PrefixMatcher;
  index_ : PrefixCacheIndex;
}.

Definition CacheGroup_new (spec : CacheGroupSpec.t) (allocator : GroupAllocator) (matcher : PrefixMatcher) : CacheGroup :=
  mkCacheGroup spec allocator matcher (PrefixCacheIndex_new (allocator_group_id_ allocator)).

(** The check of the span of a group, made by [MakeCoordinator] and the coordinator. *)
Definition check_span (prefix_granularity : Z) (spec : CacheGroupSpec.t) : result () :=
  let g := CacheGroupSpec.block_granularity spec in
  if decide (CacheGroupSpec.attn_kind spec = kState) then _assert (g =? 0) "a State group has no token span"
  else _assert ((0 <? g) && (Z.rem prefix_granularity g =? 0))
         "group block_granularity must be a positive divisor of the prefix granularity".

Definition make_cache_group (prefix_granularity : Z) (i : nat) (spec : CacheGroupSpec.t) : result CacheGroup :=
  _assert (0 <? CacheGroupSpec.cache_blocks_per_lcm_block spec) "cache_blocks_per_lcm_block must be > 0";;
  check_span prefix_granularity spec;;
  allocator ← GroupAllocator_new (CacheGroupSpec.cache_blocks_per_lcm_block spec) i (CacheGroupSpec.shard_count spec);
  matcher ← MakePrefixMatcher spec;
  Ok (CacheGroup_new spec allocator matcher).

(** ** The coordinator *)

Record CacheCoordinator := mkCoordinator {
  groups_ : list CacheGroup;
  geometry_ : list GroupGeometry;
  match_order_ : list nat;
  replay_window_tokens_ : Z;
  prefix_granularity_ : Z;
  pool_ : nat;
  host_pool_ : option nat;
  snapshot_pool_ : option nat;
  stream_device_cache_to_host_ : bool;
  enable_l3_storage_ : bool;
}.

(** [pool->RegisterGroup(...)] *)
Definition register_in (pool g : nat) (packing' shards : Z) (ps : list BlockPool) : result (list BlockPool) :=
  p ← lookup_or (Undefined "dangling BlockPool") (ps !! pool);
  p ← RegisterGroup g packing' shards p;
  Ok (<[pool := p]> ps).

Definition register_opt (pool : option nat) (g : nat) (packing' shards : Z) (ps : list BlockPool) : result (list BlockPool) :=
  match pool with
  | None => Ok ps
  | Some pool => register_in pool g packing' shards ps
  end.

(** What the loop of the constructor has built so far. *)
Record setup := mkSetup { built_pools : list BlockPool; geometries : list GroupGeometry; window : Z; closed_first : list nat }.

Definition add_group (prefix_granularity : Z) (pool : nat) (host snapshot : option nat) (s : setup)
    (x : nat * CacheGroup) : result setup :=
  let '(i, group) := x in
  let spec := spec_ group in
  let packing' := CacheGroupSpec.cache_blocks_per_lcm_block spec in
  let shards := CacheGroupSpec.shard_count spec in
  _assert (allocator_group_id_ (allocator_ group) =? i)%nat "cache group id must equal its group index";;
  check_span prefix_granularity spec;;
  _assert (cache_blocks_per_lcm_block_ (allocator_ group) =? packing') "group allocator packing must match its group spec";;
  _assert (shard_count_ (allocator_ group) =? shards) "group allocator shard count must match its group spec";;
  ps ← register_in pool i packing' shards (built_pools s);
  ps ← register_opt host i packing' shards ps;
  ps ← register_opt snapshot i packing' shards ps;
  geometry ← GroupGeometry_new (CacheGroupSpec.block_granularity spec);
  (if CacheGroupSpec.replayable spec then
     _assert (bool_decide (CacheGroupSpec.attn_kind spec = kSlidingWindow)) "a replayable group must be a sliding window"
   else Ok ());;
  Ok (mkSetup ps (geometries s ++ [geometry])
        (if CacheGroupSpec.replayable spec then Z.max (window s) (CacheGroupSpec.sliding_window spec) else window s)
        (if IsPrefixClosed (matcher_ group) then closed_first s ++ [i] else closed_first s)).

Definition indexed {A} (l : list A) : list (nat * A) := zip (seq 0 (length l)) l.

Definition CacheCoordinator_new (groups : list CacheGroup) (prefix_granularity : Z) (pool : nat) (enable_l3_storage : bool)
    (host snapshot : option nat) (stream_device_cache_to_host : bool) (ps : list BlockPool) :
    result (CacheCoordinator * list BlockPool) :=
  _assert (0 <? prefix_granularity) "coordinator needs positive prefix_granularity";;
  s ← foldM (add_group prefix_granularity pool host snapshot) (mkSetup ps [] 0 []) (indexed groups);
  let others := filter (λ x : nat * CacheGroup, IsPrefixClosed (matcher_ x.2) = false ∧
    CacheGroupSpec.replayable (spec_ x.2) = false) (indexed groups) in
  Ok (mkCoordinator groups (geometries s) (closed_first s ++ others.*1) (window s) prefix_granularity pool host snapshot
        (stream_device_cache_to_host && bool_decide (is_Some host)) (enable_l3_storage && bool_decide (is_Some host)),
      built_pools s).

Definition MakeCoordinator (specs : list CacheGroupSpec.t) (prefix_granularity : Z) (pool : nat) (enable_l3_storage : bool)
    (host snapshot : option nat) (stream_device_cache_to_host : bool) (ps : list BlockPool) :
    result (CacheCoordinator * list BlockPool) :=
  _assert (negb (length specs =? 0)%nat) "MakeCoordinator requires at least one spec";;
  _assert (0 <? prefix_granularity) "prefix_granularity must be > 0";;
  _assert (Z.of_nat (length specs) <=? INT32_MAX) "number of cache groups exceeds int32 range";;
  groups ← mapM (λ x, make_cache_group prefix_granularity x.1 x.2) (indexed specs);
  CacheCoordinator_new groups prefix_granularity pool enable_l3_storage host snapshot stream_device_cache_to_host ps.

Definition GroupIsState (i : nat) (self : CacheCoordinator) : result bool :=
  group ← lookup_or (Undefined "vector index out of range") (groups_ self !! i);
  Ok (bool_decide (CacheGroupSpec.attn_kind (spec_ group) = kState)).

Definition ReplayWindowTokens (self : CacheCoordinator) : Z := replay_window_tokens_ self.

Definition ReplayTokens (hit_tokens : Z) (self : CacheCoordinator) : result Z :=
  _assert (0 <=? hit_tokens) "hit tokens must be non-negative";;
  Ok (Z.min (replay_window_tokens_ self) hit_tokens).

Definition BlocksPerBoundary (i : nat) (self : CacheCoordinator) : result Z :=
  state ← GroupIsState i self;
  if (state : bool) then Ok 1
  else
    geometry ← lookup_or (Undefined "vector index out of range") (geometry_ self !! i);
    g ← BlockGranularity geometry;
    div32 (prefix_granularity_ self) g.

(** ** The scheduler *)

Definition hostPoolBlocks (config : SchedulerConfig.t) : result Z :=
  if SchedulerConfig.HasHostCache config then SchedulerConfig.NumUsableBlocks (SchedulerConfig.host_total_pages config) else Ok 0.

Definition snapshotPoolBlocks (config : SchedulerConfig.t) : result Z :=
  if SchedulerConfig.HasSnapshotPool config then SchedulerConfig.NumUsableBlocks (SchedulerConfig.snapshot_total_pages config)
  else Ok 0.

Definition slotsPerParentByGroup (config : SchedulerConfig.t) : list Z :=
  CacheGroupConfig.cache_blocks_per_lcm_block <$> SchedulerConfig.cache_groups config.

Record Scheduler := mkScheduler {
  config_ : SchedulerConfig.t;
  req_pool_allocator_ : ReqPoolAllocator;
  snapshot_slots_ : ReqPoolAllocator;
  pools_ : list BlockPool;
  coordinator_ : CacheCoordinator;
  cache_group_ids_ : list string;
  max_single_request_tokens_ : Z;
}.

Definition Scheduler_new (config : SchedulerConfig.t) : result Scheduler :=
  SchedulerConfig.Validate config;;
  device_blocks ← SchedulerConfig.NumUsableBlocks (SchedulerConfig.device_total_pages config);
  device ← BlockPool_new device_blocks (slotsPerParentByGroup config);
  host_blocks ← hostPoolBlocks config;
  host ← BlockPool_new host_blocks (slotsPerParentByGroup config);
  snapshot_blocks ← snapshotPoolBlocks config;
  snapshot ← BlockPool_new snapshot_blocks (slotsPerParentByGroup config);
  specs ← MakeSpecsFromConfig config;
  '(coordinator, ps) ← MakeCoordinator specs (SchedulerConfig.prefix_granularity config) 0
    (SchedulerConfig.enable_l3_storage config)
    (if 0 <? host_blocks then Some 1%nat else None) (if 0 <? snapshot_blocks then Some 2%nat else None)
    (SchedulerConfig.StreamsDeviceCacheToHost config) [device; host; snapshot];
  model ← CapacityModel.new config;
  device ← lookup_or (Undefined "dangling BlockPool") (ps !! 0%nat);
  longest ← CapacityModel.MaxSingleRequestTokens model (NumLcmBlocks device);
  Ok (mkScheduler config (ReqPoolAllocator_new (SchedulerConfig.max_batch_size config))
        (ReqPoolAllocator_new (SchedulerConfig.max_retracted_requests config)) ps coordinator
        (CacheGroupConfig.group_id <$> SchedulerConfig.cache_groups config) longest).

(** ** Construction *)

Lemma BlockPool_new_Ok num slots :
  0 ≤ num → Forall (λ packing', 0 < packing' ∧ num * packing' ≤ INT32_MAX) slots →
  BlockPool_new num slots = Ok (mkPool (replicate (Z.to_nat num) empty_block) (seqZ 1 num) ((λ packing', mkGroup packing' [] []) <$> slots)).
Proof.
  intros Hn Hs. unfold BlockPool_new. pass_check lia.
  assert (mapM (λ packing, _assert (0 <? packing) "slots_per_parent must be > 0";;
    _assert (num * packing <=? INT32_MAX) "group cache page count exceeds int32 range";; Ok (mkGroup packing [] [])) slots =
    Ok ((λ packing', mkGroup packing' [] []) <$> slots)) as ->; [|done].
  apply mapM_Ok, Forall2_fmap_r, Forall_Forall2_diag. eapply Forall_impl; [exact Hs|]. intros x [Hx1 Hx2].
  pass_check lia. by pass_check lia.
Qed.

Lemma indexed_lookup {A} (l : list A) i : indexed l !! i = (λ x, (i, x)) <$> l !! i.
Proof.
  unfold indexed. destruct (l !! i) as [x|] eqn:Hx.
  - apply lookup_zip_with_Some. exists i, x. split; [done|]. split; [|done]. apply lookup_seq. split; [done|]. by apply lookup_lt_Some in Hx.
  - apply lookup_ge_None in Hx. apply lookup_ge_None. rewrite length_zip, length_seq. lia.
Qed.

Lemma indexed_snoc {A} (l : list A) x : indexed (l ++ [x]) = indexed l ++ [(length l, x)].
Proof.
  unfold indexed. rewrite length_app, Nat.add_comm. cbn [length Nat.add]. rewrite seq_S.
  rewrite zip_with_app by (by rewrite length_seq). done.
Qed.

Section setup.
Context (config : SchedulerConfig.t) (Hcv : capacity_valid config).
Let gs := SchedulerConfig.cache_groups config.
Let P := SchedulerConfig.prefix_granularity config.

(** The group made for the [i]-th entry of the configuration. *)
Definition group_for (i : nat) (group : CacheGroupConfig.t) : CacheGroup :=
  mkCacheGroup (spec_of group)
    (mkAllocator (CacheGroupConfig.cache_blocks_per_lcm_block group) i (CacheGroupConfig.shard_count group))
    (matcher_of group) (PrefixCacheIndex_new i).

Lemma group_at i group : gs !! i = Some group → group_valid config group.
Proof. intros Hi. by eapply Forall_lookup_1; [apply (cv_groups _ Hcv)|]. Qed.

Lemma check_span_Ok group : group_valid config group → check_span P (spec_of group) = Ok ().
Proof.
  intros Hg. unfold check_span, spec_of. cbn. pose proof (gv_span _ _ Hg) as Hs.
  destruct (decide (CacheGroupConfig.attn_kind group = kState)); apply _assert_Ok; fold P in Hs; lia.
Qed.

Lemma make_cache_group_Ok i group :
  group_valid config group → make_cache_group P i (spec_of group) = Ok (group_for i group).
Proof.
  intros Hg. unfold make_cache_group. pose proof (gv_packing _ _ Hg). pose proof (gv_shards _ _ Hg) as [? ?].
  cbn [spec_of CacheGroupSpec.cache_blocks_per_lcm_block CacheGroupSpec.shard_count]. pass_check lia.
  rewrite (check_span_Ok group Hg). cbn [mbind result_bind]. unfold GroupAllocator_new. pass_check lia. pass_check lia.
  by rewrite (MakePrefixMatcher_Ok config group Hg).
Qed.

(** The groups of the coordinator. *)
Definition groups_for : list CacheGroup := imap group_for gs.

Lemma make_groups_Ok : mapM (λ x, make_cache_group P x.1 x.2) (indexed (spec_of <$> gs)) = Ok groups_for.
Proof.
  apply mapM_Ok, Forall2_same_length_lookup. split.
  - unfold indexed, groups_for. rewrite length_zip, length_seq, length_fmap, length_imap. lia.
  - intros i x cg. rewrite indexed_lookup, list_lookup_fmap. unfold groups_for. rewrite list_lookup_imap.
    destruct (gs !! i) as [group|] eqn:Hi; [|done]. intros [= <-] [= <-]. by apply make_cache_group_Ok, (group_at i).
Qed.

(** A pool with nothing in use where the first [k] groups are registered. *)
Definition registered (k : nat) (p : BlockPool) : Prop :=
  unused p ∧ ∀ j group, gs !! j = Some group → ∃ ga, group_availability_ p !! j = Some ga ∧
    packing ga = CacheGroupConfig.cache_blocks_per_lcm_block group ∧
    if decide (j < k)%nat then buckets ga = CacheGroupConfig.shard_count group else parents_by_bucket ga = [].

Lemma register_group_Ok k group p :
  gs !! k = Some group → registered k p →
  ∃ p', RegisterGroup k (CacheGroupConfig.cache_blocks_per_lcm_block group) (CacheGroupConfig.shard_count group) p = Ok p' ∧
    registered (S k) p' ∧ NumLcmBlocks p' = NumLcmBlocks p.
Proof.
  intros Hk [[Hok Hun] Hreg]. pose proof (group_at k group Hk) as Hg. pose proof (gv_shards _ _ Hg) as [Hs Hd]. pose proof (gv_packing _ _ Hg) as Hpk.
  destruct (Hreg k group Hk) as (ga & Hga & Hpga & Hempty). rewrite decide_False in Hempty by lia.
  destruct (register_spec p k ga (CacheGroupConfig.shard_count group) Hok Hga Hs)
    as (p' & ga' & Hrun & Hok' & Hga' & Hpk' & Hb & _ & Hbl & _ & _ & Hoth).
  { rewrite Hpga. rewrite <- Z.rem_mod_nonneg by lia. done. }
  { by left. }
  rewrite Hpga in Hrun. exists p'. split; [done|]. split; [split; [split; [done|]|]|].
  - intros l. rewrite <- (Hun l). by apply live_blocks.
  - intros j group' Hj. destruct (decide (j = k)) as [->|Hne].
    + assert (group' = group) as -> by congruence. exists ga'. split_and!; [done|congruence|]. by rewrite decide_True by lia.
    + destruct (Hreg j group' Hj) as (gj & Hgj & Hpj & Hcase). exists gj. rewrite (Hoth j Hne). split_and!; [done|done|].
      destruct (decide (j < k)%nat); [rewrite decide_True by lia|rewrite decide_False by lia]; done.
  - unfold NumLcmBlocks. by rewrite Hbl.
Qed.

(** A pool the coordinator has a pointer to is registered with, another is not touched. *)
Definition pool_done (attached : bool) (k : nat) (p : BlockPool) : Prop := if attached then registered k p else unused p.

Lemma pool_done_unused b k p : pool_done b k p → unused p.
Proof. destruct b; [by intros [? _]|done]. Qed.

Definition pointer (attached : bool) (j : nat) : option nat := if attached then Some j else None.

(** The state of the loop after [k] groups. *)
Definition reached (hb sb : bool) (n : list Z) (k : nat) (s : setup) : Prop :=
  (∃ d h sn, built_pools s = [d; h; sn] ∧ registered k d ∧ pool_done hb k h ∧ pool_done sb k sn ∧ NumLcmBlocks <$> [d; h; sn] = n) ∧
  geometries s = (λ group, mkGeometry (CacheGroupConfig.block_granularity group)) <$> take k gs ∧
  window s = replay_window (take k gs) ∧
  closed_first s = (filter (λ x, IsPrefixClosed (matcher_of x.2) = true) (indexed (take k gs))).*1.

Lemma add_group_Ok hb sb n k s group :
  gs !! k = Some group → reached hb sb n k s →
  ∃ s', add_group P 0 (pointer hb 1) (pointer sb 2) s (k, group_for k group) = Ok s' ∧ reached hb sb n (S k) s'.
Proof.
  intros Hk ((d & h & sn & Hps & Hd & Hh & Hsn & Hn) & Hgeo & Hwin & Hclosed). pose proof (group_at k group Hk) as Hg.
  unfold add_group. cbn [group_for spec_ allocator_ matcher_ allocator_group_id_ cache_blocks_per_lcm_block_ shard_count_].
  pass_check ltac:(by rewrite Nat.eqb_refl). rewrite (check_span_Ok group Hg). cbn [mbind result_bind spec_of CacheGroupSpec.cache_blocks_per_lcm_block
    CacheGroupSpec.shard_count CacheGroupSpec.block_granularity CacheGroupSpec.replayable CacheGroupSpec.attn_kind CacheGroupSpec.sliding_window].
  pass_check lia. pass_check lia. rewrite Hps.
  destruct (register_group_Ok k group d Hk Hd) as (d' & Hrd & Hd' & Hnd).
  assert (∃ h', register_opt (pointer hb 1) k (CacheGroupConfig.cache_blocks_per_lcm_block group) (CacheGroupConfig.shard_count group)
    [d'; h; sn] = Ok [d'; h'; sn] ∧ pool_done hb (S k) h' ∧ NumLcmBlocks h' = NumLcmBlocks h) as (h' & Hrh & Hh' & Hnh).
  { destruct hb; [|by exists h]. destruct (register_group_Ok k group h Hk Hh) as (h' & Hrh & ? & ?). exists h'.
    cbn. by rewrite Hrh. }
  assert (∃ sn', register_opt (pointer sb 2) k (CacheGroupConfig.cache_blocks_per_lcm_block group) (CacheGroupConfig.shard_count group)
    [d'; h'; sn] = Ok [d'; h'; sn'] ∧ pool_done sb (S k) sn' ∧ NumLcmBlocks sn' = NumLcmBlocks sn) as (sn' & Hrs & Hs' & Hns).
  { destruct sb; [|by exists sn]. destruct (register_group_Ok k group sn Hk Hsn) as (sn' & Hrs & ? & ?). exists sn'.
    cbn. by rewrite Hrs. }
  unfold register_in. cbn [lookup list_lookup lookup_or mbind result_bind]. rewrite Hrd. cbn [mbind result_bind insert list_insert].
  rewrite Hrh. cbn [mbind result_bind]. rewrite Hrs. cbn [mbind result_bind]. unfold GroupGeometry_new.
  pose proof (gv_span _ _ Hg) as Hspan.
  pass_check ltac:(destruct (decide (CacheGroupConfig.attn_kind group = kState)); lia).
  assert ((if CacheGroupConfig.replayable group then _assert (bool_decide (CacheGroupConfig.attn_kind group = kSlidingWindow))
    "a replayable group must be a sliding window" else Ok ()) = Ok ()) as ->.
  { destruct (CacheGroupConfig.replayable group) eqn:Hr; [|done]. apply _assert_Ok, bool_decide_eq_true_2. by apply (gv_replay _ _ Hg). }
  cbn [mbind result_bind]. eexists. split; [done|]. pose proof (lookup_lt_Some _ _ _ Hk) as Hlt.
  unfold reached. rewrite (take_S_r _ _ _ Hk). cbn [built_pools geometries window closed_first]. split_and!.
  - exists d', h', sn'. split_and!; try done. cbn in *. congruence.
  - by rewrite fmap_app, Hgeo.
  - unfold replay_window. rewrite foldl_app. cbn [foldl]. by rewrite Hwin.
  - rewrite indexed_snoc, filter_app, fmap_app, Hclosed, length_take_le by lia. rewrite filter_cons. cbn [snd].
    destruct (IsPrefixClosed (matcher_of group)); [rewrite decide_True by done|rewrite decide_False by done; by rewrite app_nil_r]. done.
Qed.

Lemma add_groups_Ok hb sb n k s rest :
  indexed groups_for = take k (indexed groups_for) ++ rest → reached hb sb n k s → (k ≤ length gs)%nat →
  length rest = (length gs - k)%nat →
  ∃ s', foldM (add_group P 0 (pointer hb 1) (pointer sb 2)) s rest = Ok s' ∧ reached hb sb n (length gs) s'.
Proof.
  revert k s. induction rest as [|x rest IH]; intros k s Hsplit Hr Hle Hlen.
  { exists s. split; [done|]. cbn in Hlen. by replace (length gs) with k by lia. }
  assert (indexed groups_for !! k = Some x) as Hx.
  { rewrite Hsplit, lookup_app_r; rewrite length_take; unfold indexed, groups_for; rewrite length_zip, length_seq, length_imap; [|lia].
    cbn [length] in Hlen. replace (k - k `min` (length gs `min` length gs))%nat with 0%nat by lia. done. }
  rewrite indexed_lookup in Hx. unfold groups_for in Hx. rewrite list_lookup_imap in Hx.
  destruct (gs !! k) as [group|] eqn:Hk; [|done]. injection Hx as <-.
  destruct (add_group_Ok hb sb n k s group Hk Hr) as (s1 & Hrun & Hr1).
  destruct (IH (S k) s1) as (s2 & Hrun2 & Hr2); [|done|apply lookup_lt_Some in Hk; lia|cbn in Hlen; lia|].
  { rewrite (take_S_r _ k (k, group_for k group)); [by rewrite <- app_assoc|].
    rewrite indexed_lookup. unfold groups_for. by rewrite list_lookup_imap, Hk. }
  exists s2. split; [|done]. cbn [foldM]. rewrite Hrun. cbn [mbind result_bind]. exact Hrun2.
Qed.

Lemma new_registered num :
  0 ≤ num → (∀ group, group ∈ gs → num * CacheGroupConfig.cache_blocks_per_lcm_block group ≤ INT32_MAX) →
  ∃ p, BlockPool_new num (slotsPerParentByGroup config) = Ok p ∧ registered 0 p ∧ NumLcmBlocks p = num.
Proof.
  intros Hn Hint. eexists. split.
  - apply BlockPool_new_Ok; [done|]. unfold slotsPerParentByGroup. apply Forall_fmap, Forall_forall. intros group Hin. cbn. split; [|by apply Hint].
    apply list_elem_of_lookup_1 in Hin as [i Hi]. by apply (gv_packing _ _ (group_at i group Hi)).
  - split; [split|].
    + eapply unused_new, BlockPool_new_Ok; [done|]. unfold slotsPerParentByGroup. apply Forall_fmap, Forall_forall. intros group Hin. cbn.
      split; [|by apply Hint]. apply list_elem_of_lookup_1 in Hin as [i Hi]. by apply (gv_packing _ _ (group_at i group Hi)).
    + intros j group Hj. cbn. unfold slotsPerParentByGroup. rewrite !list_lookup_fmap. fold gs. rewrite Hj. cbn. eexists. split; [done|]. done.
    + unfold NumLcmBlocks. cbn. rewrite length_replicate. lia.
Qed.

(** The order groups are matched in: prefix-closed ones first, replayable ones not at all. *)
Definition match_order_for : list nat :=
  (filter (λ x, IsPrefixClosed (matcher_of x.2) = true) (indexed gs)).*1 ++
  (filter (λ x : nat * CacheGroup, IsPrefixClosed (matcher_ x.2) = false ∧ CacheGroupSpec.replayable (spec_ x.2) = false)
     (indexed groups_for)).*1.

Lemma MakeCoordinator_Ok hb sb n d h sn l3 stream :
  Z.of_nat (length gs) ≤ INT32_MAX → registered 0 d → NumLcmBlocks <$> [d; h; sn] = n → pool_done hb 0 h → pool_done sb 0 sn →
  ∃ ps, MakeCoordinator (spec_of <$> gs) P 0 l3 (pointer hb 1) (pointer sb 2) stream [d; h; sn] =
    Ok (mkCoordinator groups_for ((λ group, mkGeometry (CacheGroupConfig.block_granularity group)) <$> gs) match_order_for
          (replay_window gs) P 0 (pointer hb 1) (pointer sb 2) (stream && hb) (l3 && hb), ps) ∧
    ∃ d' h' sn', ps = [d'; h'; sn'] ∧ registered (length gs) d' ∧ pool_done hb (length gs) h' ∧ pool_done sb (length gs) sn' ∧ NumLcmBlocks <$> ps = n.
Proof.
  intros Hlen Hd Hn Hh Hsn. unfold MakeCoordinator. pose proof (cv_prefix _ Hcv) as HP. fold P in HP.
  pass_check ltac:(rewrite length_fmap; pose proof (cv_some _ Hcv) as Hne; fold gs in Hne; by destruct gs).
  pass_check lia. pass_check ltac:(rewrite length_fmap; lia). rewrite make_groups_Ok. cbn [mbind result_bind].
  unfold CacheCoordinator_new. pass_check lia.
  destruct (add_groups_Ok hb sb n 0 (mkSetup [d; h; sn] [] 0 []) (indexed groups_for)) as (s & Hrun & (d' & h' & sn' & Hps & Hregs) & Hgeo & Hwin & Hcl).
  { done. }
  { split_and!; [by exists d, h, sn|done|done|done]. }
  { lia. }
  { unfold indexed, groups_for. rewrite length_zip, length_seq, length_imap. lia. }
  rewrite Hrun. cbn [mbind result_bind]. rewrite take_ge in Hgeo, Hwin, Hcl by lia. rewrite Hgeo, Hwin, Hcl, Hps.
  assert (∀ j, bool_decide (is_Some (pointer hb j)) = hb) as -> by (intros j; destruct hb; [by apply bool_decide_eq_true_2|by apply bool_decide_eq_false_2; intros []]).
  eexists. split; [reflexivity|]. destruct Hregs as (? & ? & ? & ?). by exists d', h', sn'.
Qed.
End setup.

(** The blocks of the three pools. *)
Definition pool_blocks (config : SchedulerConfig.t) : list Z :=
  [SchedulerConfig.device_total_pages config - 1;
   if SchedulerConfig.HasHostCache config then SchedulerConfig.host_total_pages config - 1 else 0;
   if SchedulerConfig.HasSnapshotPool config then SchedulerConfig.snapshot_total_pages config - 1 else 0].

(** The pages every group has in a pool are counted in 32 bits. *)
Definition pool_fits (config : SchedulerConfig.t) (num : Z) : bool :=
  forallb (λ group, num * CacheGroupConfig.cache_blocks_per_lcm_block group <=? INT32_MAX) (SchedulerConfig.cache_groups config).
Definition pages_fit (config : SchedulerConfig.t) : bool := forallb (pool_fits config) (pool_blocks config).
Definition windows_fit (config : SchedulerConfig.t) : bool := forallb window_fits (SchedulerConfig.cache_groups config).

(** The fields of a configuration are 32-bit integers. *)
Record int32_fields (config : SchedulerConfig.t) : Prop := {
  if_pages : SchedulerConfig.device_total_pages config ≤ INT32_MAX ∧ SchedulerConfig.host_total_pages config ≤ INT32_MAX ∧
    SchedulerConfig.snapshot_total_pages config ≤ INT32_MAX;
  if_groups : Z.of_nat (length (SchedulerConfig.cache_groups config)) ≤ INT32_MAX;
  if_window group w : group ∈ SchedulerConfig.cache_groups config → CacheGroupConfig.sliding_window_tokens group = Some w → w ≤ INT32_MAX;
}.

(** A scheduler as it is before its first request. *)
Record well_formed (config : SchedulerConfig.t) (s : Scheduler) : Prop := {
  wf_pools : Forall unused (pools_ s) ∧ owned (mkHeap (pools_ s) []) [];
  wf_host : is_Some (host_pool_ (coordinator_ s)) ↔ SchedulerConfig.HasHostCache config = true;
  wf_snapshot : is_Some (snapshot_pool_ (coordinator_ s)) ↔ SchedulerConfig.HasSnapshotPool config = true;
  wf_count : length (groups_ (coordinator_ s)) = length (SchedulerConfig.cache_groups config);
  wf_group i group : SchedulerConfig.cache_groups config !! i = Some group →
    groups_ (coordinator_ s) !! i = Some (group_for i group) ∧
    geometry_ (coordinator_ s) !! i = Some (mkGeometry (CacheGroupConfig.block_granularity group)) ∧
    ∀ j, Some j ∈ [Some (pool_ (coordinator_ s)); host_pool_ (coordinator_ s); snapshot_pool_ (coordinator_ s)] →
      placed_for (allocator_ (group_for i group)) j (mkHeap (pools_ s) []);
  wf_order : NoDup (match_order_ (coordinator_ s)) ∧ ∀ i, i ∈ match_order_ (coordinator_ s) ↔
    ∃ group, SchedulerConfig.cache_groups config !! i = Some group ∧ CacheGroupConfig.replayable group = false;
  wf_prefix : prefix_granularity_ (coordinator_ s) = SchedulerConfig.prefix_granularity config;
  wf_window : replay_window_tokens_ (coordinator_ s) = replay_window (SchedulerConfig.cache_groups config);
  wf_longest : 0 ≤ max_single_request_tokens_ s ≤ INT32_MAX;
  wf_blocks : NumLcmBlocks <$> pools_ s = pool_blocks config;
  wf_rows : req_pool_allocator_ s = ReqPoolAllocator_new (SchedulerConfig.max_batch_size config) ∧
    snapshot_slots_ s = ReqPoolAllocator_new (SchedulerConfig.max_retracted_requests config);
}.

Lemma registered_placed config k p ps j i group :
  registered config k p → ps !! j = Some p → SchedulerConfig.cache_groups config !! i = Some group → (i < k)%nat →
  0 < CacheGroupConfig.shard_count group → placed_for (allocator_ (group_for i group)) j (mkHeap ps []).
Proof.
  intros [_ Hreg] Hj Hi Hlt Hs. destruct (Hreg i group Hi) as (ga & Hga & Hpk & Hb). rewrite decide_True in Hb by done.
  exists p, ga. by split_and!.
Qed.

Lemma elem_of_indexed {A} (l : list A) i x : (i, x) ∈ indexed l ↔ l !! i = Some x.
Proof.
  split.
  - intros [j Hj]%list_elem_of_lookup_1. rewrite indexed_lookup in Hj. destruct (l !! j) as [y|] eqn:E; [|done]. by injection Hj as -> ->.
  - intros Hi. apply (list_elem_of_lookup_2 _ i). by rewrite indexed_lookup, Hi.
Qed.

Lemma match_order_spec config :
  capacity_valid config →
  NoDup (match_order_for config) ∧ ∀ i, i ∈ match_order_for config ↔
    ∃ group, SchedulerConfig.cache_groups config !! i = Some group ∧ CacheGroupConfig.replayable group = false.
Proof.
  intros Hcv.
  assert (∀ i, i ∈ (filter (λ x, IsPrefixClosed (matcher_of x.2) = true) (indexed (SchedulerConfig.cache_groups config))).*1 ↔
    ∃ group, SchedulerConfig.cache_groups config !! i = Some group ∧ IsPrefixClosed (matcher_of group) = true) as H1.
  { intros i. rewrite list_elem_of_fmap. split.
    - intros ([j group] & -> & [Hc Hin]%list_elem_of_filter). exists group. split; [by apply elem_of_indexed|done].
    - intros (group & Hi & Hc). exists (i, group). split; [done|]. apply list_elem_of_filter. split; [done|]. by apply elem_of_indexed. }
  assert (∀ i, i ∈ (filter (λ x : nat * CacheGroup, IsPrefixClosed (matcher_ x.2) = false ∧ CacheGroupSpec.replayable (spec_ x.2) = false)
     (indexed (groups_for config))).*1 ↔
    ∃ group, SchedulerConfig.cache_groups config !! i = Some group ∧ IsPrefixClosed (matcher_of group) = false ∧
      CacheGroupConfig.replayable group = false) as H2.
  { intros i. rewrite list_elem_of_fmap. split.
    - intros ([j cg] & -> & [[Hc Hr] Hin]%list_elem_of_filter). apply elem_of_indexed in Hin. unfold groups_for in Hin.
      rewrite list_lookup_imap in Hin. destruct (_ !! j) as [group|] eqn:Hj; [|done]. injection Hin as <-. by exists group.
    - intros (group & Hi & Hc & Hr). exists (i, group_for i group). split; [done|]. apply list_elem_of_filter. split; [done|].
      apply elem_of_indexed. unfold groups_for. by rewrite list_lookup_imap, Hi. }
  assert (∀ {A} (Q : nat * A → Prop) `{∀ x, Decision (Q x)} (l : list A), NoDup (filter Q (indexed l)).*1) as Hnd.
  { intros A Q ? l. eapply sublist_NoDup; [|apply fmap_sublist, sublist_filter]. unfold indexed.
    rewrite fst_zip by (by rewrite length_seq). apply NoDup_seq. }
  split.
  - apply NoDup_app. split_and!; [apply Hnd| |apply Hnd]. intros i Hi Hi'. apply H1 in Hi as (g1 & Hg1 & Hc1).
    apply H2 in Hi' as (g2 & Hg2 & Hc2 & _). congruence.
  - intros i. unfold match_order_for. rewrite elem_of_app, H1, H2. split.
    + intros [(group & Hi & Hc)|(group & Hi & _ & Hr)]; [|by exists group]. exists group. split; [done|].
      pose proof (Forall_lookup_1 _ _ _ _ (cv_groups _ Hcv) Hi) as Hg. destruct (CacheGroupConfig.replayable group) eqn:Hr; [|done].
      unfold matcher_of in Hc. by rewrite (gv_replay _ _ Hg Hr) in Hc.
    + intros (group & Hi & Hr). destruct (IsPrefixClosed (matcher_of group)) eqn:Hc; [left|right]; by exists group.
Qed.

(** A pool is built, or refused for the count of its pages. *)
Lemma pool_cases config num :
  capacity_valid config → 0 ≤ num →
  if pool_fits config num
  then ∃ p, BlockPool_new num (slotsPerParentByGroup config) = Ok p ∧ registered config 0 p ∧ NumLcmBlocks p = num
  else BlockPool_new num (slotsPerParentByGroup config) = Raise (RuntimeError "group cache page count exceeds int32 range").
Proof.
  intros Hcv Hn. destruct (pool_fits config num) eqn:Hfit.
  - apply new_registered; [done|done|]. intros group Hin%list_elem_of_In. unfold pool_fits in Hfit. rewrite forallb_forall in Hfit.
    apply Z.leb_le. by apply Hfit.
  - unfold BlockPool_new. pass_check lia. unfold slotsPerParentByGroup. rewrite mapM_of_fmap.
    pose proof (mapM_uniform ((λ packing', _assert (0 <? packing') "slots_per_parent must be > 0";;
      _assert (num * packing' <=? INT32_MAX) "group cache page count exceeds int32 range";; Ok (mkGroup packing' [] [])) ∘
      CacheGroupConfig.cache_blocks_per_lcm_block)
      (λ group, num * CacheGroupConfig.cache_blocks_per_lcm_block group <=? INT32_MAX) (λ _ _, True)
      (RuntimeError "group cache page count exceeds int32 range") (SchedulerConfig.cache_groups config)) as Hall.
    fold (pool_fits config num) in Hall. rewrite Hfit in Hall. rewrite Hall; [done|]. clear Hall Hfit. intros group Hin. cbn [compose].
    pose proof (gv_packing _ _ (proj1 (Forall_forall _ _) (cv_groups _ Hcv) group Hin)) as Hpk. pass_check lia.
    destruct (num * _ <=? INT32_MAX); [by eexists|done].
Qed.

Lemma registered_done config (present : bool) p : registered config 0 p → pool_done config present 0 p.
Proof. intros Hp. destruct present; [done|apply Hp]. Qed.

(** The usable blocks of a tier. *)
Lemma tier_blocks total (present : bool) :
  total ≤ INT32_MAX → (present = true → 1 < total) →
  let n := if present then total - 1 else 0 in
  (if present then SchedulerConfig.NumUsableBlocks total else Ok 0) = Ok n ∧ (0 <? n) = present ∧ 0 ≤ n.
Proof.
  intros Hint Hpos. unfold SchedulerConfig.NumUsableBlocks. destruct present; [|done]. specialize (Hpos eq_refl).
  rewrite i32_Ok by (unfold INT32_MIN; lia). split_and!; [done|lia..].
Qed.

Lemma Ok_bind {A B} (k : A → result B) a : Ok a ≫= k = k a.
Proof. reflexivity. Qed.

(** What the constructors build is well-formed. *)
Lemma built_well_formed config d h sn l3 stream m :
  let hb := SchedulerConfig.HasHostCache config in
  let sb := SchedulerConfig.HasSnapshotPool config in
  let gs := SchedulerConfig.cache_groups config in
  capacity_valid config → registered config (length gs) d → pool_done config hb (length gs) h →
  pool_done config sb (length gs) sn → NumLcmBlocks <$> [d; h; sn] = pool_blocks config → 0 ≤ m ≤ INT32_MAX →
  well_formed config (mkScheduler config (ReqPoolAllocator_new (SchedulerConfig.max_batch_size config))
    (ReqPoolAllocator_new (SchedulerConfig.max_retracted_requests config)) [d; h; sn]
    (mkCoordinator (groups_for config) ((λ group, mkGeometry (CacheGroupConfig.block_granularity group)) <$> gs)
       (match_order_for config) (replay_window gs) (SchedulerConfig.prefix_granularity config) 0 (pointer hb 1) (pointer sb 2) stream l3)
    (CacheGroupConfig.group_id <$> gs) m).
Proof.
  intros hb sb gs Hcv Hd Hh Hs Hblocks Hm.
  assert (∀ b j, is_Some (pointer b j) ↔ b = true) as Hptr by (intros [] j; split; [done|by eexists|by intros []|done]).
  assert (Forall unused [d; h; sn]) as Hun.
  { apply Forall_cons. split; [apply Hd|]. apply Forall_cons. split; [by eapply pool_done_unused|].
    apply Forall_singleton. by eapply pool_done_unused. }
  split; cbn [pools_ coordinator_ host_pool_ snapshot_pool_ groups_ geometry_ match_order_ replay_window_tokens_ prefix_granularity_ pool_ max_single_request_tokens_]; try done.
  - split; [done|by apply owned_unused].
  - unfold groups_for. apply length_imap.
  - intros i group Hi. pose proof (gv_shards _ _ (Forall_lookup_1 _ _ _ _ (cv_groups _ Hcv) Hi)) as [Hsh _].
    pose proof (lookup_lt_Some _ _ _ Hi) as Hlt. split_and!.
    + unfold groups_for. by rewrite list_lookup_imap, Hi.
    + unfold gs. by rewrite list_lookup_fmap, Hi.
    + intros j. rewrite !elem_of_cons, elem_of_nil. unfold pointer. intros [[= ->]|[Hj|[Hj|[]]]].
      * by eapply (registered_placed config _ d).
      * destruct hb; [|done]. injection Hj as ->. by eapply (registered_placed config _ h).
      * destruct sb; [|done]. injection Hj as ->. by eapply (registered_placed config _ sn).
  - by apply match_order_spec.
Qed.

(** Every outcome of the constructor. *)
Lemma scheduler_cases config :
  config_valid config → int32_fields config →
  if pages_fit config then
    if windows_fit config then ∃ s, Scheduler_new config = Ok s ∧ well_formed config s
    else Scheduler_new config = Raise (Undefined "signed integer overflow")
  else Scheduler_new config = Raise (RuntimeError "group cache page count exceeds int32 range").
Proof.
  intros Hva [(Hd & Hh & Hs) Hlen Hwmax]. pose proof (va_capacity _ Hva) as Hcv. pose proof (va_device _ Hva) as Hdev.
  remember (Scheduler_new config) as r eqn:Hr. unfold Scheduler_new in Hr.
  rewrite (proj2 (Validate_Ok config Hh) Hva) in Hr. rewrite Ok_bind in Hr.
  unfold SchedulerConfig.NumUsableBlocks at 1 in Hr. rewrite i32_Ok in Hr by (unfold INT32_MIN; lia). rewrite Ok_bind in Hr.
  destruct (tier_blocks (SchedulerConfig.host_total_pages config) (SchedulerConfig.HasHostCache config) Hh) as (Hrh & Hnh & Hh0).
  { unfold SchedulerConfig.HasHostCache. intros [_ ?]%andb_true_iff. lia. }
  destruct (tier_blocks (SchedulerConfig.snapshot_total_pages config) (SchedulerConfig.HasSnapshotPool config) Hs) as (Hrs & Hns & Hs0).
  { unfold SchedulerConfig.HasSnapshotPool. lia. }
  unfold hostPoolBlocks, snapshotPoolBlocks in Hr. rewrite Hrh, Hrs in Hr.
  pose proof (pool_cases config (SchedulerConfig.device_total_pages config - 1) Hcv ltac:(lia)) as Hpd.
  pose proof (pool_cases config _ Hcv Hh0) as Hph. pose proof (pool_cases config _ Hcv Hs0) as Hps.
  unfold pages_fit, pool_blocks. cbn [forallb].
  destruct (pool_fits config (SchedulerConfig.device_total_pages config - 1)); cbn [andb]; [|by rewrite Hpd in Hr].
  destruct Hpd as (d & Hd0 & Hreg & Hnd). rewrite Hd0 in Hr. rewrite !Ok_bind in Hr.
  destruct (pool_fits config (if SchedulerConfig.HasHostCache config then _ else 0)); cbn [andb]; [|by rewrite Hph in Hr].
  destruct Hph as (h & Hh1 & Hregh & Hnhb). rewrite Hh1 in Hr. rewrite !Ok_bind in Hr.
  destruct (pool_fits config (if SchedulerConfig.HasSnapshotPool config then _ else 0)); cbn [andb]; [|by rewrite Hps in Hr].
  destruct Hps as (sn & Hs1 & Hregs & Hnsb). rewrite Hs1 in Hr. rewrite Ok_bind in Hr.
  rewrite (MakeSpecs_Ok config Hcv) in Hr. rewrite Ok_bind in Hr. rewrite Hnh, Hns in Hr.
  destruct (MakeCoordinator_Ok config Hcv (SchedulerConfig.HasHostCache config) (SchedulerConfig.HasSnapshotPool config) (pool_blocks config) d h sn
    (SchedulerConfig.enable_l3_storage config) (SchedulerConfig.StreamsDeviceCacheToHost config) Hlen Hreg)
    as (ps & Hmake & d' & h' & sn' & -> & Hd' & Hh' & Hs' & Hn').
  { cbn. by rewrite Hnd, Hnhb, Hnsb. }
  { by apply registered_done. }
  { by apply registered_done. }
  unfold pointer in Hmake. rewrite Hmake in Hr. rewrite Ok_bind in Hr.
  pose proof (model_cases config Hcv Hwmax) as Hmodel. unfold windows_fit. destruct (forallb window_fits _); [|by rewrite Hmodel in Hr].
  destruct Hmodel as (models & Hmodel & Hmodels). rewrite Hmodel, Ok_bind in Hr.
  change (lookup_or _ ([d'; h'; sn'] !! 0%nat)) with (Ok d') in Hr. rewrite Ok_bind in Hr.
  destruct (longest_spec config models (NumLcmBlocks d') Hcv Hmodels) as (need & m & _ & Hlongest & Hm & _).
  rewrite Hlongest, Ok_bind in Hr. eexists. split; [exact Hr|]. by apply (built_well_formed config d' h' sn').
Qed.

Lemma scheduler_built config :
  config_valid config → int32_fields config → pages_fit config = true → windows_fit config = true →
  ∃ s, Scheduler_new config = Ok s ∧ well_formed config s.
Proof. intros Hva Hf Hp Hw. pose proof (scheduler_cases config Hva Hf) as Hc. by rewrite Hp, Hw in Hc. Qed.


Lemma some_config_valid : config_valid some_config.
Proof. apply Validate_Ok; [vm_compute; discriminate|]. vm_compute. reflexivity. Qed.

Lemma some_config_fields : int32_fields some_config.
Proof.
  split; [split_and!; vm_compute; discriminate|vm_compute; discriminate|]. intros group w Hg Hw.
  destruct some_config_int32 as [Hic]. by apply (Hic group Hg).
Qed.

Lemma some_scheduler : ∃ s, Scheduler_new some_config = Ok s ∧ well_formed some_config s.
Proof. by apply scheduler_built; [apply some_config_valid|apply some_config_fields| |]. Qed.

(** A full-attention group and a sliding window, of any page length and packing. *)
Definition wide_config (granularity packing : Z) : SchedulerConfig.t := {|
  SchedulerConfig.prefix_granularity := granularity;
  SchedulerConfig.host_total_pages := 0;
  SchedulerConfig.device_total_pages := 33;
  SchedulerConfig.snapshot_total_pages := 1;
  SchedulerConfig.max_retracted_requests := 0;
  SchedulerConfig.debug_force_retraction_interval := 0;
  SchedulerConfig.cache_groups :=
    [CacheGroupConfig.mk "full" granularity 33 1 kFull None false Unspecified 1;
     CacheGroupConfig.mk "window" granularity 33 packing kSlidingWindow (Some 100) false Unspecified 1];
  SchedulerConfig.max_scheduled_tokens := granularity;
  SchedulerConfig.max_batch_size := 4;
  SchedulerConfig.decode_input_tokens := 1;
  SchedulerConfig.overlap_schedule_depth := 1;
  SchedulerConfig.disable_l2_cache := true;
  SchedulerConfig.enable_l3_storage := false;
  SchedulerConfig.storage_config := None;
  SchedulerConfig.enable_kv_cache_events := false;
  SchedulerConfig.enable_mixed_prefill_decode := true;
  SchedulerConfig.role := kFused;
  SchedulerConfig.disable_prefix_cache := false;
  SchedulerConfig.prefix_replay_tokens := 0;
  SchedulerConfig.state_checkpoint_in_forward := false;
|}.

Lemma wide_config_fields granularity packing : int32_fields (wide_config granularity packing).
Proof.
  split; [split_and!; vm_compute; discriminate|vm_compute; discriminate|]. cbn. intros group w Hg Hw.
  rewrite !elem_of_cons in Hg. destruct Hg as [->|[->|?%not_elem_of_nil]]; [done| |done]. injection Hw as <-. unfold INT32_MAX. lia.
Qed.

