(* ===== verification/PrefillChunk.v ===== *)
(** * Cutting a prompt into chunks

    [csrc/scheduler/operations/prefill_chunk.cpp] and [group_demands.cpp]: how many
    tokens of a prompt one forward takes, under the token budget, the window a
    replayable group must keep whole and a pending junction, and what each cache group
    is asked for. *)

From stdpp Require Import strings.
From S2P Require Import Prelude PyState Cxx BlockPool BlockRefs SchedulerConfig GroupGeometry GroupAllocator CapacityModel SchedulerSetup.

Local Open Scope Z_scope.

(** ** Chunks *)

(** The first State group ends the loop. *)
Definition has_state_group (coordinator : CacheCoordinator) : bool :=
  existsb (λ group, bool_decide (CacheGroupSpec.attn_kind (spec_ group) = kState)) (groups_ coordinator).

Definition PrefillStateCheckpointTokens (coordinator : CacheCoordinator) (prompt_tokens chunk_budget prefix_replay_tokens : Z) :
    result Z :=
  _assert ((0 <=? prompt_tokens) && (0 <? chunk_budget) && (0 <=? prefix_replay_tokens))
    "prefill checkpoint inputs must be non-negative with a positive budget";;
  let tail := Z.max (Z.max 1 (ReplayWindowTokens coordinator)) prefix_replay_tokens in
  if (prompt_tokens <=? chunk_budget) || (prompt_tokens <=? tail) then Ok 0
  else if has_state_group coordinator then
    let page := prefix_granularity_ coordinator in
    pages ← div32 (prompt_tokens - tail) page;
    i32 (pages * page)
  else Ok 0.

Definition ChunkKeepingFinalWindow (prefill_tokens unscheduled replay_window : Z) : result Z :=
  _assert ((0 <=? prefill_tokens) && (prefill_tokens <=? unscheduled)) "a chunk cannot exceed the unscheduled prompt";;
  _assert (0 <=? replay_window) "replay_window must be non-negative";;
  let remainder := unscheduled - prefill_tokens in
  if (replay_window =? 0) || (remainder =? 0) || (replay_window <=? remainder) then Ok prefill_tokens
  else Ok (Z.max 0 (unscheduled - replay_window)).

Definition PrefillChunkTokens (coordinator : CacheCoordinator) (first_pos : Z) (resumes_hit : bool)
    (unscheduled token_budget junction_tokens : Z) : result Z :=
  _assert ((0 <=? first_pos) && (0 <=? unscheduled) && (0 <=? token_budget)) "prefill positions must be non-negative";;
  replayed ← (if resumes_hit then ReplayTokens first_pos coordinator else Ok 0);
  budget ← i32 (token_budget - replayed);
  if budget <=? 0 then Ok 0
  else
    let plain := Z.min budget unscheduled in
    prefill_tokens ← (if first_pos <? junction_tokens then
                        room ← i32 (junction_tokens - first_pos); Ok (Z.min plain room)
                      else Ok plain);
    let window := ReplayWindowTokens coordinator in
    kept ← ChunkKeepingFinalWindow prefill_tokens unscheduled window;
    if (0 <? kept) || (prefill_tokens =? plain) then Ok kept
    else ChunkKeepingFinalWindow plain unscheduled window.

Definition MinPrefillChunkTokens (coordinator : CacheCoordinator) : result Z :=
  let window := ReplayWindowTokens coordinator in
  if 0 <? window then i32 (window + Z.max window (prefix_granularity_ coordinator)) else Ok 0.

(** ** The state checkpoint a forward writes *)

(** [a % b]; the quotient must exist for the remainder to be defined. *)
Definition rem32 (a b : Z) : result Z := div32 a b;; Ok (Z.rem a b).

Definition inForwardStateCheckpoint (config : SchedulerConfig.t) (coordinator : CacheCoordinator) (prompt_tokens : Z) : result Z :=
  if negb (SchedulerConfig.state_checkpoint_in_forward config) || SchedulerConfig.disable_prefix_cache config ||
     bool_decide (SchedulerConfig.role config = kD)
  then Ok 0
  else PrefillStateCheckpointTokens coordinator prompt_tokens (SchedulerConfig.max_scheduled_tokens config)
         (SchedulerConfig.prefix_replay_tokens config).

Definition writesInForwardCheckpoint (checkpoint first_pos tokens prefix_granularity : Z) : result bool :=
  if first_pos <? checkpoint then
    stop ← i32 (first_pos + tokens);
    if checkpoint <? stop then
      r ← rem32 (checkpoint - first_pos) prefix_granularity;
      Ok (r =? 0)
    else Ok false
  else Ok false.

Definition chunkTowardInForwardCheckpoint (checkpoint first_pos tokens junction max_chunk_tokens prefix_granularity : Z) :
    result Z :=
  stop ← i32 (first_pos + tokens);
  if (checkpoint <=? first_pos) || (stop =? checkpoint) || (max_chunk_tokens <=? checkpoint - stop) then Ok tokens
  else if stop <? checkpoint then
    if (stop <=? junction) && (junction <? checkpoint) then Ok tokens
    else
      pages ← div32 stop prefix_granularity;
      page_end ← i32 (pages * prefix_granularity);
      Ok (if first_pos <? page_end then page_end - first_pos else tokens)
  else
    r ← rem32 (checkpoint - first_pos) prefix_granularity;
    Ok (if r =? 0 then tokens else checkpoint - first_pos).

(** What a prefill round schedules: the tokens it takes and whether it writes the
    checkpoint, or nothing, and the request waits.  [resumes_hit] for the first chunk of
    a request, which is cut in the same way.  [admits n checkpoint] is the answer of the
    coordinator to the demands of a chunk of [n] tokens with or without a block for the
    checkpoint; without one the chunk ends at the boundary. *)
Definition prefill_round (config : SchedulerConfig.t) (coordinator : CacheCoordinator) (prompt_tokens first_pos : Z)
    (resumes_hit : bool) (remaining junction_tokens : Z) (admits : Z → bool → bool) : result (option (Z * bool)) :=
  unscheduled ← i32 (prompt_tokens - first_pos);
  prefill_tokens ← PrefillChunkTokens coordinator first_pos resumes_hit unscheduled remaining junction_tokens;
  if prefill_tokens =? 0 then Ok None
  else
    state_checkpoint ← inForwardStateCheckpoint config coordinator prompt_tokens;
    prefill_tokens ← chunkTowardInForwardCheckpoint state_checkpoint first_pos prefill_tokens junction_tokens
      (SchedulerConfig.max_scheduled_tokens config) (prefix_granularity_ coordinator);
    writes_checkpoint ← writesInForwardCheckpoint state_checkpoint first_pos prefill_tokens (prefix_granularity_ coordinator);
    if writes_checkpoint && admits prefill_tokens true then Ok (Some (prefill_tokens, true))
    else
      let prefill_tokens := if (writes_checkpoint : bool) then state_checkpoint - first_pos else prefill_tokens in
      if admits prefill_tokens false then Ok (Some (prefill_tokens, false)) else Ok None.

(** ** Demands *)

Record PrefillReserve := mkReserve {
  decode_input_tokens : Z;
  completes_prefill : bool;
  prompt_headroom_tokens : Z;
  swa_hit_tokens : Z;
  swa_later_chunk_tokens : Z;
  swa_prompt_after_hit_tokens : Z;
}.

Definition DecodeTokens (self : PrefillReserve) : Z := if completes_prefill self then decode_input_tokens self else 0.

(** One demand per table; the table a demand points to is the one at its position. *)
Definition MakeGroupDemands (tables : list BlockTable) (cache_groups : list CacheGroupConfig.t) (prototype : GroupDemand)
    (state_step : GroupExtent) : result (list GroupDemand) :=
  _assert (length tables =? length cache_groups)%nat "tables/cache groups size mismatch";;
  Ok ((λ group, if decide (CacheGroupConfig.attn_kind group = kState) then mkDemand state_step 0 else prototype) <$> cache_groups).

Definition groupReserveTokens (group : CacheGroupConfig.t) (reserve : PrefillReserve) : result Z :=
  match CacheGroupConfig.attn_kind group with
  | kState => Ok 0
  | kSlidingWindow =>
      w1 ← i32 (default 0 (CacheGroupConfig.sliding_window_tokens group) - 1);
      let lookback := Z.max w1 0 in
      hit_counts ← (if CacheGroupConfig.replayable group then Ok false
                    else reach ← i32 (lookback + CacheGroupConfig.block_granularity group);
                         Ok (swa_prompt_after_hit_tokens reserve <? reach));
      let unrecycled := Z.min (Z.max (if (hit_counts : bool) then swa_hit_tokens reserve else 0) (swa_later_chunk_tokens reserve)) lookback in
      Ok (Z.max (DecodeTokens reserve) (Z.min (prompt_headroom_tokens reserve) unrecycled))
  | kFull => Ok (Z.max (DecodeTokens reserve) (prompt_headroom_tokens reserve))
  end.

Definition ReservePrefillDemands (demands : list GroupDemand) (cache_groups : list CacheGroupConfig.t)
    (reserve : PrefillReserve) : result (list GroupDemand) :=
  _assert (length demands =? length cache_groups)%nat "demands/cache groups size mismatch";;
  _assert ((0 <=? decode_input_tokens reserve) && (0 <=? prompt_headroom_tokens reserve))
    "prefill reserve inputs must be non-negative";;
  mapM (λ x : GroupDemand * CacheGroupConfig.t,
    _assert (reserve_tokens x.1 =? 0) "a prefill demand's reserve is decided here and nowhere else";;
    n ← groupReserveTokens x.2 reserve;
    Ok (mkDemand (extent x.1) n)) (zip demands cache_groups).

(** ** One chunk *)

(** Ending a chunk of [k] tokens leaves the prompt's final window whole. *)
Definition keeps_window (u w k : Z) : Prop := k = u ∨ w ≤ u - k.

Lemma keeping_spec n u w :
  0 ≤ n ≤ u → 0 ≤ w →
  ∃ k, ChunkKeepingFinalWindow n u w = Ok k ∧ 0 ≤ k ≤ n ∧ (0 < k → keeps_window u w k) ∧
    (∀ k', 0 ≤ k' ≤ n → keeps_window u w k' → k' ≤ k).
Proof.
  intros Hn Hw. unfold ChunkKeepingFinalWindow, keeps_window. pass_check lia. pass_check lia.
  destruct (Z.eqb_spec w 0), (Z.eqb_spec (u - n) 0), (Z.leb_spec w (u - n)); cbn [orb];
    eexists; (split; [reflexivity|]); (split; [lia|]); (split; [lia|]); intros; lia.
Qed.

Section chunk.
Context (coordinator : CacheCoordinator) (Hw : 0 ≤ replay_window_tokens_ coordinator).
Let w := replay_window_tokens_ coordinator.

(** The tokens replayed with a chunk. *)
Definition replayed (resumes : bool) (first_pos : Z) : Z :=
  if resumes then Z.min (replay_window_tokens_ coordinator) first_pos else 0.

(** A chunk of [k] tokens that fits the budget with the tokens replayed and keeps the
    final window, and one that does not pass a pending junction. *)
Definition fits_round (first_pos : Z) (resumes : bool) (u budget k : Z) : Prop :=
  0 < k ≤ Z.min (budget - replayed resumes first_pos) u ∧ keeps_window u w k.
Definition before_junction (first_pos junction k : Z) : Prop := first_pos < junction → k ≤ junction - first_pos.

(** The longest chunk that fits and does not pass the junction; when only chunks past it
    fit, the longest of those; and none when none fits. *)
Definition chunk_ok (first_pos : Z) (resumes : bool) (u budget junction n : Z) : Prop :=
  0 ≤ n ∧ (0 < n → fits_round first_pos resumes u budget n) ∧
  (∀ k, fits_round first_pos resumes u budget k → before_junction first_pos junction k →
     before_junction first_pos junction n ∧ k ≤ n) ∧
  (∀ k, fits_round first_pos resumes u budget k →
     0 < n ∧ ((∀ k', fits_round first_pos resumes u budget k' → ¬ before_junction first_pos junction k') → k ≤ n)).

(** Only a junction inside the final window is passed. *)
Lemma chunk_junction first_pos resumes u budget junction n :
  chunk_ok first_pos resumes u budget junction n → 0 < n → first_pos < junction →
  n ≤ junction - first_pos ∨ u - w < junction - first_pos.
Proof.
  intros (_ & Hfit & Hbefore & _) Hn Hj. destruct (decide (u - w < junction - first_pos)) as [|Hge]; [by right|left].
  specialize (Hfit Hn). fold w in Hw. set (k := Z.min (Z.min (budget - replayed resumes first_pos) u) (junction - first_pos)).
  destruct Hfit as [Hr _]. destruct (Hbefore k) as [Hb _]; [split; [lia|right; lia]|intros _; lia|by apply Hb].
Qed.

Lemma chunk_spec first_pos resumes u budget junction :
  0 ≤ first_pos → 0 ≤ u → 0 ≤ budget ≤ INT32_MAX → w ≤ INT32_MAX → junction ≤ INT32_MAX →
  ∃ n, PrefillChunkTokens coordinator first_pos resumes u budget junction = Ok n ∧ chunk_ok first_pos resumes u budget junction n.
Proof.
  intros Hp Hu Hb Hwm Hj. fold w in Hw. unfold PrefillChunkTokens, chunk_ok, fits_round, before_junction. cbn zeta. pass_check lia.
  assert ((if resumes then ReplayTokens first_pos coordinator else Ok 0) = Ok (replayed resumes first_pos)) as ->.
  { unfold replayed, ReplayTokens. destruct resumes; [|done]. by pass_check lia. }
  assert (0 ≤ replayed resumes first_pos ≤ w) as Hr by (unfold replayed, w; destruct resumes; lia).
  cbn [mbind result_bind]. rewrite (i32_Ok (budget - _)) by (unfold INT32_MIN, INT32_MAX in *; lia). cbn [mbind result_bind].
  set (room := budget - replayed resumes first_pos). destruct (Z.leb_spec room 0) as [Hle|Hroom].
  { exists 0. split; [done|]. split_and!; [lia..| |]; intros k [Hk _]; lia. }
  set (cut := if first_pos <? junction then Z.min (Z.min room u) (junction - first_pos) else Z.min room u).
  assert ((if first_pos <? junction then room0 ← i32 (junction - first_pos); Ok (Z.min (Z.min room u) room0)
           else Ok (Z.min room u)) = Ok cut) as ->.
  { subst cut. destruct (Z.ltb_spec first_pos junction); [|done]. rewrite i32_Ok by (unfold INT32_MIN, INT32_MAX in *; lia). done. }
  assert (0 ≤ cut ≤ Z.min room u ∧ (first_pos < junction → cut = Z.min (Z.min room u) (junction - first_pos)) ∧
    (junction ≤ first_pos → cut = Z.min room u)) as (Hc & Hc1 & Hc2)
    by (subst cut; destruct (Z.ltb_spec first_pos junction); lia).
  clearbody cut. cbn [mbind result_bind]. unfold ReplayWindowTokens. fold w.
  destruct (keeping_spec cut u w) as (k & -> & Hk & Hkeep & Hmost); [lia..|]. cbn [mbind result_bind].
  assert (∀ k', 0 < k' ≤ Z.min room u → (first_pos < junction → k' ≤ junction - first_pos) → keeps_window u w k' → k' ≤ k) as Hbest.
  { intros k' Hk' Hj' Hq. apply Hmost; [lia|done]. }
  destruct ((0 <? k) || (cut =? Z.min room u)) eqn:Hif.
  - exists k. split; [done|]. split_and!; [lia|intros Hk0; split; [lia|by apply Hkeep]| |].
    + intros k' [Hk' Hq] Hj'. split; [lia|by apply Hbest].
    + intros k' [Hk' Hq]. apply orb_true_iff in Hif as [Hpos|Hplain].
      * split; [lia|]. intros Hnone. destruct (Hnone k); [split; [lia|apply Hkeep; lia]|lia].
      * specialize (Hmost k' ltac:(lia) Hq). split; [lia|]. intros _. exact Hmost.
  - apply orb_false_iff in Hif as [Hk0 Hne]. destruct (keeping_spec (Z.min room u) u w) as (n & -> & Hn & Hnk & Hnm); [lia..|].
    exists n. split; [done|]. split_and!; [lia|intros Hn0; split; [lia|by apply Hnk]| |].
    + intros k' [Hk' Hq] Hj'. specialize (Hbest k' Hk' Hj' Hq). lia.
    + intros k' [Hk' Hq]. specialize (Hnm k' ltac:(lia) Hq). split; [lia|]. intros _. exact Hnm.
Qed.
End chunk.

(** ** A round *)

Lemma rem32_Ok a b : 0 ≤ a ≤ INT32_MAX → 0 < b → rem32 a b = Ok (a mod b).
Proof. intros Ha Hb. unfold rem32. rewrite div32_Ok by done. cbn. by rewrite Z.rem_mod_nonneg by lia. Qed.

Lemma floor_page a P : 0 ≤ a → 0 < P → 0 ≤ a / P * P ≤ a ∧ a < a / P * P + P.
Proof. intros Ha HP. pose proof (Z.div_mod a P). pose proof (Z.mod_pos_bound a P HP). pose proof (Z.div_pos a P Ha HP). nia. Qed.

(** A chunk is only shortened, to the boundary or short of it; one that spans the
    boundary starts whole pages before it. *)
Lemma toward_spec cp first_pos n junction most P :
  0 ≤ first_pos → 0 < n → first_pos + n ≤ INT32_MAX → 0 < P → 0 ≤ cp ≤ INT32_MAX → 0 < most →
  ∃ n', chunkTowardInForwardCheckpoint cp first_pos n junction most P = Ok n' ∧ 0 < n' ≤ n ∧
    (n' = n ∨ first_pos + n' ≤ cp) ∧ (first_pos < cp → first_pos + n' ≤ cp ∨ (n' = n ∧ (P | cp - first_pos))) ∧
    (0 < cp - (first_pos + n) < most → ¬ (first_pos + n ≤ junction < cp) → first_pos < (first_pos + n) / P * P →
     (P | first_pos + n')).
Proof.
  intros Hp Hn He HP Hc Hm. unfold chunkTowardInForwardCheckpoint. rewrite i32_Ok by (unfold INT32_MIN; lia). cbn [mbind result_bind].
  set (stop := first_pos + n) in *. destruct ((cp <=? first_pos) || (stop =? cp) || (most <=? cp - stop)) eqn:Hif.
  { exists n. split_and!; [done|lia..]. }
  destruct (Z.ltb_spec stop cp) as [Hlt|Hge].
  - destruct (Z.leb_spec stop junction), (Z.ltb_spec junction cp); cbn [andb];
      [by exists n; split_and!; [done|lia..]|..];
      (rewrite div32_Ok by lia; cbn [mbind result_bind]; pose proof (floor_page stop P) as Hf;
       rewrite i32_Ok by (unfold INT32_MIN; lia); cbn [mbind result_bind];
       destruct (Z.ltb_spec first_pos (stop / P * P)); (eexists; split; [reflexivity|]); split_and!; try lia;
       intros _ _ _; exists (stop / P); lia).
  - rewrite rem32_Ok by lia. cbn [mbind result_bind]. destruct (Z.eqb_spec ((cp - first_pos) mod P) 0) as [E|E].
    + exists n. split_and!; [done|lia..| |lia]. intros _. right. split; [done|]. by apply Z.mod_divide; [lia|].
    + exists (cp - first_pos). split_and!; [done|lia..].
Qed.

Section round.
Context (config : SchedulerConfig.t) (coordinator : CacheCoordinator).
Let w := replay_window_tokens_ coordinator.
Let P := prefix_granularity_ coordinator.
Let most := SchedulerConfig.max_scheduled_tokens config.
Context (Hw : 0 ≤ replay_window_tokens_ coordinator ≤ INT32_MAX) (HP : 0 < prefix_granularity_ coordinator).
Context (Hmost : 0 < SchedulerConfig.max_scheduled_tokens config) (Hreplay : 0 ≤ SchedulerConfig.prefix_replay_tokens config).

(** The tokens a resumed prompt would compute again after the checkpoint. *)
Definition replay_tail : Z := Z.max (Z.max 1 (replay_window_tokens_ coordinator)) (SchedulerConfig.prefix_replay_tokens config).

(** The checkpoint is the last page boundary before the replay tail of a prompt longer
    than a chunk, if there is one. *)
Definition checkpoint_ok (prompt cp : Z) : Prop :=
  0 ≤ cp ∧ (P | cp) ∧ (0 < cp → cp + replay_tail ≤ prompt < cp + replay_tail + P ∧ most < prompt).

Lemma checkpoint_spec prompt :
  0 ≤ prompt ≤ INT32_MAX → ∃ cp, inForwardStateCheckpoint config coordinator prompt = Ok cp ∧ checkpoint_ok prompt cp.
Proof.
  intros Hprompt. unfold inForwardStateCheckpoint.
  assert (checkpoint_ok prompt 0) as H0 by (split_and!; [done|apply Z.divide_0_r|lia]).
  destruct (_ || _ || _) eqn:Hoff; [by exists 0|]. unfold PrefillStateCheckpointTokens. pass_check lia. cbn zeta.
  unfold ReplayWindowTokens. fold replay_tail. destruct ((_ <=? _) || _) eqn:Hshort; [by exists 0|].
  destruct (has_state_group coordinator); [|by exists 0]. fold P. fold P in HP.
  assert (0 < replay_tail) by (unfold replay_tail; lia). rewrite div32_Ok by lia. cbn [mbind result_bind].
  pose proof (floor_page (prompt - replay_tail) P) as Hf. rewrite i32_Ok by (unfold INT32_MIN; lia).
  eexists. split; [reflexivity|]. split_and!; [lia|apply Z.divide_factor_r|]. intros _. unfold most. lia.
Qed.

(** What a chunk of a round is: [n] new tokens from [first_pos], writing the checkpoint or
    not. *)
Definition round_ok (prompt cp first_pos : Z) (resumes : bool) (remaining junction n : Z) (writes : bool) : Prop :=
  0 < n ≤ prompt - first_pos ∧
  n + replayed coordinator resumes first_pos ≤ remaining ∧ keeps_window (prompt - first_pos) w n ∧
  (first_pos < junction → first_pos + n ≤ junction ∨ prompt - w < junction) ∧
  (first_pos < cp → first_pos + n ≤ cp ∨ writes = true) ∧
  (writes = true → first_pos < cp < first_pos + n ∧ (P | cp - first_pos)).

(** A round that serves the request: budget for the least chunk, and the pages of a chunk
    without the checkpoint. *)
Definition serves (least : Z) (round : Z * (Z → bool → bool)) : Prop :=
  Z.max 1 least ≤ round.1 ∧ ∀ n, round.2 n false = true.

Lemma writes_spec cp first_pos n :
  0 ≤ first_pos → 0 ≤ n → first_pos + n ≤ INT32_MAX → cp ≤ INT32_MAX →
  ∃ b, writesInForwardCheckpoint cp first_pos n P = Ok b ∧
    (b = true ↔ first_pos < cp < first_pos + n ∧ (P | cp - first_pos)).
Proof.
  intros Hp Hn He Hc. unfold writesInForwardCheckpoint. fold P in HP. destruct (Z.ltb_spec first_pos cp).
  2: { exists false. split; [done|]. split; [done|lia]. }
  rewrite i32_Ok by (unfold INT32_MIN; lia). cbn [mbind result_bind]. destruct (Z.ltb_spec cp (first_pos + n)).
  2: { exists false. split; [done|]. split; [done|lia]. }
  rewrite rem32_Ok by lia. eexists. split; [reflexivity|]. rewrite Z.eqb_eq, (Z.mod_divide (cp - first_pos) P) by lia. naive_solver.
Qed.

(** The chunk the budget of a round allows. *)
Lemma budget_spec prompt first_pos resumes remaining junction :
  0 ≤ first_pos < prompt → prompt ≤ INT32_MAX → 0 ≤ remaining ≤ INT32_MAX → junction ≤ INT32_MAX →
  ∃ n, PrefillChunkTokens coordinator first_pos resumes (prompt - first_pos) remaining junction = Ok n ∧
    chunk_ok coordinator first_pos resumes (prompt - first_pos) remaining junction n ∧
    (0 < remaining → 2 * w ≤ remaining → 0 < n).
Proof.
  intros Hp Hprompt Hr Hj. destruct (chunk_spec coordinator (proj1 Hw) first_pos resumes (prompt - first_pos) remaining junction)
    as (n & Hrun & Hn); [lia..|]. exists n. split; [done|]. split; [done|]. destruct Hn as (_ & _ & _ & Hpos).
  unfold fits_round in Hpos. fold w in Hpos, Hw. intros Hr0 Hr2.
  assert (replayed coordinator resumes first_pos ≤ w) by (unfold replayed, w; destruct resumes; lia).
  set (room' := remaining - replayed coordinator resumes first_pos) in *. unfold keeps_window in Hpos.
  destruct (decide (prompt - first_pos ≤ room')); [apply (Hpos (prompt - first_pos))|apply (Hpos (Z.min room' (prompt - first_pos - w)))]; lia.
Qed.

Lemma round_spec prompt cp first_pos resumes remaining junction admits :
  0 ≤ first_pos < prompt → prompt ≤ INT32_MAX → inForwardStateCheckpoint config coordinator prompt = Ok cp →
  checkpoint_ok prompt cp → 0 ≤ remaining ≤ INT32_MAX → junction ≤ INT32_MAX →
  match prefill_round config coordinator prompt first_pos resumes remaining junction admits with
  | Ok (Some (n, writes)) => admits n writes = true ∧ round_ok prompt cp first_pos resumes remaining junction n writes
  | Ok None => ¬ serves (2 * w) (remaining, admits)
  | Raise _ => False
  end.
Proof.
  intros Hp Hprompt Hcp (Hc0 & HcP & Hct) Hr Hj. unfold prefill_round, round_ok, serves. rewrite i32_Ok by (unfold INT32_MIN; lia).
  cbn [mbind result_bind]. destruct (budget_spec prompt first_pos resumes remaining junction)
    as (n & -> & Hchunk & Hlive); [done..|]. pose proof (chunk_junction coordinator (proj1 Hw) _ _ _ _ _ _ Hchunk) as Hjn.
  destruct Hchunk as (Hn & Hfit & _). unfold fits_round in Hfit. fold w in Hfit, Hjn, Hlive, Hw. cbn [mbind result_bind].
  destruct (Z.eqb_spec n 0) as [->|Hn0]; [cbn [fst snd]; intros [Hs _]; lia|]. rewrite Hcp. cbn [mbind result_bind].
  specialize (Hfit ltac:(lia)) as [Hroom Hkw]. assert (cp ≤ INT32_MAX ∧ (0 < cp → cp + w ≤ prompt)) as [Hcm Hcw] by (unfold replay_tail in Hct; fold w in Hct; lia).
  fold most P. fold most in Hmost. fold P in HP.
  destruct (toward_spec cp first_pos n junction most P) as (n' & -> & Hn' & Hcut & Hspan & _); [lia..|]. cbn [mbind result_bind].
  destruct (writes_spec cp first_pos n') as (b & -> & Hb); [lia..|]. cbn [mbind result_bind].
  assert (∀ k, 0 < k ≤ n → k = n ∨ first_pos + k ≤ cp → k + replayed coordinator resumes first_pos ≤ remaining ∧
    keeps_window (prompt - first_pos) w k ∧ (first_pos < junction → first_pos + k ≤ junction ∨ prompt - w < junction)) as Hkeep.
  { intros k Hk Hkc. split; [lia|]. split; [|intros Hlt; specialize (Hjn ltac:(lia) Hlt); lia].
    destruct Hkc as [->|Hkc]; [done|]. right. specialize (Hcw ltac:(lia)). lia. }
  assert (first_pos < cp → first_pos + n' ≤ cp ∨ b = true) as Hcross.
  { intros Hlt. destruct (decide (first_pos + n' ≤ cp)); [by left|right]. apply Hb. destruct (Hspan Hlt) as [?|[-> ?]]; [lia|]. split; [lia|done]. }
  destruct (b && admits n' true) eqn:Hwith.
  - apply andb_true_iff in Hwith as [-> Hadm]. split; [done|]. destruct (Hkeep n' ltac:(lia) ltac:(lia)) as (? & ? & ?).
    split_and!; try done; [lia..|by intros _; apply Hb].
  - clear Hwith. set (m := if b then cp - first_pos else n').
    assert (0 < m ≤ n ∧ (m = n ∨ first_pos + m ≤ cp) ∧ (first_pos < cp → first_pos + m ≤ cp)) as (Hm & Hmc & Hmx).
    { unfold m. destruct b; [destruct (proj1 Hb eq_refl); lia|]. split; [lia|]. split; [lia|]. intros Hlt. by destruct (Hcross Hlt). }
    destruct (admits m false) eqn:Hadm; [|intros [_ Hall]; cbn [snd] in Hall; congruence].
    split; [done|]. destruct (Hkeep m Hm Hmc) as (? & ? & ?).
    clear Hcross Hkeep Hspan Hcut Hct Hcw. split_and!; try done; [lia..|]. intros Hlt. left. by apply Hmx.
Qed.
End round.

(** ** A whole prompt *)

(** The rounds in which a prompt is scheduled after a hit of [first_pos] tokens, each with
    the budget it leaves to the request and the answers of the coordinator.  A request
    that waits keeps its hit and its junction, which is dropped by the chunk that starts
    at or behind it.  A chunk is its first position, its length and whether it writes the
    checkpoint. *)
Fixpoint prefill_rounds (config : SchedulerConfig.t) (coordinator : CacheCoordinator) (prompt_tokens first_pos : Z)
    (resumes_hit : bool) (junction_tokens : Z) (rounds : list (Z * (Z → bool → bool))) : result (list (Z * Z * bool)) :=
  match rounds with
  | [] => Ok []
  | (remaining, admits) :: rounds =>
      if first_pos <? prompt_tokens then
        scheduled ← prefill_round config coordinator prompt_tokens first_pos resumes_hit remaining junction_tokens admits;
        match scheduled with
        | None => prefill_rounds config coordinator prompt_tokens first_pos resumes_hit junction_tokens rounds
        | Some (n, writes) =>
            let junction_tokens := if negb resumes_hit && (junction_tokens <=? first_pos) then 0 else junction_tokens in
            chunks ← prefill_rounds config coordinator prompt_tokens (first_pos + n) false junction_tokens rounds;
            Ok ((first_pos, n, writes) :: chunks)
        end
      else Ok []
  end.

(** As many of the rounds serve the request. *)
Fixpoint served (least : Z) (k : nat) (rounds : list (Z * (Z → bool → bool))) : Prop :=
  match k, rounds with
  | O, _ => True
  | S k, [] => False
  | S k', round :: rounds => (serves least round ∧ served least k' rounds) ∨ served least k rounds
  end.

Lemma served_mono least least' k rounds : least' ≤ least → served least k rounds → served least' k rounds.
Proof.
  intros Hle. revert k. induction rounds as [|round rounds IH]; intros [|k]; cbn; try done.
  intros [[[Hb Ha] Hs]|Hs]; [left|right]; [|by apply IH]. split; [split; [lia|done]|by apply IH].
Qed.

Lemma served_less least k k' rounds : (k' ≤ k)%nat → served least k rounds → served least k' rounds.
Proof.
  revert k k'. induction rounds as [|round rounds IH]; intros [|k] [|k'] Hle; try (exfalso; lia); try done.
  cbn. intros [[Hr Hs]|Hs].
  - left. split; [done|]. apply (IH k k'); [lia|done].
  - right. apply (IH (S k) (S k')); [lia|done].
Qed.

Lemma served_tail least k round rounds : served least (S k) (round :: rounds) → served least k rounds.
Proof. cbn. intros [[_ Hs]|Hs]; [done|]. eapply served_less; [|exact Hs]. lia. Qed.

(** Chunks that follow each other from [first_pos] to [stop]. *)
Fixpoint consecutive (first_pos stop : Z) (chunks : list (Z * Z * bool)) : Prop :=
  match chunks with
  | [] => first_pos = stop
  | (start, n, _) :: chunks => start = first_pos ∧ 0 < n ∧ consecutive (first_pos + n) stop chunks
  end.

(** A chunk ends with the prompt or leaves the last [w] tokens together, and writes the
    checkpoint [cp] only from whole pages before it. *)
Definition sound_chunk (prompt w cp P : Z) (c : Z * Z * bool) : Prop :=
  let '(start, n, writes) := c in
  (start + n = prompt ∨ start + n + w ≤ prompt) ∧ (writes = true → start < cp < start + n ∧ (P | cp - start)).

(** The checkpoint is written by a chunk or is where one ends. *)
Definition leaves_checkpoint (cp : Z) (c : Z * Z * bool) : Prop := let '(start, n, writes) := c in start + n = cp ∨ writes = true.

Section run.
Context (config : SchedulerConfig.t) (coordinator : CacheCoordinator).
Let w := replay_window_tokens_ coordinator.
Let P := prefix_granularity_ coordinator.
Context (Hw : 0 ≤ replay_window_tokens_ coordinator ≤ INT32_MAX) (HP : 0 < prefix_granularity_ coordinator).
Context (Hmost : 0 < SchedulerConfig.max_scheduled_tokens config) (Hreplay : 0 ≤ SchedulerConfig.prefix_replay_tokens config).
Context (prompt cp : Z) (Hprompt : prompt ≤ INT32_MAX).
Context (Hcp : inForwardStateCheckpoint config coordinator prompt = Ok cp) (Hcok : checkpoint_ok config coordinator prompt cp).

(** What the rounds have done: consecutive sound chunks up to [stop]. *)
Lemma rounds_spec rounds first_pos resumes junction :
  0 ≤ first_pos ≤ prompt → junction ≤ INT32_MAX → Forall (λ r, 0 ≤ r.1 ≤ INT32_MAX) rounds →
  ∃ chunks stop, prefill_rounds config coordinator prompt first_pos resumes junction rounds = Ok chunks ∧
    first_pos ≤ stop ≤ prompt ∧ consecutive first_pos stop chunks ∧ Forall (sound_chunk prompt w cp P) chunks ∧
    (first_pos < cp ≤ stop → Exists (leaves_checkpoint cp) chunks) ∧
    (served (2 * w) (Z.to_nat (prompt - first_pos)) rounds → stop = prompt).
Proof.
  revert first_pos resumes junction. induction rounds as [|[remaining admits] rounds IH]; intros first_pos resumes junction Hp Hj Hall.
  { exists [], first_pos. cbn. split_and!; try done; [lia..|]. destruct (Z.to_nat (prompt - first_pos)) eqn:E; [lia|done]. }
  apply Forall_cons in Hall as [Hr Hall]. cbn [fst] in Hr. cbn [prefill_rounds].
  destruct (Z.ltb_spec first_pos prompt) as [Hlt|Hge].
  2: { exists [], first_pos. cbn [consecutive]. split_and!; try done; lia. }
  pose proof (round_spec config coordinator Hw HP Hmost prompt cp first_pos resumes remaining junction admits) as Hround.
  specialize (Hround ltac:(lia) Hprompt Hcp Hcok Hr Hj). fold w in Hround.
  destruct (prefill_round _ _ _ _ _ _ _ _) as [[[n writes]|]|]; [| |done]; cbn [mbind result_bind].
  - destruct Hround as (_ & Hn & _ & Hk & _ & Hspan & Hwr). fold w in Hk. fold P in Hwr.
    set (junction' := if negb resumes && (junction <=? first_pos) then 0 else junction).
    assert (junction' ≤ INT32_MAX) by (unfold junction'; destruct (_ && _); unfold INT32_MAX in *; lia).
    destruct (IH (first_pos + n) false junction') as (chunks & stop & Heq & Hs & Hc & Hsnd & Hcp' & Hdone); [lia|done..|].
    rewrite Heq. exists ((first_pos, n, writes) :: chunks), stop. cbn [mbind result_bind consecutive]. split_and!; try done; [lia..| | |].
    + constructor; [|done]. split; [|done]. unfold keeps_window in Hk. lia.
    + intros Hin. destruct (Hspan ltac:(lia)) as [Hle|Hw']; [|by left; right].
      destruct (decide (first_pos + n = cp)); [by left; left|right]. apply Hcp'. lia.
    + intros Hserved. apply Hdone. replace (Z.to_nat (prompt - first_pos)) with (S (Z.to_nat (prompt - first_pos - 1))) in Hserved by lia.
      apply served_tail in Hserved. eapply served_less; [|exact Hserved]. lia.
  - destruct (IH first_pos resumes junction) as (chunks & stop & Heq & Hs & Hc & Hsnd & Hcp' & Hdone); [done..|].
    exists chunks, stop. split_and!; try done; [lia..|]. intros Hserved. apply Hdone.
    destruct (Z.to_nat (prompt - first_pos)) as [|k] eqn:E; [lia|]. destruct Hserved as [[Hserves _]|Hserved]; [done|exact Hserved].
Qed.
End run.

(** ** The scheduler's prompts *)

Lemma replay_window_nonneg groups : 0 ≤ replay_window groups.
Proof.
  unfold replay_window. match goal with |- 0 ≤ foldl ?f 0 _ => assert (∀ z, 0 ≤ z → 0 ≤ foldl f z groups) as H; [|by apply H] end.
  induction groups as [|group groups IH]; intros z Hz; [done|].
  cbn [foldl]. apply IH. destruct (CacheGroupConfig.replayable group); lia.
Qed.

Lemma scheduler_window config s :
  config_valid config → well_formed config s →
  let coordinator := coordinator_ s in
  0 ≤ replay_window_tokens_ coordinator ≤ INT32_MAX ∧ 0 < prefix_granularity_ coordinator ∧
  ∃ least, MinPrefillChunkTokens coordinator = Ok least ∧ least ≤ SchedulerConfig.max_scheduled_tokens config ∧
    2 * replay_window_tokens_ coordinator ≤ least.
Proof.
  intros Hv Hwf. cbn zeta. pose proof (va_capacity _ Hv) as Hc. unfold MinPrefillChunkTokens, ReplayWindowTokens.
  rewrite (wf_window _ _ Hwf), (wf_prefix _ _ Hwf). set (w := replay_window _). pose proof (replay_window_nonneg (SchedulerConfig.cache_groups config)) as H0.
  fold w in H0. pose proof (cv_prefix _ Hc). pose proof (cv_tokens _ Hc). pose proof (cv_replay _ Hc) as Hr. cbn zeta in Hr. fold w in Hr.
  split; [unfold INT32_MAX in *; lia|]. split; [done|]. destruct (Z.ltb_spec 0 w); [|by exists 0; split_and!; [done|lia..]].
  eexists. split; [apply i32_Ok; unfold INT32_MIN; lia|]. lia.
Qed.

(** C15: Whatever budget a round leaves, cutting a chunk of a prompt never fails.  The
    chunk is the longest one that fits the budget together with the tokens replayed for
    a hit, does not end inside the prompt's final replay window and does not pass a
    pending junction; when every chunk that fits passes the junction it is the longest of
    those; and there is none only when none that keeps the window fits. *)
Theorem prefill_chunk_exact config s first_pos resumes unscheduled budget junction :
  config_valid config → well_formed config s →
  0 ≤ first_pos → 0 ≤ unscheduled → 0 ≤ budget ≤ INT32_MAX → junction ≤ INT32_MAX →
  ∃ n, PrefillChunkTokens (coordinator_ s) first_pos resumes unscheduled budget junction = Ok n ∧
    chunk_ok (coordinator_ s) first_pos resumes unscheduled budget junction n.
Proof. intros Hv Hwf ? ? ? ?. destruct (scheduler_window config s Hv Hwf) as ([? ?] & _). by apply chunk_spec. Qed.

(** C13: Scheduling a prompt never fails and loses nothing: whatever budgets the rounds
    leave and whichever admissions are refused, the chunks follow each other from the
    hit, none splits the prompt's final replay window, and a state checkpoint that is
    passed is the end of a chunk or written by one that starts whole pages before it.  A
    refused round only waits: the prompt is complete after as many rounds as it has
    tokens left that leave the minimum chunk (which the validated budget of a round
    covers) and in which a chunk without the checkpoint's block is admitted, however
    many rounds between them do not. *)
Theorem prefill_completes config s prompt hit junction :
  config_valid config → well_formed config s → 0 ≤ hit ≤ prompt → prompt ≤ INT32_MAX → junction ≤ INT32_MAX →
  ∃ least, MinPrefillChunkTokens (coordinator_ s) = Ok least ∧ least ≤ SchedulerConfig.max_scheduled_tokens config ∧
    ∀ rounds, Forall (λ r, 0 ≤ r.1 ≤ INT32_MAX) rounds →
    ∃ chunks cp stop, prefill_rounds config (coordinator_ s) prompt hit true junction rounds = Ok chunks ∧
      inForwardStateCheckpoint config (coordinator_ s) prompt = Ok cp ∧
      hit ≤ stop ≤ prompt ∧ consecutive hit stop chunks ∧
      Forall (sound_chunk prompt (replay_window_tokens_ (coordinator_ s)) cp (prefix_granularity_ (coordinator_ s))) chunks ∧
      (hit < cp ≤ stop → Exists (leaves_checkpoint cp) chunks) ∧
      (served least (Z.to_nat (prompt - hit)) rounds → stop = prompt).
Proof.
  intros Hv Hwf Hhit Hp Hj. destruct (scheduler_window config s Hv Hwf) as (Hw & HP & least & Hleast & Hle & H2).
  exists least. split; [done|]. split; [done|]. intros rounds Hr.
  pose proof (cv_tokens _ (va_capacity _ Hv)) as Hm. pose proof (va_prefix_replay _ Hv) as Hpr.
  destruct (checkpoint_spec config (coordinator_ s) HP Hm Hpr prompt) as (cp & Hcp & Hok); [lia|].
  destruct (rounds_spec config (coordinator_ s) Hw HP Hm prompt cp Hp Hcp Hok rounds hit true junction)
    as (chunks & stop & Heq & Hs & Hc & Hsnd & Hex & Hdone); [lia|done..|].
  exists chunks, cp, stop. split_and!; try done; [lia..|]. intros Hserved. apply Hdone. by eapply served_mono.
Qed.

(** The window and the pages of the scheduler built for [some_config]. *)
Lemma some_coordinator s :
  well_formed some_config s → replay_window_tokens_ (coordinator_ s) = 100 ∧ prefix_granularity_ (coordinator_ s) = 64.
Proof. intros Hwf. by rewrite (wf_window _ _ Hwf), (wf_prefix _ _ Hwf). Qed.

Lemma prefill_chunk_exact_witness :
  ∃ s n, Scheduler_new some_config = Ok s ∧ PrefillChunkTokens (coordinator_ s) 64 true 240 230 0 = Ok n ∧ n = 140.
Proof.
  destruct some_scheduler as (s & Hnew & Hwf).
  destruct (prefill_chunk_exact some_config s 64 true 240 230 0) as (n & Hn & Hpos & Hfit & Hbest & _);
    [exact some_config_valid|exact Hwf|unfold INT32_MAX; lia..|].
  exists s, n. split; [exact Hnew|]. split; [exact Hn|]. destruct (some_coordinator s Hwf) as [Hw _].
  unfold fits_round, before_junction, keeps_window, replayed in Hfit, Hbest. rewrite Hw in Hfit, Hbest.
  destruct (Hbest 140) as [_ Hle]; [lia|lia|]. specialize (Hfit ltac:(lia)). lia.
Defined.

(** Rounds that alternate between one that refuses everything and one that has no block
    for a checkpoint. *)
Lemma prefill_completes_witness :
  let rounds := mjoin (replicate 536 [(500, λ _ _, false); (200, λ _ checkpoint, negb checkpoint)]) in
  ∃ s chunks, Scheduler_new some_config = Ok s ∧
    prefill_rounds some_config (coordinator_ s) 600 64 true 0 rounds = Ok chunks ∧ consecutive 64 600 chunks.
Proof.
  intros rounds. destruct some_scheduler as (s & Hnew & Hwf).
  destruct (prefill_completes some_config s 600 64 0) as (least & Hleast & _ & Hrun);
    [exact some_config_valid|exact Hwf|unfold INT32_MAX; lia..|].
  assert (least = 200) as ->.
  { destruct (some_coordinator s Hwf) as [Hw HP]. clear Hrun. revert Hleast. unfold MinPrefillChunkTokens, ReplayWindowTokens.
    rewrite Hw, HP. cbn. by intros [= <-]. }
  assert (∀ k, Forall (λ r : Z * (Z → bool → bool), 0 ≤ r.1 ≤ INT32_MAX)
      (mjoin (replicate k [(500, λ _ _, false); (200, λ _ checkpoint, negb checkpoint)])) ∧
    served 200 k (mjoin (replicate k [(500, λ _ _, false); (200, λ _ checkpoint, negb checkpoint)]))) as Hall.
  { induction k as [|k [IH1 IH2]]; [split; [constructor|exact I]|]. split.
    - constructor; [cbn; unfold INT32_MAX; lia|]. constructor; [cbn; unfold INT32_MAX; lia|exact IH1].
    - right. left. split; [split; [cbn; lia|reflexivity]|exact IH2]. }
  destruct (Hall 536%nat) as [Hbudget Hserved].
  destruct (Hrun rounds Hbudget) as (chunks & cp & stop & Hchunks & _ & _ & Hc & _ & _ & Hdone).
  rewrite (Hdone Hserved) in Hc. exists s, chunks. split; [exact Hnew|]. split; [exact Hchunks|exact Hc].
Defined.

(** ** What the groups are asked for *)

(** A history group is asked for the tokens of the chunk and holds the decode step in
    reserve; a window never holds more than it looks back, nor more than a group that
    keeps all history would.  A state group is asked for its step alone. *)
Definition demand_ok (tokens : Z) (step : GroupExtent) (reserve : PrefillReserve) (group : CacheGroupConfig.t) (d : GroupDemand) : Prop :=
  match CacheGroupConfig.attn_kind group with
  | kState => d = mkDemand step 0
  | kFull => d = mkDemand (DenseGrowth tokens) (Z.max (DecodeTokens reserve) (prompt_headroom_tokens reserve))
  | kSlidingWindow =>
      extent d = DenseGrowth tokens ∧ DecodeTokens reserve ≤ reserve_tokens d ∧
      reserve_tokens d ≤ Z.max (DecodeTokens reserve)
        (Z.min (prompt_headroom_tokens reserve) (Z.max 0 (default 0 (CacheGroupConfig.sliding_window_tokens group) - 1)))
  end.

Lemma reserve_spec tokens step reserve group :
  0 ≤ default 0 (CacheGroupConfig.sliding_window_tokens group) + CacheGroupConfig.block_granularity group ≤ INT32_MAX →
  0 ≤ default 0 (CacheGroupConfig.sliding_window_tokens group) ≤ INT32_MAX → 0 ≤ CacheGroupConfig.block_granularity group →
  ∃ n, groupReserveTokens group reserve = Ok n ∧
    demand_ok tokens step reserve group
      (mkDemand (if decide (CacheGroupConfig.attn_kind group = kState) then step else DenseGrowth tokens) n).
Proof.
  intros Hwin Hw Hg. unfold groupReserveTokens, demand_ok. destruct (CacheGroupConfig.attn_kind group); [by eexists| |by eexists].
  unfold INT32_MAX in *. set (w := default 0 _) in *. rewrite i32_Ok by (unfold INT32_MIN, INT32_MAX; lia). cbn [mbind result_bind].
  set (hit := if CacheGroupConfig.replayable group then _ else _).
  assert (∃ b, hit = Ok b) as [b ->].
  { subst hit. destruct (CacheGroupConfig.replayable group); [by eexists|]. rewrite i32_Ok by (unfold INT32_MIN, INT32_MAX; lia). by eexists. }
  cbn [mbind result_bind]. eexists. split; [reflexivity|]. cbn. split; [done|]. lia.
Qed.

Lemma demands_spec tokens step reserve groups :
  Forall (λ group, 0 ≤ default 0 (CacheGroupConfig.sliding_window_tokens group) ∧ 0 ≤ CacheGroupConfig.block_granularity group ∧
    default 0 (CacheGroupConfig.sliding_window_tokens group) + CacheGroupConfig.block_granularity group ≤ INT32_MAX) groups →
  0 ≤ decode_input_tokens reserve → 0 ≤ prompt_headroom_tokens reserve →
  ∃ ds, ReservePrefillDemands ((λ group, if decide (CacheGroupConfig.attn_kind group = kState) then mkDemand step 0
      else mkDemand (DenseGrowth tokens) 0) <$> groups) groups reserve = Ok ds ∧ Forall2 (demand_ok tokens step reserve) groups ds.
Proof.
  intros Hall Hd Hh. unfold ReservePrefillDemands. pass_check ltac:(by rewrite length_fmap, Nat.eqb_refl). pass_check lia.
  induction Hall as [|group groups (H1 & H2 & H3) Hall IH]; [by exists []|].
  destruct IH as (ds & Hds & HF). destruct (reserve_spec tokens step reserve group) as (n & Hn & Hok); [lia..|].
  eexists (_ :: ds). split; [|constructor; [exact Hok|exact HF]]. apply mapM_Ok. cbn [fmap list_fmap zip zip_with]. constructor.
  - cbn [fst snd]. rewrite Hn. by destruct (decide (CacheGroupConfig.attn_kind group = kState)).
  - by apply mapM_Ok.
Qed.

(** The demands of a prefill chunk can always be formed for a validated
    configuration, one per cache group and by its kind: no window holds more in reserve
    than the tokens it looks back and the prompt headroom, none less than the decode
    step that follows. *)
Theorem prefill_demands_exact config tables tokens step reserve :
  capacity_valid config → length tables = length (SchedulerConfig.cache_groups config) →
  Forall (λ group, default 0 (CacheGroupConfig.sliding_window_tokens group) + CacheGroupConfig.block_granularity group ≤ INT32_MAX)
    (SchedulerConfig.cache_groups config) →
  0 ≤ decode_input_tokens reserve → 0 ≤ prompt_headroom_tokens reserve →
  ∃ demands demands', MakeGroupDemands tables (SchedulerConfig.cache_groups config) (mkDemand (DenseGrowth tokens) 0) step = Ok demands ∧
    ReservePrefillDemands demands (SchedulerConfig.cache_groups config) reserve = Ok demands' ∧
    Forall2 (demand_ok tokens step reserve) (SchedulerConfig.cache_groups config) demands'.
Proof.
  intros Hcv Hlen Hint Hd Hh. destruct (demands_spec tokens step reserve (SchedulerConfig.cache_groups config)) as (ds & Hds & HF); try done.
  - pose proof (cv_groups _ Hcv) as Hg. rewrite Forall_forall in Hg, Hint |- *. intros group Hin. specialize (Hint group Hin).
    pose proof (gv_span _ _ (Hg group Hin)) as Hs. pose proof (gv_window _ _ (Hg group Hin)) as Hw.
    split; [|split; [|done]].
    + destruct (decide _) in Hw; [destruct Hw as (w & -> & ?); cbn; lia|by rewrite Hw].
    + destruct (decide _) in Hs; lia.
  - eexists _, ds. split; [|by split]. unfold MakeGroupDemands. by pass_check ltac:(by rewrite Hlen, Nat.eqb_refl).
Qed.

Lemma prefill_demands_exact_witness :
  let reserve := mkReserve 1 true 40 0 0 0 in
  ∃ demands demands', MakeGroupDemands (replicate 3 empty_table) (SchedulerConfig.cache_groups some_config)
      (mkDemand (DenseGrowth 128) 0) (StateStep kRotate false) = Ok demands ∧
    ReservePrefillDemands demands (SchedulerConfig.cache_groups some_config) reserve = Ok demands' ∧
    demands' = [mkDemand (DenseGrowth 128) 40; mkDemand (DenseGrowth 128) 1; mkDemand (StateStep kRotate false) 0].
Proof.
  cbn zeta. destruct (prefill_demands_exact some_config (replicate 3 empty_table) 128 (StateStep kRotate false) (mkReserve 1 true 40 0 0 0))
    as (ds & ds' & Hm & Hr & _); [exact some_config_capacity|reflexivity| |done|done|].
  { repeat constructor; unfold INT32_MAX; cbn; lia. }
  exists ds, ds'. split; [exact Hm|]. split; [exact Hr|]. revert Hm. vm_compute (MakeGroupDemands _ _ _ _). intros [= <-].
  revert Hr. vm_compute (ReservePrefillDemands _ _ _). by intros [= <-].
Defined.
