(* ===== verification/Request.v ===== *)
(** * Requests and their state machine

    [csrc/core/token_container.h] and [.cpp], the states and events of [csrc/fsm/]
    ([forward_states.h], [pd_states.h], [storage_states.h], [states.h],
    [forward_events.h] and [.cpp], [pd_events.cpp], [storage_events.h]) and
    [csrc/scheduler/request.h] and [.cpp].

    Every state points to the one token container of its request, which is a field here.
    An event is applied to the state it is moved from: a handler gives the next state and
    what is left in the old one, and [Apply] destroys the rest.  The pointer an event has
    to the coordinator is never null. *)

From stdpp Require Import strings.
From S2P Require Import Prelude PyState Cxx BlockPool BlockRefs ReqPool PrefixHash PrefixIndex.
From S2P Require Import SchedulerConfig GroupGeometry GroupAllocator SchedulerSetup.

Local Open Scope Z_scope.

(** ** Tokens *)

Record Window := mkWindow { begin_ : Z; window_size : Z; replay : Z }.

Record TokenContainer := mkTokens { tokens_ : list Z; num_prefill_tokens_ : Z }.

(** The conversion to [std::int32_t]. *)
Definition wrap32 (z : Z) : Z := let n := z mod 2 ^ 32 in if n <? 2 ^ 31 then n else n - 2 ^ 32.
Definition size32 {A} (l : list A) : Z := wrap32 (Z.of_nat (length l)).

Definition TokenContainer_new (new_tokens : list Z) : TokenContainer := mkTokens new_tokens (size32 new_tokens).

Definition Extend (new_tokens : list Z) (self : TokenContainer) : TokenContainer :=
  mkTokens (tokens_ self ++ new_tokens) (num_prefill_tokens_ self).

Definition TokenSize (self : TokenContainer) : Z := size32 (tokens_ self).
Definition PrefillSize (self : TokenContainer) : Z := num_prefill_tokens_ self.

(** A view of tokens; one past the end must not be read. *)
Definition slice (l : list Z) (start size : Z) : result (list Z) :=
  if (0 <=? start) && (0 <=? size) && (start + size <=? Z.of_nat (length l))
  then Ok (take (Z.to_nat size) (drop (Z.to_nat start) l))
  else Raise (Undefined "span outside the tokens").

Definition TokenSlice (window : Window) (self : TokenContainer) : result (list Z) :=
  slice (tokens_ self) (begin_ window) (window_size window).

Definition LastToken (self : TokenContainer) : result Z := lookup_or (Undefined "back of an empty vector") (last (tokens_ self)).

Definition FullPrefixPages (prefix_granularity : Z) (except_last : bool) (self : TokenContainer) : result (list (list Z)) :=
  if (length (tokens_ self) =? 0)%nat then Ok []
  else
    let token_size := wrap32 (Z.of_nat (length (tokens_ self)) - if except_last then 1 else 0) in
    num_full_pages ← div32 token_size prefix_granularity;
    raise_when (num_full_pages <? 0) (ValueError "vector::reserve");;
    mapM (λ i, slice (tokens_ self) (i * prefix_granularity) prefix_granularity) (seqZ 0 num_full_pages).

(** ** What a state owns *)

Inductive PrefillSource := kLocal | kRemote.

Record TailPublication := mkTail { tail_tokens : Z; tail_hash : string }.

Record CacheProgress := mkProgress {
  prefix_hashes : list string;
  access_epoch : Z;
  junction_tokens : Z;
  state_checkpoint_tokens : Z;
  state_checkpoint_blocks : list CacheBlockRef;
  published_state_checkpoint_blocks : list CacheBlockRef;
}.

Record StorageReadyHold := mkHold { hold_operation_id : Z; hold_deadline_us : Z }.

Record AdmissionResources := mkAdmission {
  admission_granularity : Z;
  storage_prepared : bool;
  storage_hold : option StorageReadyHold;
}.

Record ForwardResources := mkResources {
  resources_granularity : Z;
  req_pool_index : ReqPoolIndex;
  block_tables : list BlockTable;
  cache_progress : CacheProgress;
  results_in_flight : Z;
}.

Record HostPublication := mkPublication { publication_key : CacheKey; publication_block : CacheBlockRef }.

(** [RetractionImage] *)
Definition RetractionImage : Type := list ImageTable.

Inductive ResumeShape :=
  | ResumePrefilling (window : Window) (reserve : Z)
  | ResumePrefillDone (window : Window) (reserve : Z)
  | ResumeDecoding (reserve : Z).

Record RetractedState := mkRetracted {
  retracted_granularity : Z;
  retracted_progress : CacheProgress;
  retracted_image : RetractionImage;
  retracted_blob : option nat;
  retracted_shape : ResumeShape;
  retraction_epoch : Z;
  resumes_generation : bool;
  pending_store_ops : list Z;
}.

Record RestoringState := mkRestoring {
  restoring_resources : ForwardResources;
  restoring_image : RetractionImage;
  restoring_blob : option nat;
  restoring_shape : ResumeShape;
  restore_op : Z;
}.

Record PrefetchWait := mkWait {
  wait_operation_id : Z;
  wait_deadline_us : Z;
  wait_hashes : list string;
  wait_max_tokens : Z;
  wait_tail : option TailPublication;
}.

(** [Prefetching] holds the state it continues in: bootstrapping or submitted. *)
Inductive State :=
  | Bootstrapping (admission : AdmissionResources)
  | Submitted (admission : AdmissionResources)
  | Prefetching (awaits_bootstrap : bool) (admission : AdmissionResources) (wait : PrefetchWait)
  | Prefilling (resources : ForwardResources) (window : Window) (reserve : Z)
  | RemotePrefilling (resources : ForwardResources) (window : Window) (reserve : Z)
  | PrefillAwaitingResult (resources : ForwardResources) (window : Window) (reserve : Z)
  | PrefillDone (resources : ForwardResources) (window : Window) (reserve : Z) (resumed_by_restore : bool)
  | Decoding (resources : ForwardResources) (reserve : Z) (resumed_by_restore : bool)
  | Retracted (state : RetractedState)
  | Restoring (state : RestoringState)
  | Finishing (resources : ForwardResources)
  | Finished.

(** The member [resources] of the states that have one. *)
Definition resources_of (state : State) : option ForwardResources :=
  match state with
  | Prefilling r _ _ | RemotePrefilling r _ _ | PrefillAwaitingResult r _ _ | PrefillDone r _ _ _ | Decoding r _ _ | Finishing r => Some r
  | Restoring s => Some (restoring_resources s)
  | _ => None
  end.

Definition set_resources (r : ForwardResources) (state : State) : State :=
  match state with
  | Prefilling _ w n => Prefilling r w n
  | RemotePrefilling _ w n => RemotePrefilling r w n
  | PrefillAwaitingResult _ w n => PrefillAwaitingResult r w n
  | PrefillDone _ w n b => PrefillDone r w n b
  | Decoding _ n b => Decoding r n b
  | Finishing _ => Finishing r
  | Restoring s => Restoring (mkRestoring r (restoring_image s) (restoring_blob s) (restoring_shape s) (restore_op s))
  | state => state
  end.

(** What moving from them leaves. *)
Definition moved_progress (p : CacheProgress) : CacheProgress :=
  mkProgress [] (access_epoch p) (junction_tokens p) (state_checkpoint_tokens p) [] [].
Definition moved_resources (r : ForwardResources) : ForwardResources :=
  mkResources (resources_granularity r) moved_from [] (moved_progress (cache_progress r)) (results_in_flight r).

(** ** The machine *)

(** The blocks, the rows of the request pool, the blob slots and the blob slots that are
    shared, each with the number of its owners. *)
Record world := mkWorld {
  memory : heap;
  rows : ReqPoolAllocator;
  blob_slots : ReqPoolAllocator;
  shared_slots : list (Z * ReqPoolIndex);
}.

Definition set_memory (h : heap) (w : world) : world := mkWorld h (rows w) (blob_slots w) (shared_slots w).
Definition set_rows (r : ReqPoolAllocator) (w : world) : world := mkWorld (memory w) r (blob_slots w) (shared_slots w).
Definition set_blobs (b : ReqPoolAllocator) (w : world) : world := mkWorld (memory w) (rows w) b (shared_slots w).
Definition set_shared (l : list (Z * ReqPoolIndex)) (w : world) : world := mkWorld (memory w) (rows w) (blob_slots w) l.

Definition on_memory {A} (m : M heap A) : M world A := within memory set_memory m.
Definition drop_row (index : ReqPoolIndex) : M world () := within rows set_rows (destroy index).

(** The destructor of a [std::shared_ptr] to a slot. *)
Definition drop_shared (slot : option nat) : M world () :=
  match slot with
  | None => mret ()
  | Some n =>
      x ← const (λ w, lookup_or (Undefined "dangling shared_ptr") (shared_slots w !! n));
      if x.1 =? 1 then
        modify (λ w, set_shared (<[n := (0, ReqPoolIndex_default)]> (shared_slots w)) w) ;;
        within blob_slots set_blobs (destroy x.2)
      else modify (λ w, set_shared (<[n := (x.1 - 1, x.2)]> (shared_slots w)) w)
  end.

(** The blocks an object holds, in the order its destructor drops them. *)
Definition table_blocks (tables : list BlockTable) : list CacheBlockRef := tables ≫= blocks_.
Definition image_blocks (image : RetractionImage) : list CacheBlockRef := image ≫= λ t, image_block <$> image_slots t.
Definition progress_blocks (p : CacheProgress) : list CacheBlockRef :=
  published_state_checkpoint_blocks p ++ state_checkpoint_blocks p.
Definition resource_blocks (r : ForwardResources) : list CacheBlockRef :=
  progress_blocks (cache_progress r) ++ table_blocks (block_tables r).

Definition state_blocks (state : State) : list CacheBlockRef :=
  match state with
  | Retracted s => image_blocks (retracted_image s) ++ progress_blocks (retracted_progress s)
  | Restoring s => image_blocks (restoring_image s) ++ resource_blocks (restoring_resources s)
  | state => from_option resource_blocks [] (resources_of state)
  end.
Definition state_row (state : State) : ReqPoolIndex := from_option req_pool_index ReqPoolIndex_default (resources_of state).
Definition state_blob (state : State) : option nat :=
  match state with Retracted s => retracted_blob s | Restoring s => restoring_blob s | _ => None end.

Definition drop_state (state : State) : M world () :=
  drop_shared (state_blob state) ;;
  on_memory (reset_all (state_blocks state)) ;;
  drop_row (state_row state).

(** [CacheCoordinator::Free] and [FreeRequest]; the tables stay, empty. *)
Definition free_table (t : BlockTable) : M world BlockTable := λ w,
  let '(r, (h, t)) := Free (memory w, t) in (r ;; Ok t, set_memory h w).

Fixpoint free_tables (tables : list BlockTable) : M world (list BlockTable) :=
  match tables with
  | [] => mret []
  | t :: tables => t ← free_table t; tables ← free_tables tables; mret (t :: tables)
  end.

Definition CacheCoordinator_Free (coordinator : CacheCoordinator) (tables : list BlockTable) : M world (list BlockTable) :=
  const (λ _, _assert (length tables =? length (groups_ coordinator))%nat "tables/groups size mismatch") ;;
  free_tables tables.

Definition FreeRequest (coordinator : CacheCoordinator) (tables : list BlockTable) : M world (list BlockTable) :=
  match tables with [] => mret [] | _ => CacheCoordinator_Free coordinator tables end.

(** ** Events *)

(** The events with what they hold.  [load_pairs_] of a first chunk is taken by the
    caller and not part of the transition. *)
Inductive Event :=
  | SchedulePrefillFirstChunkEvent (tokens_this_round reserve : Z) (source : PrefillSource) (tables : list BlockTable)
      (hit_tokens : Z) (progress : CacheProgress) (awaits_result : bool)
  | SchedulePrefillEvent (tokens_this_round reserve : Z) (awaits_result : bool)
  | ScheduleDecodeEvent (decode_input_tokens : Z)
  | FinishEvent
  | ReleaseEvent
  | AbortEvent
  | SnapshotRetractEvent (epoch : Z) (resumes : bool) (image : RetractionImage) (blob : option nat) (pending : list Z)
  | StoreLandedEvent (op_id : Z) (published : list HostPublication)
  | ScheduleRestoreEvent (tables : list BlockTable) (op_id : Z)
  | RestoreDoneEvent (index : ReqPoolIndex)
  | UpdateReserveNumTokensEvent (value : Z)
  | ExtendResultEvent (result_tokens : list Z)
  | BootstrappedEvent
  | SucceededEvent
  | RemotePrefillDoneEvent (bootstrap_token : Z)
  | StartPrefetchEvent (wait : PrefetchWait)
  | FinishPrefetchEvent (hold : option StorageReadyHold).

Definition event_blocks (event : Event) : list CacheBlockRef :=
  match event with
  | SchedulePrefillFirstChunkEvent _ _ _ tables _ progress _ => progress_blocks progress ++ table_blocks tables
  | SnapshotRetractEvent _ _ image _ _ => image_blocks image
  | ScheduleRestoreEvent tables _ => table_blocks tables
  | _ => []
  end.
Definition event_row (event : Event) : ReqPoolIndex :=
  match event with RestoreDoneEvent index => index | _ => ReqPoolIndex_default end.
Definition event_blob (event : Event) : option nat :=
  match event with SnapshotRetractEvent _ _ _ blob _ => blob | _ => None end.

Definition drop_event (event : Event) : M world () :=
  drop_shared (event_blob event) ;;
  on_memory (reset_all (event_blocks event)) ;;
  drop_row (event_row event).

(** A transition: the tokens, the next state, and what it leaves in the old one. *)
Definition transition : Type := TokenContainer * State * State.

Definition invalid_transition : M world transition := raise (LogicError "FSM transition invalid").

(** [return std::move(state)], with the tokens as they are. *)
Definition stay (tokens : TokenContainer) (state : State) : M world transition :=
  mret (tokens, state, set_resources (from_option moved_resources (mkResources 0 moved_from [] (mkProgress [] 0 0 0 [] []) 0) (resources_of state)) state).

Definition check_world (r : result ()) : M world () := const (λ _, r).

(** A row in scope while [m] runs, given back when it throws. *)
Definition holding_row {A} (row : ReqPoolIndex) (m : M world A) : M world A := λ w,
  match m w with
  | (Ok a, w) => (Ok a, w)
  | (Raise (Abort e), w) => (Raise (Abort e), w)
  | (Raise (Undefined e), w) => (Raise (Undefined e), w)
  | (Raise e, w) => (Raise e, (drop_row row w).2)
  end.

(** [RetractionImage::FollowPublished] *)
Definition InHostCache (slot : ImageSlot) : bool := negb (bool_decide (content_hash (image_key slot) = ""%string)).

Fixpoint follow_slot (published : list HostPublication) (slot : ImageSlot) : M heap ImageSlot :=
  match published with
  | [] => mret slot
  | entry :: published =>
      slot ← (if decide (publication_key entry = image_key slot ∧ publication_block entry ≠ image_block slot) then
                block ← assign_copy (image_block slot) (publication_block entry);
                mret (mkSlot (image_slot_index slot) block (image_key slot) (image_logical_block_index slot) (image_boundary_kind slot))
              else mret slot);
      follow_slot published slot
  end.

Fixpoint follow_slots (published : list HostPublication) (slots : list ImageSlot) : M heap (list ImageSlot) :=
  match slots with
  | [] => mret []
  | slot :: slots =>
      slot ← (if InHostCache slot then follow_slot published slot else mret slot);
      slots ← follow_slots published slots;
      mret (slot :: slots)
  end.

Fixpoint FollowPublished (published : list HostPublication) (image : RetractionImage) : M heap RetractionImage :=
  match image with
  | [] => mret []
  | t :: image =>
      slots ← follow_slots published (image_slots t);
      image ← FollowPublished published image;
      mret (mkImage (image_num_blocks t) (image_reclaimed_prefix_blocks t) (image_available_tokens t) slots :: image)
  end.

Definition ImageLanded (s : RetractedState) : bool := (length (pending_store_ops s) =? 0)%nat.
Definition WaitsForStore (op_id : Z) (s : RetractedState) : bool := existsb (Z.eqb op_id) (pending_store_ops s).

Section transitions.
Context (coordinator : CacheCoordinator) (tokens : TokenContainer).

(** The states a scheduled chunk leads to. *)
Definition after_chunk (awaits_result : bool) (r : ForwardResources) (window : Window) (reserve : Z) : M world State :=
  stop ← const (λ _, i32 (begin_ window + window_size window));
  if stop =? PrefillSize tokens then
    mret (if awaits_result then PrefillAwaitingResult r window reserve else PrefillDone r window reserve false)
  else mret (Prefilling r window reserve).

Definition schedule_first_chunk (tokens_this_round reserve : Z) (source : PrefillSource) (tables : list BlockTable)
    (hit_tokens : Z) (progress : CacheProgress) (awaits_result : bool) (state : State) : M world transition :=
  match state with
  | Submitted a =>
      check_world (_assert (length tables =? length (groups_ coordinator))%nat
        "SchedulePrefillFirstChunkEvent requires one admitted table per cache group") ;;
      row ← within rows set_rows Allocate;
      let r := mkResources (admission_granularity a) row tables progress 0 in
      replayed ← holding_row row (match source with kLocal => const (λ _, ReplayTokens hit_tokens coordinator) | kRemote => mret 0 end);
      let window := mkWindow hit_tokens tokens_this_round replayed in
      next ← (match source with
              | kRemote => mret (RemotePrefilling r window reserve)
              | kLocal => after_chunk awaits_result r window reserve
              end);
      mret (tokens, next, state)
  | _ => invalid_transition
  end.

Definition schedule_chunk (tokens_this_round reserve : Z) (awaits_result : bool) (state : State) : M world transition :=
  match state with
  | Prefilling r window _ =>
      start ← const (λ _, i32 (begin_ window + window_size window));
      next ← after_chunk awaits_result r (mkWindow start tokens_this_round 0) reserve;
      mret (tokens, next, set_resources (moved_resources r) state)
  | _ => invalid_transition
  end.

Definition schedule_decode (decode_input_tokens : Z) (state : State) : M world transition :=
  match state with
  | PrefillDone r _ _ _ | PrefillAwaitingResult r _ _ | Decoding r _ _ =>
      mret (tokens, Decoding r decode_input_tokens false, set_resources (moved_resources r) state)
  | _ => invalid_transition
  end.

(** [abortForward], [ReleaseEvent] and [FinishEvent] on a restore: the pages go back. *)
Definition free_pages (r : ForwardResources) (state : State) : M world transition :=
  tables ← FreeRequest coordinator (block_tables r);
  mret (tokens, Finished, set_resources (mkResources (resources_granularity r) (req_pool_index r) tables (cache_progress r) (results_in_flight r)) state).

Definition finish_request (state : State) : M world transition :=
  match state with
  | PrefillDone r _ _ _ | PrefillAwaitingResult r _ _ | Decoding r _ _ =>
      mret (tokens, Finishing r, set_resources (moved_resources r) state)
  | Retracted _ => mret (tokens, Finished, state)
  | Restoring s => free_pages (restoring_resources s) state
  | Finishing _ | Finished => stay tokens state
  | _ => invalid_transition
  end.

Definition release_pages (state : State) : M world transition :=
  match state with
  | Finishing r =>
      check_world (_assert (results_in_flight r =? 0) "a request is released only once its forwards have landed") ;;
      free_pages r state
  | _ => invalid_transition
  end.

Definition abort (state : State) : M world transition :=
  match state with
  | Bootstrapping _ | Submitted _ | Prefetching _ _ _ | Retracted _ => mret (tokens, Finished, state)
  | Finished => stay tokens state
  | Prefilling r _ _ | RemotePrefilling r _ _ | PrefillDone r _ _ _ | PrefillAwaitingResult r _ _ | Decoding r _ _ | Finishing r =>
      free_pages r state
  | Restoring s => free_pages (restoring_resources s) state
  end.

(** The reserve of a decoding request, which checks it. *)
Definition decoding_reserve (reserve : Z) : result Z := _assert (0 <=? reserve) "Assertion failed";; Ok reserve.

Definition retract (epoch : Z) (resumes : bool) (image : RetractionImage) (blob : option nat) (pending : list Z)
    (r : ForwardResources) (shape : ResumeShape) (state : State) : M world transition :=
  check_world (_assert (results_in_flight r =? 0) "a retraction victim must be quiescent") ;;
  tables ← FreeRequest coordinator (block_tables r);
  mret (tokens, Retracted (mkRetracted (resources_granularity r) (cache_progress r) image blob shape epoch resumes pending),
        set_resources (mkResources (resources_granularity r) (req_pool_index r) tables (moved_progress (cache_progress r)) (results_in_flight r)) state).

Definition snapshot_retract (epoch : Z) (resumes : bool) (image : RetractionImage) (blob : option nat) (pending : list Z)
    (state : State) : M world transition :=
  match state with
  | Prefilling r window reserve => retract epoch resumes image blob pending r (ResumePrefilling window reserve) state
  | PrefillDone r window reserve _ => retract epoch resumes image blob pending r (ResumePrefillDone window reserve) state
  | Decoding r reserve _ =>
      reserve ← const (λ _, decoding_reserve reserve);
      retract epoch resumes image blob pending r (ResumeDecoding reserve) state
  | _ => invalid_transition
  end.

(** What moving the members of a suspended request leaves. *)
Definition moved_retracted (s : RetractedState) : RetractedState :=
  mkRetracted (retracted_granularity s) (moved_progress (retracted_progress s)) [] None (retracted_shape s)
    (retraction_epoch s) (resumes_generation s) [].

(** [NoteStoreLanded] *)
Definition store_landed (op_id : Z) (published : list HostPublication) (state : State) : M world transition :=
  match state with
  | Retracted s =>
      image ← on_memory (FollowPublished published (retracted_image s));
      mret (tokens, Retracted (mkRetracted (retracted_granularity s) (retracted_progress s) image (retracted_blob s)
              (retracted_shape s) (retraction_epoch s) (resumes_generation s)
              (filter (λ op, op ≠ op_id) (pending_store_ops s))),
            Retracted (moved_retracted s))
  | _ => invalid_transition
  end.

Definition schedule_restore (tables : list BlockTable) (op_id : Z) (state : State) : M world transition :=
  match state with
  | Retracted s =>
      check_world (_assert (ImageLanded s) "a restore is issued only after the image landed") ;;
      check_world (_assert (length tables =? length (groups_ coordinator))%nat
        "ScheduleRestoreEvent requires one rebuilt table per cache group") ;;
      let r := mkResources (retracted_granularity s) ReqPoolIndex_default tables (retracted_progress s) 0 in
      mret (tokens, Restoring (mkRestoring r (retracted_image s) (retracted_blob s) (retracted_shape s) op_id),
            Retracted (moved_retracted s))
  | _ => invalid_transition
  end.

Definition restore_done (index : ReqPoolIndex) (state : State) : M world transition :=
  match state with
  | Restoring s =>
      let r := restoring_resources s in
      check_world (_assert (valid index) "RestoreDoneEvent hands over the row the restore imported into") ;;
      check_world (_assert (negb (valid (req_pool_index r))) "a Restoring request holds no row of its own") ;;
      drop_row (req_pool_index r) ;;
      let r := mkResources (resources_granularity r) index (block_tables r) (cache_progress r) (results_in_flight r) in
      mret (tokens, match restoring_shape s with
                    | ResumePrefilling window reserve => Prefilling r window reserve
                    | ResumePrefillDone window reserve => PrefillDone r window reserve true
                    | ResumeDecoding reserve => Decoding r reserve true
                    end, set_resources (moved_resources r) state)
  | _ => invalid_transition
  end.

Definition update_reserve (value : Z) (state : State) : M world transition :=
  match state with
  | Decoding r _ b =>
      mret (tokens, Decoding r value b, set_resources (moved_resources r) state)
  | Finished => stay tokens state
  | _ => invalid_transition
  end.

Definition extend_result (result_tokens : list Z) (state : State) : M world transition :=
  match state with
  | PrefillDone _ _ _ _ | Decoding _ _ _ | Finishing _ => stay (Extend result_tokens tokens) state
  | PrefillAwaitingResult r window reserve =>
      if (length result_tokens =? 0)%nat then stay tokens state
      else mret (Extend result_tokens tokens, PrefillDone r window reserve false, set_resources (moved_resources r) state)
  | Prefilling _ _ _ =>
      check_world (_assert (length result_tokens =? 0)%nat "ExtendResultEvent: an intermediate prefill chunk produces no tokens") ;;
      stay tokens state
  | RemotePrefilling _ _ _ | Finished => stay tokens state
  | _ => invalid_transition
  end.

Definition bootstrapped (state : State) : M world transition :=
  match state with
  | Bootstrapping a => mret (tokens, Submitted a, state)
  | Prefetching _ a wait => mret (tokens, Prefetching false a wait, state)
  | _ => invalid_transition
  end.

Definition succeeded (state : State) : M world transition :=
  match state with Decoding _ _ _ => mret (tokens, Finished, state) | _ => invalid_transition end.

Definition remote_prefill_done (bootstrap_token : Z) (state : State) : M world transition :=
  match state with
  | RemotePrefilling r window reserve =>
      mret (Extend [bootstrap_token] tokens, PrefillDone r window reserve false, set_resources (moved_resources r) state)
  | _ => invalid_transition
  end.

Definition start_prefetch (wait : PrefetchWait) (state : State) : M world transition :=
  let prepared a := mkAdmission (admission_granularity a) true (storage_hold a) in
  match state with
  | Submitted a => mret (tokens, Prefetching false (prepared a) wait, state)
  | Bootstrapping a => mret (tokens, Prefetching true (prepared a) wait, state)
  | _ => invalid_transition
  end.

Definition finish_prefetch (hold : option StorageReadyHold) (state : State) : M world transition :=
  match state with
  | Prefetching awaits a _ =>
      let a := mkAdmission (admission_granularity a) (storage_prepared a) hold in
      mret (tokens, if awaits then Bootstrapping a else Submitted a, state)
  | _ => invalid_transition
  end.

(** The overload of the event for the state, or the handler of invalid transitions. *)
Definition transition_on (event : Event) (state : State) : M world transition :=
  match event with
  | SchedulePrefillFirstChunkEvent n reserve source tables hit progress awaits =>
      schedule_first_chunk n reserve source tables hit progress awaits state
  | SchedulePrefillEvent n reserve awaits => schedule_chunk n reserve awaits state
  | ScheduleDecodeEvent n => schedule_decode n state
  | FinishEvent => finish_request state
  | ReleaseEvent => release_pages state
  | AbortEvent => abort state
  | SnapshotRetractEvent epoch resumes image blob pending => snapshot_retract epoch resumes image blob pending state
  | StoreLandedEvent op_id published => store_landed op_id published state
  | ScheduleRestoreEvent tables op_id => schedule_restore tables op_id state
  | RestoreDoneEvent index => restore_done index state
  | UpdateReserveNumTokensEvent value => update_reserve value state
  | ExtendResultEvent result_tokens => extend_result result_tokens state
  | BootstrappedEvent => bootstrapped state
  | SucceededEvent => succeeded state
  | RemotePrefillDoneEvent token => remote_prefill_done token state
  | StartPrefetchEvent wait => start_prefetch wait state
  | FinishPrefetchEvent hold => finish_prefetch hold state
  end.
End transitions.

(** ** Requests *)

Record Request := mkRequest {
  id_ : string;
  token_container_ : TokenContainer;
  submitted_prompt_size_ : Z;
  max_new_tokens_ : Z;
  max_cached_prefix_tokens_ : Z;
  retraction_count_ : Z;
  generated_tokens_at_admission_ : Z;
  spec_candidate_ids_ : list Z;
  request_granularity_ : Z;
  state_ : State;
}.

Record RequestSpec := mkSpec { request_id : string; spec_tokens : list Z; max_new_tokens : Z; max_cached_prefix_tokens : Z }.

Definition Request_new (spec : RequestSpec) (prefix_granularity : Z) (role : Role) : Request :=
  let admission := mkAdmission prefix_granularity false None in
  mkRequest (request_id spec) (TokenContainer_new (spec_tokens spec)) (size32 (spec_tokens spec)) (max_new_tokens spec)
    (max_cached_prefix_tokens spec) 0 0 [] prefix_granularity
    (match role with kFused => Submitted admission | _ => Bootstrapping admission end).

Definition set_state (tokens : TokenContainer) (state : State) (self : Request) : Request :=
  mkRequest (id_ self) tokens (submitted_prompt_size_ self) (max_new_tokens_ self) (max_cached_prefix_tokens_ self)
    (retraction_count_ self) (generated_tokens_at_admission_ self) (spec_candidate_ids_ self) (request_granularity_ self) state.
Definition set_admission (n : Z) (self : Request) : Request :=
  mkRequest (id_ self) (token_container_ self) (submitted_prompt_size_ self) (max_new_tokens_ self) (max_cached_prefix_tokens_ self)
    (retraction_count_ self) n (spec_candidate_ids_ self) (request_granularity_ self) (state_ self).

Definition GeneratedTokens (self : Request) : result Z :=
  n ← i32 (TokenSize (token_container_ self) - submitted_prompt_size_ self);
  Ok (Z.max 0 n).
Definition RemainingNewTokens (self : Request) : result Z :=
  generated ← GeneratedTokens self;
  n ← i32 (max_new_tokens_ self - generated);
  Ok (Z.max 0 n).
Definition RemainingNewTokensAtAdmission (self : Request) : result Z :=
  n ← i32 (max_new_tokens_ self - generated_tokens_at_admission_ self);
  Ok (Z.max 0 n).
Definition HasDeclaredBudget (self : Request) : bool := 0 <? max_new_tokens_ self.
Definition TokenLimit (self : Request) : Z := submitted_prompt_size_ self + max_new_tokens_ self.
Definition HasGeneratedOutput (self : Request) : result bool := n ← GeneratedTokens self; Ok (0 <? n).

(** [safe_steps * (1 + retraction_count_)] *)
Definition secured_steps (safe_steps : Z) (self : Request) : result Z :=
  times ← i32 (1 + retraction_count_ self);
  i32 (safe_steps * times).
Definition AdmissionHeadroom (safe_steps : Z) (self : Request) : result Z :=
  remaining ← RemainingNewTokens self;
  secured ← secured_steps safe_steps self;
  Ok (Z.min remaining secured).
Definition ReserveCoversGeneration (safe_steps : Z) (self : Request) : result bool :=
  if 0 <? max_new_tokens_ self then
    secured ← secured_steps safe_steps self;
    open ← RemainingNewTokensAtAdmission self;
    Ok (open <=? secured)
  else Ok false.

Definition NoteRetracted (self : Request) : result Request :=
  n ← i32 (retraction_count_ self + 1);
  Ok (mkRequest (id_ self) (token_container_ self) (submitted_prompt_size_ self) (max_new_tokens_ self)
        (max_cached_prefix_tokens_ self) n (generated_tokens_at_admission_ self) (spec_candidate_ids_ self)
        (request_granularity_ self) (state_ self)).

(** ** Applying an event *)

Definition rworld : Type := world * Request.

(** The events an admission is stamped by. *)
Definition stamps_admission (event : Event) : bool :=
  match event with SchedulePrefillFirstChunkEvent _ _ _ _ _ _ _ | ScheduleRestoreEvent _ _ => true | _ => false end.

(** The event is moved from or, when the transition throws, dropped by the caller's
    unwinding; the state is then as it was. *)
Definition Apply (coordinator : CacheCoordinator) (event : Event) : M rworld () := λ s,
  let '(w, self) := s in
  match (if stamps_admission event then n ← GeneratedTokens self; Ok (set_admission n self) else Ok self) with
  | Raise e => (Raise e, s)
  | Ok self =>
      match transition_on coordinator (token_container_ self) event (state_ self) w with
      | (Ok (tokens, next, rest), w) =>
          let '(r, w) := drop_state rest w in (r, (w, set_state tokens next self))
      | (Raise (Abort e), w) => (Raise (Abort e), (w, self))
      | (Raise (Undefined e), w) => (Raise (Undefined e), (w, self))
      | (Raise e, w) =>
          match drop_event event w with
          | (Ok _, w) => (Raise e, (w, self))
          | (Raise e', w) => (Raise e', (w, self))
          end
      end
  end.

Definition HoldsPages (self : Request) : bool := bool_decide (is_Some (resources_of (state_ self))).

Definition ResultsInFlight (self : Request) : Z := from_option results_in_flight 0 (resources_of (state_ self)).

Definition set_in_flight (n : Z) (r : ForwardResources) : ForwardResources :=
  mkResources (resources_granularity r) (req_pool_index r) (block_tables r) (cache_progress r) n.

Definition TrackScheduledForward (self : Request) : result Request :=
  match resources_of (state_ self) with
  | Some r => n ← i32 (results_in_flight r + 1); Ok (set_state (token_container_ self) (set_resources (set_in_flight n r) (state_ self)) self)
  | None => Ok self
  end.

Definition NoteResultLanded (self : Request) : result Request :=
  match resources_of (state_ self) with
  | Some r =>
      FatalCheck (0 <? results_in_flight r) "a forward result landed for a request with no forward in flight";;
      Ok (set_state (token_container_ self) (set_resources (set_in_flight (results_in_flight r - 1) r) (state_ self)) self)
  | None => Ok self
  end.

Definition NumComputedTokens (self : Request) : result Z :=
  match state_ self with
  | Prefilling _ w _ | PrefillDone _ w _ _ => i32 (begin_ w + window_size w)
  | Decoding _ _ _ | Finishing _ => i32 (TokenSize (token_container_ self) - 1)
  | _ => Raise (LogicError "Request::NumComputedTokens: expected Prefilling, PrefillDone, Decoding or Finishing")
  end.

Definition UnscheduledPrefillSize (self : Request) : result Z :=
  match state_ self with
  | Submitted _ => Ok (-1)
  | Prefilling _ w _ => stop ← i32 (begin_ w + window_size w); i32 (PrefillSize (token_container_ self) - stop)
  | _ => Ok 0
  end.

Definition ReserveNumTokensInNextScheduleEvent (self : Request) : result Z :=
  match state_ self with
  | PrefillDone _ _ n _ | PrefillAwaitingResult _ _ n => Ok n
  | Decoding _ n _ => decoding_reserve n
  | _ => Raise (LogicError "Request::ReserveNumTokensInNextScheduleEvent: expected PrefillDone or Decoding")
  end.

Definition ResumedByRestore (self : Request) : bool :=
  match state_ self with PrefillDone _ _ _ b | Decoding _ _ b => b | _ => false end.

Definition AwaitsBootstrap (self : Request) : bool :=
  match state_ self with Bootstrapping _ => true | Prefetching b _ _ => b | _ => false end.

Definition forwardResources (operation : string) (self : Request) : result ForwardResources :=
  lookup_or (LogicError (String.append "Request::" (String.append operation ": expected a forward state"))) (resources_of (state_ self)).

Definition RequestPoolIndex (self : Request) : result Z :=
  r ← forwardResources "RequestPoolIndex" self;
  Ok (if valid (req_pool_index r) then slot_ (req_pool_index r) else -1).

Definition set_candidates (ids : list Z) (self : Request) : Request :=
  mkRequest (id_ self) (token_container_ self) (submitted_prompt_size_ self) (max_new_tokens_ self) (max_cached_prefix_tokens_ self)
    (retraction_count_ self) (generated_tokens_at_admission_ self) ids (request_granularity_ self) (state_ self).
Definition StoreSpecCandidates (ids : list Z) (self : Request) : Request := set_candidates ids self.
Definition TakeSpecCandidates (self : Request) : list Z * Request := (spec_candidate_ids_ self, set_candidates [] self).

Definition TailPublicationAt (sha256 : list Z → list Z) (num_computed_tokens : Z) (prior : string) (self : Request) :
    result (option TailPublication) :=
  _assert ((0 <=? num_computed_tokens) && (num_computed_tokens <=? TokenSize (token_container_ self)))
    "the computed frontier lies inside the request's tokens";;
  div32 num_computed_tokens (request_granularity_ self);;
  let tail_tokens := Z.rem num_computed_tokens (request_granularity_ self) in
  if tail_tokens =? 0 then Ok None
  else
    start ← i32 (num_computed_tokens - tail_tokens);
    tokens ← TokenSlice (mkWindow start tail_tokens 0) (token_container_ self);
    Ok (Some (mkTail tail_tokens (HashPrefixPage sha256 tokens prior []))).

(** ** A chunk's model inputs *)

Record PrefillInfo := mkPrefillInfo {
  input_ids : list Z;
  shifted_input_ids : list Z;
  already_scheduled_len : Z;
  extend_len : Z;
  replay_len : Z;
}.

Definition ComputeShiftedInputIds (tokens : TokenContainer) (window : Window) : result (list Z) :=
  shifted_start ← i32 (begin_ window + 1);
  shifted_stop ← i32 (shifted_start + window_size window);
  let shifted_end := Z.min (PrefillSize tokens) shifted_stop in
  n ← i32 (shifted_end - shifted_start);
  let shifted_size := Z.max 0 n in
  raise_when (window_size window <? 0) (ValueError "vector::reserve");;
  shifted ← (if 0 <? shifted_size then TokenSlice (mkWindow shifted_start shifted_size 0) tokens else Ok []);
  Ok (take (Z.to_nat (window_size window)) shifted ++ replicate (Z.to_nat (window_size window) - length shifted) (-1)).

Definition MakePrefillInfo (tokens : TokenContainer) (window : Window) : result PrefillInfo :=
  _assert ((0 <=? replay window) && (replay window <=? begin_ window)) "replay must re-feed computed prompt tokens";;
  start ← i32 (begin_ window - replay window);
  size ← i32 (window_size window + replay window);
  let input := mkWindow start size 0 in
  ids ← TokenSlice input tokens;
  shifted ← ComputeShiftedInputIds tokens input;
  Ok (mkPrefillInfo ids shifted start size (replay window)).

Definition CurrentPrefillInfo (self : Request) : result PrefillInfo :=
  match state_ self with
  | Prefilling _ w _ | RemotePrefilling _ w _ | PrefillDone _ w _ _ | PrefillAwaitingResult _ w _ => MakePrefillInfo (token_container_ self) w
  | _ => Raise (LogicError "Request::CurrentPrefillInfo: expected Prefilling, RemotePrefilling or PrefillDone")
  end.
