(* ===== verification/RequestSafety.v ===== *)
(** * What a request owns

    Whatever events a request goes through, every block, row and blob slot it is given
    is kept, handed on or given back, and the state it is in says which. *)

From stdpp Require Import strings.
From S2P Require Import Prelude PyState Cxx BlockPool BlockPoolFacts BlockRefs ReqPool PrefixHash PrefixIndex PrefixIndexFacts.
From S2P Require Import SchedulerConfig GroupGeometry GroupAllocator TableSafety CapacityModel SchedulerSetup Request.

Local Open Scope Z_scope.

(** ** Accounts *)

(** All references, rows and shares of blob slots that are held anywhere. *)
Record accounts (w : world) (refs : list nat) (slots : list Z) (shares : list nat) : Prop := {
  ac_refs : owned (memory w) refs;
  ac_rows : free_slots_ (rows w) ++ slots ≡ₚ seqZ 1 (size_ (rows w));
  ac_shared n c ix : shared_slots w !! n = Some (c, ix) → c = uses n shares;
  ac_shares n : n ∈ shares → is_Some (shared_slots w !! n);
  ac_blobs : free_slots_ (blob_slots w) ++ held (shared_slots w).*2 ≡ₚ seqZ 1 (size_ (blob_slots w));
}.

Lemma uses_perm c l k : l ≡ₚ k → uses c l = uses c k.
Proof. intros Hp. unfold uses. by rewrite Hp. Qed.

Lemma owned_perm h l k : l ≡ₚ k → owned h l → owned h k.
Proof. by intros ->. Qed.

Lemma accounts_perm w refs refs' slots slots' shares shares' :
  refs ≡ₚ refs' → slots ≡ₚ slots' → shares ≡ₚ shares' → accounts w refs slots shares → accounts w refs' slots' shares'.
Proof.
  intros Hr Hi Hs [H1 H2 H3 H4 H5]. split.
  - by eapply owned_perm.
  - by rewrite <- Hi.
  - intros n c ix Hn. rewrite <- (uses_perm _ _ _ Hs). by eapply H3.
  - intros n Hn. apply H4. by rewrite Hs.
  - done.
Qed.

Lemma drop_row_spec w refs ix slots shares :
  accounts w refs (held_by ix ++ slots) shares → ∃ w', drop_row ix w = (Ok (), w') ∧ accounts w' refs slots shares.
Proof.
  intros [H1 H2 H3 H4 H5]. unfold drop_row, within, destroy. unfold held_by in H2. destruct (owns ix).
  - eexists. split; [reflexivity|]. split; try done. cbn [rows set_rows free_slots_ size_]. by rewrite <- app_assoc.
  - eexists. split; [reflexivity|]. by split.
Qed.

Lemma drop_refs_spec w rs refs slots shares :
  accounts w (omap id rs ++ refs) slots shares → ∃ w', on_memory (reset_all rs) w = (Ok (), w') ∧ accounts w' refs slots shares.
Proof.
  intros [H1 H2 H3 H4 H5]. destruct (reset_all_spec rs (memory w) refs H1) as (h' & Hrun & How & _).
  exists (set_memory h' w). unfold on_memory, within. rewrite Hrun. split; [done|]. by split.
Qed.

Lemma drop_shared_spec w refs slots p shares :
  accounts w refs slots (option_list p ++ shares) → ∃ w', drop_shared p w = (Ok (), w') ∧ accounts w' refs slots shares.
Proof.
  destruct p as [n|]; cbn; [|intros H; by exists w]. intros [H1 H2 H3 H4 H5].
  destruct (H4 n) as [[c ix] Hn]; [by left|]. pose proof (H3 n c ix Hn) as Hc. rewrite uses_cons, decide_True in Hc by done.
  unfold mbind at 1, M_bind. unfold const. rewrite Hn. cbn [lookup_or fst snd].
  assert (∀ m c' ix', <[n := (c', ix')]> (shared_slots w) !! m = (if decide (m = n) then Some (c', ix') else shared_slots w !! m)) as Hins.
  { intros m c' ix'. case_decide as E; [subst m; apply list_lookup_insert_eq; by eapply lookup_lt_Some|by apply list_lookup_insert_ne]. }
  assert (∀ c' ix', (∀ m c ix, <[n := (c', ix')]> (shared_slots w) !! m = Some (c, ix) → c = uses m shares) ↔ c' = uses n shares) as Hcounts.
  { intros c' ix'. split.
    - intros Hall. apply (Hall n c' ix'). rewrite Hins. by rewrite decide_True.
    - intros -> m cm ixm. rewrite Hins. case_decide as E; [by intros [= <- _]; subst|]. intros Hm. specialize (H3 m cm ixm Hm).
      rewrite uses_cons, decide_False in H3 by done. lia. }
  assert (∀ c' ix' m, m ∈ shares → is_Some (<[n := (c', ix')]> (shared_slots w) !! m)) as Hdom.
  { intros c' ix' m Hm. rewrite Hins. case_decide; [done|]. apply H4. by right. }
  destruct (Z.eqb_spec c 1) as [->|Hc1].
  - unfold mbind, M_bind, modify, within, destroy. cbn.
    pose proof (held_insert (shared_slots w).*2 n ix ReqPoolIndex_default) as Hheld. rewrite list_lookup_fmap, Hn in Hheld. specialize (Hheld eq_refl).
    unfold held_by at 2 in Hheld. cbn in Hheld. rewrite app_nil_r in Hheld. unfold held_by in Hheld.
    destruct (owns ix); eexists; (split; [reflexivity|]); split; try done; cbn.
    + apply Hcounts. lia.
    + apply Hdom.
    + rewrite list_fmap_insert. cbn. rewrite <- H5, <- Hheld. solve_Permutation.
    + apply Hcounts. lia.
    + apply Hdom.
    + rewrite list_fmap_insert. cbn. rewrite app_nil_r in Hheld. by rewrite <- H5, <- Hheld.
  - eexists. split; [reflexivity|]. split; try done; cbn.
    + apply Hcounts. lia.
    + apply Hdom.
    + rewrite list_fmap_insert. cbn. rewrite list_insert_id; [done|]. by rewrite list_lookup_fmap, Hn.
Qed.

(** What goes when an object is destroyed. *)
Lemma drop_all_spec w blob bs ix F R B :
  accounts w (omap id bs ++ F) (held_by ix ++ R) (option_list blob ++ B) →
  ∃ w', (drop_shared blob ;; on_memory (reset_all bs) ;; drop_row ix) w = (Ok (), w') ∧ accounts w' F R B.
Proof.
  intros Hac. destruct (drop_shared_spec _ _ _ _ _ Hac) as (w1 & Hrun1 & Hac1).
  destruct (drop_refs_spec _ _ _ _ _ Hac1) as (w2 & Hrun2 & Hac2). destruct (drop_row_spec _ _ _ _ _ Hac2) as (w3 & Hrun3 & Hac3).
  exists w3. split; [|done]. by rewrite (run_bind_Ok _ _ _ _ _ Hrun1), (run_bind_Ok _ _ _ _ _ Hrun2).
Qed.

Lemma free_table_spec w t F R B :
  accounts w (table_refs t ++ F) R B → ∃ w', free_table t w = (Ok empty_table, w') ∧ accounts w' F R B.
Proof.
  intros [H1 H2 H3 H4 H5]. unfold free_table, Free.
  rewrite (run_bind_Ok _ _ (memory w, t) (blocks_ t) (memory w, t)) by done.
  destruct (reset_all_spec (reverse (blocks_ t)) (memory w) F) as (h' & Hrun & How & _).
  { unfold table_refs in H1. assert (omap id (reverse (blocks_ t)) ≡ₚ omap id (blocks_ t)) as ->; [|done].
    by rewrite (reverse_Permutation (blocks_ t)). }
  rewrite (run_bind_Ok _ _ _ () (h', t)); [|unfold on_refs, within; cbn; by rewrite Hrun].
  eexists. split; [reflexivity|]. by split.
Qed.

Lemma omap_app_id {A} (l k : list (option A)) : omap id (l ++ k) = omap id l ++ omap id k.
Proof. apply omap_app. Qed.

Lemma refs_app (l k : list CacheBlockRef) : omap id (l ++ k) = (omap id l ++ omap id k : list nat).
Proof. exact (omap_app_id l k). Qed.

Lemma free_tables_spec ts w F R B :
  accounts w (omap id (table_blocks ts) ++ F) R B →
  ∃ w', free_tables ts w = (Ok (replicate (length ts) empty_table), w') ∧ accounts w' F R B.
Proof.
  revert w. induction ts as [|t ts IH]; intros w Hac; [by exists w|].
  change (omap id (table_blocks (t :: ts))) with (omap id ((blocks_ t : list (option nat)) ++ table_blocks ts)) in Hac.
  rewrite omap_app_id, <- app_assoc in Hac.
  destruct (free_table_spec w t _ R B Hac) as (w1 & Hrun1 & Hac1). destruct (IH w1 Hac1) as (w2 & Hrun2 & Hac2).
  exists w2. split; [|done]. cbn [free_tables]. rewrite (run_bind_Ok _ _ _ _ _ Hrun1). by rewrite (run_bind_Ok _ _ _ _ _ Hrun2).
Qed.

Lemma FreeRequest_spec coordinator ts w F R B :
  length ts = length (groups_ coordinator) → accounts w (omap id (table_blocks ts) ++ F) R B →
  ∃ w', FreeRequest coordinator ts w = (Ok (replicate (length ts) empty_table), w') ∧ accounts w' F R B.
Proof.
  intros Hlen Hac. unfold FreeRequest. destruct ts as [|t ts]; [by exists w|]. unfold CacheCoordinator_Free.
  rewrite (run_bind_Ok _ _ _ () w); [by apply free_tables_spec|]. unfold const. by rewrite Hlen, Nat.eqb_refl.
Qed.

Lemma table_blocks_empty n : table_blocks (replicate n empty_table) = [].
Proof. by induction n. Qed.

(** ** Following publications *)

Definition published_in (published : list HostPublication) (refs : list nat) : Prop :=
  Forall (λ entry, ∀ c, publication_block entry = Some c → c ∈ refs) published.

Lemma follow_slot_spec published slot h X :
  owned h (option_list (image_block slot) ++ X) → published_in published X → Z.of_nat (length X) + 1 < UINT32_MAX →
  ∃ h' slot', follow_slot published slot h = (Ok slot', h') ∧ owned h' (option_list (image_block slot') ++ X).
Proof.
  intros How Hin Hroom. revert slot h How. induction Hin as [|entry published Hentry Hin IH]; intros slot h How; [by exists h, slot|].
  cbn [follow_slot]. case_decide as Hd; [|rewrite (run_bind_Ok _ _ _ slot h) by done; by apply IH].
  destruct (copy_opt_spec h (option_list (image_block slot) ++ X) (publication_block entry) How) as (h1 & Hcopy & How1).
  { intros c Hc. apply elem_of_app. right. by apply Hentry. }
  { rewrite length_app. destruct (image_block slot); cbn; lia. }
  destruct (reset_opt_spec h1 (option_list (publication_block entry) ++ X) (image_block slot)) as (h2 & Hreset & How2 & _).
  { eapply owned_perm; [|exact How1]. solve_Permutation. }
  erewrite run_bind_Ok.
  2: { unfold assign_copy. rewrite (run_bind_Ok _ _ _ (publication_block entry) h2); [reflexivity|].
       rewrite (run_bind_Ok _ _ _ _ _ Hcopy). by rewrite (run_bind_Ok _ _ _ _ _ Hreset). }
  apply IH. exact How2.
Qed.

Lemma published_weaken published X Y : published_in published X → X ⊆ Y → published_in published Y.
Proof. intros Hin HXY. eapply Forall_impl; [exact Hin|]. intros entry He c Hc. by apply HXY, He. Qed.

Definition slot_refs (slots : list ImageSlot) : list nat := omap id (image_block <$> slots).

Lemma slot_refs_cons slot slots : slot_refs (slot :: slots) = option_list (image_block slot) ++ slot_refs slots.
Proof. unfold slot_refs. cbn. by destruct (image_block slot). Qed.

Lemma slot_refs_length slots : (length (slot_refs slots) ≤ length slots)%nat.
Proof.
  induction slots as [|slot slots IH]; [done|]. rewrite slot_refs_cons, length_app. destruct (image_block slot); cbn; lia.
Qed.

Lemma follow_slots_spec published slots h X :
  owned h (slot_refs slots ++ X) → published_in published X → Z.of_nat (length slots + length X) < UINT32_MAX →
  ∃ h' slots', follow_slots published slots h = (Ok slots', h') ∧ owned h' (slot_refs slots' ++ X) ∧ length slots' = length slots.
Proof.
  intros How Hin. revert h X How Hin. induction slots as [|slot slots IH]; intros h X How Hin Hroom; [by exists h, []|].
  cbn [length] in Hroom. rewrite slot_refs_cons, <- app_assoc in How. cbn [follow_slots].
  assert (∃ h1 slot1, (if InHostCache slot then follow_slot published slot else mret slot) h = (Ok slot1, h1) ∧
    owned h1 (option_list (image_block slot1) ++ slot_refs slots ++ X)) as (h1 & slot1 & Hrun1 & How1).
  { destruct (InHostCache slot); [|by exists h, slot]. apply follow_slot_spec; [done| |].
    - eapply published_weaken; [done|]. set_solver.
    - rewrite length_app. pose proof (slot_refs_length slots). lia. }
  rewrite (run_bind_Ok _ _ _ _ _ Hrun1).
  destruct (IH h1 (option_list (image_block slot1) ++ X)) as (h2 & slots2 & Hrun2 & How2 & Hlen).
  { eapply owned_perm; [|exact How1]. solve_Permutation. }
  { eapply published_weaken; [done|]. set_solver. }
  { rewrite length_app. destruct (image_block slot1); cbn; lia. }
  rewrite (run_bind_Ok _ _ _ _ _ Hrun2). exists h2, (slot1 :: slots2). split; [done|]. split; [|cbn; by rewrite Hlen].
  eapply owned_perm; [|exact How2]. rewrite slot_refs_cons. solve_Permutation.
Qed.

Lemma image_blocks_cons t image :
  omap id (image_blocks (t :: image)) = slot_refs (image_slots t) ++ omap id (image_blocks image).
Proof. apply (omap_app_id (image_block <$> image_slots t) (image_blocks image)). Qed.

Lemma image_refs_length image : (length (omap id (image_blocks image)) ≤ length (image_blocks image))%nat.
Proof. generalize (image_blocks image). intros l. induction l as [|[c|] l IH]; cbn; [done|lia..]. Qed.

Lemma FollowPublished_spec published image h X :
  owned h (omap id (image_blocks image) ++ X) → published_in published X →
  Z.of_nat (length (image_blocks image) + length X) < UINT32_MAX →
  ∃ h' image', FollowPublished published image h = (Ok image', h') ∧ owned h' (omap id (image_blocks image') ++ X) ∧
    length (image_blocks image') = length (image_blocks image).
Proof.
  revert h X. induction image as [|t image IH]; intros h X How Hin Hroom; [by exists h, []|].
  rewrite image_blocks_cons, <- app_assoc in How.
  assert (∀ t image, length (image_blocks (t :: image)) = (length (image_slots t) + length (image_blocks image))%nat) as Hcons.
  { intros t' image'. unfold image_blocks. cbn. by rewrite length_app, length_fmap. }
  rewrite Hcons in Hroom. cbn [FollowPublished].
  destruct (follow_slots_spec published (image_slots t) h (omap id (image_blocks image) ++ X)) as (h1 & slots1 & Hrun1 & How1 & Hlen1); [done| | |].
  { eapply published_weaken; [done|]. set_solver. }
  { rewrite length_app. pose proof (image_refs_length image). lia. }
  rewrite (run_bind_Ok _ _ _ _ _ Hrun1). destruct (IH h1 (slot_refs slots1 ++ X)) as (h2 & image2 & Hrun2 & How2 & Hlen2).
  { eapply owned_perm; [|exact How1]. solve_Permutation. }
  { eapply published_weaken; [done|]. set_solver. }
  { rewrite length_app. pose proof (slot_refs_length slots1). lia. }
  rewrite (run_bind_Ok _ _ _ _ _ Hrun2). eexists h2, (_ :: image2). split; [reflexivity|]. split.
  - eapply owned_perm; [|exact How2]. rewrite image_blocks_cons. cbn [image_slots]. solve_Permutation.
  - rewrite !Hcons. cbn [image_slots]. lia.
Qed.

(** ** Requests in order *)

Definition window_in (tokens : TokenContainer) (window : Window) : Prop :=
  0 ≤ replay window ≤ begin_ window ∧ 0 < window_size window ∧ begin_ window + window_size window ≤ PrefillSize tokens.

Definition unfinished (tokens : TokenContainer) (window : Window) : Prop :=
  window_in tokens window ∧ begin_ window + window_size window < PrefillSize tokens.

(** The pages of a running request: a table per group, a row of the pool. *)
Record runs_on (coordinator : CacheCoordinator) (r : ForwardResources) : Prop := {
  ro_tables : length (block_tables r) = length (groups_ coordinator);
  ro_row : owns (req_pool_index r) = true;
  ro_flight : 0 ≤ results_in_flight r;
}.

Definition shape_ok (tokens : TokenContainer) (shape : ResumeShape) : Prop :=
  match shape with
  | ResumePrefilling w _ => unfinished tokens w
  | ResumePrefillDone w _ => window_in tokens w
  | ResumeDecoding n => 0 ≤ n
  end.

Definition state_ok (coordinator : CacheCoordinator) (tokens : TokenContainer) (state : State) : Prop :=
  match state with
  | Bootstrapping _ | Submitted _ | Prefetching _ _ _ | Finished => True
  | Prefilling r w _ => runs_on coordinator r ∧ unfinished tokens w
  | RemotePrefilling r w _ | PrefillAwaitingResult r w _ | PrefillDone r w _ _ => runs_on coordinator r ∧ window_in tokens w
  | Decoding r _ _ | Finishing r => runs_on coordinator r
  | Retracted s => shape_ok tokens (retracted_shape s)
  | Restoring s =>
      length (block_tables (restoring_resources s)) = length (groups_ coordinator) ∧ owns (req_pool_index (restoring_resources s)) = false ∧
      0 ≤ results_in_flight (restoring_resources s) ∧ shape_ok tokens (restoring_shape s)
  end.

Record request_ok (coordinator : CacheCoordinator) (self : Request) : Prop := {
  rq_prompt : PrefillSize (token_container_ self) = submitted_prompt_size_ self;
  rq_size : submitted_prompt_size_ self ≤ Z.of_nat (length (tokens_ (token_container_ self))) ≤ INT32_MAX;
  rq_nonneg : 0 ≤ submitted_prompt_size_ self;
  rq_state : state_ok coordinator (token_container_ self) (state_ self);
}.

(** ** Transitions *)

(** The transitions there are, with the guards of the code; [free] says that a row of
    the request pool is free. *)
Definition accepts (free : bool) (event : Event) (state : State) : bool :=
  match event, state with
  | SchedulePrefillFirstChunkEvent _ _ _ _ _ _ _, Submitted _ => free
  | SchedulePrefillEvent _ _ _, Prefilling _ _ _ => true
  | ScheduleDecodeEvent _, (PrefillDone _ _ _ _ | PrefillAwaitingResult _ _ _ | Decoding _ _ _) => true
  | FinishEvent, (PrefillDone _ _ _ _ | PrefillAwaitingResult _ _ _ | Decoding _ _ _ | Retracted _ | Restoring _ | Finishing _ | Finished) => true
  | ReleaseEvent, Finishing r => results_in_flight r =? 0
  | AbortEvent, _ => true
  | SnapshotRetractEvent _ _ _ _ _, (Prefilling r _ _ | PrefillDone r _ _ _) => results_in_flight r =? 0
  | SnapshotRetractEvent _ _ _ _ _, Decoding r n _ => (0 <=? n) && (results_in_flight r =? 0)
  | StoreLandedEvent _ _, Retracted _ => true
  | ScheduleRestoreEvent _ _, Retracted s => ImageLanded s
  | RestoreDoneEvent _, Restoring _ => true
  | UpdateReserveNumTokensEvent _, (Decoding _ _ _ | Finished) => true
  | ExtendResultEvent l, Prefilling _ _ _ => (length l =? 0)%nat
  | ExtendResultEvent _, (RemotePrefilling _ _ _ | PrefillAwaitingResult _ _ _ | PrefillDone _ _ _ _ | Decoding _ _ _ | Finishing _ | Finished) => true
  | BootstrappedEvent, (Bootstrapping _ | Prefetching _ _ _) => true
  | SucceededEvent, Decoding _ _ _ => true
  | RemotePrefillDoneEvent _, RemotePrefilling _ _ _ => true
  | StartPrefetchEvent _, (Submitted _ | Bootstrapping _) => true
  | FinishPrefetchEvent _, Prefetching _ _ _ => true
  | _, _ => false
  end.

(** The tokens an event brings. *)
Definition brings (event : Event) (state : State) : list Z :=
  match event, state with
  | ExtendResultEvent l, (PrefillAwaitingResult _ _ _ | PrefillDone _ _ _ _ | Decoding _ _ _ | Finishing _) => l
  | RemotePrefillDoneEvent token, RemotePrefilling _ _ _ => [token]
  | _, _ => []
  end.

(** What the scheduler puts into an event: tables of every group, chunks inside the
    prompt, a row for a restore, publications somebody holds ([refs] are the references
    outside the image). *)
Definition event_ok (coordinator : CacheCoordinator) (tokens : TokenContainer) (event : Event) (state : State) (refs : list nat) : Prop :=
  match event with
  | SchedulePrefillFirstChunkEvent n _ _ tables hit _ _ =>
      length tables = length (groups_ coordinator) ∧ 0 ≤ hit ∧ 0 < n ∧ hit + n ≤ PrefillSize tokens
  | SchedulePrefillEvent n _ _ =>
      0 < n ∧ ∀ r w m, state = Prefilling r w m → begin_ w + window_size w + n ≤ PrefillSize tokens
  | StoreLandedEvent _ published =>
      ∀ s, state = Retracted s → published_in published refs ∧
        Z.of_nat (length (image_blocks (retracted_image s)) + length refs) < UINT32_MAX
  | ScheduleRestoreEvent tables _ => length tables = length (groups_ coordinator)
  | RestoreDoneEvent index => owns index = true
  | ExtendResultEvent l => Z.of_nat (length (tokens_ tokens) + length l) ≤ INT32_MAX
  | RemotePrefillDoneEvent _ => Z.of_nat (length (tokens_ tokens) + 1) ≤ INT32_MAX
  | _ => True
  end.

Definition state_refs (state : State) : list nat := omap id (state_blocks state).
Definition state_slots (state : State) : list Z := held_by (state_row state).
Definition state_shares (state : State) : list nat := option_list (state_blob state).
Definition event_refs (event : Event) : list nat := omap id (event_blocks event).
Definition event_slots (event : Event) : list Z := held_by (event_row event).
Definition event_shares (event : Event) : list nat := option_list (event_blob event).

(** An exception the caller can catch. *)
Definition thrown (e : exn) : Prop := match e with RuntimeError _ | LogicError _ => True | _ => False end.

Section transitions.
Context (coordinator : CacheCoordinator) (Hreplay : 0 ≤ replay_window_tokens_ coordinator).
Context (tokens : TokenContainer) (Hprompt : 0 ≤ PrefillSize tokens ≤ INT32_MAX).
Context (F : list nat) (R : list Z) (B : list nat).

(** A transition is made exactly when it is accepted, and then what the event and the
    state held is in the next state and in what is left; otherwise nothing changes. *)
Definition answers (free : bool) (event : Event) (state : State) (out : result transition * world) : Prop :=
  match out with
  | (Ok (tokens', next, rest), w) =>
      accepts free event state = true ∧ tokens' = Extend (brings event state) tokens ∧ state_ok coordinator tokens next ∧
      accounts w (state_refs next ++ state_refs rest ++ F) (state_slots next ++ state_slots rest ++ R)
        (state_shares next ++ state_shares rest ++ B)
  | (Raise e, w) =>
      accepts free event state = false ∧ thrown e ∧
      accounts w (state_refs state ++ event_refs event ++ F) (state_slots state ++ event_slots event ++ R)
        (state_shares state ++ event_shares event ++ B)
  end.

Lemma Extend_nil : Extend [] tokens = tokens.
Proof. unfold Extend. rewrite app_nil_r. by destruct tokens. Qed.

Lemma answers_invalid free event state w :
  accepts free event state = false →
  accounts w (state_refs state ++ event_refs event ++ F) (state_slots state ++ event_slots event ++ R)
    (state_shares state ++ event_shares event ++ B) →
  answers free event state (invalid_transition w).
Proof. by intros Ha Hac. Qed.

(** A transition that only moves. *)
Lemma answers_moves free event state tokens' next rest w :
  accepts free event state = true → tokens' = Extend (brings event state) tokens → state_ok coordinator tokens next →
  accounts w (state_refs state ++ event_refs event ++ F) (state_slots state ++ event_slots event ++ R)
    (state_shares state ++ event_shares event ++ B) →
  state_refs next ++ state_refs rest ≡ₚ state_refs state ++ event_refs event →
  state_slots next ++ state_slots rest ≡ₚ state_slots state ++ event_slots event →
  state_shares next ++ state_shares rest ≡ₚ state_shares state ++ event_shares event →
  answers free event state (Ok (tokens', next, rest), w).
Proof.
  intros Ha Ht Hok Hac Hr Hs Hb. split_and!; try done.
  eapply accounts_perm; [..|exact Hac]; rewrite !app_assoc; by apply Permutation_app_tail.
Qed.

(** What the event holds is taken over. *)
Ltac owned_by := unfold state_refs, event_refs, state_slots, event_slots, state_shares, event_shares;
  cbn [state_blocks event_blocks state_row event_row state_blob event_blob resources_of set_resources from_option option_map
       resource_blocks moved_resources progress_blocks moved_progress cache_progress block_tables req_pool_index table_blocks
       published_state_checkpoint_blocks state_checkpoint_blocks app omap list_omap mbind list_bind held_by owns moved_from
       ReqPoolIndex_default option_list retracted_image retracted_progress retracted_blob moved_retracted image_blocks
       restoring_image restoring_resources restoring_blob];
  rewrite ?app_nil_r; try done.

Ltac moves := apply answers_moves; [done|by cbn [brings]; rewrite ?Extend_nil| |done|owned_by|owned_by|owned_by].

Lemma after_chunk_spec awaits r window reserve w :
  runs_on coordinator r → window_in tokens window →
  ∃ next, after_chunk tokens awaits r window reserve w = (Ok next, w) ∧ state_ok coordinator tokens next ∧
    state_refs next = omap id (resource_blocks r) ∧ state_slots next = held_by (req_pool_index r) ∧ state_shares next = [].
Proof.
  intros Hr Hwin. unfold after_chunk. rewrite (run_bind_Ok _ _ _ (begin_ window + window_size window) w).
  2: { unfold const. by rewrite i32_Ok by (destruct Hwin as (? & ? & ?); unfold INT32_MIN; lia). }
  destruct (Z.eqb_spec (begin_ window + window_size window) (PrefillSize tokens)) as [Heq|Hne].
  - eexists. split; [reflexivity|]. by destruct awaits.
  - eexists. split; [reflexivity|]. split; [|done]. split; [done|]. split; [done|]. destruct Hwin as (? & ? & ?). lia.
Qed.

Lemma schedule_chunk_spec free n reserve awaits state w :
  let event := SchedulePrefillEvent n reserve awaits in
  state_ok coordinator tokens state → event_ok coordinator tokens event state F →
  accounts w (state_refs state ++ event_refs event ++ F) (state_slots state ++ event_slots event ++ R)
    (state_shares state ++ event_shares event ++ B) →
  answers free event state (schedule_chunk tokens n reserve awaits state w).
Proof.
  intros event Hst [Hn Hev] Hac. subst event. unfold schedule_chunk. destruct state as [| | |r win m| | | | | | | |]; try by apply answers_invalid.
  destruct Hst as [Hr [Hwin Hlt]]. specialize (Hev r win m eq_refl). pose proof Hwin as (? & ? & ?).
  rewrite (run_bind_Ok _ _ _ (begin_ win + window_size win) w) by (unfold const; by rewrite i32_Ok by (unfold INT32_MIN; lia)).
  destruct (after_chunk_spec awaits r (mkWindow (begin_ win + window_size win) n 0) reserve w Hr) as (next & Hrun & Hok & Hb & Hs & Hsh).
  { split_and!; cbn; lia. }
  rewrite (run_bind_Ok _ _ _ _ _ Hrun). apply answers_moves; [done|by cbn [brings]; rewrite Extend_nil|done|done| | |].
  - rewrite Hb. owned_by.
  - rewrite Hs. owned_by.
  - rewrite Hsh. owned_by.
Qed.

(** Giving the pages back leaves the rest of the state. *)
Lemma free_pages_spec free event state r w :
  accepts free event state = true → brings event state = [] → event_blocks event = [] → event_slots event = [] → event_shares event = [] →
  resources_of state = Some r → length (block_tables r) = length (groups_ coordinator) →
  accounts w (state_refs state ++ event_refs event ++ F) (state_slots state ++ event_slots event ++ R)
    (state_shares state ++ event_shares event ++ B) →
  answers free event state (free_pages coordinator tokens r state w).
Proof.
  intros Ha Hb He Hes Heh Hr Hlen Hac. unfold free_pages. unfold event_refs in Hac. rewrite He, Hes, Heh in Hac. cbn [omap list_omap app] in Hac.
  set (rest := omap id (image_blocks (match state with Restoring s => restoring_image s | _ => [] end)) ++ omap id (progress_blocks (cache_progress r))).
  destruct (FreeRequest_spec coordinator (block_tables r) w (rest ++ F) (state_slots state ++ R) (state_shares state ++ B) Hlen) as (w' & Hrun & Hac').
  { eapply accounts_perm; [|done|done|exact Hac]. subst rest. unfold state_refs.
    destruct state; cbn [resources_of] in Hr; try done; injection Hr as <-; cbn [state_blocks resources_of from_option image_blocks mbind list_bind];
      unfold resource_blocks; rewrite ?refs_app; solve_Permutation. }
  rewrite (run_bind_Ok _ _ _ _ _ Hrun). split_and!; [done|by rewrite Hb, Extend_nil|done|].
  eapply accounts_perm; [..|exact Hac'].
  - subst rest. unfold state_refs. destruct state; cbn [resources_of] in Hr; try done; injection Hr as <-;
      cbn [state_blocks resources_of set_resources from_option image_blocks mbind list_bind restoring_image restoring_resources];
      unfold resource_blocks; cbn [cache_progress block_tables]; rewrite table_blocks_empty, ?refs_app; solve_Permutation.
  - unfold state_slots. by destruct state; cbn [resources_of] in Hr; try done; injection Hr as <-.
  - unfold state_shares. by destruct state.
Qed.

Ltac give_back := apply free_pages_spec; try done.

Lemma finish_spec free state w :
  state_ok coordinator tokens state →
  accounts w (state_refs state ++ event_refs FinishEvent ++ F) (state_slots state ++ event_slots FinishEvent ++ R)
    (state_shares state ++ event_shares FinishEvent ++ B) →
  answers free FinishEvent state (finish_request coordinator tokens state w).
Proof.
  intros Hst Hac. destruct state; cbn [finish_request]; try (by apply answers_invalid); try (by moves; try done; destruct Hst).
  give_back. by destruct Hst.
Qed.

Lemma abort_spec free state w :
  state_ok coordinator tokens state →
  accounts w (state_refs state ++ event_refs AbortEvent ++ F) (state_slots state ++ event_slots AbortEvent ++ R)
    (state_shares state ++ event_shares AbortEvent ++ B) →
  answers free AbortEvent state (abort coordinator tokens state w).
Proof.
  intros Hst Hac. destruct state; cbn [abort]; try (by moves).
  all: give_back; cbn in Hst; try (by destruct Hst as [[] _]); by destruct Hst.
Qed.

Lemma release_pages_spec free state w :
  state_ok coordinator tokens state →
  accounts w (state_refs state ++ event_refs ReleaseEvent ++ F) (state_slots state ++ event_slots ReleaseEvent ++ R)
    (state_shares state ++ event_shares ReleaseEvent ++ B) →
  answers free ReleaseEvent state (release_pages coordinator tokens state w).
Proof.
  intros Hst Hac. destruct state as [| | | | | | | | | |r|]; cbn [release_pages]; try by apply answers_invalid.
  destruct (results_in_flight r =? 0) eqn:Hz.
  - rewrite (run_bind_Ok _ _ _ () w) by done. give_back. by destruct Hst.
  - rewrite (run_bind_Raise _ _ _ (RuntimeError "a request is released only once its forwards have landed") w)
      by done. split; [|by split]. by cbn [accepts].
Qed.

Lemma retract_spec free epoch resumes image blob pending r shape state w :
  let event := SnapshotRetractEvent epoch resumes image blob pending in
  accepts free event state = (results_in_flight r =? 0) → brings event state = [] → resources_of state = Some r → (∀ s, state ≠ Restoring s) →
  shape_ok tokens shape → length (block_tables r) = length (groups_ coordinator) →
  accounts w (state_refs state ++ event_refs event ++ F) (state_slots state ++ event_slots event ++ R)
    (state_shares state ++ event_shares event ++ B) →
  answers free event state (retract coordinator tokens epoch resumes image blob pending r shape state w).
Proof.
  intros event Ha Hb Hr Hne Hshape Hlen Hac. unfold retract. destruct (results_in_flight r =? 0) eqn:Hz.
  2: { rewrite (run_bind_Raise _ _ _ (RuntimeError "a retraction victim must be quiescent") w) by done. by split. }
  rewrite (run_bind_Ok _ _ _ () w) by done.
  assert (state_refs state = omap id (resource_blocks r) ∧ state_slots state = held_by (req_pool_index r) ∧ state_shares state = []) as (H1 & H2 & H3).
  { unfold state_refs, state_slots, state_shares, state_row. destruct state; cbn in Hr; try done; injection Hr as <-; try done. }
  rewrite H1, H2, H3 in Hac.
  destruct (FreeRequest_spec coordinator (block_tables r) w (omap id (progress_blocks (cache_progress r)) ++ event_refs event ++ F)
    (held_by (req_pool_index r) ++ R) (event_shares event ++ B) Hlen) as (w' & Hrun & Hac').
  { eapply accounts_perm; [|done|done|exact Hac]. unfold resource_blocks. rewrite refs_app. solve_Permutation. }
  rewrite (run_bind_Ok _ _ _ _ _ Hrun). split_and!; [done|by rewrite Hb, Extend_nil|done|].
  eapply accounts_perm; [..|exact Hac'].
  - unfold event_refs, state_refs. destruct state; cbn [resources_of] in Hr; try done; try by destruct (Hne state).
    all: cbn [event event_blocks state_blocks resources_of set_resources from_option retracted_image retracted_progress]; unfold resource_blocks;
      cbn [cache_progress block_tables]; rewrite table_blocks_empty, ?refs_app; cbn; solve_Permutation.
  - unfold state_slots, state_row. destruct state; cbn [resources_of] in Hr; try done; by destruct (Hne state).
  - unfold state_shares, event_shares. destruct state; cbn [resources_of] in Hr; try done; by destruct (Hne state).
Qed.

Lemma snapshot_retract_spec free epoch resumes image blob pending state w :
  let event := SnapshotRetractEvent epoch resumes image blob pending in
  state_ok coordinator tokens state →
  accounts w (state_refs state ++ event_refs event ++ F) (state_slots state ++ event_slots event ++ R)
    (state_shares state ++ event_shares event ++ B) →
  answers free event state (snapshot_retract coordinator tokens epoch resumes image blob pending state w).
Proof.
  intros event Hst Hac. destruct state as [| | |r win n| | |r win n b|r n b| | | |]; cbn [snapshot_retract]; try by apply answers_invalid.
  - destruct Hst as [[] ?]. by apply retract_spec.
  - destruct Hst as [[] ?]. by apply retract_spec.
  - unfold decoding_reserve. destruct (0 <=? n) eqn:Hn.
    + rewrite (run_bind_Ok _ _ _ n w) by done. destruct Hst. apply retract_spec; try done.
      * subst event. cbn [accepts]. by rewrite Hn.
      * cbn. lia.
    + rewrite (run_bind_Raise _ _ _ (RuntimeError "Assertion failed") w) by done.
      split; [subst event; cbn [accepts]; by rewrite Hn|]. by split.
Qed.

Lemma store_landed_spec free op_id published state w :
  let event := StoreLandedEvent op_id published in
  state_ok coordinator tokens state →
  event_ok coordinator tokens event state (from_option (λ p, omap id (progress_blocks p)) [] (match state with Retracted s => Some (retracted_progress s) | _ => None end) ++ F) →
  accounts w (state_refs state ++ event_refs event ++ F) (state_slots state ++ event_slots event ++ R)
    (state_shares state ++ event_shares event ++ B) →
  answers free event state (store_landed tokens op_id published state w).
Proof.
  intros event Hst Hev Hac. destruct state as [| | | | | | | |s| | |]; cbn [store_landed]; try by apply answers_invalid.
  destruct (Hev s eq_refl) as [Hpub Hroom]. cbn [from_option] in Hpub, Hroom. pose proof Hac as [Hown H2 H3 H4 H5].
  destruct (FollowPublished_spec published (retracted_image s) (memory w) (omap id (progress_blocks (retracted_progress s)) ++ F))
    as (h' & image' & Hrun & How & _); [|done|done|].
  { eapply owned_perm; [|exact Hown]. unfold state_refs. cbn [state_blocks]. rewrite refs_app. cbn. solve_Permutation. }
  rewrite (run_bind_Ok _ _ _ image' (set_memory h' w)) by (unfold on_memory, within; by rewrite Hrun).
  subst event. split_and!; [done|by cbn [brings]; rewrite Extend_nil|done|]. split; [|done..].
  eapply owned_perm; [|exact How]. unfold state_refs. cbn [state_blocks retracted_image retracted_progress]. rewrite refs_app. cbn. solve_Permutation.
Qed.

Definition row_free (w : world) : bool := match free_slots_ (rows w) with [] => false | _ => true end.

Lemma first_chunk_spec n reserve source tables hit progress awaits state w :
  let event := SchedulePrefillFirstChunkEvent n reserve source tables hit progress awaits in
  state_ok coordinator tokens state → event_ok coordinator tokens event state F →
  accounts w (state_refs state ++ event_refs event ++ F) (state_slots state ++ event_slots event ++ R)
    (state_shares state ++ event_shares event ++ B) →
  answers (row_free w) event state (schedule_first_chunk coordinator tokens n reserve source tables hit progress awaits state w).
Proof.
  intros event Hst (Hlen & Hhit & Hn & Hfit) Hac. destruct state as [|a| | | | | | | | | |]; try by apply answers_invalid.
  cbn [schedule_first_chunk]. rewrite (run_bind_Ok _ _ _ () w) by (unfold check_world, const; by rewrite Hlen, Nat.eqb_refl).
  destruct (free_slots_ (rows w)) as [|slot rest] eqn:Hfree.
  { erewrite run_bind_Raise by (unfold within, Allocate; by rewrite Hfree). unfold answers. cbn [accepts event]. unfold row_free. rewrite Hfree.
    split; [done|]. split; [done|]. by destruct w. }
  set (w1 := set_rows (mkReqPool (size_ (rows w)) rest) w).
  rewrite (run_bind_Ok _ _ _ (ReqPool.mkIndex slot true) w1) by (unfold within, Allocate; by rewrite Hfree).
  set (r := mkResources _ _ _ _ _). set (replayed := match source with kLocal => Z.min (replay_window_tokens_ coordinator) hit | kRemote => 0 end).
  rewrite (run_bind_Ok _ _ _ replayed w1).
  2: { unfold holding_row, replayed. destruct source; [|done]. unfold const, ReplayTokens. by pass_check lia. }
  assert (runs_on coordinator r) as Hr by (by split).
  assert (window_in tokens (mkWindow hit n replayed)) as Hwin by (unfold replayed; split_and!; cbn; destruct source; lia).
  assert (∃ next, (match source with kRemote => mret (RemotePrefilling r (mkWindow hit n replayed) reserve)
      | kLocal => after_chunk tokens awaits r (mkWindow hit n replayed) reserve end : M world State) w1 = (Ok next, w1) ∧ state_ok coordinator tokens next ∧
    state_refs next = omap id (resource_blocks r) ∧ state_slots next = held_by (req_pool_index r) ∧ state_shares next = [])
    as (next & Hrun & Hok & Hb & Hs & Hsh) by (destruct source; [by apply after_chunk_spec|by eexists]).
  rewrite (run_bind_Ok _ _ _ _ _ Hrun). unfold answers. cbn [accepts event brings mret M_ret]. unfold row_free at 1. rewrite Hfree, Hb, Hs, Hsh, Extend_nil.
  split_and!; try done. destruct Hac as [Hown Hrows H3 H4 H5]. split; try done.
  cbn [rows w1 set_rows free_slots_ size_ r req_pool_index held_by owns slot_ app]. rewrite <- Hrows, Hfree.
  unfold state_slots, event_slots. cbn [state_row resources_of from_option event_row event held_by owns ReqPoolIndex_default app]. solve_Permutation.
Qed.

Lemma restore_spec free tables op_id state w :
  let event := ScheduleRestoreEvent tables op_id in
  state_ok coordinator tokens state → event_ok coordinator tokens event state F →
  accounts w (state_refs state ++ event_refs event ++ F) (state_slots state ++ event_slots event ++ R)
    (state_shares state ++ event_shares event ++ B) →
  answers free event state (schedule_restore coordinator tokens tables op_id state w).
Proof.
  intros event Hst Hlen Hac. destruct state as [| | | | | | | |s| | |]; try by apply answers_invalid. cbn [schedule_restore].
  destruct (ImageLanded s) eqn:Hl.
  - rewrite (run_bind_Ok _ _ _ () w) by done. rewrite (run_bind_Ok _ _ _ () w) by (unfold check_world, const; by rewrite Hlen, Nat.eqb_refl).
    subst event. apply answers_moves; [done|by cbn [brings]; rewrite Extend_nil|by split_and!|done| | |owned_by].
    + unfold state_refs, event_refs. cbn [state_blocks event_blocks restoring_image restoring_resources moved_retracted retracted_image retracted_progress].
      unfold resource_blocks. cbn [cache_progress block_tables]. rewrite !refs_app. cbn. solve_Permutation.
    + done.
  - rewrite (run_bind_Raise _ _ _ (RuntimeError "a restore is issued only after the image landed") w) by done. by split.
Qed.

Lemma restore_done_spec free index state w :
  let event := RestoreDoneEvent index in
  state_ok coordinator tokens state → event_ok coordinator tokens event state F →
  accounts w (state_refs state ++ event_refs event ++ F) (state_slots state ++ event_slots event ++ R)
    (state_shares state ++ event_shares event ++ B) →
  answers free event state (restore_done tokens index state w).
Proof.
  intros event Hst Hix Hac. destruct state as [| | | | | | | | |s| |]; try by apply answers_invalid. cbn [restore_done].
  destruct Hst as (Hlen & Hno & Hflight & Hshape). cbn in Hix.
  rewrite (run_bind_Ok _ _ _ () w) by (unfold check_world, const, valid; by rewrite Hix).
  rewrite (run_bind_Ok _ _ _ () w) by (unfold check_world, const, valid; by rewrite Hno).
  rewrite (run_bind_Ok _ _ _ () w) by (unfold drop_row, within, destroy; rewrite Hno; by destruct w).
  set (r := mkResources _ _ _ _ _). assert (runs_on coordinator r) as Hr by (split; [done|done|cbn; lia]).
  subst event. apply answers_moves; [done|by cbn [brings]; rewrite Extend_nil| |done| | |].
  - destruct (restoring_shape s); [by split|by split|exact Hr].
  - unfold state_refs, event_refs. destruct (restoring_shape s);
      cbn [state_blocks event_blocks resources_of from_option set_resources restoring_image restoring_resources]; rewrite !refs_app; cbn; solve_Permutation.
  - assert (state_slots (Restoring s) = []) as -> by (unfold state_slots, state_row, held_by; cbn; by rewrite Hno).
    unfold state_slots, event_slots. destruct (restoring_shape s); cbn; by rewrite app_nil_r.
  - unfold state_shares. by destruct (restoring_shape s); cbn; rewrite ?app_nil_r.
Qed.

Lemma extend_result_spec free l state w :
  let event := ExtendResultEvent l in
  state_ok coordinator tokens state →
  accounts w (state_refs state ++ event_refs event ++ F) (state_slots state ++ event_slots event ++ R)
    (state_shares state ++ event_shares event ++ B) →
  answers free event state (extend_result tokens l state w).
Proof.
  intros event Hst Hac. subst event. destruct state as [| | |r win n|r win n|r win n|r win n b|r n b| | |r|]; cbn [extend_result]; try (by apply answers_invalid); try by moves.
  - destruct (length l =? 0)%nat eqn:Hl.
    + rewrite (run_bind_Ok _ _ _ () w) by done. by moves.
    + rewrite (run_bind_Raise _ _ _ (RuntimeError "ExtendResultEvent: an intermediate prefill chunk produces no tokens") w) by done. by split.
  - destruct l as [|x l]; cbn [length Nat.eqb]; by moves.
Qed.

Lemma transition_on_spec event state w :
  state_ok coordinator tokens state →
  event_ok coordinator tokens event state
    (from_option (λ p, omap id (progress_blocks p)) [] (match state with Retracted s => Some (retracted_progress s) | _ => None end) ++ F) →
  accounts w (state_refs state ++ event_refs event ++ F) (state_slots state ++ event_slots event ++ R)
    (state_shares state ++ event_shares event ++ B) →
  answers (row_free w) event state (transition_on coordinator tokens event state w).
Proof.
  intros Hst Hev Hac. destruct event; cbn [transition_on].
  - by apply first_chunk_spec.
  - by apply schedule_chunk_spec.
  - destruct state; cbn [schedule_decode]; try (by apply answers_invalid); moves; try done; by destruct Hst.
  - by apply finish_spec.
  - by apply release_pages_spec.
  - by apply abort_spec.
  - by apply snapshot_retract_spec.
  - by apply store_landed_spec.
  - by apply restore_spec.
  - by apply restore_done_spec.
  - destruct state; cbn [update_reserve]; try (by apply answers_invalid); by moves.
  - by apply extend_result_spec.
  - destruct state; cbn [bootstrapped]; try (by apply answers_invalid); by moves.
  - destruct state; cbn [succeeded]; try (by apply answers_invalid); by moves.
  - destruct state; cbn [remote_prefill_done]; try (by apply answers_invalid); by moves.
  - destruct state; cbn [start_prefetch]; try (by apply answers_invalid); by moves.
  - destruct state as [| |[] a wait| | | | | | | | |]; cbn [finish_prefetch]; try (by apply answers_invalid); by moves.
Qed.
End transitions.

(** ** Events *)

Lemma size32_small {A} (l : list A) : Z.of_nat (length l) ≤ INT32_MAX → size32 l = Z.of_nat (length l).
Proof.
  intros Hl. unfold size32, wrap32. unfold INT32_MAX in Hl. rewrite Z.mod_small by lia. cbn zeta.
  by rewrite (proj2 (Z.ltb_lt _ _)) by lia.
Qed.

Lemma generated_Ok coordinator self :
  request_ok coordinator self →
  GeneratedTokens self = Ok (Z.of_nat (length (tokens_ (token_container_ self))) - submitted_prompt_size_ self).
Proof.
  intros [_ Hsize Hpos _]. unfold GeneratedTokens, TokenSize. rewrite size32_small by lia.
  rewrite i32_Ok by (unfold INT32_MIN; lia). cbn. f_equal. lia.
Qed.

Lemma state_ok_extend coordinator tokens l state : state_ok coordinator tokens state → state_ok coordinator (Extend l tokens) state.
Proof. done. Qed.

(** What a request holds outside of its image. *)
Definition beside_image (self : Request) : list nat :=
  match state_ self with Retracted s => omap id (progress_blocks (retracted_progress s)) | _ => [] end.

(** The request has what it is given, others have [F], [R] and [B]. *)
Definition given_to (event : Event) (self : Request) (F : list nat) (R : list Z) (B : list nat) (w : world) : Prop :=
  accounts w (state_refs (state_ self) ++ event_refs event ++ F) (state_slots (state_ self) ++ event_slots event ++ R)
    (state_shares (state_ self) ++ event_shares event ++ B).
Definition holds (self : Request) (F : list nat) (R : list Z) (B : list nat) (w : world) : Prop :=
  accounts w (state_refs (state_ self) ++ F) (state_slots (state_ self) ++ R) (state_shares (state_ self) ++ B).

Lemma brings_fit coordinator event self F :
  event_ok coordinator (token_container_ self) event (state_ self) (beside_image self ++ F) → request_ok coordinator self →
  Z.of_nat (length (tokens_ (token_container_ self)) + length (brings event (state_ self))) ≤ INT32_MAX.
Proof.
  intros Hev [_ Hsize _ _]. destruct event; cbn [brings]; try (cbn; lia); cbn in Hev; destruct (state_ self); cbn; lia.
Qed.

Lemma apply_spec coordinator event self w F R B :
  0 ≤ replay_window_tokens_ coordinator → request_ok coordinator self →
  event_ok coordinator (token_container_ self) event (state_ self) (beside_image self ++ F) → given_to event self F R B w →
  match Apply coordinator event (w, self) with
  | (Ok _, (w', self')) =>
      accepts (row_free w) event (state_ self) = true ∧ request_ok coordinator self' ∧ holds self' F R B w' ∧
      tokens_ (token_container_ self') = tokens_ (token_container_ self) ++ brings event (state_ self)
  | (Raise e, (w', self')) =>
      accepts (row_free w) event (state_ self) = false ∧ thrown e ∧ request_ok coordinator self' ∧ holds self' F R B w' ∧
      state_ self' = state_ self ∧ token_container_ self' = token_container_ self
  end.
Proof.
  intros Hw Hok Hev Hg. unfold Apply. pose proof (generated_Ok _ _ Hok) as Hgen. pose proof (brings_fit _ _ _ _ Hev Hok) as Hfit.
  assert (∃ self1, (if stamps_admission event then n ← GeneratedTokens self; Ok (set_admission n self) else Ok self) = Ok self1 ∧
    state_ self1 = state_ self ∧ token_container_ self1 = token_container_ self ∧ submitted_prompt_size_ self1 = submitted_prompt_size_ self)
    as (self1 & -> & Hs & Ht & Hsub).
  { destruct (stamps_admission event); [rewrite Hgen|]; by eexists. }
  rewrite Hs, Ht. destruct Hok as [Hp Hsize Hpos Hst].
  pose proof (transition_on_spec coordinator Hw (token_container_ self) ltac:(lia) F R B event (state_ self) w Hst) as Htr.
  assert (event_ok coordinator (token_container_ self) event (state_ self)
    (from_option (λ p, omap id (progress_blocks p)) [] (match state_ self with Retracted s => Some (retracted_progress s) | _ => None end) ++ F)) as Hev'.
  { unfold beside_image in Hev. by destruct (state_ self). }
  specialize (Htr Hev' Hg). destruct (transition_on _ _ _ _ _) as [[[[tokens' next] rest]|e] w1].
  - destruct Htr as (Ha & -> & Hnext & Hac).
    destruct (drop_all_spec w1 (state_blob rest) (state_blocks rest) (state_row rest) (state_refs next ++ F) (state_slots next ++ R) (state_shares next ++ B))
      as (w2 & Hdrop & Hac2).
    { eapply accounts_perm; [..|exact Hac]; solve_Permutation. }
    unfold drop_state. rewrite Hdrop. split; [done|]. split; [|done]. split; cbn [set_state token_container_ submitted_prompt_size_ state_ Extend tokens_].
    + by rewrite Hsub.
    + rewrite Hsub, length_app. lia.
    + by rewrite Hsub.
    + done.
  - destruct Htr as (Ha & Hth & Hac).
    destruct (drop_all_spec w1 (event_blob event) (event_blocks event) (event_row event) (state_refs (state_ self) ++ F) (state_slots (state_ self) ++ R)
      (state_shares (state_ self) ++ B)) as (w2 & Hdrop & Hac2).
    { eapply accounts_perm; [..|exact Hac]; solve_Permutation. }
    unfold drop_event. destruct e; try done; rewrite Hdrop; (split; [done|]); (split; [done|]); rewrite <- Hs, <- Ht; split_and!; try done.
    all: try (split; rewrite ?Hs, ?Ht, ?Hsub; done). all: unfold holds; by rewrite Hs.
Qed.

(** ** Lives of requests *)

(** A request with the world around it: it is submitted, events are applied to it with
    what they hold, successfully or not, forwards are scheduled and their results land,
    and meanwhile others change the world. *)
Inductive lives (coordinator : CacheCoordinator) : world → Request → list nat → list Z → list nat → Prop :=
  | lives_submit w spec prefix_granularity role F R B :
      Z.of_nat (length (spec_tokens spec)) ≤ INT32_MAX → accounts w F R B →
      lives coordinator w (Request_new spec prefix_granularity role) F R B
  | lives_others w w' self F R B F' R' B' :
      lives coordinator w self F R B → holds self F' R' B' w' → lives coordinator w' self F' R' B'
  | lives_event w self event F R B answer w' self' :
      lives coordinator w self (event_refs event ++ F) (event_slots event ++ R) (event_shares event ++ B) →
      event_ok coordinator (token_container_ self) event (state_ self) (beside_image self ++ F) →
      Apply coordinator event (w, self) = (answer, (w', self')) → lives coordinator w' self' F R B
  | lives_scheduled w self F R B self' :
      lives coordinator w self F R B → TrackScheduledForward self = Ok self' → lives coordinator w self' F R B
  | lives_landed w self F R B self' :
      lives coordinator w self F R B → NoteResultLanded self = Ok self' → lives coordinator w self' F R B.

Lemma request_new_ok coordinator spec prefix_granularity role :
  Z.of_nat (length (spec_tokens spec)) ≤ INT32_MAX → request_ok coordinator (Request_new spec prefix_granularity role).
Proof.
  intros Hlen. pose proof (size32_small (spec_tokens spec) Hlen) as Hs. split; cbn; rewrite ?Hs; try lia. by destruct role.
Qed.

Lemma request_new_holds spec prefix_granularity role F R B w : accounts w F R B → holds (Request_new spec prefix_granularity role) F R B w.
Proof. unfold holds. by destruct role. Qed.

Lemma in_flight_ok coordinator self r n :
  request_ok coordinator self → resources_of (state_ self) = Some r → 0 ≤ n →
  request_ok coordinator (set_state (token_container_ self) (set_resources (set_in_flight n r) (state_ self)) self).
Proof.
  intros [Hp Hsize Hpos Hst] Hr Hn. split; try done. cbn [state_ set_state token_container_].
  destruct (state_ self) eqn:E; cbn in Hr |- *; try done; injection Hr as <-; cbn in Hst;
    [by destruct Hst as [[] ?]..|by destruct Hst| |by destruct Hst].
  by destruct Hst as (? & ? & ? & ?).
Qed.

Lemma in_flight_holds self r n F R B w :
  resources_of (state_ self) = Some r → holds self F R B w →
  holds (set_state (token_container_ self) (set_resources (set_in_flight n r) (state_ self)) self) F R B w.
Proof.
  intros Hr Hh. unfold holds in *. cbn [state_ set_state]. destruct (state_ self); cbn in Hr; try done; by injection Hr as <-.
Qed.

Lemma lives_ok coordinator w self F R B :
  0 ≤ replay_window_tokens_ coordinator → lives coordinator w self F R B → request_ok coordinator self ∧ holds self F R B w.
Proof.
  intros Hw Hl. induction Hl as [w spec P role F R B Hlen Hac|w w' self F R B F' R' B' _ [Hok _] Hh|w self event F R B answer w' self' _ [Hok Hh] Hev Hrun
    |w self F R B self' _ [Hok Hh] Hrun|w self F R B self' _ [Hok Hh] Hrun].
  - split; [by apply request_new_ok|by apply request_new_holds].
  - done.
  - pose proof (apply_spec coordinator event self w F R B Hw Hok Hev Hh) as Ha. rewrite Hrun in Ha. by destruct answer; destruct_and?.
  - unfold TrackScheduledForward in Hrun. destruct (resources_of (state_ self)) as [r|] eqn:Hr; [|by injection Hrun as <-].
    apply bind_Ok in Hrun as (n & [-> _]%i32_bounds & [= <-]). split; [|by apply in_flight_holds]. apply in_flight_ok; [done|done|].
    destruct Hok as [_ _ _ Hst]. destruct (state_ self); cbn in Hr; try done; injection Hr as <-; cbn in Hst; destruct_and?;
      repeat match goal with H : runs_on _ _ |- _ => destruct H end; lia.
  - unfold NoteResultLanded in Hrun. destruct (resources_of (state_ self)) as [r|] eqn:Hr; [|by injection Hrun as <-].
    apply bind_Ok in Hrun as ([] & Hpos%FatalCheck_Ok & [= <-]). split; [|by apply in_flight_holds]. apply in_flight_ok; [done|done|lia].
Qed.

(** C8: In every state a request can reach, an event is applied exactly when the state
    machine has the transition and its guard holds, and throws otherwise, leaving state
    and tokens as they are.  Either way each block, row of the request pool and share of
    a blob slot that the request or the event held is afterwards held by the request or
    given back, and never twice; a finished request holds nothing. *)
Theorem request_lifecycle_exact coordinator w self event F R B :
  0 ≤ replay_window_tokens_ coordinator →
  lives coordinator w self (event_refs event ++ F) (event_slots event ++ R) (event_shares event ++ B) →
  event_ok coordinator (token_container_ self) event (state_ self) (beside_image self ++ F) →
  request_ok coordinator self ∧
  match Apply coordinator event (w, self) with
  | (Ok _, (w', self')) =>
      accepts (row_free w) event (state_ self) = true ∧ holds self' F R B w' ∧
      tokens_ (token_container_ self') = tokens_ (token_container_ self) ++ brings event (state_ self) ∧
      (state_ self' = Finished → accounts w' F R B)
  | (Raise e, (w', self')) =>
      accepts (row_free w) event (state_ self) = false ∧ thrown e ∧ holds self' F R B w' ∧
      state_ self' = state_ self ∧ token_container_ self' = token_container_ self
  end.
Proof.
  intros Hw Hl Hev. destruct (lives_ok _ _ _ _ _ _ Hw Hl) as [Hok Hh]. split; [done|].
  pose proof (apply_spec coordinator event self w F R B Hw Hok Hev Hh) as Ha.
  destruct (Apply coordinator event (w, self)) as [[u|e] [w' self']].
  - destruct Ha as (Hacc & _ & Hh' & Htok). split_and!; try done. intros Hfin. unfold holds in Hh'. by rewrite Hfin in Hh'.
  - by destruct Ha as (Hacc & Hth & _ & Hh' & Hs & Ht).
Qed.

(** ** Suspending and resuming *)

Lemma run_bind_inv {S A B} (m : M S A) (k : A → M S B) s b s' :
  (m ≫= k) s = (Ok b, s') → ∃ a s1, m s = (Ok a, s1) ∧ k a s1 = (Ok b, s').
Proof. unfold mbind, M_bind. destruct (m s) as [[a|e] s1]; [|done]. intros Hk. by exists a, s1. Qed.

(** The request but for its state and its admission stamp. *)
Lemma Apply_inv coordinator event w self u w' self' :
  Apply coordinator event (w, self) = (Ok u, (w', self')) →
  ∃ tokens next rest w1, transition_on coordinator (token_container_ self) event (state_ self) w = (Ok (tokens, next, rest), w1) ∧
    state_ self' = next ∧ token_container_ self' = tokens.
Proof.
  unfold Apply. assert (∀ n, token_container_ (set_admission n self) = token_container_ self ∧ state_ (set_admission n self) = state_ self) as Hset by done.
  destruct (if stamps_admission event then _ else _) as [self1|e] eqn:Hstamp; [|done].
  assert (token_container_ self1 = token_container_ self ∧ state_ self1 = state_ self) as [-> ->].
  { destruct (stamps_admission event); [|by injection Hstamp as <-]. by apply bind_Ok in Hstamp as (n & _ & [= <-]). }
  destruct (transition_on _ _ _ _ _) as [[[[tokens next] rest]|e] w1].
  - intros Hrun. exists tokens, next, rest, w1. split; [done|]. destruct (drop_state rest w1) as [r w2]. by injection Hrun as _ _ <-.
  - destruct e; try done; by destruct (drop_event event w1) as [[]].
Qed.

Fixpoint apply_all (coordinator : CacheCoordinator) (events : list Event) : M rworld () :=
  match events with
  | [] => mret ()
  | event :: events => Apply coordinator event ;; apply_all coordinator events
  end.

(** Where a running request stopped, and the state it resumes in. *)
Definition shape_of (state : State) : option ResumeShape :=
  match state with
  | Prefilling _ window reserve => Some (ResumePrefilling window reserve)
  | PrefillDone _ window reserve _ => Some (ResumePrefillDone window reserve)
  | Decoding _ reserve _ => Some (ResumeDecoding reserve)
  | _ => None
  end.
Definition resumed (shape : ResumeShape) (r : ForwardResources) : State :=
  match shape with
  | ResumePrefilling window reserve => Prefilling r window reserve
  | ResumePrefillDone window reserve => PrefillDone r window reserve true
  | ResumeDecoding reserve => Decoding r reserve true
  end.

Lemma retract_next coordinator epoch resumes image blob pending w self r shape w' self' :
  let event := SnapshotRetractEvent epoch resumes image blob pending in
  resources_of (state_ self) = Some r → shape_of (state_ self) = Some shape →
  Apply coordinator event (w, self) = (Ok (), (w', self')) →
  state_ self' = Retracted (mkRetracted (resources_granularity r) (cache_progress r) image blob shape epoch resumes pending) ∧
  token_container_ self' = token_container_ self.
Proof.
  intros event Hr Hs (tokens & next & rest & w1 & Htr & -> & ->)%Apply_inv. cbn [event transition_on] in Htr.
  assert (∀ st, retract coordinator (token_container_ self) epoch resumes image blob pending r shape st w = (Ok (tokens, next, rest), w1) →
    next = Retracted (mkRetracted (resources_granularity r) (cache_progress r) image blob shape epoch resumes pending) ∧ tokens = token_container_ self) as Hretract.
  { intros st Hrun. unfold retract in Hrun. apply run_bind_inv in Hrun as ([] & ? & _ & Hrun). apply run_bind_inv in Hrun as (ts & ? & _ & Hrun). by injection Hrun as <- <- _ _. }
  destruct (state_ self); try done; injection Hs as <-; injection Hr as <-; cbn [snapshot_retract] in Htr; try by eapply Hretract.
  apply run_bind_inv in Htr as (n & w2 & Hn & Htr). unfold const, decoding_reserve in Hn. destruct (0 <=? reserve); [|done].
  injection Hn as <- <-. by eapply Hretract.
Qed.

Lemma follow_slots_length published slots h slots' h' : follow_slots published slots h = (Ok slots', h') → length slots' = length slots.
Proof.
  revert h slots' h'. induction slots as [|slot slots IH]; intros h slots' h' Hrun; [by injection Hrun as <- _|].
  apply run_bind_inv in Hrun as (slot1 & h1 & _ & Hrun). apply run_bind_inv in Hrun as (slots1 & h2 & Hrun1 & Hrun).
  injection Hrun as <- _. cbn. by rewrite (IH _ _ _ Hrun1).
Qed.

Lemma FollowPublished_length published image h image' h' :
  FollowPublished published image h = (Ok image', h') → length (image_blocks image') = length (image_blocks image).
Proof.
  revert h image' h'. induction image as [|t image IH]; intros h image' h' Hrun; [by injection Hrun as <- _|].
  apply run_bind_inv in Hrun as (slots1 & h1 & Hslots & Hrun). apply run_bind_inv in Hrun as (image1 & h2 & Hrun1 & Hrun).
  injection Hrun as <- _. specialize (IH _ _ _ Hrun1). unfold image_blocks in *. cbn. rewrite !length_app, !length_fmap. cbn.
  by rewrite (follow_slots_length _ _ _ _ _ Hslots), IH.
Qed.

Lemma landed_next coordinator op_id published w self s w' self' :
  state_ self = Retracted s → Apply coordinator (StoreLandedEvent op_id published) (w, self) = (Ok (), (w', self')) →
  ∃ image, state_ self' = Retracted (mkRetracted (retracted_granularity s) (retracted_progress s) image (retracted_blob s) (retracted_shape s)
      (retraction_epoch s) (resumes_generation s) (filter (λ op, op ≠ op_id) (pending_store_ops s))) ∧
    length (image_blocks image) = length (image_blocks (retracted_image s)) ∧ token_container_ self' = token_container_ self.
Proof.
  intros Hs (tokens & next & rest & w1 & Htr & -> & ->)%Apply_inv. rewrite Hs in Htr. cbn [transition_on store_landed] in Htr.
  apply run_bind_inv in Htr as (image & w2 & Hrun & Htr). injection Htr as <- <- _ _. exists image. split; [done|]. split; [|done].
  unfold on_memory, within in Hrun. destruct (FollowPublished published (retracted_image s) (memory w)) as [r h] eqn:E.
  injection Hrun as -> _. by eapply FollowPublished_length.
Qed.

Lemma filter_not_nil (l : list Z) : filter (λ op, op ∉ (@nil (Z * list HostPublication)).*1) l = l :> list Z.
Proof. induction l as [|x l IH]; [done|]. rewrite filter_cons_True by set_solver. by rewrite IH. Qed.

Lemma filter_none (gone l : list Z) : l ⊆ gone → filter (λ op, op ∉ gone) l = [] :> list Z.
Proof. induction l as [|x l IH]; [done|]. intros Hsub. rewrite filter_cons_False by set_solver. apply IH. set_solver. Qed.

(** The stores of an image land, in whatever order. *)
Lemma landed_run coordinator landed w self s F R B :
  0 ≤ replay_window_tokens_ coordinator → request_ok coordinator self → holds self F R B w → state_ self = Retracted s →
  Forall (λ l, published_in l.2 F) landed →
  Z.of_nat (length (image_blocks (retracted_image s)) + length (omap id (progress_blocks (retracted_progress s)) ++ F)) < UINT32_MAX →
  ∃ w' self' image, apply_all coordinator ((λ l, StoreLandedEvent l.1 l.2) <$> landed) (w, self) = (Ok (), (w', self')) ∧
    state_ self' = Retracted (mkRetracted (retracted_granularity s) (retracted_progress s) image (retracted_blob s) (retracted_shape s)
      (retraction_epoch s) (resumes_generation s) (filter (λ op, op ∉ landed.*1) (pending_store_ops s))) ∧
    token_container_ self' = token_container_ self ∧ request_ok coordinator self' ∧ holds self' F R B w'.
Proof.
  intros Hw Hok Hh Hs Hpub. revert w self s Hok Hh Hs. induction Hpub as [|[op published] landed Hp Hpub IH]; intros w self s Hok Hh Hs Hroom.
  - exists w, self, (retracted_image s). split; [done|]. split; [|done]. rewrite Hs, filter_not_nil. by destruct s.
  - set (event := StoreLandedEvent op published).
    assert (event_ok coordinator (token_container_ self) event (state_ self) (beside_image self ++ F)) as Hev.
    { rewrite Hs. intros s' [= <-]. unfold beside_image. rewrite Hs. split; [|done]. eapply published_weaken; [exact Hp|]. set_solver. }
    assert (given_to event self F R B w) as Hg by done.
    pose proof (apply_spec coordinator event self w F R B Hw Hok Hev Hg) as Ha. rewrite Hs in Ha.
    cbn [fmap list_fmap apply_all fst snd]. fold event.
    destruct (Apply coordinator event (w, self)) as [[[]|e] [w1 self1]] eqn:Hrun; [|by destruct Ha as [? _]].
    destruct Ha as (_ & Hok1 & Hh1 & _). destruct (landed_next _ _ _ _ _ _ _ _ Hs Hrun) as (image & Hs1 & Hlen & Htok).
    rewrite (run_bind_Ok _ _ _ _ _ Hrun). destruct (IH w1 self1 _ Hok1 Hh1 Hs1) as (w2 & self2 & image2 & Hrun2 & Hs2 & Htok2 & Hok2 & Hh2).
    { cbn [retracted_image retracted_progress]. by rewrite Hlen. }
    exists w2, self2, image2. split; [done|]. split_and!; try done; [|congruence]. rewrite Hs2. cbn. do 2 f_equal.
    rewrite list_filter_filter. apply list_filter_iff. intros x. cbn. set_solver.
Qed.

Lemma restore_next coordinator tables op_id w self s w' self' :
  state_ self = Retracted s → Apply coordinator (ScheduleRestoreEvent tables op_id) (w, self) = (Ok (), (w', self')) →
  state_ self' = Restoring (mkRestoring (mkResources (retracted_granularity s) ReqPoolIndex_default tables (retracted_progress s) 0)
    (retracted_image s) (retracted_blob s) (retracted_shape s) op_id) ∧ token_container_ self' = token_container_ self.
Proof.
  intros Hs (tokens & next & rest & w1 & Htr & -> & ->)%Apply_inv. rewrite Hs in Htr. cbn [transition_on schedule_restore] in Htr.
  apply run_bind_inv in Htr as ([] & w2 & _ & Htr). apply run_bind_inv in Htr as ([] & w3 & _ & Htr). by injection Htr as <- <- _ _.
Qed.

Lemma done_next coordinator index w self s w' self' :
  state_ self = Restoring s → Apply coordinator (RestoreDoneEvent index) (w, self) = (Ok (), (w', self')) →
  let r := restoring_resources s in
  state_ self' = resumed (restoring_shape s) (mkResources (resources_granularity r) index (block_tables r) (cache_progress r) (results_in_flight r)) ∧
  token_container_ self' = token_container_ self.
Proof.
  intros Hs (tokens & next & rest & w1 & Htr & -> & ->)%Apply_inv. rewrite Hs in Htr. cbn [transition_on restore_done] in Htr.
  apply run_bind_inv in Htr as ([] & w2 & _ & Htr). apply run_bind_inv in Htr as ([] & w3 & _ & Htr).
  apply run_bind_inv in Htr as ([] & w4 & _ & Htr). by injection Htr as <- <- _ _.
Qed.

Lemma apply_all_app coordinator l k s s' :
  apply_all coordinator l s = (Ok (), s') → apply_all coordinator (l ++ k) s = apply_all coordinator k s'.
Proof.
  revert s. induction l as [|event l IH]; intros s Hrun; [by injection Hrun as <-|]. cbn [apply_all app] in *.
  apply run_bind_inv in Hrun as ([] & s1 & Hev & Hrun). rewrite (run_bind_Ok _ _ _ _ _ Hev). by apply IH.
Qed.

(** An accepted event is applied. *)
Lemma apply_accepted coordinator event self w F R B :
  0 ≤ replay_window_tokens_ coordinator → request_ok coordinator self →
  event_ok coordinator (token_container_ self) event (state_ self) (beside_image self ++ F) → given_to event self F R B w →
  accepts (row_free w) event (state_ self) = true →
  ∃ w' self', Apply coordinator event (w, self) = (Ok (), (w', self')) ∧ request_ok coordinator self' ∧ holds self' F R B w'.
Proof.
  intros Hw Hok Hev Hg Hacc. pose proof (apply_spec coordinator event self w F R B Hw Hok Hev Hg) as Ha. rewrite Hacc in Ha.
  destruct (Apply coordinator event (w, self)) as [[[]|e] [w' self']]; [|by destruct Ha].
  destruct Ha as (_ & ? & ? & _). by exists w', self'.
Qed.

(** A retraction, the stores of its image, and the restore. *)
Definition suspension (epoch : Z) (resumes : bool) (image : RetractionImage) (blob : option nat) (pending : list Z)
    (landed : list (Z * list HostPublication)) (tables : list BlockTable) (op_id : Z) (index : ReqPoolIndex) : list Event :=
  SnapshotRetractEvent epoch resumes image blob pending ::
  ((λ l, StoreLandedEvent l.1 l.2) <$> landed) ++ [ScheduleRestoreEvent tables op_id; RestoreDoneEvent index].

(** C9: Suspending a request and resuming it changes nothing it computes: after a
    retraction, the arrival of every store its image waits for in whatever order and
    with whatever publications, and the restore, a quiescent request is in the state it
    left, with the same window, reserve, cache progress and tokens, in the tables and
    the row it was given back; its old pages and row, the image and the blob slot are
    returned, and no event fails. *)
Theorem suspension_roundtrip coordinator w self r shape epoch resumes image blob pending landed tables op_id index F R B :
  0 ≤ replay_window_tokens_ coordinator → request_ok coordinator self →
  resources_of (state_ self) = Some r → shape_of (state_ self) = Some shape → shape_ok (token_container_ self) shape →
  results_in_flight r = 0 → length tables = length (groups_ coordinator) → owns index = true →
  accounts w (state_refs (state_ self) ++ omap id (image_blocks image) ++ omap id (table_blocks tables) ++ F)
    (held_by (req_pool_index r) ++ held_by index ++ R) (option_list blob ++ B) →
  pending ⊆ landed.*1 → Forall (λ l, published_in l.2 F) landed →
  Z.of_nat (length (image_blocks image) + length (omap id (progress_blocks (cache_progress r)) ++ omap id (table_blocks tables) ++ F)) < UINT32_MAX →
  ∃ w' self', apply_all coordinator (suspension epoch resumes image blob pending landed tables op_id index) (w, self) = (Ok (), (w', self')) ∧
    state_ self' = resumed shape (mkResources (resources_granularity r) index tables (cache_progress r) 0) ∧
    token_container_ self' = token_container_ self ∧ NumComputedTokens self' = NumComputedTokens self ∧ holds self' F R B w'.
Proof.
  intros Hw Hok Hr Hs Hshape Hflight Hlen Hix Hac Hpending Hpub Hroom.
  set (F1 := omap id (table_blocks tables) ++ F). set (R1 := held_by index ++ R).
  assert (state_slots (state_ self) = held_by (req_pool_index r) ∧ state_shares (state_ self) = []) as [Hslots Hshares].
  { unfold state_slots, state_row. rewrite Hr. split; [done|]. by destruct (state_ self). }
  destruct (apply_accepted coordinator (SnapshotRetractEvent epoch resumes image blob pending) self w F1 R1 B) as (w1 & self1 & Hrun1 & Hok1 & Hh1); try done.
  { unfold given_to. by rewrite Hslots, Hshares. }
  { destruct (state_ self); try done; injection Hr as <-; injection Hs as <-; cbn [accepts shape_ok] in *; lia. }
  destruct (retract_next _ _ _ _ _ _ _ _ _ _ _ _ Hr Hs Hrun1) as [Hs1 Ht1].
  destruct (landed_run coordinator landed w1 self1 _ F1 R1 B Hw Hok1 Hh1 Hs1) as (w2 & self2 & image2 & Hrun2 & Hs2 & Ht2 & Hok2 & Hh2); [|done|].
  { eapply Forall_impl; [exact Hpub|]. intros l Hl. eapply published_weaken; [exact Hl|]. set_solver. }
  cbn [retracted_granularity retracted_progress retracted_blob retracted_shape retraction_epoch resumes_generation pending_store_ops] in Hs2.
  assert (filter (λ op, op ∉ landed.*1) pending = []) as Hnone.
  { by apply filter_none. }
  rewrite Hnone in Hs2.
  destruct (apply_accepted coordinator (ScheduleRestoreEvent tables op_id) self2 w2 F R1 B) as (w3 & self3 & Hrun3 & Hok3 & Hh3); try done.
  { by rewrite Hs2. }
  destruct (restore_next _ _ _ _ _ _ _ _ Hs2 Hrun3) as [Hs3 Ht3].
  destruct (apply_accepted coordinator (RestoreDoneEvent index) self3 w3 F R B) as (w4 & self4 & Hrun4 & Hok4 & Hh4); try done.
  { by rewrite Hs3. }
  destruct (done_next _ _ _ _ _ _ _ Hs3 Hrun4) as [Hs4 Ht4].
  assert (token_container_ self4 = token_container_ self) as Ht by congruence.
  exists w4, self4. split; [|split_and!; [done|done| |done]].
  - unfold suspension. cbn [apply_all]. rewrite (run_bind_Ok _ _ _ _ _ Hrun1), (apply_all_app _ _ _ _ _ Hrun2).
    cbn [apply_all]. by rewrite (run_bind_Ok _ _ _ _ _ Hrun3), (run_bind_Ok _ _ _ _ _ Hrun4).
  - unfold NumComputedTokens. rewrite Hs4, Ht. cbn [restoring_shape]. by destruct (state_ self); try done; injection Hs as <-.
Qed.

(** ** A chunk's model inputs *)

(** The chunk a request is in. *)
Definition window_of (state : State) : option Window :=
  match state with
  | Prefilling _ w _ | RemotePrefilling _ w _ | PrefillDone _ w _ _ | PrefillAwaitingResult _ w _ => Some w
  | _ => None
  end.

Lemma window_ok coordinator self window :
  request_ok coordinator self → window_of (state_ self) = Some window → window_in (token_container_ self) window.
Proof.
  intros [_ _ _ Hst] Hw. destruct (state_ self); try done; injection Hw as <-; cbn in Hst; [by destruct Hst as [_ [Hin _]]|by destruct Hst..].
Qed.

Lemma slice_Ok l start size :
  0 ≤ start → 0 ≤ size → start + size ≤ Z.of_nat (length l) → slice l start size = Ok (take (Z.to_nat size) (drop (Z.to_nat start) l)).
Proof.
  intros H1 H2 H3. unfold slice. by rewrite (proj2 (Z.leb_le _ _) H1), (proj2 (Z.leb_le _ _) H2), (proj2 (Z.leb_le _ _) H3).
Qed.

Lemma slice_lookup {A} (l : list A) start size i :
  0 ≤ start → 0 ≤ i < size → take (Z.to_nat size) (drop (Z.to_nat start) l) !! Z.to_nat i = l !! Z.to_nat (start + i).
Proof.
  intros H1 H2. rewrite lookup_take_lt, lookup_drop by lia. f_equal. lia.
Qed.

(** The inputs shifted by one: what follows in the prompt, then padding. *)
Lemma shifted_exact tokens window :
  0 ≤ begin_ window → 0 < window_size window → begin_ window + window_size window ≤ PrefillSize tokens →
  PrefillSize tokens ≤ Z.of_nat (length (tokens_ tokens)) → PrefillSize tokens < INT32_MAX →
  ∃ shifted, ComputeShiftedInputIds tokens window = Ok shifted ∧ Z.of_nat (length shifted) = window_size window ∧
    ∀ i, 0 ≤ i < window_size window →
      shifted !! Z.to_nat i = if begin_ window + i + 1 <? PrefillSize tokens then tokens_ tokens !! Z.to_nat (begin_ window + i + 1) else Some (-1).
Proof.
  intros Hb Hs Hle Hlen Hmax. unfold ComputeShiftedInputIds. rewrite (i32_Ok (begin_ window + 1)) by (unfold INT32_MIN; lia).
  cbn [mbind result_bind]. rewrite i32_Ok by (unfold INT32_MIN; lia). cbn [mbind result_bind].
  set (stop := Z.min (PrefillSize tokens) (begin_ window + 1 + window_size window)).
  rewrite i32_Ok by (unfold INT32_MIN, stop; lia). cbn [mbind result_bind]. rewrite (proj2 (Z.ltb_ge (window_size window) 0)) by lia. cbn [raise_when mbind result_bind].
  set (n := Z.max 0 (stop - (begin_ window + 1))).
  assert (∃ l, (if 0 <? n then TokenSlice (mkWindow (begin_ window + 1) n 0) tokens else Ok []) = Ok l ∧ Z.of_nat (length l) = n ∧
    ∀ i, 0 ≤ i < n → l !! Z.to_nat i = tokens_ tokens !! Z.to_nat (begin_ window + 1 + i)) as (l & -> & Hl & Hat).
  { destruct (Z.ltb_spec 0 n) as [Hn|Hn]; [|exists []; split; [done|]; split; [cbn; lia|intros; lia]].
    eexists. unfold TokenSlice. cbn [begin_ window_size]. rewrite slice_Ok by (unfold n, stop in *; lia). split; [done|]. split.
    - rewrite length_take, length_drop. unfold n, stop in *. lia.
    - intros i Hi. apply slice_lookup; lia. }
  eexists. split; [reflexivity|]. split; [rewrite length_app, length_take, length_replicate; unfold n, stop in *; lia|].
  intros i Hi. rewrite take_ge by (unfold n, stop in *; lia). destruct (Z.ltb_spec (begin_ window + i + 1) (PrefillSize tokens)) as [Hin|Hout].
  - rewrite lookup_app_l by (unfold n, stop in *; lia). rewrite Hat by (unfold n, stop in *; lia). f_equal. lia.
  - rewrite lookup_app_r by (unfold n, stop in *; lia). apply lookup_replicate. unfold n, stop in *. lia.
Qed.

(** C14: The model inputs of a chunk are exact: a request that is in a chunk feeds the
    chunk's tokens preceded by the tokens it replays, and with each of them the token
    that follows it in the prompt, or padding at the prompt's end; the progress it
    reports ends where the chunk does. *)
Theorem prefill_inputs_exact coordinator self window :
  request_ok coordinator self → window_of (state_ self) = Some window → submitted_prompt_size_ self < INT32_MAX →
  ∃ info, CurrentPrefillInfo self = Ok info ∧
    already_scheduled_len info + extend_len info = begin_ window + window_size window ∧
    extend_len info = window_size window + replay_len info ∧ replay_len info = replay window ∧
    Z.of_nat (length (input_ids info)) = extend_len info ∧ Z.of_nat (length (shifted_input_ids info)) = extend_len info ∧
    ∀ i, 0 ≤ i < extend_len info →
      let position := already_scheduled_len info + i in
      input_ids info !! Z.to_nat i = tokens_ (token_container_ self) !! Z.to_nat position ∧
      shifted_input_ids info !! Z.to_nat i =
        (if position + 1 <? submitted_prompt_size_ self then tokens_ (token_container_ self) !! Z.to_nat (position + 1) else Some (-1)).
Proof.
  intros Hok Hwin Hmax. pose proof (window_ok _ _ _ Hok Hwin) as (Hrep & Hsize & Hend). destruct Hok as [Hp Hlen Hpos _].
  assert (CurrentPrefillInfo self = MakePrefillInfo (token_container_ self) window) as ->.
  { unfold CurrentPrefillInfo. destruct (state_ self); try done; by injection Hwin as <-. }
  unfold MakePrefillInfo. rewrite (proj2 (Z.leb_le 0 (replay window))), (proj2 (Z.leb_le (replay window) _)) by lia. cbn [andb].
  cbn [_assert mbind result_bind]. rewrite i32_Ok by (unfold INT32_MIN; lia). cbn [mbind result_bind].
  rewrite i32_Ok by (unfold INT32_MIN; lia). cbn [mbind result_bind].
  unfold TokenSlice at 1. cbn [begin_ window_size]. rewrite slice_Ok by lia. cbn [mbind result_bind].
  destruct (shifted_exact (token_container_ self) (mkWindow (begin_ window - replay window) (window_size window + replay window) 0))
    as (shifted & -> & Hshift & Hat); cbn [begin_ window_size] in *; [lia..|]. cbn [mbind result_bind].
  eexists. split; [reflexivity|]. cbn [already_scheduled_len extend_len replay_len input_ids shifted_input_ids].
  split_and!; try done; [lia|rewrite length_take, length_drop; lia|]. intros i Hi. cbn zeta. split; [apply slice_lookup; lia|].
  by rewrite <- Hp, Hat by lia.
Qed.

(** ** A small world *)

(** A group over [some_allocator], its pool with four blocks acquired, a request pool
    of two rows and one blob slot. *)
Definition one_group : CacheCoordinator :=
  mkCoordinator (group_for 0 <$> take 1 (SchedulerConfig.cache_groups some_config)) [] [] 2 4 0 None None false false.
Definition four_blocks : heap := (run_op some_allocator 0 (OpAcquire (mkPlan 4 0 4 0)) (some_heap, empty_table)).2.1.
Definition table_of (c : nat) : BlockTable := mkTable [Some c] 0 0.
Definition some_world (free : list Z) (shared : list (Z * ReqPoolIndex)) : world :=
  mkWorld four_blocks (mkReqPool 2 free) (mkReqPool 1 (match shared with [] => [1] | _ => [] end)) shared.

Lemma four_blocks_owned : owned four_blocks [0; 1; 2; 3]%nat.
Proof.
  pose proof (run_op_triple some_allocator 0 (OpAcquire (mkPlan 4 0 4 0)) [] (some_heap, empty_table)) as Hrun.
  assert (own some_allocator 0 (may_run (OpAcquire (mkPlan 4 0 4 0)) []) [] (some_heap, empty_table)) as Hpre.
  { split; [exact some_heap_placed|]. split; [exact some_heap_owned|]. split; discriminate. }
  specialize (Hrun Hpre). clear Hpre. unfold four_blocks. revert Hrun.
  destruct (run_op some_allocator 0 (OpAcquire (mkPlan 4 0 4 0)) (some_heap, empty_table)) as [out s] eqn:E.
  vm_compute in E. injection E as <- <-. intros (_ & How & _). exact How.
Qed.

Lemma some_world_accounts free slots : free ++ slots ≡ₚ [1; 2] → accounts (some_world free []) [0; 1; 2; 3]%nat slots [].
Proof.
  intros Hp. split; [exact four_blocks_owned|exact Hp|intros n c ix Hn; discriminate Hn|intros n []%not_elem_of_nil|reflexivity].
Qed.

(** A prompt of six tokens whose first chunk takes block 0 and a row; then it is aborted. *)
Lemma request_lifecycle_exact_witness :
  let spec := mkSpec "r" [7; 8; 9; 10; 11; 12] 10 (-1) in
  let chunk := SchedulePrefillFirstChunkEvent 4 1 kLocal [table_of 0] 0 (mkProgress [] 0 0 0 [] []) false in
  ∃ w self w' self', Apply one_group chunk (some_world [1; 2] [], Request_new spec 4 kFused) = (Ok (), (w, self)) ∧
    HoldsPages self = true ∧ Apply one_group AbortEvent (w, self) = (Ok (), (w', self')) ∧
    state_ self' = Finished ∧ accounts w' [1; 2; 3]%nat [] [].
Proof.
  intros spec chunk. destruct (Apply one_group chunk (some_world [1; 2] [], Request_new spec 4 kFused)) as [answer [w self]] eqn:Hchunk.
  assert (lives one_group w self [1; 2; 3]%nat [] []) as Hlives.
  { eapply (lives_event _ (some_world [1; 2] []) (Request_new spec 4 kFused) chunk); [|done|exact Hchunk].
    apply lives_submit; [by vm_compute|]. by apply some_world_accounts. }
  pose proof (request_lifecycle_exact one_group w self AbortEvent [1; 2; 3]%nat [] [] ltac:(done) Hlives I) as [_ Habort].
  vm_compute in Hchunk. injection Hchunk as <- <- <-. eexists _, _, _, _. split; [reflexivity|]. split; [reflexivity|].
  split; [vm_compute; reflexivity|]. split; [reflexivity|]. vm_compute (Apply _ _ _) in Habort. by apply Habort.
Defined.

(** The same prompt, suspended after its first chunk: its image is in block 1, which the
    host cache replaces by block 3 when the store lands, and it resumes in block 2 and row 2. *)
Lemma suspension_roundtrip_witness :
  let progress := mkProgress [] 0 0 0 [] [] in
  let self := set_state (TokenContainer_new [7; 8; 9; 10; 11; 12])
    (Prefilling (mkResources 4 (ReqPool.mkIndex 1 true) [table_of 0] progress 0) (mkWindow 0 4 0) 1)
    (Request_new (mkSpec "r" [7; 8; 9; 10; 11; 12] 10 (-1)) 4 kFused) in
  let image := [mkImage 1 0 0 [mkSlot 0 (Some 1%nat) (mkKey 0 0 "k" 0) 0 kChunk]] in
  let landed := [(5, [mkPublication (mkKey 0 0 "k" 0) (Some 3%nat)]); (6, [])] in
  ∃ w' self', apply_all one_group (suspension 1 true image (Some 0%nat) [6; 5] landed [table_of 2] 9 (ReqPool.mkIndex 2 true))
      (some_world [] [(1, ReqPool.mkIndex 1 true)], self) = (Ok (), (w', self')) ∧
    state_ self' = Prefilling (mkResources 4 (ReqPool.mkIndex 2 true) [table_of 2] progress 0) (mkWindow 0 4 0) 1 ∧
    holds self' [3%nat] [] [] w'.
Proof.
  intros progress self image landed.
  destruct (suspension_roundtrip one_group (some_world [] [(1, ReqPool.mkIndex 1 true)]) self
    (mkResources 4 (ReqPool.mkIndex 1 true) [table_of 0] progress 0) (ResumePrefilling (mkWindow 0 4 0) 1)
    1 true image (Some 0%nat) [6; 5] landed [table_of 2] 9 (ReqPool.mkIndex 2 true) [3%nat] [] [])
    as (w' & self' & Hrun & Hstate & _ & _ & Hholds); [done| |done|done| |done|done|done| |..].
  - split; done.
  - by split.
  - split; [exact four_blocks_owned|reflexivity|intros [|n] c ix Hn; [by injection Hn as <- _|discriminate Hn]| |reflexivity].
    intros n ->%list_elem_of_singleton. by eexists.
  - cbn. set_solver.
  - constructor; [|constructor; [constructor|constructor]]. constructor; [|constructor]. intros c [= <-]. set_solver.
  - done.
  - exists w', self'. split; [exact Hrun|]. split; [exact Hstate|exact Hholds].
Defined.

(** The second of two chunks of the prompt, replaying two tokens. *)
Lemma prefill_inputs_exact_witness :
  let self := set_state (TokenContainer_new [7; 8; 9; 10; 11; 12])
    (PrefillDone (mkResources 4 (ReqPool.mkIndex 1 true) [table_of 0] (mkProgress [] 0 0 0 [] []) 0) (mkWindow 4 2 2) 1 false)
    (Request_new (mkSpec "r" [7; 8; 9; 10; 11; 12] 10 (-1)) 4 kFused) in
  ∃ info, CurrentPrefillInfo self = Ok info ∧ input_ids info !! 0%nat = Some 9 ∧ shifted_input_ids info !! 3%nat = Some (-1).
Proof.
  intros self. destruct (prefill_inputs_exact one_group self (mkWindow 4 2 2)) as (info & Hinfo & Hend & Hext & Hrep & _ & _ & Hat);
    [by split; [..|split]|done|done|].
  cbn in Hend, Hext, Hrep. exists info. split; [exact Hinfo|].
  destruct (Hat 0 ltac:(lia)) as [Hin _]. destruct (Hat 3 ltac:(lia)) as [_ Hsh]. cbn zeta in Hin, Hsh.
  replace (already_scheduled_len info) with 2 in Hin, Hsh by lia. split; [exact Hin|exact Hsh].
Defined.
